(* ===== verification/_CoqProject ===== *)
-Q . S2P
Prelude.v
GoStrings.v
Glob.v
SitePath.v
SiteTrie.v
SiteRadix.v
SiteMatcher.v
GoFloat.v
PolicyBase.v
PolicySignal.v
PolicyAction.v
PolicyRotation.v
PolicySeverity.v
PolicyEvaluate.v
PolicyResolve.v
Authz.v
Admit.v
Breaker.v
Textdiff.v
GoTime.v
Durationx.v
LuaCommon.v
SchedState.v
SchedSelect.v
SchedAcquire.v
SchedLease.v
SchedLedger.v
SchedRefine.v
SchedGrant.v
SchedLoop.v
SchedRun.v
Scheduler.v
HotSync.v
HotPlan.v
ActionApply.v
ActionExec.v
StateRows.v
ActionExpiry.v
WorkerObserve.v
SiteScripts.v
SiteRun.v
IdGen.v
Effects.v
WorkerProcess.v
WorkerWindow.v
ReportStream.v
WorkerConsume.v
SignalIngest.v
ReportPath.v
WorkerOwner.v
OwnerBalance.v
Netip.v
Netx.v
AuthTokens.v
AuthCache.v
NotifyGuard.v
StateWriter.v
