(* ===== verification/Prelude.v ===== *)
(** * Spinneret: a verification library

    Spinneret hands out identities (accounts, cookies, tokens of scraped sites)
    to crawler nodes as leases.  A node acquires a lease of an identity for an
    endpoint group of a site, reports the outcome of its requests, renews and
    releases the lease.  PostgreSQL holds the configuration and the lifecycle of
    identities; Redis holds the hot state of every site, which Lua scripts read
    and write atomically.  This library models the parts of the Go and Lua
    sources under src/ that decide something, and proves what they promise.

    ** Parts and files

    Requests.  internal/site maps a request URI to an endpoint group:
    [SitePath] (path.go: normalisation and patterns), [SiteTrie] and [SiteRadix]
    (matcher.go: template trie, prefix tree) and [SiteMatcher] (matcher.go: rule
    ranking, NewMatcher, Match).  internal/authz decides what a caller may do:
    [Authz], with [Glob] (internal/pkg/glob) for token scopes.  [Admit]
    (internal/pkg/admit) bounds the requests in flight.

    API tokens and addresses.  [AuthTokens] holds the tokens of internal/auth:
    their plaintext (tokengen.go), their creation and revocation as programs of
    database calls (tokens.go, tokens_escalation.go, validate.go), the metadata of
    a request (requestmeta.go) and its authentication (authenticator.go).
    [AuthCache] is the cache in front of the table (tokencache.go) with its shared
    loads and its invalidation by events.  [Netx] (internal/pkg/netx) parses
    allowlists and finds the client behind proxies; [NotifyGuard] is the guard of
    the dialer of internal/notify (ssrf.go).  [Netip] models what they use of Go's
    net/netip.

    Policies.  internal/policy: [PolicyBase] (outcomes, kinds, validation,
    matchers), [PolicySignal] (classification of reports), [PolicyAction],
    [PolicySeverity] and [PolicyEvaluate] (planning of bans, cooldowns and
    quarantines), [PolicyRotation] (rotation and breaker policies) and
    [PolicyResolve] (bindings, extends chains, defaults).

    Leases.  internal/scheduler/lua on the hot state of a site: [LuaCommon]
    (internal/store/redis/lua/common.lua and Redis sorted sets), [SchedState]
    (the hashes and sets as one record, [Hot]), [SchedSelect] and [SchedAcquire]
    (acquire.lua and its five parts), [SchedLease] (renew.lua, release.lua,
    reap.lua, lease_end.lua).  A script is a function from its decoded arguments
    and the hot state to its reply and the new hot state, since Redis runs it
    atomically.  [SchedLedger] is the abstract specification, a ledger of leases
    with counters, expiry index, grants, extensions and ends; [SchedRefine],
    [SchedGrant], [SchedLoop] and [SchedRun] prove that the scripts implement
    it, and [Scheduler] states what follows, together with the reaper loop of
    internal/scheduler/reap.go.

    Breakers.  [Breaker]: the circuit breaker of an endpoint group under every
    script that writes it (internal/breaker/lua, the gate of acquire.lua, the
    probe accounting of observe.lua and lease_end.lua) and the Go code that
    derives their arguments.

    Materialisation.  internal/hotstate writes PostgreSQL rows into the hot
    state: [HotSync] (the four scripts of internal/hotstate/lua) and [HotPlan]
    (plan.go and identities.go: group plan, records, script calls).  The relation
    [foreign] of [SchedLedger] is the interface between the two sides: the
    theorems on leases assume it of every other writer of the hot state.

    Reports and actions.  [WorkerObserve] is internal/worker/lua/observe.lua,
    which applies a report to the hot state; [ActionApply] is
    internal/action/lua/apply.lua, which applies bans, cooldowns, expiries,
    quarantines and manual changes; [ActionExec] is the executor of
    internal/action (executor.go, applier.go), which turns planned actions into
    calls of that script on the site of the report and, for proxies, on the other
    sites of the namespace; [ActionExpiry] is the job that ends bans and quarantines
    (expiry.go with queries/expiry.sql): a pass releases the rows that are due, batch by
    batch, and pushes the releases to the hot state (pushTransitions of
    operator_identity.go).  The state changes that the executor leaves go to the database
    through the state writer: [StateRows] (stateevents.go, statewriter_sql.go,
    statewriter_errors.go) is what a transaction does with a batch of them, and
    [StateWriter] (statewriter.go) the queue, the flushes and the loop of the writer,
    as goroutines side by side.  [SiteScripts] holds the remaining scripts that write
    a site: lease_retain.lua of internal/signal, the three scripts of
    internal/proxy/lua and revert.lua of internal/breaker.  [SiteRun] runs all of
    them, the lease scripts, the synchronisation scripts and the pushes of expiry
    passes together on one site, and discharges [foreign] for each but the
    synchronisations that create the hash of a leased identity or proxy.  What a run
    assumes of the steps that read the database or take actions back is its [View].  [WorkerProcess] is the pipeline of
    internal/worker (process.go, observe.go, record.go) that takes a report from
    its stream entry through the lease lookup, the classification, observe.lua,
    the policy evaluation and the executor to the release of the lease and the
    record; [WorkerWindow] relates the breaker windows it fills to the ones that
    breaker_eval.lua reads.

    The report stream.  [SignalIngest] is internal/signal (ingest.go, ingest.lua):
    the request that checks reports, looks their leases up and appends them to the
    streams of their shards.  [WorkerConsume] is the consumer of a shard
    (internal/worker/consumer.go), which runs the pipeline for every entry.
    [ReportStream] models the Redis stream commands that both use.  Consumer and
    pipeline are programs of calls; [Effects] gives such programs their runs, in
    which others act between any two calls and the process may die in any of them,
    and the rules to reason about all runs at once, also of several programs side
    by side.  [ReportPath] runs requests and consumers together on one shard.
    [WorkerOwner] is the ownership of shards (internal/worker/ownership.go): every
    instance takes, renews and gives back the locks of its share of the shards;
    [OwnerBalance] runs rounds of all instances.

    Utilities.  [Textdiff] (internal/pkg/textdiff), [Durationx]
    (internal/pkg/durationx) and [IdGen] (internal/pkg/idgen).  [GoStrings],
    [GoFloat] and [GoTime] model what the sources use of the Go standard library;
    this file holds the shared lemmas, tactics, hint databases and the result type
    of fallible functions.

    ** What the theorems show

    - Matching: the compiled matcher selects, for every path, the group that a
      filter-and-pick reference selects; the pruned search of the trie finds the
      best template; normalisation is sound and complete.
    - Authorisation: callers stay within their tenants, tokens within their
      namespace, and the site filter lists exactly what single decisions allow;
      scopes parse and print back.
    - Tokens: a token created by a token is accepted only where and when its
      creator is, and has no permission more except the three that only nodes have;
      a lookup that begins after a revocation was handled finds no usable record,
      unless it joins a load under way, and a run shows that exception.
    - Addresses: which address [ClientIP] chooses, whatever an untrusted sender
      writes; the guard passes exactly the public targets, for addresses without a
      zone.  Addresses and prefixes parse and print back.
    - Policies: first-match classification, blame gating of every planned action,
      one most severe action per subject, escalation, and extends chains.
    - Leases: every run of the scripts is a run of the ledger; lease counts are
      the numbers of active leases; an exclusive lease is alone (both unless a hash is
      created for an identity that is leased); an acquire call
      grants distinct, ready, available identities within concurrency, quota and
      proxy limits, serves a client when it can, and otherwise changes no lease;
      renewal, release and reaping on every branch; the reaper drains a site;
      the selection loop ends.
    - Breakers: consistency under any sequence of scripts, manual opens, backoff with
      the count of consecutive opens, and the agreement of the gates.
    - Materialisation: lifecycle precedence between PostgreSQL and Redis, ready
      queue membership and scores, and the preservation of leases.
    - Reports: a stream entry is applied once; late and suppressed reports change
      no statistics; the counts that rules read are the reports of their window,
      and so are the totals that a breaker is evaluated on.
    - Pipeline: however often an entry is delivered, actions are taken at most
      once; an applied ban or cooldown keeps the identity from being leased while it is
      in force and the database does not bring the identity back, also
      when the worker dies half-way; every report ends in a record or in a reason
      for none, within a bounded number of calls.
    - Stream: only authorised reports of existing leases are appended, once per
      report id within the dedup window however often a batch is sent; what a
      request acknowledged is not lost, whatever calls fail and wherever consumers
      die; reports are first processed in order and never taken for redeliveries,
      unless a read loses its answer, and a run shows that exception.
    - Ownership: in every interleaving of the instances a shard has one consumer,
      unless an instance is overdue with the renewal of its lock; rounds of live
      instances lead to a balanced assignment of all shards.
    - Actions: what an execution reports as applied keeps the identity from being
      leased; executions never lower the severity of a state, nor end a state of the same
      severity earlier, and are idempotent under retries;
      every planned action has an operation; ready scores follow availability; a
      revert gives cooldowns back and nothing else.
    - Expiry: a pass ends exactly the bans and quarantines that are due, and pushes
      what it ends; a run shows that a ban that was extended in Redis and not written to
      the database yet is lost to it.
    - State changes: every change that is offered to the writer is accounted for in
      every interleaving, and an outage loses some only through a full queue; a flush drops only what the
      database rejects; rows end with the newest change of their subject in whatever
      batches and order changes are written.
    - Sites: every interleaving of all scripts on a site is a run of the ledger, as long
      as no hash is created for a subject that is leased; and an identity that was taken
      out stays out under every automatic step (leases, reports, actions, breakers,
      synchronisations, expiry passes), as long as the rows that are read hold it and,
      for cooldowns, no breaker gives them back.
    - Admission gate: accounting, bounds and first-in first-out hand-over in every
      interleaving.  Text: minimal diffs, round trips of durations and lease ids.

    ** Modelling choices

    Go ints and int64 are integers of Z, with overflow written out where the code
    can reach it; float64 is the executable binary64 of the standard library, and
    Lua numbers that carry times, counters and keys are integers, far below 2^53.
    Go strings are bytes.  Maps are finite maps; sorted sets are maps to scores,
    listed by score and member.  Code outside src/ is a parameter: the regexp
    engine ([RegexEngine]), the exponential of the C library ([LuaMath]), the
    digest of tokens and the one that completes the replay token of an action call.  Random numbers and
    the fate of a network call (answered, lost, or run without its answer) are
    arguments of the functions that draw or make them.

    Fuel.  The glob matcher, the trie and radix walks and the diff loops carry
    fuel that is bounded by the sizes of their inputs and proved to be enough;
    the selection loop of acquire.lua runs with twice the size of its sample,
    because every iteration verifies or removes an entry of the pool.  The
    pipeline is run with a number of calls after which the process dies; 18 are
    proved to be enough to finish an event.  The loops of the consumer, which runs
    until it is cancelled, take a number of iterations, and its runs a number of
    calls; its theorems hold at every point of every run, whatever the numbers.  The
    same holds for the loops of the state writer; the splitting of a batch takes at
    most twice as many steps as it has changes, and a flush on its own needs one
    iteration more than there are changes.  A part of an expiry pass makes at most 20
    batches of 1000 rows, as the code does; what is due beyond stays due.

    Assumptions of the lease theorems.  Callers send times that do not go back,
    and lease id prefixes that are new and distinct; writers of the hot state
    other than the lease scripts satisfy [foreign].  Every modelled script does,
    except a synchronisation that creates the hash of an identity that still has
    active leases: archiving and restoring a leased identity does that, and
    [HotSync] shows a run in which it is leased twice.  Keys that expire in Redis
    are a step of [SiteRun], which removes ended leases, sticky entries and quota
    windows and may change every key the lease scripts do not read; the retry
    theorem of [ActionExec] holds while the replay record of a report lasts.

    Assumptions of the pipeline theorems.  Between two calls of a worker the other
    processes take automatic steps on any site ([auto_step] of [SiteRun]; for the
    theorem that withholds an identity, steps that do not bring it back, [held_view]) and
    nobody else executes actions under the keys of the same report; the catalog
    lists a site once among its peers.

    Assumptions of the stream theorems.  A shard has one consumer at a time, which
    [WorkerOwner] proves of the locks that are renewed in time, and nobody else moves the
    checkpoints of the shard or deletes its entries; ids of entries are 64-bit
    numbers.  The stream carries events, not their JSON text.

    ** Not modelled

    Snapshots and rebuilds of the hot state, manual operations, the retry set of the
    expiry job (which only synchronises rows again) and the rest of the database access; sessions, passwords, users, role bindings, the login throttle
    and the rate limiter of internal/auth; the RPC and HTTP services, the rules and
    deliveries of notifications, the console and the client libraries.  They move
    data between services that are not part of the sources, or rest on cryptographic
    and network libraries. *)

From stdpp Require Export base gmap strings list sorting.
From Stdlib Require Export ZArith Lia Ascii.

Create HintDb spin discriminated.
Create Rewrite HintDb spin.

(** ** Results of fallible Go functions

    A Go function that returns [(T, error)] returns [result E T]. *)
Inductive result (E A : Type) : Type :=
| Ok (a : A)
| Err (e : E).
Arguments Ok {E A} a.
Arguments Err {E A} e.

Definition is_ok {E A} (r : result E A) : bool :=
  match r with Ok _ => true | Err _ => false end.

Definition result_bind {E A B} (r : result E A) (k : A → result E B) : result E B :=
  match r with Ok a => k a | Err e => Err e end.

Declare Scope go_scope.
Delimit Scope go_scope with go.
Notation "x <-? r ;; k" := (result_bind r (λ x, k))
  (at level 100, r at next level, right associativity) : go_scope.

Lemma result_bind_ok {E A B} (r : result E A) (k : A → result E B) b :
  result_bind r k = Ok b ↔ ∃ a, r = Ok a ∧ k a = Ok b.
Proof. destruct r; naive_solver. Qed.

(** ** 64-bit integers

    Go's [int], [int64] and [time.Duration] are 64-bit two's complement; an
    operation that can leave the range is written with [wrap64]. *)
Definition int64_min : Z := (- 2 ^ 63)%Z.
Definition int64_max : Z := (2 ^ 63 - 1)%Z.
Definition is_int64 (z : Z) : Prop := (int64_min ≤ z ≤ int64_max)%Z.
Definition wrap64 (z : Z) : Z := ((z + 2 ^ 63) mod 2 ^ 64 - 2 ^ 63)%Z.

Lemma wrap64_id z : is_int64 z → wrap64 z = z.
Proof.
  unfold is_int64, int64_min, int64_max, wrap64. intros.
  rewrite Z.mod_small; lia.
Qed.

Lemma wrap64_range z : is_int64 (wrap64 z).
Proof.
  unfold is_int64, int64_min, int64_max, wrap64.
  pose proof (Z.mod_pos_bound (z + 2 ^ 63) (2 ^ 64) ltac:(lia)). lia.
Qed.

#[export] Hint Resolve wrap64_range : spin.
#[export] Hint Rewrite wrap64_id using (unfold is_int64, int64_min, int64_max in *; lia) : spin.

(** ** Tactics *)

(** Case analysis on the innermost [match] or [if] scrutinee of the goal. *)
Ltac case_step :=
  match goal with
  | |- context [match ?x with _ => _ end] =>
      lazymatch x with
      | context [match _ with _ => _ end] => fail
      | _ => destruct x eqn:?
      end
  end.
Ltac case_steps := repeat (case_step; simplify_eq/=).

(** The same in a hypothesis. *)
Ltac case_step_in H :=
  match type of H with
  | context [match ?x with _ => _ end] =>
      lazymatch x with
      | context [match _ with _ => _ end] => fail
      | _ => destruct x eqn:?
      end
  end.
Ltac case_steps_in H := repeat (case_step_in H; simplify_eq/=).

(** Turns boolean tests into propositions. *)
Ltac bool_to_prop :=
  repeat match goal with
  | H : andb _ _ = true |- _ => apply andb_true_iff in H as [? ?]
  | H : orb _ _ = false |- _ => apply orb_false_iff in H as [? ?]
  | H : negb _ = true |- _ => apply negb_true_iff in H
  | H : negb _ = false |- _ => apply negb_false_iff in H
  | H : bool_decide _ = true |- _ => apply bool_decide_eq_true in H
  | H : bool_decide _ = false |- _ => apply bool_decide_eq_false in H
  | H : String.eqb _ _ = true |- _ => apply String.eqb_eq in H
  | H : String.eqb _ _ = false |- _ => apply String.eqb_neq in H
  | H : Z.ltb _ _ = true |- _ => apply Z.ltb_lt in H
  | H : Z.ltb _ _ = false |- _ => apply Z.ltb_ge in H
  | H : Z.leb _ _ = true |- _ => apply Z.leb_le in H
  | H : Z.leb _ _ = false |- _ => apply Z.leb_gt in H
  | H : Z.eqb _ _ = true |- _ => apply Z.eqb_eq in H
  | H : Z.eqb _ _ = false |- _ => apply Z.eqb_neq in H
  | H : Nat.ltb _ _ = true |- _ => apply Nat.ltb_lt in H
  | H : Nat.ltb _ _ = false |- _ => apply Nat.ltb_ge in H
  | H : Nat.leb _ _ = true |- _ => apply Nat.leb_le in H
  | H : Nat.leb _ _ = false |- _ => apply Nat.leb_gt in H
  | H : Nat.eqb _ _ = true |- _ => apply Nat.eqb_eq in H
  | H : Nat.eqb _ _ = false |- _ => apply Nat.eqb_neq in H
  end.

(** ** Selecting the best element of a slice

    Several components scan a slice and keep the first element that no other
    one outranks, comparing with a boolean [better]. *)
Class StrictRank {A} (better : A → A → bool) : Prop := {
  rank_irrefl : ∀ x, better x x = false;
  rank_trans : ∀ x y z, better x y = true → better y z = true → better x z = true;
  rank_neg_trans : ∀ x y z, better x y = false → better y z = false → better x z = false;
}.

Section best.
Context {A : Type} (better : A → A → bool) `{!StrictRank better}.

Definition keep_best (acc : option A) (x : A) : option A :=
  match acc with
  | None => Some x
  | Some b => if better x b then Some x else acc
  end.

Definition pick_best (l : list A) : option A := foldl keep_best None l.

(** [b] is selected from [l]: it strictly outranks everything before it and
    nothing after it strictly outranks it. *)
Definition selected (b : A) (l : list A) : Prop :=
  ∃ l1 l2, l = l1 ++ b :: l2 ∧
    Forall (λ x, better b x = true) l1 ∧ Forall (λ x, better x b = false) l2.

Lemma better_asym x y : better x y = true → better y x = false.
Proof.
  intros Hxy. destruct (better y x) eqn:Hyx; [|done].
  pose proof (rank_trans _ _ _ Hxy Hyx) as H. by rewrite rank_irrefl in H.
Qed.

Lemma better_not_trans x y z :
  better x y = true → better z y = false → better x z = true.
Proof.
  intros Hxy Hzy. destruct (better x z) eqn:Hxz; [done|].
  by rewrite (rank_neg_trans _ _ _ Hxz Hzy) in Hxy.
Qed.

Lemma pick_best_snoc l x : pick_best (l ++ [x]) = keep_best (pick_best l) x.
Proof. unfold pick_best. by rewrite foldl_app. Qed.

Lemma pick_best_spec l b : pick_best l = Some b → selected b l.
Proof.
  revert b. induction l as [|x l IH] using rev_ind; intros b; [done|].
  rewrite pick_best_snoc. unfold keep_best.
  destruct (pick_best l) as [c|] eqn:Hc.
  - destruct (IH _ eq_refl) as (l1 & l2 & -> & H1 & H2).
    destruct (better x c) eqn:Hb; intros [= <-].
    + exists (l1 ++ c :: l2), []. split; [done|]. split; [|constructor].
      apply Forall_app; split; [|constructor; [done|]].
      * eapply Forall_impl; [exact H1|]. cbn. eauto using rank_trans.
      * eapply Forall_impl; [exact H2|]. cbn. eauto using better_not_trans.
    + exists l1, (l2 ++ [x]). rewrite <- app_assoc. cbn. split; [done|].
      split; [done|]. apply Forall_app. auto.
  - intros [= <-]. destruct l as [|y l]; [by exists [], []|].
    exfalso. clear -Hc. unfold pick_best in Hc. cbn in Hc.
    assert (∀ l o, is_Some o → is_Some (foldl keep_best o l)) as Hs.
    { clear. induction l as [|z l IH]; intros o [c ->]; cbn; [eauto|].
      apply IH. destruct (better z c); eauto. }
    destruct (Hs l (Some y) ltac:(eauto)) as [? Hn]. congruence.
Qed.

Lemma pick_best_none l : pick_best l = None ↔ l = [].
Proof.
  split; [|by intros ->].
  destruct l as [|x l] using rev_ind; [done|].
  rewrite pick_best_snoc. unfold keep_best. case_steps; congruence.
Qed.

Lemma selected_unique l b c : selected b l → selected c l → b = c.
Proof.
  intros (l1 & l2 & -> & Hb1 & Hb2) (l1' & l2' & Heq & Hc1 & Hc2).
  rewrite !Forall_forall in *.
  apply app_eq_inv in Heq as [(k & -> & Hk)|(k & -> & Hk)];
    destruct k as [|y k]; simplify_eq/=; try done; exfalso.
  - assert (better b y = true) by (apply Hb1; set_solver).
    assert (better b y = false) by (apply Hc2; set_solver). congruence.
  - assert (better c y = true) by (apply Hc1; set_solver).
    assert (better c y = false) by (apply Hb2; set_solver). congruence.
Qed.
Lemma selected_max b l : selected b l → b ∈ l ∧ ∀ x, x ∈ l → better x b = false.
Proof.
  intros (l1 & l2 & -> & H1 & H2). rewrite Forall_forall in *. split; [set_solver|].
  intros x Hx. apply elem_of_app in Hx as [Hx|Hx]; [by apply better_asym, H1|].
  apply elem_of_cons in Hx as [->|Hx]; [apply rank_irrefl|by apply H2].
Qed.

(** Where no two elements tie, the maximal element is the one picked. *)
Lemma pick_best_max b l :
  (∀ x y, x ∈ l → y ∈ l → better x y = false → better y x = false → x = y) →
  b ∈ l → (∀ x, x ∈ l → better x b = false) → pick_best l = Some b.
Proof.
  intros Htie Hb Hmax. destruct (pick_best l) as [c|] eqn:Hc.
  - apply pick_best_spec, selected_max in Hc as [Hc Hcm]. f_equal. auto.
  - apply pick_best_none in Hc as ->. set_solver.
Qed.
End best.

(** ** Comparators

    The three-way comparators passed to [slices.SortFunc].  A lawful one is a
    total order whose equality is Leibniz equality, so that sorting has one
    result whatever the algorithm. *)
Class Comparator {A} (cmp : A → A → comparison) : Prop := {
  cmp_eq : ∀ x y, cmp x y = Eq ↔ x = y;
  cmp_opp : ∀ x y, cmp y x = CompOpp (cmp x y);
  cmp_lt_trans : ∀ x y z, cmp x y = Lt → cmp y z = Lt → cmp x z = Lt;
}.

#[export] Instance Z_comparator : Comparator Z.compare.
Proof.
  split.
  - apply Z.compare_eq_iff.
  - intros. apply Z.compare_antisym.
  - intros x y z. rewrite !Z.compare_lt_iff. lia.
Qed.

#[export] Instance nat_comparator : Comparator Nat.compare.
Proof.
  split.
  - apply Nat.compare_eq_iff.
  - intros. apply Nat.compare_antisym.
  - intros x y z. rewrite !Nat.compare_lt_iff. lia.
Qed.

(** Compare first by one comparator and break ties with another. *)
Definition cmp_then (c1 c2 : comparison) : comparison :=
  match c1 with Eq => c2 | _ => c1 end.

Lemma comparator_pair {A B} (ca : A → A → comparison) (cb : B → B → comparison)
    `{!Comparator ca, !Comparator cb} :
  Comparator (λ x y : A * B, cmp_then (ca x.1 y.1) (cb x.2 y.2)).
Proof.
  split.
  - intros [a b] [a' b']. cbn. rewrite pair_eq, <- (cmp_eq (cmp:=ca)), <- (cmp_eq (cmp:=cb)).
    destruct (ca a a'); cbn; naive_solver.
  - intros [a b] [a' b']. cbn. rewrite (cmp_opp (cmp:=ca) a a'), (cmp_opp (cmp:=cb) b b').
    by destruct (ca a a').
  - intros [a b] [a' b'] [a'' b'']. cbn.
    destruct (ca a a') eqn:H1, (ca a' a'') eqn:H2; cbn; try done.
    + apply cmp_eq in H1, H2. subst. rewrite (proj2 (cmp_eq (cmp:=ca) a'' a'')) by done.
      exact (cmp_lt_trans (cmp:=cb) _ _ _).
    + apply cmp_eq in H1. subst. by rewrite H2.
    + apply cmp_eq in H2. subst. by rewrite H1.
    + by rewrite (cmp_lt_trans (cmp:=ca) _ _ _ H1 H2).
Qed.

Lemma comparator_on {A B} (f : B → A) (ca : A → A → comparison) `{!Comparator ca, !Inj (=) (=) f} :
  Comparator (λ x y, ca (f x) (f y)).
Proof.
  split.
  - intros x y. rewrite cmp_eq. split; [apply (inj f)|by intros ->].
  - intros x y. apply (cmp_opp (cmp:=ca)).
  - intros x y z. apply (cmp_lt_trans (cmp:=ca)).
Qed.

Section comparator.
Context {A : Type} (cmp : A → A → comparison) `{!Comparator cmp}.

Definition cmp_le (x y : A) : Prop := cmp x y ≠ Gt.

#[export] Instance cmp_le_dec x y : Decision (cmp_le x y).
Proof. unfold cmp_le. destruct (cmp x y); [left|left|right]; congruence. Defined.

Lemma cmp_refl x : cmp x x = Eq.
Proof. by apply (cmp_eq (cmp:=cmp)). Qed.

#[export] Instance cmp_le_total : Total cmp_le.
Proof. intros x y. unfold cmp_le. rewrite (cmp_opp (cmp:=cmp) x y). destruct (cmp x y); naive_solver. Qed.

#[export] Instance cmp_le_trans : Transitive cmp_le.
Proof.
  unfold cmp_le. intros x y z. destruct (cmp x y) eqn:H1, (cmp y z) eqn:H2; try done.
  - apply (cmp_eq (cmp:=cmp)) in H1, H2. subst. by rewrite cmp_refl.
  - apply (cmp_eq (cmp:=cmp)) in H1. subst. by rewrite H2.
  - apply (cmp_eq (cmp:=cmp)) in H2. subst. by rewrite H1.
  - by rewrite (cmp_lt_trans (cmp:=cmp) _ _ _ H1 H2).
Qed.

#[export] Instance cmp_le_antisymm : AntiSymm (=) cmp_le.
Proof.
  unfold cmp_le. intros x y. rewrite (cmp_opp (cmp:=cmp) x y). destruct (cmp x y) eqn:H1; try done.
  intros _ _. by apply (cmp_eq (cmp:=cmp)).
Qed.

(** [slices.SortFunc] *)
Definition SortFunc (l : list A) : list A := merge_sort cmp_le l.

Lemma SortFunc_perm l : SortFunc l ≡ₚ l.
Proof. apply merge_sort_Permutation. Qed.

Lemma SortFunc_sorted l : StronglySorted cmp_le (SortFunc l).
Proof. apply StronglySorted_merge_sort; apply _. Qed.

(** Any sorted permutation is the result. *)
Lemma SortFunc_unique l l' : StronglySorted cmp_le l' → l' ≡ₚ l → l' = SortFunc l.
Proof.
  intros Hs Hp. apply (StronglySorted_unique cmp_le); [done|apply SortFunc_sorted|].
  by rewrite SortFunc_perm.
Qed.
End comparator.

Lemma StronglySorted_lookup {A} (R : relation A) l i j x y :
  StronglySorted R l → l !! i = Some x → l !! j = Some y → i < j → R x y.
Proof.
  intros Hs. revert i j. induction Hs as [|z l Hs IH Hz]; intros i j; [by rewrite lookup_nil|].
  destruct i as [|i], j as [|j]; cbn; try lia.
  - intros [= ->] Hy _. rewrite Forall_forall in Hz. apply Hz. by eapply list_elem_of_lookup_2.
  - intros Hx Hy Hij. apply (IH i j); [done..|lia].
Qed.

Lemma find_split {A} (f : A → bool) l x :
  List.find f l = Some x →
  ∃ l1 l2, l = l1 ++ x :: l2 ∧ f x = true ∧ Forall (λ y, f y = false) l1.
Proof.
  induction l as [|y l IH]; cbn; [done|]. destruct (f y) eqn:Hy.
  - intros [= ->]. by exists [], l.
  - intros (l1 & l2 & -> & Hx & H1)%IH. exists (y :: l1), l2. auto.
Qed.
