(* ===== verification/GoStrings.v ===== *)
(** * Go strings

    A Go string is a sequence of bytes.  Code that compares whole strings is
    modelled over [string]; code that walks bytes is modelled over [bytes].
    This file models what the program uses of the packages [strings],
    [unicode/utf8] and [unicode] of the Go standard library. *)

From S2P Require Import Prelude.

Abbreviation bytes := (list ascii).

Definition bs (s : string) : bytes := String.list_ascii_of_string s.
Definition str (s : bytes) : string := String.string_of_list_ascii s.

Lemma str_bs s : str (bs s) = s.
Proof. apply String.string_of_list_ascii_of_string. Qed.
Lemma bs_str s : bs (str s) = s.
Proof. apply String.list_ascii_of_string_of_list_ascii. Qed.

Lemma bs_app s t : bs (s +:+ t) = bs s ++ bs t.
Proof.
  unfold bs. induction s as [|c s IH]; [done|].
  change (String.list_ascii_of_string (String c s +:+ t)) with (c :: String.list_ascii_of_string (s +:+ t)).
  by rewrite IH.
Qed.

#[export] Hint Rewrite str_bs bs_str bs_app : spin.

(** The value of a byte. *)
Definition bval (c : ascii) : Z := Z.of_N (N_of_ascii c).

Lemma bval_inj c d : bval c = bval d → c = d.
Proof.
  unfold bval. intros H%N2Z.inj. rewrite <- (ascii_N_embedding c), H.
  apply ascii_N_embedding.
Qed.

Lemma bval_range c : (0 ≤ bval c < 256)%Z.
Proof. unfold bval. pose proof (N_ascii_bounded c). lia. Qed.

Definition byte_in (lo hi : Z) (c : ascii) : bool :=
  ((lo <=? bval c) && (bval c <=? hi))%Z.

#[global] Instance ascii_eq_dec : EqDecision ascii := ascii_dec.
#[global] Instance ascii_countable : Countable ascii.
Proof. exact (inj_countable' N_of_ascii ascii_of_N ascii_N_embedding). Defined.

(** ** unicode/utf8 *)

Definition RuneError : Z := 65533.
Definition RuneSelf : Z := 128.

(** The size of the sequence a lead byte announces and the range its second
    byte must lie in; [None] for a byte that starts no sequence. *)
Definition utf8_lead (x : Z) : option (nat * Z * Z) :=
  if ((194 <=? x) && (x <=? 223))%Z then Some (2%nat, 128%Z, 191%Z)
  else if (x =? 224)%Z then Some (3%nat, 160%Z, 191%Z)
  else if ((225 <=? x) && (x <=? 236))%Z then Some (3%nat, 128%Z, 191%Z)
  else if (x =? 237)%Z then Some (3%nat, 128%Z, 159%Z)
  else if ((238 <=? x) && (x <=? 239))%Z then Some (3%nat, 128%Z, 191%Z)
  else if (x =? 240)%Z then Some (4%nat, 144%Z, 191%Z)
  else if ((241 <=? x) && (x <=? 243))%Z then Some (4%nat, 128%Z, 191%Z)
  else if (x =? 244)%Z then Some (4%nat, 128%Z, 143%Z)
  else None.

Definition utf8_cont (c : ascii) : Z := Z.land (bval c) 63.

(** [utf8.DecodeRuneInString]: the first rune and its width in bytes; an
    invalid encoding is [(RuneError, 1)], the empty string [(RuneError, 0)]. *)
Definition DecodeRuneInString (s : bytes) : Z * nat :=
  match s with
  | [] => (RuneError, 0)
  | c0 :: s1 =>
      if (bval c0 <? RuneSelf)%Z then (bval c0, 1)
      else match utf8_lead (bval c0) with
      | None => (RuneError, 1)
      | Some (sz, lo, hi) =>
          match s1 with
          | c1 :: s2 =>
              if (length s <? sz)%nat || negb (byte_in lo hi c1) then (RuneError, 1)
              else if (sz <=? 2)%nat then
                (Z.lor (Z.shiftl (Z.land (bval c0) 31) 6) (utf8_cont c1), 2)
              else match s2 with
              | c2 :: s3 =>
                  if negb (byte_in 128 191 c2) then (RuneError, 1)
                  else if (sz <=? 3)%nat then
                    (Z.lor (Z.lor (Z.shiftl (Z.land (bval c0) 15) 12)
                              (Z.shiftl (utf8_cont c1) 6)) (utf8_cont c2), 3)
                  else match s3 with
                  | c3 :: _ =>
                      if negb (byte_in 128 191 c3) then (RuneError, 1)
                      else (Z.lor (Z.lor (Z.lor (Z.shiftl (Z.land (bval c0) 7) 18)
                              (Z.shiftl (utf8_cont c1) 12))
                              (Z.shiftl (utf8_cont c2) 6)) (utf8_cont c3), 4)
                  | [] => (RuneError, 1)
                  end
              | [] => (RuneError, 1)
              end
          | [] => (RuneError, 1)
          end
      end
  end.

Definition rune_width (s : bytes) : nat := (DecodeRuneInString s).2.

Lemma rune_width_bounds s : s ≠ [] → 1 ≤ rune_width s ≤ length s.
Proof.
  intros Hs. unfold rune_width, DecodeRuneInString.
  destruct s as [|c0 [|c1 [|c2 [|c3 s]]]]; [done|..];
    repeat case_match; cbn; lia.
Qed.

Lemma rune_width_ascii c s : (bval c < 128)%Z → rune_width (c :: s) = 1.
Proof.
  intros H. unfold rune_width, DecodeRuneInString, RuneSelf.
  by rewrite (proj2 (Z.ltb_lt _ _) H).
Qed.

(** The string cut into the encodings of its runes, an invalid byte standing
    for itself. *)
Fixpoint runes_fuel (n : nat) (s : bytes) : list bytes :=
  match n, s with
  | S n, _ :: _ => take (rune_width s) s :: runes_fuel n (drop (rune_width s) s)
  | _, _ => []
  end.
Definition runes (s : bytes) : list bytes := runes_fuel (length s) s.

Lemma runes_fuel_enough n m s :
  length s ≤ n → length s ≤ m → runes_fuel n s = runes_fuel m s.
Proof.
  revert m s. induction n as [|n IH]; intros m s Hn Hm.
  - destruct s; [by destruct m|cbn in Hn; lia].
  - destruct s as [|c s]; [by destruct m|]. destruct m as [|m]; [cbn in Hm; lia|].
    cbn [runes_fuel]. f_equal.
    pose proof (rune_width_bounds (c :: s) ltac:(done)).
    apply IH; rewrite length_drop; cbn in *; lia.
Qed.

Lemma runes_nil : runes [] = [].
Proof. done. Qed.

Lemma runes_cons s :
  s ≠ [] → runes s = take (rune_width s) s :: runes (drop (rune_width s) s).
Proof.
  intros Hs. unfold runes. destruct s as [|c s]; [done|].
  pose proof (rune_width_bounds (c :: s) ltac:(done)).
  cbn [runes_fuel length]. f_equal.
  apply runes_fuel_enough; rewrite length_drop; cbn in *; lia.
Qed.

Lemma runes_ascii c s : (bval c < 128)%Z → runes (c :: s) = [c] :: runes s.
Proof. intros H. rewrite runes_cons by done. by rewrite rune_width_ascii. Qed.

Lemma concat_runes s : concat (runes s) = s.
Proof.
  remember (length s) as n eqn:Hn.
  revert s Hn. induction n as [n IH] using lt_wf_ind. intros s ->.
  destruct (decide (s = [])) as [->|Hs]; [done|].
  rewrite runes_cons by done. cbn.
  pose proof (rune_width_bounds s Hs).
  rewrite (IH (length (drop (rune_width s) s))); [apply take_drop| |done].
  rewrite length_drop. destruct s; [done|cbn in *; lia].
Qed.

Lemma runes_eq_nil s : runes s = [] ↔ s = [].
Proof. split; [|by intros ->]. intros H. by rewrite <- (concat_runes s), H. Qed.

(** ** strings *)

(** [strings.IndexByte]. *)
Fixpoint index_byte (c : ascii) (s : bytes) : option nat :=
  match s with
  | [] => None
  | d :: s' => if decide (c = d) then Some 0 else S <$> index_byte c s'
  end.

(** [strings.Split] on a one-byte separator: never empty. *)
Fixpoint split_byte (c : ascii) (s : bytes) : list bytes :=
  match s with
  | [] => [[]]
  | d :: s' =>
      if decide (c = d) then [] :: split_byte c s'
      else match split_byte c s' with
           | w :: ws => (d :: w) :: ws
           | [] => [[d]]
           end
  end.

(** [strings.ContainsAny] for a set of ASCII bytes. *)
Definition contains_any (s chars : bytes) : bool :=
  existsb (λ c, bool_decide (c ∈ chars)) s.

(** [strings.Count] of a one-byte string. *)
Definition count_byte (c : ascii) (s : bytes) : nat :=
  length (filter (λ d, d = c) s).

(** [strings.HasPrefix]. *)
Fixpoint has_prefix (s pre : bytes) {struct pre} : bool :=
  match pre, s with
  | [], _ => true
  | c :: pre', d :: s' => bool_decide (c = d) && has_prefix s' pre'
  | _ :: _, [] => false
  end.

Lemma has_prefix_spec s pre : has_prefix s pre = true ↔ ∃ k, s = pre ++ k.
Proof.
  revert s. induction pre as [|c pre IH]; intros s; cbn.
  - split; [by exists s|done].
  - destruct s as [|d s]; [split; [done|by intros [k ?]]|].
    rewrite andb_true_iff, bool_decide_eq_true, IH. naive_solver.
Qed.

Lemma index_byte_some c s i :
  index_byte c s = Some i ↔ s !! i = Some c ∧ c ∉ take i s.
Proof.
  revert i. induction s as [|d s IH]; intros i; cbn.
  - rewrite lookup_nil. naive_solver.
  - destruct (decide (c = d)) as [->|Hd].
    + split; [intros [= <-]; cbn; set_solver|].
      destruct i as [|i]; [by intros _|]. cbn. set_solver.
    + destruct i as [|i]; cbn.
      * rewrite fmap_Some. naive_solver.
      * rewrite fmap_Some. setoid_rewrite IH. set_solver.
Qed.

Lemma index_byte_none c s : index_byte c s = None ↔ c ∉ s.
Proof.
  induction s as [|d s IH]; cbn; [set_solver|].
  destruct (decide (c = d)); [set_solver|]. rewrite fmap_None, IH. set_solver.
Qed.

Lemma split_byte_cons c s : ∃ w ws, split_byte c s = w :: ws.
Proof. destruct s; cbn; repeat case_match; eauto. Qed.

(** Splitting takes the bytes up to the next separator and splits the rest. *)
Lemma split_byte_index c s :
  split_byte c s =
  match index_byte c s with
  | None => [s]
  | Some i => take i s :: split_byte c (drop (S i) s)
  end.
Proof.
  induction s as [|d s IH]; cbn [split_byte index_byte]; [done|].
  destruct (decide (c = d)); [done|]. rewrite IH.
  by destruct (index_byte c s).
Qed.

Lemma contains_any_false s chars :
  contains_any s chars = false ↔ ∀ c, c ∈ s → c ∉ chars.
Proof.
  unfold contains_any. rewrite <- not_true_iff_false, existsb_exists.
  setoid_rewrite bool_decide_eq_true. setoid_rewrite <- list_elem_of_In. set_solver.
Qed.

(** [strings.EqualFold] of a string with an ASCII string of the same length
    in bytes: every rune of the first is then one byte, and an invalid byte
    folds to no ASCII letter. *)
Definition ascii_lower (c : ascii) : ascii :=
  if byte_in 65 90 c then ascii_of_N (N_of_ascii c + 32) else c.
Definition equal_fold_ascii (s t : bytes) : bool :=
  bool_decide (ascii_lower <$> s = ascii_lower <$> t).

(** ** unicode *)

Definition IsControl (r : Z) : bool :=
  ((0 <=? r) && (r <=? 31) || (127 <=? r) && (r <=? 159))%Z.

Definition IsSpace (r : Z) : bool :=
  ((9 <=? r) && (r <=? 13) || (r =? 32) || (r =? 133) || (r =? 160) || (r =? 5760)
   || (8192 <=? r) && (r <=? 8202) || (r =? 8232) || (r =? 8233) || (r =? 8239)
   || (r =? 8287) || (r =? 12288))%Z.

(** ** strings.TrimSpace *)

(** [utf8.DecodeLastRuneInString]: the last byte that starts a rune is looked
    for among the last four. *)
Definition RuneStart (c : ascii) : bool := negb (byte_in 128 191 c).
Fixpoint last_rune_start (tries : nat) (s : bytes) (start : nat) : nat :=
  match tries, start with
  | S tries', S start' =>
      if from_option RuneStart false (s !! start') then start' else last_rune_start tries' s start'
  | _, _ => start - 1
  end.
Definition DecodeLastRuneInString (s : bytes) : Z * nat :=
  match last s with
  | None => (RuneError, 0)
  | Some c =>
      if (bval c <? RuneSelf)%Z then (bval c, 1)
      else
        let start := last_rune_start 3 s (length s - 1) in
        let '(r, size) := DecodeRuneInString (drop start s) in
        if (start + size =? length s)%nat then (r, size) else (RuneError, 1)
  end.

Fixpoint trim_left_space (fuel : nat) (s : bytes) : bytes :=
  match fuel, s with
  | S fuel', _ :: _ =>
      if IsSpace (DecodeRuneInString s).1 then trim_left_space fuel' (drop (rune_width s) s) else s
  | _, _ => s
  end.
Fixpoint trim_right_space (fuel : nat) (s : bytes) : bytes :=
  match fuel, s with
  | S fuel', _ :: _ =>
      let '(r, size) := DecodeLastRuneInString s in
      if IsSpace r then trim_right_space fuel' (take (length s - size) s) else s
  | _, _ => s
  end.
Definition TrimSpace (s : bytes) : bytes :=
  let t := trim_left_space (length s) s in trim_right_space (length t) t.

(** A string that starts and ends with ASCII bytes that are no spaces is kept. *)
Lemma TrimSpace_id c d s :
  head s = Some c → last s = Some d →
  (bval c < 128)%Z → (bval d < 128)%Z → IsSpace (bval c) = false → IsSpace (bval d) = false →
  TrimSpace s = s.
Proof.
  intros Hc Hd Bc Bd Sc Sd. destruct s as [|c' s]; [done|]. cbn in Hc. simplify_eq.
  assert (trim_left_space (length (c :: s)) (c :: s) = c :: s) as Hl.
  { cbn [length trim_left_space DecodeRuneInString]. unfold RuneSelf.
    rewrite (proj2 (Z.ltb_lt _ _) Bc). cbn [fst]. by rewrite Sc. }
  unfold TrimSpace. rewrite Hl. cbn [length trim_right_space].
  unfold DecodeLastRuneInString, RuneSelf. rewrite Hd, (proj2 (Z.ltb_lt _ _) Bd).
  by rewrite Sd.
Qed.

Example TrimSpace_ex :
  TrimSpace (bs "  a b " ++ [ascii_of_N 194; ascii_of_N 160]) = bs "a b" ∧ TrimSpace (bs "   ") = [].
Proof. by vm_compute. Qed.

(** ** regexp

    The RE2 engine is an interface: a parser, a compiler and a matcher. *)
Inductive syntax_Regexp : Type :=
| OpLiteral (runes : nat)
| OpCapture (sub : syntax_Regexp)
| OpStar (sub : syntax_Regexp)
| OpPlus (sub : syntax_Regexp)
| OpQuest (sub : syntax_Regexp)
| OpConcat (subs : list syntax_Regexp)
| OpAlternate (subs : list syntax_Regexp)
| OpRepeat (min max : Z) (sub : syntax_Regexp)
| OpOther.

Class RegexEngine := {
  Regexp : Type;
  syntax_Parse : bytes → result string syntax_Regexp;
  regexp_Compile : bytes → result string Regexp;
  MatchString : Regexp → bytes → bool;
}.

(** A concrete engine: patterns are plain strings that match the paths starting with them. *)
Definition literal_engine : RegexEngine := {|
  Regexp := bytes;
  syntax_Parse p := Ok (OpLiteral (length p));
  regexp_Compile p := Ok p;
  MatchString re path := has_prefix path re;
|}.

(** ** Comparing strings: [strings.Compare] is bytewise lexicographic *)
Fixpoint bytes_compare (a b : bytes) : comparison :=
  match a, b with
  | [], [] => Eq
  | [], _ :: _ => Lt
  | _ :: _, [] => Gt
  | c :: a', d :: b' => cmp_then (bval c ?= bval d)%Z (bytes_compare a' b')
  end.

#[export] Instance bytes_comparator : Comparator bytes_compare.
Proof.
  split.
  - induction x as [|c a IH]; intros [|d b]; cbn; try done.
    destruct (bval c ?= bval d)%Z eqn:Hc; cbn.
    + apply Z.compare_eq_iff, bval_inj in Hc as ->. rewrite IH. naive_solver.
    + split; [done|]. intros [= -> ->]. by rewrite Z.compare_refl in Hc.
    + split; [done|]. intros [= -> ->]. by rewrite Z.compare_refl in Hc.
  - induction x as [|c a IH]; intros [|d b]; cbn; try done.
    rewrite (Z.compare_antisym (bval c)), IH. by destruct (bval c ?= bval d)%Z.
  - induction x as [|c a IH]; intros [|d b] [|f g]; cbn; try done.
    destruct (bval c ?= bval d)%Z eqn:H1, (bval d ?= bval f)%Z eqn:H2; cbn; try done.
    + apply Z.compare_eq_iff in H1, H2. rewrite H1, H2, Z.compare_refl. apply IH.
    + apply Z.compare_eq_iff in H1. by rewrite H1, H2.
    + apply Z.compare_eq_iff in H2. by rewrite <- H2, H1.
    + rewrite Z.compare_lt_iff in *. by rewrite (proj2 (Z.compare_lt_iff _ _)) by lia.
Qed.

Definition string_compare (a b : string) : comparison := bytes_compare (bs a) (bs b).

#[export] Instance bs_inj : Inj (=) (=) bs.
Proof.
  intros a b H%(f_equal String.string_of_list_ascii). unfold bs in H.
  by rewrite !String.string_of_list_ascii_of_string in H.
Qed.

#[export] Instance string_comparator : Comparator string_compare.
Proof. apply (comparator_on bs bytes_compare). Qed.
