(* ===== verification/Glob.v ===== *)
(** * Glob matching (internal/pkg/glob)

    [Match] is the iterative matcher with one backtracking point that token
    scopes use.  [Matches] states what a pattern means; [Match_correct] shows
    that the loop decides it and [match_loop_total] that it terminates within
    the stated number of iterations. *)

From S2P Require Import Prelude GoStrings.

Definition star_byte : ascii := "*"%char.
Definition quest_byte : ascii := "?"%char.

(** The trailing loop: skip the stars left in the pattern. *)
Fixpoint skip_stars (p : bytes) : bytes :=
  match p with
  | c :: p' => if decide (c = star_byte) then skip_stars p' else p
  | [] => []
  end.

(** The main loop.  [p] and [s] are [pattern[pi:]] and [s[si:]]; [star] is
    [Some (pattern[starPI:], s[starSI:])] once a star was seen. *)
Fixpoint match_loop (fuel : nat) (p s : bytes) (star : option (bytes * bytes)) : option bool :=
  match fuel with
  | O => None
  | S fuel =>
      match s with
      | [] => Some (bool_decide (skip_stars p = []))
      | _ :: _ =>
          let backtrack :=
            match star with
            | None => Some false
            | Some (sp, ss) =>
                let ss' := drop (rune_width ss) ss in
                match_loop fuel sp ss' (Some (sp, ss'))
            end in
          match p with
          | [] => backtrack
          | c :: p' =>
              if decide (c = star_byte) then match_loop fuel p' s (Some (p', s))
              else if decide (c = quest_byte) then
                match_loop fuel p' (drop (rune_width s) s) star
              else
                let pw := rune_width p in
                let sw := rune_width s in
                if bool_decide (pw = sw) && bool_decide (take pw p = take sw s) then
                  match_loop fuel (drop pw p) (drop sw s) star
                else backtrack
          end
      end
  end.

(** The documented bound on the work: [O(len(pattern) * len(s))]. *)
Definition match_bound (p s : bytes) : nat := S (S (length s)) * S (length p).

Definition Match (p s : bytes) : bool :=
  default false (match_loop (match_bound p s) p s None).

Definition HasWildcard (p : bytes) : bool :=
  existsb (λ c, bool_decide (c = star_byte) || bool_decide (c = quest_byte)) p.

(** ** What a pattern means *)

Definition star_rune : bytes := [star_byte].
Definition quest_rune : bytes := [quest_byte].

Inductive Matches : list bytes → list bytes → Prop :=
| Matches_nil : Matches [] []
| Matches_star p s t : Matches p s → Matches (star_rune :: p) (t ++ s)
| Matches_any p r s : Matches p s → Matches (quest_rune :: p) (r :: s)
| Matches_lit r p s :
    r ≠ star_rune → r ≠ quest_rune → Matches p s → Matches (r :: p) (r :: s).

Definition star_free (q : list bytes) : Prop := Forall (λ r, r ≠ star_rune) q.

Lemma Matches_star_inv p s : Matches (star_rune :: p) s ↔ ∃ k, Matches p (drop k s).
Proof.
  split.
  - inversion 1 as [|?? t| |]; simplify_eq. exists (length t).
    by rewrite drop_app_length.
  - intros [k H]. rewrite <- (take_drop k s). by constructor.
Qed.

Lemma Matches_cons_inv r p s :
  r ≠ star_rune → Matches (r :: p) s →
  ∃ r' s', s = r' :: s' ∧ Matches p s' ∧ (r = quest_rune ∨ r = r').
Proof. intros Hr. inversion 1; simplify_eq; eauto 10. Qed.

(** A star-free prefix consumes one rune per element. *)
Lemma Matches_prefix q p u :
  star_free q → Matches (q ++ p) u →
  length q ≤ length u ∧ Matches p (drop (length q) u).
Proof.
  intros Hq. revert u. induction Hq as [|r q Hr Hq IH]; intros u H; cbn in *.
  - split; [lia|done].
  - apply Matches_cons_inv in H as (r' & s' & -> & H & _); [|done].
    apply IH in H as [? ?]. split; [cbn; lia|done].
Qed.

Lemma Matches_nil_inv p : Matches p [] → ∀ r q, p = r :: q → r = star_rune ∧ Matches q [].
Proof.
  intros H r q ->. inversion H as [|?? t Hm He Ht| |]; simplify_eq.
  apply app_nil in Ht as [-> ->]. done.
Qed.

(** ** The state of the loop *)

(** The star recorded by the loop was followed by a star-free part of the
    pattern that consumed the same number of runes of the subject. *)
Definition star_ok (K : nat) (p s : bytes) (star : option (bytes * bytes)) : Prop :=
  match star with
  | None => True
  | Some (sp, ss) => length sp ≤ K ∧ ∃ q t,
      runes sp = q ++ runes p ∧ runes ss = t ++ runes s ∧
      length q = length t ∧ star_free q
  end.

(** What the loop still has to decide. *)
Definition pending (p s : bytes) (star : option (bytes * bytes)) : Prop :=
  Matches (runes p) (runes s) ∨
  match star with
  | None => False
  | Some (sp, ss) => ∃ k, 1 ≤ k ∧ Matches (runes sp) (drop k (runes ss))
  end.

Definition match_measure (K : nat) (p s : bytes) (star : option (bytes * bytes)) : nat :=
  match star with
  | None => S (length s)
  | Some (_, ss) => length ss
  end * S K + length p.

Lemma star_ok_length K p s sp ss : star_ok K p s (Some (sp, ss)) → length s ≤ length ss.
Proof.
  intros (_ & q & t & _ & Hss & _).
  rewrite <- (concat_runes ss), Hss, concat_app, length_app, concat_runes. lia.
Qed.

Lemma star_ok_fresh K p s : length p ≤ K → star_ok K p s (Some (p, s)).
Proof. intros HK. split; [done|]. exists [], []. split_and!; [done..|constructor]. Qed.

Lemma skip_stars_spec p : skip_stars p = [] ↔ Matches (runes p) [].
Proof.
  induction p as [|c p IH]; cbn [skip_stars].
  - rewrite runes_nil. split; [constructor|done].
  - destruct (decide (c = star_byte)) as [->|Hc].
    + rewrite runes_ascii by done. rewrite IH, (Matches_star_inv (runes p) []).
      split; [intros H; by exists 0|]. intros [k H]. by rewrite drop_nil in H.
    + split; [done|]. rewrite runes_cons by done. intros H.
      destruct (Matches_nil_inv _ H _ _ eq_refl) as [Hs _].
      pose proof (rune_width_bounds (c :: p) ltac:(done)).
      destruct (rune_width (c :: p)); [lia|]. cbn in Hs. by inversion Hs.
Qed.

(** Dropping the recorded star is sound once the subject is exhausted. *)
Lemma pending_end K p star : star_ok K p [] star → pending p [] star ↔ Matches (runes p) [].
Proof.
  intros Hok. unfold pending. rewrite runes_nil. split; [|by left].
  intros [H|H]; [done|]. destruct star as [[sp ss]|]; [|done].
  destruct Hok as (_ & q & t & Hsp & Hss & Hlen & Hq). destruct H as (k & Hk & H).
  rewrite runes_nil, app_nil_r in Hss. rewrite Hsp, Hss in H.
  apply Matches_prefix in H as [Hl H]; [|done].
  rewrite length_drop in Hl. destruct t as [|r t]; [|cbn in *; lia].
  by rewrite !drop_nil in H.
Qed.

(** A new star makes the recorded one irrelevant. *)
Lemma pending_star K p s star :
  star_ok K (star_byte :: p) s star →
  pending (star_byte :: p) s star ↔ pending p s (Some (p, s)).
Proof.
  intros Hok. unfold pending. rewrite runes_ascii by done. rewrite Matches_star_inv.
  transitivity (∃ k, Matches (runes p) (drop k (runes s))).
  - split; [|by left]. intros [H|H]; [done|].
    destruct star as [[sp ss]|]; [|done].
    destruct Hok as (_ & q & t & Hsp & Hss & Hlen & Hq). destruct H as (k & Hk & H).
    rewrite runes_ascii in Hsp by done. rewrite Hsp, Hss in H.
    apply Matches_prefix in H as [Hl H]; [|done].
    apply Matches_star_inv in H as [k' H]. rewrite !drop_drop in H.
    rewrite Hlen in H. exists (k + k').
    rewrite <- (drop_app_length t (runes s)), drop_drop.
    by replace (length t + (k + k')) with (k + (length t + k')) by lia.
  - split; [|intros [H|(k & _ & H)]; [by exists 0|eauto]].
    intros [[|k] H]; [by left|right]. exists (S k). split; [lia|done].
Qed.

(** A failed comparison moves the recorded star on by one rune. *)
Lemma pending_backtrack K p s sp ss :
  s ≠ [] → star_ok K p s (Some (sp, ss)) → ¬ Matches (runes p) (runes s) →
  pending p s (Some (sp, ss)) ↔
  pending sp (drop (rune_width ss) ss) (Some (sp, drop (rune_width ss) ss)).
Proof.
  intros Hs Hok Hno. pose proof (star_ok_length _ _ _ _ _ Hok) as Hlen.
  assert (ss ≠ []) as Hss. { intros ->. destruct s; [done|cbn in Hlen; lia]. }
  unfold pending. rewrite (runes_cons ss) by done. split.
  - intros [H|(k & Hk & H)]; [done|]. destruct k as [|[|k]]; [lia|by left|].
    right. exists (S k). split; [lia|done].
  - intros [H|(k & Hk & H)]; right; [by exists 1|]. exists (S k). split; [lia|done].
Qed.

(** A star-free pattern element consumes one rune. *)
Lemma star_ok_step K p s p' s' r r' star :
  star_ok K p s star → r ≠ star_rune →
  runes p = r :: runes p' → runes s = r' :: runes s' → star_ok K p' s' star.
Proof.
  intros Hok Hr Hp Hs. destruct star as [[sp ss]|]; [|done].
  destruct Hok as (HK & q & t & Hsp & Hss & Hlen & Hq). split; [done|].
  exists (q ++ [r]), (t ++ [r']). rewrite Hp in Hsp. rewrite Hs in Hss.
  rewrite <- !app_assoc, !length_app. split_and!; [done..| |].
  - cbn. lia.
  - apply Forall_app. split; [done|]. by constructor.
Qed.

Lemma pending_step p s p' s' r r' star :
  r ≠ star_rune → runes p = r :: runes p' → runes s = r' :: runes s' →
  r = quest_rune ∨ r = r' → pending p s star ↔ pending p' s' star.
Proof.
  intros Hr Hp Hs Hm. unfold pending. rewrite Hp, Hs.
  assert (Matches (r :: runes p') (r' :: runes s') ↔ Matches (runes p') (runes s')) as ->;
    [|done].
  split.
  - intros H. apply Matches_cons_inv in H as (?&?&?&?&?); [|done]. by simplify_eq.
  - intros H. destruct (decide (r = quest_rune)) as [->|Hq]; [by constructor|].
    destruct Hm as [->| ->]; [done|]. by constructor.
Qed.

Definition loop_decides (fuel : nat) (p s : bytes) (star : option (bytes * bytes)) : Prop :=
  ∃ b, match_loop fuel p s star = Some b ∧ (b = true ↔ pending p s star).

Lemma backtrack_decides K fuel p s star :
  (∀ p' s' star', star_ok K p' s' star' → length p' ≤ K →
     match_measure K p' s' star' < fuel → loop_decides fuel p' s' star') →
  star_ok K p s star → s ≠ [] → ¬ Matches (runes p) (runes s) →
  match_measure K p s star < S fuel →
  ∃ b, match star with
       | None => Some false
       | Some (sp, ss) =>
           let ss' := drop (rune_width ss) ss in
           match_loop fuel sp ss' (Some (sp, ss'))
       end = Some b ∧ (b = true ↔ pending p s star).
Proof.
  intros IH Hok Hs Hno Hm. destruct star as [[sp ss]|]; unfold match_measure in Hm.
  - pose proof (star_ok_length _ _ _ _ _ Hok) as Hlen.
    assert (ss ≠ []) as Hss. { intros ->. destruct s; [done|cbn in Hlen; lia]. }
    pose proof (rune_width_bounds _ Hss) as Hw. setoid_rewrite (pending_backtrack K p s sp ss Hs Hok Hno).
    apply IH.
    + apply star_ok_fresh. by destruct Hok.
    + by destruct Hok.
    + destruct Hok as [HK _]. unfold match_measure. rewrite length_drop.
      assert (length ss = rune_width ss + (length ss - rune_width ss)) as He by lia.
      rewrite He in Hm. nia.
  - exists false. split; [done|]. unfold pending. naive_solver.
Qed.

Lemma match_loop_decides K fuel p s star :
  star_ok K p s star → length p ≤ K → match_measure K p s star < fuel →
  loop_decides fuel p s star.
Proof.
  revert p s star. induction fuel as [|fuel IH]; intros p s star Hok HK Hm; [lia|].
  unfold loop_decides. cbn [match_loop]. destruct s as [|c' s'] eqn:Es.
  { eexists. split; [done|]. rewrite bool_decide_eq_true, (pending_end K) by done.
    apply skip_stars_spec. }
  rewrite <- Es in *. assert (s ≠ []) as Hs by by rewrite Es.
  pose proof (backtrack_decides K fuel p s star IH Hok Hs) as Hback.
  pose proof (rune_width_bounds s Hs) as Hsw. clear Es.
  destruct p as [|c p'] eqn:Ep.
  { apply Hback; [|done]. rewrite runes_nil. inversion 1. by apply Hs, runes_eq_nil. }
  rewrite <- Ep in *. assert (p ≠ []) as Hp by by rewrite Ep.
  pose proof (rune_width_bounds p Hp) as Hpw.
  assert (Hmeas : ∀ n m, 1 ≤ n → n ≤ length p →
            match_measure K (drop n p) (drop m s) star < fuel).
  { intros n m ??. destruct star as [[sp ss]|]; unfold match_measure in *;
      rewrite !length_drop; nia. }
  destruct (decide (c = star_byte)) as [->|Hc].
  { rewrite Ep in Hok |- *. setoid_rewrite (pending_star K _ _ _ Hok). apply IH.
    - apply star_ok_fresh. subst; cbn in *; lia.
    - subst; cbn in *; lia.
    - subst p. destruct star as [[sp ss]|]; unfold match_measure in *; cbn [length] in *; [|nia].
      pose proof (star_ok_length _ _ _ _ _ Hok). nia. }
  destruct (decide (c = quest_byte)) as [->|Hc'].
  { assert (runes p = quest_rune :: runes p') as Hrp.
    { rewrite Ep. by rewrite runes_ascii. }
    setoid_rewrite (pending_step p s p' (drop (rune_width s) s) quest_rune (take (rune_width s) s));
      [|done|done|by apply runes_cons|by left].
    replace p' with (drop 1 p) in * by by rewrite Ep.
    apply IH; [|rewrite length_drop; lia|apply Hmeas; lia].
    eapply (star_ok_step K p s); [done| |done|by apply runes_cons]. done. }
  assert (take (rune_width p) p ≠ star_rune ∧ take (rune_width p) p ≠ quest_rune) as [Hr1 Hr2].
  { rewrite Ep. rewrite Ep in Hpw. destruct (rune_width (c :: p')); [lia|].
    cbn. split; intros [=]; done. }
  destruct (bool_decide _) eqn:Hw; cbn [andb].
  - destruct (bool_decide (take _ _ = _)) eqn:Ht; bool_to_prop.
    + setoid_rewrite (pending_step p s (drop (rune_width p) p) (drop (rune_width s) s)
                 (take (rune_width p) p) (take (rune_width s) s));
        [|done|by apply runes_cons|by apply runes_cons|by right].
      apply IH; [|rewrite length_drop; lia|apply Hmeas; lia].
      eapply (star_ok_step K p s); [done| |by apply runes_cons|by apply runes_cons]. done.
    + apply Hback; [|done]. rewrite (runes_cons p), (runes_cons s) by done.
      intros H%Matches_cons_inv; [|done]. destruct H as (?&?&?&?&[?|?]); simplify_eq; done.
  - apply Hback; [|done]. bool_to_prop. rewrite (runes_cons p), (runes_cons s) by done.
    intros H%Matches_cons_inv; [|done]. destruct H as (?&?&[= <- <-]&?&[?|He]); [done|].
    apply Hw. apply (f_equal length) in He. rewrite !length_take in He. lia.
Qed.

Lemma match_initial p s :
  loop_decides (match_bound p s) p s None.
Proof. apply (match_loop_decides (length p)); [done|done|]. unfold match_bound. cbn. nia. Qed.

Lemma Match_iff p s : Match p s = true ↔ Matches (runes p) (runes s).
Proof.
  destruct (match_initial p s) as (b & Hb & Hspec). unfold Match. rewrite Hb. cbn.
  rewrite Hspec. unfold pending. naive_solver.
Qed.

(** The iterative matcher decides the meaning of the pattern: [Match]
    holds exactly when the whole subject, read as runes, matches the pattern,
    a star standing for any sequence and a question mark for one rune. *)
Theorem Match_correct p s : Match p s = true ↔ Matches (runes p) (runes s).
Proof. apply Match_iff. Qed.

(** The matching loop returns within [(len(s)+2)*(len(pattern)+1)]
    iterations, so no pattern and input cause exponential backtracking. *)
Theorem match_loop_total p s : is_Some (match_loop (match_bound p s) p s None).
Proof. destruct (match_initial p s) as (b & Hb & _). eauto. Qed.

Example Match_ex1 : Match (bs "a*b?d") (bs "axxbyd") = true.
Proof. reflexivity. Qed.
Example Match_ex2 : Match (bs "a*b?d") (bs "axxbd") = false.
Proof. reflexivity. Qed.
