(* ===== verification/SitePath.v ===== *)
(** * Request paths and URI patterns (internal/site/path.go)

    [NormalizePath] reduces a request URI to its raw path, [ValidatePattern]
    accepts the patterns of URI rules and [parseTemplate] cuts a template into
    segments. *)

From S2P Require Import Prelude GoStrings.

Definition MaxPathLength : nat := 2048.
Definition MaxRegexLength : nat := 1024.
Definition maxAuthorityLength : nat := 1024.
Definition maxRegexProgramSize : Z := 2 * 1024.

Definition slash : ascii := "/"%char.
Definition qmark : ascii := "?"%char.
Definition hash : ascii := "#"%char.
Definition lbrace : ascii := "{"%char.
Definition rbrace : ascii := "}"%char.

(** URI rule kinds. *)
Definition RuleExact : string := "exact".
Definition RuleTemplate : string := "template".
Definition RulePrefix : string := "prefix".
Definition RuleRegex : string := "regex".

(** The predicate of a [checkRunes] message. *)
Inductive runesMsg := NotUTF8 | ControlOrSpace.

(** The errors of the package: the reason and the message it carries. *)
Inductive siteErr :=
| uriEmpty | uriNotPathOrURL | uriHostTooLong | uriHostEmpty | uriPathTooLong
| uriRunes (m : runesMsg)
| patEmpty | patNoSlash | patTooLong | patQueryOrFragment
| patRunes (m : runesMsg)
| tplWholeSegment (segment : nat)
| tplParamName (segment : nat)
| tplDuplicate (segment : nat) (name : bytes)
| regexTooLong | regexInvalid (err : string) | regexTooComplex
| unknownKind (kind : string)
| groupIDEmpty
| ruleError (index : nat) (id kind : string) (cause : siteErr).

(** ** Characters *)

Definition isBadASCII (c : ascii) : bool :=
  ((bval c <=? 32) || (bval c =? 127))%Z.

(** The loop over the runes of [s]; [fuel] is at least the length of [s]. *)
Fixpoint checkRunes_loop (fuel : nat) (s : bytes) : option runesMsg :=
  match fuel, s with
  | S fuel, _ :: _ =>
      let '(r, size) := DecodeRuneInString s in
      if (r =? RuneError)%Z && (size <=? 1)%nat then Some NotUTF8
      else if IsControl r || IsSpace r then Some ControlOrSpace
      else checkRunes_loop fuel (drop size s)
  | _, _ => None
  end.
Definition checkRunes (s : bytes) : option runesMsg := checkRunes_loop (length s) s.

(** ** Normalisation *)

(** The byte loop shared by [scanAuthority] and [scanPath]: stops at a byte
    of [stop], refuses to pass [limit] bytes, and reports whether a byte
    outside ASCII was seen. *)
Fixpoint scan_loop (stop : ascii → bool) (limit : nat) (tooLong : siteErr)
    (s : bytes) (i : nat) (nonASCII : bool) : result siteErr (nat * bool) :=
  match s with
  | [] => Ok (i, nonASCII)
  | c :: s' =>
      if stop c then Ok (i, nonASCII)
      else if (i =? limit)%nat then Err tooLong
      else if (RuneSelf <=? bval c)%Z then scan_loop stop limit tooLong s' (S i) true
      else if isBadASCII c then Err (uriRunes ControlOrSpace)
      else scan_loop stop limit tooLong s' (S i) nonASCII
  end.

Definition path_stop (c : ascii) : bool := bool_decide (c = qmark) || bool_decide (c = hash).
Definition authority_stop (c : ascii) : bool := bool_decide (c = slash) || path_stop c.

Definition scanAuthority (s : bytes) : result siteErr nat :=
  match scan_loop authority_stop maxAuthorityLength uriHostTooLong s 0 false with
  | Err e => Err e
  | Ok (n, nonASCII) =>
      if (n =? 0)%nat then Err uriHostEmpty
      else if nonASCII then
        match checkRunes (take n s) with
        | Some msg => Err (uriRunes msg)
        | None => Ok n
        end
      else Ok n
  end.

Definition scanPath (s : bytes) : result siteErr nat :=
  match scan_loop path_stop MaxPathLength uriPathTooLong s 0 false with
  | Err e => Err e
  | Ok (n, nonASCII) =>
      if nonASCII then
        match checkRunes (take n s) with
        | Some msg => Err (uriRunes msg)
        | None => Ok n
        end
      else Ok n
  end.

Definition cutScheme (scheme s : bytes) : option bytes :=
  if (length scheme <=? length s)%nat && equal_fold_ascii (take (length scheme) s) scheme
  then Some (drop (length scheme) s) else None.

Definition cutHTTPScheme (s : bytes) : option bytes :=
  match cutScheme (bs "https://") s with
  | Some rest => Some rest
  | None => cutScheme (bs "http://") s
  end.

Definition NormalizePath (uri : bytes) : result siteErr bytes :=
  match uri with
  | [] => Err uriEmpty
  | c :: _ =>
      let path rest :=
        match scanPath rest with
        | Err e => Err e
        | Ok n => Ok (take n rest)
        end in
      if decide (c = slash) then path uri
      else match cutHTTPScheme uri with
      | None => Err uriNotPathOrURL
      | Some afterScheme =>
          match scanAuthority afterScheme with
          | Err e => Err e
          | Ok n =>
              let rest := drop n afterScheme in
              match rest with
              | [] => Ok [slash]
              | d :: _ => if decide (d = slash) then path rest else Ok [slash]
              end
          end
      end
  end.

(** ** Patterns *)

Definition validatePathPattern (pattern : bytes) : result siteErr unit :=
  match pattern with
  | [] => Err patEmpty
  | c :: _ =>
      if bool_decide (c ≠ slash) then Err patNoSlash
      else if (MaxPathLength <? length pattern)%nat then Err patTooLong
      else if contains_any pattern [qmark; hash] then Err patQueryOrFragment
      else match checkRunes pattern with
           | Some msg => Err (patRunes msg)
           | None => Ok tt
           end
  end.

(** A "/"-separated segment: [Some literal], or [None] for a parameter. *)
Definition templateSegment : Type := option bytes.

Definition param_start (c : ascii) : bool :=
  bool_decide (c = "_"%char) || byte_in 97 122 c || byte_in 65 90 c.

Definition validParamName (name : bytes) : bool :=
  match name with
  | [] => false
  | c :: name' => param_start c && forallb (λ d, param_start d || byte_in 48 57 d) name'
  end.

(** The parameter name of a segment that is exactly ["{name}"]. *)
Definition param_name (part : bytes) : bytes := take (length part - 2) (drop 1 part).

Definition whole_param (part : bytes) : bool :=
  negb ((length part <? 2)%nat || bool_decide (head part ≠ Some lbrace)
        || bool_decide (last part ≠ Some rbrace)
        || negb (count_byte lbrace part =? 1)%nat
        || negb (count_byte rbrace part =? 1)%nat).

(** The loop over the parts; [i] is the index of the next part and [names]
    the parameter names seen. *)
Fixpoint parseSegments (parts : list bytes) (i : nat) (names : list bytes) :
    result siteErr (list templateSegment) :=
  match parts with
  | [] => Ok []
  | part :: parts' =>
      if negb (contains_any part [lbrace; rbrace]) then
        match parseSegments parts' (S i) names with
        | Err e => Err e
        | Ok segs => Ok (Some part :: segs)
        end
      else if negb (whole_param part) then Err (tplWholeSegment (i + 1))
      else
        let name := param_name part in
        if negb (validParamName name) then Err (tplParamName (i + 1))
        else if bool_decide (name ∈ names) then Err (tplDuplicate (i + 1) name)
        else match parseSegments parts' (S i) (name :: names) with
             | Err e => Err e
             | Ok segs => Ok (None :: segs)
             end
  end.

Definition parseTemplate (pattern : bytes) : result siteErr (list templateSegment) :=
  match validatePathPattern pattern with
  | Err e => Err e
  | Ok _ => parseSegments (split_byte slash (drop 1 pattern)) 0 []
  end.

(** ** Regular expressions *)

Fixpoint regexProgramSize (re : syntax_Regexp) : Z :=
  let sum := (fix sum (l : list syntax_Regexp) : Z :=
                match l with
                | [] => 0
                | sub :: l' => regexProgramSize sub + sum l'
                end)%Z in
  Z.max 1
    match re with
    | OpLiteral n => Z.of_nat n
    | OpCapture sub | OpStar sub => 2 + regexProgramSize sub
    | OpPlus sub | OpQuest sub => 1 + regexProgramSize sub
    | OpConcat subs => sum subs
    | OpAlternate subs =>
        sum subs + (if (1 <? length subs)%nat then Z.of_nat (length subs) - 1 else 0)
    | OpRepeat min max sub =>
        if (max =? -1) && (min =? 0) then 2 + regexProgramSize sub
        else if max =? -1 then 1 + min * regexProgramSize sub
        else max * regexProgramSize sub + (max - min)
    | OpOther => 0
    end%Z.

Section engine.
Context `{RE : RegexEngine}.

Definition compileRegex (pattern : bytes) : result siteErr Regexp :=
  match pattern with
  | [] => Err patEmpty
  | _ =>
      if (MaxRegexLength <? length pattern)%nat then Err regexTooLong
      else match syntax_Parse pattern with
      | Err e => Err (regexInvalid e)
      | Ok parsed =>
          if (maxRegexProgramSize <? regexProgramSize parsed)%Z then Err regexTooComplex
          else match regexp_Compile pattern with
               | Err e => Err (regexInvalid e)
               | Ok re => Ok re
               end
      end
  end.

Definition ValidatePattern (kind : string) (pattern : bytes) : result siteErr unit :=
  if String.eqb kind RuleExact || String.eqb kind RulePrefix then validatePathPattern pattern
  else if String.eqb kind RuleTemplate then
    match parseTemplate pattern with Err e => Err e | Ok _ => Ok tt end
  else if String.eqb kind RuleRegex then
    match compileRegex pattern with Err e => Err e | Ok _ => Ok tt end
  else Err (unknownKind kind).
End engine.

(** ** Lemmas on scanning *)

Definition good_ascii (c : ascii) : Prop := (128 ≤ bval c)%Z ∨ isBadASCII c = false.

Lemma isBadASCII_spec c : (bval c < 128)%Z →
  isBadASCII c = IsControl (bval c) || IsSpace (bval c).
Proof.
  intros H. pose proof (bval_range c). unfold isBadASCII, IsControl, IsSpace.
  apply eq_true_iff_eq. rewrite !orb_true_iff, !andb_true_iff, !Z.leb_le, !Z.eqb_eq. lia.
Qed.

(** The result of [scan_loop]: the bytes before the first stop byte. *)
Lemma scan_loop_sound stop limit tl s i na n na' :
  i ≤ limit → scan_loop stop limit tl s i na = Ok (n, na') →
  i ≤ n ≤ limit ∧ n - i ≤ length s ∧
  Forall (λ c, stop c = false ∧ good_ascii c) (take (n - i) s) ∧
  (na' = false → na = false ∧ Forall (λ c, (bval c < 128)%Z) (take (n - i) s)) ∧
  match drop (n - i) s with [] => True | c :: _ => stop c = true end.
Proof.
  revert i na. induction s as [|c s IH]; intros i na Hi; cbn [scan_loop].
  - intros [= <- <-]. rewrite take_nil, drop_nil. split_and!; auto; cbn; lia.
  - destruct (stop c) eqn:Hc.
    + intros [= <- <-]. rewrite Nat.sub_diag. cbn. rewrite Hc. split_and!; auto; lia.
    + destruct (i =? limit)%nat eqn:Hl; [done|]. bool_to_prop.
      assert (∀ b, scan_loop stop limit tl s (S i) b = Ok (n, na') →
                good_ascii c → (b = false → na = false ∧ (bval c < 128)%Z) →
                i ≤ n ≤ limit ∧ n - i ≤ length (c :: s) ∧
                Forall (λ c, stop c = false ∧ good_ascii c) (take (n - i) (c :: s)) ∧
                (na' = false → na = false ∧ Forall (λ c, (bval c < 128)%Z) (take (n - i) (c :: s))) ∧
                match drop (n - i) (c :: s) with [] => True | c :: _ => stop c = true end) as Hstep.
      { intros b H Hg Hb. apply IH in H as (?&?&?&Hna&?); [|lia].
        replace (n - i) with (S (n - S i)) by lia. cbn [take drop length].
        split_and!; [lia|lia|lia| | |done].
        - constructor; auto.
        - intros He. destruct (Hna He) as [-> ?], Hb; auto. }
      destruct (RuneSelf <=? bval c)%Z eqn:Hn; bool_to_prop.
      * intros H. eapply Hstep; [done|left; done|done].
      * destruct (isBadASCII c) eqn:Hb; [done|]. intros H.
        eapply Hstep; [done|by right|]. intros ->. done.
Qed.

Lemma scan_loop_complete stop limit tl p t i na :
  Forall (λ c, stop c = false ∧ good_ascii c) p → i + length p ≤ limit →
  match t with [] => True | c :: _ => stop c = true end →
  ∃ na', scan_loop stop limit tl (p ++ t) i na = Ok (i + length p, na').
Proof.
  intros Hp. revert i na. induction Hp as [|c p [Hc Hg] Hp IH]; intros i na Hl Ht; cbn in *.
  - exists na. rewrite Nat.add_0_r. destruct t as [|d t]; [done|]. cbn. by rewrite Ht.
  - rewrite Hc. destruct (i =? limit)%nat eqn:He; bool_to_prop; [lia|].
    rewrite <- Nat.add_succ_comm. unfold RuneSelf.
    destruct (128 <=? bval c)%Z eqn:Hn; bool_to_prop; [apply IH; auto; lia|].
    destruct Hg as [Hg| ->]; [lia|]. apply IH; auto; lia.
Qed.

(** ** Lemmas on rune checks *)

Lemma decode_ascii c s : (bval c < 128)%Z → DecodeRuneInString (c :: s) = (bval c, 1).
Proof.
  intros H. unfold DecodeRuneInString, RuneSelf. by rewrite (proj2 (Z.ltb_lt _ _) H).
Qed.

Lemma checkRunes_loop_enough n m s :
  length s ≤ n → length s ≤ m → checkRunes_loop n s = checkRunes_loop m s.
Proof.
  revert m s. induction n as [|n IH]; intros m s Hn Hm.
  - destruct s; [by destruct m|cbn in Hn; lia].
  - destruct s as [|c s]; [by destruct m|]. destruct m as [|m]; [cbn in Hm; lia|].
    cbn [checkRunes_loop]. pose proof (rune_width_bounds (c :: s) ltac:(done)) as Hw.
    unfold rune_width in Hw. destruct (DecodeRuneInString (c :: s)) as [r size]. cbn in *.
    repeat case_match; try done. apply IH; rewrite length_drop; cbn; lia.
Qed.

Lemma checkRunes_cons s :
  s ≠ [] → checkRunes s =
  let '(r, size) := DecodeRuneInString s in
  if (r =? RuneError)%Z && (size <=? 1)%nat then Some NotUTF8
  else if IsControl r || IsSpace r then Some ControlOrSpace
  else checkRunes (drop size s).
Proof.
  intros Hs. unfold checkRunes. destruct s as [|c s]; [done|].
  cbn [checkRunes_loop length]. pose proof (rune_width_bounds (c :: s) ltac:(done)) as Hw.
  unfold rune_width in Hw. destruct (DecodeRuneInString (c :: s)) as [r size].
  repeat case_match; try done. apply checkRunes_loop_enough; rewrite length_drop; cbn in *; lia.
Qed.

Lemma checkRunes_ascii s :
  Forall (λ c, (bval c < 128)%Z) s → Forall good_ascii s → checkRunes s = None.
Proof.
  induction s as [|c s IH]; intros Ha Hg; [done|].
  inversion Ha as [|?? Hc Ha']; inversion Hg as [|?? Hgc Hg']; subst.
  rewrite checkRunes_cons by done. rewrite decode_ascii by done. cbn -[checkRunes].
  destruct Hgc as [?|Hb]; [lia|]. rewrite isBadASCII_spec in Hb by done. rewrite Hb.
  assert ((bval c =? RuneError)%Z = false) as -> by (apply Z.eqb_neq; unfold RuneError; lia).
  cbn -[checkRunes]. by apply IH.
Qed.

Lemma utf8_lead_lo x n lo hi : utf8_lead x = Some (n, lo, hi) → (128 ≤ lo)%Z.
Proof. unfold utf8_lead. intros H. repeat case_match; simplify_eq; lia. Qed.

(** The bytes of a multi-byte encoding are outside ASCII. *)
Lemma decode_multibyte c s r size :
  DecodeRuneInString (c :: s) = (r, size) → (128 ≤ bval c)%Z →
  (r =? RuneError)%Z && (size <=? 1)%nat = false →
  Forall good_ascii (take size (c :: s)).
Proof.
  intros Hd Hc Hr. unfold DecodeRuneInString, RuneSelf in Hd.
  rewrite (proj2 (Z.ltb_ge _ _) Hc) in Hd.
  assert (∀ lo hi d, (128 ≤ lo)%Z → negb (byte_in lo hi d) = false → good_ascii d) as Hb.
  { unfold byte_in, good_ascii. intros lo hi d ? H. bool_to_prop. left. lia. }
  assert (∀ s, (RuneError, 1) = (r, size) → Forall good_ascii (take size s)) as Herr.
  { intros s' [= <- <-]. discriminate Hr. }
  assert (good_ascii c) as Hgc by (left; lia).
  destruct (utf8_lead (bval c)) as [[[sz lo] hi]|] eqn:Hlead; [|by apply Herr].
  apply utf8_lead_lo in Hlead.
  destruct s as [|c1 s]; [by apply Herr|].
  destruct (_ || _) eqn:H1; [by apply Herr|]. apply orb_false_iff in H1 as [_ H1].
  apply Hb in H1; [|done].
  destruct (sz <=? 2)%nat; [injection Hd as _ <-; cbn [take]; rewrite !Forall_cons; auto using Forall_nil_2|].
  destruct s as [|c2 s]; [by apply Herr|].
  destruct (negb _) eqn:H2; [by apply Herr|]. apply Hb in H2; [|done].
  destruct (sz <=? 3)%nat; [injection Hd as _ <-; cbn [take]; rewrite !Forall_cons; auto using Forall_nil_2|].
  destruct s as [|c3 s]; [by apply Herr|].
  destruct (negb _) eqn:H3; [by apply Herr|]. apply Hb in H3; [|done].
  injection Hd as _ <-. cbn [take]. rewrite !Forall_cons. auto using Forall_nil_2.
Qed.

Lemma checkRunes_good s : checkRunes s = None → Forall good_ascii s.
Proof.
  remember (length s) as n eqn:Hn. revert s Hn.
  induction n as [n IH] using lt_wf_ind. intros s ->.
  destruct s as [|c s]; [constructor|]. rewrite checkRunes_cons by done.
  pose proof (rune_width_bounds (c :: s) ltac:(done)) as Hw. unfold rune_width in Hw.
  destruct (DecodeRuneInString (c :: s)) as [r size] eqn:Hd. cbn [snd] in Hw.
  destruct (_ && _) eqn:Hr; [done|]. destruct (_ || _) eqn:Hcs; [done|]. intros H.
  rewrite <- (take_drop size (c :: s)). apply Forall_app. split.
  - destruct (decide (bval c < 128)%Z) as [Ha|Ha].
    + rewrite decode_ascii in Hd by done. injection Hd as <- <-.
      constructor; [|constructor]. right. by rewrite isBadASCII_spec.
    + eapply decode_multibyte; [done|lia|done].
  - eapply IH; [|reflexivity|done]. rewrite length_drop. cbn in *. lia.
Qed.

(** ** Normalised paths *)

(** What a normalised path is. *)
Definition normal_path (p : bytes) : Prop :=
  head p = Some slash ∧ length p ≤ MaxPathLength ∧
  Forall (λ c, path_stop c = false) p ∧ checkRunes p = None.

(** A query string or fragment, or nothing. *)
Definition query_tail (t : bytes) : Prop :=
  match t with [] => True | c :: _ => path_stop c = true end.

Lemma scanPath_sound s n :
  scanPath s = Ok n →
  n ≤ MaxPathLength ∧ n ≤ length s ∧ Forall (λ c, path_stop c = false) (take n s) ∧
  checkRunes (take n s) = None ∧ query_tail (drop n s).
Proof.
  unfold scanPath. destruct (scan_loop _ _ _ _ _ _) as [[m na]|e] eqn:Hs; [|done].
  apply scan_loop_sound in Hs as (?&?&Hg&Hna&Ht); [|unfold MaxPathLength; lia].
  rewrite Nat.sub_0_r in *. apply Forall_and in Hg as [Hstop Hg].
  destruct na.
  - destruct (checkRunes (take m s)) eqn:Hc; [done|]. intros [= <-].
    split_and!; [lia|lia|done|done|done].
  - intros [= <-]. destruct (Hna eq_refl) as [_ Ha].
    split_and!; [lia|lia|done| |done]. by apply checkRunes_ascii.
Qed.

Lemma scanPath_complete p t :
  normal_path p → query_tail t → scanPath (p ++ t) = Ok (length p).
Proof.
  intros (_ & Hl & Hstop & Hc) Ht. unfold scanPath.
  pose proof (checkRunes_good _ Hc) as Hg.
  destruct (scan_loop_complete path_stop MaxPathLength uriPathTooLong p t 0 false)
    as [na ->]; [|done|done|].
  - apply Forall_and. done.
  - rewrite Nat.add_0_l. destruct na; [|done]. by rewrite take_app_length, Hc.
Qed.

Lemma scanPath_normal s n c s' :
  s = c :: s' → c = slash → scanPath s = Ok n → normal_path (take n s).
Proof.
  intros -> -> (?&?&?&?&Ht)%scanPath_sound. split_and!; [|rewrite length_take; lia|done|done].
  destruct n; [|done]. exfalso. cbn in Ht. discriminate Ht.
Qed.

Lemma normal_path_slash : normal_path [slash].
Proof. split_and!; [done|unfold MaxPathLength; cbn; lia|by repeat constructor|done]. Qed.

Lemma NormalizePath_path p t :
  normal_path p → query_tail t → NormalizePath (p ++ t) = Ok p.
Proof.
  intros Hp Ht. pose proof (scanPath_complete p t Hp Ht) as Hs.
  destruct Hp as [Hh _]. destruct p as [|c p]; [done|]. injection Hh as ->.
  unfold NormalizePath. cbn [app]. rewrite decide_True by done.
  change (slash :: p ++ t) with ((slash :: p) ++ t). rewrite Hs.
  by rewrite take_app_length.
Qed.

Lemma NormalizePath_normal uri p : NormalizePath uri = Ok p → normal_path p.
Proof.
  unfold NormalizePath. destruct uri as [|c uri]; [done|].
  destruct (decide (c = slash)) as [->|Hc].
  - destruct (scanPath _) eqn:Hs; [|done]. intros [= <-]. by eapply scanPath_normal.
  - destruct (cutHTTPScheme _) as [after|]; [|done].
    destruct (scanAuthority after) as [n|]; [|done].
    destruct (drop n after) as [|d rest] eqn:Hd.
    + intros [= <-]. apply normal_path_slash.
    + destruct (decide (d = slash)) as [->|].
      * destruct (scanPath _) eqn:Hs; [|done]. intros [= <-]. by eapply scanPath_normal.
      * intros [= <-]. apply normal_path_slash.
Qed.

(** A host part [scanAuthority] accepts. *)
Definition host_ok (h : bytes) : Prop :=
  h ≠ [] ∧ length h ≤ maxAuthorityLength ∧
  Forall (λ c, authority_stop c = false) h ∧ checkRunes h = None.

Lemma scanAuthority_complete h t :
  host_ok h → scanAuthority (h ++ slash :: t) = Ok (length h).
Proof.
  intros (Hne & Hl & Hstop & Hc). unfold scanAuthority.
  pose proof (checkRunes_good _ Hc) as Hg.
  destruct (scan_loop_complete authority_stop maxAuthorityLength uriHostTooLong h (slash :: t) 0 false)
    as [na ->]; [by apply Forall_and|done|done|].
  rewrite Nat.add_0_l. destruct h as [|c h]; [done|]. cbn [length Nat.eqb].
  change (S (length h)) with (length (c :: h)).
  destruct na; [|done]. by rewrite take_app_length, Hc.
Qed.

(** [sc] is the scheme prefix [name], in any case. *)
Definition scheme_is (name : string) (sc : bytes) : Prop :=
  equal_fold_ascii sc (bs name) = true.

Lemma cutScheme_app name sc rest : scheme_is name sc → cutScheme (bs name) (sc ++ rest) = Some rest.
Proof.
  unfold scheme_is, equal_fold_ascii, cutScheme. intros H%bool_decide_eq_true.
  assert (length sc = length (bs name)) as <-.
  { apply (f_equal length) in H. by rewrite !length_fmap in H. }
  rewrite length_app, (proj2 (Nat.leb_le _ _)) by lia.
  rewrite take_app_length, drop_app_length. cbn [andb].
  unfold equal_fold_ascii. by rewrite bool_decide_true.
Qed.

Lemma cutHTTPScheme_app sc rest :
  scheme_is "http://" sc ∨ scheme_is "https://" sc → cutHTTPScheme (sc ++ rest) = Some rest.
Proof.
  unfold cutHTTPScheme. intros [H|H]; [|by rewrite cutScheme_app].
  rewrite (cutScheme_app "http://") by done.
  replace (cutScheme (bs "https://") (sc ++ rest)) with (@None bytes); [done|].
  unfold cutScheme. destruct (_ && _) eqn:Hs; [|done]. exfalso.
  apply andb_true_iff in Hs as [_ Hs]. unfold scheme_is, equal_fold_ascii in *.
  apply bool_decide_eq_true in Hs, H.
  apply (f_equal (lookup 4)) in Hs. apply (f_equal (λ l, (length l, l !! 4))) in H.
  rewrite !list_lookup_fmap in Hs. rewrite lookup_take_lt in Hs by (cbn; lia).
  injection H as Hl H. rewrite length_fmap in Hl.
  rewrite lookup_app_l in Hs by (rewrite Hl; cbn; lia).
  rewrite list_lookup_fmap in H. rewrite H in Hs. discriminate Hs.
Qed.

Lemma scheme_head name c d rest sc :
  bs name = d :: rest → ascii_lower d ≠ slash → scheme_is name (c :: sc) → c ≠ slash.
Proof.
  unfold scheme_is, equal_fold_ascii. intros -> Hd H%bool_decide_eq_true ->.
  cbn in H. injection H as H _. by rewrite <- H in Hd.
Qed.

Lemma NormalizePath_absolute sc h p t :
  scheme_is "http://" sc ∨ scheme_is "https://" sc → host_ok h →
  normal_path p → query_tail t → NormalizePath (sc ++ h ++ p ++ t) = Ok p.
Proof.
  intros Hsc Hh Hp Ht. pose proof (scanPath_complete p t Hp Ht) as Hs.
  unfold NormalizePath. rewrite cutHTTPScheme_app by done.
  assert (∃ c sc', sc = c :: sc' ∧ c ≠ slash) as (c & sc' & -> & Hc).
  { destruct sc as [|c sc']; [by destruct Hsc|]. exists c, sc'. split; [done|].
    destruct Hsc as [H|H]; (eapply scheme_head; [|by instantiate (1 := "h"%char)|exact H]);
      reflexivity. }
  cbn [app]. rewrite decide_False by done.
  destruct Hp as [Hhead _]. destruct p as [|d p]; [done|]. injection Hhead as ->.
  change (h ++ (slash :: p) ++ t) with (h ++ slash :: p ++ t).
  rewrite scanAuthority_complete by done. rewrite drop_app_length.
  rewrite decide_True by done. change (slash :: p ++ t) with ((slash :: p) ++ t).
  rewrite Hs. by rewrite take_app_length.
Qed.

Lemma NormalizePath_substring uri p :
  NormalizePath uri = Ok p → p = [slash] ∨ ∃ pre t, uri = pre ++ p ++ t ∧ query_tail t.
Proof.
  assert (∀ s n, scanPath s = Ok n → ∃ t, s = take n s ++ t ∧ query_tail t) as Hp.
  { intros s n (?&?&?&?&?)%scanPath_sound. exists (drop n s). by rewrite take_drop. }
  unfold NormalizePath. destruct uri as [|c uri]; [done|].
  destruct (decide (c = slash)) as [->|Hc].
  - destruct (scanPath _) eqn:Hs; [|done]. intros [= <-]. right. exists [].
    by apply Hp in Hs.
  - unfold cutHTTPScheme, cutScheme.
    repeat case_match; simplify_eq; try done; intros [= <-]; try (by left); right;
      match goal with H : scanPath _ = Ok _ |- _ => apply Hp in H as (t & Ht & ?) end;
      match goal with H : drop ?n (drop ?m ?s) = _ |- _ =>
        exists (take (m + n) s), t; rewrite <- Ht, <- H, drop_drop; by rewrite take_drop end.
Qed.

(** A path [NormalizePath] returns starts with a slash, has at most 2048
    bytes of valid UTF-8 without control or space characters, query or
    fragment; it is a substring of the URI cut at the query or fragment (or
    the root path of a URL without one), and normalising it again changes
    nothing. *)
Theorem NormalizePath_sound uri p :
  NormalizePath uri = Ok p →
  normal_path p ∧ NormalizePath p = Ok p ∧
  (p = [slash] ∨ ∃ pre t, uri = pre ++ p ++ t ∧ query_tail t).
Proof.
  intros H. pose proof (NormalizePath_normal _ _ H) as Hp. split; [done|]. split.
  - rewrite <- (app_nil_r p) at 1. by apply NormalizePath_path.
  - by apply NormalizePath_substring.
Qed.

Lemma NormalizePath_sound_witness : normal_path (bs "/a/b").
Proof. apply (NormalizePath_sound (bs "HTTPS://h/a/b?x=1")). reflexivity. Defined.

(** A well-formed path is returned unchanged whatever query or fragment
    follows it, and an absolute http or https URL yields the path behind its
    host. *)
Theorem NormalizePath_complete sc h p t :
  scheme_is "http://" sc ∨ scheme_is "https://" sc → host_ok h →
  normal_path p → query_tail t →
  NormalizePath (p ++ t) = Ok p ∧ NormalizePath (sc ++ h ++ p ++ t) = Ok p.
Proof. eauto using NormalizePath_path, NormalizePath_absolute. Qed.

Lemma NormalizePath_complete_witness :
  NormalizePath (bs "/a" ++ bs "?q") = Ok (bs "/a") ∧
  NormalizePath (bs "Https://" ++ bs "h.example" ++ bs "/a" ++ bs "?q") = Ok (bs "/a").
Proof.
  apply (NormalizePath_complete (bs "Https://") (bs "h.example") (bs "/a") (bs "?q")).
  - right. reflexivity.
  - split_and!; [done|vm_compute; lia| |reflexivity].
    apply (bool_decide_unpack _). vm_compute. exact I.
  - split_and!; [done|vm_compute; lia| |reflexivity].
    apply (bool_decide_unpack _). vm_compute. exact I.
  - reflexivity.
Defined.
