(* ===== verification/SiteTrie.v ===== *)
(** * The template trie (internal/site/matcher.go)

    Templates are stored in a trie keyed by segments.  [templateNode_search]
    walks it depth first, pruning subtrees that cannot beat the best terminal
    found; [search_best] shows that the pruning loses nothing. *)

From S2P Require Import Prelude GoStrings SitePath.

Record MatchResult := {
  mr_GroupID : string;
  mr_GroupName : string;
  mr_RuleID : string;
  mr_Kind : string;
  mr_Default : bool;
}.

Record ruleEntry := { re_result : MatchResult; re_rank : nat }.

Record templateTerminal := {
  tt_entry : ruleEntry;
  tt_literals : nat;
  tt_params : nat;
}.

#[local] Set Warnings "-register-all".
(** Literal children are an association list; its order is never observed. *)
Inductive templateNode := TNode {
  tn_literals : list (bytes * templateNode);
  tn_param : option templateNode;
  tn_terminal : option templateTerminal;
  tn_maxLiterals : Z;
  tn_minRank : Z;
}.

Definition empty_node : templateNode := TNode [] None None 0 0.

Definition betterThan (t o : templateTerminal) : bool :=
  if negb (tt_literals t =? tt_literals o)%nat then (tt_literals o <? tt_literals t)%nat
  else if negb (tt_params t =? tt_params o)%nat then (tt_params t <? tt_params o)%nat
  else (re_rank (tt_entry t) <? re_rank (tt_entry o))%nat.

(** ** Association lists *)

Fixpoint alookup {A} (k : bytes) (l : list (bytes * A)) : option A :=
  match l with
  | [] => None
  | (k', v) :: l' => if decide (k = k') then Some v else alookup k l'
  end.

Fixpoint aset {A} (k : bytes) (v : A) (l : list (bytes * A)) : list (bytes * A) :=
  match l with
  | [] => [(k, v)]
  | (k', v') :: l' => if decide (k = k') then (k, v) :: l' else (k', v') :: aset k v l'
  end.

Lemma alookup_aset {A} k (v : A) l k' :
  alookup k' (aset k v l) = if decide (k' = k) then Some v else alookup k' l.
Proof.
  induction l as [|[j w] l IH]; cbn; [done|].
  destruct (decide (k = j)) as [->|]; cbn; [by destruct (decide (k' = j))|].
  rewrite IH. repeat case_decide; congruence.
Qed.

Lemma alookup_map {A B} (f : A → B) k l :
  alookup k (map (λ '(k', c), (k', f c)) l) = f <$> alookup k l.
Proof. induction l as [|[j w] l IH]; cbn; [done|]. by case_decide. Qed.

Lemma alookup_in {A} k (l : list (bytes * A)) v : alookup k l = Some v → (k, v) ∈ l.
Proof. induction l as [|[j w] l IH]; cbn; [done|]. case_decide; set_solver. Qed.

(** ** Operations *)

(** [insert]: the walk down the segments, creating missing nodes; [literals]
    counts the literal segments passed and [total] is the segment count. *)
Fixpoint insert_walk (n : templateNode) (segments : list templateSegment)
    (literals total : nat) (e : ruleEntry) : templateNode :=
  let '(TNode lits prm term maxl minr) := n in
  match segments with
  | [] =>
      let t := {| tt_entry := e; tt_literals := literals; tt_params := total - literals |} in
      match term with
      | None => TNode lits prm (Some t) maxl minr
      | Some o => if betterThan t o then TNode lits prm (Some t) maxl minr else n
      end
  | None :: segments' =>
      let child := default empty_node prm in
      TNode lits (Some (insert_walk child segments' literals total e)) term maxl minr
  | Some lit :: segments' =>
      let child := default empty_node (alookup lit lits) in
      TNode (aset lit (insert_walk child segments' (S literals) total e) lits)
        prm term maxl minr
  end.

Definition templateNode_insert (n : templateNode) (segments : list templateSegment)
    (e : ruleEntry) : templateNode :=
  insert_walk n segments 0 (length segments) e.

Definition math_MaxInt : Z := int64_max.

(** [finalize]: the bounds of a node merge those of its children. *)
Fixpoint templateNode_finalize (n : templateNode) : templateNode :=
  let '(TNode lits prm term _ _) := n in
  let lits' := map (λ '(k, c), (k, templateNode_finalize c)) lits in
  let prm' := option_map templateNode_finalize prm in
  let '(maxl, minr) :=
    match term with
    | Some t => (Z.of_nat (tt_literals t), Z.of_nat (re_rank (tt_entry t)))
    | None => (-1, math_MaxInt)%Z
    end in
  let merge b (c : templateNode) := (Z.max b.1 (tn_maxLiterals c), Z.min b.2 (tn_minRank c)) in
  let b := foldl (λ b '(_, c), merge b c) (maxl, minr) lits' in
  let b := match prm' with Some c => merge b c | None => b end in
  TNode lits' prm' term b.1 b.2.

Definition templateNode_canBeat (n : templateNode) (best : option templateTerminal) : bool :=
  if (tn_maxLiterals n <? 0)%Z then false
  else match best with
  | None => true
  | Some b =>
      (Z.of_nat (tt_literals b) <? tn_maxLiterals n)%Z
      || ((tn_maxLiterals n =? Z.of_nat (tt_literals b))%Z
          && (tn_minRank n <? Z.of_nat (re_rank (tt_entry b)))%Z)
  end.

(** [search]: [start] is the index of the current segment, past the end of
    [path] once every segment was consumed. *)
Fixpoint templateNode_search (fuel : nat) (n : templateNode) (path : bytes) (start : nat)
    (best : option templateTerminal) : option templateTerminal :=
  match fuel with
  | O => best
  | S fuel =>
      if negb (templateNode_canBeat n best) then best
      else if (length path <? start)%nat then
        match tn_terminal n with
        | Some t =>
            match best with
            | None => Some t
            | Some b => if betterThan t b then Some t else best
            end
        | None => best
        end
      else
        let stop := match index_byte slash (drop start path) with
                    | None => length path
                    | Some i => i + start
                    end in
        let segment := take (stop - start) (drop start path) in
        let best := match alookup segment (tn_literals n) with
                    | Some child => templateNode_search fuel child path (stop + 1) best
                    | None => best
                    end in
        match tn_param n with
        | Some p => if bool_decide (segment ≠ []) then templateNode_search fuel p path (stop + 1) best
                    else best
        | None => best
        end
  end.

Definition templateNode_match (n : templateNode) (path : bytes) : option templateTerminal :=
  if (tn_maxLiterals n <? 0)%Z then None
  else match path with
  | [] => None
  | c :: _ =>
      if bool_decide (c ≠ slash) then None
      else templateNode_search (S (S (length path))) n path 1 None
  end.

(** ** Precedence *)

#[export] Instance betterThan_rank : StrictRank betterThan.
Proof.
  unfold betterThan. split.
  - intros x. rewrite !Nat.eqb_refl. cbn. apply Nat.ltb_irrefl.
  - intros x y z. repeat case_match; bool_to_prop; rewrite ?Nat.ltb_lt; lia.
  - intros x y z. repeat case_match; bool_to_prop; rewrite ?Nat.ltb_ge; lia.
Qed.

(** ** Reading the trie by shape

    A shape is the segment list of a template; [tsub] walks it and [tget] reads
    the terminal stored at its end. *)
Fixpoint tsub (n : templateNode) (sh : list templateSegment) : option templateNode :=
  match sh with
  | [] => Some n
  | None :: sh' => p ← tn_param n; tsub p sh'
  | Some lit :: sh' => c ← alookup lit (tn_literals n); tsub c sh'
  end.

Definition tget (n : templateNode) (sh : list templateSegment) : option templateTerminal :=
  tsub n sh ≫= tn_terminal.

(** A literal segment matches itself and a parameter any non-empty segment. *)
Fixpoint shape_matches (sh : list templateSegment) (segs : list bytes) : bool :=
  match sh, segs with
  | [], [] => true
  | Some lit :: sh', s :: segs' => bool_decide (lit = s) && shape_matches sh' segs'
  | None :: sh', s :: segs' => bool_decide (s ≠ []) && shape_matches sh' segs'
  | _, _ => false
  end.

Fixpoint literal_count (sh : list templateSegment) : nat :=
  match sh with
  | [] => 0
  | Some _ :: sh' => S (literal_count sh')
  | None :: sh' => literal_count sh'
  end.

Lemma literal_count_le sh : literal_count sh ≤ length sh.
Proof. induction sh as [|[]]; cbn; lia. Qed.

Lemma shape_matches_length sh segs : shape_matches sh segs = true → length sh = length segs.
Proof.
  revert segs. induction sh as [|[lit|] sh IH]; intros [|s segs]; cbn; try done;
    intros H; bool_to_prop; f_equal; eauto.
Qed.

Lemma tget_empty sh : tget empty_node sh = None.
Proof. by destruct sh as [|[lit|] sh]. Qed.

Lemma tget_param n sh : tget n (None :: sh) = tn_param n ≫= λ p, tget p sh.
Proof. unfold tget. cbn. by destruct (tn_param n). Qed.

Lemma tget_literal n lit sh :
  tget n (Some lit :: sh) = alookup lit (tn_literals n) ≫= λ c, tget c sh.
Proof. unfold tget. cbn. by destruct (alookup _ _). Qed.

Lemma tget_default o sh : tget (default empty_node o) sh = o ≫= λ c, tget c sh.
Proof. destruct o; [done|apply tget_empty]. Qed.

Lemma tget_insert_walk n segs k total e sh :
  tget (insert_walk n segs k total e) sh =
  if decide (sh = segs) then
    keep_best betterThan (tget n segs)
      {| tt_entry := e; tt_literals := k + literal_count segs;
         tt_params := total - (k + literal_count segs) |}
  else tget n sh.
Proof.
  revert n k sh. induction segs as [|seg segs IH]; intros [ls prm term maxl minr] k sh.
  - cbn. rewrite Nat.add_0_r. unfold keep_best, tget.
    destruct sh as [|s sh]; [rewrite decide_True by done|rewrite decide_False by done];
      cbn; by repeat case_match.
  - destruct seg as [lit|]; cbn [insert_walk literal_count]; rewrite <- ?Nat.add_succ_comm;
      (destruct sh as [|[lit'|] sh]; [by rewrite decide_False| |]);
      rewrite ?tget_param, ?tget_literal; cbn [tn_literals tn_param].
    + rewrite alookup_aset. destruct (decide (lit' = lit)) as [->|];
        [|by rewrite decide_False by congruence].
      cbn. rewrite IH, !tget_default.
      destruct (decide (sh = segs)) as [->|]; [by rewrite decide_True|].
      by rewrite decide_False by congruence.
    + by rewrite decide_False.
    + by rewrite decide_False.
    + cbn. rewrite IH, !tget_default.
      destruct (decide (sh = segs)) as [->|]; [by rewrite decide_True|].
      by rewrite decide_False by congruence.
Qed.

Definition terminal_of (segs : list templateSegment) (e : ruleEntry) : templateTerminal :=
  {| tt_entry := e; tt_literals := literal_count segs;
     tt_params := length segs - literal_count segs |}.

Lemma tget_insert n segs e sh :
  tget (templateNode_insert n segs e) sh =
  if decide (sh = segs) then keep_best betterThan (tget n segs) (terminal_of segs e)
  else tget n sh.
Proof. apply tget_insert_walk. Qed.

(** ** Pruning bounds *)

(** Every terminal of every subtree is within the bounds of its root. *)
Definition bounded (n : templateNode) : Prop :=
  ∀ sh m sh' t, tsub n sh = Some m → tget m sh' = Some t →
    (Z.of_nat (tt_literals t) ≤ tn_maxLiterals m)%Z ∧
    (tn_minRank m ≤ Z.of_nat (re_rank (tt_entry t)))%Z.

Lemma literals_finalize n :
  tn_literals (templateNode_finalize n)
  = map (λ '(k, c), (k, templateNode_finalize c)) (tn_literals n).
Proof. destruct n as [ls prm [t|] ? ?]; done. Qed.

Lemma param_finalize n :
  tn_param (templateNode_finalize n) = templateNode_finalize <$> tn_param n.
Proof. destruct n as [ls prm [t|] ? ?]; done. Qed.

Lemma tsub_finalize n sh :
  tsub (templateNode_finalize n) sh = templateNode_finalize <$> tsub n sh.
Proof.
  revert n. induction sh as [|[lit|] sh IH]; intros n; [done| |]; cbn [tsub].
  - rewrite literals_finalize, alookup_map. by destruct (alookup lit _); cbn.
  - rewrite param_finalize. by destruct (tn_param n); cbn.
Qed.

Lemma terminal_finalize n : tn_terminal (templateNode_finalize n) = tn_terminal n.
Proof. destruct n. cbn. by repeat case_match. Qed.

Lemma tget_finalize n sh : tget (templateNode_finalize n) sh = tget n sh.
Proof.
  unfold tget. rewrite tsub_finalize. destruct (tsub n sh); cbn; [|done].
  apply terminal_finalize.
Qed.

Lemma merge_bounds (l : list (bytes * templateNode)) b :
  let b' := foldl (λ b '(_, c), (Z.max b.1 (tn_maxLiterals c), Z.min b.2 (tn_minRank c))) b l in
  (b.1 ≤ b'.1 ∧ b'.2 ≤ b.2)%Z ∧
  ∀ k c, (k, c) ∈ l → (tn_maxLiterals c ≤ b'.1 ∧ b'.2 ≤ tn_minRank c)%Z.
Proof.
  revert b. induction l as [|[k c] l IH]; intros b; cbn; [split; [lia|set_solver]|].
  destruct (IH (Z.max b.1 (tn_maxLiterals c), Z.min b.2 (tn_minRank c))) as [H1 H2].
  cbn in H1. split; [lia|]. intros k' c' [[= -> ->]|Hin]%elem_of_cons; [lia|eauto].
Qed.

(** The bounds of a finalized node cover its terminal and its children. *)
Lemma finalize_covers n (m := templateNode_finalize n) :
  (∀ t, tn_terminal n = Some t →
     (Z.of_nat (tt_literals t) ≤ tn_maxLiterals m)%Z ∧
     (tn_minRank m ≤ Z.of_nat (re_rank (tt_entry t)))%Z) ∧
  (∀ k c, (k, c) ∈ tn_literals m ∨ tn_param m = Some c →
     (tn_maxLiterals c ≤ tn_maxLiterals m ∧ tn_minRank m ≤ tn_minRank c)%Z).
Proof.
  subst m. destruct n as [ls prm term ? ?].
  destruct term as [t|]; cbn [templateNode_finalize];
  match goal with |- context [foldl ?f ?b ?l] => pose proof (merge_bounds l b) as [Hm Hc] end.
  all: cbn in Hm; split; [intros t' [= <-]|intros k c [Hin|Hp]];
    cbn in *; try (specialize (Hc _ _ Hin)); destruct prm; simplify_eq/=; lia.
Qed.

Lemma finalize_bounds n sh t : tget n sh = Some t →
  (Z.of_nat (tt_literals t) ≤ tn_maxLiterals (templateNode_finalize n))%Z ∧
  (tn_minRank (templateNode_finalize n) ≤ Z.of_nat (re_rank (tt_entry t)))%Z.
Proof.
  revert n. induction sh as [|[lit|] sh IH]; intros n Ht;
    destruct (finalize_covers n) as [Hterm Hsub]; [by apply Hterm| |].
  - rewrite tget_literal in Ht. apply bind_Some in Ht as (c & Hl & Ht).
    specialize (IH _ Ht). specialize (Hsub lit (templateNode_finalize c)).
    destruct Hsub; [left; apply alookup_in; by rewrite literals_finalize, alookup_map, Hl|lia].
  - rewrite tget_param in Ht. apply bind_Some in Ht as (c & Hl & Ht).
    specialize (IH _ Ht). specialize (Hsub [] (templateNode_finalize c)).
    destruct Hsub; [right; by rewrite param_finalize, Hl|lia].
Qed.

Lemma finalize_bounded n : bounded (templateNode_finalize n).
Proof.
  intros sh m sh' t Hm Ht. rewrite tsub_finalize in Hm.
  apply fmap_Some in Hm as (m' & _ & ->). rewrite tget_finalize in Ht.
  eauto using finalize_bounds.
Qed.

Lemma bounded_param n p : bounded n → tn_param n = Some p → bounded p.
Proof. intros Hb Hp sh m sh' t Hm. apply (Hb (None :: sh)). cbn. by rewrite Hp. Qed.

Lemma bounded_literal n lit c : bounded n → alookup lit (tn_literals n) = Some c → bounded c.
Proof. intros Hb Hp sh m sh' t Hm. apply (Hb (Some lit :: sh)). cbn. by rewrite Hp. Qed.

(** ** The search *)

(** The segments of [path] that the search has still to consume. *)
Definition segments_from (path : bytes) (start : nat) : list bytes :=
  if (length path <? start)%nat then [] else split_byte slash (drop start path).

Definition segment_count (t : templateTerminal) : nat := tt_literals t + tt_params t.

(** [n] holds terminals of templates of [k] more segments than their shape. *)
Definition counted (k : nat) (n : templateNode) : Prop :=
  ∀ sh t, tget n sh = Some t → segment_count t = k + length sh.

(** [t] is stored under a shape that matches [segs]. *)
Definition candidate (n : templateNode) (segs : list bytes) (t : templateTerminal) : Prop :=
  ∃ sh, shape_matches sh segs = true ∧ tget n sh = Some t.

(** [r] is a best terminal among those satisfying [P] and [best]. *)
Definition best_of (P : templateTerminal → Prop) (best r : option templateTerminal) : Prop :=
  (r = best ∨ ∃ t, P t ∧ r = Some t) ∧
  ∀ t, P t ∨ best = Some t → ∃ b, r = Some b ∧ betterThan t b = false.

Lemma canBeat_false n k segs best t :
  bounded n → counted k n →
  (∀ b, best = Some b → segment_count b = k + length segs) →
  templateNode_canBeat n best = false → candidate n segs t →
  ∃ b, best = Some b ∧ betterThan t b = false.
Proof.
  intros Hb Hk Hbest Hc (sh & Hs & Ht).
  destruct (Hb [] n sh t eq_refl Ht) as [H1 H2].
  pose proof (Hk _ _ Ht) as Hn. rewrite (shape_matches_length _ _ Hs) in Hn.
  unfold templateNode_canBeat in Hc.
  destruct (tn_maxLiterals n <? 0)%Z eqn:H0; bool_to_prop; [lia|].
  destruct best as [b|]; [|done]. exists b. split; [done|].
  specialize (Hbest _ eq_refl). unfold segment_count in *.
  apply orb_false_iff in Hc as [Hl [He|Hr]%andb_false_iff]; bool_to_prop;
    unfold betterThan; repeat case_match; bool_to_prop; rewrite ?Nat.ltb_ge; lia.
Qed.

Lemma best_of_trans P Q best r1 r2 :
  best_of P best r1 → best_of Q r1 r2 → best_of (λ t, P t ∨ Q t) best r2.
Proof.
  intros [H1 H2] [H3 H4]. split.
  - destruct H3 as [->|(t & ? & ->)]; [|naive_solver].
    destruct H1 as [->|(t & ? & ->)]; naive_solver.
  - assert (∀ t, P t ∨ best = Some t → ∃ b, r2 = Some b ∧ betterThan t b = false) as Hp.
    { intros t (b & -> & Hb)%H2. destruct (H4 b ltac:(auto)) as (b' & -> & Hb').
      exists b'. split; [done|]. by apply (rank_neg_trans _ b). }
    naive_solver.
Qed.

Lemma best_of_iff P Q best r : (∀ t, P t ↔ Q t) → best_of P best r → best_of Q best r.
Proof. intros HPQ [H1 H2]. split; naive_solver. Qed.

Lemma best_of_none best : (∀ P, (∀ t, ¬ P t) → best_of P best best).
Proof. intros P HP. split; [by left|]. intros t [[]%HP|Ht]. exists t. by rewrite rank_irrefl. Qed.

(** One step of the search consumes the first remaining segment. *)
Lemma segments_from_step path start (rest := drop start path)
    (stop := match index_byte slash rest with None => length path | Some i => i + start end) :
  start ≤ length path →
  segments_from path start = take (stop - start) rest :: segments_from path (stop + 1).
Proof.
  intros Hs. unfold segments_from. rewrite (proj2 (Nat.ltb_ge _ _) Hs).
  fold rest. rewrite split_byte_index. subst stop.
  destruct (index_byte slash rest) as [i|] eqn:Hi.
  - apply index_byte_some in Hi as [Hi _]. apply lookup_lt_Some in Hi.
    subst rest. rewrite length_drop in Hi.
    rewrite (proj2 (Nat.ltb_ge _ _)) by lia. rewrite drop_drop.
    do 2 f_equal; try f_equal; lia.
  - rewrite (proj2 (Nat.ltb_lt _ _)) by lia.
    rewrite take_ge by (subst rest; rewrite length_drop; lia). done.
Qed.

Lemma candidate_nil n t : candidate n [] t ↔ tn_terminal n = Some t.
Proof.
  split.
  - intros ([|[lit|] sh] & Hs & Ht); done.
  - intros Ht. by exists [].
Qed.

Lemma candidate_cons n s segs t :
  candidate n (s :: segs) t ↔
  (∃ c, alookup s (tn_literals n) = Some c ∧ candidate c segs t) ∨
  (∃ p, tn_param n = Some p ∧ s ≠ [] ∧ candidate p segs t).
Proof.
  split.
  - intros ([|[lit|] sh] & Hs & Ht); cbn in Hs; [done| |]; bool_to_prop.
    + subst lit. rewrite tget_literal in Ht. apply bind_Some in Ht as (c & ? & ?).
      left. exists c. split; [done|]. by exists sh.
    + rewrite tget_param in Ht. apply bind_Some in Ht as (c & ? & ?).
      right. exists c. split_and!; [done..|]. by exists sh.
  - intros [(c & Hc & sh & Hs & Ht)|(p & Hp & Hne & sh & Hs & Ht)].
    + exists (Some s :: sh). rewrite tget_literal, Hc. cbn [shape_matches]. by rewrite bool_decide_true.
    + exists (None :: sh). rewrite tget_param, Hp. cbn [shape_matches]. by rewrite bool_decide_true.
Qed.

Lemma counted_param k n p : counted k n → tn_param n = Some p → counted (S k) p.
Proof.
  intros Hk Hp sh t Ht. rewrite (Hk (None :: sh) t); [cbn; lia|].
  by rewrite tget_param, Hp.
Qed.

Lemma counted_literal k n lit c :
  counted k n → alookup lit (tn_literals n) = Some c → counted (S k) c.
Proof.
  intros Hk Hp sh t Ht. rewrite (Hk (Some lit :: sh) t); [cbn; lia|].
  by rewrite tget_literal, Hp.
Qed.

(** A best terminal keeps the segment count of the candidates. *)
Lemma best_of_count n k segs best r :
  counted k n → (∀ b, best = Some b → segment_count b = k + length segs) →
  best_of (candidate n segs) best r → ∀ b, r = Some b → segment_count b = k + length segs.
Proof.
  intros Hk Hb [[->|(t & (sh & Hs & Ht) & ->)] _] b Hr; [by apply Hb|].
  simplify_eq. rewrite <- (shape_matches_length _ _ Hs). by apply Hk.
Qed.

Lemma search_best fuel n path start best k :
  bounded n → counted k n → length (segments_from path start) < fuel →
  (∀ b, best = Some b → segment_count b = k + length (segments_from path start)) →
  best_of (candidate n (segments_from path start)) best
    (templateNode_search fuel n path start best).
Proof.
  revert n start best k. induction fuel as [|fuel IH]; intros n start best k Hb Hk Hf Hc; [lia|].
  cbn [templateNode_search]. destruct (templateNode_canBeat n best) eqn:Hcan; cbn [negb].
  2:{ split; [by left|]. intros t [Ht|Ht]; [by eapply canBeat_false|].
      exists t. by rewrite rank_irrefl. }
  destruct (length path <? start)%nat eqn:Hlen.
  { unfold segments_from in *. rewrite Hlen in *.
    apply (best_of_iff (λ t, tn_terminal n = Some t)); [intros; symmetry; apply candidate_nil|].
    destruct (tn_terminal n) as [t|]; [|apply best_of_none; congruence].
    destruct best as [b|].
    - destruct (betterThan t b) eqn:Htb; (split; [naive_solver|]); intros ? [[= <-]|[= <-]];
        eexists; (split; [done|]); first [done|exact (rank_irrefl (better:=betterThan) _)|by apply (better_asym betterThan)].
    - split; [naive_solver|]. intros ? [[= <-]|?]; [|done]. exists t. by rewrite rank_irrefl. }
  bool_to_prop. pose proof (segments_from_step path start Hlen) as Hseg. cbv zeta in Hseg.
  set (stop := match index_byte slash (drop start path) with Some _ => _ | None => _ end) in *.
  set (s := take (stop - start) (drop start path)) in *. cbv zeta.
  rewrite Hseg in Hf, Hc |- *. cbn [length] in Hf, Hc.
  apply (best_of_iff (λ t,
    (∃ c, alookup s (tn_literals n) = Some c ∧ candidate c (segments_from path (stop + 1)) t) ∨
    (∃ p, tn_param n = Some p ∧ s ≠ [] ∧ candidate p (segments_from path (stop + 1)) t)));
    [intros; symmetry; apply candidate_cons|].
  set (r1 := match alookup s (tn_literals n) with Some _ => _ | None => _ end).
  assert (best_of (λ t, ∃ c, alookup s (tn_literals n) = Some c ∧
    candidate c (segments_from path (stop + 1)) t) best r1 ∧
    ∀ b, r1 = Some b → segment_count b = S k + length (segments_from path (stop + 1)))
    as [H1 Hc1].
  { subst r1. destruct (alookup s (tn_literals n)) as [c|] eqn:Hl.
    - assert (best_of (candidate c (segments_from path (stop + 1))) best
        (templateNode_search fuel c path (stop + 1) best)) as H1.
      { apply (IH _ _ _ (S k)); eauto using bounded_literal, counted_literal; [lia|].
        intros b Hb'. rewrite (Hc b Hb'). lia. }
      split; [eapply best_of_iff; [|exact H1]; naive_solver|].
      eapply best_of_count; [by eapply counted_literal| |exact H1].
      intros b Hb'. rewrite (Hc b Hb'). lia.
    - split; [apply best_of_none; naive_solver|]. intros b Hb'. rewrite (Hc b Hb'). lia. }
  eapply best_of_trans; [exact H1|].
  destruct (tn_param n) as [p|] eqn:Hp; [|apply best_of_none; naive_solver].
  case_bool_decide as Hs; [|apply best_of_none; naive_solver].
  eapply best_of_iff; [|apply (IH _ _ _ (S k))]; eauto using bounded_param, counted_param;
    [naive_solver|lia].
Qed.

(** ** Tries built by insertion *)

Definition insert_all (l : list (list templateSegment * ruleEntry)) (n : templateNode) : templateNode :=
  foldl (λ n '(segs, e), templateNode_insert n segs e) n l.

(** The terminals that the templates of [l] with a shape satisfying [P] give. *)
Definition terminals (P : list templateSegment → bool)
    (l : list (list templateSegment * ruleEntry)) : list templateTerminal :=
  omap (λ '(segs, e), if P segs then Some (terminal_of segs e) else None) l.

Lemma elem_of_terminals P l t :
  t ∈ terminals P l ↔ ∃ segs e, (segs, e) ∈ l ∧ P segs = true ∧ t = terminal_of segs e.
Proof.
  unfold terminals. rewrite list_elem_of_omap. split.
  - intros ([segs e] & Hin & Ht). destruct (P segs) eqn:?; naive_solver.
  - intros (segs & e & Hin & HP & ->). exists (segs, e). by rewrite HP.
Qed.

Lemma tget_insert_all l n sh :
  tget (insert_all l n) sh =
  foldl (keep_best betterThan) (tget n sh) (terminals (λ s, bool_decide (s = sh)) l).
Proof.
  revert n. induction l as [|[segs e] l IH]; intros n; cbn; [done|].
  fold (insert_all l (templateNode_insert n segs e)). rewrite IH, tget_insert.
  fold (terminals (λ s, bool_decide (s = sh)) l).
  destruct (decide (sh = segs)) as [->|].
  - by rewrite bool_decide_true.
  - by rewrite bool_decide_false.
Qed.

Lemma tget_built l sh :
  tget (insert_all l empty_node) sh =
  pick_best betterThan (terminals (λ s, bool_decide (s = sh)) l).
Proof. by rewrite tget_insert_all, tget_empty. Qed.

Lemma counted_built l : counted 0 (insert_all l empty_node).
Proof.
  intros sh t Ht. rewrite tget_built in Ht.
  apply pick_best_spec, selected_max in Ht as [Ht _]; [|apply _..].
  apply elem_of_terminals in Ht as (segs & e & _ & <-%bool_decide_eq_true & ->).
  unfold segment_count. cbn. pose proof (literal_count_le segs). lia.
Qed.

Lemma counted_finalize k n : counted k n → counted k (templateNode_finalize n).
Proof. intros Hk sh t Ht. rewrite tget_finalize in Ht. by apply Hk. Qed.

Lemma length_split_byte c s : length (split_byte c s) ≤ S (length s).
Proof.
  induction s as [|d s IH]; cbn; [lia|].
  destruct (decide (c = d)); cbn; [lia|]. destruct (split_byte c s); cbn in *; lia.
Qed.

Lemma length_segments_from path start : length (segments_from path start) ≤ S (length path).
Proof.
  unfold segments_from. case_match; cbn; [lia|].
  pose proof (length_split_byte slash (drop start path)) as H'. rewrite length_drop in H'. lia.
Qed.

(** The winner among the templates of [l] for [path]: pick the best of those
    whose segments match the ones of the path. *)
Definition template_ref (l : list (list templateSegment * ruleEntry)) (path : bytes) :
    option templateTerminal :=
  match path with
  | c :: rest =>
      if bool_decide (c = slash)
      then pick_best betterThan (terminals (λ sh, shape_matches sh (split_byte slash rest)) l)
      else None
  | [] => None
  end.

Lemma terminals_no_tie P l x y :
  NoDup (re_rank ∘ snd <$> l) → x ∈ terminals P l → y ∈ terminals P l →
  betterThan x y = false → betterThan y x = false → x = y.
Proof.
  intros Hnd (s1 & e1 & Hi1 & _ & ->)%elem_of_terminals (s2 & e2 & Hi2 & _ & ->)%elem_of_terminals H1 H2.
  assert (re_rank e1 = re_rank e2) as Hr.
  { unfold betterThan in H1, H2. cbn in H1, H2.
    repeat case_match; bool_to_prop; lia. }
  apply list_elem_of_lookup in Hi1 as [i Hi]. apply list_elem_of_lookup in Hi2 as [j Hj].
  assert (i = j) as ->; [|congruence].
  eapply NoDup_lookup; [exact Hnd| |]; rewrite list_lookup_fmap; [by rewrite Hi|].
  rewrite Hj. cbn. congruence.
Qed.

Lemma candidate_terminals l segs t :
  candidate (insert_all l empty_node) segs t →
  t ∈ terminals (λ sh, shape_matches sh segs) l.
Proof.
  intros (sh & Hs & Ht). rewrite tget_built in Ht.
  apply pick_best_spec, selected_max in Ht as [Ht _]; [|apply _..].
  apply elem_of_terminals in Ht as (s & e & Hin & ->%bool_decide_eq_true & ->).
  apply elem_of_terminals. eauto.
Qed.

(** Some candidate is at least as good as any matching template. *)
Lemma terminals_candidate l segs t :
  t ∈ terminals (λ sh, shape_matches sh segs) l →
  ∃ b, candidate (insert_all l empty_node) segs b ∧ betterThan t b = false.
Proof.
  intros (sh & e & Hl & Hs & ->)%elem_of_terminals.
  assert (terminal_of sh e ∈ terminals (λ s, bool_decide (s = sh)) l) as Hel.
  { apply elem_of_terminals. exists sh, e. by rewrite bool_decide_true. }
  destruct (pick_best betterThan (terminals (λ s, bool_decide (s = sh)) l)) as [b|] eqn:Hp.
  - exists b. split; [exists sh; by rewrite tget_built|].
    apply pick_best_spec, selected_max in Hp as [_ Hp]; [|apply _..]. by apply Hp.
  - apply pick_best_none in Hp. rewrite Hp in Hel. set_solver.
Qed.

Lemma candidate_finalize n segs t :
  candidate (templateNode_finalize n) segs t ↔ candidate n segs t.
Proof. unfold candidate. by setoid_rewrite tget_finalize. Qed.

Lemma best_of_ref l segs r :
  NoDup (re_rank ∘ snd <$> l) →
  best_of (candidate (insert_all l empty_node) segs) None r →
  r = pick_best betterThan (terminals (λ sh, shape_matches sh segs) l).
Proof.
  intros Hnd [[->|(t & Ht & ->)] Hall]; symmetry.
  - apply pick_best_none. destruct (terminals _ l) as [|t ts] eqn:Hl; [done|].
    destruct (terminals_candidate l segs t) as (b & Hb & _); [rewrite Hl; set_solver|].
    destruct (Hall b) as (? & ? & _); [by left|done].
  - apply pick_best_max; [apply _| |by apply candidate_terminals|].
    + intros x y. by apply terminals_no_tie.
    + intros x (b & Hb & Hxb)%terminals_candidate.
      destruct (Hall b) as (? & [= <-] & Hbt); [by left|]. by apply (rank_neg_trans _ b).
Qed.

Lemma template_match_ref l path :
  NoDup (re_rank ∘ snd <$> l) →
  templateNode_match (templateNode_finalize (insert_all l empty_node)) path = template_ref l path.
Proof.
  intros Hnd. set (n := templateNode_finalize _).
  assert (bounded n) as Hb by apply finalize_bounded.
  assert (counted 0 n) as Hk by apply counted_finalize, counted_built.
  unfold templateNode_match, template_ref.
  destruct path as [|c rest]; [by case_match|].
  case_bool_decide as Hc; [rewrite bool_decide_false by done; by case_match|].
  subst c. rewrite bool_decide_true by done.
  assert (segments_from (slash :: rest) 1 = split_byte slash rest) as Hseg by done.
  destruct (tn_maxLiterals n <? 0)%Z eqn:Hneg; bool_to_prop.
  - apply best_of_ref; [done|]. apply best_of_none. intros t Ht.
    apply candidate_finalize in Ht as (sh & _ & Ht).
    destruct (Hb [] n sh t eq_refl Ht). lia.
  - apply best_of_ref; [done|].
    eapply best_of_iff; [intros; apply candidate_finalize|]. fold n. rewrite <- Hseg.
    apply (search_best _ _ _ _ _ 0); try done.
    pose proof (length_segments_from (slash :: rest) 1). lia.
Qed.

(** Matching a path against the trie built from a list of templates of
    distinct ranks gives the template of highest precedence among all those
    whose shape matches the segments of the path, and [None] when there is
    none.  Pruning by [canBeat] and the depth-first order lose no candidate. *)
Theorem template_match_best l path :
  NoDup (re_rank ∘ snd <$> l) →
  templateNode_match (templateNode_finalize (insert_all l empty_node)) path = template_ref l path.
Proof. apply template_match_ref. Qed.

Definition ex_entry (id : string) (rank : nat) : ruleEntry :=
  {| re_result := {| mr_GroupID := id; mr_GroupName := id; mr_RuleID := id;
                     mr_Kind := RuleTemplate; mr_Default := false |};
     re_rank := rank |}.

Definition ex_templates : list (list templateSegment * ruleEntry) :=
  [([Some (bs "v1"); None; Some (bs "posts")], ex_entry "a" 0);
   ([None; Some (bs "users"); None], ex_entry "b" 1);
   ([Some (bs "v1"); Some (bs "users"); None], ex_entry "c" 2)].

Lemma template_match_best_witness :
  NoDup (re_rank ∘ snd <$> ex_templates) ∧
  (mr_RuleID ∘ re_result ∘ tt_entry <$> template_ref ex_templates (bs "/v1/users/posts"))
    = Some "a"%string ∧
  templateNode_match (templateNode_finalize (insert_all ex_templates empty_node))
    (bs "/v1/users/posts") = template_ref ex_templates (bs "/v1/users/posts").
Proof.
  assert (NoDup (re_rank ∘ snd <$> ex_templates)) as H.
  { apply (bool_decide_unpack _). vm_compute. exact I. }
  split_and!; [exact H|vm_compute; reflexivity|].
  exact (template_match_best ex_templates (bs "/v1/users/posts") H).
Defined.
