(* ===== verification/SiteRadix.v ===== *)
(** * The radix tree of prefix patterns (internal/site/matcher.go)

    [radixNode_insert] splits edges at the first differing byte and
    [radixNode_longest] follows a path down, remembering the last entry.
    The tree is read through [rget], the entry stored under exactly a key. *)

From S2P Require Import Prelude GoStrings SiteTrie.

#[local] Set Warnings "-register-all".
Inductive radixNode := RNode {
  rn_label : bytes;
  rn_entry : option ruleEntry;
  rn_indices : list ascii;
  rn_children : list radixNode;
}.

Definition empty_radix : radixNode := RNode [] None [] [].

Definition with_label (l : bytes) (n : radixNode) : radixNode :=
  RNode l (rn_entry n) (rn_indices n) (rn_children n).

Fixpoint commonPrefixLen (a b : bytes) : nat :=
  match a, b with
  | c :: a', d :: b' => if decide (c = d) then S (commonPrefixLen a' b') else 0
  | _, _ => 0
  end.

(** Splits the edge of a child whose label is longer than the part shared
    with the key. *)
Definition split_child (common : nat) (child : radixNode) : radixNode :=
  match drop common (rn_label child) with
  | d :: _ =>
      RNode (take common (rn_label child)) None [d]
        [with_label (drop common (rn_label child)) child]
  | [] => child
  end.

(** The loop of [insert] rebuilds the nodes it passes; [fuel] bounds the
    iterations, and a missing child (the two slices are parallel) leaves the
    tree alone. *)
Fixpoint insert_loop (fuel : nat) (n : radixNode) (key : bytes) (e : ruleEntry) : radixNode :=
  match fuel with
  | O => n
  | S fuel =>
      match key with
      | [] =>
          match rn_entry n with
          | None => RNode (rn_label n) (Some e) (rn_indices n) (rn_children n)
          | Some o =>
              if (re_rank e <? re_rank o)%nat
              then RNode (rn_label n) (Some e) (rn_indices n) (rn_children n) else n
          end
      | c :: _ =>
          match index_byte c (rn_indices n) with
          | None =>
              RNode (rn_label n) (rn_entry n) (rn_indices n ++ [c])
                (rn_children n ++ [RNode key (Some e) [] []])
          | Some i =>
              match rn_children n !! i with
              | None => n
              | Some child =>
                  let common := commonPrefixLen (rn_label child) key in
                  let child' := split_child common child in
                  RNode (rn_label n) (rn_entry n) (rn_indices n)
                    (<[i := insert_loop fuel child' (drop common key) e]> (rn_children n))
              end
          end
      end
  end.

Definition radixNode_insert (n : radixNode) (key : bytes) (e : ruleEntry) : radixNode :=
  insert_loop (S (length key)) n key e.

Fixpoint longest_loop (fuel : nat) (n : radixNode) (path : bytes) (best : option ruleEntry) :
    option ruleEntry :=
  match fuel with
  | O => best
  | S fuel =>
      let best := match rn_entry n with Some e => Some e | None => best end in
      match path with
      | [] => best
      | c :: _ =>
          match index_byte c (rn_indices n) with
          | None => best
          | Some i =>
              match rn_children n !! i with
              | None => best
              | Some child =>
                  if negb (has_prefix path (rn_label child)) then best
                  else longest_loop fuel child (drop (length (rn_label child)) path) best
              end
          end
      end
  end.

Definition radixNode_longest (n : radixNode) (path : bytes) : option ruleEntry :=
  longest_loop (S (length path)) n path None.

(** ** Reading the tree by key *)

Definition child_for (n : radixNode) (key : bytes) : option radixNode :=
  List.find (λ c, has_prefix key (rn_label c)) (rn_children n).

Fixpoint rget (n : radixNode) (key : bytes) : option ruleEntry :=
  match key with
  | [] => rn_entry n
  | _ :: _ =>
      (fix go (cs : list radixNode) : option ruleEntry :=
         match cs with
         | [] => None
         | c :: cs' =>
             if has_prefix key (rn_label c) then rget c (drop (length (rn_label c)) key)
             else go cs'
         end) (rn_children n)
  end.

Lemma rget_cons n c k :
  rget n (c :: k) =
  child_for n (c :: k) ≫= λ ch, rget ch (drop (length (rn_label ch)) (c :: k)).
Proof.
  destruct n as [lbl en ind cs]. unfold child_for. cbn [rget rn_children].
  induction cs as [|ch cs IH]; [done|]. cbn [List.find].
  destruct (has_prefix (c :: k) (rn_label ch)); [done|]. apply IH.
Qed.

Lemma rget_nil n : rget n [] = rn_entry n.
Proof. by destruct n. Qed.

Lemma rget_with_label l n k : rget (with_label l n) k = rget n k.
Proof. by destruct n. Qed.

(** ** Well-formed trees

    [indices] holds the first byte of each child label, without repetition. *)
Definition starts_with (c : ascii) (n : radixNode) : Prop := head (rn_label n) = Some c.

Inductive radix_wf : radixNode → Prop :=
| radix_wf_intro n :
    Forall2 starts_with (rn_indices n) (rn_children n) →
    NoDup (rn_indices n) →
    Forall radix_wf (rn_children n) →
    radix_wf n.

Lemma radix_wf_empty : radix_wf empty_radix.
Proof. constructor; repeat constructor. Qed.

Lemma radix_wf_with_label l n : radix_wf n → radix_wf (with_label l n).
Proof. intros Hw. inversion Hw; subst. by constructor. Qed.

Lemma has_prefix_head key l c : head l = Some c → has_prefix key l = true → head key = Some c.
Proof. destruct l as [|d l], key as [|k key]; cbn; try done. intros [= ->] H. bool_to_prop. congruence. Qed.

Lemma find_none (cs : list radixNode) ind c k :
  Forall2 starts_with ind cs → c ∉ ind →
  List.find (λ ch, has_prefix (c :: k) (rn_label ch)) cs = None.
Proof.
  induction 1 as [|d ch ind cs Hd _ IH]; [done|]. intros Hn. cbn.
  destruct (has_prefix (c :: k) (rn_label ch)) eqn:Hp; [|apply IH; set_solver].
  apply (has_prefix_head _ _ d) in Hp; [|done]. cbn in Hp. set_solver.
Qed.

(** The child a key descends into is the one [indices] names. *)
Lemma child_for_index n c k :
  Forall2 starts_with (rn_indices n) (rn_children n) → NoDup (rn_indices n) →
  child_for n (c :: k) =
  i ← index_byte c (rn_indices n); ch ← rn_children n !! i;
  if has_prefix (c :: k) (rn_label ch) then Some ch else None.
Proof.
  destruct n as [lbl en ind cs]. unfold child_for. cbn [rn_indices rn_children].
  induction 1 as [|d ch ind cs Hd Hf IH]; [done|]. intros [Hnin Hnd]%NoDup_cons.
  cbn [index_byte List.find]. destruct (decide (c = d)) as [->|Hcd]; cbn.
  - destruct (has_prefix (d :: k) (rn_label ch)); [done|].
    by rewrite (find_none cs ind).
  - destruct (has_prefix (c :: k) (rn_label ch)) eqn:Hp.
    + apply (has_prefix_head _ _ d) in Hp; [|done]. cbn in Hp. congruence.
    + rewrite (IH Hnd). by destruct (index_byte c ind).
Qed.

(** ** Insertion *)

Definition rank_better (a b : ruleEntry) : bool := (re_rank a <? re_rank b)%nat.

#[export] Instance rank_better_rank : StrictRank rank_better.
Proof.
  unfold rank_better. split.
  - intros x. apply Nat.ltb_irrefl.
  - intros x y z. rewrite !Nat.ltb_lt. lia.
  - intros x y z. rewrite !Nat.ltb_ge. lia.
Qed.

(** The two strings agree up to the common length and differ right after. *)
Lemma commonPrefixLen_spec a b :
  take (commonPrefixLen a b) a = take (commonPrefixLen a b) b ∧
  commonPrefixLen a b ≤ length a ∧ commonPrefixLen a b ≤ length b ∧
  (∀ c d, a !! commonPrefixLen a b = Some c → b !! commonPrefixLen a b = Some d → c ≠ d).
Proof.
  revert b. induction a as [|c a IH]; intros [|d b]; cbn; try (split_and!; (done || lia)).
  destruct (decide (c = d)) as [->|]; cbn.
  - destruct (IH b) as (H1 & H2 & H3 & H4). split_and!; [by rewrite H1|lia..|done].
  - split_and!; [done|lia..|naive_solver].
Qed.

Lemma has_prefix_app k l : has_prefix (l ++ k) l = true.
Proof. apply has_prefix_spec. by exists k. Qed.

Lemma has_prefix_refl l : has_prefix l l = true.
Proof. apply has_prefix_spec. exists []. by rewrite app_nil_r. Qed.

(** A key below an edge label is the label followed by the rest. *)
Lemma rget_edge n i ch c k :
  radix_wf n → index_byte c (rn_indices n) = Some i → rn_children n !! i = Some ch →
  rget n (c :: k) =
  if has_prefix (c :: k) (rn_label ch) then rget ch (drop (length (rn_label ch)) (c :: k))
  else None.
Proof.
  intros Hw Hi Hch. inversion Hw; subst. rewrite rget_cons, child_for_index by done.
  rewrite Hi. cbn. rewrite Hch. cbn. by destruct (has_prefix _ _).
Qed.

Lemma index_lookup (ind : list ascii) i c : index_byte c ind = Some i → ind !! i = Some c.
Proof. intros [H _]%index_byte_some. done. Qed.

(** Replacing a child by one with the same first byte keeps the node well
    formed. *)
Lemma radix_wf_set_child n i c ch :
  radix_wf n → rn_indices n !! i = Some c → starts_with c ch → radix_wf ch →
  radix_wf (RNode (rn_label n) (rn_entry n) (rn_indices n) (<[i := ch]> (rn_children n))).
Proof.
  intros Hw Hi Hc Hch. inversion Hw; subst. constructor; cbn; [|done|].
  - rewrite <- (list_insert_id (rn_indices n) i c) by done. by apply Forall2_insert.
  - by apply Forall_insert.
Qed.

Lemma split_child_wf common child : radix_wf child → radix_wf (split_child common child).
Proof.
  intros Hw. unfold split_child. destruct (drop common (rn_label child)) as [|d q] eqn:Hd; [done|].
  constructor; cbn.
  - apply Forall2_cons. done.
  - apply NoDup_singleton.
  - apply Forall_singleton. by apply radix_wf_with_label.
Qed.

Lemma split_child_label common child :
  common ≤ length (rn_label child) →
  rn_label (split_child common child) = take common (rn_label child).
Proof.
  intros Hle. unfold split_child. destruct (drop common (rn_label child)) as [|d q] eqn:Hd; [|done].
  apply (f_equal length) in Hd. rewrite length_drop in Hd. cbn in Hd.
  by rewrite take_ge by lia.
Qed.

(** The split reads the same below the shared part. *)
Lemma split_child_get common child k :
  common ≤ length (rn_label child) →
  (if has_prefix k (rn_label (split_child common child))
   then rget (split_child common child) (drop (length (rn_label (split_child common child))) k)
   else None) =
  (if has_prefix k (rn_label child) then rget child (drop (length (rn_label child)) k) else None).
Proof.
  intros Hle. rewrite split_child_label by done. unfold split_child.
  destruct child as [lbl en ind cs]. cbn [rn_label with_label] in *.
  assert (∃ p q, lbl = p ++ q ∧ length p = common) as (p & q & -> & <-).
  { exists (take common lbl), (drop common lbl). rewrite take_drop, length_take. split; [done|lia]. }
  rewrite take_app_length, drop_app_length, length_app, <- drop_drop.
  destruct q as [|d q]; [by rewrite app_nil_r|].
  destruct (has_prefix k p) eqn:Hp.
  - apply has_prefix_spec in Hp as [k' ->]. rewrite drop_app_length.
    assert (has_prefix (p ++ k') (p ++ d :: q) = has_prefix k' (d :: q)) as ->.
    { apply eq_bool_prop_intro. rewrite !Is_true_true, !has_prefix_spec.
      setoid_rewrite <- app_assoc. split; intros [r Hr]; exists r;
        [by apply app_inv_head in Hr|by rewrite Hr]. }
    destruct k' as [|c k']; [done|].
    rewrite rget_cons. unfold child_for. cbn [rn_children List.find with_label rn_label].
    destruct (has_prefix (c :: k') (d :: q)) eqn:Hq; [|done]. cbn [mbind option_bind].
    by rewrite rget_with_label.
  - destruct (has_prefix k (p ++ d :: q)) eqn:Hq; [|done].
    apply has_prefix_spec in Hq as [r ->]. rewrite <- app_assoc, has_prefix_app in Hp. done.
Qed.

Lemma insert_loop_label fuel n key e : rn_label (insert_loop fuel n key e) = rn_label n.
Proof. destruct fuel; cbn; [done|]. by repeat case_match. Qed.

Lemma commonPrefixLen_head a c k : head a = Some c → 0 < commonPrefixLen a (c :: k).
Proof. destruct a as [|d a]; cbn; [done|]. intros [= ->]. rewrite decide_True by done. lia. Qed.

Lemma index_byte_app c ind d :
  c ∉ ind → index_byte d (ind ++ [c]) =
  match index_byte d ind with Some i => Some i | None => if decide (d = c) then Some (length ind) else None end.
Proof.
  induction ind as [|x ind IH]; intros Hc; cbn; [done|].
  destruct (decide (d = x)) as [->|]; [done|]. rewrite IH by set_solver.
  destruct (index_byte d ind); [done|]. by destruct (decide (d = c)).
Qed.

(** Appending a leaf under a fresh first byte. *)
Lemma radix_wf_leaf n c k e :
  radix_wf n → c ∉ rn_indices n →
  radix_wf (RNode (rn_label n) (rn_entry n) (rn_indices n ++ [c])
    (rn_children n ++ [RNode (c :: k) (Some e) [] []])).
Proof.
  intros Hw Hc. inversion Hw; subst. constructor; cbn.
  - apply Forall2_app; [done|]. by apply Forall2_cons.
  - apply NoDup_app. split_and!; [done|set_solver|apply NoDup_singleton].
  - apply Forall_app. split; [done|]. apply Forall_singleton.
    constructor; cbn; [constructor|constructor|constructor].
Qed.

Lemma rget_leaf n c k e k' :
  radix_wf n → c ∉ rn_indices n →
  rget (RNode (rn_label n) (rn_entry n) (rn_indices n ++ [c])
    (rn_children n ++ [RNode (c :: k) (Some e) [] []])) k' =
  if decide (k' = c :: k) then Some e else rget n k'.
Proof.
  intros Hw Hc. pose proof (radix_wf_leaf n c k e Hw Hc) as Hw'.
  destruct k' as [|d k']; [by rewrite !rget_nil, decide_False|].
  inversion Hw; inversion Hw'; subst.
  rewrite !rget_cons, !child_for_index by done. cbn [rn_indices rn_children].
  rewrite index_byte_app by done.
  assert (length (rn_indices n) = length (rn_children n)) as Hlen by by eapply Forall2_length.
  destruct (index_byte d (rn_indices n)) as [i|] eqn:Hi.
  - pose proof (index_lookup _ _ _ Hi) as Hl. cbn.
    rewrite lookup_app_l by (apply lookup_lt_Some in Hl; lia).
    rewrite decide_False; [done|]. intros [= -> ->]. apply Hc. by eapply list_elem_of_lookup_2.
  - destruct (decide (d = c)) as [->|Hdc]; [|by rewrite decide_False by congruence].
    cbn. rewrite Hlen, list_lookup_middle by done. cbn [rn_label mbind option_bind].
    destruct (decide (c :: k' = c :: k)) as [Heq|Hne].
    + rewrite Heq, has_prefix_refl. cbn. by rewrite drop_all.
    + destruct (has_prefix (c :: k') (c :: k)) eqn:Hp; [|done].
      apply has_prefix_spec in Hp as [r Hr]. cbn in Hr. injection Hr as ->.
      cbn. rewrite drop_app_length. destruct r as [|x r]; [by rewrite app_nil_r in Hne|done].
Qed.

(** A key that descends into child [i] of [n], before and after the child is
    replaced by one with the label [p]. *)
Lemma rget_set_child n i c ch k :
  radix_wf n → index_byte c (rn_indices n) = Some i → i < length (rn_children n) →
  starts_with c ch → radix_wf ch →
  rget (RNode (rn_label n) (rn_entry n) (rn_indices n) (<[i := ch]> (rn_children n))) k =
  match k with
  | d :: _ =>
      if decide (d = c) then
        if has_prefix k (rn_label ch) then rget ch (drop (length (rn_label ch)) k) else None
      else rget n k
  | [] => rn_entry n
  end.
Proof.
  intros Hw Hi Hlt Hc Hch.
  pose proof (radix_wf_set_child _ _ _ _ Hw (index_lookup _ _ _ Hi) Hc Hch) as Hw'.
  destruct k as [|d k]; [by rewrite rget_nil|].
  destruct (decide (d = c)) as [->|Hd].
  - apply (rget_edge _ i); [done..|]. by apply list_lookup_insert_eq.
  - inversion Hw; inversion Hw'; subst.
    rewrite !rget_cons, !child_for_index by done. cbn [rn_indices rn_children].
    destruct (index_byte d (rn_indices n)) as [j|] eqn:Hj; [|done]. cbn.
    rewrite list_lookup_insert_ne; [done|]. intros ->.
    apply index_lookup in Hi, Hj. congruence.
Qed.

Lemma set_entry_spec n o (n' := RNode (rn_label n) o (rn_indices n) (rn_children n)) :
  radix_wf n →
  radix_wf n' ∧ ∀ k : bytes, rget n' k = if decide_rel (=) k [] then o else rget n k.
Proof.
  subst n'. intros Hw. split; [inversion Hw; subst; by constructor|].
  destruct k as [|d k]; [done|]. by destruct n.
Qed.

Lemma insert_loop_spec fuel n key e :
  radix_wf n → length key < fuel →
  radix_wf (insert_loop fuel n key e) ∧
  ∀ k, rget (insert_loop fuel n key e) k =
       if decide (k = key) then keep_best rank_better (rget n key) e else rget n k.
Proof.
  revert n key. induction fuel as [|fuel IH]; intros n key Hw Hf; [lia|].
  cbn [insert_loop]. destruct key as [|c key].
  { rewrite rget_nil. unfold keep_best, rank_better.
    destruct (rn_entry n) as [o|] eqn:Ho; [destruct (re_rank e <? re_rank o)%nat|].
    - by apply set_entry_spec.
    - split; [done|]. intros k. case_decide; [subst; by rewrite rget_nil|done].
    - by apply set_entry_spec. }
  destruct (index_byte c (rn_indices n)) as [i|] eqn:Hi.
  2:{ apply index_byte_none in Hi. split; [by apply radix_wf_leaf|]. intros k.
      rewrite rget_leaf by done. case_decide as Hk; [|done].
      assert (rget n (c :: key) = None) as ->; [|done].
      inversion Hw; subst. rewrite rget_cons. unfold child_for.
      by rewrite (find_none _ (rn_indices n)). }
  inversion Hw as [? Hf2 Hnd Hall]; subst.
  destruct (Forall2_lookup_l _ _ _ _ _ Hf2 (index_lookup _ _ _ Hi)) as (child & Hch & Hst).
  rewrite Hch. cbv zeta. set (m := commonPrefixLen (rn_label child) (c :: key)).
  destruct (commonPrefixLen_spec (rn_label child) (c :: key)) as (Htk & Hm1 & Hm2 & _).
  pose proof (commonPrefixLen_head _ _ key Hst) as Hm0. fold m in Htk, Hm1, Hm2, Hm0.
  assert (radix_wf child) as Hwc by (by eapply Forall_lookup_1).
  destruct (IH (split_child m child) (drop m (c :: key))) as [Hw' Hget];
    [by apply split_child_wf|rewrite length_drop; cbn in *; lia|].
  set (ch := insert_loop fuel (split_child m child) (drop m (c :: key)) e) in *.
  assert (rn_label ch = take m (c :: key)) as Hlab.
  { subst ch. rewrite insert_loop_label, split_child_label by done. done. }
  assert (starts_with c ch) as Hsc.
  { unfold starts_with. rewrite Hlab. destruct m; [lia|done]. }
  split; [by apply (radix_wf_set_child _ _ c); [|apply index_lookup|..]|]. intros k.
  rewrite (rget_set_child _ _ c) by (done || by eapply lookup_lt_Some).
  destruct k as [|d k]; [by rewrite decide_False, rget_nil by done|].
  destruct (decide (d = c)) as [->|Hd]; [|by rewrite decide_False by congruence].
  rewrite (rget_edge n i child c k), (rget_edge n i child c key) by done.
  rewrite <- (split_child_get m child (c :: k)), <- (split_child_get m child (c :: key)) by done.
  rewrite (split_child_label m child) by done. rewrite Hlab, Htk.
  assert (length (take m (c :: key)) = m) as Hlen by (rewrite length_take; lia).
  rewrite Hlen. assert (has_prefix (c :: key) (take m (c :: key)) = true) as ->.
  { apply has_prefix_spec. exists (drop m (c :: key)). by rewrite take_drop. }
  destruct (has_prefix (c :: k) (take m (c :: key))) eqn:Hp.
  - rewrite Hget. apply has_prefix_spec in Hp as [r Hr].
    assert (drop m (c :: k) = r) as ->.
    { rewrite Hr. rewrite <- Hlen at 1. by rewrite drop_app_length. }
    rewrite Hr. destruct (decide (r = drop m (c :: key))) as [->|Hne].
    + by rewrite take_drop, decide_True.
    + rewrite decide_False; [done|]. intros Heq. apply Hne.
      rewrite <- (take_drop m (c :: key)) in Heq at 2. by apply app_inv_head in Heq.
  - rewrite decide_False; [done|]. intros [= ->].
    apply not_true_iff_false in Hp. apply Hp, has_prefix_spec.
    exists (drop m (c :: key)). by rewrite take_drop.
Qed.

(** ** Longest prefix *)

(** [r] is the entry of the longest prefix of [path] stored in [n], or
    [best] when no prefix is stored. *)
Definition longest_of (n : radixNode) (path : bytes) (best r : option ruleEntry) : Prop :=
  ((∀ pre, pre `prefix_of` path → rget n pre = None) ∧ r = best) ∨
  ∃ pre e, pre `prefix_of` path ∧ rget n pre = Some e ∧ r = Some e ∧
    ∀ pre', pre' `prefix_of` path → length pre < length pre' → rget n pre' = None.

Lemma prefix_cons_inv (c d : ascii) pre path :
  (d :: pre) `prefix_of` (c :: path) → d = c ∧ pre `prefix_of` path.
Proof. intros [k [= -> ->]]. split; [done|]. by exists k. Qed.

Lemma longest_loop_spec fuel n path best :
  radix_wf n → length path < fuel → longest_of n path best (longest_loop fuel n path best).
Proof.
  revert n path best. induction fuel as [|fuel IH]; intros n path best Hw Hf; [lia|].
  cbn [longest_loop]. cbv zeta.
  set (b := match rn_entry n with Some e => Some e | None => best end).
  (* the loop stops here when no non-empty prefix is stored *)
  assert ((∀ d k, (d :: k) `prefix_of` path → rget n (d :: k) = None) →
    longest_of n path best b) as Hstop.
  { intros Hno. subst b. destruct (rn_entry n) as [e|] eqn:He; [right|left].
    - exists [], e. rewrite rget_nil. split_and!; [apply prefix_nil|done..|].
      intros [|d k] ? ?; [cbn in *; lia|auto].
    - split; [|done]. intros [|d k] ?; [by rewrite rget_nil|auto]. }
  destruct path as [|c path].
  { apply Hstop. intros d k [? ?]. done. }
  inversion Hw as [? Hf2 Hnd Hall]; subst n0.
  destruct (index_byte c (rn_indices n)) as [i|] eqn:Hi.
  2:{ apply Hstop. intros d k [-> _]%prefix_cons_inv. apply index_byte_none in Hi.
      rewrite rget_cons. unfold child_for. by rewrite (find_none _ (rn_indices n)). }
  destruct (Forall2_lookup_l _ _ _ _ _ Hf2 (index_lookup _ _ _ Hi)) as (ch & Hch & Hst).
  rewrite Hch. destruct (has_prefix (c :: path) (rn_label ch)) eqn:Hp; cbn [negb].
  2:{ apply Hstop. intros d k Hpre. pose proof (prefix_cons_inv _ _ _ _ Hpre) as [-> _].
      rewrite (rget_edge _ i ch) by done. destruct (has_prefix (c :: k) (rn_label ch)) eqn:Hk; [|done].
      apply has_prefix_spec in Hk as [r Hr]. destruct Hpre as [s Hs]. rewrite Hs, Hr, <- app_assoc in Hp.
      by rewrite has_prefix_app in Hp. }
  apply has_prefix_spec in Hp as [rest Hrest]. set (l := rn_label ch) in *.
  assert (0 < length l) as Hl by (unfold starts_with in Hst; subst l; destruct (rn_label ch); cbn in *; [done|lia]).
  assert (∀ k, rget n (l ++ k) = rget ch k) as Hdown.
  { intros k. destruct l as [|d l'] eqn:Hl'; [cbn in Hl; lia|].
    assert (d = c) as -> by (unfold starts_with in Hst; fold l in Hst; rewrite Hl' in Hst; by injection Hst).
    cbn [app].
    rewrite (rget_edge _ i ch) by done. fold l. rewrite Hl'.
    change (c :: l' ++ k) with ((c :: l') ++ k). by rewrite has_prefix_app, drop_app_length. }
  assert (∀ d k, (d :: k) `prefix_of` (c :: path) → rget n (d :: k) ≠ None →
    ∃ k', d :: k = l ++ k' ∧ k' `prefix_of` rest) as Hup.
  { intros d k Hpre Hne. pose proof (prefix_cons_inv _ _ _ _ Hpre) as [-> _].
    rewrite (rget_edge _ i ch) in Hne by done. fold l in Hne.
    destruct (has_prefix (c :: k) l) eqn:Hk; [|done].
    apply has_prefix_spec in Hk as [k' Hk']. exists k'. split; [done|].
    rewrite Hk', Hrest in Hpre. by apply prefix_app_inv in Hpre. }
  rewrite Hrest, drop_app_length.
  destruct (IH ch rest b) as [[Hno ->]|(pre & e & Hpre & He & -> & Hmax)];
    [by eapply Forall_lookup_1|apply (f_equal length) in Hrest; rewrite length_app in Hrest; cbn in *; lia| |].
  - rewrite <- Hrest. apply Hstop. intros d k Hk.
    destruct (rget n (d :: k)) eqn:Hg; [|done].
    destruct (Hup d k Hk) as (k' & Heq & Hk'); [congruence|].
    rewrite Heq, Hdown, Hno in Hg by done. done.
  - right. exists (l ++ pre), e. rewrite Hdown. split_and!; [by apply prefix_app|done..|].
    intros pre' Hpre' Hlen. rewrite <- Hrest in Hpre'.
    destruct pre' as [|d k]; [rewrite length_app in Hlen; cbn in Hlen; lia|].
    destruct (rget n (d :: k)) eqn:Hg; [|done].
    destruct (Hup d k Hpre') as (k' & Heq & Hk'); [congruence|].
    rewrite Heq, Hdown, Hmax in Hg; [done..|]. rewrite Heq, !length_app in Hlen. lia.
Qed.

(** ** Trees built by insertion *)

Definition insert_prefixes (l : list (bytes * ruleEntry)) (n : radixNode) : radixNode :=
  foldl (λ n '(key, e), radixNode_insert n key e) n l.

Lemma radix_wf_insert n key e : radix_wf n → radix_wf (radixNode_insert n key e).
Proof. intros Hw. apply insert_loop_spec; [done|lia]. Qed.

Lemma rget_insert n key e k : radix_wf n →
  rget (radixNode_insert n key e) k =
  if decide (k = key) then keep_best rank_better (rget n key) e else rget n k.
Proof. intros Hw. apply insert_loop_spec; [done|lia]. Qed.

Definition entries_for (key : bytes) (l : list (bytes * ruleEntry)) : list ruleEntry :=
  omap (λ '(k, e), if decide (key = k) then Some e else None) l.

Lemma elem_of_entries_for key l e : e ∈ entries_for key l ↔ (key, e) ∈ l.
Proof.
  unfold entries_for. rewrite list_elem_of_omap. split.
  - intros ([k e'] & Hin & He). case_decide; naive_solver.
  - intros Hin. exists (key, e). by rewrite decide_True.
Qed.

Lemma rget_insert_prefixes l n key :
  radix_wf n →
  radix_wf (insert_prefixes l n) ∧
  rget (insert_prefixes l n) key = foldl (keep_best rank_better) (rget n key) (entries_for key l).
Proof.
  revert n. induction l as [|[k e] l IH]; intros n Hw; [done|].
  change (insert_prefixes ((k, e) :: l) n) with (insert_prefixes l (radixNode_insert n k e)).
  destruct (IH (radixNode_insert n k e)) as [H1 H2]; [by apply radix_wf_insert|].
  split; [done|]. rewrite H2, rget_insert by done.
  unfold entries_for. cbn. by destruct (decide (key = k)) as [->|].
Qed.

Lemma rget_built l key :
  rget (insert_prefixes l empty_radix) key = pick_best rank_better (entries_for key l).
Proof.
  destruct (rget_insert_prefixes l empty_radix key radix_wf_empty) as [_ ->].
  by destruct key.
Qed.

Definition prefix_better (a b : bytes * ruleEntry) : bool :=
  if negb (length a.1 =? length b.1)%nat then (length b.1 <? length a.1)%nat
  else rank_better a.2 b.2.

#[export] Instance prefix_better_rank : StrictRank prefix_better.
Proof.
  unfold prefix_better, rank_better. split.
  - intros x. rewrite Nat.eqb_refl. apply Nat.ltb_irrefl.
  - intros x y z. repeat case_match; bool_to_prop; rewrite ?Nat.ltb_lt; lia.
  - intros x y z. repeat case_match; bool_to_prop; rewrite ?Nat.ltb_ge; lia.
Qed.

(** The winner among prefix patterns: the longest one that the path starts
    with, by rank where a pattern repeats. *)
Definition prefix_ref (l : list (bytes * ruleEntry)) (path : bytes) : option ruleEntry :=
  snd <$> pick_best prefix_better (List.filter (λ '(k, _), has_prefix path k) l).

Lemma nodup_rank_inj {B} (l : list (B * ruleEntry)) x y :
  NoDup (re_rank ∘ snd <$> l) → x ∈ l → y ∈ l → re_rank x.2 = re_rank y.2 → x = y.
Proof.
  intros Hnd [i Hi]%list_elem_of_lookup [j Hj]%list_elem_of_lookup Hr.
  assert (i = j) as ->; [|congruence].
  eapply NoDup_lookup; [exact Hnd| |]; rewrite list_lookup_fmap; [by rewrite Hi|].
  rewrite Hj. cbn. by rewrite Hr.
Qed.

Lemma has_prefix_length path a b :
  has_prefix path a = true → has_prefix path b = true → length a = length b → a = b.
Proof.
  intros [k1 H1]%has_prefix_spec [k2 H2]%has_prefix_spec Hl.
  rewrite H1 in H2. by apply app_inj_1 in H2 as [? _].
Qed.

Lemma prefix_match_ref l path :
  NoDup (re_rank ∘ snd <$> l) →
  radixNode_longest (insert_prefixes l empty_radix) path = prefix_ref l path.
Proof.
  intros Hnd. unfold radixNode_longest, prefix_ref.
  destruct (rget_insert_prefixes l empty_radix [] radix_wf_empty) as [Hw _].
  destruct (longest_loop_spec (S (length path)) _ path None Hw ltac:(lia))
    as [[Hno ->]|(pre & e & Hpre & He & -> & Hmax)].
  - destruct (List.filter _ l) as [|[k e] fl] eqn:Hfl; [done|]. exfalso.
    assert ((k, e) ∈ List.filter (λ '(k, _), has_prefix path k) l) as Hin by (rewrite Hfl; set_solver).
    apply list_elem_of_In, filter_In in Hin as [Hin%list_elem_of_In Hp].
    apply has_prefix_spec in Hp as [r ->]. specialize (Hno k ltac:(by exists r)).
    rewrite rget_built in Hno. apply pick_best_none in Hno.
    apply elem_of_entries_for in Hin. rewrite Hno in Hin. set_solver.
  - rewrite rget_built in He. apply pick_best_spec, selected_max in He as [Hin Hbest]; [|apply _..].
    apply elem_of_entries_for in Hin. destruct Hpre as [r ->].
    rewrite (pick_best_max prefix_better (pre, e)); [done| | |].
    + intros x y Hx Hy Hxy Hyx. apply list_elem_of_In, filter_In in Hx as [Hx%list_elem_of_In _],
        Hy as [Hy%list_elem_of_In _]. apply (nodup_rank_inj l); [done..|].
      unfold prefix_better, rank_better in *. repeat case_match; bool_to_prop; lia.
    + apply list_elem_of_In, filter_In. split; [by apply list_elem_of_In|apply has_prefix_app].
    + intros [k e'] Hx. apply list_elem_of_In, filter_In in Hx as [Hx%list_elem_of_In Hp].
      unfold prefix_better. cbn. case_match eqn:Hl; bool_to_prop.
      * apply Nat.ltb_ge. destruct (decide (length k ≤ length pre)); [done|].
        apply elem_of_entries_for in Hx.
        rewrite has_prefix_spec in Hp. specialize (Hmax k Hp ltac:(lia)).
        rewrite rget_built in Hmax. apply pick_best_none in Hmax. rewrite Hmax in Hx. set_solver.
      * rewrite (has_prefix_length _ _ _ Hp (has_prefix_app r pre) Hl) in Hx.
        apply Hbest. by apply elem_of_entries_for.
Qed.
