(* ===== verification/SiteMatcher.v ===== *)
(** * The URI rule matcher (internal/site/matcher.go)

    [NewMatcher] ranks and compiles the rules of a site and [Matcher_Match]
    maps a path to an endpoint group.  The reference [match_ref] filters the
    rules kind by kind and picks the best one. *)

From S2P Require Import Prelude GoStrings SitePath SiteTrie SiteRadix.

Definition DefaultGroup : string := "_default".

Record Rule := {
  ru_ID : string;
  ru_GroupID : string;
  ru_GroupName : string;
  ru_Kind : string;
  ru_Pattern : bytes;
  ru_Position : Z;
}.

(** ** Ranks *)

Definition rule_key : Type := Z * (string * nat).

Definition rule_cmp (a b : rule_key) : comparison :=
  cmp_then (Z.compare a.1 b.1)
    (cmp_then (string_compare a.2.1 b.2.1) (Nat.compare a.2.2 b.2.2)).

Definition rule_keys (rules : list Rule) : list rule_key :=
  imap (λ i r, (ru_Position r, (ru_ID r, i))) rules.

(** The rule indices in (Position, ID, index) order. *)
Definition rule_order (rules : list Rule) : list nat :=
  (snd ∘ snd) <$> SortFunc rule_cmp (rule_keys rules).

Fixpoint write_ranks (order : list nat) (rank : nat) (ranks : list nat) : list nat :=
  match order with
  | [] => ranks
  | idx :: order' => write_ranks order' (S rank) (<[idx := rank]> ranks)
  end.

Definition rankRules (rules : list Rule) : list nat :=
  write_ranks (rule_order rules) 0 (replicate (length rules) 0).

#[export] Instance rule_comparator : Comparator rule_cmp.
Proof.
  pose proof (comparator_pair string_compare Nat.compare).
  exact (comparator_pair Z.compare
    (λ x y : string * nat, cmp_then (string_compare x.1 y.1) (Nat.compare x.2 y.2))).
Qed.

Lemma write_ranks_spec order rank ranks :
  NoDup order →
  (∀ idx, idx ∉ order → write_ranks order rank ranks !! idx = ranks !! idx) ∧
  (∀ r idx, order !! r = Some idx → idx < length ranks →
     write_ranks order rank ranks !! idx = Some (rank + r)).
Proof.
  revert rank ranks. induction order as [|i order IH]; intros rank ranks; [done|].
  intros [Hi Hnd]%NoDup_cons. cbn.
  destruct (IH (S rank) (<[i := rank]> ranks) Hnd) as [H1 H2]. split.
  - intros idx [Hne Hn]%not_elem_of_cons. rewrite H1, list_lookup_insert_ne by done. done.
  - intros [|r] idx; cbn.
    + intros [= ->] Hlt. by rewrite H1, list_lookup_insert_eq, Nat.add_0_r by done.
    + intros Hr Hlt. rewrite (H2 r) by (done || by rewrite length_insert). f_equal. lia.
Qed.

Lemma length_write_ranks order rank ranks : length (write_ranks order rank ranks) = length ranks.
Proof.
  revert rank ranks. induction order as [|i order IH]; intros rank ranks; cbn; [done|].
  by rewrite IH, length_insert.
Qed.

Lemma rule_order_perm rules : rule_order rules ≡ₚ seq 0 (length rules).
Proof.
  unfold rule_order. rewrite SortFunc_perm. unfold rule_keys.
  assert ((snd ∘ snd) <$> imap (λ i r, (ru_Position r, (ru_ID r, i))) rules = seq 0 (length rules)) as ->; [|done].
  rewrite fmap_imap. apply list_eq. intros i. rewrite list_lookup_imap.
  destruct (rules !! i) eqn:Hi; cbn; symmetry.
  - apply lookup_seq. apply lookup_lt_Some in Hi. lia.
  - apply lookup_ge_None. rewrite length_seq. by apply lookup_ge_None.
Qed.

Lemma rule_order_nodup rules : NoDup (rule_order rules).
Proof. rewrite rule_order_perm. apply NoDup_seq. Qed.

(** Rank and order are inverse to each other. *)
Lemma rankRules_spec rules i r :
  rankRules rules !! i = Some r ↔ rule_order rules !! r = Some i.
Proof.
  destruct (write_ranks_spec (rule_order rules) 0 (replicate (length rules) 0)
    (rule_order_nodup rules)) as [_ H].
  assert (∀ r i, rule_order rules !! r = Some i → rankRules rules !! i = Some r) as Hfw.
  { intros r' i' Hr. apply (H _ _ Hr). rewrite length_replicate.
    assert (i' ∈ rule_order rules) as Hin by (by eapply list_elem_of_lookup_2).
    rewrite rule_order_perm in Hin. apply elem_of_seq in Hin. lia. }
  split; [|apply Hfw]. intros Hi.
  assert (i ∈ rule_order rules) as Hin.
  { rewrite rule_order_perm. apply elem_of_seq.
    apply lookup_lt_Some in Hi. unfold rankRules in Hi.
    rewrite length_write_ranks, length_replicate in Hi. lia. }
  apply list_elem_of_lookup in Hin as [r' Hr']. pose proof (Hfw _ _ Hr'). congruence.
Qed.

Lemma length_rankRules rules : length (rankRules rules) = length rules.
Proof. unfold rankRules. by rewrite length_write_ranks, length_replicate. Qed.

Lemma rankRules_nodup rules : NoDup (rankRules rules).
Proof.
  apply NoDup_alt. intros i j r Hi Hj. apply rankRules_spec in Hi, Hj. congruence.
Qed.

Lemma rule_key_at rules r i :
  rule_order rules !! r = Some i →
  ∃ ru, rules !! i = Some ru ∧
    SortFunc rule_cmp (rule_keys rules) !! r = Some (ru_Position ru, (ru_ID ru, i)).
Proof.
  unfold rule_order. rewrite list_lookup_fmap. intros Hi.
  apply fmap_Some in Hi as (k & Hk & ->).
  assert (k ∈ rule_keys rules) as Hin.
  { rewrite <- (SortFunc_perm rule_cmp). by eapply list_elem_of_lookup_2. }
  apply list_elem_of_lookup in Hin as [j Hj]. unfold rule_keys in Hj.
  rewrite list_lookup_imap in Hj. apply fmap_Some in Hj as (ru & Hru & ->). cbn. eauto.
Qed.

Lemma rank_lt_key rules i j ri rj ui uj :
  rankRules rules !! i = Some ri → rankRules rules !! j = Some rj →
  rules !! i = Some ui → rules !! j = Some uj →
  ri < rj ↔ rule_cmp (ru_Position ui, (ru_ID ui, i)) (ru_Position uj, (ru_ID uj, j)) = Lt.
Proof.
  intros Hi Hj Hui Huj. apply rankRules_spec in Hi, Hj.
  destruct (rule_key_at _ _ _ Hi) as (? & ? & Ki), (rule_key_at _ _ _ Hj) as (? & ? & Kj).
  simplify_eq. set (ki := (ru_Position ui, (ru_ID ui, i))) in *.
  set (kj := (ru_Position uj, (ru_ID uj, j))) in *.
  pose proof (SortFunc_sorted rule_cmp (rule_keys rules)) as Hs.
  split; intros Hlt.
  - pose proof (StronglySorted_lookup _ _ _ _ _ _ Hs Ki Kj Hlt) as Hle. unfold cmp_le in Hle.
    destruct (rule_cmp ki kj) eqn:Hc; [|done|done].
    apply (cmp_eq (cmp:=rule_cmp)) in Hc. subst ki kj. simplify_eq.
    pose proof (NoDup_lookup _ _ _ _ (rule_order_nodup rules) Hi Hj). lia.
  - destruct (decide (ri < rj)) as [|Hn]; [done|]. exfalso.
    destruct (decide (ri = rj)) as [->|Hne].
    + rewrite Ki in Kj. injection Kj as Hpos Hid Hij. subst ki kj.
      rewrite Hpos, Hid, Hij in Hlt. by rewrite (cmp_refl rule_cmp) in Hlt.
    + pose proof (StronglySorted_lookup _ _ _ _ _ _ Hs Kj Ki ltac:(lia)) as Hle.
      unfold cmp_le in Hle. by rewrite (cmp_opp (cmp:=rule_cmp) ki kj), Hlt in Hle.
Qed.

(** [rankRules] gives every rule a rank of its own below the number of
    rules, and ranks follow the (Position, ID, input index) order. *)
Theorem rankRules_order rules :
  length (rankRules rules) = length rules ∧ NoDup (rankRules rules) ∧
  Forall (λ r, r < length rules) (rankRules rules) ∧
  ∀ i j ri rj ui uj,
    rankRules rules !! i = Some ri → rankRules rules !! j = Some rj →
    rules !! i = Some ui → rules !! j = Some uj →
    ri < rj ↔
    (ru_Position ui < ru_Position uj)%Z ∨
    ru_Position ui = ru_Position uj ∧
    (string_compare (ru_ID ui) (ru_ID uj) = Lt ∨ ru_ID ui = ru_ID uj ∧ i < j).
Proof.
  split_and!; [apply length_rankRules|apply rankRules_nodup| |].
  - apply Forall_lookup. intros i r Hr%rankRules_spec.
    apply lookup_lt_Some in Hr. by rewrite rule_order_perm, length_seq in Hr.
  - intros i j ri rj ui uj Hi Hj Hui Huj.
    rewrite (rank_lt_key rules i j ri rj ui uj Hi Hj Hui Huj).
    unfold rule_cmp, cmp_then. cbn [fst snd].
    destruct (Z.compare_spec (ru_Position ui) (ru_Position uj)) as [Hp|Hp|Hp];
      [|split; [auto|done]|split; [done|lia]].
    destruct (string_compare (ru_ID ui) (ru_ID uj)) eqn:Hid.
    + apply (cmp_eq (cmp:=string_compare)) in Hid. rewrite Nat.compare_lt_iff, Hid.
      naive_solver lia.
    + naive_solver.
    + split; [done|]. intros [?|(_ & [?|[He _]])]; [lia|done|].
      rewrite He, (cmp_refl string_compare) in Hid. done.
Qed.

(** ** The matcher *)

Section matcher.
Context `{RE : RegexEngine}.

Record Matcher := {
  m_exact : gmap bytes ruleEntry;
  m_templates : templateNode;
  m_prefixes : radixNode;
  m_regexes : list (Regexp * ruleEntry);
  m_fallback : MatchResult;
  m_size : nat;
}.

Definition set_exact (x : gmap bytes ruleEntry) (m : Matcher) : Matcher :=
  {| m_exact := x; m_templates := m_templates m; m_prefixes := m_prefixes m;
     m_regexes := m_regexes m; m_fallback := m_fallback m; m_size := m_size m |}.
Definition set_templates (x : templateNode) (m : Matcher) : Matcher :=
  {| m_exact := m_exact m; m_templates := x; m_prefixes := m_prefixes m;
     m_regexes := m_regexes m; m_fallback := m_fallback m; m_size := m_size m |}.
Definition set_prefixes (x : radixNode) (m : Matcher) : Matcher :=
  {| m_exact := m_exact m; m_templates := m_templates m; m_prefixes := x;
     m_regexes := m_regexes m; m_fallback := m_fallback m; m_size := m_size m |}.
Definition set_regexes (x : list (Regexp * ruleEntry)) (m : Matcher) : Matcher :=
  {| m_exact := m_exact m; m_templates := m_templates m; m_prefixes := m_prefixes m;
     m_regexes := x; m_fallback := m_fallback m; m_size := m_size m |}.

Definition Matcher_add (m : Matcher) (r : Rule) (e : ruleEntry) : result siteErr Matcher :=
  if String.eqb (ru_Kind r) RuleExact then
    match validatePathPattern (ru_Pattern r) with
    | Err err => Err err
    | Ok _ =>
        match m_exact m !! ru_Pattern r with
        | None => Ok (set_exact (<[ru_Pattern r := e]> (m_exact m)) m)
        | Some prev =>
            if (re_rank e <? re_rank prev)%nat
            then Ok (set_exact (<[ru_Pattern r := e]> (m_exact m)) m) else Ok m
        end
    end
  else if String.eqb (ru_Kind r) RuleTemplate then
    match parseTemplate (ru_Pattern r) with
    | Err err => Err err
    | Ok segments => Ok (set_templates (templateNode_insert (m_templates m) segments e) m)
    end
  else if String.eqb (ru_Kind r) RulePrefix then
    match validatePathPattern (ru_Pattern r) with
    | Err err => Err err
    | Ok _ => Ok (set_prefixes (radixNode_insert (m_prefixes m) (ru_Pattern r) e) m)
    end
  else if String.eqb (ru_Kind r) RuleRegex then
    match compileRegex (ru_Pattern r) with
    | Err err => Err err
    | Ok re => Ok (set_regexes (m_regexes m ++ [(re, e)]) m)
    end
  else
    match ValidatePattern (ru_Kind r) (ru_Pattern r) with
    | Err err => Err err
    | Ok _ => Ok m
    end.

Definition entry_of (r : Rule) (rank : nat) : ruleEntry :=
  {| re_result := {| mr_GroupID := ru_GroupID r; mr_GroupName := ru_GroupName r;
                     mr_RuleID := ru_ID r; mr_Kind := ru_Kind r; mr_Default := false |};
     re_rank := rank |}.

(** The loop of [NewMatcher] over the rules and their ranks. *)
Fixpoint add_rules (m : Matcher) (i : nat) (rules : list (Rule * nat)) : result siteErr Matcher :=
  match rules with
  | [] => Ok m
  | (r, rank) :: rules' =>
      if String.eqb (ru_GroupID r) EmptyString
      then Err (ruleError i (ru_ID r) (ru_Kind r) groupIDEmpty)
      else match Matcher_add m r (entry_of r rank) with
           | Err err => Err (ruleError i (ru_ID r) (ru_Kind r) err)
           | Ok m' => add_rules m' (S i) rules'
           end
  end.

Definition fallback_result (defaultGroupID : string) : MatchResult :=
  {| mr_GroupID := defaultGroupID; mr_GroupName := DefaultGroup; mr_RuleID := EmptyString;
     mr_Kind := EmptyString; mr_Default := true |}.

Definition regex_cmp (a b : Regexp * ruleEntry) : comparison :=
  Nat.compare (re_rank a.2) (re_rank b.2).

Definition NewMatcher (rules : list Rule) (defaultGroupID : string) : result siteErr Matcher :=
  let m := {| m_exact := ∅; m_templates := empty_node; m_prefixes := empty_radix;
              m_regexes := []; m_fallback := fallback_result defaultGroupID;
              m_size := length rules |} in
  match add_rules m 0 (zip rules (rankRules rules)) with
  | Err err => Err err
  | Ok m =>
      let m := set_regexes (SortFunc regex_cmp (m_regexes m)) m in
      Ok (set_templates (templateNode_finalize (m_templates m)) m)
  end.

Definition Matcher_Len (m : option Matcher) : nat :=
  match m with None => 0 | Some m => m_size m end.

(** [None] is a nil matcher. *)
Definition Matcher_Match (m : option Matcher) (path : bytes) : MatchResult :=
  match m with
  | None => fallback_result EmptyString
  | Some m =>
      if negb (mr_Default (m_fallback m)) then fallback_result EmptyString
      else match m_exact m !! path with
      | Some e => re_result e
      | None =>
          match templateNode_match (m_templates m) path with
          | Some t => re_result (tt_entry t)
          | None =>
              match radixNode_longest (m_prefixes m) path with
              | Some e => re_result e
              | None =>
                  match List.find (λ r, MatchString r.1 path) (m_regexes m) with
                  | Some r => re_result r.2
                  | None => m_fallback m
                  end
              end
          end
      end
  end.

Definition Matcher_MatchURI (m : option Matcher) (uri : bytes) : result siteErr MatchResult :=
  match NormalizePath uri with
  | Err err => Err err
  | Ok path => Ok (Matcher_Match m path)
  end.

(** ** The reference

    Each kind of rule contributes a list in input order, with ranks. *)
Definition ranked (rules : list Rule) : list (Rule * nat) := zip rules (rankRules rules).

Definition exact_rules (path : bytes) (l : list (Rule * nat)) : list ruleEntry :=
  omap (λ '(r, rank), if String.eqb (ru_Kind r) RuleExact && bool_decide (ru_Pattern r = path)
                      then Some (entry_of r rank) else None) l.

Definition template_rules (l : list (Rule * nat)) : list (list templateSegment * ruleEntry) :=
  omap (λ '(r, rank),
    if String.eqb (ru_Kind r) RuleTemplate then
      match parseTemplate (ru_Pattern r) with
      | Ok segs => Some (segs, entry_of r rank)
      | Err _ => None
      end
    else None) l.

Definition prefix_rules (l : list (Rule * nat)) : list (bytes * ruleEntry) :=
  omap (λ '(r, rank), if String.eqb (ru_Kind r) RulePrefix
                      then Some (ru_Pattern r, entry_of r rank) else None) l.

Definition regex_rules (l : list (Rule * nat)) : list (Regexp * ruleEntry) :=
  omap (λ '(r, rank),
    if String.eqb (ru_Kind r) RuleRegex then
      match compileRegex (ru_Pattern r) with
      | Ok re => Some (re, entry_of r rank)
      | Err _ => None
      end
    else None) l.

Definition regex_ref (l : list (Rule * nat)) (path : bytes) : option ruleEntry :=
  pick_best rank_better (snd <$> List.filter (λ r, MatchString r.1 path) (regex_rules l)).

(** Exact rules win over templates, templates over prefixes, prefixes over
    regular expressions, and those over the default group. *)
Definition match_ref (rules : list Rule) (defaultGroupID : string) (path : bytes) : MatchResult :=
  let l := ranked rules in
  match pick_best rank_better (exact_rules path l),
        template_ref (template_rules l) path,
        prefix_ref (prefix_rules l) path,
        regex_ref l path with
  | Some e, _, _, _ => re_result e
  | None, Some t, _, _ => re_result (tt_entry t)
  | None, None, Some e, _ => re_result e
  | None, None, None, Some e => re_result e
  | None, None, None, None => fallback_result defaultGroupID
  end.

(** The rules of every kind taken from a list of distinct ranks have distinct
    ranks. *)
Lemma omap_nodup_rank {B} (f : Rule * nat → option B) (g : B → nat) l :
  (∀ x y, f x = Some y → g y = x.2) → NoDup (snd <$> l) → NoDup (g <$> omap f l).
Proof.
  intros Hf. induction l as [|x l IH]; [done|]. rewrite fmap_cons. intros [Hx Hnd]%NoDup_cons.
  cbn. destruct (f x) as [y|] eqn:Hy; [|auto]. cbn. apply NoDup_cons. split; [|auto].
  intros (z & Hz & Hin)%list_elem_of_fmap. apply list_elem_of_omap in Hin as (w & Hw & Hwz).
  apply Hx. apply list_elem_of_fmap. exists w. rewrite <- (Hf _ _ Hy), <- (Hf _ _ Hwz). done.
Qed.

Lemma ranked_nodup rules : NoDup (snd <$> ranked rules).
Proof.
  unfold ranked. rewrite snd_zip by (rewrite length_rankRules; lia). apply rankRules_nodup.
Qed.

(** What a run of [add_rules] leaves in the matcher. *)
Lemma add_rules_spec l m i m' :
  add_rules m i l = Ok m' →
  (∀ p, m_exact m' !! p = foldl (keep_best rank_better) (m_exact m !! p) (exact_rules p l)) ∧
  m_templates m' = insert_all (template_rules l) (m_templates m) ∧
  m_prefixes m' = insert_prefixes (prefix_rules l) (m_prefixes m) ∧
  m_regexes m' = m_regexes m ++ regex_rules l ∧
  m_fallback m' = m_fallback m ∧ m_size m' = m_size m.
Proof.
  revert m i. induction l as [|[r rank] l IH]; intros m i; cbn [add_rules].
  { intros [= <-]. by rewrite app_nil_r. }
  destruct (String.eqb (ru_GroupID r) EmptyString); [done|].
  destruct (Matcher_add m r (entry_of r rank)) as [m1|err] eqn:Hadd; [|done].
  intros (H1 & H2 & H3 & H4 & H5 & H6)%IH. rewrite H2, H3, H4, H5, H6. clear H2 H3 H4 H5 H6 IH.
  setoid_rewrite H1. clear H1. unfold Matcher_add in Hadd.
  unfold exact_rules, template_rules, prefix_rules, regex_rules. cbn [omap list_omap].
  set (e := entry_of r rank) in *. clearbody e.
  destruct (String.eqb (ru_Kind r) RuleExact) eqn:K1.
  { apply String.eqb_eq in K1. rewrite K1. cbn. case_step_in Hadd; [|done].
    assert (m1 = set_exact (m_exact m1) m ∧ ∀ p, m_exact m1 !! p =
      if decide (ru_Pattern r = p) then keep_best rank_better (m_exact m !! p) e
      else m_exact m !! p) as [Hm1 Hex].
    { unfold keep_best, rank_better. destruct (m_exact m !! ru_Pattern r) as [prev|] eqn:Hp.
      - destruct (re_rank e <? re_rank prev)%nat eqn:Hlt; injection Hadd as <-.
        + split; [done|]. intros p. cbn [m_exact set_exact].
          case_decide; [subst; by rewrite lookup_insert_eq, Hp, Hlt|].
          by rewrite lookup_insert_ne.
        + split; [by destruct m|]. intros p. case_decide; [subst; by rewrite Hp, Hlt|done].
      - injection Hadd as <-. split; [done|]. intros p. cbn.
        case_decide; [subst; by rewrite lookup_insert_eq, Hp|]. by rewrite lookup_insert_ne. }
    split_and!; [|by rewrite Hm1..]. intros p. rewrite Hex.
    case_decide; [by rewrite bool_decide_true|by rewrite bool_decide_false]. }
  destruct (String.eqb (ru_Kind r) RuleTemplate) eqn:K2.
  { apply String.eqb_eq in K2. rewrite K2. cbn. case_step_in Hadd; [|done].
    by injection Hadd as <-. }
  destruct (String.eqb (ru_Kind r) RulePrefix) eqn:K3.
  { apply String.eqb_eq in K3. rewrite K3. cbn. case_step_in Hadd; [|done].
    by injection Hadd as <-. }
  destruct (String.eqb (ru_Kind r) RuleRegex) eqn:K4.
  { cbn. case_step_in Hadd; [|done].
    injection Hadd as <-. cbn. split_and!; try done. by rewrite <- app_assoc. }
  cbn. case_step_in Hadd; [|done]. by injection Hadd as <-.
Qed.

#[export] Instance regex_cmp_total : Total (cmp_le regex_cmp).
Proof. intros x y. unfold cmp_le, regex_cmp. rewrite !Nat.compare_gt_iff. lia. Qed.

#[export] Instance regex_cmp_trans : Transitive (cmp_le regex_cmp).
Proof. intros x y z. unfold cmp_le, regex_cmp. rewrite !Nat.compare_gt_iff. lia. Qed.

(** The first match of the sorted slice is the match of lowest rank. *)
Lemma regex_find_ref (l : list (Regexp * ruleEntry)) path :
  NoDup (re_rank ∘ snd <$> l) →
  snd <$> List.find (λ r, MatchString r.1 path) (SortFunc regex_cmp l) =
  pick_best rank_better (snd <$> List.filter (λ r, MatchString r.1 path) l).
Proof.
  intros Hnd. pose proof (StronglySorted_merge_sort (cmp_le regex_cmp) l) as Hs.
  fold (SortFunc regex_cmp l) in Hs.
  destruct (List.find _ (SortFunc regex_cmp l)) as [r|] eqn:Hfind; cbn; symmetry.
  - pose proof (find_split _ _ _ Hfind) as (l1 & l2 & Heq & Hr & H1).
    assert (r ∈ l) as Hin.
    { rewrite <- (SortFunc_perm regex_cmp l), Heq. set_solver. }
    apply pick_best_max; [apply _| | |].
    + intros x y (a & -> & Ha)%list_elem_of_fmap (b & -> & Hb)%list_elem_of_fmap.
      apply list_elem_of_In, filter_In in Ha as [Ha%list_elem_of_In _], Hb as [Hb%list_elem_of_In _].
      unfold rank_better. rewrite !Nat.ltb_ge. intros ??.
      f_equal. apply (nodup_rank_inj l); [done..|lia].
    + apply list_elem_of_fmap. exists r. split; [done|].
      apply list_elem_of_In, filter_In. split; [by apply list_elem_of_In|done].
    + intros x (a & -> & Ha)%list_elem_of_fmap.
      apply list_elem_of_In, filter_In in Ha as [Ha%list_elem_of_In Hma].
      rewrite <- (SortFunc_perm regex_cmp l), Heq in Ha.
      unfold rank_better. apply Nat.ltb_ge.
      apply elem_of_app in Ha as [Ha|Ha]; [rewrite Forall_forall in H1; by rewrite H1 in Hma|].
      apply elem_of_cons in Ha as [->|Ha]; [done|]. rewrite Heq in Hs.
      apply StronglySorted_app in Hs as (_ & _ & Hs). apply StronglySorted_cons in Hs as [Hs _].
      rewrite Forall_forall in Hs. specialize (Hs a Ha).
      unfold cmp_le, regex_cmp in Hs. rewrite Nat.compare_gt_iff in Hs. lia.
  - apply pick_best_none. destruct (List.filter _ l) as [|a fl] eqn:Hfl; [done|]. exfalso.
    assert (a ∈ a :: fl) as Ha by set_solver. rewrite <- Hfl in Ha.
    apply list_elem_of_In, filter_In in Ha as [Ha%list_elem_of_In Hma].
    rewrite <- (SortFunc_perm regex_cmp l) in Ha.
    by rewrite (List.find_none _ _ Hfind a) in Hma by (by apply list_elem_of_In).
Qed.

(** C1: a matcher that [NewMatcher] accepts selects, for every path, the
    endpoint group of the reference: exact rules first, then the template with
    most literal segments, then the longest prefix, then the first regular
    expression, with ties broken by (Position, ID, index), and the default
    group when no rule matches. *)
Theorem Matcher_Match_ref rules defaultGroupID m path :
  NewMatcher rules defaultGroupID = Ok m →
  Matcher_Match (Some m) path = match_ref rules defaultGroupID path.
Proof.
  unfold NewMatcher. case_step; [|done]. intros [= <-].
  apply add_rules_spec in Heqr as (Hex & Htp & Hpf & Hre & Hfb & _).
  unfold Matcher_Match, set_templates, set_regexes.
  cbn [m_exact m_templates m_prefixes m_regexes m_fallback m_size] in *.
  fold (ranked rules) in *. set (l := ranked rules) in *.
  pose proof (ranked_nodup rules) as Hnd. fold l in Hnd.
  unfold match_ref. fold l. rewrite Hfb. cbn [negb fallback_result mr_Default]. rewrite Hex, lookup_empty.
  fold (pick_best rank_better (exact_rules path l)).
  rewrite Htp, template_match_ref, Hpf, prefix_match_ref, Hre.
  2,3: apply omap_nodup_rank; [|done]; intros [r rank] y; cbn; case_steps; naive_solver.
  assert (regex_ref l path = snd <$> List.find (λ r, MatchString r.1 path)
    (SortFunc regex_cmp (regex_rules l))) as ->.
  { symmetry. apply regex_find_ref.
    apply omap_nodup_rank; [|done]. intros [r rank] y. cbn. case_steps; naive_solver. }
  unfold pick_best. destruct (foldl _ None (exact_rules path l)); [done|].
  destruct (template_ref _ path); [done|]. destruct (prefix_ref _ path); [done|].
  by destruct (List.find _ _).
Qed.

(** ** Rejected rules *)

(** Why [NewMatcher] rejects a rule: the group first, then [ValidatePattern]. *)
Definition rule_rejected (r : Rule) : option siteErr :=
  if String.eqb (ru_GroupID r) EmptyString then Some groupIDEmpty
  else match ValidatePattern (ru_Kind r) (ru_Pattern r) with Err e => Some e | Ok _ => None end.

Lemma Matcher_add_validate m r e :
  match ValidatePattern (ru_Kind r) (ru_Pattern r) with
  | Ok _ => is_ok (Matcher_add m r e) = true
  | Err err => Matcher_add m r e = Err err
  end.
Proof.
  unfold ValidatePattern, Matcher_add.
  destruct (String.eqb (ru_Kind r) RuleExact) eqn:K1; cbn [orb].
  { destruct (validatePathPattern _); [|done]. by repeat case_match. }
  destruct (String.eqb (ru_Kind r) RulePrefix) eqn:K3.
  { apply String.eqb_eq in K3. rewrite K3. cbn. by destruct (validatePathPattern _). }
  destruct (String.eqb (ru_Kind r) RuleTemplate) eqn:K2; [by destruct (parseTemplate _)|].
  destruct (String.eqb (ru_Kind r) RuleRegex) eqn:K4; [by destruct (compileRegex _)|].
  unfold ValidatePattern. by rewrite K1, K3, K2, K4.
Qed.

(** The first rejected rule of a list, with its index counted from [i]. *)
Fixpoint first_rejected (i : nat) (rules : list Rule) : option siteErr :=
  match rules with
  | [] => None
  | r :: rules' =>
      match rule_rejected r with
      | Some err => Some (ruleError i (ru_ID r) (ru_Kind r) err)
      | None => first_rejected (S i) rules'
      end
  end.

Lemma add_rules_rejected l m i :
  match first_rejected i (fst <$> l) with
  | None => is_ok (add_rules m i l) = true
  | Some err => add_rules m i l = Err err
  end.
Proof.
  revert m i. induction l as [|[r rank] l IH]; intros m i; [done|].
  cbn [add_rules first_rejected fmap list_fmap fst]. unfold rule_rejected.
  destruct (String.eqb (ru_GroupID r) EmptyString); [done|].
  pose proof (Matcher_add_validate m r (entry_of r rank)) as Hv.
  destruct (ValidatePattern _ _) as [?|err]; [|by rewrite Hv].
  destruct (Matcher_add m r _) as [m'|]; [|done]. apply IH.
Qed.

(** [NewMatcher] accepts a list of rules exactly when every rule has a
    group and a pattern that [ValidatePattern] accepts, and otherwise its
    error names the first offending rule and carries its validation error. *)
Theorem NewMatcher_validates rules defaultGroupID :
  match first_rejected 0 rules with
  | None => ∃ m, NewMatcher rules defaultGroupID = Ok m ∧ Matcher_Len (Some m) = length rules
  | Some err => NewMatcher rules defaultGroupID = Err err
  end.
Proof.
  unfold NewMatcher. match goal with |- context [add_rules ?m 0 ?l] =>
    pose proof (add_rules_rejected l m 0) as Hr; destruct (add_rules m 0 l) eqn:Ha end.
  all: rewrite fst_zip in Hr by (rewrite length_rankRules; lia).
  all: destruct (first_rejected 0 rules); try done.
  eexists. split; [done|]. cbn. by apply add_rules_spec in Ha as (_ & _ & _ & _ & _ & ->).
Qed.
End matcher.

(** ** Example rules *)

Definition ex_rule (id kind pattern : string) (pos : Z) : Rule :=
  {| ru_ID := id; ru_GroupID := id; ru_GroupName := id; ru_Kind := kind;
     ru_Pattern := bs pattern; ru_Position := pos |}.

Definition ex_rules : list Rule :=
  [ex_rule "r0" "prefix" "/api/" 5; ex_rule "r1" "prefix" "/api/user" 9;
   ex_rule "r2" "template" "/api/{a}/posts" 1; ex_rule "r3" "template" "/api/users/{b}" 0;
   ex_rule "r4" "exact" "/api/users/me" 7; ex_rule "r5" "regex" "/x" 0].

Lemma Matcher_Match_ref_witness :
  match NewMatcher (RE:=literal_engine) ex_rules "d" with
  | Ok m =>
      Matcher_Match (RE:=literal_engine) (Some m) (bs "/api/users/posts")
        = match_ref (RE:=literal_engine) ex_rules "d" (bs "/api/users/posts") ∧
      mr_RuleID (match_ref (RE:=literal_engine) ex_rules "d" (bs "/api/users/posts")) = "r3"%string
  | Err _ => False
  end.
Proof.
  destruct (NewMatcher (RE:=literal_engine) ex_rules "d") as [m|e] eqn:Hm.
  - split; [exact (Matcher_Match_ref (RE:=literal_engine) ex_rules "d" m _ Hm)|].
    vm_compute. reflexivity.
  - exfalso. revert Hm. vm_compute. discriminate.
Defined.
