(* ===== verification/GoFloat.v ===== *)
(** * float64

    Go's float64 is IEEE 754 binary64 with rounding to nearest even; it is
    modelled by the executable [spec_float] of the standard library.  The
    functions of package math that the policies use follow Go's own
    algorithms. *)

From S2P Require Import Prelude.
From Stdlib Require Export SpecFloat.

Definition float64 : Type := spec_float.

Definition f_prec : Z := 53.
Definition f_emax : Z := 1024.

Definition f_nan : float64 := S754_nan.
Definition f_inf : float64 := S754_infinity false.
Definition f_zero : float64 := S754_zero false.

(** The conversion [float64(z)], rounded to nearest even. *)
Definition f_of_Z (z : Z) : float64 := binary_normalize f_prec f_emax z 0 false.

Definition f_add : float64 → float64 → float64 := SFadd f_prec f_emax.
Definition f_mul : float64 → float64 → float64 := SFmul f_prec f_emax.
Definition f_div : float64 → float64 → float64 := SFdiv f_prec f_emax.
Definition f_ltb : float64 → float64 → bool := SFltb.
Definition f_leb : float64 → float64 → bool := SFleb.
Definition f_eqb : float64 → float64 → bool := SFeqb.

(** A decimal constant [n/d]: the correctly rounded quotient. *)
Definition f_const (n d : Z) : float64 := f_div (f_of_Z n) (f_of_Z d).

Definition IsNaN (f : float64) : bool := match f with S754_nan => true | _ => false end.
Definition IsInf_pos (f : float64) : bool :=
  match f with S754_infinity false => true | _ => false end.

(** [math.Round]: to the nearest integer, halves away from zero. *)
Definition math_Round (f : float64) : float64 :=
  match f with
  | S754_finite s m e =>
      if (0 <=? e)%Z then f
      else
        let q := (Zpos m / 2 ^ (- e))%Z in
        let r := (Zpos m mod 2 ^ (- e))%Z in
        let n := if (2 ^ (- e) <=? 2 * r)%Z then (q + 1)%Z else q in
        binary_normalize f_prec f_emax (if s then - n else n)%Z 0 s
  | _ => f
  end.

(** The conversion to an integer type, truncating; only finite values in
    range are converted by the code. *)
Definition f_trunc (f : float64) : Z :=
  match f with
  | S754_finite s m e =>
      let a := if (0 <=? e)%Z then (Zpos m * 2 ^ e)%Z else (Zpos m / 2 ^ (- e))%Z in
      if s then (- a)%Z else a
  | _ => 0%Z
  end.

(** The loop of [math.Pow] for a natural exponent [i]: [a1 * 2^ae] is the
    result so far and [x1 * 2^xe] the current square. *)
Fixpoint pow_loop (fuel : nat) (i : Z) (x1 : float64) (xe : Z) (a1 : float64) (ae : Z) :
    float64 * Z :=
  match fuel with
  | O => (a1, ae)
  | S fuel =>
      if (i =? 0)%Z then (a1, ae)
      else if (xe <? - 2 ^ 12)%Z || (2 ^ 12 <? xe)%Z then (a1, ae + xe)%Z
      else
        let '(a1, ae) := if Z.testbit i 0 then (f_mul a1 x1, ae + xe)%Z else (a1, ae) in
        let x1 := f_mul x1 x1 in
        let xe := Z.shiftl xe 1 in
        let '(x1, xe) := if f_ltb x1 (f_const 1 2) then (f_add x1 x1, xe - 1)%Z else (x1, xe) in
        pow_loop fuel (Z.shiftr i 1) x1 xe a1 ae
  end.

(** [math.Pow] for [x >= 1] and a natural exponent below [2^63]. *)
Definition math_Pow (x : float64) (y : Z) : float64 :=
  if (y =? 0)%Z || f_eqb x (f_of_Z 1) then f_of_Z 1
  else if (y =? 1)%Z then x
  else if IsNaN x then f_nan
  else if IsInf_pos x then f_inf
  else
    let '(x1, xe) := SFfrexp f_prec f_emax x in
    let '(a1, ae) := pow_loop 64 y x1 xe (f_of_Z 1) 0 in
    SFldexp f_prec f_emax a1 ae.

Example pow_ex1 : math_Pow (f_of_Z 2) 10 = f_of_Z 1024.
Proof. vm_compute. reflexivity. Qed.
Example pow_ex2 : math_Pow (f_const 3 2) 2 = f_const 9 4.
Proof. vm_compute. reflexivity. Qed.
Example round_ex : math_Round (f_const 5 2) = f_of_Z 3 ∧ math_Round (f_const 12 5) = f_of_Z 2.
Proof. vm_compute. auto. Qed.

(** ** Exact products

    The double of an integer below [2^53] is exact, and so is a product of two
    that stays below. *)

Section exact.
Local Open Scope Z_scope.

Definition digits (v : Z) : Z := Z.log2 v + 1.

Lemma digits2_size p : digits2_pos p = Pos.size p.
Proof. induction p; cbn; congruence. Qed.

Lemma digits2_log2 p : Zpos (digits2_pos p) = digits (Zpos p).
Proof.
  rewrite digits2_size. unfold digits. destruct p; cbn [Pos.size]; [| |done];
    rewrite Pos2Z.inj_succ; done.
Qed.

Lemma digits_shift v k : 0 < v → 0 ≤ k → digits (v * 2 ^ k) = digits v + k.
Proof. intros. unfold digits. rewrite Z.log2_mul_pow2 by lia. lia. Qed.

Lemma digits_bounds v : 0 < v < 2 ^ 53 → 1 ≤ digits v ≤ 53.
Proof.
  intros [H1 H2]. unfold digits. pose proof (Z.log2_nonneg v).
  apply Z.log2_lt_pow2 in H2; lia.
Qed.

Lemma shr_1_exact m : shr_1 (Build_shr_record (2 * m) false false) = Build_shr_record m false false.
Proof. by destruct m. Qed.

Lemma iter_shr_1_exact p m :
  iter_pos shr_1 p (Build_shr_record (m * 2 ^ Zpos p) false false) = Build_shr_record m false false.
Proof.
  revert m. induction p as [p IH|p IH|]; intros m; cbn [iter_pos].
  - replace (m * 2 ^ Zpos p~1) with (2 * (m * 2 ^ Zpos p * 2 ^ Zpos p)).
    + by rewrite shr_1_exact, !IH.
    + rewrite Pos2Z.inj_xI, <- (Z.add_diag (Zpos p)), !Z.pow_add_r by lia. generalize (2 ^ Zpos p). lia.
  - replace (m * 2 ^ Zpos p~0) with (m * 2 ^ Zpos p * 2 ^ Zpos p); [by rewrite !IH|].
    rewrite (Pos2Z.inj_xO p), <- (Z.add_diag (Zpos p)), Z.pow_add_r by lia. generalize (2 ^ Zpos p). lia.
  - replace (m * 2 ^ 1) with (2 * m) by lia. apply shr_1_exact.
Qed.

Lemma shr_exact m e n :
  0 ≤ n → shr (Build_shr_record (m * 2 ^ n) false false) e n = (Build_shr_record m false false, e + n).
Proof.
  intros Hn. destruct n as [|p|p]; [|clear Hn|lia].
  - cbn. by rewrite Z.mul_1_r, Z.add_0_r.
  - unfold shr. by rewrite iter_shr_1_exact.
Qed.

(** The canonical double of an integer below [2^53]. *)
Definition exact_double (v : Z) : float64 :=
  S754_finite false (Z.to_pos (v * 2 ^ (53 - digits v))) (digits v - 53).

Lemma fexp_digits v : 1 ≤ v ≤ 53 → fexp f_prec f_emax v = v - 53.
Proof. unfold fexp, emin, f_prec, f_emax. lia. Qed.

Lemma shr_fexp_exact m v e :
  0 < v < 2 ^ 53 → e ≤ digits v - 53 → m = v * 2 ^ (- e) →
  shr_fexp f_prec f_emax m e loc_Exact
  = (Build_shr_record (v * 2 ^ (53 - digits v)) false false, digits v - 53).
Proof.
  intros Hv He ->. pose proof (digits_bounds v Hv). unfold shr_fexp. cbn [shr_record_of_loc].
  assert (0 < v * 2 ^ (- e)) by (apply Z.mul_pos_pos; [lia|apply Z.pow_pos_nonneg; lia]).
  replace (Zdigits2 (v * 2 ^ (- e))) with (digits v - e).
  2:{ unfold Zdigits2. destruct (v * 2 ^ (- e)) eqn:E; try lia.
      rewrite digits2_log2, <- E, digits_shift by lia. lia. }
  rewrite fexp_digits by lia.
  replace (v * 2 ^ (- e)) with (v * 2 ^ (53 - digits v) * 2 ^ (digits v - e + e - 53 - e)).
  2:{ rewrite <- Z.mul_assoc, <- Z.pow_add_r by lia. do 2 f_equal. lia. }
  rewrite shr_exact by lia. f_equal. lia.
Qed.

Lemma round_exact m v e :
  0 < v < 2 ^ 53 → e ≤ digits v - 53 → m = v * 2 ^ (- e) →
  binary_round_aux f_prec f_emax false m e loc_Exact = exact_double v.
Proof.
  intros Hv He Hm. pose proof (digits_bounds v Hv). unfold binary_round_aux.
  rewrite (shr_fexp_exact m v e) by done. cbn [shr_m loc_of_shr_record round_nearest_even].
  rewrite (shr_fexp_exact _ v) by (done || lia || (do 2 f_equal; lia)). cbn [shr_m].
  assert (0 < v * 2 ^ (53 - digits v)) by (apply Z.mul_pos_pos; [lia|apply Z.pow_pos_nonneg; lia]).
  unfold exact_double. destruct (v * 2 ^ (53 - digits v)); try lia.
  cbn [Z.to_pos]. by rewrite (proj2 (Z.leb_le _ _)) by (unfold f_emax, f_prec; lia).
Qed.

Lemma iter_xO_shift p q : Zpos (Pos.iter xO p q) = Zpos p * 2 ^ Zpos q.
Proof.
  induction q as [|q IH] using Pos.peano_ind; [cbn; lia|].
  rewrite Pos.iter_succ, Pos2Z.inj_xO, IH, Pos2Z.inj_succ, Z.pow_succ_r by lia. lia.
Qed.

Lemma f_of_Z_exact v : 0 < v < 2 ^ 53 → f_of_Z v = exact_double v.
Proof.
  intros Hv. pose proof (digits_bounds v Hv). unfold f_of_Z, binary_normalize.
  destruct v as [|p|p] eqn:E; try lia. unfold binary_round.
  rewrite digits2_log2, Z.add_0_r, fexp_digits by done. unfold shl_align. rewrite Z.sub_0_r.
  destruct (digits (Zpos p) - 53) eqn:Ed; try lia.
  - apply round_exact; [done|lia|cbn; lia].
  - apply round_exact; [done|lia|]. by rewrite iter_xO_shift.
Qed.

Lemma f_mul_exact p q :
  0 < p → 0 < q → p * q < 2 ^ 53 → f_mul (f_of_Z p) (f_of_Z q) = exact_double (p * q).
Proof.
  intros Hp Hq Hpq. assert (p < 2 ^ 53 ∧ q < 2 ^ 53) as [] by nia.
  rewrite !f_of_Z_exact by done. unfold exact_double at 1 2, f_mul, SFmul. cbn [xorb].
  pose proof (digits_bounds p ltac:(lia)). pose proof (digits_bounds q ltac:(lia)).
  apply round_exact; [nia| |].
  - unfold digits. pose proof (Z.log2_mul_below p q ltac:(lia) ltac:(lia)). lia.
  - rewrite Pos2Z.inj_mul, !Z2Pos.id by (apply Z.mul_pos_pos; [lia|apply Z.pow_pos_nonneg; lia]).
    replace (- (digits p - 53 + (digits q - 53))) with ((53 - digits p) + (53 - digits q)) by lia.
    rewrite Z.pow_add_r by lia. ring.
Qed.

Lemma f_trunc_exact v : 0 < v < 2 ^ 53 → f_trunc (exact_double v) = v.
Proof.
  intros Hv. pose proof (digits_bounds v Hv). unfold exact_double, f_trunc.
  rewrite Z2Pos.id by (apply Z.mul_pos_pos; [lia|apply Z.pow_pos_nonneg; lia]).
  destruct (0 <=? digits v - 53) eqn:E.
  - replace (digits v) with 53 by lia. cbn. lia.
  - replace (- (digits v - 53)) with (53 - digits v) by lia.
    apply Z.div_mul. apply Z.pow_nonzero; lia.
Qed.
End exact.
