(* ===== verification/PolicyBase.v ===== *)
(** * Policy vocabulary and validation (internal/policy: outcome.go, kind.go,
      validation.go, matchers.go)

    Go string enumerations stay strings.  A validator is the list of problems
    it collected: [addf] is a singleton and consecutive checks are appended.
    An optional list ([StringList]) is [None] when nil. *)

From stdpp Require Export pretty.
From S2P Require Import Prelude GoStrings GoFloat.

#[global] Open Scope string_scope.
#[global] Open Scope list_scope.
#[global] Open Scope nat_scope.

(** ** Durations (internal/pkg/durationx): nanoseconds, -1 is permanent *)

Definition Permanent : Z := -1.
Definition IsPermanent (d : Z) : bool := (d =? Permanent)%Z.
Definition Duration_Milliseconds (d : Z) : Z :=
  if IsPermanent d then -1 else Z.quot d 1000000.

Definition Millisecond : Z := 1000000.
Definition Second : Z := 1000 * Millisecond.
Definition Minute : Z := 60 * Second.
Definition Hour : Z := 60 * Minute.

(** ** Outcomes *)

Definition OutcomeSuccess : string := "success".
Definition OutcomeEmpty : string := "empty".
Definition OutcomeRateLimited : string := "rate_limited".
Definition OutcomeCaptcha : string := "captcha".
Definition OutcomeAuthInvalid : string := "auth_invalid".
Definition OutcomeForbidden : string := "forbidden".
Definition OutcomeBanned : string := "banned".
Definition OutcomeProxyError : string := "proxy_error".
Definition OutcomeNetworkError : string := "network_error".
Definition OutcomeTargetError : string := "target_error".
Definition OutcomeClientError : string := "client_error".
Definition OutcomeUnknown : string := "unknown".

Definition outcomeCount : nat := 12.

Definition outcomeIndex (s : string) : Z :=
  if String.eqb s OutcomeSuccess then 0
  else if String.eqb s OutcomeEmpty then 1
  else if String.eqb s OutcomeRateLimited then 2
  else if String.eqb s OutcomeCaptcha then 3
  else if String.eqb s OutcomeAuthInvalid then 4
  else if String.eqb s OutcomeForbidden then 5
  else if String.eqb s OutcomeBanned then 6
  else if String.eqb s OutcomeProxyError then 7
  else if String.eqb s OutcomeNetworkError then 8
  else if String.eqb s OutcomeTargetError then 9
  else if String.eqb s OutcomeClientError then 10
  else if String.eqb s OutcomeUnknown then 11
  else -1.

Definition Outcomes : list string :=
  [OutcomeSuccess; OutcomeEmpty; OutcomeRateLimited; OutcomeCaptcha; OutcomeAuthInvalid;
   OutcomeForbidden; OutcomeBanned; OutcomeProxyError; OutcomeNetworkError;
   OutcomeTargetError; OutcomeClientError; OutcomeUnknown].

Definition ValidOutcome (s : string) : bool := (0 <=? outcomeIndex s)%Z.

(** A Go [switch] over string constants. *)
Definition string_in (s : string) (l : list string) : bool := existsb (String.eqb s) l.

Definition IsRiskOutcome (s : string) : bool :=
  string_in s [OutcomeRateLimited; OutcomeCaptcha; OutcomeForbidden; OutcomeBanned].

Definition IsFailureOutcome (s : string) : bool :=
  string_in s [OutcomeEmpty; OutcomeRateLimited; OutcomeCaptcha; OutcomeAuthInvalid;
               OutcomeForbidden; OutcomeBanned].

(** ** Blame *)

Definition BlameNone : string := "none".
Definition BlameIdentity : string := "identity".
Definition BlameProxy : string := "proxy".
Definition BlameBoth : string := "both".

Definition ValidBlame (b : string) : bool :=
  string_in b [BlameNone; BlameIdentity; BlameProxy; BlameBoth].

Definition DefaultBlame (outcome : string) : string :=
  if string_in outcome [OutcomeEmpty; OutcomeCaptcha; OutcomeAuthInvalid; OutcomeForbidden;
                        OutcomeBanned] then BlameIdentity
  else if String.eqb outcome OutcomeRateLimited then BlameBoth
  else if string_in outcome [OutcomeProxyError; OutcomeNetworkError] then BlameProxy
  else BlameNone.

Definition Blame_Identity (b : string) : bool :=
  String.eqb b BlameIdentity || String.eqb b BlameBoth.
Definition Blame_Proxy (b : string) : bool :=
  String.eqb b BlameProxy || String.eqb b BlameBoth.

(** ** Error kinds *)

Definition ErrorKindTimeout : string := "timeout".
Definition ErrorKindConnReset : string := "conn_reset".
Definition ErrorKindConnRefused : string := "conn_refused".
Definition ErrorKindProxyAuth : string := "proxy_auth".
Definition ErrorKindTLS : string := "tls".
Definition ErrorKindDNS : string := "dns".
Definition ErrorKindOther : string := "other".

Definition ErrorKinds : list string :=
  [ErrorKindTimeout; ErrorKindConnReset; ErrorKindConnRefused; ErrorKindProxyAuth;
   ErrorKindTLS; ErrorKindDNS; ErrorKindOther].

Definition ValidErrorKind (s : string) : bool :=
  string_in s [ErrorKindTimeout; ErrorKindConnReset; ErrorKindConnRefused; ErrorKindProxyAuth;
               ErrorKindTLS; ErrorKindDNS; ErrorKindOther].

(** ** Kinds, names and bindings *)

Definition KindRotation : string := "rotation".
Definition KindSignal : string := "signal".
Definition KindAction : string := "action".
Definition KindBreaker : string := "breaker".

Definition MaxNameLength : nat := 64.
Definition MaxExtendsDepth : nat := 5.
Definition maxBindingFieldLength : nat := 128.

Definition Kinds : list string := [KindRotation; KindSignal; KindAction; KindBreaker].
Definition ValidKind (k : string) : bool :=
  string_in k [KindRotation; KindSignal; KindAction; KindBreaker].

Definition DefaultPolicyName (kind : string) : string :=
  if negb (ValidKind kind) then "" else "default-" +:+ kind.

Record Binding := { b_Site : string; b_Client : string; b_EndpointGroup : string }.

Definition name_start (c : ascii) : bool := byte_in 97 122 c || byte_in 48 57 c.
Definition name_rest (c : ascii) : bool :=
  name_start c || bool_decide (c = "."%char) || bool_decide (c = "_"%char)
  || bool_decide (c = "-"%char).

Definition ValidName (s : string) : bool :=
  match bs s with
  | [] => false
  | c :: rest =>
      (String.length s <=? MaxNameLength)%nat && name_start c && forallb name_rest rest
  end.

(** ** Problems *)

(** The message of a problem, with the values it prints. *)
Inductive Msg :=
| msgRequired | msgRequiredWhenBind | msgRequiredBan | msgRequiredQuarantine
| msgRequiredCooldown | msgRequiredEscalation
| msgPattern (got : string)
| msgTooLong (limit : Z)
| msgExtendsSelf
| msgNotPermanent | msgNegative
| msgDurMin (lo got : Z) | msgDurMax (hi got : Z)
| msgBetween (lo hi got : Z) | msgAtLeast (lo got : Z) | msgAtMost2p62 (got : Z)
| msgRatio (openLow : bool) (got : float64) | msgScore (got : float64)
| msgEnum (allowed : list string) (got : string)
| msgEmpty | msgDuplicate (s : string)
| msgRangeNone | msgRangeGte | msgRangeLte | msgRangeEmpty | msgRangeNever
| msgDupName (prev : nat) (name : string)
| msgURINone | msgURIBoth | msgURISlash | msgRegex (err : string) | msgMethod (got : string)
| msgReserved (name : string) | msgUnknownOutcome (s : string)
| msgUnsupported (action : string) | msgCooldownOnly
| msgScope (action scope : string) (allowed : string)
| msgMultiplier (got : float64)
| msgMaxBelow (base : Z) | msgThreshold (prev : nat) (gte : Z) | msgShorter (prev : nat) (d : Z)
| msgDupWindow (prev : nat) (d : Z)
| msgBucketsWhole (window : Z) | msgBucketsSmall (window : Z) | msgNoTrip
| msgRevert (got : string)
| msgNilSpec.

Record Problem := { p_Path : string; p_Message : Msg }.

Record ValidationError := { ve_Kind : string; ve_Name : string; ve_Problems : list Problem }.

Definition addf (path : string) (m : Msg) : list Problem := [{| p_Path := path; p_Message := m |}].

(** [result]: an error exactly when problems were collected. *)
Definition validator_result (kind name : string) (problems : list Problem) :
    option ValidationError :=
  match problems with
  | [] => None
  | _ => Some {| ve_Kind := kind; ve_Name := name; ve_Problems := problems |}
  end.

Definition field (parent child : string) : string :=
  if String.eqb parent "" then child else parent +:+ "." +:+ child.

Definition item (parent : string) (i : nat) : string := parent +:+ "[" +:+ pretty i +:+ "]".

Definition validator_duration (path : string) (d minD maxD : Z) : list Problem :=
  if IsPermanent d then addf path msgNotPermanent
  else if (d <? minD)%Z then
    if (minD =? 0)%Z then addf path msgNegative else addf path (msgDurMin minD d)
  else if (0 <? maxD)%Z && (maxD <? d)%Z then addf path (msgDurMax maxD d)
  else [].

Definition validator_intRange (path : string) (n lo hi : Z) : list Problem :=
  if (n <? lo)%Z || (hi <? n)%Z then addf path (msgBetween lo hi n) else [].

Definition validator_minInt (path : string) (n lo : Z) : list Problem :=
  if (n <? lo)%Z then addf path (msgAtLeast lo n) else [].

Definition validator_ratio (path : string) (f : float64) (openLow : bool) : list Problem :=
  if openLow then
    if negb (f_ltb f_zero f && f_leb f (f_of_Z 1)) then addf path (msgRatio true f) else []
  else if negb (f_leb f_zero f && f_leb f (f_of_Z 1)) then addf path (msgRatio false f) else [].

Definition validator_score (path : string) (f : float64) : list Problem :=
  if negb (f_leb f_zero f && f_leb f (f_of_Z 100)) then addf path (msgScore f) else [].

Definition validator_enum (path value : string) (allowed : list string) : list Problem :=
  if existsb (String.eqb value) allowed then [] else addf path (msgEnum allowed value).

Definition StringList : Type := option (list string).

(** The loop of [stringList] from index [i], with the values seen so far. *)
Fixpoint stringList_loop (path : string) (check : string → string → list Problem)
    (i : nat) (seen : list string) (l : list string) : list Problem :=
  match l with
  | [] => []
  | s :: l' =>
      let p := item path i in
      if String.eqb s "" then addf p msgEmpty ++ stringList_loop path check (S i) seen l'
      else if (256 <? String.length s)%nat
      then addf p (msgTooLong 256) ++ stringList_loop path check (S i) seen l'
      else if string_in s seen
      then addf p (msgDuplicate s) ++ stringList_loop path check (S i) seen l'
      else check p s ++ stringList_loop path check (S i) (s :: seen) l'
  end.

Definition validator_stringList (path : string) (l : StringList)
    (check : string → string → list Problem) : list Problem :=
  match l with
  | None => []
  | Some [] => addf path msgEmpty
  | Some l => stringList_loop path check 0 [] l
  end.

Definition no_check (_ _ : string) : list Problem := [].

Definition validateCommon (name description : string) (bind : option Binding) : list Problem :=
  (if String.eqb name "" then addf "name" msgRequired
   else if negb (ValidName name) then addf "name" (msgPattern name) else []) ++
  (if (1024 <? String.length description)%nat then addf "description" (msgTooLong 1024) else []) ++
  match bind with
  | None => []
  | Some b =>
      (if String.eqb (b_Site b) "" then addf "bind.site" msgRequiredWhenBind else []) ++
      mjoin ((λ '(path, value),
               if (maxBindingFieldLength <? String.length value)%nat
               then addf path (msgTooLong (Z.of_nat maxBindingFieldLength)) else []) <$>
             [("bind.site", b_Site b); ("bind.client", b_Client b);
              ("bind.endpoint_group", b_EndpointGroup b)])
  end.

Definition validateExtends (name extends : string) : list Problem :=
  if String.eqb extends "" then []
  else if negb (ValidName extends) then addf "extends" (msgPattern extends)
  else if String.eqb extends name then addf "extends" msgExtendsSelf
  else [].

(** ** Integer ranges and matchers *)

Definition maxRangeBound : Z := 2 ^ 62.

Record IntRange := { ir_Gte : option Z; ir_Gt : option Z; ir_Lte : option Z; ir_Lt : option Z }.

Definition Bounds (r : IntRange) : Z * Z :=
  let lo := default int64_min (ir_Gte r) in
  match ir_Gt r with
  | Some g =>
      if (g =? int64_max)%Z then (int64_max, int64_min)
      else
        let lo := (g + 1)%Z in
        let hi := default int64_max (ir_Lte r) in
        match ir_Lt r with
        | Some l => if (l =? int64_min)%Z then (int64_max, int64_min) else (lo, l - 1)%Z
        | None => (lo, hi)
        end
  | None =>
      let hi := default int64_max (ir_Lte r) in
      match ir_Lt r with
      | Some l => if (l =? int64_min)%Z then (int64_max, int64_min) else (lo, l - 1)%Z
      | None => (lo, hi)
      end
  end.

Definition IntRange_Contains (r : IntRange) (v : Z) : bool :=
  let '(lo, hi) := Bounds r in (lo <=? v)%Z && (v <=? hi)%Z.

(** The problem of one bound, if any. *)
Definition bound_problem (path : string) (minV maxV : Z) (b : string * option Z) : list Problem :=
  match b.2 with
  | None => []
  | Some val =>
      if (maxRangeBound <=? maxV)%Z && (val <? minV)%Z
      then addf (field path b.1) (msgAtLeast minV val)
      else if (maxRangeBound <=? maxV)%Z && (maxV <? val)%Z
      then addf (field path b.1) (msgAtMost2p62 val)
      else if (val <? minV)%Z || (maxV <? val)%Z
      then addf (field path b.1) (msgBetween minV maxV val)
      else []
  end.

Definition IntRange_validate (r : IntRange) (path : string) (minV maxV : Z) : list Problem :=
  match ir_Gte r, ir_Gt r, ir_Lte r, ir_Lt r with
  | None, None, None, None => addf path msgRangeNone
  | _, _, _, _ =>
      let exclusive :=
        (match ir_Gte r, ir_Gt r with Some _, Some _ => addf path msgRangeGte | _, _ => [] end) ++
        (match ir_Lte r, ir_Lt r with Some _, Some _ => addf path msgRangeLte | _, _ => [] end) in
      let bounds := mjoin (bound_problem path minV maxV <$>
        [("gte", ir_Gte r); ("gt", ir_Gt r); ("lte", ir_Lte r); ("lt", ir_Lt r)]) in
      exclusive ++ bounds ++
      match bounds with
      | _ :: _ => []
      | [] =>
          let '(lo, hi) := Bounds r in
          let lo := if (lo <? minV)%Z then minV else lo in
          let hi := if (maxV <? hi)%Z then maxV else hi in
          if (hi <? lo)%Z then addf path msgRangeEmpty else []
      end
  end.

Record IntMatcher := { im_Values : list Z; im_Range : option IntRange }.

Definition StringList_Contains (l : list string) (s : string) : bool :=
  existsb (λ v, String.eqb v s) l.

Record URIMatcher := { um_Prefix : string; um_Regex : string }.

Definition RevertNone : string := "none".
Definition RevertEndpoint : string := "endpoint".
Definition RevertAll : string := "all".

Definition ValidRevertMode (m : string) : bool :=
  string_in m [RevertNone; RevertEndpoint; RevertAll].

Definition revertFromBool (b : bool) : string := if b then RevertEndpoint else RevertNone.

Definition isDecimalLiteral (s : bytes) : bool :=
  let s := match s with c :: s' => if bool_decide (c = "-"%char) then s' else s | [] => s end in
  match s with [] => false | _ => forallb (byte_in 48 57) s end.

Definition trim_prefix_byte (c : ascii) (s : bytes) : bytes :=
  match s with d :: s' => if bool_decide (d = c) then s' else s | [] => s end.

Definition hasLeadingZero (s : bytes) : bool :=
  let digits := trim_prefix_byte "+"%char (trim_prefix_byte "-"%char s) in
  (1 <? length digits)%nat && bool_decide (head digits = Some "0"%char)
  && isDecimalLiteral digits.

(** ** Defaults *)

Definition nilIfEmpty (l : StringList) : StringList :=
  match l with Some [] => None | _ => l end.
Definition setString (dst def : string) : string := if String.eqb dst "" then def else dst.
Definition setInt (dst def : Z) : Z := if (dst =? 0)%Z then def else dst.
Definition setDuration (dst def : Z) : Z := if (dst =? 0)%Z then def else dst.
Definition setFloat (dst def : float64) : float64 := if f_eqb dst f_zero then def else dst.

(** ** Lemmas *)

Lemma string_in_spec s l : string_in s l = true ↔ s ∈ l.
Proof.
  unfold string_in. rewrite existsb_exists, list_elem_of_In.
  setoid_rewrite String.eqb_eq. naive_solver.
Qed.

Lemma StringList_Contains_spec l s : StringList_Contains l s = true ↔ s ∈ l.
Proof.
  unfold StringList_Contains. rewrite existsb_exists, list_elem_of_In.
  setoid_rewrite String.eqb_eq. naive_solver.
Qed.

(** The ordinal of an outcome is its position in [Outcomes]. *)
Lemma outcomeIndex_lookup s i :
  outcomeIndex s = Z.of_nat i ↔ Outcomes !! i = Some s.
Proof.
  unfold outcomeIndex, Outcomes. split.
  - repeat case_match; bool_to_prop; subst; intros Hi; try lia;
      match type of Hi with ?z = _ => assert (i = Z.to_nat z) as -> by lia end; done.
  - intros Hi. do 12 (destruct i as [|i]; [injection Hi as <-; done|]). done.
Qed.

Lemma outcomeIndex_range s : (-1 ≤ outcomeIndex s < 12)%Z.
Proof. unfold outcomeIndex. repeat case_match; lia. Qed.

Lemma ValidOutcome_spec s : ValidOutcome s = true ↔ s ∈ Outcomes.
Proof.
  unfold ValidOutcome. rewrite Z.leb_le, list_elem_of_lookup. split.
  - intros H. exists (Z.to_nat (outcomeIndex s)). apply outcomeIndex_lookup. lia.
  - intros [i Hi]. apply outcomeIndex_lookup in Hi. lia.
Qed.

Lemma validator_result_none kind name ps : validator_result kind name ps = None ↔ ps = [].
Proof. by destruct ps. Qed.

Lemma validator_duration_nil path d lo hi :
  validator_duration path d lo hi = [] ↔
  d ≠ Permanent ∧ (lo ≤ d)%Z ∧ ((0 < hi)%Z → (d ≤ hi)%Z).
Proof.
  unfold validator_duration, IsPermanent, addf. repeat case_match; bool_to_prop; try naive_solver lia.
Qed.

Lemma validator_intRange_nil path n lo hi :
  validator_intRange path n lo hi = [] ↔ (lo ≤ n ≤ hi)%Z.
Proof.
  unfold validator_intRange, addf. destruct (n <? lo)%Z eqn:?, (hi <? n)%Z eqn:?; cbn; bool_to_prop;
    (split; [done || lia|lia || done]).
Qed.

Lemma validator_minInt_nil path n lo : validator_minInt path n lo = [] ↔ (lo ≤ n)%Z.
Proof.
  unfold validator_minInt, addf. destruct (n <? lo)%Z eqn:?; bool_to_prop; (split; [done || lia|lia || done]).
Qed.

Lemma validator_enum_nil path value allowed :
  validator_enum path value allowed = [] ↔ value ∈ allowed.
Proof.
  rewrite <- string_in_spec. unfold validator_enum, string_in. by destruct (existsb _ _).
Qed.

(** An integer range contains exactly the integers its bounds describe:
    [gt] takes precedence over [gte] and [lt] over [lte], and the extreme
    bounds [gt: MaxInt64] and [lt: MinInt64] contain nothing. *)
Theorem IntRange_Contains_exact r v :
  is_int64 v →
  IntRange_Contains r v = true ↔
  match ir_Gt r, ir_Gte r with
  | Some g, _ => (g < v)%Z
  | None, Some g => (g ≤ v)%Z
  | None, None => True
  end ∧
  match ir_Lt r, ir_Lte r with
  | Some l, _ => (v < l)%Z
  | None, Some l => (v ≤ l)%Z
  | None, None => True
  end.
Proof.
  intros Hv. unfold is_int64, int64_min, int64_max in Hv.
  unfold IntRange_Contains, Bounds, int64_min, int64_max.
  destruct r as [[a|] [b|] [c|] [d|]]; cbn;
    repeat case_match; simplify_eq; bool_to_prop; rewrite andb_true_iff, !Z.leb_le; lia.
Qed.

Lemma IntRange_Contains_exact_witness :
  is_int64 429 ∧
  (IntRange_Contains {| ir_Gte := Some 400; ir_Gt := None; ir_Lte := None; ir_Lt := Some 500 |}%Z 429 = true
   ↔ (400 ≤ 429)%Z ∧ (429 < 500)%Z).
Proof.
  assert (is_int64 429) as H by (unfold is_int64, int64_min, int64_max; lia).
  split; [exact H|].
  exact (IntRange_Contains_exact
    {| ir_Gte := Some 400; ir_Gt := None; ir_Lte := None; ir_Lt := Some 500 |}%Z 429 H).
Defined.

(** An accepted range is not empty between the limits. *)
Lemma IntRange_validate_inhabited r path minV maxV :
  IntRange_validate r path minV maxV = [] →
  ∃ v, (minV ≤ v ≤ maxV)%Z ∧ IntRange_Contains r v = true.
Proof.
  intros H.
  assert (∀ lo hi, Bounds r = (lo, hi) →
    (Z.max lo minV ≤ Z.min hi maxV)%Z →
    ∃ v, (minV ≤ v ≤ maxV)%Z ∧ IntRange_Contains r v = true) as Hfin.
  { intros lo hi Hb Hle. exists (Z.max lo minV). unfold IntRange_Contains. rewrite Hb.
    rewrite andb_true_iff, !Z.leb_le. lia. }
  unfold IntRange_validate in H.
  destruct (Bounds r) as [lo hi]. apply (Hfin lo hi eq_refl).
  repeat case_match; simplify_eq/=; try done;
    repeat match goal with H : _ ++ _ = [] |- _ => apply app_eq_nil in H as [? ?] end;
    repeat case_match; bool_to_prop; try done; lia.
Qed.

Lemma validator_stringList_loop_nil path check l i seen :
  stringList_loop path check i seen l = [] →
  NoDup l ∧ (∀ s, s ∈ l → s ≠ "" ∧ (String.length s ≤ 256)%nat ∧ s ∉ seen ∧ ∃ p, check p s = []).
Proof.
  revert i seen. induction l as [|s l IH]; intros i seen; cbn [stringList_loop];
    [split; [constructor|set_solver]|]. cbv zeta.
  destruct (String.eqb s "") eqn:H1; [done|].
  destruct (256 <? String.length s)%nat eqn:H2; [done|].
  destruct (string_in s seen) eqn:H3; [done|]. intros [Hc Hl]%app_eq_nil.
  destruct (IH _ _ Hl) as [Hnd Hall]. bool_to_prop.
  apply not_true_iff_false in H3. rewrite string_in_spec in H3. split.
  - apply NoDup_cons. split; [|done]. intros Hin. destruct (Hall s Hin) as (_ & _ & Hs & _). set_solver.
  - intros t [->|Ht]%elem_of_cons; [eauto|]. destruct (Hall t Ht) as (? & ? & ? & ?). set_solver.
Qed.

Lemma DefaultBlame_valid outcome : ValidBlame (DefaultBlame outcome) = true.
Proof. unfold DefaultBlame. by repeat case_match. Qed.
