(* ===== verification/PolicySignal.v ===== *)
(** * Signal policies (internal/policy: signal.go, classify.go)

    [CompileSignal] validates a chain of signal policies and compiles their
    rules; [Classify] returns the outcome of the first compiled rule that
    matches a report.  The compiled form (a bit set of statuses, inclusive
    ranges) is shown to agree with the conditions as written. *)

From S2P Require Import Prelude GoStrings GoFloat PolicyBase.

Definition maxHTTPStatus : Z := 999.
Definition maxURIPatternLen : nat := 1024.

Record SignalWhen := {
  sw_HTTPStatus : option IntMatcher;
  sw_BusinessCode : StringList;
  sw_ErrorKind : StringList;
  sw_Markers : StringList;
  sw_URI : option URIMatcher;
  sw_Method : StringList;
  sw_LatencyMs : option IntRange;
  sw_ResponseBytes : option IntRange;
}.

Record SignalRule := {
  sr_Name : string;
  sr_When : SignalWhen;
  sr_Outcome : string;
  sr_Blame : string;
}.

Record SignalSpec := {
  ss_Name : string;
  ss_Description : string;
  ss_Bind : option Binding;
  ss_Extends : string;
  ss_TrustOutcomeHint : bool;
  ss_Rules : list SignalRule;
}.

Definition newSignalBase : SignalSpec :=
  {| ss_Name := ""; ss_Description := ""; ss_Bind := None; ss_Extends := "";
     ss_TrustOutcomeHint := false; ss_Rules := [] |}.

Record ReportFacts := {
  rf_URI : string;
  rf_Method : string;
  rf_HTTPStatus : Z;
  rf_BusinessCode : string;
  rf_ErrorKind : string;
  rf_Markers : list string;
  rf_OutcomeHint : string;
  rf_LatencyMs : Z;
  rf_ResponseBytes : Z;
}.

Record Classification := {
  cl_Outcome : string;
  cl_Blame : string;
  cl_RuleIndex : Z;
  cl_RuleName : string;
}.

Inductive statusMode := statusAny | statusList | statusRange.

Record int64Range := { i64_set : bool; i64_lo : Z; i64_hi : Z }.

Definition int64Range_contains (r : int64Range) (v : Z) : bool :=
  (i64_lo r <=? v)%Z && (v <=? i64_hi r)%Z.

Definition newInt64Range (r : option IntRange) : int64Range :=
  match r with
  | None => {| i64_set := false; i64_lo := 0; i64_hi := 0 |}
  | Some r => let '(lo, hi) := Bounds r in {| i64_set := true; i64_lo := lo; i64_hi := hi |}
  end.

(** ** String helpers of classification *)

Definition ruleLabel (policyName : string) (i : nat) (name : string) : string :=
  if negb (String.eqb name "") then name
  else policyName +:+ ".rules[" +:+ pretty i +:+ "]".

Definition containsString (l : list string) (s : string) : bool :=
  if String.eqb s "" then false else existsb (λ v, String.eqb v s) l.

(** The simple case folding of the runes that fold to an ASCII letter: the
    capitals, the long s (U+017F) and the Kelvin sign (U+212A). *)
Definition fold_rune (r : Z) : Z :=
  if (65 <=? r)%Z && (r <=? 90)%Z then (r + 32)%Z
  else if (r =? 383)%Z then 115%Z
  else if (r =? 8490)%Z then 107%Z
  else r.

Definition rune_values (s : string) : list Z :=
  (λ c, (DecodeRuneInString c).1) <$> runes (bs s).

(** [strings.EqualFold v s] where [v] consists of ASCII letters, as every
    method of a validated rule does. *)
Definition EqualFold (v s : string) : bool :=
  bool_decide (fold_rune <$> rune_values v = fold_rune <$> rune_values s).

Definition containsFold (l : list string) (s : string) : bool :=
  if String.eqb s "" then false else existsb (λ v, EqualFold v s) l.

Definition anyMarker (ruleMarkers reported : list string) : bool :=
  existsb (containsString ruleMarkers) reported.

Definition validMethodToken (m : string) : bool :=
  if String.eqb m "" || (16 <? String.length m)%nat then false
  else forallb (λ c, byte_in 65 90 c || byte_in 97 122 c) (bs m).

(** The names seen so far with the index of their rule. *)
Definition validateRuleName (path name : string) (i : nat) (seen : list (string * nat)) :
    list Problem * list (string * nat) :=
  if String.eqb name "" then ([], seen)
  else if negb (ValidName name) then (addf (field path "name") (msgPattern name), seen)
  else match find (λ e, String.eqb e.1 name) seen with
  | Some (_, prev) => (addf (field path "name") (msgDupName prev name), seen)
  | None => ([], (name, i) :: seen)
  end.

(** ** Validation *)

Section engine.
Context `{RE : RegexEngine}.

Definition status_validate (path : string) (m : IntMatcher) : list Problem :=
  (match im_Range m with
   | Some r =>
       let ps := IntRange_validate r path 0 maxHTTPStatus in
       ps ++ (match ps with
              | [] => if ((Bounds r).2 <? 1)%Z then addf path msgRangeNever else []
              | _ => []
              end)
   | None => match im_Values m with [] => addf path msgEmpty | _ => [] end
   end) ++
  mjoin (imap (λ i code, if (code <? 0)%Z || (maxHTTPStatus <? code)%Z
                         then addf (item path i) (msgBetween 0 maxHTTPStatus code) else [])
    (im_Values m)).

Definition uri_validate (p : string) (u : URIMatcher) : list Problem :=
  let noPrefix := String.eqb (um_Prefix u) "" in
  let noRegex := String.eqb (um_Regex u) "" in
  if noPrefix && noRegex then addf p msgURINone
  else if negb noPrefix && negb noRegex then addf p msgURIBoth
  else if negb noPrefix then
    (if negb (String.prefix "/" (um_Prefix u)) then addf (field p "prefix") msgURISlash else []) ++
    (if (maxURIPatternLen <? String.length (um_Prefix u))%nat
     then addf (field p "prefix") (msgTooLong (Z.of_nat maxURIPatternLen)) else [])
  else if (maxURIPatternLen <? String.length (um_Regex u))%nat
  then addf (field p "regex") (msgTooLong (Z.of_nat maxURIPatternLen))
  else match regexp_Compile (bs (um_Regex u)) with
       | Err e => addf (field p "regex") (msgRegex e)
       | Ok _ => []
       end.

Definition SignalWhen_validate (w : SignalWhen) (path : string) : list Problem :=
  (match sw_HTTPStatus w with
   | Some m => status_validate (field path "http_status") m
   | None => []
   end) ++
  validator_stringList (field path "business_code") (sw_BusinessCode w) no_check ++
  validator_stringList (field path "error_kind") (sw_ErrorKind w)
    (λ p kind, if negb (ValidErrorKind kind) then addf p (msgEnum ErrorKinds kind) else []) ++
  validator_stringList (field path "markers") (sw_Markers w) no_check ++
  (match sw_URI w with Some u => uri_validate (field path "uri") u | None => [] end) ++
  validator_stringList (field path "method") (sw_Method w)
    (λ p m, if negb (validMethodToken m) then addf p (msgMethod m) else []) ++
  (match sw_LatencyMs w with
   | Some r => IntRange_validate r (field path "latency_ms") 0 maxRangeBound
   | None => []
   end) ++
  (match sw_ResponseBytes w with
   | Some r => IntRange_validate r (field path "response_bytes") 0 maxRangeBound
   | None => []
   end).

Fixpoint signal_rules_validate (i : nat) (names : list (string * nat)) (rules : list SignalRule) :
    list Problem :=
  match rules with
  | [] => []
  | r :: rules' =>
      let path := item "rules" i in
      let '(ps, names) := validateRuleName path (sr_Name r) i names in
      ps ++
      (if String.eqb (sr_Outcome r) "" then addf (field path "outcome") msgRequired
       else if negb (ValidOutcome (sr_Outcome r))
       then addf (field path "outcome") (msgEnum Outcomes (sr_Outcome r)) else []) ++
      (if negb (String.eqb (sr_Blame r) "") && negb (ValidBlame (sr_Blame r))
       then addf (field path "blame") (msgEnum [BlameNone; BlameIdentity; BlameProxy; BlameBoth] (sr_Blame r))
       else []) ++
      SignalWhen_validate (sr_When r) (field path "when") ++
      signal_rules_validate (S i) names rules'
  end.

Definition SignalSpec_problems (s : SignalSpec) : list Problem :=
  validateCommon (ss_Name s) (ss_Description s) (ss_Bind s) ++
  validateExtends (ss_Name s) (ss_Extends s) ++
  signal_rules_validate 0 [] (ss_Rules s).

Definition SignalSpec_Validate (s : option SignalSpec) : option ValidationError :=
  match s with
  | None => Some {| ve_Kind := KindSignal; ve_Name := ""; ve_Problems := addf "" msgNilSpec |}
  | Some s => validator_result KindSignal (ss_Name s) (SignalSpec_problems s)
  end.

(** ** Compilation *)

Record signalMatcher := {
  sm_name : string;
  sm_outcome : string;
  sm_blame : string;
  sm_status : statusMode;
  sm_statusBits : list Z;
  sm_statusRange : int64Range;
  sm_businessCodes : StringList;
  sm_errorKinds : StringList;
  sm_markers : StringList;
  sm_methods : StringList;
  sm_uriPrefix : string;
  sm_uriRegex : option Regexp;
  sm_latency : int64Range;
  sm_bytes : int64Range;
}.

Record CompiledSignal := { cs_trustHint : bool; cs_rules : list signalMatcher }.

Inductive compileErr :=
| ceEmpty
| ceNil (i : nat)
| ceInvalid (name : string) (e : ValidationError)
| ceRegex (name : string) (i : nat) (err : string).

Definition empty_bits : list Z := replicate 16 0%Z.

(** One iteration of the loop that sets the status bits. *)
Definition set_status (bits : list Z) (code : Z) : list Z :=
  if (0 <=? code)%Z && (code <? Z.of_nat (length bits) * 64)%Z then
    let i := Z.to_nat (Z.shiftr code 6) in
    <[i := Z.lor (nth i bits 0%Z) (Z.shiftl 1 (Z.land code 63))]> bits
  else bits.

Definition test_status (bits : list Z) (code : Z) : bool :=
  negb ((code <? 0)%Z || (Z.of_nat (length bits) * 64 <=? code)%Z
        || (Z.land (nth (Z.to_nat (Z.shiftr code 6)) bits 0%Z)
              (Z.shiftl 1 (Z.land code 63)) =? 0)%Z).

Definition compileSignalRule (policyName : string) (i : nat) (r : SignalRule) :
    result compileErr signalMatcher :=
  let w := sr_When r in
  let '(status, bits, range) :=
    match sw_HTTPStatus w with
    | None => (statusAny, empty_bits, newInt64Range None)
    | Some hs =>
        match im_Range hs with
        | Some _ => (statusRange, empty_bits, newInt64Range (im_Range hs))
        | None => (statusList, foldl set_status empty_bits (im_Values hs), newInt64Range None)
        end
    end in
  let mk prefix re := {|
    sm_name := ruleLabel policyName i (sr_Name r);
    sm_outcome := sr_Outcome r;
    sm_blame := if String.eqb (sr_Blame r) "" then DefaultBlame (sr_Outcome r) else sr_Blame r;
    sm_status := status; sm_statusBits := bits; sm_statusRange := range;
    sm_businessCodes := sw_BusinessCode w; sm_errorKinds := sw_ErrorKind w;
    sm_markers := sw_Markers w; sm_methods := sw_Method w;
    sm_uriPrefix := prefix; sm_uriRegex := re;
    sm_latency := newInt64Range (sw_LatencyMs w);
    sm_bytes := newInt64Range (sw_ResponseBytes w) |} in
  match sw_URI w with
  | None => Ok (mk "" None)
  | Some u =>
      if negb (String.eqb (um_Regex u) "") then
        match regexp_Compile (bs (um_Regex u)) with
        | Err e => Err (ceRegex policyName i e)
        | Ok re => Ok (mk "" (Some re))
        end
      else Ok (mk (um_Prefix u) None)
  end.

Fixpoint signal_chain_check (i : nat) (chain : list (option SignalSpec)) :
    result compileErr (list SignalSpec) :=
  match chain with
  | [] => Ok []
  | None :: _ => Err (ceNil i)
  | Some s :: chain' =>
      match SignalSpec_Validate (Some s) with
      | Some e => Err (ceInvalid (ss_Name s) e)
      | None =>
          match signal_chain_check (S i) chain' with
          | Err e => Err e
          | Ok specs => Ok (s :: specs)
          end
      end
  end.

Fixpoint compile_rules (policyName : string) (i : nat) (rules : list SignalRule) :
    result compileErr (list signalMatcher) :=
  match rules with
  | [] => Ok []
  | r :: rules' =>
      match compileSignalRule policyName i r with
      | Err e => Err e
      | Ok m =>
          match compile_rules policyName (S i) rules' with
          | Err e => Err e
          | Ok ms => Ok (m :: ms)
          end
      end
  end.

Fixpoint compile_chain (chain : list SignalSpec) : result compileErr (list signalMatcher) :=
  match chain with
  | [] => Ok []
  | s :: chain' =>
      match compile_rules (ss_Name s) 0 (ss_Rules s) with
      | Err e => Err e
      | Ok ms =>
          match compile_chain chain' with
          | Err e => Err e
          | Ok ms' => Ok (ms ++ ms')
          end
      end
  end.

Definition CompileSignal (chain : list (option SignalSpec)) : result compileErr CompiledSignal :=
  match chain with
  | [] => Err ceEmpty
  | _ =>
      match signal_chain_check 0 chain with
      | Err e => Err e
      | Ok specs =>
          match compile_chain specs with
          | Err e => Err e
          | Ok ms =>
              Ok {| cs_trustHint := match last specs with
                                    | Some leaf => ss_TrustOutcomeHint leaf
                                    | None => false
                                    end;
                    cs_rules := ms |}
          end
      end
  end.

(** ** Matching *)

(** A list condition holds when it is absent or satisfied. *)
Definition list_cond (l : StringList) (p : list string → bool) : bool :=
  match l with None => true | Some l => p l end.

Definition signalMatcher_matches (m : signalMatcher) (f : ReportFacts) : bool :=
  (match sm_status m with
   | statusAny => true
   | statusList => test_status (sm_statusBits m) (rf_HTTPStatus f)
   | statusRange =>
       negb ((rf_HTTPStatus f <=? 0)%Z
             || negb (int64Range_contains (sm_statusRange m) (rf_HTTPStatus f)))
   end) &&
  list_cond (sm_errorKinds m) (λ l, containsString l (rf_ErrorKind f)) &&
  list_cond (sm_businessCodes m) (λ l, containsString l (rf_BusinessCode f)) &&
  list_cond (sm_markers m) (λ l, anyMarker l (rf_Markers f)) &&
  list_cond (sm_methods m) (λ l, containsFold l (rf_Method f)) &&
  (String.eqb (sm_uriPrefix m) "" || String.prefix (sm_uriPrefix m) (rf_URI f)) &&
  (match sm_uriRegex m with None => true | Some re => MatchString re (bs (rf_URI f)) end) &&
  (negb (i64_set (sm_latency m)) || int64Range_contains (sm_latency m) (rf_LatencyMs f)) &&
  (negb (i64_set (sm_bytes m)) || int64Range_contains (sm_bytes m) (rf_ResponseBytes f)).

Fixpoint first_rule (i : Z) (rules : list signalMatcher) (f : ReportFacts) : option Classification :=
  match rules with
  | [] => None
  | m :: rules' =>
      if signalMatcher_matches m f then
        Some {| cl_Outcome := sm_outcome m; cl_Blame := sm_blame m; cl_RuleIndex := i;
                cl_RuleName := sm_name m |}
      else first_rule (i + 1) rules' f
  end.

Definition unmatched (outcome : string) : Classification :=
  {| cl_Outcome := outcome; cl_Blame := DefaultBlame outcome; cl_RuleIndex := -1; cl_RuleName := "" |}.

Definition Classify (c : option CompiledSignal) (f : ReportFacts) : Classification :=
  match c with
  | None => unmatched OutcomeUnknown
  | Some c =>
      match first_rule 0 (cs_rules c) f with
      | Some cl => cl
      | None =>
          if cs_trustHint c && ValidOutcome (rf_OutcomeHint f) then unmatched (rf_OutcomeHint f)
          else unmatched OutcomeUnknown
      end
  end.

Definition RuleCount (c : option CompiledSignal) : nat :=
  match c with None => 0 | Some c => length (cs_rules c) end.

Definition TrustOutcomeHint (c : option CompiledSignal) : bool :=
  match c with None => false | Some c => cs_trustHint c end.
End engine.

(** ** The status bit set *)

Lemma testbit_lor_shift z c k :
  (0 ≤ c)%Z → (0 ≤ k)%Z →
  Z.testbit (Z.lor z (Z.shiftl 1 c)) k = Z.testbit z k || (k =? c)%Z.
Proof.
  intros Hc Hk. rewrite Z.lor_spec. f_equal. rewrite Z.shiftl_1_l, Z.pow2_bits_eqb by done.
  apply Z.eqb_sym.
Qed.

Lemma land_shift_zero z k : (0 ≤ k)%Z → (Z.land z (Z.shiftl 1 k) =? 0)%Z = negb (Z.testbit z k).
Proof.
  intros Hk. rewrite Z.shiftl_1_l. destruct (Z.testbit z k) eqn:Hb; cbn.
  - apply Z.eqb_neq. intros H. apply (f_equal (λ x, Z.testbit x k)) in H.
    by rewrite Z.land_spec, Hb, Z.pow2_bits_true, Z.bits_0 in H by done.
  - apply Z.eqb_eq. apply Z.bits_inj'. intros n Hn.
    rewrite Z.land_spec, Z.pow2_bits_eqb, Z.bits_0 by done.
    destruct (Z.eqb_spec k n) as [->|]; [by rewrite Hb|apply andb_false_r].
Qed.

Lemma test_status_in_range bits code :
  (0 ≤ code < Z.of_nat (length bits) * 64)%Z →
  test_status bits code =
  Z.testbit (nth (Z.to_nat (Z.shiftr code 6)) bits 0%Z) (Z.land code 63).
Proof.
  intros Hc. unfold test_status.
  rewrite (proj2 (Z.ltb_ge _ _)), (proj2 (Z.leb_gt _ _)) by lia. cbn [orb].
  rewrite land_shift_zero by (apply Z.land_nonneg; lia). apply negb_involutive.
Qed.

Lemma code_split c d : (0 ≤ c)%Z → (0 ≤ d)%Z →
  Z.shiftr c 6 = Z.shiftr d 6 → Z.land c 63 = Z.land d 63 → c = d.
Proof.
  intros Hc Hd. rewrite !Z.shiftr_div_pow2 by lia.
  change 63%Z with (Z.ones 6). rewrite !Z.land_ones by lia.
  intros H1 H2. rewrite (Z.div_mod c (2 ^ 6)), (Z.div_mod d (2 ^ 6)) by lia. congruence.
Qed.

Lemma length_set_status bits code : length (set_status bits code) = length bits.
Proof. unfold set_status. case_match; [apply length_insert|done]. Qed.

Lemma test_set_status bits c d :
  (0 ≤ d < Z.of_nat (length bits) * 64)%Z →
  test_status (set_status bits c) d = test_status bits d || (c =? d)%Z.
Proof.
  intros Hd. rewrite !test_status_in_range by (rewrite ?length_set_status; lia).
  unfold set_status. destruct ((0 <=? c)%Z && _) eqn:Hc.
  2:{ destruct (Z.eqb_spec c d) as [->|]; [|by rewrite orb_false_r].
      apply andb_false_iff in Hc as [?|?]; bool_to_prop; lia. }
  bool_to_prop.
  assert (∀ x, (0 ≤ x)%Z → (0 ≤ Z.land x 63 < 64)%Z) as Hland.
  { intros x Hx. change 63%Z with (Z.ones 6). rewrite Z.land_ones by lia.
    change 64%Z with (2 ^ 6)%Z. apply Z.mod_pos_bound. lia. }
  set (i := Z.to_nat (Z.shiftr c 6)). set (j := Z.to_nat (Z.shiftr d 6)).
  assert (0 ≤ Z.shiftr c 6 < Z.of_nat (length bits))%Z as Hi.
  { rewrite Z.shiftr_div_pow2 by lia. split; [apply Z.div_pos; lia|].
    apply Z.div_lt_upper_bound; lia. }
  assert (0 ≤ Z.shiftr d 6)%Z by (apply Z.shiftr_nonneg; lia).
  rewrite !nth_lookup. destruct (decide (i = j)) as [Hij|Hij].
  - rewrite <- Hij, list_lookup_insert_eq by lia. cbn.
    rewrite testbit_lor_shift by (apply Hland; lia).
    f_equal. destruct (Z.eqb_spec (Z.land d 63) (Z.land c 63)) as [He|He];
      destruct (Z.eqb_spec c d) as [Hcd|Hcd]; try done; subst.
    + exfalso. apply Hcd. apply code_split; lia || done.
    + done.
  - rewrite list_lookup_insert_ne by done.
    destruct (Z.eqb_spec c d) as [->|]; [done|]. by rewrite orb_false_r.
Qed.

Lemma test_status_fold vs bits d :
  (0 ≤ d < Z.of_nat (length bits) * 64)%Z →
  test_status (foldl set_status bits vs) d = test_status bits d || bool_decide (d ∈ vs).
Proof.
  revert bits. induction vs as [|c vs IH]; intros bits Hd; cbn.
  - by rewrite orb_false_r.
  - rewrite IH, test_set_status by (rewrite ?length_set_status; lia).
    rewrite <- orb_assoc. f_equal. apply eq_bool_prop_intro.
    rewrite Is_true_true, Is_true_true, orb_true_iff, Z.eqb_eq, !bool_decide_eq_true. set_solver.
Qed.

Lemma length_fold_status vs bits : length (foldl set_status bits vs) = length bits.
Proof. revert bits. induction vs as [|c vs IH]; intros bits; cbn; [done|]. by rewrite IH, length_set_status. Qed.

Lemma test_status_empty d : test_status empty_bits d = false.
Proof.
  unfold test_status, empty_bits. rewrite nth_lookup.
  assert (default 0%Z (replicate 16 0%Z !! Z.to_nat (Z.shiftr d 6)) = 0%Z) as ->.
  { destruct (replicate 16 0%Z !! _) eqn:H; [|done]. by apply lookup_replicate in H as [-> _]. }
  rewrite Z.land_0_l. cbn. by rewrite orb_true_r.
Qed.

Lemma test_status_list vs d :
  test_status (foldl set_status empty_bits vs) d = bool_decide (d ∈ vs ∧ 0 ≤ d < 1024)%Z.
Proof.
  assert (Z.of_nat (length (foldl set_status empty_bits vs)) * 64 = 1024)%Z as Hlen
    by by rewrite length_fold_status.
  destruct (decide (0 ≤ d < 1024)%Z) as [Hd|Hd].
  - rewrite test_status_fold by exact Hd. rewrite test_status_empty. cbn.
    apply bool_decide_ext. naive_solver.
  - rewrite bool_decide_false by naive_solver. unfold test_status. rewrite Hlen.
    destruct (d <? 0)%Z eqn:H1; [done|]. destruct (1024 <=? d)%Z eqn:H2; [done|].
    bool_to_prop. lia.
Qed.

(** ** The conditions as written *)

Section correctness.
Context `{RE : RegexEngine}.

Definition status_holds (m : option IntMatcher) (status : Z) : Prop :=
  match m with
  | None => True
  | Some m =>
      match im_Range m with
      | Some r => (0 < status)%Z ∧ IntRange_Contains r status = true
      | None => status ∈ im_Values m
      end
  end.

(** A present list condition holds when the reported value is not empty and
    related to a listed one. *)
Definition any_listed (l : StringList) (s : string) (R : string → string → Prop) : Prop :=
  match l with None => True | Some l => s ≠ "" ∧ ∃ v, v ∈ l ∧ R v s end.

Definition uri_holds (u : option URIMatcher) (uri : string) : Prop :=
  match u with
  | None => True
  | Some u =>
      if String.eqb (um_Regex u) "" then String.prefix (um_Prefix u) uri = true
      else ∃ re, regexp_Compile (bs (um_Regex u)) = Ok re ∧ MatchString re (bs uri) = true
  end.

Definition range_holds (r : option IntRange) (v : Z) : Prop :=
  match r with None => True | Some r => IntRange_Contains r v = true end.

Definition when_holds (w : SignalWhen) (f : ReportFacts) : Prop :=
  status_holds (sw_HTTPStatus w) (rf_HTTPStatus f) ∧
  any_listed (sw_ErrorKind w) (rf_ErrorKind f) (=) ∧
  any_listed (sw_BusinessCode w) (rf_BusinessCode f) (=) ∧
  (match sw_Markers w with
   | None => True
   | Some l => ∃ r, r ∈ rf_Markers f ∧ r ≠ "" ∧ r ∈ l
   end) ∧
  any_listed (sw_Method w) (rf_Method f) (λ v s, EqualFold v s = true) ∧
  uri_holds (sw_URI w) (rf_URI f) ∧
  range_holds (sw_LatencyMs w) (rf_LatencyMs f) ∧
  range_holds (sw_ResponseBytes w) (rf_ResponseBytes f).

Lemma containsString_spec l s : containsString l s = true ↔ s ≠ "" ∧ s ∈ l.
Proof.
  unfold containsString. destruct (String.eqb s "") eqn:H; bool_to_prop; [naive_solver|].
  fold (StringList_Contains l s). rewrite StringList_Contains_spec. naive_solver.
Qed.

Lemma containsFold_spec l s :
  containsFold l s = true ↔ s ≠ "" ∧ ∃ v, v ∈ l ∧ EqualFold v s = true.
Proof.
  unfold containsFold. destruct (String.eqb s "") eqn:H; bool_to_prop; [naive_solver|].
  rewrite existsb_exists. setoid_rewrite list_elem_of_In. naive_solver.
Qed.

Lemma anyMarker_spec l reported :
  anyMarker l reported = true ↔ ∃ r, r ∈ reported ∧ r ≠ "" ∧ r ∈ l.
Proof.
  unfold anyMarker. rewrite existsb_exists. setoid_rewrite containsString_spec.
  setoid_rewrite list_elem_of_In. done.
Qed.

Lemma newInt64Range_holds r v :
  negb (i64_set (newInt64Range r)) || int64Range_contains (newInt64Range r) v = true ↔
  range_holds r v.
Proof.
  unfold range_holds, newInt64Range, int64Range_contains, IntRange_Contains.
  destruct r as [r|]; [|done]. by destruct (Bounds r).
Qed.

(** The statuses of a validated list are in the range of the bit set. *)
Definition statuses_ok (m : option IntMatcher) : Prop :=
  match m with
  | Some m => im_Range m = None → ∀ c, c ∈ im_Values m → (0 ≤ c ≤ maxHTTPStatus)%Z
  | None => True
  end.

Lemma list_cond_spec (l : StringList) (p : list string → bool) (Q : list string → Prop) :
  (∀ l, p l = true ↔ Q l) →
  list_cond l p = true ↔ match l with None => True | Some l => Q l end.
Proof. intros HQ. destruct l; cbn; [apply HQ|done]. Qed.

Lemma containsString_listed l s : containsString l s = true ↔ s ≠ "" ∧ ∃ v, v ∈ l ∧ v = s.
Proof. rewrite containsString_spec. naive_solver. Qed.

(** The compiled form of the status condition. *)
Definition status_compiled (m : option IntMatcher) : statusMode * list Z * int64Range :=
  match m with
  | None => (statusAny, empty_bits, newInt64Range None)
  | Some hs =>
      match im_Range hs with
      | Some _ => (statusRange, empty_bits, newInt64Range (im_Range hs))
      | None => (statusList, foldl set_status empty_bits (im_Values hs), newInt64Range None)
      end
  end.

Lemma status_compiled_holds m status bits range code :
  statuses_ok m → status_compiled m = (status, bits, range) →
  match status with
  | statusAny => true
  | statusList => test_status bits code
  | statusRange => negb ((code <=? 0)%Z || negb (int64Range_contains range code))
  end = true ↔ status_holds m code.
Proof.
  intros Hst. unfold status_compiled, status_holds, statuses_ok in *.
  destruct m as [hs|]; [|by intros [= <- <- <-]].
  destruct (im_Range hs) as [rg|]; intros [= <- <- <-].
  - unfold int64Range_contains, newInt64Range, IntRange_Contains. destruct (Bounds rg) as [lo hi]. cbn.
    rewrite negb_true_iff, orb_false_iff, negb_false_iff, Z.leb_gt. done.
  - rewrite test_status_list, bool_decide_eq_true. split; [naive_solver|].
    intros Hin. split; [done|]. specialize (Hst eq_refl _ Hin). unfold maxHTTPStatus in Hst. lia.
Qed.

Lemma prefix_empty s : String.prefix "" s = true.
Proof. by destruct s. Qed.

Lemma compileSignalRule_matches name i r m f :
  statuses_ok (sw_HTTPStatus (sr_When r)) →
  compileSignalRule name i r = Ok m →
  signalMatcher_matches m f = true ↔ when_holds (sr_When r) f.
Proof.
  intros Hst Hc. unfold compileSignalRule in Hc. set (w := sr_When r) in *.
  fold (status_compiled (sw_HTTPStatus w)) in Hc.
  destruct (status_compiled (sw_HTTPStatus w)) as [[status bits] range] eqn:Hs.
  pose proof (status_compiled_holds _ _ _ _ (rf_HTTPStatus f) Hst Hs) as Hstatus.
  unfold when_holds. rewrite <- Hstatus, <- !newInt64Range_holds.
  unfold any_listed, uri_holds, signalMatcher_matches.
  rewrite !andb_true_iff, !(list_cond_spec _ _ _ (λ l, containsString_listed l _)),
    (list_cond_spec _ _ _ (λ l, anyMarker_spec l _)),
    (list_cond_spec _ _ _ (λ l, containsFold_spec l _)).
  destruct (sw_URI w) as [u|]; [|injection Hc as <-; cbn [String.eqb orb]; cbn -[test_status int64Range_contains newInt64Range]; tauto].
  destruct (String.eqb (um_Regex u) "") eqn:Hre; cbn [negb] in Hc.
  - injection Hc as <-. cbn -[test_status int64Range_contains newInt64Range].
    destruct (String.eqb (um_Prefix u) "") eqn:Hp; cbn [orb]; [|tauto].
    bool_to_prop. rewrite Hp, prefix_empty. tauto.
  - destruct (regexp_Compile (bs (um_Regex u))) as [re|] eqn:Hcomp; [|done].
    injection Hc as <-. cbn -[test_status int64Range_contains newInt64Range]. naive_solver.
Qed.

(** ** Validated rules *)

(** What validation guarantees about a rule and compilation relies on. *)
Definition rule_ok (r : SignalRule) : Prop :=
  ValidOutcome (sr_Outcome r) = true ∧
  (sr_Blame r = "" ∨ ValidBlame (sr_Blame r) = true) ∧
  statuses_ok (sw_HTTPStatus (sr_When r)) ∧
  match sw_URI (sr_When r) with
  | Some u => um_Regex u ≠ "" → ∃ re, regexp_Compile (bs (um_Regex u)) = Ok re
  | None => True
  end.

Lemma mjoin_nil {A} (ls : list (list A)) : mjoin ls = [] → ∀ l, l ∈ ls → l = [].
Proof.
  induction ls as [|l ls IH]; [set_solver|]. cbn. intros [-> H]%app_eq_nil l' [->|Hl]%elem_of_cons; auto.
Qed.

Lemma status_validate_ok path m : status_validate path m = [] → statuses_ok (Some m).
Proof.
  unfold status_validate. intros [_ Hv]%app_eq_nil _ c [i Hi]%list_elem_of_lookup.
  assert ((λ i code, if (code <? 0)%Z || (maxHTTPStatus <? code)%Z
    then addf (item path i) (msgBetween 0 maxHTTPStatus code) else []) i c = []) as Hc.
  { apply (mjoin_nil _ Hv). apply list_elem_of_lookup. exists i. by rewrite list_lookup_imap, Hi. }
  cbn in Hc. case_match; [done|]. bool_to_prop. lia.
Qed.

Lemma uri_validate_ok path u :
  uri_validate path u = [] → um_Regex u ≠ "" → ∃ re, regexp_Compile (bs (um_Regex u)) = Ok re.
Proof.
  unfold uri_validate. intros H Hne. apply String.eqb_neq in Hne. rewrite Hne in H. cbn in H.
  destruct (String.eqb (um_Prefix u) ""); cbn in H; [|done].
  case_match; [done|]. destruct (regexp_Compile _); [eauto|done].
Qed.

Lemma signal_rules_ok i names rules :
  signal_rules_validate i names rules = [] → Forall rule_ok rules.
Proof.
  revert i names. induction rules as [|r rules IH]; intros i names; [constructor|].
  cbn [signal_rules_validate]. cbv zeta.
  destruct (validateRuleName _ _ _ _) as [ps names'].
  intros [_ [Ho [Hb [Hw Hr]%app_eq_nil]%app_eq_nil]%app_eq_nil]%app_eq_nil.
  constructor; [|by eapply IH]. unfold SignalWhen_validate in Hw.
  apply app_eq_nil in Hw as [Hs Hw]. do 3 apply app_eq_nil in Hw as [_ Hw].
  apply app_eq_nil in Hw as [Hu _]. split_and!.
  - destruct (String.eqb (sr_Outcome r) ""); [done|].
    destruct (ValidOutcome (sr_Outcome r)); done.
  - destruct (String.eqb (sr_Blame r) "") eqn:He; [left; by apply String.eqb_eq|right].
    destruct (ValidBlame (sr_Blame r)); done.
  - destruct (sw_HTTPStatus (sr_When r)); [by eapply status_validate_ok|done].
  - destruct (sw_URI (sr_When r)); [by eapply uri_validate_ok|done].
Qed.

Lemma SignalSpec_rules_ok s :
  SignalSpec_Validate (Some s) = None → Forall rule_ok (ss_Rules s).
Proof.
  intros [_ [_ Hr]%app_eq_nil]%validator_result_none%app_eq_nil. by eapply signal_rules_ok.
Qed.

(** ** Chains *)

(** The rules of a chain in order, with their labels. *)
Definition chain_rules (specs : list SignalSpec) : list (string * SignalRule) :=
  mjoin ((λ s, imap (λ i r, (ruleLabel (ss_Name s) i (sr_Name r), r)) (ss_Rules s)) <$> specs).

Lemma signal_chain_check_spec i chain specs :
  signal_chain_check i chain = Ok specs ↔
  chain = Some <$> specs ∧ Forall (λ s, SignalSpec_Validate (Some s) = None) specs.
Proof.
  revert i specs. induction chain as [|[s|] chain IH]; intros i specs; cbn [signal_chain_check].
  - destruct specs; naive_solver.
  - destruct (SignalSpec_Validate (Some s)) eqn:Hv.
    + split; [done|]. intros [Hc Hf]. destruct specs; simplify_eq/=.
      apply Forall_cons in Hf as [? _]. congruence.
    + destruct (signal_chain_check (S i) chain) as [specs'|e] eqn:Hc.
      * apply IH in Hc as [-> Hf]. split.
        -- intros [= <-]. split; [done|]. by constructor.
        -- destruct specs as [|s' specs]; [naive_solver|]. intros [[= -> Heq] _].
           apply (inj (fmap Some)) in Heq. congruence.
      * split; [done|]. destruct specs as [|s' specs]; [naive_solver|]. intros [[= -> ->] Hf].
        apply Forall_cons in Hf as [_ Hf].
        rewrite (proj2 (IH (S i) specs)) in Hc by done. done.
  - split; [done|]. destruct specs; naive_solver.
Qed.

Lemma signal_chain_check_err i chain e :
  signal_chain_check i chain = Err e →
  None ∈ chain ∨ ∃ s, Some s ∈ chain ∧ SignalSpec_Validate (Some s) ≠ None.
Proof.
  revert i. induction chain as [|[s|] chain IH]; intros i; cbn [signal_chain_check]; [done| |set_solver].
  destruct (SignalSpec_Validate (Some s)) as [ve|] eqn:Hv.
  - intros _. right. exists s. split; [set_solver|congruence].
  - destruct (signal_chain_check (S i) chain) eqn:Hc; [done|]. intros [= ->].
    destruct (IH _ Hc) as [?|(s' & ? & ?)]; [set_solver|]. right. exists s'. set_solver.
Qed.

(** The compiled rules of a list are those of [chain_rules], rule by rule. *)
Definition compiles_to (lr : string * SignalRule) (m : signalMatcher) : Prop :=
  sm_name m = lr.1 ∧ sm_outcome m = sr_Outcome lr.2 ∧
  sm_blame m = (if String.eqb (sr_Blame lr.2) "" then DefaultBlame (sr_Outcome lr.2) else sr_Blame lr.2) ∧
  ∀ f, signalMatcher_matches m f = true ↔ when_holds (sr_When lr.2) f.

Lemma compileSignalRule_ok name i r :
  rule_ok r →
  ∃ m, compileSignalRule name i r = Ok m ∧ compiles_to (ruleLabel name i (sr_Name r), r) m.
Proof.
  intros (_ & _ & Hst & Hre).
  assert (∃ m, compileSignalRule name i r = Ok m) as [m Hm].
  { unfold compileSignalRule. fold (status_compiled (sw_HTTPStatus (sr_When r))).
    destruct (status_compiled _) as [[status bits] range]. cbv zeta.
    destruct (sw_URI (sr_When r)) as [u|]; [|eauto].
    destruct (String.eqb (um_Regex u) "") eqn:He; cbn [negb]; [eauto|]. bool_to_prop.
    destruct (Hre He) as [re ->]. eauto. }
  exists m. split; [done|]. split_and!; [..|intros f; by eapply compileSignalRule_matches].
  all: unfold compileSignalRule in Hm; fold (status_compiled (sw_HTTPStatus (sr_When r))) in Hm.
  all: destruct (status_compiled _) as [[status bits] range]; cbv zeta in Hm.
  all: destruct (sw_URI (sr_When r)) as [u|]; [|by injection Hm as <-].
  all: destruct (negb (String.eqb (um_Regex u) "")); [|by injection Hm as <-].
  all: destruct (regexp_Compile _); [by injection Hm as <-|done].
Qed.

Lemma compile_rules_ok name i rules :
  Forall rule_ok rules →
  ∃ ms, compile_rules name i rules = Ok ms ∧
    Forall2 compiles_to (imap (λ j r, (ruleLabel name (i + j) (sr_Name r), r)) rules) ms.
Proof.
  revert i. induction rules as [|r rules IH]; intros i; [eexists; by split; [|constructor]|].
  intros [Hr Hrs]%Forall_cons. cbn [compile_rules imap].
  destruct (compileSignalRule_ok name i r Hr) as (m & -> & Hm).
  destruct (IH (S i) Hrs) as (ms & -> & Hms). eexists. split; [done|].
  constructor; [by rewrite Nat.add_0_r|].
  erewrite imap_ext; [exact Hms|]. intros j r' _. cbn. by rewrite Nat.add_succ_r.
Qed.

Lemma compile_chain_ok specs :
  Forall (λ s, SignalSpec_Validate (Some s) = None) specs →
  ∃ ms, compile_chain specs = Ok ms ∧ Forall2 compiles_to (chain_rules specs) ms.
Proof.
  induction 1 as [|s specs Hs _ (ms & Hms & Hf)]; [eexists; by split; [|constructor]|].
  cbn [compile_chain]. apply SignalSpec_rules_ok in Hs.
  destruct (compile_rules_ok (ss_Name s) 0 _ Hs) as (ms0 & -> & Hf0). rewrite Hms.
  eexists. split; [done|]. unfold chain_rules. cbn. by apply Forall2_app.
Qed.

(** The classification of a report by a list of rules as written. *)
Definition rule_classification (k : nat) (lr : string * SignalRule) : Classification :=
  {| cl_Outcome := sr_Outcome lr.2;
     cl_Blame := if String.eqb (sr_Blame lr.2) "" then DefaultBlame (sr_Outcome lr.2) else sr_Blame lr.2;
     cl_RuleIndex := Z.of_nat k; cl_RuleName := lr.1 |}.

Definition first_holding (l : list (string * SignalRule)) (f : ReportFacts) (k : nat)
    (lr : string * SignalRule) : Prop :=
  l !! k = Some lr ∧ when_holds (sr_When lr.2) f ∧
  ∀ j lr', j < k → l !! j = Some lr' → ¬ when_holds (sr_When lr'.2) f.

Lemma first_rule_spec l ms f i :
  Forall2 compiles_to l ms →
  match first_rule (Z.of_nat i) ms f with
  | Some cl => ∃ k lr, first_holding l f k lr ∧ cl = rule_classification (i + k) lr
  | None => ∀ lr, lr ∈ l → ¬ when_holds (sr_When lr.2) f
  end.
Proof.
  intros Hf. revert i. induction Hf as [|lr m l ms (Hn & Ho & Hb & Hm) Hf IH]; intros i; cbn; [set_solver|].
  destruct (signalMatcher_matches m f) eqn:Hmatch.
  - exists 0, lr. split.
    + split_and!; [done|by apply Hm|lia].
    + unfold rule_classification. rewrite Nat.add_0_r. by rewrite Hn, Ho, Hb.
  - assert (¬ when_holds (sr_When lr.2) f) as Hno by (rewrite <- Hm; congruence).
    replace (Z.of_nat i + 1)%Z with (Z.of_nat (S i)) by lia. specialize (IH (S i)).
    destruct (first_rule _ ms f) as [cl|].
    + destruct IH as (k & lr' & (H1 & H2 & H3) & ->). exists (S k), lr'.
      split; [|f_equal; lia]. split_and!; [done..|].
      intros [|j] lr'' Hj; cbn; [by intros [= <-]|]. intros Hl. apply (H3 j); [lia|done].
    + intros lr' [->|Hin]%elem_of_cons; auto.
Qed.

(** [CompileSignal] succeeds exactly on the non-empty chains of valid
    policies, and the compiled chain classifies every report as written: by
    the first rule, in root to leaf order, whose conditions all hold, with
    its index in the concatenated chain; without such a rule by the leaf's
    trusted outcome hint, or as unknown. *)
Theorem Classify_first chain f :
  (∃ specs c, chain = Some <$> specs ∧ specs ≠ [] ∧
    Forall (λ s, SignalSpec_Validate (Some s) = None) specs ∧
    CompileSignal chain = Ok c ∧
    ((∃ k lr, first_holding (chain_rules specs) f k lr ∧
        Classify (Some c) f = rule_classification k lr) ∨
     (∀ lr, lr ∈ chain_rules specs → ¬ when_holds (sr_When lr.2) f) ∧
       Classify (Some c) f = unmatched
         (if from_option ss_TrustOutcomeHint false (last specs) && ValidOutcome (rf_OutcomeHint f)
          then rf_OutcomeHint f else OutcomeUnknown))) ∨
  (∃ e, CompileSignal chain = Err e ∧
    (chain = [] ∨ None ∈ chain ∨ ∃ s, Some s ∈ chain ∧ SignalSpec_Validate (Some s) ≠ None)).
Proof.
  unfold CompileSignal. destruct chain as [|o chain]; [right; eauto|].
  destruct (signal_chain_check 0 (o :: chain)) as [specs|e] eqn:Hc.
  - left. apply signal_chain_check_spec in Hc as [Heq Hv].
    destruct (compile_chain_ok specs Hv) as (ms & -> & Hms). exists specs. eexists.
    split_and!; [done|by intros ->|done|done|].
    unfold Classify. cbn [cs_rules cs_trustHint].
    pose proof (first_rule_spec _ _ f 0 Hms) as Hfirst.
    destruct (first_rule _ ms f) as [cl|]; [left; destruct Hfirst as (k & lr & ? & ->); eauto|].
    right. split; [done|]. unfold from_option. by destruct (last specs); case_match.
  - right. exists e. split; [done|]. right.
    by eapply signal_chain_check_err.
Qed.

(** Whatever a report says, a compiled chain answers with a known outcome
    and a known blame. *)
Theorem Classify_valid chain c f :
  CompileSignal chain = Ok c →
  ValidOutcome (cl_Outcome (Classify (Some c) f)) = true ∧
  ValidBlame (cl_Blame (Classify (Some c) f)) = true.
Proof.
  unfold CompileSignal. destruct chain as [|o chain]; [done|].
  destruct (signal_chain_check 0 (o :: chain)) as [specs|e] eqn:Hc; [|done].
  apply signal_chain_check_spec in Hc as [_ Hv].
  destruct (compile_chain_ok specs Hv) as (ms & -> & Hms). intros [= <-].
  unfold Classify. cbn [cs_rules cs_trustHint].
  pose proof (first_rule_spec _ _ f 0 Hms) as Hfirst.
  destruct (first_rule _ ms f) as [cl|].
  - destruct Hfirst as (k & lr & (Hk & _) & ->). cbn.
    assert (rule_ok lr.2) as (Ho & Hb & _).
    { apply list_elem_of_lookup_2, list_elem_of_join in Hk as (l & Hlr & Hl).
      apply list_elem_of_fmap in Hl as (s & -> & Hs). apply list_elem_of_lookup in Hlr as [i Hi].
      rewrite list_lookup_imap in Hi. apply fmap_Some in Hi as (r & Hr & ->). cbn.
      rewrite Forall_forall in Hv. specialize (Hv _ Hs). apply SignalSpec_rules_ok in Hv.
      by eapply Forall_lookup_1. }
    split; [done|]. destruct (String.eqb (sr_Blame lr.2) "") eqn:He; [apply DefaultBlame_valid|].
    bool_to_prop. by destruct Hb.
  - case_match; (split; [|apply DefaultBlame_valid]); [by bool_to_prop|done].
Qed.
End correctness.

Definition any_when : SignalWhen :=
  {| sw_HTTPStatus := None; sw_BusinessCode := None; sw_ErrorKind := None; sw_Markers := None;
     sw_URI := None; sw_Method := None; sw_LatencyMs := None; sw_ResponseBytes := None |}.

Definition ex_signal : SignalSpec :=
  {| ss_Name := "demo"; ss_Description := ""; ss_Bind := None; ss_Extends := "";
     ss_TrustOutcomeHint := true;
     ss_Rules :=
       [{| sr_Name := "limited"; sr_Outcome := OutcomeRateLimited; sr_Blame := "";
           sr_When := {| sw_HTTPStatus := Some {| im_Values := [429; 503]%Z; im_Range := None |};
                         sw_BusinessCode := None; sw_ErrorKind := None; sw_Markers := None;
                         sw_URI := None; sw_Method := Some ["GET"]; sw_LatencyMs := None;
                         sw_ResponseBytes := None |} |}] |}.

Definition ex_facts : ReportFacts :=
  {| rf_URI := "/v1"; rf_Method := "get"; rf_HTTPStatus := 503; rf_BusinessCode := "";
     rf_ErrorKind := ""; rf_Markers := []; rf_OutcomeHint := ""; rf_LatencyMs := 10;
     rf_ResponseBytes := 0 |}.

Lemma ex_classified :
  match CompileSignal (RE:=literal_engine) [Some ex_signal] with
  | Ok c => cl_Outcome (Classify (Some c) ex_facts)
  | Err _ => ""
  end = OutcomeRateLimited.
Proof. vm_compute. reflexivity. Qed.

Lemma Classify_valid_witness :
  match CompileSignal (RE:=literal_engine) [Some ex_signal] with
  | Ok c => cl_Outcome (Classify (Some c) ex_facts) = OutcomeRateLimited ∧
            ValidOutcome (cl_Outcome (Classify (Some c) ex_facts)) = true
  | Err _ => False
  end.
Proof.
  pose proof ex_classified as Hex. revert Hex.
  destruct (CompileSignal (RE:=literal_engine) [Some ex_signal]) as [c|e] eqn:Hc; intros Hex.
  - split; [exact Hex|]. exact (proj1 (Classify_valid (RE:=literal_engine) _ c ex_facts Hc)).
  - discriminate Hex.
Defined.
