(* ===== verification/PolicyAction.v ===== *)
(** * Action policies (internal/policy/action_spec.go)

    The specification records, their defaults and their validation. *)

From S2P Require Import Prelude GoStrings GoFloat PolicyBase PolicySignal.

Definition ModeEnforce : string := "enforce".
Definition ModeShadow : string := "shadow".
Definition BanExpiryPending : string := "pending".
Definition BanExpiryActive : string := "active".

Definition DefaultCooldownMultiplier : float64 := f_of_Z 1.
Definition DefaultCooldownMax : Z := 24 * Hour.
Definition DefaultCooldownMaxExponent : Z := 10.
Definition DefaultFailureResetAfter : Z := Hour.
Definition DefaultHealthAlpha : float64 := f_const 1 10.
Definition DefaultHealthBaseline : float64 := f_of_Z 70.
Definition DefaultHealthTau : Z := 6 * Hour.
Definition DefaultEndpointLowScore : float64 := f_of_Z 15.
Definition DefaultEndpointLowMinSamples : Z := 10.
Definition DefaultEndpointLowCooldown : Z := 6 * Hour.
Definition DefaultQuarantineScore : float64 := f_of_Z 20.
Definition DefaultQuarantineMinSamples : Z := 10.
Definition DefaultQuarantineDuration : Z := 24 * Hour.
Definition DefaultCrossAttributionWindow : Z := 10 * Minute.
Definition DefaultProxyDistinctIdentities : Z := 3.
Definition DefaultIdentityDistinctProxies : Z := 3.
Definition maxCooldownExponent : Z := 64.
Definition maxBanHistoryWindow : Z := 30 * 24 * Hour.
Definition minCounterWindow : Z := Second.

Definition SubjectIdentity : string := "identity".
Definition SubjectAccount : string := "account".
Definition SubjectProxy : string := "proxy".

Definition ActionCooldown : string := "cooldown".
Definition ActionExpire : string := "expire".
Definition ActionQuarantine : string := "quarantine".
Definition ActionBan : string := "ban".
Definition ActionActivate : string := "activate".

Definition ScopeIdentityEndpoint : string := "identity_endpoint".
Definition ScopeIdentitySite : string := "identity_site".
Definition ScopeIdentity : string := "identity".
Definition ScopeAccount : string := "account".
Definition ScopeProxySite : string := "proxy_site".
Definition ScopeProxy : string := "proxy".

Definition Subject (s : string) : string :=
  if string_in s [ScopeIdentityEndpoint; ScopeIdentitySite; ScopeIdentity] then SubjectIdentity
  else if String.eqb s ScopeAccount then SubjectAccount
  else if string_in s [ScopeProxySite; ScopeProxy] then SubjectProxy
  else "".

Definition ScopeAllowed (action scope : string) : bool :=
  if String.eqb action ActionCooldown then negb (String.eqb (Subject scope) "")
  else if String.eqb action ActionBan then
    String.eqb scope ScopeIdentity || String.eqb scope ScopeAccount || String.eqb scope ScopeProxy
  else if String.eqb action ActionExpire then String.eqb scope ScopeIdentity
  else if String.eqb action ActionQuarantine then
    String.eqb scope ScopeIdentity || String.eqb scope ScopeProxy
  else false.

Record CountCondition := { cc_Gte : Z; cc_Within : Z }.

Record ActionWhen := { aw_Outcome : list string; aw_Count : option CountCondition }.

Record ActionRule := {
  ar_Name : string;
  ar_When : ActionWhen;
  ar_Action : string;
  ar_Scope : string;
  ar_Base : Z;
  ar_Multiplier : float64;
  ar_Max : Z;
  ar_MaxExponent : Z;
  ar_Duration : Z;
  ar_FailureResetAfter : Z;
}.

(** [When.Bans] of a step is [es_Bans]. *)
Record EscalationStep := { es_Bans : CountCondition; es_Duration : Z }.

Record HealthSpec := {
  h_Alpha : float64;
  h_Baseline : float64;
  h_Tau : Z;
  h_Observations : gmap string float64;
  h_EndpointLowScore : float64;
  h_EndpointLowMinSamples : Z;
  h_EndpointLowCooldown : Z;
  h_QuarantineScore : float64;
  h_QuarantineMinSamples : Z;
  h_QuarantineDuration : Z;
}.

Record CrossAttributionSpec := {
  ca_Enabled : bool;
  ca_Window : Z;
  ca_ProxyDistinctIdentities : Z;
  ca_IdentityDistinctProxies : Z;
}.

Record ActionSpec := {
  as_Name : string;
  as_Description : string;
  as_Bind : option Binding;
  as_Extends : string;
  as_Mode : string;
  as_Rules : list ActionRule;
  as_Escalation : list EscalationStep;
  as_Health : HealthSpec;
  as_BanExpiryState : string;
  as_CrossAttribution : CrossAttributionSpec;
}.

(** ** Defaults *)

Definition ActionRule_defaults (r : ActionRule) : ActionRule :=
  if negb (String.eqb (ar_Action r) ActionCooldown) then r
  else {| ar_Name := ar_Name r; ar_When := ar_When r; ar_Action := ar_Action r;
          ar_Scope := ar_Scope r; ar_Base := ar_Base r;
          ar_Multiplier := setFloat (ar_Multiplier r) DefaultCooldownMultiplier;
          ar_Max := setDuration (ar_Max r) DefaultCooldownMax;
          ar_MaxExponent := setInt (ar_MaxExponent r) DefaultCooldownMaxExponent;
          ar_Duration := ar_Duration r;
          ar_FailureResetAfter := setDuration (ar_FailureResetAfter r) DefaultFailureResetAfter |}.

Definition HealthSpec_defaults (h : HealthSpec) : HealthSpec :=
  {| h_Alpha := setFloat (h_Alpha h) DefaultHealthAlpha;
     h_Baseline := h_Baseline h;
     h_Tau := setDuration (h_Tau h) DefaultHealthTau;
     h_Observations := h_Observations h;
     h_EndpointLowScore := h_EndpointLowScore h;
     h_EndpointLowMinSamples := setInt (h_EndpointLowMinSamples h) DefaultEndpointLowMinSamples;
     h_EndpointLowCooldown := setDuration (h_EndpointLowCooldown h) DefaultEndpointLowCooldown;
     h_QuarantineScore := h_QuarantineScore h;
     h_QuarantineMinSamples := setInt (h_QuarantineMinSamples h) DefaultQuarantineMinSamples;
     h_QuarantineDuration := setDuration (h_QuarantineDuration h) DefaultQuarantineDuration |}.

Definition ActionSpec_ApplyDefaults (s : ActionSpec) : ActionSpec :=
  {| as_Name := as_Name s; as_Description := as_Description s; as_Bind := as_Bind s;
     as_Extends := as_Extends s;
     as_Mode := setString (as_Mode s) ModeEnforce;
     as_Rules := ActionRule_defaults <$> as_Rules s;
     as_Escalation := as_Escalation s;
     as_Health := HealthSpec_defaults (as_Health s);
     as_BanExpiryState := setString (as_BanExpiryState s) BanExpiryPending;
     as_CrossAttribution :=
       let c := as_CrossAttribution s in
       {| ca_Enabled := ca_Enabled c;
          ca_Window := setDuration (ca_Window c) DefaultCrossAttributionWindow;
          ca_ProxyDistinctIdentities :=
            setInt (ca_ProxyDistinctIdentities c) DefaultProxyDistinctIdentities;
          ca_IdentityDistinctProxies :=
            setInt (ca_IdentityDistinctProxies c) DefaultIdentityDistinctProxies |} |}.

Definition newActionBase : ActionSpec :=
  ActionSpec_ApplyDefaults
    {| as_Name := ""; as_Description := ""; as_Bind := None; as_Extends := ""; as_Mode := "";
       as_Rules := []; as_Escalation := [];
       as_Health :=
         {| h_Alpha := f_zero; h_Baseline := DefaultHealthBaseline; h_Tau := 0; h_Observations := ∅;
            h_EndpointLowScore := DefaultEndpointLowScore; h_EndpointLowMinSamples := 0;
            h_EndpointLowCooldown := 0; h_QuarantineScore := DefaultQuarantineScore;
            h_QuarantineMinSamples := 0; h_QuarantineDuration := 0 |};
       as_BanExpiryState := "";
       as_CrossAttribution :=
         {| ca_Enabled := true; ca_Window := 0; ca_ProxyDistinctIdentities := 0;
            ca_IdentityDistinctProxies := 0 |} |}.

(** ** Validation *)

Definition RuleNameActivate : string := "lifecycle.activate".
Definition RuleNameEndpointLow : string := "health.endpoint_low".
Definition RuleNameQuarantine : string := "health.quarantine".

Definition reservedActionRuleName (name : string) : bool :=
  string_in name [RuleNameActivate; RuleNameEndpointLow; RuleNameQuarantine].

Definition allowedScopes (a : string) : string :=
  if String.eqb a ActionCooldown
  then "identity_endpoint|identity_site|identity|account|proxy_site|proxy"
  else if String.eqb a ActionBan then "identity|account|proxy"
  else if String.eqb a ActionExpire then "identity"
  else if String.eqb a ActionQuarantine then "identity|proxy"
  else "".

Definition AllScopes : list string :=
  [ScopeIdentityEndpoint; ScopeIdentitySite; ScopeIdentity; ScopeAccount; ScopeProxySite; ScopeProxy].

Fixpoint outcomes_validate (path : string) (i : nat) (seen : list string) (l : list string) :
    list Problem :=
  match l with
  | [] => []
  | o :: l' =>
      if negb (ValidOutcome o)
      then addf (item path i) (msgEnum Outcomes o) ++ outcomes_validate path (S i) seen l'
      else (if string_in o seen then addf (item path i) (msgDuplicate o) else []) ++
           outcomes_validate path (S i) (o :: seen) l'
  end.

Definition validateCooldown (r : ActionRule) (path : string) : list Problem :=
  (if (ar_Base r =? 0)%Z then addf (field path "base") msgRequiredCooldown
   else validator_duration (field path "base") (ar_Base r) Millisecond 0) ++
  (if negb (f_leb (f_of_Z 1) (ar_Multiplier r)) || IsInf_pos (ar_Multiplier r)
   then addf (field path "multiplier") (msgMultiplier (ar_Multiplier r)) else []) ++
  validator_duration (field path "max") (ar_Max r) 0 0 ++
  (if negb (IsPermanent (ar_Max r)) && negb (IsPermanent (ar_Base r)) && (0 <? ar_Base r)%Z
      && (ar_Max r <? ar_Base r)%Z
   then addf (field path "max") (msgMaxBelow (ar_Base r)) else []) ++
  validator_intRange (field path "max_exponent") (ar_MaxExponent r) 0 maxCooldownExponent ++
  validator_duration (field path "failure_reset_after") (ar_FailureResetAfter r) Second 0 ++
  (if negb (ar_Duration r =? 0)%Z
   then addf (field path "duration") (msgUnsupported ActionCooldown) else []).

Definition rejectCooldownFields (r : ActionRule) (path : string) : list Problem :=
  mjoin ((λ '(name, set), if set : bool then addf (field path name) msgCooldownOnly else []) <$>
    [("base", negb (ar_Base r =? 0)%Z); ("multiplier", negb (f_eqb (ar_Multiplier r) f_zero));
     ("max", negb (ar_Max r =? 0)%Z); ("max_exponent", negb (ar_MaxExponent r =? 0)%Z);
     ("failure_reset_after", negb (ar_FailureResetAfter r =? 0)%Z)]).

(** The checks of the action, or [None] for an unknown action. *)
Definition action_validate (r : ActionRule) (path : string) : option (list Problem) :=
  if String.eqb (ar_Action r) ActionCooldown then Some (validateCooldown r path)
  else if String.eqb (ar_Action r) ActionBan then
    Some (rejectCooldownFields r path ++
      (if (ar_Duration r =? 0)%Z then addf (field path "duration") msgRequiredBan
       else if negb (IsPermanent (ar_Duration r))
       then validator_duration (field path "duration") (ar_Duration r) Second 0 else []))
  else if String.eqb (ar_Action r) ActionQuarantine then
    Some (rejectCooldownFields r path ++
      (if (ar_Duration r =? 0)%Z then addf (field path "duration") msgRequiredQuarantine
       else validator_duration (field path "duration") (ar_Duration r) Second 0))
  else if String.eqb (ar_Action r) ActionExpire then
    Some (rejectCooldownFields r path ++
      (if negb (ar_Duration r =? 0)%Z
       then addf (field path "duration") (msgUnsupported ActionExpire) else []))
  else None.

Definition ActionRule_validate (r : ActionRule) (path : string) : list Problem :=
  let outcomePath := field path "when.outcome" in
  (match aw_Outcome (ar_When r) with [] => addf outcomePath msgRequired | _ => [] end) ++
  outcomes_validate outcomePath 0 [] (aw_Outcome (ar_When r)) ++
  (match aw_Count (ar_When r) with
   | Some c => validator_minInt (field path "when.count.gte") (cc_Gte c) 1 ++
               validator_duration (field path "when.count.within") (cc_Within c) minCounterWindow 0
   | None => []
   end) ++
  (let scopeValid := negb (String.eqb (Subject (ar_Scope r)) "") in
   (if negb scopeValid then addf (field path "scope") (msgEnum AllScopes (ar_Scope r)) else []) ++
   match action_validate r path with
   | None => addf (field path "action")
               (msgEnum [ActionCooldown; ActionExpire; ActionQuarantine; ActionBan] (ar_Action r))
   | Some ps =>
       ps ++ (if scopeValid && negb (ScopeAllowed (ar_Action r) (ar_Scope r))
              then addf (field path "scope")
                     (msgScope (ar_Action r) (ar_Scope r) (allowedScopes (ar_Action r)))
              else [])
   end).

Fixpoint action_rules_validate (i : nat) (names : list (string * nat)) (rules : list ActionRule) :
    list Problem :=
  match rules with
  | [] => []
  | r :: rules' =>
      let path := item "rules" i in
      let '(ps, names) := validateRuleName path (ar_Name r) i names in
      ps ++
      (if reservedActionRuleName (ar_Name r)
       then addf (field path "name") (msgReserved (ar_Name r)) else []) ++
      ActionRule_validate r path ++
      action_rules_validate (S i) names rules'
  end.

Definition step_validate (i : nat) (prev : option EscalationStep) (st : EscalationStep) :
    list Problem :=
  let path := item "escalation" i in
  validator_minInt (field path "when.bans.gte") (cc_Gte (es_Bans st)) 1 ++
  validator_duration (field path "when.bans.within") (cc_Within (es_Bans st)) Second
    maxBanHistoryWindow ++
  (if (es_Duration st =? 0)%Z then addf (field path "duration") msgRequiredEscalation
   else if negb (IsPermanent (es_Duration st))
   then validator_duration (field path "duration") (es_Duration st) Second 0 else []) ++
  match prev with
  | None => []
  | Some prev =>
      (if (cc_Gte (es_Bans st) <=? cc_Gte (es_Bans prev))%Z
       then addf (field path "when.bans.gte") (msgThreshold (i - 1) (cc_Gte (es_Bans prev))) else []) ++
      (if IsPermanent (es_Duration prev) && negb (IsPermanent (es_Duration st))
          || negb (IsPermanent (es_Duration prev)) && negb (IsPermanent (es_Duration st))
             && (es_Duration st <? es_Duration prev)%Z
       then addf (field path "duration") (msgShorter (i - 1) (es_Duration prev)) else [])
  end.

Fixpoint validateEscalation_from (i : nat) (prev : option EscalationStep)
    (steps : list EscalationStep) : list Problem :=
  match steps with
  | [] => []
  | st :: steps' => step_validate i prev st ++ validateEscalation_from (S i) (Some st) steps'
  end.

Definition validateEscalation (steps : list EscalationStep) : list Problem :=
  validateEscalation_from 0 None steps.

Definition HealthSpec_validate (h : HealthSpec) (path : string) : list Problem :=
  validator_ratio (field path "alpha") (h_Alpha h) true ++
  validator_score (field path "baseline") (h_Baseline h) ++
  validator_duration (field path "tau") (h_Tau h) Second 0 ++
  mjoin ((λ outcome,
      let p := field (field path "observations") outcome in
      if negb (ValidOutcome outcome) then addf p (msgUnknownOutcome outcome)
      else validator_score p (default f_zero (h_Observations h !! outcome))) <$>
    SortFunc string_compare (map_to_list (h_Observations h)).*1) ++
  validator_score (field path "endpoint_low_score") (h_EndpointLowScore h) ++
  validator_minInt (field path "endpoint_low_min_samples") (h_EndpointLowMinSamples h) 1 ++
  validator_duration (field path "endpoint_low_cooldown") (h_EndpointLowCooldown h) Second 0 ++
  validator_score (field path "quarantine_score") (h_QuarantineScore h) ++
  validator_minInt (field path "quarantine_min_samples") (h_QuarantineMinSamples h) 1 ++
  validator_duration (field path "quarantine_duration") (h_QuarantineDuration h) Second 0.

Definition ActionSpec_problems (s : ActionSpec) : list Problem :=
  validateCommon (as_Name s) (as_Description s) (as_Bind s) ++
  validateExtends (as_Name s) (as_Extends s) ++
  validator_enum "mode" (as_Mode s) [ModeEnforce; ModeShadow] ++
  action_rules_validate 0 [] (as_Rules s) ++
  validateEscalation (as_Escalation s) ++
  HealthSpec_validate (as_Health s) "health" ++
  validator_enum "ban_expiry_state" (as_BanExpiryState s) [BanExpiryPending; BanExpiryActive] ++
  (let c := as_CrossAttribution s in
   validator_duration "cross_attribution.window" (ca_Window c) Second 0 ++
   validator_minInt "cross_attribution.proxy_distinct_identities" (ca_ProxyDistinctIdentities c) 1 ++
   validator_minInt "cross_attribution.identity_distinct_proxies" (ca_IdentityDistinctProxies c) 1).

Definition ActionSpec_Validate (s : option ActionSpec) : option ValidationError :=
  match s with
  | None => Some {| ve_Kind := KindAction; ve_Name := ""; ve_Problems := addf "" msgNilSpec |}
  | Some s => validator_result KindAction (as_Name s) (ActionSpec_problems s)
  end.
