(* ===== verification/PolicyRotation.v ===== *)
(** * Rotation and breaker policies (internal/policy: rotation.go, breaker.go)

    The two policy kinds without an extends chain: records, defaults,
    validation. *)

From S2P Require Import Prelude GoStrings GoFloat PolicyBase.

(** ** Rotation *)

Definition StrategyWeightedRandom : string := "weighted_random".
Definition StrategyLeastRecentlyUsed : string := "least_recently_used".
Definition StrategyRoundRobin : string := "round_robin".
Definition StrategyBestHealth : string := "best_health".
Definition ReuseAnchorAcquired : string := "acquired".
Definition ReuseAnchorReleased : string := "released".
Definition ReuseScopeEndpointGroup : string := "endpoint_group".
Definition ReuseScopeSite : string := "site".
Definition ProxyModeNone : string := "none".
Definition ProxyModePool : string := "pool".
Definition ProxyModeBindIdentity : string := "bind_identity".
Definition ProxyModeRegionMatch : string := "region_match".
Definition ProxyKindDatacenter : string := "datacenter".
Definition ProxyKindResidential : string := "residential".
Definition ProxyKindMobile : string := "mobile".
Definition ProxyKindTunnel : string := "tunnel".

Definition DefaultCandidateSample : Z := 32.
Definition DefaultLeaseTTL : Z := 120 * Second.
Definition DefaultMaxLeaseLifetime : Z := 30 * Minute.
Definition DefaultMaxConcurrentLeases : Z := 1.
Definition DefaultStickyTTL : Z := 10 * Minute.
Definition DefaultWarmupQuotaFactor : float64 := f_of_Z 1.
Definition DefaultProbeWeightFactor : float64 := f_const 1 10.
Definition DefaultProbeMaxLeases : Z := 2.
Definition DefaultRebindTolerance : Z := 5 * Minute.
Definition DefaultMaxRebindsPerDay : Z := 3.
Definition maxCandidateSample : Z := 256.
Definition minLeaseTTL : Z := 5 * Second.
Definition maxLeaseTTL : Z := 30 * Minute.
Definition maxLeaseLifetime : Z := 24 * Hour.
Definition maxConcurrentLeases : Z := 10000.
Definition maxIdentityTypeNameLen : nat := 64.

Record QuotaSpec := { q_Limit : Z; q_Window : Z }.
Record StickySpec := { st_Enabled : bool; st_TTL : Z }.
Record WarmupSpec := { wu_Duration : Z; wu_QuotaFactor : float64 }.
Record ProbeSpec := { pr_WeightFactor : float64; pr_MaxLeases : Z }.

Record RotationParams := {
  rp_Strategy : string;
  rp_CandidateSample : Z;
  rp_LeaseTTL : Z;
  rp_MaxLeaseLifetime : Z;
  rp_MaxConcurrentLeases : Z;
  rp_ReuseInterval : Z;
  rp_ReuseAnchor : string;
  rp_ReuseScope : string;
  rp_Quota : list QuotaSpec;
  rp_Sticky : StickySpec;
  rp_Warmup : WarmupSpec;
  rp_Probe : ProbeSpec;
}.

Record ProxySpec := {
  px_Mode : string;
  px_Kinds : StringList;
  px_Tags : StringList;
  px_Providers : StringList;
  px_Regions : StringList;
  px_RegionMatch : bool;
  px_RebindTolerance : Z;
  px_MaxRebindsPerDay : Z;
}.

Record RotationSpec := {
  rs_Name : string;
  rs_Description : string;
  rs_Bind : option Binding;
  rs_IdentityTypes : StringList;
  rs_Rotation : RotationParams;
  rs_Proxy : ProxySpec;
}.

Definition RotationSpec_ApplyDefaults (s : RotationSpec) : RotationSpec :=
  let r := rs_Rotation s in
  let p := rs_Proxy s in
  {| rs_Name := rs_Name s; rs_Description := rs_Description s; rs_Bind := rs_Bind s;
     rs_IdentityTypes := nilIfEmpty (rs_IdentityTypes s);
     rs_Rotation :=
       {| rp_Strategy := setString (rp_Strategy r) StrategyWeightedRandom;
          rp_CandidateSample := setInt (rp_CandidateSample r) DefaultCandidateSample;
          rp_LeaseTTL := setDuration (rp_LeaseTTL r) DefaultLeaseTTL;
          rp_MaxLeaseLifetime := setDuration (rp_MaxLeaseLifetime r) DefaultMaxLeaseLifetime;
          rp_MaxConcurrentLeases := setInt (rp_MaxConcurrentLeases r) DefaultMaxConcurrentLeases;
          rp_ReuseInterval := rp_ReuseInterval r;
          rp_ReuseAnchor := setString (rp_ReuseAnchor r) ReuseAnchorReleased;
          rp_ReuseScope := setString (rp_ReuseScope r) ReuseScopeEndpointGroup;
          rp_Quota := rp_Quota r;
          rp_Sticky := {| st_Enabled := st_Enabled (rp_Sticky r);
                          st_TTL := setDuration (st_TTL (rp_Sticky r)) DefaultStickyTTL |};
          rp_Warmup := {| wu_Duration := wu_Duration (rp_Warmup r);
                          wu_QuotaFactor :=
                            setFloat (wu_QuotaFactor (rp_Warmup r)) DefaultWarmupQuotaFactor |};
          rp_Probe := {| pr_WeightFactor :=
                           setFloat (pr_WeightFactor (rp_Probe r)) DefaultProbeWeightFactor;
                         pr_MaxLeases := setInt (pr_MaxLeases (rp_Probe r)) DefaultProbeMaxLeases |} |};
     rs_Proxy :=
       {| px_Mode := setString (px_Mode p) ProxyModeNone;
          px_Kinds := nilIfEmpty (px_Kinds p); px_Tags := nilIfEmpty (px_Tags p);
          px_Providers := nilIfEmpty (px_Providers p); px_Regions := nilIfEmpty (px_Regions p);
          px_RegionMatch := px_RegionMatch p; px_RebindTolerance := px_RebindTolerance p;
          px_MaxRebindsPerDay := px_MaxRebindsPerDay p |} |}.

Definition newRotationBase : RotationSpec :=
  RotationSpec_ApplyDefaults
    {| rs_Name := ""; rs_Description := ""; rs_Bind := None; rs_IdentityTypes := None;
       rs_Rotation :=
         {| rp_Strategy := ""; rp_CandidateSample := 0; rp_LeaseTTL := 0; rp_MaxLeaseLifetime := 0;
            rp_MaxConcurrentLeases := 0; rp_ReuseInterval := 0; rp_ReuseAnchor := "";
            rp_ReuseScope := ""; rp_Quota := []; rp_Sticky := {| st_Enabled := false; st_TTL := 0 |};
            rp_Warmup := {| wu_Duration := 0; wu_QuotaFactor := f_zero |};
            rp_Probe := {| pr_WeightFactor := f_zero; pr_MaxLeases := 0 |} |};
       rs_Proxy :=
         {| px_Mode := ""; px_Kinds := None; px_Tags := None; px_Providers := None;
            px_Regions := None; px_RegionMatch := false;
            px_RebindTolerance := DefaultRebindTolerance;
            px_MaxRebindsPerDay := DefaultMaxRebindsPerDay |} |}.

(** The windows seen so far with the index of their quota. *)
Fixpoint quota_validate (path : string) (i : nat) (windows : list (Z * nat)) (l : list QuotaSpec) :
    list Problem :=
  match l with
  | [] => []
  | q :: l' =>
      let qp := item (field path "quota") i in
      validator_minInt (field qp "limit") (q_Limit q) 1 ++
      validator_duration (field qp "window") (q_Window q) Second 0 ++
      match find (λ e, (e.1 =? q_Window q)%Z) windows with
      | Some (_, prev) =>
          addf (field qp "window") (msgDupWindow prev (q_Window q)) ++
          quota_validate path (S i) windows l'
      | None => quota_validate path (S i) ((q_Window q, i) :: windows) l'
      end
  end.

Definition RotationParams_validate (r : RotationParams) (path : string) : list Problem :=
  validator_enum (field path "strategy") (rp_Strategy r)
    [StrategyWeightedRandom; StrategyLeastRecentlyUsed; StrategyRoundRobin; StrategyBestHealth] ++
  validator_intRange (field path "candidate_sample") (rp_CandidateSample r) 1 maxCandidateSample ++
  validator_duration (field path "lease_ttl") (rp_LeaseTTL r) minLeaseTTL maxLeaseTTL ++
  validator_duration (field path "max_lease_lifetime") (rp_MaxLeaseLifetime r) 0 maxLeaseLifetime ++
  (if negb (IsPermanent (rp_MaxLeaseLifetime r)) && negb (IsPermanent (rp_LeaseTTL r))
      && (rp_MaxLeaseLifetime r <? rp_LeaseTTL r)%Z
   then addf (field path "max_lease_lifetime") (msgMaxBelow (rp_LeaseTTL r)) else []) ++
  validator_intRange (field path "max_concurrent_leases") (rp_MaxConcurrentLeases r) 1
    maxConcurrentLeases ++
  validator_duration (field path "reuse_interval") (rp_ReuseInterval r) 0 0 ++
  validator_enum (field path "reuse_anchor") (rp_ReuseAnchor r)
    [ReuseAnchorAcquired; ReuseAnchorReleased] ++
  validator_enum (field path "reuse_scope") (rp_ReuseScope r)
    [ReuseScopeEndpointGroup; ReuseScopeSite] ++
  quota_validate path 0 [] (rp_Quota r) ++
  validator_duration (field path "sticky.ttl") (st_TTL (rp_Sticky r)) Second 0 ++
  validator_duration (field path "warmup.duration") (wu_Duration (rp_Warmup r)) 0 0 ++
  validator_ratio (field path "warmup.quota_factor") (wu_QuotaFactor (rp_Warmup r)) true ++
  validator_ratio (field path "probe.weight_factor") (pr_WeightFactor (rp_Probe r)) true ++
  validator_minInt (field path "probe.max_leases") (pr_MaxLeases (rp_Probe r)) 1.

Definition ProxySpec_validate (p : ProxySpec) (path : string) : list Problem :=
  validator_enum (field path "mode") (px_Mode p)
    [ProxyModeNone; ProxyModePool; ProxyModeBindIdentity; ProxyModeRegionMatch] ++
  validator_stringList (field path "kinds") (px_Kinds p)
    (λ ip k, validator_enum ip k
       [ProxyKindDatacenter; ProxyKindResidential; ProxyKindMobile; ProxyKindTunnel]) ++
  validator_stringList (field path "tags") (px_Tags p) no_check ++
  validator_stringList (field path "providers") (px_Providers p) no_check ++
  validator_stringList (field path "regions") (px_Regions p) no_check ++
  validator_duration (field path "rebind_tolerance") (px_RebindTolerance p) 0 0 ++
  validator_minInt (field path "max_rebinds_per_day") (px_MaxRebindsPerDay p) 0.

Definition RotationSpec_problems (s : RotationSpec) : list Problem :=
  validateCommon (rs_Name s) (rs_Description s) (rs_Bind s) ++
  validator_stringList "identity_types" (rs_IdentityTypes s)
    (λ path t, if (maxIdentityTypeNameLen <? String.length t)%nat
               then addf path (msgTooLong (Z.of_nat maxIdentityTypeNameLen)) else []) ++
  RotationParams_validate (rs_Rotation s) "rotation" ++
  ProxySpec_validate (rs_Proxy s) "proxy".

Definition RotationSpec_Validate (s : option RotationSpec) : option ValidationError :=
  match s with
  | None => Some {| ve_Kind := KindRotation; ve_Name := ""; ve_Problems := addf "" msgNilSpec |}
  | Some s => validator_result KindRotation (rs_Name s) (RotationSpec_problems s)
  end.

(** ** Breaker *)

Definition DefaultBreakerWindow : Z := 60 * Second.
Definition DefaultBreakerBuckets : Z := 12.
Definition DefaultBreakerMinRequests : Z := 50.
Definition DefaultTripRiskRatioGte : float64 := f_const 4 10.
Definition DefaultTripDistinctCaptchaIdentities : Z := 10.
Definition DefaultTripSuccessRatioLte : float64 := f_const 2 10.
Definition DefaultOpenDuration : Z := 2 * Minute.
Definition DefaultMaxOpenDuration : Z := Hour.
Definition DefaultResetOpenCountAfter : Z := 30 * Minute.
Definition DefaultProbeLeasesPer10s : Z := 5.
Definition DefaultCloseMinSamples : Z := 5.
Definition DefaultCloseSuccessRatioGte : float64 := f_const 8 10.
Definition maxBreakerBuckets : Z := 60.

Record TripSpec := {
  tr_RiskRatioGte : float64;
  tr_DistinctCaptchaIdentitiesGte : Z;
  tr_SuccessRatioLte : float64;
}.

Record HalfOpenSpec := {
  ho_ProbeLeasesPer10s : Z;
  ho_CloseMinSamples : Z;
  ho_CloseSuccessRatioGte : float64;
}.

Record BreakerSpec := {
  bk_Name : string;
  bk_Description : string;
  bk_Bind : option Binding;
  bk_Enabled : bool;
  bk_Window : Z;
  bk_Buckets : Z;
  bk_MinRequests : Z;
  bk_Trip : TripSpec;
  bk_OpenDuration : Z;
  bk_MaxOpenDuration : Z;
  bk_ResetOpenCountAfter : Z;
  bk_HalfOpen : HalfOpenSpec;
  bk_RevertRecentCooldowns : string;
}.

Definition BucketDuration (s : option BreakerSpec) : Z :=
  match s with
  | None => 0
  | Some s => if (bk_Buckets s <=? 0)%Z then 0 else Z.quot (bk_Window s) (bk_Buckets s)
  end.

Definition BreakerSpec_ApplyDefaults (s : BreakerSpec) : BreakerSpec :=
  let h := bk_HalfOpen s in
  {| bk_Name := bk_Name s; bk_Description := bk_Description s; bk_Bind := bk_Bind s;
     bk_Enabled := bk_Enabled s;
     bk_Window := setDuration (bk_Window s) DefaultBreakerWindow;
     bk_Buckets := setInt (bk_Buckets s) DefaultBreakerBuckets;
     bk_MinRequests := setInt (bk_MinRequests s) DefaultBreakerMinRequests;
     bk_Trip := bk_Trip s;
     bk_OpenDuration := setDuration (bk_OpenDuration s) DefaultOpenDuration;
     bk_MaxOpenDuration := setDuration (bk_MaxOpenDuration s) DefaultMaxOpenDuration;
     bk_ResetOpenCountAfter := setDuration (bk_ResetOpenCountAfter s) DefaultResetOpenCountAfter;
     bk_HalfOpen :=
       {| ho_ProbeLeasesPer10s := setInt (ho_ProbeLeasesPer10s h) DefaultProbeLeasesPer10s;
          ho_CloseMinSamples := setInt (ho_CloseMinSamples h) DefaultCloseMinSamples;
          ho_CloseSuccessRatioGte :=
            setFloat (ho_CloseSuccessRatioGte h) DefaultCloseSuccessRatioGte |};
     bk_RevertRecentCooldowns := setString (bk_RevertRecentCooldowns s) RevertEndpoint |}.

Definition newBreakerBase : BreakerSpec :=
  BreakerSpec_ApplyDefaults
    {| bk_Name := ""; bk_Description := ""; bk_Bind := None; bk_Enabled := true; bk_Window := 0;
       bk_Buckets := 0; bk_MinRequests := 0;
       bk_Trip := {| tr_RiskRatioGte := DefaultTripRiskRatioGte;
                     tr_DistinctCaptchaIdentitiesGte := DefaultTripDistinctCaptchaIdentities;
                     tr_SuccessRatioLte := DefaultTripSuccessRatioLte |};
       bk_OpenDuration := 0; bk_MaxOpenDuration := 0; bk_ResetOpenCountAfter := 0;
       bk_HalfOpen := {| ho_ProbeLeasesPer10s := 0; ho_CloseMinSamples := 0;
                         ho_CloseSuccessRatioGte := f_zero |};
       bk_RevertRecentCooldowns := "" |}.

Definition BreakerSpec_problems (s : BreakerSpec) : list Problem :=
  validateCommon (bk_Name s) (bk_Description s) (bk_Bind s) ++
  validator_duration "window" (bk_Window s) Second 0 ++
  validator_intRange "buckets" (bk_Buckets s) 1 maxBreakerBuckets ++
  (if negb (IsPermanent (bk_Window s)) && (Second <=? bk_Window s)%Z && (1 <=? bk_Buckets s)%Z
      && (bk_Buckets s <=? maxBreakerBuckets)%Z
   then
     let windowMs := Duration_Milliseconds (bk_Window s) in
     if negb (Z.rem windowMs (bk_Buckets s) =? 0)%Z then addf "buckets" (msgBucketsWhole (bk_Window s))
     else if (Z.quot windowMs (bk_Buckets s) <? 1000)%Z
     then addf "buckets" (msgBucketsSmall (bk_Window s)) else []
   else []) ++
  validator_minInt "min_requests" (bk_MinRequests s) 1 ++
  validator_ratio "trip.risk_ratio_gte" (tr_RiskRatioGte (bk_Trip s)) false ++
  validator_minInt "trip.distinct_captcha_identities_gte"
    (tr_DistinctCaptchaIdentitiesGte (bk_Trip s)) 0 ++
  validator_ratio "trip.success_ratio_lte" (tr_SuccessRatioLte (bk_Trip s)) false ++
  (if bk_Enabled s && f_eqb (tr_RiskRatioGte (bk_Trip s)) f_zero
      && (tr_DistinctCaptchaIdentitiesGte (bk_Trip s) =? 0)%Z
      && f_eqb (tr_SuccessRatioLte (bk_Trip s)) f_zero
   then addf "trip" msgNoTrip else []) ++
  validator_duration "open_duration" (bk_OpenDuration s) Second 0 ++
  validator_duration "max_open_duration" (bk_MaxOpenDuration s) Second 0 ++
  (if negb (IsPermanent (bk_OpenDuration s)) && negb (IsPermanent (bk_MaxOpenDuration s))
      && (bk_MaxOpenDuration s <? bk_OpenDuration s)%Z
   then addf "max_open_duration" (msgMaxBelow (bk_OpenDuration s)) else []) ++
  validator_duration "reset_open_count_after" (bk_ResetOpenCountAfter s) Second 0 ++
  validator_minInt "half_open.probe_leases_per_10s" (ho_ProbeLeasesPer10s (bk_HalfOpen s)) 1 ++
  validator_minInt "half_open.close_min_samples" (ho_CloseMinSamples (bk_HalfOpen s)) 1 ++
  validator_ratio "half_open.close_success_ratio_gte"
    (ho_CloseSuccessRatioGte (bk_HalfOpen s)) true ++
  (if negb (ValidRevertMode (bk_RevertRecentCooldowns s))
   then addf "revert_recent_cooldowns" (msgRevert (bk_RevertRecentCooldowns s)) else []).

Definition BreakerSpec_Validate (s : option BreakerSpec) : option ValidationError :=
  match s with
  | None => Some {| ve_Kind := KindBreaker; ve_Name := ""; ve_Problems := addf "" msgNilSpec |}
  | Some s => validator_result KindBreaker (bk_Name s) (BreakerSpec_problems s)
  end.

(** ** Consequences of validation *)

Lemma if_addf_nil (b : bool) path m : (if b then addf path m else []) = [] → b = false.
Proof. by destruct b. Qed.

(** A validated breaker splits its window, counted in whole milliseconds,
    into equal buckets of at least one second. *)
Theorem breaker_buckets s :
  BreakerSpec_Validate (Some s) = None →
  (1 ≤ bk_Buckets s ≤ 60)%Z ∧
  (Duration_Milliseconds (bk_Window s)
     = bk_Buckets s * Z.quot (Duration_Milliseconds (bk_Window s)) (bk_Buckets s))%Z ∧
  (1000 ≤ Z.quot (Duration_Milliseconds (bk_Window s)) (bk_Buckets s))%Z ∧
  (Second ≤ BucketDuration (Some s))%Z ∧
  (bk_Buckets s * BucketDuration (Some s) ≤ bk_Window s)%Z.
Proof.
  intros Hv%validator_result_none. unfold BreakerSpec_problems in Hv.
  apply app_eq_nil in Hv as [_ [Hw%validator_duration_nil [Hb%validator_intRange_nil
    [Hs _]%app_eq_nil]%app_eq_nil]%app_eq_nil].
  unfold maxBreakerBuckets in Hb.
  rewrite (proj2 (Z.leb_le Second _)), (proj2 (Z.leb_le 1 _)), (proj2 (Z.leb_le _ maxBreakerBuckets)) in Hs
    by (unfold maxBreakerBuckets; lia).
  unfold IsPermanent in Hs. rewrite (proj2 (Z.eqb_neq _ _)) in Hs by tauto. cbn [andb negb] in Hs.
  destruct (Z.rem _ _ =? 0)%Z eqn:Hr; [|done]. cbn [negb] in Hs. apply if_addf_nil in Hs.
  bool_to_prop. unfold BucketDuration. rewrite (proj2 (Z.leb_gt (bk_Buckets s) 0)) by lia.
  assert (Duration_Milliseconds (bk_Window s) = bk_Window s / 1000000)%Z as Hms.
  { unfold Duration_Milliseconds, IsPermanent. rewrite (proj2 (Z.eqb_neq _ _)) by tauto.
    apply Z.quot_div_nonneg; unfold Second, Millisecond in *; lia. }
  rewrite Hms in *. set (w := bk_Window s) in *. set (n := bk_Buckets s) in *.
  assert (0 ≤ w)%Z by (unfold Second, Millisecond in *; lia).
  assert (0 ≤ w / 1000000)%Z by (apply Z.div_pos; lia).
  rewrite !Z.quot_div_nonneg in * by lia. rewrite Z.rem_mod_nonneg in Hr by lia.
  pose proof (Z.div_mod (w / 1000000) n ltac:(lia)).
  split_and!; [lia..| |].
  - apply Z.div_le_lower_bound; [lia|]. unfold Second, Millisecond.
    pose proof (Z.mul_div_le w 1000000 ltac:(lia)). nia.
  - apply Z.mul_div_le. lia.
Qed.

(** A validated rotation policy leases for 5 seconds to 30 minutes, never
    beyond the maximum lease lifetime, itself at most a day, and allows 1 to
    10000 concurrent leases. *)
Theorem rotation_lease_bounds s :
  RotationSpec_Validate (Some s) = None →
  (5 * Second ≤ rp_LeaseTTL (rs_Rotation s) ≤ 30 * Minute)%Z ∧
  (rp_LeaseTTL (rs_Rotation s) ≤ rp_MaxLeaseLifetime (rs_Rotation s) ≤ 24 * Hour)%Z ∧
  (1 ≤ rp_MaxConcurrentLeases (rs_Rotation s) ≤ 10000)%Z ∧
  (1 ≤ rp_CandidateSample (rs_Rotation s) ≤ 256)%Z.
Proof.
  intros Hv%validator_result_none. unfold RotationSpec_problems in Hv.
  apply app_eq_nil in Hv as [_ [_ [Hr _]%app_eq_nil]%app_eq_nil]. unfold RotationParams_validate in Hr.
  apply app_eq_nil in Hr as [_ [Hc%validator_intRange_nil [Ht%validator_duration_nil
    [Hl%validator_duration_nil [Hm%if_addf_nil [Hn%validator_intRange_nil _]%app_eq_nil]%app_eq_nil]
    %app_eq_nil]%app_eq_nil]%app_eq_nil].
  unfold IsPermanent in Hm. rewrite !(proj2 (Z.eqb_neq _ _)) in Hm by tauto. cbn [andb negb] in Hm.
  bool_to_prop. destruct Ht as (_ & ? & Ht), Hl as (_ & ? & Hl).
  specialize (Ht ltac:(done)). specialize (Hl ltac:(done)).
  unfold maxCandidateSample, maxConcurrentLeases, minLeaseTTL, maxLeaseTTL, maxLeaseLifetime in *.
  split_and!; lia.
Qed.
