(* ===== verification/PolicySeverity.v ===== *)
(** * Planned actions and their severity (internal/policy/severity.go)

    [MostSevere] reduces planned actions to one per subject and
    [CooldownDuration] computes exponential cooldowns. *)

From S2P Require Import Prelude GoStrings GoFloat PolicyBase PolicyAction.

Record PlannedAction := {
  pa_Action : string;
  pa_Scope : string;
  pa_Duration : Z;
  pa_Permanent : bool;
  pa_Severity : Z;
  pa_RuleIndex : Z;
  pa_RuleName : string;
  pa_Source : string;
}.

Definition SeverityActivate : Z := 0.
Definition SeverityCooldown : Z := 1.
Definition SeverityQuarantine : Z := 2.
Definition SeverityExpire : Z := 3.
Definition SeverityTemporaryBan : Z := 4.
Definition SeverityPermanentBan : Z := 5.

Definition Severity (a : PlannedAction) : Z :=
  if String.eqb (pa_Action a) ActionActivate then SeverityActivate
  else if String.eqb (pa_Action a) ActionCooldown then SeverityCooldown
  else if String.eqb (pa_Action a) ActionQuarantine then SeverityQuarantine
  else if String.eqb (pa_Action a) ActionExpire then SeverityExpire
  else if String.eqb (pa_Action a) ActionBan then
    if pa_Permanent a then SeverityPermanentBan else SeverityTemporaryBan
  else -1.

Definition with_severity (a : PlannedAction) (sev : Z) : PlannedAction :=
  {| pa_Action := pa_Action a; pa_Scope := pa_Scope a; pa_Duration := pa_Duration a;
     pa_Permanent := pa_Permanent a; pa_Severity := sev; pa_RuleIndex := pa_RuleIndex a;
     pa_RuleName := pa_RuleName a; pa_Source := pa_Source a |}.

Definition effectiveDuration (a : PlannedAction) : Z :=
  if pa_Permanent a then int64_max else pa_Duration a.

Definition scopeBreadth (s : string) : Z :=
  if string_in s [ScopeIdentityEndpoint; ScopeProxySite] then 0
  else if string_in s [ScopeIdentitySite; ScopeProxy; ScopeAccount] then 1
  else if String.eqb s ScopeIdentity then 2
  else -1.

Definition moreSevere (a b : PlannedAction) : bool :=
  if negb (Severity a =? Severity b)%Z then (Severity b <? Severity a)%Z
  else if negb (effectiveDuration a =? effectiveDuration b)%Z
  then (effectiveDuration b <? effectiveDuration a)%Z
  else if negb (scopeBreadth (pa_Scope a) =? scopeBreadth (pa_Scope b))%Z
  then (scopeBreadth (pa_Scope b) <? scopeBreadth (pa_Scope a))%Z
  else (pa_RuleIndex a <? pa_RuleIndex b)%Z.

(** The slot of the [best] array an action competes for. *)
Definition subject_slot (scope : string) : nat :=
  if String.eqb (Subject scope) SubjectIdentity then 0
  else if String.eqb (Subject scope) SubjectAccount then 1
  else if String.eqb (Subject scope) SubjectProxy then 2
  else 3.

(** [best[g]] is the index of the winner, or -1. *)
Fixpoint most_severe_loop (actions : list PlannedAction) (best : list Z) (i : nat)
    (l : list PlannedAction) : list Z :=
  match l with
  | [] => best
  | a :: l' =>
      let g := subject_slot (pa_Scope a) in
      let cur := nth g best (-1)%Z in
      let wins :=
        (cur <? 0)%Z ||
        match actions !! Z.to_nat cur with Some b => moreSevere a b | None => false end in
      most_severe_loop actions (if wins then <[g := Z.of_nat i]> best else best) (S i) l'
  end.

Definition MostSevere (actions : list PlannedAction) : list PlannedAction :=
  match actions with
  | [] => []
  | _ =>
      omap (λ idx,
        if (idx <? 0)%Z then None
        else (λ a, with_severity a (Severity a)) <$> actions !! Z.to_nat idx)
        (most_severe_loop actions [-1; -1; -1; -1]%Z 0 actions)
  end.

(** ** Cooldowns *)

Definition CooldownDuration (base maxDur : Z) (multiplier : float64) (maxExponent streak : Z)
    (jitter : float64) : Z :=
  if (base <=? 0)%Z then 0%Z
  else
    let streak := if (streak <? 1)%Z then 1%Z else streak in
    let maxExponent := if (maxExponent <? 0)%Z then 0%Z else maxExponent in
    let multiplier := if negb (f_leb (f_of_Z 1) multiplier) then f_of_Z 1 else multiplier in
    let jitter :=
      if IsNaN jitter then f_of_Z 1
      else if f_ltb jitter (f_const 8 10) then f_const 8 10
      else if f_ltb (f_const 12 10) jitter then f_const 12 10
      else jitter in
    let exponent := (streak - 1)%Z in
    let exponent := if (maxExponent <? exponent)%Z then maxExponent else exponent in
    let d := f_mul (f_of_Z base) (math_Pow multiplier exponent) in
    let d := if (0 <? maxDur)%Z && f_ltb (f_of_Z maxDur) d then f_of_Z maxDur else d in
    let d := f_mul d jitter in
    let maxFloat := f_of_Z int64_max in
    if f_leb maxFloat d || IsInf_pos d then int64_max
    else
      let ms := math_Round (f_div d (f_of_Z Millisecond)) in
      let ms := if f_ltb ms (f_of_Z 1) then f_of_Z 1 else ms in
      if f_leb maxFloat (f_mul ms (f_of_Z Millisecond)) then int64_max
      else wrap64 (f_trunc ms * Millisecond).

(** ** Reduction to one action per subject *)

#[export] Instance moreSevere_rank : StrictRank moreSevere.
Proof.
  unfold moreSevere. split.
  - intros x. rewrite !Z.eqb_refl. cbn. apply Z.ltb_irrefl.
  - intros x y z. repeat case_match; bool_to_prop; rewrite ?Z.ltb_lt; lia.
  - intros x y z. repeat case_match; bool_to_prop; rewrite ?Z.ltb_ge; lia.
Qed.

(** The actions of one slot, and the reference: the best of each slot. *)
Definition slot_actions (g : nat) (actions : list PlannedAction) : list PlannedAction :=
  List.filter (λ a, (subject_slot (pa_Scope a) =? g)%nat) actions.

Definition severe_ref (actions : list PlannedAction) : list PlannedAction :=
  omap (λ g, (λ a, with_severity a (Severity a)) <$> pick_best moreSevere (slot_actions g actions))
    [0; 1; 2; 3].

(** What the loop has found in [pre]: slot [g] holds the index of the best
    action of that slot. *)
Definition slots_inv (actions pre : list PlannedAction) (best : list Z) : Prop :=
  length best = 4 ∧
  ∀ g, g < 4 →
    match pick_best moreSevere (slot_actions g pre) with
    | None => nth g best (-1)%Z = (-1)%Z
    | Some b => (0 ≤ nth g best (-1))%Z ∧ actions !! Z.to_nat (nth g best (-1)%Z) = Some b
    end.

Lemma subject_slot_lt s : subject_slot s < 4.
Proof. unfold subject_slot. repeat case_match; lia. Qed.

Lemma slot_actions_snoc g pre a :
  slot_actions g (pre ++ [a]) =
  slot_actions g pre ++ (if (subject_slot (pa_Scope a) =? g)%nat then [a] else []).
Proof. unfold slot_actions. rewrite List.filter_app. cbn. done. Qed.

Lemma nth_insert_eq {A} (l : list A) i x d : i < length l → nth i (<[i := x]> l) d = x.
Proof. intros. by rewrite nth_lookup, list_lookup_insert_eq. Qed.
Lemma nth_insert_ne {A} (l : list A) i j x d : i ≠ j → nth j (<[i := x]> l) d = nth j l d.
Proof. intros. by rewrite !nth_lookup, list_lookup_insert_ne. Qed.

Lemma most_severe_loop_inv actions pre l best :
  actions = pre ++ l → slots_inv actions pre best →
  slots_inv actions actions (most_severe_loop actions best (length pre) l).
Proof.
  revert pre best. induction l as [|a l IH]; intros pre best Ha Hinv; cbn [most_severe_loop].
  { rewrite app_nil_r in Ha. by subst. }
  cbv zeta. replace (S (length pre)) with (length (pre ++ [a])) by (rewrite length_app; cbn; lia).
  apply IH; [by rewrite <- app_assoc|]. destruct Hinv as [Hlen Hinv].
  set (g0 := subject_slot (pa_Scope a)). pose proof (subject_slot_lt (pa_Scope a)) as Hg0. fold g0 in Hg0.
  assert (actions !! length pre = Some a) as Hat by (subst; by rewrite list_lookup_middle).
  split; [case_match; by rewrite ?length_insert|]. intros g Hg.
  rewrite slot_actions_snoc. fold g0. destruct (Nat.eqb_spec g0 g) as [<-|Hne].
  2:{ rewrite app_nil_r. specialize (Hinv g Hg).
      match goal with |- context [if ?w then <[_ := _]> best else best] => destruct w end;
        [by rewrite nth_insert_ne|done]. }
  specialize (Hinv g0 Hg0). rewrite pick_best_snoc. unfold keep_best.
  destruct (pick_best moreSevere (slot_actions g0 pre)) as [b|] eqn:Hb.
  - destruct Hinv as [Hpos Hbest]. rewrite (proj2 (Z.ltb_ge _ _) Hpos), Hbest. cbn [orb].
    destruct (moreSevere a b); [|done].
    rewrite nth_insert_eq by lia. rewrite Nat2Z.id. split; [lia|done].
  - rewrite Hinv. cbn [orb Z.ltb Z.compare]. rewrite nth_insert_eq by lia.
    rewrite Nat2Z.id. split; [lia|done].
Qed.

Lemma MostSevere_ref actions : MostSevere actions = severe_ref actions.
Proof.
  destruct actions as [|a l] eqn:Heq; [done|]. rewrite <- Heq.
  unfold MostSevere. rewrite Heq at 1. unfold severe_ref.
  destruct (most_severe_loop_inv actions [] actions [-1; -1; -1; -1]%Z eq_refl) as [Hlen Hinv].
  { split; [done|]. intros g Hg. cbn. by do 4 (destruct g as [|g]; [done|]); lia. }
  cbn [length] in *. set (best := most_severe_loop actions _ 0 actions) in *.
  destruct best as [|b0 [|b1 [|b2 [|b3 [|? ?]]]]]; try done.
  pose proof (Hinv 0 ltac:(lia)) as H0. pose proof (Hinv 1 ltac:(lia)) as H1.
  pose proof (Hinv 2 ltac:(lia)) as H2. pose proof (Hinv 3 ltac:(lia)) as H3. cbn [nth] in *.
  assert (∀ (b : Z) (o : option PlannedAction),
    match o with None => b = (-1)%Z | Some x => (0 ≤ b)%Z ∧ actions !! Z.to_nat b = Some x end →
    (if (b <? 0)%Z then None else (λ a, with_severity a (Severity a)) <$> actions !! Z.to_nat b)
    = (λ a, with_severity a (Severity a)) <$> o) as Hslot.
  { intros b [x|]; [intros [Hb Hx]; by rewrite (proj2 (Z.ltb_ge _ _) Hb), Hx|by intros ->]. }
  cbn [omap list_omap]. by rewrite (Hslot b0 _ H0), (Hslot b1 _ H1), (Hslot b2 _ H2), (Hslot b3 _ H3).
Qed.

Lemma elem_of_MostSevere actions w :
  w ∈ MostSevere actions ↔
  ∃ x, pick_best moreSevere (slot_actions (subject_slot (pa_Scope x)) actions) = Some x ∧
       w = with_severity x (Severity x).
Proof.
  rewrite MostSevere_ref. unfold severe_ref. rewrite list_elem_of_omap. split.
  - intros (g & Hg & Hw). apply fmap_Some in Hw as (x & Hx & ->). exists x. split; [|done].
    pose proof (pick_best_spec _ _ _ Hx) as [Hin _]%selected_max; [|apply _].
    apply list_elem_of_In, filter_In in Hin as [_ Hslot]. apply Nat.eqb_eq in Hslot. congruence.
  - intros (x & Hx & ->). exists (subject_slot (pa_Scope x)). rewrite Hx. split; [|done].
    pose proof (subject_slot_lt (pa_Scope x)).
    destruct (subject_slot (pa_Scope x)) as [|[|[|[|]]]]; [set_solver..|lia].
Qed.

Lemma elem_of_MostSevere_input actions w :
  w ∈ MostSevere actions → ∃ x, x ∈ actions ∧ w = with_severity x (Severity x).
Proof.
  intros (x & Hx & ->)%elem_of_MostSevere. exists x. split; [|done].
  apply pick_best_spec, selected_max in Hx as [Hin _]; [|apply _..].
  by apply list_elem_of_In, filter_In in Hin as [Hin%list_elem_of_In _].
Qed.

(** [MostSevere] keeps exactly one action per subject that has one: each
    result is an input with its severity recomputed, results are in subject
    order without repetition, and no input strictly outranks the result of
    its subject. *)
Theorem MostSevere_spec actions :
  StronglySorted lt (subject_slot ∘ pa_Scope <$> MostSevere actions) ∧
  (∀ w, w ∈ MostSevere actions → ∃ x, x ∈ actions ∧ w = with_severity x (Severity x)) ∧
  (∀ x, x ∈ actions → ∃ w, w ∈ MostSevere actions ∧
     subject_slot (pa_Scope w) = subject_slot (pa_Scope x) ∧ moreSevere x w = false).
Proof.
  split_and!.
  - rewrite MostSevere_ref. unfold severe_ref.
    assert (∀ gs, StronglySorted lt gs → StronglySorted lt (subject_slot ∘ pa_Scope <$>
      omap (λ g, (λ a, with_severity a (Severity a)) <$> pick_best moreSevere (slot_actions g actions)) gs)
      ∧ ∀ s, s ∈ (subject_slot ∘ pa_Scope <$> omap (λ g, (λ a, with_severity a (Severity a)) <$>
          pick_best moreSevere (slot_actions g actions)) gs) → s ∈ gs) as H;
      [|apply H; repeat constructor].
    induction 1 as [|g gs Hs [IH1 IH2] Hg]; [split; [constructor|done]|]. cbn [omap list_omap].
    destruct (pick_best moreSevere (slot_actions g actions)) as [x|] eqn:Hx; [|split; set_solver].
    pose proof (pick_best_spec _ _ _ Hx) as [Hin _]%selected_max; [|apply _].
    apply list_elem_of_In, filter_In in Hin as [_ Hslot]. apply Nat.eqb_eq in Hslot.
    cbn [fmap option_fmap option_map]. rewrite fmap_cons. cbn [compose pa_Scope with_severity].
    rewrite Hslot. split; [|set_solver]. constructor; [done|].
    rewrite Forall_forall in Hg |- *. auto.
  - apply elem_of_MostSevere_input.
  - intros x Hx.
    assert (x ∈ slot_actions (subject_slot (pa_Scope x)) actions) as Hin.
    { apply list_elem_of_In, filter_In. split; [by apply list_elem_of_In|apply Nat.eqb_refl]. }
    destruct (pick_best moreSevere (slot_actions (subject_slot (pa_Scope x)) actions)) as [w|] eqn:Hw.
    + pose proof (pick_best_spec _ _ _ Hw) as [Hwin Hmax]%selected_max; [|apply _].
      apply list_elem_of_In, filter_In in Hwin as [_ Hslot]. apply Nat.eqb_eq in Hslot.
      exists (with_severity w (Severity w)). split; [|split; [exact Hslot|by apply Hmax]].
      apply elem_of_MostSevere. exists w. by rewrite Hslot.
    + apply pick_best_none in Hw. rewrite Hw in Hin. set_solver.
Qed.
