(* ===== verification/PolicyEvaluate.v ===== *)
(** * Evaluating action policies (internal/policy/evaluate.go)

    [CompileAction] compiles a chain of action policies and [Evaluate] plans
    the actions of one classified report. *)

From S2P Require Import Prelude GoStrings GoFloat PolicyBase PolicySignal PolicyAction PolicySeverity.

Definition SourceRule : string := "rule".
Definition SourceHealth : string := "health".
Definition SourceLifecycle : string := "lifecycle".
Definition SourceEscalation : string := "escalation".

Definition identityStatePending : string := "pending".

Definition proxyObservationSuccess : float64 := f_of_Z 100.
Definition proxyObservationProxyError : float64 := f_of_Z 0.
Definition proxyObservationNetworkError : float64 := f_of_Z 40.
Definition proxyObservationRateLimited : float64 := f_of_Z 30.

Record CounterRequest := { cr_Subject : string; cr_Outcome : string; cr_Window : Z }.

#[export] Instance CounterRequest_eq_dec : EqDecision CounterRequest.
Proof. solve_decision. Defined.

(** Missing map keys count as 0, so the two count maps are functions.  The
    jitter source is a function from the number of earlier calls. *)
Record EvalInput := {
  in_Outcome : string;
  in_Blame : string;
  in_IdentityState : string;
  in_HasAccount : bool;
  in_HasProxy : bool;
  in_Counts : CounterRequest → Z;
  in_BanCounts : Z → Z;
  in_EndpointStreak : Z;
  in_SiteStreak : Z;
  in_ProxyStreak : Z;
  in_EndpointScore : float64;
  in_EndpointSamples : Z;
  in_GlobalScore : float64;
  in_GlobalSamples : Z;
  in_EndpointCooldownRemaining : Z;
  in_Jitter : option (nat → float64);
}.

Record actionMatcher := {
  am_index : Z;
  am_name : string;
  am_outcomes : Z;
  am_hasCount : bool;
  am_countGte : Z;
  am_countWindow : Z;
  am_subject : string;
  am_action : string;
  am_scope : string;
  am_base : Z;
  am_maxDur : Z;
  am_multiplier : float64;
  am_maxExponent : Z;
  am_duration : Z;
  am_permanent : bool;
}.

Record escalationStep := { se_gte : Z; se_window : Z; se_duration : Z; se_permanent : bool }.

Record healthThresholds := {
  ht_endpointLowScore : float64;
  ht_endpointLowMinSamples : Z;
  ht_endpointLowCooldown : Z;
  ht_quarantineScore : float64;
  ht_quarantineMinSamples : Z;
  ht_quarantineDuration : Z;
}.

Record CompiledAction := {
  ac_Mode : string;
  ac_Health : HealthSpec;
  ac_CrossAttribution : CrossAttributionSpec;
  ac_BanExpiryState : string;
  ac_rules : list actionMatcher;
  ac_escalation : list escalationStep;
  ac_counters : list (list CounterRequest);
  ac_escalationWindows : list Z;
  ac_observations : list float64;
  ac_observed : list bool;
  ac_failureResetAfter : Z;
  ac_health : healthThresholds;
}.

(** ** Compilation *)

Definition outcome_bits (l : list string) : Z :=
  foldl (λ bits o, if (0 <=? outcomeIndex o)%Z then Z.lor bits (Z.shiftl 1 (outcomeIndex o)) else bits)
    0%Z l.

Definition compileActionRule (index : nat) (policy : string) (i : nat) (r : ActionRule) :
    actionMatcher :=
  {| am_index := Z.of_nat index;
     am_name := ruleLabel policy i (ar_Name r);
     am_outcomes := outcome_bits (aw_Outcome (ar_When r));
     am_hasCount := match aw_Count (ar_When r) with Some _ => true | None => false end;
     am_countGte := match aw_Count (ar_When r) with Some c => cc_Gte c | None => 0 end;
     am_countWindow := match aw_Count (ar_When r) with Some c => cc_Within c | None => 0 end;
     am_subject := Subject (ar_Scope r);
     am_action := ar_Action r;
     am_scope := if String.eqb (ar_Action r) ActionCooldown && String.eqb (ar_Scope r) ScopeIdentity
                 then ScopeIdentitySite else ar_Scope r;
     am_base := ar_Base r;
     am_maxDur := ar_Max r;
     am_multiplier := ar_Multiplier r;
     am_maxExponent := ar_MaxExponent r;
     am_duration := if IsPermanent (ar_Duration r) then 0 else ar_Duration r;
     am_permanent := IsPermanent (ar_Duration r) |}.

(** The rules of a chain with the policy and the position they come from. *)
Definition action_chain_rules (chain : list ActionSpec) : list (string * nat * ActionRule) :=
  mjoin ((λ s, imap (λ i r, (as_Name s, i, r)) (as_Rules s)) <$> chain).

Definition compile_matchers (chain : list ActionSpec) : list actionMatcher :=
  imap (λ index '(policy, i, r), compileActionRule index policy i r) (action_chain_rules chain).

(** The longest [failure_reset_after] of the cooldown rules. *)
Definition reset_after (chain : list ActionSpec) : Z :=
  (foldl (λ '(acc, saw) '(_, _, r),
     if String.eqb (ar_Action r) ActionCooldown then
       (if negb saw || (acc <? ar_FailureResetAfter r)%Z then ar_FailureResetAfter r else acc, true)
     else (acc, saw))
   (DefaultFailureResetAfter, false) (action_chain_rules chain)).1.

Definition add_distinct {A} `{EqDecision A} (l : list A) (x : A) : list A :=
  if bool_decide (x ∈ l) then l else l ++ [x].

Definition matcher_has (m : actionMatcher) (idx : Z) : bool :=
  negb (Z.land (am_outcomes m) (Z.shiftl 1 idx) =? 0)%Z.

Definition counters_for (rules : list actionMatcher) (idx : nat) (name : string) :
    list CounterRequest :=
  foldl (λ reqs m,
    if negb (am_hasCount m) || negb (matcher_has m (Z.of_nat idx)) then reqs
    else add_distinct reqs
           {| cr_Subject := am_subject m; cr_Outcome := name; cr_Window := am_countWindow m |})
    [] rules.

Definition compile_step (st : EscalationStep) : escalationStep :=
  {| se_gte := cc_Gte (es_Bans st); se_window := cc_Within (es_Bans st);
     se_duration := if IsPermanent (es_Duration st) then 0 else es_Duration st;
     se_permanent := IsPermanent (es_Duration st) |}.

(** The escalation of the leaf, or of its nearest ancestor that has one; the
    chain is given leaf first. *)
Fixpoint compileEscalation (leafFirst : list ActionSpec) : list escalationStep :=
  match leafFirst with
  | [] => []
  | s :: rest =>
      match as_Escalation s with
      | [] => compileEscalation rest
      | steps => compile_step <$> steps
      end
  end.

Definition default_observations : list (string * float64) :=
  [(OutcomeSuccess, f_of_Z 100); (OutcomeEmpty, f_of_Z 60); (OutcomeNetworkError, f_of_Z 50);
   (OutcomeRateLimited, f_of_Z 30); (OutcomeForbidden, f_of_Z 10); (OutcomeCaptcha, f_of_Z 0)].

Definition observe (obs : list float64 * list bool) (d : string * float64) :
    list float64 * list bool :=
  let idx := outcomeIndex d.1 in
  if (0 <=? idx)%Z then (<[Z.to_nat idx := d.2]> obs.1, <[Z.to_nat idx := true]> obs.2) else obs.

Definition compileObservations (overrides : gmap string float64) : list float64 * list bool :=
  foldl observe
    (foldl observe (replicate outcomeCount f_zero, replicate outcomeCount false) default_observations)
    (map_to_list overrides).

Inductive compileActionErr :=
| caEmpty
| caNil (i : nat)
| caInvalid (name : string) (e : ValidationError).

Fixpoint action_chain_check (i : nat) (chain : list (option ActionSpec)) :
    result compileActionErr (list ActionSpec) :=
  match chain with
  | [] => Ok []
  | None :: _ => Err (caNil i)
  | Some s :: chain' =>
      match ActionSpec_Validate (Some s) with
      | Some e => Err (caInvalid (as_Name s) e)
      | None =>
          match action_chain_check (S i) chain' with
          | Err e => Err e
          | Ok specs => Ok (s :: specs)
          end
      end
  end.

Definition compile_action (specs : list ActionSpec) (leaf : ActionSpec) : CompiledAction :=
  let rules := compile_matchers specs in
  let escalation := compileEscalation (reverse specs) in
  let h := as_Health leaf in
  {| ac_Mode := as_Mode leaf;
     ac_Health := h;
     ac_CrossAttribution := as_CrossAttribution leaf;
     ac_BanExpiryState := as_BanExpiryState leaf;
     ac_rules := rules;
     ac_escalation := escalation;
     ac_counters := imap (counters_for rules) Outcomes;
     ac_escalationWindows := foldl add_distinct [] (se_window <$> escalation);
     ac_observations := (compileObservations (h_Observations h)).1;
     ac_observed := (compileObservations (h_Observations h)).2;
     ac_failureResetAfter := reset_after specs;
     ac_health :=
       {| ht_endpointLowScore := h_EndpointLowScore h;
          ht_endpointLowMinSamples := h_EndpointLowMinSamples h;
          ht_endpointLowCooldown := h_EndpointLowCooldown h;
          ht_quarantineScore := h_QuarantineScore h;
          ht_quarantineMinSamples := h_QuarantineMinSamples h;
          ht_quarantineDuration := h_QuarantineDuration h |} |}.

Definition CompileAction (chain : list (option ActionSpec)) : result compileActionErr CompiledAction :=
  match chain with
  | [] => Err caEmpty
  | _ =>
      match action_chain_check 0 chain with
      | Err e => Err e
      | Ok specs =>
          match last specs with
          | Some leaf => Ok (compile_action specs leaf)
          | None => Err caEmpty
          end
      end
  end.

(** ** Queries *)

Definition effectiveBlame (outcome blame : string) : string :=
  if String.eqb blame "" then DefaultBlame outcome else blame.

Definition CounterRequests (c : option CompiledAction) (outcome : string) : list CounterRequest :=
  let idx := outcomeIndex outcome in
  match c with
  | None => []
  | Some c => if (idx <? 0)%Z then [] else nth (Z.to_nat idx) (ac_counters c) []
  end.

Definition EscalationWindows (c : option CompiledAction) : list Z :=
  match c with None => [] | Some c => ac_escalationWindows c end.

Definition FailureResetAfter (c : option CompiledAction) : Z :=
  match c with None => DefaultFailureResetAfter | Some c => ac_failureResetAfter c end.

Definition Shadow (c : option CompiledAction) : bool :=
  match c with None => false | Some c => String.eqb (ac_Mode c) ModeShadow end.

Definition Observation (c : option CompiledAction) (outcome blame : string) : float64 * bool :=
  let idx := outcomeIndex outcome in
  match c with
  | None => (f_zero, false)
  | Some c =>
      if (idx <? 0)%Z || negb (nth (Z.to_nat idx) (ac_observed c) false) then (f_zero, false)
      else
        let v := nth (Z.to_nat idx) (ac_observations c) f_zero in
        if String.eqb outcome OutcomeSuccess then (v, true)
        else (v, Blame_Identity (effectiveBlame outcome blame))
  end.

Definition ProxyObservation (outcome blame : string) : float64 * bool :=
  let blame := effectiveBlame outcome blame in
  if String.eqb outcome OutcomeSuccess then (proxyObservationSuccess, true)
  else if String.eqb outcome OutcomeProxyError then (proxyObservationProxyError, Blame_Proxy blame)
  else if String.eqb outcome OutcomeNetworkError
  then (proxyObservationNetworkError, Blame_Proxy blame)
  else if String.eqb outcome OutcomeRateLimited
  then (proxyObservationRateLimited, Blame_Proxy blame)
  else (f_zero, false).

(** ** Planning *)

Definition streakFor (scope : string) (in' : EvalInput) : Z :=
  if String.eqb scope ScopeIdentityEndpoint then in_EndpointStreak in'
  else if string_in scope [ScopeProxySite; ScopeProxy] then in_ProxyStreak in'
  else in_SiteStreak in'.

Definition jitterFactor (fn : option (nat → float64)) (calls : nat) : float64 :=
  match fn with
  | None => f_of_Z 1
  | Some fn =>
      let j := fn calls in
      let j := if IsNaN j || f_ltb j f_zero then f_zero
               else if f_ltb (f_of_Z 1) j then f_of_Z 1 else j in
      f_add (f_const 8 10) (f_mul (f_const 4 10) j)
  end.

Definition stepLonger (a b : escalationStep) : bool :=
  if negb (Bool.eqb (se_permanent a) (se_permanent b)) then se_permanent a
  else (se_duration b <? se_duration a)%Z.

Definition stepBetter (st b : escalationStep) : bool :=
  (se_gte b <? se_gte st)%Z || ((se_gte st =? se_gte b)%Z && stepLonger st b).

(** The step [escalate] selects: the scan keeps the best matching one. *)
Definition matching_step (steps : list escalationStep) (in' : EvalInput) : option escalationStep :=
  foldl (λ best st,
    if (wrap64 (in_BanCounts in' (se_window st) + 1) <? se_gte st)%Z then best
    else match best with
         | None => Some st
         | Some b => if stepBetter st b then Some st else best
         end) None steps.

Definition escalate (steps : list escalationStep) (pa : PlannedAction) (in' : EvalInput) :
    PlannedAction :=
  match matching_step steps in' with
  | None => pa
  | Some st =>
      if se_permanent st then
        {| pa_Action := pa_Action pa; pa_Scope := pa_Scope pa; pa_Duration := 0;
           pa_Permanent := true; pa_Severity := pa_Severity pa; pa_RuleIndex := pa_RuleIndex pa;
           pa_RuleName := pa_RuleName pa; pa_Source := SourceEscalation |}
      else if (pa_Duration pa <? se_duration st)%Z then
        {| pa_Action := pa_Action pa; pa_Scope := pa_Scope pa; pa_Duration := se_duration st;
           pa_Permanent := pa_Permanent pa; pa_Severity := pa_Severity pa;
           pa_RuleIndex := pa_RuleIndex pa; pa_RuleName := pa_RuleName pa;
           pa_Source := SourceEscalation |}
      else pa
  end.

(** The scope the action applies at, or [None] when the rule is gated off. *)
Definition plan_scope (m : actionMatcher) (in' : EvalInput) : option string :=
  let scope := am_scope m in
  let subject := Subject scope in
  if String.eqb subject SubjectIdentity then
    if negb (Blame_Identity (in_Blame in')) then None else Some scope
  else if String.eqb subject SubjectAccount then
    if negb (Blame_Identity (in_Blame in')) then None
    else if negb (in_HasAccount in') then
      Some (if String.eqb (am_action m) ActionCooldown then ScopeIdentitySite else ScopeIdentity)
    else Some scope
  else if String.eqb subject SubjectProxy then
    if negb (Blame_Proxy (in_Blame in')) || negb (in_HasProxy in') then None else Some scope
  else None.

Definition planned (action scope : string) (duration : Z) (permanent : bool) (index : Z)
    (name source : string) : PlannedAction :=
  {| pa_Action := action; pa_Scope := scope; pa_Duration := duration; pa_Permanent := permanent;
     pa_Severity := 0; pa_RuleIndex := index; pa_RuleName := name; pa_Source := source |}.

Definition planRule (c : CompiledAction) (m : actionMatcher) (in' : EvalInput) (calls : nat) :
    option PlannedAction :=
  match plan_scope m in' with
  | None => None
  | Some scope =>
      let mk d permanent := planned (am_action m) scope d permanent (am_index m) (am_name m) SourceRule in
      let pa :=
        if String.eqb (am_action m) ActionCooldown then
          mk (CooldownDuration (am_base m) (am_maxDur m) (am_multiplier m) (am_maxExponent m)
                (streakFor scope in') (jitterFactor (in_Jitter in') calls)) false
        else if String.eqb (am_action m) ActionBan then
          if am_permanent m then mk 0%Z true
          else if negb (String.eqb (Subject scope) SubjectProxy)
          then escalate (ac_escalation c) (mk (am_duration m) false) in'
          else mk (am_duration m) false
        else if String.eqb (am_action m) ActionQuarantine then mk (am_duration m) false
        else mk 0%Z false in
      Some (with_severity pa (Severity pa))
  end.

Definition rule_fires (m : actionMatcher) (in' : EvalInput) : bool :=
  matcher_has m (outcomeIndex (in_Outcome in')) &&
  negb (am_hasCount m &&
    (in_Counts in' {| cr_Subject := am_subject m; cr_Outcome := in_Outcome in';
                      cr_Window := am_countWindow m |} <? am_countGte m)%Z).

(** The loop over the rules; each cooldown plan draws one jitter value. *)
Fixpoint plan_rules (c : CompiledAction) (rules : list actionMatcher) (in' : EvalInput) (calls : nat) :
    list PlannedAction :=
  match rules with
  | [] => []
  | m :: rules' =>
      if negb (rule_fires m in') then plan_rules c rules' in' calls
      else match planRule c m in' calls with
           | None => plan_rules c rules' in' calls
           | Some pa =>
               pa :: plan_rules c rules' in'
                       (if String.eqb (am_action m) ActionCooldown then S calls else calls)
           end
  end.

Definition appendHealth (c : CompiledAction) (in' : EvalInput) : list PlannedAction :=
  if negb (Blame_Identity (in_Blame in')) && negb (IsFailureOutcome (in_Outcome in')) then []
  else
    let h := ac_health c in
    (if (ht_endpointLowMinSamples h <=? in_EndpointSamples in')%Z
        && f_ltb (in_EndpointScore in') (ht_endpointLowScore h)
        && (in_EndpointCooldownRemaining in' <? ht_endpointLowCooldown h)%Z
     then let pa := planned ActionCooldown ScopeIdentityEndpoint (ht_endpointLowCooldown h) false
                      (-1)%Z RuleNameEndpointLow SourceHealth in
          [with_severity pa (Severity pa)]
     else []) ++
    (if (ht_quarantineMinSamples h <=? in_GlobalSamples in')%Z
        && f_ltb (in_GlobalScore in') (ht_quarantineScore h)
     then let pa := planned ActionQuarantine ScopeIdentity (ht_quarantineDuration h) false
                      (-1)%Z RuleNameQuarantine SourceHealth in
          [with_severity pa (Severity pa)]
     else []).

Definition with_blame (in' : EvalInput) (blame : string) : EvalInput :=
  {| in_Outcome := in_Outcome in'; in_Blame := blame; in_IdentityState := in_IdentityState in';
     in_HasAccount := in_HasAccount in'; in_HasProxy := in_HasProxy in';
     in_Counts := in_Counts in'; in_BanCounts := in_BanCounts in';
     in_EndpointStreak := in_EndpointStreak in'; in_SiteStreak := in_SiteStreak in';
     in_ProxyStreak := in_ProxyStreak in'; in_EndpointScore := in_EndpointScore in';
     in_EndpointSamples := in_EndpointSamples in'; in_GlobalScore := in_GlobalScore in';
     in_GlobalSamples := in_GlobalSamples in';
     in_EndpointCooldownRemaining := in_EndpointCooldownRemaining in';
     in_Jitter := in_Jitter in' |}.

(** The actions planned before the reduction. *)
Definition plan_all (c : CompiledAction) (in' : EvalInput) : list PlannedAction :=
  (if String.eqb (in_IdentityState in') identityStatePending
      && String.eqb (in_Outcome in') OutcomeSuccess
   then [planned ActionActivate ScopeIdentity 0 false (-1)%Z RuleNameActivate SourceLifecycle] else []) ++
  (if (0 <=? outcomeIndex (in_Outcome in'))%Z then plan_rules c (ac_rules c) in' 0 else []) ++
  appendHealth c in'.

Definition Evaluate (c : option CompiledAction) (in' : EvalInput) : list PlannedAction :=
  match c with
  | None => []
  | Some c => MostSevere (plan_all c (with_blame in' (effectiveBlame (in_Outcome in') (in_Blame in'))))
  end.

(** ** Outcome sets *)

Lemma outcomeIndex_inj a b :
  (0 ≤ outcomeIndex a)%Z → outcomeIndex a = outcomeIndex b → a = b.
Proof.
  intros Ha Hab.
  assert (Outcomes !! Z.to_nat (outcomeIndex a) = Some a) by (apply outcomeIndex_lookup; lia).
  assert (Outcomes !! Z.to_nat (outcomeIndex a) = Some b) by (apply outcomeIndex_lookup; lia).
  congruence.
Qed.

Lemma outcome_bits_testbit l o :
  (0 ≤ outcomeIndex o)%Z → Z.testbit (outcome_bits l) (outcomeIndex o) = bool_decide (o ∈ l).
Proof.
  intros Ho. unfold outcome_bits.
  assert (∀ bits, Z.testbit (foldl (λ bits o, if (0 <=? outcomeIndex o)%Z
      then Z.lor bits (Z.shiftl 1 (outcomeIndex o)) else bits) bits l) (outcomeIndex o)
    = Z.testbit bits (outcomeIndex o) || bool_decide (o ∈ l)) as H; [|by rewrite H, Z.bits_0].
  induction l as [|x l IH]; intros bits; cbn; [by rewrite orb_false_r|]. rewrite IH.
  destruct (0 <=? outcomeIndex x)%Z eqn:Hx; bool_to_prop.
  - rewrite testbit_lor_shift, <- orb_assoc by done. f_equal. apply eq_bool_prop_intro.
    rewrite !Is_true_true, orb_true_iff, Z.eqb_eq, !bool_decide_eq_true, elem_of_cons.
    split; intros [H|H]; auto; [left; by apply outcomeIndex_inj|left; congruence].
  - f_equal. apply bool_decide_ext. rewrite elem_of_cons. split; [auto|].
    intros [->|?]; [lia|done].
Qed.

Lemma matcher_has_spec index policy i r o :
  (0 ≤ outcomeIndex o)%Z →
  matcher_has (compileActionRule index policy i r) (outcomeIndex o)
  = bool_decide (o ∈ aw_Outcome (ar_When r)).
Proof.
  intros Ho. unfold matcher_has. rewrite land_shift_zero, negb_involutive by done.
  by apply outcome_bits_testbit.
Qed.

(** ** Distinct collections *)

Lemma elem_of_add_distinct {A} `{EqDecision A} (l : list A) x y :
  y ∈ add_distinct l x ↔ y ∈ l ∨ y = x.
Proof. unfold add_distinct. case_bool_decide; set_solver. Qed.

Lemma NoDup_add_distinct {A} `{EqDecision A} (l : list A) x : NoDup l → NoDup (add_distinct l x).
Proof.
  intros Hnd. unfold add_distinct. case_bool_decide; [done|].
  apply NoDup_app. split_and!; [done|set_solver|apply NoDup_singleton].
Qed.

Lemma elem_of_foldl_distinct {A} `{EqDecision A} (l acc : list A) y :
  y ∈ foldl add_distinct acc l ↔ y ∈ acc ∨ y ∈ l.
Proof.
  revert acc. induction l as [|x l IH]; intros acc; cbn; [set_solver|].
  rewrite IH, elem_of_add_distinct. set_solver.
Qed.

Lemma NoDup_foldl_distinct {A} `{EqDecision A} (l acc : list A) :
  NoDup acc → NoDup (foldl add_distinct acc l).
Proof.
  revert acc. induction l as [|x l IH]; intros acc Hnd; cbn; [done|].
  apply IH. by apply NoDup_add_distinct.
Qed.

Definition request_of (m : actionMatcher) (name : string) : CounterRequest :=
  {| cr_Subject := am_subject m; cr_Outcome := name; cr_Window := am_countWindow m |}.

Lemma counters_for_distinct rules idx name :
  counters_for rules idx name = foldl add_distinct []
    (omap (λ m, if am_hasCount m && matcher_has m (Z.of_nat idx)
                then Some (request_of m name) else None) rules).
Proof.
  unfold counters_for. generalize (@nil CounterRequest) as acc.
  induction rules as [|m rules IH]; intros acc; cbn; [done|]. rewrite IH.
  by destruct (am_hasCount m), (matcher_has m (Z.of_nat idx)).
Qed.

Lemma elem_of_counters_for rules idx name q :
  q ∈ counters_for rules idx name ↔
  ∃ m, m ∈ rules ∧ am_hasCount m = true ∧ matcher_has m (Z.of_nat idx) = true ∧ q = request_of m name.
Proof.
  rewrite counters_for_distinct, elem_of_foldl_distinct, list_elem_of_omap. split.
  - intros [[]%not_elem_of_nil|(m & Hm & Hq)]. exists m. case_match; [|done]. bool_to_prop.
    by simplify_eq.
  - intros (m & Hm & H1 & H2 & ->). right. exists m. by rewrite H1, H2.
Qed.

(** ** What an evaluation depends on *)

Definition with_counts (in' : EvalInput) (counts : CounterRequest → Z) (bans : Z → Z) : EvalInput :=
  {| in_Outcome := in_Outcome in'; in_Blame := in_Blame in'; in_IdentityState := in_IdentityState in';
     in_HasAccount := in_HasAccount in'; in_HasProxy := in_HasProxy in';
     in_Counts := counts; in_BanCounts := bans;
     in_EndpointStreak := in_EndpointStreak in'; in_SiteStreak := in_SiteStreak in';
     in_ProxyStreak := in_ProxyStreak in'; in_EndpointScore := in_EndpointScore in';
     in_EndpointSamples := in_EndpointSamples in'; in_GlobalScore := in_GlobalScore in';
     in_GlobalSamples := in_GlobalSamples in';
     in_EndpointCooldownRemaining := in_EndpointCooldownRemaining in';
     in_Jitter := in_Jitter in' |}.

Lemma matching_step_frame steps in' counts bans :
  (∀ st, st ∈ steps → bans (se_window st) = in_BanCounts in' (se_window st)) →
  matching_step steps (with_counts in' counts bans) = matching_step steps in'.
Proof.
  unfold matching_step. cbn [in_BanCounts with_counts]. generalize (@None escalationStep) as best.
  induction steps as [|st steps IH]; intros best Hb; cbn; [done|].
  rewrite (Hb st) by set_solver. apply IH. set_solver.
Qed.

Lemma planRule_frame c m in' counts bans calls :
  (∀ w, w ∈ se_window <$> ac_escalation c → bans w = in_BanCounts in' w) →
  planRule c m (with_counts in' counts bans) calls = planRule c m in' calls.
Proof.
  intros Hb. unfold planRule, escalate.
  rewrite matching_step_frame by (intros st Hst; apply Hb; by apply list_elem_of_fmap_2).
  done.
Qed.

Lemma plan_rules_frame c rules in' counts bans calls :
  (∀ w, w ∈ se_window <$> ac_escalation c → bans w = in_BanCounts in' w) →
  (∀ m, m ∈ rules → rule_fires m (with_counts in' counts bans) = rule_fires m in') →
  plan_rules c rules (with_counts in' counts bans) calls = plan_rules c rules in' calls.
Proof.
  intros Hb. revert calls. induction rules as [|m rules IH]; intros calls Hf; cbn [plan_rules]; [done|].
  rewrite (Hf m), planRule_frame by (done || set_solver).
  by rewrite !IH by set_solver.
Qed.

Lemma action_chain_check_spec i chain specs :
  action_chain_check i chain = Ok specs →
  chain = Some <$> specs ∧ Forall (λ s, ActionSpec_Validate (Some s) = None) specs.
Proof.
  revert i specs. induction chain as [|[s|] chain IH]; intros i specs; cbn [action_chain_check].
  - by intros [= <-].
  - destruct (ActionSpec_Validate (Some s)) eqn:Hv; [done|].
    destruct (action_chain_check (S i) chain) as [specs'|] eqn:Hc; [|done]. intros [= <-].
    apply IH in Hc as [-> Hf]. split; [done|]. by constructor.
  - done.
Qed.

Lemma CompileAction_ok chain c :
  CompileAction chain = Ok c →
  ∃ specs leaf, chain = Some <$> specs ∧ last specs = Some leaf ∧
    Forall (λ s, ActionSpec_Validate (Some s) = None) specs ∧ c = compile_action specs leaf.
Proof.
  unfold CompileAction. destruct chain as [|o chain]; [done|].
  destruct (action_chain_check 0 (o :: chain)) as [specs|] eqn:Hc; [|done].
  destruct (last specs) as [leaf|] eqn:Hl; [|done]. intros [= <-].
  apply action_chain_check_spec in Hc as [? ?]. eauto 10.
Qed.

(** An evaluation reads no counter outside [CounterRequests] of the
    reported outcome and no ban count outside [EscalationWindows]: inputs that
    agree there give the same plan, so callers that fetch only those keys lose
    nothing. *)
Theorem Evaluate_frame chain c in' counts bans :
  CompileAction chain = Ok c →
  (∀ q, q ∈ CounterRequests (Some c) (in_Outcome in') → counts q = in_Counts in' q) →
  (∀ w, w ∈ EscalationWindows (Some c) → bans w = in_BanCounts in' w) →
  Evaluate (Some c) (with_counts in' counts bans) = Evaluate (Some c) in'.
Proof.
  intros (specs & leaf & _ & _ & _ & ->)%CompileAction_ok. set (c := compile_action specs leaf).
  intros Hq Hw. unfold Evaluate. f_equal.
  set (in1 := with_blame in' (effectiveBlame (in_Outcome in') (in_Blame in'))).
  change (plan_all c (with_counts in1 counts bans) = plan_all c in1).
  unfold plan_all. f_equal. f_equal. cbn [in_Outcome with_counts].
  change (in_Outcome in1) with (in_Outcome in').
  destruct (0 <=? outcomeIndex (in_Outcome in'))%Z eqn:Hidx; [|done]. bool_to_prop.
  apply plan_rules_frame.
  - intros w Hin. apply Hw. cbn. apply elem_of_foldl_distinct. by right.
  - intros m Hm. unfold rule_fires. cbn [in_Outcome in_Counts with_counts].
    change (in_Outcome in1) with (in_Outcome in'). change (in_Counts in1) with (in_Counts in').
    destruct (matcher_has m _) eqn:Hhas; [|done]. destruct (am_hasCount m) eqn:Hcnt; [|done].
    fold (request_of m (in_Outcome in')). rewrite Hq; [done|].
    unfold CounterRequests. rewrite (proj2 (Z.ltb_ge _ _)) by done.
    unfold c, compile_action. cbn [ac_counters].
    assert (Outcomes !! Z.to_nat (outcomeIndex (in_Outcome in')) = Some (in_Outcome in')) as Hname
      by (apply outcomeIndex_lookup; lia).
    rewrite nth_lookup, list_lookup_imap, Hname. cbn.
    apply elem_of_counters_for. exists m. rewrite Z2Nat.id by done. auto.
Qed.

(** ** Gating *)

Lemma elem_of_plan_rules c rules in' calls pa :
  pa ∈ plan_rules c rules in' calls →
  ∃ m k, m ∈ rules ∧ rule_fires m in' = true ∧ planRule c m in' k = Some pa.
Proof.
  revert calls. induction rules as [|m rules IH]; intros calls; cbn [plan_rules]; [set_solver|].
  destruct (rule_fires m in') eqn:Hf; cbn [negb].
  2:{ intros (m' & k & ? & ?)%IH. exists m', k. set_solver. }
  destruct (planRule c m in' calls) as [pa'|] eqn:Hp.
  - intros [->|Hin]%elem_of_cons; [exists m, calls; set_solver|].
    apply IH in Hin as (m' & k & ? & ?). exists m', k. set_solver.
  - intros (m' & k & ? & ?)%IH. exists m', k. set_solver.
Qed.

Lemma escalate_keeps steps pa in' :
  pa_Action (escalate steps pa in') = pa_Action pa ∧ pa_Scope (escalate steps pa in') = pa_Scope pa ∧
  pa_RuleIndex (escalate steps pa in') = pa_RuleIndex pa ∧
  pa_RuleName (escalate steps pa in') = pa_RuleName pa.
Proof. unfold escalate. by repeat case_match. Qed.

Lemma planRule_inv c m in' k pa :
  planRule c m in' k = Some pa →
  plan_scope m in' = Some (pa_Scope pa) ∧ pa_Action pa = am_action m ∧ pa_Severity pa = Severity pa.
Proof.
  unfold planRule. destruct (plan_scope m in') as [scope|]; [|done]. intros [= <-].
  destruct (String.eqb (am_action m) ActionCooldown); [done|].
  destruct (String.eqb (am_action m) ActionBan).
  - destruct (am_permanent m); [done|]. case_match; [|done]. cbn.
    set (pa := planned _ _ _ _ _ _ _). destruct (escalate_keeps (ac_escalation c) pa in') as (-> & -> & _).
    split_and!; done.
  - by destruct (String.eqb (am_action m) ActionQuarantine).
Qed.

Definition gated (in' : EvalInput) (pa : PlannedAction) : Prop :=
  let blame := effectiveBlame (in_Outcome in') (in_Blame in') in
  (Subject (pa_Scope pa) = SubjectProxy → Blame_Proxy blame = true ∧ in_HasProxy in' = true) ∧
  (Subject (pa_Scope pa) = SubjectAccount → Blame_Identity blame = true ∧ in_HasAccount in' = true) ∧
  (Subject (pa_Scope pa) = SubjectIdentity →
     Blame_Identity blame = true ∨ IsFailureOutcome (in_Outcome in') = true ∨
     pa_Action pa = ActionActivate ∧ in_IdentityState in' = identityStatePending ∧
       in_Outcome in' = OutcomeSuccess) ∧
  Subject (pa_Scope pa) ≠ "".

Lemma plan_scope_gated m in' scope :
  plan_scope m in' = Some scope →
  (Subject scope = SubjectProxy ∧ Blame_Proxy (in_Blame in') = true ∧ in_HasProxy in' = true ∧
     scope = am_scope m) ∨
  (Subject scope = SubjectAccount ∧ Blame_Identity (in_Blame in') = true ∧
     in_HasAccount in' = true ∧ scope = am_scope m) ∨
  (Subject scope = SubjectIdentity ∧ Blame_Identity (in_Blame in') = true ∧
     (scope = am_scope m ∨ Subject (am_scope m) = SubjectAccount ∧
        scope = if String.eqb (am_action m) ActionCooldown then ScopeIdentitySite else ScopeIdentity)).
Proof.
  unfold plan_scope. destruct (String.eqb (Subject (am_scope m)) SubjectIdentity) eqn:H1; bool_to_prop.
  { destruct (Blame_Identity _); [|done]. intros [= <-]. right; right. auto. }
  destruct (String.eqb (Subject (am_scope m)) SubjectAccount) eqn:H2; bool_to_prop.
  { destruct (Blame_Identity _); [|done]. cbn. destruct (in_HasAccount in'); cbn; intros [= <-]; [auto 10|].
    right; right. by destruct (String.eqb (am_action m) ActionCooldown); auto 10. }
  destruct (String.eqb (Subject (am_scope m)) SubjectProxy) eqn:H3; bool_to_prop; [|done].
  destruct (Blame_Proxy _), (in_HasProxy in'); cbn; try done. intros [= <-]. auto.
Qed.

Lemma elem_of_appendHealth c in' pa :
  pa ∈ appendHealth c in' →
  (Blame_Identity (in_Blame in') = true ∨ IsFailureOutcome (in_Outcome in') = true) ∧
  pa_Severity pa = Severity pa ∧
  (pa_Action pa = ActionCooldown ∧ pa_Scope pa = ScopeIdentityEndpoint ∨
   pa_Action pa = ActionQuarantine ∧ pa_Scope pa = ScopeIdentity).
Proof.
  unfold appendHealth.
  destruct (Blame_Identity (in_Blame in')) eqn:H1, (IsFailureOutcome (in_Outcome in')) eqn:H2; cbn [negb andb].
  4: set_solver.
  all: rewrite elem_of_app; intros [H|H]; case_match; try (by apply not_elem_of_nil in H).
  all: apply list_elem_of_singleton in H as ->; auto 10.
Qed.

(** C19: blame gates every planned action: a proxy is only acted on when the
    blame includes it and the report had one, an account likewise, and an
    identity only when blamed, when the outcome is a failure, or to activate it
    after a success.  No action has an unknown scope. *)
Theorem Evaluate_gated c in' pa :
  pa ∈ Evaluate (Some c) in' → gated in' pa.
Proof.
  intros (x & Hx & ->)%elem_of_MostSevere_input. unfold gated. cbn [pa_Scope pa_Action with_severity].
  set (blame := effectiveBlame _ _) in *. unfold plan_all in Hx. cbn [in_Outcome with_blame] in Hx.
  rewrite !elem_of_app in Hx. destruct Hx as [Hx|[Hx|Hx]].
  - cbn in Hx. case_match; [|by apply not_elem_of_nil in Hx]. bool_to_prop.
    apply list_elem_of_singleton in Hx as ->. cbn. naive_solver.
  - case_match; [|by apply not_elem_of_nil in Hx].
    apply elem_of_plan_rules in Hx as (m & k & _ & _ & Hp).
    apply planRule_inv in Hp as (Hs & _). apply plan_scope_gated in Hs. cbn in Hs.
    destruct Hs as [(HS & ?)|[(HS & ?)|(HS & ?)]]; rewrite HS; naive_solver.
  - apply elem_of_appendHealth in Hx as (Hg & _ & Hs). cbn in Hg.
    destruct Hs as [[? ->]|[? ->]]; cbn; naive_solver.
Qed.

(** ** Validated rules *)

Lemma ActionRule_validate_allowed r path :
  ActionRule_validate r path = [] → ScopeAllowed (ar_Action r) (ar_Scope r) = true.
Proof.
  unfold ActionRule_validate. cbv zeta. intros H.
  do 3 apply app_eq_nil in H as [_ H]. apply app_eq_nil in H as [Hs H].
  destruct (String.eqb (Subject (ar_Scope r)) ""); [done|].
  destruct (action_validate r path) as [ps|]; [|done].
  apply app_eq_nil in H as [_ H]. by destruct (ScopeAllowed _ _).
Qed.

Lemma action_rules_allowed i names rules :
  action_rules_validate i names rules = [] →
  Forall (λ r, ScopeAllowed (ar_Action r) (ar_Scope r) = true) rules.
Proof.
  revert i names. induction rules as [|r rules IH]; intros i names; [constructor|].
  cbn [action_rules_validate]. cbv zeta. destruct (validateRuleName _ _ _ _) as [ps names'].
  intros [_ [_ [Hr Hrs]%app_eq_nil]%app_eq_nil]%app_eq_nil.
  constructor; [by eapply ActionRule_validate_allowed|by eapply IH].
Qed.

Lemma ActionSpec_Validate_inv s :
  ActionSpec_Validate (Some s) = None →
  Forall (λ r, ScopeAllowed (ar_Action r) (ar_Scope r) = true) (as_Rules s) ∧
  validateEscalation (as_Escalation s) = [].
Proof.
  intros Hv%validator_result_none. unfold ActionSpec_problems in Hv.
  do 3 apply app_eq_nil in Hv as [_ Hv]. apply app_eq_nil in Hv as [Hr [He _]%app_eq_nil].
  split; [by eapply action_rules_allowed|done].
Qed.

(** Every compiled rule comes from a rule of a policy of the chain. *)
Lemma elem_of_compile_matchers specs m :
  m ∈ compile_matchers specs →
  ∃ s r index i, s ∈ specs ∧ r ∈ as_Rules s ∧ m = compileActionRule index (as_Name s) i r.
Proof.
  intros [index Hm]%list_elem_of_lookup. unfold compile_matchers in Hm.
  rewrite list_lookup_imap in Hm. apply fmap_Some in Hm as ([[policy i] r] & Hr & ->).
  apply list_elem_of_lookup_2, list_elem_of_join in Hr as (l & Hr & Hl).
  apply list_elem_of_fmap in Hl as (s & -> & Hs). apply list_elem_of_lookup in Hr as [j Hj].
  rewrite list_lookup_imap in Hj. apply fmap_Some in Hj as (r' & Hr' & [= -> -> ->]).
  exists s, r', index, j. split_and!; [done|by eapply list_elem_of_lookup_2|done].
Qed.

Lemma ScopeAllowed_cooldown scope : Subject scope ≠ "" → ScopeAllowed ActionCooldown scope = true.
Proof. intros H. cbn. by apply negb_true_iff, String.eqb_neq. Qed.

(** A degraded account rule stays within the scopes of its action. *)
Lemma plan_scope_allowed index policy i r in' scope (m := compileActionRule index policy i r) :
  ScopeAllowed (ar_Action r) (ar_Scope r) = true → plan_scope m in' = Some scope →
  ScopeAllowed (am_action m) scope = true.
Proof.
  intros Ha Hs. apply plan_scope_gated in Hs. subst m. cbn [am_action am_scope compileActionRule] in *.
  destruct (String.eqb (ar_Action r) ActionCooldown) eqn:Hc.
  { apply String.eqb_eq in Hc. rewrite Hc. apply ScopeAllowed_cooldown.
    destruct Hs as [(-> & _)|[(-> & _)|(-> & _)]]; done. }
  cbn [andb] in Hs.
  destruct Hs as [(_ & _ & _ & ->)|[(_ & _ & _ & ->)|(_ & _ & [->|[Hsub ->]])]]; try done.
  assert (ar_Scope r = ScopeAccount) as Hacc.
  { unfold Subject in Hsub. repeat case_match; try done. by apply String.eqb_eq. }
  rewrite Hacc in Ha. unfold ScopeAllowed in *. rewrite Hc in *.
  destruct (String.eqb (ar_Action r) ActionBan); [done|].
  destruct (String.eqb (ar_Action r) ActionExpire); [done|].
  by destruct (String.eqb (ar_Action r) ActionQuarantine).
Qed.

Lemma Severity_range pa :
  (ScopeAllowed (pa_Action pa) (pa_Scope pa) = true ∨ pa_Action pa = ActionActivate) →
  (0 ≤ Severity pa ≤ 5)%Z.
Proof.
  unfold ScopeAllowed, Severity, SeverityActivate, SeverityCooldown, SeverityQuarantine, SeverityExpire,
    SeverityTemporaryBan, SeverityPermanentBan. intros [H| ->]; [|cbn; lia].
  destruct (String.eqb (pa_Action pa) ActionActivate); [lia|].
  destruct (String.eqb (pa_Action pa) ActionCooldown); [lia|].
  destruct (String.eqb (pa_Action pa) ActionQuarantine); [lia|].
  destruct (String.eqb (pa_Action pa) ActionExpire); [lia|].
  destruct (String.eqb (pa_Action pa) ActionBan); [destruct (pa_Permanent pa); lia|done].
Qed.

(** Every action that a compiled chain plans is one the rest of the system
    knows how to apply: an activation of the identity, or an action at a scope
    that is allowed for it, with its severity between 0 and 5. *)
Theorem Evaluate_allowed chain c in' pa :
  CompileAction chain = Ok c → pa ∈ Evaluate (Some c) in' →
  (ScopeAllowed (pa_Action pa) (pa_Scope pa) = true ∨
   pa_Action pa = ActionActivate ∧ pa_Scope pa = ScopeIdentity) ∧
  pa_Severity pa = Severity pa ∧ (0 ≤ pa_Severity pa ≤ 5)%Z.
Proof.
  intros (specs & leaf & _ & _ & Hv & ->)%CompileAction_ok.
  intros (x & Hx & ->)%elem_of_MostSevere_input.
  assert (ScopeAllowed (pa_Action x) (pa_Scope x) = true ∨
    pa_Action x = ActionActivate ∧ pa_Scope x = ScopeIdentity) as Hok.
  { unfold plan_all in Hx. rewrite !elem_of_app in Hx. destruct Hx as [Hx|[Hx|Hx]].
    - case_match; [|by apply not_elem_of_nil in Hx]. apply list_elem_of_singleton in Hx as ->. auto.
    - case_match; [|by apply not_elem_of_nil in Hx].
      apply elem_of_plan_rules in Hx as (m & k & Hm & _ & (Hs & Hact & _)%planRule_inv).
      apply elem_of_compile_matchers in Hm as (s & r & index & i & Hs' & Hr & ->).
      rewrite Forall_forall in Hv. specialize (Hv _ Hs'). apply ActionSpec_Validate_inv in Hv as [Hv _].
      rewrite Forall_forall in Hv. left. rewrite Hact. eapply plan_scope_allowed; [by apply Hv|done].
    - apply elem_of_appendHealth in Hx as (_ & _ & [[-> ->]|[-> ->]]); by left. }
  split; [done|]. split; [done|]. cbn [pa_Severity with_severity].
  apply Severity_range. tauto.
Qed.

(** ** Escalation *)

Definition step_applies (in' : EvalInput) (st : escalationStep) : bool :=
  negb (wrap64 (in_BanCounts in' (se_window st) + 1) <? se_gte st)%Z.

(** The length of a ban that a step imposes. *)
Definition step_length (st : escalationStep) : Z :=
  if se_permanent st then int64_max else se_duration st.

Lemma validateEscalation_sorted i prev steps :
  validateEscalation_from i prev steps = [] →
  StronglySorted (λ a b, se_gte a < se_gte b)%Z (compile_step <$> steps) ∧
  ∀ p, prev = Some p → Forall (λ st, cc_Gte (es_Bans p) < se_gte st)%Z (compile_step <$> steps).
Proof.
  revert i prev. induction steps as [|st steps IH]; intros i prev; cbn [validateEscalation_from].
  { intros _. split; constructor. }
  intros [Hst [Hs Hall]%IH]%app_eq_nil. specialize (Hall st eq_refl). rewrite fmap_cons.
  split; [by constructor|]. intros p ->. unfold step_validate in Hst.
  do 3 apply app_eq_nil in Hst as [_ Hst]. apply app_eq_nil in Hst as [Hg _].
  destruct (cc_Gte (es_Bans st) <=? _)%Z eqn:Hle; [done|]. bool_to_prop.
  constructor; [done|]. eapply Forall_impl; [exact Hall|]. cbn. lia.
Qed.

Lemma compileEscalation_sorted specs :
  Forall (λ s, ActionSpec_Validate (Some s) = None) specs →
  StronglySorted (λ a b, se_gte a < se_gte b)%Z (compileEscalation specs).
Proof.
  induction 1 as [|s specs Hs _ IH]; [constructor|]. cbn [compileEscalation].
  apply ActionSpec_Validate_inv in Hs as [_ He].
  destruct (as_Escalation s) as [|st steps] eqn:Hsteps; [done|].
  by apply validateEscalation_sorted in He as [? _].
Qed.

Lemma matching_step_snoc steps st in' :
  matching_step (steps ++ [st]) in' =
  if step_applies in' st then
    match matching_step steps in' with
    | None => Some st
    | Some b => if stepBetter st b then Some st else Some b
    end
  else matching_step steps in'.
Proof.
  unfold matching_step, step_applies. rewrite foldl_app. cbn.
  destruct (wrap64 _ <? _)%Z; [done|]. cbn. by destruct (foldl _ None steps).
Qed.

Lemma matching_step_in steps in' st : matching_step steps in' = Some st → st ∈ steps.
Proof.
  induction steps as [|x steps IH] using rev_ind; [done|]. rewrite matching_step_snoc.
  destruct (step_applies in' x); [|set_solver].
  destruct (matching_step steps in') as [b|]; [case_match|]; intros [= <-]; set_solver.
Qed.

(** In an ordered ladder the last applicable step wins. *)
Lemma matching_step_last steps in' :
  StronglySorted (λ a b, se_gte a < se_gte b)%Z steps →
  matching_step steps in' = last (List.filter (step_applies in') steps).
Proof.
  induction steps as [|x steps IH] using rev_ind; [done|]. intros Hs.
  pose proof (StronglySorted_app_1_l _ _ _ Hs) as Hs1.
  rewrite matching_step_snoc, List.filter_app, IH by done. cbn [List.filter].
  destruct (step_applies in' x); [|by rewrite app_nil_r]. rewrite last_snoc, <- IH by done.
  destruct (matching_step steps in') as [b|] eqn:Hb; [|done].
  apply matching_step_in in Hb.
  assert (se_gte b < se_gte x)%Z as Hlt.
  { apply (StronglySorted_app_1_elem_of _ _ _ b x Hs Hb). set_solver. }
  unfold stepBetter. by rewrite (proj2 (Z.ltb_lt _ _) Hlt).
Qed.

(** On a compiled ladder, a temporary ban is lengthened to the last
    applicable step of the ladder, and never shortened: the resulting length
    is the longer of the rule's and the step's. *)
Theorem escalate_longest chain c in' pa :
  CompileAction chain = Ok c → pa_Permanent pa = false → (pa_Duration pa ≤ int64_max)%Z →
  effectiveDuration (escalate (ac_escalation c) pa in') =
  match last (List.filter (step_applies in') (ac_escalation c)) with
  | None => pa_Duration pa
  | Some st => Z.max (pa_Duration pa) (step_length st)
  end.
Proof.
  intros (specs & leaf & _ & _ & Hv & ->)%CompileAction_ok Hp Hd.
  cbn [ac_escalation compile_action]. unfold escalate.
  rewrite matching_step_last
    by (apply compileEscalation_sorted; by rewrite Forall_reverse).
  destruct (last _) as [st|]; unfold effectiveDuration, step_length; [|by rewrite Hp].
  destruct (se_permanent st); [cbn; lia|].
  destruct (pa_Duration pa <? se_duration st)%Z eqn:Hlt; bool_to_prop; cbn; rewrite Hp; lia.
Qed.
