(* ===== verification/PolicyResolve.v ===== *)
(** * Policy resolution and built-in policies (internal/policy: kind.go,
      resolve.go, defaults.go, codec.go)

    [Resolve] picks the most specific binding, [ResolveExtends] follows the
    extends references of a policy, and [Default] gives the built-in
    policies. *)

From S2P Require Import Prelude GoStrings GoFloat PolicyBase PolicySignal PolicyRotation.
From S2P Require Import PolicyAction PolicySeverity PolicyEvaluate.

(** ** The Spec interface

    [specNil] is a nil interface; a typed nil pointer is [None]. *)
Inductive Spec :=
| specNil
| specRotation (s : option RotationSpec)
| specSignal (s : option SignalSpec)
| specAction (s : option ActionSpec)
| specBreaker (s : option BreakerSpec).

Definition isNilSpec (s : Spec) : bool :=
  match s with
  | specNil => true
  | specRotation s => match s with None => true | Some _ => false end
  | specSignal s => match s with None => true | Some _ => false end
  | specAction s => match s with None => true | Some _ => false end
  | specBreaker s => match s with None => true | Some _ => false end
  end.

(** The methods; calling one on a nil interface panics, which no caller here
    does. *)
Definition Spec_Kind (s : Spec) : string :=
  match s with
  | specNil => ""
  | specRotation _ => KindRotation
  | specSignal _ => KindSignal
  | specAction _ => KindAction
  | specBreaker _ => KindBreaker
  end.

Definition PolicyName (s : Spec) : string :=
  match s with
  | specRotation (Some s) => rs_Name s
  | specSignal (Some s) => ss_Name s
  | specAction (Some s) => as_Name s
  | specBreaker (Some s) => bk_Name s
  | _ => ""
  end.

Definition PolicyBinding (s : Spec) : option Binding :=
  match s with
  | specRotation (Some s) => rs_Bind s
  | specSignal (Some s) => ss_Bind s
  | specAction (Some s) => as_Bind s
  | specBreaker (Some s) => bk_Bind s
  | _ => None
  end.

Definition Spec_ApplyDefaults (s : Spec) : Spec :=
  match s with
  | specRotation s => specRotation (RotationSpec_ApplyDefaults <$> s)
  | specAction s => specAction (ActionSpec_ApplyDefaults <$> s)
  | specBreaker s => specBreaker (BreakerSpec_ApplyDefaults <$> s)
  | _ => s
  end.

Definition ParentName (s : Spec) : string :=
  match s with
  | specSignal (Some s) => ss_Extends s
  | specAction (Some s) => as_Extends s
  | _ => ""
  end.

(** Conversion of a chain; the error carries the offending index. *)
Fixpoint signal_chain_from (i : nat) (specs : list Spec) : result nat (list SignalSpec) :=
  match specs with
  | [] => Ok []
  | specSignal (Some s) :: specs' =>
      match signal_chain_from (S i) specs' with Ok l => Ok (s :: l) | Err e => Err e end
  | _ :: _ => Err i
  end.
Definition SignalChain (specs : list Spec) : result nat (list SignalSpec) := signal_chain_from 0 specs.

Fixpoint action_chain_from (i : nat) (specs : list Spec) : result nat (list ActionSpec) :=
  match specs with
  | [] => Ok []
  | specAction (Some s) :: specs' =>
      match action_chain_from (S i) specs' with Ok l => Ok (s :: l) | Err e => Err e end
  | _ :: _ => Err i
  end.
Definition ActionChain (specs : list Spec) : result nat (list ActionSpec) := action_chain_from 0 specs.

(** ** Bindings *)

Record BindingRow := {
  br_PolicyID : string;
  br_Kind : string;
  br_SiteID : string;
  br_Client : string;
  br_EndpointGroupID : string;
}.

Definition LevelEndpointGroup : string := "endpoint_group".
Definition LevelClient : string := "client".
Definition LevelSite : string := "site".
Definition LevelNamespace : string := "namespace".
Definition LevelBuiltin : string := "builtin".

Definition rankNone : nat := 0.
Definition rankNamespace : nat := 1.
Definition rankSite : nat := 2.
Definition rankClient : nat := 3.
Definition rankEndpointGroup : nat := 4.

Definition bindingRank (b : BindingRow) (siteID client endpointGroupID : string) : nat :=
  if String.eqb (br_SiteID b) "" then
    if String.eqb (br_Client b) "" && String.eqb (br_EndpointGroupID b) "" then rankNamespace
    else rankNone
  else if negb (String.eqb (br_SiteID b) siteID) then rankNone
  else if negb (String.eqb (br_EndpointGroupID b) "") then
    if negb (String.eqb endpointGroupID "") && String.eqb (br_EndpointGroupID b) endpointGroupID
       && (String.eqb (br_Client b) "" || String.eqb (br_Client b) client)
    then rankEndpointGroup else rankNone
  else if negb (String.eqb (br_Client b) "") then
    if negb (String.eqb client "") && String.eqb (br_Client b) client then rankClient else rankNone
  else rankSite.

(** The scan keeps the first row of the highest rank. *)
Definition resolve_scan (kind : string) (bindings : list BindingRow) (siteID client group : string) :
    option BindingRow * nat :=
  foldl (λ '(best, bestRank) b,
    if negb (String.eqb (br_Kind b) kind) then (best, bestRank)
    else
      let rank := bindingRank b siteID client group in
      if (bestRank <? rank)%nat then (Some b, rank) else (best, bestRank))
    (None, rankNone) bindings.

Definition level_of (rank : nat) : string :=
  match rank with
  | 4 => LevelEndpointGroup
  | 3 => LevelClient
  | 2 => LevelSite
  | 1 => LevelNamespace
  | _ => LevelBuiltin
  end.

Definition Resolve (kind : string) (bindings : list BindingRow) (siteID client group : string) :
    string * string :=
  match resolve_scan kind bindings siteID client group with
  | (Some b, rank) => (br_PolicyID b, level_of rank)
  | (None, _) => ("", LevelBuiltin)
  end.

(** ** Extends chains *)

Inductive extendsErr :=
| exNilLeaf
| exLeafKind (name got expected : string)
| exCycle (names : list string) (parent : string)
| exDepth (names : list string) (parent : string)
| exNoLookup (name parent : string)
| exUnknown (name kind parent : string)
| exKind (name parent got expected : string)
| exName (parent got : string).

(** The loop: [chain] is leaf first, so its last element is [cur] in the
    code; it is kept reversed here, [cur] at the head. *)
Fixpoint extends_loop (fuel : nat) (kind : string) (lookup : option (string → option Spec))
    (chain : list Spec) (names : list string) (cur : Spec) : result extendsErr (list Spec) :=
  let parent := ParentName cur in
  if String.eqb parent "" then Ok chain
  else if string_in parent names then Err (exCycle names parent)
  else if (MaxExtendsDepth <=? length chain)%nat then Err (exDepth names parent)
  else match lookup with
  | None => Err (exNoLookup (PolicyName cur) parent)
  | Some lookup =>
      match lookup parent with
      | None => Err (exUnknown (PolicyName cur) kind parent)
      | Some next =>
          if isNilSpec next then Err (exUnknown (PolicyName cur) kind parent)
          else if negb (String.eqb (Spec_Kind next) kind)
          then Err (exKind (PolicyName cur) parent (Spec_Kind next) kind)
          else if negb (String.eqb (PolicyName next) parent)
          then Err (exName parent (PolicyName next))
          else match fuel with
               | O => Ok chain
               | S fuel => extends_loop fuel kind (Some lookup) (next :: chain) (names ++ [parent]) next
               end
      end
  end.

(** The depth limit ends the loop, so [MaxExtendsDepth] iterations suffice. *)
Definition ResolveExtends (kind : string) (leaf : Spec) (lookup : option (string → option Spec)) :
    result extendsErr (list Spec) :=
  if isNilSpec leaf then Err exNilLeaf
  else if negb (String.eqb (Spec_Kind leaf) kind)
  then Err (exLeafKind (PolicyName leaf) (Spec_Kind leaf) kind)
  else if negb (String.eqb kind KindSignal) && negb (String.eqb kind KindAction) then Ok [leaf]
  else extends_loop MaxExtendsDepth kind lookup [leaf] [PolicyName leaf] leaf.

(** ** Built-in policies *)

Definition dur (d : Z) : Z := d.
Definition days (n : Z) : Z := n * 24 * Hour.
Definition statuses (codes : list Z) : option IntMatcher :=
  Some {| im_Values := codes; im_Range := None |}.

Definition when_kinds (l : list string) : SignalWhen :=
  {| sw_HTTPStatus := None; sw_BusinessCode := None; sw_ErrorKind := Some l; sw_Markers := None;
     sw_URI := None; sw_Method := None; sw_LatencyMs := None; sw_ResponseBytes := None |}.
Definition when_markers (status : option IntMatcher) (l : StringList) : SignalWhen :=
  {| sw_HTTPStatus := status; sw_BusinessCode := None; sw_ErrorKind := None; sw_Markers := l;
     sw_URI := None; sw_Method := None; sw_LatencyMs := None; sw_ResponseBytes := None |}.
Definition signal_rule (name : string) (w : SignalWhen) (outcome : string) : SignalRule :=
  {| sr_Name := name; sr_When := w; sr_Outcome := outcome; sr_Blame := "" |}.
Definition range_matcher (gte lt : option Z) : option IntMatcher :=
  Some {| im_Values := [];
          im_Range := Some {| ir_Gte := gte; ir_Gt := None; ir_Lte := None; ir_Lt := lt |} |}.

Definition defaultSignalRules : list SignalRule :=
  [signal_rule "proxy-error" (when_kinds [ErrorKindProxyAuth; ErrorKindConnRefused]) OutcomeProxyError;
   signal_rule "network-error"
     (when_kinds [ErrorKindTimeout; ErrorKindConnReset; ErrorKindTLS; ErrorKindDNS]) OutcomeNetworkError;
   signal_rule "captcha" (when_markers None (Some ["captcha_page"])) OutcomeCaptcha;
   signal_rule "login-redirect" (when_markers None (Some ["login_redirect"])) OutcomeAuthInvalid;
   signal_rule "rate-limited" (when_markers (statuses [429]%Z) None) OutcomeRateLimited;
   signal_rule "target-error" (when_markers (range_matcher (Some 500%Z) None) None) OutcomeTargetError;
   signal_rule "empty-list" (when_markers (statuses [200]%Z) (Some ["empty_list"])) OutcomeEmpty;
   signal_rule "client-error" (when_markers (statuses [400]%Z) None) OutcomeClientError;
   signal_rule "auth-invalid" (when_markers (statuses [401]%Z) None) OutcomeAuthInvalid;
   signal_rule "forbidden" (when_markers (statuses [403]%Z) None) OutcomeForbidden;
   signal_rule "success" (when_markers (range_matcher (Some 200%Z) (Some 300%Z)) None) OutcomeSuccess].

Definition action_rule (name outcome : string) (count : option CountCondition) (action scope : string)
    (base : Z) (multiplier : float64) (max duration : Z) : ActionRule :=
  {| ar_Name := name; ar_When := {| aw_Outcome := [outcome]; aw_Count := count |};
     ar_Action := action; ar_Scope := scope; ar_Base := base; ar_Multiplier := multiplier;
     ar_Max := max; ar_MaxExponent := 0; ar_Duration := duration; ar_FailureResetAfter := 0 |}.

Definition defaultActionRules : list ActionRule :=
  [action_rule "rate-limited-cooldown" OutcomeRateLimited None ActionCooldown ScopeIdentityEndpoint
     (dur Minute) (f_of_Z 2) (dur (30 * Minute)) 0;
   action_rule "empty-cooldown" OutcomeEmpty
     (Some {| cc_Gte := 3; cc_Within := dur (10 * Minute) |}) ActionCooldown ScopeIdentityEndpoint
     (dur (5 * Minute)) f_zero 0 0;
   action_rule "captcha-cooldown" OutcomeCaptcha None ActionCooldown ScopeIdentitySite
     (dur (30 * Minute)) (f_of_Z 2) (dur (6 * Hour)) 0;
   action_rule "captcha-ban" OutcomeCaptcha (Some {| cc_Gte := 3; cc_Within := dur (24 * Hour) |})
     ActionBan ScopeIdentity 0 f_zero 0 (dur (12 * Hour));
   action_rule "auth-invalid-expire" OutcomeAuthInvalid None ActionExpire ScopeIdentity 0 f_zero 0 0;
   action_rule "banned-account" OutcomeBanned None ActionBan ScopeAccount 0 f_zero 0 Permanent;
   action_rule "proxy-error-cooldown" OutcomeProxyError None ActionCooldown ScopeProxySite
     (dur (2 * Minute)) f_zero (dur (30 * Minute)) 0].

Definition default_rotation : RotationSpec :=
  let s := newRotationBase in
  {| rs_Name := DefaultPolicyName KindRotation; rs_Description := "Built-in default rotation policy.";
     rs_Bind := rs_Bind s; rs_IdentityTypes := rs_IdentityTypes s; rs_Rotation := rs_Rotation s;
     rs_Proxy := rs_Proxy s |}.

Definition default_signal : SignalSpec :=
  {| ss_Name := DefaultPolicyName KindSignal; ss_Description := "Built-in default signal policy.";
     ss_Bind := ss_Bind newSignalBase; ss_Extends := ss_Extends newSignalBase;
     ss_TrustOutcomeHint := ss_TrustOutcomeHint newSignalBase; ss_Rules := defaultSignalRules |}.

Definition default_action : ActionSpec :=
  let s := newActionBase in
  ActionSpec_ApplyDefaults
    {| as_Name := DefaultPolicyName KindAction; as_Description := "Built-in default action policy.";
       as_Bind := as_Bind s; as_Extends := as_Extends s; as_Mode := as_Mode s;
       as_Rules := defaultActionRules;
       as_Escalation :=
         [{| es_Bans := {| cc_Gte := 2; cc_Within := days 7 |}; es_Duration := dur (72 * Hour) |};
          {| es_Bans := {| cc_Gte := 3; cc_Within := days 30 |}; es_Duration := Permanent |}];
       as_Health := as_Health s; as_BanExpiryState := as_BanExpiryState s;
       as_CrossAttribution := as_CrossAttribution s |}.

Definition default_breaker : BreakerSpec :=
  let s := newBreakerBase in
  {| bk_Name := DefaultPolicyName KindBreaker; bk_Description := "Built-in default breaker policy.";
     bk_Bind := bk_Bind s; bk_Enabled := bk_Enabled s; bk_Window := bk_Window s;
     bk_Buckets := bk_Buckets s; bk_MinRequests := bk_MinRequests s; bk_Trip := bk_Trip s;
     bk_OpenDuration := bk_OpenDuration s; bk_MaxOpenDuration := bk_MaxOpenDuration s;
     bk_ResetOpenCountAfter := bk_ResetOpenCountAfter s; bk_HalfOpen := bk_HalfOpen s;
     bk_RevertRecentCooldowns := bk_RevertRecentCooldowns s |}.

Definition Default (kind : string) : Spec :=
  if String.eqb kind KindRotation then specRotation (Some default_rotation)
  else if String.eqb kind KindSignal then specSignal (Some default_signal)
  else if String.eqb kind KindAction then specAction (Some default_action)
  else if String.eqb kind KindBreaker then specBreaker (Some default_breaker)
  else specNil.

(** ** Decoding: the base of a kind and the final checks *)

Definition newBase (kind : string) : option Spec :=
  if String.eqb kind KindRotation then Some (specRotation (Some newRotationBase))
  else if String.eqb kind KindSignal then Some (specSignal (Some newSignalBase))
  else if String.eqb kind KindAction then Some (specAction (Some newActionBase))
  else if String.eqb kind KindBreaker then Some (specBreaker (Some newBreakerBase))
  else None.

Section engine.
Context `{RE : RegexEngine}.

Definition Spec_Validate (s : Spec) : option ValidationError :=
  match s with
  | specNil => None
  | specRotation s => RotationSpec_Validate s
  | specSignal s => SignalSpec_Validate s
  | specAction s => ActionSpec_Validate s
  | specBreaker s => BreakerSpec_Validate s
  end.

Definition finish (s : Spec) : result ValidationError Spec :=
  let s := Spec_ApplyDefaults s in
  match Spec_Validate s with Some e => Err e | None => Ok s end.
End engine.

(** ** Resolution picks the most specific binding *)

Section resolve.
Context (kind siteID client group : string).

Definition row_rank (b : BindingRow) : nat := bindingRank b siteID client group.
Definition row_better (a b : BindingRow) : bool := (row_rank b <? row_rank a)%nat.
Definition row_applies (b : BindingRow) : bool :=
  String.eqb (br_Kind b) kind && (0 <? row_rank b)%nat.

#[local] Instance row_better_rank : StrictRank row_better.
Proof.
  unfold row_better. split.
  - intros x. apply Nat.ltb_irrefl.
  - intros x y z. rewrite !Nat.ltb_lt. lia.
  - intros x y z. rewrite !Nat.ltb_ge. lia.
Qed.

Lemma resolve_scan_best bindings :
  resolve_scan kind bindings siteID client group =
  match pick_best row_better (List.filter row_applies bindings) with
  | Some b => (Some b, row_rank b)
  | None => (None, rankNone)
  end.
Proof.
  induction bindings as [|b l IH] using rev_ind; [done|].
  unfold resolve_scan in *. rewrite foldl_app, IH, List.filter_app. cbn [foldl List.filter].
  assert (row_applies b = String.eqb (br_Kind b) kind && (0 <? row_rank b)%nat) as -> by done.
  destruct (pick_best row_better (List.filter row_applies l)) as [c|] eqn:Hc; fold (row_rank b);
    (destruct (String.eqb (br_Kind b) kind); cbn [negb andb]; [|by rewrite app_nil_r, Hc]);
    destruct (0 <? row_rank b)%nat eqn:Hpos; rewrite ?app_nil_r, ?pick_best_snoc, Hc.
  - unfold keep_best. fold (row_better b c). by destruct (row_better b c).
  - bool_to_prop. by rewrite (proj2 (Nat.ltb_ge _ _)) by lia.
  - unfold rankNone. by rewrite Hpos.
  - unfold rankNone. by rewrite Hpos.
Qed.

(** [Resolve] answers with the first binding row of the kind that no
    other applicable row is more specific than, and its level; without an
    applicable row it answers with the built-in policy. *)
Theorem Resolve_most_specific bindings :
  match pick_best row_better (List.filter row_applies bindings) with
  | Some b =>
      selected row_better b (List.filter row_applies bindings) ∧
      Resolve kind bindings siteID client group = (br_PolicyID b, level_of (row_rank b))
  | None =>
      Forall (λ b, row_applies b = false) bindings ∧
      Resolve kind bindings siteID client group = ("", LevelBuiltin)
  end.
Proof.
  unfold Resolve. rewrite resolve_scan_best.
  destruct (pick_best row_better (List.filter row_applies bindings)) as [b|] eqn:Hb.
  - split; [|done]. apply pick_best_spec; [apply _|done].
  - split; [|done]. apply pick_best_none in Hb. apply Forall_forall. intros x Hx.
    destruct (row_applies x) eqn:Ha; [|done].
    assert (x ∈ List.filter row_applies bindings) as Hin.
    { apply list_elem_of_In, filter_In. split; [by apply list_elem_of_In|done]. }
    rewrite Hb in Hin. set_solver.
Qed.
End resolve.

(** ** Extends chains *)

(** [anc] are the ancestors of [cur], nearest first, up to a root. *)
Fixpoint climbs (kind : string) (lookup : string → option Spec) (cur : Spec) (anc : list Spec) : Prop :=
  match anc with
  | [] => ParentName cur = ""
  | next :: anc' =>
      ParentName cur ≠ "" ∧ lookup (ParentName cur) = Some next ∧ isNilSpec next = false ∧
      Spec_Kind next = kind ∧ PolicyName next = ParentName cur ∧ climbs kind lookup next anc'
  end.

Lemma extends_loop_spec fuel kind lookup chain names cur l :
  (∀ n, n ∈ names ↔ n ∈ PolicyName <$> chain) →
  NoDup (PolicyName <$> chain) → MaxExtendsDepth < fuel + length chain →
  length chain ≤ MaxExtendsDepth →
  extends_loop fuel kind (Some lookup) chain names cur = Ok l ↔
  ∃ anc, l = reverse anc ++ chain ∧ climbs kind lookup cur anc ∧
    NoDup (PolicyName <$> reverse anc ++ chain) ∧ length chain + length anc ≤ MaxExtendsDepth.
Proof.
  revert chain names cur. induction fuel as [|fuel IH]; intros chain names cur Hn Hnd Hf Hlen; [lia|].
  cbn [extends_loop]. cbv zeta. set (parent := ParentName cur).
  destruct (String.eqb parent "") eqn:Hp.
  { apply String.eqb_eq in Hp. split.
    - intros [= <-]. exists []. cbn. split_and!; [done..|lia].
    - intros ([|next anc] & -> & Hc & _); [done|]. by destruct Hc. }
  apply String.eqb_neq in Hp.
  (* a chain that goes on starts with the policy found under the parent name *)
  assert (∀ Q : Prop, (∀ next anc, lookup parent = Some next → isNilSpec next = false →
    Spec_Kind next = kind → PolicyName next = parent → climbs kind lookup next anc →
    l = reverse anc ++ next :: chain → NoDup (PolicyName <$> reverse anc ++ next :: chain) →
    S (length chain) + length anc ≤ MaxExtendsDepth → Q) →
    (∃ anc, l = reverse anc ++ chain ∧ climbs kind lookup cur anc ∧
      NoDup (PolicyName <$> reverse anc ++ chain) ∧ length chain + length anc ≤ MaxExtendsDepth) → Q) as Hinv.
  { intros Q HQ ([|next anc] & -> & Hc & Hnd' & Hle); [done|].
    destruct Hc as (_ & ? & ? & ? & ? & ?). rewrite reverse_cons, <- app_assoc in *.
    cbn in *. eapply HQ; eauto. lia. }
  destruct (string_in parent names) eqn:Hin.
  { rewrite string_in_spec, Hn in Hin. split; [done|]. apply Hinv.
    intros next anc _ _ _ Hname _ _ Hd. exfalso.
    rewrite fmap_app, fmap_cons in Hd. apply NoDup_app in Hd as (_ & _ & Hd).
    apply NoDup_cons in Hd as [Hd _]. by rewrite Hname in Hd. }
  apply not_true_iff_false in Hin. rewrite string_in_spec, Hn in Hin.
  destruct (MaxExtendsDepth <=? length chain)%nat eqn:Hd; bool_to_prop.
  { split; [done|]. apply Hinv. intros. lia. }
  destruct (lookup parent) as [next|] eqn:Hl; [|split; [done|]; apply Hinv; intros; congruence].
  destruct (isNilSpec next) eqn:Hnil; [split; [done|]; apply Hinv; intros; congruence|].
  destruct (String.eqb (Spec_Kind next) kind) eqn:Hk; cbn [negb]; bool_to_prop;
    [|split; [done|]; apply Hinv; intros; congruence].
  destruct (String.eqb (PolicyName next) parent) eqn:Hname; cbn [negb]; bool_to_prop;
    [|split; [done|]; apply Hinv; intros; congruence].
  rewrite IH; cycle 1.
  { intros n. rewrite elem_of_app, Hn, fmap_cons, Hname. set_solver. }
  { rewrite fmap_cons. apply NoDup_cons. by rewrite Hname. }
  { cbn. lia. } { cbn. lia. }
  split.
  - intros (anc & -> & Hc & Hd' & Hle). exists (next :: anc). cbn in Hle.
    rewrite reverse_cons, <- app_assoc. cbn. split_and!; try done. lia.
  - apply Hinv. intros next' anc Hl' _ _ _ Hc -> Hd' Hle.
    assert (next' = next) as -> by congruence. exists anc. cbn. split_and!; done || lia.
Qed.

(** For signal and action policies, [ResolveExtends] succeeds exactly when
    the extends references climb from the leaf to a root through distinct
    policies of the kind, at most five in all, and returns them root first;
    so cycles, missing parents and too deep chains are always errors. *)
Theorem ResolveExtends_iff kind leaf lookup chain :
  kind = KindSignal ∨ kind = KindAction →
  isNilSpec leaf = false → Spec_Kind leaf = kind →
  ResolveExtends kind leaf (Some lookup) = Ok chain ↔
  ∃ anc, chain = reverse (leaf :: anc) ∧ climbs kind lookup leaf anc ∧
    NoDup (PolicyName <$> leaf :: anc) ∧ length (leaf :: anc) ≤ MaxExtendsDepth.
Proof.
  intros Hk Hnil Hkind. unfold ResolveExtends. rewrite Hnil, Hkind, String.eqb_refl.
  assert (negb (String.eqb kind KindSignal) && negb (String.eqb kind KindAction) = false) as ->
    by (by destruct Hk as [->| ->]).
  cbn [negb]. rewrite extends_loop_spec; [|set_solver|cbn; apply NoDup_singleton|unfold MaxExtendsDepth; cbn; lia|unfold MaxExtendsDepth; cbn; lia].
  apply exist_proper. intros anc. rewrite reverse_cons.
  assert (NoDup (PolicyName <$> reverse anc ++ [leaf]) ↔ NoDup (PolicyName <$> leaf :: anc)) as ->.
  { rewrite <- reverse_cons. by rewrite reverse_Permutation. }
  cbn [length]. replace (1 + length anc) with (S (length anc)) by lia. tauto.
Qed.

(** ** Defaults *)

Lemma setString_idem s d : d ≠ "" → setString (setString s d) d = setString s d.
Proof. intros Hd%String.eqb_neq. unfold setString. destruct (String.eqb s "") eqn:Hs; by rewrite ?Hd, ?Hs. Qed.
Lemma setInt_idem z d : setInt (setInt z d) d = setInt z d.
Proof. unfold setInt. destruct (z =? 0)%Z eqn:Hz; [|by rewrite Hz]. by destruct (d =? 0)%Z. Qed.
Lemma setDuration_idem z d : setDuration (setDuration z d) d = setDuration z d.
Proof. apply setInt_idem. Qed.
Lemma setFloat_idem f d : setFloat (setFloat f d) d = setFloat f d.
Proof. unfold setFloat. destruct (f_eqb f f_zero) eqn:Hf; [|by rewrite Hf]. by destruct (f_eqb d f_zero). Qed.
Lemma nilIfEmpty_idem l : nilIfEmpty (nilIfEmpty l) = nilIfEmpty l.
Proof. by destruct l as [[|]|]. Qed.

Lemma ActionRule_defaults_idem r : ActionRule_defaults (ActionRule_defaults r) = ActionRule_defaults r.
Proof.
  unfold ActionRule_defaults.
  destruct (String.eqb (ar_Action r) ActionCooldown) eqn:Ha; cbn [negb ar_Action]; [|by rewrite Ha].
  rewrite Ha. cbn [negb ar_Multiplier ar_Max ar_MaxExponent ar_FailureResetAfter ar_Name ar_When ar_Scope ar_Base
    ar_Duration]. by rewrite setFloat_idem, !setDuration_idem, ?setInt_idem.
Qed.

(** Applying defaults twice is applying them once, so a stored policy is
    not changed by being decoded and defaulted again. *)
Theorem ApplyDefaults_idempotent s :
  Spec_ApplyDefaults (Spec_ApplyDefaults s) = Spec_ApplyDefaults s.
Proof.
  destruct s as [|[s|]|s|[s|]|[s|]]; try done; cbn; do 2 f_equal.
  - unfold RotationSpec_ApplyDefaults. cbn.
    by rewrite !nilIfEmpty_idem, !setString_idem, ?setInt_idem, ?setDuration_idem, ?setFloat_idem.
  - unfold ActionSpec_ApplyDefaults, HealthSpec_defaults. cbn.
    rewrite !setString_idem, ?setInt_idem, ?setDuration_idem, ?setFloat_idem by done.
    f_equal. rewrite <- list_fmap_compose. apply list_fmap_ext. intros i r _. apply ActionRule_defaults_idem.
  - unfold BreakerSpec_ApplyDefaults. cbn.
    by rewrite !setString_idem, ?setInt_idem, ?setDuration_idem, ?setFloat_idem.
Qed.

Lemma ValidKind_cases kind : ValidKind kind = true → kind ∈ Kinds.
Proof. unfold ValidKind. by rewrite string_in_spec. Qed.

(** The built-in policy of every kind is valid, has every default applied,
    is named after its kind, and whatever [finish] accepts is valid. *)
Theorem Default_valid `{RE : RegexEngine} kind :
  ValidKind kind = true →
  Spec_Kind (Default kind) = kind ∧ PolicyName (Default kind) = DefaultPolicyName kind ∧
  finish (Default kind) = Ok (Default kind).
Proof.
  intros Hk%ValidKind_cases. unfold Kinds in Hk.
  repeat (apply elem_of_cons in Hk as [->|Hk]); [..|set_solver].
  all: split_and!; [reflexivity|reflexivity|vm_compute; reflexivity].
Qed.

(** ** Instances on the built-in policies *)

Lemma Default_valid_witness :
  ValidKind KindAction = true ∧
  finish (RE:=literal_engine) (Default KindAction) = Ok (Default KindAction).
Proof.
  split; [reflexivity|]. exact (proj2 (proj2 (Default_valid (RE:=literal_engine) KindAction eq_refl))).
Defined.

Lemma breaker_buckets_witness :
  BreakerSpec_Validate (Some default_breaker) = None ∧ (Second ≤ BucketDuration (Some default_breaker))%Z.
Proof.
  assert (BreakerSpec_Validate (Some default_breaker) = None) as H by (vm_compute; reflexivity).
  split; [exact H|]. exact (proj1 (proj2 (proj2 (proj2 (breaker_buckets default_breaker H))))).
Defined.

Lemma rotation_lease_bounds_witness :
  RotationSpec_Validate (Some default_rotation) = None ∧
  (5 * Second ≤ rp_LeaseTTL (rs_Rotation default_rotation) ≤ 30 * Minute)%Z.
Proof.
  assert (RotationSpec_Validate (Some default_rotation) = None) as H by (vm_compute; reflexivity).
  split; [exact H|]. exact (proj1 (rotation_lease_bounds default_rotation H)).
Defined.

Definition ex_compiled : CompiledAction := compile_action [default_action] default_action.

Lemma ex_compiled_ok : CompileAction [Some default_action] = Ok ex_compiled.
Proof.
  assert (ActionSpec_Validate (Some default_action) = None) as H by (vm_compute; reflexivity).
  unfold CompileAction, action_chain_check. rewrite H. reflexivity.
Qed.

(** A third captcha within a day, by an identity banned once this week. *)
Definition ex_input : EvalInput :=
  {| in_Outcome := OutcomeCaptcha; in_Blame := ""; in_IdentityState := "active";
     in_HasAccount := false; in_HasProxy := true;
     in_Counts := λ _, 3%Z; in_BanCounts := λ _, 1%Z;
     in_EndpointStreak := 1; in_SiteStreak := 1; in_ProxyStreak := 0;
     in_EndpointScore := f_of_Z 50; in_EndpointSamples := 20; in_GlobalScore := f_of_Z 50;
     in_GlobalSamples := 20; in_EndpointCooldownRemaining := 0; in_Jitter := None |}.

Lemma ex_evaluated :
  map (λ pa, (pa_Action pa, pa_Scope pa, pa_Duration pa, pa_Source pa)) (Evaluate (Some ex_compiled) ex_input)
  = [(ActionBan, ScopeIdentity, 72 * Hour, SourceEscalation)]%Z.
Proof. vm_compute. reflexivity. Qed.

Lemma Evaluate_frame_witness :
  Evaluate (Some ex_compiled)
    (with_counts ex_input
       (λ q, if decide (q ∈ CounterRequests (Some ex_compiled) OutcomeCaptcha) then 3%Z else 77%Z)
       (λ w, if decide (w ∈ EscalationWindows (Some ex_compiled)) then 1%Z else 77%Z))
  = Evaluate (Some ex_compiled) ex_input.
Proof.
  apply (Evaluate_frame [Some default_action] ex_compiled ex_input _ _ ex_compiled_ok).
  - intros q Hq. cbn [in_Outcome ex_input] in Hq. destruct (decide _) as [|Hn]; [reflexivity|].
    exfalso. exact (Hn Hq).
  - intros w Hw. destruct (decide _) as [|Hn]; [reflexivity|]. exfalso. exact (Hn Hw).
Defined.

Definition ex_ban : PlannedAction :=
  match Evaluate (Some ex_compiled) ex_input with
  | pa :: _ => pa
  | [] => planned "" "" 0%Z false 0%Z "" ""
  end.

Lemma ex_ban_in : ex_ban ∈ Evaluate (Some ex_compiled) ex_input.
Proof.
  pose proof ex_evaluated as H. unfold ex_ban.
  destruct (Evaluate (Some ex_compiled) ex_input) as [|pa l]; [discriminate|].
  apply elem_of_cons. left. reflexivity.
Qed.

Lemma Evaluate_gated_witness :
  ex_ban ∈ Evaluate (Some ex_compiled) ex_input ∧ gated ex_input ex_ban.
Proof. exact (conj ex_ban_in (Evaluate_gated ex_compiled ex_input ex_ban ex_ban_in)). Defined.

Lemma Evaluate_allowed_witness :
  CompileAction [Some default_action] = Ok ex_compiled ∧ (0 ≤ pa_Severity ex_ban ≤ 5)%Z.
Proof.
  split; [exact ex_compiled_ok|].
  exact (proj2 (proj2 (Evaluate_allowed _ ex_compiled ex_input ex_ban ex_compiled_ok ex_ban_in))).
Defined.

Definition ex_plain_ban : PlannedAction :=
  planned ActionBan ScopeIdentity (12 * Hour)%Z false 3%Z "captcha-ban" SourceRule.

Lemma escalate_longest_witness :
  effectiveDuration (escalate (ac_escalation ex_compiled) ex_plain_ban ex_input) = (72 * Hour)%Z.
Proof.
  assert (pa_Duration ex_plain_ban ≤ int64_max)%Z as H by (vm_compute; discriminate).
  rewrite (escalate_longest [Some default_action] ex_compiled ex_input ex_plain_ban
    ex_compiled_ok eq_refl H).
  vm_compute. reflexivity.
Defined.

(** A leaf that extends the built-in signal policy. *)
Definition ex_leaf : SignalSpec :=
  {| ss_Name := "leaf"; ss_Description := ""; ss_Bind := None;
     ss_Extends := DefaultPolicyName KindSignal; ss_TrustOutcomeHint := true; ss_Rules := [] |}.

Definition ex_lookup (name : string) : option Spec :=
  if String.eqb name (DefaultPolicyName KindSignal) then Some (specSignal (Some default_signal)) else None.

Lemma ResolveExtends_iff_witness :
  ResolveExtends KindSignal (specSignal (Some ex_leaf)) (Some ex_lookup)
  = Ok [specSignal (Some default_signal); specSignal (Some ex_leaf)].
Proof.
  apply (ResolveExtends_iff KindSignal (specSignal (Some ex_leaf)) ex_lookup _
    (or_introl eq_refl) eq_refl eq_refl).
  exists [specSignal (Some default_signal)]. split; [reflexivity|]. split.
  - cbn [climbs]. split_and!; [discriminate|reflexivity..].
  - split; [|cbn; unfold MaxExtendsDepth; lia]. apply (bool_decide_unpack _). vm_compute. exact I.
Defined.
