(* ===== verification/Authz.v ===== *)
(** * Authorization (internal/authz)

    Permissions and roles, API token scopes, and the decision functions of a
    principal: [Can], [Require], [SiteFilter] and [TenantIDs].  Every decision
    is a function of the principal and the resource. *)

From S2P Require Import Prelude GoStrings Glob.

#[local] Open Scope string_scope.
#[local] Open Scope list_scope.
#[local] Open Scope nat_scope.

(** ** Permissions (permission.go) *)

Definition PermTenantManage : string := "tenant:manage".
Definition PermKEKManage : string := "kek:manage".
Definition PermNamespaceRead : string := "namespace:read".
Definition PermNamespaceWrite : string := "namespace:write".
Definition PermSiteRead : string := "site:read".
Definition PermSiteWrite : string := "site:write".
Definition PermIdentityRead : string := "identity:read".
Definition PermIdentityWrite : string := "identity:write".
Definition PermIdentityOperate : string := "identity:operate".
Definition PermIdentityReveal : string := "identity:reveal".
Definition PermProxyRead : string := "proxy:read".
Definition PermProxyWrite : string := "proxy:write".
Definition PermProxyOperate : string := "proxy:operate".
Definition PermPolicyRead : string := "policy:read".
Definition PermPolicyWrite : string := "policy:write".
Definition PermPolicyPublish : string := "policy:publish".
Definition PermBreakerRead : string := "breaker:read".
Definition PermBreakerOperate : string := "breaker:operate".
Definition PermConfigRead : string := "config:read".
Definition PermConfigWrite : string := "config:write".
Definition PermConfigPublish : string := "config:publish".
Definition PermSecretList : string := "secret:list".
Definition PermSecretWrite : string := "secret:write".
Definition PermSecretReveal : string := "secret:reveal".
Definition PermTokenRead : string := "token:read".
Definition PermTokenWrite : string := "token:write".
Definition PermUserRead : string := "user:read".
Definition PermUserWrite : string := "user:write".
Definition PermAuditRead : string := "audit:read".
Definition PermNotifyRead : string := "notify:read".
Definition PermNotifyWrite : string := "notify:write".
Definition PermDashboardRead : string := "dashboard:read".
Definition PermLeaseAcquire : string := "lease:acquire".
Definition PermReportWrite : string := "report:write".
Definition PermSecretRead : string := "secret:read".

Definition RoleOwner : string := "owner".
Definition RoleAdmin : string := "admin".
Definition RoleOperator : string := "operator".
Definition RoleViewer : string := "viewer".

Definition allPermissions : list string :=
  [PermTenantManage; PermKEKManage; PermNamespaceRead; PermNamespaceWrite; PermSiteRead;
   PermSiteWrite; PermIdentityRead; PermIdentityWrite; PermIdentityOperate; PermIdentityReveal;
   PermProxyRead; PermProxyWrite; PermProxyOperate; PermPolicyRead; PermPolicyWrite;
   PermPolicyPublish; PermBreakerRead; PermBreakerOperate; PermConfigRead; PermConfigWrite;
   PermConfigPublish; PermSecretList; PermSecretWrite; PermSecretReveal; PermTokenRead;
   PermTokenWrite; PermUserRead; PermUserWrite; PermAuditRead; PermNotifyRead; PermNotifyWrite;
   PermDashboardRead; PermLeaseAcquire; PermReportWrite; PermSecretRead].

Definition viewerPermissions : list string :=
  [PermNamespaceRead; PermSiteRead; PermIdentityRead; PermProxyRead; PermPolicyRead;
   PermBreakerRead; PermConfigRead; PermSecretList; PermDashboardRead; PermAuditRead; PermNotifyRead].
Definition operatorPermissions : list string :=
  viewerPermissions ++
  [PermIdentityWrite; PermIdentityOperate; PermProxyWrite; PermProxyOperate; PermPolicyWrite;
   PermConfigWrite; PermBreakerOperate].
Definition adminPermissions : list string :=
  operatorPermissions ++
  [PermSiteWrite; PermPolicyPublish; PermConfigPublish; PermSecretWrite; PermSecretReveal;
   PermIdentityReveal; PermTokenRead; PermTokenWrite; PermNotifyWrite].
Definition ownerPermissions : list string :=
  adminPermissions ++ [PermNamespaceWrite; PermUserRead; PermUserWrite].

Definition rolePermissionSets (r : string) : option (list string) :=
  if String.eqb r RoleViewer then Some viewerPermissions
  else if String.eqb r RoleOperator then Some operatorPermissions
  else if String.eqb r RoleAdmin then Some adminPermissions
  else if String.eqb r RoleOwner then Some ownerPermissions
  else None.

Definition contains (l : list string) (s : string) : bool := existsb (String.eqb s) l.

Definition ValidPermission (p : string) : bool := contains allPermissions p.
Definition PlatformOnly (p : string) : bool :=
  String.eqb p PermTenantManage || String.eqb p PermKEKManage.
Definition NodeOnly (p : string) : bool :=
  String.eqb p PermLeaseAcquire || String.eqb p PermReportWrite || String.eqb p PermSecretRead.
Definition Roles : list string := [RoleViewer; RoleOperator; RoleAdmin; RoleOwner].
Definition ValidRole (r : string) : bool :=
  match rolePermissionSets r with Some _ => true | None => false end.
Definition RolePermissions (r : string) : list string :=
  match rolePermissionSets r with
  | None => []
  | Some set => List.filter (contains set) allPermissions
  end.
Definition RoleHas (r p : string) : bool :=
  match rolePermissionSets r with Some set => contains set p | None => false end.
Definition ValidExtraPermission (p : string) : bool :=
  contains [PermConfigPublish; PermSecretReveal; PermIdentityReveal; PermPolicyPublish] p.

(** ** Scopes (scope.go) *)

Definition ScopeLeaseAcquire : string := "lease:acquire".
Definition ScopeReportWrite : string := "report:write".
Definition ScopeConfigRead : string := "config:read".
Definition ScopeConfigPublish : string := "config:publish".
Definition ScopeSecretRead : string := "secret:read".
Definition ScopeIdentityWrite : string := "identity:write".
Definition ScopeProxyWrite : string := "proxy:write".
Definition ScopeAdmin : string := "admin".

Definition MaxScopeLen : nat := 512.
Definition MaxScopeArgLen : nat := 256.

Record Scope := { sc_Raw : bytes; sc_Name : string; sc_Arg : bytes }.

Inductive argKind := argNone | argSite | argGroupGlob | argSecretGlob.

Record scopeDef := { sd_arg : argKind; sd_perms : list string }.

Definition scopeDefs (name : string) : option scopeDef :=
  if String.eqb name ScopeLeaseAcquire
  then Some {| sd_arg := argSite; sd_perms := [PermLeaseAcquire] |}
  else if String.eqb name ScopeReportWrite
  then Some {| sd_arg := argSite; sd_perms := [PermReportWrite] |}
  else if String.eqb name ScopeConfigRead
  then Some {| sd_arg := argGroupGlob; sd_perms := [PermConfigRead] |}
  else if String.eqb name ScopeConfigPublish
  then Some {| sd_arg := argGroupGlob;
               sd_perms := [PermConfigRead; PermConfigWrite; PermConfigPublish] |}
  else if String.eqb name ScopeSecretRead
  then Some {| sd_arg := argSecretGlob; sd_perms := [PermSecretRead] |}
  else if String.eqb name ScopeIdentityWrite
  then Some {| sd_arg := argSite;
               sd_perms := [PermIdentityRead; PermIdentityWrite; PermIdentityOperate] |}
  else if String.eqb name ScopeProxyWrite
  then Some {| sd_arg := argNone; sd_perms := [PermProxyRead; PermProxyWrite; PermProxyOperate] |}
  else if String.eqb name ScopeAdmin then Some {| sd_arg := argNone; sd_perms := [] |}
  else None.

Definition ScopeNames : list string :=
  [ScopeLeaseAcquire; ScopeReportWrite; ScopeConfigRead; ScopeConfigPublish; ScopeSecretRead;
   ScopeIdentityWrite; ScopeProxyWrite; ScopeAdmin].

Definition colon : ascii := ":"%char.

Definition splitScope (s : bytes) : bytes * bytes * bool :=
  match index_byte colon s with
  | None => (s, [], false)
  | Some first =>
      if bool_decide (take first s = bs ScopeAdmin) then (bs ScopeAdmin, drop (first + 1) s, true)
      else match index_byte colon (drop (first + 1) s) with
      | None => (s, [], false)
      | Some second =>
          let cut := first + 1 + second in (take cut s, drop (cut + 1) s, true)
      end
  end.

(** A rune of [s] with its width: [utf8.ValidString] and [strings.IndexFunc]
    walk these. *)
Definition decoded (s : bytes) : list (Z * nat) := DecodeRuneInString <$> runes s.

Definition ValidString (s : bytes) : bool :=
  forallb (λ '(r, w), negb ((r =? RuneError)%Z && (w <=? 1)%nat)) (decoded s).

Definition invalidScopeRune (r : Z) : bool :=
  IsSpace r || IsControl r || (r =? RuneError)%Z.

Inductive scopeErr :=
| scEmpty | scTooLong | scRunes | scUnknown | scArgEmpty | scArgTooLong | scNoArg
| scWildcard | scArgRequired | scDuplicate.

Definition ParseScope (s : bytes) : result scopeErr Scope :=
  match s with
  | [] => Err scEmpty
  | _ =>
      if (MaxScopeLen <? length s)%nat then Err scTooLong
      else if negb (ValidString s) || existsb (λ '(r, _), invalidScopeRune r) (decoded s)
      then Err scRunes
      else
        let '(name, arg, hasArg) := splitScope s in
        match scopeDefs (str name) with
        | None => Err scUnknown
        | Some def =>
            if hasArg && bool_decide (arg = []) then Err scArgEmpty
            else if hasArg && (MaxScopeArgLen <? length arg)%nat then Err scArgTooLong
            else
              let ok := Ok {| sc_Raw := s; sc_Name := str name; sc_Arg := arg |} in
              match sd_arg def with
              | argNone => if hasArg : bool then Err scNoArg else ok
              | argSite => if hasArg && HasWildcard arg then Err scWildcard else ok
              | argSecretGlob => if negb hasArg then Err scArgRequired else ok
              | argGroupGlob => ok
              end
        end
  end.

Fixpoint parse_scopes_loop (seen : list bytes) (ss : list bytes) : result scopeErr (list Scope) :=
  match ss with
  | [] => Ok []
  | raw :: ss' =>
      match ParseScope raw with
      | Err e => Err e
      | Ok sc =>
          if bool_decide (sc_Raw sc ∈ seen) then Err scDuplicate
          else match parse_scopes_loop (sc_Raw sc :: seen) ss' with
               | Err e => Err e
               | Ok out => Ok (sc :: out)
               end
      end
  end.
Definition ParseScopes (ss : list bytes) : result scopeErr (list Scope) := parse_scopes_loop [] ss.

Definition Scope_Permissions (s : Scope) : list string :=
  match scopeDefs (sc_Name s) with
  | None => []
  | Some def =>
      if String.eqb (sc_Name s) ScopeAdmin then RolePermissions RoleAdmin else sd_perms def
  end.

Definition grantsPermission (s : Scope) (perm : string) : option scopeDef :=
  match scopeDefs (sc_Name s) with
  | None => None
  | Some def =>
      let badArg :=
        match sd_arg def with
        | argNone => bool_decide (sc_Arg s ≠ [])
        | argSecretGlob => bool_decide (sc_Arg s = [])
        | argSite | argGroupGlob => false
        end in
      if badArg then None
      else if String.eqb (sc_Name s) ScopeAdmin then
        if RoleHas RoleAdmin perm then Some def else None
      else if contains (sd_perms def) perm then Some def else None
  end.

Definition cleanSecretPath (p : bytes) : bool :=
  match p with
  | [] => false
  | _ => forallb (λ seg, negb (bool_decide (seg = []) || bool_decide (seg = bs ".")
                               || bool_decide (seg = bs ".."))) (split_byte "/"%char p)
  end.

Record Resource := {
  r_TenantID : string;
  r_NamespaceID : string;
  r_NamespaceName : string;
  r_SiteID : string;
  r_SiteName : string;
  r_ConfigGroup : string;
  r_SecretPath : string;
}.

Definition Scope_allows (s : Scope) (perm : string) (r : Resource) (namespaceName : string) : bool :=
  match grantsPermission s perm with
  | None => false
  | Some def =>
      match sd_arg def with
      | argSite =>
          bool_decide (sc_Arg s = []) ||
          (negb (String.eqb (r_SiteName r) "") && bool_decide (bs (r_SiteName r) = sc_Arg s))
      | argGroupGlob => bool_decide (sc_Arg s = []) || Match (sc_Arg s) (bs (r_ConfigGroup r))
      | argSecretGlob =>
          let name := if String.eqb (r_NamespaceName r) "" then namespaceName else r_NamespaceName r in
          if String.eqb name ""
             || (negb (String.eqb namespaceName "") && negb (String.eqb name namespaceName))
             || negb (cleanSecretPath (bs (r_SecretPath r)))
          then false
          else Match (sc_Arg s) (bs name ++ "/"%char :: bs (r_SecretPath r))
      | argNone => true
      end
  end.

(** ** Principals (principal.go) *)

Record Binding := {
  bi_ID : string;
  bi_TenantID : string;
  bi_Role : string;
  bi_NamespaceID : string;
  bi_SiteIDs : list string;
  bi_Extra : list string;
}.

Definition Binding_grants (b : Binding) (perm : string) : bool :=
  if negb (ValidRole (bi_Role b)) then false
  else if RoleHas (bi_Role b) perm then true
  else ValidExtraPermission perm && contains (bi_Extra b) perm.

Definition siteRestrictedNamespacePermission (perm : string) : bool :=
  String.eqb perm PermProxyRead || String.eqb perm PermNamespaceRead.

Definition Binding_allows (b : Binding) (perm : string) (r : Resource) : bool :=
  if String.eqb (bi_TenantID b) "" || negb (String.eqb (bi_TenantID b) (r_TenantID r)) then false
  else if negb (String.eqb (bi_NamespaceID b) "")
          && negb (String.eqb (bi_NamespaceID b) (r_NamespaceID r)) then false
  else if negb (Binding_grants b perm) then false
  else match bi_SiteIDs b with
  | [] => true
  | _ =>
      if String.eqb (r_SiteID r) "" then
        siteRestrictedNamespacePermission perm && negb (String.eqb (bi_NamespaceID b) "")
      else contains (bi_SiteIDs b) (r_SiteID r)
  end.

Definition KindUser : string := "user".
Definition KindToken : string := "token".
Definition KindSystem : string := "system".

Record Principal := {
  pr_Kind : string;
  pr_ID : string;
  pr_Name : string;
  pr_TenantID : string;
  pr_NamespaceID : string;
  pr_NamespaceName : string;
  pr_IsPlatformAdmin : bool;
  pr_Bindings : list Binding;
  pr_Scopes : list Scope;
}.

Definition wellFormed (r : Resource) : bool :=
  negb (String.eqb (r_TenantID r) "")
  && (String.eqb (r_SiteID r) "" || negb (String.eqb (r_NamespaceID r) "")).

Definition tokenBoundTo (p : Principal) (tenantID namespaceID : string) : bool :=
  negb (String.eqb (pr_TenantID p) "") && negb (String.eqb (pr_NamespaceID p) "")
  && String.eqb (pr_TenantID p) tenantID && String.eqb (pr_NamespaceID p) namespaceID.

Definition Can (p : option Principal) (perm : string) (r : Resource) : bool :=
  match p with
  | None => false
  | Some p =>
      if negb (ValidPermission perm) then false
      else if String.eqb (pr_Kind p) KindSystem then true
      else if String.eqb (pr_Kind p) KindUser then
        if pr_IsPlatformAdmin p then true
        else if PlatformOnly perm || negb (wellFormed r) then false
        else existsb (λ b, Binding_allows b perm r) (pr_Bindings p)
      else if String.eqb (pr_Kind p) KindToken then
        if PlatformOnly perm || negb (wellFormed r) || String.eqb (r_NamespaceID r) ""
           || negb (tokenBoundTo p (r_TenantID r) (r_NamespaceID r)) then false
        else existsb (λ s, Scope_allows s perm r (pr_NamespaceName p)) (pr_Scopes p)
      else false
  end.

(** The errors of [Require]; the message names the permission only. *)
Inductive authErr := Unauthenticated | ScopeMissing (perm : string) | PermissionDenied (perm : string).

Definition Require_ (p : option Principal) (perm : string) (r : Resource) : option authErr :=
  match p with
  | None => Some Unauthenticated
  | Some q =>
      if Can p perm r then None
      else if String.eqb (pr_Kind q) KindToken then Some (ScopeMissing perm)
      else Some (PermissionDenied perm)
  end.

(** [slices.Compact]: drops repetitions of the previous element. *)
Fixpoint Compact (l : list string) : list string :=
  match l with
  | x :: (y :: _) as l' => if String.eqb x y then Compact l' else x :: Compact l'
  | _ => l
  end.

Definition sort_compact (l : list string) : list string := Compact (SortFunc string_compare l).

Definition binding_in_scope (b : Binding) (tenantID namespaceID perm : string) : bool :=
  negb (negb (String.eqb (bi_TenantID b) tenantID)
        || (negb (String.eqb (bi_NamespaceID b) "") && negb (String.eqb (bi_NamespaceID b) namespaceID))
        || negb (Binding_grants b perm)).

Fixpoint site_filter_loop (bindings : list Binding) (tenantID namespaceID perm : string)
    (ids : list string) : bool * list string :=
  match bindings with
  | [] => (false, sort_compact ids)
  | b :: bindings' =>
      if negb (binding_in_scope b tenantID namespaceID perm)
      then site_filter_loop bindings' tenantID namespaceID perm ids
      else match bi_SiteIDs b with
      | [] => (true, [])
      | sites =>
          if String.eqb namespaceID ""
          then site_filter_loop bindings' tenantID namespaceID perm ids
          else site_filter_loop bindings' tenantID namespaceID perm
                 (ids ++ List.filter (λ id, negb (String.eqb id "")) sites)
      end
  end.

Definition userSiteFilter (p : Principal) (tenantID namespaceID perm : string) : bool * list string :=
  site_filter_loop (pr_Bindings p) tenantID namespaceID perm [].

(** A scope that grants [perm] without naming a site. *)
Definition scope_all_sites (perm : string) (s : Scope) : bool :=
  match grantsPermission s perm with
  | None => false
  | Some def => match sd_arg def with argSite => bool_decide (sc_Arg s = []) | _ => true end
  end.

Definition SiteFilter (p : option Principal) (tenantID namespaceID perm : string) : bool * list string :=
  match p with
  | None => (false, [])
  | Some p =>
      if negb (ValidPermission perm) then (false, [])
      else if String.eqb (pr_Kind p) KindSystem then (true, [])
      else if String.eqb (pr_Kind p) KindUser then
        if pr_IsPlatformAdmin p then (true, [])
        else if PlatformOnly perm || String.eqb tenantID "" then (false, [])
        else userSiteFilter p tenantID namespaceID perm
      else if String.eqb (pr_Kind p) KindToken then
        if PlatformOnly perm || String.eqb namespaceID "" || negb (tokenBoundTo p tenantID namespaceID)
        then (false, [])
        else (existsb (scope_all_sites perm) (pr_Scopes p), [])
      else (false, [])
  end.

(** [None] is the nil slice: every tenant. *)
Definition TenantIDs (p : option Principal) : option (list string) :=
  match p with
  | None => Some []
  | Some p =>
      if String.eqb (pr_Kind p) KindSystem then None
      else if String.eqb (pr_Kind p) KindUser then
        if pr_IsPlatformAdmin p then None
        else Some (sort_compact (omap (λ b,
               if negb (String.eqb (bi_TenantID b) "") && ValidRole (bi_Role b)
               then Some (bi_TenantID b) else None) (pr_Bindings p)))
      else if String.eqb (pr_Kind p) KindToken then
        if String.eqb (pr_TenantID p) "" then Some [] else Some [pr_TenantID p]
      else Some []
  end.

Definition Actor (p : option Principal) : string :=
  match p with
  | None => "anonymous"
  | Some p =>
      if String.eqb (pr_Kind p) KindUser then "user:" +:+ pr_ID p
      else if String.eqb (pr_Kind p) KindToken then "token:" +:+ pr_ID p
      else if String.eqb (pr_Kind p) KindSystem then "system"
      else "anonymous"
  end.

Definition System (name : string) : Principal :=
  {| pr_Kind := KindSystem; pr_ID := "system"; pr_Name := if String.eqb name "" then "system" else name;
     pr_TenantID := ""; pr_NamespaceID := ""; pr_NamespaceName := ""; pr_IsPlatformAdmin := true;
     pr_Bindings := []; pr_Scopes := [] |}.

(** ** Lemmas *)

Lemma contains_spec l s : contains l s = true ↔ s ∈ l.
Proof.
  unfold contains. rewrite existsb_exists, list_elem_of_In.
  setoid_rewrite String.eqb_eq. naive_solver.
Qed.

Lemma Compact_elem l x : x ∈ Compact l ↔ x ∈ l.
Proof.
  induction l as [|y [|z l] IH]; [done|done|].
  change (Compact (y :: z :: l)) with
    (if String.eqb y z then Compact (z :: l) else y :: Compact (z :: l)).
  destruct (String.eqb_spec y z) as [->|]; rewrite ?elem_of_cons, IH, ?elem_of_cons; tauto.
Qed.

Lemma sort_compact_elem l x : x ∈ sort_compact l ↔ x ∈ l.
Proof. unfold sort_compact. by rewrite Compact_elem, SortFunc_perm. Qed.

(** Compacting a sorted list leaves it strictly increasing. *)
Lemma Compact_sorted l :
  StronglySorted (cmp_le string_compare) l →
  StronglySorted (λ x y, string_compare x y = Lt) (Compact l).
Proof.
  induction l as [|x [|y l] IH]; intros Hs; [constructor|repeat constructor|].
  change (Compact (x :: y :: l)) with
    (if String.eqb x y then Compact (y :: l) else x :: Compact (y :: l)).
  apply StronglySorted_cons in Hs as [Hx Hs]. specialize (IH Hs).
  destruct (String.eqb_spec x y) as [->|Hne]; [done|]. constructor; [done|].
  apply Forall_forall. intros z Hz. rewrite Compact_elem in Hz.
  assert (cmp_le string_compare y z) as Hyz.
  { apply elem_of_cons in Hz as [->|Hz]; [unfold cmp_le; by rewrite (cmp_refl string_compare)|].
    apply StronglySorted_cons in Hs as [Hy _]. rewrite Forall_forall in Hy. auto. }
  apply Forall_cons in Hx as [Hxy _].
  assert (string_compare x y = Lt) as Hlt.
  { unfold cmp_le in Hxy. destruct (string_compare x y) eqn:Hc; [|done|done].
    by apply (cmp_eq (cmp:=string_compare)) in Hc. }
  unfold cmp_le in Hyz. destruct (string_compare y z) eqn:Hc; [| |done].
  - apply (cmp_eq (cmp:=string_compare)) in Hc. by subst.
  - by apply (cmp_lt_trans (cmp:=string_compare) _ y).
Qed.

Lemma ValidRole_cases r : ValidRole r = true → r ∈ Roles.
Proof.
  unfold ValidRole, rolePermissionSets, Roles. repeat case_match; bool_to_prop; try done; set_solver.
Qed.

(** ** Roles *)

(** Roles form a strict hierarchy viewer < operator < admin < owner; every
    permission of a role is a known one, and no role holds a platform-only or
    a node-only permission. *)
Theorem role_hierarchy :
  (∀ p, RoleHas RoleViewer p = true → RoleHas RoleOperator p = true) ∧
  (∀ p, RoleHas RoleOperator p = true → RoleHas RoleAdmin p = true) ∧
  (∀ p, RoleHas RoleAdmin p = true → RoleHas RoleOwner p = true) ∧
  (∃ p, RoleHas RoleOperator p = true ∧ RoleHas RoleViewer p = false) ∧
  (∃ p, RoleHas RoleAdmin p = true ∧ RoleHas RoleOperator p = false) ∧
  (∃ p, RoleHas RoleOwner p = true ∧ RoleHas RoleAdmin p = false) ∧
  (∀ r p, RoleHas r p = true →
     ValidPermission p = true ∧ PlatformOnly p = false ∧ NodeOnly p = false ∧ p ∈ RolePermissions r).
Proof.
  split_and!.
  - intros p. unfold RoleHas. cbn [rolePermissionSets]. change (contains viewerPermissions p = true → contains operatorPermissions p = true).
    rewrite !contains_spec. unfold operatorPermissions. set_solver.
  - intros p. change (contains operatorPermissions p = true → contains adminPermissions p = true).
    rewrite !contains_spec. unfold adminPermissions. set_solver.
  - intros p. change (contains adminPermissions p = true → contains ownerPermissions p = true).
    rewrite !contains_spec. unfold ownerPermissions. set_solver.
  - by exists PermConfigWrite.
  - by exists PermSiteWrite.
  - by exists PermUserWrite.
  - intros r p Hp.
    assert (Forall (λ p, ValidPermission p = true ∧ PlatformOnly p = false ∧ NodeOnly p = false)
      ownerPermissions) as Hall.
    { apply Forall_forall. intros q Hq.
      assert (forallb (λ p, ValidPermission p && negb (PlatformOnly p) && negb (NodeOnly p)) ownerPermissions
        = true) as Hb by done.
      rewrite forallb_forall in Hb. apply list_elem_of_In, Hb in Hq. by bool_to_prop. }
    assert (∃ set, rolePermissionSets r = Some set ∧ p ∈ set ∧ p ∈ ownerPermissions) as (set & Hset & Hin & Ho).
    { unfold RoleHas in Hp. destruct (rolePermissionSets r) as [set|] eqn:Hr; [|done].
      apply contains_spec in Hp. exists set. split_and!; [done..|].
      unfold rolePermissionSets in Hr. unfold ownerPermissions, adminPermissions, operatorPermissions.
      repeat case_match; simplify_eq; rewrite !elem_of_app; auto.
      - unfold operatorPermissions in Hp. rewrite elem_of_app in Hp. tauto.
      - unfold adminPermissions, operatorPermissions in Hp. rewrite !elem_of_app in Hp. tauto.
      - unfold ownerPermissions, adminPermissions, operatorPermissions in Hp.
        rewrite !elem_of_app in Hp. tauto. }
    rewrite Forall_forall in Hall. destruct (Hall p Ho) as (Hv & ? & ?). split_and!; [done..|].
    unfold RolePermissions. rewrite Hset. apply list_elem_of_In, filter_In.
    split; [apply list_elem_of_In; by apply contains_spec|by apply contains_spec].
Qed.

(** ** Decisions *)

Definition unrestricted (p : Principal) : Prop :=
  pr_Kind p = KindSystem ∨ pr_Kind p = KindUser ∧ pr_IsPlatformAdmin p = true.

Lemma Binding_grants_role b perm :
  Binding_grants b perm = true →
  ValidRole (bi_Role b) = true ∧ (RoleHas (bi_Role b) perm = true ∨ ValidExtraPermission perm = true).
Proof.
  unfold Binding_grants. destruct (ValidRole _); [|done]. destruct (RoleHas _ _); [auto|].
  cbn. intros H. bool_to_prop. auto.
Qed.

Lemma extra_not_node perm : ValidExtraPermission perm = true → NodeOnly perm = false.
Proof.
  unfold ValidExtraPermission. rewrite contains_spec. intros H.
  repeat (apply elem_of_cons in H as [->|H]; [done|]). set_solver.
Qed.

(** The permissions of a role lie within those of the owner. *)
Lemma RoleHas_owner r p : RoleHas r p = true → p ∈ ownerPermissions.
Proof.
  unfold RoleHas. destruct (rolePermissionSets r) as [set|] eqn:Hr; [|done]. rewrite contains_spec.
  unfold rolePermissionSets in Hr. unfold ownerPermissions, adminPermissions, operatorPermissions.
  intros Hp. repeat case_match; simplify_eq; rewrite !elem_of_app; auto.
  - unfold operatorPermissions in Hp. rewrite elem_of_app in Hp. tauto.
  - unfold adminPermissions, operatorPermissions in Hp. rewrite !elem_of_app in Hp. tauto.
  - unfold ownerPermissions, adminPermissions, operatorPermissions in Hp.
    rewrite !elem_of_app in Hp. tauto.
Qed.

Lemma owner_not_node p : p ∈ ownerPermissions → NodeOnly p = false ∧ PlatformOnly p = false ∧ ValidPermission p = true.
Proof.
  intros Hq.
  assert (forallb (λ p, negb (NodeOnly p) && negb (PlatformOnly p) && ValidPermission p) ownerPermissions
    = true) as Hb by done.
  rewrite forallb_forall in Hb. apply list_elem_of_In, Hb in Hq. by bool_to_prop.
Qed.

Lemma Binding_allows_inv b perm r :
  Binding_allows b perm r = true →
  bi_TenantID b ≠ "" ∧ bi_TenantID b = r_TenantID r ∧ Binding_grants b perm = true ∧
  (bi_NamespaceID b = "" ∨ bi_NamespaceID b = r_NamespaceID r).
Proof.
  unfold Binding_allows. intros H.
  destruct (String.eqb (bi_TenantID b) "") eqn:H1; [done|].
  destruct (String.eqb (bi_TenantID b) (r_TenantID r)) eqn:H2; [|done]. cbn [orb negb] in H.
  destruct (String.eqb (bi_NamespaceID b) "") eqn:H3; cbn [negb andb] in H.
  - destruct (Binding_grants b perm); [|done]. bool_to_prop. auto.
  - destruct (String.eqb (bi_NamespaceID b) (r_NamespaceID r)) eqn:H4; [|done]. cbn [negb] in H.
    destruct (Binding_grants b perm); [|done]. bool_to_prop. auto.
Qed.

(** C20: an allowed request is for a known permission and, unless the caller is
    the system or a platform admin, for a permission that is not
    platform-only on a resource of one of the caller's tenants; node-only
    permissions are then held by tokens only. *)
Theorem Can_isolated p perm r :
  Can (Some p) perm r = true →
  ValidPermission perm = true ∧
  (unrestricted p ∨
   PlatformOnly perm = false ∧ r_TenantID r ≠ "" ∧
   (∃ tenants, TenantIDs (Some p) = Some tenants ∧ r_TenantID r ∈ tenants) ∧
   (NodeOnly perm = true → pr_Kind p = KindToken)).
Proof.
  unfold Can, TenantIDs, unrestricted. destruct (ValidPermission perm); [|done]. cbn [negb].
  intros H. split; [done|].
  destruct (String.eqb (pr_Kind p) KindSystem) eqn:K1; [left; left; by apply String.eqb_eq|].
  destruct (String.eqb (pr_Kind p) KindUser) eqn:K2.
  - bool_to_prop. destruct (pr_IsPlatformAdmin p); [by left; right|]. right.
    destruct (PlatformOnly perm), (wellFormed r) eqn:Hwf; cbn [orb negb] in H; try done.
    apply existsb_exists in H as (b & Hb & (Ht & Heq & Hg & _)%Binding_allows_inv).
    apply Binding_grants_role in Hg as [Hrole Hperm]. rewrite <- Heq. split_and!; [done..| |].
    + eexists. split; [done|]. apply sort_compact_elem, list_elem_of_omap. exists b.
      split; [by apply list_elem_of_In|]. apply String.eqb_neq in Ht. by rewrite Ht, Hrole.
    + intros Hn. exfalso. destruct Hperm as [Hp|Hp]; [|by rewrite (extra_not_node _ Hp) in Hn].
      apply RoleHas_owner, owner_not_node in Hp as [Hp _]. congruence.
  - destruct (String.eqb (pr_Kind p) KindToken) eqn:K3; [|done]. right.
    destruct (PlatformOnly perm), (wellFormed r), (String.eqb (r_NamespaceID r) ""),
      (tokenBoundTo p (r_TenantID r) (r_NamespaceID r)) eqn:Hb; cbn [orb negb] in H; try done.
    unfold tokenBoundTo in Hb. bool_to_prop. subst. split_and!; [done|congruence| |done].
    rewrite (proj2 (String.eqb_neq _ _)) by done. eexists. split; [done|]. set_solver.
Qed.

Lemma binding_in_scope_allows b r perm :
  r_TenantID r ≠ "" → r_SiteID r ≠ "" →
  Binding_allows b perm r =
  binding_in_scope b (r_TenantID r) (r_NamespaceID r) perm &&
  match bi_SiteIDs b with [] => true | sites => contains sites (r_SiteID r) end.
Proof.
  intros Ht Hs%String.eqb_neq. unfold Binding_allows, binding_in_scope. rewrite Hs.
  destruct (String.eqb_spec (bi_TenantID b) (r_TenantID r)) as [Heq|]; cbn [negb orb andb].
  2:{ by destruct (String.eqb (bi_TenantID b) ""). }
  rewrite Heq. apply String.eqb_neq in Ht. rewrite Ht. cbn [orb].
  destruct (String.eqb (bi_NamespaceID b) ""); cbn [negb orb andb].
  - destruct (Binding_grants b perm); cbn; [|done]. by destruct (bi_SiteIDs b).
  - destruct (String.eqb (bi_NamespaceID b) (r_NamespaceID r)); cbn [negb orb andb]; [|done].
    destruct (Binding_grants b perm); cbn; [|done]. by destruct (bi_SiteIDs b).
Qed.

Lemma contains_nonempty sites id :
  id ≠ "" → contains (List.filter (λ id, negb (String.eqb id "")) sites) id = contains sites id.
Proof.
  intros Hid%String.eqb_neq. apply eq_bool_prop_intro. rewrite !Is_true_true, !contains_spec.
  rewrite !list_elem_of_In, filter_In, Hid. cbn. tauto.
Qed.

Lemma contains_app l1 l2 s : contains (l1 ++ l2) s = contains l1 s || contains l2 s.
Proof. apply existsb_app. Qed.

Lemma site_filter_loop_spec bs tenantID namespaceID perm ids siteID :
  namespaceID ≠ "" → siteID ≠ "" →
  let '(all, out) := site_filter_loop bs tenantID namespaceID perm ids in
  all || contains out siteID =
  contains ids siteID ||
  existsb (λ b, binding_in_scope b tenantID namespaceID perm &&
    match bi_SiteIDs b with [] => true | sites => contains sites siteID end) bs.
Proof.
  intros Hns Hid. revert ids. induction bs as [|b bs IH]; intros ids; cbn [site_filter_loop existsb].
  { rewrite orb_false_r. apply eq_bool_prop_intro. cbn [orb].
    by rewrite !Is_true_true, !contains_spec, sort_compact_elem. }
  destruct (binding_in_scope b tenantID namespaceID perm); cbn [negb andb orb]; [|apply IH].
  destruct (bi_SiteIDs b) as [|s sites] eqn:Hsites; [by rewrite orb_true_r|].
  apply String.eqb_neq in Hns. rewrite Hns.
  specialize (IH (ids ++ List.filter (λ id, negb (String.eqb id "")) (s :: sites))).
  destruct (site_filter_loop _ _ _ _ _) as [all out]. rewrite IH.
  rewrite contains_app, contains_nonempty by done. by rewrite orb_assoc.
Qed.

(** C40: for principals other than tokens, the site filter of a namespace says
    exactly which site resources [Can] allows: all of them, or those whose site
    is listed. *)
Theorem SiteFilter_Can p perm r :
  pr_Kind p ≠ KindToken → r_NamespaceID r ≠ "" → r_SiteID r ≠ "" →
  let '(all, ids) := SiteFilter (Some p) (r_TenantID r) (r_NamespaceID r) perm in
  Can (Some p) perm r = all || contains ids (r_SiteID r).
Proof.
  intros Hk%String.eqb_neq Hns Hs. unfold SiteFilter, Can. rewrite Hk.
  destruct (ValidPermission perm); cbn [negb]; [|done].
  destruct (String.eqb (pr_Kind p) KindSystem); [done|].
  destruct (String.eqb (pr_Kind p) KindUser); [|done].
  destruct (pr_IsPlatformAdmin p); [done|]. destruct (PlatformOnly perm); cbn [orb]; [done|].
  unfold wellFormed. pose proof (proj2 (String.eqb_neq _ _) Hns) as ->.
  pose proof (proj2 (String.eqb_neq _ _) Hs) as ->. cbn [negb orb].
  rewrite andb_true_r. destruct (String.eqb (r_TenantID r) "") eqn:Ht; cbn [negb]; [done|].
  bool_to_prop. unfold userSiteFilter.
  pose proof (site_filter_loop_spec (pr_Bindings p) (r_TenantID r) (r_NamespaceID r) perm []
    (r_SiteID r) Hns Hs) as Hloop.
  destruct (site_filter_loop _ _ _ _ _) as [all out]. rewrite Hloop. cbn [contains existsb orb].
  clear Hloop. induction (pr_Bindings p) as [|b l IH]; cbn [existsb]; [done|].
  by rewrite IH, binding_in_scope_allows.
Qed.

(** ** Token scopes *)

Lemma cleanSecretPath_spec p :
  cleanSecretPath p = true →
  ∀ seg, seg ∈ split_byte "/"%char p → seg ≠ [] ∧ seg ≠ bs "." ∧ seg ≠ bs "..".
Proof.
  unfold cleanSecretPath. destruct p; [done|]. rewrite forallb_forall. intros H seg Hseg.
  apply list_elem_of_In, H in Hseg. by bool_to_prop.
Qed.

Lemma grants_secret_read s def :
  grantsPermission s PermSecretRead = Some def →
  sc_Name s = ScopeSecretRead ∧ sd_arg def = argSecretGlob ∧ sc_Arg s ≠ [].
Proof.
  unfold grantsPermission, scopeDefs. intros H.
  repeat match goal with
  | H : context [String.eqb (sc_Name s) ?n] |- _ =>
      destruct (String.eqb_spec (sc_Name s) n) as [Hn|?]; [rewrite ?Hn in H; cbn in H|]
  end; repeat case_match; simplify_eq; try done.
  all: case_bool_decide; simplify_eq; done.
Qed.

(** A token reads a secret only within its own tenant and namespace, only
    through a [secret:read] scope with an argument, and only when the namespace
    name and the secret path match that argument as a glob; a path with an
    empty, [.] or [..] segment is never readable. *)
Theorem token_secret_read p r :
  pr_Kind p = KindToken → Can (Some p) PermSecretRead r = true →
  pr_TenantID p = r_TenantID r ∧ pr_NamespaceID p = r_NamespaceID r ∧
  (∀ seg, seg ∈ split_byte "/"%char (bs (r_SecretPath r)) →
     seg ≠ [] ∧ seg ≠ bs "." ∧ seg ≠ bs "..") ∧
  ∃ s ns, s ∈ pr_Scopes p ∧ sc_Name s = ScopeSecretRead ∧ sc_Arg s ≠ [] ∧ ns ≠ "" ∧
    (pr_NamespaceName p ≠ "" → ns = pr_NamespaceName p) ∧
    Matches (runes (sc_Arg s)) (runes (bs ns ++ "/"%char :: bs (r_SecretPath r))).
Proof.
  intros Hk. unfold Can. rewrite Hk. cbn [negb]. intros H.
  replace (ValidPermission PermSecretRead) with true in H by done.
  replace (PlatformOnly PermSecretRead) with false in H by done. cbn [negb orb] in H.
  replace (String.eqb KindToken KindSystem) with false in H by done.
  replace (String.eqb KindToken KindUser) with false in H by done.
  replace (String.eqb KindToken KindToken) with true in H by done.
  destruct (wellFormed r), (String.eqb (r_NamespaceID r) ""),
    (tokenBoundTo p (r_TenantID r) (r_NamespaceID r)) eqn:Hb; cbn [orb negb] in H; try done.
  apply existsb_exists in H as (s & Hs%list_elem_of_In & H). unfold Scope_allows in H.
  destruct (grantsPermission s PermSecretRead) as [def|] eqn:Hg; [|done].
  apply grants_secret_read in Hg as (Hname & Hdef & Harg). rewrite Hdef in H. cbv zeta in H.
  set (ns := if String.eqb (r_NamespaceName r) "" then pr_NamespaceName p else r_NamespaceName r) in *.
  destruct (String.eqb ns "") eqn:Hns; [done|]. cbn [orb] in H.
  destruct (negb (String.eqb (pr_NamespaceName p) "") && negb (String.eqb ns (pr_NamespaceName p)))
    eqn:Hnn; [done|].
  destruct (cleanSecretPath (bs (r_SecretPath r))) eqn:Hclean; [|done]. cbn [orb negb] in H.
  unfold tokenBoundTo in Hb. bool_to_prop. split_and!; [done..|by apply cleanSecretPath_spec|].
  exists s, ns. rewrite <- Match_iff. split_and!; try done. intros Hne%String.eqb_neq.
  rewrite Hne in Hnn. cbn in Hnn. by apply negb_false_iff, String.eqb_eq in Hnn.
Qed.

Definition scope_text (sc : Scope) : bytes :=
  match sc_Arg sc with [] => bs (sc_Name sc) | arg => bs (sc_Name sc) ++ colon :: arg end.

(** What a parsed scope is: a known name, an argument its kind admits, and a
    text within the length and character limits. *)
Definition scope_ok (sc : Scope) : Prop :=
  sc_Raw sc = scope_text sc ∧ length (sc_Raw sc) ≤ MaxScopeLen ∧ length (sc_Arg sc) ≤ MaxScopeArgLen ∧
  ValidString (sc_Raw sc) = true ∧
  (∀ r w, (r, w) ∈ decoded (sc_Raw sc) → invalidScopeRune r = false) ∧
  ∃ def, scopeDefs (sc_Name sc) = Some def ∧
    match sd_arg def with
    | argNone => sc_Arg sc = []
    | argSite => HasWildcard (sc_Arg sc) = false
    | argSecretGlob => sc_Arg sc ≠ []
    | argGroupGlob => True
    end.

Lemma scopeDefs_names name def : scopeDefs name = Some def → name ∈ ScopeNames.
Proof.
  unfold scopeDefs, ScopeNames. intros H. rewrite !elem_of_cons.
  repeat (match goal with H : context [String.eqb name ?n] |- _ =>
    destruct (String.eqb_spec name n); [tauto|] end). done.
Qed.

(** The eight names split as names: those with an argument at the colon after
    the name. *)
Lemma splitScope_text sc def :
  scopeDefs (sc_Name sc) = Some def →
  splitScope (scope_text sc) =
    (bs (sc_Name sc), sc_Arg sc, match sc_Arg sc with [] => false | _ => true end).
Proof.
  intros H%scopeDefs_names. unfold scope_text, ScopeNames in *. destruct sc as [raw name arg].
  cbn [sc_Name sc_Arg] in *.
  repeat (apply elem_of_cons in H as [->|H]; [by destruct arg|]). set_solver.
Qed.

Lemma splitScope_inv s name arg hasArg :
  splitScope s = (name, arg, hasArg) →
  if hasArg then s = name ++ colon :: arg else s = name ∧ arg = [].
Proof.
  assert (∀ c t i, index_byte c t = Some i → t = take i t ++ c :: drop (i + 1) t) as Hcut.
  { intros c t i [Hi _]%index_byte_some. rewrite Nat.add_1_r. by rewrite take_drop_middle. }
  unfold splitScope. intros H.
  destruct (index_byte colon s) as [first|] eqn:H1; [|by simplify_eq].
  apply Hcut in H1 as Hs. case_bool_decide as Hadm.
  { simplify_eq. by rewrite <- Hadm. }
  destruct (index_byte colon (drop (first + 1) s)) as [second|] eqn:H2; [|by simplify_eq].
  simplify_eq. apply index_byte_some in H2 as [H2 _]. rewrite lookup_drop in H2.
  rewrite (Nat.add_1_r (first + 1 + second)). by rewrite take_drop_middle.
Qed.

Lemma invalid_runes_spec s :
  existsb (λ '(r, _), invalidScopeRune r) (decoded s) = false ↔
  ∀ r w, (r, w) ∈ decoded s → invalidScopeRune r = false.
Proof.
  rewrite <- not_true_iff_false, existsb_exists. split.
  - intros H r w Hin%list_elem_of_In. apply not_true_iff_false. intros Hr. apply H. by exists (r, w).
  - intros H ([r w] & Hin%list_elem_of_In & Hr). by rewrite (H r w) in Hr.
Qed.

Lemma ParseScope_sound s sc : ParseScope s = Ok sc → scope_ok sc ∧ s = scope_text sc.
Proof.
  unfold ParseScope, scope_ok.
  destruct s as [|c s0] eqn:Es; [done|]. rewrite <- Es. clear Es c s0. intros H.
  destruct (MaxScopeLen <? length s)%nat eqn:Hlen; [done|].
  destruct (ValidString s) eqn:Hv; [|done]. cbn [negb orb] in H.
  destruct (existsb _ (decoded s)) eqn:Hr; [done|]. rewrite invalid_runes_spec in Hr.
  destruct (splitScope s) as [[name arg] hasArg] eqn:Hsplit. apply splitScope_inv in Hsplit.
  destruct (scopeDefs (str name)) as [def|] eqn:Hdef; [|done]. apply Nat.ltb_ge in Hlen.
  destruct hasArg; cbn [andb negb] in H.
  + case_bool_decide as Harg; [done|]. destruct (MaxScopeArgLen <? length arg)%nat eqn:Hal; [done|].
    apply Nat.ltb_ge in Hal.
    assert (sc = {| sc_Raw := s; sc_Name := str name; sc_Arg := arg |}) as ->
      by (repeat case_match; congruence).
    unfold scope_text. cbn. rewrite bs_str. destruct arg; [done|].
    split_and!; try done. exists def. split; [done|]. by repeat case_match.
  + destruct Hsplit as [-> ->].
    assert (sc = {| sc_Raw := name; sc_Name := str name; sc_Arg := [] |}) as ->
      by (repeat case_match; congruence).
    unfold scope_text. cbn. rewrite bs_str.
    split_and!; try done; [lia|]. exists def. split; [done|]. by repeat case_match.
Qed.

Lemma ParseScope_complete s sc : scope_ok sc ∧ s = scope_text sc → ParseScope s = Ok sc.
Proof.
  unfold ParseScope, scope_ok.
  intros [(Hraw & Hlen & Hal & Hv & Hr & def & Hdef & Harg) ->]. rewrite <- Hraw in *.
  pose proof (splitScope_text _ _ Hdef) as Hsplit. rewrite <- Hraw in Hsplit.
  assert (sc_Raw sc ≠ []) as Hne.
  { rewrite Hraw. apply scopeDefs_names in Hdef. unfold scope_text. destruct (sc_Arg sc) eqn:?.
    - intros Hb. apply (f_equal str) in Hb. rewrite str_bs in Hb. rewrite Hb in Hdef. set_solver.
    - by destruct (bs _). }
  destruct (sc_Raw sc) eqn:Es; [done|]. rewrite <- Es in *.
  rewrite (proj2 (Nat.ltb_ge _ _)) by done. rewrite Hv, (proj2 (invalid_runes_spec _)) by done.
  rewrite Hsplit, str_bs, Hdef. cbn [negb orb].
  assert (sc = {| sc_Raw := sc_Raw sc; sc_Name := sc_Name sc; sc_Arg := sc_Arg sc |}) as Hsc
    by by destruct sc.
  destruct (sc_Arg sc) eqn:Ea; cbn [andb]; rewrite <- ?Ea in *.
  + rewrite Ea in *. by destruct (sd_arg def); rewrite <- Hsc.
  + rewrite bool_decide_eq_false_2 by (by rewrite Ea).
    rewrite (proj2 (Nat.ltb_ge _ _)) by done. cbn [negb].
    destruct (sd_arg def); rewrite <- ?Hsc; try done; [congruence|by rewrite Harg].
Qed.

(** A text parses to a scope exactly when the scope is well formed and the
    text is its printed form, the name alone or the name, a colon and the
    argument; so scopes round-trip through their text and nothing else is
    accepted. *)
Theorem ParseScope_iff s sc :
  ParseScope s = Ok sc ↔ scope_ok sc ∧ s = scope_text sc.
Proof. split; [apply ParseScope_sound|apply ParseScope_complete]. Qed.

(** ** Concrete principals *)

Definition ex_operator : Principal :=
  {| pr_Kind := KindUser; pr_ID := "u1"; pr_Name := "ops"; pr_TenantID := ""; pr_NamespaceID := "";
     pr_NamespaceName := ""; pr_IsPlatformAdmin := false;
     pr_Bindings := [{| bi_ID := "b1"; bi_TenantID := "t1"; bi_Role := RoleOperator;
       bi_NamespaceID := "n1"; bi_SiteIDs := ["s2"; "s1"]; bi_Extra := [PermIdentityReveal] |}];
     pr_Scopes := [] |}.

Definition ex_token : Principal :=
  {| pr_Kind := KindToken; pr_ID := "k1"; pr_Name := "node"; pr_TenantID := "t1";
     pr_NamespaceID := "n1"; pr_NamespaceName := "prod"; pr_IsPlatformAdmin := false;
     pr_Bindings := [];
     pr_Scopes := [{| sc_Raw := bs "secret:read:prod/db/*"; sc_Name := ScopeSecretRead;
                      sc_Arg := bs "prod/db/*" |}] |}.

Definition ex_resource (siteID path : string) : Resource :=
  {| r_TenantID := "t1"; r_NamespaceID := "n1"; r_NamespaceName := ""; r_SiteID := siteID;
     r_SiteName := ""; r_ConfigGroup := ""; r_SecretPath := path |}.

Lemma Can_isolated_witness :
  PlatformOnly PermIdentityReveal = false ∧ Can (Some ex_operator) PermIdentityReveal (ex_resource "s1" "") = true.
Proof.
  assert (Can (Some ex_operator) PermIdentityReveal (ex_resource "s1" "") = true) as H by reflexivity.
  split; [|done]. destruct (Can_isolated _ _ _ H) as [_ [[Hu|[_ Hu]]|(Hp & _)]]; done.
Defined.

Lemma SiteFilter_Can_witness :
  Can (Some ex_operator) PermIdentityRead (ex_resource "s1" "") = true ∧
  Can (Some ex_operator) PermIdentityRead (ex_resource "s3" "") = false.
Proof.
  split.
  - rewrite (SiteFilter_Can ex_operator PermIdentityRead (ex_resource "s1" "")) by done. reflexivity.
  - rewrite (SiteFilter_Can ex_operator PermIdentityRead (ex_resource "s3" "")) by done. reflexivity.
Defined.

Lemma token_secret_read_witness :
  Can (Some ex_token) PermSecretRead (ex_resource "" "db/main") = true ∧
  pr_TenantID ex_token = r_TenantID (ex_resource "" "db/main").
Proof.
  assert (Can (Some ex_token) PermSecretRead (ex_resource "" "db/main") = true) as H by reflexivity.
  split; [done|]. apply (token_secret_read ex_token _ eq_refl H).
Defined.
