(* ===== verification/Admit.v ===== *)
(** The admission gate (internal/pkg/admit/admit.go): a resizable, weighted
    FIFO semaphore with a bounded wait room.

    The gate is a record and every critical section of the code, the code
    between [g.mu.Lock] and [g.mu.Unlock], is a function on it.  Callers run
    concurrently: a [world] holds the gate and, per caller, where its call of
    [Acquire] stands and the waiter it allocated, which the queue refers to by
    the caller's number.  [step] interleaves the callers' atomic actions: a
    critical section, the receive from the handoff channel, and the
    compare-and-swap on [claimed], which the code performs without the lock.
    [drainLocked] runs under the lock; a caller's compare-and-swap that lands
    inside it behaves as one just before it or just after it, because the drain
    touches [claimed] of each waiter once, so the drain is one action here.

    The clock is left out: a wait may end at any time by the timer or by the
    context, and the duration a result reports is not modelled. *)

From stdpp Require Import base gmap list.
From S2P Require Import Prelude.

Local Open Scope Z_scope.

(** ** Data *)

Record waiter := { want : Z; weight : Z; claimed : bool; sent : bool }.

Record Gate := {
  g_limit : Z;
  g_depth : Z;
  g_cfgDepth : Z;
  g_inFlight : Z;
  g_queue : list nat;
}.

Definition QueueFactor : Z := 4.
Definition MinQueueDepth : Z := 32.

Inductive admitErr := ErrQueueFull | ErrNoBudget | ErrQueueTimeout | ErrContext.

(** Where a call of [Acquire] stands.  [Quitting] has won the claim and is
    about to [abandon]; [Late] has lost it and waits for the handoff, [true]
    when the context was cancelled; [GivingBack] then holds a permit that it
    releases before it returns the error. *)
Inductive caller :=
| Parked (wt : waiter)
| Quitting (wt : waiter) (err : admitErr)
| Late (wt : waiter) (cancelled : bool)
| Holding (n : Z)
| GivingBack (n : Z)
| Failed (err : admitErr)
| Released.

Record world := { w_gate : Gate; w_callers : gmap nat caller }.

(** ** Operations *)

Definition deriveDepth (cfgDepth limit : Z) : Z :=
  if cfgDepth >? 0 then cfgDepth
  else if limit >? int64_max / QueueFactor then int64_max
  else Z.max (wrap64 (QueueFactor * limit)) MinQueueDepth.

Definition New (cfgLimit cfgQueueDepth : Z) : Gate :=
  let limit := Z.max cfgLimit 1 in
  let cfgDepth := Z.max cfgQueueDepth 0 in
  {| g_limit := limit; g_depth := deriveDepth cfgDepth limit; g_cfgDepth := cfgDepth;
     g_inFlight := 0; g_queue := [] |}.

Definition waiter_of (cs : gmap nat caller) (id : nat) : option waiter :=
  match cs !! id with
  | Some (Parked wt) | Some (Quitting wt _) | Some (Late wt _) => Some wt
  | _ => None
  end.

Definition update_waiter (f : waiter → waiter) (c : caller) : caller :=
  match c with
  | Parked wt => Parked (f wt)
  | Quitting wt err => Quitting (f wt) err
  | Late wt cancelled => Late (f wt) cancelled
  | _ => c
  end.

Definition set_weight (n : Z) (wt : waiter) : waiter :=
  {| want := want wt; weight := n; claimed := claimed wt; sent := sent wt |}.
Definition hand_off (n : Z) (wt : waiter) : waiter :=
  {| want := want wt; weight := n; claimed := true; sent := true |}.

(** The loop of [drainLocked].  The queue holds waiters only, so the branch of
    a number that is no waiter's is not reached. *)
Fixpoint drain_loop (limit : Z) (queue : list nat) (inFlight : Z) (cs : gmap nat caller)
    : list nat * Z * gmap nat caller :=
  match queue with
  | [] => ([], inFlight, cs)
  | el :: queue' =>
      match waiter_of cs el with
      | None => (queue, inFlight, cs)
      | Some wt =>
          let n := Z.min (want wt) limit in
          if n >? wrap64 (limit - inFlight) then (queue, inFlight, cs)
          else if claimed wt
          then drain_loop limit queue' inFlight (alter (update_waiter (set_weight n)) el cs)
          else drain_loop limit queue' (wrap64 (inFlight + n))
                 (alter (update_waiter (hand_off n)) el cs)
      end
  end.

Definition with_queue (g : Gate) (queue : list nat) (inFlight : Z) : Gate :=
  {| g_limit := g_limit g; g_depth := g_depth g; g_cfgDepth := g_cfgDepth g;
     g_inFlight := inFlight; g_queue := queue |}.

Definition drainLocked (w : world) : world :=
  let g := w_gate w in
  let '(queue, inFlight, cs) := drain_loop (g_limit g) (g_queue g) (g_inFlight g) (w_callers w) in
  {| w_gate := with_queue g queue inFlight; w_callers := cs |}.

(** The first critical section of [Acquire]: admits, sheds or parks. *)
Definition Acquire (g : Gate) (id : nat) (weight : Z) (budget : Z) : Gate * caller :=
  let w := Z.min (Z.max weight 1) (g_limit g) in
  if bool_decide (g_queue g = []) && (w <=? wrap64 (g_limit g - g_inFlight g))
  then (with_queue g (g_queue g) (wrap64 (g_inFlight g + w)), Holding w)
  else if budget <=? 0 then (g, Failed ErrNoBudget)
  else if Z.of_nat (length (g_queue g)) >=? g_depth g then (g, Failed ErrQueueFull)
  else (with_queue g (g_queue g ++ [id]) (g_inFlight g),
        Parked {| want := w; weight := w; claimed := false; sent := false |}).

Definition SetLimit (n : Z) (w : world) : world :=
  let g := w_gate w in
  let limit := Z.max n 1 in
  drainLocked
    {| w_gate := {| g_limit := limit; g_depth := deriveDepth (g_cfgDepth g) limit;
                    g_cfgDepth := g_cfgDepth g; g_inFlight := g_inFlight g; g_queue := g_queue g |};
       w_callers := w_callers w |}.

(** [Permit.Release] of a held permit of [n] units. *)
Definition Release (n : Z) (w : world) : world :=
  let g := w_gate w in
  drainLocked {| w_gate := with_queue g (g_queue g) (wrap64 (g_inFlight g - n)); w_callers := w_callers w |}.

Definition abandon (id : nat) (w : world) : world :=
  let g := w_gate w in
  drainLocked
    {| w_gate := with_queue g (List.filter (λ el, negb (el =? id)%nat) (g_queue g)) (g_inFlight g);
       w_callers := w_callers w |}.

Definition set_caller (id : nat) (c : caller) (w : world) : world :=
  {| w_gate := w_gate w; w_callers := <[id := c]> (w_callers w) |}.

Definition claim (wt : waiter) : waiter :=
  {| want := want wt; weight := weight wt; claimed := true; sent := sent wt |}.

(** ** Interleaving *)

Inductive step : world → world → Prop :=
| step_acquire w id weight budget g' c :
    w_callers w !! id = None → Acquire (w_gate w) id weight budget = (g', c) →
    step w {| w_gate := g'; w_callers := <[id := c]> (w_callers w) |}
| step_receive w id wt :
    w_callers w !! id = Some (Parked wt) → sent wt = true →
    step w (set_caller id (Holding (weight wt)) w)
| step_expire w id wt err :
    w_callers w !! id = Some (Parked wt) → claimed wt = false →
    err = ErrQueueTimeout ∨ err = ErrContext →
    step w (set_caller id (Quitting (claim wt) err) w)
| step_late w id wt cancelled :
    w_callers w !! id = Some (Parked wt) → claimed wt = true →
    step w (set_caller id (Late wt cancelled) w)
| step_late_receive w id wt cancelled :
    w_callers w !! id = Some (Late wt cancelled) → sent wt = true →
    step w (set_caller id (if cancelled : bool then GivingBack (weight wt) else Holding (weight wt)) w)
| step_abandon w id wt err :
    w_callers w !! id = Some (Quitting wt err) →
    step w (abandon id (set_caller id (Failed err) w))
| step_release w id n :
    w_callers w !! id = Some (Holding n) →
    step w (Release n (set_caller id Released w))
| step_give_back w id n :
    w_callers w !! id = Some (GivingBack n) →
    step w (Release n (set_caller id (Failed ErrContext) w))
| step_limit w n : n ≤ int64_max → step w (SetLimit n w).

Inductive reachable : world → Prop :=
| reach_new limit depth :
    limit ≤ int64_max → depth ≤ int64_max →
    reachable {| w_gate := New limit depth; w_callers := ∅ |}
| reach_step w w' : reachable w → step w w' → reachable w'.

(** ** Accounting *)

(** The units a caller is charged with. *)
Definition held (c : caller) : Z :=
  match c with
  | Parked wt | Late wt _ => if sent wt then weight wt else 0
  | Holding n | GivingBack n => n
  | Quitting _ _ | Failed _ | Released => 0
  end.

Definition held_total (cs : gmap nat caller) : Z := map_fold (λ _ c acc, held c + acc) 0 cs.

Lemma held_total_empty : held_total ∅ = 0.
Proof. apply map_fold_empty. Qed.

Lemma held_total_fresh cs id c :
  cs !! id = None → held_total (<[id := c]> cs) = held c + held_total cs.
Proof. intros H. unfold held_total. rewrite map_fold_insert_L; [done|lia|done]. Qed.

Lemma held_total_insert cs id c :
  held_total (<[id := c]> cs) = held_total cs - from_option held 0 (cs !! id) + held c.
Proof.
  rewrite <- (insert_delete_eq cs id c), held_total_fresh by apply lookup_delete_eq.
  destruct (cs !! id) as [c0|] eqn:H; cbn.
  - rewrite <- (insert_delete_id cs id c0 H) at 2.
    rewrite held_total_fresh by apply lookup_delete_eq. lia.
  - rewrite delete_id by done. lia.
Qed.

Lemma held_total_bound cs id :
  (∀ j c, cs !! j = Some c → 0 ≤ held c) →
  0 ≤ from_option held 0 (cs !! id) ≤ held_total cs.
Proof.
  induction cs as [|j c cs Hj _ IH] using map_first_key_ind; intros Hpos.
  { rewrite lookup_empty, held_total_empty. cbn. lia. }
  rewrite held_total_fresh by done.
  assert (0 ≤ held c) by (apply (Hpos j), lookup_insert_eq).
  assert (0 ≤ from_option held 0 (cs !! id) ≤ held_total cs) as Hcs.
  { apply IH. intros k d Hk. apply (Hpos k). rewrite lookup_insert_ne by congruence. done. }
  destruct (decide (j = id)) as [<-|Hne].
  - rewrite lookup_insert_eq. cbn. rewrite Hj in Hcs. cbn in Hcs. lia.
  - rewrite lookup_insert_ne by done. lia.
Qed.

Lemma alter_insert (f : caller → caller) (cs : gmap nat caller) id c :
  cs !! id = Some c → alter f id cs = <[id := f c]> cs.
Proof.
  intros H. apply map_eq. intros j. destruct (decide (id = j)) as [<-|Hj].
  - by rewrite lookup_alter_eq, lookup_insert_eq, H.
  - by rewrite lookup_alter_ne, lookup_insert_ne.
Qed.

(** ** Invariant *)

(** What a caller's state says, given the queue. *)
Definition caller_ok (queue : list nat) (id : nat) (c : caller) : Prop :=
  match c with
  | Parked wt =>
      1 ≤ want wt ∧
      if claimed wt then sent wt = true ∧ 1 ≤ weight wt ∧ id ∉ queue
      else sent wt = false ∧ id ∈ queue
  | Quitting wt _ => 1 ≤ want wt ∧ claimed wt = true ∧ sent wt = false
  | Late wt _ => claimed wt = true ∧ sent wt = true ∧ 1 ≤ weight wt ∧ id ∉ queue
  | Holding n | GivingBack n => 1 ≤ n ∧ id ∉ queue
  | Failed _ | Released => id ∉ queue
  end.

Record gate_inv (limit inFlight : Z) (queue : list nat) (cs : gmap nat caller) : Prop := {
  inv_limit : 1 ≤ limit ≤ int64_max;
  inv_range : 0 ≤ inFlight ≤ int64_max;
  inv_total : inFlight = held_total cs;
  inv_nodup : NoDup queue;
  inv_known : ∀ id, id ∈ queue → is_Some (cs !! id);
  inv_callers : ∀ id c, cs !! id = Some c → caller_ok queue id c;
}.

(** The waiter at the head of the queue does not fit. *)
Definition head_blocked (limit inFlight : Z) (queue : list nat) (cs : gmap nat caller) : Prop :=
  match queue with
  | [] => True
  | el :: _ => ∃ wt, waiter_of cs el = Some wt ∧ limit - inFlight < Z.min (want wt) limit
  end.

Lemma inv_head limit inFlight el queue cs :
  gate_inv limit inFlight (el :: queue) cs →
  ∃ wt, waiter_of cs el = Some wt ∧ 1 ≤ want wt ∧
    (cs !! el = Some (Parked wt) ∧ claimed wt = false ∧ sent wt = false ∨
     (∃ err, cs !! el = Some (Quitting wt err)) ∧ claimed wt = true ∧ sent wt = false).
Proof.
  intros Hinv. destruct (inv_known _ _ _ _ Hinv el) as [c Hc]; [set_solver|].
  pose proof (inv_callers _ _ _ _ Hinv _ _ Hc) as Hok. unfold waiter_of. rewrite Hc.
  assert (el ∈ el :: queue) as Hel by (by constructor).
  destruct c as [wt|wt err|wt ?|n|n| |]; cbn in Hok; try (exfalso; tauto).
  - exists wt. destruct (claimed wt) eqn:Hcl; [exfalso; tauto|]. destruct Hok as (? & ? & ?). eauto 10.
  - exists wt. destruct Hok as (? & ? & ?). eauto 10.
Qed.

Lemma caller_ok_iff queue queue' id c :
  (id ∈ queue ↔ id ∈ queue') → caller_ok queue id c → caller_ok queue' id c.
Proof. destruct c as [wt|wt ?|wt ?|n|n| |]; cbn; try destruct (claimed wt); tauto. Qed.

(** One caller changes its state and at most its own place in the queue. *)
Lemma inv_change limit inFlight queue cs id c' inFlight' queue' :
  gate_inv limit inFlight queue cs →
  NoDup queue' → (∀ j, j ≠ id → j ∈ queue ↔ j ∈ queue') → caller_ok queue' id c' →
  inFlight' = inFlight - from_option held 0 (cs !! id) + held c' → 0 ≤ inFlight' ≤ int64_max →
  gate_inv limit inFlight' queue' (<[id := c']> cs).
Proof.
  intros [Hl Hr Ht Hnd Hk Hcs] Hnd' Hq Hok -> Hr'. split; try done.
  - rewrite held_total_insert. lia.
  - intros j Hj. rewrite lookup_insert_is_Some'. destruct (decide (id = j)); [auto|right].
    apply Hk, Hq; [done|done].
  - intros j d. destruct (decide (id = j)) as [<-|Hne].
    + rewrite lookup_insert_eq. by intros [= <-].
    + rewrite lookup_insert_ne by done. intros Hd. eapply caller_ok_iff; [|by apply Hcs]. auto.
Qed.

Lemma inv_pop limit inFlight el queue cs c c' inFlight' :
  gate_inv limit inFlight (el :: queue) cs → cs !! el = Some c →
  caller_ok queue el c' → inFlight' = inFlight - held c + held c' → 0 ≤ inFlight' ≤ int64_max →
  gate_inv limit inFlight' queue (<[el := c']> cs).
Proof.
  intros Hinv Hc Hok -> Hr. pose proof (inv_nodup _ _ _ _ Hinv) as [Hel Hnd]%NoDup_cons.
  apply (inv_change _ _ _ _ _ _ _ _ Hinv); [done| |done|by rewrite Hc|done].
  intros j Hj. rewrite elem_of_cons. tauto.
Qed.

Lemma inv_held limit inFlight queue cs id :
  gate_inv limit inFlight queue cs → 0 ≤ from_option held 0 (cs !! id) ≤ inFlight.
Proof.
  intros [Hl Hr -> Hnd Hk Hcs]. apply held_total_bound. intros j c Hc. apply Hcs in Hc.
  destruct c as [wt|wt ?|wt ?|n|n| |]; cbn in *; try lia.
  - destruct (claimed wt); destruct Hc as (? & Hs & ?); [|by rewrite Hs]. rewrite Hs. lia.
  - destruct Hc as (? & Hs & ? & ?). rewrite Hs. lia.
Qed.

Lemma no_wrap limit inFlight :
  1 ≤ limit ≤ int64_max → 0 ≤ inFlight ≤ int64_max → wrap64 (limit - inFlight) = limit - inFlight.
Proof. intros. apply wrap64_id. unfold is_int64, int64_min, int64_max in *. lia. Qed.

(** ** Draining *)

(** What a drain does: it removes a prefix of the queue, hands a permit to each
    removed waiter that has not given up, leaves everyone else alone, stays
    within the limit whenever it admits, and stops at a waiter that does not
    fit. *)
Record drained (limit inFlight : Z) (queue : list nat) (cs : gmap nat caller)
    (inFlight' : Z) (queue' : list nat) (cs' : gmap nat caller) : Prop := {
  dr_inv : gate_inv limit inFlight' queue' cs';
  dr_blocked : head_blocked limit inFlight' queue' cs';
  dr_grows : inFlight ≤ inFlight';
  dr_limit : inFlight' = inFlight ∨ inFlight' ≤ limit;
  dr_prefix : ∃ popped, queue = popped ++ queue' ∧
    (∀ id, id ∈ popped → ∀ wt, cs !! id = Some (Parked wt) →
       ∃ n, 1 ≤ n ≤ limit ∧ n = Z.min (want wt) limit ∧ cs' !! id = Some (Parked (hand_off n wt))) ∧
    (∀ id, id ∉ popped → cs' !! id = cs !! id);
}.

Lemma drained_step limit inFlight el queue cs c c' inFlight1 inFlight' queue' cs' :
  inFlight ≤ inFlight1 → inFlight1 = inFlight ∨ inFlight1 ≤ limit → NoDup (el :: queue) →
  cs !! el = Some c →
  (∀ wt, c = Parked wt → ∃ n, 1 ≤ n ≤ limit ∧ n = Z.min (want wt) limit ∧
     c' = Parked (hand_off n wt)) →
  drained limit inFlight1 queue (<[el := c']> cs) inFlight' queue' cs' →
  drained limit inFlight (el :: queue) cs inFlight' queue' cs'.
Proof.
  intros Hle Hlim Hnd Hc Hhand [Hinv Hbl Hg Hl (popped & -> & Hpop & Hrest)].
  apply NoDup_cons in Hnd as [Hel Hnd]. split; try done; [lia|lia|].
  exists (el :: popped). split; [done|]. split.
  - intros id [->|Hid]%elem_of_cons wt Hwt.
    + rewrite Hc in Hwt. injection Hwt as ->. destruct (Hhand wt eq_refl) as (n & ? & ? & ->).
      exists n. split_and!; [lia..|done|]. rewrite Hrest by set_solver. apply lookup_insert_eq.
    + destruct (Hpop id Hid wt) as (n & ? & ? & ?); [|eauto].
      rewrite lookup_insert_ne by set_solver. done.
  - intros id [Hne Hid]%not_elem_of_cons. rewrite Hrest by done. by apply lookup_insert_ne.
Qed.

Lemma drain_loop_spec limit queue inFlight cs :
  gate_inv limit inFlight queue cs →
  let '(queue', inFlight', cs') := drain_loop limit queue inFlight cs in
  drained limit inFlight queue cs inFlight' queue' cs'.
Proof.
  revert inFlight cs. induction queue as [|el queue IH]; intros inFlight cs Hinv; cbn [drain_loop].
  { split; try done; [auto|]. exists []. split_and!; set_solver. }
  destruct (inv_head _ _ _ _ _ Hinv) as (wt & Hwt & Hwant & Hstate). rewrite Hwt.
  pose proof (inv_limit _ _ _ _ Hinv) as Hl. pose proof (inv_range _ _ _ _ Hinv) as Hr.
  pose proof (inv_nodup _ _ _ _ Hinv) as Hnd. rewrite no_wrap by done.
  assert (el ∉ queue) as Hel by (apply NoDup_cons in Hnd; tauto).
  destruct (Z.gtb_spec (Z.min (want wt) limit) (limit - inFlight)) as [Hfit|Hfit].
  { split; try done; [cbn; exists wt; split; [done|lia]|auto|]. exists []. split_and!; set_solver. }
  set (n := Z.min (want wt) limit) in *.
  destruct Hstate as [(Hc & Hcl & Hs)|((err & Hc) & Hcl & Hs)]; rewrite Hcl.
  - rewrite wrap64_id by (unfold is_int64, int64_min in *; lia).
    rewrite (alter_insert _ _ _ _ Hc). cbn [update_waiter].
    specialize (IH (inFlight + n) (<[el := Parked (hand_off n wt)]> cs)).
    destruct (drain_loop _ _ _ _) as [[q' i'] cs'].
    eapply (drained_step _ _ _ _ _ _ _ (inFlight + n)); [lia|lia|done|done| |apply IH].
    + intros ? [= <-]. exists n. split_and!; [lia..|done|done].
    + apply (inv_pop _ _ _ _ _ _ _ _ Hinv Hc); cbn; rewrite ?Hs; [|lia|lia].
      split_and!; [lia|done|lia|done].
  - rewrite (alter_insert _ _ _ _ Hc). cbn [update_waiter].
    specialize (IH inFlight (<[el := Quitting (set_weight n wt) err]> cs)).
    destruct (drain_loop _ _ _ _) as [[q' i'] cs'].
    eapply (drained_step _ _ _ _ _ _ _ inFlight); [lia|lia|done|done| |apply IH]; [done|].
    apply (inv_pop _ _ _ _ _ _ _ _ Hinv Hc); cbn; [|lia|lia]. by split_and!.
Qed.

(** ** Every interleaving *)

Definition world_inv (w : world) : Prop :=
  gate_inv (g_limit (w_gate w)) (g_inFlight (w_gate w)) (g_queue (w_gate w)) (w_callers w) ∧
  head_blocked (g_limit (w_gate w)) (g_inFlight (w_gate w)) (g_queue (w_gate w)) (w_callers w).

Lemma drainLocked_inv w :
  gate_inv (g_limit (w_gate w)) (g_inFlight (w_gate w)) (g_queue (w_gate w)) (w_callers w) →
  world_inv (drainLocked w) ∧
  drained (g_limit (w_gate w)) (g_inFlight (w_gate w)) (g_queue (w_gate w)) (w_callers w)
    (g_inFlight (w_gate (drainLocked w))) (g_queue (w_gate (drainLocked w))) (w_callers (drainLocked w)) ∧
  g_limit (w_gate (drainLocked w)) = g_limit (w_gate w).
Proof.
  intros Hinv%drain_loop_spec. unfold drainLocked, world_inv.
  destruct (drain_loop _ _ _ _) as [[q i] cs]. cbn in *. split_and!; [| |done|done]; apply Hinv.
Qed.

(** A caller moves on while the head of the queue stays blocked. *)
Lemma inv_move limit inFlight queue cs id c c' :
  gate_inv limit inFlight queue cs → head_blocked limit inFlight queue cs →
  cs !! id = Some c → caller_ok queue id c' → held c' = held c →
  (id ∈ queue → ∀ wt, waiter_of cs id = Some wt →
     ∃ wt', waiter_of (<[id := c']> cs) id = Some wt' ∧ want wt' = want wt) →
  gate_inv limit inFlight queue (<[id := c']> cs) ∧ head_blocked limit inFlight queue (<[id := c']> cs).
Proof.
  intros Hinv Hbl Hc Hok Hheld Hwant. split.
  - apply (inv_change _ inFlight queue _ _ _ _ _ Hinv); try done.
    + apply Hinv.
    + rewrite Hc. cbn. lia.
    + apply Hinv.
  - destruct queue as [|el queue]; [done|]. destruct Hbl as (wt & Hwt & Hlt). cbn.
    destruct (decide (id = el)) as [->|Hne].
    + destruct (Hwant ltac:(by constructor) wt Hwt) as (wt' & ? & Heq). exists wt'. by rewrite Heq.
    + exists wt. unfold waiter_of in *. by rewrite lookup_insert_ne.
Qed.

Lemma Acquire_inv w id weight budget g' c :
  world_inv w → w_callers w !! id = None → Acquire (w_gate w) id weight budget = (g', c) →
  world_inv {| w_gate := g'; w_callers := <[id := c]> (w_callers w) |} ∧
  (g_inFlight g' = g_inFlight (w_gate w) ∨ g_inFlight g' ≤ g_limit g') ∧ g_limit g' = g_limit (w_gate w).
Proof.
  intros [Hinv Hbl] Hid. unfold Acquire.
  pose proof (inv_limit _ _ _ _ Hinv) as Hl. pose proof (inv_range _ _ _ _ Hinv) as Hr.
  assert (id ∉ g_queue (w_gate w)) as Hq.
  { intros Hin. apply (inv_known _ _ _ _ Hinv) in Hin as [? ?]. congruence. }
  set (n := Z.min (Z.max weight 1) (g_limit (w_gate w))).
  assert (∀ c', held c' = 0 → caller_ok (g_queue (w_gate w)) id c' →
    world_inv {| w_gate := w_gate w; w_callers := <[id := c']> (w_callers w) |}) as Hshed.
  { intros c' Hheld Hok. split; cbn.
    - apply (inv_change _ (g_inFlight (w_gate w)) (g_queue (w_gate w)) _ _ _ _ _ Hinv); try done.
      + apply Hinv. + rewrite Hid. cbn. lia.
    - destruct (g_queue (w_gate w)) as [|el q]; [done|]. destruct Hbl as (wt & Hwt & ?). exists wt.
      unfold waiter_of in *. rewrite lookup_insert_ne; [done|]. intros ->. apply Hq. by constructor. }
  rewrite no_wrap by done.
  destruct (bool_decide _ && _) eqn:Hfit; [|destruct (budget <=? 0); [|destruct (_ >=? _)]].
  - apply andb_prop in Hfit as [He%bool_decide_eq_true Hn%Z.leb_le].
    rewrite wrap64_id by (unfold is_int64, int64_min in *; lia). intros [= <- <-].
    split_and!; [split; cbn; rewrite He; [|done]|cbn; lia|done].
    apply (inv_change _ (g_inFlight (w_gate w)) [] _ _ _ _ _); [by rewrite He in Hinv|constructor|done| | |lia].
    + split; [lia|set_solver]. + rewrite Hid. cbn. lia.
  - intros [= <- <-]. split; [by apply Hshed|auto].
  - intros [= <- <-]. split; [by apply Hshed|auto].
  - intros [= <- <-]. split_and!; [|cbn; auto|done]. split; cbn [w_gate w_callers with_queue g_limit g_inFlight g_queue].
    + apply (inv_change _ (g_inFlight (w_gate w)) (g_queue (w_gate w)) _ _ _ _ _ Hinv); try done.
      * apply NoDup_app. split_and!; [apply Hinv|set_solver|apply NoDup_singleton].
      * intros j Hj. rewrite elem_of_app, list_elem_of_singleton. tauto.
      * cbn. split_and!; [lia|done|set_solver].
      * rewrite Hid. cbn. lia.
    + destruct (g_queue (w_gate w)) as [|el q] eqn:Eq; cbn.
      * eexists. unfold waiter_of. rewrite lookup_insert_eq. split; [done|]. cbn.
        rewrite bool_decide_eq_true_2 in Hfit by done. cbn in Hfit. apply Z.leb_gt in Hfit. lia.
      * destruct Hbl as (wt & Hwt & ?). exists wt. unfold waiter_of in *.
        rewrite lookup_insert_ne; [done|]. intros ->. apply Hq. by constructor.
Qed.

Lemma Acquire_fast w id weight budget g' n :
  world_inv w → Acquire (w_gate w) id weight budget = (g', Holding n) →
  g_queue (w_gate w) = [] ∧ g_inFlight (w_gate w) + n ≤ g_limit (w_gate w).
Proof.
  intros [Hinv _] Hacq. unfold Acquire in Hacq. rewrite no_wrap in Hacq by apply Hinv.
  destruct (bool_decide _ && _) eqn:Hfit; [|repeat case_match; done].
  apply andb_prop in Hfit as [He%bool_decide_eq_true Hn%Z.leb_le]. simplify_eq. split; [done|lia].
Qed.

(** Queue order. *)
Definition before (queue : list nat) (a b : nat) : Prop :=
  ∃ l1 l2, queue = l1 ++ a :: l2 ∧ b ∈ l2.

Lemma before_filter f queue a b :
  f a = true → f b = true → before queue a b → before (List.filter f queue) a b.
Proof.
  intros Ha Hb (l1 & l2 & -> & Hin). exists (List.filter f l1), (List.filter f l2).
  rewrite List.filter_app. cbn. rewrite Ha. split; [done|].
  rewrite list_elem_of_In, filter_In. by rewrite <- list_elem_of_In.
Qed.

Lemma before_prefix popped rest a b :
  NoDup (popped ++ rest) → before (popped ++ rest) a b → b ∈ popped → a ∈ popped.
Proof.
  intros Hnd (l1 & l2 & Heq & Hb) Hbp.
  destruct (decide (a ∈ popped)) as [|Ha]; [done|exfalso].
  apply app_eq_inv in Heq as [(k & Hp & Hr)|(k & -> & Hr)].
  - subst popped. destruct k as [|x k]; cbn in Hr; simplify_eq.
    + rewrite app_nil_r in *. apply NoDup_app in Hnd as (_ & Hd & _). apply (Hd b); set_solver.
    + apply Ha. set_solver.
  - subst rest. apply NoDup_app in Hnd as (_ & Hd & _). apply (Hd b); set_solver.
Qed.

(** The state a critical section hands to the drain: one caller, no longer
    parked, has given up its charge and its place, or the limit has changed. *)
Record pre_drain (w w0 : world) : Prop := {
  pd_inv : gate_inv (g_limit (w_gate w0)) (g_inFlight (w_gate w0)) (g_queue (w_gate w0)) (w_callers w0);
  pd_inFlight : g_inFlight (w_gate w0) ≤ g_inFlight (w_gate w);
  pd_parked : ∀ id wt, w_callers w !! id = Some (Parked wt) → w_callers w0 !! id = Some (Parked wt);
  pd_fresh : ∀ id, w_callers w !! id = None → w_callers w0 !! id = None;
  pd_order : ∀ a b wta wtb, w_callers w !! a = Some (Parked wta) → w_callers w !! b = Some (Parked wtb) →
    before (g_queue (w_gate w)) a b → before (g_queue (w_gate w0)) a b;
}.

(** Either a step hands nothing off and admits at most the arriving caller, or
    it ends with a drain. *)
Definition quiet (w w' : world) : Prop :=
  world_inv w' ∧
  (∀ id wt, w_callers w' !! id = Some (Parked wt) → sent wt = true → w_callers w !! id = Some (Parked wt)) ∧
  (g_inFlight (w_gate w') = g_inFlight (w_gate w) ∨ g_inFlight (w_gate w') ≤ g_limit (w_gate w')) ∧
  (∀ id n, w_callers w !! id = None → w_callers w' !! id = Some (Holding n) →
     g_queue (w_gate w) = [] ∧ g_inFlight (w_gate w) + n ≤ g_limit (w_gate w)).

Lemma quiet_move w id c c' :
  world_inv w → w_callers w !! id = Some c → caller_ok (g_queue (w_gate w)) id c' → held c' = held c →
  (id ∈ g_queue (w_gate w) → ∀ wt, waiter_of (w_callers w) id = Some wt →
     ∃ wt', waiter_of (<[id := c']> (w_callers w)) id = Some wt' ∧ want wt' = want wt) →
  (∀ wt, c' ≠ Parked wt) → quiet w (set_caller id c' w).
Proof.
  intros [Hinv Hbl] Hc Hok Hheld Hwant Hnp. split_and!; [by eapply inv_move| |by left|].
  - intros j wt. cbn. destruct (decide (id = j)) as [<-|Hne].
    + rewrite lookup_insert_eq. intros [= Hp]. by destruct (Hnp wt).
    + by rewrite lookup_insert_ne.
  - cbn. intros j n Hj. rewrite lookup_insert_ne; congruence.
Qed.

Lemma pre_drain_leave w id c c' inFlight queue :
  world_inv w → w_callers w !! id = Some c → (∀ wt, c ≠ Parked wt) →
  gate_inv (g_limit (w_gate w)) inFlight queue (<[id := c']> (w_callers w)) →
  inFlight ≤ g_inFlight (w_gate w) →
  (∀ a b, a ≠ id → b ≠ id → before (g_queue (w_gate w)) a b → before queue a b) →
  pre_drain w {| w_gate := with_queue (w_gate w) queue inFlight; w_callers := <[id := c']> (w_callers w) |}.
Proof.
  intros Hw Hc Hnp Hinv Hle Hord. split; cbn; try done.
  - intros j wt Hj. rewrite lookup_insert_ne; [done|]. intros ->. rewrite Hc in Hj. naive_solver.
  - intros j Hj. rewrite lookup_insert_ne; [done|]. intros ->. congruence.
  - intros a b wta wtb Ha Hb. apply Hord; intros ->; naive_solver.
Qed.

Lemma release_pre w id n c c' :
  world_inv w → w_callers w !! id = Some c → (∀ wt, c ≠ Parked wt) → held c = n → held c' = 0 →
  caller_ok (g_queue (w_gate w)) id c' →
  pre_drain w {| w_gate := with_queue (w_gate w) (g_queue (w_gate w)) (wrap64 (g_inFlight (w_gate w) - n));
                 w_callers := <[id := c']> (w_callers w) |}.
Proof.
  intros Hw Hc Hnp Hn Hheld Hok. pose proof (proj1 Hw) as Hinv.
  pose proof (inv_held _ _ _ _ id Hinv) as Hle. pose proof (inv_range _ _ _ _ Hinv) as Hr.
  rewrite Hc in Hle. cbn in Hle. rewrite wrap64_id by (unfold is_int64, int64_min in *; lia).
  apply (pre_drain_leave _ _ _ _ _ _ Hw Hc Hnp); [|lia|done].
  apply (inv_change _ (g_inFlight (w_gate w)) (g_queue (w_gate w)) _ _ _ _ _ Hinv); try done.
  - apply Hinv. - rewrite Hc. cbn. lia. - lia.
Qed.

Lemma abandon_pre w id wt err :
  world_inv w → w_callers w !! id = Some (Quitting wt err) →
  pre_drain w {| w_gate := with_queue (w_gate w)
      (List.filter (λ el, negb (el =? id)%nat) (g_queue (w_gate w))) (g_inFlight (w_gate w));
    w_callers := <[id := Failed err]> (w_callers w) |}.
Proof.
  intros Hw Hc. pose proof (proj1 Hw) as Hinv.
  apply (pre_drain_leave _ _ _ _ _ _ Hw Hc); [done| |lia|].
  - apply (inv_change _ (g_inFlight (w_gate w)) (g_queue (w_gate w)) _ _ _ _ _ Hinv).
    + apply NoDup_ListNoDup, List.NoDup_filter, NoDup_ListNoDup, Hinv.
    + intros j Hj. rewrite !list_elem_of_In, filter_In, negb_true_iff, Nat.eqb_neq. tauto.
    + cbn. rewrite list_elem_of_In, filter_In, Nat.eqb_refl. by intros [_ ?].
    + rewrite Hc. cbn. lia.
    + apply Hinv.
  - intros a b Ha Hb. apply before_filter; by apply negb_true_iff, Nat.eqb_neq.
Qed.

Lemma step_cases w w' :
  world_inv w → step w w' → quiet w w' ∨ ∃ w0, w' = drainLocked w0 ∧ pre_drain w w0.
Proof.
  intros Hw Hstep. pose proof (proj1 Hw) as Hinv.
  inversion Hstep as [? id weight budget g' c Hid Hacq|? id wt Hc Hs|? id wt err Hc Hcl _
    |? id wt cancelled Hc Hcl|? id wt cancelled Hc Hs|? id wt err Hc|? id n Hc|? id n Hc|? n Hn];
    subst; try (pose proof (inv_callers _ _ _ _ Hinv _ _ Hc) as Hok; cbn in Hok).
  - left. destruct (Acquire_inv _ _ _ _ _ _ Hw Hid Hacq) as (Hw' & Hle & _).
    split_and!; [done| |done|]; cbn; [intros j wt|intros j n];
      (destruct (decide (id = j)) as [<-|Hne]; [rewrite lookup_insert_eq|rewrite lookup_insert_ne by done]).
    + intros [= ->] Hs. unfold Acquire in Hacq. repeat case_match; by simplify_eq.
    + done.
    + intros _ [= ->]. by eapply Acquire_fast.
    + congruence.
  - left. destruct (claimed wt) eqn:Hcl; [|destruct Hok as (_ & ? & _); congruence].
    destruct Hok as (? & ? & ? & ?). apply (quiet_move _ _ _ _ Hw Hc); cbn; try done. by rewrite Hs.
  - left. rewrite Hcl in Hok. destruct Hok as (? & Hs & Hq).
    apply (quiet_move _ _ _ _ Hw Hc); cbn; try done; [by rewrite Hs|].
    intros _ wt'. unfold waiter_of. rewrite Hc, lookup_insert_eq. intros [= <-]. by eexists.
  - left. rewrite Hcl in Hok. destruct Hok as (? & ? & ? & ?). by apply (quiet_move _ _ _ _ Hw Hc).
  - left. destruct Hok as (? & ? & ? & ?).
    destruct cancelled; apply (quiet_move _ _ _ _ Hw Hc); cbn; try done; by rewrite Hs.
  - right. eexists. split; [reflexivity|]. cbn. exact (abandon_pre _ _ _ _ Hw Hc).
  - right. eexists. split; [reflexivity|]. cbn. apply (release_pre _ _ _ _ _ Hw Hc); cbn; tauto || done.
  - right. eexists. split; [reflexivity|]. cbn. apply (release_pre _ _ _ _ _ Hw Hc); cbn; tauto || done.
  - right. eexists. split; [reflexivity|]. split; cbn; try done. destruct Hinv. split; try done. lia.
Qed.

Lemma step_inv w w' : world_inv w → step w w' → world_inv w'.
Proof.
  intros Hw Hstep. destruct (step_cases _ _ Hw Hstep) as [[? _]|(w0 & -> & Hpre)]; [done|].
  by apply drainLocked_inv, Hpre.
Qed.

Lemma reachable_inv w : reachable w → world_inv w.
Proof.
  induction 1 as [limit depth Hl Hd|w w' _ IH Hstep]; [|by eapply step_inv].
  split; [|done]. cbn. split.
  - unfold int64_max in *. lia.
  - unfold int64_max. lia.
  - by rewrite held_total_empty.
  - constructor.
  - set_solver.
  - intros id c. by rewrite lookup_empty.
Qed.

Lemma drained_fifo limit inFlight queue cs inFlight' queue' cs' a b wta wtb wtb' :
  drained limit inFlight queue cs inFlight' queue' cs' → NoDup queue → before queue a b →
  cs !! a = Some (Parked wta) → cs !! b = Some (Parked wtb) → sent wtb = false →
  cs' !! b = Some (Parked wtb') → sent wtb' = true →
  ∃ wta', cs' !! a = Some (Parked wta') ∧ sent wta' = true.
Proof.
  intros [_ _ _ _ (popped & -> & Hpop & Hrest)] Hnd Hord Ha Hb Hs Hb' Hs'.
  destruct (decide (b ∈ popped)) as [Hin|Hin]; [|rewrite Hrest in Hb' by done; congruence].
  destruct (Hpop a (before_prefix _ _ _ _ Hnd Hord Hin) _ Ha) as (n & _ & _ & ?). by eexists.
Qed.

(** A caller unknown before a step is the arriving one. *)
Lemma step_arrival w w' id n :
  world_inv w → step w w' → w_callers w !! id = None → w_callers w' !! id = Some (Holding n) →
  g_queue (w_gate w) = [] ∧ g_inFlight (w_gate w) + n ≤ g_limit (w_gate w).
Proof.
  intros Hw Hstep Hid Hn.
  destruct (step_cases _ _ Hw Hstep) as [(_ & _ & _ & Hfast)|(w0 & -> & Hpre)]; [by eapply Hfast|].
  destruct (drainLocked_inv w0 (pd_inv _ _ Hpre)) as (_ & Hd & _). apply (pd_fresh _ _ Hpre) in Hid.
  destruct (dr_prefix _ _ _ _ _ _ _ Hd) as (popped & Hq & _ & Hrest).
  rewrite Hrest in Hn; [congruence|]. intros Hin.
  destruct (inv_known _ _ _ _ (pd_inv _ _ Hpre) id) as [? ?]; [rewrite Hq; set_solver|congruence].
Qed.

(** ** Properties *)

(** C34: in every interleaving of arrivals, timeouts, cancellations, releases
    and limit changes, the units in flight are exactly those the callers are
    charged with, handed-off permits included, and they never overflow; a
    parked caller that nobody has claimed is in the queue, one that lost the
    race for its claim has its handoff ready, and the head of the queue never
    fits, so no wakeup is lost: with nothing in flight nobody waits. *)
Theorem gate_accounts w :
  reachable w →
  g_inFlight (w_gate w) = held_total (w_callers w) ∧ 0 ≤ g_inFlight (w_gate w) ≤ int64_max ∧
  (∀ id wt, w_callers w !! id = Some (Parked wt) → claimed wt = false → id ∈ g_queue (w_gate w)) ∧
  (∀ id wt cancelled, w_callers w !! id = Some (Late wt cancelled) → sent wt = true) ∧
  head_blocked (g_limit (w_gate w)) (g_inFlight (w_gate w)) (g_queue (w_gate w)) (w_callers w) ∧
  (g_inFlight (w_gate w) = 0 → g_queue (w_gate w) = []).
Proof.
  intros [Hinv Hbl]%reachable_inv. split_and!; try apply Hinv; [| |done|].
  - intros id wt Hc Hcl. apply (inv_callers _ _ _ _ Hinv) in Hc. cbn in Hc. rewrite Hcl in Hc. tauto.
  - intros id wt cancelled Hc. apply (inv_callers _ _ _ _ Hinv) in Hc. cbn in Hc. tauto.
  - intros H0. destruct (g_queue (w_gate w)) as [|el q]; [done|].
    destruct Hbl as (wt & _ & Hlt). rewrite H0 in Hlt. lia.
Qed.

(** No step admits beyond the limit: when the units in flight grow, they
    are within the limit afterwards.  Only a lowered limit leaves more in
    flight than it allows. *)
Theorem admission_bounded w w' :
  reachable w → step w w' → g_inFlight (w_gate w) < g_inFlight (w_gate w') →
  g_inFlight (w_gate w') ≤ g_limit (w_gate w').
Proof.
  intros Hw%reachable_inv Hstep Hlt.
  destruct (step_cases _ _ Hw Hstep) as [(_ & _ & Hle & _)|(w0 & -> & Hpre)]; [lia|].
  destruct (drainLocked_inv w0 (pd_inv _ _ Hpre)) as (_ & Hd & ->).
  pose proof (pd_inFlight _ _ Hpre). destruct (dr_limit _ _ _ _ _ _ _ Hd); lia.
Qed.

(** Permits are handed out in arrival order: when a parked caller is
    handed a permit, every parked caller queued before it has been handed one
    by the same step; and a caller is admitted on arrival only when nobody is
    queued. *)
Theorem handoff_fifo w w' :
  reachable w → step w w' →
  (∀ a b wta wtb wtb', before (g_queue (w_gate w)) a b →
     w_callers w !! a = Some (Parked wta) → w_callers w !! b = Some (Parked wtb) → sent wtb = false →
     w_callers w' !! b = Some (Parked wtb') → sent wtb' = true →
     ∃ wta', w_callers w' !! a = Some (Parked wta') ∧ sent wta' = true) ∧
  (∀ id n, w_callers w !! id = None → w_callers w' !! id = Some (Holding n) →
     g_queue (w_gate w) = [] ∧ g_inFlight (w_gate w) + n ≤ g_limit (w_gate w)).
Proof.
  intros Hw%reachable_inv Hstep. split.
  - intros a b wta wtb wtb' Hord Ha Hb Hs Hb' Hs'.
    destruct (step_cases _ _ Hw Hstep) as [(_ & Hq & _)|(w0 & -> & Hpre)].
    + rewrite (Hq _ _ Hb' Hs') in Hb. congruence.
    + destruct (drainLocked_inv w0 (pd_inv _ _ Hpre)) as (_ & Hd & _).
      apply (drained_fifo _ _ _ _ _ _ _ a b wta wtb wtb' Hd); try done.
      * apply (pd_inv _ _ Hpre).
      * by eapply pd_order.
      * by eapply pd_parked.
      * by eapply pd_parked.
  - intros id n Hid Hn. by eapply step_arrival.
Qed.

(** ** A concrete run: one caller holds the only permit and two wait *)

Definition arrive (id : nat) (weight budget : Z) (w : world) : world :=
  let '(g', c) := Acquire (w_gate w) id weight budget in
  {| w_gate := g'; w_callers := <[id := c]> (w_callers w) |}.

Lemma reachable_arrive w id weight budget :
  reachable w → w_callers w !! id = None → reachable (arrive id weight budget w).
Proof.
  intros Hw Hid. unfold arrive. destruct (Acquire _ _ _ _) as [g' c] eqn:Ha.
  eapply reach_step; [done|]. by eapply step_acquire.
Qed.

Definition ex_crowded : world :=
  arrive 2 1 5 (arrive 1 1 5 (arrive 0 1 0 {| w_gate := New 1 0; w_callers := ∅ |})).

Lemma ex_crowded_reachable : reachable ex_crowded.
Proof.
  unfold ex_crowded. repeat apply reachable_arrive; try (vm_compute; done).
  apply reach_new; by vm_compute.
Qed.

Lemma gate_accounts_witness :
  g_inFlight (w_gate ex_crowded) = 1 ∧ held_total (w_callers ex_crowded) = 1 ∧
  g_queue (w_gate ex_crowded) = [1%nat; 2%nat].
Proof.
  split_and!; [reflexivity| |reflexivity].
  rewrite <- (proj1 (gate_accounts ex_crowded ex_crowded_reachable)). reflexivity.
Defined.

Lemma admission_bounded_witness :
  g_inFlight (w_gate ex_crowded) = 1 ∧ g_inFlight (w_gate (SetLimit 3 ex_crowded)) ≤ 3.
Proof.
  split; [reflexivity|].
  apply (admission_bounded ex_crowded (SetLimit 3 ex_crowded) ex_crowded_reachable).
  - apply step_limit. by vm_compute.
  - by vm_compute.
Defined.

Lemma handoff_fifo_witness :
  ∃ wt, w_callers (SetLimit 3 ex_crowded) !! 1%nat = Some (Parked wt) ∧ sent wt = true.
Proof.
  assert (step ex_crowded (SetLimit 3 ex_crowded)) as Hstep by (apply step_limit; by vm_compute).
  eapply (proj1 (handoff_fifo ex_crowded (SetLimit 3 ex_crowded) ex_crowded_reachable Hstep)
    1%nat 2%nat); [|vm_compute; reflexivity|vm_compute; reflexivity|reflexivity
    |vm_compute; reflexivity|reflexivity].
  exists [], [2%nat]. split; [reflexivity|set_solver].
Defined.
