(* ===== verification/Breaker.v ===== *)
(** The circuit breaker of an endpoint group: the evaluation script
    (internal/breaker/lua/breaker_eval.lua), the manual operations
    (breaker_set.lua), the gate and probe accounting of the other scripts
    (scheduler/lua/acquire_main.lua, acquire_write.lua, lease_end.lua,
    worker/lua/observe.lua) and the Go code that derives their arguments
    (internal/breaker/scripts.go, admin.go).

    Redis runs one script at a time, so each script is one function on the
    breaker hash and on the group's membership of the set "brko".  Lua numbers
    are doubles: the integral ones (milliseconds, counters) are integers here,
    exact up to 2^53, and the ratios and their thresholds are IEEE doubles.
    The window counters are a function of the bucket number, zero where a key
    is missing, and the HyperLogLog count of Redis is an argument. *)

From stdpp Require Import base list.
From S2P Require Import Prelude GoStrings GoFloat PolicyBase PolicyRotation PolicyResolve.

Local Open Scope Z_scope.

(** ** State *)

Inductive State := StateClosed | StateOpen | StateHalfOpen.

#[export] Instance State_eq_dec : EqDecision State.
Proof. solve_decision. Defined.

Inductive Trigger := TriggerAuto | TriggerProbe | TriggerManual.

(** The reason of a transition, as data: the rendered text is not modelled. *)
Inductive reason :=
| rsn_none
| rsn_disabled
| rsn_manual_expired
| rsn_trips (risk captcha success : bool)
| rsn_probe (pk ps : Z)
| rsn_operator (text : string).

Record Hash := {
  st : State; ou : Z; oc : Z; lo : Z; lc : Z; man : Z;
  hw : Z; hc : Z; ps : Z; pk : Z; rsn : reason; v : Z;
}.

(** A missing hash reads as this. *)
Definition no_hash : Hash :=
  {| st := StateClosed; ou := 0; oc := 0; lo := 0; lc := 0; man := 0;
     hw := 0; hc := 0; ps := 0; pk := 0; rsn := rsn_none; v := 0 |}.

(** The hash and whether the group is a member of "brko". *)
Record breaker := { b_hash : Hash; b_brko : bool }.

(** ** Arguments (scripts.go) *)

Record evalParams := {
  ep_BucketMs : Z;
  ep_Buckets : Z;
  ep_MinRequests : Z;
  ep_RiskRatioGte : float64;
  ep_CaptchaGte : Z;
  ep_SuccessRatioLte : float64;
  ep_OpenMs : Z;
  ep_MaxOpenMs : Z;
  ep_ResetAfterMs : Z;
  ep_CloseMinSamples : Z;
  ep_CloseSuccessRatioGte : float64;
  ep_Enabled : bool;
  ep_WindowMs : Z;
  ep_Revert : string;
}.

Definition positiveMs (value def : Z) : Z := if value >? 0 then value else def.

(** The built-in breaker policy. *)
Definition defaultSpec : BreakerSpec := default_breaker.

Definition paramsFor (spec0 : option BreakerSpec) : evalParams :=
  let def := defaultSpec in
  let spec := default def spec0 in
  let ms d := Duration_Milliseconds d in
  let open := positiveMs (ms (bk_OpenDuration spec)) (ms (bk_OpenDuration def)) in
  let maxOpen := positiveMs (ms (bk_MaxOpenDuration spec)) (ms (bk_MaxOpenDuration def)) in
  let window := positiveMs (ms (bk_Window spec)) (ms (bk_Window def)) in
  let buckets :=
    if (bk_Buckets spec <=? 0) || (bk_Buckets spec >? 60) then bk_Buckets def else bk_Buckets spec in
  let bucket := Z.quot window buckets in
  {| ep_BucketMs := if bucket <=? 0 then 1 else bucket;
     ep_Buckets := buckets;
     ep_MinRequests :=
       if bk_MinRequests spec <=? 0 then bk_MinRequests def else bk_MinRequests spec;
     ep_RiskRatioGte := tr_RiskRatioGte (bk_Trip spec);
     ep_CaptchaGte := tr_DistinctCaptchaIdentitiesGte (bk_Trip spec);
     ep_SuccessRatioLte := tr_SuccessRatioLte (bk_Trip spec);
     ep_OpenMs := open;
     ep_MaxOpenMs := if maxOpen <? open then open else maxOpen;
     ep_ResetAfterMs :=
       positiveMs (ms (bk_ResetOpenCountAfter spec)) (ms (bk_ResetOpenCountAfter def));
     ep_CloseMinSamples :=
       if ho_CloseMinSamples (bk_HalfOpen spec) <=? 0
       then ho_CloseMinSamples (bk_HalfOpen def) else ho_CloseMinSamples (bk_HalfOpen spec);
     ep_CloseSuccessRatioGte :=
       if f_leb (ho_CloseSuccessRatioGte (bk_HalfOpen spec)) f_zero
       then ho_CloseSuccessRatioGte (bk_HalfOpen def) else ho_CloseSuccessRatioGte (bk_HalfOpen spec);
     ep_Enabled := bk_Enabled spec;
     ep_WindowMs := window;
     ep_Revert :=
       if negb (ValidRevertMode (bk_RevertRecentCooldowns spec)) then RevertEndpoint
       else bk_RevertRecentCooldowns spec |}.

(** ** Evaluation (breaker_eval.lua) *)

(** The clamps the script applies to its arguments. *)
Definition clamped (p : evalParams) : evalParams :=
  let open := Z.max (ep_OpenMs p) 1 in
  {| ep_BucketMs := Z.max (ep_BucketMs p) 1;
     ep_Buckets := if ep_Buckets p <? 1 then 1 else if ep_Buckets p >? 60 then 60 else ep_Buckets p;
     ep_MinRequests := Z.max (ep_MinRequests p) 1;
     ep_RiskRatioGte := ep_RiskRatioGte p;
     ep_CaptchaGte := ep_CaptchaGte p;
     ep_SuccessRatioLte := ep_SuccessRatioLte p;
     ep_OpenMs := open;
     ep_MaxOpenMs := Z.max (ep_MaxOpenMs p) open;
     ep_ResetAfterMs := ep_ResetAfterMs p;
     ep_CloseMinSamples := Z.max (ep_CloseMinSamples p) 1;
     ep_CloseSuccessRatioGte := ep_CloseSuccessRatioGte p;
     ep_Enabled := ep_Enabled p;
     ep_WindowMs := ep_WindowMs p;
     ep_Revert := ep_Revert p |}.

(** The counters of one bucket of the window. *)
Record Bucket := { bu_total : Z; bu_success : Z; bu_risk : Z }.

Record Window := { wi_Total : Z; wi_Success : Z; wi_Risk : Z; wi_CaptchaIdentities : Z }.

(** The buckets the window sums: the last [ep_Buckets] ones, without those that
    started before the last close. *)
Definition window_first (p : evalParams) (now lastClosed : Z) : Z :=
  let first := now / ep_BucketMs p - ep_Buckets p + 1 in
  if lastClosed >? 0 then Z.max first (- ((- lastClosed) / ep_BucketMs p)) else first.

Definition window_buckets (p : evalParams) (now lastClosed : Z) : list Z :=
  let first := window_first p now lastClosed in
  let last := now / ep_BucketMs p in
  (λ k, first + Z.of_nat k) <$> seq 0 (Z.to_nat (last - first + 1)).

(** Go's and Lua's division of two integers as doubles. *)
Definition ratio (a b : Z) : float64 := f_div (f_of_Z a) (f_of_Z b).

Fixpoint open_for_loop (fuel : nat) (maxOpen d k n : Z) : Z :=
  match fuel with
  | O => d
  | S fuel' =>
      if (k <? n) && (d <? maxOpen) then open_for_loop fuel' maxOpen (d * 2) (k + 1) n else d
  end.

(** [open * 2^(n-1)] capped; the doubled value reaches the cap within the number
    of bits of the cap. *)
Definition open_for (p : evalParams) (n : Z) : Z :=
  Z.min (open_for_loop (S (Z.to_nat (Z.log2_up (ep_MaxOpenMs p)))) (ep_MaxOpenMs p) (ep_OpenMs p) 1 n)
        (ep_MaxOpenMs p).

Definition go_closed (now : Z) (r : reason) (h : Hash) : Hash :=
  {| st := StateClosed; ou := 0; oc := oc h; lo := lo h; lc := now; man := 0;
     hw := 0; hc := 0; ps := 0; pk := 0; rsn := r; v := v h + 1 |}.

Definition go_open (p : evalParams) (now : Z) (r : reason) (next_oc : Z) (h : Hash) : Hash :=
  {| st := StateOpen; ou := now + open_for p next_oc; oc := next_oc; lo := now; lc := lc h; man := 0;
     hw := 0; hc := 0; ps := 0; pk := 0; rsn := r; v := v h + 1 |}.

Definition go_half_open (now : Z) (h : Hash) : Hash :=
  {| st := StateHalfOpen; ou := 0; oc := oc h; lo := lo h; lc := lc h; man := man h;
     hw := now; hc := 0; ps := 0; pk := 0; rsn := rsn h; v := v h + 1 |}.

(** Which conditions of the policy trip on the window. *)
Definition trips (p : evalParams) (w : Window) : bool * bool * bool :=
  (f_ltb f_zero (ep_RiskRatioGte p) && f_leb (ep_RiskRatioGte p) (ratio (wi_Risk w) (wi_Total w)),
   (ep_CaptchaGte p >? 0) && (wi_CaptchaIdentities w >=? ep_CaptchaGte p),
   f_ltb f_zero (ep_SuccessRatioLte p) && f_leb (ratio (wi_Success w) (wi_Total w)) (ep_SuccessRatioLte p)).

(** The automatic transition of a breaker that is not waiting for a lazy
    half-open to be recorded. *)
Definition transition (p : evalParams) (now : Z) (w : Window) (h : Hash) : option (Hash * Trigger) :=
  if negb (ep_Enabled p) then
    if bool_decide (st h = StateHalfOpen) || (bool_decide (st h = StateOpen) && negb (man h =? 1))
    then Some (go_closed now rsn_disabled h, TriggerAuto)
    else if bool_decide (st h = StateOpen) && (ou h >? 0) && (now >=? ou h)
    then Some (go_closed now rsn_manual_expired h, TriggerAuto)
    else None
  else match st h with
  | StateClosed =>
      if (wi_Total w >=? ep_MinRequests p) && (wi_Total w >? 0) then
        let '(r, c, s) := trips p w in
        if r || c || s then
          let next_oc :=
            if (lc h >? 0) && (now - lc h >=? ep_ResetAfterMs p) then 1 else oc h + 1 in
          Some (go_open p now (rsn_trips r c s) next_oc h, TriggerAuto)
        else None
      else None
  | StateOpen =>
      if ((ou h >? 0) && (now >=? ou h)) || (negb (man h =? 1) && (ou h <=? 0))
      then Some (go_half_open now h, TriggerAuto)
      else None
  | StateHalfOpen =>
      if ps h >=? ep_CloseMinSamples p then
        if f_leb (ep_CloseSuccessRatioGte p) (ratio (pk h) (ps h))
        then Some (go_closed now (rsn_probe (pk h) (ps h)) h, TriggerProbe)
        else Some (go_open p now (rsn_probe (pk h) (ps h)) (oc h + 1) h, TriggerProbe)
      else None
  end.

Record evalResult := {
  er_From : State;
  er_To : option (State * Trigger);
  er_Window : Window;
  er_Hash : Hash;
  er_ProbeSamples : Z;
  er_ProbeSuccesses : Z;
  er_LazyAtMs : option Z;
}.

Definition with_ou (h : Hash) (x : Z) : Hash :=
  {| st := st h; ou := x; oc := oc h; lo := lo h; lc := lc h; man := man h;
     hw := hw h; hc := hc h; ps := ps h; pk := pk h; rsn := rsn h; v := v h |}.

(** [evalMode] is false for the mode that only reads. *)
Definition breaker_eval (p0 : evalParams) (evalMode : bool) (now : Z) (win : Z → Bucket)
    (pfcount : list Z → Z) (b : breaker) : breaker * evalResult :=
  let p := clamped p0 in
  let h := b_hash b in
  let lazy := evalMode && bool_decide (st h = StateHalfOpen) && (ou h >? 0) in
  let h1 := if lazy then with_ou h 0 else h in
  let bs := window_buckets p now (lc h) in
  let sum f := foldr Z.add 0 ((λ k, f (win k)) <$> bs) in
  let w := {| wi_Total := sum bu_total; wi_Success := sum bu_success; wi_Risk := sum bu_risk;
              wi_CaptchaIdentities := match bs with [] => 0 | _ => pfcount bs end |} in
  let next := if evalMode && negb lazy then transition p now w h1 else None in
  let h2 := match next with Some (h', _) => h' | None => h1 end in
  ({| b_hash := h2;
      b_brko := if evalMode then negb (bool_decide (st h2 = StateClosed)) else b_brko b |},
   {| er_From := st h; er_To := (λ '(h', t), (st h', t)) <$> next; er_Window := w; er_Hash := h2;
      er_ProbeSamples := ps h; er_ProbeSuccesses := pk h;
      er_LazyAtMs := if lazy then Some (if hw h <=? 0 then now else hw h) else None |}).

(** ** Manual operations (breaker_set.lua and its callers) *)

Inductive setOp := opOpen | opClose.

Record setResult := {
  sr_From : State;
  sr_To : State;
  sr_Changed : bool;
  sr_Hash : Hash;
  sr_LazyAtMs : option Z;
  sr_LazyReason : reason;
  sr_LazyManual : Z;
}.

Definition manual_open (now duration : Z) (r : reason) (h : Hash) : Hash :=
  {| st := StateOpen; ou := if duration >? 0 then now + duration else 0; oc := oc h; lo := now;
     lc := lc h; man := 1; hw := 0; hc := 0; ps := 0; pk := 0; rsn := r; v := v h + 1 |}.

Definition breaker_set (op : setOp) (now duration : Z) (text : string) (b : breaker) : breaker * setResult :=
  let h := b_hash b in
  let lazy := bool_decide (st h = StateHalfOpen) && (ou h >? 0) in
  let '(h', changed, brko) :=
    match op with
    | opOpen => (manual_open now duration (rsn_operator text) h, true, true)
    | opClose =>
        if negb (bool_decide (st h = StateClosed))
        then (go_closed now (rsn_operator text) h, true, false)
        else (h, false, b_brko b)
    end in
  ({| b_hash := h'; b_brko := brko |},
   {| sr_From := st h; sr_To := st h'; sr_Changed := changed; sr_Hash := h';
      sr_LazyAtMs := if lazy then Some (if hw h <=? 0 then now else hw h) else None;
      sr_LazyReason := rsn h; sr_LazyManual := man h |}).

(** [setExec] sends the duration in milliseconds. *)
Definition set_duration_ms (duration : Z) : Z :=
  if duration >? 0 then Z.quot duration Millisecond else 0.

Definition MaxManualOpenDuration : Z := 365 * 24 * Hour.

(** [ParseOpenDuration] after [durationx.Parse]: [None] rejects. *)
Definition open_duration (text : string) (parsed : option Z) : option Z :=
  if String.eqb text "" then Some 0
  else d ← parsed;
       if IsPermanent d then Some 0
       else if d <=? 0 then None
       else if d >? MaxManualOpenDuration then None
       else Some d.

(** ** The other scripts *)

Definition PROBE_WINDOW : Z := 10000.

Inductive gateReply := GateOpen (retryAfterMs : Z) | GatePass (probe : bool).

(** Step 1 of acquire.lua: the new hash, whether this call half-opened the
    breaker, and the reply. *)
Definition acquire_gate (now probe_limit : Z) (h : Hash) : Hash * bool * gateReply :=
  if bool_decide (st h = StateOpen) && ((man h =? 1) && (ou h =? 0)) then (h, false, GateOpen 60000)
  else if bool_decide (st h = StateOpen) && (now <? ou h) then (h, false, GateOpen (ou h - now))
  else
    let moved := bool_decide (st h = StateOpen) in
    let h1 :=
      if moved
      then {| st := StateHalfOpen; ou := ou h; oc := oc h; lo := lo h; lc := lc h; man := man h;
              hw := now; hc := 0; ps := 0; pk := 0; rsn := rsn h; v := v h + 1 |}
      else h in
    if bool_decide (st h1 = StateHalfOpen) then
      let h2 :=
        if now - hw h1 >=? PROBE_WINDOW
        then {| st := st h1; ou := ou h1; oc := oc h1; lo := lo h1; lc := lc h1; man := man h1;
                hw := now; hc := 0; ps := ps h1; pk := pk h1; rsn := rsn h1; v := v h1 |}
        else h1 in
      if hc h2 >=? probe_limit then (h2, moved, GateOpen (Z.max (hw h2 + PROBE_WINDOW - now) 1))
      else (h2, moved, GatePass true)
    else (h1, moved, GatePass false).

Definition with_hc (h : Hash) (x : Z) : Hash :=
  {| st := st h; ou := ou h; oc := oc h; lo := lo h; lc := lc h; man := man h;
     hw := hw h; hc := x; ps := ps h; pk := pk h; rsn := rsn h; v := v h |}.

Definition with_probes (h : Hash) (samples successes : Z) : Hash :=
  {| st := st h; ou := ou h; oc := oc h; lo := lo h; lc := lc h; man := man h;
     hw := hw h; hc := hc h; ps := samples; pk := successes; rsn := rsn h; v := v h |}.

(** acquire.lua as the breaker sees it: the gate, then, when a probe passed and
    an identity was found, the probe lease. *)
Definition acquire (now probe_limit : Z) (found : bool) (b : breaker) : breaker * gateReply :=
  let '(h, _, reply) := acquire_gate now probe_limit (b_hash b) in
  let h' := match reply with GatePass true => if found then with_hc h (hc h + 1) else h | _ => h end in
  ({| b_hash := h'; b_brko := b_brko b |}, reply).

(** observe.lua: the report of a probe lease. *)
Definition observe_probe (success : bool) (b : breaker) : breaker :=
  let h := b_hash b in
  if bool_decide (st h = StateHalfOpen)
  then {| b_hash := with_probes h (ps h + 1) (if success then pk h + 1 else pk h); b_brko := b_brko b |}
  else b.

(** lease_end.lua: a probe lease acquired at [acquired] that was never
    delivered gives its slot back. *)
Definition abort_probe (acquired : Z) (b : breaker) : breaker :=
  let h := b_hash b in
  if bool_decide (st h = StateHalfOpen) && (hw h <=? acquired)
  then {| b_hash := with_hc h (if hc h - 1 <? 0 then 0 else hc h - 1); b_brko := b_brko b |}
  else b.

(** observe.lua: reports of an effectively open breaker are suppressed unless
    they come from a probe. *)
Definition effectively_open (now : Z) (h : Hash) : bool :=
  bool_decide (st h = StateOpen) && (((ou h =? 0) && (man h =? 1)) || (now <? ou h)).
Definition suppressed (now : Z) (probe : bool) (h : Hash) : bool :=
  effectively_open now h && negb probe.

(** ** Runs *)

(** The scripts that touch one breaker, in the order Redis runs them.  Callers
    read their clock before they send a script, so the times need not be
    ordered; they are Unix milliseconds.  [limit] bounds the probe limits of
    the policies in force. *)
Inductive step (limit : Z) : breaker → breaker → Prop :=
| step_eval p evalMode now win pfcount b :
    0 < now → step limit b (breaker_eval p evalMode now win pfcount b).1
| step_set op now duration text b :
    0 < now → step limit b (breaker_set op now duration text b).1
| step_acquire now probe_limit found b :
    0 < now → probe_limit ≤ limit → step limit b (acquire now probe_limit found b).1
| step_observe success b : step limit b (observe_probe success b)
| step_abort acquired b : step limit b (abort_probe acquired b).

Inductive reachable (limit : Z) : breaker → Prop :=
| reach_new : reachable limit {| b_hash := no_hash; b_brko := false |}
| reach_step b b' : reachable limit b → step limit b b' → reachable limit b'.

(** ** Open durations *)

Lemma open_for_loop_spec fuel maxOpen d k n :
  1 ≤ d → maxOpen ≤ d * 2 ^ Z.of_nat fuel → k ≤ n →
  Z.min (open_for_loop fuel maxOpen d k n) maxOpen = Z.min (d * 2 ^ (n - k)) maxOpen.
Proof.
  revert d k. induction fuel as [|fuel IH]; intros d k Hd Hmax Hk; cbn [open_for_loop].
  { assert (1 ≤ 2 ^ (n - k)) by (apply (Z.pow_le_mono_r 2 0); lia). cbn in Hmax. nia. }
  destruct (Z.ltb_spec k n), (Z.ltb_spec d maxOpen); cbn [andb].
  - rewrite IH; [|lia| |lia].
    + replace (n - k) with (Z.succ (n - (k + 1))) by lia. rewrite Z.pow_succ_r by lia. f_equal. lia.
    + rewrite Nat2Z.inj_succ, Z.pow_succ_r in Hmax by lia. lia.
  - assert (1 ≤ 2 ^ (n - k)) by (apply (Z.pow_le_mono_r 2 0); lia). nia.
  - replace (n - k) with 0 by lia. by rewrite Z.mul_1_r.
  - replace (n - k) with 0 by lia. by rewrite Z.mul_1_r.
Qed.

Lemma open_for_spec p n :
  1 ≤ ep_OpenMs p → ep_OpenMs p ≤ ep_MaxOpenMs p → 1 ≤ n →
  open_for p n = Z.min (ep_OpenMs p * 2 ^ (n - 1)) (ep_MaxOpenMs p).
Proof.
  intros Hopen Hmax Hn. unfold open_for. apply open_for_loop_spec; [done| |done].
  rewrite Nat2Z.inj_succ, Z2Nat.id by apply Z.log2_up_nonneg. rewrite Z.pow_succ_r by apply Z.log2_up_nonneg.
  assert (ep_MaxOpenMs p ≤ 2 ^ Z.log2_up (ep_MaxOpenMs p)).
  { destruct (Z.eq_dec (ep_MaxOpenMs p) 1) as [->|]; [done|]. apply Z.log2_up_spec. lia. }
  nia.
Qed.

Lemma clamped_bounds p : 1 ≤ ep_OpenMs (clamped p) ≤ ep_MaxOpenMs (clamped p).
Proof. cbn. lia. Qed.

Lemma open_for_bounds p n :
  1 ≤ n → ep_OpenMs (clamped p) ≤ open_for (clamped p) n ≤ ep_MaxOpenMs (clamped p).
Proof.
  intros Hn. pose proof (clamped_bounds p). rewrite open_for_spec by lia.
  assert (1 ≤ 2 ^ (n - 1)) by (apply (Z.pow_le_mono_r 2 0); lia). nia.
Qed.

(** ** Invariant *)

Record hash_ok (limit : Z) (h : Hash) : Prop := {
  ok_probes : 0 ≤ pk h ≤ ps h;
  ok_issued : 0 ≤ hc h ≤ Z.max limit 0;
  ok_opens : 0 ≤ oc h;
  ok_until : 0 ≤ ou h;
  ok_state : match st h with
    | StateClosed => ou h = 0 ∧ man h = 0 ∧ hc h = 0 ∧ ps h = 0
    | StateOpen => (man h = 1 ∨ man h = 0 ∧ 0 < ou h) ∧ hc h = 0 ∧ ps h = 0
    | StateHalfOpen => 0 < hw h
    end;
}.

Definition breaker_ok (limit : Z) (b : breaker) : Prop :=
  hash_ok limit (b_hash b) ∧ b_brko b = negb (bool_decide (st (b_hash b) = StateClosed)).

(** What a step may do to the state and the version. *)
Definition lifecycle (h h' : Hash) : Prop :=
  v h ≤ v h' ≤ v h + 1 ∧ (st h ≠ st h' → v h' = v h + 1) ∧
  (st h = StateClosed → st h' ≠ StateHalfOpen).

Lemma lifecycle_same h h' : st h = st h' → v h = v h' → lifecycle h h'.
Proof. intros Hs Hv. unfold lifecycle. split_and!; [lia|lia|done|congruence]. Qed.

Lemma lifecycle_next h h' :
  v h' = v h + 1 → (st h = StateClosed → st h' ≠ StateHalfOpen) → lifecycle h h'.
Proof. unfold lifecycle. intros. split_and!; [lia|lia|done|done]. Qed.

Lemma go_closed_ok limit now r h : hash_ok limit h → hash_ok limit (go_closed now r h).
Proof. intros [? ? ? ? ?]. split; cbn; lia. Qed.

Lemma go_open_ok limit p now r n h :
  0 < now → 1 ≤ n → hash_ok limit (go_open (clamped p) now r n h).
Proof.
  intros Hnow Hn. pose proof (open_for_bounds p n Hn). pose proof (clamped_bounds p).
  split; cbn -[clamped open_for]; lia.
Qed.

Lemma go_half_open_ok limit now h : 0 < now → hash_ok limit h → hash_ok limit (go_half_open now h).
Proof. intros Hnow [? ? ? ? ?]. split; cbn; lia. Qed.

Lemma with_ou_ok limit h : st h = StateHalfOpen → hash_ok limit h → hash_ok limit (with_ou h 0).
Proof. intros Hst [? ? ? ? Hs]. split; cbn; try lia. by rewrite Hst in Hs |- *. Qed.

Lemma transition_ok limit p now w h h' t :
  0 < now → hash_ok limit h → transition (clamped p) now w h = Some (h', t) →
  hash_ok limit h' ∧ lifecycle h h'.
Proof.
  intros Hnow Hok. pose proof (ok_opens _ _ Hok). unfold transition.
  destruct (negb (ep_Enabled (clamped p))).
  { repeat case_match; intros; simplify_eq; (split; [by apply go_closed_ok|by apply lifecycle_next]). }
  destruct (st h) eqn:Hst.
  - destruct (_ && _); [|done]. destruct (trips _ _) as [[r c] s]. destruct (r || c || s); [|done].
    intros [= <- _]. split; [|by apply lifecycle_next]. apply go_open_ok; [done|]. destruct (_ && _); lia.
  - destruct (_ || _); [|done]. intros [= <- _]. split; [by apply go_half_open_ok|].
    apply lifecycle_next; cbn; congruence.
  - destruct (_ >=? _); [|done]. destruct (f_leb _ _); intros [= <- _].
    + split; [by apply go_closed_ok|by apply lifecycle_next].
    + split; [apply go_open_ok; lia|by apply lifecycle_next].
Qed.

Lemma breaker_eval_ok limit p evalMode now win pfcount b :
  0 < now → breaker_ok limit b →
  let b' := (breaker_eval p evalMode now win pfcount b).1 in
  breaker_ok limit b' ∧ lifecycle (b_hash b) (b_hash b').
Proof.
  intros Hnow [Hok Hbrko]. unfold breaker_eval. cbn zeta.
  set (w := Build_Window _ _ _ _). clearbody w.
  destruct evalMode; cbn [andb].
  2:{ split; [done|]. by apply lifecycle_same. }
  destruct (bool_decide (st (b_hash b) = StateHalfOpen) && (ou (b_hash b) >? 0)) eqn:Hlazy; cbn [negb fst b_hash].
  - apply andb_prop in Hlazy as [Hst%bool_decide_eq_true _].
    split; [split; [by apply with_ou_ok|done]|by apply lifecycle_same].
  - destruct (transition _ _ _ _) as [[h' t]|] eqn:Ht.
    + destruct (transition_ok limit _ _ _ _ _ _ Hnow Hok Ht). by split.
    + split; [by split|by apply lifecycle_same].
Qed.

Lemma breaker_set_ok limit op now duration text b :
  0 < now → breaker_ok limit b →
  let b' := (breaker_set op now duration text b).1 in
  breaker_ok limit b' ∧ lifecycle (b_hash b) (b_hash b').
Proof.
  intros Hnow [Hok Hbrko]. unfold breaker_set. destruct op; cbn.
  - split; [split; [|done]|by apply lifecycle_next]. destruct Hok.
    split; cbn; destruct (Z.gtb_spec duration 0); lia.
  - case_bool_decide as Hst; cbn.
    + split; [split; [done|]|by apply lifecycle_same]. cbn. by rewrite Hbrko, bool_decide_eq_true_2.
    + split; [split; [by apply go_closed_ok|done]|by apply lifecycle_next].
Qed.

(** Closes a case of the gate: the invariant field by field, the version, and
    the claims about the reply. *)
Ltac gate_done :=
  split_and!; cbn -[PROBE_WINDOW]; try done; try congruence; try lia;
  first [ split; cbn; repeat case_match; (lia || congruence)
        | apply lifecycle_next; cbn; congruence
        | apply lifecycle_same; cbn; congruence
        | split; cbn; congruence ].

Lemma acquire_gate_ok limit now probe_limit h :
  0 < now → hash_ok limit h →
  let '(h', moved, reply) := acquire_gate now probe_limit h in
  hash_ok limit h' ∧ lifecycle h h' ∧ (st h' = StateClosed ↔ st h = StateClosed) ∧
  match reply with
  | GatePass true => st h' = StateHalfOpen ∧ hc h' < probe_limit
  | GatePass false => h' = h ∧ st h = StateClosed
  | GateOpen _ => st h' ≠ StateClosed
  end.
Proof.
  intros Hnow Hok. unfold acquire_gate. pose proof Hok as [Hp Hi Ho Hu Hs].
  destruct (st h) eqn:Hst; repeat (rewrite bool_decide_eq_false_2 by congruence);
    repeat (rewrite bool_decide_eq_true_2 by congruence); cbn [andb].
  - gate_done.
  - destruct ((man h =? 1) && (ou h =? 0)); [gate_done|]. destruct (now <? ou h); [gate_done|].
    cbn. rewrite Z.sub_diag. cbn. destruct (Z.geb_spec 0 probe_limit); gate_done.
  - destruct (now - hw h >=? PROBE_WINDOW); cbn -[PROBE_WINDOW];
      [destruct (Z.geb_spec 0 probe_limit)|destruct (Z.geb_spec (hc h) probe_limit)]; gate_done.
Qed.

Lemma acquire_ok limit now probe_limit found b :
  0 < now → probe_limit ≤ limit → breaker_ok limit b →
  let b' := (acquire now probe_limit found b).1 in
  breaker_ok limit b' ∧ lifecycle (b_hash b) (b_hash b').
Proof.
  intros Hnow Hlim [Hok Hbrko]. unfold acquire.
  pose proof (acquire_gate_ok limit now probe_limit _ Hnow Hok) as Hgate.
  destruct (acquire_gate _ _ _) as [[h' moved] reply]. destruct Hgate as (Hok' & Hlife & Hcl & Hreply).
  assert (b_brko b = negb (bool_decide (st h' = StateClosed))) as Hb.
  { rewrite Hbrko. f_equal. by apply bool_decide_ext. }
  destruct reply as [|[] ]; cbn; [by split| |by split].
  destruct found; [|by split]. destruct Hreply as [Hst Hlt]. split; [split; [|done]|].
  - destruct Hok' as [? ? ? ? Hs]. split; cbn; try lia. by rewrite Hst in Hs |- *.
  - done.
Qed.

Lemma breaker_step_ok limit b b' :
  breaker_ok limit b → step limit b b' → breaker_ok limit b' ∧ lifecycle (b_hash b) (b_hash b').
Proof.
  intros Hb Hstep. destruct Hstep as [p evalMode now win pf b Hnow|op now d text b Hnow
    |now pl found b Hnow Hpl|success b|acquired b].
  - by apply breaker_eval_ok.
  - by apply breaker_set_ok.
  - by apply acquire_ok.
  - unfold observe_probe. case_bool_decide as Hst; [|split; [done|by apply lifecycle_same]].
    destruct Hb as [[? ? ? ? Hs] Hb]. split; [split; [|done]|by apply lifecycle_same].
    rewrite Hst in Hs. split; cbn; rewrite ?Hst; try lia. destruct success; lia.
  - unfold abort_probe. destruct (bool_decide _ && _) eqn:Hc; [|split; [done|by apply lifecycle_same]].
    apply andb_prop in Hc as [Hst%bool_decide_eq_true _]. destruct Hb as [[? ? ? ? Hs] Hb].
    split; [split; [|done]|by apply lifecycle_same]. rewrite Hst in Hs.
    split; cbn; rewrite ?Hst; try lia. destruct (Z.ltb_spec (hc (b_hash b) - 1) 0); lia.
Qed.

Lemma breaker_reachable_ok limit b : reachable limit b → breaker_ok limit b.
Proof.
  induction 1 as [|b b' _ IH Hstep]; [|by apply (breaker_step_ok limit b b')].
  split; [|done]. split; cbn; lia.
Qed.

(** The open count that the next automatic open has: a breaker that stayed closed
    for the reset time counts from one again, otherwise the count grows by one. *)
Definition next_opens (p : evalParams) (now : Z) (h : Hash) : Z :=
  if decide (st h = StateClosed ∧ 0 < lc h ∧ ep_ResetAfterMs p ≤ now - lc h) then 1 else oc h + 1.

(** An evaluation that opens a breaker runs [go_open] with that count. *)
Lemma eval_opens p now win pf b b' r :
  st (b_hash b) ≠ StateOpen →
  breaker_eval p true now win pf b = (b', r) → st (b_hash b') = StateOpen →
  ∃ rs, b_hash b' = go_open (clamped p) now rs (next_opens (clamped p) now (b_hash b)) (b_hash b).
Proof.
  intros Hst Heval Hopen. unfold breaker_eval in Heval. cbn zeta in Heval.
  set (w := Build_Window _ _ _ _) in Heval. clearbody w. cbn [andb] in Heval.
  destruct (bool_decide (st (b_hash b) = StateHalfOpen) && (ou (b_hash b) >? 0)) eqn:Hlazy;
    cbn [negb] in Heval; [injection Heval as <- _; by cbn in Hopen|].
  destruct (transition _ _ _ _) as [[h' t]|] eqn:Ht; injection Heval as <- _; cbn in Hopen |- *; [|done].
  unfold transition in Ht. destruct (negb (ep_Enabled (clamped p))).
  { repeat case_match; simplify_eq; discriminate. }
  unfold next_opens. clear Hlazy. destruct (st (b_hash b)) eqn:E; [|done|]; revert Ht.
  - destruct ((wi_Total w >=? _) && _); [|done].
    destruct (trips _ _) as [[x y] z]. destruct (x || y || z); [|done].
    intros [= <- _]. exists (rsn_trips x y z). change (ep_ResetAfterMs (clamped p)) with (ep_ResetAfterMs p). case_decide as Hr.
    + destruct Hr as (_ & Hlc & Hage). by rewrite (proj2 (Z.gtb_lt _ _) Hlc), Z.geb_leb, (proj2 (Z.leb_le _ _) Hage).
    + destruct (Z.gtb_spec (lc (b_hash b)) 0); [|done]. rewrite Z.geb_leb. destruct (Z.leb_spec (ep_ResetAfterMs p) (now - lc (b_hash b))); [|done].
      by destruct Hr.
  - destruct (_ >=? _); [|done]. destruct (f_leb _ _); intros [= <- _]; [done|].
    eexists. by rewrite decide_False by naive_solver.
Qed.

(** An enabled evaluation leaves a timed open at its end. *)
Lemma eval_open_until q now win pf b :
  st (b_hash b) = StateOpen → man (b_hash b) ≠ 1 → 0 < ou (b_hash b) → ep_Enabled q = true →
  st (b_hash (breaker_eval q true now win pf b).1) =
    if now <? ou (b_hash b) then StateOpen else StateHalfOpen.
Proof.
  intros Hst Hman Hou Hq. unfold breaker_eval.
  rewrite (bool_decide_eq_false_2 (st (b_hash b) = StateHalfOpen)) by congruence.
  cbn [andb negb fst b_hash]. unfold transition.
  replace (ep_Enabled (clamped q)) with true by done. cbn [negb]. rewrite Hst.
  rewrite (proj2 (Z.leb_gt _ _) Hou), andb_false_r, orb_false_r.
  rewrite (proj2 (Z.gtb_lt _ _) Hou). cbn [andb].
  rewrite Z.geb_leb, Z.leb_antisym. by destruct (now <? ou (b_hash b)).
Qed.

(** ** Properties *)

(** C35: whatever scripts run in whatever order, the group is a member of
    "brko" exactly when its breaker is not closed, a closed breaker has no end
    and no manual flag, an open one is manual or has an end, probe successes
    never exceed probe samples, and no more probes are outstanding in a window
    than the policies in force allow. *)
Theorem breaker_consistent limit b :
  reachable limit b →
  (b_brko b = true ↔ st (b_hash b) ≠ StateClosed) ∧
  (st (b_hash b) = StateClosed → ou (b_hash b) = 0 ∧ man (b_hash b) = 0) ∧
  (st (b_hash b) = StateOpen → man (b_hash b) = 1 ∨ 0 < ou (b_hash b)) ∧
  0 ≤ pk (b_hash b) ≤ ps (b_hash b) ∧ 0 ≤ hc (b_hash b) ≤ Z.max limit 0.
Proof.
  intros [[Hp Hi Ho Hu Hs] Hb]%breaker_reachable_ok. split_and!; try lia.
  - rewrite Hb. case_bool_decide; naive_solver.
  - intros Hst. rewrite Hst in Hs. tauto.
  - intros Hst. rewrite Hst in Hs. tauto.
Qed.

(** Every change of state, by whichever script, increments the version by
    exactly one, no script decreases it or skips a number, and a closed breaker
    is never half-opened. *)
Theorem breaker_versions limit b b' :
  reachable limit b → step limit b b' →
  v (b_hash b) ≤ v (b_hash b') ≤ v (b_hash b) + 1 ∧
  (st (b_hash b) ≠ st (b_hash b') → v (b_hash b') = v (b_hash b) + 1) ∧
  (st (b_hash b) = StateClosed → st (b_hash b') ≠ StateHalfOpen).
Proof. intros Hb%breaker_reachable_ok Hstep. apply (breaker_step_ok limit b b' Hb Hstep). Qed.

(** The scripts other than the manual operations. *)
Inductive auto_step : breaker → breaker → Prop :=
| auto_eval p evalMode now win pfcount b : auto_step b (breaker_eval p evalMode now win pfcount b).1
| auto_acquire now probe_limit found b : auto_step b (acquire now probe_limit found b).1
| auto_observe success b : auto_step b (observe_probe success b)
| auto_abort acquired b : auto_step b (abort_probe acquired b).

Lemma transition_indefinite p now w h :
  st h = StateOpen → man h = 1 → ou h = 0 → transition p now w h = None.
Proof. intros Hst Hman Hou. unfold transition. rewrite Hst, Hman, Hou. by destruct (negb _). Qed.

Lemma indefinite_held b b' :
  st (b_hash b) = StateOpen → man (b_hash b) = 1 → ou (b_hash b) = 0 → auto_step b b' →
  b_hash b' = b_hash b.
Proof.
  intros Hst Hman Hou Hstep. destruct Hstep as [p [] now win pf b|now pl found b|success b|acquired b].
  - unfold breaker_eval. rewrite (bool_decide_eq_false_2 (st (b_hash b) = StateHalfOpen)) by congruence.
    cbn [andb negb fst b_hash]. by rewrite transition_indefinite.
  - done.
  - unfold acquire, acquire_gate. by rewrite Hst, Hman, Hou.
  - unfold observe_probe. by rewrite Hst.
  - unfold abort_probe. by rewrite Hst.
Qed.

(** A breaker that an operator opened without an end stays exactly as it
    is, through any number of evaluations, acquisitions and reports and under
    any policy, enabled or not, until an operator acts on it. *)
Theorem indefinite_open_holds b b' :
  st (b_hash b) = StateOpen → man (b_hash b) = 1 → ou (b_hash b) = 0 → rtc auto_step b b' →
  b_hash b' = b_hash b.
Proof.
  intros Hst Hman Hou Hrun. induction Hrun as [|b b1 b2 Hstep _ IH]; [done|].
  pose proof (indefinite_held _ _ Hst Hman Hou Hstep) as Heq. rewrite IH; by rewrite Heq.
Qed.

(** C36: when an evaluation opens the breaker, the count of consecutive opens
    grows by one, from a failed probe as from a trip, and restarts at one only
    when the breaker had been closed for the reset time; it stays open for the
    policy's open duration doubled with every further consecutive open, at least
    that duration and at most the maximum; it is not half-opened before its end,
    and the first evaluation from its end on half-opens it. *)
Theorem open_backoff limit p now win pf b b' r :
  reachable limit b → st (b_hash b) ≠ StateOpen →
  breaker_eval p true now win pf b = (b', r) → st (b_hash b') = StateOpen →
  let p' := clamped p in
  oc (b_hash b') = (if decide (st (b_hash b) = StateClosed ∧ 0 < lc (b_hash b) ∧ ep_ResetAfterMs p' ≤ now - lc (b_hash b))
                    then 1 else oc (b_hash b) + 1) ∧
  ou (b_hash b') = now + Z.min (ep_OpenMs p' * 2 ^ (oc (b_hash b') - 1)) (ep_MaxOpenMs p') ∧
  now + ep_OpenMs p' ≤ ou (b_hash b') ≤ now + ep_MaxOpenMs p' ∧
  (0 < now → ∀ q now' win' pf', ep_Enabled q = true →
     st (b_hash (breaker_eval q true now' win' pf' b').1) =
       if now' <? ou (b_hash b') then StateOpen else StateHalfOpen).
Proof.
  intros [Hok _]%breaker_reachable_ok Hst Heval Hopen. cbv zeta.
  destruct (eval_opens _ _ _ _ _ _ _ Hst Heval Hopen) as [rs Hb]. fold (next_opens (clamped p) now (b_hash b)).
  assert (1 ≤ next_opens (clamped p) now (b_hash b)) as Hn
    by (pose proof (ok_opens _ _ Hok); unfold next_opens; case_decide; lia).
  revert Hb Hn. generalize (next_opens (clamped p) now (b_hash b)) as n. intros n Hb Hn.
  pose proof (open_for_bounds p n Hn) as Hbounds. pose proof (clamped_bounds p).
  assert (ou (b_hash b') = now + open_for (clamped p) n ∧ oc (b_hash b') = n ∧ man (b_hash b') = 0)
    as (Hou & -> & Hman) by by rewrite Hb.
  split_and!; [done| |lia..|].
  - rewrite Hou. f_equal. apply open_for_spec; lia.
  - intros Hnow q now' win' pf' Hq. apply eval_open_until; [done|lia|lia|done].
Qed.

(** The gate of acquire.lua and the suppression rule of observe.lua agree on
    when a breaker is effectively open: exactly then acquire refuses without
    touching the breaker; otherwise the breaker ends closed or half-open, and
    a half-open breaker only issues leases as probes within the limit. *)
Theorem gate_agrees limit now probe_limit found b :
  reachable limit b → 0 < now →
  let '(b', reply) := acquire now probe_limit found b in
  if effectively_open now (b_hash b)
  then b_hash b' = b_hash b ∧ ∃ ms, reply = GateOpen ms ∧ 0 < ms
  else st (b_hash b') ≠ StateOpen ∧
    match reply with
    | GatePass true => st (b_hash b') = StateHalfOpen ∧ hc (b_hash b') ≤ probe_limit
    | GatePass false => st (b_hash b) = StateClosed ∧ b' = b
    | GateOpen ms => st (b_hash b') = StateHalfOpen ∧ probe_limit ≤ hc (b_hash b') ∧ 0 < ms
    end.
Proof.
  intros [Hok _]%breaker_reachable_ok Hnow. unfold acquire, acquire_gate, effectively_open.
  destruct Hok as [Hp Hi Ho Hu Hs]. destruct b as [h brko]. cbn [b_hash b_brko] in *.
  destruct (st h) eqn:Hst; repeat (rewrite bool_decide_eq_false_2 by congruence);
    repeat (rewrite bool_decide_eq_true_2 by congruence); cbn [andb].
  - cbn. rewrite ?Hst. by split.
  - rewrite (andb_comm (ou h =? 0)). destruct ((man h =? 1) && (ou h =? 0)); cbn [orb];
      [cbn; split; [done|eexists; split; [done|lia]]|].
    destruct (now <? ou h) eqn:Hlt; [apply Z.ltb_lt in Hlt; cbn; split; [done|eexists; split; [done|lia]]|].
    cbn. rewrite Z.sub_diag. cbn. destruct (Z.geb_spec 0 probe_limit); cbn; [split_and!; done || lia|].
    destruct found; split_and!; cbn [b_hash with_hc st hc]; done || lia.
  - destruct (now - hw h >=? PROBE_WINDOW); cbn -[PROBE_WINDOW];
      [destruct (Z.geb_spec 0 probe_limit)|destruct (Z.geb_spec (hc h) probe_limit)];
      try destruct found; cbn; rewrite ?Hst; split_and!; done || lia.
Qed.

(** A half-open that acquire.lua performed on its own is reported by the
    next evaluation, once: that evaluation returns when it happened and no
    transition, later ones report it no more, and none changes the version. *)
Theorem lazy_half_open_recorded_once limit now probe_limit found p1 t1 win1 pf1 p2 t2 win2 pf2 b :
  reachable limit b → 0 < now →
  st (b_hash b) = StateOpen → 0 < ou (b_hash b) ≤ now →
  let b1 := (acquire now probe_limit found b).1 in
  let '(b2, r) := breaker_eval p1 true t1 win1 pf1 b1 in
  st (b_hash b1) = StateHalfOpen ∧ v (b_hash b1) = v (b_hash b) + 1 ∧
  er_LazyAtMs r = Some now ∧ er_To r = None ∧ v (b_hash b2) = v (b_hash b1) ∧
  er_LazyAtMs (breaker_eval p2 true t2 win2 pf2 b2).2 = None.
Proof.
  intros Hb Hnow Hst Hou.
  assert (∃ b1, (acquire now probe_limit found b).1 = b1 ∧ st (b_hash b1) = StateHalfOpen ∧
    ou (b_hash b1) = ou (b_hash b) ∧ hw (b_hash b1) = now ∧ v (b_hash b1) = v (b_hash b) + 1)
    as (b1 & -> & Hst1 & Hou1 & Hhw1 & Hv1).
  { eexists. split; [done|]. unfold acquire, acquire_gate. rewrite Hst.
    repeat (rewrite bool_decide_eq_true_2 by done). cbn [andb].
    rewrite (proj2 (Z.eqb_neq (ou (b_hash b)) 0)), andb_false_r by lia.
    rewrite (proj2 (Z.ltb_ge now (ou (b_hash b)))) by lia. cbn. rewrite Z.sub_diag. cbn.
    destruct (0 >=? probe_limit); [by cbn|]. by destruct found. }
  cbv zeta. unfold breaker_eval at 1. rewrite Hst1, Hou1, Hhw1, (proj2 (Z.gtb_lt (ou (b_hash b)) 0)) by lia.
  rewrite bool_decide_eq_true_2 by done. cbn [andb negb]. split_and!; try done.
  - cbn. by rewrite (proj2 (Z.leb_gt now 0)).
  - unfold breaker_eval. cbn. by rewrite andb_false_r.
Qed.

(** C37: a manual open with a duration of at least one millisecond ends that
    many whole milliseconds later, but a positive duration below a millisecond
    is accepted and opens the breaker without an end. *)
Theorem manual_open_ends text d now why b :
  text ≠ "" → 0 < d ≤ MaxManualOpenDuration → 0 < now →
  let h' := b_hash (breaker_set opOpen now (set_duration_ms d) why b).1 in
  open_duration text (Some d) = Some d ∧ st h' = StateOpen ∧ man h' = 1 ∧
  (Millisecond ≤ d → now < ou h' ∧ ou h' = now + Z.quot d Millisecond) ∧
  (d < Millisecond → ou h' = 0).
Proof.
  intros Htext%String.eqb_neq Hd Hnow. cbn. unfold set_duration_ms, open_duration, IsPermanent, Permanent.
  rewrite Htext, (proj2 (Z.gtb_lt d 0)) by lia. cbn [mbind option_bind].
  rewrite (proj2 (Z.eqb_neq d (-1))), (proj2 (Z.leb_gt d 0)) by lia.
  rewrite Z.gtb_ltb, (proj2 (Z.ltb_ge _ _)) by lia.
  unfold Millisecond in *. split_and!; [done..| |].
  - intros Hms. assert (1 ≤ Z.quot d 1000000) by (apply Z.quot_le_lower_bound; lia).
    rewrite (proj2 (Z.gtb_lt _ _)) by lia. lia.
  - intros Hms. by rewrite Z.quot_small by lia.
Qed.

(** The window of a reachable evaluation: at most sixty buckets, none that
    started before the last close and none older than the window. *)
Lemma window_buckets_spec p now lastClosed k :
  0 ≤ now → k ∈ window_buckets (clamped p) now lastClosed →
  let q := clamped p in
  now - ep_Buckets q * ep_BucketMs q < k * ep_BucketMs q ≤ now ∧
  (0 < lastClosed → lastClosed ≤ k * ep_BucketMs q).
Proof.
  intros Hnow Hk q. assert (1 ≤ ep_BucketMs q) as Hb by (cbn; lia). fold q in Hk.
  unfold window_buckets in Hk. apply list_elem_of_fmap in Hk as (i & -> & [_ Hi]%elem_of_seq).
  set (first := window_first q now lastClosed) in *.
  assert (now / ep_BucketMs q - ep_Buckets q + 1 ≤ first) as Hfirst.
  { subst first. unfold window_first. destruct (lastClosed >? 0); lia. }
  pose proof (Z.mul_div_le now (ep_BucketMs q) ltac:(lia)).
  pose proof (Z.mul_succ_div_gt now (ep_BucketMs q) ltac:(lia)).
  split; [nia|]. intros Hlc.
  assert (- (- lastClosed / ep_BucketMs q) ≤ first) as Hclose.
  { subst first. unfold window_first. rewrite (proj2 (Z.gtb_lt lastClosed 0)) by done. lia. }
  pose proof (Z.mul_div_le (- lastClosed) (ep_BucketMs q) ltac:(lia)). nia.
Qed.

Lemma window_buckets_in p now lastClosed k :
  window_first p now lastClosed ≤ k ≤ now / ep_BucketMs p → k ∈ window_buckets p now lastClosed.
Proof.
  intros Hk. unfold window_buckets. apply list_elem_of_fmap. exists (Z.to_nat (k - window_first p now lastClosed)). split; [lia|].
  apply elem_of_seq. lia.
Qed.

(** The arguments derived from any policy are within the script's clamps. *)
Lemma paramsFor_clamped spec : clamped (paramsFor spec) = paramsFor spec.
Proof.
  unfold clamped, paramsFor. cbn -[Z.quot defaultSpec Z.gtb Z.leb Z.ltb positiveMs].
  assert (∀ x d, 1 ≤ d → 1 ≤ positiveMs x d) as Hpos.
  { intros x d Hd. unfold positiveMs. destruct (Z.gtb_spec x 0); lia. }
  assert (1 ≤ Duration_Milliseconds (bk_OpenDuration defaultSpec)) as Ho by by vm_compute.
  f_equal.
  - destruct (Z.leb_spec (Z.quot (positiveMs (Duration_Milliseconds (bk_Window (default defaultSpec spec)))
      (Duration_Milliseconds (bk_Window defaultSpec)))
      (if (bk_Buckets (default defaultSpec spec) <=? 0) || (bk_Buckets (default defaultSpec spec) >? 60)
       then bk_Buckets defaultSpec else bk_Buckets (default defaultSpec spec))) 0); lia.
  - change (bk_Buckets defaultSpec) with 12.
    destruct (Z.leb_spec (bk_Buckets (default defaultSpec spec)) 0),
      (Z.gtb_spec (bk_Buckets (default defaultSpec spec)) 60); cbn [orb]; try done.
    rewrite (proj2 (Z.ltb_ge _ _)) by lia. by destruct (Z.gtb_spec (bk_Buckets (default defaultSpec spec)) 60); [lia|].
  - change (bk_MinRequests defaultSpec) with 50.
    destruct (Z.leb_spec (bk_MinRequests (default defaultSpec spec)) 0); lia.
  - specialize (Hpos (Duration_Milliseconds (bk_OpenDuration (default defaultSpec spec))) _ Ho). lia.
  - specialize (Hpos (Duration_Milliseconds (bk_OpenDuration (default defaultSpec spec))) _ Ho).
    match goal with |- context [if ?a <? ?b then _ else _] => destruct (Z.ltb_spec a b) end; lia.
  - change (ho_CloseMinSamples (bk_HalfOpen defaultSpec)) with 5.
    destruct (Z.leb_spec (ho_CloseMinSamples (bk_HalfOpen (default defaultSpec spec))) 0); lia.
Qed.

(** ** A concrete run: the built-in policy trips, the end passes, a probe is
    issued and the breaker is opened manually *)

Definition ex_params : evalParams := paramsFor None.
Definition ex_window (k : Z) : Bucket := {| bu_total := 100; bu_success := 0; bu_risk := 90 |}.
Definition ex_captcha (bs : list Z) : Z := 0.
Definition ex_closed : breaker := {| b_hash := no_hash; b_brko := false |}.
Definition ex_eval (now : Z) (b : breaker) : breaker :=
  (breaker_eval ex_params true now ex_window ex_captcha b).1.
Definition ex_open : breaker := ex_eval 1000000 ex_closed.
Definition ex_held : breaker := (breaker_set opOpen 2000000 0 "incident" ex_open).1.

Lemma ex_open_reachable : reachable 5 ex_open.
Proof. apply (reach_step 5 ex_closed); [apply reach_new|by apply step_eval]. Qed.

Lemma ex_open_value : st (b_hash ex_open) = StateOpen ∧ ou (b_hash ex_open) = 1120000.
Proof. by vm_compute. Qed.

Lemma breaker_consistent_witness : b_brko ex_open = true ∧ st (b_hash ex_open) ≠ StateClosed.
Proof.
  assert (b_brko ex_open = true) as H by (vm_compute; reflexivity).
  split; [exact H|]. exact (proj1 (proj1 (breaker_consistent 5 ex_open ex_open_reachable)) H).
Defined.

Lemma breaker_versions_witness : v (b_hash ex_open) = v (b_hash ex_closed) + 1.
Proof.
  apply (breaker_versions 5 ex_closed ex_open (reach_new 5)); [by apply step_eval|by vm_compute].
Defined.

Lemma indefinite_open_holds_witness : b_hash (ex_eval 3000000 ex_held) = b_hash ex_held.
Proof.
  apply (indefinite_open_holds ex_held); [by vm_compute..|]. apply rtc_once, auto_eval.
Defined.

(** A failed probe reopens the breaker for twice as long. *)
Definition ex_probing : breaker :=
  Nat.iter 10 (observe_probe false) (acquire 1120000 5 true ex_open).1.
Definition ex_recorded : breaker := ex_eval 1120001 ex_probing.
Definition ex_reopened : breaker := ex_eval 1120002 ex_recorded.

Lemma ex_recorded_reachable : reachable 5 ex_recorded.
Proof.
  apply (reach_step 5 ex_probing); [|by apply step_eval]. unfold ex_probing. cbn [Nat.iter nat_rect].
  do 10 (eapply reach_step; [|apply step_observe]). apply (reach_step 5 ex_open); [apply ex_open_reachable|by apply step_acquire].
Qed.

Lemma open_backoff_witness :
  oc (b_hash ex_reopened) = 2 ∧ ou (b_hash ex_reopened) = 1120002 + 2 * ep_OpenMs (clamped ex_params).
Proof.
  destruct (open_backoff 5 ex_params 1120002 ex_window ex_captcha ex_recorded ex_reopened
    (breaker_eval ex_params true 1120002 ex_window ex_captcha ex_recorded).2 ex_recorded_reachable) as (Hoc & Hou & _);
    [by vm_compute|by apply surjective_pairing|by vm_compute|].
  split; [rewrite Hoc|rewrite Hou, Hoc]; vm_compute; reflexivity.
Defined.

Lemma gate_agrees_witness :
  ∃ ms, (acquire 1100000 5 true ex_open).2 = GateOpen ms ∧ 0 < ms.
Proof.
  pose proof (gate_agrees 5 1100000 5 true ex_open ex_open_reachable ltac:(lia)) as H.
  vm_compute in H |- *. exact (proj2 H).
Defined.

Lemma lazy_half_open_recorded_once_witness :
  er_LazyAtMs (breaker_eval ex_params true 1200001 ex_window ex_captcha
    (acquire 1200000 5 true ex_open).1).2 = Some 1200000.
Proof.
  pose proof (lazy_half_open_recorded_once 5 1200000 5 true ex_params 1200001 ex_window ex_captcha
    ex_params 1200002 ex_window ex_captcha ex_open ex_open_reachable ltac:(lia)
    ltac:(by vm_compute) ltac:(by vm_compute)) as H.
  cbv zeta in H.
  destruct (breaker_eval _ _ _ _ _ (acquire 1200000 5 true ex_open).1) as [b2 r].
  exact (proj1 (proj2 (proj2 H))).
Defined.

Lemma manual_open_ends_witness :
  ou (b_hash (breaker_set opOpen 2000000 (set_duration_ms 500000) "incident" ex_open).1) = 0.
Proof. by apply (manual_open_ends "500us" 500000 2000000 "incident" ex_open). Defined.
