(* ===== verification/Textdiff.v ===== *)
(** Line diffs (internal/pkg/textdiff/textdiff.go): the edit script between two
    texts, its grouping into hunks and the unified text.

    Lines are byte strings.  The table of the longest common subsequence is the
    list of its rows, filled from the last row up and from the last column
    left, as the loops do; its entries are at most the number of lines, far
    from the range of int32.  The two index loops carry fuel bounded by the
    number of lines and operations. *)

From stdpp Require Import base list pretty.
From S2P Require Import Prelude GoStrings.

(** ** Data *)

Definition maxCells : Z := 25000000.

Inductive opKind := opEqual | opDelete | opInsert.

#[export] Instance opKind_eq_dec : EqDecision opKind.
Proof. solve_decision. Defined.

Record op := { kind : opKind; line : bytes }.
Record hunk := { start : nat; end_ : nat }.

Definition newline : ascii := Ascii.ascii_of_nat 10.

(** ** Splitting *)

Definition trim_suffix_newline (s : bytes) : bytes :=
  match last s with Some c => if decide (c = newline) then take (length s - 1) s else s | None => s end.

Definition splitLines (s : bytes) : list bytes :=
  match s with [] => [] | _ => split_byte newline (trim_suffix_newline s) end.

(** ** Edit script *)

Definition mk (k : opKind) (l : bytes) : op := {| kind := k; line := l |}.

(** One row of the table: row [i] from row [i+1], right to left. *)
Fixpoint table_row (x : bytes) (b : list bytes) (next : list nat) : list nat :=
  match b, next with
  | y :: b', below :: next' =>
      let row := table_row x b' next' in
      let diag := hd 0 next' in
      let right := hd 0 row in
      (if decide (x = y) then diag + 1 else if right <=? below then below else right) :: row
  | _, _ => [0]
  end.

Fixpoint lcs_table (a b : list bytes) : list (list nat) :=
  match a with
  | [] => [replicate (length b + 1) 0]
  | x :: a' => let table := lcs_table a' b in table_row x b (hd [] table) :: table
  end.

Definition cell (table : list (list nat)) (i j : nat) : nat := nth j (nth i table []) 0.

Fixpoint walk (fuel : nat) (a b : list bytes) (table : list (list nat)) (i j : nat) : list op :=
  match fuel with
  | O => []
  | S fuel' =>
      match a !! i, b !! j with
      | Some x, Some y =>
          if decide (x = y) then mk opEqual x :: walk fuel' a b table (i + 1) (j + 1)
          else if cell table i (j + 1) <=? cell table (i + 1) j
          then mk opDelete x :: walk fuel' a b table (i + 1) j
          else mk opInsert y :: walk fuel' a b table i (j + 1)
      | _, _ => (mk opDelete <$> drop i a) ++ (mk opInsert <$> drop j b)
      end
  end.

Definition too_large (a b : list bytes) : bool :=
  (Z.of_nat (length a + 1) * Z.of_nat (length b + 1) >? maxCells)%Z.

Definition lcsOps (a b : list bytes) : list op :=
  if (length a =? 0) || (length b =? 0) || too_large a b
  then (mk opDelete <$> a) ++ (mk opInsert <$> b)
  else walk (length a + length b + 1) a b (lcs_table a b) 0 0.

Fixpoint common_length (a b : list bytes) : nat :=
  match a, b with
  | x :: a', y :: b' => if decide (x = y) then S (common_length a' b') else 0
  | _, _ => 0
  end.

(** The parts of both texts between their common prefix and suffix. *)
Definition trimmed (a b : list bytes) : nat * nat * list bytes * list bytes :=
  let prefix := common_length a b in
  let suffix := common_length (reverse (drop prefix a)) (reverse (drop prefix b)) in
  (prefix, suffix, take (length a - suffix - prefix) (drop prefix a),
   take (length b - suffix - prefix) (drop prefix b)).

Definition diffLines (a b : list bytes) : list op :=
  let '(prefix, suffix, ma, mb) := trimmed a b in
  (mk opEqual <$> take prefix a) ++ lcsOps ma mb ++ (mk opEqual <$> drop (length a - suffix) a).

(** ** Hunks *)

Fixpoint equal_run (ops : list op) : nat :=
  match ops with
  | o :: ops' => if decide (kind o = opEqual) then S (equal_run ops') else 0
  | [] => 0
  end.

Fixpoint extend (fuel : nat) (ops : list op) (context e : nat) : nat :=
  match fuel with
  | O => e
  | S fuel' =>
      match ops !! e with
      | None => e
      | Some o =>
          if negb (bool_decide (kind o = opEqual)) then extend fuel' ops context (e + 1)
          else
            let run := equal_run (drop e ops) in
            if (e + run <? length ops) && (run <=? 2 * context)
            then extend fuel' ops context (e + run)
            else e + Nat.min run context
      end
  end.

(** [out] holds the hunks found so far, the last one first. *)
Fixpoint hunks_loop (fuel : nat) (ops : list op) (context i : nat) (out : list hunk) : list hunk :=
  match fuel with
  | O => out
  | S fuel' =>
      match ops !! i with
      | None => out
      | Some o =>
          if bool_decide (kind o = opEqual) then hunks_loop fuel' ops context (i + 1) out
          else
            let s := i - context in
            let e := extend (length ops) ops context (i + 1) in
            let out' :=
              match out with
              | h :: rest =>
                  if s <=? end_ h then {| start := start h; end_ := e |} :: rest
                  else {| start := s; end_ := e |} :: out
              | [] => [{| start := s; end_ := e |}]
              end in
            hunks_loop fuel' ops context e out'
      end
  end.

Definition hunks (ops : list op) (context : nat) : list hunk :=
  reverse (hunks_loop (length ops + 1) ops context 0 []).

(** ** Text *)

Definition count_old (ops : list op) : nat := length (List.filter (λ o, negb (bool_decide (kind o = opInsert))) ops).
Definition count_new (ops : list op) : nat := length (List.filter (λ o, negb (bool_decide (kind o = opDelete))) ops).

Definition op_sign (k : opKind) : bytes :=
  bs match k with opEqual => " " | opDelete => "-" | opInsert => "+" end.

Definition writeHunk (ops : list op) (h : hunk) : bytes :=
  let body := take (end_ h - start h) (drop (start h) ops) in
  let aLine := 1 + count_old (take (start h) ops) in
  let bLine := 1 + count_new (take (start h) ops) in
  let aCount := count_old body in
  let bCount := count_new body in
  let aStart := if aCount =? 0 then aLine - 1 else aLine in
  let bStart := if bCount =? 0 then bLine - 1 else bLine in
  bs "@@ -" ++ bs (pretty aStart) ++ bs "," ++ bs (pretty aCount) ++
  bs " +" ++ bs (pretty bStart) ++ bs "," ++ bs (pretty bCount) ++ bs " @@" ++ [newline] ++
  mjoin ((λ o, op_sign (kind o) ++ line o ++ [newline]) <$> body).

Definition Unified (fromName toName from to : bytes) (context : Z) : bytes :=
  if decide (from = to) then []
  else
    let context := Z.to_nat context in
    let ops := diffLines (splitLines from) (splitLines to) in
    bs "--- " ++ fromName ++ [newline] ++ bs "+++ " ++ toName ++ [newline] ++
    mjoin (writeHunk ops <$> hunks ops context).

(** ** What an edit script means *)

Definition old_lines (ops : list op) : list bytes :=
  line <$> List.filter (λ o, negb (bool_decide (kind o = opInsert))) ops.
Definition new_lines (ops : list op) : list bytes :=
  line <$> List.filter (λ o, negb (bool_decide (kind o = opDelete))) ops.
Definition kept_lines (ops : list op) : list bytes :=
  line <$> List.filter (λ o, bool_decide (kind o = opEqual)) ops.

(** [ops] turns [a] into [b]. *)
Definition edits (ops : list op) (a b : list bytes) : Prop := old_lines ops = a ∧ new_lines ops = b.

Lemma edits_nil : edits [] [] [].
Proof. done. Qed.

Lemma edits_equal x ops a b : edits ops a b → edits (mk opEqual x :: ops) (x :: a) (x :: b).
Proof. intros [<- <-]. done. Qed.

Lemma edits_delete x ops a b : edits ops a b → edits (mk opDelete x :: ops) (x :: a) b.
Proof. intros [<- <-]. done. Qed.

Lemma edits_insert y ops a b : edits ops a b → edits (mk opInsert y :: ops) a (y :: b).
Proof. intros [<- <-]. done. Qed.

Lemma edits_app ops1 ops2 a1 a2 b1 b2 :
  edits ops1 a1 b1 → edits ops2 a2 b2 → edits (ops1 ++ ops2) (a1 ++ a2) (b1 ++ b2).
Proof.
  intros [<- <-] [<- <-]. unfold edits, old_lines, new_lines. by rewrite !List.filter_app, !fmap_app.
Qed.

Lemma edits_equals l : edits (mk opEqual <$> l) l l.
Proof. induction l; [apply edits_nil|by apply edits_equal]. Qed.

Lemma edits_replace a b : edits ((mk opDelete <$> a) ++ (mk opInsert <$> b)) a b.
Proof.
  induction a; [|by apply edits_delete]. induction b; [apply edits_nil|by apply edits_insert].
Qed.

Lemma kept_app ops1 ops2 : kept_lines (ops1 ++ ops2) = kept_lines ops1 ++ kept_lines ops2.
Proof. unfold kept_lines. by rewrite List.filter_app, fmap_app. Qed.

Lemma kept_cons o ops :
  kept_lines (o :: ops) = if decide (kind o = opEqual) then line o :: kept_lines ops else kept_lines ops.
Proof. unfold kept_lines. cbn [List.filter]. case_bool_decide; by destruct (decide _). Qed.

Lemma kept_equals l : kept_lines (mk opEqual <$> l) = l.
Proof. induction l as [|x l IH]; [done|]. rewrite fmap_cons, kept_cons, IH. done. Qed.

Lemma kept_replaced a b : kept_lines ((mk opDelete <$> a) ++ (mk opInsert <$> b)) = [].
Proof.
  induction a as [|x a IH]; [|by rewrite fmap_cons, <- app_comm_cons, kept_cons, IH].
  rewrite fmap_nil, app_nil_l. induction b as [|y b IH]; [done|]. by rewrite fmap_cons, kept_cons, IH.
Qed.

(** ** The longest common subsequence *)

Fixpoint lcs (a b : list bytes) : nat :=
  match a with
  | [] => 0
  | x :: a' =>
      (fix go (b : list bytes) : nat :=
         match b with
         | [] => 0
         | y :: b' => if decide (x = y) then S (lcs a' b') else Nat.max (lcs a' b) (go b')
         end) b
  end.

Lemma lcs_nil_r a : lcs a [] = 0.
Proof. by destruct a. Qed.

Lemma lcs_cons x a y b :
  lcs (x :: a) (y :: b) =
  if decide (x = y) then S (lcs a b) else Nat.max (lcs a (y :: b)) (lcs (x :: a) b).
Proof. done. Qed.

Lemma lcs_longest a b c : c `sublist_of` a → c `sublist_of` b → length c ≤ lcs a b.
Proof.
  revert b c. induction a as [|x a IHa]; intros b c Ha Hb.
  { apply sublist_nil_r in Ha as ->. cbn. lia. }
  revert c Ha Hb. induction b as [|y b IHb]; intros c Ha Hb.
  { apply sublist_nil_r in Hb as ->. cbn. lia. }
  rewrite lcs_cons. destruct (decide (x = y)) as [<-|Hne].
  - destruct c as [|z c]; [cbn; lia|]. cbn. apply le_n_S, IHa.
    + apply sublist_cons_r in Ha as [Ha|(? & [= <- <-] & Ha)]; [|done].
      etrans; [|apply Ha]. by apply sublist_cons.
    + apply sublist_cons_r in Hb as [Hb|(? & [= <- <-] & Hb)]; [|done].
      etrans; [|apply Hb]. by apply sublist_cons.
  - apply sublist_cons_r in Ha as [Ha|(c' & -> & Ha)].
    + pose proof (IHa (y :: b) c Ha Hb). lia.
    + apply sublist_cons_r in Hb as [Hb|(? & [= -> ->] & Hb)]; [|done].
      assert (x :: c' `sublist_of` x :: a) as Hc by by apply sublist_skip.
      pose proof (IHb _ Hc Hb). lia.
Qed.

(** The table holds it for every pair of suffixes. *)
Fixpoint suffixes (b : list bytes) : list (list bytes) :=
  match b with [] => [[]] | _ :: b' => b :: suffixes b' end.

Lemma hd_suffixes b (f : list bytes → nat) : hd 0 (f <$> suffixes b) = f b.
Proof. by destruct b. Qed.

Lemma nth_suffixes {B} b j (f : list bytes → B) d :
  j ≤ length b → nth j (f <$> suffixes b) d = f (drop j b).
Proof.
  revert j. induction b as [|y b IH]; intros [|j] Hj; cbn in *; try done; [lia|]. apply IH. lia.
Qed.

Lemma table_row_spec x a b : table_row x b (lcs a <$> suffixes b) = lcs (x :: a) <$> suffixes b.
Proof.
  induction b as [|y b IH]; [done|]. cbn [suffixes fmap list_fmap table_row].
  rewrite IH, !hd_suffixes, lcs_cons. f_equal. destruct (decide (x = y)); [lia|].
  destruct (Nat.leb_spec (lcs (x :: a) b) (lcs a (y :: b))); lia.
Qed.

Lemma lcs_table_spec a b : lcs_table a b = (λ a', lcs a' <$> suffixes b) <$> suffixes a.
Proof.
  induction a as [|x a IH]; cbn [lcs_table suffixes fmap list_fmap].
  - f_equal. induction b as [|y b IHb]; [done|]. cbn in *. by rewrite IHb.
  - rewrite IH. f_equal. rewrite <- table_row_spec. by destruct a.
Qed.

Lemma cell_spec a b i j :
  i ≤ length a → j ≤ length b → cell (lcs_table a b) i j = lcs (drop i a) (drop j b).
Proof. intros Hi Hj. unfold cell. rewrite lcs_table_spec, !nth_suffixes by done. done. Qed.

Lemma walk_spec fuel a b i j :
  i ≤ length a → j ≤ length b → (length a - i) + (length b - j) < fuel →
  let ops := walk fuel a b (lcs_table a b) i j in
  edits ops (drop i a) (drop j b) ∧ length (kept_lines ops) = lcs (drop i a) (drop j b).
Proof.
  revert i j. induction fuel as [|fuel IH]; intros i j Hi Hj Hf; [lia|]. cbn [walk].
  destruct (a !! i) as [x|] eqn:Hx.
  2:{ apply lookup_ge_None in Hx. rewrite drop_ge by done. by split; [apply edits_replace|rewrite kept_replaced]. }
  destruct (b !! j) as [y|] eqn:Hy.
  2:{ apply lookup_ge_None in Hy. rewrite (drop_ge b) by done. by split; [apply edits_replace|rewrite lcs_nil_r, kept_replaced]. }
  pose proof (lookup_lt_Some _ _ _ Hx). pose proof (lookup_lt_Some _ _ _ Hy).
  rewrite (drop_S _ _ _ Hx), (drop_S _ _ _ Hy), lcs_cons. rewrite !Nat.add_1_r.
  destruct (decide (x = y)) as [<-|Hne].
  - destruct (IH (S i) (S j)) as [He Hk]; [lia..|]. split; [by apply edits_equal|].
    rewrite kept_cons, decide_True by done. cbn [length]. by rewrite Hk.
  - rewrite !cell_spec by lia. rewrite (drop_S _ _ _ Hx), (drop_S _ _ _ Hy).
    destruct (Nat.leb_spec (lcs (x :: drop (S i) a) (drop (S j) b)) (lcs (drop (S i) a) (y :: drop (S j) b))).
    + destruct (IH (S i) j) as [He Hk]; [lia..|]. rewrite (drop_S _ _ _ Hy) in He, Hk.
      split; [by apply edits_delete|]. rewrite kept_cons, decide_False by done. rewrite Hk. lia.
    + destruct (IH i (S j)) as [He Hk]; [lia..|]. rewrite (drop_S _ _ _ Hx) in He, Hk.
      split; [by apply edits_insert|]. rewrite kept_cons, decide_False by done. rewrite Hk. lia.
Qed.

Lemma lcsOps_edits a b : edits (lcsOps a b) a b.
Proof.
  unfold lcsOps. destruct (_ || _); [apply edits_replace|].
  destruct (walk_spec (length a + length b + 1) a b 0 0) as [He _]; [lia..|]. done.
Qed.

Lemma lcsOps_kept a b :
  too_large a b = false → length (kept_lines (lcsOps a b)) = lcs a b.
Proof.
  intros Hl. unfold lcsOps. rewrite Hl, orb_false_r.
  destruct (Nat.eqb_spec (length a) 0) as [Ha|]; cbn [orb].
  { apply nil_length_inv in Ha as ->. by rewrite kept_replaced. }
  destruct (Nat.eqb_spec (length b) 0) as [Hb|].
  { apply nil_length_inv in Hb as ->. by rewrite kept_replaced, lcs_nil_r. }
  by destruct (walk_spec (length a + length b + 1) a b 0 0) as [_ Hk]; [lia..|].
Qed.

(** ** Trimming *)

Lemma common_length_spec a b :
  let k := common_length a b in take k a = take k b ∧ k ≤ length a ∧ k ≤ length b.
Proof.
  revert b. induction a as [|x a IH]; intros [|y b]; cbn; try (split_and!; [done|lia|lia]).
  destruct (decide (x = y)) as [->|]; cbn; [|split_and!; [done|lia|lia]].
  destruct (IH b) as (Heq & ? & ?). split_and!; [by f_equal|lia|lia].
Qed.

Lemma trim_suffix (l : list bytes) k n :
  n ≤ length l → k ≤ length l - n →
  drop (length l - k) l = reverse (take k (reverse (drop n l))) ∧
  drop n l = take (length l - k - n) (drop n l) ++ drop (length l - k) l.
Proof.
  intros Hn Hk. rewrite take_reverse, reverse_involutive, length_drop, drop_drop.
  replace (n + (length l - n - k)) with (length l - k) by lia. split; [done|].
  rewrite <- (take_drop (length l - k - n) (drop n l)) at 1. f_equal. rewrite drop_drop. f_equal. lia.
Qed.

Lemma trimmed_spec a b :
  let '(prefix, suffix, ma, mb) := trimmed a b in
  take prefix a = take prefix b ∧ drop (length a - suffix) a = drop (length b - suffix) b ∧
  a = take prefix a ++ ma ++ drop (length a - suffix) a ∧
  b = take prefix b ++ mb ++ drop (length b - suffix) b.
Proof.
  unfold trimmed. destruct (common_length_spec a b) as (Hpre & Hpa & Hpb).
  set (p := common_length a b) in *.
  destruct (common_length_spec (reverse (drop p a)) (reverse (drop p b))) as (Hsuf & Hsa & Hsb).
  set (s := common_length (reverse (drop p a)) _) in *. rewrite length_reverse, length_drop in Hsa, Hsb.
  destruct (trim_suffix a s p) as [Ha1 Ha2]; [lia..|]. destruct (trim_suffix b s p) as [Hb1 Hb2]; [lia..|].
  split_and!; [done|congruence| |].
  - by rewrite <- Ha2, take_drop.
  - by rewrite <- Hb2, take_drop.
Qed.

(** A common subsequence of two lists with a common suffix, or prefix, leaves
    one of the rest that is shorter by at most its length. *)
Lemma common_suffix_trim (c m1 m2 s : list bytes) :
  c `sublist_of` m1 ++ s → c `sublist_of` m2 ++ s →
  ∃ c', c' `sublist_of` m1 ∧ c' `sublist_of` m2 ∧ length c ≤ length c' + length s.
Proof.
  intros (l1 & l2 & -> & Hl1 & Hl2)%sublist_app_r (k1 & k2 & Heq & Hk1 & Hk2)%sublist_app_r.
  apply sublist_length in Hl2, Hk2. rewrite length_app.
  pose proof (f_equal length Heq) as Hlen. rewrite !length_app in Hlen.
  apply app_eq_inv in Heq as [(k & -> & _)|(k & -> & _)].
  - exists k1. split_and!; [|done|lia]. etrans; [|done]. apply sublist_inserts_r. done.
  - exists l1. split_and!; [done| |lia]. etrans; [|done]. apply sublist_inserts_r. done.
Qed.

Lemma common_prefix_trim (c p m1 m2 : list bytes) :
  c `sublist_of` p ++ m1 → c `sublist_of` p ++ m2 →
  ∃ c', c' `sublist_of` m1 ∧ c' `sublist_of` m2 ∧ length c ≤ length c' + length p.
Proof.
  intros (l1 & l2 & -> & Hl1 & Hl2)%sublist_app_r (k1 & k2 & Heq & Hk1 & Hk2)%sublist_app_r.
  apply sublist_length in Hl1, Hk1. rewrite length_app.
  pose proof (f_equal length Heq) as Hlen. rewrite !length_app in Hlen.
  apply app_eq_inv in Heq as [(k & _ & ->)|(k & _ & ->)].
  - exists l2. split_and!; [done| |lia]. etrans; [|done]. apply sublist_inserts_l. done.
  - exists k2. split_and!; [|done|lia]. etrans; [|done]. apply sublist_inserts_l. done.
Qed.

Lemma StronglySorted_reverse {A} (R : A → A → Prop) l :
  StronglySorted (λ x y, R y x) l → StronglySorted R (reverse l).
Proof.
  induction 1 as [|x l _ IH Hx]; [constructor|]. rewrite reverse_cons.
  apply StronglySorted_app. split_and!; [|done|repeat constructor].
  intros y z Hy ->%list_elem_of_singleton. rewrite elem_of_reverse in Hy.
  rewrite Forall_forall in Hx. by apply Hx.
Qed.

(** ** Coverage *)

Definition changed (ops : list op) (j : nat) : Prop := ∃ o, ops !! j = Some o ∧ kind o ≠ opEqual.

Lemma equal_run_spec ops : equal_run ops ≤ length ops ∧ ∀ j, j < equal_run ops → ¬ changed ops j.
Proof.
  induction ops as [|o ops [Hlen IH]]; cbn; [split; [lia|intros j Hj; lia]|].
  destruct (decide (kind o = opEqual)) as [Ho|Ho]; [|split; [lia|intros j Hj; lia]].
  split; [lia|]. intros [|j] Hj (o' & Hlook & Hk); cbn in Hlook; [congruence|].
  apply (IH j); [lia|]. by exists o'.
Qed.

Lemma changed_drop ops e j : e ≤ j → changed ops j ↔ changed (drop e ops) (j - e).
Proof. intros He. unfold changed. rewrite lookup_drop. by replace (e + (j - e)) with j by lia. Qed.

(** A run of equal operations has none that is changed, and the first operation
    of a non-empty run is in it. *)
Lemma equal_run_at ops e o :
  ops !! e = Some o → kind o = opEqual →
  let run := equal_run (drop e ops) in
  1 ≤ run ∧ e + run ≤ length ops ∧ ∀ j, e ≤ j < e + run → ¬ changed ops j.
Proof.
  intros He Ho run. destruct (equal_run_spec (drop e ops)) as [Hlen Hrun]. rewrite length_drop in Hlen.
  pose proof (lookup_lt_Some _ _ _ He). split_and!.
  - subst run. rewrite (drop_S _ _ _ He). cbn. rewrite decide_True by done. lia.
  - subst run. lia.
  - intros j Hj. rewrite (changed_drop ops e) by lia. apply Hrun. subst run. lia.
Qed.

Lemma extend_spec fuel ops context e :
  e ≤ length ops → length ops - e ≤ fuel →
  let r := extend fuel ops context e in
  e ≤ r ≤ length ops ∧ Nat.min (e + context) (length ops) ≤ r ∧
  ∀ j, changed ops j → e ≤ j < r → Nat.min (j + 1 + context) (length ops) ≤ r.
Proof.
  revert e. induction fuel as [|fuel IH]; intros e He Hf; cbn [extend].
  { split_and!; [lia..|]. intros j _ Hj. lia. }
  destruct (ops !! e) as [o|] eqn:Ho.
  2:{ apply lookup_ge_None in Ho. split_and!; [lia..|]. intros j _ Hj. lia. }
  pose proof (lookup_lt_Some _ _ _ Ho) as Hlt. case_bool_decide as Hk; cbn [negb].
  2:{ destruct (IH (e + 1)) as (Hr & Hm & Hc); [lia..|]. split_and!; [lia..|].
      intros j Hj Hje. destruct (decide (j = e)) as [->|]; [lia|]. apply Hc; [done|lia]. }
  destruct (equal_run_at ops e o Ho Hk) as (H1 & Hlen & Hrun). set (run := equal_run (drop e ops)) in *.
  destruct (Nat.ltb_spec (e + run) (length ops)), (Nat.leb_spec run (2 * context)); cbn [andb];
    try (split_and!; [lia..|]; intros j Hj Hje; destruct (Hrun j); [lia|done]).
  destruct (IH (e + run)) as (Hr & Hm & Hc); [lia..|]. split_and!; [lia..|].
  intros j Hj Hje. destruct (decide (j < e + run)); [destruct (Hrun j); [lia|done]|].
  apply Hc; [done|lia].
Qed.

(** What the loop has established at position [i], the last hunk first. *)
Record hunks_inv (ops : list op) (context i : nat) (out : list hunk) : Prop := {
  hi_range : Forall (λ h, start h < end_ h ≤ length ops) out;
  hi_sorted : StronglySorted (λ h h', end_ h' < start h) out;
  hi_last : match out with [] => True | h :: _ => end_ h ≤ i ∧ start h ≤ i - context end;
  hi_cover : ∀ j, changed ops j → j < i → ∃ h, h ∈ out ∧
    start h ≤ j - context ∧ Nat.min (j + 1 + context) (length ops) ≤ end_ h;
}.

Lemma hunks_inv_skip ops context i out :
  hunks_inv ops context i out → ¬ changed ops i → hunks_inv ops context (i + 1) out.
Proof.
  intros [Hr Hs Hl Hc] Hi. split; try done.
  - destruct out; [done|lia].
  - intros j Hj Hlt. destruct (decide (j = i)) as [->|]; [done|]. apply Hc; [done|lia].
Qed.

Lemma hunks_inv_add ops context i out :
  hunks_inv ops context i out → changed ops i → i < length ops →
  let e := extend (length ops) ops context (i + 1) in
  let s := i - context in
  hunks_inv ops context e
    match out with
    | h :: rest =>
        if s <=? end_ h then {| start := start h; end_ := e |} :: rest
        else {| start := s; end_ := e |} :: out
    | [] => [{| start := s; end_ := e |}]
    end.
Proof.
  intros [Hr Hs Hl Hc] Hi Hlt e s.
  destruct (extend_spec (length ops) ops context (i + 1)) as (Her & Hem & Hec); [lia..|]. fold e in Her, Hem, Hec.
  assert (∀ j, changed ops j → i ≤ j < e → s ≤ j - context ∧ Nat.min (j + 1 + context) (length ops) ≤ e) as Hnew.
  { intros j Hj Hje. split; [lia|]. destruct (decide (j = i)) as [->|]; [lia|]. apply Hec; [done|lia]. }
  destruct out as [|h rest].
  { split; cbn; [repeat constructor; cbn; lia|repeat constructor|lia|]. intros j Hj Hje.
    destruct (decide (j < i)) as [Hji|Hji]; [destruct (Hc j Hj Hji) as (? & ?%elem_of_nil & _); done|].
    eexists. split; [by constructor|]. apply Hnew; [done|lia]. }
  apply Forall_cons in Hr as [Hh Hr]. apply StronglySorted_inv in Hs as [Hs Hsh].
  destruct (Nat.leb_spec s (end_ h)) as [Hm|Hm].
  - split; cbn; [constructor; [cbn; lia|done]|by constructor|lia|]. intros j Hj Hje.
    destruct (decide (j < i)) as [Hji|Hji].
    + destruct (Hc j Hj Hji) as (h' & [->|Hin]%elem_of_cons & Hcov).
      * eexists. split; [by constructor|]. cbn. lia.
      * exists h'. split; [by constructor|done].
    + eexists. split; [by constructor|]. cbn. destruct (Hnew j Hj); lia.
  - split; cbn; [constructor; [cbn; lia|by constructor]| |lia|].
    + constructor; [by constructor|]. constructor; [cbn; lia|].
      eapply Forall_impl; [exact Hsh|]. cbn. intros h' ?. lia.
    + intros j Hj Hje. destruct (decide (j < i)) as [Hji|Hji].
      * destruct (Hc j Hj Hji) as (h' & Hin & Hcov). exists h'. split; [by constructor|done].
      * eexists. split; [by constructor|]. apply Hnew; [done|lia].
Qed.

Lemma hunks_loop_spec fuel ops context i out :
  hunks_inv ops context i out → length ops - i < fuel → i ≤ length ops →
  hunks_inv ops context (length ops) (hunks_loop fuel ops context i out).
Proof.
  revert i out. induction fuel as [|fuel IH]; intros i out Hinv Hf Hi; [lia|]. cbn [hunks_loop].
  destruct (ops !! i) as [o|] eqn:Ho.
  2:{ apply lookup_ge_None in Ho. by replace (length ops) with i by lia. }
  pose proof (lookup_lt_Some _ _ _ Ho) as Hlt. case_bool_decide as Hk.
  - apply IH; [|lia..]. apply hunks_inv_skip; [done|]. intros (o' & Ho' & ?). congruence.
  - destruct (extend_spec (length ops) ops context (i + 1)) as (Her & _); [lia..|].
    apply IH; [|lia..]. apply hunks_inv_add; [done|by exists o|done].
Qed.

(** ** Properties *)

(** The edit script turns the old lines into the new ones, and unless the
    trimmed texts exceed the table bound it is minimal: it keeps as many lines
    as any common subsequence of the two texts has. *)
Theorem diffLines_minimal a b :
  edits (diffLines a b) a b ∧
  (let '(_, _, ma, mb) := trimmed a b in too_large ma mb = false →
   ∀ c, c `sublist_of` a → c `sublist_of` b → length c ≤ length (kept_lines (diffLines a b))).
Proof.
  unfold diffLines. pose proof (trimmed_spec a b) as Ht.
  destruct (trimmed a b) as [[[p s] ma] mb]. destruct Ht as (Hp & Hs & Ha & Hb).
  rewrite <- Hp, <- Hs in Hb. clear Hp Hs. split.
  - assert (edits ((mk opEqual <$> take p a) ++ lcsOps ma mb ++ (mk opEqual <$> drop (length a - s) a))
      (take p a ++ ma ++ drop (length a - s) a) (take p a ++ mb ++ drop (length a - s) a)) as He.
    { apply edits_app; [apply edits_equals|]. apply edits_app; [apply lcsOps_edits|apply edits_equals]. }
    by rewrite <- Ha, <- Hb in He.
  - intros Hl c Hca Hcb. rewrite Ha in Hca. rewrite Hb in Hcb.
    destruct (common_prefix_trim _ _ _ _ Hca Hcb) as (c1 & H1a & H1b & Hlen1).
    destruct (common_suffix_trim _ _ _ _ H1a H1b) as (c2 & H2a & H2b & Hlen2).
    rewrite !kept_app, !kept_equals, !length_app, lcsOps_kept by done.
    pose proof (lcs_longest _ _ _ H2a H2b). lia.
Qed.

(** The hunks are in order, apart from each other and within the script,
    and every change lies in a hunk together with the requested number of lines
    before and after it, as far as the texts go; so the operations outside the
    hunks are all equal lines. *)
Theorem hunks_cover ops context :
  Forall (λ h, start h < end_ h ≤ length ops) (hunks ops context) ∧
  StronglySorted (λ h h', end_ h < start h') (hunks ops context) ∧
  ∀ j, changed ops j → ∃ h, h ∈ hunks ops context ∧
    start h ≤ j - context ∧ Nat.min (j + 1 + context) (length ops) ≤ end_ h.
Proof.
  unfold hunks. destruct (hunks_loop_spec (length ops + 1) ops context 0 []) as [Hr Hs _ Hc]; [|lia..|].
  { split; cbn; [constructor|constructor|done|]. intros j _ Hj. lia. }
  split_and!.
  - by apply Forall_reverse.
  - by apply StronglySorted_reverse.
  - intros j Hj. destruct (Hc j Hj) as (h & Hin & Hcov).
    { destruct Hj as (o & Ho & _). by eapply lookup_lt_Some. }
    exists h. by rewrite elem_of_reverse.
Qed.

(** The cases of textdiff_test.go. *)
Definition text (l : list string) : bytes := mjoin ((λ s, bs s ++ [newline]) <$> l).

Example Unified_change :
  Unified (bs "v1") (bs "v2") (text ["a"; "b"; "c"; "d"; "e"; "f"; "g"]%string)
    (text ["a"; "b"; "c"; "D"; "e"; "f"; "g"]%string) 1
  = text ["--- v1"; "+++ v2"; "@@ -3,3 +3,3 @@"; " c"; "-d"; "+D"; " e"]%string.
Proof. vm_compute. reflexivity. Qed.

Example Unified_insert :
  Unified (bs "old") (bs "new") [] (text ["x"; "y"]%string) 3
  = text ["--- old"; "+++ new"; "@@ -0,0 +1,2 @@"; "+x"; "+y"]%string.
Proof. vm_compute. reflexivity. Qed.

Example Unified_merges :
  Unified (bs "a") (bs "b") (text ["1"; "2"; "3"; "4"; "5"; "6"]%string)
    (text ["1"; "X"; "3"; "4"; "Y"; "6"]%string) 1
  = text ["--- a"; "+++ b"; "@@ -1,6 +1,6 @@"; " 1"; "-2"; "+X"; " 3"; " 4"; "-5"; "+Y"; " 6"]%string.
Proof. vm_compute. reflexivity. Qed.
