(* ===== verification/GoTime.v ===== *)
(** * Numbers and durations as text

    What the program uses of the packages [strconv] and [time] of the Go
    standard library: [strconv.ParseInt], [strconv.FormatInt],
    [time.ParseDuration] and [time.Duration.String], with the lemmas that the
    parsers read back what the printers write.

    A duration is an integer of nanoseconds in the range of int64.  The uint64
    values of [time.ParseDuration] are kept below 2^64 by its checks, and the
    fraction is scaled in IEEE doubles, as there. *)

From S2P Require Import Prelude GoStrings GoFloat PolicyBase.

Local Open Scope Z_scope.

(** ** Digits *)

Definition digit_byte (d : Z) : ascii := ascii_of_N (Z.to_N (48 + d)).
Definition is_digit (c : ascii) : bool := byte_in 48 57 c.
Definition digit_value (c : ascii) : Z := bval c - 48.

(** [strconv.FormatInt] of a non-negative number, and [fmtInt]: an int64 has at
    most 19 digits. *)
Fixpoint format_digits (fuel : nat) (n : Z) (acc : bytes) : bytes :=
  match fuel with
  | O => acc
  | S fuel' =>
      let acc' := digit_byte (n mod 10) :: acc in
      if n / 10 =? 0 then acc' else format_digits fuel' (n / 10) acc'
  end.
Definition FormatInt (n : Z) : bytes := format_digits 20 n [].

(** [strconv.ParseInt(s, 10, 64)]; [None] on any error. *)
Definition digits_value (s : bytes) : Z := foldl (λ x c, x * 10 + digit_value c) 0 s.
Definition ParseInt (s : bytes) : option Z :=
  let '(neg, ds) :=
    match s with
    | c :: s' => if decide (c = "-"%char) then (true, s') else if decide (c = "+"%char) then (false, s')
                 else (false, s)
    | [] => (false, s)
    end in
  match ds with
  | [] => None
  | _ =>
      if negb (forallb is_digit ds) then None
      else
        let n := if neg then - digits_value ds else digits_value ds in
        if (n <? int64_min) || (n >? int64_max) then None else Some n
  end.

(** ** time.ParseDuration *)

Definition Microsecond : Z := 1000.
(** [Duration.Milliseconds] *)
Definition std_ms (d : Z) : Z := Z.quot d 1000000.

Fixpoint leadingInt (x : Z) (s : bytes) : option (Z * bytes) :=
  match s with
  | c :: s' =>
      if is_digit c then
        if x >? 2 ^ 63 / 10 then None
        else
          let x' := x * 10 + digit_value c in
          if x' >? 2 ^ 63 then None else leadingInt x' s'
      else Some (x, s)
  | [] => Some (x, [])
  end.

(** The value, the scale and the rest; further digits are dropped once the value
    would overflow. *)
Fixpoint leadingFraction (x : Z) (scale : float64) (overflow : bool) (s : bytes) : Z * float64 * bytes :=
  match s with
  | c :: s' =>
      if is_digit c then
        if overflow then leadingFraction x scale true s'
        else if x >? (2 ^ 63 - 1) / 10 then leadingFraction x scale true s'
        else
          let y := x * 10 + digit_value c in
          if y >? 2 ^ 63 then leadingFraction x scale true s'
          else leadingFraction y (f_mul scale (f_of_Z 10)) false s'
      else (x, scale, s)
  | [] => (x, scale, [])
  end.

Definition unit_byte (c : ascii) : bool := negb (bool_decide (c = "."%char) || is_digit c).

(** The unit: the bytes before the next digit or point. *)
Fixpoint span_unit (s : bytes) : bytes * bytes :=
  match s with
  | c :: s' => if unit_byte c then let '(u, r) := span_unit s' in (c :: u, r) else ([], s)
  | [] => ([], [])
  end.

Definition micro_sign : bytes := [ascii_of_N 194; ascii_of_N 181].
Definition greek_mu : bytes := [ascii_of_N 206; ascii_of_N 188].

Definition unitMap (u : bytes) : option Z :=
  if bool_decide (u = bs "ns") then Some 1
  else if bool_decide (u = bs "us") then Some Microsecond
  else if bool_decide (u = micro_sign ++ bs "s") then Some Microsecond
  else if bool_decide (u = greek_mu ++ bs "s") then Some Microsecond
  else if bool_decide (u = bs "ms") then Some Millisecond
  else if bool_decide (u = bs "s") then Some Second
  else if bool_decide (u = bs "m") then Some Minute
  else if bool_decide (u = bs "h") then Some Hour
  else None.

(** The fraction after a point, its scale, whether it has a digit, and the rest. *)
Definition fraction (s : bytes) : Z * float64 * bool * bytes :=
  match s with
  | c :: t =>
      if decide (c = "."%char) then
        let '(f, scale, r) := leadingFraction 0 (f_of_Z 1) false t in
        (f, scale, negb (length t =? length r)%nat, r)
      else (0, f_of_Z 1, false, s)
  | [] => (0, f_of_Z 1, false, s)
  end.

(** The nanoseconds of [x + f/scale] units. *)
Definition scaled (x f : Z) (scale : float64) (unit : Z) : option Z :=
  if x >? 2 ^ 63 / unit then None
  else
    let y := x * unit in
    if f >? 0 then
      let z := y + f_trunc (f_mul (f_of_Z f) (f_div (f_of_Z unit) scale)) in
      if z >? 2 ^ 63 then None else Some z
    else Some y.

(** One component [<int>.<frac><unit>] in nanoseconds, and the rest. *)
Definition component (s : bytes) : option (Z * bytes) :=
  match s with
  | [] => None
  | c :: _ =>
      if negb (bool_decide (c = "."%char) || is_digit c) then None
      else
        '(x, s1) ← leadingInt 0 s;
        let pre := negb (length s =? length s1)%nat in
        let '(f, scale, post, s2) := fraction s1 in
        if negb pre && negb post then None
        else
          let '(u, s3) := span_unit s2 in
          match u with
          | [] => None
          | _ => unit ← unitMap u; z ← scaled x f scale unit; Some (z, s3)
          end
  end.

Fixpoint components (fuel : nat) (d : Z) (s : bytes) : option Z :=
  match fuel, s with
  | _, [] => Some d
  | O, _ => None
  | S fuel', _ =>
      '(x, rest) ← component s;
      if d + x >? 2 ^ 63 then None else components fuel' (d + x) rest
  end.

Definition ParseDuration (s : bytes) : option Z :=
  let '(neg, s') :=
    match s with
    | c :: t => if decide (c = "-"%char) then (true, t) else if decide (c = "+"%char) then (false, t)
                else (false, s)
    | [] => (false, s)
    end in
  if bool_decide (s' = bs "0") then Some 0
  else match s' with
  | [] => None
  | _ =>
      d ← components (length s') 0 s';
      if neg then Some (- d) else if d >? 2 ^ 63 - 1 then None else Some d
  end.

(** ** time.Duration.String *)

(** [fmtFrac]: [prec] digits of [v] without the trailing zeros, in front of
    [acc]; the point is written when a digit is. *)
Fixpoint frac_digits (prec : nat) (v : Z) (print : bool) (acc : bytes) : bytes * bool * Z :=
  match prec with
  | O => (acc, print, v)
  | S prec' =>
      let digit := v mod 10 in
      let print' := print || negb (digit =? 0) in
      frac_digits prec' (v / 10) print' (if print' then digit_byte digit :: acc else acc)
  end.
Definition fmtFrac (prec : nat) (v : Z) (acc : bytes) : bytes * Z :=
  let '(acc', print, v') := frac_digits prec v false acc in
  (if print then "."%char :: acc' else acc', v').

Definition fmtInt (v : Z) (acc : bytes) : bytes := FormatInt v ++ acc.

Definition Duration_format (u : Z) : bytes :=
  if u <? Second then
    if u =? 0 then bs "0s"
    else
      let '(prec, unit) :=
        if u <? Microsecond then (0%nat, bs "ns")
        else if u <? Millisecond then (3%nat, micro_sign ++ bs "s")
        else (6%nat, bs "ms") in
      let '(acc, v) := fmtFrac prec u unit in fmtInt v acc
  else
    let '(acc, v) := fmtFrac 9 u (bs "s") in
    let acc := fmtInt (v mod 60) acc in
    let v := v / 60 in
    if v >? 0 then
      let acc := fmtInt (v mod 60) (bs "m" ++ acc) in
      let v := v / 60 in
      if v >? 0 then fmtInt v (bs "h" ++ acc) else acc
    else acc.
Definition time_String (d : Z) : bytes :=
  if d <? 0 then "-"%char :: Duration_format (- d) else Duration_format d.

Example ParseDuration_ex1 : ParseDuration (bs "1.5h") = Some (90 * Minute).
Proof. vm_compute. reflexivity. Qed.
Example ParseDuration_ex2 : ParseDuration (bs "-7h2m") = Some (- (7 * Hour + 2 * Minute)).
Proof. vm_compute. reflexivity. Qed.
Example ParseDuration_ex3 : ParseDuration (bs "2d") = None ∧ ParseDuration (bs "10") = None.
Proof. vm_compute. auto. Qed.
Example time_String_ex :
  time_String (1500 * Microsecond) = bs "1.5ms" ∧ time_String (- 2 * Second) = bs "-2s" ∧
  time_String (90 * Minute) = bs "1h30m0s".
Proof. vm_compute. auto. Qed.

(** ** Reading back digits *)

Lemma bval_digit d : 0 ≤ d ≤ 9 → bval (digit_byte d) = 48 + d.
Proof.
  intros H. unfold bval, digit_byte. rewrite N_ascii_embedding by lia. lia.
Qed.
Lemma digit_byte_value d : 0 ≤ d ≤ 9 → digit_value (digit_byte d) = d.
Proof. intros. unfold digit_value. rewrite bval_digit by done. lia. Qed.
Lemma digit_byte_digit d : 0 ≤ d ≤ 9 → is_digit (digit_byte d) = true.
Proof. intros. unfold is_digit, byte_in. rewrite bval_digit by done. lia. Qed.

Lemma is_digit_range c : is_digit c = true → 48 ≤ bval c ≤ 57.
Proof. unfold is_digit, byte_in. bool_to_prop. lia. Qed.
Lemma is_digit_value c : is_digit c = true → 0 ≤ digit_value c ≤ 9.
Proof. intros ?%is_digit_range. unfold digit_value. lia. Qed.

Definition all_digits (s : bytes) : Prop := Forall (λ c, is_digit c = true) s.

(** The value of digits read after [x]. *)
Definition read_digits (x : Z) (s : bytes) : Z := foldl (λ x c, x * 10 + digit_value c) x s.

Lemma read_digits_mono x s : all_digits s → 0 ≤ x → x ≤ read_digits x s.
Proof.
  intros Hs. revert x. induction Hs as [|c s Hc Hs IH]; intros x Hx; cbn; [lia|].
  pose proof (is_digit_value _ Hc). pose proof (IH (x * 10 + digit_value c) ltac:(lia)).
  unfold read_digits in *. lia.
Qed.

Lemma format_digits_app fuel n acc : format_digits fuel n acc = format_digits fuel n [] ++ acc.
Proof.
  revert n acc. induction fuel as [|fuel IH]; intros n acc; cbn; [done|].
  destruct (n / 10 =? 0); [done|]. rewrite (IH _ (_ :: acc)), (IH _ [_]), <- app_assoc. done.
Qed.

Lemma format_digits_spec fuel n :
  0 ≤ n < 10 ^ Z.of_nat fuel →
  all_digits (format_digits fuel n []) ∧ read_digits 0 (format_digits fuel n []) = n.
Proof.
  revert n. induction fuel as [|fuel IH]; intros n Hn; [cbn in *; split; [constructor|lia]|].
  pose proof (Z.mod_pos_bound n 10 ltac:(lia)) as Hm. pose proof (Z.div_mod n 10 ltac:(lia)) as Hd.
  cbn [format_digits]. destruct (n / 10 =? 0) eqn:E.
  - apply Z.eqb_eq in E. split; [repeat constructor; apply digit_byte_digit; lia|].
    cbn. rewrite digit_byte_value by lia. lia.
  - rewrite Nat2Z.inj_succ, Z.pow_succ_r in Hn by lia.
    destruct (IH (n / 10)) as [Ha Hv].
    { split; [apply Z.div_pos; lia|apply Z.div_lt_upper_bound; lia]. }
    rewrite format_digits_app. split.
    + apply Forall_app; split; [done|]. repeat constructor. apply digit_byte_digit; lia.
    + unfold read_digits in *. rewrite foldl_app, Hv. cbn. rewrite digit_byte_value by lia. lia.
Qed.

Lemma format_digits_cons fuel n : fuel ≠ O → format_digits fuel n [] ≠ [].
Proof.
  destruct fuel as [|fuel]; [done|]. intros _. cbn. destruct (_ =? 0); [done|].
  rewrite format_digits_app. by destruct (format_digits fuel (n / 10) []).
Qed.

Lemma FormatInt_cons n : FormatInt n ≠ [].
Proof. by apply format_digits_cons. Qed.
Lemma FormatInt_digits n : 0 ≤ n ≤ int64_max → all_digits (FormatInt n).
Proof. intros. apply format_digits_spec. unfold int64_max in *. cbn. lia. Qed.
Lemma FormatInt_read n : 0 ≤ n ≤ int64_max → read_digits 0 (FormatInt n) = n.
Proof. intros. apply format_digits_spec. unfold int64_max in *. cbn. lia. Qed.
#[export] Hint Resolve FormatInt_cons FormatInt_digits FormatInt_read : spin.

Lemma all_digits_forallb s : all_digits s → forallb is_digit s = true.
Proof. intros H. apply forallb_forall. intros c Hc%list_elem_of_In.
  by apply (proj1 (Forall_forall _ _) H). Qed.

Lemma is_digit_ne c d : is_digit c = true → is_digit d = false → c ≠ d.
Proof. congruence. Qed.

(** [ParseInt] reads what [FormatInt] writes. *)
Lemma ParseInt_FormatInt n : 0 ≤ n ≤ int64_max → ParseInt (FormatInt n) = Some n.
Proof.
  intros Hn. pose proof (FormatInt_digits n Hn) as Hd. pose proof (FormatInt_read n Hn) as Hr.
  pose proof (FormatInt_cons n) as Hc. unfold ParseInt.
  destruct (FormatInt n) as [|c s] eqn:E; [done|]. pose proof (Forall_inv Hd) as Hc0.
  rewrite !decide_False by (apply is_digit_ne; done).
  rewrite all_digits_forallb by done. cbn [negb].
  change (digits_value (c :: s)) with (read_digits 0 (c :: s)). rewrite Hr.
  unfold int64_min in *. replace ((n <? - 2 ^ 63) || (n >? int64_max)) with false; [done|].
  lia.
Qed.

Definition no_digit (s : bytes) : Prop := ∀ c, head s = Some c → is_digit c = false.

Lemma leadingInt_digits x s r :
  all_digits s → no_digit r → 0 ≤ x → read_digits x s ≤ 2 ^ 63 →
  leadingInt x (s ++ r) = Some (read_digits x s, r).
Proof.
  intros Hs Hr. revert x. induction Hs as [|c s Hc Hs IH]; intros x Hx Hle; cbn [app].
  - destruct r as [|c r]; cbn; [done|]. by rewrite (Hr c).
  - cbn [leadingInt]. rewrite Hc. pose proof (is_digit_value _ Hc).
    change (read_digits x (c :: s)) with (read_digits (x * 10 + digit_value c) s) in *.
    pose proof (read_digits_mono (x * 10 + digit_value c) s Hs ltac:(lia)).
    replace (x >? 2 ^ 63 / 10) with false.
    2:{ symmetry. rewrite Z.gtb_ltb. apply Z.ltb_ge. apply Z.div_le_lower_bound; lia. }
    replace (x * 10 + digit_value c >? 2 ^ 63) with false by (symmetry; rewrite Z.gtb_ltb; apply Z.ltb_ge; lia).
    apply IH; lia.
Qed.

(** ** Reading back components *)

(** [u] names the unit of [unit] nanoseconds. *)
Definition is_unit (u : bytes) (unit : Z) : Prop :=
  unitMap u = Some unit ∧ u ≠ [] ∧ Forall (λ c, unit_byte c = true) u.
Definition no_unit (r : bytes) : Prop := ∀ c, head r = Some c → unit_byte c = false.

Lemma span_unit_app u r :
  Forall (λ c, unit_byte c = true) u → no_unit r → span_unit (u ++ r) = (u, r).
Proof.
  intros Hu Hr. induction Hu as [|c u Hc Hu IH]; cbn [app span_unit].
  - destruct r as [|c r]; [done|]. cbn. by rewrite (Hr c).
  - by rewrite Hc, IH.
Qed.

Lemma component_spec n s1 f scale post u r unit :
  0 ≤ n ≤ int64_max → no_digit s1 → fraction s1 = (f, scale, post, u ++ r) →
  is_unit u unit → no_unit r →
  component (FormatInt n ++ s1) = (z ← scaled n f scale unit; Some (z, r)).
Proof.
  intros Hn Hs1 Hf (Hmap & Hne & Hu) Hr.
  pose proof (FormatInt_digits n Hn) as Hd. pose proof (FormatInt_read n Hn) as Hv.
  unfold component. destruct (FormatInt n ++ s1) as [|c s] eqn:E.
  { apply app_eq_nil in E as [E _]. by apply FormatInt_cons in E. }
  replace (is_digit c) with true.
  2:{ destruct (FormatInt n) as [|c' ds] eqn:E'; [by apply FormatInt_cons in E'|].
      simplify_eq/=. symmetry. by apply Forall_inv in Hd. }
  rewrite orb_true_r. cbn [negb]. rewrite <- E.
  rewrite leadingInt_digits by (unfold int64_max in *; done || lia). rewrite Hv. cbn [mbind option_bind].
  rewrite Hf. replace (length (FormatInt n ++ s1) =? length s1)%nat with false.
  2:{ symmetry. apply Nat.eqb_neq. rewrite length_app. pose proof (FormatInt_cons n).
      destruct (FormatInt n); [done|cbn; lia]. }
  cbn [negb andb]. rewrite span_unit_app by done. rewrite Hmap. by destruct u.
Qed.

Lemma unit_no_digit u unit r : is_unit u unit → no_digit (u ++ r).
Proof.
  intros (_ & Hne & Hu). destruct Hu as [|c u Hc Hu]; [done|]. intros d Hd. simplify_eq/=.
  unfold unit_byte in Hc. apply negb_true_iff, orb_false_iff in Hc. apply Hc.
Qed.

Lemma fraction_unit u unit r : is_unit u unit → fraction (u ++ r) = (0, f_of_Z 1, false, u ++ r).
Proof.
  intros (_ & Hne & Hu). destruct Hu as [|c u Hc Hu]; [done|]. unfold fraction. cbn [app].
  unfold unit_byte in Hc. bool_to_prop. by rewrite decide_False by done.
Qed.

Lemma scaled_int n scale unit : n ≤ 2 ^ 63 / unit → scaled n 0 scale unit = Some (n * unit).
Proof. intros H. unfold scaled. rewrite Z.gtb_ltb. by rewrite (proj2 (Z.ltb_ge _ _) H). Qed.

(** A component without a fraction. *)
Lemma component_int n u r unit :
  0 ≤ n ≤ int64_max → n ≤ 2 ^ 63 / unit → is_unit u unit → no_unit r →
  component (FormatInt n ++ u ++ r) = Some (n * unit, r).
Proof.
  intros Hn Hle Hu Hr. erewrite component_spec; eauto using unit_no_digit, fraction_unit.
  by rewrite scaled_int.
Qed.

(** ** Reading back fractions *)

Lemma read_digits_snoc x s c : read_digits x (s ++ [c]) = read_digits x s * 10 + digit_value c.
Proof. unfold read_digits. by rewrite foldl_app. Qed.

Lemma read_digits_bound s : all_digits s → 0 ≤ read_digits 0 s < 10 ^ Z.of_nat (length s).
Proof.
  induction s as [|c s IH] using rev_ind; [cbn; lia|]. intros [Hs [Hc _]%Forall_cons]%Forall_app.
  specialize (IH Hs).
  rewrite read_digits_snoc, length_app. cbn [length]. rewrite Nat.add_1_r, Nat2Z.inj_succ, Z.pow_succ_r by lia.
  pose proof (is_digit_value _ Hc). lia.
Qed.

Lemma mod_pow_succ v p :
  0 ≤ p → v mod 10 ^ (p + 1) = (v / 10) mod 10 ^ p * 10 + v mod 10.
Proof.
  intros. rewrite Z.pow_add_r, (Z.mul_comm (10 ^ p)), Z.pow_1_r by lia.
  rewrite Z.rem_mul_r by (try apply Z.pow_nonzero; lia || (apply Z.pow_pos_nonneg; lia)). lia.
Qed.

Lemma div_pow_succ v p : 0 ≤ p → v / 10 / 10 ^ p = v / 10 ^ (p + 1).
Proof.
  intros. rewrite Z.pow_add_r, (Z.mul_comm (10 ^ p)), Z.pow_1_r by lia.
  apply Z.div_div; [lia|apply Z.pow_pos_nonneg; lia].
Qed.

(** Once a digit is written, all the higher ones are. *)
Lemma frac_digits_all prec v acc :
  ∃ ds, frac_digits prec v true acc = (ds ++ acc, true, v / 10 ^ Z.of_nat prec) ∧
    all_digits ds ∧ length ds = prec ∧ read_digits 0 ds = v mod 10 ^ Z.of_nat prec.
Proof.
  revert v acc. induction prec as [|prec IH]; intros v acc.
  - exists []. cbn. rewrite Z.div_1_r, Z.mod_1_r. repeat split; constructor.
  - cbn [frac_digits orb]. destruct (IH (v / 10) (digit_byte (v mod 10) :: acc)) as (ds & -> & Hd & Hl & Hr).
    pose proof (Z.mod_pos_bound v 10 ltac:(lia)).
    exists (ds ++ [digit_byte (v mod 10)]). rewrite <- app_assoc, Nat2Z.inj_succ. unfold Z.succ. split_and!.
    + by rewrite div_pow_succ by lia.
    + apply Forall_app; split; [done|]. repeat constructor. apply digit_byte_digit. lia.
    + rewrite length_app. cbn. lia.
    + rewrite read_digits_snoc, Hr, digit_byte_value, mod_pow_succ by lia. done.
Qed.

(** The digits written are those of [v mod 10^prec] without its trailing zeros. *)
Lemma frac_digits_spec prec v acc :
  ∃ ds, frac_digits prec v false acc = (ds ++ acc, negb (v mod 10 ^ Z.of_nat prec =? 0), v / 10 ^ Z.of_nat prec) ∧
    all_digits ds ∧ (length ds ≤ prec)%nat ∧ (ds = [] ↔ v mod 10 ^ Z.of_nat prec = 0) ∧
    read_digits 0 ds * 10 ^ (Z.of_nat prec - Z.of_nat (length ds)) = v mod 10 ^ Z.of_nat prec.
Proof.
  revert v acc. induction prec as [|prec IH]; intros v acc.
  - exists []. cbn. rewrite Z.div_1_r, Z.mod_1_r. repeat split; done || constructor.
  - cbn [frac_digits orb]. pose proof (Z.mod_pos_bound v 10 ltac:(lia)).
    rewrite Nat2Z.inj_succ. unfold Z.succ. rewrite <- div_pow_succ, mod_pow_succ by lia.
    destruct (v mod 10 =? 0) eqn:E; cbn [negb].
    + apply Z.eqb_eq in E. rewrite E, Z.add_0_r.
      destruct (IH (v / 10) acc) as (ds & -> & Hd & Hl & Hz & Hr). exists ds.
      split_and!; [|done|lia|rewrite Hz; lia|].
      * do 2 f_equal. f_equal. lia.
      * rewrite <- Hr. replace (Z.of_nat prec + 1 - Z.of_nat (length ds))
          with (Z.of_nat prec - Z.of_nat (length ds) + 1) by lia.
        rewrite Z.pow_add_r by lia. lia.
    + apply Z.eqb_neq in E.
      destruct (frac_digits_all prec (v / 10) (digit_byte (v mod 10) :: acc)) as (ds & -> & Hd & Hl & Hr).
      pose proof (Z.mod_pos_bound (v / 10) (10 ^ Z.of_nat prec) ltac:(apply Z.pow_pos_nonneg; lia)).
      exists (ds ++ [digit_byte (v mod 10)]). rewrite <- app_assoc. split_and!.
      * do 2 f_equal. f_equal. symmetry. apply negb_true_iff, Z.eqb_neq. lia.
      * apply Forall_app; split; [done|]. repeat constructor. apply digit_byte_digit. lia.
      * rewrite length_app. cbn. lia.
      * split; [by destruct ds|lia].
      * rewrite read_digits_snoc, Hr, digit_byte_value, length_app, Hl by lia. cbn [length].
        rewrite Nat.add_1_r, Nat2Z.inj_succ. unfold Z.succ. rewrite Z.sub_diag. lia.
Qed.

Lemma scale_step k :
  (k < 15)%nat → f_mul (f_of_Z (10 ^ Z.of_nat k)) (f_of_Z 10) = f_of_Z (10 ^ Z.of_nat (S k)).
Proof. intros Hk. do 15 (destruct k as [|k]; [by vm_compute|]). lia. Qed.

Lemma leadingFraction_digits k x s r :
  all_digits s → no_digit r → (k + length s ≤ 15)%nat → 0 ≤ x < 10 ^ Z.of_nat k →
  leadingFraction x (f_of_Z (10 ^ Z.of_nat k)) false (s ++ r)
  = (read_digits x s, f_of_Z (10 ^ Z.of_nat (k + length s)), r).
Proof.
  intros Hs Hr. revert k x. induction Hs as [|c s Hc Hs IH]; intros k x Hk Hx; cbn [app].
  - rewrite Nat.add_0_r. destruct r as [|c r]; cbn; [done|]. by rewrite (Hr c).
  - cbn [leadingFraction length] in *. rewrite Hc. pose proof (is_digit_value _ Hc).
    assert (x * 10 + digit_value c < 10 ^ Z.of_nat (S k)).
    { rewrite Nat2Z.inj_succ, Z.pow_succ_r by lia. lia. }
    assert (10 ^ Z.of_nat (S k) ≤ 10 ^ 15) by (apply Z.pow_le_mono_r; lia).
    replace (x >? (2 ^ 63 - 1) / 10) with false.
    2:{ symmetry. rewrite Z.gtb_ltb. apply Z.ltb_ge, Z.div_le_lower_bound; lia. }
    replace (x * 10 + digit_value c >? 2 ^ 63) with false by lia.
    rewrite scale_step, IH by lia. do 2 f_equal. f_equal. f_equal. lia.
Qed.

Lemma scale_div prec k :
  (k ≤ prec ≤ 6)%nat →
  f_div (f_of_Z (10 ^ Z.of_nat prec)) (f_of_Z (10 ^ Z.of_nat k)) = f_of_Z (10 ^ (Z.of_nat prec - Z.of_nat k)).
Proof.
  intros H. do 7 (destruct prec as [|prec]; [do 7 (destruct k as [|k]; [lia || by vm_compute|]); lia|]). lia.
Qed.

Lemma fraction_digits s u unit r :
  all_digits s → s ≠ [] → (length s ≤ 15)%nat → is_unit u unit →
  fraction ("."%char :: s ++ u ++ r) = (read_digits 0 s, f_of_Z (10 ^ Z.of_nat (length s)), true, u ++ r).
Proof.
  intros Hs Hne Hl Hu. unfold fraction. rewrite decide_True by done.
  pose proof (leadingFraction_digits 0 0 s (u ++ r) Hs (unit_no_digit _ _ _ Hu) ltac:(lia) ltac:(cbn; lia)) as H.
  change (10 ^ Z.of_nat 0) with 1 in H. rewrite H. cbn [Nat.add].
  replace (length (s ++ u ++ r) =? length (u ++ r))%nat with false; [done|].
  symmetry. apply Nat.eqb_neq. rewrite (length_app s). destruct s; [done|cbn; lia].
Qed.

(** A number of [10^-prec] units written with [fmtFrac] and [fmtInt] is read back exactly. *)
Lemma component_frac prec v u unit :
  (prec ≤ 6)%nat → unit = 10 ^ Z.of_nat prec → 0 < v < Second → is_unit u unit →
  component (let '(acc, n) := fmtFrac prec v u in fmtInt n acc) = Some (v, []).
Proof.
  intros Hp -> Hv Hu. unfold fmtFrac, fmtInt, Second, Millisecond in *. set (b := 10 ^ Z.of_nat prec) in *.
  destruct (frac_digits_spec prec v u) as (ds & -> & Hd & Hl & Hz & Hr). fold b in Hz, Hr |- *.
  assert (1 ≤ b) by (unfold b; pose proof (Z.pow_pos_nonneg 10 (Z.of_nat prec)); lia).
  assert (0 ≤ v / b ≤ v) as Hq by (split; [apply Z.div_pos; lia|apply Z.div_le_upper_bound; nia]).
  assert (v / b ≤ 2 ^ 63 / b) by (apply Z.div_le_mono; lia).
  pose proof (Z.div_mod v b ltac:(lia)) as Hdm. pose proof (Z.mod_pos_bound v b ltac:(lia)).
  destruct (v mod b =? 0) eqn:E; cbn [negb].
  - apply Z.eqb_eq in E. rewrite (proj2 Hz E). cbn [app]. rewrite <- (app_nil_r u).
    rewrite (component_int _ _ _ b) by (done || unfold int64_max; lia). do 2 f_equal. lia.
  - apply Z.eqb_neq in E. rewrite <- (app_nil_r u).
    assert (ds ≠ []) by (by rewrite Hz).
    rewrite (component_spec _ _ (read_digits 0 ds) (f_of_Z (10 ^ Z.of_nat (length ds))) true u [] b);
      [|unfold int64_max; lia|by intros ? [= <-]|apply (fraction_digits _ _ b); done || lia|done|done].
    unfold scaled. rewrite Z.gtb_ltb. rewrite (proj2 (Z.ltb_ge _ _)) by done.
    pose proof (Z.pow_pos_nonneg 10 (Z.of_nat prec - Z.of_nat (length ds)) ltac:(lia) ltac:(lia)).
    assert (v mod b ≤ v) by (apply Z.mod_le; lia).
    assert (0 < read_digits 0 ds) by nia. replace (_ >? 0) with true by lia.
    unfold b. rewrite scale_div by lia. fold b.
    rewrite f_mul_exact by lia. rewrite Hr, f_trunc_exact by lia.
    replace (_ >? 2 ^ 63) with false by lia. cbn. do 2 f_equal. lia.
Qed.

Lemma is_unit_ns : is_unit (bs "ns") 1.
Proof. by repeat constructor. Qed.
Lemma is_unit_us : is_unit (micro_sign ++ bs "s") Microsecond.
Proof. by repeat constructor. Qed.
Lemma is_unit_ms : is_unit (bs "ms") Millisecond.
Proof. by repeat constructor. Qed.
Lemma is_unit_s : is_unit (bs "s") Second.
Proof. by repeat constructor. Qed.
Lemma is_unit_m : is_unit (bs "m") Minute.
Proof. by repeat constructor. Qed.
Lemma is_unit_h : is_unit (bs "h") Hour.
Proof. by repeat constructor. Qed.
#[export] Hint Resolve is_unit_ns is_unit_us is_unit_ms is_unit_s is_unit_m is_unit_h : spin.

(** Below a second, one component is written, and read back. *)
Lemma component_time_String v : 0 < v < Second → component (time_String v) = Some (v, []).
Proof.
  intros Hv. unfold time_String, Duration_format. replace (v <? 0) with false by lia.
  replace (v <? Second) with true by lia. replace (v =? 0) with false by lia.
  destruct (v <? Microsecond); [|destruct (v <? Millisecond)];
    eapply component_frac; auto with spin; done || lia.
Qed.

Lemma components_step fuel d s x r :
  component s = Some (x, r) → 0 ≤ x → d + x ≤ 2 ^ 63 →
  components (S fuel) d s = components fuel (d + x) r.
Proof.
  intros Hc Hx Hd. destruct s as [|c s]; [done|]. cbn [components]. rewrite Hc. cbn [mbind option_bind].
  by replace (d + x >? 2 ^ 63) with false by lia.
Qed.
