(* ===== verification/Durationx.v ===== *)
(** * internal/pkg/durationx: human-friendly durations

    [Parse] and [String] of durationx.go, the conversion from integer
    milliseconds and the YAML decoder.  [Permanent], [IsPermanent] and
    [Milliseconds] are in [PolicyBase].  The main theorem is the round trip:
    what [String] writes, [Parse] reads back, for exactly the durations that
    [Parse] can return. *)

From S2P Require Import Prelude GoStrings GoFloat PolicyBase GoTime.

Local Open Scope Z_scope.

Definition day : Z := 24 * Hour.
Definition maxDuration : Z := 2 ^ 63 - 1.
Definition maxMillis : Z := maxDuration / Millisecond.

Inductive DurationError :=
| NegativeDuration
| DurationOverflows
| InvalidDuration
| NotScalar.

(** [strings.ToLower(s) == "permanent"]: no rune outside ASCII has the lower
    case of one of these letters. *)
Definition is_permanent_keyword (s : bytes) : bool :=
  bool_decide (ascii_lower <$> s = bs "permanent").

(** The leading [<n>d] component and the rest: unchanged when there is none. *)
Definition leading_days (s : bytes) : result DurationError (Z * bytes) :=
  match index_byte "d" s with
  | Some (S i) =>
      match ParseInt (take (S i) s) with
      | Some n =>
          if n >? maxDuration / day then Err DurationOverflows
          else Ok (n * day, drop (S i + 1) s)
      | None => Ok (0, s)
      end
  | _ => Ok (0, s)
  end.

Definition Parse (s : bytes) : result DurationError Z :=
  let s := TrimSpace s in
  if bool_decide (s = []) || bool_decide (s = bs "0") then Ok 0
  else if is_permanent_keyword s then Ok Permanent
  else if has_prefix s (bs "-") then Err NegativeDuration
  else
    result_bind (leading_days s) (λ '(total, rest),
      match rest with
      | [] => Ok total
      | _ =>
          match ParseDuration rest with
          | None => Err InvalidDuration
          | Some d =>
              if d <? 0 then Err NegativeDuration
              else if total >? maxDuration - d then Err DurationOverflows
              else Ok (total + d)
          end
      end).

(** One of the [if n := td / size; n > 0] steps of [String]. *)
Definition write_unit (size : Z) (name : bytes) '((b, td) : bytes * Z) : bytes * Z :=
  let n := Z.quot td size in
  if n >? 0 then (b ++ FormatInt n ++ name, td - n * size) else (b, td).

Definition Duration_String (d : Z) : bytes :=
  if IsPermanent d then bs "permanent"
  else if d =? 0 then bs "0s"
  else if d <? 0 then time_String d
  else
    let '(b, td) :=
      write_unit Second (bs "s") (write_unit Minute (bs "m")
        (write_unit Hour (bs "h") (write_unit day (bs "d") ([], d)))) in
    if td >? 0 then
      if Z.rem td Millisecond =? 0 then b ++ FormatInt (Z.quot td Millisecond) ++ bs "ms"
      else b ++ time_String td
    else b.

Definition fromMillis (ms : Z) : result DurationError Z :=
  if ms =? -1 then Ok Permanent
  else if ms <? -1 then Err NegativeDuration
  else if ms >? maxMillis then Err DurationOverflows
  else Ok (ms * Millisecond).

(** What [UnmarshalYAML] reads of a [yaml.Node]: its kind, the tag that
    [ShortTag] resolves and its text. *)
Record Node := {
  node_scalar : bool;
  node_ShortTag : string;
  node_Value : bytes;
}.

Definition MarshalYAML (d : Z) : bytes := Duration_String d.
Definition UnmarshalYAML (node : Node) : result DurationError Z :=
  if negb (node_scalar node) then Err NotScalar
  else if String.eqb (node_ShortTag node) "!!int" then
    match ParseInt (node_Value node) with
    | None => Err InvalidDuration
    | Some ms => fromMillis ms
    end
  else Parse (node_Value node).

Example Parse_ex1 : Parse (bs " 1d12h30m5s ") = Ok (36 * Hour + 30 * Minute + 5 * Second).
Proof. vm_compute. reflexivity. Qed.
Example Parse_ex2 : Parse (bs "7d-1h") = Err NegativeDuration ∧ Parse (bs "1.5d") = Err InvalidDuration ∧
  Parse (bs "106752d") = Err DurationOverflows ∧ Parse (bs "PERMANENT") = Ok Permanent ∧
  Parse (bs "99999999999999999999d") = Err InvalidDuration ∧ Parse (bs "7dd") = Err InvalidDuration.
Proof. vm_compute. auto 10. Qed.
Example Parse_ex3 : Parse (bs "106751d23h47m16s854ms776us") = Err DurationOverflows.
Proof. vm_compute. reflexivity. Qed.
Example String_ex : Duration_String (36 * Hour + 5 * Second + 20 * Millisecond) = bs "1d12h5s20ms" ∧
  Duration_String (1500 * Microsecond) = bs "1.5ms" ∧ Duration_String (-2 * Second) = bs "-2s".
Proof. vm_compute. auto. Qed.
Example UnmarshalYAML_ex :
  UnmarshalYAML {| node_scalar := true; node_ShortTag := "!!int"; node_Value := bs "1500" |} = Ok (1500 * Millisecond).
Proof. vm_compute. reflexivity. Qed.

(** ** The range of [Parse] *)

Definition valid_duration (d : Z) : Prop := d = Permanent ∨ 0 ≤ d ≤ maxDuration.

Lemma digits_value_nonneg s : forallb is_digit s = true → 0 ≤ digits_value s.
Proof.
  intros H. apply (read_digits_mono 0 s); [|lia]. apply Forall_forall.
  intros c Hc. by eapply forallb_forall in H; [|apply list_elem_of_In].
Qed.

Lemma ParseInt_sign c s n : ParseInt (c :: s) = Some n → c ≠ "-"%char → 0 ≤ n.
Proof.
  intros H Hm. unfold ParseInt in H. rewrite decide_False in H by done.
  destruct (decide (c = "+"%char)); repeat case_match; simplify_eq; bool_to_prop;
    by apply digits_value_nonneg.
Qed.

Lemma leading_days_nonneg s total rest :
  leading_days s = Ok (total, rest) → has_prefix s (bs "-") = false → 0 ≤ total ≤ maxDuration.
Proof.
  unfold leading_days. intros H Hm. unfold maxDuration.
  destruct (index_byte "d" s) as [[|i]|]; simplify_eq; try lia.
  destruct s as [|c s]; [simplify_eq/=; lia|]. cbn [take] in H. cbn [has_prefix bs String.list_ascii_of_string] in Hm.
  destruct (ParseInt (c :: take i s)) as [n|] eqn:E; simplify_eq; try lia.
  apply ParseInt_sign in E; [|intros ->; by rewrite bool_decide_eq_true_2 in Hm].
  destruct (n >? maxDuration / day) eqn:E'; simplify_eq.
  change (maxDuration / day) with 106751 in E'. unfold day, Hour, Minute, Second, Millisecond in *. lia.
Qed.

Lemma Parse_range s d : Parse s = Ok d → valid_duration d.
Proof.
  unfold Parse. intros H. unfold valid_duration, maxDuration.
  destruct (_ || _); [simplify_eq; lia|]. destruct (is_permanent_keyword _); [simplify_eq; auto|].
  destruct (has_prefix _ _) eqn:Hm; [done|].
  apply result_bind_ok in H as ([total rest] & Hd & H). apply leading_days_nonneg in Hd; [|done].
  unfold maxDuration in *. destruct rest; [simplify_eq; lia|].
  destruct (ParseDuration _) as [d'|]; [|done].
  destruct (d' <? 0) eqn:?; [done|]. destruct (_ >? _) eqn:?; [done|]. simplify_eq. lia.
Qed.

(** ** Reading back what [String] writes *)

Definition part (n : Z) (u : bytes) : bytes := if n >? 0 then FormatInt n ++ u else [].

Lemma write_unit_part size name b td :
  0 < size → 0 ≤ td → write_unit size name (b, td) = (b ++ part (td / size) name, td mod size).
Proof.
  intros Hs Ht. unfold write_unit, part. rewrite Z.quot_div_nonneg by lia.
  pose proof (Z.div_mod td size ltac:(lia)). pose proof (Z.div_pos td size Ht Hs).
  destruct (_ >? 0) eqn:E; [f_equal; lia|]. rewrite app_nil_r. f_equal.
  replace (td / size) with 0 in * by lia. lia.
Qed.

(** The part of [String] below a second. *)
Definition sub_second (td : Z) : bytes :=
  if td >? 0 then
    if td mod Millisecond =? 0 then FormatInt (td / Millisecond) ++ bs "ms" else time_String td
  else [].

Definition below_day (d : Z) : bytes :=
  part (d / Hour) (bs "h") ++ part (d mod Hour / Minute) (bs "m") ++
  part (d mod Minute / Second) (bs "s") ++ sub_second (d mod Second).

Lemma Duration_String_parts d :
  0 < d → Duration_String d = part (d / day) (bs "d") ++ below_day (d mod day).
Proof.
  intros Hd. unfold Duration_String, IsPermanent, Permanent.
  replace (d =? -1) with false by lia. replace (d =? 0) with false by lia. replace (d <? 0) with false by lia.
  assert (0 ≤ d mod day) by (apply Z.mod_pos_bound; done).
  assert (0 ≤ d mod day mod Hour) by (apply Z.mod_pos_bound; done).
  assert (0 ≤ d mod day mod Minute) by (apply Z.mod_pos_bound; done).
  assert (0 ≤ d mod day mod Second) by (apply Z.mod_pos_bound; done).
  assert (d mod day mod Hour mod Minute = d mod day mod Minute) as Hm.
  { apply Z.mod_mod_divide. by exists 60. }
  assert (d mod day mod Minute mod Second = d mod day mod Second) as Hs.
  { apply Z.mod_mod_divide. by exists 60. }
  rewrite write_unit_part by (done || lia). rewrite write_unit_part by done.
  rewrite write_unit_part by done. rewrite Hm, write_unit_part by done. rewrite Hs.
  unfold below_day, sub_second. rewrite Z.rem_mod_nonneg, Z.quot_div_nonneg by done.
  rewrite !app_nil_l, <- !app_assoc.
  destruct (_ >? 0); [destruct (_ =? 0)|]; by rewrite <- ?app_assoc, ?app_nil_r.
Qed.

(** [r] is a sequence of components worth [x], for the reader of [time.ParseDuration]. *)
Definition reads (r : bytes) (x : Z) : Prop :=
  no_unit r ∧ 0 ≤ x ∧
  ∀ fuel d, (length r ≤ fuel)%nat → 0 ≤ d → d + x ≤ 2 ^ 63 → components fuel d r = Some (d + x).

Lemma reads_nil : reads [] 0.
Proof.
  split_and!; [done|done|]. intros [|fuel] d ???; cbn; f_equal; lia.
Qed.

Lemma component_no_unit s y : component s = Some y → no_unit s.
Proof.
  intros H c Hc. destruct s as [|c' s]; [done|]. cbn in Hc. simplify_eq.
  unfold component in H. unfold unit_byte. by destruct (negb _).
Qed.

Lemma reads_component s x r y :
  component s = Some (x, r) → (length r < length s)%nat → 0 ≤ x → reads r y → reads s (x + y).
Proof.
  intros Hc Hl Hx (Hr & Hy & Hread). split_and!; [by eapply component_no_unit|lia|].
  intros fuel d Hf Hd Hle. destruct fuel as [|fuel]; [lia|].
  rewrite (components_step _ _ _ x r), Hread by (done || lia). f_equal. lia.
Qed.

Lemma reads_part n u unit r y :
  is_unit u unit → 0 < unit → 0 ≤ n ≤ int64_max → n ≤ 2 ^ 63 / unit → reads r y →
  reads (part n u ++ r) (n * unit + y).
Proof.
  intros Hu Hpos Hn Hle Hr. unfold part. destruct (n >? 0) eqn:E.
  - eapply reads_component; [|..|exact Hr]; [|rewrite !length_app|lia].
    + rewrite <- app_assoc. apply component_int; [done..|apply Hr].
    + pose proof (FormatInt_cons n). destruct (FormatInt n); [done|cbn; lia].
  - replace n with 0 by lia. done.
Qed.

Lemma reads_sub_second td : 0 ≤ td < Second → reads (sub_second td) td.
Proof.
  intros Ht. unfold sub_second. destruct (td >? 0) eqn:E; [|replace td with 0 by lia; apply reads_nil].
  rewrite <- (Z.add_0_r td) at 4. destruct (td mod Millisecond =? 0) eqn:E'.
  - apply Z.eqb_eq in E'. pose proof (Z.div_mod td Millisecond ltac:(done)).
    unfold Second, Millisecond in *.
    eapply reads_component; [| |lia|apply reads_nil].
    + rewrite <- (app_nil_r (bs _)), (component_int _ _ _ 1000000);
        [do 2 f_equal; lia|unfold int64_max; lia|apply Z.div_le_mono; lia|apply is_unit_ms|done].
    + rewrite length_app. cbn. lia.
  - eapply reads_component; [by apply component_time_String; lia| |lia|apply reads_nil].
    pose proof (component_time_String td ltac:(lia)). by destruct (time_String td); [|cbn; lia].
Qed.

Lemma div_bounds a size :
  0 ≤ a ≤ int64_max → 0 < size → (0 ≤ a / size ≤ int64_max) ∧ a / size ≤ 2 ^ 63 / size.
Proof.
  intros Ha Hs. split; [split; [apply Z.div_pos; lia|apply Z.div_le_upper_bound; nia]|].
  apply Z.div_le_mono; unfold int64_max in *; lia.
Qed.

Lemma reads_below_day d : 0 ≤ d < day → reads (below_day d) d.
Proof.
  intros Hd. unfold below_day.
  pose proof (Z.mod_pos_bound d Hour ltac:(done)). pose proof (Z.mod_pos_bound d Minute ltac:(done)).
  pose proof (Z.mod_pos_bound d Second ltac:(done)).
  replace d with (d / Hour * Hour + (d mod Hour / Minute * Minute + (d mod Minute / Second * Second + d mod Second))) at 5.
  2:{ assert (d mod Hour mod Minute = d mod Minute) by (apply Z.mod_mod_divide; by exists 60).
      assert (d mod Minute mod Second = d mod Second) by (apply Z.mod_mod_divide; by exists 60).
      pose proof (Z.div_mod d Hour ltac:(done)). pose proof (Z.div_mod (d mod Hour) Minute ltac:(done)).
      pose proof (Z.div_mod (d mod Minute) Second ltac:(done)). lia. }
  assert (day ≤ int64_max ∧ Hour ≤ int64_max ∧ Minute ≤ int64_max) as (? & ? & ?) by done.
  repeat (apply reads_part; [auto with spin|done|apply div_bounds; done || lia..|]).
  by apply reads_sub_second.
Qed.

Lemma ParseDuration_reads r x : reads r x → r ≠ [] → x ≤ maxDuration → ParseDuration r = Some x.
Proof.
  intros (Hr & Hx & Hread) Hne Hle. unfold maxDuration in *. destruct r as [|c r]; [done|].
  pose proof (Hr c eq_refl) as Hc. unfold ParseDuration.
  assert (c ≠ "-"%char ∧ c ≠ "+"%char) as [] by (split; intros ->; done).
  rewrite !decide_False by done. destruct (bool_decide (c :: r = bs "0")) eqn:E.
  - bool_to_prop. rewrite E in Hread. pose proof (Hread 1%nat 0 ltac:(done) ltac:(lia) ltac:(lia)). done.
  - rewrite Hread by lia. cbn [mbind option_bind]. rewrite Z.add_0_l.
    by replace (x >? 2 ^ 63 - 1) with false by lia.
Qed.

(** Text without a day that ends in the last letter of a unit. *)
Definition tail_ok (s : bytes) : bool :=
  bool_decide ("d"%char ∉ s) && from_option (λ c, bool_decide (c ∈ bs "dhms")) true (last s).

Lemma tail_ok_app s t : tail_ok s → tail_ok t → tail_ok (s ++ t).
Proof.
  unfold tail_ok. rewrite !andb_True, !bool_decide_spec, elem_of_app. intros [Hs Hs'] [Ht Ht'].
  split; [by intros []|]. rewrite last_app. by destruct (last t).
Qed.

Lemma digits_no_d s : all_digits s → "d"%char ∉ s.
Proof. intros Hs Hd. by apply (proj1 (Forall_forall _ _) Hs) in Hd. Qed.

Lemma tail_ok_number n q u :
  0 ≤ n ≤ int64_max → "d"%char ∉ q → tail_ok u → u ≠ [] → tail_ok (FormatInt n ++ q ++ u).
Proof.
  intros Hn Hq Hu Hne. unfold tail_ok in *. rewrite andb_True, bool_decide_spec in *.
  rewrite !elem_of_app, !last_app. split.
  - intros [H|[H|H]]; [|done|by apply Hu]. by apply digits_no_d in H; [|apply FormatInt_digits].
  - destruct (last u) eqn:E; [apply Hu|by apply last_None in E].
Qed.

Lemma tail_ok_part n u : 0 ≤ n ≤ int64_max → tail_ok u → u ≠ [] → tail_ok (part n u).
Proof.
  intros. unfold part. destruct (n >? 0); [|done]. by apply (tail_ok_number _ []); [|apply not_elem_of_nil|..].
Qed.

Lemma tail_ok_frac prec v u :
  0 ≤ v ≤ int64_max → tail_ok u → u ≠ [] → tail_ok (let '(acc, n) := fmtFrac prec v u in fmtInt n acc).
Proof.
  intros Hv Hu Hne. unfold fmtFrac, fmtInt.
  destruct (frac_digits_spec prec v u) as (ds & -> & Hd & _).
  pose proof (digits_no_d _ Hd). pose proof (Z.pow_pos_nonneg 10 (Z.of_nat prec) ltac:(lia) ltac:(lia)).
  destruct (negb _).
  - apply (tail_ok_number _ ("."%char :: ds)); [apply div_bounds; lia|set_solver|done..].
  - apply tail_ok_number; [apply div_bounds; lia|done..].
Qed.

Lemma tail_ok_sub_second td : 0 ≤ td < Second → tail_ok (sub_second td).
Proof.
  intros Ht. assert (Second ≤ int64_max) by done.
  unfold sub_second. destruct (td >? 0) eqn:E; [|done]. destruct (_ =? 0).
  - apply (tail_ok_number _ []); [apply div_bounds; done || lia|apply not_elem_of_nil|done..].
  - unfold time_String, Duration_format. replace (td <? 0) with false by lia.
    replace (td <? Second) with true by lia. replace (td =? 0) with false by lia.
    destruct (td <? Microsecond); [|destruct (td <? Millisecond)]; apply tail_ok_frac; done || lia.
Qed.

Lemma tail_ok_below_day d : 0 ≤ d < day → tail_ok (below_day d).
Proof.
  intros Hd. unfold below_day.
  pose proof (Z.mod_pos_bound d Hour ltac:(done)). pose proof (Z.mod_pos_bound d Minute ltac:(done)).
  pose proof (Z.mod_pos_bound d Second ltac:(done)).
  assert (day ≤ int64_max ∧ Hour ≤ int64_max ∧ Minute ≤ int64_max) as (? & ? & ?) by done.
  repeat (apply tail_ok_app; [apply tail_ok_part; [apply div_bounds; done || lia|done..]|]).
  by apply tail_ok_sub_second.
Qed.

(** [Parse] after the guards on the whole text. *)
Lemma Parse_plain s c e :
  no_unit s → head s = Some c → last s = Some e → e ∈ bs "dhms" →
  Parse s = result_bind (leading_days s) (λ '(total, rest),
    match rest with
    | [] => Ok total
    | _ =>
        match ParseDuration rest with
        | None => Err InvalidDuration
        | Some d =>
            if d <? 0 then Err NegativeDuration
            else if total >? maxDuration - d then Err DurationOverflows
            else Ok (total + d)
        end
    end).
Proof.
  intros Hu Hc He Hin. assert (c = "."%char ∨ is_digit c = true) as Hd.
  { specialize (Hu c Hc). unfold unit_byte in Hu. apply negb_false_iff, orb_true_iff in Hu as [Hu|Hu]; [|by right].
    left. by bool_to_prop. }
  assert (bval c = 46 ∨ 48 ≤ bval c ≤ 57) as Hb by (destruct Hd as [->|?%is_digit_range]; auto).
  assert (bval e < 128 ∧ IsSpace (bval e) = false ∧ e ≠ "0"%char) as (He1 & He2 & He3).
  { repeat (apply elem_of_cons in Hin as [->|Hin]; [by vm_compute|]). by apply elem_of_nil in Hin. }
  unfold Parse. rewrite (TrimSpace_id c e) by (done || lia || (unfold IsSpace; lia)).
  destruct s as [|c' s]; [done|]. cbn in Hc. simplify_eq.
  rewrite bool_decide_eq_false_2 by done. rewrite bool_decide_eq_false_2 by (intros [= -> ->]; by simplify_eq/=).
  unfold is_permanent_keyword. rewrite bool_decide_eq_false_2; cbn [orb].
  2:{ cbn. intros [= Hp _]. unfold ascii_lower, byte_in in Hp.
      replace ((65 <=? bval c) && (bval c <=? 90)) with false in Hp by lia. subst c.
      change (bval "p") with 112 in Hb. lia. }
  replace (has_prefix (c :: s) (bs "-")) with false; [done|]. cbn.
  rewrite bool_decide_eq_false_2; [done|]. intros <-. change (bval "-") with 45 in Hb. lia.
Qed.

Lemma reads_empty x : reads [] x → x ≤ maxDuration → x = 0.
Proof.
  intros (_ & Hx & H) Hle. unfold maxDuration in Hle.
  specialize (H 0%nat 0 ltac:(done) ltac:(lia) ltac:(lia)). cbn in H. by simplify_eq.
Qed.

(** The rest after the days, for the end of [Parse]. *)
Lemma Parse_rest total r x :
  reads r x → 0 ≤ total → total + x ≤ maxDuration →
  match r with
  | [] => Ok total
  | _ =>
      match ParseDuration r with
      | None => Err InvalidDuration
      | Some d =>
          if d <? 0 then Err NegativeDuration
          else if total >? maxDuration - d then Err DurationOverflows
          else Ok (total + d)
      end
  end = Ok (total + x).
Proof.
  intros Hr Ht Hle. pose proof (proj1 (proj2 Hr)). destruct r as [|c r'].
  - apply reads_empty in Hr as ->; [f_equal|]; lia.
  - rewrite (ParseDuration_reads _ x) by (done || lia).
    replace (x <? 0) with false by lia. by replace (total >? maxDuration - x) with false by lia.
Qed.

Lemma max_days : maxDuration / day ≤ int64_max.
Proof. by vm_compute. Qed.

Lemma leading_days_none s : "d"%char ∉ s → leading_days s = Ok (0, s).
Proof. intros Hs. unfold leading_days. by rewrite (proj2 (index_byte_none _ _) Hs). Qed.

Lemma leading_days_some n r :
  0 ≤ n ≤ maxDuration / day → leading_days (FormatInt n ++ "d"%char :: r) = Ok (n * day, r).
Proof.
  intros Hn. assert (0 ≤ n ≤ int64_max) as Hn'.
  { pose proof max_days. lia. }
  unfold leading_days. replace (index_byte "d" _) with (Some (length (FormatInt n))).
  2:{ symmetry. apply index_byte_some. rewrite lookup_app_r, Nat.sub_diag, take_app_length by lia.
      split; [done|]. by apply digits_no_d, FormatInt_digits. }
  destruct (length (FormatInt n)) as [|i] eqn:E; [by apply nil_length_inv, FormatInt_cons in E|].
  rewrite <- E, take_app_length, ParseInt_FormatInt by done.
  replace (n >? maxDuration / day) with false by lia.
  rewrite drop_app_ge by lia. by replace (length (FormatInt n) + 1 - length (FormatInt n))%nat with 1%nat by lia.
Qed.

Lemma Parse_String_pos d : 0 < d ≤ maxDuration → Parse (Duration_String d) = Ok d.
Proof.
  intros Hd. rewrite Duration_String_parts by lia.
  pose proof (Z.mod_pos_bound d day ltac:(done)) as Hm. pose proof (Z.div_mod d day ltac:(done)) as Hdm.
  pose proof (reads_below_day _ Hm) as Hr. pose proof (tail_ok_below_day _ Hm) as Ht.
  assert (0 ≤ d / day) by (apply Z.div_pos; done || lia).
  assert (d / day ≤ maxDuration / day) by (apply Z.div_le_mono; done || lia).
  assert (0 ≤ d / day * day) by (by apply Z.mul_nonneg_nonneg).
  set (r := below_day (d mod day)) in *. unfold tail_ok in Ht.
  apply andb_True in Ht as [Hnd%bool_decide_unpack Ht]. unfold part. destruct (d / day >? 0) eqn:E.
  - rewrite <- app_assoc. change (bs "d" ++ r) with ("d"%char :: r).
    destruct (FormatInt (d / day)) as [|c ds] eqn:Ef; [by apply FormatInt_cons in Ef|].
    pose proof (FormatInt_digits (d / day)) as Hdig. rewrite Ef in Hdig.
    assert (is_digit c = true) as Hc.
    { pose proof max_days. apply (Forall_inv (Hdig ltac:(lia))). }
    rewrite (Parse_plain _ c (default "d"%char (last r))); [| |done| |].
    + rewrite <- Ef, leading_days_some by done. cbn [result_bind].
      rewrite (Parse_rest _ _ (d mod day)) by (done || lia). f_equal. lia.
    + intros c' [= <-]. unfold unit_byte. by rewrite Hc, orb_true_r.
    + rewrite last_app. cbn. by destruct (last r) eqn:El; rewrite last_cons, El.
    + destruct (last r); [by apply bool_decide_unpack in Ht|]. by apply (bool_decide_unpack _).
  - assert (d / day = 0) as E0 by lia. rewrite E0, Z.mul_0_r in Hdm. cbn [app].
    assert (d mod day = d) as Em by lia. rewrite Em in Hr.
    destruct (last r) as [e|] eqn:El.
    2:{ apply last_None in El. rewrite El in Hr. apply reads_empty in Hr; lia. }
    destruct r as [|c r'] eqn:Er; [done|]. rewrite <- Er in *.
    rewrite (Parse_plain r c e); [|apply Hr|by rewrite Er|done|by apply bool_decide_unpack in Ht].
    rewrite leading_days_none by done. cbn [result_bind]. rewrite (Parse_rest _ _ d) by (done || lia). done.
Qed.

(** [Parse] reads back what [String] writes for the permanent duration and
    every non-negative one, to the nanosecond, and for no other value. *)
Theorem Parse_String d : Parse (Duration_String d) = Ok d ↔ valid_duration d.
Proof.
  split; [apply Parse_range|]. intros [->|[H0 Hm]]; [by vm_compute|].
  destruct (decide (d = 0)) as [->|]; [by vm_compute|]. apply Parse_String_pos. lia.
Qed.
