(* ===== verification/LuaCommon.v ===== *)
(** * The Lua prelude and the Redis structures of the site scripts

    The helpers of internal/store/redis/lua/common.lua that the scheduler
    scripts call, and the sorted sets of Redis.

    A Lua number is a double.  Millisecond times, counters and keys are integral
    and far below 2^53, so they are integers here; scores, weights and quota
    estimates are IEEE doubles.  [math.exp] belongs to the C library of the
    server and is an argument.  The hot-state keys ("hkeys") of identities,
    proxies, accounts and endpoint groups are integers, written in decimal. *)

From S2P Require Import Prelude GoStrings GoFloat PolicyBase GoTime.

Local Open Scope Z_scope.

Class LuaMath := { math_exp : float64 → float64 }.

Definition f_sub (a b : float64) : float64 := f_add a (SFopp b).

(** [math.floor] of a finite double. *)
Definition f_floor (f : float64) : Z :=
  match f with
  | S754_finite s m e =>
      let v := if s then Zneg m else Zpos m in
      if 0 <=? e then v * 2 ^ e else v / 2 ^ (- e)
  | _ => 0
  end.

(** [x % 1]. *)
Definition f_mod1 (f : float64) : float64 := f_sub f (f_of_Z (f_floor f)).

(** ** Sorted sets

    Members are ordered by score, then by the bytes of the member. *)

Class Member (K : Type) := { member_bytes : K → bytes }.
#[export] Instance hkey_member : Member Z := {| member_bytes := FormatInt |}.
#[export] Instance name_member : Member string := {| member_bytes := bs |}.

Abbreviation zset K := (gmap K Z).

Section zset.
Context {K : Type} `{Countable K} `{!Member K}.

Definition member_cmp (a b : K * Z) : comparison :=
  cmp_then (a.2 ?= b.2) (bytes_compare (member_bytes a.1) (member_bytes b.1)).

(** The members with their scores, in order. *)
Definition zrange_withscores (z : zset K) : list (K * Z) := SortFunc member_cmp (map_to_list z).

(** [ZRANGEBYSCORE z -inf max LIMIT off n] *)
Definition zrangebyscore (z : zset K) (max : Z) (off n : nat) : list K :=
  take n (drop off (filter (λ kv, kv.2 ≤ max) (zrange_withscores z)).*1).

(** [ZCOUNT z -inf max] *)
Definition zcount (z : zset K) (max : Z) : nat :=
  length (filter (λ kv, kv.2 ≤ max) (zrange_withscores z)).

(** [ZADD z XX score k] and [ZADD z XX GT score k] *)
Definition zadd_xx (k : K) (score : Z) (z : zset K) : zset K :=
  match z !! k with Some _ => <[k := score]> z | None => z end.
Definition zadd_xx_gt (k : K) (score : Z) (z : zset K) : zset K :=
  match z !! k with Some s => if score >? s then <[k := score]> z else z | None => z end.

Lemma zrange_elem z k s : (k, s) ∈ zrange_withscores z ↔ z !! k = Some s.
Proof. unfold zrange_withscores. by rewrite (SortFunc_perm member_cmp), elem_of_map_to_list. Qed.

Lemma zrange_keys_NoDup z : NoDup (zrange_withscores z).*1.
Proof.
  unfold zrange_withscores. rewrite (SortFunc_perm member_cmp). apply NoDup_fst_map_to_list.
Qed.

Lemma due_keys_sublist (l : list (K * Z)) max :
  (filter (λ kv, kv.2 ≤ max) l).*1 `sublist_of` l.*1.
Proof. apply fmap_sublist, sublist_filter. Qed.

Lemma zrangebyscore_NoDup z max off n : NoDup (zrangebyscore z max off n).
Proof.
  unfold zrangebyscore. eapply sublist_NoDup; [apply (zrange_keys_NoDup z)|].
  etrans; [apply sublist_take|]. etrans; [apply sublist_drop|]. apply due_keys_sublist.
Qed.

Lemma elem_of_due_keys z max k :
  k ∈ (filter (λ kv, kv.2 ≤ max) (zrange_withscores z)).*1 ↔ ∃ s, z !! k = Some s ∧ s ≤ max.
Proof.
  rewrite list_elem_of_fmap. split.
  - intros ([k' s] & -> & [Hs Hin]%list_elem_of_filter). exists s. by rewrite <- zrange_elem.
  - intros (s & Hin & Hs). exists (k, s). split; [done|]. apply list_elem_of_filter.
    by rewrite zrange_elem.
Qed.

Lemma zrangebyscore_due z max off n k :
  k ∈ zrangebyscore z max off n → ∃ s, z !! k = Some s ∧ s ≤ max.
Proof.
  unfold zrangebyscore. intros Hk. apply elem_of_due_keys.
  eapply elem_of_sublist; [exact Hk|]. etrans; [apply sublist_take|]. apply sublist_drop.
Qed.

(** When fewer members than the limit come back, all due ones did. *)
Lemma zrangebyscore_all z max n k s :
  (length (zrangebyscore z max 0 n) < n)%nat → z !! k = Some s → s ≤ max →
  k ∈ zrangebyscore z max 0 n.
Proof.
  unfold zrangebyscore. rewrite drop_0. intros Hlen Hk Hs.
  rewrite length_take in Hlen. rewrite take_ge by lia. apply elem_of_due_keys. eauto.
Qed.

Lemma zadd_xx_lookup k s z k' :
  zadd_xx k s z !! k' = if decide (k = k') then (λ _, s) <$> z !! k else z !! k'.
Proof.
  unfold zadd_xx. destruct (z !! k) eqn:E; destruct (decide (k = k')) as [->|]; cbn;
    [by simplify_map_eq|by simplify_map_eq|done|done].
Qed.

Lemma zadd_xx_dom k s z k' : is_Some (zadd_xx k s z !! k') ↔ is_Some (z !! k').
Proof.
  rewrite zadd_xx_lookup. destruct (decide (k = k')) as [->|]; [|done].
  destruct (z !! k'); cbn; split; intros []; eauto; done.
Qed.
End zset.

(** ** Packed identity state of an endpoint group (sp_hs_unpack, sp_hs_pack)

    Stored as "score|sts|samples|nfail|lastfail|cd|ru|lu"; a missing entry
    reads as [hs_default]. *)
Record Hs := {
  hs_score : float64; hs_sts : Z; hs_samples : Z; hs_nfail : Z; hs_lastfail : Z;
  hs_cd : Z; hs_ru : Z; hs_lu : Z;
}.

Definition hs_default (baseline : float64) (now : Z) : Hs :=
  {| hs_score := baseline; hs_sts := now; hs_samples := 0; hs_nfail := 0; hs_lastfail := 0;
     hs_cd := 0; hs_ru := 0; hs_lu := 0 |}.
Definition sp_hs_unpack (raw : option Hs) (baseline : float64) (now : Z) : Hs :=
  default (hs_default baseline now) raw.

(** ["%.2f"] and ["%.4f"]: the nearest number of [unit]ths, ties to even. *)
Definition nearest (unit : Z) (f : float64) : Z :=
  match f with
  | S754_finite s m e =>
      let a := Zpos m * unit in
      let k :=
        if 0 <=? e then a * 2 ^ e
        else
          let q := a / 2 ^ (- e) in
          let r := 2 * (a mod 2 ^ (- e)) in
          if (r >? 2 ^ (- e)) || ((r =? 2 ^ (- e)) && Z.odd q) then q + 1 else q in
      if s then - k else k
  | _ => 0
  end.
Definition hundredths (f : float64) : Z := nearest 100 f.
Definition sp_hs_pack (t : Hs) : Hs :=
  {| hs_score := f_const (hundredths (hs_score t)) 100; hs_sts := hs_sts t; hs_samples := hs_samples t;
     hs_nfail := hs_nfail t; hs_lastfail := hs_lastfail t; hs_cd := hs_cd t; hs_ru := hs_ru t;
     hs_lu := hs_lu t |}.

Definition sp_hs_cd_ru (raw : option Hs) : Z * Z :=
  match raw with Some t => (hs_cd t, hs_ru t) | None => (0, 0) end.

(** ** Decay and quota estimate *)

Section math.
Context `{!LuaMath}.

Definition sp_decay (score : float64) (sts now : Z) (baseline : float64) (tau_ms : Z) : float64 :=
  let dt := now - sts in
  if (tau_ms <=? 0) || (dt <=? 0) then score
  else f_add baseline (f_mul (f_sub score baseline) (math_exp (f_div (f_of_Z (- dt)) (f_of_Z tau_ms)))).
End math.

Definition sp_quota_est (p n window_idx_start_ms w now : Z) : float64 :=
  if w <=? 0 then f_of_Z n
  else
    let frac := f_div (f_of_Z (now - window_idx_start_ms)) (f_of_Z w) in
    let frac := if f_ltb frac f_zero then f_zero else if f_ltb (f_of_Z 1) frac then f_of_Z 1 else frac in
    let est := f_add (f_mul (f_of_Z p) (f_sub (f_of_Z 1) frac)) (f_of_Z n) in
    if f_ltb est (f_of_Z n) then f_of_Z n else est.

Example hundredths_ex : hundredths (f_const 70125 1000) = 7012 ∧ hundredths (f_const (-1) 8) = -12.
Proof. vm_compute. auto. Qed.
Example quota_est_ex : sp_quota_est 10 3 60000 60000 75000 = f_const 21 2.
Proof. vm_compute. reflexivity. Qed.
