(* ===== verification/SchedState.v ===== *)
(** * The hot state of a site

    The Redis hashes, sorted sets and strings that the scheduler scripts
    (internal/scheduler/lua) read and write, with the key suffix of each.  A
    hash is a record; a field that is missing has the value the scripts read
    for it ("" or 0).  A hash exists when its "st" field does: the scripts that
    create an identity, account, proxy or lease hash write "st", and the scripts
    that use one test it.  (A manual cooldown may create a proxy hash without
    "st"; the scripts treat it as missing.) *)

From S2P Require Import Prelude GoStrings GoFloat PolicyBase GoTime LuaCommon PolicyRotation PolicyResolve Breaker.

Local Open Scope Z_scope.

(** The "xg" marker: nothing, the groups of ",<eg>,<eg>,", or the "1" of an older
    release, which stands for every group. *)
Inductive XgMark := xg_none | xg_all | xg_groups (egs : list Z).

(** "id:<i>" *)
Record Identity := {
  id_st : string; id_al : Z; id_xl : Z; id_scd : Z; id_sru : Z; id_acc : option Z; id_iid : string;
  id_ty : string; id_pv : Z; id_tv : Z; id_act : Z; id_px : option Z; id_rbd : string; id_rbn : Z;
  id_rg : string; id_lu : Z;
  id_xg : XgMark;
}.

(** "acc:<acc>" *)
Record Account := { ac_st : string; ac_bu : Z; ac_cd : Z }.

(** "px:<p>"; [px_tg] lists the tags, stored as ",<tag>,<tag>,". *)
Record Proxy := {
  px_st : string; px_kd : string; px_rg : string; px_pv : string; px_tg : list string; px_mc : Z;
  px_al : Z; px_sc : option float64; px_sts : option Z; px_cd : Z; px_gcd : Z; px_pid : string;
}.

Inductive Anchor := anchor_acquired | anchor_released.
Inductive Scope := scope_endpoint | scope_site.
#[export] Instance Anchor_eq_dec : EqDecision Anchor.
Proof. solve_decision. Defined.
#[export] Instance Scope_eq_dec : EqDecision Scope.
Proof. solve_decision. Defined.

Inductive LeaseState := LeaseActive | LeaseReleased | LeaseExpired.
#[export] Instance LeaseState_eq_dec : EqDecision LeaseState.
Proof. solve_decision. Defined.

(** "ls:<lid>"; [ls_keep] is the TTL that PEXPIRE sets when the lease ends. *)
Record Lease := {
  ls_i : Z; ls_iid : string; ls_e : Z; ls_p : option Z; ls_pid : string; ls_n : string; ls_tk : string;
  ls_ns : string; ls_sk : string; ls_a : Z; ls_x : Z; ls_cap : Z; ls_ttl : Z; ls_st : LeaseState;
  ls_pr : bool; ls_mc : Z; ls_ri : Z; ls_ra : Anchor; ls_rs : Scope; ls_rc : Z; ls_pru : option Z;
  ls_kx : Z; ls_rv : Z; ls_end : option Z; ls_keep : option Z;
}.

(** The fields "<w>:c", "<w>:n" and "<w>:p" of "q:<eg>:<i>". *)
Record QWin := { q_c : Z; q_n : Z; q_p : Z }.
Definition no_qwin : QWin := {| q_c := -1; q_n := 0; q_p := 0 |}.

Record Hot := {
  h_id : gmap Z Identity;
  h_acc : gmap Z Account;
  h_hs : gmap (Z * Z) Hs;              (** "hs:<eg>" field i *)
  h_rdy : gmap Z (zset Z);             (** "rdy:<eg>" *)
  h_px : gmap Z Proxy;
  h_pxrdy : zset Z;
  h_ls : gmap string Lease;
  h_lsexp : zset string;
  h_q : gmap (Z * Z) (gmap Z QWin);
  h_stk : gmap (Z * string) Z;         (** "stk:<eg>:<session>" *)
  h_rr : gmap Z Z;                     (** "rr:<eg>" *)
  h_brk : gmap Z Hash;                 (** "brk:<eg>" *)
  h_aeg : zset Z;
  h_dirty : gset (option Z * Z);       (** "e<eg>:<i>" and "g<i>" *)
}.

Definition no_hot : Hot :=
  {| h_id := ∅; h_acc := ∅; h_hs := ∅; h_rdy := ∅; h_px := ∅; h_pxrdy := ∅; h_ls := ∅; h_lsexp := ∅;
     h_q := ∅; h_stk := ∅; h_rr := ∅; h_brk := ∅; h_aeg := ∅; h_dirty := ∅ |}.

(** ** Field updates *)

Definition on_id (f : gmap Z Identity → gmap Z Identity) (h : Hot) : Hot :=
  {| h_id := f (h_id h); h_acc := h_acc h; h_hs := h_hs h; h_rdy := h_rdy h; h_px := h_px h;
     h_pxrdy := h_pxrdy h; h_ls := h_ls h; h_lsexp := h_lsexp h; h_q := h_q h; h_stk := h_stk h;
     h_rr := h_rr h; h_brk := h_brk h; h_aeg := h_aeg h; h_dirty := h_dirty h |}.
Definition on_hs (f : gmap (Z * Z) Hs → gmap (Z * Z) Hs) (h : Hot) : Hot :=
  {| h_id := h_id h; h_acc := h_acc h; h_hs := f (h_hs h); h_rdy := h_rdy h; h_px := h_px h;
     h_pxrdy := h_pxrdy h; h_ls := h_ls h; h_lsexp := h_lsexp h; h_q := h_q h; h_stk := h_stk h;
     h_rr := h_rr h; h_brk := h_brk h; h_aeg := h_aeg h; h_dirty := h_dirty h |}.
Definition on_acc (f : gmap Z Account → gmap Z Account) (h : Hot) : Hot :=
  {| h_id := h_id h; h_acc := f (h_acc h); h_hs := h_hs h; h_rdy := h_rdy h; h_px := h_px h;
     h_pxrdy := h_pxrdy h; h_ls := h_ls h; h_lsexp := h_lsexp h; h_q := h_q h; h_stk := h_stk h;
     h_rr := h_rr h; h_brk := h_brk h; h_aeg := h_aeg h; h_dirty := h_dirty h |}.
(** A missing ready set is empty. *)
Definition rdy_of (h : Hot) (eg : Z) : zset Z := default ∅ (h_rdy h !! eg).
Definition on_rdy (eg : Z) (f : zset Z → zset Z) (h : Hot) : Hot :=
  {| h_id := h_id h; h_acc := h_acc h; h_hs := h_hs h; h_rdy := <[eg := f (rdy_of h eg)]> (h_rdy h);
     h_px := h_px h; h_pxrdy := h_pxrdy h; h_ls := h_ls h; h_lsexp := h_lsexp h; h_q := h_q h;
     h_stk := h_stk h; h_rr := h_rr h; h_brk := h_brk h; h_aeg := h_aeg h; h_dirty := h_dirty h |}.
Definition on_px (f : gmap Z Proxy → gmap Z Proxy) (h : Hot) : Hot :=
  {| h_id := h_id h; h_acc := h_acc h; h_hs := h_hs h; h_rdy := h_rdy h; h_px := f (h_px h);
     h_pxrdy := h_pxrdy h; h_ls := h_ls h; h_lsexp := h_lsexp h; h_q := h_q h; h_stk := h_stk h;
     h_rr := h_rr h; h_brk := h_brk h; h_aeg := h_aeg h; h_dirty := h_dirty h |}.
Definition on_pxrdy (f : zset Z → zset Z) (h : Hot) : Hot :=
  {| h_id := h_id h; h_acc := h_acc h; h_hs := h_hs h; h_rdy := h_rdy h; h_px := h_px h;
     h_pxrdy := f (h_pxrdy h); h_ls := h_ls h; h_lsexp := h_lsexp h; h_q := h_q h; h_stk := h_stk h;
     h_rr := h_rr h; h_brk := h_brk h; h_aeg := h_aeg h; h_dirty := h_dirty h |}.
Definition on_ls (f : gmap string Lease → gmap string Lease) (h : Hot) : Hot :=
  {| h_id := h_id h; h_acc := h_acc h; h_hs := h_hs h; h_rdy := h_rdy h; h_px := h_px h;
     h_pxrdy := h_pxrdy h; h_ls := f (h_ls h); h_lsexp := h_lsexp h; h_q := h_q h; h_stk := h_stk h;
     h_rr := h_rr h; h_brk := h_brk h; h_aeg := h_aeg h; h_dirty := h_dirty h |}.
Definition on_lsexp (f : zset string → zset string) (h : Hot) : Hot :=
  {| h_id := h_id h; h_acc := h_acc h; h_hs := h_hs h; h_rdy := h_rdy h; h_px := h_px h;
     h_pxrdy := h_pxrdy h; h_ls := h_ls h; h_lsexp := f (h_lsexp h); h_q := h_q h; h_stk := h_stk h;
     h_rr := h_rr h; h_brk := h_brk h; h_aeg := h_aeg h; h_dirty := h_dirty h |}.
Definition on_q (f : gmap (Z * Z) (gmap Z QWin) → gmap (Z * Z) (gmap Z QWin)) (h : Hot) : Hot :=
  {| h_id := h_id h; h_acc := h_acc h; h_hs := h_hs h; h_rdy := h_rdy h; h_px := h_px h;
     h_pxrdy := h_pxrdy h; h_ls := h_ls h; h_lsexp := h_lsexp h; h_q := f (h_q h); h_stk := h_stk h;
     h_rr := h_rr h; h_brk := h_brk h; h_aeg := h_aeg h; h_dirty := h_dirty h |}.
Definition on_stk (f : gmap (Z * string) Z → gmap (Z * string) Z) (h : Hot) : Hot :=
  {| h_id := h_id h; h_acc := h_acc h; h_hs := h_hs h; h_rdy := h_rdy h; h_px := h_px h;
     h_pxrdy := h_pxrdy h; h_ls := h_ls h; h_lsexp := h_lsexp h; h_q := h_q h; h_stk := f (h_stk h);
     h_rr := h_rr h; h_brk := h_brk h; h_aeg := h_aeg h; h_dirty := h_dirty h |}.
Definition on_rr (f : gmap Z Z → gmap Z Z) (h : Hot) : Hot :=
  {| h_id := h_id h; h_acc := h_acc h; h_hs := h_hs h; h_rdy := h_rdy h; h_px := h_px h;
     h_pxrdy := h_pxrdy h; h_ls := h_ls h; h_lsexp := h_lsexp h; h_q := h_q h; h_stk := h_stk h;
     h_rr := f (h_rr h); h_brk := h_brk h; h_aeg := h_aeg h; h_dirty := h_dirty h |}.
Definition on_brk (f : gmap Z Hash → gmap Z Hash) (h : Hot) : Hot :=
  {| h_id := h_id h; h_acc := h_acc h; h_hs := h_hs h; h_rdy := h_rdy h; h_px := h_px h;
     h_pxrdy := h_pxrdy h; h_ls := h_ls h; h_lsexp := h_lsexp h; h_q := h_q h; h_stk := h_stk h;
     h_rr := h_rr h; h_brk := f (h_brk h); h_aeg := h_aeg h; h_dirty := h_dirty h |}.
Definition on_aeg (f : zset Z → zset Z) (h : Hot) : Hot :=
  {| h_id := h_id h; h_acc := h_acc h; h_hs := h_hs h; h_rdy := h_rdy h; h_px := h_px h;
     h_pxrdy := h_pxrdy h; h_ls := h_ls h; h_lsexp := h_lsexp h; h_q := h_q h; h_stk := h_stk h;
     h_rr := h_rr h; h_brk := h_brk h; h_aeg := f (h_aeg h); h_dirty := h_dirty h |}.
Definition mark_dirty (marks : gset (option Z * Z)) (h : Hot) : Hot :=
  {| h_id := h_id h; h_acc := h_acc h; h_hs := h_hs h; h_rdy := h_rdy h; h_px := h_px h;
     h_pxrdy := h_pxrdy h; h_ls := h_ls h; h_lsexp := h_lsexp h; h_q := h_q h; h_stk := h_stk h;
     h_rr := h_rr h; h_brk := h_brk h; h_aeg := h_aeg h; h_dirty := h_dirty h ∪ marks |}.

Definition with_lease_counts (al xl : Z) (d : Identity) : Identity :=
  {| id_st := id_st d; id_al := al; id_xl := xl; id_scd := id_scd d; id_sru := id_sru d; id_acc := id_acc d;
     id_iid := id_iid d; id_ty := id_ty d; id_pv := id_pv d; id_tv := id_tv d; id_act := id_act d;
     id_px := id_px d; id_rbd := id_rbd d; id_rbn := id_rbn d; id_rg := id_rg d; id_lu := id_lu d;
     id_xg := id_xg d |}.
Definition with_sru (sru : Z) (d : Identity) : Identity :=
  {| id_st := id_st d; id_al := id_al d; id_xl := id_xl d; id_scd := id_scd d; id_sru := sru; id_acc := id_acc d;
     id_iid := id_iid d; id_ty := id_ty d; id_pv := id_pv d; id_tv := id_tv d; id_act := id_act d;
     id_px := id_px d; id_rbd := id_rbd d; id_rbn := id_rbn d; id_rg := id_rg d; id_lu := id_lu d;
     id_xg := id_xg d |}.
Definition with_lu (lu : Z) (d : Identity) : Identity :=
  {| id_st := id_st d; id_al := id_al d; id_xl := id_xl d; id_scd := id_scd d; id_sru := id_sru d;
     id_acc := id_acc d; id_iid := id_iid d; id_ty := id_ty d; id_pv := id_pv d; id_tv := id_tv d;
     id_act := id_act d; id_px := id_px d; id_rbd := id_rbd d; id_rbn := id_rbn d; id_rg := id_rg d;
     id_lu := lu; id_xg := id_xg d |}.
Definition with_binding (px : option Z) (rbd : string) (rbn : Z) (d : Identity) : Identity :=
  {| id_st := id_st d; id_al := id_al d; id_xl := id_xl d; id_scd := id_scd d; id_sru := id_sru d;
     id_acc := id_acc d; id_iid := id_iid d; id_ty := id_ty d; id_pv := id_pv d; id_tv := id_tv d;
     id_act := id_act d; id_px := px; id_rbd := rbd; id_rbn := rbn; id_rg := id_rg d; id_lu := id_lu d;
     id_xg := id_xg d |}.
Definition with_xg (xg : XgMark) (d : Identity) : Identity :=
  {| id_st := id_st d; id_al := id_al d; id_xl := id_xl d; id_scd := id_scd d; id_sru := id_sru d;
     id_acc := id_acc d; id_iid := id_iid d; id_ty := id_ty d; id_pv := id_pv d; id_tv := id_tv d;
     id_act := id_act d; id_px := id_px d; id_rbd := id_rbd d; id_rbn := id_rbn d; id_rg := id_rg d;
     id_lu := id_lu d; id_xg := xg |}.

Definition with_px_al (al : Z) (d : Proxy) : Proxy :=
  {| px_st := px_st d; px_kd := px_kd d; px_rg := px_rg d; px_pv := px_pv d; px_tg := px_tg d;
     px_mc := px_mc d; px_al := al; px_sc := px_sc d; px_sts := px_sts d; px_cd := px_cd d;
     px_gcd := px_gcd d; px_pid := px_pid d |}.

Definition with_expiry (x : Z) (l : Lease) : Lease :=
  {| ls_i := ls_i l; ls_iid := ls_iid l; ls_e := ls_e l; ls_p := ls_p l; ls_pid := ls_pid l; ls_n := ls_n l;
     ls_tk := ls_tk l; ls_ns := ls_ns l; ls_sk := ls_sk l; ls_a := ls_a l; ls_x := x; ls_cap := ls_cap l;
     ls_ttl := ls_ttl l; ls_st := ls_st l; ls_pr := ls_pr l; ls_mc := ls_mc l; ls_ri := ls_ri l;
     ls_ra := ls_ra l; ls_rs := ls_rs l; ls_rc := ls_rc l; ls_pru := ls_pru l; ls_kx := ls_kx l;
     ls_rv := ls_rv l; ls_end := ls_end l; ls_keep := ls_keep l |}.
Definition with_end (st : LeaseState) (end_ms keep : Z) (l : Lease) : Lease :=
  {| ls_i := ls_i l; ls_iid := ls_iid l; ls_e := ls_e l; ls_p := ls_p l; ls_pid := ls_pid l; ls_n := ls_n l;
     ls_tk := ls_tk l; ls_ns := ls_ns l; ls_sk := ls_sk l; ls_a := ls_a l; ls_x := ls_x l; ls_cap := ls_cap l;
     ls_ttl := ls_ttl l; ls_st := st; ls_pr := ls_pr l; ls_mc := ls_mc l; ls_ri := ls_ri l;
     ls_ra := ls_ra l; ls_rs := ls_rs l; ls_rc := ls_rc l; ls_pru := ls_pru l; ls_kx := ls_kx l;
     ls_rv := ls_rv l; ls_end := Some end_ms; ls_keep := Some keep |}.
Definition with_rc (rc : Z) (l : Lease) : Lease :=
  {| ls_i := ls_i l; ls_iid := ls_iid l; ls_e := ls_e l; ls_p := ls_p l; ls_pid := ls_pid l; ls_n := ls_n l;
     ls_tk := ls_tk l; ls_ns := ls_ns l; ls_sk := ls_sk l; ls_a := ls_a l; ls_x := ls_x l; ls_cap := ls_cap l;
     ls_ttl := ls_ttl l; ls_st := ls_st l; ls_pr := ls_pr l; ls_mc := ls_mc l; ls_ri := ls_ri l;
     ls_ra := ls_ra l; ls_rs := ls_rs l; ls_rc := rc; ls_pru := ls_pru l; ls_kx := ls_kx l;
     ls_rv := ls_rv l; ls_end := ls_end l; ls_keep := ls_keep l |}.
(** The report count of accepted reports and the time until which they keep the hash. *)
Definition with_retention (rv kx : Z) (l : Lease) : Lease :=
  {| ls_i := ls_i l; ls_iid := ls_iid l; ls_e := ls_e l; ls_p := ls_p l; ls_pid := ls_pid l; ls_n := ls_n l;
     ls_tk := ls_tk l; ls_ns := ls_ns l; ls_sk := ls_sk l; ls_a := ls_a l; ls_x := ls_x l; ls_cap := ls_cap l;
     ls_ttl := ls_ttl l; ls_st := ls_st l; ls_pr := ls_pr l; ls_mc := ls_mc l; ls_ri := ls_ri l;
     ls_ra := ls_ra l; ls_rs := ls_rs l; ls_rc := ls_rc l; ls_pru := ls_pru l; ls_kx := kx;
     ls_rv := rv; ls_end := ls_end l; ls_keep := ls_keep l |}.
(** "end", 0 while the lease is active. *)
Definition ended_ms (l : Lease) : Z := default 0 (ls_end l).
