(* ===== verification/SchedSelect.v ===== *)
(** * Candidate pools and selection strategies

    internal/scheduler/lua/acquire_select.lua, and the arguments, random values
    and candidates of acquire.lua.  The pool of a sampling round is a list of
    entries.  The cache of packed states ("raws") is not modelled: the state of
    an identity does not change while it is in a pool, so reading it again gives
    the cached value.  The cached keys of the strategies other than
    weighted_random are recomputed; those of weighted_random are kept, because
    they include the probe factor. *)

From S2P Require Import Prelude GoStrings GoFloat PolicyBase GoTime LuaCommon PolicyRotation PolicyResolve Breaker SchedState.

Local Open Scope Z_scope.

Inductive Strategy := strategy_w | strategy_l | strategy_r | strategy_b.
Inductive ProxyMode := mode_n | mode_p | mode_b | mode_r.
#[export] Instance Strategy_eq_dec : EqDecision Strategy.
Proof. solve_decision. Defined.
#[export] Instance ProxyMode_eq_dec : EqDecision ProxyMode.
Proof. solve_decision. Defined.

(** ARGV of acquire.lua.  Empty filter lists stand for the sets left nil;
    [a_quotas] are (limit, window ms) pairs and [a_randoms] parts per million. *)
Record AcquireArgs := {
  a_now : Z; a_count : nat; a_eg : Z; a_strategy : Strategy; a_ksample : nat; a_ttl : Z; a_lifetime : Z;
  a_mc : Z; a_ri : Z; a_ra : Anchor; a_rs : Scope; a_probe_wf : Z; a_probe_max : Z; a_warmup : Z;
  a_warmup_factor : Z; a_baseline : float64; a_tau : Z; a_probe_limit : Z; a_session : string;
  a_sticky_ttl : Z; a_shards : Z; a_node : string; a_token : string; a_ns : string; a_pmode : ProxyMode;
  a_pregion : bool; a_tolerance : Z; a_max_rebinds : Z; a_today : string; a_kinds : list string;
  a_providers : list string; a_regions : list string; a_tags : list string; a_quotas : list (Z * Z);
  a_prefixes : list string; a_randoms : list Z;
}.

Definition ppm_float (n : Z) : float64 := f_div (f_of_Z n) (f_of_Z 1000000).
Definition golden : float64 := f_const 6180339887498949 10000000000000000.

(** [rnd]: the value of the call number [ridx] (from 1). *)
Definition rnd_value (args : AcquireArgs) (ridx : Z) : float64 :=
  let rand_n := Z.of_nat (length (a_randoms args)) in
  if rand_n <=? 0 then f_mod1 (f_mul (f_of_Z ridx) golden)
  else
    let v := ppm_float (default 500000 (a_randoms args !! Z.to_nat ((ridx - 1) mod rand_n))) in
    if ridx >? rand_n then f_mod1 (f_add (f_mul v (f_of_Z 7919)) (f_mul (f_of_Z ridx) golden)) else v.

Definition short_push (args : AcquireArgs) : Z := a_now args + Z.min (a_ttl args) 5000.
Definition LONG_PUSH : Z := 600000.

(** A proxy chosen for a lease. *)
Record ProxySel := { sel_p : Z; sel_pid : string; sel_mc : Z; sel_bind : bool; sel_rebound : bool }.

(** A verified candidate: what the filters read and computed for it. *)
Record Candidate := {
  c_i : Z; c_id : Identity; c_hs : Hs; c_acd : Z; c_lim : Z; c_q : list QWin;
  c_bound : option ProxySel; c_old_px : option Z;
}.

Record PoolEntry := { pe_id : Z; pe_key : option float64; pe_c : option Candidate }.

(** The pool and its [exact] flag. *)
Record Pool := { pl_entries : list PoolEntry; pl_exact : bool }.

Definition new_entry (i : Z) : PoolEntry := {| pe_id := i; pe_key := None; pe_c := None |}.

Definition new_pool (ids : list Z) (limit : nat) (skip : gset Z) : Pool :=
  {| pl_entries := new_entry <$> take limit (filter (λ i, i ∉ skip) ids); pl_exact := false |}.

(** [pool_remove]: swap with the last entry. *)
Definition pool_remove (es : list PoolEntry) (j : nat) : list PoolEntry :=
  match last es with
  | Some e => take (length es - 1) (<[j := e]> es)
  | None => es
  end.

Definition set_key (es : list PoolEntry) (j : nat) (w : float64) : list PoolEntry :=
  alter (λ e, {| pe_id := pe_id e; pe_key := Some w; pe_c := pe_c e |}) j es.
Definition set_candidate (es : list PoolEntry) (j : nat) (c : Candidate) : list PoolEntry :=
  alter (λ e, {| pe_id := pe_id e; pe_key := pe_key e; pe_c := Some c |}) j es.

Definition WEIGHT_MAX : float64 := f_of_Z 10000.

Section select.
Context `{!LuaMath}.
Variable args : AcquireArgs.

Definition hs_score_of (raw : option Hs) : float64 :=
  match raw with
  | None => a_baseline args
  | Some t =>
      let sc := hs_score t in
      if (a_tau args >? 0) && (a_now args >? hs_sts t) then
        f_add (a_baseline args)
          (f_mul (f_sub sc (a_baseline args)) (math_exp (f_div (f_of_Z (hs_sts t - a_now args)) (f_of_Z (a_tau args)))))
      else sc
  end.

Definition hs_last_used (raw : option Hs) : Z := from_option hs_lu 0 raw.

Definition weight_of (raw : option Hs) : float64 :=
  let sc := hs_score_of raw in
  let sc := if f_ltb sc (f_of_Z 5) then f_of_Z 5 else if f_ltb (f_of_Z 100) sc then f_of_Z 100 else sc in
  f_mul sc sc.

(** [hsmap i]: the packed state of identity i in the group of the call. *)
Variable hsmap : Z → option Hs.

Definition key_of (e : PoolEntry) : float64 := default (weight_of (hsmap (pe_id e))) (pe_key e).

(** The uniform proposals of weighted_random: an accepted index, or the pool
    with the weights it read. *)
Fixpoint propose (tries : nat) (ridx : Z) (es : list PoolEntry) : option nat * Z * list PoolEntry :=
  match tries with
  | O => (None, ridx, es)
  | S tries' =>
      let n := length es in
      let j := Nat.min (Z.to_nat (f_floor (f_mul (rnd_value args (ridx + 1)) (f_of_Z (Z.of_nat n))))) (n - 1) in
      match es !! j with
      | None => (None, ridx + 1, es)
      | Some e =>
          let w := key_of e in
          let es' := set_key es j w in
          if f_ltb (f_mul (rnd_value args (ridx + 2)) WEIGHT_MAX) w then (Some j, ridx + 2, es')
          else propose tries' (ridx + 2) es'
      end
  end.

(** The first entry at which the accumulated weight exceeds the target, or the last. *)
Fixpoint roulette (j : nat) (target acc : float64) (ws : list float64) : nat :=
  match ws with
  | [] => (j - 1)%nat
  | w :: ws' =>
      let acc := f_add acc w in
      if f_ltb target acc then j else roulette (S j) target acc ws'
  end.

Definition pick_weighted (ridx : Z) (P : Pool) : nat * Z * Pool :=
  let '(hit, ridx, es) :=
    if pl_exact P then (None, ridx, pl_entries P) else propose 8 ridx (pl_entries P) in
  match hit with
  | Some j => (j, ridx, {| pl_entries := es; pl_exact := pl_exact P |})
  | None =>
      let ws := key_of <$> es in
      let total := foldl f_add f_zero ws in
      let es' := (λ e, {| pe_id := pe_id e; pe_key := Some (key_of e); pe_c := pe_c e |}) <$> es in
      let target := f_mul (rnd_value args (ridx + 1)) total in
      (roulette 0 target f_zero ws, ridx + 1, {| pl_entries := es'; pl_exact := true |})
  end.

(** Round robin: the lowest key above the cursor, or the lowest of all; [j] is
    the index of the first of [ids]. *)
Fixpoint pick_round_robin (cursor : Z) (j : nat) (after lowest : option (nat * Z)) (ids : list Z) : nat :=
  match ids with
  | [] =>
      match after, lowest with
      | Some (a, _), _ => a
      | None, Some (l, _) => l
      | None, None => 0%nat
      end
  | k :: ids' =>
      let after' :=
        if (k >? cursor) && match after with None => true | Some (_, ka) => k <? ka end
        then Some (j, k) else after in
      let lowest' := match lowest with Some (_, kl) => if k <? kl then Some (j, k) else lowest | None => Some (j, k) end in
      pick_round_robin cursor (S j) after' lowest' ids'
  end.

(** The first index whose key no later one beats. *)
Fixpoint pick_first_best {A} (better : A → A → bool) (j idx : nat) (best : option A) (keys : list A) : nat :=
  match keys with
  | [] => idx
  | k :: keys' =>
      match best with
      | None => pick_first_best better (S j) j (Some k) keys'
      | Some b => if better k b then pick_first_best better (S j) j (Some k) keys'
                  else pick_first_best better (S j) idx best keys'
      end
  end.

(** [pick_index]; [cursor] is the round-robin cursor. *)
Definition pick_index (strategy : Strategy) (cursor ridx : Z) (P : Pool) : nat * Z * Pool :=
  match strategy with
  | strategy_w => pick_weighted ridx P
  | strategy_r => (pick_round_robin cursor 0 None None (pe_id <$> pl_entries P), ridx, P)
  | strategy_l =>
      (pick_first_best Z.ltb 0 0 None ((λ e, hs_last_used (hsmap (pe_id e))) <$> pl_entries P), ridx, P)
  | strategy_b =>
      (pick_first_best (λ k b, f_ltb b k) 0 0 None ((λ e, hs_score_of (hsmap (pe_id e))) <$> pl_entries P), ridx, P)
  end.
End select.
