(* ===== verification/SchedAcquire.v ===== *)
(** * acquire.lua

    The filters (acquire_filters.lua), the proxy selection (acquire_proxy.lua),
    the lease writes (acquire_write.lua) and the control flow
    (acquire_main.lua) of the acquire script, over the hot state of a site.
    Redis runs a script atomically, so the script is a function from the hot
    state to a reply and the new hot state.  The mutable locals of the script
    are the fields of [Call]. *)

From S2P Require Import Prelude GoStrings GoFloat PolicyBase GoTime LuaCommon PolicyRotation PolicyResolve Breaker SchedState SchedSelect.

Local Open Scope Z_scope.

(** The 14 reply fields of a lease. *)
Record LeaseOut := {
  lo_lid : string; lo_iid : string; lo_ty : string; lo_pv : Z; lo_tv : Z; lo_x : Z; lo_pr : bool;
  lo_sticky : bool; lo_bind : string; lo_p : option Z; lo_pid : string; lo_st : string; lo_i : Z; lo_rbn : Z;
}.

Record Call := {
  k_hot : Hot;
  k_picked : nat;
  k_skip : gset Z;
  k_ridx : Z;
  k_rr : option Z;
  k_proxy_fail : nat;
  k_out : list LeaseOut;
}.

Definition with_hot (h : Hot) (k : Call) : Call :=
  {| k_hot := h; k_picked := k_picked k; k_skip := k_skip k; k_ridx := k_ridx k; k_rr := k_rr k;
     k_proxy_fail := k_proxy_fail k; k_out := k_out k |}.
Definition with_ridx (r : Z) (k : Call) : Call :=
  {| k_hot := k_hot k; k_picked := k_picked k; k_skip := k_skip k; k_ridx := r; k_rr := k_rr k;
     k_proxy_fail := k_proxy_fail k; k_out := k_out k |}.
Definition with_rr (rr : option Z) (k : Call) : Call :=
  {| k_hot := k_hot k; k_picked := k_picked k; k_skip := k_skip k; k_ridx := k_ridx k; k_rr := rr;
     k_proxy_fail := k_proxy_fail k; k_out := k_out k |}.
Definition skipping (i : Z) (k : Call) : Call :=
  {| k_hot := k_hot k; k_picked := k_picked k; k_skip := {[i]} ∪ k_skip k; k_ridx := k_ridx k; k_rr := k_rr k;
     k_proxy_fail := k_proxy_fail k; k_out := k_out k |}.
Definition picking (k : Call) : Call :=
  {| k_hot := k_hot k; k_picked := S (k_picked k); k_skip := k_skip k; k_ridx := k_ridx k; k_rr := k_rr k;
     k_proxy_fail := k_proxy_fail k; k_out := k_out k |}.
Definition failing (k : Call) : Call :=
  {| k_hot := k_hot k; k_picked := k_picked k; k_skip := k_skip k; k_ridx := k_ridx k; k_rr := k_rr k;
     k_proxy_fail := S (k_proxy_fail k); k_out := k_out k |}.
Definition emitting (o : LeaseOut) (k : Call) : Call :=
  {| k_hot := k_hot k; k_picked := k_picked k; k_skip := k_skip k; k_ridx := k_ridx k; k_rr := k_rr k;
     k_proxy_fail := k_proxy_fail k; k_out := k_out k ++ [o] |}.

(** ** Filters *)

Section filters.
Context `{!LuaMath}.
Variable args : AcquireArgs.
Abbreviation now := (a_now args).
Abbreviation eg := (a_eg args).

(** The new lower bound and the account cooldown. *)
Definition account_avail (h : Hot) (acc : Z) (av : Z) : Z * Z :=
  let a := default {| ac_st := ""; ac_bu := 0; ac_cd := 0 |} (h_acc h !! acc) in
  let av := Z.max av (ac_cd a) in
  let av :=
    if String.eqb (ac_st a) "banned" then
      let t := if ac_bu a <=? 0 then now + LONG_PUSH
               else if ac_bu a <=? now then now + 10000 else ac_bu a in
      Z.max av t
    else if String.eqb (ac_st a) "disabled" then Z.max av (now + LONG_PUSH)
    else av in
  (av, ac_cd a).

(** A quota window as of [now]: the index, and the counts of it and the previous one. *)
Definition qwin_at (w : Z) (q : QWin) : Z * Z * Z :=
  let idx := now / w in
  if q_c q =? idx then (idx, q_n q, q_p q)
  else (idx, 0, if q_c q =? idx - 1 then q_n q else 0).

Definition quota_limit (act limit : Z) : float64 :=
  let factor :=
    if (a_warmup args >? 0) && (act >? 0) && (now - act <? a_warmup args)
    then ppm_float (a_warmup_factor args) else f_of_Z 1 in
  let l := f_mul (f_of_Z limit) factor in
  if f_ltb l (f_of_Z 1) then f_of_Z 1 else l.

(** [math.ceil] of a double. *)
Definition f_ceil (f : float64) : Z := - f_floor (SFopp f).

(** When one quota window does not admit the request: the time at which it does. *)
Definition quota_window_push (act limit w : Z) (q : QWin) : option Z :=
  let '(idx, n, p) := qwin_at w q in
  let start := idx * w in
  let l := quota_limit act limit in
  if f_ltb l (f_add (sp_quota_est p n start w now) (f_of_Z 1)) then
    let t := start + w in
    let t :=
      if f_leb (f_of_Z (n + 1)) l && (p >? 0) then
        let share := f_div (f_sub (f_sub l (f_of_Z n)) (f_of_Z 1)) (f_of_Z p) in
        Z.min t (start + f_ceil (f_mul (f_of_Z w) (f_sub (f_of_Z 1) share)) + 1)
      else t in
    Some (if t <=? now then now + 1 else t)
  else None.

Definition later (a b : option Z) : option Z :=
  match a, b with Some x, Some y => Some (Z.max x y) | Some x, None => Some x | None, _ => b end.

Definition quota_values (h : Hot) (i : Z) : list QWin :=
  (λ lw, default no_qwin (default ∅ (h_q h !! (eg, i)) !! lw.2)) <$> a_quotas args.
Definition quota_push (act : Z) (vals : list QWin) : option Z :=
  foldl later None (zip_with (λ lw q, quota_window_push act lw.1 lw.2 q) (a_quotas args) vals).

Inductive BindVerdict := BindPush (t : Z) | BindUse (sel : ProxySel) | BindNew (old_px : option Z).

Definition bind_check (h : Hot) (d : Identity) : BindVerdict :=
  match id_px d with
  | None => BindNew None
  | Some p =>
      let again :=
        let used := if String.eqb (id_rbd d) (a_today args) then id_rbn d else 0 in
        if used >=? a_max_rebinds args then BindPush (now + LONG_PUSH) else BindNew (Some p) in
      match h_px h !! p with
      | Some ph =>
          if String.eqb (px_st ph) "active" then
            let pav := Z.max (px_cd ph) (px_gcd ph) in
            if pav <=? now then
              if px_al ph >=? px_mc ph then BindPush (short_push args)
              else BindUse {| sel_p := p; sel_pid := px_pid ph; sel_mc := px_mc ph;
                              sel_bind := false; sel_rebound := false |}
            else if pav - now <=? a_tolerance args then BindPush pav
            else again
          else again
      | None => again
      end
  end.

(** The fields the filters read; the last five are read only with quotas or proxies. *)
Definition read_identity (d : Identity) : Identity :=
  if negb (bool_decide (a_quotas args = [])) || negb (bool_decide (a_pmode args = mode_n)) then with_xg xg_none d
  else {| id_st := id_st d; id_al := id_al d; id_xl := id_xl d; id_scd := id_scd d; id_sru := id_sru d;
          id_acc := id_acc d; id_iid := id_iid d; id_ty := id_ty d; id_pv := id_pv d; id_tv := id_tv d;
          id_act := 0; id_px := None; id_rbd := ""; id_rbn := 0; id_rg := ""; id_lu := id_lu d;
          id_xg := xg_none |}.

Inductive Verdict := VOk (c : Candidate) | VRem | VPush (t : Z) (push_xl : bool).

Definition is_ready (st : string) : bool := String.eqb st "active" || String.eqb st "pending".

(** The lower bound of the availability from the identity and its account, and
    the account cooldown. *)
Definition avail_bound (h : Hot) (d : Identity) (hs : Hs) (sticky : bool) : Z * Z :=
  let av := Z.max (hs_cd hs) (id_scd d) in
  let av := if sticky then av else Z.max (Z.max av (hs_ru hs)) (id_sru d) in
  let av := if (id_al d >? 0) && (id_xl d >? av) then id_xl d else av in
  match id_acc d with
  | None => (av, 0)
  | Some acc => account_avail h acc av
  end.

Definition lease_limit (st : string) : Z :=
  if String.eqb st "pending" && (a_probe_max args <? a_mc args) then a_probe_max args else a_mc args.

Definition evaluate (h : Hot) (i : Z) (sticky : bool) : Verdict :=
  match h_id h !! i with
  | None => VRem
  | Some d0 =>
      let d := read_identity d0 in
      if negb (is_ready (id_st d)) then VRem
      else
        let hs := sp_hs_unpack (h_hs h !! (eg, i)) (a_baseline args) now in
        let '(av, acd) := avail_bound h d hs sticky in
        if av >? now then VPush av ((id_al d >? 0) && (id_xl d >? now))
        else
          let lim := lease_limit (id_st d) in
          if id_al d >=? lim then VPush (short_push args) false
          else
            let q := quota_values h i in
            match quota_push (id_act d) q with
            | Some t => VPush t false
            | None =>
                let c bound old :=
                  {| c_i := i; c_id := d; c_hs := hs; c_acd := acd; c_lim := lim; c_q := q;
                     c_bound := bound; c_old_px := old |} in
                if bool_decide (a_pmode args = mode_b) then
                  match bind_check h d with
                  | BindPush t => VPush t false
                  | BindUse sel => VOk (c (Some sel) None)
                  | BindNew old => VOk (c None old)
                  end
                else VOk (c None None)
            end
  end.
End filters.

(** ** Proxy selection *)

Section proxy.
Context `{!LuaMath}.
Variable args : AcquireArgs.
Abbreviation now := (a_now args).

Record PxScan := { ps_hot : Hot; ps_seen : gset Z; ps_gone : Z; ps_cands : list (ProxySel * float64) }.

(** Whether the policy filters and the region admit the proxy. *)
Definition proxy_admits (region : option string) (d : Proxy) : bool :=
  (bool_decide (a_kinds args = []) || bool_decide (px_kd d ∈ a_kinds args)) &&
  (bool_decide (a_providers args = []) || bool_decide (px_pv d ∈ a_providers args)) &&
  (bool_decide (a_regions args = []) || bool_decide (px_rg d ∈ a_regions args)) &&
  match region with None => true | Some r => String.eqb (px_rg d) r end &&
  forallb (λ t, bool_decide (t ∈ px_tg d)) (a_tags args).

Definition proxy_weight (d : Proxy) : float64 :=
  let s := sp_decay (default (a_baseline args) (px_sc d)) (default now (px_sts d)) now (a_baseline args) (a_tau args) in
  let s := if f_ltb s (f_of_Z 5) then f_of_Z 5 else s in
  f_mul s s.

(** One sampled proxy. *)
Definition scan_proxy (region : option string) (exclude : option Z) (s : PxScan) (p : Z) : PxScan :=
  if bool_decide (exclude = Some p) || bool_decide (p ∈ ps_seen s) then s
  else
    let seen := {[p]} ∪ ps_seen s in
    let left h := {| ps_hot := h; ps_seen := seen; ps_gone := ps_gone s + 1; ps_cands := ps_cands s |} in
    match h_px (ps_hot s) !! p with
    | Some d =>
        if negb (String.eqb (px_st d) "active") then left (on_pxrdy (delete p) (ps_hot s))
        else
          let pav := Z.max (px_cd d) (px_gcd d) in
          if pav >? now then left (on_pxrdy (zadd_xx_gt p pav) (ps_hot s))
          else if px_al d >=? px_mc d then left (on_pxrdy (zadd_xx_gt p (short_push args)) (ps_hot s))
          else
            {| ps_hot := ps_hot s; ps_seen := seen; ps_gone := ps_gone s;
               ps_cands :=
                 if proxy_admits region d
                 then ps_cands s ++ [({| sel_p := p; sel_pid := px_pid d; sel_mc := px_mc d;
                                         sel_bind := false; sel_rebound := false |}, proxy_weight d)]
                 else ps_cands s |}
    | None => left (on_pxrdy (delete p) (ps_hot s))
    end.

(** The sampling rounds: at most three windows of 16, at random offsets when
    more than 48 proxies are due. *)
Fixpoint scan_rounds (region : option string) (exclude : option Z) (total : Z) (rounds : nat) (round ridx : Z)
    (s : PxScan) : PxScan * Z :=
  match rounds with
  | O => (s, ridx)
  | S rounds' =>
      let due := total - ps_gone s in
      if due <=? 0 then (s, ridx)
      else
        let '(off, ridx) :=
          if total >? 48
          then (f_floor (f_mul (rnd_value args (ridx + 1)) (f_of_Z (Z.max (due - 15) 1))), ridx + 1)
          else (Z.max ((round - 1) * 16 - ps_gone s) 0, ridx) in
        let ids := zrangebyscore (h_pxrdy (ps_hot s)) now (Z.to_nat off) 16 in
        let s' := foldl (scan_proxy region exclude) s ids in
        match ps_cands s' with
        | [] => scan_rounds region exclude total rounds' (round + 1) ridx s'
        | _ => (s', ridx)
        end
  end.

Definition select_proxy (region : option string) (exclude : option Z) (k : Call) : option ProxySel * Call :=
  let total := Z.of_nat (zcount (h_pxrdy (k_hot k)) now) in
  if total =? 0 then (None, k)
  else
    let rounds := Z.to_nat (Z.min ((total + 15) / 16) 3) in
    let '(s, ridx) :=
      scan_rounds region exclude total rounds 1 (k_ridx k)
        {| ps_hot := k_hot k; ps_seen := ∅; ps_gone := 0; ps_cands := [] |} in
    let k := with_ridx ridx (with_hot (ps_hot s) k) in
    match ps_cands s with
    | [] => (None, k)
    | cands =>
        let tw := foldl f_add f_zero cands.*2 in
        let target := f_mul (rnd_value args (ridx + 1)) tw in
        (fst <$> cands !! roulette 0 target f_zero cands.*2, with_ridx (ridx + 1) k)
    end.

(** [None] when no proxy is available; [Some None] for the mode without proxies. *)
Definition assign_proxy (c : Candidate) (k : Call) : option (option ProxySel) * Call :=
  let region := if a_pregion args || bool_decide (a_pmode args = mode_r) then Some (id_rg (c_id c)) else None in
  match a_pmode args with
  | mode_n => (Some None, k)
  | mode_b =>
      match c_bound c with
      | Some sel =>
          let full :=
            (0 <? k_picked k)%nat && (from_option px_al 0 (h_px (k_hot k) !! sel_p sel) >=? sel_mc sel) in
          (if full then None else Some (Some sel), k)
      | None =>
          let '(sel, k) := select_proxy region (c_old_px c) k in
          ((λ s, Some {| sel_p := sel_p s; sel_pid := sel_pid s; sel_mc := sel_mc s; sel_bind := true;
                         sel_rebound := bool_decide (is_Some (c_old_px c)) |}) <$> sel, k)
      end
  | mode_p | mode_r =>
      let '(sel, k) := select_proxy region None k in (Some <$> sel, k)
  end.
End proxy.

(** ** Lease writes *)

Section write.
Variable args : AcquireArgs.
Variables (probe : bool) (stk : option (Z * string)).
Abbreviation now := (a_now args).
Abbreviation eg := (a_eg args).

(** [string.format('%02x', n)] for n below 256. *)
Definition hex_digit (n : Z) : ascii :=
  ascii_of_N (Z.to_N (if n <? 10 then 48 + n else 87 + n)).
Definition hex2 (n : Z) : string := str [hex_digit (n / 16); hex_digit (n mod 16)].

Definition quota_write (vals : list QWin) (qs : gmap Z QWin) : gmap Z QWin :=
  foldl (λ m '((_, w), q),
    let '(idx, n, p) := qwin_at args w q in
    <[w := {| q_c := idx; q_n := n + 1; q_p := p |}]> m) qs (zip (a_quotas args) vals).

(** The reuse values an "acquired" anchor raises. *)
Definition raises (prev : Z) : bool :=
  bool_decide (a_ra args = anchor_acquired) && (a_ri args >? 0) && (now + a_ri args >? prev).

Definition lease_hash (c : Candidate) (sel : option ProxySel) : Lease :=
  let cap := now + a_lifetime args in
  let prev := if bool_decide (a_rs args = scope_site) then id_sru (c_id c) else hs_ru (c_hs c) in
  {| ls_i := c_i c; ls_iid := id_iid (c_id c); ls_e := eg; ls_p := sel_p <$> sel;
     ls_pid := from_option sel_pid "" sel; ls_n := a_node args; ls_tk := a_token args; ls_ns := a_ns args;
     ls_sk := a_session args; ls_a := now; ls_x := Z.min (now + a_ttl args) cap; ls_cap := cap;
     ls_ttl := a_ttl args; ls_st := LeaseActive; ls_pr := probe; ls_mc := a_mc args; ls_ri := a_ri args;
     ls_ra := a_ra args; ls_rs := a_rs args; ls_rc := 0; ls_pru := if raises prev then Some prev else None;
     ls_kx := 0; ls_rv := 0; ls_end := None; ls_keep := None |}.

(** The exclusive-lease end after the new lease, as the identity is rescored. *)
Definition next_xl (c : Candidate) (x : Z) : Z :=
  let xl := if id_al (c_id c) + 1 >? 1 then id_xl (c_id c) else 0 in
  if a_mc args =? 1 then Z.max xl x else xl.

Definition next_sru (c : Candidate) : Z :=
  if bool_decide (a_rs args = scope_site) && raises (id_sru (c_id c)) then now + a_ri args else id_sru (c_id c).

Definition rebinds (c : Candidate) : Z := if String.eqb (id_rbd (c_id c)) (a_today args) then id_rbn (c_id c) else 0.

(** The identity hash after HSET of the changed fields. *)
Definition lease_identity (c : Candidate) (sel : option ProxySel) (x : Z) (d : Identity) : Identity :=
  let d := with_lu now (with_lease_counts (id_al (c_id c) + 1) (if a_mc args =? 1 then next_xl c x else id_xl d) d) in
  let d := if bool_decide (a_rs args = scope_site) && raises (id_sru (c_id c)) then with_sru (now + a_ri args) d else d in
  match sel with
  | Some s =>
      if sel_bind s then
        if sel_rebound s then with_binding (Some (sel_p s)) (a_today args) (rebinds c + 1) d
        else with_binding (Some (sel_p s)) (id_rbd d) (id_rbn d) d
      else d
  | None => d
  end.

Definition lease_hs (c : Candidate) : Hs :=
  let t := c_hs c in
  {| hs_score := hs_score t; hs_sts := hs_sts t; hs_samples := hs_samples t; hs_nfail := hs_nfail t;
     hs_lastfail := hs_lastfail t; hs_cd := hs_cd t;
     hs_ru := if bool_decide (a_rs args = scope_endpoint) && raises (hs_ru t) then now + a_ri args else hs_ru t;
     hs_lu := now |}.

(** HINCRBY of the proxy count, which pushes a full proxy. *)
Definition lease_proxy (s : ProxySel) (x : Z) (h : Hot) : Hot :=
  let pal := from_option px_al 0 (h_px h !! sel_p s) + 1 in
  let h := on_px (alter (with_px_al pal) (sel_p s)) h in
  if pal >=? sel_mc s
  then on_pxrdy (zadd_xx_gt (sel_p s) (if sel_mc s =? 1 then x else short_push args)) h
  else h.

(** The score of the identity in the ready set of the group. *)
Definition lease_score (c : Candidate) (x : Z) : Z :=
  let hs := lease_hs c in
  let av := Z.max now (Z.max (hs_cd hs) (Z.max (hs_ru hs) (Z.max (id_scd (c_id c)) (Z.max (next_sru c)
              (Z.max (next_xl c x) (c_acd c)))))) in
  if (id_al (c_id c) + 1 >=? c_lim c) && (short_push args >? av) then short_push args else av.

Definition write_lease (c : Candidate) (prefix : string) (sel : option ProxySel) (sticky_hit : bool) (k : Call) : Call :=
  let i := c_i c in
  let lid := (prefix +:+ hex2 (i mod a_shards args))%string in
  let l := lease_hash c sel in
  let x := ls_x l in
  let h := on_lsexp (<[lid := x]>) (on_ls (<[lid := l]>) (k_hot k)) in
  let h := on_id (alter (lease_identity c sel x) i) h in
  let h := on_hs (<[(eg, i) := sp_hs_pack (lease_hs c)]>) h in
  let h := if bool_decide (a_quotas args = []) then h
           else on_q (λ m, <[(eg, i) := quota_write (c_q c) (default ∅ (m !! (eg, i)))]> m) h in
  let h := match sel with Some s => lease_proxy s x h | None => h end in
  let h := on_rdy eg (zadd_xx i (lease_score c x)) h in
  let h := match stk with Some key => on_stk (<[key := i]>) h | None => h end in
  let h := mark_dirty {[(Some eg, i); (None, i)]} h in
  let h := if probe then on_brk (alter (λ b, with_hc b (hc b + 1)) eg) h else h in
  let bound := from_option sel_bind false sel in
  let rebound := bound && from_option sel_rebound false sel in
  emitting
    {| lo_lid := lid; lo_iid := id_iid (c_id c); lo_ty := id_ty (c_id c); lo_pv := id_pv (c_id c);
       lo_tv := id_tv (c_id c); lo_x := x; lo_pr := probe; lo_sticky := sticky_hit;
       lo_bind := if rebound then "r" else if bound then "b" else "0"; lo_p := sel_p <$> sel;
       lo_pid := from_option sel_pid "" sel; lo_st := id_st (c_id c); lo_i := i;
       lo_rbn := if rebound then rebinds c + 1 else rebinds c |}
    (with_hot h k).
End write.

(** ** Control flow *)

Inductive AcquireReply :=
| ReplyOK (moved : bool) (leases : list LeaseOut)
| ReplyBreakerOpen (moved : bool) (retry_ms : Z)
| ReplyNoProxy (moved : bool) (retry_ms : Z)
| ReplyExhausted (moved : bool) (retry_ms : Z).

(** The "xg" marker of an identity that [eg] pushed to an exclusive lease. *)
Definition mark_xg (eg : Z) (x : XgMark) : XgMark :=
  match x with
  | xg_none => xg_groups [eg]
  | xg_all => xg_all
  | xg_groups egs => if bool_decide (eg ∈ egs) then x else xg_groups (egs ++ [eg])
  end.

Section main.
Context `{!LuaMath}.
(** The arguments after the gate: a probe call has count 1 and strategy "b". *)
Variable args : AcquireArgs.
Variables (probe : bool) (stk : option (Z * string)).
Abbreviation now := (a_now args).
Abbreviation eg := (a_eg args).

(** The pushes and removals of a candidate that a filter rejected. *)
Definition reject (i : Z) (v : Verdict) (h : Hot) : Hot :=
  match v with
  | VOk _ => h
  | VRem => on_rdy eg (delete i) h
  | VPush t push_xl =>
      let h := on_rdy eg (zadd_xx i t) h in
      if push_xl then on_id (alter (λ d, with_xg (mark_xg eg (id_xg d)) d) i) h else h
  end.

(** A picked candidate leaves the pool; it gets a lease when it gets a proxy. *)
Definition take_candidate (c : Candidate) (k : Call) : Call :=
  let k := skipping (c_i c) k in
  let '(ok, k) := assign_proxy args c k in
  match ok with
  | None => failing k
  | Some sel =>
      let k := picking k in
      let k := if bool_decide (a_strategy args = strategy_r) then with_rr (Some (c_i c)) k else k in
      write_lease args probe stk c (default "" (a_prefixes args !! (k_picked k - 1)%nat)) sel false k
  end.

(** The verdict on entry [j], whose candidate was not verified before: the pool,
    the call and the candidate to take now. *)
Definition verify (j : nat) (e : PoolEntry) (P : Pool) (k : Call) : Pool * Call * option Candidate :=
  let i := pe_id e in
  match evaluate args (k_hot k) i false with
  | VOk c =>
      let es := set_candidate (pl_entries P) j c in
      let wf := ppm_float (a_probe_wf args) in
      if bool_decide (a_strategy args = strategy_w) && String.eqb (id_st (c_id c)) "pending" && f_ltb wf (f_of_Z 1)
      then
        let w := f_mul (key_of args (λ i, h_hs (k_hot k) !! (eg, i)) e) wf in
        let ridx := k_ridx k + 1 in
        ({| pl_entries := set_key es j w; pl_exact := pl_exact P |}, with_ridx ridx k,
         if f_ltb (rnd_value args ridx) wf then Some c else None)
      else ({| pl_entries := es; pl_exact := pl_exact P |}, k, Some c)
  | v =>
      ({| pl_entries := pool_remove (pl_entries P) j; pl_exact := pl_exact P |},
       with_hot (reject i v (k_hot k)) k, None)
  end.

Definition loop_done (P : Pool) (k : Call) : bool :=
  (a_count args <=? k_picked k)%nat || bool_decide (pl_entries P = []) || (3 <=? k_proxy_fail k)%nat.

(** The round-robin cursor, loaded on first use. *)
Definition load_cursor (k : Call) : Call :=
  match a_strategy args, k_rr k with
  | strategy_r, None => with_rr (Some (default 0 (h_rr (k_hot k) !! eg))) k
  | _, _ => k
  end.

(** One iteration of the selection loop. *)
Definition select_step (P : Pool) (k : Call) : Pool * Call :=
  let k := load_cursor k in
  let '(j, ridx, P) :=
    pick_index args (λ i, h_hs (k_hot k) !! (eg, i)) (a_strategy args) (default 0 (k_rr k)) (k_ridx k) P in
  let k := with_ridx ridx k in
  match pl_entries P !! j with
  | None => (P, k)
  | Some e =>
      let '(P, k, taken) := match pe_c e with Some c => (P, k, Some c) | None => verify j e P k end in
      match taken with
      | None => (P, k)
      | Some c =>
          ({| pl_entries := pool_remove (pl_entries P) j; pl_exact := pl_exact P |}, take_candidate c k)
      end
  end.

Fixpoint select_loop (fuel : nat) (P : Pool) (k : Call) : Pool * Call :=
  match fuel with
  | O => (P, k)
  | S fuel' =>
      if loop_done P k then (P, k) else let '(P, k) := select_step P k in select_loop fuel' P k
  end.

(** The sampling rounds.  Every iteration of a round verifies an entry or
    removes one, so twice the number of entries bounds them. *)
Fixpoint acquire_rounds (rounds : nat) (k : Call) : Call :=
  match rounds with
  | O => k
  | S rounds' =>
      let want := Nat.max (a_ksample args) (a_count args - k_picked k) in
      let lim := (want + size (k_skip k))%nat in
      let ids := zrangebyscore (rdy_of (k_hot k) eg) now 0 lim in
      if bool_decide (ids = []) then k
      else
        let k := (select_loop (2 * length ids) (new_pool ids want (k_skip k)) k).2 in
        if (a_count args <=? k_picked k)%nat || (3 <=? k_proxy_fail k)%nat || (length ids <? lim)%nat then k
        else acquire_rounds rounds' k
  end.

Definition sticky_reuse (k : Call) : Call :=
  match stk with
  | None => k
  | Some key =>
      match h_stk (k_hot k) !! key with
      | None => k
      | Some si =>
          if bool_decide (is_Some (rdy_of (k_hot k) eg !! si)) then
            match evaluate args (k_hot k) si true with
            | VOk c =>
                let '(ok, k) := assign_proxy args c k in
                match ok with
                | Some sel => write_lease args probe stk c (default "" (a_prefixes args !! 0%nat)) sel true (picking k)
                | None => skipping si (failing k)
                end
            | _ => k
            end
          else k
      end
  end.

Definition retry_after (z : zset Z) (fallback : Z) : Z :=
  match zrange_withscores z with
  | [] => 60000
  | (_, s) :: _ =>
      let d := s - now in
      if d <=? 0 then fallback else Z.min (Z.max d 50) 60000
  end.

(** Steps 2 to 7. *)
Definition acquire_leases (moved : bool) (h : Hot) : AcquireReply * Hot :=
  let k := {| k_hot := h; k_picked := 0; k_skip := ∅; k_ridx := 0; k_rr := None; k_proxy_fail := 0; k_out := [] |} in
  let k := sticky_reuse k in
  let k := if (k_picked k <? a_count args)%nat then acquire_rounds 3 k else k in
  if (0 <? k_picked k)%nat then
    let h := match k_rr k with Some c => on_rr (<[eg := c]>) (k_hot k) | None => k_hot k end in
    (ReplyOK moved (k_out k), on_aeg (<[eg := now]>) h)
  else if (0 <? k_proxy_fail k)%nat
  then (ReplyNoProxy moved (retry_after (h_pxrdy (k_hot k)) 1000), k_hot k)
  else (ReplyExhausted moved (retry_after (rdy_of (k_hot k) eg) 50), k_hot k).
End main.

Definition as_probe (args : AcquireArgs) : AcquireArgs :=
  {| a_now := a_now args; a_count := 1; a_eg := a_eg args; a_strategy := strategy_b; a_ksample := a_ksample args;
     a_ttl := a_ttl args; a_lifetime := a_lifetime args; a_mc := a_mc args; a_ri := a_ri args; a_ra := a_ra args;
     a_rs := a_rs args; a_probe_wf := a_probe_wf args; a_probe_max := a_probe_max args; a_warmup := a_warmup args;
     a_warmup_factor := a_warmup_factor args; a_baseline := a_baseline args; a_tau := a_tau args;
     a_probe_limit := a_probe_limit args; a_session := a_session args; a_sticky_ttl := a_sticky_ttl args;
     a_shards := a_shards args; a_node := a_node args; a_token := a_token args; a_ns := a_ns args;
     a_pmode := a_pmode args; a_pregion := a_pregion args; a_tolerance := a_tolerance args;
     a_max_rebinds := a_max_rebinds args; a_today := a_today args; a_kinds := a_kinds args;
     a_providers := a_providers args; a_regions := a_regions args; a_tags := a_tags args;
     a_quotas := a_quotas args; a_prefixes := a_prefixes args; a_randoms := a_randoms args |}.

(** acquire.lua: the breaker gate, then the leases. *)
Definition acquire_lua `{!LuaMath} (args : AcquireArgs) (h : Hot) : AcquireReply * Hot :=
  let '(b, moved, gate) := acquire_gate (a_now args) (a_probe_limit args) (default no_hash (h_brk h !! a_eg args)) in
  let h := match h_brk h !! a_eg args with Some _ => on_brk (<[a_eg args := b]>) h | None => h end in
  match gate with
  | GateOpen ms => (ReplyBreakerOpen moved ms, h)
  | GatePass true => acquire_leases (as_probe args) true None moved h
  | GatePass false =>
      let sticky := negb (String.eqb (a_session args) "") && (a_sticky_ttl args >? 0) && (a_count args =? 1)%nat in
      acquire_leases args false (if sticky then Some (a_eg args, a_session args) else None) moved h
  end.
