(* ===== verification/SchedLease.v ===== *)
(** * renew.lua, release.lua, reap.lua and lease_end.lua

    The scripts that extend and end leases, over the hot state of a site. *)

From S2P Require Import Prelude GoStrings GoFloat PolicyBase GoTime LuaCommon PolicyRotation PolicyResolve Breaker SchedState.

Local Open Scope Z_scope.

(** ** Renewal *)

Inductive RenewReply :=
| RenewOK (x : Z) (l : Lease)
| RenewUnknown | RenewReleased | RenewExpired | RenewLifetimeExceeded.

(** The new expiry: [now + extend], at most the cap and never earlier than before. *)
Definition renewed_expiry (now extend : Z) (l : Lease) : Z :=
  let extend := if extend <=? 0 then ls_ttl l else extend in
  Z.max (Z.min (now + extend) (ls_cap l)) (ls_x l).

Definition renew_lua (now : Z) (lid : string) (extend : Z) (ns : string) (h : Hot) : RenewReply * Hot :=
  match h_ls h !! lid with
  | None => (RenewUnknown, h)
  | Some l =>
      if negb (String.eqb ns "") && negb (String.eqb (ls_ns l) ns) then (RenewUnknown, h)
      else match ls_st l with
      | LeaseReleased => (RenewReleased, h)
      | LeaseExpired => (RenewExpired, h)
      | LeaseActive =>
          if now >=? ls_x l then (RenewExpired, h)
          else if ls_x l >=? ls_cap l then (RenewLifetimeExceeded, h)
          else
            let nx := renewed_expiry now extend l in
            let h := on_lsexp (<[lid := nx]>) (on_ls (<[lid := with_expiry nx l]>) h) in
            let h :=
              if ls_mc l =? 1 then
                match h_id h !! ls_i l with
                | Some d =>
                    let h := on_id (<[ls_i l := with_lease_counts (id_al d) (Z.max (id_xl d) nx) d]>) h in
                    on_rdy (ls_e l) (zadd_xx_gt (ls_i l) nx) h
                | None => h
                end
              else h in
            (RenewOK nx (with_expiry nx l), h)
      end
  end.

(** ** The end of a lease *)

(** The endpoint groups of each client of the site, with their health baselines. *)
Abbreviation Layout := (list (list (Z * float64))).

(** [ls_groups]: the groups of the client of [eg]; the last client listing it counts. *)
Definition ls_groups (layout : Layout) (eg : Z) : option (list Z) :=
  foldl (λ acc c, if bool_decide (eg ∈ c.*1) then Some c.*1 else acc) None layout.
Definition ls_baseline (layout : Layout) (eg : Z) : float64 :=
  foldl (λ acc c, foldl (λ acc '(g, b), if g =? eg then b else acc) acc c) (f_of_Z 0) layout.

(** [ls_abort_accounting]: the quota counts and the probe slot of a lease that
    was never delivered. *)
Definition uncount (a w : Z) (m : gmap Z QWin) : gmap Z QWin :=
  match m !! w with
  | Some q => if (q_c q =? a / w) && (q_n q >? 0)
              then <[w := {| q_c := q_c q; q_n := q_n q - 1; q_p := q_p q |}]> m else m
  | None => m
  end.
Definition ls_abort_accounting (l : Lease) (windows : list Z) (h : Hot) : Hot :=
  let h := if ls_a l >? 0 then on_q (alter (λ m, foldl (λ m w, uncount (ls_a l) w m) m windows) (ls_e l, ls_i l)) h
           else h in
  if ls_pr l
  then on_brk (alter (λ b, b_hash (abort_probe (ls_a l) {| b_hash := b; b_brko := true |})) (ls_e l)) h
  else h.

(** The account cooldown raises the level of an identity that has an account. *)
Definition account_level (h : Hot) (d : Identity) (idlevel : Z) : Z :=
  match id_acc d with
  | Some acc => Z.max idlevel (from_option ac_cd 0 (h_acc h !! acc))
  | None => idlevel
  end.

(** A pushed score of another group is lowered to the availability there. *)
Definition restore_score (i end_ms upto idlevel : Z) (h : Hot) (g : Z) : Hot :=
  match rdy_of h g !! i with
  | Some s =>
      if (s >? end_ms) && (s <=? upto) then
        let '(c2, r2) := sp_hs_cd_ru (h_hs h !! (g, i)) in
        let t := Z.max c2 (Z.max r2 (Z.max idlevel end_ms)) in
        if t <? s then on_rdy g (zadd_xx i t) h else h
      else h
  | None => h
  end.

(** The reuse values when the lease ends: those of the identity and of its
    packed state, and what was written. *)
Record ReuseEnd := { re_sru : Z; re_site_written : bool; re_restored_site : bool }.

Definition site_reuse (l : Lease) (end_ms : Z) (abort : bool) (sru : Z) : ReuseEnd :=
  let anchor := negb abort && bool_decide (ls_ra l = anchor_released) && (ls_ri l >? 0) in
  let restore := abort && bool_decide (ls_ra l = anchor_acquired) && (ls_ri l >? 0) && bool_decide (is_Some (ls_pru l)) in
  let site_scope := bool_decide (ls_rs l = scope_site) in
  if anchor && site_scope && (end_ms + ls_ri l >? sru)
  then {| re_sru := end_ms + ls_ri l; re_site_written := true; re_restored_site := false |}
  else if restore && site_scope && (sru =? ls_a l + ls_ri l)
  then {| re_sru := default 0 (ls_pru l); re_site_written := true; re_restored_site := true |}
  else {| re_sru := sru; re_site_written := false; re_restored_site := false |}.

Definition with_hs_ru (ru : Z) (t : Hs) : Hs :=
  {| hs_score := hs_score t; hs_sts := hs_sts t; hs_samples := hs_samples t; hs_nfail := hs_nfail t;
     hs_lastfail := hs_lastfail t; hs_cd := hs_cd t; hs_ru := ru; hs_lu := hs_lu t |}.

(** The packed state of an endpoint-scope reuse anchor: its cd and ru, and the new value when it is written. *)
Definition endpoint_reuse (l : Lease) (end_ms now : Z) (abort : bool) (baseline : float64) (raw : option Hs) :
    Z * Z * option Hs :=
  let anchor := negb abort && bool_decide (ls_ra l = anchor_released) && (ls_ri l >? 0) in
  let restore := abort && bool_decide (ls_ra l = anchor_acquired) && (ls_ri l >? 0) && bool_decide (is_Some (ls_pru l)) in
  if (anchor || restore) && bool_decide (ls_rs l = scope_endpoint) then
    let t := sp_hs_unpack raw baseline now in
    if anchor && (end_ms + ls_ri l >? hs_ru t)
    then (hs_cd t, end_ms + ls_ri l, Some (with_hs_ru (end_ms + ls_ri l) t))
    else if restore && bool_decide (is_Some raw) && (hs_ru t =? ls_a l + ls_ri l)
    then (hs_cd t, default 0 (ls_pru l), Some (with_hs_ru (default 0 (ls_pru l)) t))
    else (hs_cd t, hs_ru t, None)
  else let '(cd, ru) := sp_hs_cd_ru raw in (cd, ru, None).

(** The groups whose score the end of an exclusive lease restores. *)
Definition restored_groups (layout : Layout) (eg : Z) (mark : XgMark) : list Z :=
  match ls_groups layout eg, mark with
  | Some list, xg_groups egs => filter (λ g, g ∈ list) egs
  | Some list, _ => list
  | None, _ => []
  end.

(** The identity part of [ls_end]. *)
Definition end_identity (l : Lease) (end_ms now : Z) (abort : bool) (layout : Layout) (d : Identity) (h : Hot) : Hot :=
  let i := ls_i l in
  let eg := ls_e l in
  let al := Z.max (id_al d - 1) 0 in
  let oldxl := id_xl d in
  let xl := if al =? 0 then 0 else oldxl in
  let re := site_reuse l end_ms abort (id_sru d) in
  let d' := with_sru (re_sru re) (with_lease_counts al xl d) in
  let pushed := match id_xg d with xg_none => false | _ => true end in
  let d' := if pushed && (al =? 0) then with_xg xg_none d' else d' in
  let h := if re_site_written re then mark_dirty {[(None, i)]} h else h in
  let '(hs_cd, hs_ru, hs') := endpoint_reuse l end_ms now abort (ls_baseline layout eg) (h_hs h !! (eg, i)) in
  let h := match hs' with
           | Some t => mark_dirty {[(Some eg, i)]} (on_hs (<[(eg, i) := sp_hs_pack t]>) h)
           | None => h
           end in
  let h := on_id (<[i := d']>) h in
  let idlevel := Z.max (id_scd d) (re_sru re) in
  let idlevel := if al >? 0 then Z.max idlevel xl else idlevel in
  let idlevel := account_level h d idlevel in
  let h := on_rdy eg (zadd_xx i (Z.max hs_cd (Z.max hs_ru (Z.max idlevel end_ms)))) h in
  let h :=
    if pushed && (ls_mc l =? 1) && (oldxl >? 0) && (al =? 0)
    then foldl (restore_score i end_ms oldxl idlevel) h
           (filter (λ g, g ≠ eg) (restored_groups layout eg (id_xg d)))
    else h in
  if re_restored_site re
  then foldl (restore_score i end_ms (ls_a l + ls_ri l) idlevel) h (filter (λ g, g ≠ eg) (mjoin layout).*1)
  else h.

(** The proxy part of [ls_end]. *)
Definition end_proxy (p now : Z) (h : Hot) : Hot :=
  match h_px h !! p with
  | None => h
  | Some d =>
      let pal := Z.max (px_al d - 1) 0 in
      let h := on_px (<[p := with_px_al pal d]>) h in
      if pal <? px_mc d then
        match h_pxrdy h !! p with
        | Some cur =>
            let t := Z.max (px_cd d) (Z.max (px_gcd d) now) in
            if cur >? t then on_pxrdy (zadd_xx p t) h else h
        | None => h
        end
      else h
  end.

(** [abort_windows] is [None] for a lease that was delivered. *)
Definition ls_end (lid : string) (l : Lease) (new_state : LeaseState) (end_ms now late : Z)
    (abort_windows : option (list Z)) (layout : Layout) (h : Hot) : Hot :=
  let keep := Z.max late (ls_kx l - now) in
  let h := on_lsexp (delete lid) (on_ls (<[lid := with_end new_state end_ms keep l]>) h) in
  let h := match abort_windows with Some ws => ls_abort_accounting l ws h | None => h end in
  let h := match h_id h !! ls_i l with
           | Some d => end_identity l end_ms now (bool_decide (is_Some abort_windows)) layout d h
           | None => h
           end in
  match ls_p l with Some p => end_proxy p now h | None => h end.

(** ** Release *)

Inductive ReleaseReply := ReleaseDone (l : Lease) | ReleaseEnded (st : LeaseState) | ReleaseUnknown.

Definition release_lua (now : Z) (lid : string) (late : Z) (ns : string) (abort_windows : option (list Z))
    (layout : Layout) (h : Hot) : ReleaseReply * Hot :=
  match h_ls h !! lid with
  | None => (ReleaseUnknown, h)
  | Some l =>
      if negb (String.eqb ns "") && negb (String.eqb (ls_ns l) ns) then (ReleaseUnknown, h)
      else if bool_decide (ls_st l = LeaseActive)
      then (ReleaseDone l, ls_end lid l LeaseReleased now now late abort_windows layout h)
      else (ReleaseEnded (ls_st l), h)
  end.

(** ** Reaping *)

(** The reply of an expired lease: the lease as it was and whether it was abandoned. *)
Definition reap_one (now late : Z) (layout : Layout) (s : list (string * Lease * bool) * Hot) (lid : string) :
    list (string * Lease * bool) * Hot :=
  let '(out, h) := s in
  match h_ls h !! lid with
  | Some l =>
      if bool_decide (ls_st l = LeaseActive)
      then (out ++ [(lid, l, (ls_rv l =? 0) && (ls_rc l =? 0))],
            ls_end lid l LeaseExpired (ls_x l) now late None layout h)
      else (out, on_lsexp (delete lid) h)
  | None => (out, on_lsexp (delete lid) h)
  end.

Definition reap_lua (now : Z) (limit : nat) (late : Z) (layout : Layout) (h : Hot) :
    nat * list (string * Lease * bool) * Hot :=
  let ids := zrangebyscore (h_lsexp h) now 0 limit in
  let '(out, h) := foldl (reap_one now late layout) ([], h) ids in
  (length ids, out, h).
