(* ===== verification/SchedLedger.v ===== *)
(** * The lease ledger

    What the lease scripts promise about leases, apart from scores, sets and
    selection: an abstract machine whose state is the leases, their expiry
    index, and the counters of identities and proxies.  Its steps are the
    grant, the renewal and the end of a lease, and what other writers of the
    hot state may do in between.  The invariant of the machine gives the
    accounting and the exclusivity of leases; the scripts are shown to refine
    it in [SchedRefine]. *)

From S2P Require Import Prelude GoStrings GoFloat PolicyBase GoTime LuaCommon PolicyRotation PolicyResolve Breaker SchedState.

Local Open Scope Z_scope.

Record Ledger := {
  lg_leases : gmap string Lease;
  lg_exp : zset string;
  lg_held : gmap Z (Z * Z);   (** the lease count and the exclusive end of an identity *)
  lg_used : gmap Z Z;         (** the lease count of a proxy *)
}.

Definition ledger_of (h : Hot) : Ledger :=
  {| lg_leases := h_ls h; lg_exp := h_lsexp h;
     lg_held := (λ d, (id_al d, id_xl d)) <$> h_id h; lg_used := px_al <$> h_px h |}.

Definition active (l : Lease) : bool := bool_decide (ls_st l = LeaseActive).

(** The active leases of an identity and of a proxy. *)
Definition held_by (i : Z) (m : gmap string Lease) : gmap string Lease :=
  filter (λ kv, active kv.2 = true ∧ ls_i kv.2 = i) m.
Definition used_by (p : Z) (m : gmap string Lease) : gmap string Lease :=
  filter (λ kv, active kv.2 = true ∧ ls_p kv.2 = Some p) m.

(** ** Operations *)

Definition grant (lid : string) (l : Lease) (g : Ledger) : Ledger :=
  {| lg_leases := <[lid := l]> (lg_leases g);
     lg_exp := <[lid := ls_x l]> (lg_exp g);
     lg_held := alter (λ '(al, xl),
       (al + 1, if ls_mc l =? 1 then Z.max (if al + 1 >? 1 then xl else 0) (ls_x l) else xl)) (ls_i l) (lg_held g);
     lg_used := match ls_p l with Some p => alter (Z.add 1) p (lg_used g) | None => lg_used g end |}.

Definition extend (lid : string) (l : Lease) (nx : Z) (g : Ledger) : Ledger :=
  {| lg_leases := <[lid := with_expiry nx l]> (lg_leases g);
     lg_exp := <[lid := nx]> (lg_exp g);
     lg_held := if ls_mc l =? 1 then alter (λ '(al, xl), (al, Z.max xl nx)) (ls_i l) (lg_held g) else lg_held g;
     lg_used := lg_used g |}.

Definition finish (lid : string) (l : Lease) (st : LeaseState) (end_ms keep : Z) (g : Ledger) : Ledger :=
  {| lg_leases := <[lid := with_end st end_ms keep l]> (lg_leases g);
     lg_exp := delete lid (lg_exp g);
     lg_held := alter (λ '(al, xl), (Z.max (al - 1) 0, if Z.max (al - 1) 0 =? 0 then 0 else xl)) (ls_i l) (lg_held g);
     lg_used := match ls_p l with Some p => alter (λ al, Z.max (al - 1) 0) p (lg_used g) | None => lg_used g end |}.

(** What the other writers of the hot state leave alone: the leases, up to the
    report counters, and the counters of identities and proxies, which they may
    remove, and create or reset when there is no active lease. *)
Definition same_lease (l l' : Lease) : Prop :=
  ls_i l' = ls_i l ∧ ls_p l' = ls_p l ∧ ls_a l' = ls_a l ∧ ls_x l' = ls_x l ∧ ls_cap l' = ls_cap l ∧
  ls_mc l' = ls_mc l ∧ ls_st l' = ls_st l.

Record foreign (g g' : Ledger) : Prop := {
  fo_exp : lg_exp g' = lg_exp g;
  fo_kept : ∀ lid l, lg_leases g !! lid = Some l →
    match lg_leases g' !! lid with Some l' => same_lease l l' | None => active l = false end;
  fo_old : ∀ lid l', lg_leases g' !! lid = Some l' → is_Some (lg_leases g !! lid);
  fo_held : ∀ i c, lg_held g' !! i = Some c →
    lg_held g !! i = Some c ∨ c.1 = 0 ∧ held_by i (lg_leases g) = ∅;
  fo_used : ∀ p c, lg_used g' !! p = Some c →
    lg_used g !! p = Some c ∨ c = 0 ∧ used_by p (lg_leases g) = ∅;
}.

(** ** Steps

    [t] is the time of the latest script: callers send the time of their clock,
    and the machine assumes that these times do not go back. *)
Inductive lstep : Z * Ledger → Z * Ledger → Prop :=
| lstep_grant t now g lid l al xl :
    t ≤ now → lg_leases g !! lid = None → active l = true → ls_a l = now → now ≤ ls_x l ≤ ls_cap l →
    lg_held g !! ls_i l = Some (al, xl) → al < ls_mc l → (0 < al → xl ≤ now) →
    (∀ p, ls_p l = Some p → is_Some (lg_used g !! p)) →
    lstep (t, g) (now, grant lid l g)
| lstep_extend t now g lid l nx :
    t ≤ now → lg_leases g !! lid = Some l → active l = true → now < ls_x l → ls_x l ≤ nx ≤ ls_cap l →
    lstep (t, g) (now, extend lid l nx g)
| lstep_finish t now g lid l st end_ms keep :
    t ≤ now → lg_leases g !! lid = Some l → active l = true → st ≠ LeaseActive →
    lstep (t, g) (now, finish lid l st end_ms keep g)
| lstep_foreign t now g g' : t ≤ now → foreign g g' → lstep (t, g) (now, g').

Inductive lreachable : Z * Ledger → Prop :=
| lr_new t : lreachable (t, ledger_of no_hot)
| lr_step s s' : lreachable s → lstep s s' → lreachable s'.

(** ** Invariant *)

Record ledger_ok (t : Z) (g : Ledger) : Prop := {
  lo_exp : ∀ lid x, lg_exp g !! lid = Some x ↔
    ∃ l, lg_leases g !! lid = Some l ∧ active l = true ∧ ls_x l = x;
  lo_held : ∀ i al xl, lg_held g !! i = Some (al, xl) → al = Z.of_nat (size (held_by i (lg_leases g)));
  lo_used : ∀ p al, lg_used g !! p = Some al → al = Z.of_nat (size (used_by p (lg_leases g)));
  lo_until : ∀ lid l al xl, lg_leases g !! lid = Some l → active l = true → ls_mc l = 1 →
    lg_held g !! ls_i l = Some (al, xl) → ls_x l ≤ xl;
  lo_time : ∀ lid l, lg_leases g !! lid = Some l → ls_a l ≤ t ∧ ls_a l ≤ ls_x l ≤ ls_cap l;
  lo_excl : ∀ lid1 lid2 l1 l2, lg_leases g !! lid1 = Some l1 → lg_leases g !! lid2 = Some l2 →
    lid1 ≠ lid2 → active l1 = true → active l2 = true → ls_i l1 = ls_i l2 → ls_mc l1 = 1 →
    ls_x l1 ≤ ls_a l2 ∨ ls_mc l2 = 1 ∧ ls_x l2 ≤ ls_a l1;
}.

(** Counting the entries of a map that satisfy a predicate, one key apart. *)
Lemma size_filter_delete {A} (P : string * A → Prop) `{∀ x, Decision (P x)} (m : gmap string A) k :
  Z.of_nat (size (filter P m)) =
  Z.of_nat (size (filter P (delete k m))) +
  match m !! k with Some x => if decide (P (k, x)) then 1 else 0 | None => 0 end.
Proof.
  destruct (m !! k) as [x|] eqn:E; [|by rewrite delete_id, Z.add_0_r].
  rewrite <- (insert_delete_id m k x) at 1 by done. rewrite map_filter_insert.
  destruct (decide (P (k, x))).
  - rewrite map_size_insert_None; [lia|]. rewrite map_lookup_filter, lookup_delete_eq. done.
  - rewrite delete_delete_eq. lia.
Qed.

Definition one_if (b : bool) : Z := if b then 1 else 0.

Lemma held_delete i m lid :
  Z.of_nat (size (held_by i m)) = Z.of_nat (size (held_by i (delete lid m))) +
    match m !! lid with Some l => one_if (active l && (ls_i l =? i)) | None => 0 end.
Proof.
  unfold held_by. rewrite (size_filter_delete _ m lid). f_equal. destruct (m !! lid) as [l|]; [|done].
  unfold one_if. destruct (active l) eqn:E, (Z.eqb_spec (ls_i l) i); cbn;
    (destruct (decide _) as [[? ?]|Hn]; cbn in *; [congruence || done|try done; by destruct Hn]).
Qed.

Lemma used_delete p m lid :
  Z.of_nat (size (used_by p m)) = Z.of_nat (size (used_by p (delete lid m))) +
    match m !! lid with Some l => one_if (active l && bool_decide (ls_p l = Some p)) | None => 0 end.
Proof.
  unfold used_by. rewrite (size_filter_delete _ m lid). f_equal. destruct (m !! lid) as [l|]; [|done].
  unfold one_if. destruct (active l) eqn:E, (bool_decide_reflect (ls_p l = Some p)); cbn;
    (destruct (decide _) as [[? ?]|Hn]; cbn in *; [congruence || done|try done; by destruct Hn]).
Qed.

(** Writing a lease changes the counts by the difference of the two entries. *)
Lemma held_insert i m lid l :
  Z.of_nat (size (held_by i (<[lid := l]> m))) = Z.of_nat (size (held_by i m)) + one_if (active l && (ls_i l =? i)) -
    match m !! lid with Some l => one_if (active l && (ls_i l =? i)) | None => 0 end.
Proof.
  rewrite (held_delete i (<[lid := l]> m) lid), (held_delete i m lid), delete_insert_eq, lookup_insert_eq. lia.
Qed.
Lemma used_insert p m lid l :
  Z.of_nat (size (used_by p (<[lid := l]> m))) =
    Z.of_nat (size (used_by p m)) + one_if (active l && bool_decide (ls_p l = Some p)) -
    match m !! lid with Some l => one_if (active l && bool_decide (ls_p l = Some p)) | None => 0 end.
Proof.
  rewrite (used_delete p (<[lid := l]> m) lid), (used_delete p m lid), delete_insert_eq, lookup_insert_eq. lia.
Qed.

Lemma held_lookup i m lid l : m !! lid = Some l → active l = true → ls_i l = i → 0 < Z.of_nat (size (held_by i m)).
Proof.
  intros Hl Ha Hi. rewrite (held_delete i m lid), Hl, Ha, Hi, Z.eqb_refl. cbn. lia.
Qed.
Lemma used_lookup p m lid l : m !! lid = Some l → active l = true → ls_p l = Some p → 0 < Z.of_nat (size (used_by p m)).
Proof.
  intros Hl Ha Hi. rewrite (used_delete p m lid), Hl, Ha, Hi, bool_decide_eq_true_2 by done. cbn. lia.
Qed.

(** ** The invariant is kept *)

Lemma ledger_ok_new t : ledger_ok t (ledger_of no_hot).
Proof.
  split; cbn; intros *; rewrite ?fmap_empty, ?lookup_empty; try done.
  split; [done|]. by intros (l & H & _).
Qed.

(** The exclusive end after a grant covers the leases that count. *)
Lemma grant_until g t now lid l al xl lid' l' :
  ledger_ok t g → lg_held g !! ls_i l = Some (al, xl) → lg_leases g !! lid = None →
  <[lid := l]> (lg_leases g) !! lid' = Some l' → active l' = true → ls_mc l' = 1 → ls_i l' = ls_i l →
  (0 < al → xl ≤ now) → now ≤ ls_x l →
  ls_x l' ≤ (if ls_mc l =? 1 then Z.max (if al + 1 >? 1 then xl else 0) (ls_x l) else xl).
Proof.
  intros Hok Hheld Hnew Hl' Ha' Hmc' Hi Hxl Hx. destruct (decide (lid = lid')) as [<-|Hne].
  - rewrite lookup_insert_eq in Hl'. simplify_eq. rewrite Hmc'. cbn. lia.
  - rewrite lookup_insert_ne in Hl' by done. rewrite <- Hi in Hheld.
    pose proof (lo_until _ _ Hok _ _ _ _ Hl' Ha' Hmc' Hheld).
    pose proof (lo_held _ _ Hok _ _ _ Hheld) as Hal.
    pose proof (held_lookup _ _ _ _ Hl' Ha' eq_refl).
    replace (al + 1 >? 1) with true by lia. destruct (ls_mc l =? 1); lia.
Qed.

Lemma ledger_ok_grant t now g lid l al xl :
  ledger_ok t g → t ≤ now → lg_leases g !! lid = None → active l = true → ls_a l = now →
  now ≤ ls_x l ≤ ls_cap l → lg_held g !! ls_i l = Some (al, xl) → al < ls_mc l → (0 < al → xl ≤ now) →
  ledger_ok now (grant lid l g).
Proof.
  intros Hok Ht Hnew Hact Ha Hx Hheld Hmc Hxl.
  assert (lg_exp g !! lid = None) as Hexp.
  { apply eq_None_not_Some. intros [x Hx']. apply (lo_exp _ _ Hok) in Hx' as (? & ? & _). congruence. }
  split; cbn [grant lg_leases lg_exp lg_held lg_used].
  - intros lid' x. destruct (decide (lid = lid')) as [<-|Hne].
    + rewrite !lookup_insert_eq. split; [intros [= <-]; eauto|intros (? & ? & _ & <-); congruence].
    + rewrite !lookup_insert_ne by done. apply Hok.
  - intros i al' xl' Hi. rewrite held_insert, Hnew, Hact. apply lookup_alter_Some in Hi.
    destruct Hi as [(<- & [al0 xl0] & Hi & [= -> ->])|(Hne & Hi)].
    + simplify_eq. rewrite (lo_held _ _ Hok _ _ _ Hheld), Z.eqb_refl. cbn. lia.
    + rewrite (lo_held _ _ Hok _ _ _ Hi). rewrite (proj2 (Z.eqb_neq _ _) Hne). cbn. lia.
  - intros p al' Hp. rewrite used_insert, Hnew, Hact.
    destruct (ls_p l) as [q|]; [apply lookup_alter_Some in Hp as [(<- & al0 & Hp & ->)|(Hne & Hp)]|];
      rewrite (lo_used _ _ Hok _ _ Hp); [rewrite bool_decide_eq_true_2 by done|rewrite bool_decide_eq_false_2 by congruence..];
      cbn; lia.
  - intros lid' l' al' xl' Hl' Ha' Hmc' Hi. apply lookup_alter_Some in Hi.
    destruct Hi as [(Heq & [al0 xl0] & Hi & [= -> ->])|(Hne & Hi)].
    + rewrite <- Heq, Hheld in Hi. simplify_eq. eapply (grant_until g t (ls_a l)); eauto; lia.
    + destruct (decide (lid = lid')) as [<-|Hne']; [rewrite lookup_insert_eq in Hl'; congruence|].
      rewrite lookup_insert_ne in Hl' by done. by eapply (lo_until _ _ Hok).
  - intros lid' l' Hl'. destruct (decide (lid = lid')) as [<-|Hne].
    + rewrite lookup_insert_eq in Hl'. simplify_eq. lia.
    + rewrite lookup_insert_ne in Hl' by done. pose proof (lo_time _ _ Hok _ _ Hl'). lia.
  - intros lid1 lid2 l1 l2 H1 H2 Hne Ha1 Ha2 Hi Hmc1.
    rewrite lookup_insert_Some in H1, H2.
    destruct H1 as [[<- <-]|[Hn1 H1]], H2 as [[<- <-]|[Hn2 H2]]; [done|..|by eapply (lo_excl _ _ Hok)].
    + pose proof (held_lookup _ _ _ _ H2 Ha2 (eq_sym Hi)). rewrite (lo_held _ _ Hok _ _ _ Hheld) in Hmc. lia.
    + left. rewrite <- Hi in Hheld. pose proof (lo_until _ _ Hok _ _ _ _ H1 Ha1 Hmc1 Hheld).
      pose proof (held_lookup _ _ _ _ H1 Ha1 eq_refl). pose proof (lo_held _ _ Hok _ _ _ Hheld). lia.
Qed.

Lemma ledger_ok_extend t now g lid l nx :
  ledger_ok t g → t ≤ now → lg_leases g !! lid = Some l → active l = true → now < ls_x l →
  ls_x l ≤ nx ≤ ls_cap l → ledger_ok now (extend lid l nx g).
Proof.
  intros Hok Ht Hl Hact Hx Hnx.
  assert (∀ lid' l', lg_leases g !! lid' = Some l' → ls_a l' ≤ now) as Htime.
  { intros ?? ?%(lo_time _ _ Hok). lia. }
  split; cbn [extend lg_leases lg_exp lg_held lg_used].
  - intros lid' x. destruct (decide (lid = lid')) as [<-|Hne].
    + rewrite !lookup_insert_eq. split; [intros [= <-]; by eexists|intros (? & [= <-] & _ & <-); done].
    + rewrite !lookup_insert_ne by done. apply Hok.
  - intros i al xl Hi. rewrite held_insert, Hl. cbn [with_expiry ls_i].
    change (active (with_expiry nx l)) with (active l).
    assert (∃ xl0, lg_held g !! i = Some (al, xl0)) as [xl0 Hi0].
    { destruct (ls_mc l =? 1); [|by eexists].
      apply lookup_alter_Some in Hi as [(<- & [al0 xl0] & Hi & [= -> ->])|(Hne & Hi)]; eauto. }
    rewrite (lo_held _ _ Hok _ _ _ Hi0). lia.
  - intros p al Hp. rewrite used_insert, Hl, (lo_used _ _ Hok _ _ Hp). cbn [with_expiry ls_p].
    change (active (with_expiry nx l)) with (active l). lia.
  - intros lid' l' al xl Hl' Ha' Hmc' Hi.
    assert (∃ xl0, lg_held g !! ls_i l' = Some (al, xl0) ∧ xl0 ≤ xl ∧ (ls_mc l = 1 → ls_i l = ls_i l' → nx ≤ xl))
      as (xl0 & Hi0 & Hle & Hnew).
    { destruct (Z.eqb_spec (ls_mc l) 1); [|exists xl; repeat split; done || lia].
      apply lookup_alter_Some in Hi as [(Heq & [al0 xl0] & Hi & [= -> ->])|(Hne & Hi)].
      - exists xl0. repeat split; done || lia.
      - exists xl. repeat split; done || lia. }
    apply lookup_insert_Some in Hl' as [[<- <-]|[Hne Hl']]; [cbn in *; lia|].
    pose proof (lo_until _ _ Hok _ _ _ _ Hl' Ha' Hmc' Hi0). lia.
  - intros lid' l' Hl'. apply lookup_insert_Some in Hl' as [[<- <-]|[Hne Hl']].
    + pose proof (lo_time _ _ Hok _ _ Hl). cbn. lia.
    + pose proof (lo_time _ _ Hok _ _ Hl'). lia.
  - intros lid1 lid2 l1 l2 H1 H2 Hne Ha1 Ha2 Hi Hmc1.
    rewrite lookup_insert_Some in H1, H2.
    destruct H1 as [[<- <-]|[Hn1 H1]], H2 as [[<- <-]|[Hn2 H2]]; [done|..|by eapply (lo_excl _ _ Hok)]; cbn in *.
    + destruct (lo_excl _ _ Hok _ _ _ _ Hl H2 Hne Hact Ha2 Hi Hmc1); [|by right].
      pose proof (Htime _ _ H2). lia.
    + destruct (lo_excl _ _ Hok _ _ _ _ H1 Hl Hne Ha1 Hact Hi Hmc1) as [?|[? ?]]; [by left|].
      pose proof (Htime _ _ H1). lia.
Qed.

Lemma ledger_ok_finish t now g lid l st end_ms keep :
  ledger_ok t g → t ≤ now → lg_leases g !! lid = Some l → active l = true → st ≠ LeaseActive →
  ledger_ok now (finish lid l st end_ms keep g).
Proof.
  intros Hok Ht Hl Hact Hst.
  assert (active (with_end st end_ms keep l) = false) as Hend by (by apply bool_decide_eq_false_2).
  split; cbn [finish lg_leases lg_exp lg_held lg_used].
  - intros lid' x. destruct (decide (lid = lid')) as [<-|Hne].
    + rewrite lookup_delete_eq, lookup_insert_eq. split; [done|intros (? & [= <-] & ? & _); congruence].
    + rewrite lookup_delete_ne, lookup_insert_ne by done. apply Hok.
  - intros i al xl Hi. rewrite held_insert, Hl, Hend, Hact. cbn [andb one_if].
    apply lookup_alter_Some in Hi as [(<- & [al0 xl0] & Hi & [= -> ->])|(Hne & Hi)].
    + pose proof (held_lookup _ _ _ _ Hl Hact eq_refl). rewrite Z.eqb_refl, (lo_held _ _ Hok _ _ _ Hi). cbn. lia.
    + rewrite (proj2 (Z.eqb_neq _ _) Hne), (lo_held _ _ Hok _ _ _ Hi). cbn. lia.
  - intros p al Hp. rewrite used_insert, Hl, Hend, Hact. cbn [andb one_if].
    destruct (ls_p l) as [q|] eqn:Hq; [apply lookup_alter_Some in Hp as [(<- & al0 & Hp & ->)|(Hne & Hp)]|];
      rewrite (lo_used _ _ Hok _ _ Hp); [rewrite bool_decide_eq_true_2 by done|rewrite bool_decide_eq_false_2 by congruence..];
      [pose proof (used_lookup _ _ _ _ Hl Hact Hq)|..]; cbn; lia.
  - intros lid' l' al xl Hl' Ha' Hmc' Hi. apply lookup_insert_Some in Hl' as [[<- <-]|[Hne Hl']]; [congruence|].
    apply lookup_alter_Some in Hi as [(Heq & [al0 xl0] & Hi & [= -> ->])|(_ & Hi)]; [|by eapply (lo_until _ _ Hok)].
    pose proof (lo_until _ _ Hok _ _ _ _ Hl' Ha' Hmc' Hi). pose proof (lo_held _ _ Hok _ _ _ Hi) as Hal.
    rewrite (held_delete _ _ lid), Hl, Hact, Heq, Z.eqb_refl in Hal. cbn in Hal.
    pose proof (held_lookup (ls_i l') (delete lid (lg_leases g)) lid' l'
                  ltac:(by rewrite lookup_delete_ne) Ha' eq_refl).
    replace (Z.max (al0 - 1) 0 =? 0) with false by lia. done.
  - intros lid' l' Hl'. apply lookup_insert_Some in Hl' as [[<- <-]|[Hne Hl']].
    + pose proof (lo_time _ _ Hok _ _ Hl). cbn. lia.
    + pose proof (lo_time _ _ Hok _ _ Hl'). lia.
  - intros lid1 lid2 l1 l2 H1 H2 Hne Ha1 Ha2 Hi Hmc1. rewrite lookup_insert_Some in H1, H2.
    destruct H1 as [[<- <-]|[Hn1 H1]], H2 as [[<- <-]|[Hn2 H2]]; try congruence. by eapply (lo_excl _ _ Hok).
Qed.

Lemma foreign_back g g' lid l' :
  foreign g g' → lg_leases g' !! lid = Some l' → ∃ l, lg_leases g !! lid = Some l ∧ same_lease l l'.
Proof.
  intros Hf Hl'. destruct (fo_old _ _ Hf _ _ Hl') as [l Hl]. exists l. split; [done|].
  pose proof (fo_kept _ _ Hf _ _ Hl) as H. by rewrite Hl' in H.
Qed.

Lemma foreign_fwd g g' lid l :
  foreign g g' → lg_leases g !! lid = Some l → active l = true → ∃ l', lg_leases g' !! lid = Some l' ∧ same_lease l l'.
Proof.
  intros Hf Hl Ha. pose proof (fo_kept _ _ Hf _ _ Hl) as H.
  destruct (lg_leases g' !! lid) as [l'|]; [by exists l'|congruence].
Qed.

Lemma same_lease_active l l' : same_lease l l' → active l' = active l.
Proof. intros (? & ? & ? & ? & ? & ? & Hst). unfold active. by rewrite Hst. Qed.

(** A predicate on what [foreign] keeps selects leases with the same ids. *)
Lemma foreign_size g g' (P : Lease → Prop) `{∀ kv : string * Lease, Decision (active kv.2 = true ∧ P kv.2)} :
  foreign g g' → (∀ l l', same_lease l l' → P l ↔ P l') →
  size (filter (λ kv, active kv.2 = true ∧ P kv.2) (lg_leases g')) =
  size (filter (λ kv, active kv.2 = true ∧ P kv.2) (lg_leases g)).
Proof.
  intros Hf HP. rewrite <- !size_dom. f_equal. apply set_eq. intros lid.
  rewrite !elem_of_dom. split; intros [l [Hl [Ha Hp]]%map_lookup_filter_Some]; cbn in *.
  - destruct (foreign_back _ _ _ _ Hf Hl) as (l0 & Hl0 & Hs). exists l0. apply map_lookup_filter_Some; cbn.
    rewrite <- (same_lease_active _ _ Hs). by rewrite (HP _ _ Hs).
  - destruct (foreign_fwd _ _ _ _ Hf Hl Ha) as (l0 & Hl0 & Hs). exists l0. apply map_lookup_filter_Some; cbn.
    rewrite (same_lease_active _ _ Hs). by rewrite <- (HP _ _ Hs).
Qed.

Lemma foreign_held_by g g' i : foreign g g' → size (held_by i (lg_leases g')) = size (held_by i (lg_leases g)).
Proof.
  intros Hf. apply (foreign_size g g' (λ l, ls_i l = i)); [done|]. intros ?? (-> & _). done.
Qed.
Lemma foreign_used_by g g' p : foreign g g' → size (used_by p (lg_leases g')) = size (used_by p (lg_leases g)).
Proof.
  intros Hf. apply (foreign_size g g' (λ l, ls_p l = Some p)); [done|]. intros ?? (_ & -> & _). done.
Qed.

Lemma held_by_empty i m lid l : held_by i m = ∅ → m !! lid = Some l → active l = true → ls_i l ≠ i.
Proof. intros He Hl Ha Hi. pose proof (held_lookup _ _ _ _ Hl Ha Hi) as H. rewrite He, map_size_empty in H. lia. Qed.

Lemma ledger_ok_foreign t now g g' : ledger_ok t g → t ≤ now → foreign g g' → ledger_ok now g'.
Proof.
  intros Hok Ht Hf. split.
  - intros lid x. rewrite (fo_exp _ _ Hf), (lo_exp _ _ Hok). split; intros (l & Hl & Ha & <-).
    + destruct (foreign_fwd _ _ _ _ Hf Hl Ha) as (l' & Hl' & Hs). exists l'.
      rewrite (same_lease_active _ _ Hs). split_and!; [done..|apply Hs].
    + destruct (foreign_back _ _ _ _ Hf Hl) as (l0 & Hl0 & Hs). exists l0.
      rewrite <- (same_lease_active _ _ Hs). split_and!; [done..|symmetry; apply Hs].
  - intros i al xl Hi. rewrite (foreign_held_by _ _ _ Hf).
    destruct (fo_held _ _ Hf _ _ Hi) as [Hi0|[Hz He]]; [by eapply (lo_held _ _ Hok)|].
    cbn in Hz. by rewrite He, map_size_empty.
  - intros p al Hp. rewrite (foreign_used_by _ _ _ Hf).
    destruct (fo_used _ _ Hf _ _ Hp) as [Hp0|[Hz He]]; [by eapply (lo_used _ _ Hok)|].
    by rewrite He, map_size_empty.
  - intros lid l' al xl Hl' Ha' Hmc Hi. destruct (foreign_back _ _ _ _ Hf Hl') as (l & Hl & Hs).
    rewrite (same_lease_active _ _ Hs) in Ha'. destruct Hs as (Hi' & _ & _ & Hx & _ & Hmc' & _).
    rewrite Hi' in Hi. rewrite Hmc' in Hmc. rewrite Hx.
    destruct (fo_held _ _ Hf _ _ Hi) as [Hi0|[_ He]]; [by eapply (lo_until _ _ Hok)|].
    by pose proof (held_by_empty _ _ _ _ He Hl Ha').
  - intros lid l' Hl'. destruct (foreign_back _ _ _ _ Hf Hl') as (l & Hl & _ & _ & Ha & Hx & Hc & _).
    rewrite Ha, Hx, Hc. pose proof (lo_time _ _ Hok _ _ Hl). lia.
  - intros lid1 lid2 l1' l2' H1 H2 Hne Ha1 Ha2 Hi Hmc.
    destruct (foreign_back _ _ _ _ Hf H1) as (l1 & Hl1 & Hs1). destruct (foreign_back _ _ _ _ Hf H2) as (l2 & Hl2 & Hs2).
    rewrite (same_lease_active _ _ Hs1) in Ha1. rewrite (same_lease_active _ _ Hs2) in Ha2.
    destruct Hs1 as (Hi1 & _ & Hb1 & Hx1 & _ & Hm1 & _), Hs2 as (Hi2 & _ & Hb2 & Hx2 & _ & Hm2 & _).
    rewrite Hi1, Hi2 in Hi. rewrite Hm1 in Hmc. rewrite Hx1, Hx2, Hb1, Hb2, Hm2. by eapply (lo_excl _ _ Hok).
Qed.

Lemma lstep_ok t g t' g' : lstep (t, g) (t', g') → ledger_ok t g → ledger_ok t' g'.
Proof.
  intros H Hok. inversion H; subst;
    eauto using ledger_ok_grant, ledger_ok_extend, ledger_ok_finish, ledger_ok_foreign.
Qed.

Lemma lreachable_ok t g : lreachable (t, g) → ledger_ok t g.
Proof.
  intros H. remember (t, g) as s eqn:E. revert t g E.
  induction H as [t0|[t0 g0] [t1 g1] _ IH Hs]; intros t g [= <- <-]; [apply ledger_ok_new|].
  eauto using lstep_ok.
Qed.
