(* ===== verification/SchedRefine.v ===== *)
(** * The lease scripts refine the ledger

    Every run of renew.lua, release.lua, reap.lua and acquire.lua on the hot
    state is a sequence of steps of the lease ledger, so the ledger's invariant
    holds of the hot state. *)

From S2P Require Import Prelude GoStrings GoFloat PolicyBase GoTime LuaCommon PolicyRotation PolicyResolve Breaker.
From S2P Require Import SchedState SchedSelect SchedAcquire SchedLease SchedLedger.

Local Open Scope Z_scope.

(** ** Updates the ledger does not see *)

Lemma ledger_on_hs f h : ledger_of (on_hs f h) = ledger_of h.
Proof. done. Qed.
Lemma ledger_on_rdy eg f h : ledger_of (on_rdy eg f h) = ledger_of h.
Proof. done. Qed.
Lemma ledger_on_pxrdy f h : ledger_of (on_pxrdy f h) = ledger_of h.
Proof. done. Qed.
Lemma ledger_on_q f h : ledger_of (on_q f h) = ledger_of h.
Proof. done. Qed.
Lemma ledger_on_stk f h : ledger_of (on_stk f h) = ledger_of h.
Proof. done. Qed.
Lemma ledger_on_rr f h : ledger_of (on_rr f h) = ledger_of h.
Proof. done. Qed.
Lemma ledger_on_brk f h : ledger_of (on_brk f h) = ledger_of h.
Proof. done. Qed.
Lemma ledger_on_aeg f h : ledger_of (on_aeg f h) = ledger_of h.
Proof. done. Qed.
Lemma ledger_mark_dirty ms h : ledger_of (mark_dirty ms h) = ledger_of h.
Proof. done. Qed.
Create Rewrite HintDb ledger.
#[export] Hint Rewrite ledger_on_hs ledger_on_rdy ledger_on_pxrdy ledger_on_q ledger_on_stk ledger_on_rr
  ledger_on_brk ledger_on_aeg ledger_mark_dirty : ledger.

(** An identity update that keeps the counters is not seen either. *)
Lemma ledger_on_id_alter f i h :
  (∀ d, id_al (f d) = id_al d ∧ id_xl (f d) = id_xl d) → ledger_of (on_id (alter f i) h) = ledger_of h.
Proof.
  intros Hf. unfold ledger_of. cbn. f_equal. apply map_eq. intros j. rewrite !lookup_fmap, lookup_alter.
  destruct (decide (i = j)) as [->|]; [|done]. destruct (h_id h !! j) as [d|]; [|done]. cbn.
  by destruct (Hf d) as [-> ->].
Qed.

(** ** Renewal *)

Lemma renew_ledger now lid extend ns h :
  (∃ x l l0, renew_lua now lid extend ns h = (RenewOK x l, (renew_lua now lid extend ns h).2) ∧
     h_ls h !! lid = Some l0 ∧ active l0 = true ∧ now < ls_x l0 ∧ ls_x l0 ≤ x ≤ ls_cap l0 ∧
     x = renewed_expiry now extend l0 ∧ l = with_expiry x l0 ∧
     ledger_of (renew_lua now lid extend ns h).2 = SchedLedger.extend lid l0 x (ledger_of h))
  ∨ (renew_lua now lid extend ns h).2 = h ∧ ∀ x l, (renew_lua now lid extend ns h).1 ≠ RenewOK x l.
Proof.
  unfold renew_lua. destruct (h_ls h !! lid) as [l|] eqn:Hl; [|by right].
  destruct (_ && _); [by right|]. destruct (ls_st l) eqn:Hst; [|by right..].
  destruct (now >=? ls_x l) eqn:Hx; [by right|]. destruct (ls_x l >=? ls_cap l) eqn:Hc; [by right|].
  left. exists (renewed_expiry now extend l), (with_expiry (renewed_expiry now extend l) l), l.
  assert (ls_x l ≤ renewed_expiry now extend l ≤ ls_cap l) by (unfold renewed_expiry; lia).
  split_and!; [done|done|by apply bool_decide_eq_true_2|lia..|done|done|].
  cbn [snd]. unfold SchedLedger.extend. destruct (ls_mc l =? 1); [|done].
  cbn [h_id on_lsexp on_ls]. destruct (h_id h !! ls_i l) as [d|] eqn:Hd.
  - autorewrite with ledger. unfold ledger_of. cbn. f_equal. apply map_eq. intros j.
    rewrite !lookup_fmap, lookup_alter, !lookup_fmap. destruct (decide (ls_i l = j)) as [<-|Hne].
    + rewrite lookup_insert_eq, Hd. done.
    + by rewrite lookup_insert_ne.
  - unfold ledger_of. cbn. f_equal. rewrite alter_id; [done|]. intros ? Hj. by rewrite lookup_fmap, Hd in Hj.
Qed.

(** ** The end of a lease *)

Lemma restore_score_ledger i end_ms upto idlevel h g : ledger_of (restore_score i end_ms upto idlevel h g) = ledger_of h.
Proof. unfold restore_score. repeat case_match; done. Qed.

Lemma restore_scores_ledger i end_ms upto idlevel gs h :
  ledger_of (foldl (restore_score i end_ms upto idlevel) h gs) = ledger_of h.
Proof. revert h. induction gs as [|g gs IH]; intros h; cbn; [done|]. by rewrite IH, restore_score_ledger. Qed.

Lemma ls_abort_accounting_ledger l ws h : ledger_of (ls_abort_accounting l ws h) = ledger_of h.
Proof. unfold ls_abort_accounting. by repeat case_match. Qed.
#[export] Hint Rewrite restore_scores_ledger ls_abort_accounting_ledger : ledger.

Lemma end_identity_ledger l end_ms now abort layout d h :
  h_id h !! ls_i l = Some d →
  ledger_of (end_identity l end_ms now abort layout d h) =
  {| lg_leases := h_ls h; lg_exp := h_lsexp h;
     lg_held := alter (λ '(al, xl), (Z.max (al - 1) 0, if Z.max (al - 1) 0 =? 0 then 0 else xl)) (ls_i l)
                  (lg_held (ledger_of h));
     lg_used := lg_used (ledger_of h) |}.
Proof.
  intros Hd. unfold end_identity.
  destruct (endpoint_reuse _ _ _ _ _ _) as [[cd ru] hs'].
  set (d' := if _ && _ then with_xg _ _ else _).
  assert (id_al d' = Z.max (id_al d - 1) 0 ∧ id_xl d' = if Z.max (id_al d - 1) 0 =? 0 then 0 else id_xl d) as [Hal Hxl].
  { unfold d'. by destruct (_ && _). }
  clearbody d'. destruct (re_restored_site _); autorewrite with ledger;
    (destruct (_ && _ && _ && _); autorewrite with ledger);
    destruct hs', (re_site_written _); unfold ledger_of; cbn; f_equal; apply map_eq; intros j;
    rewrite !lookup_fmap, lookup_alter, !lookup_fmap; (destruct (decide (ls_i l = j)) as [<-|Hne];
      [rewrite lookup_insert_eq, Hd; cbn; by rewrite Hal, Hxl|by rewrite lookup_insert_ne]).
Qed.

Lemma end_proxy_ledger p now h :
  ledger_of (end_proxy p now h) =
  {| lg_leases := h_ls h; lg_exp := h_lsexp h; lg_held := lg_held (ledger_of h);
     lg_used := alter (λ al, Z.max (al - 1) 0) p (lg_used (ledger_of h)) |}.
Proof.
  unfold end_proxy. destruct (h_px h !! p) as [d|] eqn:Hd.
  - set (h' := if _ <? _ then _ else _).
    assert (ledger_of h' = ledger_of (on_px (<[p := with_px_al (Z.max (px_al d - 1) 0) d]>) h)) as ->
      by (unfold h'; by repeat case_match).
    unfold ledger_of. cbn. f_equal. apply map_eq. intros j. rewrite !lookup_fmap, lookup_alter, !lookup_fmap.
    destruct (decide (p = j)) as [<-|Hne]; [by rewrite lookup_insert_eq, Hd|by rewrite lookup_insert_ne].
  - unfold ledger_of. cbn. f_equal. rewrite alter_id; [done|]. intros ? Hj. by rewrite lookup_fmap, Hd in Hj.
Qed.

Lemma ls_end_ledger lid l st end_ms now late ws layout h :
  ledger_of (ls_end lid l st end_ms now late ws layout h) =
  finish lid l st end_ms (Z.max late (ls_kx l - now)) (ledger_of h).
Proof.
  unfold ls_end, finish. set (h1 := on_lsexp _ _).
  set (h2 := match ws with Some _ => _ | None => _ end).
  assert (ledger_of h2 = ledger_of h1 ∧ h_id h2 = h_id h) as [H2 Hid].
  { unfold h2. destruct ws; [|done]. split; [by autorewrite with ledger|].
    unfold ls_abort_accounting. by repeat case_match. }
  clearbody h2. set (h3 := match h_id h2 !! _ with Some _ => _ | None => _ end).
  assert (ledger_of h3 = {| lg_leases := lg_leases (ledger_of h1); lg_exp := lg_exp (ledger_of h1);
     lg_held := alter (λ '(al, xl), (Z.max (al - 1) 0, if Z.max (al - 1) 0 =? 0 then 0 else xl)) (ls_i l)
                  (lg_held (ledger_of h1)); lg_used := lg_used (ledger_of h1) |}) as H3.
  { unfold h3. destruct (h_id h2 !! ls_i l) as [d|] eqn:Hd.
    - rewrite end_identity_ledger by done. rewrite <- H2. done.
    - rewrite <- H2. unfold ledger_of at 1. cbn. f_equal. rewrite alter_id; [done|].
      intros ? Hj. by rewrite lookup_fmap, Hd in Hj. }
  clearbody h3. destruct (ls_p l) as [p|].
  - rewrite end_proxy_ledger.
    change (h_ls h3) with (lg_leases (ledger_of h3)). change (h_lsexp h3) with (lg_exp (ledger_of h3)).
    by rewrite H3.
  - by rewrite H3.
Qed.

(** ** Updates of acquire.lua that grant nothing

    Scores move and "xg" markers are set; the rest stays. *)
Definition without_xg (d : Identity) : Identity := with_xg xg_none d.

Record quiet (h h' : Hot) : Prop := {
  qt_acc : h_acc h' = h_acc h;
  qt_hs : h_hs h' = h_hs h;
  qt_q : h_q h' = h_q h;
  qt_px : h_px h' = h_px h;
  qt_ls : h_ls h' = h_ls h;
  qt_exp : h_lsexp h' = h_lsexp h;
  qt_id : ∀ i, without_xg <$> h_id h' !! i = without_xg <$> h_id h !! i;
}.

#[export] Instance quiet_preorder : PreOrder quiet.
Proof.
  split; [by split|]. intros h1 h2 h3 [] []. split; try congruence.
Qed.

Lemma quiet_ledger h h' : quiet h h' → ledger_of h' = ledger_of h.
Proof.
  intros []. unfold ledger_of. f_equal; try congruence.
  apply map_eq. intros i. rewrite !lookup_fmap. specialize (qt_id0 i).
  destruct (h_id h' !! i) as [d'|], (h_id h !! i) as [d|]; cbn in *; try done.
  apply (inj Some) in qt_id0. f_equal.
  change (id_al d') with (id_al (without_xg d')). change (id_xl d') with (id_xl (without_xg d')). by rewrite qt_id0.
Qed.

(** ** Lifecycle states and cooldowns of identities, which no lease script changes *)

Definition cd_of (h : Hot) (eg i : Z) : Z := (sp_hs_cd_ru (h_hs h !! (eg, i))).1.

Record same_life (h h' : Hot) : Prop := {
  sl_id : ∀ i, (λ d, (id_st d, id_scd d)) <$> h_id h' !! i = (λ d, (id_st d, id_scd d)) <$> h_id h !! i;
  sl_cd : ∀ eg i, cd_of h' eg i = cd_of h eg i;
}.
#[export] Instance same_life_preorder : PreOrder same_life.
Proof. split; [by split|]. intros h1 h2 h3 [] []. split; congruence. Qed.

Lemma same_life_eq h h' : h_id h' = h_id h → h_hs h' = h_hs h → same_life h h'.
Proof. intros Ei Eh. split; [by rewrite Ei|]. intros eg i. unfold cd_of. by rewrite Eh. Qed.

Lemma quiet_life h h' : quiet h h' → same_life h h'.
Proof.
  intros []. split; [|intros eg i; unfold cd_of; by rewrite qt_hs0]. intros i. specialize (qt_id0 i).
  destruct (h_id h' !! i) as [d'|], (h_id h !! i) as [d|]; try done. cbn in *. apply (inj Some) in qt_id0. f_equal.
  change ((id_st (without_xg d'), id_scd (without_xg d')) = (id_st (without_xg d), id_scd (without_xg d))). by rewrite qt_id0.
Qed.

Lemma quiet_on_rdy eg f h : quiet h (on_rdy eg f h).
Proof. by split. Qed.
Lemma quiet_on_pxrdy f h : quiet h (on_pxrdy f h).
Proof. by split. Qed.
#[export] Hint Resolve quiet_on_rdy quiet_on_pxrdy : spin.

Lemma reject_quiet args i v h : quiet h (reject args i v h).
Proof.
  destruct v as [c| |t [|]]; cbn [reject]; [done|auto with spin| |auto with spin].
  etrans; [apply (quiet_on_rdy (a_eg args) (zadd_xx i t))|]. split; try done.
  intros j. cbn. rewrite lookup_alter. destruct (decide (i = j)) as [->|]; [|done].
  by destruct (h_id h !! j).
Qed.

(** The fields of a call that picking a proxy leaves alone. *)
Definition same_call (k k' : Call) : Prop :=
  k_picked k' = k_picked k ∧ k_skip k' = k_skip k ∧ k_rr k' = k_rr k ∧
  k_proxy_fail k' = k_proxy_fail k ∧ k_out k' = k_out k.

#[export] Instance same_call_preorder : PreOrder same_call.
Proof. split; [by repeat split|]. intros k1 k2 k3 (? & ? & ? & ? & ?) (? & ? & ? & ? & ?). repeat split; congruence. Qed.

Section proxies.
Context `{!LuaMath}.
Variable args : AcquireArgs.

(** A proxy that can serve a lease now: active, not cooling and not full. *)
Definition proxy_free (h : Hot) (s : ProxySel) : Prop :=
  ∃ d, h_px h !! sel_p s = Some d ∧ px_st d = "active" ∧ px_cd d ≤ a_now args ∧ px_gcd d ≤ a_now args ∧
    px_al d < px_mc d ∧ sel_mc s = px_mc d ∧ sel_pid s = px_pid d.

Record scan_ok (h : Hot) (region : option string) (s : PxScan) : Prop := {
  sc_quiet : quiet h (ps_hot s);
  sc_cands : Forall (λ sw, proxy_free h sw.1 ∧
    ∃ d, h_px h !! sel_p sw.1 = Some d ∧ proxy_admits args region d = true) (ps_cands s);
}.

Lemma scan_proxy_ok h region exclude s p : scan_ok h region s → scan_ok h region (scan_proxy args region exclude s p).
Proof.
  intros [Hq Hc]. unfold scan_proxy. destruct (_ || _); [done|].
  destruct (h_px (ps_hot s) !! p) as [d|] eqn:Hd; [|by split; [etrans; [done|apply quiet_on_pxrdy]|]].
  destruct (negb _) eqn:Hst; [by split; [etrans; [done|apply quiet_on_pxrdy]|]|].
  destruct (_ >? a_now args) eqn:Hcd; [by split; [etrans; [done|apply quiet_on_pxrdy]|]|].
  destruct (px_al d >=? px_mc d) eqn:Hal; [by split; [etrans; [done|apply quiet_on_pxrdy]|]|].
  split; [done|]. cbn [ps_cands]. destruct (proxy_admits args region d) eqn:Had; [|done].
  apply Forall_app; split; [done|]. constructor; [|done]. cbn [fst].
  rewrite (qt_px _ _ Hq) in Hd. bool_to_prop. split; exists d; cbn [sel_p sel_mc sel_pid]; [|done].
  split_and!; try done; lia.
Qed.

Lemma scan_rounds_ok h region exclude total rounds round ridx s :
  scan_ok h region s → scan_ok h region (scan_rounds args region exclude total rounds round ridx s).1.
Proof.
  revert round ridx s. induction rounds as [|rounds IH]; intros round ridx s Hs; cbn [scan_rounds]; [done|].
  destruct (_ <=? 0); [done|]. destruct (if total >? 48 then _ else _) as [off ridx'].
  set (ids := zrangebyscore _ _ _ _). assert (scan_ok h region (foldl (scan_proxy args region exclude) s ids)) as Hs'.
  { clearbody ids. clear -Hs. revert s Hs. induction ids as [|p ids IH]; intros s Hs; cbn; [done|]. apply IH, scan_proxy_ok, Hs. }
  destruct (ps_cands _); [by apply IH|done].
Qed.

Lemma roulette_lt j target acc ws : ws ≠ [] → (roulette j target acc ws < j + length ws)%nat.
Proof.
  revert j acc. induction ws as [|w ws IH]; intros j acc Hne; [done|]. cbn [roulette length].
  destruct (f_ltb target _); [lia|]. destruct ws as [|w' ws']; [cbn; lia|].
  specialize (IH (S j) (f_add acc w) ltac:(done)). lia.
Qed.

(** [select_proxy] changes scores only, and what it selects is free. *)
Lemma select_proxy_ok region exclude k sel k' :
  select_proxy args region exclude k = (sel, k') →
  quiet (k_hot k) (k_hot k') ∧ same_call k k' ∧
  ∀ s, sel = Some s → proxy_free (k_hot k) s ∧
    ∃ d, h_px (k_hot k) !! sel_p s = Some d ∧ proxy_admits args region d = true.
Proof.
  unfold select_proxy. destruct (_ =? 0); [intros [= <- <-]; split_and!; done || by repeat split|].
  destruct (scan_rounds _ _ _ _ _ _ _ _) as [s ridx] eqn:Hs.
  assert (scan_ok (k_hot k) region s) as [Hq Hc].
  { change s with (s, ridx).1. rewrite <- Hs. apply scan_rounds_ok. by split. }
  destruct (ps_cands s) as [|c cs] eqn:Hcs; intros [= <- <-]; (split_and!; [done|by repeat split|]); [done|].
  intros sel Hsel. apply fmap_Some in Hsel as ([sel' w] & Hsel & ->). cbn [fst].
  rewrite Forall_forall in Hc. apply list_elem_of_lookup_2 in Hsel. by apply (Hc (sel', w)) in Hsel.
Qed.
End proxies.
