(* ===== verification/SchedGrant.v ===== *)
(** * acquire.lua refines the ledger

    A run of acquire.lua is a sequence of grants of the lease ledger.  The
    invariant of the selection loop relates the state in the middle of the
    script to the state it started from: an identity that was not taken yet is
    as it was, so a candidate that was verified earlier in the loop is still
    what its verification read. *)

From S2P Require Import Prelude GoStrings GoFloat PolicyBase GoTime LuaCommon PolicyRotation PolicyResolve Breaker.
From S2P Require Import SchedState SchedSelect SchedAcquire SchedLease SchedLedger SchedRefine.

Local Open Scope Z_scope.

(** ** Lease ids *)

Lemma hex2_length n : length (bs (hex2 n)) = 2%nat.
Proof. unfold hex2. by rewrite bs_str. Qed.

Lemma lease_id_inj p p' n n' : (p +:+ hex2 n = p' +:+ hex2 n')%string → p = p'.
Proof.
  intros H. rewrite <- (str_bs p), <- (str_bs p'). f_equal.
  assert (bs p ++ bs (hex2 n) = bs p' ++ bs (hex2 n')) as H' by (by rewrite <- !bs_app, H).
  apply app_inj_2 in H' as [? _]; [done|]. by rewrite !hex2_length.
Qed.

(** ** Verified candidates *)

Section candidates.
Context {lua : LuaMath}.
Variable args : AcquireArgs.
Abbreviation now := (a_now args).
Abbreviation eg := (a_eg args).

(** What the filters guarantee of a candidate, on the state they read. *)
Record cand_ok (h : Hot) (sticky : bool) (c : Candidate) : Prop := {
  cn_id : ∃ d, h_id h !! c_i c = Some d ∧ c_id c = read_identity args d;
  cn_hs : c_hs c = sp_hs_unpack (h_hs h !! (eg, c_i c)) (a_baseline args) now;
  cn_ready : is_ready (id_st (c_id c)) = true;
  cn_avail : (avail_bound args h (c_id c) (c_hs c) sticky).1 ≤ now;
  cn_lim : c_lim c = lease_limit args (id_st (c_id c));
  cn_free : id_al (c_id c) < c_lim c;
  cn_q : c_q c = quota_values args h (c_i c);
  cn_quota : quota_push args (id_act (c_id c)) (c_q c) = None;
}.

Definition bound_ok (h : Hot) (c : Candidate) : Prop :=
  ∀ s, c_bound c = Some s → proxy_free args h s ∧ sel_bind s = false.

Lemma bind_check_use h d s : bind_check args h d = BindUse s → proxy_free args h s ∧ sel_bind s = false.
Proof.
  unfold bind_check. intros H. destruct (id_px d) as [p|]; [|done].
  destruct (h_px h !! p) as [ph|] eqn:Hp; [|by destruct (_ >=? _) in H].
  destruct (String.eqb _ _) eqn:Hst; [|by destruct (_ >=? _) in H].
  destruct (_ <=? now) eqn:Hav; [|destruct (_ <=? a_tolerance args); [done|by destruct (_ >=? _) in H]].
  destruct (px_al ph >=? px_mc ph) eqn:Hal; [done|]. simplify_eq. split; [|done].
  exists ph. bool_to_prop. cbn. split_and!; try done; lia.
Qed.

Lemma evaluate_ok h i sticky c :
  evaluate args h i sticky = VOk c → c_i c = i ∧ cand_ok h sticky c ∧ bound_ok h c.
Proof.
  unfold evaluate. intros H. destruct (h_id h !! i) as [d|] eqn:Hd; [|done].
  destruct (negb _) eqn:Hst; [done|]. destruct (avail_bound _ _ _ _ _) as [av acd] eqn:Hav.
  destruct (av >? now) eqn:Hnow; [done|]. destruct (_ >=? _) eqn:Hal; [done|].
  destruct (quota_push _ _ _) eqn:Hq; [done|].
  assert (∃ bound old, c = {| c_i := i; c_id := read_identity args d;
      c_hs := sp_hs_unpack (h_hs h !! (eg, i)) (a_baseline args) now; c_acd := acd;
      c_lim := lease_limit args (id_st (read_identity args d)); c_q := quota_values args h i;
      c_bound := bound; c_old_px := old |} ∧
      ∀ s, bound = Some s → proxy_free args h s ∧ sel_bind s = false) as (bound & old & -> & Hb).
  { destruct (bool_decide (a_pmode args = mode_b)); [|simplify_eq; by exists None, None].
    destruct (bind_check _ _ _) as [t|s|o] eqn:Hbc; simplify_eq; [|by exists None, o].
    exists (Some s), None. split; [done|]. intros ? [= <-]. by eapply bind_check_use. }
  apply negb_false_iff in Hst. split; [done|]. split; [|done].
  split; cbn; rewrite ?Hav; cbn; try done; try lia. by exists d.
Qed.

(** The verification depends on the account, the state and the quota counts of
    the identity, and on its hash without the "xg" marker. *)
Lemma read_identity_without d : read_identity args (without_xg d) = read_identity args d.
Proof. unfold read_identity. by destruct (_ || _). Qed.
Lemma read_identity_xg d d' : without_xg d = without_xg d' → read_identity args d = read_identity args d'.
Proof. intros H. by rewrite <- read_identity_without, H, read_identity_without. Qed.

Lemma read_identity_counts d : id_al (read_identity args d) = id_al d ∧ id_xl (read_identity args d) = id_xl d.
Proof. unfold read_identity. by destruct (_ || _). Qed.

Lemma cand_ok_frame h h' sticky c :
  cand_ok h' sticky c → h_acc h' = h_acc h →
  without_xg <$> h_id h' !! c_i c = without_xg <$> h_id h !! c_i c →
  h_hs h' !! (eg, c_i c) = h_hs h !! (eg, c_i c) → h_q h' !! (eg, c_i c) = h_q h !! (eg, c_i c) →
  cand_ok h sticky c.
Proof.
  intros [(d' & Hd' & Hc) Hhs Hr Hav Hlim Hfree Hq Hqp] Hacc Hid Hhs' Hq'.
  split; try done.
  - rewrite Hd' in Hid. destruct (h_id h !! c_i c) as [d|]; [|done]. exists d. split; [done|].
    rewrite Hc. apply read_identity_xg. by apply (inj Some) in Hid.
  - by rewrite Hhs, Hhs'.
  - replace (avail_bound args h (c_id c) (c_hs c) sticky) with (avail_bound args h' (c_id c) (c_hs c) sticky); [done|].
    unfold avail_bound, account_avail. by rewrite Hacc.
  - rewrite Hq. unfold quota_values. by rewrite Hq'.
Qed.

Lemma lease_limit_le st : lease_limit args st ≤ a_mc args.
Proof. unfold lease_limit. destruct (_ && _) eqn:E; bool_to_prop; lia. Qed.

(** The exclusive lease of an available identity is over. *)
Lemma avail_exclusive h d hs sticky :
  (avail_bound args h d hs sticky).1 ≤ now → 0 < id_al d → id_xl d ≤ now.
Proof.
  unfold avail_bound. intros H Hal. set (av := if sticky then _ else _) in H.
  assert ((if (id_al d >? 0) && (id_xl d >? av) then id_xl d else av) ≤ now) as Hle.
  { destruct (id_acc d); [|done]. unfold account_avail in H. repeat case_match; cbn in H; lia. }
  destruct ((id_al d >? 0) && (id_xl d >? av)) eqn:E; [done|]. lia.
Qed.
End candidates.

(** ** What one lease write changes *)

Section write.
Context {lua : LuaMath}.
Variable args : AcquireArgs.
Variables (probe : bool) (stk : option (Z * string)).
Abbreviation now := (a_now args).
Abbreviation eg := (a_eg args).

Definition lease_id (prefix : string) (c : Candidate) : string := (prefix +:+ hex2 (c_i c mod a_shards args))%string.

Record written (c : Candidate) (lid : string) (sel : option ProxySel) (h h' : Hot) : Prop := {
  wr_acc : h_acc h' = h_acc h;
  wr_ls : h_ls h' = <[lid := lease_hash args probe c sel]> (h_ls h);
  wr_exp : h_lsexp h' = <[lid := ls_x (lease_hash args probe c sel)]> (h_lsexp h);
  wr_id : h_id h' = alter (lease_identity args c sel (ls_x (lease_hash args probe c sel))) (c_i c) (h_id h);
  wr_hs : ∀ key, key ≠ (eg, c_i c) → h_hs h' !! key = h_hs h !! key;
  wr_cd : cd_of h' eg (c_i c) = hs_cd (c_hs c);
  wr_q : ∀ key, key ≠ (eg, c_i c) → h_q h' !! key = h_q h !! key;
  wr_px : h_px h' = match sel with
    | Some s => alter (λ d, with_px_al (px_al d + 1) d) (sel_p s) (h_px h)
    | None => h_px h
    end;
}.

Lemma alter_count (m : gmap Z Proxy) p :
  alter (with_px_al (from_option px_al 0 (m !! p) + 1)) p m = alter (λ d, with_px_al (px_al d + 1) d) p m.
Proof.
  apply map_eq. intros q. rewrite !lookup_alter. destruct (decide (p = q)) as [->|]; [|done].
  by destruct (m !! q).
Qed.

Lemma write_lease_written c prefix sel sticky k :
  written c (lease_id prefix c) sel (k_hot k) (k_hot (write_lease args probe stk c prefix sel sticky k)).
Proof.
  unfold write_lease, lease_proxy, lease_id.
  split; destruct sel as [s|], probe, stk, (bool_decide (a_quotas args = [])); cbn; try done;
    try (destruct (_ >=? _); cbn; try done; apply alter_count);
    try (unfold cd_of; repeat case_match; cbn; rewrite lookup_insert_eq; done);
    try (intros key Hkey; rewrite ?lookup_insert_ne by done; repeat case_match; cbn; rewrite ?lookup_insert_ne by done; done).
Qed.

Lemma write_lease_call c prefix sel sticky k :
  let k' := write_lease args probe stk c prefix sel sticky k in
  k_picked k' = k_picked k ∧ k_skip k' = k_skip k ∧ k_rr k' = k_rr k ∧ k_proxy_fail k' = k_proxy_fail k ∧
  ∃ o, k_out k' = k_out k ++ [o] ∧ lo_lid o = lease_id prefix c ∧ lo_i o = c_i c ∧
    lo_x o = ls_x (lease_hash args probe c sel) ∧ lo_p o = sel_p <$> sel ∧ lo_pr o = probe ∧ lo_st o = id_st (c_id c) ∧
    lo_sticky o = sticky.
Proof. cbn. split_and!; try done. eexists. split_and!; done. Qed.

Lemma lease_identity_counts c sel x d :
  id_al d = id_al (c_id c) → id_xl d = id_xl (c_id c) →
  id_al (lease_identity args c sel x d) = id_al d + 1 ∧
  id_xl (lease_identity args c sel x d) =
    if a_mc args =? 1 then Z.max (if id_al d + 1 >? 1 then id_xl d else 0) x else id_xl d.
Proof.
  intros Hal Hxl. unfold lease_identity, next_xl. rewrite <- Hal, <- Hxl.
  destruct (bool_decide _ && _), sel as [s|]; cbn; try (by destruct (a_mc args =? 1));
    destruct (sel_bind s), (sel_rebound s); cbn; by destruct (a_mc args =? 1).
Qed.

(** A written lease is a grant. *)
Lemma written_grant c lid sel h h' d :
  written c lid sel h h' → h_id h !! c_i c = Some d → id_al d = id_al (c_id c) → id_xl d = id_xl (c_id c) →
  ledger_of h' = grant lid (lease_hash args probe c sel) (ledger_of h).
Proof.
  intros [] Hd Hal Hxl. unfold ledger_of, grant. cbn [lg_leases lg_exp lg_held lg_used].
  rewrite wr_ls0, wr_exp0, wr_id0, wr_px0. f_equal.
  - apply map_eq. intros j. rewrite !lookup_fmap, !lookup_alter, !lookup_fmap.
    change (ls_i (lease_hash args probe c sel)) with (c_i c).
    destruct (decide (c_i c = j)) as [<-|]; [|done]. rewrite Hd. cbn [fmap option_fmap option_map].
    by destruct (lease_identity_counts c sel (ls_x (lease_hash args probe c sel)) d Hal Hxl) as [-> ->].
  - destruct sel as [s|]; [|done]. cbn. apply map_eq. intros j. rewrite !lookup_fmap, !lookup_alter, !lookup_fmap.
    destruct (decide (sel_p s = j)) as [<-|]; [|done]. destruct (h_px h !! sel_p s); [|done]. cbn. f_equal. lia.
Qed.

Lemma lease_identity_life c sel x d : id_st (lease_identity args c sel x d) = id_st d ∧ id_scd (lease_identity args c sel x d) = id_scd d.
Proof. unfold lease_identity. destruct (bool_decide _ && _), sel as [s|]; try done; by destruct (sel_bind s), (sel_rebound s). Qed.

Lemma written_life c lid sel h h' :
  written c lid sel h h' → hs_cd (c_hs c) = cd_of h eg (c_i c) → same_life h h'.
Proof.
  intros [] Hcd. split.
  - intros i. rewrite wr_id0, lookup_alter. destruct (decide (c_i c = i)) as [<-|]; [|done]. destruct (h_id h !! c_i c) as [d|]; [|done].
    cbn [fmap option_fmap option_map]. by destruct (lease_identity_life c sel (ls_x (lease_hash args probe c sel)) d) as [-> ->].
  - intros g i. destruct (decide ((g, i) = (eg, c_i c))) as [[= -> ->]|Hne]; [congruence|]. unfold cd_of. by rewrite wr_hs0.
Qed.

Lemma written_other c lid sel h h' i :
  written c lid sel h h' → i ≠ c_i c → h_id h' !! i = h_id h !! i.
Proof. intros [] Hne. rewrite wr_id0. by rewrite lookup_alter_ne. Qed.
End write.

(** ** The invariant of a call *)

Section call.
Context {lua : LuaMath}.
Variable args : AcquireArgs.
Variables (probe : bool) (stk : option (Z * string)).
Variable h0 : Hot.
Abbreviation now := (a_now args).
Abbreviation eg := (a_eg args).

(** Lease ids are new: the prefixes are distinct and no lease carries one. *)
Hypothesis prefixes_distinct : NoDup (a_prefixes args).
Hypothesis prefixes_enough : (a_count args ≤ length (a_prefixes args))%nat.
Hypothesis lease_times : 0 ≤ a_ttl args ∧ 0 ≤ a_lifetime args.

Definition untouched (i : Z) (h : Hot) : Prop :=
  without_xg <$> h_id h !! i = without_xg <$> h_id h0 !! i ∧
  h_hs h !! (eg, i) = h_hs h0 !! (eg, i) ∧ h_q h !! (eg, i) = h_q h0 !! (eg, i).

(** No proxy gets more leases than it allows. *)
Definition proxies_within (h : Hot) : Prop :=
  ∀ p, match h_px h !! p, h_px h0 !! p with
       | Some d, Some d0 => with_px_al 0 d = with_px_al 0 d0 ∧ px_al d0 ≤ px_al d ≤ Z.max (px_al d0) (px_mc d0)
       | None, None => True
       | _, _ => False
       end.

Definition granted (o : LeaseOut) : Prop :=
  ∃ c sticky, cand_ok args h0 sticky c ∧ lo_i o = c_i c ∧ lo_st o = id_st (c_id c) ∧ lo_sticky o = sticky.

Definition recorded (h : Hot) (o : LeaseOut) : Prop :=
  ∃ l, h_ls h !! lo_lid o = Some l ∧ active l = true ∧ ls_i l = lo_i o ∧ ls_x l = lo_x o ∧ ls_e l = eg ∧
    ls_a l = now ∧ ls_mc l = a_mc args ∧ ls_p l = lo_p o.

Record call_ok (k : Call) : Prop := {
  co_steps : rtc lstep (now, ledger_of h0) (now, ledger_of (k_hot k));
  co_acc : h_acc (k_hot k) = h_acc h0;
  co_life : same_life h0 (k_hot k);
  co_frame : ∀ i, i ∉ k_skip k → untouched i (k_hot k);
  co_fresh : ∀ j p n, (k_picked k ≤ j)%nat → a_prefixes args !! j = Some p → h_ls (k_hot k) !! (p +:+ hex2 n)%string = None;
  co_px : proxies_within (k_hot k);
  co_quiet : k_picked k = 0%nat → quiet h0 (k_hot k);
  co_len : length (k_out k) = k_picked k;
  co_max : (k_picked k ≤ a_count args)%nat;
  co_skip : Forall (λ o, lo_i o ∈ k_skip k) (k_out k);
  co_granted : Forall granted (k_out k);
  co_recorded : Forall (recorded (k_hot k)) (k_out k);
  co_distinct : NoDup (lo_i <$> k_out k);
}.

Lemma untouched_quiet i h h' : quiet h h' → untouched i h → untouched i h'.
Proof.
  intros Hq (Hid & Hhs & Hqu). unfold untouched. by rewrite (qt_id _ _ Hq), (qt_hs _ _ Hq), (qt_q _ _ Hq).
Qed.

Lemma call_ok_quiet k k' : call_ok k → quiet (k_hot k) (k_hot k') → same_call k k' → call_ok k'.
Proof.
  intros [] Hq (Hp & Hs & _ & _ & Ho). split; rewrite ?Hp, ?Hs, ?Ho; try done.
  - by rewrite (quiet_ledger _ _ Hq).
  - by rewrite (qt_acc _ _ Hq).
  - etrans; [done|by apply quiet_life].
  - intros i Hi. by apply (untouched_quiet i _ _ Hq), co_frame0.
  - intros j p n. rewrite (qt_ls _ _ Hq). apply co_fresh0.
  - unfold proxies_within. by rewrite (qt_px _ _ Hq).
  - intros H0. etrans; [by apply co_quiet0|done].
  - eapply Forall_impl; [exact co_recorded0|]. intros o. unfold recorded. by rewrite (qt_ls _ _ Hq).
Qed.

Lemma call_ok_skip k i : call_ok k → call_ok (skipping i k).
Proof.
  intros []. split; try done; cbn.
  - intros j Hj. apply co_frame0. by apply not_elem_of_union in Hj as [_ Hj].
  - eapply Forall_impl; [exact co_skip0|]. intros o Ho. by apply elem_of_union_r.
Qed.

(** The proxy of a lease exists and is not full. *)
Definition sel_free (h : Hot) (sel : option ProxySel) : Prop :=
  ∀ s, sel = Some s → ∃ d, h_px h !! sel_p s = Some d ∧ px_al d < px_mc d.

Lemma untouched_counts i h d0 :
  untouched i h → h_id h0 !! i = Some d0 → ∃ d, h_id h !! i = Some d ∧ id_al d = id_al d0 ∧ id_xl d = id_xl d0.
Proof.
  intros (Hid & _) Hd0. rewrite Hd0 in Hid. destruct (h_id h !! i) as [d|]; [|done].
  apply (inj Some) in Hid. exists d. split; [done|].
  change (id_al d) with (id_al (without_xg d)). change (id_xl d) with (id_xl (without_xg d)). by rewrite Hid.
Qed.

Lemma write_step lid c sel h sticky :
  untouched (c_i c) h → cand_ok args h0 sticky c → sel_free h sel → h_ls h !! lid = None →
  lstep (now, ledger_of h) (now, grant lid (lease_hash args probe c sel) (ledger_of h)) ∧
  ∃ d, h_id h !! c_i c = Some d ∧ id_al d = id_al (c_id c) ∧ id_xl d = id_xl (c_id c).
Proof.
  intros Hun Hc Hsel Hlid. destruct (cn_id _ _ _ _ Hc) as (d0 & Hd0 & Hid).
  destruct (untouched_counts _ _ _ Hun Hd0) as (d & Hd & Hal & Hxl).
  destruct (read_identity_counts args d0) as [Ral Rxl]. rewrite <- Hid in Ral, Rxl.
  split; [|exists d; split_and!; congruence].
  pose proof (cn_free _ _ _ _ Hc) as Hfree. rewrite (cn_lim _ _ _ _ Hc) in Hfree.
  pose proof (lease_limit_le args (id_st (c_id c))).
  apply (lstep_grant now now (ledger_of h) lid (lease_hash args probe c sel) (id_al d) (id_xl d)); cbn; try done; try lia.
  - by rewrite lookup_fmap, Hd.
  - intros Hpos. pose proof (avail_exclusive _ _ _ _ _ (cn_avail _ _ _ _ Hc)). lia.
  - intros p Hp. destruct sel as [s|]; [|done]. cbn in Hp. simplify_eq.
    destruct (Hsel s eq_refl) as (dp & Hdp & _). rewrite lookup_fmap, Hdp. eauto.
Qed.

Lemma untouched_written i c lid sel h h' :
  written args probe c lid sel h h' → i ≠ c_i c → untouched i h → untouched i h'.
Proof.
  intros Hw Hne (Hid & Hhs & Hq). unfold untouched.
  rewrite (written_other _ _ _ _ _ _ _ _ Hw Hne), (wr_hs _ _ _ _ _ _ _ Hw), (wr_q _ _ _ _ _ _ _ Hw) by congruence. done.
Qed.

Lemma proxies_within_written c lid sel h h' :
  written args probe c lid sel h h' → sel_free h sel → proxies_within h → proxies_within h'.
Proof.
  intros Hw Hsel Hp p. specialize (Hp p). rewrite (wr_px _ _ _ _ _ _ _ Hw). destruct sel as [s|]; [|done].
  rewrite lookup_alter. destruct (decide (sel_p s = p)) as [<-|]; [|done].
  destruct (Hsel s eq_refl) as (d & Hd & Hal). rewrite Hd in *. cbn.
  destruct (h_px h0 !! sel_p s) as [d0|]; [|done]. destruct Hp as [Hst Hle]. split; [by destruct d|].
  assert (px_mc d = px_mc d0) by (change (px_mc (with_px_al 0 d) = px_mc (with_px_al 0 d0)); by rewrite Hst). cbn. lia.
Qed.

Lemma recorded_written c lid sel h h' o :
  written args probe c lid sel h h' → h_ls h !! lid = None → recorded h o → recorded h' o.
Proof.
  intros Hw Hlid (l & Hl & H). exists l. split; [|done]. rewrite (wr_ls _ _ _ _ _ _ _ Hw).
  rewrite lookup_insert_ne by congruence. done.
Qed.

(** Writing the lease of a verified candidate is one grant. *)
Lemma write_ok k k' c sel sticky :
  call_ok k → k_hot k' = k_hot k → k_picked k' = S (k_picked k) → k_skip k' = k_skip k → k_out k' = k_out k →
  c_i c ∈ k_skip k → c_i c ∉ lo_i <$> k_out k → untouched (c_i c) (k_hot k) → cand_ok args h0 sticky c →
  sel_free (k_hot k) sel → (k_picked k < a_count args)%nat →
  call_ok (write_lease args probe stk c (default "" (a_prefixes args !! k_picked k)) sel sticky k').
Proof.
  intros [] Hhot Hpk Hsk Hout Hin Hnew Hun Hc Hsel Hlt.
  destruct (lookup_lt_is_Some_2 (a_prefixes args) (k_picked k)) as [p Hp]; [lia|]. rewrite Hp. cbn [default id].
  pose proof (write_lease_written args probe stk c p sel sticky k') as Hw. rewrite Hhot in Hw.
  destruct (write_lease_call args probe stk c p sel sticky k') as (Ep & Es & _ & _ & o & Eo & Elid & Ei & Ex & Epx & Epr & Est & Esk).
  assert (h_ls (k_hot k) !! lease_id args p c = None) as Hlid by (by apply (co_fresh0 (k_picked k))).
  destruct (write_step (lease_id args p c) c sel (k_hot k) sticky) as (Hstep & d & Hd & Hal & Hxl); try done.
  set (kk := write_lease args probe stk c p sel sticky k') in *. clearbody kk.
  split; rewrite ?Ep, ?Es, ?Eo, ?Hpk, ?Hsk, ?Hout.
  - rewrite (written_grant _ _ _ _ _ _ _ _ Hw Hd Hal Hxl). by eapply rtc_r.
  - by rewrite (wr_acc _ _ _ _ _ _ _ Hw).
  - etrans; [done|]. apply (written_life _ _ _ _ _ _ _ Hw). destruct Hun as (_ & Hhs & _). unfold cd_of. rewrite Hhs, (cn_hs _ _ _ _ Hc).
    unfold sp_hs_unpack. by destruct (h_hs h0 !! _).
  - intros i Hi. apply (untouched_written i c _ sel _ _ Hw); [congruence|auto].
  - intros j q n Hj Hq. rewrite (wr_ls _ _ _ _ _ _ _ Hw). rewrite lookup_insert_ne; [apply (co_fresh0 j); [lia|done]|].
    intros Heq. apply lease_id_inj in Heq as ->. pose proof (NoDup_lookup _ _ _ _ prefixes_distinct Hp Hq). lia.
  - by eapply proxies_within_written.
  - done.
  - rewrite length_app. cbn. lia.
  - lia.
  - apply Forall_app. split; [done|]. constructor; [|done]. by rewrite Ei.
  - apply Forall_app. split; [done|]. constructor; [|done]. exists c, sticky. done.
  - apply Forall_app. split; [eapply Forall_impl; [exact co_recorded0|]; intros; by eapply recorded_written|].
    constructor; [|done]. exists (lease_hash args probe c sel). rewrite (wr_ls _ _ _ _ _ _ _ Hw), Elid, lookup_insert_eq, Ei, Ex, Epx. done.
  - rewrite fmap_app. apply NoDup_app. split_and!; [done| |apply NoDup_singleton].
    intros j Hj. rewrite list_elem_of_fmap. intros (o' & -> & Ho'). apply list_elem_of_singleton in Ho' as ->. by rewrite Ei in Hj.
Qed.
End call.
