(* ===== verification/SchedLoop.v ===== *)
(** * The selection loop of acquire.lua

    The invariant of a call through the proxy assignment, the selection loop,
    the sampling rounds and the sticky session, and the bound on the number of
    iterations. *)

From S2P Require Import Prelude GoStrings GoFloat PolicyBase GoTime LuaCommon PolicyRotation PolicyResolve Breaker.
From S2P Require Import SchedState SchedSelect SchedAcquire SchedLease SchedLedger SchedRefine SchedGrant.

Local Open Scope Z_scope.

(** ** The pool *)

(** The index and the verified candidate of an entry; its sampling key does not
    matter to what a call may grant. *)
Definition sig (e : PoolEntry) : Z * option Candidate := (pe_id e, pe_c e).
Definition sigs (P : Pool) : list (Z * option Candidate) := sig <$> pl_entries P.

Lemma sigs_set_key es j w : sig <$> set_key es j w = sig <$> es.
Proof.
  unfold set_key. apply list_eq. intros n. rewrite !list_lookup_fmap.
  destruct (decide (j = n)) as [<-|]; [rewrite list_lookup_alter_eq|by rewrite list_lookup_alter_ne].
  by destruct (es !! j).
Qed.

Lemma sigs_set_candidate es j c e : es !! j = Some e → sig <$> set_candidate es j c = <[j := (pe_id e, Some c)]> (sig <$> es).
Proof.
  intros He. unfold set_candidate. apply list_eq. intros n. rewrite list_lookup_fmap.
  destruct (decide (j = n)) as [<-|].
  - rewrite list_lookup_alter_eq, He, list_lookup_insert_eq; [done|]. rewrite length_fmap. by eapply lookup_lt_Some.
  - by rewrite list_lookup_alter_ne, list_lookup_insert_ne, list_lookup_fmap.
Qed.

Lemma insert_perm {A} (l : list A) j x e : l !! j = Some e → e :: <[j := x]> l ≡ₚ x :: l.
Proof.
  intros H. rewrite (insert_take_drop _ _ x) by (by eapply lookup_lt_Some).
  transitivity (x :: take j l ++ e :: drop (S j) l); [solve_Permutation|by rewrite take_drop_middle].
Qed.

Lemma elem_of_insert_inv {A} (l : list A) j x y : y ∈ <[j := x]> l → y = x ∨ y ∈ l.
Proof.
  intros H. apply list_elem_of_lookup in H as [n Hn]. apply list_lookup_insert_Some in Hn as [(_ & <- & _)|[_ Hn]]; [by left|].
  right. by eapply list_elem_of_lookup_2.
Qed.

Lemma pool_remove_perm es j e : es !! j = Some e → e :: pool_remove es j ≡ₚ es.
Proof.
  intros He. destruct es as [|x es _] using rev_ind; [done|]. unfold pool_remove.
  rewrite last_snoc, length_app. cbn [length]. replace (length es + 1 - 1)%nat with (length es) by lia.
  destruct (decide (j < length es)%nat) as [Hj|Hj].
  - rewrite insert_app_l by done. rewrite take_app_le by (by rewrite length_insert).
    rewrite take_ge by (by rewrite length_insert). rewrite lookup_app_l in He by done.
    rewrite (insert_perm es j x e He). by rewrite Permutation_cons_append.
  - apply lookup_lt_Some in He as Hlt. rewrite length_app in Hlt. cbn in Hlt. replace j with (length es) in He |- * by lia.
    rewrite lookup_app_r, Nat.sub_diag in He by lia. cbn in He. simplify_eq.
    rewrite insert_app_r_alt, Nat.sub_diag by lia. cbn. rewrite take_app_length. by rewrite Permutation_cons_append.
Qed.

Section picks.
Context {lua : LuaMath}.
Variable args : AcquireArgs.
Variable hsmap : Z → option Hs.

Lemma propose_ok tries ridx es hit ridx' es' :
  propose args hsmap tries ridx es = (hit, ridx', es') →
  sig <$> es' = sig <$> es ∧ ∀ j, hit = Some j → (j < length es)%nat.
Proof.
  revert ridx es. induction tries as [|tries IH]; intros ridx es H; cbn [propose] in H; [by simplify_eq|].
  set (j := Nat.min _ _) in H. destruct (es !! j) as [e|] eqn:He; [|by simplify_eq].
  set (es1 := set_key es j _) in H. assert (sig <$> es1 = sig <$> es) as E by apply sigs_set_key.
  destruct (f_ltb _ _).
  - simplify_eq. split; [done|]. intros ? [= <-]. by eapply lookup_lt_Some.
  - apply IH in H as [-> Hj]. split; [done|]. intros i Hi. apply Hj in Hi.
    apply (f_equal length) in E. rewrite !length_fmap in E. lia.
Qed.

Lemma pick_round_robin_lt cursor j after lowest ids n :
  (∀ a k, after = Some (a, k) → (a < n)%nat) → (∀ a k, lowest = Some (a, k) → (a < n)%nat) →
  (j + length ids ≤ n)%nat → (0 < n)%nat → (pick_round_robin cursor j after lowest ids < n)%nat.
Proof.
  revert j after lowest. induction ids as [|k ids IH]; intros j after lowest Ha Hl Hn H0; cbn [pick_round_robin length] in *.
  - destruct after as [[a ka]|]; [by eapply Ha|]. destruct lowest as [[l kl]|]; [by eapply Hl|done].
  - apply IH; try lia; intros a k'; repeat case_match; intros; simplify_eq; eauto; lia.
Qed.

Lemma pick_first_best_lt {A} (better : A → A → bool) j idx best keys n :
  (idx < n)%nat → (j + length keys ≤ n)%nat → (pick_first_best better j idx best keys < n)%nat.
Proof.
  revert j idx best. induction keys as [|k keys IH]; intros j idx best Hi Hn; cbn [pick_first_best length] in *; [done|].
  repeat case_match; apply IH; lia.
Qed.

(** An index of the pool is picked, and only sampling keys change. *)
Lemma pick_index_ok strategy cursor ridx P j ridx' P' :
  pick_index args hsmap strategy cursor ridx P = (j, ridx', P') → pl_entries P ≠ [] →
  sigs P' = sigs P ∧ (j < length (pl_entries P'))%nat.
Proof.
  intros H Hne. assert (0 < length (pl_entries P))%nat by (destruct (pl_entries P); [done|cbn; lia]).
  destruct strategy; cbn [pick_index] in H.
  1: unfold pick_weighted in H; destruct (if pl_exact P then _ else _) as [[hit r] es] eqn:Hp.
  1: assert (sig <$> es = sigs P ∧ ∀ j, hit = Some j → (j < length (pl_entries P))%nat) as [E Hhit]
    by (destruct (pl_exact P); [by simplify_eq|by eapply propose_ok]).
  1: pose proof (f_equal length E) as El; unfold sigs in El; rewrite !length_fmap in El.
  1: destruct hit as [i|]; simplify_eq; cbn; [split; [done|rewrite El; auto]|].
  1: { split; [unfold sigs; cbn; by rewrite <- list_fmap_compose|].
       rewrite length_fmap, <- (length_fmap (key_of args hsmap) es). apply (roulette_lt 0).
       destruct es; [cbn in El; lia|done]. }
  all: simplify_eq; split; [done|]; first [apply pick_first_best_lt|apply pick_round_robin_lt]; rewrite ?length_fmap; done.
Qed.
End picks.

(** ** Iterations *)

Section steps.
Context {lua : LuaMath}.
Variable args : AcquireArgs.
Variables (probe : bool) (stk : option (Z * string)).

(** The parts of a call that the cursor and the random numbers leave alone. *)
Definition same_work (k k' : Call) : Prop :=
  k_hot k' = k_hot k ∧ k_picked k' = k_picked k ∧ k_skip k' = k_skip k ∧ k_proxy_fail k' = k_proxy_fail k ∧
  k_out k' = k_out k.

(** An iteration remembers a verified candidate, drops a rejected one or takes
    one out of the pool. *)
Inductive step_case (k : Call) (sg : list (Z * option Candidate)) : list (Z * option Candidate) → Call → Prop :=
| step_keep j i c k' :
    sg !! j = Some (i, None) → evaluate args (k_hot k) i false = VOk c → same_work k k' →
    step_case k sg (<[j := (i, Some c)]> sg) k'
| step_drop i k' sg' :
    (i, None) :: sg' ≡ₚ sg → (∀ c, evaluate args (k_hot k) i false ≠ VOk c) →
    same_work (with_hot (reject args i (evaluate args (k_hot k) i false) (k_hot k)) k) k' →
    step_case k sg sg' k'
| step_take i o c k1 sg' :
    (i, o) :: sg' ≡ₚ sg → (o = Some c ∨ o = None ∧ evaluate args (k_hot k) i false = VOk c) → same_work k k1 →
    step_case k sg sg' (take_candidate args probe stk c k1).

Lemma load_cursor_same k : same_work k (load_cursor args k).
Proof. unfold load_cursor. by destruct (a_strategy args), (k_rr k). Qed.

Lemma remove_sigs es j e : es !! j = Some e → sig e :: (sig <$> pool_remove es j) ≡ₚ sig <$> es.
Proof. intros He. apply (pool_remove_perm es j e) in He. by rewrite <- He at 2. Qed.

Lemma remove_set_sigs es es' j i c :
  (sig <$> es) !! j = Some (i, None) → sig <$> es' = <[j := (i, Some c)]> (sig <$> es) →
  (i, None) :: (sig <$> pool_remove es' j) ≡ₚ sig <$> es.
Proof.
  intros Hs Hset. pose proof (insert_perm (sig <$> es) j (i, Some c) _ Hs) as Hp. rewrite <- Hset in Hp.
  assert ((sig <$> es') !! j = Some (i, Some c)) as He
    by (rewrite Hset; apply list_lookup_insert_eq; by eapply lookup_lt_Some).
  rewrite list_lookup_fmap in He. apply fmap_Some in He as (e' & He' & Hse).
  rewrite <- (remove_sigs _ j _ He'), <- Hse in Hp. apply (Permutation_cons_inv (a := (i, Some c))).
  rewrite <- Hp. apply Permutation_swap.
Qed.

Lemma select_step_case P k P' k' :
  select_step args probe stk P k = (P', k') → pl_entries P ≠ [] → step_case k (sigs P) (sigs P') k'.
Proof.
  intros H Hne. unfold select_step in H. pose proof (load_cursor_same k) as Hlc. set (k1 := load_cursor args k) in *.
  clearbody k1. destruct (pick_index _ _ _ _ _ _) as [[j ridx] P1] eqn:Hpick.
  destruct (pick_index_ok _ _ _ _ _ _ _ _ _ Hpick Hne) as [<- Hj].
  assert (same_work k (with_ridx ridx k1)) as Hsame by done. set (k2 := with_ridx ridx k1) in *. clearbody k2. clear Hlc Hpick.
  destruct (lookup_lt_is_Some_2 _ _ Hj) as [e He]. rewrite He in H.
  assert (sigs P1 !! j = Some (sig e)) as Hsig by (unfold sigs; by rewrite list_lookup_fmap, He).
  destruct (pe_c e) as [c|] eqn:Hc.
  { simplify_eq. apply (step_take _ _ (pe_id e) (Some c)); [|by left|done].
    rewrite <- Hc. by apply remove_sigs. }
  assert (k_hot k2 = k_hot k) as Hh by apply Hsame. unfold sig in Hsig. rewrite Hc in Hsig.
  unfold verify in H. rewrite Hh in H.
  destruct (evaluate args (k_hot k) (pe_id e) false) as [c| |t push_xl] eqn:Hev.
  2,3: simplify_eq; apply (step_drop _ _ (pe_id e)); [rewrite <- Hc; by apply remove_sigs|by rewrite Hev|];
    rewrite Hev; destruct Hsame as (? & ? & ? & ? & ?); by repeat split.
  set (es' := set_candidate (pl_entries P1) j c) in H.
  assert (sig <$> es' = <[j := (pe_id e, Some c)]> (sigs P1)) as Hset by (by apply sigs_set_candidate).
  clearbody es'. destruct (_ && _); [destruct (f_ltb _ _)|]; simplify_eq.
  - apply (step_take _ _ (pe_id e) None); [|by right|by destruct Hsame].
    apply (remove_set_sigs _ _ _ _ c Hsig). cbn [pl_entries]. by rewrite sigs_set_key.
  - unfold sigs at 2. cbn [pl_entries]. rewrite sigs_set_key, Hset. by eapply step_keep.
  - apply (step_take _ _ (pe_id e) None); [by eapply remove_set_sigs|by right|done].
Qed.

(** *** The loop ends *)

Definition measure (sg : list (Z * option Candidate)) : nat :=
  length sg + length (filter (λ x, x.2 = None) sg).

#[export] Instance measure_perm : Proper ((≡ₚ) ==> (=)) measure.
Proof. intros sg sg' H. unfold measure. by rewrite H. Qed.
Lemma measure_cons x sg : (measure sg < measure (x :: sg))%nat.
Proof. unfold measure. rewrite filter_cons. case_decide; cbn; lia. Qed.

(** Every iteration verifies an entry or removes one. *)
Lemma step_case_measure k sg sg' k' : step_case k sg sg' k' → (measure sg' < measure sg)%nat.
Proof.
  intros [j i c k1 Hj _ _|i k1 sg1 <- _ _|i o c k1 sg1 <- _ _]; [|apply measure_cons..].
  pose proof (measure_perm _ _ (insert_perm sg j (i, Some c) _ Hj)) as E. unfold measure in *.
  rewrite filter_cons_True, filter_cons_False in E by done. cbn in E. lia.
Qed.

Lemma sigs_new_pool ids want skip :
  sigs (new_pool ids want skip) = (λ i, (i, None)) <$> take want (filter (λ i, i ∉ skip) ids).
Proof. unfold sigs, new_pool. cbn [pl_entries]. by rewrite <- list_fmap_compose. Qed.

Lemma new_pool_measure ids want skip : (measure (sigs (new_pool ids want skip)) ≤ 2 * length ids)%nat.
Proof.
  rewrite sigs_new_pool. set (l := take want _). assert (length l ≤ length ids)%nat.
  { subst l. rewrite length_take. pose proof (length_filter (λ i, i ∉ skip) ids). lia. }
  unfold measure. pose proof (length_filter (λ x : Z * option Candidate, x.2 = None) ((λ i, (i, None)) <$> l)).
  rewrite length_fmap in *. lia.
Qed.
End steps.

(** ** The loop *)

Section loop.
Context {lua : LuaMath}.
Variable args : AcquireArgs.
Variables (probe : bool) (stk : option (Z * string)).
Variable h0 : Hot.
Abbreviation now := (a_now args).
Abbreviation eg := (a_eg args).

Hypothesis prefixes_distinct : NoDup (a_prefixes args).
Hypothesis prefixes_enough : (a_count args ≤ length (a_prefixes args))%nat.
Hypothesis lease_times : 0 ≤ a_ttl args ∧ 0 ≤ a_lifetime args.

(** A bound proxy was free when it was verified, and full only by leases of
    this call. *)
Definition bound_known (k : Call) (c : Candidate) : Prop :=
  ∀ s, c_bound c = Some s → ∃ d0, h_px h0 !! sel_p s = Some d0 ∧ sel_mc s = px_mc d0 ∧
    (k_picked k = 0%nat → px_al d0 < px_mc d0).

Lemma proxies_within_mc h p d d0 :
  proxies_within h0 h → h_px h !! p = Some d → h_px h0 !! p = Some d0 → px_mc d = px_mc d0.
Proof.
  intros Hp Hd Hd0. specialize (Hp p). rewrite Hd, Hd0 in Hp. destruct Hp as [Hst _].
  change (px_mc (with_px_al 0 d) = px_mc (with_px_al 0 d0)). by rewrite Hst.
Qed.

Lemma bound_ok_known k c : call_ok args h0 k → bound_ok args (k_hot k) c → bound_known k c.
Proof.
  intros Hk Hb s Hs. destruct (Hb s Hs) as [(d & Hd & _ & _ & _ & Hal & Hmc & _) _].
  pose proof (co_px _ _ _ Hk (sel_p s)) as Hp. rewrite Hd in Hp. destruct (h_px h0 !! sel_p s) as [d0|] eqn:Hd0; [|done].
  pose proof (proxies_within_mc _ _ _ _ (co_px _ _ _ Hk) Hd Hd0). exists d0. split_and!; [done|congruence|].
  intros H0. pose proof (qt_px _ _ (co_quiet _ _ _ Hk H0)) as E. rewrite E, Hd0 in Hd. by simplify_eq.
Qed.

Lemma bound_known_mono k k' c : (k_picked k' = 0%nat → k_picked k = 0%nat) → bound_known k c → bound_known k' c.
Proof. intros H Hb s Hs. destruct (Hb s Hs) as (d0 & ? & ? & ?). eauto 10. Qed.

Lemma proxy_free_sel h s : proxy_free args h s → sel_free h (Some s).
Proof. intros (d & ? & _ & _ & _ & ? & _) s' [= <-]. eauto. Qed.

(** The assigned proxy has room for the lease. *)
Lemma assign_proxy_ok k c ok k' :
  call_ok args h0 k → bound_known k c → assign_proxy args c k = (ok, k') →
  quiet (k_hot k) (k_hot k') ∧ same_call k k' ∧ ∀ sel, ok = Some sel → sel_free (k_hot k') sel.
Proof.
  intros Hk Hb H. unfold assign_proxy in H.
  assert (∀ region exclude s k1 k1', select_proxy args region exclude k1 = (Some s, k1') → sel_free (k_hot k1') (Some s)) as Hsel.
  { intros region exclude s k1 k1' Hsp. destruct (select_proxy_ok _ _ _ _ _ _ Hsp) as (Hq & _ & Hs).
    destruct (Hs s eq_refl) as [Hf _]. apply proxy_free_sel in Hf. intros s' Hs'. rewrite (qt_px _ _ Hq). eauto. }
  destruct (a_pmode args); [simplify_eq; split_and!; [done..|by intros ? [= <-] ?]| |destruct (c_bound c) as [s|] eqn:Hcb|].
  2: { injection H as <- <-. split; [done|]. split; [done|]. intros sel. destruct (_ && _) eqn:Hfull; [done|]. intros [= <-] s' [= <-].
       destruct (Hb s Hcb) as (d0 & Hd0 & Hmc & H0). pose proof (co_px _ _ _ Hk (sel_p s)) as Hp. rewrite Hd0 in Hp.
       destruct (h_px (k_hot k) !! sel_p s) as [d|] eqn:Hd; [|done]. exists d. split; [done|].
       pose proof (proxies_within_mc _ _ _ _ (co_px _ _ _ Hk) Hd Hd0). cbn in Hfull.
       destruct (k_picked k) as [|n] eqn:Hpk; [|bool_to_prop; lia].
       pose proof (qt_px _ _ (co_quiet _ _ _ Hk Hpk)) as E. rewrite E, Hd0 in Hd. simplify_eq. auto. }
  all: destruct (select_proxy _ _ _ _) as [[s|] k1] eqn:Hsp; simplify_eq; apply select_proxy_ok in Hsp as Hok;
    destruct Hok as (Hq & Hsame & _); split_and!; try done; intros ? [= <-]; try (by eapply Hsel).
  intros s' [= <-]. apply (Hsel _ _ _ _ _ Hsp s eq_refl).
Qed.

Lemma call_ok_same k k' : same_work k k' → call_ok args h0 k → call_ok args h0 k'.
Proof. intros (Hh & Hp & Hs & _ & Ho) []. by split; rewrite ?Hh, ?Hp, ?Hs, ?Ho. Qed.

Lemma call_ok_failing k : call_ok args h0 k → call_ok args h0 (failing k).
Proof. intros []. by split. Qed.

(** *** The invariant of the loop *)

Definition cand_known (k : Call) (i : Z) (c : Candidate) : Prop :=
  c_i c = i ∧ cand_ok args h0 false c ∧ bound_known k c.

Record pool_ok (k : Call) (sg : list (Z * option Candidate)) : Prop := {
  po_distinct : NoDup sg.*1;
  po_new : ∀ i o, (i, o) ∈ sg → i ∉ k_skip k;
  po_known : ∀ i c, (i, Some c) ∈ sg → cand_known k i c;
}.

(** A verified candidate is what the script would have read at its start. *)
Lemma evaluate_known k i c :
  call_ok args h0 k → i ∉ k_skip k → evaluate args (k_hot k) i false = VOk c → cand_known k i c.
Proof.
  intros Hk Hi Hev. destruct (evaluate_ok _ _ _ _ _ Hev) as (Hci & Hc & Hb). split; [done|].
  split; [|by apply bound_ok_known]. subst i. destruct (co_frame _ _ _ Hk _ Hi) as (? & ? & ?).
  by apply (cand_ok_frame _ _ _ _ _ Hc (co_acc _ _ _ Hk)).
Qed.

Lemma take_candidate_ok k i c :
  call_ok args h0 k → i ∉ k_skip k → cand_known k i c → (k_picked k < a_count args)%nat →
  let k' := take_candidate args probe stk c k in
  call_ok args h0 k' ∧ k_skip k' = {[i]} ∪ k_skip k ∧ (k_picked k ≤ k_picked k')%nat ∧
  (a_pmode args = mode_n → k_picked k' = S (k_picked k)).
Proof.
  intros Hk Hi (<- & Hc & Hb) Hlt k'. subst k'. unfold take_candidate.
  destruct (assign_proxy args c (skipping (c_i c) k)) as [ok k1] eqn:Has.
  destruct (assign_proxy_ok _ _ _ _ (call_ok_skip _ _ _ (c_i c) Hk) Hb Has) as (Hq & Hsame & Hsel).
  pose proof Hsame as (Hp & Hs & Hsame'). cbn in Hp, Hs.
  assert (call_ok args h0 k1) as Hk1 
    by (apply (call_ok_quiet args h0 (skipping (c_i c) k)); [by apply call_ok_skip|done..]).
  destruct ok as [sel|]; [|split_and!; [by apply call_ok_failing|by rewrite <- Hs|cbn; lia|]].
  2: { intros Hm. unfold assign_proxy in Has. by rewrite Hm in Has. }
  set (k2 := if bool_decide _ then _ else _).
  assert (k_hot k2 = k_hot k1 ∧ k_picked k2 = S (k_picked k1) ∧ k_skip k2 = k_skip k1 ∧ k_out k2 = k_out k1) as (E1 & E2 & E3 & E4)
    by (subst k2; by destruct (bool_decide _)).
  clearbody k2. rewrite E2. replace (S (k_picked k1) - 1)%nat with (k_picked k1) by lia.
  split_and!; [|cbn; congruence|cbn; lia|cbn; congruence].
  apply (write_ok args probe stk h0 prefixes_distinct prefixes_enough lease_times k1); try done; try congruence.
  - rewrite Hs. set_solver.
  - destruct Hsame' as (_ & _ & ->). cbn. rewrite list_elem_of_fmap. intros (o & E & Ho).
    pose proof (co_skip _ _ _ Hk) as Hsk. rewrite Forall_forall in Hsk. apply Hi. rewrite E. by apply Hsk.
  - apply (untouched_quiet _ _ _ _ _ Hq), (co_frame _ _ _ Hk), Hi.
  - by apply Hsel.
Qed.

Lemma cand_known_mono k k' i c : (k_picked k' = 0%nat → k_picked k = 0%nat) → cand_known k i c → cand_known k' i c.
Proof. intros H (? & ? & ?). split_and!; [done..|by eapply bound_known_mono]. Qed.

Lemma pool_ok_tail k x sg sg' : x :: sg' ≡ₚ sg → pool_ok k sg → pool_ok k sg' ∧ x.1 ∉ sg'.*1.
Proof.
  intros Hp [Hd Hn Hc]. rewrite <- Hp in Hd. cbn in Hd. apply NoDup_cons in Hd as [? ?]. split; [|done].
  split; [done|intros i o Ho; apply (Hn i o)|intros i c Ho; apply Hc]; rewrite <- Hp; by apply list_elem_of_further.
Qed.

Lemma pool_ok_mono k k' sg :
  pool_ok k sg → (∀ i o, (i, o) ∈ sg → i ∉ k_skip k' ∨ k_skip k' = k_skip k) → (k_picked k' = 0%nat → k_picked k = 0%nat) →
  pool_ok k' sg.
Proof.
  intros [Hd Hn Hc] Hs Hp. split; [done| |intros; eapply cand_known_mono; eauto].
  intros i o Ho. destruct (Hs i o Ho) as [?| ->]; eauto.
Qed.

Lemma step_case_ok k sg sg' k' :
  step_case args probe stk k sg sg' k' → call_ok args h0 k → pool_ok k sg → (k_picked k < a_count args)%nat →
  call_ok args h0 k' ∧ pool_ok k' sg' ∧ (k_picked k ≤ k_picked k')%nat.
Proof.
  intros Hstep Hk Hpool Hlt. destruct Hstep as [j i c k' Hj Hev Hsame|i k' sg' Hperm Hev Hsame|i o c k1 sg' Hperm Ho Hsame].
  - apply list_elem_of_lookup_2 in Hj as Hin. pose proof (po_new _ _ Hpool i None Hin) as Hi.
    pose proof (evaluate_known _ _ _ Hk Hi Hev) as Hknown. split; [by eapply call_ok_same|].
    destruct Hsame as (_ & Hp & Hs & _). split; [|by rewrite Hp]. destruct Hpool as [Hd Hn Hc].
    split; [rewrite list_fmap_insert, list_insert_id; [done|by rewrite list_lookup_fmap, Hj]| |].
    + intros i' o' Ho'. rewrite Hs. apply elem_of_insert_inv in Ho' as [[= -> ->]|Ho']; eauto.
    + intros i' c' Ho'. apply (cand_known_mono k); [by rewrite Hp|].
      apply elem_of_insert_inv in Ho' as [[= -> ->]|Ho']; eauto.
  - destruct (pool_ok_tail _ _ _ _ Hperm Hpool) as [Htail _]. split_and!.
    + eapply call_ok_same; [done|]. eapply call_ok_quiet; [done|apply reject_quiet|by repeat split].
    + destruct Hsame as (_ & Hp & Hs & _). apply (pool_ok_mono k); [done|by right|by rewrite Hp].
    + destruct Hsame as (_ & Hp & _). cbn in Hp. lia.
  - destruct (pool_ok_tail _ _ _ _ Hperm Hpool) as [Htail Hni].
    assert ((i, o) ∈ sg) as Hin by (rewrite <- Hperm; apply list_elem_of_here).
    pose proof (po_new _ _ Hpool i o Hin) as Hi.
    assert (cand_known k i c) as Hknown by (destruct Ho as [->|[-> Hev]]; [by apply (po_known _ _ Hpool)|by apply evaluate_known]).
    pose proof (call_ok_same _ _ Hsame Hk) as Hk1. destruct Hsame as (_ & Hp & Hs & _).
    destruct (take_candidate_ok k1 i c) as (Hok & Hsk & Hpk & _); [done|by rewrite Hs|by apply (cand_known_mono k); rewrite ?Hp|by rewrite Hp|].
    split_and!; [done| |lia]. apply (pool_ok_mono k); [done| |lia].
    intros i' o' Hi'. left. rewrite Hsk, Hs. apply not_elem_of_union. split; [|by apply (po_new _ _ Htail i' o')].
    apply not_elem_of_singleton. intros ->. apply Hni. cbn. by apply (list_elem_of_fmap_2 fst _ (i, o')).
Qed.

Lemma select_loop_ok fuel P k P' k' :
  select_loop args probe stk fuel P k = (P', k') → call_ok args h0 k → pool_ok k (sigs P) → (measure (sigs P) ≤ fuel)%nat →
  call_ok args h0 k' ∧ (k_picked k ≤ k_picked k')%nat ∧ loop_done args P' k' = true.
Proof.
  revert P k. induction fuel as [|fuel IH]; intros P k H Hk Hpool Hm; cbn [select_loop] in H.
  - simplify_eq. split_and!; [done..|]. unfold loop_done. assert (pl_entries P' = []) as ->; [|by rewrite orb_true_r].
    unfold measure, sigs in Hm. rewrite length_fmap in Hm. destruct (pl_entries P'); [done|cbn in Hm; lia].
  - destruct (loop_done args P k) eqn:Hd; [by simplify_eq|].
    destruct (select_step args probe stk P k) as [P1 k1] eqn:Hs.
    apply orb_false_iff in Hd as [[Hc Hne]%orb_false_iff _]. bool_to_prop.
    apply select_step_case in Hs; [|done]. pose proof (step_case_measure _ _ _ _ _ _ _ Hs).
    destruct (step_case_ok _ _ _ _ Hs Hk Hpool ltac:(lia)) as (Hk1 & Hp1 & Hle).
    destruct (IH P1 k1 H Hk1 Hp1) as (? & ? & ?); [lia|]. split_and!; [done|lia|done].
Qed.

(** *** The rounds *)

Lemma new_pool_ok k ids want : NoDup ids → pool_ok k (sigs (new_pool ids want (k_skip k))).
Proof.
  intros Hd. rewrite sigs_new_pool.
  assert (∀ i (o : option Candidate), (i, o) ∈ (λ i, (i, None)) <$> take want (filter (λ i, i ∉ k_skip k) ids) → o = None ∧ i ∉ k_skip k) as Hin.
  { intros i o Hi. apply list_elem_of_fmap in Hi as (i' & [= -> ->] & Hi). split; [done|].
    apply elem_of_take in Hi as (n & Hn & _). apply list_elem_of_lookup_2, list_elem_of_filter in Hn as [? _]. done. }
  split.
  - rewrite <- list_fmap_compose. unfold compose. cbn. rewrite list_fmap_id.
    eapply sublist_NoDup; [exact (NoDup_filter (λ i, i ∉ k_skip k) _ Hd)|apply sublist_take].
  - intros i o Hi. by apply Hin in Hi as [_ ?].
  - intros i c Hi. by apply Hin in Hi as [? _].
Qed.

Lemma acquire_rounds_ok rounds k :
  call_ok args h0 k →
  call_ok args h0 (acquire_rounds args probe stk rounds k) ∧ (k_picked k ≤ k_picked (acquire_rounds args probe stk rounds k))%nat.
Proof.
  revert k. induction rounds as [|rounds IH]; intros k Hk; cbn [acquire_rounds]; [done|].
  set (ids := zrangebyscore _ _ _ _). destruct (bool_decide (ids = [])); [done|].
  destruct (select_loop _ _ _ _ _ _) as [P' k'] eqn:Hl. cbn [snd].
  destruct (select_loop_ok _ _ _ _ _ Hl Hk) as (Hk' & Hle & _);
    [apply new_pool_ok, zrangebyscore_NoDup|apply new_pool_measure|].
  destruct (_ || _); [done|]. destruct (IH k' Hk'). split; [done|lia].
Qed.

(** *** The sticky session *)

Definition start : Call :=
  {| k_hot := h0; k_picked := 0; k_skip := ∅; k_ridx := 0; k_rr := None; k_proxy_fail := 0; k_out := [] |}.

(** No lease carries a prefix of the call. *)
Hypothesis prefixes_new : ∀ p n, p ∈ a_prefixes args → h_ls h0 !! (p +:+ hex2 n)%string = None.

Lemma start_ok : call_ok args h0 start.
Proof.
  split; cbn; try done; try lia; try apply NoDup_nil; try constructor.
  - intros j p n _ Hp. apply prefixes_new. by eapply list_elem_of_lookup_2.
  - intros p. destruct (h_px h0 !! p); [|done]. split; [done|lia].
Qed.

(** What holds at the end of a call, whether or not its identity was skipped. *)
Definition call_done (k : Call) : Prop :=
  ∃ k', call_ok args h0 k' ∧ k_hot k' = k_hot k ∧ k_picked k' = k_picked k ∧ k_out k' = k_out k.

Lemma sticky_reuse_ok :
  (0 < a_count args)%nat →
  let k := sticky_reuse args probe stk start in
  call_done k ∧ (k_picked k = 0%nat → call_ok args h0 k ∧ (a_pmode args = mode_n → k_proxy_fail k = 0%nat ∧ k_skip k = ∅)) ∧
  (k_picked k ≤ 1)%nat ∧ (stk = None → k = start).
Proof.
  intros Hcount. pose proof start_ok as H0. unfold sticky_reuse.
  assert (call_done start ∧ (k_picked start = 0%nat →
    call_ok args h0 start ∧ (a_pmode args = mode_n → k_proxy_fail start = 0%nat ∧ k_skip start = ∅)) ∧ (k_picked start ≤ 1)%nat ∧
    (stk = None → start = start)) as Hstart by (split_and!; [by exists start|done|cbn; lia|done]).
  destruct stk as [key|] eqn:Hstk; [|exact Hstart]. destruct (h_stk _ !! key) as [si|]; [|done].
  destruct (bool_decide _); [|done]. destruct (evaluate args _ si true) as [c| |] eqn:Hev; [|done..].
  destruct (evaluate_ok _ _ _ _ _ Hev) as (<- & Hc & Hb). cbn in Hc.
  destruct (assign_proxy args c start) as [ok k1] eqn:Has.
  destruct (assign_proxy_ok _ _ _ _ H0 (bound_ok_known _ _ H0 Hb) Has) as (Hq & Hsame & Hsel).
  pose proof Hsame as (Hp & Hs & _ & Hf & Ho). pose proof (call_ok_quiet _ _ _ _ H0 Hq Hsame) as H1. cbn in Hp, Hs, Ho, Hf.
  destruct ok as [sel|].
  - assert (call_ok args h0 (write_lease args probe stk c (default "" (a_prefixes args !! k_picked k1)) sel true
      (picking (skipping (c_i c) k1)))) as Hw.
    { apply (write_ok args probe stk h0 prefixes_distinct prefixes_enough lease_times (skipping (c_i c) k1)); try done.
      - by apply call_ok_skip.
      - cbn. set_solver.
      - cbn. rewrite Ho. apply not_elem_of_nil.
      - apply (co_frame _ _ _ H1). rewrite Hs. apply not_elem_of_empty.
      - by apply Hsel.
      - cbn. lia. }
    rewrite Hp in Hw. rewrite Hstk in Hw. split_and!; [by eexists; split_and!; [exact Hw|..]|cbn; lia|cbn; lia|done].
  - split_and!; [by exists (skipping (c_i c) (failing k1)); split_and!; [by apply call_ok_skip, call_ok_failing|..]| |cbn; lia|done].
    intros _. split; [by apply call_ok_skip, call_ok_failing|].
    intros Hm. unfold assign_proxy in Has. by rewrite Hm in Has.
Qed.

(** *** Progress without proxies *)

Lemma evaluate_quiet h h' i sticky : quiet h h' → evaluate args h' i sticky = evaluate args h i sticky.
Proof.
  intros []. unfold evaluate, avail_bound, account_avail, bind_check, quota_values. rewrite qt_acc, qt_hs, qt_q, qt_px.
  specialize (qt_id i). destruct (h_id h' !! i) as [d'|], (h_id h !! i) as [d|]; try done.
  apply (inj Some) in qt_id. by rewrite (read_identity_xg args d' d qt_id).
Qed.

(** An available identity of the pool stays there until a lease is granted. *)
Definition serving (i : Z) (k : Call) (sg : list (Z * option Candidate)) : Prop :=
  k_picked k = 0%nat → k_proxy_fail k = 0%nat ∧ i ∈ sg.*1.

Hypothesis no_proxies : a_pmode args = mode_n.

Lemma step_case_serving i c k sg sg' k' :
  evaluate args h0 i false = VOk c → step_case args probe stk k sg sg' k' → call_ok args h0 k → pool_ok k sg →
  (k_picked k < a_count args)%nat → serving i k sg → serving i k' sg'.
Proof.
  intros Hi Hstep Hk Hpool Hlt Hs H0.
  destruct Hstep as [j i' c' k' Hj Hev Hsame|i' k' sg' Hperm Hev Hsame|i' o c' k1 sg' Hperm Ho Hsame].
  - destruct Hsame as (_ & Hp & _ & Hf & _). rewrite Hp in H0. destruct (Hs H0) as [? Hin]. split; [congruence|].
    rewrite list_fmap_insert, list_insert_id; [done|by rewrite list_lookup_fmap, Hj].
  - destruct Hsame as (_ & Hp & _ & Hf & _). cbn in Hp, Hf. rewrite Hp in H0. destruct (Hs H0) as [? Hin].
    split; [congruence|]. rewrite <- Hperm in Hin. apply elem_of_cons in Hin as [->|?]; [|done].
    cbn in Hev. rewrite (evaluate_quiet _ _ _ _ (co_quiet _ _ _ Hk H0)) in Hev. by destruct (Hev c).
  - assert ((i', o) ∈ sg) as Hin by (rewrite <- Hperm; apply list_elem_of_here).
    pose proof (po_new _ _ Hpool i' o Hin) as Hi'.
    assert (cand_known k i' c') as Hknown by (destruct Ho as [->|[-> Hev]]; [by apply (po_known _ _ Hpool)|by apply evaluate_known]).
    pose proof (call_ok_same _ _ Hsame Hk) as Hk1. destruct Hsame as (_ & Hp & Hsk & _).
    destruct (take_candidate_ok k1 i' c') as (_ & _ & _ & Hpk); [done|by rewrite Hsk|by apply (cand_known_mono k); rewrite ?Hp|by rewrite Hp|].
    rewrite Hpk in H0 by done. done.
Qed.

Lemma select_loop_serves i c fuel P k P' k' :
  evaluate args h0 i false = VOk c → select_loop args probe stk fuel P k = (P', k') → call_ok args h0 k →
  pool_ok k (sigs P) → serving i k (sigs P) → serving i k' (sigs P').
Proof.
  intros Hi. revert P k. induction fuel as [|fuel IH]; intros P k H Hk Hpool Hs; cbn [select_loop] in H; [by simplify_eq|].
  destruct (loop_done args P k) eqn:Hd; [by simplify_eq|]. destruct (select_step args probe stk P k) as [P1 k1] eqn:Hst.
  apply orb_false_iff in Hd as [[Hc Hne]%orb_false_iff _]. bool_to_prop. apply select_step_case in Hst; [|done].
  destruct (step_case_ok _ _ _ _ Hst Hk Hpool ltac:(lia)) as (Hk1 & Hp1 & _).
  apply (IH P1 k1 H Hk1 Hp1). by apply (step_case_serving i c k (sigs P)); try lia.
Qed.

(** The sample of the first round contains every due identity when they are at
    most as many as it asks for. *)
Lemma acquire_rounds_serves i c s rounds k :
  evaluate args h0 i false = VOk c → rdy_of (k_hot k) eg !! i = Some s → s ≤ now →
  (zcount (rdy_of (k_hot k) eg) now ≤ Nat.max (a_ksample args) (a_count args))%nat → (0 < a_count args)%nat →
  call_ok args h0 k → k_picked k = 0%nat → k_proxy_fail k = 0%nat → k_skip k = ∅ →
  (0 < k_picked (acquire_rounds args probe stk (S rounds) k))%nat.
Proof.
  intros Hi Hs Hle Hdue Hcount Hk Hpk Hpf Hsk. cbn [acquire_rounds]. rewrite Hpk, Hsk, size_empty, Nat.sub_0_r, Nat.add_0_r.
  set (want := Nat.max _ _) in *. set (ids := zrangebyscore _ _ _ _).
  assert (ids = (filter (λ kv, kv.2 ≤ now) (zrange_withscores (rdy_of (k_hot k) eg))).*1) as Eids.
  { subst ids. unfold zrangebyscore. rewrite drop_0, take_ge; [done|]. by rewrite length_fmap. }
  assert (i ∈ ids) as Hin by (rewrite Eids; apply elem_of_due_keys; eauto).
  rewrite bool_decide_eq_false_2 by (intros E; rewrite E in Hin; by apply not_elem_of_nil in Hin).
  destruct (select_loop _ _ _ _ _ _) as [P' k'] eqn:Hl. cbn [snd]. rewrite <- Hsk in Hl.
  pose proof (new_pool_ok k ids want (zrangebyscore_NoDup _ _ _ _)) as Hpool.
  destruct (select_loop_ok _ _ _ _ _ Hl Hk Hpool (new_pool_measure _ _ _)) as (Hk' & _ & Hdone).
  assert (serving i k' (sigs P')) as Hserve.
  { apply (select_loop_serves i c _ _ _ _ _ Hi Hl Hk Hpool). intros _. split; [done|].
    rewrite sigs_new_pool, <- list_fmap_compose. unfold compose. cbn. rewrite list_fmap_id, Hsk.
    rewrite take_ge; [apply list_elem_of_filter; split; [apply not_elem_of_empty|done]|].
    etrans; [apply length_filter|]. rewrite Eids, length_fmap. done. }
  assert (0 < k_picked k')%nat as Hpos.
  { destruct (k_picked k') eqn:E; [|lia]. destruct (Hserve E) as [Hf Hin']. unfold loop_done in Hdone. rewrite E, Hf in Hdone.
    apply orb_true_iff in Hdone as [[Hd|He]%orb_true_iff|Hd]; [apply Nat.leb_le in Hd; lia| |done].
    apply bool_decide_eq_true in He. unfold sigs in Hin'. rewrite He in Hin'. by apply not_elem_of_nil in Hin'. }
  destruct (_ || _); [done|]. destruct (acquire_rounds_ok rounds k' Hk'). lia.
Qed.
End loop.
