(* ===== verification/SchedRun.v ===== *)
(** * Runs of the lease scripts

    acquire.lua, renew.lua, release.lua and reap.lua as steps of the hot state
    of a site, the refinement of their runs to the lease ledger, and what the
    ledger's invariant says of the hot state. *)

From S2P Require Import Prelude GoStrings GoFloat PolicyBase GoTime LuaCommon PolicyRotation PolicyResolve Breaker.
From S2P Require Import SchedState SchedSelect SchedAcquire SchedLease SchedLedger SchedRefine SchedGrant SchedLoop.

Local Open Scope Z_scope.

(** ** acquire.lua *)

(** What the caller sends: one fresh lease id prefix per lease. *)
Record acquire_ready (args : AcquireArgs) (h : Hot) : Prop := {
  ar_count : (0 < a_count args ≤ length (a_prefixes args))%nat;
  ar_distinct : NoDup (a_prefixes args);
  ar_times : 0 ≤ a_ttl args ∧ 0 ≤ a_lifetime args;
  ar_new : ∀ p n, p ∈ a_prefixes args → h_ls h !! (p +:+ hex2 n)%string = None;
}.

(** The leases of a successful call. *)
Record acquired (args : AcquireArgs) (h : Hot) (out : list LeaseOut) (h' : Hot) : Prop := {
  ac_count : (0 < length out ≤ a_count args)%nat;
  ac_distinct : NoDup (lo_i <$> out);
  ac_granted : Forall (granted args h) out;
  ac_recorded : Forall (recorded args h') out;
  ac_proxies : proxies_within h h';
}.

Section acquire.
Context {lua : LuaMath}.

Lemma acquire_leases_ok args probe stk moved h reply h' :
  acquire_ready args h → (stk ≠ None → a_count args = 1%nat) → acquire_leases args probe stk moved h = (reply, h') →
  rtc lstep (a_now args, ledger_of h) (a_now args, ledger_of h') ∧
  match reply with
  | ReplyOK _ out => acquired args h out h'
  | _ => ledger_of h' = ledger_of h
  end.
Proof.
  intros [Hcount Hdist Htimes Hnew] Hstk H. unfold acquire_leases in H.
  change ({| k_hot := h; k_picked := 0; k_skip := ∅; k_ridx := 0; k_rr := None; k_proxy_fail := 0; k_out := [] |})
    with (start h) in H.
  destruct (sticky_reuse_ok args probe stk h Hdist ltac:(lia) Htimes Hnew) as (Hdone & H0 & _ & Hnone); [lia|].
  set (k1 := sticky_reuse args probe stk (start h)) in *. clearbody k1.
  set (k2 := if (k_picked k1 <? a_count args)%nat then _ else k1) in H.
  assert (call_done args h k2) as (k & Hk & Hhot & Hpk & Hout).
  { subst k2. destruct (Nat.ltb_spec (k_picked k1) (a_count args)); [|done].
    destruct (decide (k_picked k1 = 0%nat)) as [E|E].
    - destruct (H0 E) as [Hk1 _]. eexists. split; [|done]. by apply acquire_rounds_ok; try lia.
    - destruct stk as [key|]; [pose proof (Hstk ltac:(done)); lia|]. by rewrite (Hnone eq_refl) in E. }
  clearbody k2. destruct (Nat.ltb_spec 0 (k_picked k2)) as [Hpos|Hzero].
  - assert (ledger_of h' = ledger_of (k_hot k) ∧ h_ls h' = h_ls (k_hot k) ∧ h_px h' = h_px (k_hot k) ∧
      reply = ReplyOK moved (k_out k)) as (El & Els & Epx & ->) by (rewrite Hhot, Hout; by destruct (k_rr k2); simplify_eq).
    destruct Hk. split; [by rewrite El|]. split; [lia|done..| |].
    + eapply Forall_impl; [exact co_recorded|]. intros o. unfold recorded. by rewrite Els.
    + unfold proxies_within. by rewrite Epx.
  - assert (ledger_of h' = ledger_of h) as E.
    { assert (h' = k_hot k) as -> by (rewrite Hhot; by destruct (0 <? k_proxy_fail k2)%nat; simplify_eq).
      apply quiet_ledger, (co_quiet _ _ _ Hk). lia. }
    rewrite E. split; [done|]. by destruct (0 <? k_proxy_fail k2)%nat; simplify_eq.
Qed.

Lemma acquire_leases_life args probe stk moved h :
  acquire_ready args h → (stk ≠ None → a_count args = 1%nat) → same_life h (acquire_leases args probe stk moved h).2.
Proof.
  intros [Hcount Hdist Htimes Hnew] Hstk. unfold acquire_leases.
  change ({| k_hot := h; k_picked := 0; k_skip := ∅; k_ridx := 0; k_rr := None; k_proxy_fail := 0; k_out := [] |}) with (start h).
  destruct (sticky_reuse_ok args probe stk h Hdist ltac:(lia) Htimes Hnew) as ((k & Hk & Hhot & _) & H0 & _ & Hnone); [lia|].
  set (k1 := sticky_reuse args probe stk (start h)) in *. clearbody k1. set (k2 := if (k_picked k1 <? a_count args)%nat then _ else k1).
  assert (same_life h (k_hot k2)) as H2.
  { subst k2. assert (same_life h (k_hot k1)) as H1 by (rewrite <- Hhot; apply (co_life _ _ _ Hk)).
    destruct (Nat.ltb_spec (k_picked k1) (a_count args)); [|done]. destruct (decide (k_picked k1 = 0%nat)) as [E|E].
    - destruct (H0 E) as [Hk1 _]. apply (co_life args). by apply acquire_rounds_ok; try lia.
    - destruct stk as [key|]; [pose proof (Hstk ltac:(done)); lia|]. by rewrite (Hnone eq_refl) in E. }
  clearbody k2. destruct (0 <? k_picked k2)%nat; [|by destruct (0 <? k_proxy_fail k2)%nat]. etrans; [exact H2|].
  destruct (k_rr k2); by apply same_life_eq.
Qed.

(** The breaker of the group is not part of what the leases depend on. *)
Lemma acquired_brk args f h out h' : acquired args (on_brk f h) out h' → acquired args h out h'.
Proof.
  intros []. split; try done. eapply Forall_impl; [exact ac_granted0|]. intros o (c & sticky & Hc & H).
  exists c, sticky. split; [|done]. by apply (cand_ok_frame _ _ _ _ _ Hc).
Qed.

(** A probe call asks for one lease. *)
Lemma acquired_as_probe args h out h' : (0 < a_count args)%nat → acquired (as_probe args) h out h' → acquired args h out h'.
Proof.
  intros Hc []. split; [cbn in *; lia|done| |done..].
  eapply Forall_impl; [exact ac_granted0|]. intros o (c & sticky & [] & H). exists c, sticky. split; [by split|done].
Qed.

(** The gate writes the breaker of the group only. *)
Lemma gate_brk h eg b :
  ∃ f, match h_brk h !! eg with Some _ => on_brk (<[eg := b]>) h | None => h end = on_brk f h.
Proof. destruct (h_brk h !! eg); [by eexists|]. exists id. by destruct h. Qed.

Lemma acquire_lua_ok args h reply h' :
  acquire_ready args h → acquire_lua args h = (reply, h') →
  rtc lstep (a_now args, ledger_of h) (a_now args, ledger_of h') ∧
  match reply with
  | ReplyOK _ out => acquired args h out h'
  | _ => ledger_of h' = ledger_of h
  end.
Proof.
  intros Hr H. unfold acquire_lua in H. destruct (acquire_gate _ _ _) as [[b moved] gate].
  destruct (gate_brk h (a_eg args) b) as [f Hf]. rewrite Hf in H.
  destruct gate as [ms|[|]]; [by simplify_eq| |].
  - apply acquire_leases_ok in H as [Hs Ha]; [|by destruct Hr; split; cbn in *; [lia|..]|done].
    split; [done|]. destruct reply; try done. apply acquired_as_probe; [apply Hr|]. by eapply acquired_brk.
  - apply acquire_leases_ok in H as [Hs Ha]; [|by destruct Hr; split|].
    + split; [done|]. destruct reply; try done. by eapply acquired_brk.
    + destruct (_ && (a_count args =? 1)%nat) eqn:E; [|done]. apply andb_true_iff in E as [_ E]. by apply Nat.eqb_eq in E.
Qed.

Lemma acquire_lua_life args h : acquire_ready args h → same_life h (acquire_lua args h).2.
Proof.
  intros Hr. unfold acquire_lua. destruct (acquire_gate _ _ _) as [[b moved] gate].
  destruct (gate_brk h (a_eg args) b) as [f Hf]. rewrite Hf. assert (same_life h (on_brk f h)) as H0 by (by apply same_life_eq).
  destruct gate as [ms|[|]]; [done|etrans; [exact H0|]; apply acquire_leases_life..].
  - destruct Hr. by split; cbn in *; [lia|..].
  - done.
  - by destruct Hr; split.
  - destruct (_ && (a_count args =? 1)%nat) eqn:E; [|done]. apply andb_true_iff in E as [_ E]. by apply Nat.eqb_eq in E.
Qed.
End acquire.

(** ** Progress of acquire.lua *)

Section serves.
Context {lua : LuaMath}.

Lemma acquire_leases_serves args probe stk moved h i c s :
  acquire_ready args h → (stk ≠ None → a_count args = 1%nat) → a_pmode args = mode_n →
  evaluate args h i false = VOk c → rdy_of h (a_eg args) !! i = Some s → s ≤ a_now args →
  (zcount (rdy_of h (a_eg args)) (a_now args) ≤ a_ksample args)%nat →
  ∃ out, (acquire_leases args probe stk moved h).1 = ReplyOK moved out.
Proof.
  intros [Hcount Hdist Htimes Hnew] Hstk Hmode Hev Hs Hle Hdue. unfold acquire_leases.
  change ({| k_hot := h; k_picked := 0; k_skip := ∅; k_ridx := 0; k_rr := None; k_proxy_fail := 0; k_out := [] |})
    with (start h).
  set (k2 := if (k_picked (sticky_reuse args probe stk (start h)) <? a_count args)%nat then _ else _).
  assert (0 < k_picked k2)%nat as Hpos; [|by rewrite (proj2 (Nat.ltb_lt _ _) Hpos); eexists].
  subst k2. destruct (sticky_reuse_ok args probe stk h Hdist ltac:(lia) Htimes Hnew) as (_ & H0 & _ & _); [lia|].
  destruct (decide (k_picked (sticky_reuse args probe stk (start h)) = 0%nat)) as [E|E].
  - destruct (H0 E) as [Hk Hn]. destruct (Hn Hmode) as [Hpf Hsk]. rewrite (proj2 (Nat.ltb_lt _ _)) by lia.
    assert (rdy_of (k_hot (sticky_reuse args probe stk (start h))) (a_eg args) = rdy_of h (a_eg args)) as Erdy.
    { unfold sticky_reuse in *. repeat case_match; try done; cbn in E; done || (unfold assign_proxy in *; by rewrite Hmode in *; simplify_eq). }
    eapply (acquire_rounds_serves args probe stk h); try done; try lia; rewrite Erdy; done || lia.
  - destruct (_ <? _)%nat eqn:Hlt; [|lia]. apply Nat.ltb_lt in Hlt.
    destruct (sticky_reuse_ok args probe stk h Hdist ltac:(lia) Htimes Hnew) as (_ & _ & Hle1 & Hnone); [lia|].
    destruct stk as [key|]; [pose proof (Hstk ltac:(done)); lia|]. by rewrite (Hnone eq_refl) in E.
Qed.
End serves.

(** ** Reaping *)

Lemma foreign_refl g : foreign g g.
Proof. split; try done; try eauto. intros lid l ->. done. Qed.

Lemma Forall2_in {A B} (P Q : A → B → Prop) l k :
  (∀ x y, x ∈ l → P x y → Q x y) → Forall2 P l k → Forall2 Q l k.
Proof. intros H. induction 1; constructor; [|apply IHForall2; intros]; apply H; auto using list_elem_of_here, list_elem_of_further. Qed.

Section reap.
Variables (now late : Z) (layout : Layout).

(** What reap.lua reports of an expired lease. *)
Definition reap_report (h : Hot) (lid : string) (e : string * Lease * bool) : Prop :=
  ∃ l, h_ls h !! lid = Some l ∧ active l = true ∧ ls_x l ≤ now ∧ e = (lid, l, (ls_rv l =? 0) && (ls_rc l =? 0)).

Lemma reap_fold ids out h :
  ledger_ok now (ledger_of h) → NoDup ids → (∀ lid, lid ∈ ids → ∃ x, h_lsexp h !! lid = Some x ∧ x ≤ now) →
  ∃ es h', foldl (reap_one now late layout) (out, h) ids = (out ++ es, h') ∧ Forall2 (reap_report h) ids es ∧
    rtc lstep (now, ledger_of h) (now, ledger_of h') ∧
    (∀ lid, h_lsexp h' !! lid = if bool_decide (lid ∈ ids) then None else h_lsexp h !! lid) ∧
    (∀ lid, lid ∉ ids → h_ls h' !! lid = h_ls h !! lid) ∧
    (∀ lid, lid ∈ ids → ∃ l keep, h_ls h !! lid = Some l ∧ h_ls h' !! lid = Some (with_end LeaseExpired (ls_x l) keep l)).
Proof.
  revert out h. induction ids as [|lid ids IH]; intros out h Hok Hd Hdue.
  { exists [], h. cbn. rewrite app_nil_r. split_and!; try done; try constructor. intros lid Hin. by apply not_elem_of_nil in Hin. }
  apply NoDup_cons in Hd as [Hni Hd]. destruct (Hdue lid) as (x & Hx & Hle); [apply list_elem_of_here|].
  destruct (proj1 (lo_exp _ _ Hok lid x) Hx) as (l & Hl & Hact & <-). cbn in Hl.
  set (h1 := ls_end lid l LeaseExpired (ls_x l) now late None layout h).
  assert (ledger_of h1 = finish lid l LeaseExpired (ls_x l) (Z.max late (ls_kx l - now)) (ledger_of h)) as E1 by apply ls_end_ledger.
  assert (lstep (now, ledger_of h) (now, ledger_of h1)) as Hstep by (rewrite E1; by constructor).
  assert (h_lsexp h1 = delete lid (h_lsexp h)) as Eexp by (change (lg_exp (ledger_of h1) = delete lid (h_lsexp h)); by rewrite E1).
  assert (h_ls h1 = <[lid := with_end LeaseExpired (ls_x l) (Z.max late (ls_kx l - now)) l]> (h_ls h)) as Els
    by (change (lg_leases (ledger_of h1) = <[lid := with_end LeaseExpired (ls_x l) (Z.max late (ls_kx l - now)) l]> (h_ls h)); by rewrite E1).
  destruct (IH (out ++ [(lid, l, (ls_rv l =? 0) && (ls_rc l =? 0))]) h1) as (es & h' & Hf & Hes & Hrtc & Hexp & Hls & Hin).
  { by eapply lstep_ok. } { done. }
  { intros lid' Hlid'. rewrite Eexp, lookup_delete_ne by congruence. apply Hdue. by apply list_elem_of_further. }
  exists ((lid, l, (ls_rv l =? 0) && (ls_rc l =? 0)) :: es), h'. split_and!.
  - cbn [foldl]. unfold reap_one at 2. rewrite Hl. unfold active in Hact. rewrite Hact. fold h1. by rewrite Hf, <- app_assoc.
  - constructor; [by exists l|]. eapply Forall2_in; [|exact Hes]. intros lid' e Hlid' (l' & Hl' & H').
    exists l'. split; [|done]. rewrite Els, lookup_insert_ne in Hl'; [done|]. intros ->. by apply Hni.
  - by eapply rtc_l.
  - intros lid'. rewrite Hexp, Eexp. destruct (decide (lid' = lid)) as [->|Hne].
    + rewrite lookup_delete_eq, (bool_decide_eq_true_2 (lid ∈ lid :: ids)) by apply list_elem_of_here. by destruct (bool_decide _).
    + rewrite lookup_delete_ne by done. by rewrite (bool_decide_ext (lid' ∈ lid :: ids) (lid' ∈ ids)) by set_solver.
  - intros lid' Hni'. apply not_elem_of_cons in Hni' as [??]. rewrite Hls, Els, lookup_insert_ne by done. done.
  - intros lid' Hin'. destruct (decide (lid' = lid)) as [->|Hne].
    + exists l. eexists. split; [done|]. rewrite Hls, Els, lookup_insert_eq by done. done.
    + apply elem_of_cons in Hin' as [?|Hin']; [done|]. destruct (Hin lid' Hin') as (l' & keep & Hl' & Hx').
      rewrite Els, lookup_insert_ne in Hl' by done. eauto.
Qed.
End reap.

(** ** Runs *)

Lemma rtc_lstep_ok s s' : rtc lstep s s' → ledger_ok s.1 s.2 → ledger_ok s'.1 s'.2.
Proof. induction 1 as [|[t g] [t' g'] s' Hs _ IH]; [done|]. intros H. apply IH. by eapply lstep_ok. Qed.

Section runs.
Context {lua : LuaMath}.

(** A script runs at the time its caller sends; the machine assumes that these
    times do not go back.  [hstep_other] stands for the writers of the hot
    state that are not lease scripts. *)
Inductive hstep : Z * Hot → Z * Hot → Prop :=
| hstep_acquire t args h :
    t ≤ a_now args → acquire_ready args h → hstep (t, h) (a_now args, (acquire_lua args h).2)
| hstep_renew t now lid extend ns h : t ≤ now → hstep (t, h) (now, (renew_lua now lid extend ns h).2)
| hstep_release t now lid late ns windows layout h :
    t ≤ now → hstep (t, h) (now, (release_lua now lid late ns windows layout h).2)
| hstep_reap t now limit late layout h : t ≤ now → hstep (t, h) (now, (reap_lua now limit late layout h).2)
| hstep_other t now h h' : t ≤ now → foreign (ledger_of h) (ledger_of h') → hstep (t, h) (now, h').

Inductive hreachable : Z * Hot → Prop :=
| hr_new t : hreachable (t, no_hot)
| hr_step s s' : hreachable s → hstep s s' → hreachable s'.

Lemma advance t now g : t ≤ now → lstep (t, g) (now, g).
Proof. intros H. by apply lstep_foreign, foreign_refl. Qed.
Lemma ledger_ok_later t now g : t ≤ now → ledger_ok t g → ledger_ok now g.
Proof. intros H. by apply lstep_ok, advance. Qed.

Lemma reap_lua_ok now limit late layout h :
  ledger_ok now (ledger_of h) →
  let ids := zrangebyscore (h_lsexp h) now 0 limit in
  ∃ es h', reap_lua now limit late layout h = (length ids, es, h') ∧ Forall2 (reap_report now h) ids es ∧
    rtc lstep (now, ledger_of h) (now, ledger_of h') ∧
    (∀ lid, h_lsexp h' !! lid = if bool_decide (lid ∈ ids) then None else h_lsexp h !! lid) ∧
    (∀ lid, lid ∉ ids → h_ls h' !! lid = h_ls h !! lid) ∧
    (∀ lid, lid ∈ ids → ∃ l keep, h_ls h !! lid = Some l ∧ h_ls h' !! lid = Some (with_end LeaseExpired (ls_x l) keep l)).
Proof.
  intros Hok ids. destruct (reap_fold now late layout ids [] h Hok) as (es & h' & Hf & H).
  { apply zrangebyscore_NoDup. } { intros lid. apply zrangebyscore_due. }
  exists es, h'. split; [|done]. unfold reap_lua. fold ids. by rewrite Hf.
Qed.

Lemma hstep_refines t h t' h' :
  hstep (t, h) (t', h') → ledger_ok t (ledger_of h) → rtc lstep (t, ledger_of h) (t', ledger_of h').
Proof.
  intros H Hok. inversion H as [? args ? Ht Hr|? now lid extend ns ? Ht|? now lid late ns windows layout ? Ht
    |? now limit late layout ? Ht|? now ? ? Ht Hf]; subst.
  - eapply rtc_l; [by apply advance|]. destruct (acquire_lua args h) as [reply h'] eqn:E.
    by apply acquire_lua_ok in E as [? _].
  - apply rtc_once. destruct (renew_ledger t' lid extend ns h) as [(x & l & l0 & _ & Hl & Ha & Hx & Hb & _ & _ & ->)|[-> _]].
    + by apply (lstep_extend t t').
    + by apply advance.
  - apply rtc_once. unfold release_lua. destruct (h_ls h !! lid) as [l|] eqn:Hl; [|by apply advance].
    destruct (_ && _); [by apply advance|]. destruct (bool_decide_reflect (ls_st l = LeaseActive)); [|by apply advance].
    cbn [snd]. rewrite ls_end_ledger. apply lstep_finish; [done|done|by apply bool_decide_eq_true_2|done].
  - eapply rtc_l; [by apply advance|]. destruct (reap_lua_ok t' limit late layout h) as (es & h' & -> & _ & Hs & _); [|done].
    by apply (ledger_ok_later t).
  - by apply rtc_once, lstep_foreign.
Qed.

Lemma lreachable_rtc s s' : lreachable s → rtc lstep s s' → lreachable s'.
Proof. intros H Hs. revert H. induction Hs; eauto using lr_step. Qed.

Lemma hreachable_refines s : hreachable s → lreachable (s.1, ledger_of s.2).
Proof.
  induction 1 as [t|[t h] [t' h'] _ IH Hs]; [apply lr_new|].
  eapply lreachable_rtc; [exact IH|]. apply hstep_refines; [done|]. by apply lreachable_ok.
Qed.

Lemma hreachable_ok t h : hreachable (t, h) → ledger_ok t (ledger_of h).
Proof. intros H. apply lreachable_ok. by apply hreachable_refines in H. Qed.
End runs.
