(* ===== verification/Scheduler.v ===== *)
(** * What the scheduler promises of its leases

    The properties of acquire.lua, renew.lua, release.lua and reap.lua, and of
    the reaper loop of internal/scheduler/reap.go, each with a run that
    exercises it. *)

From S2P Require Import Prelude GoStrings GoFloat PolicyBase GoTime LuaCommon PolicyRotation PolicyResolve Breaker.
From S2P Require Import SchedState SchedSelect SchedAcquire SchedLease SchedLedger SchedRefine SchedGrant SchedLoop SchedRun.

Local Open Scope Z_scope.

(** ** The reaper of a site *)

Definition reapBatch : nat := 200.

(** The loop of [reapSite] under the site's lock.  [clock] gives, for every
    batch, the time the script is sent and whether the budget of the site or the
    job ran out after it; [None] means that more batches than [clock] has would
    run. *)
Fixpoint reapSite (late : Z) (layout : Layout) (clock : list (Z * bool)) (total : nat) (h : Hot) : option (nat * Hot) :=
  match clock with
  | [] => None
  | (now, stop) :: clock' =>
      let '(scanned, out, h) := reap_lua now reapBatch late layout h in
      let total := (total + length out)%nat in
      if (scanned <? reapBatch)%nat || stop then Some (total, h) else reapSite late layout clock' total h
  end.

(** ** A site with two identities, for the runs *)

(** The exponential of a run in which no score decays. *)
#[local] Instance flat_math : LuaMath := {| math_exp := λ _, f_of_Z 1 |}.

Definition demo_identity (iid : string) : Identity :=
  {| id_st := "active"; id_al := 0; id_xl := 0; id_scd := 0; id_sru := 0; id_acc := None; id_iid := iid;
     id_ty := "guest"; id_pv := 1; id_tv := 1; id_act := 0; id_px := None; id_rbd := ""; id_rbn := 0;
     id_rg := ""; id_lu := 0; id_xg := xg_none |}.

Definition demo_site : Hot :=
  on_rdy 1 (λ _, {[10 := 0; 11 := 5]})
    (on_id (λ _, {[10 := demo_identity "id-10"; 11 := demo_identity "id-11"]}) no_hot).

Definition demo_args (now : Z) (prefixes : list string) : AcquireArgs :=
  {| a_now := now; a_count := length prefixes; a_eg := 1; a_strategy := strategy_r; a_ksample := 8; a_ttl := 60000;
     a_lifetime := 300000; a_mc := 1; a_ri := 0; a_ra := anchor_acquired; a_rs := scope_endpoint;
     a_probe_wf := 1000000; a_probe_max := 1; a_warmup := 0; a_warmup_factor := 1000000; a_baseline := f_of_Z 60;
     a_tau := 0; a_probe_limit := 5; a_session := ""; a_sticky_ttl := 0; a_shards := 16; a_node := "node-1";
     a_token := "tok"; a_ns := "ns-1"; a_pmode := mode_n; a_pregion := false; a_tolerance := 0;
     a_max_rebinds := 0; a_today := "2026-01-01"; a_kinds := []; a_providers := []; a_regions := []; a_tags := [];
     a_quotas := []; a_prefixes := prefixes; a_randoms := [] |}.

Lemma demo_foreign : foreign (ledger_of no_hot) (ledger_of demo_site).
Proof.
  split; try done. intros i c H. right. cbn in H. rewrite lookup_fmap, fmap_Some in H. destruct H as (d & Hd & ->).
  apply lookup_insert_Some in Hd as [[_ <-]|[_ Hd]]; [done|].
  by apply lookup_singleton_Some in Hd as [_ <-].
Qed.

Lemma demo_ready now prefixes :
  (0 < length prefixes)%nat → NoDup prefixes → acquire_ready (demo_args now prefixes) demo_site.
Proof. intros Hl Hd. by split; cbn; try lia. Qed.

Lemma demo_reachable : hreachable (0, demo_site).
Proof. eapply hr_step; [apply (hr_new 0)|]. by apply hstep_other; [|apply demo_foreign]. Qed.

(** Both identities are leased at time 1000. *)
Definition demo_leased : Hot := (acquire_lua (demo_args 1000 ["lse_a"; "lse_b"]) demo_site).2.

Lemma demo_prefixes : NoDup ["lse_a"; "lse_b"].
Proof. by apply (bool_decide_unpack _); vm_compute. Qed.

Lemma demo_ready_two : acquire_ready (demo_args 1000 ["lse_a"; "lse_b"]) demo_site.
Proof. apply demo_ready; [cbn; lia|apply demo_prefixes]. Qed.

Lemma demo_leased_reachable : hreachable (1000, demo_leased).
Proof.
  eapply hr_step; [apply demo_reachable|]. unfold demo_leased.
  apply (hstep_acquire 0 (demo_args 1000 ["lse_a"; "lse_b"])); [done|apply demo_ready_two].
Qed.

Lemma demo_leased_new n : h_ls demo_leased !! ("lse_c" +:+ hex2 n)%string = None.
Proof.
  assert (dom (h_ls demo_leased) = {["lse_a0a"; "lse_b0b"]}) as Hd by (vm_compute; reflexivity).
  apply not_elem_of_dom. rewrite Hd. rewrite elem_of_union, !elem_of_singleton. intros [H|H]; discriminate H.
Qed.

Lemma demo_leased_ready now : acquire_ready (demo_args now ["lse_c"]) demo_leased.
Proof.
  split; [cbn; lia|apply NoDup_singleton|cbn; lia|]. intros p n Hp. apply list_elem_of_singleton in Hp as ->.
  apply demo_leased_new.
Qed.

(** ** The ledger *)

(** C2: every run of the lease scripts on the hot state of a site is a run of
    the lease ledger: an acquire call grants leases one by one to identities
    below their limit and free of exclusive leases, a renewal extends one lease
    within its cap, a release and every reaped lease finish one. *)
Theorem runs_refine_ledger {lua : LuaMath} t h : hreachable (t, h) → lreachable (t, ledger_of h).
Proof. apply hreachable_refines. Qed.

Lemma runs_refine_ledger_witness : lreachable (1000, ledger_of demo_leased).
Proof. apply runs_refine_ledger. apply demo_leased_reachable. Defined.

(** C18: in every reachable hot state the lease count "al" of an identity and of
    a proxy is the number of its active leases, the expiry index "lsexp" holds
    exactly the active leases with their expiry, and a lease expires between its
    acquisition and its lifetime cap.  Reachable are the states of the lease scripts
    among other writers that are [foreign]; a run in which the hash of an identity or a
    proxy is created while it has active leases (archived and restored, say) is left out. *)
Theorem lease_accounting {lua : LuaMath} t h :
  hreachable (t, h) →
  (∀ i d, h_id h !! i = Some d → id_al d = Z.of_nat (size (held_by i (h_ls h)))) ∧
  (∀ p d, h_px h !! p = Some d → px_al d = Z.of_nat (size (used_by p (h_ls h)))) ∧
  (∀ lid x, h_lsexp h !! lid = Some x ↔ ∃ l, h_ls h !! lid = Some l ∧ active l = true ∧ ls_x l = x) ∧
  (∀ lid l, h_ls h !! lid = Some l → ls_a l ≤ t ∧ ls_a l ≤ ls_x l ≤ ls_cap l).
Proof.
  intros H. apply hreachable_ok in H as []. split_and!.
  - intros i d Hd. apply (lo_held i _ (id_xl d)). cbn. by rewrite lookup_fmap, Hd.
  - intros p d Hd. apply lo_used. cbn. by rewrite lookup_fmap, Hd.
  - apply lo_exp.
  - apply lo_time.
Qed.

Lemma lease_accounting_witness :
  (∀ d, h_id demo_leased !! 10 = Some d → id_al d = Z.of_nat (size (held_by 10 (h_ls demo_leased)))) ∧
  size (held_by 10 (h_ls demo_leased)) = 1%nat ∧ size (h_lsexp demo_leased) = 2%nat.
Proof.
  split_and!; [|by vm_compute..]. apply (lease_accounting 1000 demo_leased demo_leased_reachable).
Defined.

(** C3: an exclusive lease is alone: while a lease of an identity that was
    granted with max_concurrency 1 is active and not past its expiry, no other
    active lease of the identity is.  The runs are those of the lease scripts among
    other writers that are [foreign]: they neither touch active leases nor create
    the hash of an identity or a proxy that has some.  The program does not enforce the
    second part: an identity that is archived and restored while it is leased gets a new
    hash, and such runs are left out. *)
Theorem exclusive_lease_alone {lua : LuaMath} t h lid1 lid2 l1 l2 :
  hreachable (t, h) → h_ls h !! lid1 = Some l1 → h_ls h !! lid2 = Some l2 → active l1 = true → active l2 = true →
  ls_i l1 = ls_i l2 → ls_mc l1 = 1 → t < ls_x l1 → t < ls_x l2 → lid1 = lid2.
Proof.
  intros H H1 H2 Ha1 Ha2 Hi Hmc Hx1 Hx2. apply hreachable_ok in H. destruct (decide (lid1 = lid2)) as [|Hne]; [done|].
  pose proof (lo_time _ _ H _ _ H1). pose proof (lo_time _ _ H _ _ H2).
  destruct (lo_excl _ _ H lid1 lid2 l1 l2) as [?|[_ ?]]; try done; lia.
Qed.

Lemma exclusive_lease_alone_witness :
  ∃ l, h_ls demo_leased !! "lse_a0a" = Some l ∧ ls_mc l = 1 ∧
    ∀ lid l', h_ls demo_leased !! lid = Some l' → active l' = true → ls_i l = ls_i l' → 1000 < ls_x l' → "lse_a0a" = lid.
Proof.
  eexists. split; [vm_compute; reflexivity|]. split; [reflexivity|]. intros lid l' Hl Ha Hi Hx.
  eapply (exclusive_lease_alone 1000 demo_leased); [apply demo_leased_reachable| |exact Hl| |exact Ha|exact Hi| | |exact Hx];
    vm_compute; reflexivity.
Defined.

(** ** acquire.lua *)

(** C4: a successful acquire call returns between one and [count] leases of
    distinct identities.  Each identity was ready, available at the time of the
    call (cooldowns, reuse interval, account and exclusive lease), below its
    concurrency limit and below every quota when the script started, and each
    lease is recorded as active with the returned expiry; no proxy gets more
    leases than its max_concurrency. *)
Theorem acquire_grants {lua : LuaMath} args h moved out h' :
  acquire_ready args h → acquire_lua args h = (ReplyOK moved out, h') →
  (0 < length out ≤ a_count args)%nat ∧ NoDup (lo_i <$> out) ∧
  Forall (λ o, ∃ d l, h_id h !! lo_i o = Some d ∧ is_ready (lo_st o) = true ∧ id_al d < a_mc args ∧
    (0 < id_al d → id_xl d ≤ a_now args) ∧
    (avail_bound args h (read_identity args d)
      (sp_hs_unpack (h_hs h !! (a_eg args, lo_i o)) (a_baseline args) (a_now args)) (lo_sticky o)).1 ≤ a_now args ∧
    quota_push args (id_act (read_identity args d)) (quota_values args h (lo_i o)) = None ∧
    h_ls h' !! lo_lid o = Some l ∧ active l = true ∧ ls_i l = lo_i o ∧ ls_x l = lo_x o ∧ ls_a l = a_now args) out ∧
  ∀ p d, h_px h' !! p = Some d → ∃ d0, h_px h !! p = Some d0 ∧ px_mc d = px_mc d0 ∧ px_al d ≤ Z.max (px_al d0) (px_mc d0).
Proof.
  intros Hr H. apply acquire_lua_ok in H as [_ [Hc Hd Hg Hrec Hp]]; [|done]. split_and!; [lia..|done| |].
  - rewrite Forall_forall in *. intros o Ho. destruct (Hg o Ho) as (c & sticky & [] & Hi & Hst & Hs).
    destruct (Hrec o Ho) as (l & Hl & Ha & Hli & Hlx & _ & Hla & _). destruct cn_id as (d & Hid & Hcd).
    destruct (read_identity_counts args d) as [Eal Exl]. rewrite <- Hcd in Eal, Exl.
    pose proof (avail_exclusive _ _ _ _ _ cn_avail). pose proof (lease_limit_le args (id_st (c_id c))).
    exists d, l. rewrite Hi, Hst, Hs, <- Hcd, <- cn_hs, <- cn_q. rewrite cn_lim in cn_free.
    rewrite Eal, Exl in *. split_and!; try done; lia.
  - intros p d Hd'. specialize (Hp p). rewrite Hd' in Hp. destruct (h_px h !! p) as [d0|] eqn:Hd0; [|done].
    exists d0. split_and!; [done| |apply Hp]. destruct Hp as [E _].
    change (px_mc (with_px_al 0 d) = px_mc (with_px_al 0 d0)). by rewrite E.
Qed.

Lemma acquire_grants_witness :
  ∃ out, acquire_lua (demo_args 1000 ["lse_a"; "lse_b"]) demo_site = (ReplyOK false out, demo_leased) ∧
    length out = 2%nat ∧ NoDup (lo_i <$> out).
Proof.
  destruct (acquire_lua (demo_args 1000 ["lse_a"; "lse_b"]) demo_site) as [reply h'] eqn:E.
  assert (∃ out, reply = ReplyOK false out ∧ length out = 2%nat) as (out & -> & Hl).
  { change reply with (reply, h').1. rewrite <- E. eexists. vm_compute. split; reflexivity. }
  exists out. split; [unfold demo_leased; by rewrite E|]. split; [done|].
  apply (acquire_grants (demo_args 1000 ["lse_a"; "lse_b"]) demo_site false out h' demo_ready_two E).
Defined.

Lemma retry_after_bounds args z fallback : 50 ≤ fallback ≤ 60000 → 50 ≤ retry_after args z fallback ≤ 60000.
Proof. intros H. unfold retry_after. repeat case_match; lia. Qed.

(** The bounds on what a refused client waits for. *)
Definition wait_ok (reply : AcquireReply) : Prop :=
  match reply with
  | ReplyOK _ _ => True
  | ReplyBreakerOpen _ ms => 0 < ms
  | ReplyNoProxy _ ms | ReplyExhausted _ ms => 50 ≤ ms ≤ 60000
  end.

Lemma acquire_leases_wait {lua : LuaMath} args probe stk moved h : wait_ok (acquire_leases args probe stk moved h).1.
Proof.
  unfold acquire_leases. set (k := if (_ <? _)%nat then acquire_rounds _ _ _ _ _ else _). clearbody k.
  destruct (0 <? k_picked k)%nat; [done|]. destruct (0 <? k_proxy_fail k)%nat; by apply retry_after_bounds.
Qed.

Lemma acquire_gate_open now limit b b' moved ms : acquire_gate now limit b = (b', moved, GateOpen ms) → 0 < ms.
Proof.
  unfold acquire_gate. destruct (_ && ((man b =? 1) && _)); [intros; by simplify_eq|].
  destruct (_ && (now <? ou b)) eqn:E; [intros; simplify_eq; apply andb_true_iff in E as [_ E]; lia|].
  cbv zeta. repeat case_match; intros; simplify_eq; lia.
Qed.

(** A call that grants nothing leaves every lease and every lease count as
    it was, and tells the client to wait between 50 ms and a minute; a call that
    the breaker refuses waits for a positive time. *)
Theorem acquire_refuses {lua : LuaMath} args h reply h' :
  acquire_ready args h → acquire_lua args h = (reply, h') →
  match reply with
  | ReplyOK _ out => out ≠ []
  | ReplyBreakerOpen _ ms => 0 < ms ∧ ledger_of h' = ledger_of h
  | ReplyNoProxy _ ms | ReplyExhausted _ ms => 50 ≤ ms ≤ 60000 ∧ ledger_of h' = ledger_of h
  end.
Proof.
  intros Hr H. pose proof H as H'. apply acquire_lua_ok in H' as [_ H']; [|done].
  assert (wait_ok reply) as Hms; [|destruct reply; [destruct H' as [Hc _ _ _ _]; destruct leases; cbn in Hc; [lia|done]|done..]].
  unfold acquire_lua in H. destruct (acquire_gate _ _ _) as [[b moved] gate] eqn:Hg.
  destruct gate as [ms|[|]].
  - simplify_eq. by eapply acquire_gate_open.
  - change reply with (reply, h').1. rewrite <- H. apply acquire_leases_wait.
  - change reply with (reply, h').1. rewrite <- H. apply acquire_leases_wait.
Qed.

(** With identity 10 leased, the exclusive lease makes the next caller wait. *)
Lemma acquire_refuses_witness :
  ∃ h', acquire_lua (demo_args 2000 ["lse_c"]) demo_leased = (ReplyExhausted false 59000, h') ∧
    ledger_of h' = ledger_of demo_leased.
Proof.
  destruct (acquire_lua (demo_args 2000 ["lse_c"]) demo_leased) as [reply h'] eqn:E.
  assert (reply = ReplyExhausted false 59000) as ->.
  { change reply with (reply, h').1. rewrite <- E. vm_compute. reflexivity. }
  exists h'. split; [done|].
  destruct (acquire_refuses (demo_args 2000 ["lse_c"]) demo_leased _ h' (demo_leased_ready 2000) E) as [_ H]. exact H.
Defined.

(** C24: an acquire call without proxies serves its client when it can: if the
    breaker lets the call pass, some identity of the ready index is due and
    passes every filter, and the due identities are at most [k_sample], the call
    returns a lease. *)
Theorem acquire_serves {lua : LuaMath} args h i c s :
  acquire_ready args h → a_pmode args = mode_n →
  (∀ ms, (acquire_gate (a_now args) (a_probe_limit args) (default no_hash (h_brk h !! a_eg args))).2 ≠ GateOpen ms) →
  rdy_of h (a_eg args) !! i = Some s → s ≤ a_now args → evaluate args h i false = VOk c →
  (zcount (rdy_of h (a_eg args)) (a_now args) ≤ a_ksample args)%nat →
  ∃ moved out, (acquire_lua args h).1 = ReplyOK moved out.
Proof.
  intros Hr Hmode Hgate Hs Hle Hev Hdue. unfold acquire_lua.
  destruct (acquire_gate _ _ _) as [[b moved] gate]. exists moved. cbn [snd] in Hgate.
  destruct (gate_brk h (a_eg args) b) as [f ->]. destruct gate as [ms|[|]]; [by destruct (Hgate ms)| |].
  - by apply (acquire_leases_serves (as_probe args) true None moved (on_brk f h) i c s); [destruct Hr; split; cbn in *; [lia|..]|..].
  - apply (acquire_leases_serves args false _ moved (on_brk f h) i c s); try done; [by destruct Hr; split|].
    destruct (_ && (a_count args =? 1)%nat) eqn:E; [|done]. apply andb_true_iff in E as [_ E]. by apply Nat.eqb_eq in E.
Qed.

Lemma acquire_serves_witness : ∃ moved out, (acquire_lua (demo_args 1000 ["lse_a"; "lse_b"]) demo_site).1 = ReplyOK moved out.
Proof.
  eapply (acquire_serves _ _ 11); [apply demo_ready_two|reflexivity|intros ms; vm_compute; discriminate|
    vm_compute; reflexivity|vm_compute; discriminate|vm_compute; reflexivity|vm_compute; lia].
Defined.

(** C33: the selection loop of a sampling round ends by one of its exit
    conditions (enough leases, an empty pool, three proxy failures) within twice
    as many iterations as the sample has identities, whatever the strategy, the
    random numbers and the filters do. *)
Theorem select_loop_ends {lua : LuaMath} args probe stk ids want k :
  let '(P, k') := select_loop args probe stk (2 * length ids) (new_pool ids want (k_skip k)) k in
  loop_done args P k' = true.
Proof.
  pose proof (new_pool_measure ids want (k_skip k)) as Hm. revert Hm. generalize (2 * length ids)%nat as fuel.
  generalize (new_pool ids want (k_skip k)) as P. intros P fuel. revert P k.
  induction fuel as [|fuel IH]; intros P k Hm; cbn [select_loop].
  - unfold loop_done, measure, sigs in *. rewrite length_fmap in Hm. destruct (pl_entries P); [by rewrite orb_true_r|cbn in Hm; lia].
  - destruct (loop_done args P k) eqn:Hd; [done|]. destruct (select_step args probe stk P k) as [P1 k1] eqn:Hs.
    apply orb_false_iff in Hd as [[_ Hne]%orb_false_iff _]. bool_to_prop.
    apply select_step_case, step_case_measure in Hs; [|done]. apply IH. lia.
Qed.

(** A caller with a namespace does not see the leases of other namespaces. *)
Inductive hidden_spec (ns : string) (l : Lease) : bool → Prop :=
| hidden_true : ns ≠ "" ∧ ls_ns l ≠ ns → hidden_spec ns l true
| hidden_false : ns = "" ∨ ls_ns l = ns → hidden_spec ns l false.
Lemma hidden_reflect ns l : hidden_spec ns l (negb (String.eqb ns "") && negb (String.eqb (ls_ns l) ns)).
Proof. destruct (String.eqb_spec ns ""), (String.eqb_spec (ls_ns l) ns); constructor; auto. Qed.

(** ** renew.lua *)

(** Renewal on every branch.  An active lease that is neither expired nor
    at its cap moves to [now + extend] (the lease's own TTL when [extend] is not
    positive), never beyond the cap and never back, and only this lease and its
    index entry change; every refusal leaves the state as it was and names the
    first condition that failed. *)
Theorem renew_lua_spec now lid extend ns h :
  let '(reply, h') := renew_lua now lid extend ns h in
  let visible l := ns = "" ∨ ls_ns l = ns in
  match reply with
  | RenewOK x l' => ∃ l, h_ls h !! lid = Some l ∧ visible l ∧ active l = true ∧ now < ls_x l ∧
      ls_x l ≤ x ≤ ls_cap l ∧ (x = now + (if extend <=? 0 then ls_ttl l else extend) ∨ x = ls_cap l ∨ x = ls_x l) ∧
      l' = with_expiry x l ∧ h_ls h' = <[lid := l']> (h_ls h) ∧ h_lsexp h' = <[lid := x]> (h_lsexp h)
  | RenewUnknown => h' = h ∧ ∀ l, h_ls h !! lid = Some l → ¬ visible l
  | RenewReleased => h' = h ∧ ∃ l, h_ls h !! lid = Some l ∧ visible l ∧ ls_st l = LeaseReleased
  | RenewExpired => h' = h ∧ ∃ l, h_ls h !! lid = Some l ∧ visible l ∧
      (ls_st l = LeaseExpired ∨ active l = true ∧ ls_x l ≤ now)
  | RenewLifetimeExceeded => h' = h ∧ ∃ l, h_ls h !! lid = Some l ∧ visible l ∧ active l = true ∧
      now < ls_x l ∧ ls_cap l ≤ ls_x l
  end.
Proof.
  unfold renew_lua. destruct (h_ls h !! lid) as [l|] eqn:Hl; [|done].
  destruct (hidden_reflect ns l) as [[H1 H2]|Hv]; [split; [done|]; intros ? [= <-]; by intros [?|?]|].
  destruct (ls_st l) eqn:Hst; [|by eauto 10..].
  assert (active l = true) as Ha by (by apply bool_decide_eq_true_2).
  destruct (now >=? ls_x l) eqn:Hx; [split; [done|]; exists l; split_and!; [done..|right; split; [done|lia]]|].
  destruct (ls_x l >=? ls_cap l) eqn:Hc; [split; [done|]; exists l; split_and!; [done..|lia|lia]|].
  exists l. assert (ls_x l ≤ renewed_expiry now extend l ≤ ls_cap l ∧ (renewed_expiry now extend l = now + (if extend <=? 0 then ls_ttl l else extend)
    ∨ renewed_expiry now extend l = ls_cap l ∨ renewed_expiry now extend l = ls_x l)) as [? ?] by (unfold renewed_expiry; lia).
  split_and!; try done; try lia; repeat case_match; done.
Qed.

(** ** release.lua *)

(** A release ends an active lease of the caller's namespace once: it is
    marked released and leaves the expiry index, its identity and its proxy have
    one lease less (never below zero), and releasing it again changes nothing.
    Every other release changes nothing. *)
Theorem release_lua_spec now lid late ns windows layout h :
  match release_lua now lid late ns windows layout h with
  | (ReleaseDone l, h') =>
      h_ls h !! lid = Some l ∧ active l = true ∧ (ns = "" ∨ ls_ns l = ns) ∧
      ledger_of h' = finish lid l LeaseReleased now (Z.max late (ls_kx l - now)) (ledger_of h) ∧
      ∀ now' late' ns' windows' layout', let r := release_lua now' lid late' ns' windows' layout' h' in
        r.2 = h' ∧ (r.1 = ReleaseEnded LeaseReleased ∨ r.1 = ReleaseUnknown ∧ ns' ≠ "" ∧ ns' ≠ ls_ns l)
  | (ReleaseEnded st, h') => h' = h ∧ st ≠ LeaseActive
  | (ReleaseUnknown, h') => h' = h ∧ ∀ l, h_ls h !! lid = Some l → ns ≠ "" ∧ ls_ns l ≠ ns
  end.
Proof.
  unfold release_lua. destruct (h_ls h !! lid) as [l|] eqn:Hl; [|done].
  destruct (hidden_reflect ns l) as [Hh|Hv]; [by split; [|intros ? [= <-]]|].
  destruct (bool_decide_reflect (ls_st l = LeaseActive)) as [Hst|Hst]; [|done].
  split_and!; [done|by apply bool_decide_eq_true_2|done|apply ls_end_ledger|].
  intros now' late' ns' windows' layout'. set (h' := ls_end lid l _ _ _ _ _ _ h).
  assert (h_ls h' !! lid = Some (with_end LeaseReleased now (Z.max late (ls_kx l - now)) l)) as ->.
  { change (lg_leases (ledger_of h') !! lid = Some (with_end LeaseReleased now (Z.max late (ls_kx l - now)) l)).
    subst h'. rewrite ls_end_ledger. apply lookup_insert_eq. }
  cbv zeta. rewrite bool_decide_eq_false_2 by done. cbn [ls_ns ls_st with_end].
  destruct (hidden_reflect ns' l) as [[H1 H2]|_]; [|by split; [|left]]. split; [done|]. right. by split_and!.
Qed.

(** ** reap.lua and the reaper *)

(** A run of reap.lua expires only active leases past their expiry, reports
    each of them with whether it was abandoned, and when it scans fewer leases
    than its limit no active lease past its expiry is left. *)
Theorem reap_lua_spec {lua : LuaMath} t now limit late layout h scanned out h' :
  hreachable (t, h) → t ≤ now → reap_lua now limit late layout h = (scanned, out, h') →
  scanned = length out ∧ (scanned ≤ limit)%nat ∧
  Forall (λ '(lid, l, abandoned), h_ls h !! lid = Some l ∧ active l = true ∧ ls_x l ≤ now ∧
    abandoned = (ls_rv l =? 0) && (ls_rc l =? 0) ∧
    ∃ keep, h_ls h' !! lid = Some (with_end LeaseExpired (ls_x l) keep l)) out ∧
  ((scanned < limit)%nat → ∀ lid l, h_ls h' !! lid = Some l → active l = true → now < ls_x l).
Proof.
  intros Hr Ht H. apply hreachable_ok in Hr. pose proof (ledger_ok_later _ _ _ Ht Hr) as Hok.
  destruct (reap_lua_ok now limit late layout h Hok) as (es & h1 & E & Hes & _ & _ & Hout & Hin). rewrite H in E. simplify_eq.
  split_and!; [by eapply Forall2_length| | |].
  - unfold zrangebyscore. rewrite length_take. lia.
  - apply Forall_forall. intros [[lid l] ab] He. apply list_elem_of_lookup in He as [n Hn].
    destruct (Forall2_lookup_r _ _ _ _ _ Hes Hn) as (lid' & Hlid & l' & Hl' & Ha & Hx & [= -> -> ->]).
    split_and!; try done. apply list_elem_of_lookup_2, Hin in Hlid as (l2 & keep & Hl2 & Hk). exists keep. by simplify_eq.
  - intros Hlt lid l Hl Ha. destruct (decide (lid ∈ zrangebyscore (h_lsexp h) now 0 limit)) as [Hi|Hi].
    + destruct (Hin lid Hi) as (l2 & keep & _ & Hk). rewrite Hk in Hl. by simplify_eq.
    + rewrite Hout in Hl by done. destruct (decide (ls_x l ≤ now)) as [Hle|]; [|lia]. destruct Hi.
      apply (zrangebyscore_all _ _ _ _ (ls_x l)); [done| |done]. apply (lo_exp _ _ Hok). eauto.
Qed.

Lemma reap_lua_spec_witness :
  ∃ out h', reap_lua 61000 200 0 [] demo_leased = (2%nat, out, h') ∧
    ∀ lid l, h_ls h' !! lid = Some l → active l = true → 61000 < ls_x l.
Proof.
  destruct (reap_lua 61000 200 0 [] demo_leased) as [[scanned out] h'] eqn:E.
  assert (scanned = 2%nat) as -> by (change scanned with (scanned, out, h').1.1; rewrite <- E; vm_compute; reflexivity).
  exists out, h'. split; [done|].
  destruct (reap_lua_spec 1000 61000 200 0 [] demo_leased 2 out h' demo_leased_reachable ltac:(lia) E) as (_ & _ & _ & H).
  apply H. lia.
Defined.

(** The expiry index loses the scanned leases. *)
Lemma reap_lua_size now limit late layout h h' scanned out :
  ledger_ok now (ledger_of h) → reap_lua now limit late layout h = (scanned, out, h') →
  ledger_ok now (ledger_of h') ∧ scanned = length out ∧ (size (h_lsexp h') + length out = size (h_lsexp h))%nat ∧
  ((scanned < limit)%nat → ∀ lid x, h_lsexp h' !! lid = Some x → now < x).
Proof.
  intros Hok H. destruct (reap_lua_ok now limit late layout h Hok) as (es & h1 & E & Hes & Hs & Hexp & _).
  rewrite H in E. simplify_eq. pose proof (Forall2_length _ _ _ Hes) as El. set (ids := zrangebyscore _ _ _ _) in *.
  split_and!; [|done| |].
  - by apply rtc_lstep_ok in Hs.
  - rewrite <- !size_dom, <- El, <- (size_list_to_set (C := gset string) ids) by apply zrangebyscore_NoDup.
    rewrite <- size_union; [|].
    + f_equal. apply set_eq. intros lid. rewrite elem_of_union, elem_of_list_to_set, !elem_of_dom, Hexp.
      destruct (bool_decide_reflect (lid ∈ ids)) as [Hi|Hi]; [|naive_solver].
      apply zrangebyscore_due in Hi as Hd. destruct Hd as (x & -> & _). naive_solver.
    + intros lid. rewrite elem_of_list_to_set, elem_of_dom, Hexp. intros [x Hx] Hi. by rewrite bool_decide_eq_true_2 in Hx.
  - intros Hlt lid x Hx. rewrite Hexp in Hx. destruct (bool_decide_reflect (lid ∈ ids)) as [|Hi]; [done|].
    destruct (decide (x ≤ now)); [|lia]. destruct Hi. by apply (zrangebyscore_all _ _ _ _ x).
Qed.

(** The times of the batches do not go back. *)
Fixpoint clock_from (t : Z) (clock : list (Z * bool)) : Prop :=
  match clock with [] => True | (now, _) :: clock' => t ≤ now ∧ clock_from now clock' end.

Lemma reapSite_drains_aux late layout clock t total h :
  ledger_ok t (ledger_of h) → clock_from t clock → Forall (λ b, b.2 = false) clock →
  (size (h_lsexp h) < reapBatch * length clock)%nat →
  ∃ n h', reapSite late layout clock total h = Some ((total + n)%nat, h') ∧
    (size (h_lsexp h') + n = size (h_lsexp h))%nat ∧ ∀ lid l, h_ls h' !! lid = Some l → active l = true → t < ls_x l.
Proof.
  revert t total h. induction clock as [|[now stop] clock IH]; intros t total h Hok Hc Hst Hlen; [cbn in Hlen; lia|].
  destruct Hc as [Ht Hc]. apply Forall_cons in Hst as [Hs Hst]. cbn in Hs. subst stop. cbn [reapSite].
  destruct (reap_lua now reapBatch late layout h) as [[scanned out] h1] eqn:E.
  destruct (reap_lua_size _ _ _ _ _ _ _ _ (ledger_ok_later _ _ _ Ht Hok) E) as (Hok1 & -> & Hsize & Hall).
  rewrite orb_false_r. destruct (Nat.ltb_spec (length out) reapBatch) as [Hlt|Hge].
  - exists (length out), h1. split_and!; [done|done|]. intros lid l Hl Ha.
    assert (now < ls_x l); [|lia]. apply (Hall Hlt lid). apply (lo_exp _ _ Hok1). eauto.
  - cbn [length] in Hlen. destruct (IH now (total + length out)%nat h1 Hok1 Hc Hst) as (n & h' & Hrun & Hn & Hx); [lia|].
    exists (length out + n)%nat, h'. split_and!; [by rewrite Hrun, Nat.add_assoc|lia|].
    intros lid l Hl Ha. specialize (Hx lid l Hl Ha). lia.
Qed.

(** C25: the reaper drains a site: when neither its budget nor its job ends, the
    loop stops after at most one batch more than the active leases need, every
    lease past its expiry when it started is then ended, and it counted each
    expired lease once. *)
Theorem reapSite_drains {lua : LuaMath} late layout clock t h :
  hreachable (t, h) → clock_from t clock → Forall (λ b, b.2 = false) clock →
  (size (h_lsexp h) < reapBatch * length clock)%nat →
  ∃ n h', reapSite late layout clock 0 h = Some (n, h') ∧ (size (h_lsexp h') + n = size (h_lsexp h))%nat ∧
    ∀ lid l, h_ls h' !! lid = Some l → active l = true → t < ls_x l.
Proof.
  intros Hr. apply hreachable_ok in Hr. by apply (reapSite_drains_aux late layout clock t 0 h).
Qed.

Lemma reapSite_drains_witness :
  ∃ n h', reapSite 0 [] [(61000, false)] 0 demo_leased = Some (n, h') ∧ (size (h_lsexp h') + n = 2)%nat.
Proof.
  destruct (reapSite_drains 0 [] [(61000, false)] 1000 demo_leased demo_leased_reachable) as (n & h' & Hr & Hn & _).
  - split; [lia|exact I].
  - repeat constructor.
  - vm_compute. lia.
  - exists n, h'. split; [exact Hr|]. rewrite Hn. vm_compute. reflexivity.
Defined.
