(* ===== verification/HotSync.v ===== *)
(** * Materialisation of a site into the hot state

    The scripts of internal/hotstate/lua, which write identities, accounts and
    proxies from PostgreSQL rows into the hashes and ready queues that the lease
    scripts use: what they write, that they respect newer lifecycle changes of
    Redis, and which of their runs keep the lease ledger. *)

From S2P Require Import Prelude GoStrings GoFloat PolicyBase GoTime LuaCommon PolicyRotation PolicyResolve Breaker.
From S2P Require Import SchedState SchedSelect SchedAcquire SchedLease SchedLedger SchedRefine SchedGrant SchedLoop SchedRun Scheduler.

Local Open Scope Z_scope.

(** ** State *)

(** The lifecycle fields "bu", "qu" and "sct" of an identity or a proxy.  The
    script that creates the hash writes them; "sct" may be missing in a hash of
    an older release. *)
Record Life := { lf_bu : Z; lf_qu : Z; lf_sct : option Z }.

(** What observe.lua keeps of reports: the global score "gs", "gts" and "gn" and the
    failure streak "gnf" and "glf" of an identity, the cross-attribution sets
    "xa:i:<i>" and "xa:p:<p>", and the fields "sn", "nf" and "lf" of a proxy.
    The synchronisation scripts only delete them. *)
Record GScore := { gsc_score : float64; gsc_ts : Z; gsc_n : Z }.
Record PxStat := { ps_sn : Z; ps_nf : Z; ps_lf : Z }.
Record Stats := {
  st_score : gmap Z GScore;
  st_streak : gmap Z (Z * Z);
  st_xai : gmap Z (zset Z);
  st_xap : gmap Z (zset Z);
  st_px : gmap Z PxStat;
}.
Definition on_score (f : gmap Z GScore → gmap Z GScore) (t : Stats) : Stats :=
  {| st_score := f (st_score t); st_streak := st_streak t; st_xai := st_xai t; st_xap := st_xap t; st_px := st_px t |}.
Definition on_streak (f : gmap Z (Z * Z) → gmap Z (Z * Z)) (t : Stats) : Stats :=
  {| st_score := st_score t; st_streak := f (st_streak t); st_xai := st_xai t; st_xap := st_xap t; st_px := st_px t |}.
Definition on_xai (f : gmap Z (zset Z) → gmap Z (zset Z)) (t : Stats) : Stats :=
  {| st_score := st_score t; st_streak := st_streak t; st_xai := f (st_xai t); st_xap := st_xap t; st_px := st_px t |}.
Definition on_xap (f : gmap Z (zset Z) → gmap Z (zset Z)) (t : Stats) : Stats :=
  {| st_score := st_score t; st_streak := st_streak t; st_xai := st_xai t; st_xap := f (st_xap t); st_px := st_px t |}.
Definition on_pxstat (f : gmap Z PxStat → gmap Z PxStat) (t : Stats) : Stats :=
  {| st_score := st_score t; st_streak := st_streak t; st_xai := st_xai t; st_xap := st_xap t; st_px := f (st_px t) |}.

Record Mat := {
  m_hot : Hot;
  m_idlife : gmap Z Life;
  m_accsct : gmap Z Z;            (** "sct" of "acc:<a>" *)
  m_pxlife : gmap Z Life;
  m_pxuv : gmap Z Z;              (** "uv" of "px:<p>" *)
  m_accm : gmap Z (gset Z);       (** "accm:<a>" *)
  m_brko : gset Z;
  m_bans : gmap Z (zset Z);       (** "bans:<i>" *)
  m_rcd : gmap Z (zset (Z * Z * Z)); (** "rcd:<eg>": identity, previous cooldown and failures *)
  m_stat : Stats;
}.

Definition on_hot (f : Hot → Hot) (m : Mat) : Mat :=
  {| m_hot := f (m_hot m); m_idlife := m_idlife m; m_accsct := m_accsct m; m_pxlife := m_pxlife m;
     m_pxuv := m_pxuv m; m_accm := m_accm m; m_brko := m_brko m; m_bans := m_bans m;
     m_rcd := m_rcd m; m_stat := m_stat m |}.
Definition on_idlife (f : gmap Z Life → gmap Z Life) (m : Mat) : Mat :=
  {| m_hot := m_hot m; m_idlife := f (m_idlife m); m_accsct := m_accsct m; m_pxlife := m_pxlife m;
     m_pxuv := m_pxuv m; m_accm := m_accm m; m_brko := m_brko m; m_bans := m_bans m;
     m_rcd := m_rcd m; m_stat := m_stat m |}.
Definition on_accsct (f : gmap Z Z → gmap Z Z) (m : Mat) : Mat :=
  {| m_hot := m_hot m; m_idlife := m_idlife m; m_accsct := f (m_accsct m); m_pxlife := m_pxlife m;
     m_pxuv := m_pxuv m; m_accm := m_accm m; m_brko := m_brko m; m_bans := m_bans m;
     m_rcd := m_rcd m; m_stat := m_stat m |}.
Definition on_pxlife (f : gmap Z Life → gmap Z Life) (m : Mat) : Mat :=
  {| m_hot := m_hot m; m_idlife := m_idlife m; m_accsct := m_accsct m; m_pxlife := f (m_pxlife m);
     m_pxuv := m_pxuv m; m_accm := m_accm m; m_brko := m_brko m; m_bans := m_bans m;
     m_rcd := m_rcd m; m_stat := m_stat m |}.
Definition on_pxuv (f : gmap Z Z → gmap Z Z) (m : Mat) : Mat :=
  {| m_hot := m_hot m; m_idlife := m_idlife m; m_accsct := m_accsct m; m_pxlife := m_pxlife m;
     m_pxuv := f (m_pxuv m); m_accm := m_accm m; m_brko := m_brko m; m_bans := m_bans m;
     m_rcd := m_rcd m; m_stat := m_stat m |}.
Definition on_accm (f : gmap Z (gset Z) → gmap Z (gset Z)) (m : Mat) : Mat :=
  {| m_hot := m_hot m; m_idlife := m_idlife m; m_accsct := m_accsct m; m_pxlife := m_pxlife m;
     m_pxuv := m_pxuv m; m_accm := f (m_accm m); m_brko := m_brko m; m_bans := m_bans m;
     m_rcd := m_rcd m; m_stat := m_stat m |}.
Definition on_brko (f : gset Z → gset Z) (m : Mat) : Mat :=
  {| m_hot := m_hot m; m_idlife := m_idlife m; m_accsct := m_accsct m; m_pxlife := m_pxlife m;
     m_pxuv := m_pxuv m; m_accm := m_accm m; m_brko := f (m_brko m); m_bans := m_bans m;
     m_rcd := m_rcd m; m_stat := m_stat m |}.
Definition on_bans (f : gmap Z (zset Z) → gmap Z (zset Z)) (m : Mat) : Mat :=
  {| m_hot := m_hot m; m_idlife := m_idlife m; m_accsct := m_accsct m; m_pxlife := m_pxlife m;
     m_pxuv := m_pxuv m; m_accm := m_accm m; m_brko := m_brko m; m_bans := f (m_bans m);
     m_rcd := m_rcd m; m_stat := m_stat m |}.
Definition on_rcd (f : gmap Z (zset (Z * Z * Z)) → gmap Z (zset (Z * Z * Z))) (m : Mat) : Mat :=
  {| m_hot := m_hot m; m_idlife := m_idlife m; m_accsct := m_accsct m; m_pxlife := m_pxlife m;
     m_pxuv := m_pxuv m; m_accm := m_accm m; m_brko := m_brko m; m_bans := m_bans m;
     m_rcd := f (m_rcd m); m_stat := m_stat m |}.
Definition on_stat (f : Stats → Stats) (m : Mat) : Mat :=
  {| m_hot := m_hot m; m_idlife := m_idlife m; m_accsct := m_accsct m; m_pxlife := m_pxlife m;
     m_pxuv := m_pxuv m; m_accm := m_accm m; m_brko := m_brko m; m_bans := m_bans m;
     m_rcd := m_rcd m; m_stat := f (m_stat m) |}.

(** SREM and SADD of a member set. *)
Definition srem (a i : Z) (m : gmap Z (gset Z)) : gmap Z (gset Z) := alter (λ s, s ∖ {[i]}) a m.
Definition sadd (a i : Z) (m : gmap Z (gset Z)) : gmap Z (gset Z) := <[a := {[i]} ∪ default ∅ (m !! a)]> m.

(** ** Availability (common.lua) *)

Definition sp_avail (h : Hot) (eg i : Z) : Z :=
  let '(cd, ru) := sp_hs_cd_ru (h_hs h !! (eg, i)) in
  let m := Z.max cd ru in
  match h_id h !! i with
  | None => m
  | Some d =>
      let m := Z.max (Z.max m (id_scd d)) (id_sru d) in
      let m := if id_al d >? 0 then Z.max m (id_xl d) else m in
      match id_acc d with Some a => Z.max m (from_option ac_cd 0 (h_acc h !! a)) | None => m end
  end.

(** ** Lifecycle precedence *)

(** The fields of Redis are kept in merge mode, and when they carry a change
    newer than PostgreSQL's that is still in force. *)
Definition keep_redis_lifecycle (now : Z) (merge : bool) (st : option string) (cur_sct : option Z) (pg_sct bu qu : Z) : bool :=
  match st with
  | None => false
  | Some st =>
      if merge then true
      else if default 0 cur_sct <=? pg_sct then false
      else if String.eqb st "banned" then (bu =? -1) || (bu >? now)
      else if String.eqb st "quarantined" then qu >? now
      else true
  end.

(** ** sync_identities.lua *)

Record AccountRow := { aw_key : Z; aw_st : string; aw_bu : Z; aw_cd : Z; aw_sct : Z }.

(** A row and its group profile: the groups it is eligible for and the others. *)
Record IdentityRow := {
  iw_i : Z; iw_iid : string; iw_st : string; iw_ty : string; iw_tv : Z; iw_pv : Z; iw_acc : option Z;
  iw_rg : string; iw_bu : Z; iw_qu : Z; iw_act : Z; iw_px : option Z; iw_eligible : list Z; iw_other : list Z;
  iw_jitter : Z; iw_sct : Z;
}.
Inductive IdentityOp := sync_op (r : IdentityRow) | remove_op (i : Z) (groups : list Z).

Record SyncArgs := {
  sy_now : Z; sy_merge : bool; sy_merge_accounts : bool; sy_reset_health : bool; sy_reset_failures : bool;
  sy_cold : bool; sy_baselines : gmap Z float64;
}.

(** The account part, shared with sync_accounts.lua: the cooldown only grows. *)
Definition write_account (keep : bool) (a : AccountRow) (m : Mat) : Mat :=
  let cur := h_acc (m_hot m) !! aw_key a in
  let cd := Z.max (from_option ac_cd 0 cur) (aw_cd a) in
  match keep, cur with
  | true, Some c =>
      on_accsct (λ s, <[aw_key a := default (aw_sct a) (s !! aw_key a)]> s)
        (on_hot (on_acc (<[aw_key a := {| ac_st := ac_st c; ac_bu := ac_bu c; ac_cd := cd |}]>)) m)
  | _, _ =>
      on_accsct (<[aw_key a := aw_sct a]>)
        (on_hot (on_acc (<[aw_key a := {| ac_st := aw_st a; ac_bu := aw_bu a; ac_cd := cd |}]>)) m)
  end.

Definition sync_account (args : SyncArgs) (m : Mat) (a : AccountRow) : Mat :=
  let cur := h_acc (m_hot m) !! aw_key a in
  write_account
    (keep_redis_lifecycle (sy_now args) (sy_merge_accounts args) (ac_st <$> cur) (m_accsct m !! aw_key a) (aw_sct a)
       (from_option ac_bu 0 cur) 0) a m.

Definition remove_identity (i : Z) (groups : list Z) (m : Mat) : Mat :=
  let prev_acc := h_id (m_hot m) !! i ≫= id_acc in
  let m := on_stat (λ t, on_xai (delete i) (on_score (delete i) (on_streak (delete i) t))) (on_bans (delete i) (on_idlife (delete i) m)) in
  let m := on_hot (on_id (delete i)) m in
  let m := on_hot (λ h, foldl (λ h eg, on_q (delete (eg, i)) (on_hs (delete (eg, i)) (on_rdy eg (delete i) h))) h groups) m in
  match prev_acc with Some a => on_accm (srem a i) m | None => m end.

Section sync.
Variable args : SyncArgs.

(** The lifecycle fields to store: st, bu, qu, act and sct. *)
Definition sync_lifecycle (r : IdentityRow) (cur : option Identity) (life : option Life) : string * Z * Z * Z * Z :=
  let keep := keep_redis_lifecycle (sy_now args) (sy_merge args) (id_st <$> cur) (life ≫= lf_sct) (iw_sct r)
    (from_option lf_bu 0 life) (from_option lf_qu 0 life) in
  match keep, cur with
  | true, Some d =>
      (id_st d, from_option lf_bu (iw_bu r) life, from_option lf_qu (iw_qu r) life, id_act d,
       default (iw_sct r) (life ≫= lf_sct))
  | _, _ => (iw_st r, iw_bu r, iw_qu r, iw_act r, iw_sct r)
  end.

(** A binding of Redis wins while its proxy is materialised. *)
Definition sync_px (r : IdentityRow) (cur : option Identity) (h : Hot) : option Z :=
  match cur ≫= id_px with
  | Some p => if bool_decide (is_Some (h_px h !! p)) then Some p else iw_px r
  | None => iw_px r
  end.

(** The hash: the counters of other scripts are kept, 0 in a new hash. *)
Definition sync_hash (r : IdentityRow) (st : string) (act : Z) (px : option Z) (cur : option Identity) : Identity :=
  {| id_st := st; id_al := from_option id_al 0 cur; id_xl := from_option id_xl 0 cur;
     id_scd := from_option id_scd 0 cur; id_sru := from_option id_sru 0 cur; id_acc := iw_acc r; id_iid := iw_iid r;
     id_ty := iw_ty r; id_pv := iw_pv r; id_tv := iw_tv r; id_act := act; id_px := px;
     id_rbd := from_option id_rbd "" cur; id_rbn := from_option id_rbn 0 cur; id_rg := iw_rg r;
     id_lu := from_option id_lu 0 cur; id_xg := from_option id_xg xg_none cur |}.

(** The identity-level part of the availability. *)
Definition sync_level (h : Hot) (d : Identity) : Z :=
  let m := Z.max (id_scd d) (id_sru d) in
  let m := if id_al d >? 0 then Z.max m (id_xl d) else m in
  match id_acc d with Some a => Z.max m (from_option ac_cd 0 (h_acc h !! a)) | None => m end.

Definition baseline_of (eg : Z) : float64 := default (f_of_Z 70) (sy_baselines args !! eg).

Definition resetting : bool := sy_reset_health args || sy_reset_failures args.

(** The packed entry after the requested reset; [None] when it is not written. *)
Definition reset_entry (eg : Z) (t : Hs) : option Hs :=
  if sy_reset_health args then
    Some {| hs_score := baseline_of eg; hs_sts := sy_now args; hs_samples := 0; hs_nfail := 0; hs_lastfail := 0;
            hs_cd := hs_cd t; hs_ru := hs_ru t; hs_lu := hs_lu t |}
  else if sy_reset_failures args && (negb (hs_nfail t =? 0) || negb (hs_lastfail t =? 0)) then
    Some {| hs_score := hs_score t; hs_sts := hs_sts t; hs_samples := hs_samples t; hs_nfail := 0; hs_lastfail := 0;
            hs_cd := hs_cd t; hs_ru := hs_ru t; hs_lu := hs_lu t |}
  else None.

(** One endpoint group of the profile: the state and the members written. *)
Definition sync_group (i level jitter : Z) (eligible : bool) (s : Hot * nat) (eg : Z) : Hot * nat :=
  let '(h, written) := s in
  let h := match h_hs h !! (eg, i) ≫= reset_entry eg with
           | Some t => mark_dirty {[(Some eg, i)]} (on_hs (<[(eg, i) := sp_hs_pack t]>) h)
           | None => h
           end in
  if negb eligible then (on_rdy eg (delete i) h, written)
  else if sy_merge args && bool_decide (is_Some (rdy_of h eg !! i)) then (h, written)
  else
    let '(cd, ru) := sp_hs_cd_ru (h_hs h !! (eg, i)) in
    let score := Z.max (Z.max level cd) ru in
    let score := if sy_cold args && (score <=? sy_now args) then sy_now args + jitter else score in
    (on_rdy eg (<[i := score]>) h, S written).

Definition sync_identity (r : IdentityRow) (m : Mat) : Mat * nat :=
  let i := iw_i r in
  let cur := h_id (m_hot m) !! i in
  let '(st, bu, qu, act, sct) := sync_lifecycle r cur (m_idlife m !! i) in
  let d := sync_hash r st act (sync_px r cur (m_hot m)) cur in
  let m := on_idlife (<[i := {| lf_bu := bu; lf_qu := qu; lf_sct := Some sct |}]>) (on_hot (on_id (<[i := d]>)) m) in
  let m := match cur ≫= id_acc with
           | Some a => if bool_decide (iw_acc r = Some a) then m else on_accm (srem a i) m
           | None => m
           end in
  let m := match iw_acc r with Some a => on_accm (sadd a i) m | None => m end in
  let m := if resetting then on_stat (on_streak (delete i)) m else m in
  let m := if sy_reset_health args then on_hot (mark_dirty {[(None, i)]}) (on_stat (on_score (delete i)) m) else m in
  let level := sync_level (m_hot m) d in
  let '(h, written) := foldl (sync_group i level (iw_jitter r) (is_ready st)) (m_hot m, 0%nat) (iw_eligible r) in
  let '(h, written) := foldl (sync_group i level (iw_jitter r) false) (h, written) (iw_other r) in
  (on_hot (λ _, h) m, written).

(** The counters of the reply: synced, removed and ready members written. *)
Definition sync_record (s : Mat * (nat * nat * nat)) (op : IdentityOp) : Mat * (nat * nat * nat) :=
  let '(m, (synced, removed, written)) := s in
  match op with
  | remove_op i groups => (remove_identity i groups m, (synced, S removed, written))
  | sync_op r => let '(m, w) := sync_identity r m in (m, (S synced, removed, (written + w)%nat))
  end.

Definition sync_identities (accounts : list AccountRow) (ops : list IdentityOp) (m : Mat) : Mat * (nat * nat * nat) :=
  foldl sync_record (foldl (sync_account args) m accounts, (0%nat, 0%nat, 0%nat)) ops.
End sync.

(** ** sync_accounts.lua *)

Inductive AccountOp := op_replace | op_add | op_push.
#[export] Instance AccountOp_eq_dec : EqDecision AccountOp.
Proof. solve_decision. Defined.

(** Like [keep_redis_lifecycle]; accounts are never quarantined. *)
Definition keep_account_lifecycle (now : Z) (merge : bool) (st : option string) (cur_sct : option Z) (pg_sct bu : Z) : bool :=
  match st with
  | None => false
  | Some st =>
      if merge then true
      else if default 0 cur_sct <=? pg_sct then false
      else if String.eqb st "banned" then (bu =? -1) || (bu >? now)
      else true
  end.

(** The push of one member in one group: the state and the scores changed. *)
Definition push_member (i : Z) (s : Hot * nat) (eg : Z) : Hot * nat :=
  let '(h, pushed) := s in
  let h' := on_rdy eg (zadd_xx_gt i (sp_avail h eg i)) h in
  (h', if bool_decide (rdy_of h' eg = rdy_of h eg) then pushed else S pushed).

(** The reply: whether the cooldown moved, the members added, the scores pushed. *)
Definition sync_accounts (merge : bool) (op : AccountOp) (push : bool) (egs : list Z) (a : AccountRow) (now : Z)
    (members : list Z) (m : Mat) : Mat * (bool * nat * nat) :=
  let cur := h_acc (m_hot m) !! aw_key a in
  let moved := bool_decide (op = op_replace) && (aw_cd a >? from_option ac_cd 0 cur) in
  let m :=
    if bool_decide (op = op_replace) then
      on_accm (delete (aw_key a))
        (write_account
           (keep_account_lifecycle now merge (ac_st <$> cur) (m_accsct m !! aw_key a) (aw_sct a) (from_option ac_bu 0 cur)) a m)
    else m in
  let old := default ∅ (m_accm m !! aw_key a) in
  let new := list_to_set members ∪ old in
  let '(m, added) :=
    if bool_decide (op = op_push) || bool_decide (members = []) then (m, 0%nat)
    else (on_accm (<[aw_key a := new]>) m, (size new - size old)%nat) in
  let '(h, pushed) :=
    if push then foldl (λ s i, foldl (push_member i) s egs) (m_hot m, 0%nat) members else (m_hot m, 0%nat) in
  (on_hot (λ _, h) m, (moved, added, pushed)).

(** ** sync_proxies.lua *)

Record ProxyRow := {
  pw_p : Z; pw_pid : string; pw_st : string; pw_kd : string; pw_rg : string; pw_pv : string; pw_tg : list string;
  pw_mc : Z; pw_uv : Z; pw_gcd : Z; pw_bu : Z; pw_qu : Z; pw_sct : Z;
}.

Definition sync_proxy_hash (r : ProxyRow) (st : string) (gcd : Z) (cur : option Proxy) : Proxy :=
  {| px_st := st; px_kd := pw_kd r; px_rg := pw_rg r; px_pv := pw_pv r; px_tg := pw_tg r; px_mc := pw_mc r;
     px_al := from_option px_al 0 cur; px_sc := cur ≫= px_sc; px_sts := cur ≫= px_sts;
     px_cd := from_option px_cd 0 cur; px_gcd := gcd; px_pid := pw_pid r |}.

Definition sync_proxy (merge : bool) (now : Z) (s : Mat * nat) (r : ProxyRow) : Mat * nat :=
  let '(m, ready) := s in
  let p := pw_p r in
  let cur := h_px (m_hot m) !! p in
  let life := m_pxlife m !! p in
  let gcd := Z.max (pw_gcd r) (from_option px_gcd 0 cur) in
  let keep := keep_redis_lifecycle now merge (px_st <$> cur) (life ≫= lf_sct) (pw_sct r)
    (from_option lf_bu 0 life) (from_option lf_qu 0 life) in
  let '(st, bu, qu, sct) :=
    match keep, cur with
    | true, Some d => (px_st d, from_option lf_bu (pw_bu r) life, from_option lf_qu (pw_qu r) life,
                       default (pw_sct r) (life ≫= lf_sct))
    | _, _ => (pw_st r, pw_bu r, pw_qu r, pw_sct r)
    end in
  let m := on_hot (on_px (<[p := sync_proxy_hash r st gcd cur]>)) m in
  let m := on_pxuv (<[p := pw_uv r]>) (on_pxlife (<[p := {| lf_bu := bu; lf_qu := qu; lf_sct := Some sct |}]>) m) in
  if String.eqb st "active"
  then (on_hot (on_pxrdy (<[p := Z.max (from_option px_cd 0 cur) gcd]>)) m, S ready)
  else (on_hot (on_pxrdy (delete p)) m, ready).

(** The reply: synced and ready proxies. *)
Definition sync_proxies (merge : bool) (now : Z) (rows : list ProxyRow) (m : Mat) : Mat * (nat * nat) :=
  let '(m, ready) := foldl (sync_proxy merge now) (m, 0%nat) rows in (m, (length rows, ready)).

(** ** sync_maintenance.lua *)

Inductive Maintenance :=
| prune_ready (eg : Z) (types : list string) (ids : list Z)
| prune_proxies (ps : list Z)
| remove_proxies (ps : list Z)
| clear_bindings (pairs : list (Z * Z))
| drop_groups (egs : list Z).

Definition kept_ready (types : list string) (d : option Identity) : bool :=
  match d with Some d => is_ready (id_st d) && bool_decide (id_ty d ∈ types) | None => false end.

Definition prune_one {A} (keep : bool) (present : bool) (remove : A → A) (s : A * nat) : A * nat :=
  if keep then s else (remove s.1, if present then S s.2 else s.2).

Definition remove_proxy (s : Mat * nat) (p : Z) : Mat * nat :=
  let '(m, n) := s in
  let gone := bool_decide (is_Some (h_px (m_hot m) !! p)) || bool_decide (is_Some (h_pxrdy (m_hot m) !! p)) in
  let m := on_pxuv (delete p) (on_pxlife (delete p) (on_hot (on_px (delete p)) m)) in
  let m := on_hot (on_pxrdy (delete p)) (on_stat (λ t, on_xap (delete p) (on_pxstat (delete p) t)) m) in
  (m, if gone then S n else n).

Definition clear_binding (s : Mat * nat) (ip : Z * Z) : Mat * nat :=
  let '(m, n) := s in
  match h_id (m_hot m) !! ip.1 with
  | Some d =>
      if bool_decide (id_px d = Some ip.2)
      then (on_hot (on_id (<[ip.1 := with_binding None (id_rbd d) (id_rbn d) d]>)) m, S n) else (m, n)
  | None => (m, n)
  end.

Definition drop_group (m : Mat) (eg : Z) : Mat :=
  let h := m_hot m in
  let h := {| h_id := h_id h; h_acc := h_acc h; h_hs := filter (λ kv, kv.1.1 ≠ eg) (h_hs h);
              h_rdy := delete eg (h_rdy h); h_px := h_px h; h_pxrdy := h_pxrdy h; h_ls := h_ls h;
              h_lsexp := h_lsexp h; h_q := h_q h; h_stk := h_stk h; h_rr := delete eg (h_rr h);
              h_brk := delete eg (h_brk h); h_aeg := delete eg (h_aeg h); h_dirty := h_dirty h |} in
  on_brko (λ s, s ∖ {[eg]}) (on_rcd (delete eg) (on_hot (λ _, h) m)).

Definition sync_maintenance (op : Maintenance) (m : Mat) : Mat * nat :=
  match op with
  | prune_ready eg types ids =>
      foldl (λ s i, prune_one (kept_ready types (h_id (m_hot s.1) !! i)) (bool_decide (is_Some (rdy_of (m_hot s.1) eg !! i)))
                      (on_hot (on_rdy eg (delete i))) s) (m, 0%nat) ids
  | prune_proxies ps =>
      foldl (λ s p, prune_one (from_option (λ d, String.eqb (px_st d) "active") false (h_px (m_hot s.1) !! p))
                      (bool_decide (is_Some (h_pxrdy (m_hot s.1) !! p))) (on_hot (on_pxrdy (delete p))) s) (m, 0%nat) ps
  | remove_proxies ps => foldl remove_proxy (m, 0%nat) ps
  | clear_bindings pairs => foldl clear_binding (m, 0%nat) pairs
  | drop_groups egs => (foldl drop_group m egs, length egs)
  end.

(** ** What the scripts keep of the ledger *)

(** Leases and counters stay; a hash that is created starts without leases. *)
Record materialises (g g' : Ledger) : Prop := {
  mt_leases : lg_leases g' = lg_leases g;
  mt_exp : lg_exp g' = lg_exp g;
  mt_held : ∀ i c, lg_held g' !! i = Some c → lg_held g !! i = Some c ∨ c.1 = 0 ∧ held_by i (lg_leases g) = ∅;
  mt_used : ∀ p c, lg_used g' !! p = Some c → lg_used g !! p = Some c ∨ c = 0 ∧ used_by p (lg_leases g) = ∅;
}.

#[export] Instance materialises_preorder : PreOrder materialises.
Proof.
  split; [intros g; split; auto|]. intros g1 g2 g3 [L1 E1 H1 U1] [L2 E2 H2 U2]. split; [congruence..| |].
  - intros i c Hc. destruct (H2 i c Hc) as [Hc'|[? He]]; [by apply H1|right]. by rewrite <- L1.
  - intros p c Hc. destruct (U2 p c Hc) as [Hc'|[? He]]; [by apply U1|right]. by rewrite <- L1.
Qed.

Lemma materialises_foreign g g' : materialises g g' → foreign g g'.
Proof.
  intros []. split; try done.
  - intros lid l Hl. by rewrite mt_leases0, Hl.
  - intros lid l Hl. rewrite mt_leases0 in Hl. eauto.
Qed.

Lemma materialises_refl_eq g g' : g' = g → materialises g g'.
Proof. by intros ->. Qed.

(** Updates of the hashes that the ledger sees. *)
Lemma materialises_id_insert i d h :
  (∀ d0, h_id h !! i = Some d0 → id_al d = id_al d0 ∧ id_xl d = id_xl d0) →
  (h_id h !! i = None → id_al d = 0 ∧ held_by i (h_ls h) = ∅) →
  materialises (ledger_of h) (ledger_of (on_id (<[i := d]>) h)).
Proof.
  intros Hold Hnew. split; try done; [|auto]. intros j c Hc. cbn in Hc. rewrite lookup_fmap in Hc.
  destruct (decide (i = j)) as [<-|Hne]; [|rewrite lookup_insert_ne in Hc by done; left; cbn; by rewrite lookup_fmap].
  rewrite lookup_insert_eq in Hc. cbn in Hc. simplify_eq. cbn. rewrite lookup_fmap. destruct (h_id h !! i) as [d0|] eqn:Hd.
  - left. cbn. by destruct (Hold d0 eq_refl) as [-> ->].
  - right. by apply Hnew.
Qed.

Lemma materialises_id_delete i h : materialises (ledger_of h) (ledger_of (on_id (delete i) h)).
Proof.
  split; try done; [|auto]. intros j c Hc. left. cbn in *. rewrite lookup_fmap in *.
  apply fmap_Some in Hc as (d & Hd & ->). apply lookup_delete_Some in Hd as [_ Hd]. by rewrite Hd.
Qed.

Lemma materialises_px_insert p d h :
  (∀ d0, h_px h !! p = Some d0 → px_al d = px_al d0) →
  (h_px h !! p = None → px_al d = 0 ∧ used_by p (h_ls h) = ∅) →
  materialises (ledger_of h) (ledger_of (on_px (<[p := d]>) h)).
Proof.
  intros Hold Hnew. split; try done; [auto|]. intros q c Hc. cbn in Hc. rewrite lookup_fmap in Hc.
  destruct (decide (p = q)) as [<-|Hne]; [|rewrite lookup_insert_ne in Hc by done; left; cbn; by rewrite lookup_fmap].
  rewrite lookup_insert_eq in Hc. cbn in Hc. simplify_eq. cbn. rewrite lookup_fmap. destruct (h_px h !! p) as [d0|] eqn:Hd.
  - left. cbn. by rewrite (Hold d0 eq_refl).
  - right. by apply Hnew.
Qed.

Lemma materialises_px_delete p h : materialises (ledger_of h) (ledger_of (on_px (delete p) h)).
Proof.
  split; try done; [auto|]. intros q c Hc. left. cbn in *. rewrite lookup_fmap in *.
  apply fmap_Some in Hc as (d & Hd & ->). apply lookup_delete_Some in Hd as [_ Hd]. by rewrite Hd.
Qed.

(** *** sync_identities.lua *)

Section identities.
Variable args : SyncArgs.

(** The updates of one group touch its ready queue and packed entry of the
    identity only. *)
Record group_frame (i : Z) (egs : list Z) (h h' : Hot) : Prop := {
  gf_id : h_id h' = h_id h;
  gf_acc : h_acc h' = h_acc h;
  gf_ledger : ledger_of h' = ledger_of h;
  gf_px : h_px h' = h_px h;
  gf_rdy : ∀ eg j, j ≠ i ∨ eg ∉ egs → rdy_of h' eg !! j = rdy_of h eg !! j;
  gf_hs : ∀ eg j, j ≠ i ∨ eg ∉ egs → h_hs h' !! (eg, j) = h_hs h !! (eg, j);
}.

Lemma group_frame_refl i egs h : group_frame i egs h h.
Proof. by split. Qed.

Lemma group_frame_trans i egs1 egs2 h1 h2 h3 :
  group_frame i egs1 h1 h2 → group_frame i egs2 h2 h3 → group_frame i (egs1 ++ egs2) h1 h3.
Proof.
  intros [] []. split; try congruence; intros eg j Hj;
    (assert ((j ≠ i ∨ eg ∉ egs1) ∧ (j ≠ i ∨ eg ∉ egs2)) as [H1 H2] by (rewrite not_elem_of_app in Hj; tauto)).
  - rewrite gf_rdy1 by done. auto.
  - rewrite gf_hs1 by done. auto.
Qed.

Lemma rdy_of_on_rdy eg f h eg' : rdy_of (on_rdy eg f h) eg' = if decide (eg = eg') then f (rdy_of h eg') else rdy_of h eg'.
Proof.
  unfold rdy_of at 1. cbn. destruct (decide (eg = eg')) as [<-|]; [by rewrite lookup_insert_eq|by rewrite lookup_insert_ne].
Qed.

Lemma on_rdy_frame i eg f h :
  (∀ (z : zset Z) j, j ≠ i → f z !! j = z !! j) → group_frame i [eg] h (on_rdy eg f h).
Proof.
  intros Hf. split; try done. intros eg' j Hj. rewrite rdy_of_on_rdy. destruct (decide (eg = eg')) as [<-|]; [|done].
  apply Hf. rewrite list_elem_of_singleton in Hj. tauto.
Qed.

Lemma sync_group_frame i level jitter eligible h w eg :
  group_frame i [eg] h (sync_group args i level jitter eligible (h, w) eg).1.
Proof.
  unfold sync_group. set (h1 := match _ with Some t => _ | None => h end).
  assert (group_frame i [eg] h h1) as H1.
  { subst h1. destruct (h_hs h !! (eg, i) ≫= reset_entry args eg); [|apply group_frame_refl]. split; try done.
    intros eg' j Hj. rewrite list_elem_of_singleton in Hj. cbn. rewrite lookup_insert_ne; [done|]. intros [= -> ->]. tauto. }
  assert (∀ f, (∀ (z : zset Z) j, j ≠ i → f z !! j = z !! j) → group_frame i [eg] h (on_rdy eg f h1)) as Hr.
  { intros f Hf. pose proof (group_frame_trans _ _ _ _ _ _ H1 (on_rdy_frame i eg f h1 Hf)) as [].
    split; try done; intros eg' j Hj; [apply gf_rdy0|apply gf_hs0]; rewrite not_elem_of_app; tauto. }
  clearbody h1. destruct (negb eligible); cbn [fst]; [apply Hr; intros; by apply lookup_delete_ne|].
  destruct (_ && _); [done|]. destruct (sp_hs_cd_ru _). cbn [fst]. apply Hr. intros. by apply lookup_insert_ne.
Qed.

Lemma sync_groups_frame i level jitter eligible egs s :
  group_frame i egs s.1 (foldl (sync_group args i level jitter eligible) s egs).1.
Proof.
  revert s. induction egs as [|eg egs IH]; intros [h w]; [apply group_frame_refl|]. cbn [foldl].
  apply (group_frame_trans i [eg] egs _ (sync_group args i level jitter eligible (h, w) eg).1); [apply sync_group_frame|apply IH].
Qed.

(** The score of the identity in a group of the profile, in authoritative mode
    without a cold start. *)
Definition group_score (i level : Z) (eligible : bool) (h : Hot) (eg : Z) : option Z :=
  if eligible then let '(cd, ru) := sp_hs_cd_ru (h_hs h !! (eg, i)) in Some (Z.max (Z.max level cd) ru) else None.

Lemma sync_group_score i level jitter eligible h w eg :
  sy_merge args = false → sy_cold args = false →
  let h' := (sync_group args i level jitter eligible (h, w) eg).1 in
  rdy_of h' eg !! i = group_score i level eligible h' eg.
Proof.
  intros Hm Hc. unfold sync_group, group_score. rewrite Hm, Hc. set (h1 := match _ with Some t => _ | None => h end). clearbody h1.
  destruct eligible; cbn [negb fst].
  - cbn [andb]. destruct (sp_hs_cd_ru (h_hs h1 !! (eg, i))) as [cd ru] eqn:E. cbn [fst]. rewrite rdy_of_on_rdy.
    rewrite decide_True, lookup_insert_eq by done. cbn. by rewrite E.
  - rewrite rdy_of_on_rdy, decide_True by done. apply lookup_delete_eq.
Qed.

Lemma sync_groups_score i level jitter eligible egs s eg :
  sy_merge args = false → sy_cold args = false → NoDup egs → eg ∈ egs →
  let h' := (foldl (sync_group args i level jitter eligible) s egs).1 in
  rdy_of h' eg !! i = group_score i level eligible h' eg.
Proof.
  intros Hm Hc. revert s. induction egs as [|eg0 egs IH]; intros [h w] Hd Hin; [by apply not_elem_of_nil in Hin|].
  apply NoDup_cons in Hd as [Hni Hd]. apply elem_of_cons in Hin as [->|Hin]; cbn [foldl]; [|by apply IH].
  set (s1 := sync_group args i level jitter eligible (h, w) eg0).
  destruct (sync_groups_frame i level jitter eligible egs s1) as [_ _ _ _ Hr Hh]. unfold group_score.
  rewrite Hr, Hh by (by right). by apply sync_group_score.
Qed.

(** The hash and the lifecycle fields that a row writes. *)
Definition synced_hash (r : IdentityRow) (m : Mat) : Identity :=
  let cur := h_id (m_hot m) !! iw_i r in
  let '(st, bu, qu, act, sct) := sync_lifecycle args r cur (m_idlife m !! iw_i r) in
  sync_hash r st act (sync_px r cur (m_hot m)) cur.
Definition synced_life (r : IdentityRow) (m : Mat) : Life :=
  let '(st, bu, qu, act, sct) := sync_lifecycle args r (h_id (m_hot m) !! iw_i r) (m_idlife m !! iw_i r) in
  {| lf_bu := bu; lf_qu := qu; lf_sct := Some sct |}.

Lemma sync_level_acc h h' d : h_acc h' = h_acc h → sync_level h' d = sync_level h d.
Proof. intros H. unfold sync_level. by rewrite H. Qed.

(** The state before the groups of the profile. *)
Definition hash_written (r : IdentityRow) (m : Mat) : Hot :=
  let h := on_id (<[iw_i r := synced_hash r m]>) (m_hot m) in
  if sy_reset_health args then mark_dirty {[(None, iw_i r)]} h else h.

Lemma hash_written_same r m :
  h_id (hash_written r m) = <[iw_i r := synced_hash r m]> (h_id (m_hot m)) ∧
  h_acc (hash_written r m) = h_acc (m_hot m) ∧ h_rdy (hash_written r m) = h_rdy (m_hot m) ∧
  h_hs (hash_written r m) = h_hs (m_hot m) ∧
  ledger_of (hash_written r m) = ledger_of (on_id (<[iw_i r := synced_hash r m]>) (m_hot m)).
Proof. unfold hash_written. by destruct (sy_reset_health args). Qed.

(** A record writes one identity: its hash, its lifecycle fields and, group by
    group, its scores. *)
Lemma sync_identity_run r m :
  let run eligible := sync_group args (iw_i r) (sync_level (m_hot m) (synced_hash r m)) (iw_jitter r) eligible in
  let m' := (sync_identity args r m).1 in
  m_idlife m' = <[iw_i r := synced_life r m]> (m_idlife m) ∧
  m_hot m' = (foldl (run false) (foldl (run (is_ready (id_st (synced_hash r m)))) (hash_written r m, 0%nat) (iw_eligible r)) (iw_other r)).1.
Proof.
  cbv zeta. unfold hash_written, synced_life, synced_hash, sync_identity.
  destruct (sync_lifecycle args r _ _) as [[[[st bu] qu] act] sct]. set (d := sync_hash _ _ _ _ _).
  set (m1 := on_idlife _ _). set (m2 := match h_id (m_hot m) !! iw_i r ≫= id_acc with Some _ => _ | None => m1 end).
  set (m3 := match iw_acc r with Some a => _ | None => m2 end). set (m4 := if resetting args then _ else m3).
  set (m5 := if sy_reset_health args then _ else m4).
  assert (m_hot m4 = m_hot m1 ∧ m_idlife m4 = m_idlife m1) as [Hh Hl].
  { assert (m_hot m2 = m_hot m1 ∧ m_idlife m2 = m_idlife m1) as [H2 L2] by (subst m2; repeat case_match; done).
    assert (m_hot m3 = m_hot m2 ∧ m_idlife m3 = m_idlife m2) as [H3 L3] by (subst m3; by case_match).
    subst m4. destruct (resetting args); cbn; by rewrite H3, L3, H2, L2. }
  assert (m_hot m5 = (if sy_reset_health args then mark_dirty {[(None, iw_i r)]} (m_hot m1) else m_hot m1) ∧ m_idlife m5 = m_idlife m1) as [H5 L5]
    by (subst m5; destruct (sy_reset_health args); cbn; by rewrite Hh, Hl).
  assert (sync_level (m_hot m5) d = sync_level (m_hot m) d) as -> by (apply sync_level_acc; rewrite H5; by destruct (sy_reset_health args)).
  rewrite H5. clearbody m5. subst m1. cbn [m_hot on_hot on_idlife].
  change (id_st d) with st. clearbody d. destruct (foldl _ _ (iw_eligible r)) as [h w].
  destruct (foldl _ (h, w) (iw_other r)) as [h' w']. cbn. by rewrite L5.
Qed.

Definition op_id (op : IdentityOp) : Z := match op with sync_op r => iw_i r | remove_op i _ => i end.

(** What a record of another identity leaves alone. *)
Record identity_frame (i : Z) (m m' : Mat) : Prop := {
  if_id : h_id (m_hot m') !! i = h_id (m_hot m) !! i;
  if_life : m_idlife m' !! i = m_idlife m !! i;
  if_acc : h_acc (m_hot m') = h_acc (m_hot m);
  if_rdy : ∀ eg, rdy_of (m_hot m') eg !! i = rdy_of (m_hot m) eg !! i;
  if_hs : ∀ eg, h_hs (m_hot m') !! (eg, i) = h_hs (m_hot m) !! (eg, i);
}.

#[local] Instance identity_frame_preorder i : PreOrder (identity_frame i).
Proof. split; [by split|]. intros m1 m2 m3 [] []. split; congruence. Qed.

Lemma remove_groups_frame j groups h :
  let h' := foldl (λ h eg, on_q (delete (eg, j)) (on_hs (delete (eg, j)) (on_rdy eg (delete j) h))) h groups in
  h_id h' = h_id h ∧ h_acc h' = h_acc h ∧ ledger_of h' = ledger_of h ∧
  ∀ i, i ≠ j → (∀ eg, rdy_of h' eg !! i = rdy_of h eg !! i) ∧ ∀ eg, h_hs h' !! (eg, i) = h_hs h !! (eg, i).
Proof.
  revert h. induction groups as [|eg groups IH]; intros h; [done|]. cbn [foldl].
  set (h1 := on_q _ _). destruct (IH h1) as (E1 & E2 & E3 & E4). cbv zeta in *. rewrite E1, E2, E3. split_and!; [done..|].
  intros i Hi. destruct (E4 i Hi) as [Er Eh]. split; intros eg'.
  - rewrite Er. subst h1. change (rdy_of (on_rdy eg (delete j) h) eg' !! i = rdy_of h eg' !! i). rewrite rdy_of_on_rdy.
    case_decide; [by apply lookup_delete_ne|done].
  - rewrite Eh. subst h1. cbn. rewrite lookup_delete_ne; [done|]. congruence.
Qed.

Lemma sync_record_frame i s op : op_id op ≠ i → identity_frame i s.1 (sync_record args s op).1.
Proof.
  destruct s as [m [[n1 n2] n3]]. destruct op as [r|j groups]; cbn [op_id]; intros Hne; cbn [sync_record fst].
  - destruct (sync_identity args r m) as [m' w] eqn:E. cbn [fst].
    destruct (sync_identity_run r m) as [Hl Hh]. rewrite E in Hl, Hh. cbn [fst] in Hl, Hh.
    set (run := sync_group args (iw_i r) _ _) in Hh.
    pose proof (sync_groups_frame (iw_i r) (sync_level (m_hot m) (synced_hash r m)) (iw_jitter r)
      (is_ready (id_st (synced_hash r m))) (iw_eligible r) (hash_written r m, 0%nat)) as F1.
    pose proof (sync_groups_frame (iw_i r) (sync_level (m_hot m) (synced_hash r m)) (iw_jitter r) false (iw_other r)
      (foldl (run (is_ready (id_st (synced_hash r m)))) (hash_written r m, 0%nat) (iw_eligible r))) as F2.
    fold run in F1, F2. rewrite <- Hh in F2. destruct (group_frame_trans _ _ _ _ _ _ F1 F2) as [Fid Facc _ _ Fr Fh]. cbn [fst] in *.
    destruct (hash_written_same r m) as (W1 & W2 & W3 & W4 & _). split.
    + rewrite Fid, W1. by apply lookup_insert_ne.
    + rewrite Hl. by apply lookup_insert_ne.
    + by rewrite Facc.
    + intros eg. rewrite Fr by (by left). unfold rdy_of. by rewrite W3.
    + intros eg. rewrite Fh by (by left). by rewrite W4.
  - unfold remove_identity. set (m1 := on_hot (on_id _) _).
    destruct (remove_groups_frame j groups (m_hot m1)) as (E1 & E2 & _ & E3). destruct (E3 i) as [Er Eh]; [congruence|].
    assert (identity_frame i m (on_hot (λ h, foldl (λ h eg, on_q (delete (eg, j)) (on_hs (delete (eg, j)) (on_rdy eg (delete j) h))) h groups) m1)) as F.
    { split; cbn [m_hot m_idlife on_hot]; [|subst m1; cbn; by apply lookup_delete_ne|by rewrite E2|intros eg; by rewrite Er|intros eg; by rewrite Eh].
      rewrite E1. subst m1. cbn. by apply lookup_delete_ne. }
    destruct (_ ≫= id_acc); [|done]. by destruct F; split.
Qed.

Lemma sync_records_frame i ops s : i ∉ op_id <$> ops → identity_frame i s.1 (foldl (sync_record args) s ops).1.
Proof.
  revert s. induction ops as [|op ops IH]; intros s Hni; [done|]. cbn in Hni. apply not_elem_of_cons in Hni as [Hne Hni].
  cbn [foldl]. etrans; [by apply (sync_record_frame i s op)|by apply IH].
Qed.

Lemma sync_account_same m a :
  let m' := sync_account args m a in
  h_id (m_hot m') = h_id (m_hot m) ∧ m_idlife m' = m_idlife m ∧ h_rdy (m_hot m') = h_rdy (m_hot m) ∧
  h_hs (m_hot m') = h_hs (m_hot m) ∧ h_px (m_hot m') = h_px (m_hot m) ∧ ledger_of (m_hot m') = ledger_of (m_hot m).
Proof. cbv zeta. unfold sync_account, write_account. by repeat case_match. Qed.

Lemma sync_accounts_same accounts m :
  let m' := foldl (sync_account args) m accounts in
  h_id (m_hot m') = h_id (m_hot m) ∧ m_idlife m' = m_idlife m ∧ h_px (m_hot m') = h_px (m_hot m) ∧
  ledger_of (m_hot m') = ledger_of (m_hot m).
Proof.
  revert m. induction accounts as [|a accounts IH]; intros m; [done|]. cbn [foldl]. cbv zeta in *.
  destruct (IH (sync_account args m a)) as (-> & -> & -> & ->). destruct (sync_account_same m a) as (? & ? & _ & _ & ? & ?). done.
Qed.

(** The record of [r] runs on its identity as the script found it. *)
Lemma sync_identities_record accounts ops m r :
  sync_op r ∈ ops → NoDup (op_id <$> ops) →
  ∃ m1, identity_frame (iw_i r) (foldl (sync_account args) m accounts) m1 ∧
    identity_frame (iw_i r) (sync_identity args r m1).1 (sync_identities args accounts ops m).1.
Proof.
  intros Hin Hd. apply list_elem_of_split in Hin as (pre & post & ->). rewrite fmap_app, fmap_cons in Hd.
  apply NoDup_app in Hd as (_ & Hpre & [Hpost _]%NoDup_cons). unfold sync_identities. rewrite foldl_app. cbn [foldl].
  set (s0 := (foldl (sync_account args) m accounts, _)). set (s1 := foldl (sync_record args) s0 pre).
  exists s1.1. split.
  - apply (sync_records_frame _ pre s0). intros Hi. apply (Hpre _ Hi). apply list_elem_of_here.
  - pose proof (sync_records_frame (iw_i r) post (sync_record args s1 (sync_op r)) Hpost) as F.
    destruct s1 as [m1 [[n1 n2] n3]]. revert F. cbn [fst sync_record].
    by destruct (sync_identity args r m1) as [m2 w].
Qed.

Lemma sync_identity_hash r m :
  h_id (m_hot (sync_identity args r m).1) !! iw_i r = Some (synced_hash r m) ∧
  m_idlife (sync_identity args r m).1 !! iw_i r = Some (synced_life r m) ∧
  h_acc (m_hot (sync_identity args r m).1) = h_acc (m_hot m).
Proof.
  destruct (sync_identity_run r m) as [Hl Hh]. rewrite Hl, Hh.
  set (run := sync_group args (iw_i r) _ _). set (s := foldl (run (is_ready _)) _ _).
  destruct (sync_groups_frame (iw_i r) (sync_level (m_hot m) (synced_hash r m)) (iw_jitter r) false (iw_other r) s) as [E2 A2 _ _ _ _].
  fold run in E2, A2. rewrite E2, A2. subst s.
  destruct (sync_groups_frame (iw_i r) (sync_level (m_hot m) (synced_hash r m)) (iw_jitter r)
    (is_ready (id_st (synced_hash r m))) (iw_eligible r) (hash_written r m, 0%nat)) as [E1 A1 _ _ _ _].
  fold run in E1, A1. rewrite E1, A1. destruct (hash_written_same r m) as (W1 & W2 & _). cbn [fst]. rewrite W1, W2.
  by rewrite !lookup_insert_eq.
Qed.

Lemma sp_avail_level h eg i d :
  h_id h !! i = Some d →
  sp_avail h eg i = let '(cd, ru) := sp_hs_cd_ru (h_hs h !! (eg, i)) in Z.max (Z.max (sync_level h d) cd) ru.
Proof. intros Hd. unfold sp_avail, sync_level. rewrite Hd. destruct (sp_hs_cd_ru _). destruct (_ >? 0), (id_acc d); lia. Qed.

Lemma sync_identity_scores r m :
  sy_merge args = false → sy_cold args = false → NoDup (iw_eligible r ++ iw_other r) →
  let h' := m_hot (sync_identity args r m).1 in
  (∀ eg, eg ∈ iw_eligible r → rdy_of h' eg !! iw_i r =
     if is_ready (id_st (synced_hash r m)) then Some (sp_avail h' eg (iw_i r)) else None) ∧
  (∀ eg, eg ∈ iw_other r → rdy_of h' eg !! iw_i r = None).
Proof.
  intros Hm Hc Hd h'. destruct (sync_identity_hash r m) as (Hid & _ & Hacc). fold h' in Hid, Hacc.
  destruct (sync_identity_run r m) as [_ Hh]. fold h' in Hh. set (run := sync_group args (iw_i r) _ _) in Hh.
  set (s := foldl (run (is_ready _)) _ _) in Hh. apply NoDup_app in Hd as (He & Hdis & Ho). split; intros eg Heg.
  - destruct (sync_groups_frame (iw_i r) (sync_level (m_hot m) (synced_hash r m)) (iw_jitter r) false (iw_other r) s) as [_ _ _ _ R2 H2].
    fold run in R2, H2. rewrite <- Hh in R2, H2. rewrite R2 by (right; by apply Hdis).
    pose proof (sync_groups_score (iw_i r) (sync_level (m_hot m) (synced_hash r m)) (iw_jitter r)
      (is_ready (id_st (synced_hash r m))) (iw_eligible r) (hash_written r m, 0%nat) eg Hm Hc He Heg) as S1. fold run s in S1.
    cbv zeta in S1. rewrite S1. unfold group_score. destruct (is_ready _); [|done].
    rewrite (sp_avail_level _ _ _ _ Hid), (sync_level_acc _ _ _ Hacc). rewrite H2 by (right; by apply Hdis).
    by destruct (sp_hs_cd_ru _).
  - rewrite Hh. by apply (sync_groups_score (iw_i r) (sync_level (m_hot m) (synced_hash r m)) (iw_jitter r) false (iw_other r) s).
Qed.
End identities.

(** ** Claims *)

(** A lifecycle change of Redis that is newer than the row and still in force. *)
Definition newer_in_force (now : Z) (r : IdentityRow) (cur : option Identity) (life : option Life) : Prop :=
  match cur with
  | None => False
  | Some d =>
      iw_sct r < default 0 (life ≫= lf_sct) ∧
      (id_st d = "banned" → from_option lf_bu 0 life = -1 ∨ now < from_option lf_bu 0 life) ∧
      (id_st d = "quarantined" → now < from_option lf_qu 0 life)
  end.

Lemma keep_newer now r cur life :
  keep_redis_lifecycle now false (id_st <$> cur) (life ≫= lf_sct) (iw_sct r) (from_option lf_bu 0 life) (from_option lf_qu 0 life) = true
  ↔ newer_in_force now r cur life.
Proof.
  unfold keep_redis_lifecycle, newer_in_force. destruct cur as [d|]; [|done]. cbn [fmap option_fmap option_map].
  destruct (Z.leb_spec (default 0 (life ≫= lf_sct)) (iw_sct r)); [split; [done|lia]|].
  destruct (String.eqb_spec (id_st d) "banned") as [Hb|Hb].
  - rewrite orb_true_iff, Z.eqb_eq, Z.gtb_lt. split; [intros H'; split_and!; [lia|done|by rewrite Hb]|tauto].
  - destruct (String.eqb_spec (id_st d) "quarantined") as [Hq|Hq]; [rewrite Z.gtb_lt|]; (split; [intros H'; by split_and!|tauto]).
Qed.

(** C31: an authoritative synchronisation writes the lifecycle of the row, except
    when Redis holds a newer change that is still in force (a ban or quarantine
    that has not ended): an automatic ban that is not persisted yet is never
    reverted by a stale row, and an ended one never outlives it.  The lease
    count, the exclusive lease, the cooldown and the reuse time of an identity
    that is already there are kept. *)
Theorem sync_lifecycle_precedence args accounts ops m r :
  sync_op r ∈ ops → NoDup (op_id <$> ops) → sy_merge args = false →
  let m' := (sync_identities args accounts ops m).1 in
  let cur := h_id (m_hot m) !! iw_i r in let life := m_idlife m !! iw_i r in
  ∃ d l, h_id (m_hot m') !! iw_i r = Some d ∧ m_idlife m' !! iw_i r = Some l ∧
    (newer_in_force (sy_now args) r cur life → Some (id_st d) = id_st <$> cur ∧ Some (id_act d) = id_act <$> cur ∧
       ∀ l0, life = Some l0 → lf_bu l = lf_bu l0 ∧ lf_qu l = lf_qu l0 ∧ lf_sct l = Some (default (iw_sct r) (lf_sct l0))) ∧
    (¬ newer_in_force (sy_now args) r cur life → id_st d = iw_st r ∧
       l = {| lf_bu := iw_bu r; lf_qu := iw_qu r; lf_sct := Some (iw_sct r) |}) ∧
    (∀ d0, cur = Some d0 → id_al d = id_al d0 ∧ id_xl d = id_xl d0 ∧ id_scd d = id_scd d0 ∧ id_sru d = id_sru d0).
Proof.
  intros Hin Hd Hm m' cur life. destruct (sync_identities_record args accounts ops m r Hin Hd) as (m1 & F1 & F2).
  destruct (sync_identity_hash args r m1) as (H1 & H2 & _). destruct (sync_accounts_same args accounts m) as (A1 & A2 & _).
  assert (h_id (m_hot m1) !! iw_i r = cur) as Ec by (rewrite (if_id _ _ _ F1), A1; done).
  assert (m_idlife m1 !! iw_i r = life) as El by (rewrite (if_life _ _ _ F1), A2; done).
  subst m'. exists (synced_hash args r m1), (synced_life args r m1). rewrite (if_id _ _ _ F2), (if_life _ _ _ F2), H1, H2.
  unfold synced_hash, synced_life, sync_lifecycle. rewrite Ec, El, Hm. clearbody cur life.
  pose proof (keep_newer (sy_now args) r cur life) as Hk.
  destruct (keep_redis_lifecycle _ _ _ _ _ _ _).
  - destruct Hk as [Hk _]. specialize (Hk eq_refl). destruct cur as [d0|]; [|done]. split_and!; [done..| |done|by intros ? [= <-]].
    intros _. split_and!; [done..|]. by intros l0 ->.
  - split_and!; [done..| | |].
    + intros Hn. by apply Hk in Hn.
    + intros _. by destruct cur.
    + intros d0 ->. done.
Qed.

(** *** A site to synchronise *)

#[local] Existing Instance flat_math.

Definition demo_row (i : Z) (st : string) (sct : Z) : IdentityRow :=
  {| iw_i := i; iw_iid := "id"; iw_st := st; iw_ty := "guest"; iw_tv := 1; iw_pv := 1; iw_acc := None; iw_rg := "";
     iw_bu := 0; iw_qu := 0; iw_act := 0; iw_px := None; iw_eligible := [1]; iw_other := [2]; iw_jitter := 0;
     iw_sct := sct |}.
Definition demo_sync (now : Z) : SyncArgs :=
  {| sy_now := now; sy_merge := false; sy_merge_accounts := true; sy_reset_health := false;
     sy_reset_failures := false; sy_cold := false; sy_baselines := ∅ |}.
Definition no_mat (h : Hot) : Mat :=
  {| m_hot := h; m_idlife := ∅; m_accsct := ∅; m_pxlife := ∅; m_pxuv := ∅; m_accm := ∅; m_brko := ∅;
     m_bans := ∅; m_rcd := ∅; 
     m_stat := {| st_score := ∅; st_streak := ∅; st_xai := ∅; st_xap := ∅; st_px := ∅ |} |}.

(** Identity 10 was banned at time 900, until 9000, and the row is of time 800. *)
Definition demo_banned : Mat :=
  on_idlife (<[10 := {| lf_bu := 9000; lf_qu := 0; lf_sct := Some 900 |}]>)
    (no_mat (on_id (alter (λ d, sync_hash (demo_row 10 "active" 0) "banned" 0 None (Some d)) 10) demo_site)).

Lemma sync_lifecycle_precedence_witness :
  ∃ d, h_id (m_hot (sync_identities (demo_sync 1000) [] [sync_op (demo_row 10 "active" 800)] demo_banned).1) !! 10 = Some d ∧
    Some (id_st d) = Some "banned".
Proof.
  destruct (sync_lifecycle_precedence (demo_sync 1000) [] [sync_op (demo_row 10 "active" 800)] demo_banned (demo_row 10 "active" 800))
    as (d & l & Hd & _ & Hk & _).
  - apply list_elem_of_here.
  - apply NoDup_singleton.
  - reflexivity.
  - exists d. split; [exact Hd|]. apply Hk. vm_compute. split; [reflexivity|]. split; [right; reflexivity|discriminate].
Defined.

(** An authoritative synchronisation puts an identity whose stored state is
    active or pending into the ready queue of every group it is eligible for,
    with its availability there as score, and takes it out of every other queue
    of its profile. *)
Theorem sync_ready_scores args accounts ops m r :
  sync_op r ∈ ops → NoDup (op_id <$> ops) → NoDup (iw_eligible r ++ iw_other r) →
  sy_merge args = false → sy_cold args = false →
  let h' := m_hot (sync_identities args accounts ops m).1 in
  ∃ d, h_id h' !! iw_i r = Some d ∧
    (∀ eg, eg ∈ iw_eligible r →
       rdy_of h' eg !! iw_i r = if is_ready (id_st d) then Some (sp_avail h' eg (iw_i r)) else None) ∧
    (∀ eg, eg ∈ iw_other r → rdy_of h' eg !! iw_i r = None).
Proof.
  intros Hin Hd Hg Hm Hc h'. destruct (sync_identities_record args accounts ops m r Hin Hd) as (m1 & _ & F).
  destruct (sync_identity_hash args r m1) as (Hid & _ & _).
  destruct (sync_identity_scores args r m1 Hm Hc Hg) as [He Ho].
  assert (∀ eg, sp_avail h' eg (iw_i r) = sp_avail (m_hot (sync_identity args r m1).1) eg (iw_i r)) as Hav.
  { intros eg. unfold sp_avail, h'. by rewrite (if_hs _ _ _ F), (if_id _ _ _ F), (if_acc _ _ _ F). }
  exists (synced_hash args r m1). split_and!.
  - unfold h'. by rewrite (if_id _ _ _ F).
  - intros eg Heg. rewrite Hav. unfold h'. rewrite (if_rdy _ _ _ F). by apply He.
  - intros eg Heg. unfold h'. rewrite (if_rdy _ _ _ F). by apply Ho.
Qed.

Lemma sync_ready_scores_witness :
  ∃ d, h_id (m_hot (sync_identities (demo_sync 1000) [] [sync_op (demo_row 12 "active" 800)] (no_mat demo_site)).1) !! 12 = Some d.
Proof.
  destruct (sync_ready_scores (demo_sync 1000) [] [sync_op (demo_row 12 "active" 800)] (no_mat demo_site) (demo_row 12 "active" 800))
    as (d & Hd & _).
  - apply list_elem_of_here.
  - apply NoDup_singleton.
  - apply (bool_decide_unpack _). vm_compute. exact I.
  - reflexivity.
  - reflexivity.
  - exists d. exact Hd.
Defined.

(** ** Materialisation and leases *)

(** The rows that may be written: a hash is created only for an identity or a
    proxy without active leases. *)
Definition identities_safe (ops : list IdentityOp) (h : Hot) : Prop :=
  ∀ r, sync_op r ∈ ops → held_by (iw_i r) (h_ls h) = ∅ ∨
    is_Some (h_id h !! iw_i r) ∧ ∀ groups, remove_op (iw_i r) groups ∉ ops.
Definition proxies_safe (rows : list ProxyRow) (h : Hot) : Prop :=
  ∀ r, r ∈ rows → used_by (pw_p r) (h_ls h) = ∅ ∨ is_Some (h_px h !! pw_p r).

Lemma materialises_ls h h' : materialises (ledger_of h) (ledger_of h') → h_ls h' = h_ls h.
Proof. apply mt_leases. Qed.

Lemma sync_identity_materialises args r m :
  held_by (iw_i r) (h_ls (m_hot m)) = ∅ ∨ is_Some (h_id (m_hot m) !! iw_i r) →
  materialises (ledger_of (m_hot m)) (ledger_of (m_hot (sync_identity args r m).1)) ∧
  ∀ i, is_Some (h_id (m_hot m) !! i) → is_Some (h_id (m_hot (sync_identity args r m).1) !! i).
Proof.
  intros Hsafe. destruct (sync_identity_run args r m) as [_ Hh]. rewrite Hh.
  set (run := sync_group args (iw_i r) _ _). set (s := foldl (run (is_ready _)) _ _).
  destruct (sync_groups_frame args (iw_i r) (sync_level (m_hot m) (synced_hash args r m)) (iw_jitter r) false (iw_other r) s) as [E2 _ L2 _ _ _].
  fold run in E2, L2. rewrite E2, L2. subst s.
  destruct (sync_groups_frame args (iw_i r) (sync_level (m_hot m) (synced_hash args r m)) (iw_jitter r)
    (is_ready (id_st (synced_hash args r m))) (iw_eligible r) (hash_written args r m, 0%nat)) as [E1 _ L1 _ _ _].
  fold run in E1, L1. rewrite E1, L1. destruct (hash_written_same args r m) as (W1 & _ & _ & _ & W5). cbn [fst]. rewrite W1, W5. split.
  - apply materialises_id_insert; unfold synced_hash; destruct (sync_lifecycle _ _ _ _) as [[[[st bu] qu] act] sct].
    + intros d0 Hd0. cbn. by rewrite Hd0.
    + intros Hn. cbn. rewrite Hn. split; [done|]. destruct Hsafe as [?|[? Hs]]; [done|congruence].
  - intros i Hi. destruct (decide (iw_i r = i)) as [<-|]; [rewrite lookup_insert_eq; eauto|by rewrite lookup_insert_ne].
Qed.

Lemma remove_identity_materialises i groups m :
  materialises (ledger_of (m_hot m)) (ledger_of (m_hot (remove_identity i groups m))) ∧
  ∀ j, j ≠ i → is_Some (h_id (m_hot m) !! j) → is_Some (h_id (m_hot (remove_identity i groups m)) !! j).
Proof.
  unfold remove_identity. set (m1 := on_hot (on_id _) _).
  destruct (remove_groups_frame i groups (m_hot m1)) as (E1 & _ & E2 & _). set (m2 := on_hot _ m1).
  assert (ledger_of (m_hot m2) = ledger_of (m_hot m1) ∧ h_id (m_hot m2) = h_id (m_hot m1)) as [L2 I2] by done.
  assert (materialises (ledger_of (m_hot m)) (ledger_of (m_hot m1))) as H1 by apply materialises_id_delete.
  assert (∀ j, j ≠ i → is_Some (h_id (m_hot m) !! j) → is_Some (h_id (m_hot m1) !! j)) as H2
    by (intros j Hj Hs; subst m1; cbn; by rewrite lookup_delete_ne).
  clearbody m2. destruct (_ ≫= id_acc); cbn; rewrite L2, I2; by split.
Qed.

Lemma sync_records_materialises args ops s :
  identities_safe ops (m_hot s.1) →
  materialises (ledger_of (m_hot s.1)) (ledger_of (m_hot (foldl (sync_record args) s ops).1)).
Proof.
  revert s. induction ops as [|op ops IH]; intros [m [[n1 n2] n3]] Hsafe; [done|]. cbn [foldl fst] in *.
  assert (materialises (ledger_of (m_hot m)) (ledger_of (m_hot (sync_record args (m, (n1, n2, n3)) op).1)) ∧
    ∀ i, (∀ groups, op ≠ remove_op i groups) → is_Some (h_id (m_hot m) !! i) →
      is_Some (h_id (m_hot (sync_record args (m, (n1, n2, n3)) op).1) !! i)) as [H1 H2].
  { destruct op as [r|i groups]; cbn [sync_record].
    - destruct (sync_identity args r m) as [m' w] eqn:E. destruct (sync_identity_materialises args r m) as [H1 H2].
      + destruct (Hsafe r (list_elem_of_here _ _)) as [?|[? _]]; auto.
      + rewrite E in H1, H2. split; [done|]. auto.
    - destruct (remove_identity_materialises i groups m) as [H1 H2]. split; [done|]. intros j Hj. apply H2. intros ->. by apply (Hj groups). }
  etrans; [exact H1|]. apply IH. intros r Hr. destruct (Hsafe r) as [He|[Hs Hn]]; [by apply list_elem_of_further| |].
  - left. by rewrite (materialises_ls _ _ H1).
  - right. split.
    + apply H2; [|done]. intros groups ->. apply (Hn groups), list_elem_of_here.
    + intros groups Hg. apply (Hn groups). by apply list_elem_of_further.
Qed.

Lemma push_member_ledger i s eg : ledger_of (push_member i s eg).1 = ledger_of s.1.
Proof. by destruct s. Qed.

Lemma sync_accounts_ledger merge op push egs a now members m :
  ledger_of (m_hot (sync_accounts merge op push egs a now members m).1) = ledger_of (m_hot m).
Proof.
  unfold sync_accounts. set (m1 := if bool_decide (op = op_replace) then _ else m).
  assert (ledger_of (m_hot m1) = ledger_of (m_hot m)) as E1
    by (subst m1; destruct (bool_decide _); [|done]; unfold write_account; by repeat case_match).
  clearbody m1. set (s2 := if _ || _ then _ else _). assert (ledger_of (m_hot s2.1) = ledger_of (m_hot m1)) as E2
    by (subst s2; by destruct (_ || _)).
  destruct s2 as [m2 added]. cbn [fst] in E2. set (s3 := if push then _ else _).
  assert (ledger_of s3.1 = ledger_of (m_hot m2)) as E3; [|destruct s3; cbn in *; congruence].
  subst s3. destruct push; [|done]. change (ledger_of (m_hot m2)) with (ledger_of (m_hot m2, 0%nat).1).
  generalize (m_hot m2, 0%nat). induction members as [|i members IH]; intros s; [done|]. cbn [foldl]. rewrite IH.
  clear. revert s. induction egs as [|eg egs IH]; intros s; [done|]. cbn [foldl]. by rewrite IH, push_member_ledger.
Qed.

Lemma sync_proxy_materialises merge now s r :
  used_by (pw_p r) (h_ls (m_hot s.1)) = ∅ ∨ is_Some (h_px (m_hot s.1) !! pw_p r) →
  let m' := (sync_proxy merge now s r).1 in
  materialises (ledger_of (m_hot s.1)) (ledger_of (m_hot m')) ∧
  ∀ p, is_Some (h_px (m_hot s.1) !! p) → is_Some (h_px (m_hot m') !! p).
Proof.
  destruct s as [m n]. cbn [fst]. intros Hsafe. unfold sync_proxy. destruct (match keep_redis_lifecycle _ _ _ _ _ _ _ with true => _ | false => _ end) as [[[st bu] qu] sct].
  set (d := sync_proxy_hash _ _ _ _). set (h1 := on_px (<[pw_p r := d]>) (m_hot m)).
  assert (materialises (ledger_of (m_hot m)) (ledger_of h1)) as H1.
  { apply materialises_px_insert; cbn; [by intros d0 ->|]. intros Hn. rewrite Hn. split; [done|].
    destruct Hsafe as [?|[? Hx]]; [done|congruence]. }
  assert (∀ p, is_Some (h_px (m_hot m) !! p) → is_Some (h_px h1 !! p)) as H2.
  { intros p Hp. subst h1. cbn. destruct (decide (pw_p r = p)) as [<-|]; [rewrite lookup_insert_eq; eauto|by rewrite lookup_insert_ne]. }
  by destruct (String.eqb st "active").
Qed.

Lemma sync_proxies_materialises merge now rows m :
  proxies_safe rows (m_hot m) → materialises (ledger_of (m_hot m)) (ledger_of (m_hot (sync_proxies merge now rows m).1)).
Proof.
  unfold sync_proxies. intros Hs. assert (∀ s, proxies_safe rows (m_hot s.1) →
    materialises (ledger_of (m_hot s.1)) (ledger_of (m_hot (foldl (sync_proxy merge now) s rows).1))) as H.
  { clear. induction rows as [|r rows IH]; intros s Hs; [done|]. cbn [foldl].
    destruct (sync_proxy_materialises merge now s r) as [H1 H2]; [apply Hs, list_elem_of_here|]. etrans; [exact H1|].
    apply IH. intros r' Hr'. destruct (Hs r') as [?|?]; [by apply list_elem_of_further|left; by rewrite (materialises_ls _ _ H1)|right; auto]. }
  specialize (H (m, 0%nat) Hs). by destruct (foldl _ _ rows).
Qed.

Lemma foldl_materialises {A B} (mat : B → Mat) (f : B → A → B) l b :
  (∀ b a, materialises (ledger_of (m_hot (mat b))) (ledger_of (m_hot (mat (f b a))))) →
  materialises (ledger_of (m_hot (mat b))) (ledger_of (m_hot (mat (foldl f b l)))).
Proof. intros Hf. revert b. induction l as [|a l IH]; intros b; [done|]. cbn [foldl]. etrans; [apply Hf|apply IH]. Qed.

Lemma sync_maintenance_materialises op m :
  materialises (ledger_of (m_hot m)) (ledger_of (m_hot (sync_maintenance op m).1)).
Proof.
  destruct op as [eg types ids|ps|ps|pairs|egs]; cbn [sync_maintenance].
  1-4: change m with ((m, 0%nat).1) at 1; apply foldl_materialises.
  - intros [m1 n] i. unfold prune_one. by destruct (kept_ready _ _).
  - intros [m1 n] p. unfold prune_one. by destruct (from_option _ _ _).
  - intros [m1 n] p. unfold remove_proxy. apply materialises_px_delete.
  - intros [m1 n] [i p]. unfold clear_binding. cbn [fst snd]. destruct (h_id (m_hot m1) !! i) as [d|] eqn:Hd; [|done].
    destruct (bool_decide _); [|done]. apply materialises_id_insert; [|congruence]. intros d0 H0. by simplify_eq.
  - cbn [fst]. apply (foldl_materialises id). by intros.
Qed.

(** The runs of the synchronisation scripts that create no hash of an identity
    or a proxy with active leases. *)
Inductive mat_step : Mat → Mat → Prop :=
| mat_identities args accounts ops m :
    identities_safe ops (m_hot m) → mat_step m (sync_identities args accounts ops m).1
| mat_accounts merge op push egs a now members m : mat_step m (sync_accounts merge op push egs a now members m).1
| mat_proxies merge now rows m : proxies_safe rows (m_hot m) → mat_step m (sync_proxies merge now rows m).1
| mat_maintenance op m : mat_step m (sync_maintenance op m).1.

(** The synchronisation scripts keep what the lease scripts rely on: a run that
    creates no hash for an identity or a proxy with active leases is a step of the
    lease ledger that leaves every lease and every lease count alone. *)
Lemma mat_step_foreign m m' : mat_step m m' → foreign (ledger_of (m_hot m)) (ledger_of (m_hot m')).
Proof.
  intros Hs. apply materialises_foreign. destruct Hs as [args accounts ops m Hsafe|merge op push egs a now' members m|merge now' rows m Hsafe|op m].
  - unfold sync_identities. destruct (sync_accounts_same args accounts m) as (E1 & _ & _ & E2). rewrite <- E2.
    apply (sync_records_materialises args ops (foldl (sync_account args) m accounts, (0%nat, 0%nat, 0%nat))). cbn [fst].
    unfold identities_safe. by rewrite E1, (materialises_ls _ _ (materialises_refl_eq _ _ E2)).
  - by apply materialises_refl_eq, sync_accounts_ledger.
  - by apply sync_proxies_materialises.
  - apply sync_maintenance_materialises.
Qed.

Lemma mat_step_reachable {lua : LuaMath} t now m m' :
  hreachable (t, m_hot m) → t ≤ now → mat_step m m' → hreachable (now, m_hot m').
Proof. intros Hr Ht Hs. eapply hr_step; [exact Hr|]. apply hstep_other; [done|]. by apply mat_step_foreign. Qed.

(** *** An identity that is archived and restored while it is leased

    Archiving deletes the identity hash with its lease count and restoring
    writes a new one, so the exclusive lease is forgotten: a run that the
    condition of [mat_identities] excludes. *)
Definition archived : Mat := (sync_identities (demo_sync 1500) [] [remove_op 10 [1; 2]] (no_mat demo_leased)).1.
Definition restored : Mat := (sync_identities (demo_sync 1600) [] [sync_op (demo_row 10 "pending" 1550)] archived).1.

(** The identity of an active exclusive lease is archived and restored; the next
    acquire call leases it a second time, and both exclusive leases are active
    and unexpired. *)
Example restored_identity_leased_twice :
  let h := (acquire_lua (demo_args 2000 ["lse_c"]) (m_hot restored)).2 in
  ∃ l1 l2, h_ls h !! "lse_a0a" = Some l1 ∧ h_ls h !! "lse_c0a" = Some l2 ∧ active l1 = true ∧ active l2 = true ∧
    ls_i l1 = ls_i l2 ∧ ls_mc l1 = 1 ∧ ls_mc l2 = 1 ∧ 2000 < ls_x l1 ∧ 2000 < ls_x l2.
Proof.
  do 2 eexists. split; [vm_compute; reflexivity|]. split; [vm_compute; reflexivity|]. by vm_compute.
Qed.
