(* ===== verification/HotPlan.v ===== *)
(** * Synchronisation of identities from PostgreSQL rows

    The Go side of internal/hotstate for identities: the group plan of a site,
    the records of rows, their split into script calls, and the calls.  Loading
    the rows and deleting their snapshots are database access. *)

From S2P Require Import Prelude GoStrings GoFloat PolicyBase GoTime LuaCommon PolicyRotation PolicyResolve Breaker.
From S2P Require Import SchedState SchedSelect SchedAcquire SchedLease SchedLedger SchedRefine SchedGrant SchedLoop SchedRun Scheduler HotSync.

Local Open Scope Z_scope.

(** ** The group plan (plan.go) *)

(** What the plan reads of an endpoint group. *)
Record EndpointGroup := { eg_key : Z; eg_client : string; eg_types : list string }.

Record profile := { pf_eligible : list Z; pf_other : list Z }.
Definition profile_size (p : profile) : nat := (length (pf_eligible p) + length (pf_other p))%nat.

Record groupPlan := {
  gp_groups : list EndpointGroup;                (** sorted by key *)
  gp_all : list Z;
  gp_profiles : gmap (string * string) nat;
  gp_list : list profile;
  gp_removal : nat;
}.

Definition key_compare (a b : EndpointGroup) : comparison := eg_key a ?= eg_key b.

(** [groups] lists the groups of the site in any order. *)
Definition newGroupPlan (groups : list EndpointGroup) : groupPlan :=
  let groups := SortFunc key_compare groups in
  let all := eg_key <$> groups in
  {| gp_groups := groups; gp_all := all; gp_profiles := ∅; gp_list := [{| pf_eligible := []; pf_other := all |}];
     gp_removal := 0 |}.

(** The loop of [profileIndex]. *)
Definition profile_of (groups : list EndpointGroup) (client typeID : string) : profile :=
  let own := filter (λ g, eg_client g = client) groups in
  {| pf_eligible := eg_key <$> filter (λ g, typeID ∈ eg_types g) own;
     pf_other := eg_key <$> filter (λ g, typeID ∉ eg_types g) own |}.

Definition profileIndex (client typeID : string) (p : groupPlan) : nat * groupPlan :=
  match gp_profiles p !! (client, typeID) with
  | Some idx => (idx, p)
  | None =>
      let idx := length (gp_list p) in
      (idx, {| gp_groups := gp_groups p; gp_all := gp_all p; gp_profiles := <[(client, typeID) := idx]> (gp_profiles p);
               gp_list := gp_list p ++ [profile_of (gp_groups p) client typeID]; gp_removal := gp_removal p |})
  end.

(** ** Rows and records (identities.go) *)

(** A row; times in milliseconds. *)
Record identityRow := {
  rw_id : string; rw_hkey : Z; rw_client : string; rw_type_id : string; rw_type_name : string; rw_type_version : Z;
  rw_state : string; rw_ban_until : option Z; rw_quarantine_until : option Z; rw_region : string;
  rw_payload_version : Z; rw_activated_at : option Z; rw_account : option Z; rw_account_state : option string;
  rw_account_ban_until : option Z; rw_account_cooldown_until : option Z; rw_proxy : option Z; rw_state_changed_at : Z;
}.

Definition banUntilMs (state : string) (until : option Z) : Z :=
  if negb (String.eqb state "banned") then 0 else default (-1) until.
Definition quarantineUntilMs (state : string) (until : option Z) : Z :=
  if negb (String.eqb state "quarantined") then 0 else default 0 until.
Definition timeMs (t : option Z) : Z := default 0 t.

Record identityRecord := { ir_remove : bool; ir_row : identityRow; ir_profile : nat; ir_jitter : Z }.

(** [jitter] is the random start delay drawn for the n-th row. *)
Fixpoint row_records (cold : bool) (jitter : nat → Z) (n : nat) (rows : list identityRow) (p : groupPlan) :
    list identityRecord * groupPlan :=
  match rows with
  | [] => ([], p)
  | r :: rows' =>
      let '(rec, p) :=
        if String.eqb (rw_state r) "retired"
        then ({| ir_remove := true; ir_row := r; ir_profile := gp_removal p; ir_jitter := 0 |}, p)
        else
          let '(idx, p) := profileIndex (rw_client r) (rw_type_id r) p in
          ({| ir_remove := false; ir_row := r; ir_profile := idx; ir_jitter := if cold then jitter n else 0 |}, p) in
      let '(recs, p) := row_records cold jitter (S n) rows' p in (rec :: recs, p)
  end.

(** ** Script calls *)

Definition identitiesPerCall : nat := 100.
Definition groupOpsPerCall : nat := 1000.

Definition record_size (p : groupPlan) (r : identityRecord) : nat :=
  Nat.max (from_option profile_size 0%nat (gp_list p !! ir_profile r)) 1.

(** The loop of [applyIdentities]: [acc] and [ops] are the records of the call
    that is being filled and their group operations. *)
Fixpoint split_calls (p : groupPlan) (acc : list identityRecord) (ops : nat) (recs : list identityRecord) :
    list (list identityRecord) :=
  match recs with
  | [] => []
  | r :: rest =>
      let ops := (ops + record_size p r)%nat in
      let acc := acc ++ [r] in
      if negb (bool_decide (rest = [])) && (length acc <? identitiesPerCall)%nat && (ops <? groupOpsPerCall)%nat
      then split_calls p acc ops rest
      else acc :: split_calls p [] 0 rest
  end.

(** [identityCallArgs]: every account once, with the fields of its first record. *)
Definition account_row (sct : gmap Z Z) (r : identityRow) (key : Z) : AccountRow :=
  let state := default "active" (rw_account_state r) in
  {| aw_key := key; aw_st := state; aw_bu := banUntilMs state (rw_account_ban_until r);
     aw_cd := timeMs (rw_account_cooldown_until r); aw_sct := default 0 (sct !! key) |}.
Fixpoint call_accounts (sct : gmap Z Z) (seen : gset Z) (recs : list identityRecord) : list AccountRow :=
  match recs with
  | [] => []
  | r :: recs' =>
      match ir_remove r, rw_account (ir_row r) with
      | false, Some key =>
          if bool_decide (key ∈ seen) then call_accounts sct seen recs'
          else account_row sct (ir_row r) key :: call_accounts sct ({[key]} ∪ seen) recs'
      | _, _ => call_accounts sct seen recs'
      end
  end.

Definition record_op (p : groupPlan) (rec : identityRecord) : IdentityOp :=
  let r := ir_row rec in
  let pr := default {| pf_eligible := []; pf_other := [] |} (gp_list p !! ir_profile rec) in
  if ir_remove rec then remove_op (rw_hkey r) (pf_eligible pr ++ pf_other pr)
  else sync_op
    {| iw_i := rw_hkey r; iw_iid := rw_id r; iw_st := rw_state r; iw_ty := rw_type_name r; iw_tv := rw_type_version r;
       iw_pv := rw_payload_version r; iw_acc := rw_account r; iw_rg := rw_region r;
       iw_bu := banUntilMs (rw_state r) (rw_ban_until r); iw_qu := quarantineUntilMs (rw_state r) (rw_quarantine_until r);
       iw_act := timeMs (rw_activated_at r); iw_px := rw_proxy r; iw_eligible := pf_eligible pr; iw_other := pf_other pr;
       iw_jitter := ir_jitter rec; iw_sct := rw_state_changed_at r |}.

Definition apply_call (args : SyncArgs) (sct : gmap Z Z) (p : groupPlan) (m : Mat) (call : list identityRecord) : Mat :=
  (sync_identities args (call_accounts sct ∅ call) (record_op p <$> call) m).1.

Definition applyIdentities (args : SyncArgs) (sct : gmap Z Z) (p : groupPlan) (recs : list identityRecord) (m : Mat) : Mat :=
  foldl (apply_call args sct p) m (split_calls p [] 0 recs).

(** [applyIdentityRows] on the plan of the site. *)
Definition applyIdentityRows (args : SyncArgs) (sct : gmap Z Z) (jitter : nat → Z) (groups : list EndpointGroup)
    (rows : list identityRow) (m : Mat) : Mat :=
  let '(recs, p) := row_records (sy_cold args) jitter 0 rows (newGroupPlan groups) in
  applyIdentities args sct p recs m.

(** ** Membership after a script *)

Section membership.
Variable args : SyncArgs.

Lemma sync_group_member i level jitter eligible h w eg :
  is_Some (rdy_of (sync_group args i level jitter eligible (h, w) eg).1 eg !! i) ↔ eligible = true.
Proof.
  unfold sync_group. set (h1 := match _ with Some t => _ | None => h end). clearbody h1.
  destruct eligible; cbn [negb fst].
  - destruct (sy_merge args && _) eqn:E; [apply andb_true_iff in E as [_ E]; by apply bool_decide_eq_true in E|].
    destruct (sp_hs_cd_ru _). cbn [fst]. rewrite rdy_of_on_rdy, decide_True, lookup_insert_eq by done. split; [done|eauto].
  - rewrite rdy_of_on_rdy, decide_True, lookup_delete_eq by done. split; [by intros []|done].
Qed.

Lemma sync_groups_member i level jitter eligible egs s eg :
  eg ∈ egs → is_Some (rdy_of (foldl (sync_group args i level jitter eligible) s egs).1 eg !! i) ↔ eligible = true.
Proof.
  revert s. induction egs as [|eg0 egs IH]; intros [h w] Hin; [by apply not_elem_of_nil in Hin|]. cbn [foldl].
  destruct (decide (eg ∈ egs)) as [Hin'|Hni]; [by apply IH|]. apply elem_of_cons in Hin as [->|?]; [|done].
  rewrite (gf_rdy _ _ _ _ (sync_groups_frame args i level jitter eligible egs _)) by (by right). apply sync_group_member.
Qed.

Lemma sync_identity_members r m :
  (∀ eg, eg ∈ iw_eligible r → eg ∉ iw_other r) →
  let h' := m_hot (sync_identity args r m).1 in
  (∀ eg, eg ∈ iw_eligible r → is_Some (rdy_of h' eg !! iw_i r) ↔ is_ready (id_st (synced_hash args r m)) = true) ∧
  (∀ eg, eg ∈ iw_other r → rdy_of h' eg !! iw_i r = None).
Proof.
  intros Hdis h'. destruct (sync_identity_run args r m) as [_ Hh]. fold h' in Hh. rewrite Hh.
  set (run := sync_group args (iw_i r) _ _). set (s := foldl (run (is_ready _)) _ _). split; intros eg Heg.
  - rewrite (gf_rdy _ _ _ _ (sync_groups_frame args (iw_i r) (sync_level (m_hot m) (synced_hash args r m)) (iw_jitter r) false (iw_other r) s))
      by (right; by apply Hdis).
    by apply sync_groups_member.
  - destruct (rdy_of _ eg !! iw_i r) eqn:E; [|done].
    pose proof (sync_groups_member (iw_i r) (sync_level (m_hot m) (synced_hash args r m)) (iw_jitter r) false (iw_other r) s eg Heg) as [Hf _].
    fold run in Hf. rewrite E in Hf. discriminate Hf. eauto.
Qed.

Lemma remove_groups_out j groups h eg :
  eg ∈ groups →
  rdy_of (foldl (λ h eg, on_q (delete (eg, j)) (on_hs (delete (eg, j)) (on_rdy eg (delete j) h))) h groups) eg !! j = None.
Proof.
  set (f := λ h eg, _). assert (∀ gs h0, rdy_of h0 eg !! j = None → rdy_of (foldl f h0 gs) eg !! j = None) as Hkeep.
  { induction gs as [|g gs IH]; intros h0 H0; [done|]. apply IH. subst f. cbn beta.
    change (rdy_of (on_rdy g (delete j) h0) eg !! j = None). rewrite rdy_of_on_rdy. case_decide; [apply lookup_delete_eq|done]. }
  revert h. induction groups as [|g groups IH]; intros h Hin; [by apply not_elem_of_nil in Hin|]. cbn [foldl].
  apply elem_of_cons in Hin as [->|Hin]; [|by apply IH]. apply Hkeep. subst f. cbn beta.
  change (rdy_of (on_rdy g (delete j) h) g !! j = None). by rewrite rdy_of_on_rdy, decide_True, lookup_delete_eq.
Qed.

Lemma remove_identity_out i groups m :
  h_id (m_hot (remove_identity i groups m)) !! i = None ∧
  ∀ eg, eg ∈ groups → rdy_of (m_hot (remove_identity i groups m)) eg !! i = None.
Proof.
  unfold remove_identity. set (m1 := on_hot (on_id _) _). set (m2 := on_hot _ m1).
  assert (h_id (m_hot m2) !! i = None ∧ ∀ eg, eg ∈ groups → rdy_of (m_hot m2) eg !! i = None) as H.
  { split; [|intros eg; apply remove_groups_out]. subst m2. cbn [m_hot on_hot].
    rewrite (proj1 (remove_groups_frame i groups (m_hot m1))). subst m1. apply lookup_delete_eq. }
  clearbody m2. by destruct (_ ≫= id_acc).
Qed.

(** The hash and the memberships of an identity. *)
Definition same_member (i : Z) (m m' : Mat) : Prop :=
  h_id (m_hot m') !! i = h_id (m_hot m) !! i ∧ ∀ eg, rdy_of (m_hot m') eg !! i = rdy_of (m_hot m) eg !! i.

#[export] Instance same_member_preorder i : PreOrder (same_member i).
Proof. split; [by split|]. intros m1 m2 m3 [E1 R1] [E2 R2]. split; [congruence|]. intros eg. by rewrite R2. Qed.

Lemma frame_same_member i m m' : identity_frame i m m' → same_member i m m'.
Proof. intros []. by split. Qed.

Lemma accounts_same_member i accounts m : same_member i m (foldl (sync_account args) m accounts).
Proof.
  revert m. induction accounts as [|a accounts IH]; intros m; [done|]. cbn [foldl]. etrans; [|apply IH].
  destruct (sync_account_same args m a) as (E1 & _ & E2 & _). unfold same_member, rdy_of. by rewrite E1, E2.
Qed.

Lemma sync_identities_other i accounts ops m :
  i ∉ op_id <$> ops → same_member i m (sync_identities args accounts ops m).1.
Proof.
  intros Hi. etrans; [apply (accounts_same_member i accounts)|]. apply frame_same_member.
  by apply (sync_records_frame args i ops (foldl (sync_account args) m accounts, (0%nat, 0%nat, 0%nat))).
Qed.
End membership.

(** ** Plans *)

Record plan_ok (p : groupPlan) : Prop := {
  pn_all : gp_all p = eg_key <$> gp_groups p;
  pn_removal : gp_list p !! gp_removal p = Some {| pf_eligible := []; pf_other := gp_all p |};
  pn_profiles : ∀ client ty idx, gp_profiles p !! (client, ty) = Some idx →
    gp_list p !! idx = Some (profile_of (gp_groups p) client ty);
}.

Lemma newGroupPlan_ok groups : plan_ok (newGroupPlan groups).
Proof. by split. Qed.

(** A plan that grew: the profiles stay at their index. *)
Definition plan_grows (p p' : groupPlan) : Prop :=
  gp_groups p' = gp_groups p ∧ gp_all p' = gp_all p ∧ gp_removal p' = gp_removal p ∧ gp_list p `prefix_of` gp_list p'.

#[export] Instance plan_grows_preorder : PreOrder plan_grows.
Proof.
  unfold plan_grows. split; [intros p; by split_and!|].
  intros p1 p2 p3 (? & ? & ? & ?) (? & ? & ? & ?). split_and!; [congruence..|by etrans].
Qed.

Lemma profileIndex_ok client ty p idx p' :
  profileIndex client ty p = (idx, p') → plan_ok p →
  plan_ok p' ∧ plan_grows p p' ∧ gp_list p' !! idx = Some (profile_of (gp_groups p) client ty).
Proof.
  unfold profileIndex. intros H Hp. destruct (gp_profiles p !! (client, ty)) as [i|] eqn:Hi; simplify_eq.
  - split_and!; [done..|]. by apply (pn_profiles _ Hp).
  - split_and!; cbn; [|unfold plan_grows; by split_and!; [..|apply prefix_app_r]|by rewrite lookup_app_r, Nat.sub_diag by lia].
    destruct Hp as [Ha Hr Hc]. split; cbn; [done|by apply lookup_app_l_Some|].
    intros c t idx. destruct (decide ((client, ty) = (c, t))) as [[= <- <-]|Hne].
    + rewrite lookup_insert_eq. intros [= <-]. by rewrite lookup_app_r, Nat.sub_diag by lia.
    + rewrite lookup_insert_ne by done. intros Hidx. by apply lookup_app_l_Some, Hc.
Qed.

(** The record of a row, in the final plan. *)
Definition record_ok (p : groupPlan) (r : identityRow) (rec : identityRecord) : Prop :=
  ir_row rec = r ∧
  if String.eqb (rw_state r) "retired"
  then ir_remove rec = true ∧ gp_list p !! ir_profile rec = Some {| pf_eligible := []; pf_other := gp_all p |}
  else ir_remove rec = false ∧ gp_list p !! ir_profile rec = Some (profile_of (gp_groups p) (rw_client r) (rw_type_id r)).

Lemma record_ok_grows p p' r rec : plan_grows p p' → record_ok p r rec → record_ok p' r rec.
Proof.
  intros (Hg & Ha & _ & Hpre) [Hr H]. split; [done|]. rewrite Hg, Ha.
  destruct (String.eqb _ _); (split; [apply H|]); by apply (prefix_lookup_Some _ _ _ _ (proj2 H)).
Qed.

Lemma row_records_ok cold jitter n rows p recs p' :
  row_records cold jitter n rows p = (recs, p') → plan_ok p → plan_ok p' ∧ plan_grows p p' ∧ Forall2 (record_ok p') rows recs.
Proof.
  revert n p recs. induction rows as [|r rows IH]; intros n p recs H Hp; cbn [row_records] in H; [by simplify_eq|].
  set (step := if String.eqb _ _ then _ else _) in H. destruct step as [rec p1] eqn:Hstep.
  assert (plan_ok p1 ∧ plan_grows p p1 ∧ record_ok p1 r rec) as (Hp1 & Hg1 & Hrec).
  { subst step. unfold record_ok. destruct (String.eqb (rw_state r) "retired"); [simplify_eq; split_and!; [done..|apply Hp]|].
    destruct (profileIndex _ _ _) as [idx p2] eqn:Hi. simplify_eq. apply profileIndex_ok in Hi as (? & Hg & Hl); [|done].
    split_and!; try done. destruct Hg as (-> & _). done. }
  clear Hstep. clearbody step. destruct (row_records cold jitter (S n) rows p1) as [recs1 p2] eqn:Hrest. simplify_eq.
  apply IH in Hrest as (Hp2 & Hg2 & Hrest); [|done]. split_and!; [done|by etrans|]. constructor; [by eapply record_ok_grows|done].
Qed.

(** ** Calls *)

Lemma split_calls_join p acc ops recs : recs ≠ [] → mjoin (split_calls p acc ops recs) = acc ++ recs.
Proof.
  revert acc ops. induction recs as [|r recs IH]; intros acc ops Hne; [done|]. cbn [split_calls].
  destruct (bool_decide_reflect (recs = [])) as [->|Hne']; cbn [negb andb]; [cbn; by rewrite app_nil_r|].
  destruct (_ && _); [by rewrite IH, <- app_assoc|]. cbn. by rewrite IH, <- app_assoc.
Qed.

(** Every call has between one and [identitiesPerCall] records. *)
Lemma split_calls_bounds p acc ops recs :
  (length acc < identitiesPerCall)%nat →
  Forall (λ call, (0 < length call ≤ identitiesPerCall)%nat) (split_calls p acc ops recs).
Proof.
  revert acc ops. induction recs as [|r recs IH]; intros acc ops Hl; cbn [split_calls]; [done|].
  destruct (negb _ && _ && _) eqn:E.
  - apply IH. apply andb_true_iff in E as [[_ E]%andb_true_iff _]. by apply Nat.ltb_lt in E.
  - constructor; [rewrite length_app; cbn; lia|]. apply IH. cbn. unfold identitiesPerCall. lia.
Qed.

Lemma record_op_id p rec : op_id (record_op p rec) = rw_hkey (ir_row rec).
Proof. unfold record_op. by destruct (ir_remove rec). Qed.

Lemma record_op_ids p (call : list identityRecord) : op_id <$> (record_op p <$> call) = (λ rec, rw_hkey (ir_row rec)) <$> call.
Proof. rewrite <- list_fmap_compose. apply list_fmap_ext. intros ? rec _. apply record_op_id. Qed.

(** ** Placement of the rows *)

(** Where an identity is after its row was synchronised: a retired one is gone;
    another one is in the ready queues of exactly the groups of its client that
    admit its type, when its stored state is active or pending. *)
Definition placed (groups : list EndpointGroup) (r : identityRow) (h : Hot) : Prop :=
  if String.eqb (rw_state r) "retired"
  then h_id h !! rw_hkey r = None ∧ ∀ g, g ∈ groups → rdy_of h (eg_key g) !! rw_hkey r = None
  else ∃ d, h_id h !! rw_hkey r = Some d ∧
    ∀ g, g ∈ groups → eg_client g = rw_client r →
      is_Some (rdy_of h (eg_key g) !! rw_hkey r) ↔ is_ready (id_st d) = true ∧ rw_type_id r ∈ eg_types g.

Lemma placed_same groups r m m' : same_member (rw_hkey r) m m' → placed groups r (m_hot m) → placed groups r (m_hot m').
Proof.
  intros [Hid Hr]. unfold placed. rewrite Hid. destruct (String.eqb _ _).
  - intros [? H]. split; [done|]. intros g Hg. rewrite Hr. auto.
  - intros (d & Hd & H). exists d. split; [done|]. intros g Hg Hc. rewrite Hr. auto.
Qed.

Lemma profile_disjoint groups client ty eg :
  NoDup (eg_key <$> groups) → eg ∈ pf_eligible (profile_of groups client ty) → eg ∉ pf_other (profile_of groups client ty).
Proof.
  intros Hd He Ho. cbn in He, Ho. apply list_elem_of_fmap in He as (g1 & -> & H1), Ho as (g2 & Hk & H2).
  apply list_elem_of_filter in H1 as [T1 [_ G1]%list_elem_of_filter], H2 as [T2 [_ G2]%list_elem_of_filter].
  apply list_elem_of_lookup in G1 as [n1 G1], G2 as [n2 G2].
  assert (n1 = n2) as ->; [|congruence]. eapply (NoDup_lookup (eg_key <$> groups)); [done| |]; rewrite list_lookup_fmap, ?G1, ?G2; cbn; [done|].
  by rewrite Hk.
Qed.

Lemma call_places args sct p call m r rec :
  NoDup (eg_key <$> gp_groups p) → gp_all p = eg_key <$> gp_groups p → record_ok p r rec → rec ∈ call →
  NoDup ((λ rec, rw_hkey (ir_row rec)) <$> call) → placed (gp_groups p) r (m_hot (apply_call args sct p m call)).
Proof.
  intros Hkeys Hall [Hrow Hrec] Hin Hd. unfold apply_call. set (accs := call_accounts sct ∅ call).
  assert (record_op p rec ∈ record_op p <$> call) as Hop by (by apply list_elem_of_fmap_2).
  rewrite <- (record_op_ids p) in Hd. unfold placed. rewrite <- Hrow in Hrec |- *.
  destruct (String.eqb (rw_state (ir_row rec)) "retired").
  - destruct Hrec as [Hrm Hpr].
    assert (record_op p rec = remove_op (rw_hkey (ir_row rec)) (gp_all p)) as Eop by (unfold record_op; by rewrite Hrm, Hpr).
    rewrite Eop in Hop. apply list_elem_of_split in Hop as (pre & post & E). rewrite E in Hd |- *. rewrite fmap_app, fmap_cons in Hd.
    apply NoDup_app in Hd as (_ & _ & [Hpost _]%NoDup_cons). unfold sync_identities. rewrite foldl_app. cbn [foldl].
    destruct (foldl (sync_record args) _ pre) as [m1 [[n1 n2] n3]].
    destruct (frame_same_member _ _ _ (sync_records_frame args (rw_hkey (ir_row rec)) post
      (sync_record args (m1, (n1, n2, n3)) (remove_op (rw_hkey (ir_row rec)) (gp_all p))) Hpost)) as [Fid Fr].
    cbn [sync_record fst] in Fid, Fr |- *. destruct (remove_identity_out (rw_hkey (ir_row rec)) (gp_all p) m1) as [Hid Hr].
    split; [by rewrite Fid|]. intros g Hg. rewrite Fr. apply Hr. rewrite Hall. by apply list_elem_of_fmap_2.
  - destruct Hrec as [Hrm Hpr].
    assert (∃ iw, record_op p rec = sync_op iw ∧ iw_i iw = rw_hkey (ir_row rec) ∧
      iw_eligible iw = pf_eligible (profile_of (gp_groups p) (rw_client (ir_row rec)) (rw_type_id (ir_row rec))) ∧
      iw_other iw = pf_other (profile_of (gp_groups p) (rw_client (ir_row rec)) (rw_type_id (ir_row rec))))
      as (iw & Eop & Ei & Ee & Eo) by (unfold record_op; rewrite Hrm, Hpr; by eexists).
    rewrite Eop in Hop. destruct (sync_identities_record args accs _ m iw Hop Hd) as (m1 & _ & F).
    destruct (frame_same_member _ _ _ F) as [Fid Fr]. rewrite Ei in Fid, Fr.
    destruct (sync_identity_hash args iw m1) as (Hid & _ & _).
    destruct (sync_identity_members args iw m1) as [He Ho]; [intros eg; rewrite Ee, Eo; by apply profile_disjoint|].
    rewrite Ei in *. rewrite Ee in He. rewrite Eo in Ho.
    exists (synced_hash args iw m1). split; [by rewrite Fid|]. intros g Hg Hc. rewrite Fr.
    assert (g ∈ filter (λ g, eg_client g = rw_client (ir_row rec)) (gp_groups p)) as Hown by (by apply list_elem_of_filter).
    destruct (decide (rw_type_id (ir_row rec) ∈ eg_types g)) as [Ht|Ht].
    + rewrite (He (eg_key g)); [tauto|]. cbn. apply list_elem_of_fmap_2, list_elem_of_filter. done.
    + rewrite Ho; [|cbn; apply list_elem_of_fmap_2, list_elem_of_filter; done]. split; [by intros []|tauto].
Qed.

Lemma calls_other args sct p calls m i :
  i ∉ (λ rec, rw_hkey (ir_row rec)) <$> mjoin calls → same_member i m (foldl (apply_call args sct p) m calls).
Proof.
  revert m. induction calls as [|call calls IH]; intros m Hi; [done|]. cbn in Hi. rewrite fmap_app, not_elem_of_app in Hi.
  cbn [foldl]. destruct Hi as [H1 H2]. transitivity (apply_call args sct p m call); [|by apply IH].
  apply sync_identities_other. by rewrite record_op_ids.
Qed.

Lemma calls_place args sct p calls m r rec :
  NoDup (eg_key <$> gp_groups p) → gp_all p = eg_key <$> gp_groups p → record_ok p r rec → rec ∈ mjoin calls →
  NoDup ((λ rec, rw_hkey (ir_row rec)) <$> mjoin calls) → placed (gp_groups p) r (m_hot (foldl (apply_call args sct p) m calls)).
Proof.
  intros Hkeys Hall Hrec. revert m. induction calls as [|call calls IH]; intros m Hin Hd; [by apply not_elem_of_nil in Hin|].
  cbn in Hin, Hd. rewrite fmap_app in Hd. apply NoDup_app in Hd as (Hd1 & Hdis & Hd2). cbn [foldl].
  apply elem_of_app in Hin as [Hin|Hin]; [|by apply IH].
  eapply placed_same; [apply calls_other|by eapply call_places].
  rewrite <- (proj1 Hrec). apply Hdis. by apply (list_elem_of_fmap_2 (λ rec, rw_hkey (ir_row rec))).
Qed.

(** C32: synchronising rows of a site, over any number of script calls, places
    every identity: a retired one leaves the hot state and every ready queue, and
    any other one is in the ready queue of a group of its client exactly when
    its stored state is active or pending and the group admits its type. *)
Theorem applyIdentityRows_places args sct jitter groups rows m r :
  NoDup (eg_key <$> groups) → NoDup (rw_hkey <$> rows) → r ∈ rows →
  placed groups r (m_hot (applyIdentityRows args sct jitter groups rows m)).
Proof.
  intros Hkeys Hrows Hin. unfold applyIdentityRows. destruct (row_records _ _ _ _ _) as [recs p] eqn:Hrec.
  apply row_records_ok in Hrec as (Hp & Hg & Hrecs); [|apply newGroupPlan_ok]. destruct Hg as (Hg & _). cbn in Hg.
  apply list_elem_of_lookup in Hin as [n Hn]. destruct (Forall2_lookup_l _ _ _ _ _ Hrecs Hn) as (rec & Hrn & Hok).
  assert (rw_hkey <$> rows = (λ rec, rw_hkey (ir_row rec)) <$> recs) as Hk.
  { clear -Hrecs. induction Hrecs as [|r rec rows recs [<- _] _ IH]; [done|]. cbn. by rewrite IH. }
  assert (recs ≠ []) as Hne by (by intros ->).
  pose proof (SortFunc_perm key_compare groups) as Hperm. rewrite <- Hg in Hperm.
  assert (placed (gp_groups p) r (m_hot (applyIdentities args sct p recs m))) as H.
  { unfold applyIdentities. apply (calls_place _ _ _ _ _ _ rec); [by rewrite Hperm|apply Hp|done| |];
      rewrite (split_calls_join _ [] _ _ Hne); cbn [app]; [by eapply list_elem_of_lookup_2|by rewrite <- Hk]. }
  revert H. unfold placed. destruct (String.eqb _ _).
  - intros [? H]. split; [done|]. intros g Hg'. apply H. by rewrite Hperm.
  - intros (d & Hd & H). exists d. split; [done|]. intros g Hg'. apply H. by rewrite Hperm.
Qed.

Definition demo_pg_row (hkey : Z) (state : string) : identityRow :=
  {| rw_id := "id"; rw_hkey := hkey; rw_client := "web"; rw_type_id := "ty-1"; rw_type_name := "guest"; rw_type_version := 1;
     rw_state := state; rw_ban_until := None; rw_quarantine_until := None; rw_region := ""; rw_payload_version := 1;
     rw_activated_at := None; rw_account := Some 7; rw_account_state := None; rw_account_ban_until := None;
     rw_account_cooldown_until := None; rw_proxy := None; rw_state_changed_at := 100 |}.

Lemma applyIdentityRows_places_witness :
  placed [{| eg_key := 1; eg_client := "web"; eg_types := ["ty-1"] |}] (demo_pg_row 10 "active")
    (m_hot (applyIdentityRows (demo_sync 1000) ∅ (λ _, 0) [{| eg_key := 1; eg_client := "web"; eg_types := ["ty-1"] |}]
       [demo_pg_row 11 "retired"; demo_pg_row 10 "active"] (no_mat demo_site))).
Proof.
  apply applyIdentityRows_places.
  - apply NoDup_singleton.
  - apply (bool_decide_unpack _). vm_compute. exact I.
  - apply list_elem_of_further, list_elem_of_here.
Defined.
