(* ===== verification/ActionApply.v ===== *)
(** * apply.lua: dispositions and lifecycle changes

    internal/action/lua/apply.lua applies cooldowns, bans, expiries, quarantines,
    activations, manual state changes, reverts and resets to the hot state of a
    site.  This file holds the script over decoded operations, and what it keeps:
    the leases, the severity order of automatic changes, newer states and the
    results of a call that is retried. *)

From S2P Require Import Prelude GoStrings GoFloat PolicyBase GoTime LuaCommon PolicyRotation PolicyResolve Breaker.
From S2P Require Import SchedState SchedSelect SchedAcquire SchedLease SchedLedger SchedRefine SchedGrant SchedLoop SchedRun Scheduler HotSync.

Local Open Scope Z_scope.

(** ** Operations and results (applier.go) *)

(** [luaOp]; the JSON encoding omits zero values, which the script reads as 0,
    "" or the default it names. *)
Record luaOp := {
  Op : string; OpScope : string; OpSubject : Z; OpGroup : Z; Until : Z; Flags : Z; Groups : list Z; Add : list Z;
  To : string; Trim : Z; PrevFail : Z; Baseline : float64; Baselines : gmap Z float64; Counters : list string;
  Global : Z;
}.

Record memberChange := { mc_Key : Z; mc_ID : string; mc_From : string; mc_To : string }.
Record luaResult := {
  Applied : bool; Reason : string; r_From : string; r_To : string; r_Until : Z; Members : list memberChange;
}.

Definition F_AUTO : Z := 1.
Definition F_FORCE : Z := 2.
Definition F_RESET_FAIL : Z := 4.
Definition F_RESET_HEALTH : Z := 8.
Definition F_BANS : Z := 16.
Definition BAN_HISTORY_MS : Z := 2592000000.
Definition SITE_CD_TRIM_MS : Z := 600000.
Definition DEFAULT_BASELINE : float64 := f_of_Z 70.

Definition ap_has (flags bit : Z) : bool := (flags / bit) mod 2 =? 1.
Definition ap_result (applied : bool) (reason from to : string) (u : Z) (members : list memberChange) : luaResult :=
  {| Applied := applied; Reason := reason; r_From := from; r_To := to; r_Until := u; Members := members |}.
Definition skipped (reason st : string) (u : Z) : luaResult := ap_result false reason st st u [].
Definition applied (from to : string) (u : Z) : luaResult := ap_result true "" from to u [].

(** ** State *)

(** What observe.lua alone keeps: the last stream id per shard "ckpt", the breaker
    windows "win:<eg>:<bucket>" and the identities counted in
    "winh:<eg>:<bucket>". *)
Record Win := { w_t : Z; w_s : Z; w_r : Z }.
Record Obs := {
  ob_ckpt : gmap Z (Z * Z);
  ob_win : gmap (Z * Z) Win;
  ob_winh : gmap (Z * Z) (gset Z);
}.

(** The hot state with the other keys of a site: the site cooldowns "rcds", the
    counters "cnt:...", the dirty marks "p<p>" and the recorded results
    "axr:<token>". *)
Record Site := {
  s_mat : Mat;
  s_rcds : zset (Z * Z);
  s_cnt : gmap string (gmap Z Z);
  s_pdirty : gset Z;
  s_axr : gmap string (list luaResult);
  s_obs : Obs;
}.

Definition on_mat (f : Mat → Mat) (s : Site) : Site :=
  {| s_mat := f (s_mat s); s_rcds := s_rcds s; s_cnt := s_cnt s; s_pdirty := s_pdirty s; s_axr := s_axr s;
     s_obs := s_obs s |}.
Definition on_rcds (f : zset (Z * Z) → zset (Z * Z)) (s : Site) : Site :=
  {| s_mat := s_mat s; s_rcds := f (s_rcds s); s_cnt := s_cnt s; s_pdirty := s_pdirty s; s_axr := s_axr s;
     s_obs := s_obs s |}.
Definition on_cnt (f : gmap string (gmap Z Z) → gmap string (gmap Z Z)) (s : Site) : Site :=
  {| s_mat := s_mat s; s_rcds := s_rcds s; s_cnt := f (s_cnt s); s_pdirty := s_pdirty s; s_axr := s_axr s;
     s_obs := s_obs s |}.
Definition dirty_px (p : Z) (s : Site) : Site :=
  {| s_mat := s_mat s; s_rcds := s_rcds s; s_cnt := s_cnt s; s_pdirty := {[p]} ∪ s_pdirty s; s_axr := s_axr s;
     s_obs := s_obs s |}.
Definition record_axr (token : string) (out : list luaResult) (s : Site) : Site :=
  {| s_mat := s_mat s; s_rcds := s_rcds s; s_cnt := s_cnt s; s_pdirty := s_pdirty s;
     s_axr := <[token := out]> (s_axr s); s_obs := s_obs s |}.
Definition on_obs (f : Obs → Obs) (s : Site) : Site :=
  {| s_mat := s_mat s; s_rcds := s_rcds s; s_cnt := s_cnt s; s_pdirty := s_pdirty s; s_axr := s_axr s;
     s_obs := f (s_obs s) |}.
Definition site_hot (s : Site) : Hot := m_hot (s_mat s).
Definition no_site : Site :=
  {| s_mat := no_mat no_hot; s_rcds := ∅; s_cnt := ∅; s_pdirty := ∅; s_axr := ∅;
     s_obs := {| ob_ckpt := ∅; ob_win := ∅; ob_winh := ∅ |} |}.

Definition with_st (st : string) (d : Identity) : Identity :=
  {| id_st := st; id_al := id_al d; id_xl := id_xl d; id_scd := id_scd d; id_sru := id_sru d; id_acc := id_acc d;
     id_iid := id_iid d; id_ty := id_ty d; id_pv := id_pv d; id_tv := id_tv d; id_act := id_act d;
     id_px := id_px d; id_rbd := id_rbd d; id_rbn := id_rbn d; id_rg := id_rg d; id_lu := id_lu d;
     id_xg := id_xg d |}.
Definition with_act (act : Z) (d : Identity) : Identity :=
  {| id_st := id_st d; id_al := id_al d; id_xl := id_xl d; id_scd := id_scd d; id_sru := id_sru d; id_acc := id_acc d;
     id_iid := id_iid d; id_ty := id_ty d; id_pv := id_pv d; id_tv := id_tv d; id_act := act;
     id_px := id_px d; id_rbd := id_rbd d; id_rbn := id_rbn d; id_rg := id_rg d; id_lu := id_lu d;
     id_xg := id_xg d |}.
Definition with_scd (scd : Z) (d : Identity) : Identity :=
  {| id_st := id_st d; id_al := id_al d; id_xl := id_xl d; id_scd := scd; id_sru := id_sru d; id_acc := id_acc d;
     id_iid := id_iid d; id_ty := id_ty d; id_pv := id_pv d; id_tv := id_tv d; id_act := id_act d;
     id_px := id_px d; id_rbd := id_rbd d; id_rbn := id_rbn d; id_rg := id_rg d; id_lu := id_lu d;
     id_xg := id_xg d |}.
Definition with_px_state (st : string) (cd gcd : Z) (d : Proxy) : Proxy :=
  {| px_st := st; px_kd := px_kd d; px_rg := px_rg d; px_pv := px_pv d; px_tg := px_tg d; px_mc := px_mc d;
     px_al := px_al d; px_sc := px_sc d; px_sts := px_sts d; px_cd := cd; px_gcd := gcd; px_pid := px_pid d |}.
Definition with_hs_cd (cd : Z) (t : Hs) : Hs :=
  {| hs_score := hs_score t; hs_sts := hs_sts t; hs_samples := hs_samples t; hs_nfail := hs_nfail t;
     hs_lastfail := hs_lastfail t; hs_cd := cd; hs_ru := hs_ru t; hs_lu := hs_lu t |}.

(** Commands on the keys of an identity. *)
Definition hset_life (i : Z) (st : string) (bu qu now : Z) (m : Mat) : Mat :=
  on_idlife (<[i := {| lf_bu := bu; lf_qu := qu; lf_sct := Some now |}]>) (on_hot (on_id (alter (with_st st) i)) m).
Definition trimmed_zadd {K} `{Countable K} (k : K) (now keep : Z) (z : zset K) : zset K :=
  filter (λ kv, now - keep ≤ kv.2) (<[k := now]> z).

(** ** Helpers of common.lua *)

Definition sp_push_all (egs : list Z) (i score : Z) (h : Hot) : Hot :=
  foldl (λ h eg, on_rdy eg (zadd_xx_gt i score) h) h egs.
Definition sp_rescore (i : Z) (h : Hot) (eg : Z) : Hot := on_rdy eg (zadd_xx i (sp_avail h eg i)) h.

(** ** Helpers of the script *)

Record ApId := {
  ai_st : string; ai_bu : Z; ai_qu : Z; ai_scd : Z; ai_iid : string; ai_sct : Z; ai_sru : Z; ai_al : Z; ai_xl : Z;
  ai_acc : option Z;
}.
Definition ap_id_get (m : Mat) (i : Z) : option ApId :=
  d ← h_id (m_hot m) !! i;
  let life := m_idlife m !! i in
  Some {| ai_st := id_st d; ai_bu := from_option lf_bu 0 life; ai_qu := from_option lf_qu 0 life; ai_scd := id_scd d;
          ai_iid := id_iid d; ai_sct := default 0 (life ≫= lf_sct); ai_sru := id_sru d; ai_al := id_al d;
          ai_xl := id_xl d; ai_acc := id_acc d |}.

Definition ap_avail (h : Hot) (id : ApId) (cd ru : Z) : Z :=
  let m := Z.max (Z.max (Z.max cd ru) (ai_scd id)) (ai_sru id) in
  let m := if ai_al id >? 0 then Z.max m (ai_xl id) else m in
  match ai_acc id with Some a => Z.max m (from_option ac_cd 0 (h_acc h !! a)) | None => m end.

Definition ap_baseline (op : luaOp) (eg : Z) : float64 :=
  match Baselines op !! eg with
  | Some b => b
  | None => match Baseline op with S754_zero _ => DEFAULT_BASELINE | b => b end
  end.

Definition ap_zrem_all (egs : list Z) (i : Z) (h : Hot) : Hot := foldl (λ h eg, on_rdy eg (delete i) h) h egs.

Section script.
Variable now : Z.

(** The packed entry after a reset of the failures or of the health. *)
Definition reset_fields (op : luaOp) (eg : Z) (fails health : bool) (t : Hs) : Hs :=
  {| hs_score := if health then ap_baseline op eg else hs_score t;
     hs_sts := if health then now else hs_sts t;
     hs_samples := if health then 0 else hs_samples t;
     hs_nfail := if fails then 0 else hs_nfail t;
     hs_lastfail := if fails then 0 else hs_lastfail t;
     hs_cd := hs_cd t; hs_ru := hs_ru t; hs_lu := hs_lu t |}.

Definition ap_reset_hs (op : luaOp) (i : Z) (fails health : bool) (h : Hot) (eg : Z) : Hot :=
  match h_hs h !! (eg, i) with
  | None => h
  | Some t =>
      mark_dirty {[(Some eg, i)]} (on_hs (<[(eg, i) := sp_hs_pack (reset_fields op eg fails health t)]>) h)
  end.

Definition ap_reset_identity (op : luaOp) (egs : list Z) (i : Z) (fails health : bool) (m : Mat) : Mat :=
  if negb fails && negb health then m
  else
    let m := on_hot (λ h, foldl (ap_reset_hs op i fails health) h egs) m in
    let m := if fails then on_stat (on_streak (delete i)) m else m in
    if health then on_hot (mark_dirty {[(None, i)]}) (on_stat (on_score (delete i)) m) else m.

Definition ap_record_ban (i : Z) (m : Mat) : Mat :=
  on_bans (λ b, <[i := trimmed_zadd now now BAN_HISTORY_MS (default ∅ (b !! i))]> b) m.

(** Whether a ban until [bu] is in force that a ban until [u] would not extend. *)
Definition ban_covers (bu u : Z) : bool := (bu =? -1) || (negb (u =? -1) && (bu >=? u)).

(** Whether it was banned, the reason if not, and the state before. *)
Definition ap_ban_identity (op : luaOp) (i u : Z) (m : Mat) : bool * string * string * Mat :=
  match ap_id_get m i with
  | None => (false, "missing", "", m)
  | Some id =>
      if negb (ap_has (Flags op) F_FORCE) && string_in (ai_st id) ["retired"; "disabled"]
      then (false, "not_applicable", ai_st id, m)
      else if negb (ap_has (Flags op) F_FORCE) && String.eqb (ai_st id) "banned" && ban_covers (ai_bu id) u
      then (false, "already_banned", ai_st id, m)
      else
        let m := on_hot (ap_zrem_all (Groups op) i) (hset_life i "banned" u 0 now m) in
        (true, "", ai_st id, if ap_has (Flags op) F_BANS then ap_record_ban i m else m)
  end.

(** ** Cooldowns *)

(** "rcd:<eg>" entry of an automatic cooldown: the identity with its previous
    cooldown and failure streak. *)
Definition record_cooldown (op : luaOp) (eg i prev_cd prev_nfail : Z) (m : Mat) : Mat :=
  let trim := if Trim op =? 0 then SITE_CD_TRIM_MS else Trim op in
  on_rcd (λ r, <[eg := trimmed_zadd (i, prev_cd, prev_nfail) now trim (default ∅ (r !! eg))]> r) m.

Definition cooldown_endpoint (op : luaOp) (id : ApId) (s : Site) : luaResult * Site :=
  let i := OpSubject op in
  let eg := OpGroup op in
  let u := Until op in
  let t := default (sp_hs_pack (hs_default (ap_baseline op eg) now)) (h_hs (site_hot s) !! (eg, i)) in
  if (hs_cd t >=? u) && negb (ap_has (Flags op) F_FORCE) then (skipped "already_cooling" (ai_st id) (hs_cd t), s)
  else
    let prev_nfail := Z.max (hs_nfail t - PrevFail op) 0 in
    let m := on_hot (on_hs (<[(eg, i) := with_hs_cd u t]>)) (s_mat s) in
    let m := if ap_has (Flags op) F_AUTO then record_cooldown op eg i (hs_cd t) prev_nfail m else m in
    let m := on_hot (λ h, on_rdy eg (zadd_xx i (ap_avail h id u (hs_ru t))) h) m in
    (applied (ai_st id) (ai_st id) u, on_mat (λ _, on_hot (mark_dirty {[(Some eg, i)]}) m) s).

Definition cooldown_site (op : luaOp) (id : ApId) (s : Site) : luaResult * Site :=
  let i := OpSubject op in
  let u := Until op in
  if (ai_scd id >=? u) && negb (ap_has (Flags op) F_FORCE) then (skipped "already_cooling" (ai_st id) (ai_scd id), s)
  else
    let s := on_mat (on_hot (on_id (alter (with_scd u) i))) s in
    let s := if ap_has (Flags op) F_AUTO then on_rcds (trimmed_zadd (i, ai_scd id) now SITE_CD_TRIM_MS) s else s in
    (applied (ai_st id) (ai_st id) u,
     on_mat (on_hot (λ h, mark_dirty {[(None, i)]} (sp_push_all (Groups op) i u h))) s).

(** SMEMBERS of "accm:<a>". *)
Definition members_of (a : Z) (m : Mat) : list Z := elements (default ∅ (m_accm m !! a)).

Definition cooldown_account (op : luaOp) (s : Site) : luaResult * Site :=
  let a := OpSubject op in
  let u := Until op in
  match h_acc (site_hot s) !! a with
  | None => (skipped "missing" "" 0, s)
  | Some c =>
      if (ac_cd c >=? u) && negb (ap_has (Flags op) F_FORCE) then (skipped "already_cooling" (ac_st c) (ac_cd c), s)
      else
        let m := on_hot (on_acc (<[a := {| ac_st := ac_st c; ac_bu := ac_bu c; ac_cd := u |}]>)) (s_mat s) in
        let m := on_hot (λ h, foldl (λ h i, sp_push_all (Groups op) i u h) h (members_of a m)) m in
        (applied (ac_st c) (ac_st c) u, on_mat (λ _, m) s)
  end.

Definition cooldown_proxy (op : luaOp) (s : Site) : luaResult * Site :=
  let p := OpSubject op in
  let u := Until op in
  match h_px (site_hot s) !! p with
  | None => (skipped "missing" "" 0, s)
  | Some d =>
      let site_scope := String.eqb (OpScope op) "ps" in
      let prev := if site_scope then px_cd d else px_gcd d in
      if (prev >=? u) && negb (ap_has (Flags op) F_FORCE) then (skipped "already_cooling" (px_st d) prev, s)
      else
        let d' := if site_scope then with_px_state (px_st d) u (px_gcd d) d else with_px_state (px_st d) (px_cd d) u d in
        let s := on_mat (on_hot (λ h, on_pxrdy (zadd_xx_gt p u) (on_px (<[p := d']>) h))) s in
        (applied (px_st d) (px_st d) u, dirty_px p s)
  end.

Definition ap_cooldown (op : luaOp) (s : Site) : luaResult * Site :=
  if Until op <=? 0 then (skipped "invalid" "" 0, s)
  else if string_in (OpScope op) ["ie"; "is"] then
    match ap_id_get (s_mat s) (OpSubject op) with
    | None => (skipped "missing" "" 0, s)
    | Some id => if String.eqb (OpScope op) "ie" then cooldown_endpoint op id s else cooldown_site op id s
    end
  else if String.eqb (OpScope op) "ac" then cooldown_account op s
  else if string_in (OpScope op) ["ps"; "pg"] then cooldown_proxy op s
  else (skipped "invalid" "" 0, s).

(** ** Bans *)

Definition ban_member (op : luaOp) (acc : Mat * list memberChange) (i : Z) : Mat * list memberChange :=
  let '(m, members) := acc in
  let iid := from_option id_iid "" (h_id (m_hot m) !! i) in
  let '(ok, _, from, m) := ap_ban_identity op i (Until op) m in
  (m, if ok then members ++ [{| mc_Key := i; mc_ID := iid; mc_From := from; mc_To := "banned" |}] else members).

Definition ban_account (op : luaOp) (s : Site) : luaResult * Site :=
  let a := OpSubject op in
  let u := Until op in
  let force := ap_has (Flags op) F_FORCE in
  match h_acc (site_hot s) !! a with
  | None => (skipped "missing" "" 0, s)
  | Some c =>
      if negb force && String.eqb (ac_st c) "disabled" then (skipped "not_applicable" (ac_st c) 0, s)
      else if negb force && String.eqb (ac_st c) "banned" && ban_covers (ac_bu c) u
      then (skipped "already_banned" (ac_st c) (ac_bu c), s)
      else
        let m := on_accsct (<[a := now]>)
          (on_hot (on_acc (<[a := {| ac_st := "banned"; ac_bu := u; ac_cd := ac_cd c |}]>)) (s_mat s)) in
        let '(m, members) := foldl (ban_member op) (m, []) (members_of a m) in
        (ap_result true "" (ac_st c) "banned" u members, on_mat (λ _, m) s)
  end.

(** HSET of "st", "sct" and the end of a ban or quarantine of a proxy; ZREM from "pxrdy". *)
Definition block_proxy (p : Z) (st : string) (life : Life) (d : Proxy) (m : Mat) : Mat :=
  on_pxlife (<[p := life]>)
    (on_hot (λ h, on_pxrdy (delete p) (on_px (<[p := with_px_state st (px_cd d) (px_gcd d) d]>) h)) m).

Definition ban_proxy (op : luaOp) (s : Site) : luaResult * Site :=
  let p := OpSubject op in
  let u := Until op in
  let force := ap_has (Flags op) F_FORCE in
  match h_px (site_hot s) !! p with
  | None => (skipped "missing" "" 0, s)
  | Some d =>
      let life := m_pxlife (s_mat s) !! p in
      let bu := from_option lf_bu 0 life in
      if negb force && string_in (px_st d) ["retired"; "disabled"] then (skipped "not_applicable" (px_st d) 0, s)
      else if negb force && String.eqb (px_st d) "banned" && ((bu =? -1) || (negb (u =? -1) && ((bu =? 0) || (bu >=? u))))
      then (skipped "already_banned" (px_st d) bu, s)
      else
        let life' := {| lf_bu := u; lf_qu := from_option lf_qu 0 life; lf_sct := Some now |} in
        (applied (px_st d) "banned" u, on_mat (block_proxy p "banned" life' d) s)
  end.

Definition ap_ban (op : luaOp) (s : Site) : luaResult * Site :=
  if Until op =? 0 then (skipped "invalid" "" 0, s)
  else if String.eqb (OpScope op) "id" then
    let '(ok, reason, from, m) := ap_ban_identity op (OpSubject op) (Until op) (s_mat s) in
    if ok then (applied from "banned" (Until op), on_mat (λ _, m) s) else (skipped reason from 0, s)
  else if String.eqb (OpScope op) "ac" then ban_account op s
  else if String.eqb (OpScope op) "px" then ban_proxy op s
  else (skipped "invalid" "" 0, s).

(** ** Expiry and quarantine *)

Definition ap_expire (op : luaOp) (s : Site) : luaResult * Site :=
  let i := OpSubject op in
  let force := ap_has (Flags op) F_FORCE in
  match ap_id_get (s_mat s) i with
  | None => (skipped "missing" "" 0, s)
  | Some id =>
      if negb force && String.eqb (ai_st id) "banned" then (skipped "more_severe" (ai_st id) 0, s)
      else if negb force && String.eqb (ai_st id) "expired" then (skipped "already_expired" (ai_st id) 0, s)
      else if negb force && string_in (ai_st id) ["retired"; "disabled"] then (skipped "not_applicable" (ai_st id) 0, s)
      else (applied (ai_st id) "expired" 0,
            on_mat (λ m, on_hot (ap_zrem_all (Groups op) i) (hset_life i "expired" 0 0 now m)) s)
  end.

Definition quarantine_identity (op : luaOp) (s : Site) : luaResult * Site :=
  let i := OpSubject op in
  let u := Until op in
  let force := ap_has (Flags op) F_FORCE in
  match ap_id_get (s_mat s) i with
  | None => (skipped "missing" "" 0, s)
  | Some id =>
      if negb force && string_in (ai_st id) ["banned"; "expired"] then (skipped "more_severe" (ai_st id) 0, s)
      else if negb force && string_in (ai_st id) ["retired"; "disabled"] then (skipped "not_applicable" (ai_st id) 0, s)
      else if negb force && String.eqb (ai_st id) "quarantined" && (ai_qu id >=? u)
      then (skipped "already_quarantined" (ai_st id) (ai_qu id), s)
      else (applied (ai_st id) "quarantined" u,
            on_mat (λ m, on_hot (ap_zrem_all (Groups op) i) (hset_life i "quarantined" 0 u now m)) s)
  end.

Definition quarantine_proxy (op : luaOp) (s : Site) : luaResult * Site :=
  let p := OpSubject op in
  let u := Until op in
  let force := ap_has (Flags op) F_FORCE in
  match h_px (site_hot s) !! p with
  | None => (skipped "missing" "" 0, s)
  | Some d =>
      let life := m_pxlife (s_mat s) !! p in
      let qu := from_option lf_qu 0 life in
      if negb force && String.eqb (px_st d) "banned" then (skipped "more_severe" (px_st d) 0, s)
      else if negb force && string_in (px_st d) ["retired"; "disabled"] then (skipped "not_applicable" (px_st d) 0, s)
      else if negb force && String.eqb (px_st d) "quarantined" && (qu >=? u)
      then (skipped "already_quarantined" (px_st d) qu, s)
      else
        let life' := {| lf_bu := from_option lf_bu 0 life; lf_qu := u; lf_sct := Some now |} in
        (applied (px_st d) "quarantined" u, on_mat (block_proxy p "quarantined" life' d) s)
  end.

Definition ap_quarantine (op : luaOp) (s : Site) : luaResult * Site :=
  if Until op <=? 0 then (skipped "invalid" "" 0, s)
  else if String.eqb (OpScope op) "id" then quarantine_identity op s
  else if String.eqb (OpScope op) "px" then quarantine_proxy op s
  else (skipped "invalid" "" 0, s).

(** ** Activation *)

Definition ap_activate (op : luaOp) (s : Site) : luaResult * Site :=
  let i := OpSubject op in
  match ap_id_get (s_mat s) i with
  | None => (skipped "missing" "" 0, s)
  | Some id =>
      if negb (String.eqb (ai_st id) "pending") then (skipped "not_pending" (ai_st id) 0, s)
      else
        let m := on_hot (on_id (alter (with_act now) i)) (hset_life i "active" (ai_bu id) (ai_qu id) now (s_mat s)) in
        (applied "pending" "active" 0, on_mat (λ _, on_hot (λ h, foldl (sp_rescore i) h (Groups op)) m) s)
  end.

(** ** Manual states *)

Definition STATE_LIST : string := ",pending,active,expired,banned,quarantined,disabled,retired,".

(** [string.find] of a plain text. *)
Fixpoint string_find (s sub : bytes) : bool :=
  has_prefix s sub || match s with [] => false | _ :: s' => string_find s' sub end.

Definition listed_state (to : string) : bool :=
  negb (String.eqb to "") && string_find (bs STATE_LIST) (bs (String.append "," (String.append to ","))).

Definition set_account (op : luaOp) (s : Site) : luaResult * Site :=
  let a := OpSubject op in
  let to := To op in
  match h_acc (site_hot s) !! a with
  | None => (skipped "missing" "" 0, s)
  | Some c =>
      if negb (string_in to ["active"; "banned"; "disabled"]) then (skipped "invalid" (ac_st c) 0, s)
      else if default 0 (m_accsct (s_mat s) !! a) >? now then (skipped "newer_state" (ac_st c) 0, s)
      else
        let u := if String.eqb to "banned" then Until op else 0 in
        (applied (ac_st c) to u,
         on_mat (λ m, on_accsct (<[a := now]>)
           (on_hot (on_acc (<[a := {| ac_st := to; ac_bu := u; ac_cd := ac_cd c |}]>)) m)) s)
  end.

(** The ready queues of an identity that becomes schedulable. *)
Definition add_ready (i : Z) (h : Hot) (eg : Z) : Hot := on_rdy eg (<[i := sp_avail h eg i]>) h.
Definition place_identity (op : luaOp) (i : Z) (h : Hot) : Hot :=
  if string_in (To op) ["active"; "pending"] then
    let h := foldl (add_ready i) h (Add op) in
    ap_zrem_all (filter (λ eg, eg ∉ Add op) (Groups op)) i h
  else ap_zrem_all (Groups op) i h.

Definition ap_set (op : luaOp) (s : Site) : luaResult * Site :=
  let i := OpSubject op in
  let to := To op in
  if String.eqb (OpScope op) "ac" then set_account op s
  else if negb (listed_state to) then (skipped "invalid" "" 0, s)
  else match ap_id_get (s_mat s) i with
  | None => (skipped "missing" "" 0, s)
  | Some id =>
      if ai_sct id >? now then (skipped "newer_state" (ai_st id) 0, s)
      else
        let bu := if String.eqb to "banned" then Until op else 0 in
        let qu := if String.eqb to "quarantined" then Until op else 0 in
        let m := hset_life i to bu qu now (s_mat s) in
        let m := if String.eqb to "active" && negb (String.eqb (ai_st id) "active")
                 then on_hot (on_id (alter (with_act now) i)) m else m in
        let m := ap_reset_identity op (Groups op) i (ap_has (Flags op) F_RESET_FAIL) (ap_has (Flags op) F_RESET_HEALTH) m in
        let m := on_hot (place_identity op i) m in
        let m := if String.eqb to "banned" && ap_has (Flags op) F_BANS then ap_record_ban i m else m in
        (applied (ai_st id) to (if String.eqb to "quarantined" then qu else bu), on_mat (λ _, m) s)
  end.

(** ** Reverted cooldowns and reset statistics *)

Definition clear_endpoint (op : luaOp) (id : ApId) (fails health : bool) (s : Site) : luaResult * Site :=
  let i := OpSubject op in
  let eg := OpGroup op in
  let limit := Until op in
  let t := sp_hs_unpack (h_hs (site_hot s) !! (eg, i)) (ap_baseline op eg) now in
  if (hs_cd t <=? now) || ((limit >? 0) && (hs_cd t >? limit)) then (skipped "not_cooling" (ai_st id) (hs_cd t), s)
  else
    let t' := sp_hs_pack (reset_fields op eg fails health (with_hs_cd 0 t)) in
    (applied (ai_st id) (ai_st id) (hs_cd t),
     on_mat (on_hot (λ h, mark_dirty {[(Some eg, i)]}
       (on_rdy eg (zadd_xx i (ap_avail h id 0 (hs_ru t))) (on_hs (<[(eg, i) := t']>) h)))) s).

Definition clear_site (op : luaOp) (id : ApId) (fails health : bool) (s : Site) : luaResult * Site :=
  let i := OpSubject op in
  let limit := Until op in
  if (ai_scd id <=? now) || ((limit >? 0) && (ai_scd id >? limit)) then (skipped "not_cooling" (ai_st id) (ai_scd id), s)
  else
    let m := ap_reset_identity op (Groups op) i fails health (on_hot (on_id (alter (with_scd 0) i)) (s_mat s)) in
    (applied (ai_st id) (ai_st id) (ai_scd id),
     on_mat (λ _, on_hot (λ h, mark_dirty {[(None, i)]} (foldl (sp_rescore i) h (Groups op))) m) s).

Definition ap_clear (op : luaOp) (s : Site) : luaResult * Site :=
  match ap_id_get (s_mat s) (OpSubject op) with
  | None => (skipped "missing" "" 0, s)
  | Some id =>
      let fails := ap_has (Flags op) F_RESET_FAIL in
      let health := ap_has (Flags op) F_RESET_HEALTH in
      if String.eqb (OpScope op) "ie" then clear_endpoint op id fails health s
      else if String.eqb (OpScope op) "is" then clear_site op id fails health s
      else (skipped "invalid" (ai_st id) 0, s)
  end.

Definition ap_reset_stats (op : luaOp) (s : Site) : luaResult * Site :=
  let i := OpSubject op in
  match ap_id_get (s_mat s) i with
  | None => (skipped "missing" "" 0, s)
  | Some id =>
      let s := on_mat (on_hot (λ h, foldl (ap_reset_hs op i true true) h (Groups op))) s in
      let s := if Global op =? 1
               then on_cnt (λ c, foldr delete c (Counters op)) (on_mat (λ m, on_hot (mark_dirty {[(None, i)]})
                      (on_stat (λ t, on_score (delete i) (on_streak (delete i) t)) m)) s)
               else s in
      (applied (ai_st id) (ai_st id) 0, s)
  end.

(** ** The script *)

Definition ap_operation (op : luaOp) (s : Site) : luaResult * Site :=
  if String.eqb (Op op) "cd" then ap_cooldown op s
  else if String.eqb (Op op) "ban" then ap_ban op s
  else if String.eqb (Op op) "exp" then ap_expire op s
  else if String.eqb (Op op) "qua" then ap_quarantine op s
  else if String.eqb (Op op) "act" then ap_activate op s
  else if String.eqb (Op op) "set" then ap_set op s
  else if String.eqb (Op op) "clr" then ap_clear op s
  else if String.eqb (Op op) "rst" then ap_reset_stats op s
  else (skipped "invalid" "" 0, s).

Fixpoint ap_operations (ops : list luaOp) (s : Site) : list luaResult * Site :=
  match ops with
  | [] => ([], s)
  | op :: ops =>
      let '(r, s) := ap_operation op s in
      let '(out, s) := ap_operations ops s in (r :: out, s)
  end.

(** With a token, the results of the first call are recorded and replayed. *)
Definition apply_lua (token : string) (ops : list luaOp) (s : Site) : list luaResult * Site :=
  if String.eqb token "" then ap_operations ops s
  else match s_axr s !! token with
  | Some recorded => (recorded, s)
  | None => let '(out, s) := ap_operations ops s in (out, record_axr token out s)
  end.
End script.

(** ** Leases *)

Lemma ledger_id_alter f i h :
  (∀ d, id_al (f d) = id_al d ∧ id_xl (f d) = id_xl d) → ledger_of (on_id (alter f i) h) = ledger_of h.
Proof.
  intros Hf. unfold ledger_of. cbn. f_equal. apply map_eq. intros j. rewrite !lookup_fmap.
  destruct (decide (i = j)) as [<-|Hne]; [|by rewrite lookup_alter_ne].
  rewrite lookup_alter_eq. destruct (h_id h !! i) as [d|]; [|done]. cbn. by destruct (Hf d) as [-> ->].
Qed.

Lemma ledger_px_insert p d d' h :
  h_px h !! p = Some d → px_al d' = px_al d → ledger_of (on_px (<[p := d']>) h) = ledger_of h.
Proof.
  intros Hd Ha. unfold ledger_of. cbn. f_equal. rewrite fmap_insert, Ha. apply insert_id. by rewrite lookup_fmap, Hd.
Qed.

(** Updates of ready queues and packed states leave everything else alone. *)
Record same_core (h h' : Hot) : Prop := {
  sm_id : h_id h' = h_id h;
  sm_acc : h_acc h' = h_acc h;
  sm_px : h_px h' = h_px h;
  sm_ledger : ledger_of h' = ledger_of h;
}.
#[export] Instance same_core_preorder : PreOrder same_core.
Proof. split; [by split|]. intros h1 h2 h3 [] []. split; congruence. Qed.

Lemma core_fold {A} (f : Hot → A → Hot) l h : (∀ h a, same_core h (f h a)) → same_core h (foldl f h l).
Proof. intros Hf. revert h. induction l as [|a l IH]; intros h; [done|]. cbn [foldl]. by etrans; [apply Hf|]. Qed.

Lemma ap_zrem_all_core egs i h : same_core h (ap_zrem_all egs i h).
Proof. by apply core_fold. Qed.
Lemma sp_push_all_core egs i score h : same_core h (sp_push_all egs i score h).
Proof. by apply core_fold. Qed.
Lemma sp_rescore_core i egs h : same_core h (foldl (sp_rescore i) h egs).
Proof. by apply core_fold. Qed.
Lemma ap_reset_core now op i fails health egs h : same_core h (foldl (ap_reset_hs now op i fails health) h egs).
Proof. apply core_fold. intros h' eg. unfold ap_reset_hs. by destruct (h_hs h' !! (eg, i)). Qed.
Lemma place_identity_core op i h : same_core h (place_identity op i h).
Proof.
  unfold place_identity. destruct (string_in _ _); [|apply ap_zrem_all_core].
  etrans; [|apply ap_zrem_all_core]. by apply core_fold.
Qed.
Lemma push_members_core egs u l h : same_core h (foldl (λ h i, sp_push_all egs i u h) h l).
Proof. apply core_fold. intros. apply sp_push_all_core. Qed.

Lemma ap_zrem_all_ledger egs i h : ledger_of (ap_zrem_all egs i h) = ledger_of h.
Proof. apply ap_zrem_all_core. Qed.
Lemma sp_push_all_ledger egs i score h : ledger_of (sp_push_all egs i score h) = ledger_of h.
Proof. apply sp_push_all_core. Qed.
Lemma sp_rescore_ledger i egs h : ledger_of (foldl (sp_rescore i) h egs) = ledger_of h.
Proof. apply sp_rescore_core. Qed.
Lemma mark_dirty_ledger marks h : ledger_of (mark_dirty marks h) = ledger_of h.
Proof. done. Qed.
Lemma on_hs_ledger f h : ledger_of (on_hs f h) = ledger_of h.
Proof. done. Qed.
Lemma on_rdy_ledger eg f h : ledger_of (on_rdy eg f h) = ledger_of h.
Proof. done. Qed.
Lemma on_pxrdy_ledger f h : ledger_of (on_pxrdy f h) = ledger_of h.
Proof. done. Qed.
Lemma with_st_ledger st i h : ledger_of (on_id (alter (with_st st) i) h) = ledger_of h.
Proof. by apply ledger_id_alter. Qed.
Lemma with_act_ledger act i h : ledger_of (on_id (alter (with_act act) i) h) = ledger_of h.
Proof. by apply ledger_id_alter. Qed.
Lemma with_scd_ledger scd i h : ledger_of (on_id (alter (with_scd scd) i) h) = ledger_of h.
Proof. by apply ledger_id_alter. Qed.

Create HintDb ledger.
#[export] Hint Rewrite ap_zrem_all_ledger sp_push_all_ledger sp_rescore_ledger mark_dirty_ledger on_hs_ledger
  on_rdy_ledger on_pxrdy_ledger with_st_ledger with_act_ledger with_scd_ledger : ledger.

Abbreviation site_ledger s := (ledger_of (site_hot s)).

Section leases.
Variable now : Z.

Lemma ap_reset_identity_ledger op egs i fails health m :
  ledger_of (m_hot (ap_reset_identity now op egs i fails health m)) = ledger_of (m_hot m).
Proof. unfold ap_reset_identity. destruct fails, health; cbn; rewrite ?mark_dirty_ledger, ?(sm_ledger _ _ (ap_reset_core _ _ _ _ _ _ _)); done. Qed.

Lemma ap_ban_identity_ledger op i u m : ledger_of (m_hot (ap_ban_identity now op i u m).2) = ledger_of (m_hot m).
Proof.
  unfold ap_ban_identity. destruct (ap_id_get m i) as [id|]; [|done]. destruct (_ && _); [done|]. destruct (_ && _); [done|].
  cbn [snd]. destruct (ap_has _ _); cbn; by autorewrite with ledger.
Qed.

Lemma ap_cooldown_ledger op s : site_ledger (ap_cooldown now op s).2 = site_ledger s.
Proof.
  unfold ap_cooldown. destruct (_ <=? _); [done|]. destruct (string_in _ _).
  { destruct (ap_id_get _ _) as [id|]; [|done]. destruct (String.eqb _ _).
    - unfold cooldown_endpoint. destruct (_ && _); [done|]. by destruct (ap_has _ _).
    - unfold cooldown_site. destruct (_ && _); [done|]. destruct (ap_has _ _); unfold site_hot; cbn; by autorewrite with ledger. }
  destruct (String.eqb _ _).
  { unfold cooldown_account. destruct (h_acc _ !! _); [|done]. destruct (_ && _); [done|]. unfold site_hot. cbn.
    etrans; [apply push_members_core|done]. }
  destruct (string_in _ _); [|done]. unfold cooldown_proxy. destruct (h_px _ !! _) as [d|] eqn:Hd; [|done].
  destruct (_ && _); [done|]. unfold site_hot. cbn. autorewrite with ledger. eapply ledger_px_insert; [exact Hd|].
  by destruct (String.eqb _ _).
Qed.

Lemma block_proxy_ledger p st life d m :
  h_px (m_hot m) !! p = Some d → ledger_of (m_hot (block_proxy p st life d m)) = ledger_of (m_hot m).
Proof. intros Hd. unfold block_proxy. cbn. autorewrite with ledger. by eapply ledger_px_insert. Qed.

Lemma ban_members_ledger op l acc :
  ledger_of (m_hot (foldl (ban_member now op) acc l).1) = ledger_of (m_hot acc.1).
Proof.
  revert acc. induction l as [|i l IH]; intros [m out]; [done|]. cbn [foldl]. rewrite IH. cbn [ban_member fst].
  pose proof (ap_ban_identity_ledger op i (Until op) m) as H. by destruct (ap_ban_identity _ _ _ _ _) as [[[ok reason] from] m'].
Qed.

Lemma ap_ban_ledger op s : site_ledger (ap_ban now op s).2 = site_ledger s.
Proof.
  unfold ap_ban. destruct (_ =? _); [done|]. destruct (String.eqb _ _).
  { pose proof (ap_ban_identity_ledger op (OpSubject op) (Until op) (s_mat s)) as H.
    destruct (ap_ban_identity _ _ _ _ _) as [[[ok reason] from] m']. by destruct ok. }
  destruct (String.eqb _ _).
  { unfold ban_account. destruct (h_acc _ !! _) as [c|]; [|done]. destruct (_ && _); [done|]. destruct (_ && _); [done|].
    set (m1 := on_accsct _ _). pose proof (ban_members_ledger op (members_of (OpSubject op) m1) (m1, [])) as H.
    by destruct (foldl _ _ _) as [m' members]. }
  destruct (String.eqb _ _); [|done]. unfold ban_proxy. destruct (h_px _ !! _) as [d|] eqn:Hd; [|done].
  destruct (_ && _); [done|]. destruct (_ && _); [done|]. by apply block_proxy_ledger.
Qed.

Lemma ap_quarantine_ledger op s : site_ledger (ap_quarantine now op s).2 = site_ledger s.
Proof.
  unfold ap_quarantine. destruct (_ <=? _); [done|]. destruct (String.eqb _ _).
  - unfold quarantine_identity. destruct (ap_id_get _ _); [|done]. destruct (_ && _); [done|]. destruct (_ && _); [done|].
    destruct (_ && _); [done|]. unfold site_hot. cbn. by autorewrite with ledger.
  - destruct (String.eqb _ _); [|done]. unfold quarantine_proxy. destruct (h_px _ !! _) as [d|] eqn:Hd; [|done].
    destruct (_ && _); [done|]. destruct (_ && _); [done|]. destruct (_ && _); [done|]. by apply block_proxy_ledger.
Qed.

Lemma ap_set_ledger op s : site_ledger (ap_set now op s).2 = site_ledger s.
Proof.
  unfold ap_set. destruct (String.eqb _ _).
  { unfold set_account. destruct (h_acc _ !! _); [|done]. destruct (negb _); [done|]. by destruct (_ >? _). }
  destruct (negb _); [done|]. destruct (ap_id_get _ _) as [id|]; [|done]. destruct (_ >? _); [done|]. cbn [snd].
  set (m1 := hset_life _ _ _ _ _ _). set (m2 := if _ && _ then _ else m1). set (m3 := ap_reset_identity _ _ _ _ _ _ m2).
  assert (ledger_of (m_hot m3) = ledger_of (site_hot s)) as H.
  { subst m3. rewrite ap_reset_identity_ledger. subst m2 m1. destruct (_ && _); cbn; by autorewrite with ledger. }
  clearbody m3. clearbody m2. destruct (String.eqb (To op) "banned" && _); (etrans; [apply place_identity_core|exact H]).
Qed.

Lemma ap_clear_ledger op s : site_ledger (ap_clear now op s).2 = site_ledger s.
Proof.
  unfold ap_clear. destruct (ap_id_get _ _) as [id|]; [|done]. destruct (String.eqb _ _).
  - unfold clear_endpoint. by destruct (_ || _).
  - destruct (String.eqb _ _); [|done]. unfold clear_site. destruct (_ || _); [done|]. unfold site_hot. cbn.
    autorewrite with ledger. rewrite ap_reset_identity_ledger. cbn. by autorewrite with ledger.
Qed.

Lemma ap_operation_ledger op s : site_ledger (ap_operation now op s).2 = site_ledger s.
Proof.
  unfold ap_operation. destruct (String.eqb _ _); [apply ap_cooldown_ledger|]. destruct (String.eqb _ _); [apply ap_ban_ledger|].
  destruct (String.eqb _ _).
  { unfold ap_expire. destruct (ap_id_get _ _); [|done]. do 3 (destruct (_ && _); [done|]). unfold site_hot. cbn.
    by autorewrite with ledger. }
  destruct (String.eqb _ _); [apply ap_quarantine_ledger|]. destruct (String.eqb _ _).
  { unfold ap_activate. destruct (ap_id_get _ _); [|done]. destruct (negb _); [done|]. unfold site_hot. cbn.
    by autorewrite with ledger. }
  destruct (String.eqb _ _); [apply ap_set_ledger|]. destruct (String.eqb _ _); [apply ap_clear_ledger|].
  destruct (String.eqb _ _); [|done]. unfold ap_reset_stats. destruct (ap_id_get _ _); [|done].
  destruct (_ =? 1); unfold site_hot; cbn; autorewrite with ledger; apply ap_reset_core.
Qed.

Lemma ap_operations_ledger ops s : site_ledger (ap_operations now ops s).2 = site_ledger s.
Proof.
  revert s. induction ops as [|op ops IH]; intros s; [done|]. cbn [ap_operations].
  pose proof (ap_operation_ledger op s) as H. destruct (ap_operation now op s) as [r s1]. cbn [snd] in H.
  specialize (IH s1). destruct (ap_operations now ops s1) as [out s2]. cbn [snd] in *. congruence.
Qed.

(** Operations leave the checkpoints, the windows and the recorded results. *)
Lemma ap_operation_kept op s :
  s_obs (ap_operation now op s).2 = s_obs s ∧ s_axr (ap_operation now op s).2 = s_axr s.
Proof.
  unfold ap_operation, ap_cooldown, cooldown_endpoint, cooldown_site, record_cooldown, cooldown_account, cooldown_proxy, ap_ban, ban_account, ban_proxy, ap_expire,
    ap_quarantine, quarantine_identity, quarantine_proxy, ap_activate, ap_set, set_account, ap_clear, clear_endpoint, clear_site, ap_reset_stats.
  repeat (case_match; try done).
Qed.
Lemma ap_operations_kept ops s :
  s_obs (ap_operations now ops s).2 = s_obs s ∧ s_axr (ap_operations now ops s).2 = s_axr s.
Proof.
  revert s. induction ops as [|op ops IH]; intros s; [done|]. cbn [ap_operations].
  destruct (ap_operation_kept op s) as [E1 E2]. destruct (ap_operation now op s) as [r s1]. cbn [snd] in *.
  specialize (IH s1). destruct (ap_operations now ops s1) as [out s2]. cbn [snd] in *. by rewrite <- E1, <- E2.
Qed.

Lemma apply_lua_ledger token ops s : site_ledger (apply_lua now token ops s).2 = site_ledger s.
Proof.
  unfold apply_lua. pose proof (ap_operations_ledger ops s) as H. destruct (String.eqb _ _); [done|].
  destruct (s_axr s !! token); [done|]. by destruct (ap_operations now ops s) as [out s1].
Qed.
End leases.

(** ** Severity of automatic changes *)

Definition state_rank (st : string) : Z :=
  if String.eqb st "quarantined" then 1 else if String.eqb st "expired" then 2 else if String.eqb st "banned" then 3
  else if string_in st ["retired"; "disabled"] then 4 else 0.

(** The severity of a subject: its rank, its state and when the state ends by
    itself, [None] being never. *)
Record Sev := { sv_rank : Z; sv_st : string; sv_end : option Z }.
Definition id_sev (st : string) (bu qu : Z) : Sev :=
  {| sv_rank := state_rank st; sv_st := st;
     sv_end := if String.eqb st "banned" then if bu =? -1 then None else Some bu
               else if String.eqb st "quarantined" then Some qu else Some 0 |}.
(** Proxies do not expire, and their bans without an end last forever. *)
Definition px_sev (st : string) (bu qu : Z) : Sev :=
  {| sv_rank := if String.eqb st "expired" then 0 else state_rank st; sv_st := st;
     sv_end := if String.eqb st "banned" then if (bu =? -1) || (bu =? 0) then None else Some bu
               else if String.eqb st "quarantined" then Some qu else Some 0 |}.

Definition acc_sev (st : string) (bu : Z) : Sev :=
  {| sv_rank := if String.eqb st "banned" then 3 else if String.eqb st "disabled" then 4 else 0; sv_st := st;
     sv_end := if String.eqb st "banned" then if bu =? -1 then None else Some bu else Some 0 |}.

Definition until_le (e e' : option Z) : Prop :=
  match e, e' with _, None => True | None, Some _ => False | Some x, Some y => x ≤ y end.

(** What automatic actions may make of a state.  Either its rank rises, to
    quarantined, expired or banned, whenever the new state ends; or the state stays
    and ends no earlier; or, if identities are being activated, a pending one becomes
    active.  Retired and disabled subjects stay as they are, and none becomes so. *)
Definition severity_le (activating : bool) (v v' : Sev) : Prop :=
  sv_rank v < sv_rank v' < 4 ∨
  sv_rank v = sv_rank v' ∧ (sv_st v = sv_st v' ∨ activating = true ∧ sv_st v = "pending" ∧ sv_st v' = "active") ∧
    until_le (sv_end v) (sv_end v').

Definition id_view (m : Mat) (i : Z) : option Sev := (λ id, id_sev (ai_st id) (ai_bu id) (ai_qu id)) <$> ap_id_get m i.
Definition acc_view (m : Mat) (a : Z) : option Sev := (λ c, acc_sev (ac_st c) (ac_bu c)) <$> h_acc (m_hot m) !! a.
Definition px_view (m : Mat) (p : Z) : option Sev :=
  let life := m_pxlife m !! p in
  (λ d, px_sev (px_st d) (from_option lf_bu 0 life) (from_option lf_qu 0 life)) <$> h_px (m_hot m) !! p.

(** No identity, account or proxy is softened or lost. *)
Record escalates (act : bool) (m m' : Mat) : Prop := {
  es_id : ∀ i v, id_view m i = Some v → ∃ v', id_view m' i = Some v' ∧ severity_le act v v';
  es_acc : ∀ a v, acc_view m a = Some v → ∃ v', acc_view m' a = Some v' ∧ severity_le act v v';
  es_px : ∀ p v, px_view m p = Some v → ∃ v', px_view m' p = Some v' ∧ severity_le act v v';
}.

#[export] Instance severity_le_preorder act : PreOrder (severity_le act).
Proof.
  split.
  - intros [r st e]. right. split_and!; [done|by left|]. by destruct e; cbn.
  - intros [r1 s1 e1] [r2 s2 e2] [r3 s3 e3]. unfold severity_le. cbn. intros [H1|(H1 & S1 & E1)] [H2|(H2 & S2 & E2)]; [left; lia..|].
    right. split_and!; [lia| |destruct e1, e2, e3; cbn in *; (lia || done)].
    destruct S1 as [->|(? & -> & ->)], S2 as [->|(? & S2 & ->)]; auto; done.
Qed.

#[export] Instance escalates_preorder act : PreOrder (escalates act).
Proof.
  split; [split; intros k v Hv; by exists v|]. intros m1 m2 m3 [I1 A1 P1] [I2 A2 P2].
  split; intros k v Hv; [apply I1 in Hv as (v1 & Hv & H1); apply I2 in Hv|apply A1 in Hv as (v1 & Hv & H1); apply A2 in Hv|
    apply P1 in Hv as (v1 & Hv & H1); apply P2 in Hv]; destruct Hv as (v2 & ? & H2); exists v2; split; [done|by etrans|done|by etrans|done|by etrans].
Qed.

(** Changes of one subject. *)
Record life_frame (m m' : Mat) : Prop := {
  lf_ids : ∀ i, id_view m' i = id_view m i;
  lf_accs : ∀ a, acc_view m' a = acc_view m a;
  lf_pxs : ∀ p, px_view m' p = px_view m p;
}.
Section severity.
Context {act : bool}.

Lemma life_frame_escalates m m' : life_frame m m' → escalates act m m'.
Proof. intros [Hi Ha Hp]. split; intros k v Hv; exists v; by rewrite ?Hi, ?Ha, ?Hp. Qed.

Lemma core_life f m : same_core (m_hot m) (f (m_hot m)) → life_frame m (on_hot f m).
Proof.
  intros []. split; intros k; unfold id_view, ap_id_get, acc_view, px_view; cbn; by rewrite ?sm_id0, ?sm_acc0, ?sm_px0.
Qed.

Lemma id_view_alter f i m j :
  (∀ d, id_st (f d) = id_st d) → id_view (on_hot (on_id (alter f i)) m) j = id_view m j.
Proof.
  intros Hf. unfold id_view, ap_id_get. cbn. destruct (decide (i = j)) as [<-|]; [|by rewrite lookup_alter_ne].
  rewrite lookup_alter_eq. destruct (h_id (m_hot m) !! i) as [d|]; cbn; [by rewrite Hf|done].
Qed.

Lemma hset_life_escalates i st bu qu now m v :
  id_view m i = Some v → severity_le act v (id_sev st bu qu) → escalates act m (hset_life i st bu qu now m).
Proof.
  intros Hv Hle. split; [|intros k w Hw; by exists w..]. intros j w Hw. destruct (decide (i = j)) as [<-|Hne].
  - exists (id_sev st bu qu). split; [|by simplify_eq]. revert Hv. unfold id_view, ap_id_get. cbn.
    rewrite lookup_alter_eq, lookup_insert_eq. by destruct (h_id (m_hot m) !! i).
  - exists w. split; [|done]. rewrite <- Hw. unfold id_view, ap_id_get. cbn. by rewrite lookup_alter_ne, lookup_insert_ne.
Qed.

Lemma acc_insert_escalates a c c' f m :
  h_acc (m_hot m) !! a = Some c → severity_le act (acc_sev (ac_st c) (ac_bu c)) (acc_sev (ac_st c') (ac_bu c')) →
  escalates act m (on_accsct f (on_hot (on_acc (<[a := c']>)) m)).
Proof.
  intros Hc Hle. split; [intros k v Hv; by exists v| |intros k v Hv; by exists v].
  intros b v Hv. unfold acc_view in *. cbn. destruct (decide (a = b)) as [<-|Hne].
  - rewrite lookup_insert_eq. rewrite Hc in Hv. cbn in Hv. simplify_eq. by eexists.
  - rewrite lookup_insert_ne by done. by exists v.
Qed.

Lemma block_proxy_escalates p st life d m v :
  px_view m p = Some v → severity_le act v (px_sev st (lf_bu life) (lf_qu life)) → escalates act m (block_proxy p st life d m).
Proof.
  intros Hv Hle. split; [intros k w Hw; by exists w..|]. intros q w Hw. unfold px_view in *. cbn. destruct (decide (p = q)) as [<-|Hne].
  - rewrite !lookup_insert_eq. eexists. split; [done|]. cbn. by simplify_eq.
  - rewrite !lookup_insert_ne by done. by exists w.
Qed.

(** The severity rules of the script. *)
Lemma ban_end_le bu u : ban_covers bu u = false → until_le (if bu =? -1 then None else Some bu) (if u =? -1 then None else Some u).
Proof.
  unfold ban_covers. destruct (Z.eqb_spec bu (-1)); [done|]. destruct (Z.eqb_spec u (-1)); cbn; [done|].
  rewrite Z.geb_leb, Z.leb_gt. lia.
Qed.

Lemma ban_severity st bu qu u :
  string_in st ["retired"; "disabled"] = false → String.eqb st "banned" && ban_covers bu u = false →
  severity_le act (id_sev st bu qu) (id_sev "banned" u 0).
Proof.
  intros Hs Hb. unfold severity_le, id_sev. cbn [sv_rank sv_st sv_end]. unfold state_rank. rewrite Hs.
  destruct (String.eqb_spec st "banned") as [->|Hne]; cbn in *.
  - right. split_and!; [done|by left|by apply ban_end_le].
  - left. destruct (String.eqb st "quarantined"), (String.eqb st "expired"); cbn; lia.
Qed.

Lemma ban_account_severity st bu u :
  String.eqb st "disabled" = false → String.eqb st "banned" && ban_covers bu u = false →
  severity_le act (acc_sev st bu) (acc_sev "banned" u).
Proof.
  intros Hs Hb. unfold severity_le, acc_sev. cbn [sv_rank sv_st sv_end]. rewrite Hs.
  destruct (String.eqb_spec st "banned") as [->|Hne]; cbn in *; [right|left; lia]. split_and!; [done|by left|by apply ban_end_le].
Qed.

Lemma ban_proxy_severity st bu qu u qu' :
  string_in st ["retired"; "disabled"] = false → u ≠ 0 →
  String.eqb st "banned" && ((bu =? -1) || (negb (u =? -1) && ((bu =? 0) || (bu >=? u)))) = false →
  severity_le act (px_sev st bu qu) (px_sev "banned" u qu').
Proof.
  intros Hs Hu Hb. unfold severity_le, px_sev. cbn [sv_rank sv_st sv_end]. unfold state_rank. rewrite Hs.
  destruct (String.eqb_spec st "banned") as [->|Hne]; cbn in *.
  - right. split_and!; [done|by left|]. destruct (Z.eqb_spec bu (-1)); [done|]. destruct (Z.eqb_spec u (-1)); cbn in *; [by destruct (_ =? 0)|].
    apply orb_false_iff in Hb as [-> Hb]. rewrite (proj2 (Z.eqb_neq u 0)) by done. cbn. rewrite Z.geb_leb in Hb. apply Z.leb_gt in Hb. lia.
  - left. destruct (String.eqb st "quarantined"), (String.eqb st "expired"); cbn; lia.
Qed.

Lemma expire_severity st bu qu :
  String.eqb st "banned" = false → String.eqb st "expired" = false → string_in st ["retired"; "disabled"] = false →
  severity_le act (id_sev st bu qu) (id_sev "expired" 0 0).
Proof.
  intros Hb He Hs. left. cbn [sv_rank id_sev]. unfold state_rank. rewrite Hb, He, Hs. cbn. destruct (String.eqb st "quarantined"); lia.
Qed.

Lemma quarantine_end st qu u : String.eqb st "quarantined" && (qu >=? u) = false → st = "quarantined" → qu ≤ u.
Proof. intros Hq ->. cbn in Hq. rewrite Z.geb_leb in Hq. apply Z.leb_gt in Hq. lia. Qed.

Lemma quarantine_severity st bu qu u :
  string_in st ["banned"; "expired"] = false → string_in st ["retired"; "disabled"] = false →
  String.eqb st "quarantined" && (qu >=? u) = false → severity_le act (id_sev st bu qu) (id_sev "quarantined" 0 u).
Proof.
  intros Hb Hs Hq. apply orb_false_iff in Hb as [Hb [He _]%orb_false_iff]. pose proof (quarantine_end _ _ _ Hq).
  unfold severity_le, id_sev. cbn [sv_rank sv_st sv_end]. unfold state_rank. rewrite Hs, Hb, He.
  destruct (String.eqb_spec st "quarantined") as [->|Hne]; cbn in *; [right|left; lia]. split_and!; [done|by left|by auto].
Qed.

Lemma quarantine_proxy_severity st bu qu u bu' :
  String.eqb st "banned" = false → string_in st ["retired"; "disabled"] = false →
  String.eqb st "quarantined" && (qu >=? u) = false → severity_le act (px_sev st bu qu) (px_sev "quarantined" bu' u).
Proof.
  intros Hb Hs Hq. pose proof (quarantine_end _ _ _ Hq).
  unfold severity_le, px_sev. cbn [sv_rank sv_st sv_end]. unfold state_rank. rewrite Hs, Hb.
  destruct (String.eqb_spec st "quarantined") as [->|Hne]; cbn in *; [right|left; destruct (String.eqb st "expired"); lia].
  split_and!; [done|by left|by auto].
Qed.

#[export] Instance life_frame_preorder : PreOrder life_frame.
Proof. split; [by split|]. intros m1 m2 m3 [] []. split; intros k; congruence. Qed.

Lemma alter_life f i m : (∀ d, id_st (f d) = id_st d) → life_frame m (on_hot (on_id (alter f i)) m).
Proof. intros Hf. split; [|done..]. intros j. by apply id_view_alter. Qed.

Section escalation.
Variable now : Z.

(** Cooldowns change no lifecycle state, forced or not. *)
Lemma ap_cooldown_life op s : life_frame (s_mat s) (s_mat (ap_cooldown now op s).2).
Proof.
  unfold ap_cooldown. destruct (_ <=? _); [done|]. destruct (string_in _ _).
  { destruct (ap_id_get _ _) as [id|]; [|done]. destruct (String.eqb _ _).
    - unfold cooldown_endpoint. destruct (_ && _); [done|]. by destruct (ap_has _ _).
    - unfold cooldown_site. destruct (_ && _); [done|].
      assert (life_frame (s_mat s) (on_hot (on_id (alter (with_scd (Until op)) (OpSubject op))) (s_mat s))) as H by by apply alter_life.
      destruct (ap_has _ _); (etrans; [exact H|]; apply core_life; by etrans; [apply sp_push_all_core|]). }
  destruct (String.eqb _ _).
  { unfold cooldown_account. destruct (h_acc _ !! _) as [c|] eqn:Hc; [|done]. destruct (_ && _); [done|]. cbn [snd s_mat on_mat].
    set (m1 := on_hot (on_acc _) _). assert (life_frame (s_mat s) m1) as H.
    { split; [done| |done]. intros a. subst m1. unfold acc_view. cbn. destruct (decide (OpSubject op = a)) as [<-|]; [|by rewrite lookup_insert_ne].
      rewrite lookup_insert_eq. unfold site_hot in Hc. by rewrite Hc. }
    etrans; [exact H|]. apply core_life, push_members_core. }
  destruct (string_in _ _); [|done]. unfold cooldown_proxy. destruct (h_px _ !! _) as [d|] eqn:Hd; [|done]. destruct (_ && _); [done|].
  split; [done..|]. intros p. unfold px_view. cbn. destruct (decide (OpSubject op = p)) as [<-|]; [|by rewrite lookup_insert_ne].
  rewrite lookup_insert_eq. unfold site_hot in Hd. rewrite Hd. by destruct (String.eqb _ _).
Qed.

Lemma id_view_get m i id : ap_id_get m i = Some id → id_view m i = Some (id_sev (ai_st id) (ai_bu id) (ai_qu id)).
Proof. unfold id_view. by intros ->. Qed.

(** A lifecycle change that takes the identity out of its ready queues. *)
Lemma withdraw_escalates op i st bu qu m id :
  ap_id_get m i = Some id → severity_le act (id_sev (ai_st id) (ai_bu id) (ai_qu id)) (id_sev st bu qu) →
  escalates act m (on_hot (ap_zrem_all (Groups op) i) (hset_life i st bu qu now m)).
Proof.
  intros Hid Hle. etrans; [eapply hset_life_escalates; [by apply id_view_get|exact Hle]|].
  apply life_frame_escalates, core_life, ap_zrem_all_core.
Qed.

Lemma ap_ban_identity_escalates op i u m :
  ap_has (Flags op) F_FORCE = false → escalates act m (ap_ban_identity now op i u m).2.
Proof.
  intros Hf. unfold ap_ban_identity. rewrite Hf. destruct (ap_id_get m i) as [id|] eqn:Hid; [|done]. cbn [negb andb].
  destruct (string_in _ _) eqn:Hs; [done|]. destruct (_ && ban_covers _ _) eqn:Hb; [done|]. cbn [snd].
  etrans; [by eapply (withdraw_escalates op), ban_severity|].
  destruct (ap_has (Flags op) F_BANS); [by apply life_frame_escalates|reflexivity].
Qed.

Lemma ban_members_escalates op l acc :
  ap_has (Flags op) F_FORCE = false → escalates act acc.1 (foldl (ban_member now op) acc l).1.
Proof.
  intros Hf. revert acc. induction l as [|i l IH]; intros [m out]; [done|]. cbn [foldl]. etrans; [|apply IH]. cbn [ban_member fst].
  pose proof (ap_ban_identity_escalates op i (Until op) m Hf) as H. by destruct (ap_ban_identity _ _ _ _ _) as [[[ok reason] from] m'].
Qed.

Lemma ap_ban_escalates op s :
  ap_has (Flags op) F_FORCE = false → escalates act (s_mat s) (s_mat (ap_ban now op s).2).
Proof.
  intros Hf. unfold ap_ban. destruct (Z.eqb_spec (Until op) 0) as [|Hu]; [done|]. destruct (String.eqb _ _).
  { pose proof (ap_ban_identity_escalates op (OpSubject op) (Until op) (s_mat s) Hf) as H.
    destruct (ap_ban_identity _ _ _ _ _) as [[[ok reason] from] m']. by destruct ok. }
  destruct (String.eqb _ _).
  { unfold ban_account. rewrite Hf. destruct (h_acc _ !! _) as [c|] eqn:Hc; [|done]. cbn [negb andb].
    destruct (String.eqb (ac_st c) "disabled") eqn:Hd; [done|]. destruct (_ && ban_covers _ _) eqn:Hb; [done|].
    set (m1 := on_accsct _ _). pose proof (ban_members_escalates op (members_of (OpSubject op) m1) (m1, []) Hf) as H.
    destruct (foldl _ _ _) as [m' members]. etrans; [|exact H]. eapply acc_insert_escalates; [exact Hc|]. cbn [ac_st ac_bu fst].
    by apply ban_account_severity. }
  destruct (String.eqb _ _); [|done]. unfold ban_proxy. rewrite Hf. destruct (h_px _ !! _) as [d|] eqn:Hd; [|done]. cbn [negb andb].
  destruct (string_in _ _) eqn:Hs; [done|]. destruct (_ && (_ || _)) eqn:Hb; [done|]. eapply block_proxy_escalates.
  - unfold px_view. unfold site_hot in Hd. by rewrite Hd.
  - by apply ban_proxy_severity.
Qed.

Lemma ap_expire_escalates op s :
  ap_has (Flags op) F_FORCE = false → escalates act (s_mat s) (s_mat (ap_expire now op s).2).
Proof.
  intros Hf. unfold ap_expire. rewrite Hf. destruct (ap_id_get _ _) as [id|] eqn:Hid; [|done]. cbn [negb andb].
  destruct (String.eqb (ai_st id) "banned") eqn:Hb; [done|]. destruct (String.eqb (ai_st id) "expired") eqn:He; [done|].
  destruct (string_in _ _) eqn:Hs; [done|]. eapply withdraw_escalates; [exact Hid|by apply expire_severity].
Qed.

Lemma ap_quarantine_escalates op s :
  ap_has (Flags op) F_FORCE = false → escalates act (s_mat s) (s_mat (ap_quarantine now op s).2).
Proof.
  intros Hf. unfold ap_quarantine. destruct (_ <=? _); [done|]. destruct (String.eqb _ _).
  - unfold quarantine_identity. rewrite Hf. destruct (ap_id_get _ _) as [id|] eqn:Hid; [|done]. cbn [negb andb].
    destruct (string_in _ ["banned"; _]) eqn:Hb; [done|]. destruct (string_in _ ["retired"; _]) eqn:Hs; [done|].
    destruct (_ && (_ >=? _)) eqn:Hq; [done|]. eapply withdraw_escalates; [exact Hid|by apply quarantine_severity].
  - destruct (String.eqb _ _); [|done]. unfold quarantine_proxy. rewrite Hf. destruct (h_px _ !! _) as [d|] eqn:Hd; [|done]. cbn [negb andb].
    destruct (String.eqb (px_st d) "banned") eqn:Hb; [done|]. destruct (string_in _ _) eqn:Hs; [done|].
    destruct (_ && (_ >=? _)) eqn:Hq; [done|]. eapply block_proxy_escalates; [|by apply quarantine_proxy_severity].
    unfold px_view. unfold site_hot in Hd. by rewrite Hd.
Qed.

Lemma ap_activate_escalates op s : act = true → escalates act (s_mat s) (s_mat (ap_activate now op s).2).
Proof.
  intros Hact. unfold ap_activate. destruct (ap_id_get _ _) as [id|] eqn:Hid; [|done]. destruct (String.eqb_spec (ai_st id) "pending") as [Hp|]; [|done].
  cbn [negb snd s_mat on_mat]. etrans; [|apply life_frame_escalates, core_life, sp_rescore_core].
  etrans; [|by apply life_frame_escalates, alter_life]. eapply hset_life_escalates; [by apply id_view_get|].
  rewrite Hp. right. split_and!; [done|by right|done].
Qed.

(** The operations of automatic actions, without the force flag. *)
Definition automatic (op : luaOp) : Prop :=
  string_in (Op op) ["cd"; "ban"; "exp"; "qua"; "act"] = true ∧ ap_has (Flags op) F_FORCE = false.

Lemma ap_operation_escalates op s :
  automatic op → (Op op = "act" → act = true) → escalates act (s_mat s) (s_mat (ap_operation now op s).2).
Proof.
  intros [Hop Hf] Hact. unfold ap_operation. destruct (String.eqb (Op op) "cd") eqn:E1; [apply life_frame_escalates, ap_cooldown_life|].
  destruct (String.eqb (Op op) "ban") eqn:E2; [by apply ap_ban_escalates|]. destruct (String.eqb (Op op) "exp") eqn:E3; [by apply ap_expire_escalates|].
  destruct (String.eqb (Op op) "qua") eqn:E4; [by apply ap_quarantine_escalates|].
  destruct (String.eqb (Op op) "act") eqn:E5; [by apply ap_activate_escalates, Hact, String.eqb_eq|].
  unfold string_in in Hop. cbn in Hop. by rewrite E1, E2, E3, E4, E5 in Hop.
Qed.

Lemma ap_operations_escalates_as ops s :
  Forall (λ op, automatic op ∧ (Op op = "act" → act = true)) ops → escalates act (s_mat s) (s_mat (ap_operations now ops s).2).
Proof.
  intros Ha. revert s. induction Ha as [|op ops [Hop Hact] _ IH]; intros s; [done|]. cbn [ap_operations].
  pose proof (ap_operation_escalates op s Hop Hact) as H. destruct (ap_operation now op s) as [r s1]. specialize (IH s1).
  destruct (ap_operations now ops s1) as [out s2]. cbn [snd] in *. by etrans.
Qed.

Lemma apply_lua_escalates token ops s :
  Forall (λ op, automatic op ∧ (Op op = "act" → act = true)) ops → escalates act (s_mat s) (s_mat (apply_lua now token ops s).2).
Proof.
  intros Ha. unfold apply_lua. pose proof (ap_operations_escalates_as ops s Ha) as H. destruct (String.eqb _ _); [done|].
  destruct (s_axr s !! token); [done|]. by destruct (ap_operations now ops s) as [out s1].
Qed.
End escalation.
End severity.

Lemma ap_operations_escalates now ops s :
  Forall automatic ops → escalates true (s_mat s) (s_mat (ap_operations now ops s).2).
Proof. intros Ha. apply ap_operations_escalates_as. eapply Forall_impl; [exact Ha|]. by intros op. Qed.

(** ** Ready queues *)

Lemma sp_avail_frame h h' eg i :
  h_id h' = h_id h → h_acc h' = h_acc h → h_hs h' !! (eg, i) = h_hs h !! (eg, i) → sp_avail h' eg i = sp_avail h eg i.
Proof. intros E1 E2 E3. unfold sp_avail. by rewrite E1, E2, E3. Qed.

Lemma ap_avail_sp m i id h eg cd ru :
  ap_id_get m i = Some id → h_id h = h_id (m_hot m) → h_acc h = h_acc (m_hot m) →
  sp_hs_cd_ru (h_hs h !! (eg, i)) = (cd, ru) → sp_avail h eg i = ap_avail (m_hot m) id cd ru.
Proof.
  intros Hid E1 E2 E3. unfold sp_avail. rewrite E1, E2, E3. unfold ap_id_get in Hid.
  destruct (h_id (m_hot m) !! i) as [d|]; [|done]. cbn in Hid. by simplify_eq.
Qed.

Lemma ap_zrem_all_rdy egs i h eg j :
  rdy_of (ap_zrem_all egs i h) eg !! j = if decide (eg ∈ egs ∧ i = j) then None else rdy_of h eg !! j.
Proof.
  unfold ap_zrem_all. revert h. induction egs as [|g egs IH]; intros h; cbn [foldl].
  { rewrite decide_False; [done|]. by intros [?%not_elem_of_nil _]. }
  rewrite IH, rdy_of_on_rdy. destruct (decide (eg ∈ egs ∧ i = j)) as [[? ->]|Hn].
  - by rewrite decide_True by (split; [by apply list_elem_of_further|done]).
  - destruct (decide (g = eg)) as [->|Hne].
    + destruct (decide (i = j)) as [->|].
      * rewrite decide_True by (split; [apply list_elem_of_here|done]). by apply lookup_delete_eq.
      * rewrite decide_False by (by intros [_ ?]). by apply lookup_delete_ne.
    + rewrite decide_False; [done|]. intros [[->|?]%elem_of_cons ?]; auto.
Qed.

Lemma sp_rescore_rdy egs i h eg :
  eg ∈ egs → rdy_of (foldl (sp_rescore i) h egs) eg !! i = (λ _, sp_avail h eg i) <$> rdy_of h eg !! i.
Proof.
  assert (∀ l h0, h_id h0 = h_id h → h_acc h0 = h_acc h → h_hs h0 = h_hs h →
    rdy_of (foldl (sp_rescore i) h0 l) eg !! i =
    if decide (eg ∈ l) then (λ _, sp_avail h eg i) <$> rdy_of h0 eg !! i else rdy_of h0 eg !! i) as H.
  { induction l as [|g l IH]; intros h0 E1 E2 E3; cbn [foldl].
    { rewrite decide_False; [done|]. apply not_elem_of_nil. }
    rewrite IH by done. unfold sp_rescore. rewrite rdy_of_on_rdy. destruct (decide (g = eg)) as [->|Hne].
    - rewrite (decide_True (P := eg ∈ eg :: l)) by apply list_elem_of_here. rewrite zadd_xx_lookup, (decide_True (P := i = i)) by done.
      rewrite (sp_avail_frame h h0) by (done || by rewrite E3). destruct (decide (eg ∈ l)), (rdy_of h0 eg !! i); done.
    - symmetry. apply decide_ext. set_solver. }
  intros Hin. rewrite H by done. by rewrite decide_True.
Qed.

Lemma add_ready_rdy egs i h eg :
  rdy_of (foldl (add_ready i) h egs) eg !! i = if decide (eg ∈ egs) then Some (sp_avail h eg i) else rdy_of h eg !! i.
Proof.
  assert (∀ l h0, h_id h0 = h_id h → h_acc h0 = h_acc h → h_hs h0 = h_hs h →
    rdy_of (foldl (add_ready i) h0 l) eg !! i = if decide (eg ∈ l) then Some (sp_avail h eg i) else rdy_of h0 eg !! i) as H; [|by apply H].
  induction l as [|g l IH]; intros h0 E1 E2 E3; cbn [foldl].
  { rewrite decide_False; [done|]. apply not_elem_of_nil. }
  rewrite IH by done. unfold add_ready. rewrite rdy_of_on_rdy. destruct (decide (g = eg)) as [->|Hne].
  - rewrite (decide_True (P := eg ∈ eg :: l)) by apply list_elem_of_here. rewrite lookup_insert_eq.
    rewrite (sp_avail_frame h h0) by (done || by rewrite E3). by destruct (decide (eg ∈ l)).
  - symmetry. apply decide_ext. set_solver.
Qed.

Lemma foldl_hs {A} (f : Hot → A → Hot) l h : (∀ h a, h_hs (f h a) = h_hs h) → h_hs (foldl f h l) = h_hs h.
Proof. intros Hf. revert h. induction l as [|a l IH]; intros h; [done|]. cbn [foldl]. by rewrite IH. Qed.

Lemma place_identity_rdy op i h eg :
  let h' := place_identity op i h in
  (string_in (To op) ["active"; "pending"] = true → eg ∈ Add op → rdy_of h' eg !! i = Some (sp_avail h' eg i)) ∧
  (eg ∈ Groups op → string_in (To op) ["active"; "pending"] = false ∨ eg ∉ Add op → rdy_of h' eg !! i = None).
Proof.
  intros h'. assert (h_hs h' = h_hs h) as Eh by (subst h'; unfold place_identity, ap_zrem_all; destruct (string_in _ _); by rewrite !foldl_hs).
  destruct (place_identity_core op i h) as [E1 E2 _ _]. fold h' in E1, E2.
  rewrite (sp_avail_frame h h') by (done || by rewrite Eh). subst h'. unfold place_identity. destruct (string_in _ _).
  - rewrite ap_zrem_all_rdy. split.
    + intros _ Hin. rewrite decide_False by (by intros [[? _]%list_elem_of_filter _]). by rewrite add_ready_rdy, decide_True.
    + intros Hin [?|Hn]; [done|]. rewrite decide_True; [done|]. split; [by apply list_elem_of_filter|done].
  - split; [done|]. intros Hin _. by rewrite ap_zrem_all_rdy, decide_True.
Qed.

(** The score of a queued identity is its availability. *)
Definition scored (h : Hot) (eg i : Z) : Prop := ∀ x, rdy_of h eg !! i = Some x → x = sp_avail h eg i.

Lemma scored_zadd_xx h eg i m id cd ru marks :
  ap_id_get m i = Some id → h_id h = h_id (m_hot m) → h_acc h = h_acc (m_hot m) →
  sp_hs_cd_ru (h_hs h !! (eg, i)) = (cd, ru) →
  scored (mark_dirty marks (on_rdy eg (zadd_xx i (ap_avail (m_hot m) id cd ru)) h)) eg i.
Proof.
  intros Hid E1 E2 E3 x Hx. change (rdy_of (on_rdy eg (zadd_xx i (ap_avail (m_hot m) id cd ru)) h) eg !! i = Some x) in Hx.
  rewrite rdy_of_on_rdy, decide_True, zadd_xx_lookup, decide_True in Hx by done. apply fmap_Some in Hx as (y & _ & ->).
  symmetry. by apply (ap_avail_sp m).
Qed.

Lemma scored_rescored egs i h marks eg : eg ∈ egs → scored (mark_dirty marks (foldl (sp_rescore i) h egs)) eg i.
Proof.
  intros Hin x Hx. change (rdy_of (foldl (sp_rescore i) h egs) eg !! i = Some x) in Hx. rewrite sp_rescore_rdy in Hx by done.
  apply fmap_Some in Hx as (y & _ & ->). symmetry. destruct (sp_rescore_core i egs h) as [E1 E2 _ _].
  apply sp_avail_frame; [done|done|]. cbn. by rewrite foldl_hs.
Qed.

Lemma cooldown_endpoint_scored now op id s :
  ap_id_get (s_mat s) (OpSubject op) = Some id → Applied (cooldown_endpoint now op id s).1 = true →
  scored (site_hot (cooldown_endpoint now op id s).2) (OpGroup op) (OpSubject op).
Proof.
  intros Hid. unfold cooldown_endpoint. destruct (_ && _); [done|]. intros _. cbn [snd site_hot on_mat s_mat].
  set (t := default _ _). clearbody t. unfold site_hot. destruct (ap_has _ _); cbn [s_mat m_hot on_hot record_cooldown on_rcd].
  all: eapply (scored_zadd_xx _ _ _ (s_mat s)); [exact Hid|done|done|]; cbn; by rewrite lookup_insert_eq.
Qed.

Lemma clear_endpoint_scored now op id fails health s :
  ap_id_get (s_mat s) (OpSubject op) = Some id → Applied (clear_endpoint now op id fails health s).1 = true →
  scored (site_hot (clear_endpoint now op id fails health s).2) (OpGroup op) (OpSubject op).
Proof.
  intros Hid. unfold clear_endpoint. destruct (_ || _); [done|]. intros _. unfold site_hot. cbn [snd on_mat s_mat on_hot m_hot].
  set (t := sp_hs_unpack _ _ _). clearbody t.
  eapply (scored_zadd_xx _ _ _ (s_mat s)); [exact Hid|done|done|]. cbn. by rewrite lookup_insert_eq.
Qed.

Lemma clear_site_scored now op id fails health s eg :
  Applied (clear_site now op id fails health s).1 = true → eg ∈ Groups op →
  scored (site_hot (clear_site now op id fails health s).2) eg (OpSubject op).
Proof. unfold clear_site. destruct (_ || _); [done|]. intros _ Hin. by apply scored_rescored. Qed.

Lemma ap_activate_scored now op s eg :
  Applied (ap_activate now op s).1 = true → eg ∈ Groups op → scored (site_hot (ap_activate now op s).2) eg (OpSubject op).
Proof.
  unfold ap_activate. destruct (ap_id_get _ _) as [id|]; [|done]. destruct (negb _); [done|]. intros _ Hin x Hx.
  by apply (scored_rescored _ _ _ ∅ eg Hin x).
Qed.

Lemma ap_set_placed now op s :
  Applied (ap_set now op s).1 = true → OpScope op ≠ "ac" →
  ∃ h, site_hot (ap_set now op s).2 = place_identity op (OpSubject op) h.
Proof.
  intros Ha Hsc. revert Ha. unfold ap_set. apply String.eqb_neq in Hsc. rewrite Hsc. destruct (negb _); [done|].
  destruct (ap_id_get _ _) as [id|]; [|done]. destruct (_ >? _); [done|]. intros _. cbn [snd]. set (m := ap_reset_identity _ _ _ _ _ _ _).
  exists (m_hot m). clearbody m. by destruct (String.eqb (To op) "banned" && _).
Qed.

(** ** Claims *)

(** A call with a token that is retried returns the results of the first call
    and changes nothing, whatever the time and the operations of the retry. *)
Theorem apply_replays now token ops s now' ops' :
  token ≠ "" →
  let first := apply_lua now token ops s in apply_lua now' token ops' first.2 = first.
Proof.
  intros Ht first. apply String.eqb_neq in Ht. subst first. unfold apply_lua. rewrite Ht.
  destruct (s_axr s !! token) as [out|] eqn:E; cbn [snd]; [by rewrite E|].
  destruct (ap_operations now ops s) as [out s1]. cbn. by rewrite lookup_insert_eq.
Qed.

(** The ready queues agree with the availability rule after every applied
    operation that recomputes them: a cooldown or its revert on an endpoint
    group, a revert on the site and an activation leave a queued identity at its
    availability, and a manual state puts an active or pending identity at its
    availability in exactly the groups it is eligible for and takes any other
    identity out of its queues. *)
Theorem apply_scores now op s :
  let h' := site_hot (ap_operation now op s).2 in
  let i := OpSubject op in
  Applied (ap_operation now op s).1 = true →
  (string_in (Op op) ["cd"; "clr"] = true → OpScope op = "ie" →
     ∀ x, rdy_of h' (OpGroup op) !! i = Some x → x = sp_avail h' (OpGroup op) i) ∧
  (Op op = "act" ∨ Op op = "clr" ∧ OpScope op = "is" →
     ∀ eg x, eg ∈ Groups op → rdy_of h' eg !! i = Some x → x = sp_avail h' eg i) ∧
  (Op op = "set" → OpScope op ≠ "ac" → ∀ eg,
     (string_in (To op) ["active"; "pending"] = true → eg ∈ Add op → rdy_of h' eg !! i = Some (sp_avail h' eg i)) ∧
     (eg ∈ Groups op → string_in (To op) ["active"; "pending"] = false ∨ eg ∉ Add op → rdy_of h' eg !! i = None)).
Proof.
  intros h' i Ha. subst h' i. unfold ap_operation in *. split_and!.
  - intros Hop Hsc x. revert Ha. destruct (String.eqb_spec (Op op) "cd") as [Ecd|Ecd].
    + unfold ap_cooldown. rewrite Hsc. destruct (_ <=? _); [done|]. cbn. destruct (ap_id_get _ _) as [id|] eqn:Hid; [|done].
      intros Ha. by apply cooldown_endpoint_scored.
    + destruct (String.eqb_spec (Op op) "clr") as [E|E]; [rewrite E in *|unfold string_in in Hop; cbn in Hop; apply String.eqb_neq in Ecd, E; by rewrite Ecd, E in Hop].
      cbn. unfold ap_clear. rewrite Hsc. cbn. destruct (ap_id_get _ _) as [id|] eqn:Hid; [|done]. intros Ha. by apply clear_endpoint_scored.
  - intros [Hop|[Hop Hsc]] eg x Hin; rewrite Hop in *; cbn in *.
    + by apply ap_activate_scored.
    + revert Ha. unfold ap_clear. rewrite Hsc. cbn. destruct (ap_id_get _ _) as [id|]; [|done]. intros Ha. by apply clear_site_scored.
  - intros Hop Hsc eg. rewrite Hop in *. cbn in *. destruct (ap_set_placed now op s Ha Hsc) as [h ->]. apply place_identity_rdy.
Qed.

(** ** Runs *)

(** A site with two identities and no other key. *)
Definition demo_run : Site := on_mat (on_hot (λ _, demo_site)) no_site.

(** An endpoint cooldown of identity 10. *)
Definition demo_cooldown (u : Z) : luaOp :=
  {| Op := "cd"; OpScope := "ie"; OpSubject := 10; OpGroup := 1; Until := u; Flags := F_AUTO; Groups := []; Add := []; To := "";
     Trim := 0; PrevFail := 1; Baseline := f_of_Z 70; Baselines := ∅; Counters := []; Global := 0 |}.

Lemma apply_scores_witness : rdy_of (site_hot (ap_operation 1000 (demo_cooldown 9000) demo_run).2) 1 !! 10 = Some 9000.
Proof.
  destruct (rdy_of (site_hot (ap_operation 1000 (demo_cooldown 9000) demo_run).2) 1 !! 10) as [x|] eqn:E; [|vm_compute in E; discriminate E].
  f_equal. destruct (apply_scores 1000 (demo_cooldown 9000) demo_run) as [H _]; [vm_compute; reflexivity|].
  rewrite (H eq_refl eq_refl x E). vm_compute. reflexivity.
Defined.
