(* ===== verification/ActionExec.v ===== *)
(** * Execution of planned actions

    internal/action/executor.go: the actions that a report's evaluation plans are
    translated into operations of apply.lua, applied on the site of the report
    and, for proxy-global scopes, on every other site of the namespace.  The
    theorems follow an action from the policy to the scheduler: what is planned
    can be executed, an execution that is retried has the effect of one, no
    subject is softened, and a withheld identity is not leased. *)

From S2P Require Import Prelude GoStrings GoFloat PolicyBase GoTime LuaCommon PolicyAction PolicyRotation PolicySeverity PolicyEvaluate PolicyResolve Breaker.
From S2P Require Import SchedState SchedSelect SchedAcquire SchedLease SchedLedger SchedRefine SchedGrant SchedLoop SchedRun Scheduler HotSync ActionApply.

Local Open Scope Z_scope.

(** ** Inputs *)

(** What the executor reads of [catalog.EndpointGroup]. *)
Record GroupSnapshot := {
  gs_Client : string; gs_Key : Z; gs_Action : option CompiledAction; gs_Breaker : option BreakerSpec;
}.

(** [ReportContext] and the fields of [ExecInput]; the site and the namespace are
    given by the key of the site, its groups, and the keys of the other sites in
    the order in which the map is ranged over.  Times are Unix nanoseconds. *)
Record ExecInput := {
  SiteKey : Z; SiteGroups : list GroupSnapshot; PeerKeys : list Z; InGroup : option GroupSnapshot;
  LeaseID : string; ReportID : string; IdentityKey : Z; IdentityID : string; AccountKey : Z; ProxyKey : Z;
  ProxyID : string; InOutcome : string; Planned : list PlannedAction; InShadow : bool; Now : Z;
}.

(** [AppliedAction]; the zero time is [None]. *)
Record AppliedAction := {
  aa_Planned : PlannedAction; aa_SubjectKind : string; aa_SubjectID : string; aa_SubjectKey : Z;
  aa_FromState : string; aa_ToState : string; aa_Until : option Z; aa_Skipped : bool; aa_SkipReason : string;
}.

Definition SkipShadow : string := "shadow".
Definition SkipNoSubject : string := "no_subject".
Definition SkipInvalidDuration : string := "invalid_duration".
Definition SkipUnsupported : string := "unsupported".

Definition minRecentCooldownRetention : Z := 10 * Minute.
Definition flagAutomatic : Z := 1.
Definition flagRecordBans : Z := 16.

Record plan := {
  p_result : AppliedAction; p_op : luaOp; p_scope : string; p_global : bool; p_valid : bool; p_lua : luaResult;
}.

(** ** Operations *)

Definition no_op : luaOp :=
  {| Op := ""; OpScope := ""; OpSubject := 0; OpGroup := 0; Until := 0; Flags := 0; Groups := []; Add := []; To := "";
     Trim := 0; PrevFail := 0; Baseline := f_zero; Baselines := ∅; Counters := []; Global := 0 |}.
Definition subject_op (op scope : string) (subject until flags : Z) (groups : list Z) : luaOp :=
  {| Op := op; OpScope := scope; OpSubject := subject; OpGroup := 0; Until := until; Flags := flags; Groups := groups;
     Add := []; To := ""; Trim := 0; PrevFail := 0; Baseline := f_zero; Baselines := ∅; Counters := []; Global := 0 |}.

(** Milliseconds of a time; -1 for a permanent end, 0 for none. *)
Definition untilMs (t : option Z) (permanent : bool) : Z :=
  if permanent then -1 else match t with None => 0 | Some t => t / 1000000 end.
Definition msTime (ms : Z) : option Z := if ms <=? 0 then None else Some (ms * 1000000).

(** The keys of the groups of [client] ("" is every group), ascending. *)
Definition groupKeys (groups : list GroupSnapshot) (client : string) : list Z :=
  SortFunc Z.compare (gs_Key <$> filter (λ g, client = "" ∨ gs_Client g = client) groups).

Definition streakIncrement (outcome : string) : Z :=
  if IsFailureOutcome outcome || String.eqb outcome OutcomeNetworkError then 1 else 0.

Definition recentCooldownRetention (group : option GroupSnapshot) : Z :=
  match group ≫= gs_Breaker with
  | Some b => Z.max minRecentCooldownRetention (wrap64 (2 * bk_Window b))
  | None => minRecentCooldownRetention
  end.

(** The operation of an identity cooldown on the endpoint group of the report. *)
Definition cooldown_op (in' : ExecInput) (g : GroupSnapshot) (until : Z) : luaOp :=
  {| Op := "cd"; OpScope := "ie"; OpSubject := IdentityKey in'; OpGroup := gs_Key g; Until := until;
     Flags := flagAutomatic; Groups := []; Add := []; To := "";
     Trim := Duration_Milliseconds (recentCooldownRetention (Some g)); PrevFail := streakIncrement (InOutcome in');
     Baseline := from_option (λ a, h_Baseline (ac_Health a)) f_zero (gs_Action g); Baselines := ∅; Counters := [];
     Global := 0 |}.

(** The operation and whether it applies on every site; [None] when the action is
    not supported at the scope. *)
Definition buildOp (in' : ExecInput) (pa : PlannedAction) (scope : string) (until : Z) : option (luaOp * bool) :=
  let client := from_option gs_Client "" (InGroup in') in
  let identityGroups := groupKeys (SiteGroups in') client in
  let bans := Z.lor flagAutomatic flagRecordBans in
  if String.eqb (pa_Action pa) ActionCooldown then
    if String.eqb scope ScopeIdentityEndpoint then (λ g, (cooldown_op in' g until, false)) <$> InGroup in'
    else if String.eqb scope ScopeIdentitySite
    then Some (subject_op "cd" "is" (IdentityKey in') until flagAutomatic identityGroups, false)
    else if String.eqb scope ScopeAccount
    then Some (subject_op "cd" "ac" (AccountKey in') until flagAutomatic (groupKeys (SiteGroups in') ""), false)
    else if String.eqb scope ScopeProxySite then Some (subject_op "cd" "ps" (ProxyKey in') until flagAutomatic [], false)
    else if String.eqb scope ScopeProxy then Some (subject_op "cd" "pg" (ProxyKey in') until flagAutomatic [], true)
    else None
  else if String.eqb (pa_Action pa) ActionBan then
    if String.eqb scope ScopeIdentity
    then Some (subject_op "ban" "id" (IdentityKey in') until bans identityGroups, false)
    else if String.eqb scope ScopeAccount
    then Some (subject_op "ban" "ac" (AccountKey in') until bans (groupKeys (SiteGroups in') ""), false)
    else if String.eqb scope ScopeProxy then Some (subject_op "ban" "px" (ProxyKey in') until flagAutomatic [], true)
    else None
  else if String.eqb (pa_Action pa) ActionExpire then
    if String.eqb scope ScopeIdentity then Some (subject_op "exp" "id" (IdentityKey in') 0 0 identityGroups, false) else None
  else if String.eqb (pa_Action pa) ActionQuarantine then
    if String.eqb scope ScopeIdentity then Some (subject_op "qua" "id" (IdentityKey in') until 0 identityGroups, false)
    else if String.eqb scope ScopeProxy then Some (subject_op "qua" "px" (ProxyKey in') until 0 [], true)
    else None
  else if String.eqb (pa_Action pa) ActionActivate then
    if String.eqb scope ScopeIdentity then Some (subject_op "act" "id" (IdentityKey in') 0 0 identityGroups, false) else None
  else None.

(** ** Plans *)

Definition no_result : luaResult :=
  {| Applied := false; Reason := ""; r_From := ""; r_To := ""; r_Until := 0; Members := [] |}.

(** Account rules degrade to the identity when it has no account, and an identity
    cooldown covers its site. *)
Definition effective_scope (in' : ExecInput) (pa : PlannedAction) : string :=
  let scope :=
    if String.eqb (pa_Scope pa) ScopeAccount && (AccountKey in' =? 0)
    then if String.eqb (pa_Action pa) ActionCooldown then ScopeIdentitySite else ScopeIdentity
    else pa_Scope pa in
  if String.eqb (pa_Action pa) ActionCooldown && String.eqb scope ScopeIdentity then ScopeIdentitySite else scope.

(** The id and the key of the subject; the report knows no account id. *)
Definition subject_of (in' : ExecInput) (subject : string) : string * Z :=
  if String.eqb subject SubjectIdentity then (IdentityID in', IdentityKey in')
  else if String.eqb subject SubjectAccount then ("", AccountKey in')
  else if String.eqb subject SubjectProxy then (ProxyID in', ProxyKey in')
  else ("", 0).

(** The end of the action, or [None] when its duration is invalid. *)
Definition plan_until (pa : PlannedAction) (now : Z) : option (option Z) :=
  if string_in (pa_Action pa) [ActionCooldown; ActionQuarantine] then
    if pa_Duration pa <=? 0 then None else Some (Some (now + pa_Duration pa))
  else if String.eqb (pa_Action pa) ActionBan then
    if pa_Permanent pa then Some None
    else if pa_Duration pa <=? 0 then None else Some (Some (now + pa_Duration pa))
  else Some None.

Definition new_plan (in' : ExecInput) (pa : PlannedAction) (until : option Z) (reason : string) (op : option (luaOp * bool)) : plan :=
  let scope := effective_scope in' pa in
  let '(id, key) := subject_of in' (Subject scope) in
  let skip := match op with None => true | Some _ => false end in
  {| p_result := {| aa_Planned := pa; aa_SubjectKind := Subject scope; aa_SubjectID := id; aa_SubjectKey := key;
       aa_FromState := ""; aa_ToState := ""; aa_Until := until; aa_Skipped := skip;
       aa_SkipReason := if skip then reason else "" |};
     p_op := from_option fst no_op op; p_scope := scope; p_global := from_option snd false op; p_valid := negb skip;
     p_lua := no_result |}.

Definition buildPlan (in' : ExecInput) (pa : PlannedAction) (now : Z) : plan :=
  let scope := effective_scope in' pa in
  if (subject_of in' (Subject scope)).2 <=? 0 then new_plan in' pa None SkipNoSubject None
  else match plan_until pa now with
  | None => new_plan in' pa None SkipInvalidDuration None
  | Some until =>
      new_plan in' pa until SkipUnsupported
        (buildOp in' pa scope (untilMs until (String.eqb (pa_Action pa) ActionBan && pa_Permanent pa)))
  end.

(** ** Calls *)

(** What becomes of a call of the pipeline: it is answered, it is lost, or it runs
    and its answer is lost. *)
Inductive CallFate := call_done | call_lost | call_timeout.

(** The hot states of the sites of a namespace. *)
Definition site_at (sites : gmap Z Site) (k : Z) : Site := default no_site (sites !! k).

Section execute.
(** The digest of the arguments of a call, the first 12 bytes of a SHA-256 in hex. *)
Variable digest : Z → list luaOp → string.

Definition replayToken (in' : ExecInput) : string :=
  if String.eqb (ReportID in') "" then ""
  else String.append "r:" (String.append (LeaseID in') (String.append ":" (ReportID in'))).
Definition call_token (token : string) (nowMs : Z) (ops : list luaOp) : string :=
  if String.eqb token "" then "" else String.append token (String.append ":" (digest nowMs ops)).

(** One call: [None] is an error. *)
Definition run_call (fate : CallFate) (nowMs : Z) (token : string) (ops : list luaOp) (s : Site) :
    option (list luaResult) * Site :=
  match fate with
  | call_lost => (None, s)
  | call_timeout => (None, (apply_lua nowMs (call_token token nowMs ops) ops s).2)
  | call_done =>
      let '(out, s) := apply_lua nowMs (call_token token nowMs ops) ops s in
      (if bool_decide (length out = length ops) then Some out else None, s)
  end.

(** [runMulti]: one call per site; the sites differ. *)
Fixpoint runMulti (fates : Z → CallFate) (nowMs : Z) (token : string) (calls : list (Z * list luaOp))
    (sites : gmap Z Site) : list (option (list luaResult)) * gmap Z Site :=
  match calls with
  | [] => ([], sites)
  | (k, ops) :: calls =>
      let '(r, s) := run_call (fates k) nowMs token ops (site_at sites k) in
      let '(rs, sites) := runMulti fates nowMs token calls (<[k := s]> sites) in
      (r :: rs, sites)
  end.

Definition with_lua (r : luaResult) (p : plan) : plan :=
  {| p_result := p_result p; p_op := p_op p; p_scope := p_scope p; p_global := p_global p; p_valid := p_valid p;
     p_lua := r |}.

(** The results of the site of the report, in the order of the valid plans. *)
Fixpoint fill_results (plans : list plan) (rs : list luaResult) : list plan :=
  match plans with
  | [] => []
  | p :: plans =>
      if p_valid p then
        match rs with r :: rs => with_lua r p :: fill_results plans rs | [] => p :: fill_results plans [] end
      else p :: fill_results plans rs
  end.

(** A peer site's result replaces that of a proxy missing on the report's site. *)
Fixpoint merge_peer (plans : list plan) (rs : list luaResult) : list plan :=
  match plans with
  | [] => []
  | p :: plans =>
      if p_valid p && p_global p then
        match rs with
        | r :: rs =>
            (if Applied r && negb (Applied (p_lua p)) && String.eqb (Reason (p_lua p)) "missing" then with_lua r p else p)
              :: merge_peer plans rs
        | [] => p :: merge_peer plans []
        end
      else p :: merge_peer plans rs
  end.

(** The outcome of a plan that was applied or skipped by the script. *)
Definition settle (p : plan) : plan :=
  if p_valid p then
    let r := p_lua p in
    let a := p_result p in
    {| p_result := {| aa_Planned := aa_Planned a; aa_SubjectKind := aa_SubjectKind a; aa_SubjectID := aa_SubjectID a;
         aa_SubjectKey := aa_SubjectKey a; aa_FromState := r_From r; aa_ToState := r_To r; aa_Until := msTime (r_Until r);
         aa_Skipped := negb (Applied r); aa_SkipReason := Reason r |};
       p_op := p_op p; p_scope := p_scope p; p_global := p_global p; p_valid := p_valid p; p_lua := r |}
  else p.

Definition main_ops (plans : list plan) : list luaOp := p_op <$> filter (λ p, p_valid p = true) plans.
Definition global_ops (plans : list plan) : list luaOp := p_op <$> filter (λ p, p_valid p && p_global p = true) plans.

Definition site_calls (in' : ExecInput) (plans : list plan) : list (Z * list luaOp) :=
  (SiteKey in', main_ops plans) ::
  match global_ops plans with [] => [] | ops => (λ k, (k, ops)) <$> PeerKeys in' end.

Definition applyPlans (fates : Z → CallFate) (in' : ExecInput) (plans : list plan) (now : Z) (sites : gmap Z Site) :
    option (list plan) * gmap Z Site :=
  match main_ops plans with
  | [] => (Some plans, sites)
  | _ =>
      let '(rs, sites) := runMulti fates (now / 1000000) (replayToken in') (site_calls in' plans) sites in
      match rs with
      | Some r :: peers => (Some (settle <$> foldl merge_peer (fill_results plans r) (omap id peers)), sites)
      | _ => (None, sites)
      end
  end.

(** ** State changes *)

(** The fields of [StateChange] that depend on the plan; [ch_at] is the position of
    the plan and of the member from which the event id is derived. *)
Record StateChange := {
  ch_SubjectKind : string; ch_SubjectID : string; ch_SubjectKey : Z; ch_FromState : string; ch_ToState : string;
  ch_Action : string; ch_Scope : string; ch_Until : option Z; ch_Permanent : bool; ch_Rule : string; ch_Shadow : bool;
  ch_UpdateSubject : bool; ch_StateReason : string; ch_at : nat * Z;
}.

Definition baseChange (p : plan) (i : nat) (shadow update : bool) : StateChange :=
  let a := p_result p in
  let pa := aa_Planned a in
  {| ch_SubjectKind := aa_SubjectKind a; ch_SubjectID := aa_SubjectID a; ch_SubjectKey := aa_SubjectKey a;
     ch_FromState := aa_FromState a; ch_ToState := aa_ToState a; ch_Action := pa_Action pa; ch_Scope := p_scope p;
     ch_Until := aa_Until a; ch_Permanent := String.eqb (pa_Action pa) ActionBan && pa_Permanent pa;
     ch_Rule := pa_RuleName pa; ch_Shadow := shadow; ch_UpdateSubject := update; ch_StateReason := ""; ch_at := (i, -1) |}.
Definition member_change (c : StateChange) (j : nat) (m : memberChange) : StateChange :=
  {| ch_SubjectKind := SubjectIdentity; ch_SubjectID := mc_ID m; ch_SubjectKey := mc_Key m; ch_FromState := mc_From m;
     ch_ToState := mc_To m; ch_Action := ch_Action c; ch_Scope := ch_Scope c; ch_Until := ch_Until c;
     ch_Permanent := ch_Permanent c; ch_Rule := ch_Rule c; ch_Shadow := ch_Shadow c; ch_UpdateSubject := ch_UpdateSubject c;
     ch_StateReason := "account_ban"; ch_at := (fst (ch_at c), Z.of_nat j) |}.

Definition is_cooldown (p : plan) : bool := String.eqb (pa_Action (aa_Planned (p_result p))) ActionCooldown.

Definition enforced_changes (record_cooldowns : bool) (i : nat) (p : plan) : list StateChange :=
  if negb (p_valid p) || aa_Skipped (p_result p) || (is_cooldown p && negb record_cooldowns) then []
  else
    let c := baseChange p i false (negb (is_cooldown p)) in
    c :: imap (member_change c) (Members (p_lua p)).

Definition targetState (action : string) : string :=
  if String.eqb action ActionBan then "banned" else if String.eqb action ActionExpire then "expired"
  else if String.eqb action ActionQuarantine then "quarantined" else if String.eqb action ActionActivate then "active"
  else "".

Definition shadowed (p : plan) : plan :=
  if p_valid p then
    let a := p_result p in
    {| p_result := {| aa_Planned := aa_Planned a; aa_SubjectKind := aa_SubjectKind a; aa_SubjectID := aa_SubjectID a;
         aa_SubjectKey := aa_SubjectKey a; aa_FromState := aa_FromState a; aa_ToState := targetState (pa_Action (aa_Planned a));
         aa_Until := aa_Until a; aa_Skipped := true; aa_SkipReason := SkipShadow |};
       p_op := p_op p; p_scope := p_scope p; p_global := p_global p; p_valid := p_valid p; p_lua := p_lua p |}
  else p.
Definition shadow_changes (record_cooldowns : bool) (i : nat) (p : plan) : list StateChange :=
  if negb (p_valid p) || (is_cooldown p && negb record_cooldowns) then [] else [baseChange p i true false].

(** The applied actions and the state changes queued for PostgreSQL; [None] when
    the site of the report could not be updated. *)
Definition Execute (record_cooldowns : bool) (fates : Z → CallFate) (in' : ExecInput) (sites : gmap Z Site) :
    option (list AppliedAction * list StateChange) * gmap Z Site :=
  match Planned in' with
  | [] => (Some ([], []), sites)
  | planned =>
      let plans := (λ pa, buildPlan in' pa (Now in')) <$> planned in
      if InShadow in' || Shadow (InGroup in' ≫= gs_Action) then
        let plans := shadowed <$> plans in
        (Some (p_result <$> plans, mjoin (imap (shadow_changes record_cooldowns) plans)), sites)
      else
        let '(r, sites) := applyPlans fates in' plans (Now in') sites in
        ((λ plans, (p_result <$> plans, mjoin (imap (enforced_changes record_cooldowns) plans))) <$> r, sites)
  end.
End execute.

(** ** Retried executions *)

Lemma call_token_set digest token nowMs ops : token ≠ "" → call_token digest token nowMs ops ≠ "".
Proof. intros Ht. unfold call_token. apply String.eqb_neq in Ht as E. rewrite E. by destruct token. Qed.

(** A call that ran is answered from its record. *)
Lemma apply_lua_again nowMs token ops s :
  token ≠ "" → apply_lua nowMs token ops (apply_lua nowMs token ops s).2 = apply_lua nowMs token ops s.
Proof.
  intros Ht. apply String.eqb_neq in Ht. unfold apply_lua. rewrite Ht.
  destruct (s_axr s !! token) as [out|] eqn:E; cbn [snd]; [by rewrite E|].
  destruct (ap_operations nowMs ops s) as [out s1]. cbn. by rewrite lookup_insert_eq.
Qed.

Section retry.
Variable digest : Z → list luaOp → string.

Lemma run_call_again fate nowMs token ops s :
  token ≠ "" → run_call digest call_done nowMs token ops (run_call digest fate nowMs token ops s).2 =
    run_call digest call_done nowMs token ops s.
Proof.
  intros Ht. pose proof (apply_lua_again nowMs (call_token digest token nowMs ops) ops s (call_token_set _ _ _ _ Ht)) as H.
  destruct fate; cbn; [|done|]; destruct (apply_lua _ _ _ s) as [out s1]; cbn [snd] in *; by rewrite H.
Qed.

Lemma runMulti_spec fates nowMs token calls sites :
  NoDup calls.*1 →
  let r := runMulti digest fates nowMs token calls sites in
  r.1 = (λ c, (run_call digest (fates c.1) nowMs token c.2 (site_at sites c.1)).1) <$> calls ∧
  (∀ k, k ∉ calls.*1 → r.2 !! k = sites !! k) ∧
  (∀ k ops, (k, ops) ∈ calls → r.2 !! k = Some (run_call digest (fates k) nowMs token ops (site_at sites k)).2).
Proof.
  revert sites. induction calls as [|[k ops] calls IH]; intros sites Hd; cbv zeta.
  { split_and!; [done|done|]. intros k ops H. by apply not_elem_of_nil in H. }
  rewrite fmap_cons in Hd. apply NoDup_cons in Hd as [Hk Hd]. cbn [runMulti].
  destruct (run_call digest (fates k) nowMs token ops (site_at sites k)) as [r s] eqn:Er.
  destruct (IH (<[k := s]> sites) Hd) as (H1 & H2 & H3). cbv zeta in *.
  destruct (runMulti digest fates nowMs token calls (<[k := s]> sites)) as [rs sites']. cbn [fst snd] in *.
  assert (∀ j, j ∈ calls.*1 → site_at (<[k := s]> sites) j = site_at sites j) as Eq.
  { intros j Hj. unfold site_at. rewrite lookup_insert_ne; [done|]. intros ->. done. }
  split_and!.
  - cbn. rewrite Er. cbn. f_equal. rewrite H1. apply list_fmap_ext. intros n c Hc. rewrite Eq; [done|].
    apply list_elem_of_fmap. exists c. split; [done|]. by eapply list_elem_of_lookup_2.
  - intros j Hj. cbn in Hj. apply not_elem_of_cons in Hj as [Hj1 Hj2]. rewrite H2 by done. by apply lookup_insert_ne.
  - intros j ops' Hin. apply elem_of_cons in Hin as [[= -> ->]|Hin].
    + rewrite H2 by done. by rewrite lookup_insert_eq, Er.
    + rewrite (H3 _ _ Hin). rewrite Eq; [done|]. apply list_elem_of_fmap. by exists (j, ops').
Qed.

Lemma runMulti_again fates nowMs token calls sites :
  NoDup calls.*1 → token ≠ "" →
  runMulti digest (λ _, call_done) nowMs token calls (runMulti digest fates nowMs token calls sites).2 =
  runMulti digest (λ _, call_done) nowMs token calls sites.
Proof.
  intros Hd Ht. set (s1 := (runMulti digest fates nowMs token calls sites).2).
  destruct (runMulti_spec fates nowMs token calls sites Hd) as (_ & A2 & A3). fold s1 in A2, A3.
  destruct (runMulti_spec (λ _, call_done) nowMs token calls s1 Hd) as (B1 & B2 & B3).
  destruct (runMulti_spec (λ _, call_done) nowMs token calls sites Hd) as (C1 & C2 & C3). cbv zeta in *.
  assert (∀ k ops, (k, ops) ∈ calls → run_call digest call_done nowMs token ops (site_at s1 k) =
    run_call digest call_done nowMs token ops (site_at sites k)) as Eq.
  { intros k ops Hin. unfold site_at at 1. rewrite (A3 _ _ Hin). by apply run_call_again. }
  apply injective_projections.
  - rewrite B1, C1. apply list_fmap_ext. intros n [k ops] Hc. cbn [fst snd]. by rewrite (Eq k ops) by (by eapply list_elem_of_lookup_2).
  - apply map_eq. intros k. destruct (decide (k ∈ calls.*1)) as [Hin|Hni].
    + apply list_elem_of_fmap in Hin as ([k' ops] & -> & Hin). cbn [fst]. by rewrite (B3 _ _ Hin), (C3 _ _ Hin), Eq.
    + by rewrite B2, C2, A2.
Qed.

Lemma site_calls_keys in' plans : NoDup (SiteKey in' :: PeerKeys in') → NoDup (site_calls in' plans).*1.
Proof.
  intros Hd. unfold site_calls. destruct (global_ops plans) as [|op ops]; cbn; [constructor; [apply not_elem_of_nil|constructor]|].
  rewrite <- list_fmap_compose. by rewrite (list_fmap_ext _ id) by done; rewrite list_fmap_id.
Qed.

Lemma applyPlans_again fates in' plans now sites :
  NoDup (SiteKey in' :: PeerKeys in') → ReportID in' ≠ "" →
  applyPlans digest (λ _, call_done) in' plans now (applyPlans digest fates in' plans now sites).2 =
  applyPlans digest (λ _, call_done) in' plans now sites.
Proof.
  intros Hd Hr. unfold applyPlans. destruct (main_ops plans) eqn:Em; [done|].
  assert (replayToken in' ≠ "") as Ht by (unfold replayToken; apply String.eqb_neq in Hr; by rewrite Hr).
  pose proof (runMulti_again fates (now / 1000000) (replayToken in') (site_calls in' plans) sites
    (site_calls_keys _ _ Hd) Ht) as H.
  destruct (runMulti digest fates _ _ _ sites) as [rs s1]. cbn [snd] in H.
  assert ((match rs with Some r :: peers => (Some (settle <$> foldl merge_peer (fill_results plans r) (omap id peers)), s1)
    | _ => (None, s1) end).2 = s1) as -> by (by destruct rs as [|[r|] rs]).
  by rewrite H.
Qed.

Lemma Execute_again rc fates in' sites :
  NoDup (SiteKey in' :: PeerKeys in') → ReportID in' ≠ "" →
  Execute digest rc (λ _, call_done) in' (Execute digest rc fates in' sites).2 = Execute digest rc (λ _, call_done) in' sites.
Proof.
  intros Hd Hr. unfold Execute. destruct (Planned in') as [|pa planned]; [done|]. destruct (_ || _); [done|].
  pose proof (applyPlans_again fates in' ((λ pa, buildPlan in' pa (Now in')) <$> pa :: planned) (Now in') sites Hd Hr) as H.
  destruct (applyPlans digest fates _ _ _ sites) as [r s1]. cbn [snd] in *. by rewrite H.
Qed.
End retry.

(** ** Operations of planned actions *)

Lemma buildOp_automatic in' pa scope until op g : buildOp in' pa scope until = Some (op, g) → automatic op.
Proof.
  unfold buildOp. repeat (destruct (String.eqb _ _)); try done; intros H;
    solve [by simplify_eq | apply fmap_Some in H as (gr & _ & H); by simplify_eq].
Qed.

Lemma buildPlan_valid in' pa now :
  p_valid (buildPlan in' pa now) = true →
  ∃ until op, plan_until pa now = Some until ∧
    buildOp in' pa (effective_scope in' pa) (untilMs until (String.eqb (pa_Action pa) ActionBan && pa_Permanent pa)) = Some op ∧
    p_op (buildPlan in' pa now) = op.1 ∧ p_global (buildPlan in' pa now) = op.2.
Proof.
  unfold buildPlan, new_plan. destruct (subject_of _ _) as [id key]. cbn [snd]. destruct (key <=? 0); [done|].
  destruct (plan_until pa now) as [until|]; [|done]. destruct (buildOp _ _ _ _) as [[op g]|] eqn:E; [|done].
  intros _. exists until, (op, g). done.
Qed.

Lemma calls_forall (P : luaOp → Prop) in' (planned : list PlannedAction) now c :
  (∀ pa scope until op g, pa ∈ planned → buildOp in' pa scope until = Some (op, g) → P op) →
  c ∈ site_calls in' ((λ pa, buildPlan in' pa now) <$> planned) → Forall P c.2.
Proof.
  intros HP. set (plans := (λ pa, buildPlan in' pa now) <$> planned). unfold site_calls.
  assert (∀ p, p ∈ plans → p_valid p = true → P (p_op p)) as Hp.
  { intros p (pa & -> & Hpa)%list_elem_of_fmap Hv. apply buildPlan_valid in Hv as (until & [op g] & _ & Hb & -> & _). by eapply HP. }
  assert (Forall P (main_ops plans)) as Hm.
  { apply Forall_fmap, Forall_forall. intros p [Hv Hin]%list_elem_of_filter. by apply Hp. }
  assert (Forall P (global_ops plans)) as Hg.
  { apply Forall_fmap, Forall_forall. intros p [[Hv _]%andb_true_iff Hin]%list_elem_of_filter. by apply Hp. }
  intros [->|Hin]%elem_of_cons; [done|]. destruct (global_ops plans); [by apply not_elem_of_nil in Hin|].
  by apply list_elem_of_fmap in Hin as (k & -> & _).
Qed.

Lemma calls_automatic in' (planned : list PlannedAction) now c :
  c ∈ site_calls in' ((λ pa, buildPlan in' pa now) <$> planned) → Forall automatic c.2.
Proof. apply calls_forall. intros. by eapply buildOp_automatic. Qed.

(** Only the activate action activates. *)
Lemma buildOp_activates in' pa scope until op g :
  buildOp in' pa scope until = Some (op, g) → Op op = "act" → pa_Action pa = ActionActivate.
Proof.
  unfold buildOp. destruct (String.eqb_spec (pa_Action pa) ActionActivate) as [->|Hne]; [done|].
  repeat (destruct (String.eqb _ _)); try done; intros H;
    solve [by simplify_eq | apply fmap_Some in H as (gr & _ & H); by simplify_eq].
Qed.

(** Whether the planned actions activate anything. *)
Definition activating (planned : list PlannedAction) : bool := existsb (λ pa, String.eqb (pa_Action pa) ActionActivate) planned.

Section effects.
Variable digest : Z → list luaOp → string.

Lemma run_call_escalates act fate nowMs token ops s :
  Forall (λ op, automatic op ∧ (Op op = "act" → act = true)) ops → escalates act (s_mat s) (s_mat (run_call digest fate nowMs token ops s).2).
Proof.
  intros Ha. pose proof (apply_lua_escalates nowMs (call_token digest token nowMs ops) ops s Ha) as H.
  destruct fate; cbn; [|done|done]. by destruct (apply_lua _ _ _ s).
Qed.

(** The hot state of a site after an execution is that of its call, if it has one. *)
Lemma applyPlans_sites fates in' plans now sites :
  NoDup (SiteKey in' :: PeerKeys in') →
  ∀ k, site_at (applyPlans digest fates in' plans now sites).2 k = site_at sites k ∨
    ∃ ops, (k, ops) ∈ site_calls in' plans ∧
      site_at (applyPlans digest fates in' plans now sites).2 k =
      (run_call digest (fates k) (now / 1000000) (replayToken in') ops (site_at sites k)).2.
Proof.
  intros Hd k. unfold applyPlans. destruct (main_ops plans); [by left|].
  destruct (runMulti_spec digest fates (now / 1000000) (replayToken in') (site_calls in' plans) sites (site_calls_keys _ _ Hd)) as (_ & H2 & H3).
  destruct (runMulti digest fates _ _ _ sites) as [rs s1]. cbn [snd] in *.
  assert ((match rs with Some r :: peers => (Some (settle <$> foldl merge_peer (fill_results plans r) (omap id peers)), s1)
    | _ => (None, s1) end).2 = s1) as -> by (by destruct rs as [|[r|] rs]).
  destruct (decide (k ∈ (site_calls in' plans).*1)) as [Hin|Hni].
  - apply list_elem_of_fmap in Hin as ([k' ops] & -> & Hin). cbn [fst] in *. right. exists ops. split; [done|]. unfold site_at at 1. by rewrite (H3 _ _ Hin).
  - left. unfold site_at. by rewrite H2.
Qed.

Lemma Execute_escalates rc fates in' sites k :
  NoDup (SiteKey in' :: PeerKeys in') →
  escalates (activating (Planned in')) (s_mat (site_at sites k)) (s_mat (site_at (Execute digest rc fates in' sites).2 k)).
Proof.
  intros Hd. unfold Execute. destruct (Planned in') as [|pa planned]; [done|]. destruct (_ || _); [done|].
  set (plans := _ <$> _). pose proof (applyPlans_sites fates in' plans (Now in') sites Hd k) as H.
  destruct (applyPlans digest fates in' plans (Now in') sites) as [r s1]. cbn [snd] in *.
  destruct H as [->|(ops & Hin & ->)]; [done|]. apply run_call_escalates. revert Hin.
  apply (calls_forall _ in' (pa :: planned) (Now in') (k, ops)). intros pa' scope until op g Hpa Hb. split; [by eapply buildOp_automatic|].
  intros Hop. apply existsb_exists. exists pa'. split; [by apply list_elem_of_In|]. by apply String.eqb_eq, (buildOp_activates _ _ _ _ _ _ Hb).
Qed.

(** The result of an operation within a call. *)
Lemma ap_operations_nth now ops s j r :
  (ap_operations now ops s).1 !! j = Some r →
  ∃ pre op post s0, ops = pre ++ op :: post ∧ length pre = j ∧ (ap_operation now op s0).1 = r ∧
    (ap_operations now ops s).2 = (ap_operations now post (ap_operation now op s0).2).2.
Proof.
  revert s j. induction ops as [|op ops IH]; intros s j; [done|]. cbn [ap_operations].
  destruct (ap_operation now op s) as [r1 s1] eqn:E1. specialize (IH s1). destruct (ap_operations now ops s1) as [out s2] eqn:E2.
  cbn [fst snd]. destruct j as [|j]; cbn.
  - intros [= ->]. exists [], op, ops, s. rewrite E1. cbn. by rewrite E2.
  - intros H. destruct (IH _ H) as (pre & op' & post & s0 & -> & <- & <- & H'). exists (op :: pre), op', post, s0. done.
Qed.
End effects.

(** ** Identities that are kept off *)

(** The identity cannot be leased on the group at the time: it is neither active
    nor pending, or it cools down on the site or on the group. *)
Definition kept_off (h : Hot) (i eg t : Z) : Prop :=
  ∃ d, h_id h !! i = Some d ∧ (is_ready (id_st d) = false ∨ t < id_scd d ∨ t < cd_of h eg i).

Lemma kept_off_not_leased {lua : LuaMath} args h moved out h' i :
  acquire_ready args h → acquire_lua args h = (ReplyOK moved out, h') →
  kept_off h i (a_eg args) (a_now args) → i ∉ lo_i <$> out.
Proof.
  intros Hr H (d & Hd & Hk) (o & -> & Ho)%list_elem_of_fmap. apply acquire_lua_ok in H as [_ [_ _ Hg _ _]]; [|done].
  rewrite Forall_forall in Hg. destruct (Hg o Ho) as (c & sticky & [Hid Hhs Hrd Hav _ _ _ _] & Ei & _). rewrite <- Ei in *.
  destruct Hid as (d0 & Hd0 & Hc). rewrite Hd in Hd0. injection Hd0 as <-.
  assert (id_st (c_id c) = id_st d ∧ id_scd (c_id c) = id_scd d) as [Est Escd] by (rewrite Hc; unfold read_identity; by destruct (_ || _)).
  rewrite Est in Hrd. destruct Hk as [Hk|Hk]; [congruence|].
  assert (hs_cd (c_hs c) = cd_of h (a_eg args) (lo_i o)) as Ecd
    by (rewrite Hhs; unfold cd_of, sp_hs_unpack; by destruct (h_hs h !! _)).
  assert (Z.max (hs_cd (c_hs c)) (id_scd (c_id c)) ≤ (avail_bound args h (c_id c) (c_hs c) sticky).1) as Hle; [|lia].
  unfold avail_bound. set (av := if _ && _ then _ else _). assert (Z.max (hs_cd (c_hs c)) (id_scd (c_id c)) ≤ av) as Hav'.
  { subst av. clear. destruct sticky, (id_al (c_id c) >? 0); cbn [andb]; try lia;
      match goal with |- context [?a >? ?b] => destruct (Z.gtb_spec a b); lia end. }
  clearbody av. destruct (id_acc (c_id c)); [|done]. unfold account_avail. cbn [fst]. repeat case_match; lia.
Qed.

(** Cooldowns of identities end no earlier than before. *)
Record cools (h h' : Hot) : Prop := {
  cl_cd : ∀ eg i, cd_of h eg i ≤ cd_of h' eg i;
  cl_scd : ∀ i d, h_id h !! i = Some d → ∃ d', h_id h' !! i = Some d' ∧ id_scd d ≤ id_scd d';
}.
#[export] Instance cools_preorder : PreOrder cools.
Proof.
  split; [split; [done|]; intros i d Hd; by exists d|]. intros h1 h2 h3 [C1 S1] [C2 S2]. split.
  - intros eg i. etrans; [apply C1|apply C2].
  - intros i d Hd. destruct (S1 i d Hd) as (d1 & Hd1 & ?). destruct (S2 i d1 Hd1) as (d2 & Hd2 & ?). exists d2. split; [done|lia].
Qed.

Lemma same_cools h h' : h_id h' = h_id h → h_hs h' = h_hs h → cools h h'.
Proof. intros Ei Eh. split; [intros eg i; unfold cd_of; by rewrite Eh|]. intros i d Hd. exists d. by rewrite Ei. Qed.

Lemma alter_cools f i h : (∀ d, id_scd d ≤ id_scd (f d)) → cools h (on_id (alter f i) h).
Proof.
  intros Hf. split; [done|]. intros j d Hd. cbn. destruct (decide (i = j)) as [<-|Hne].
  - rewrite lookup_alter_eq, Hd. by eexists.
  - rewrite lookup_alter_ne by done. by exists d.
Qed.

Lemma zrem_cools egs i h : cools h (ap_zrem_all egs i h).
Proof. apply same_cools; [apply ap_zrem_all_core|by apply foldl_hs]. Qed.
Lemma push_cools egs i u h : cools h (sp_push_all egs i u h).
Proof. apply same_cools; [apply sp_push_all_core|by apply foldl_hs]. Qed.
Lemma push_members_cools egs u l h : cools h (foldl (λ h i, sp_push_all egs i u h) h l).
Proof. apply same_cools; [apply push_members_core|]. apply foldl_hs. intros. by apply foldl_hs. Qed.

Lemma withdraw_cools now op i st bu qu m :
  cools (m_hot m) (m_hot (on_hot (ap_zrem_all (Groups op) i) (hset_life i st bu qu now m))).
Proof. etrans; [|apply zrem_cools]. by apply alter_cools. Qed.

Section cools.
Variable now : Z.

Lemma ap_ban_identity_cools op i u m : cools (m_hot m) (m_hot (ap_ban_identity now op i u m).2).
Proof.
  unfold ap_ban_identity. destruct (ap_id_get m i); [|done]. destruct (_ && _); [done|]. destruct (_ && _); [done|].
  etrans; [apply (withdraw_cools now op i "banned" u 0)|]. cbn [snd]. by destruct (ap_has _ F_BANS).
Qed.

Lemma ban_members_cools op l acc : cools (m_hot acc.1) (m_hot (foldl (ban_member now op) acc l).1).
Proof.
  revert acc. induction l as [|i l IH]; intros [m out]; [done|]. cbn [foldl]. etrans; [|apply IH]. cbn [ban_member fst].
  pose proof (ap_ban_identity_cools op i (Until op) m) as H. by destruct (ap_ban_identity _ _ _ _ _) as [[[ok reason] from] m'].
Qed.

Lemma ap_cooldown_cools op s :
  ap_has (Flags op) F_FORCE = false → cools (site_hot s) (site_hot (ap_cooldown now op s).2).
Proof.
  intros Hf. unfold ap_cooldown. destruct (Z.leb_spec (Until op) 0) as [|Hu]; [done|]. destruct (string_in _ _).
  { destruct (ap_id_get _ _) as [id|] eqn:Hid; [|done]. destruct (String.eqb _ _).
    - unfold cooldown_endpoint. rewrite Hf. set (t := default _ _). destruct (_ && _) eqn:E; [done|].
      apply andb_false_iff in E as [E|E]; [|done]. rewrite Z.geb_leb in E. apply Z.leb_gt in E. cbn [snd].
      assert (∀ eg i, cd_of (site_hot s) eg i ≤ cd_of (on_hs (<[(OpGroup op, OpSubject op) := with_hs_cd (Until op) t]>) (site_hot s)) eg i) as H.
      { intros eg i. unfold cd_of. cbn. destruct (decide ((OpGroup op, OpSubject op) = (eg, i))) as [[= <- <-]|Hne]; [|by rewrite lookup_insert_ne].
        rewrite lookup_insert_eq. cbn. subst t. destruct (h_hs (site_hot s) !! _) as [t|]; cbn in *; lia. }
      destruct (ap_has _ F_AUTO); (split; [exact H|intros i d Hd; by exists d]).
    - unfold cooldown_site. rewrite Hf. destruct (_ && _) eqn:E; [done|]. apply andb_false_iff in E as [E|E]; [|done].
      rewrite Z.geb_leb in E. apply Z.leb_gt in E.
      assert (cools (site_hot s) (on_id (alter (with_scd (Until op)) (OpSubject op)) (site_hot s))) as H.
      { split; [done|]. intros j d Hd. cbn. destruct (decide (OpSubject op = j)) as [<-|Hne]; [|rewrite lookup_alter_ne by done; by exists d].
        rewrite lookup_alter_eq, Hd. eexists. split; [done|]. cbn. unfold ap_id_get in Hid. unfold site_hot in Hd. rewrite Hd in Hid.
        cbn in Hid. simplify_eq. cbn in E. lia. }
      etrans; [exact H|]. cbn [snd]. destruct (ap_has _ F_AUTO);
        (etrans; [apply (push_cools (Groups op) (OpSubject op) (Until op))|by apply same_cools]). }
  destruct (String.eqb _ _).
  { unfold cooldown_account. destruct (h_acc _ !! _) as [c|]; [|done]. destruct (_ && _); [done|].
    etrans; [|apply push_members_cools]. by apply same_cools. }
  destruct (string_in _ _); [|done]. unfold cooldown_proxy. destruct (h_px _ !! _) as [d|]; [|done].
  destruct (_ && _); [done|]. by apply same_cools.
Qed.

Lemma ap_ban_cools op s : cools (site_hot s) (site_hot (ap_ban now op s).2).
Proof.
  unfold ap_ban. destruct (_ =? _); [done|]. destruct (String.eqb _ _).
  { pose proof (ap_ban_identity_cools op (OpSubject op) (Until op) (s_mat s)) as H.
    destruct (ap_ban_identity _ _ _ _ _) as [[[ok reason] from] m']. by destruct ok. }
  destruct (String.eqb _ _).
  { unfold ban_account. destruct (h_acc _ !! _) as [c|]; [|done]. destruct (_ && _); [done|]. destruct (_ && _); [done|].
    set (m1 := on_accsct _ _). pose proof (ban_members_cools op (members_of (OpSubject op) m1) (m1, [])) as H.
    assert (cools (site_hot s) (m_hot m1)) as H1 by (by apply same_cools).
    destruct (foldl _ _ _) as [m' members]. by etrans. }
  destruct (String.eqb _ _); [|done]. unfold ban_proxy. destruct (h_px _ !! _) as [d|]; [|done].
  destruct (_ && _); [done|]. destruct (_ && _); [done|]. by apply same_cools.
Qed.

Lemma ap_operation_cools op s : automatic op → cools (site_hot s) (site_hot (ap_operation now op s).2).
Proof.
  intros [Hop Hf]. unfold ap_operation. destruct (String.eqb (Op op) "cd") eqn:E1; [by apply ap_cooldown_cools|].
  destruct (String.eqb (Op op) "ban") eqn:E2; [apply ap_ban_cools|]. destruct (String.eqb (Op op) "exp") eqn:E3.
  { unfold ap_expire. destruct (ap_id_get _ _); [|done]. do 3 (destruct (_ && _); [done|]). apply withdraw_cools. }
  destruct (String.eqb (Op op) "qua") eqn:E4.
  { unfold ap_quarantine. destruct (_ <=? _); [done|]. destruct (String.eqb (OpScope op) "id").
    - unfold quarantine_identity. destruct (ap_id_get _ _); [|done]. do 3 (destruct (_ && _); [done|]). apply withdraw_cools.
    - destruct (String.eqb (OpScope op) "px"); [|done]. unfold quarantine_proxy. destruct (h_px _ !! _); [|done].
      do 3 (destruct (_ && _); [done|]). by apply same_cools. }
  destruct (String.eqb (Op op) "act") eqn:E5.
  { unfold ap_activate. destruct (ap_id_get _ _); [|done]. destruct (negb _); [done|].
    etrans; [by apply (alter_cools (with_st "active") (OpSubject op))|]. etrans; [by apply (alter_cools (with_act now) (OpSubject op))|].
    apply same_cools; [apply sp_rescore_core|by apply foldl_hs]. }
  unfold string_in in Hop. cbn in Hop. by rewrite E1, E2, E3, E4, E5 in Hop.
Qed.

Lemma ap_operations_cools ops s : Forall automatic ops → cools (site_hot s) (site_hot (ap_operations now ops s).2).
Proof.
  intros Ha. revert s. induction Ha as [|op ops Hop _ IH]; intros s; [done|]. cbn [ap_operations].
  pose proof (ap_operation_cools op s Hop) as H. destruct (ap_operation now op s) as [r s1]. specialize (IH s1).
  destruct (ap_operations now ops s1) as [out s2]. cbn [snd] in *. by etrans.
Qed.
End cools.

Lemma id_view_hash m i : id_view m i = (λ d, id_sev (id_st d) (from_option lf_bu 0 (m_idlife m !! i)) (from_option lf_qu 0 (m_idlife m !! i))) <$> h_id (m_hot m) !! i.
Proof. unfold id_view, ap_id_get. by destruct (h_id (m_hot m) !! i). Qed.

Lemma severity_not_ready act st bu qu st' bu' qu' :
  severity_le act (id_sev st bu qu) (id_sev st' bu' qu') → is_ready st = false → is_ready st' = false.
Proof.
  intros Hle Hr. destruct (is_ready st') eqn:Hr'; [|done]. exfalso. assert (state_rank st' = 0) as E0.
  { apply orb_true_iff in Hr' as [->%String.eqb_eq| ->%String.eqb_eq]; done. }
  assert (0 ≤ state_rank st) by (unfold state_rank; repeat case_match; lia).
  destruct Hle as [[? _]|(_ & [E|(_ & E & _)] & _)]; cbn in *; [lia|congruence|by rewrite E in Hr].
Qed.

Lemma kept_off_mono act m m' i eg t :
  escalates act m m' → cools (m_hot m) (m_hot m') → kept_off (m_hot m) i eg t → kept_off (m_hot m') i eg t.
Proof.
  intros [He _ _] [Hc Hs] (d & Hd & Hk). destruct (Hs i d Hd) as (d' & Hd' & Hle). exists d'. split; [done|].
  specialize (Hc eg i). destruct Hk as [Hr|[Hk|Hk]]; [left|right; lia..].
  destruct (He i (id_sev (id_st d) (from_option lf_bu 0 (m_idlife m !! i)) (from_option lf_qu 0 (m_idlife m !! i)))) as (v' & Hv & Hsev).
  { by rewrite id_view_hash, Hd. }
  rewrite id_view_hash, Hd' in Hv. cbn in Hv. simplify_eq. by eapply severity_not_ready.
Qed.


Lemma withdrawn now op i st bu qu m id eg t :
  ap_id_get m i = Some id → is_ready st = false →
  kept_off (m_hot (on_hot (ap_zrem_all (Groups op) i) (hset_life i st bu qu now m))) i eg t.
Proof.
  intros Hid Hr. unfold ap_id_get in Hid. destruct (h_id (m_hot m) !! i) as [d|] eqn:Hd; [|done].
  exists (with_st st d). split; [|by left]. cbn. rewrite (sm_id _ _ (ap_zrem_all_core _ _ _)). cbn. by rewrite lookup_alter_eq, Hd.
Qed.

Section operation.
Variables (now : Z) (op : luaOp) (s : Site).
Abbreviation after := (site_hot (ap_operation now op s).2).

Lemma ban_kept_off eg t :
  Op op = "ban" → OpScope op = "id" → Applied (ap_operation now op s).1 = true → kept_off after (OpSubject op) eg t.
Proof.
  unfold ap_operation. intros -> Hsc. cbn. unfold ap_ban. rewrite Hsc. destruct (_ =? 0); [done|]. cbn. unfold ap_ban_identity.
  destruct (ap_id_get _ _) as [id|] eqn:Hid; [|done]. destruct (_ && _); [done|]. destruct (_ && _); [done|]. intros _.
  pose proof (withdrawn now op (OpSubject op) "banned" (Until op) 0 (s_mat s) id eg t Hid eq_refl) as H.
  by destruct (ap_has _ F_BANS).
Qed.

Lemma expire_kept_off eg t :
  Op op = "exp" → Applied (ap_operation now op s).1 = true → kept_off after (OpSubject op) eg t.
Proof.
  unfold ap_operation. intros ->. cbn. unfold ap_expire. destruct (ap_id_get _ _) as [id|] eqn:Hid; [|done].
  do 3 (destruct (_ && _); [done|]). intros _. by eapply withdrawn.
Qed.

Lemma quarantine_kept_off eg t :
  Op op = "qua" → OpScope op = "id" → Applied (ap_operation now op s).1 = true → kept_off after (OpSubject op) eg t.
Proof.
  unfold ap_operation. intros -> Hsc. cbn. unfold ap_quarantine. rewrite Hsc. destruct (_ <=? 0); [done|]. cbn.
  unfold quarantine_identity. destruct (ap_id_get _ _) as [id|] eqn:Hid; [|done].
  do 3 (destruct (_ && _); [done|]). intros _. by eapply withdrawn.
Qed.

Lemma site_cooldown_kept_off eg t :
  Op op = "cd" → OpScope op = "is" → Applied (ap_operation now op s).1 = true → t < Until op → kept_off after (OpSubject op) eg t.
Proof.
  unfold ap_operation. intros -> Hsc. cbn. unfold ap_cooldown. rewrite Hsc. destruct (_ <=? 0); [done|]. cbn.
  destruct (ap_id_get _ _) as [id|] eqn:Hid; [|done]. unfold cooldown_site. destruct (_ && _); [done|]. intros _ Ht. cbn [snd].
  unfold ap_id_get in Hid. destruct (h_id (m_hot (s_mat s)) !! OpSubject op) as [d|] eqn:Hd; [|done].
  exists (with_scd (Until op) d). split; [|right; by left]. unfold site_hot. destruct (ap_has _ F_AUTO); cbn;
    rewrite (sm_id _ _ (sp_push_all_core _ _ _ _)); cbn; by rewrite lookup_alter_eq, Hd.
Qed.

Lemma endpoint_cooldown_kept_off t :
  Op op = "cd" → OpScope op = "ie" → Applied (ap_operation now op s).1 = true → t < Until op →
  kept_off after (OpSubject op) (OpGroup op) t.
Proof.
  unfold ap_operation. intros -> Hsc. cbn. unfold ap_cooldown. rewrite Hsc. destruct (_ <=? 0); [done|]. cbn.
  destruct (ap_id_get _ _) as [id|] eqn:Hid; [|done]. unfold cooldown_endpoint. destruct (_ && _); [done|]. intros _ Ht. cbn [snd].
  unfold ap_id_get in Hid. destruct (h_id (m_hot (s_mat s)) !! OpSubject op) as [d|] eqn:Hd; [|done].
  exists d. unfold site_hot, cd_of. destruct (ap_has _ F_AUTO); cbn; (split; [done|]); right; right; by rewrite lookup_insert_eq.
Qed.
End operation.

(** *** Results of plans *)

Lemma main_ops_cons q plans : main_ops (q :: plans) = if p_valid q then p_op q :: main_ops plans else main_ops plans.
Proof. unfold main_ops. rewrite filter_cons. by destruct (p_valid q). Qed.

Lemma fill_results_nth plans rs j p :
  plans !! j = Some p → p_valid p = true → length rs = length (main_ops plans) →
  ∃ n r, main_ops plans !! n = Some (p_op p) ∧ rs !! n = Some r ∧ fill_results plans rs !! j = Some (with_lua r p).
Proof.
  revert rs j. induction plans as [|q plans IH]; intros rs j Hp Hv Hlen; [done|]. rewrite main_ops_cons in *. cbn [fill_results].
  destruct (p_valid q) eqn:Hq.
  - destruct rs as [|r rs]; [done|]. cbn in Hlen. destruct j as [|j].
    + cbn in Hp. simplify_eq. by exists 0%nat, r.
    + destruct (IH rs j Hp Hv) as (n & r' & H1 & H2 & H3); [lia|]. exists (S n), r'. done.
  - destruct j as [|j]; [cbn in Hp; congruence|]. by apply IH.
Qed.

Lemma merge_peer_nth plans rs j p :
  plans !! j = Some p → p_global p = false → merge_peer plans rs !! j = Some p.
Proof.
  revert rs j. induction plans as [|q plans IH]; intros rs j Hp Hg; [done|]. cbn [merge_peer].
  destruct j as [|j]; cbn in Hp.
  - simplify_eq. rewrite Hg, andb_false_r. done.
  - destruct (_ && _); [|by apply IH]. destruct rs; by apply IH.
Qed.

Lemma merge_peers_nth plans rss j p :
  plans !! j = Some p → p_global p = false → foldl merge_peer plans rss !! j = Some p.
Proof. revert plans. induction rss as [|rs rss IH]; intros plans Hp Hg; [done|]. cbn. apply IH; [|done]. by apply merge_peer_nth. Qed.

Lemma length_fill_results plans rs : length (fill_results plans rs) = length plans.
Proof. revert rs. induction plans as [|q plans IH]; intros rs; [done|]. cbn. destruct (p_valid q), rs; cbn; by rewrite IH. Qed.
Lemma length_merge_peer plans rs : length (merge_peer plans rs) = length plans.
Proof. revert rs. induction plans as [|q plans IH]; intros rs; [done|]. cbn. destruct (_ && _), rs; cbn; by rewrite IH. Qed.
Lemma length_merge_peers plans rss : length (foldl merge_peer plans rss) = length plans.
Proof. revert plans. induction rss as [|rs rss IH]; intros plans; [done|]. cbn. by rewrite IH, length_merge_peer. Qed.

Lemma ap_operations_length now ops s : length (ap_operations now ops s).1 = length ops.
Proof.
  revert s. induction ops as [|op ops IH]; intros s; [done|]. cbn. destruct (ap_operation now op s) as [r s1].
  specialize (IH s1). destruct (ap_operations now ops s1) as [out s2]. cbn in *. by rewrite IH.
Qed.

Lemma cooldown_until now op s :
  Op op = "cd" → string_in (OpScope op) ["ie"; "is"] = true → Applied (ap_operation now op s).1 = true →
  r_Until (ap_operation now op s).1 = Until op ∧ 0 < Until op.
Proof.
  unfold ap_operation. intros -> Hsc. cbn. unfold ap_cooldown. rewrite Hsc. destruct (Z.leb_spec (Until op) 0); [done|].
  destruct (ap_id_get _ _) as [id|]; [|done]. destruct (String.eqb _ _).
  - unfold cooldown_endpoint. by destruct (_ && _).
  - unfold cooldown_site. by destruct (_ && _).
Qed.

(** The operations of the actions on an identity. *)
Inductive identity_op (in' : ExecInput) (pa : PlannedAction) : luaOp → Prop :=
| io_endpoint op g : pa_Action pa = ActionCooldown → pa_Scope pa = ScopeIdentityEndpoint → InGroup in' = Some g →
    Op op = "cd" → OpScope op = "ie" → OpSubject op = IdentityKey in' → OpGroup op = gs_Key g → identity_op in' pa op
| io_site op : pa_Action pa = ActionCooldown → Op op = "cd" → OpScope op = "is" → OpSubject op = IdentityKey in' → identity_op in' pa op
| io_lifecycle op : string_in (Op op) ["ban"; "exp"; "qua"] = true → OpScope op = "id" → OpSubject op = IdentityKey in' →
    identity_op in' pa op
| io_activate op : pa_Action pa = ActionActivate → identity_op in' pa op.

Lemma effective_endpoint in' pa : effective_scope in' pa = ScopeIdentityEndpoint → pa_Scope pa = ScopeIdentityEndpoint.
Proof.
  unfold effective_scope. destruct (_ && (_ =? 0)); [destruct (String.eqb (pa_Action pa) _); done|].
  by destruct (_ && _).
Qed.

Lemma buildOp_identity in' pa until op g :
  Subject (effective_scope in' pa) = SubjectIdentity → buildOp in' pa (effective_scope in' pa) until = Some (op, g) →
  g = false ∧ identity_op in' pa op.
Proof.
  intros Hs. unfold buildOp. set (client := from_option _ _ _). clearbody client.
  destruct (String.eqb_spec (pa_Action pa) ActionCooldown) as [Ha|_].
  { destruct (String.eqb_spec (effective_scope in' pa) ScopeIdentityEndpoint) as [E|_].
    { intros (gr & Hg & [= -> ->])%fmap_Some. split; [done|]. by apply (io_endpoint _ _ _ gr); [|apply (effective_endpoint in')|..]. }
    destruct (String.eqb _ ScopeIdentitySite); [intros [= <- <-]; split; [done|by apply io_site]|].
    destruct (String.eqb_spec (effective_scope in' pa) ScopeAccount) as [E|_]; [by rewrite E in Hs|].
    destruct (String.eqb_spec (effective_scope in' pa) ScopeProxySite) as [E|_]; [by rewrite E in Hs|].
    destruct (String.eqb_spec (effective_scope in' pa) ScopeProxy) as [E|_]; [by rewrite E in Hs|done]. }
  destruct (String.eqb (pa_Action pa) ActionBan).
  { destruct (String.eqb _ ScopeIdentity); [intros [= <- <-]; split; [done|by apply io_lifecycle]|].
    destruct (String.eqb_spec (effective_scope in' pa) ScopeAccount) as [E|_]; [by rewrite E in Hs|].
    destruct (String.eqb_spec (effective_scope in' pa) ScopeProxy) as [E|_]; [by rewrite E in Hs|done]. }
  destruct (String.eqb (pa_Action pa) ActionExpire).
  { destruct (String.eqb _ ScopeIdentity); [intros [= <- <-]; split; [done|by apply io_lifecycle]|done]. }
  destruct (String.eqb (pa_Action pa) ActionQuarantine).
  { destruct (String.eqb _ ScopeIdentity); [intros [= <- <-]; split; [done|by apply io_lifecycle]|].
    destruct (String.eqb_spec (effective_scope in' pa) ScopeProxy) as [E|_]; [by rewrite E in Hs|done]. }
  destruct (String.eqb_spec (pa_Action pa) ActionActivate) as [Ha|_]; [|done].
  destruct (String.eqb _ ScopeIdentity); [intros [= <- <-]; split; [done|by apply io_activate]|done].
Qed.

(** An applied operation on an identity keeps it off; a cooldown until its end. *)
Lemma identity_op_kept_off in' pa now op s eg t :
  identity_op in' pa op → pa_Action pa ≠ ActionActivate → Applied (ap_operation now op s).1 = true →
  (pa_Action pa = ActionCooldown →
     (∀ u, msTime (r_Until (ap_operation now op s).1) = Some u → t * 1000000 < u) ∧
     (pa_Scope pa = ScopeIdentityEndpoint → Some eg = gs_Key <$> InGroup in')) →
  kept_off (site_hot (ap_operation now op s).2) (IdentityKey in') eg t.
Proof.
  intros Hop Hact Ha Hcov.
  assert (Op op = "cd" → string_in (OpScope op) ["ie"; "is"] = true → pa_Action pa = ActionCooldown → t < Until op) as Ht.
  { intros H1 H2 H3. destruct (cooldown_until now op s H1 H2 Ha) as [Hu Hpos]. destruct (Hcov H3) as [Hlt _]. rewrite Hu in Hlt.
    specialize (Hlt (Until op * 1000000)). unfold msTime in Hlt. rewrite (proj2 (Z.leb_gt _ _)) in Hlt by done. specialize (Hlt eq_refl). lia. }
  destruct Hop as [op g Hc Hsc Hg H1 H2 <- H3|op Hc H1 H2 <-|op H1 H2 <-|op ?]; [| | |done].
  - destruct (Hcov Hc) as [_ Heg]. specialize (Heg Hsc). rewrite Hg in Heg. cbn in Heg. injection Heg as ->. rewrite <- H3.
    apply endpoint_cooldown_kept_off; try done. apply Ht; [done|by rewrite H2|done].
  - apply site_cooldown_kept_off; try done. apply Ht; [done|by rewrite H2|done].
  - unfold string_in in H1. cbn in H1. rewrite !orb_true_iff in H1.
    destruct H1 as [E%String.eqb_eq|[E%String.eqb_eq|[E%String.eqb_eq|?]]]; [| | |done];
      [by apply ban_kept_off|by apply expire_kept_off|by apply quarantine_kept_off].
Qed.

(** ** Claims *)

(** The results recorded for the report of the input, if any. *)
Definition unrecorded (in' : ExecInput) (s : Site) : Prop :=
  ∀ d, s_axr s !! String.append (replayToken in') (String.append ":" d) = None.

(** An operation on the identity of the input that was applied keeps it off. *)
Definition honoured (in' : ExecInput) (ops : list luaOp) (rs : list luaResult) (h : Hot) : Prop :=
  ∀ n op r pa eg t, ops !! n = Some op → rs !! n = Some r → Applied r = true → identity_op in' pa op →
    pa_Action pa ≠ ActionActivate →
    (pa_Action pa = ActionCooldown →
       (∀ u, msTime (r_Until r) = Some u → t * 1000000 < u) ∧
       (pa_Scope pa = ScopeIdentityEndpoint → Some eg = gs_Key <$> InGroup in')) →
    kept_off h (IdentityKey in') eg t.

Lemma honoured_mono in' ops rs h h' :
  (∀ eg t, kept_off h (IdentityKey in') eg t → kept_off h' (IdentityKey in') eg t) → honoured in' ops rs h → honoured in' ops rs h'.
Proof. intros Hm H n op r pa eg t H1 H2 H3 H4 H5 H6. by eapply Hm, H. Qed.

Lemma ap_operations_honoured in' nowMs ops s :
  Forall automatic ops → honoured in' ops (ap_operations nowMs ops s).1 (site_hot (ap_operations nowMs ops s).2).
Proof.
  intros Ha n op r pa eg t Hop Hr Hap Hio Hact Hcov. destruct (ap_operations_nth _ _ _ _ _ Hr) as (pre & op' & post & s0 & Eops & Elen & <- & Es).
  rewrite Eops, list_lookup_middle in Hop by done. injection Hop as ->. rewrite Eops in Ha. apply Forall_app in Ha as [_ [_ Hpost]%Forall_cons].
  rewrite Es. eapply kept_off_mono; [by apply ap_operations_escalates|by apply ap_operations_cools|]. by apply (identity_op_kept_off in' pa).
Qed.

(** The results that are recorded for a call are honoured. *)
Definition record_honoured (token : string) (in' : ExecInput) (ops : list luaOp) (s : Site) : Prop :=
  ∀ rs, token ≠ "" → s_axr s !! token = Some rs → honoured in' ops rs (site_hot s).

Lemma apply_lua_honoured in' nowMs token ops s :
  Forall automatic ops → record_honoured token in' ops s →
  honoured in' ops (apply_lua nowMs token ops s).1 (site_hot (apply_lua nowMs token ops s).2) ∧
  record_honoured token in' ops (apply_lua nowMs token ops s).2.
Proof.
  intros Ha Hr. pose proof (ap_operations_honoured in' nowMs ops s Ha) as H. unfold apply_lua.
  destruct (String.eqb_spec token "") as [->|Ht]; [split; [done|by intros rs Ht]|]. destruct (s_axr s !! token) as [out|] eqn:E; [split; [by apply Hr|done]|].
  destruct (ap_operations nowMs ops s) as [out s1]. cbn [fst snd] in *. split; [done|]. intros rs _. cbn. rewrite lookup_insert_eq. by intros [= <-].
Qed.

Lemma run_call_honoured digest fate in' nowMs token ops s :
  Forall automatic ops → record_honoured (call_token digest token nowMs ops) in' ops s →
  let r := run_call digest fate nowMs token ops s in
  record_honoured (call_token digest token nowMs ops) in' ops r.2 ∧ ∀ rs, r.1 = Some rs → honoured in' ops rs (site_hot r.2).
Proof.
  intros Ha Hr. destruct (apply_lua_honoured in' nowMs _ ops s Ha Hr) as [H1 H2]. destruct fate; cbn; [|done|done].
  destruct (apply_lua _ _ _ s) as [out s1]. cbn [fst snd] in *. split; [done|]. intros rs. destruct (bool_decide _); [|done]. by intros [= <-].
Qed.

(** Only the results of plans change. *)
Lemma with_own_lua p : p = with_lua (p_lua p) p.
Proof. by destruct p. Qed.

Lemma fill_results_same plans rs j p : plans !! j = Some p → ∃ r, fill_results plans rs !! j = Some (with_lua r p).
Proof.
  revert rs j. induction plans as [|q plans IH]; intros rs j Hp; [done|]. cbn [fill_results].
  destruct j as [|j]; cbn in Hp; [simplify_eq|destruct (p_valid q), rs; by apply IH].
  destruct (p_valid p); [destruct rs as [|r rs]; [|by exists r]|]; exists (p_lua p); cbn; by rewrite <- with_own_lua.
Qed.

Lemma merge_peers_same rss plans j p : plans !! j = Some p → ∃ r, foldl merge_peer plans rss !! j = Some (with_lua r p).
Proof.
  revert plans p. induction rss as [|rs rss IH]; intros plans p Hp; [exists (p_lua p); by rewrite <- with_own_lua|]. cbn [foldl].
  assert (∃ r, merge_peer plans rs !! j = Some (with_lua r p)) as [r Hr].
  { clear IH. revert rs j Hp. induction plans as [|q plans IH]; intros rs j Hp; [done|]. cbn [merge_peer].
    destruct j as [|j]; cbn in Hp; [simplify_eq|destruct (_ && _), rs; by apply IH].
    destruct (_ && _); [destruct rs as [|r rs]; [|destruct (_ && _); [by exists r|]]|]; exists (p_lua p); cbn; by rewrite <- with_own_lua. }
  destruct (IH _ _ Hr) as [r' H']. by exists r'.
Qed.

Lemma run_call_length digest fate nowMs token ops s rs s' : run_call digest fate nowMs token ops s = (Some rs, s') → length rs = length ops.
Proof.
  destruct fate; [|done..]. cbn [run_call]. destruct (apply_lua _ _ _ _) as [out s1]. destruct (bool_decide _) eqn:E; [|done].
  intros [= <- _]. by apply bool_decide_eq_true in E.
Qed.

(** What the call on the site of the report returned for a plan. *)
Lemma applyPlans_nth digest fates in' plans now sites plans' sites' j p' :
  NoDup (SiteKey in' :: PeerKeys in') → applyPlans digest fates in' plans now sites = (Some plans', sites') →
  plans' !! j = Some p' → aa_Skipped (p_result p') = false → (∀ p, p ∈ plans → p_valid p = false → aa_Skipped (p_result p) = true) →
  ∃ p rs, plans !! j = Some p ∧ p_valid p = true ∧ (∃ r, p' = settle (with_lua r p)) ∧
    run_call digest (fates (SiteKey in')) (now / 1000000) (replayToken in') (main_ops plans) (site_at sites (SiteKey in')) =
      (Some rs, site_at sites' (SiteKey in')) ∧
    (p_global p = false → ∃ n r, main_ops plans !! n = Some (p_op p) ∧ rs !! n = Some r ∧ p' = settle (with_lua r p)).
Proof.
  intros Hd H Hj Hsk Hinv. unfold applyPlans in H.
  assert (main_ops plans = [] → ∀ p, p ∈ plans → p_valid p = false) as Hnone.
  { intros Em p Hp. destruct (p_valid p) eqn:Hv; [|done]. exfalso. unfold main_ops in Em. apply fmap_nil_inv in Em.
    assert (p ∈ filter (λ p, p_valid p = true) plans) as Hin by (by apply list_elem_of_filter).
    rewrite Em in Hin. by apply not_elem_of_nil in Hin. }
  destruct (main_ops plans) as [|op0 ops0] eqn:Em.
  { simplify_eq. assert (p' ∈ plans') as Hp by (by eapply list_elem_of_lookup_2). by rewrite (Hinv p' Hp (Hnone eq_refl p' Hp)) in Hsk. }
  rewrite <- Em in *. clear Hnone.
  destruct (runMulti_spec digest fates (now / 1000000) (replayToken in') (site_calls in' plans) sites (site_calls_keys _ _ Hd)) as (H1 & _ & H3).
  destruct (runMulti digest fates _ _ _ sites) as [rs s1]. cbn [fst snd] in *. destruct rs as [|[r|] peers]; [done| |done].
  simplify_eq. cbn [site_calls fmap list_fmap] in H1. injection H1 as Hr _.
  specialize (H3 (SiteKey in') (main_ops plans) (list_elem_of_here _ _)).
  destruct (run_call digest (fates (SiteKey in')) _ _ _ _) as [r0 s0] eqn:Erun. cbn in Hr, H3. subst r0.
  rewrite list_lookup_fmap in Hj. destruct (foldl merge_peer _ _ !! j) as [q|] eqn:Hq; [|done]. cbn in Hj. injection Hj as <-.
  destruct (plans !! j) as [p|] eqn:Hp.
  2:{ apply lookup_ge_None in Hp. apply lookup_lt_Some in Hq. rewrite length_merge_peers, length_fill_results in Hq. lia. }
  assert (∃ r, q = with_lua r p) as [r1 Eq].
  { destruct (fill_results_same plans r j p Hp) as [ra Ha]. destruct (merge_peers_same (omap id peers) _ _ _ Ha) as [rb Hb].
    exists rb. rewrite Hq in Hb. by simplify_eq. }
  assert (p_valid p = true) as Hv.
  { destruct (p_valid p) eqn:Hv; [done|]. exfalso. subst q. unfold settle in Hsk. cbn in Hsk. rewrite Hv in Hsk. cbn in Hsk.
    rewrite Hinv in Hsk; [done|by eapply list_elem_of_lookup_2|done]. }
  exists p, r. split_and!; [done|done|exists r1; by rewrite Eq|unfold site_at; by rewrite H3|]. intros Hg.
  destruct (fill_results_nth plans r j p Hp Hv) as (n & r2 & Hn & Hr & Hfill); [by eapply run_call_length|].
  exists n, r2. split_and!; [done|done|]. rewrite (merge_peers_nth _ _ _ _ Hfill) in Hq by done. by simplify_eq.
Qed.

Lemma buildPlan_result in' pa now :
  let p := buildPlan in' pa now in
  aa_Planned (p_result p) = pa ∧ aa_SubjectKind (p_result p) = Subject (effective_scope in' pa) ∧
  (p_valid p = false → aa_Skipped (p_result p) = true).
Proof.
  cbv zeta. unfold buildPlan, new_plan. destruct (subject_of _ _) as [id key]. cbn [snd]. destruct (key <=? 0); [done|].
  destruct (plan_until pa now) as [until|]; [|done]. by destruct (buildOp _ _ _ _).
Qed.

Definition plans_of (in' : ExecInput) : list plan := (λ pa, buildPlan in' pa (Now in')) <$> Planned in'.
(** The token of the call on the site of the report. *)
Definition main_token (digest : Z → list luaOp → string) (in' : ExecInput) : string :=
  call_token digest (replayToken in') (Now in' / 1000000) (main_ops (plans_of in')).

Lemma main_ops_automatic in' : Forall automatic (main_ops (plans_of in')).
Proof. apply (calls_automatic in' (Planned in') (Now in') (SiteKey in', main_ops (plans_of in'))), list_elem_of_here. Qed.

(** The record on the site of the report stays honoured. *)
Lemma Execute_record digest rc fates in' sites :
  NoDup (SiteKey in' :: PeerKeys in') → record_honoured (main_token digest in') in' (main_ops (plans_of in')) (site_at sites (SiteKey in')) →
  record_honoured (main_token digest in') in' (main_ops (plans_of in')) (site_at (Execute digest rc fates in' sites).2 (SiteKey in')).
Proof.
  intros Hd Hh. unfold Execute. destruct (Planned in') as [|pa0 planned0] eqn:Epl; [done|]. rewrite <- Epl. destruct (_ || _); [done|].
  change ((λ pa, buildPlan in' pa (Now in')) <$> Planned in') with (plans_of in').
  pose proof (applyPlans_sites digest fates in' (plans_of in') (Now in') sites Hd (SiteKey in')) as H.
  destruct (applyPlans digest fates in' (plans_of in') (Now in') sites) as [r s1]. cbn [snd] in *.
  destruct H as [->|(ops & Hin & ->)]; [done|]. assert (ops = main_ops (plans_of in')) as ->.
  { apply elem_of_cons in Hin as [[= ->]|Hin]; [done|]. apply NoDup_cons in Hd as [Hk _]. exfalso. apply Hk.
    destruct (global_ops _); [by apply not_elem_of_nil in Hin|]. by apply list_elem_of_fmap in Hin as (k & [= -> _] & Hin). }
  by apply run_call_honoured; [apply main_ops_automatic|].
Qed.

(** Applied actions on the identity are in force on the site of the report. *)
Lemma Execute_applied digest rc fates in' sites acts changes sites' j a eg t :
  NoDup (SiteKey in' :: PeerKeys in') → record_honoured (main_token digest in') in' (main_ops (plans_of in')) (site_at sites (SiteKey in')) →
  Execute digest rc fates in' sites = (Some (acts, changes), sites') → acts !! j = Some a → aa_Skipped a = false →
  aa_SubjectKind a = SubjectIdentity → pa_Action (aa_Planned a) ≠ ActionActivate →
  (pa_Action (aa_Planned a) = ActionCooldown →
     (∀ u, aa_Until a = Some u → t * 1000000 < u) ∧ (pa_Scope (aa_Planned a) = ScopeIdentityEndpoint → Some eg = gs_Key <$> InGroup in')) →
  kept_off (site_hot (site_at sites' (SiteKey in'))) (IdentityKey in') eg t.
Proof.
  intros Hd Hh H Hj Hsk Hkind Hact Hcov. unfold Execute in H. destruct (Planned in') as [|pa0 planned0] eqn:Epl; [by simplify_eq|].
  rewrite <- Epl in H. change ((λ pa, buildPlan in' pa (Now in')) <$> Planned in') with (plans_of in') in H.
  assert (∀ p, p ∈ plans_of in' → p_valid p = false → aa_Skipped (p_result p) = true) as Hinv
    by (intros p (pa & -> & _)%list_elem_of_fmap; apply buildPlan_result).
  destruct (_ || _).
  { simplify_eq. unfold plans_of in Hj. rewrite !list_lookup_fmap in Hj. destruct (Planned in' !! j) as [pa|]; [|done]. cbn in Hj. simplify_eq.
    destruct (buildPlan_result in' pa (Now in')) as (_ & _ & Hs). unfold shadowed in Hsk.
    destruct (p_valid _); [done|]. by rewrite Hs in Hsk. }
  destruct (applyPlans digest fates in' (plans_of in') (Now in') sites) as [r s1] eqn:Ea. destruct r as [plans'|]; [|done]. cbn in H. simplify_eq.
  rewrite list_lookup_fmap in Hj. destruct (plans' !! j) as [p'|] eqn:Hp'; [|done]. cbn in Hj. simplify_eq.
  destruct (applyPlans_nth _ _ _ _ _ _ _ _ _ _ Hd Ea Hp' Hsk Hinv) as (p & rs & Hp & Hv & [r1 Er1] & Hrun & Hres).
  unfold plans_of in Hp. rewrite list_lookup_fmap in Hp. destruct (Planned in' !! j) as [pa|] eqn:Hpa; [|done]. cbn in Hp. injection Hp as <-.
  destruct (buildPlan_result in' pa (Now in')) as (Epa & Ekind & _).
  destruct (buildPlan_valid in' pa (Now in') Hv) as (until & [op g] & _ & Hb & Eop & Eg). cbn in Eop, Eg.
  assert (∀ r, let a := p_result (settle (with_lua r (buildPlan in' pa (Now in')))) in
    aa_SubjectKind a = Subject (effective_scope in' pa) ∧ aa_Planned a = pa ∧ aa_Skipped a = negb (Applied r) ∧ aa_Until a = msTime (r_Until r)) as Hset
    by (intros r; unfold settle; cbn; rewrite Hv; by cbn).
  destruct (Hset r1) as (Ek & _). rewrite Er1, Ek in Hkind. destruct (buildOp_identity _ _ _ _ _ Hkind Hb) as [-> Hio].
  destruct Hres as (n & r & Hn & Hr & Ep'); [by rewrite Eg|]. destruct (Hset r) as (_ & Epl' & Esk & Eu). rewrite Ep' in *.
  pose proof (run_call_honoured digest (fates (SiteKey in')) in' _ _ _ _ (main_ops_automatic in') Hh) as [_ Hhon].
  rewrite Hrun in Hhon. rewrite Epl', Eu in Hcov. rewrite Epl' in Hact. rewrite Eop in Hn.
  apply (Hhon rs eq_refl n op r pa eg t Hn Hr); [rewrite Esk in Hsk; by destruct (Applied r)|done..].
Qed.

Lemma unrecorded_honoured digest in' ops s : unrecorded in' s → record_honoured (main_token digest in') in' ops s.
Proof.
  intros Hu rs Ht H. exfalso. unfold main_token, call_token in *. destruct (String.eqb _ _); [done|]. by rewrite Hu in H.
Qed.

(** An action that was applied to an identity takes effect in the scheduler:
    on the hot state an execution leaves behind, no acquire call leases an
    identity that the execution banned, expired or quarantined, nor one that it
    cooled down before the end it reports, on every group of the site or on the
    group of the report for endpoint cooldowns, and whatever other actions the
    report had. *)
Theorem Execute_keeps_off {lua : LuaMath} digest rc fates in' sites acts changes sites' j a args moved out h' :
  NoDup (SiteKey in' :: PeerKeys in') → unrecorded in' (site_at sites (SiteKey in')) →
  Execute digest rc fates in' sites = (Some (acts, changes), sites') →
  acts !! j = Some a → aa_Skipped a = false → aa_SubjectKind a = SubjectIdentity →
  pa_Action (aa_Planned a) ≠ ActionActivate →
  (pa_Action (aa_Planned a) = ActionCooldown →
     (∀ u, aa_Until a = Some u → a_now args * 1000000 < u) ∧
     (pa_Scope (aa_Planned a) = ScopeIdentityEndpoint → Some (a_eg args) = gs_Key <$> InGroup in')) →
  let h := site_hot (site_at sites' (SiteKey in')) in
  acquire_ready args h → acquire_lua args h = (ReplyOK moved out, h') → IdentityKey in' ∉ lo_i <$> out.
Proof.
  intros Hd Hf He Hj Hsk Hkind Hact Hcov h Hr H. eapply kept_off_not_leased; [exact Hr|exact H|].
  eapply Execute_applied; [done|by apply unrecorded_honoured|done..].
Qed.

(** C28: executing the actions of a report is idempotent: after any number of
    attempts, each of whose calls was answered, lost, or ran without its answer
    arriving, an attempt that is answered returns the actions and state changes
    that a single execution returns, and leaves the hot state of every site as a
    single execution does. *)
Theorem Execute_retried digest rc in' sites (attempts : list (Z → CallFate)) :
  NoDup (SiteKey in' :: PeerKeys in') → ReportID in' ≠ "" →
  Execute digest rc (λ _, call_done) in' (foldl (λ st fates, (Execute digest rc fates in' st).2) sites attempts) =
  Execute digest rc (λ _, call_done) in' sites.
Proof.
  intros Hd Hr. revert sites. induction attempts as [|fates attempts IH]; intros sites; [done|]. cbn [foldl].
  rewrite IH. by apply Execute_again.
Qed.

(** C23: no execution lowers the severity of a subject: on every site of the
    namespace, and whatever becomes of the calls, an identity, account or proxy keeps
    its state with an end that is no earlier, or rises to a state of a higher rank
    (quarantined, then expired, then banned), whose own end may be earlier than the
    end of the state it replaces; retired and disabled subjects stay as they are and
    none becomes so; and a pending identity becomes active only in an execution
    that plans an activation. *)
Theorem Execute_never_softens digest rc fates in' sites k :
  NoDup (SiteKey in' :: PeerKeys in') →
  let act := activating (Planned in') in
  let m := s_mat (site_at sites k) in let m' := s_mat (site_at (Execute digest rc fates in' sites).2 k) in
  (∀ i v, id_view m i = Some v → ∃ v', id_view m' i = Some v' ∧ severity_le act v v') ∧
  (∀ a v, acc_view m a = Some v → ∃ v', acc_view m' a = Some v' ∧ severity_le act v v') ∧
  (∀ p v, px_view m p = Some v → ∃ v', px_view m' p = Some v' ∧ severity_le act v v').
Proof. intros Hd act m m'. by destruct (Execute_escalates digest rc fates in' sites k Hd). Qed.

(** The actions with the scopes they are planned at. *)
Definition planned_pairs : list (string * string) :=
  ((λ sc, (ActionCooldown, sc)) <$> [ScopeIdentityEndpoint; ScopeIdentitySite; ScopeIdentity; ScopeAccount; ScopeProxySite; ScopeProxy]) ++
  ((λ sc, (ActionBan, sc)) <$> [ScopeIdentity; ScopeAccount; ScopeProxy]) ++ [(ActionExpire, ScopeIdentity)] ++
  ((λ sc, (ActionQuarantine, sc)) <$> [ScopeIdentity; ScopeProxy]) ++ [(ActionActivate, ScopeIdentity)].

Lemma string_in_elem s l : string_in s l = true → s ∈ l.
Proof. unfold string_in. intros (x & Hx & ->%String.eqb_eq)%existsb_exists. by apply list_elem_of_In. Qed.

Lemma allowed_pairs action scope :
  ScopeAllowed action scope = true ∨ action = ActionActivate ∧ scope = ScopeIdentity → (action, scope) ∈ planned_pairs.
Proof.
  intros [H|[-> ->]]; [|by apply list_elem_of_In; vm_compute; tauto]. unfold planned_pairs. rewrite !elem_of_app. revert H. unfold ScopeAllowed.
  destruct (String.eqb_spec action ActionCooldown) as [->|_].
  { intros H. left. apply list_elem_of_fmap. exists scope. split; [done|]. unfold Subject in H.
    destruct (string_in scope [ScopeIdentityEndpoint; _; _]) eqn:E1; [apply string_in_elem in E1; set_solver|].
    destruct (String.eqb_spec scope ScopeAccount) as [->|_]; [set_solver|].
    destruct (string_in scope [ScopeProxySite; _]) eqn:E2; [apply string_in_elem in E2; set_solver|done]. }
  destruct (String.eqb_spec action ActionBan) as [->|_].
  { intros H. right. left. apply list_elem_of_fmap. exists scope. split; [done|]. rewrite !orb_true_iff, !String.eqb_eq in H. set_solver. }
  destruct (String.eqb_spec action ActionExpire) as [->|_]; [intros ->%String.eqb_eq; right; right; left; set_solver|].
  destruct (String.eqb_spec action ActionQuarantine) as [->|_]; [|done].
  intros H. right. right. right. left. apply list_elem_of_fmap. exists scope. split; [done|]. rewrite !orb_true_iff, !String.eqb_eq in H. set_solver.
Qed.

(** Every action that a compiled chain plans for a report of an endpoint group
    can be executed: at the scope it takes effect, for any end, it has an
    operation of apply.lua without the force flag, and its severity is that of
    the action. *)
Theorem planned_supported chain c e pa in' g until :
  CompileAction chain = Ok c → pa ∈ Evaluate (Some c) e → InGroup in' = Some g →
  (∃ op global, buildOp in' pa (effective_scope in' pa) until = Some (op, global) ∧ automatic op) ∧
  pa_Severity pa = Severity pa ∧ 0 ≤ pa_Severity pa ≤ 5.
Proof.
  intros Hc Hpa Hg. destruct (Evaluate_allowed chain c e pa Hc Hpa) as [Hok Hsev]. split; [|done].
  assert (∃ op global, buildOp in' pa (effective_scope in' pa) until = Some (op, global)) as (op & gl & Hb);
    [|exists op, gl; split; [done|by eapply buildOp_automatic]].
  apply allowed_pairs in Hok. unfold planned_pairs in Hok. cbn in Hok. unfold buildOp, effective_scope. rewrite Hg.
  repeat (apply elem_of_cons in Hok as [[= -> ->]|Hok]; [destruct (AccountKey in' =? 0); cbn; by eauto|]). by apply not_elem_of_nil in Hok.
Qed.

(** ** Runs *)

#[local] Existing Instance flat_math.

Definition demo_group : GroupSnapshot := {| gs_Client := "web"; gs_Key := 1; gs_Action := None; gs_Breaker := None |}.
Definition demo_action : PlannedAction :=
  {| pa_Action := ActionBan; pa_Scope := ScopeIdentity; pa_Duration := 0; pa_Permanent := true; pa_Severity := SeverityPermanentBan;
     pa_RuleIndex := 0; pa_RuleName := "banned"; pa_Source := "" |}.
(** A report of identity 10 on site 1 of a namespace with a second site. *)
Definition demo_exec : ExecInput :=
  {| SiteKey := 1; SiteGroups := [demo_group]; PeerKeys := [2]; InGroup := Some demo_group; LeaseID := "lse_a"; ReportID := "r-1";
     IdentityKey := 10; IdentityID := "id-10"; AccountKey := 0; ProxyKey := 0; ProxyID := ""; InOutcome := "banned";
     Planned := [demo_action]; InShadow := false; Now := 2000000000 |}.
Definition demo_sites : gmap Z Site := {[1 := demo_run]}.
Definition demo_digest (now : Z) (ops : list luaOp) : string := "d".
Definition demo_executed := Execute demo_digest false (λ _, call_done) demo_exec demo_sites.

Lemma demo_exec_sites : NoDup (SiteKey demo_exec :: PeerKeys demo_exec).
Proof. by apply (bool_decide_unpack _); vm_compute. Qed.

Lemma demo_executed_ready now : acquire_ready (demo_args now ["lse_c"]) (site_hot (site_at demo_executed.2 1)).
Proof.
  split; [cbn; lia|apply NoDup_singleton|cbn; lia|]. intros p n _. assert (h_ls (site_hot (site_at demo_executed.2 1)) = ∅) as -> by (vm_compute; reflexivity).
  apply lookup_empty.
Qed.

Lemma Execute_keeps_off_witness :
  let h := site_hot (site_at demo_executed.2 1) in
  ∃ moved out h', acquire_lua (demo_args 3000 ["lse_c"]) h = (ReplyOK moved out, h') ∧ (lo_i <$> out) = [11] ∧ 10 ∉ lo_i <$> out.
Proof.
  cbv zeta. destruct (acquire_lua (demo_args 3000 ["lse_c"]) (site_hot (site_at demo_executed.2 1))) as [reply h'] eqn:E.
  assert (∃ moved out, reply = ReplyOK moved out ∧ (lo_i <$> out) = [11]) as (moved & out & -> & Hout).
  { apply (f_equal fst) in E. vm_compute in E. cbn in E. subst reply. do 2 eexists. split; reflexivity. }
  exists moved, out, h'. split; [reflexivity|]. split; [exact Hout|].
  destruct demo_executed as [[[acts changes]|] sites'] eqn:Ex; [|apply (f_equal fst) in Ex; vm_compute in Ex; discriminate Ex].
  assert (∃ a, acts !! 0%nat = Some a ∧ aa_Skipped a = false ∧ aa_SubjectKind a = SubjectIdentity ∧ pa_Action (aa_Planned a) = ActionBan) as (a & Ha & Hs & Hk & Hb).
  { pose proof (f_equal fst Ex) as E'. vm_compute in E'. injection E' as <- _. eexists. split_and!; reflexivity. }
  eapply (Execute_keeps_off demo_digest false (λ _, call_done) demo_exec demo_sites acts changes sites' 0 a (demo_args 3000 ["lse_c"]) moved out h').
  - apply demo_exec_sites.
  - intros d. apply lookup_empty.
  - exact Ex.
  - exact Ha.
  - exact Hs.
  - exact Hk.
  - rewrite Hb. discriminate.
  - rewrite Hb. discriminate.
  - pose proof (demo_executed_ready 3000) as R. rewrite Ex in R. exact R.
  - exact E.
Defined.

Lemma Execute_retried_witness :
  Execute demo_digest false (λ _, call_done) demo_exec
    (foldl (λ st fates, (Execute demo_digest false fates demo_exec st).2) demo_sites [(λ _, call_timeout); (λ _, call_lost)]) =
  Execute demo_digest false (λ _, call_done) demo_exec demo_sites.
Proof. apply (Execute_retried demo_digest false demo_exec demo_sites); [apply demo_exec_sites|discriminate]. Defined.

Lemma Execute_never_softens_witness :
  ∃ v', id_view (s_mat (site_at demo_executed.2 1)) 10 = Some v' ∧ severity_le false (id_sev "active" 0 0) v'.
Proof.
  destruct (Execute_never_softens demo_digest false (λ _, call_done) demo_exec demo_sites 1 demo_exec_sites) as [H _].
  apply H. vm_compute. reflexivity.
Defined.

Lemma planned_supported_witness : pa_Severity ex_ban = Severity ex_ban.
Proof. apply (planned_supported _ ex_compiled ex_input ex_ban demo_exec demo_group 0 ex_compiled_ok ex_ban_in). reflexivity. Defined.
