(* ===== verification/StateRows.v ===== *)
(** * State changes in the database

    internal/action/stateevents.go, statewriter_sql.go and statewriter_errors.go: the
    state changes that the executor and the operators leave, what one transaction of the
    state writer does with a batch of them, and how its failures are classified.  The
    tables are finite maps and a transaction is a function on them.  The theorems show
    that, in whatever batches and order changes are written and however often, the row of
    a subject ends with its newest change. *)

From S2P Require Import Prelude GoStrings PolicySignal PolicyAction.

#[local] Open Scope Z_scope.

(** ** Changes *)

(** Times are in nanoseconds; the zero time of Go is the first day of the year 1. *)
Definition zeroTime : Z := -62135596800 * 10 ^ 9.

(** [StateChange]; the details are their JSON text. *)
Record StateChange := {
  sc_ID : string; sc_At : Z; sc_TenantID : string; sc_NamespaceID : string; sc_SiteID : string;
  sc_SubjectKind : string; sc_SubjectID : string; sc_SubjectKey : Z; sc_EndpointGroupID : string;
  sc_FromState : string; sc_ToState : string; sc_Action : string; sc_Scope : string; sc_Until : option Z; sc_Permanent : bool;
  sc_Outcome : string; sc_PolicyID : string; sc_PolicyVersion : Z; sc_Rule : string; sc_ReportID : string; sc_LeaseID : string;
  sc_Actor : string; sc_Reason : string; sc_Shadow : bool; sc_Details : string; sc_UpdateSubject : bool; sc_StateReason : string;
}.
#[export] Instance StateChange_eq_dec : EqDecision StateChange.
Proof. solve_decision. Defined.

Definition ActorSystem : string := "system".

(** The id that is drawn when there is none is an argument. *)
Definition StateChange_normalize (newID : string) (now : Z) (c : StateChange) : StateChange :=
  {| sc_ID := if String.eqb (sc_ID c) "" then newID else sc_ID c; sc_At := if sc_At c =? zeroTime then now else sc_At c;
     sc_TenantID := sc_TenantID c; sc_NamespaceID := sc_NamespaceID c; sc_SiteID := sc_SiteID c;
     sc_SubjectKind := sc_SubjectKind c; sc_SubjectID := sc_SubjectID c; sc_SubjectKey := sc_SubjectKey c; sc_EndpointGroupID := sc_EndpointGroupID c;
     sc_FromState := sc_FromState c; sc_ToState := sc_ToState c; sc_Action := sc_Action c; sc_Scope := sc_Scope c; sc_Until := sc_Until c;
     sc_Permanent := sc_Permanent c; sc_Outcome := sc_Outcome c; sc_PolicyID := sc_PolicyID c; sc_PolicyVersion := sc_PolicyVersion c;
     sc_Rule := sc_Rule c; sc_ReportID := sc_ReportID c; sc_LeaseID := sc_LeaseID c;
     sc_Actor := if String.eqb (sc_Actor c) "" then ActorSystem else sc_Actor c; sc_Reason := sc_Reason c; sc_Shadow := sc_Shadow c;
     sc_Details := sc_Details c; sc_UpdateSubject := sc_UpdateSubject c; sc_StateReason := sc_StateReason c |}.

Definition set_subject (id : string) (c : StateChange) : StateChange :=
  {| sc_ID := sc_ID c; sc_At := sc_At c; sc_TenantID := sc_TenantID c; sc_NamespaceID := sc_NamespaceID c; sc_SiteID := sc_SiteID c;
     sc_SubjectKind := sc_SubjectKind c; sc_SubjectID := id; sc_SubjectKey := sc_SubjectKey c; sc_EndpointGroupID := sc_EndpointGroupID c;
     sc_FromState := sc_FromState c; sc_ToState := sc_ToState c; sc_Action := sc_Action c; sc_Scope := sc_Scope c; sc_Until := sc_Until c;
     sc_Permanent := sc_Permanent c; sc_Outcome := sc_Outcome c; sc_PolicyID := sc_PolicyID c; sc_PolicyVersion := sc_PolicyVersion c;
     sc_Rule := sc_Rule c; sc_ReportID := sc_ReportID c; sc_LeaseID := sc_LeaseID c; sc_Actor := sc_Actor c; sc_Reason := sc_Reason c;
     sc_Shadow := sc_Shadow c; sc_Details := sc_Details c; sc_UpdateSubject := sc_UpdateSubject c; sc_StateReason := sc_StateReason c |}.

Definition isLifecycleChange (c : StateChange) : bool := sc_UpdateSubject c && negb (sc_Shadow c).

Definition stateReason (c : StateChange) : string :=
  if negb (String.eqb (sc_StateReason c) "") then sc_StateReason c
  else if negb (String.eqb (sc_Rule c) "") then sc_Rule c else sc_Reason c.

(** ** Errors *)

Record PgError := { pe_Code : bytes; pe_ConstraintName : bytes; pe_Message : bytes }.
(** An error of Go: the error of PostgreSQL it wraps, whether one of the tests for a
    failed connection finds something in it, and its text. *)
Record goError := { ge_pg : option PgError; ge_connection : bool; ge_text : bytes }.

Definition sqlStateQueryCanceled : bytes := bs "57014".
Definition sqlStateProgramLimitExceeded : bytes := bs "54000".
Definition SQLStateCheckViolation : bytes := bs "23514".

Fixpoint text_contains (sub s : bytes) : bool :=
  bool_decide (take (length sub) s = sub) || match s with [] => false | _ :: s => text_contains sub s end.

Definition isStateDBUnavailable (err : goError) : bool :=
  match ge_pg err with
  | Some pg =>
      if (length (pe_Code pg) <? 2)%nat || bool_decide (pe_Code pg = sqlStateQueryCanceled) then false
      else bool_decide (take 2 (pe_Code pg) ∈ [bs "08"; bs "53"; bs "57"; bs "58"])
  | None => if ge_connection err then true else text_contains (bs "conn closed") (ge_text err)
  end.

Definition isStateDataError (err : goError) : bool :=
  match ge_pg err with
  | None => false
  | Some pg =>
      bool_decide (take 2 (pe_Code pg) = bs "22") || bool_decide (take 2 (pe_Code pg) = bs "23") ||
      bool_decide (pe_Code pg = sqlStateProgramLimitExceeded)
  end.

Definition isMissingPartition (err : goError) : bool :=
  match ge_pg err with
  | None => false
  | Some pg =>
      if negb (bool_decide (pe_Code pg = SQLStateCheckViolation)) then false
      else bool_decide (pe_ConstraintName pg = []) || text_contains (bs "no partition of relation") (pe_Message pg)
  end.

(** ** Tables *)

(** PostgreSQL keeps microseconds. *)
Definition pg_time (t : Z) : Z := t / 1000.
Definition int32 (z : Z) : Z := (z + 2 ^ 31) mod 2 ^ 32 - 2 ^ 31.

Record IdentityRow := {
  ir_hkey : Z; ir_state : string; ir_reason : string; ir_changed : Z; ir_ban : option Z; ir_quarantine : option Z;
  ir_activated : option Z; ir_updated : Z;
}.
Record AccountRow := { ac_hkey : Z; ac_state : string; ac_ban : option Z; ac_updated : Z }.
Record ProxyRow := { px_hkey : Z; px_state : string; px_reason : string; px_changed : Z; px_ban : option Z; px_updated : Z }.
(** A row of state_events without its key, the id and the time. *)
Record Event := {
  ev_tenant : string; ev_namespace : string; ev_site : string; ev_kind : string; ev_subject : string; ev_group : string;
  ev_from : string; ev_to : string; ev_action : string; ev_scope : string; ev_until : option Z; ev_permanent : bool;
  ev_outcome : string; ev_policy : string; ev_version : Z; ev_rule : string; ev_report : string; ev_lease : string;
  ev_actor : string; ev_reason : string; ev_shadow : bool; ev_details : string;
}.
Record Tables := {
  db_identities : gmap string IdentityRow; db_accounts : gmap string AccountRow; db_proxies : gmap string ProxyRow;
  db_events : gmap (string * Z) Event;
}.

(** ** Updates of subjects *)

(** The newest update per subject, in the order in which the subjects were first seen. *)
Fixpoint put_latest (k : string * string) (c : StateChange) (latest : list (string * string * StateChange)) : list (string * string * StateChange) :=
  match latest with
  | [] => [(k, c)]
  | (k', prev) :: latest =>
      if bool_decide (k = k') then (k', if sc_At c <? sc_At prev then prev else c) :: latest else (k', prev) :: put_latest k c latest
  end.
Definition latest_step (latest : list (string * string * StateChange)) (c : StateChange) : list (string * string * StateChange) :=
  if negb (sc_UpdateSubject c) || sc_Shadow c || String.eqb (sc_SubjectID c) "" then latest
  else put_latest (sc_SubjectKind c, sc_SubjectID c) c latest.
Definition latestUpdates (changes : list StateChange) (kind : string) : list StateChange :=
  snd <$> filter (λ kc, kc.1.1 = kind) (foldl latest_step [] changes).

Definition identity_row (c : StateChange) (row : IdentityRow) : IdentityRow :=
  if ir_changed row <? pg_time (sc_At c) then
    {| ir_hkey := ir_hkey row; ir_state := sc_ToState c; ir_reason := stateReason c; ir_changed := pg_time (sc_At c);
       ir_ban := if String.eqb (sc_ToState c) "banned" && negb (sc_Permanent c) then pg_time <$> sc_Until c else None;
       ir_quarantine := if String.eqb (sc_ToState c) "quarantined" then pg_time <$> sc_Until c else None;
       ir_activated := if String.eqb (sc_ToState c) "active" then Some (pg_time (sc_At c)) else ir_activated row;
       ir_updated := pg_time (sc_At c) |}
  else row.
Definition updateIdentityRows (rows : list StateChange) (t : gmap string IdentityRow) : gmap string IdentityRow :=
  foldl (λ t c, alter (identity_row c) (sc_SubjectID c) t) t rows.

(** A lifecycle event of the account after the time. *)
Definition newer_event (events : gmap (string * Z) Event) (id : string) (changed : Z) : bool :=
  existsb (λ kv, String.eqb (ev_subject kv.2) id && String.eqb (ev_kind kv.2) "account" && negb (ev_shadow kv.2) &&
                 negb (String.eqb (ev_action kv.2) "cooldown") && (changed <? kv.1.2)) (map_to_list events).
Definition account_row (events : gmap (string * Z) Event) (c : StateChange) (row : AccountRow) : AccountRow :=
  if newer_event events (sc_SubjectID c) (pg_time (sc_At c)) then row
  else {| ac_hkey := ac_hkey row; ac_state := sc_ToState c;
          ac_ban := if String.eqb (sc_ToState c) "banned" && negb (sc_Permanent c) then pg_time <$> sc_Until c else None;
          ac_updated := Z.max (ac_updated row) (pg_time (sc_At c)) |}.
Definition updateAccountRows (events : gmap (string * Z) Event) (rows : list StateChange) (t : gmap string AccountRow) : gmap string AccountRow :=
  foldl (λ t c, alter (account_row events c) (sc_SubjectID c) t) t rows.

Definition proxy_row (c : StateChange) (row : ProxyRow) : ProxyRow :=
  if px_changed row <? pg_time (sc_At c) then
    {| px_hkey := px_hkey row; px_state := sc_ToState c; px_reason := stateReason c; px_changed := pg_time (sc_At c);
       px_ban := if negb (sc_Permanent c) && (String.eqb (sc_ToState c) "banned" || String.eqb (sc_ToState c) "quarantined")
                 then pg_time <$> sc_Until c else None;
       px_updated := pg_time (sc_At c) |}
  else row.
Definition updateProxyRows (rows : list StateChange) (t : gmap string ProxyRow) : gmap string ProxyRow :=
  foldl (λ t c, alter (proxy_row c) (sc_SubjectID c) t) t rows.

Definition updateSubjects (changes : list StateChange) (db : Tables) : Tables :=
  {| db_identities := updateIdentityRows (latestUpdates changes SubjectIdentity) (db_identities db);
     db_accounts := updateAccountRows (db_events db) (latestUpdates changes SubjectAccount) (db_accounts db);
     db_proxies := updateProxyRows (latestUpdates changes SubjectProxy) (db_proxies db); db_events := db_events db |}.

(** ** Events *)

Definition event_of (c : StateChange) : Event :=
  {| ev_tenant := sc_TenantID c; ev_namespace := sc_NamespaceID c; ev_site := sc_SiteID c; ev_kind := sc_SubjectKind c;
     ev_subject := sc_SubjectID c; ev_group := sc_EndpointGroupID c; ev_from := sc_FromState c; ev_to := sc_ToState c;
     ev_action := sc_Action c; ev_scope := sc_Scope c; ev_until := pg_time <$> sc_Until c; ev_permanent := sc_Permanent c;
     ev_outcome := sc_Outcome c; ev_policy := sc_PolicyID c; ev_version := int32 (sc_PolicyVersion c); ev_rule := sc_Rule c;
     ev_report := sc_ReportID c; ev_lease := sc_LeaseID c; ev_actor := sc_Actor c; ev_reason := sc_Reason c; ev_shadow := sc_Shadow c;
     ev_details := sc_Details c |}.
Definition event_key (c : StateChange) : string * Z := (sc_ID c, pg_time (sc_At c)).
(** A conflict with a stored event is ignored.  The ids that are drawn are an argument. *)
Definition add_event (newID : nat → string) (now : Z) (events : gmap (string * Z) Event) (ic : nat * StateChange) : gmap (string * Z) Event :=
  if String.eqb (sc_SubjectID ic.2) "" then events
  else
    let c := StateChange_normalize (newID ic.1) now ic.2 in
    match events !! event_key c with Some _ => events | None => <[event_key c := event_of c]> events end.
Definition insertStateEventsOnce (newID : nat → string) (now : Z) (changes : list StateChange) (db : Tables) : Tables :=
  {| db_identities := db_identities db; db_accounts := db_accounts db; db_proxies := db_proxies db;
     db_events := foldl (add_event newID now) (db_events db) (imap pair changes) |}.

(** What a transaction commits. *)
Definition write_tx (newID : nat → string) (now : Z) (changes : list StateChange) (db : Tables) : Tables :=
  insertStateEventsOnce newID now changes (updateSubjects changes db).

(** ** The newest update of a batch *)

Definition subject (c : StateChange) : string * string := (sc_SubjectKind c, sc_SubjectID c).
Definition updates (c : StateChange) : Prop := isLifecycleChange c = true ∧ sc_SubjectID c ≠ "".

Lemma latest_step_updates l c : updates c → latest_step l c = put_latest (subject c) c l.
Proof.
  unfold updates, isLifecycleChange, latest_step, subject. rewrite andb_true_iff, negb_true_iff. intros [[-> ->] H].
  by apply String.eqb_neq in H as ->.
Qed.
Lemma latest_step_other l c : ¬ updates c → latest_step l c = l.
Proof.
  unfold updates, isLifecycleChange, latest_step. intros H. destruct (sc_UpdateSubject c), (sc_Shadow c); try done.
  destruct (String.eqb_spec (sc_SubjectID c) "") as [|Hn]; [done|]. by destruct H.
Qed.
#[local] Instance updates_dec c : Decision (updates c).
Proof. unfold updates. apply _. Defined.

(** What is kept of the changes so far. *)
Record latest_ok (changes : list StateChange) (l : list (string * string * StateChange)) : Prop := {
  lo_keys : NoDup l.*1;
  lo_from : ∀ k c, (k, c) ∈ l → c ∈ changes ∧ updates c ∧ subject c = k;
  lo_newest : ∀ c, c ∈ changes → updates c → ∃ c', (subject c, c') ∈ l ∧ sc_At c ≤ sc_At c';
}.

Lemma put_latest_keys k c l : (put_latest k c l).*1 = if decide (k ∈ l.*1) then l.*1 else l.*1 ++ [k].
Proof.
  induction l as [|[k' c'] l IH]; [done|]. cbn [put_latest]. case_bool_decide as Hk; cbn.
  - subst. rewrite decide_True; [done|left].
  - rewrite IH. destruct (decide (k ∈ l.*1)) as [H|H]; [rewrite decide_True; [done|by right]|]. rewrite decide_False; [done|]. by intros [?|?]%elem_of_cons.
Qed.
Lemma put_latest_elem k c l k' c' :
  (k', c') ∈ put_latest k c l → (k', c') ∈ l ∨ (k' = k ∧ c' = c).
Proof.
  induction l as [|[k1 c1] l IH]; cbn [put_latest].
  - intros [[= -> ->]|?%elem_of_nil]%elem_of_cons; [by right|done].
  - case_bool_decide as Hk; intros [H|H]%elem_of_cons.
    + subst. injection H as -> ->. destruct (_ <? _); [left; left|by right].
    + left. by right.
    + left. rewrite H. left.
    + destruct (IH H) as [?|?]; [left; by right|by right].
Qed.
Lemma put_latest_new k c l : ∃ c', (k, c') ∈ put_latest k c l ∧ sc_At c ≤ sc_At c'.
Proof.
  induction l as [|[k1 c1] l IH]; cbn [put_latest]; [exists c; split; [left|done]|]. case_bool_decide as Hk.
  - subst. destruct (Z.ltb_spec (sc_At c) (sc_At c1)); eexists; (split; [left|lia]).
  - destruct IH as (c' & ? & ?). exists c'. split; [by right|done].
Qed.
Lemma put_latest_old k c l k' c' : (k', c') ∈ l → ∃ c'', (k', c'') ∈ put_latest k c l ∧ sc_At c' ≤ sc_At c''.
Proof.
  induction l as [|[k1 c1] l IH]; [by intros ?%elem_of_nil|]. cbn [put_latest]. intros [[= -> ->]|H]%elem_of_cons.
  - case_bool_decide; [|eexists; split; [left|done]]. destruct (Z.ltb_spec (sc_At c) (sc_At c1)); eexists; (split; [left|lia]).
  - case_bool_decide; [eexists; split; [by right|done]|]. destruct (IH H) as (c'' & ? & ?). exists c''. split; [by right|done].
Qed.

Lemma latest_fold changes : latest_ok changes (foldl latest_step [] changes).
Proof.
  induction changes as [|c changes [IH1 IH2 IH3]] using rev_ind.
  { split; [constructor|by intros ? ? ?%elem_of_nil|by intros ? ?%elem_of_nil]. }
  rewrite foldl_app. cbn [foldl]. destruct (decide (updates c)) as [Hu|Hu].
  - rewrite latest_step_updates by done. split.
    + rewrite put_latest_keys. case_decide; [done|]. apply NoDup_app. split_and!; [done| |apply NoDup_singleton]. intros k Hk Hs%list_elem_of_singleton. by subst.
    + intros k c' [H|[-> ->]]%put_latest_elem; [destruct (IH2 _ _ H) as (?&?&?)|]; (split_and!; [|done|done]); set_solver.
    + intros c' [H|H%list_elem_of_singleton]%elem_of_app Hc'; [|subst; apply put_latest_new]. destruct (IH3 _ H Hc') as (c1 & H1 & ?).
      destruct (put_latest_old (subject c) c _ _ _ H1) as (c2 & ? & ?). exists c2. split; [done|lia].
  - rewrite latest_step_other by done. split; [done| |].
    + intros k c' H. destruct (IH2 _ _ H) as (?&?&?). split_and!; [set_solver|done|done].
    + intros c' [H|H%list_elem_of_singleton]%elem_of_app Hc'; [by apply IH3|by subst].
Qed.

Lemma latestUpdates_elem changes kind c : c ∈ latestUpdates changes kind → c ∈ changes ∧ updates c ∧ sc_SubjectKind c = kind.
Proof.
  unfold latestUpdates. intros ([k c'] & -> & [Hk H]%list_elem_of_filter)%list_elem_of_fmap. destruct (lo_from _ _ (latest_fold changes) _ _ H) as (?&?&<-). done.
Qed.
Lemma latestUpdates_ids changes kind : NoDup (sc_SubjectID <$> latestUpdates changes kind).
Proof.
  pose proof (latest_fold changes) as [Hk Hf _]. unfold latestUpdates. revert Hk Hf. generalize (foldl latest_step [] changes) as l.
  induction l as [|[k c] l IH]; intros Hk Hf; [constructor|]. apply NoDup_cons in Hk as [Hn Hk].
  assert (NoDup (sc_SubjectID <$> (filter (λ kc : string * string * StateChange, kc.1.1 = kind) l).*2)) as IH' by (apply IH; [done|intros; apply Hf; by right]).
  rewrite filter_cons. case_decide as Hd; [|done]. cbn. apply NoDup_cons. split; [|done].
  intros (c' & Hid & ([k' c''] & -> & [Hk' Hin]%list_elem_of_filter)%list_elem_of_fmap)%list_elem_of_fmap. cbn in *. apply Hn.
  destruct (Hf k c) as (_ & _ & Hs); [left|]. destruct (Hf k' c'') as (_ & _ & Hs'); [by right|]. unfold subject in *. apply list_elem_of_fmap. exists (k', c''). split; [|done].
  cbn. rewrite <- Hs in Hd. rewrite <- Hs' in Hk'. cbn in *. subst. congruence.
Qed.

(** The latest update of the subject of [c] in a batch that holds [c]. *)
Lemma latestUpdates_newest changes c :
  c ∈ changes → updates c → ∃ c', c' ∈ latestUpdates changes (sc_SubjectKind c) ∧ sc_SubjectID c' = sc_SubjectID c ∧ sc_At c ≤ sc_At c'.
Proof.
  intros Hc Hu. destruct (lo_newest _ _ (latest_fold changes) c Hc Hu) as (c' & Hin & Hat). exists c'. destruct (lo_from _ _ (latest_fold changes) _ _ Hin) as (_ & _ & [= _ Hid]).
  split_and!; [|done|done]. apply list_elem_of_fmap. exists (subject c, c'). split; [done|]. by apply list_elem_of_filter.
Qed.

(** ** Rows after an update *)

Section rows.
Context {R : Type} (f : StateChange → R → R).
Abbreviation update := (foldl (λ t c, alter (f c) (sc_SubjectID c) t)).

Lemma update_other rows t id : id ∉ sc_SubjectID <$> rows → (update t rows : gmap string R) !! id = t !! id.
Proof.
  revert t. induction rows as [|c rows IH]; intros t Hn; [done|]. cbn in *. apply not_elem_of_cons in Hn as [Hne Hn].
  rewrite IH by done. by rewrite lookup_alter_ne.
Qed.
Lemma update_one rows t c : NoDup (sc_SubjectID <$> rows) → c ∈ rows → (update t rows : gmap string R) !! sc_SubjectID c = f c <$> t !! sc_SubjectID c.
Proof.
  revert t. induction rows as [|c1 rows IH]; intros t Hnd Hin; [by apply elem_of_nil in Hin|]. cbn in *. apply NoDup_cons in Hnd as [Hn Hnd].
  apply elem_of_cons in Hin as [<-|Hin]; [rewrite update_other by done; by rewrite lookup_alter_eq|].
  rewrite IH by done. rewrite lookup_alter_ne; [done|]. intros E. apply Hn. rewrite E. by apply list_elem_of_fmap_2.
Qed.
(** The row of a subject stays, or one update of the batch is applied to it. *)
Lemma update_cases changes kind id (t : gmap string R) r :
  t !! id = Some r →
  (update t (latestUpdates changes kind) !! id = Some r ∧ ∀ c, c ∈ changes → updates c → subject c = (kind, id) → False) ∨
  ∃ c', c' ∈ changes ∧ updates c' ∧ subject c' = (kind, id) ∧ update t (latestUpdates changes kind) !! id = Some (f c' r) ∧
    ∀ c, c ∈ changes → updates c → subject c = (kind, id) → sc_At c ≤ sc_At c'.
Proof.
  intros Hr. destruct (decide (id ∈ sc_SubjectID <$> latestUpdates changes kind)) as [(c' & -> & Hc')%list_elem_of_fmap|Hn].
  - right. destruct (latestUpdates_elem _ _ _ Hc') as (H1 & H2 & H3). exists c'. split_and!; [done|done|unfold subject; by rewrite H3| |].
    + rewrite update_one; [by rewrite Hr|apply latestUpdates_ids|done].
    + intros c Hc Hu [= Hk Hid]. destruct (latestUpdates_newest _ _ Hc Hu) as (c2 & Hc2 & Hid2 & Hat). rewrite Hk in Hc2. enough (c2 = c') by (by subst).
      rewrite Hid in Hid2. pose proof (latestUpdates_ids changes kind) as Hnd. apply list_elem_of_lookup in Hc2 as [i Hi], Hc' as [j Hj].
      assert (i = j) as ->; [|congruence]. eapply NoDup_lookup; [exact Hnd| |]; rewrite list_lookup_fmap; [by rewrite Hi|rewrite Hj; cbn; congruence].
  - left. split; [by rewrite update_other|]. intros c Hc Hu [= Hk Hid]. apply Hn. destruct (latestUpdates_newest _ _ Hc Hu) as (c2 & Hc2 & Hid2 & _).
    apply list_elem_of_fmap. exists c2. split; [congruence|by subst].
Qed.
End rows.

(** ** Events after an insertion *)

Definition normalized (c : StateChange) : Prop := sc_ID c ≠ "" ∧ sc_At c ≠ zeroTime ∧ sc_Actor c ≠ "".

Lemma normalize_id newID now c : normalized c → StateChange_normalize newID now c = c.
Proof.
  intros (H1 & H2 & H3). unfold StateChange_normalize. apply String.eqb_neq in H1 as ->, H3 as ->. apply Z.eqb_neq in H2 as ->. by destruct c.
Qed.
Lemma StateChange_normalize_ok newID now c : newID ≠ "" → now ≠ zeroTime → normalized (StateChange_normalize newID now c).
Proof.
  intros H1 H2. unfold normalized, StateChange_normalize. cbn. split_and!.
  - by destruct (String.eqb_spec (sc_ID c) "").
  - by destruct (Z.eqb_spec (sc_At c) zeroTime).
  - by destruct (String.eqb_spec (sc_Actor c) "").
Qed.

Section events.
Variables (newID : nat → string) (now : Z).

Lemma add_event_lookup events i c key : normalized c →
  add_event newID now events (i, c) !! key =
    match events !! key with Some e => Some e | None => if decide (sc_SubjectID c ≠ "" ∧ key = event_key c) then Some (event_of c) else None end.
Proof.
  intros Hc. unfold add_event. cbn [fst snd]. destruct (String.eqb_spec (sc_SubjectID c) "") as [He|He].
  - destruct (events !! key); [done|]. rewrite decide_False; [done|]. by intros [? _].
  - cbv zeta. rewrite normalize_id by done. destruct (decide (key = event_key c)) as [->|Hne].
    + destruct (events !! event_key c) eqn:E; [by rewrite E|]. by rewrite lookup_insert_eq, decide_True.
    + rewrite (decide_False (P := sc_SubjectID c ≠ "" ∧ _)) by (by intros [_ ?]). destruct (events !! event_key c) as [e|].
      * by destruct (events !! key).
      * rewrite lookup_insert_ne by done. by destruct (events !! key).
Qed.

(** An event in the table was there, or is the one of a change of the batch; every stored
    event stays and every change has one. *)
Record inserted (changes : list StateChange) (events events' : gmap (string * Z) Event) : Prop := {
  in_from : ∀ key e, events' !! key = Some e → events !! key = Some e ∨ ∃ c, c ∈ changes ∧ sc_SubjectID c ≠ "" ∧ key = event_key c ∧ e = event_of c;
  in_kept : ∀ key e, events !! key = Some e → events' !! key = Some e;
  in_added : ∀ c, c ∈ changes → sc_SubjectID c ≠ "" → is_Some (events' !! event_key c);
}.
Lemma inserted_fold l events : Forall (λ ic, normalized ic.2) l → inserted l.*2 events (foldl (add_event newID now) events l).
Proof.
  revert events. induction l as [|[i c] l IH]; intros events Hl.
  { split; [by left|done|by intros ? ?%elem_of_nil]. }
  apply Forall_cons in Hl as [Hc Hl]. cbn in Hc. destruct (IH (add_event newID now events (i, c)) Hl) as [I1 I2 I3]. split.
  - intros key e H. destruct (I1 _ _ H) as [H'|(c' & ? & ?)]; [|right; exists c'; split; [by right|done]].
    rewrite add_event_lookup in H' by done. destruct (events !! key) eqn:E; [by left; congruence|]. case_decide as Hd; [|done].
    right. exists c. destruct Hd. split_and!; [left|done|done|congruence].
  - intros key e H. apply I2. by rewrite add_event_lookup, H.
  - intros c' [->|H]%elem_of_cons Hs; [|by apply I3]. destruct (add_event newID now events (i, c) !! event_key c) as [e|] eqn:E; [exists e; by apply I2|].
    rewrite add_event_lookup in E by done. destruct (events !! event_key c); [done|]. by rewrite decide_True in E.
Qed.
Lemma insertStateEventsOnce_inserted changes db :
  Forall normalized changes → inserted changes (db_events db) (db_events (insertStateEventsOnce newID now changes db)).
Proof.
  intros Hc. cbn [db_events insertStateEventsOnce]. assert ((imap pair changes).*2 = changes) as E.
  { rewrite fmap_imap. apply list_eq. intros i. rewrite list_lookup_imap. cbn. by destruct (changes !! i). }
  pose proof (inserted_fold (imap pair changes) (db_events db)) as H. rewrite E in H. apply H. apply Forall_forall. intros ic Hic. rewrite Forall_forall in Hc. apply Hc. rewrite <- E. by apply list_elem_of_fmap_2.
Qed.
End events.

(** ** The newest change wins *)

Definition write_all (newID : nat → string) (now : Z) (txs : list (list StateChange)) (db : Tables) : Tables :=
  foldl (λ db changes, write_tx newID now changes db) db txs.

(** What the rows show after a change. *)
Definition identity_shows (c : StateChange) (row : IdentityRow) : Prop :=
  ir_state row = sc_ToState c ∧ ir_reason row = stateReason c ∧ ir_changed row = pg_time (sc_At c) ∧ ir_updated row = pg_time (sc_At c) ∧
  ir_ban row = (if String.eqb (sc_ToState c) "banned" && negb (sc_Permanent c) then pg_time <$> sc_Until c else None) ∧
  ir_quarantine row = (if String.eqb (sc_ToState c) "quarantined" then pg_time <$> sc_Until c else None).
Definition proxy_shows (c : StateChange) (row : ProxyRow) : Prop :=
  px_state row = sc_ToState c ∧ px_reason row = stateReason c ∧ px_changed row = pg_time (sc_At c) ∧ px_updated row = pg_time (sc_At c) ∧
  px_ban row = (if negb (sc_Permanent c) && (String.eqb (sc_ToState c) "banned" || String.eqb (sc_ToState c) "quarantined") then pg_time <$> sc_Until c else None).
Definition account_shows (c : StateChange) (row : AccountRow) : Prop :=
  ac_state row = sc_ToState c ∧ pg_time (sc_At c) ≤ ac_updated row ∧
  ac_ban row = (if String.eqb (sc_ToState c) "banned" && negb (sc_Permanent c) then pg_time <$> sc_Until c else None).

(** An event that counts as a transition of the account. *)
Definition account_event (id : string) (e : Event) : Prop :=
  ev_subject e = id ∧ ev_kind e = "account" ∧ ev_shadow e = false ∧ ev_action e ≠ "cooldown".

Lemma newer_event_true events id t : newer_event events id t = true ↔ ∃ key e, events !! key = Some e ∧ account_event id e ∧ t < key.2.
Proof.
  unfold newer_event, account_event. rewrite existsb_exists. setoid_rewrite andb_true_iff. setoid_rewrite andb_true_iff. setoid_rewrite andb_true_iff. setoid_rewrite andb_true_iff.
  setoid_rewrite negb_true_iff. setoid_rewrite String.eqb_eq. setoid_rewrite String.eqb_neq. setoid_rewrite Z.ltb_lt. split.
  - intros ([key e] & H%list_elem_of_In%elem_of_map_to_list & H'). exists key, e. tauto.
  - intros (key & e & H%elem_of_map_to_list%list_elem_of_In & H'). exists (key, e). cbn. tauto.
Qed.

Section newest.
Variables (newID : nat → string) (now : Z) (c : StateChange) (all : list StateChange).
Hypothesis c_updates : updates c.
Hypothesis all_normalized : Forall normalized all.
(** Every other update of the subject is older, to the microsecond. *)
Hypothesis c_newest : ∀ c', c' ∈ all → updates c' → subject c' = subject c → c' = c ∨ pg_time (sc_At c') < pg_time (sc_At c).

Abbreviation T := (pg_time (sc_At c)).

(** A goal that a transaction with the change reaches and no transaction leaves. *)
Lemma reached (pending shows : Tables → Prop) txs db :
  concat txs ⊆ all → c ∈ concat txs →
  (∀ b db, b ⊆ all → pending db → c ∈ b → shows (write_tx newID now b db)) →
  (∀ b db, b ⊆ all → pending db → c ∉ b → pending (write_tx newID now b db)) →
  (∀ b db, b ⊆ all → shows db → shows (write_tx newID now b db)) →
  pending db → shows (write_all newID now txs db).
Proof.
  intros Hall Hin H1 H2 H3 Hp. assert (shows db ∨ (pending db ∧ c ∈ concat txs)) as Hs by by right. clear Hp Hin. revert db Hs.
  induction txs as [|b txs IH]; intros db Hs; cbn in *; [destruct Hs as [|[_ ?%elem_of_nil]]; done|].
  assert (b ⊆ all ∧ concat txs ⊆ all) as [Hb Htxs] by (split; intros x Hx; apply Hall, elem_of_app; tauto). apply IH; [done|].
  destruct Hs as [Hs|[Hp Hc]]; [left; by apply H3|]. destruct (decide (c ∈ b)) as [Hcb|Hcb]; [left; by apply H1|]. right. split; [by apply H2|].
  apply elem_of_app in Hc as [?|?]; done.
Qed.

Lemma pg_time_mono s t : s ≤ t → pg_time s ≤ pg_time t.
Proof. unfold pg_time. intros. by apply Z.div_le_mono. Qed.

(** The update of the subject that a batch applies. *)
Lemma latest_is_newest b c' :
  b ⊆ all → c' ∈ b → updates c' → subject c' = subject c → (∀ d, d ∈ b → updates d → subject d = subject c → sc_At d ≤ sc_At c') →
  (c' = c ∨ pg_time (sc_At c') < T) ∧ (c ∈ b → c' = c).
Proof.
  intros Hb Hc' Hu Hs Hmax. destruct (c_newest c' (Hb _ Hc') Hu Hs) as [->|Hlt]; [tauto|]. split; [by right|]. intros Hc.
  pose proof (pg_time_mono _ _ (Hmax c Hc c_updates eq_refl)). lia.
Qed.

(** Rows that know the time of their last change. *)
Section timed.
Context {R : Type} (f : StateChange → R → R) (shows : R → Prop) (changed : R → Z) (kind : string) (table : Tables → gmap string R).
Hypothesis f_new : ∀ r, changed r < T → shows (f c r).
Hypothesis f_old : ∀ c' r, pg_time (sc_At c') ≤ changed r → f c' r = r.
Hypothesis f_time : ∀ c' r, changed (f c' r) = Z.max (changed r) (pg_time (sc_At c')).
Hypothesis shows_time : ∀ r, shows r → changed r = T.
Hypothesis table_tx : ∀ b db, table (write_tx newID now b db) = foldl (λ t c, alter (f c) (sc_SubjectID c) t) (table db) (latestUpdates b kind).

Lemma timed_newest txs db r :
  sc_SubjectKind c = kind → concat txs ⊆ all → c ∈ concat txs → table db !! sc_SubjectID c = Some r → changed r < T →
  ∃ r', table (write_all newID now txs db) !! sc_SubjectID c = Some r' ∧ shows r'.
Proof.
  intros Hk Hall Hin Hr Ht. assert (subject c = (kind, sc_SubjectID c)) as Hs by (unfold subject; congruence).
  apply (reached (λ db, ∃ r, table db !! sc_SubjectID c = Some r ∧ changed r < T) (λ db, ∃ r, table db !! sc_SubjectID c = Some r ∧ shows r)); [done|done| | | |by exists r].
  - intros b db1 Hb (r1 & Hr1 & Ht1) Hc. rewrite table_tx. destruct (update_cases f b kind _ _ _ Hr1) as [[_ Hno]|(c' & H1 & H2 & H3 & -> & H4)]; [by destruct (Hno c)|].
    rewrite <- Hs in *. destruct (latest_is_newest b c') as [_ E]; [done..|]. rewrite E by done. eauto.
  - intros b db1 Hb (r1 & Hr1 & Ht1) Hc. rewrite table_tx. destruct (update_cases f b kind _ _ _ Hr1) as [[-> _]|(c' & H1 & H2 & H3 & -> & H4)]; [by exists r1|].
    rewrite <- Hs in *. destruct (latest_is_newest b c') as [[->|Hlt] _]; [done..|]. eexists; split; [done|]. rewrite f_time. lia.
  - intros b db1 Hb (r1 & Hr1 & Hsh). pose proof (shows_time _ Hsh) as Ht1. rewrite table_tx. destruct (update_cases f b kind _ _ _ Hr1) as [[-> _]|(c' & H1 & H2 & H3 & -> & H4)]; [by exists r1|].
    rewrite <- Hs in *. destruct (latest_is_newest b c') as [Hc' _]; [done..|]. eexists; split; [done|]. rewrite f_old; [done|]. destruct Hc' as [->|?]; lia.
Qed.
End timed.

Lemma identity_newest txs db r :
  sc_SubjectKind c = SubjectIdentity → concat txs ⊆ all → c ∈ concat txs → db_identities db !! sc_SubjectID c = Some r → ir_changed r < T →
  ∃ r', db_identities (write_all newID now txs db) !! sc_SubjectID c = Some r' ∧ identity_shows c r'.
Proof.
  apply (timed_newest identity_row (identity_shows c) ir_changed SubjectIdentity db_identities).
  - intros r1 Hr1. unfold identity_row. rewrite (proj2 (Z.ltb_lt _ _) Hr1). done.
  - intros c' r1 Hr1. unfold identity_row. by rewrite (proj2 (Z.ltb_ge _ _) Hr1).
  - intros c' r1. unfold identity_row. destruct (Z.ltb_spec (ir_changed r1) (pg_time (sc_At c'))); cbn; lia.
  - by intros r1 (_ & _ & ? & _).
  - done.
Qed.
Lemma proxy_newest txs db r :
  sc_SubjectKind c = SubjectProxy → concat txs ⊆ all → c ∈ concat txs → db_proxies db !! sc_SubjectID c = Some r → px_changed r < T →
  ∃ r', db_proxies (write_all newID now txs db) !! sc_SubjectID c = Some r' ∧ proxy_shows c r'.
Proof.
  apply (timed_newest proxy_row (proxy_shows c) px_changed SubjectProxy db_proxies).
  - intros r1 Hr1. unfold proxy_row. rewrite (proj2 (Z.ltb_lt _ _) Hr1). done.
  - intros c' r1 Hr1. unfold proxy_row. by rewrite (proj2 (Z.ltb_ge _ _) Hr1).
  - intros c' r1. unfold proxy_row. destruct (Z.ltb_spec (px_changed r1) (pg_time (sc_At c'))); cbn; lia.
  - by intros r1 (_ & _ & ? & _).
  - done.
Qed.

(** Accounts: the events of the table tell the time of the last change. *)
Definition no_newer (events : gmap (string * Z) Event) : Prop :=
  (∀ key e, events !! key = Some e → account_event (sc_SubjectID c) e → key.2 ≤ T) ∧ ∀ e, events !! event_key c = Some e → e = event_of c.

Section account.
Hypothesis c_account : sc_SubjectKind c = SubjectAccount.
Hypothesis c_action : sc_Action c ≠ "cooldown".
Hypothesis all_older : ∀ c', c' ∈ all → account_event (sc_SubjectID c) (event_of c') → c' = c ∨ pg_time (sc_At c') < T.
Hypothesis all_ids : ∀ c', c' ∈ all → sc_ID c' = sc_ID c → c' = c.

Lemma no_newer_tx b db : b ⊆ all → no_newer (db_events db) → no_newer (db_events (write_tx newID now b db)).
Proof.
  intros Hb [N1 N2]. assert (Forall normalized b) as Hn by (rewrite Forall_forall in *; auto).
  pose proof (insertStateEventsOnce_inserted newID now b (updateSubjects b db) Hn) as [I1 _ _]. split.
  - intros key e He Ha. destruct (I1 _ _ He) as [H|(c' & Hc' & _ & -> & ->)]; [by eapply N1|]. cbn. destruct (all_older c') as [->|?]; [by apply Hb|done|done|lia].
  - intros e He. destruct (I1 _ _ He) as [H|(c' & Hc' & _ & E & ->)]; [by apply N2|]. injection E as E _. by rewrite (all_ids c') by auto.
Qed.
Lemma own_event_tx b db : b ⊆ all → c ∈ b → no_newer (db_events db) → db_events (write_tx newID now b db) !! event_key c = Some (event_of c).
Proof.
  intros Hb Hc Hnn. assert (Forall normalized b) as Hn by (rewrite Forall_forall in *; auto).
  pose proof (insertStateEventsOnce_inserted newID now b (updateSubjects b db) Hn) as [_ _ I3]. destruct (I3 c Hc) as [e He]; [apply c_updates|].
  pose proof (no_newer_tx b db Hb Hnn) as [_ N2]. unfold write_tx in *. rewrite He. f_equal. by apply N2.
Qed.
Lemma account_row_new db r : no_newer (db_events db) → account_shows c (account_row (db_events db) c r).
Proof.
  intros [N1 _]. unfold account_row. destruct (newer_event _ _ _) eqn:E.
  - apply newer_event_true in E as (key & e & H1 & H2 & H3). pose proof (N1 _ _ H1 H2). lia.
  - split_and!; cbn; [done|lia|done].
Qed.
Lemma account_row_old db c' r :
  db_events db !! event_key c = Some (event_of c) → sc_SubjectID c' = sc_SubjectID c → pg_time (sc_At c') < T → account_row (db_events db) c' r = r.
Proof.
  intros He Hid Hlt. unfold account_row. rewrite Hid. replace (newer_event _ _ _) with true; [done|]. symmetry. apply newer_event_true. exists (event_key c), (event_of c).
  destruct c_updates as [[_ Hsh%negb_true_iff]%andb_true_iff _]. done.
Qed.

Lemma account_newest txs db r :
  concat txs ⊆ all → c ∈ concat txs → db_accounts db !! sc_SubjectID c = Some r → no_newer (db_events db) →
  ∃ r', db_accounts (write_all newID now txs db) !! sc_SubjectID c = Some r' ∧ account_shows c r'.
Proof.
  intros Hall Hin Hr Hnn. assert (subject c = (SubjectAccount, sc_SubjectID c)) as Hs by (unfold subject; congruence).
  destruct (reached (λ db, is_Some (db_accounts db !! sc_SubjectID c) ∧ no_newer (db_events db))
    (λ db, (∃ r, db_accounts db !! sc_SubjectID c = Some r ∧ account_shows c r) ∧ no_newer (db_events db) ∧ db_events db !! event_key c = Some (event_of c)) txs db) as [H _]; [done|done| | | |by rewrite Hr|done].
  - intros b db1 Hb [[r1 Hr1] Hn1] Hc. split; [|by split; [apply no_newer_tx|apply own_event_tx]].
    cbn [db_accounts write_tx insertStateEventsOnce updateSubjects]. destruct (update_cases (account_row (db_events db1)) b SubjectAccount _ _ _ Hr1) as [[_ Hno]|(c' & H1 & H2 & H3 & H4 & H5)]; [by destruct (Hno c)|].
    rewrite <- Hs in *. destruct (latest_is_newest b c') as [_ E]; [done..|]. specialize (E Hc). subst c'. eexists. split; [exact H4|by apply account_row_new].
  - intros b db1 Hb [[r1 Hr1] Hn1] Hc. split; [|by apply no_newer_tx].
    cbn [db_accounts write_tx insertStateEventsOnce updateSubjects]. destruct (update_cases (account_row (db_events db1)) b SubjectAccount _ _ _ Hr1) as [[H4 _]|(c' & _ & _ & _ & H4 & _)]; eexists; exact H4.
  - intros b db1 Hb ((r1 & Hr1 & Hsh) & Hn1 & He). assert (Forall normalized b) as Hn by (rewrite Forall_forall in *; auto).
    split; [|split; [by apply no_newer_tx|by apply (in_kept _ _ _ (insertStateEventsOnce_inserted newID now b (updateSubjects b db1) Hn))]].
    cbn [db_accounts write_tx insertStateEventsOnce updateSubjects]. destruct (update_cases (account_row (db_events db1)) b SubjectAccount _ _ _ Hr1) as [[H4 _]|(c' & H1 & H2 & H3 & H4 & H5)]; [by exists r1|].
    rewrite <- Hs in *. eexists. split; [exact H4|]. destruct (latest_is_newest b c') as [[->|Hlt] _]; [done..|by apply account_row_new|]. injection H3 as _ Hid. by rewrite account_row_old.
Qed.
End account.
End newest.

(** Every change of the transactions has its event, and no stored event is replaced. *)
Lemma events_kept newID now txs db :
  Forall normalized (concat txs) →
  (∀ c, c ∈ concat txs → sc_SubjectID c ≠ "" → is_Some (db_events (write_all newID now txs db) !! event_key c)) ∧
  ∀ key e, db_events db !! key = Some e → db_events (write_all newID now txs db) !! key = Some e.
Proof.
  revert db. induction txs as [|b txs IH]; intros db Hn; cbn in *; [split; [by intros ? ?%elem_of_nil|done]|]. apply Forall_app in Hn as [Hb Hn].
  destruct (IH (write_tx newID now b db) Hn) as [IH1 IH2]. pose proof (insertStateEventsOnce_inserted newID now b (updateSubjects b db) Hb) as [_ I2 I3]. split.
  - intros c [Hc|Hc]%elem_of_app Hs; [|by apply IH1]. destruct (I3 c Hc Hs) as [e He]. exists e. by apply IH2.
  - intros key e He. by apply IH2, I2.
Qed.

(** C16: in whatever batches and in whatever order changes are written, and however often,
    the row of a subject ends with the newest change, if it is newer than the row: for
    identities and proxies, which keep the time of their last change, and for accounts,
    whose events tell it.  Every change has its event, which is stored once and never
    replaced. *)
Theorem rows_newest newID now txs db c :
  Forall normalized (concat txs) → c ∈ concat txs → updates c →
  (∀ c', c' ∈ concat txs → subject c' = subject c → updates c' ∨ account_event (sc_SubjectID c) (event_of c') → c' = c ∨ pg_time (sc_At c') < pg_time (sc_At c)) →
  let db' := write_all newID now txs db in
  (sc_SubjectKind c = SubjectIdentity → ∀ row, db_identities db !! sc_SubjectID c = Some row → ir_changed row < pg_time (sc_At c) →
     ∃ row', db_identities db' !! sc_SubjectID c = Some row' ∧ identity_shows c row') ∧
  (sc_SubjectKind c = SubjectProxy → ∀ row, db_proxies db !! sc_SubjectID c = Some row → px_changed row < pg_time (sc_At c) →
     ∃ row', db_proxies db' !! sc_SubjectID c = Some row' ∧ proxy_shows c row') ∧
  (sc_SubjectKind c = SubjectAccount → sc_Action c ≠ "cooldown" → (∀ c', c' ∈ concat txs → sc_ID c' = sc_ID c → c' = c) → no_newer c (db_events db) →
     ∀ row, db_accounts db !! sc_SubjectID c = Some row → ∃ row', db_accounts db' !! sc_SubjectID c = Some row' ∧ account_shows c row') ∧
  (∀ c', c' ∈ concat txs → sc_SubjectID c' ≠ "" → is_Some (db_events db' !! event_key c')) ∧
  ∀ key e, db_events db !! key = Some e → db_events db' !! key = Some e.
Proof.
  intros Hn Hin Hu Hnew db'. assert (∀ c', c' ∈ concat txs → updates c' → subject c' = subject c → c' = c ∨ pg_time (sc_At c') < pg_time (sc_At c)) as Hnew1 by auto.
  split_and!; [intros; by eapply identity_newest|intros; by eapply proxy_newest| |by apply events_kept..].
  intros Hk Ha Hids Hnn row Hr. apply (account_newest newID now c (concat txs) Hu Hn Hnew1 Hk Ha) with (r := row); [|done..].
  intros c' Hc' Hev. apply Hnew; [done| |by right]. destruct Hev as (E1 & E2 & _). unfold subject. cbn in E1, E2. by rewrite E1, E2, Hk.
Qed.

(** ** A demonstration *)

Definition ex_change (id : string) (at_ : Z) (to action : string) : StateChange :=
  {| sc_ID := id; sc_At := at_; sc_TenantID := "ten_1"; sc_NamespaceID := "ns_1"; sc_SiteID := "site_1"; sc_SubjectKind := "identity"; sc_SubjectID := "idn_1";
     sc_SubjectKey := 7; sc_EndpointGroupID := ""; sc_FromState := "pending"; sc_ToState := to; sc_Action := action; sc_Scope := "identity"; sc_Until := None;
     sc_Permanent := false; sc_Outcome := ""; sc_PolicyID := ""; sc_PolicyVersion := 1; sc_Rule := "r"; sc_ReportID := ""; sc_LeaseID := ""; sc_Actor := "system";
     sc_Reason := ""; sc_Shadow := false; sc_Details := "{}"; sc_UpdateSubject := true; sc_StateReason := "" |}.
Definition ex_active : StateChange := ex_change "sev_1" 5000000 "active" "activate".
Definition ex_expired : StateChange := ex_change "sev_2" 9000000 "expired" "expire".
Definition ex_row : IdentityRow :=
  {| ir_hkey := 7; ir_state := "pending"; ir_reason := ""; ir_changed := 1000; ir_ban := None; ir_quarantine := None; ir_activated := None; ir_updated := 1000 |}.
Definition ex_tables : Tables := {| db_identities := {["idn_1" := ex_row]}; db_accounts := ∅; db_proxies := ∅; db_events := ∅ |}.
Definition ex_ids (n : nat) : string := "sev_x".

(** The expiry is written before the older activation, and then once more. *)
Lemma rows_newest_witness :
  ∃ row', db_identities (write_all ex_ids 0 [[ex_expired]; [ex_active]; [ex_expired]] ex_tables) !! "idn_1" = Some row' ∧ identity_shows ex_expired row'.
Proof.
  refine (proj1 (rows_newest ex_ids 0 [[ex_expired]; [ex_active]; [ex_expired]] ex_tables ex_expired _ _ _ _) eq_refl ex_row eq_refl _).
  - repeat constructor; discriminate.
  - left.
  - split; [reflexivity|discriminate].
  - intros c' Hc' _ _. cbn in Hc'. repeat (apply elem_of_cons in Hc' as [->|Hc']); [by left|by right|by left|by apply elem_of_nil in Hc'].
  - vm_compute. reflexivity.
Defined.

(** The time of the last activation depends on the batches: written one after the other,
    the activation leaves its time, and in one batch with a later change it does not. *)
Example activation_lost :
  (ir_activated <$> db_identities (write_all ex_ids 0 [[ex_active]; [ex_expired]] ex_tables) !! "idn_1") = Some (Some 5000) ∧
  (ir_activated <$> db_identities (write_all ex_ids 0 [[ex_active; ex_expired]] ex_tables) !! "idn_1") = Some None.
Proof. split; vm_compute; reflexivity. Qed.
