(* ===== verification/ActionExpiry.v ===== *)
(** * Expiry of bans and quarantines

    internal/action/expiry.go with queries/expiry.sql, and the push of committed
    transitions of operator_identity.go: the leader job that ends due bans and
    quarantines.  A pass releases rows in PostgreSQL, batch by batch, and then pushes
    them to the hot state.  The theorem shows what a pass makes of every identity row:
    it ends exactly what is due, and pushes what it ends. *)

From S2P Require Import Prelude GoStrings GoFloat PolicyBase GoTime LuaCommon PolicySignal PolicyAction PolicyRotation PolicySeverity PolicyEvaluate PolicyResolve Breaker StateRows.
From S2P Require Import SchedState HotSync ActionApply ActionExec.

Local Open Scope Z_scope.

Definition expiryBatch : nat := Z.to_nat 1000.
Definition maxExpiryBatches : nat := 20.

Definition StateActive : string := "active".
Definition StatePending : string := "pending".
Definition StateBanned : string := "banned".
Definition StateQuarantined : string := "quarantined".
Definition OpUnban : string := "unban".
Definition OpUnquarantine : string := "unquarantine".
Definition ReasonBanExpired : string := "ban_expired".
Definition ReasonQuarantineEnded : string := "quarantine_expired".
Definition DefaultGroup : string := "_default".
Definition flagForce : Z := 2.
Definition flagResetFails : Z := 4.
Definition flagResetHealth : Z := 8.

(** ** Rows *)

(** The columns that the queries read beside those of [StateRows]. *)
Record IdentityRec := { x_row : StateRows.IdentityRow; x_site : string; x_client : string; x_type : string; x_account : option string }.
Record AccountRec := { y_row : StateRows.AccountRow; y_site : string }.
Record ProxyRec := { z_row : StateRows.ProxyRow; z_namespace : string }.
Record Rows := { r_identities : gmap string IdentityRec; r_accounts : gmap string AccountRec; r_proxies : gmap string ProxyRec }.

(** [until IS NOT NULL AND until <= now]. *)
Definition ended (now : Z) (until : option Z) : bool := from_option (λ u, u <=? now) false until.

Definition ban_due (now : Z) (x : IdentityRec) : bool :=
  String.eqb (ir_state (x_row x)) StateBanned && ended now (ir_ban (x_row x)).
Definition quarantine_due (now : Z) (x : IdentityRec) : bool :=
  String.eqb (ir_state (x_row x)) StateQuarantined && ended now (ir_quarantine (x_row x)).
Definition account_due (now : Z) (y : AccountRec) : bool := String.eqb (ac_state (y_row y)) StateBanned && ended now (ac_ban (y_row y)).
Definition proxy_due (now : Z) (z : ProxyRec) : bool :=
  string_in (px_state (z_row z)) [StateBanned; StateQuarantined] && ended now (px_ban (z_row z)).

(** The account of the identity is banned and stays so after [now]. *)
Definition account_holds (now : Z) (accounts : gmap string AccountRec) (x : IdentityRec) : bool :=
  match x_account x ≫= (accounts !!.) with
  | Some y => String.eqb (ac_state (y_row y)) StateBanned && from_option (λ u, now <? u) true (ac_ban (y_row y))
  | None => false
  end.

(** The first rows that match, by their end. *)
Definition by_end {A} (until : A → option Z) (a b : string * A) : comparison := Z.compare (default 0 (until a.2)) (default 0 (until b.2)).
Definition due_rows {A} (match_row : string → A → bool) (until : A → option Z) (max : nat) (t : gmap string A) : list (string * A) :=
  take max (SortFunc (by_end until) (filter (λ kv, match_row kv.1 kv.2) (map_to_list t))).
Definition update_rows {A} (ids : list string) (f : A → A) (t : gmap string A) : gmap string A :=
  map_imap (λ id x, Some (if bool_decide (id ∈ ids) then f x else x)) t.

(** ** Queries *)

Definition released_identity (to reason : string) (now : Z) (x : IdentityRec) : IdentityRec :=
  let r := x_row x in
  {| x_row := {| ir_hkey := ir_hkey r; ir_state := to; ir_reason := reason; ir_changed := now; ir_ban := None; ir_quarantine := None;
                 ir_activated := if String.eqb to StateActive then Some now else ir_activated r; ir_updated := now |};
     x_site := x_site x; x_client := x_client x; x_type := x_type x; x_account := x_account x |}.
Definition released_account (now : Z) (y : AccountRec) : AccountRec :=
  {| y_row := {| ac_hkey := ac_hkey (y_row y); ac_state := StateActive; ac_ban := None; ac_updated := now |}; y_site := y_site y |}.
Definition released_proxy (reason : string) (now : Z) (z : ProxyRec) : ProxyRec :=
  {| z_row := {| px_hkey := px_hkey (z_row z); px_state := StateActive; px_reason := reason; px_changed := now; px_ban := None; px_updated := now |};
     z_namespace := z_namespace z |}.

(** The queries return the rows as they were; [locked] are the rows that another
    transaction holds, which the updates skip. *)
Definition ActionDueIdentityBans (now : Z) (max : nat) (db : Rows) : list (string * IdentityRec) :=
  due_rows (λ _ x, ban_due now x && negb (account_holds now (r_accounts db) x)) (λ x, ir_ban (x_row x)) max (r_identities db).

Definition ActionReleaseDueBans (to reason : string) (now : Z) (ids : list string) (locked : string → bool) (t : gmap string IdentityRec)
    : list (string * IdentityRec) * gmap string IdentityRec :=
  let prev := filter (λ kv, bool_decide (kv.1 ∈ ids) && ban_due now kv.2 && negb (locked kv.1)) (map_to_list t) in
  (prev, update_rows prev.*1 (released_identity to reason now) t).

Definition ActionReleaseDueQuarantines (reason : string) (now : Z) (max : nat) (locked : string → bool) (t : gmap string IdentityRec)
    : list (string * IdentityRec) * gmap string IdentityRec :=
  let prev := due_rows (λ id x, quarantine_due now x && negb (locked id)) (λ x, ir_quarantine (x_row x)) max t in
  (prev, update_rows prev.*1 (released_identity StatePending reason now) t).

Definition ActionReleaseDueAccountBans (now : Z) (max : nat) (locked : string → bool) (t : gmap string AccountRec)
    : list (string * AccountRec) * gmap string AccountRec :=
  let prev := due_rows (λ id y, account_due now y && negb (locked id)) (λ y, ac_ban (y_row y)) max t in
  (prev, update_rows prev.*1 (released_account now) t).

Definition ActionReleaseDueProxies (reason : string) (now : Z) (max : nat) (locked : string → bool) (t : gmap string ProxyRec)
    : list (string * ProxyRec) * gmap string ProxyRec :=
  let prev := due_rows (λ id z, proxy_due now z && negb (locked id)) (λ z, px_ban (z_row z)) max t in
  (prev, update_rows prev.*1 (released_proxy reason now) t).

(** ** Pushes *)

(** What is read of the catalog: the groups of a site, by client and name, with the
    identity types that their rotation admits. *)
Record CatalogGroup := { xg_Snap : GroupSnapshot; xg_IdentityTypeIDs : list string }.
Record CatalogSite := { xs_Key : Z; xs_Groups : gmap (string * string) CatalogGroup }.
Definition Catalog : Type := string → option CatalogSite.
Definition xs_All (s : CatalogSite) : list CatalogGroup := snd <$> map_to_list (xs_Groups s).

Record changedIdentity := { ch_ID : string; ch_Client : string; ch_TypeID : string; ch_Key : Z; ch_From : string; ch_To : string }.
Definition changed_to (to : string) (kx : string * IdentityRec) : changedIdentity :=
  {| ch_ID := kx.1; ch_Client := x_client kx.2; ch_TypeID := x_type kx.2; ch_Key := ir_hkey (x_row kx.2);
     ch_From := ir_state (x_row kx.2); ch_To := to |}.

Definition schedulable (state : string) : bool := String.eqb state StateActive || String.eqb state StatePending.
Definition eligibleGroupKeys (s : CatalogSite) (client typeID : string) : list Z :=
  SortFunc Z.compare ((λ g, gs_Key (xg_Snap g)) <$> filter (λ g, gs_Client (xg_Snap g) = client ∧ typeID ∈ xg_IdentityTypeIDs g) (xs_All s)).
Definition baselines (s : CatalogSite) (client : string) : gmap Z float64 :=
  list_to_map (omap (λ g, (λ a, (gs_Key (xg_Snap g), h_Baseline (ac_Health a))) <$> gs_Action (xg_Snap g))
    (filter (λ g, client = "" ∨ gs_Client (xg_Snap g) = client) (xs_All s))).

(** Times in nanoseconds. *)
Record hotTransition := {
  ht_at : Z; ht_to : string; ht_until : option Z; ht_permanent : bool; ht_resetFail : bool; ht_resetHP : bool; ht_recordBan : bool;
}.
Definition transition_flags (t : hotTransition) : Z :=
  Z.lor (Z.lor (Z.lor flagForce (if ht_resetFail t then flagResetFails else 0)) (if ht_resetHP t then flagResetHealth else 0))
    (if ht_recordBan t then flagRecordBans else 0).
Definition transition_until (t : hotTransition) : Z :=
  if string_in (ht_to t) [StateBanned; StateQuarantined] then untilMs (ht_until t) (ht_permanent t) else 0.

(** The operation of [pushTransitions] for one identity. *)
Definition transition_op (s : CatalogSite) (t : hotTransition) (c : changedIdentity) : luaOp :=
  {| Op := "set"; OpScope := "id"; OpSubject := ch_Key c; OpGroup := 0; Until := transition_until t; Flags := transition_flags t;
     Groups := groupKeys (xg_Snap <$> xs_All s) (ch_Client c);
     Add := if schedulable (ht_to t) then eligibleGroupKeys s (ch_Client c) (ch_TypeID c) else [];
     To := ht_to t; Trim := 0; PrevFail := 0; Baseline := f_zero;
     Baselines := if ht_resetFail t || ht_resetHP t then baselines s (ch_Client c) else ∅; Counters := []; Global := 0 |}.

(** The calls of [pushTransitions] on the hot state of the site: the chunks of the
    operations run one after another, without a token.  The synchronisation of the same
    identities that follows is a call of its own. *)
Definition pushTransitions (s : CatalogSite) (t : hotTransition) (changed : list changedIdentity) (st : Site) : Site :=
  (apply_lua (ht_at t / 1000000) "" (transition_op s t <$> changed) st).2.

Definition account_op (hkey : Z) (to : string) (until : Z) : luaOp :=
  {| Op := "set"; OpScope := "ac"; OpSubject := hkey; OpGroup := 0; Until := until; Flags := flagForce; Groups := []; Add := [];
     To := to; Trim := 0; PrevFail := 0; Baseline := f_zero; Baselines := ∅; Counters := []; Global := 0 |}.
Definition pushAccount (hkey : Z) (to : string) (until at' : Z) (st : Site) : Site :=
  (apply_lua (at' / 1000000) "" [account_op hkey to until] st).2.

Definition released_at (now : Z) (to : string) : hotTransition :=
  {| ht_at := now; ht_to := to; ht_until := None; ht_permanent := false; ht_resetFail := false; ht_resetHP := false; ht_recordBan := false |}.

(** ** Events *)

(** The event of a released subject; [tenancy] is [siteNS], the namespace and the tenant
    of a site, or of the namespace of a proxy. *)
Definition expiredChange (tenancy : string → string * string) (now : Z) (siteID kind id : string) (key : Z) (from to action reason : string) : StateRows.StateChange :=
  {| sc_ID := ""; sc_At := now; sc_TenantID := (tenancy siteID).2; sc_NamespaceID := (tenancy siteID).1; sc_SiteID := siteID;
     sc_SubjectKind := kind; sc_SubjectID := id; sc_SubjectKey := key; sc_EndpointGroupID := ""; sc_FromState := from; sc_ToState := to;
     sc_Action := action; sc_Scope := kind; sc_Until := None; sc_Permanent := false; sc_Outcome := ""; sc_PolicyID := "";
     sc_PolicyVersion := 0; sc_Rule := ""; sc_ReportID := ""; sc_LeaseID := ""; sc_Actor := ActorSystem; sc_Reason := reason;
     sc_Shadow := false; sc_Details := ""; sc_UpdateSubject := false; sc_StateReason := "" |}.

(** ** Effects of a pass *)

(** What a pass does beside the release of rows: the state events, inserted with the
    release and published after it; the pushes after the commit: [pushExpired] of a site,
    the state of an account, and the synchronisation of accounts and proxies. *)
Inductive Push :=
| push_events (changes : list StateRows.StateChange)
| push_identities (site to : string) (changed : list changedIdentity)
| push_account (site : string) (id : string) (hkey : Z)
| push_sync_accounts (site : string) (ids : list string)
| push_sync_proxies (namespace : string) (ids : list string).

(** [pushExpired] on the hot state of its site; a site that the catalog does not know
    is only synchronised. *)
Definition pushExpired (cat : Catalog) (now : Z) (site to : string) (changed : list changedIdentity) (st : Site) : Site :=
  match changed, cat site with
  | [], _ | _, None => st
  | _, Some s => pushTransitions s (released_at now to) changed st
  end.

(** ** The pass *)

Definition banExpiryState (cat : Catalog) (siteID client : string) : string :=
  match (cat siteID ≫= λ s, xs_Groups s !! (client, DefaultGroup)) ≫= λ g, gs_Action (xg_Snap g) with
  | Some a => if String.eqb (ac_BanExpiryState a) BanExpiryActive then StateActive else StatePending
  | None => StatePending
  end.

(** Rows by a key, in the order of their first rows. *)
Fixpoint put_row {K A} `{EqDecision K} (k : K) (a : A) (groups : list (K * list A)) : list (K * list A) :=
  match groups with
  | [] => [(k, [a])]
  | (k', l) :: groups => if bool_decide (k = k') then (k', l ++ [a]) :: groups else (k', l) :: put_row k a groups
  end.
Definition group_rows {A} (key : A → string) (rows : list A) : list (string * list A) :=
  foldl (λ groups a, put_row (key a) a groups) [] rows.

(** The ids of a batch by site and target state. *)
Definition release_target (cat : Catalog) (x : IdentityRec) : string * string := (x_site x, banExpiryState cat (x_site x) (x_client x)).
Definition targets (cat : Catalog) (due : list (string * IdentityRec)) : list (string * string * list string) :=
  foldl (λ groups kx, put_row (release_target cat kx.2) kx.1 groups) [] due.

(** The faults of a pass, by batch: whether a query or transaction succeeds, and the rows
    that other transactions hold. *)
Record Faults := { fa_reads : nat → bool; fa_commits : nat → string * string → bool; fa_locked : nat → string → bool }.

(** A run of batches: every batch changes the table, pushes and tells how many rows it
    found and whether it succeeded; it ends at a batch that is not full. *)
Fixpoint batches {T} (fuel n : nat) (batch : nat → T → T * list Push * nat * bool) (t : T) : T * list Push * bool :=
  match fuel with
  | O => (t, [], true)
  | S fuel =>
      let '(t, pushes, count, ok) := batch n t in
      if negb ok then (t, pushes, false)
      else if (count <? expiryBatch)%nat then (t, pushes, true)
      else let '(t, more, ok) := batches fuel (S n) batch t in (t, pushes ++ more, ok)
  end.

Section pass.
Variables (cat : Catalog) (tenancy : string → string * string) (fa : Faults) (now : Z).

Definition identity_events (to action reason : string) (prev : list (string * IdentityRec)) : Push :=
  push_events ((λ kx, expiredChange tenancy now (x_site kx.2) SubjectIdentity kx.1 (ir_hkey (x_row kx.2)) (ir_state (x_row kx.2)) to action reason) <$> prev).

(** [releaseBans]: the transaction and the push. *)
Definition releaseBans (n : nat) (k : string * string) (ids : list string) (t : gmap string IdentityRec)
    : option (gmap string IdentityRec * list Push) :=
  if fa_commits fa n k then
    let '(prev, t) := ActionReleaseDueBans k.2 ReasonBanExpired (pg_time now) ids (fa_locked fa n) t in
    Some (t, [identity_events k.2 OpUnban ReasonBanExpired prev; push_identities k.1 k.2 (changed_to k.2 <$> prev)])
  else None.
Fixpoint release_targets (n : nat) (groups : list (string * string * list string)) (t : gmap string IdentityRec)
    : gmap string IdentityRec * list Push * bool :=
  match groups with
  | [] => (t, [], true)
  | (k, ids) :: groups =>
      match releaseBans n k ids t with
      | None => (t, [], false)
      | Some (t, pushes) => let '(t, more, ok) := release_targets n groups t in (t, pushes ++ more, ok)
      end
  end.
Definition ban_batch (accounts : gmap string AccountRec) (n : nat) (t : gmap string IdentityRec) : gmap string IdentityRec * list Push * nat * bool :=
  if fa_reads fa n then
    let due := ActionDueIdentityBans (pg_time now) expiryBatch {| r_identities := t; r_accounts := accounts; r_proxies := ∅ |} in
    let '(t, pushes, ok) := release_targets n (targets cat due) t in (t, pushes, length due, ok)
  else (t, [], 0%nat, false).
Definition expireIdentityBans (accounts : gmap string AccountRec) (t : gmap string IdentityRec) : gmap string IdentityRec * list Push * bool :=
  batches maxExpiryBatches 0 (ban_batch accounts) t.

Definition quarantine_batch (n : nat) (t : gmap string IdentityRec) : gmap string IdentityRec * list Push * nat * bool :=
  if fa_commits fa n (""%string, StatePending) then
    let '(prev, t) := ActionReleaseDueQuarantines ReasonQuarantineEnded (pg_time now) expiryBatch (fa_locked fa n) t in
    (t, identity_events StatePending OpUnquarantine ReasonQuarantineEnded prev ::
        ((λ g, push_identities g.1 StatePending (changed_to StatePending <$> g.2)) <$> group_rows (λ kx, x_site kx.2) prev), length prev, true)
  else (t, [], 0%nat, false).
Definition expireQuarantines (t : gmap string IdentityRec) : gmap string IdentityRec * list Push * bool :=
  batches maxExpiryBatches 0 quarantine_batch t.

(** The states of accounts are pushed on the sites that the catalog knows. *)
Definition account_batch (n : nat) (t : gmap string AccountRec) : gmap string AccountRec * list Push * nat * bool :=
  if fa_commits fa n ("account"%string, StateActive) then
    let '(prev, t) := ActionReleaseDueAccountBans (pg_time now) expiryBatch (fa_locked fa n) t in
    (t, push_events ((λ ky, expiredChange tenancy now (y_site ky.2) SubjectAccount ky.1 (ac_hkey (y_row ky.2)) (ac_state (y_row ky.2)) StateActive OpUnban
          ReasonBanExpired) <$> prev) ::
        ((λ ky, push_account (y_site ky.2) ky.1 (ac_hkey (y_row ky.2))) <$> filter (λ ky, is_Some (cat (y_site ky.2))) prev) ++
        ((λ g, push_sync_accounts g.1 g.2.*1) <$> group_rows (λ ky, y_site ky.2) prev), length prev, true)
  else (t, [], 0%nat, false).
Definition expireAccountBans (t : gmap string AccountRec) : gmap string AccountRec * list Push * bool :=
  batches maxExpiryBatches 0 account_batch t.

Definition proxy_event (kz : string * ProxyRec) : StateRows.StateChange :=
  let from := px_state (z_row kz.2) in
  {| sc_ID := ""; sc_At := now; sc_TenantID := (tenancy (z_namespace kz.2)).2; sc_NamespaceID := z_namespace kz.2; sc_SiteID := "";
     sc_SubjectKind := SubjectProxy; sc_SubjectID := kz.1; sc_SubjectKey := px_hkey (z_row kz.2); sc_EndpointGroupID := ""; sc_FromState := from;
     sc_ToState := StateActive; sc_Action := if String.eqb from StateQuarantined then OpUnquarantine else OpUnban; sc_Scope := SubjectProxy;
     sc_Until := None; sc_Permanent := false; sc_Outcome := ""; sc_PolicyID := ""; sc_PolicyVersion := 0; sc_Rule := ""; sc_ReportID := "";
     sc_LeaseID := ""; sc_Actor := ActorSystem; sc_Reason := ReasonBanExpired; sc_Shadow := false; sc_Details := "";
     sc_UpdateSubject := false; sc_StateReason := "" |}.
Definition proxy_batch (n : nat) (t : gmap string ProxyRec) : gmap string ProxyRec * list Push * nat * bool :=
  if fa_commits fa n ("proxy"%string, StateActive) then
    let '(prev, t) := ActionReleaseDueProxies ReasonBanExpired (pg_time now) expiryBatch (fa_locked fa n) t in
    (t, push_events (proxy_event <$> prev) :: ((λ g, push_sync_proxies g.1 g.2.*1) <$> group_rows (λ kz, z_namespace kz.2) prev), length prev, true)
  else (t, [], 0%nat, false).
Definition expireProxies (t : gmap string ProxyRec) : gmap string ProxyRec * list Push * bool :=
  batches maxExpiryBatches 0 proxy_batch t.

(** [RunExpiry] after the re-synchronisation of earlier failed pushes: nothing is
    released while Redis does not answer; a part that fails does not stop the next. *)
Definition RunExpiry (ping : bool) (db : Rows) : Rows * list Push * bool :=
  if negb ping then (db, [], false)
  else
    let '(accounts, p1, ok1) := expireAccountBans (r_accounts db) in
    let '(t, p2, ok2) := expireIdentityBans accounts (r_identities db) in
    let '(t, p3, ok3) := expireQuarantines t in
    let '(proxies, p4, ok4) := expireProxies (r_proxies db) in
    ({| r_identities := t; r_accounts := accounts; r_proxies := proxies |}, p1 ++ p2 ++ p3 ++ p4, ok1 && ok2 && ok3 && ok4).
End pass.

(** ** What a pass makes of the rows *)

Lemma update_rows_lookup {A} ids (f : A → A) t id :
  update_rows ids f t !! id = (λ x, if bool_decide (id ∈ ids) then f x else x) <$> t !! id.
Proof. unfold update_rows. rewrite map_lookup_imap. by destruct (t !! id). Qed.

Lemma due_rows_elem {A} m (until : A → option Z) max t id x : (id, x) ∈ due_rows m until max t → t !! id = Some x ∧ m id x = true.
Proof.
  intros H. assert ((id, x) ∈ SortFunc (by_end until) (filter (λ kv, m kv.1 kv.2) (map_to_list t))) as H'.
  { apply list_elem_of_lookup in H as [j H]. apply lookup_take_Some in H as [H _]. by eapply list_elem_of_lookup_2. }
  rewrite (SortFunc_perm (by_end until)), list_elem_of_filter, elem_of_map_to_list in H'. cbn in H'. destruct H' as [H1 H2]. split; [done|]. by apply Is_true_true.
Qed.

(** The keys of the rows that match. *)
Definition matching {A} (m : string → A → bool) (t : gmap string A) : gset string := dom (filter (λ kv, m kv.1 kv.2 = true) t).
Lemma elem_of_matching {A} m (t : gmap string A) id : id ∈ matching m t ↔ ∃ x, t !! id = Some x ∧ m id x = true.
Proof. unfold matching. rewrite elem_of_dom. unfold is_Some. setoid_rewrite map_lookup_filter_Some. done. Qed.

Lemma due_rows_ids {A} m (until : A → option Z) max t :
  NoDup (due_rows m until max t).*1 ∧ length (due_rows m until max t) = (max `min` size (matching m t))%nat.
Proof.
  assert (SortFunc (by_end until) (filter (λ kv, m kv.1 kv.2) (map_to_list t)) ≡ₚ map_to_list (filter (λ kv, m kv.1 kv.2 = true) t)) as Hp.
  { rewrite (SortFunc_perm (by_end until)). apply NoDup_Permutation; [apply NoDup_filter, NoDup_map_to_list|apply NoDup_map_to_list|].
    intros [id x]. rewrite list_elem_of_filter, !elem_of_map_to_list, map_lookup_filter_Some. cbn. rewrite Is_true_true. tauto. }
  unfold due_rows. split.
  - rewrite fmap_take. assert (NoDup (SortFunc (by_end until) (filter (λ kv, m kv.1 kv.2) (map_to_list t))).*1) as Hn
      by (rewrite Hp; apply NoDup_fst_map_to_list).
    rewrite <- (take_drop max) in Hn. by apply NoDup_app in Hn as [? _].
  - rewrite length_take, Hp. f_equal. unfold matching. by rewrite size_dom, length_map_to_list.
Qed.

(** Releasing the rows of a batch takes them out of those that match. *)
Lemma batch_matching {A} m (until : A → option Z) max (f : string → A → A) t t' :
  let ids := (due_rows m until max t).*1 in
  (∀ id, t' !! id = (λ x, if bool_decide (id ∈ ids) then f id x else x) <$> t !! id) →
  (∀ id x, m id x = true → m id (f id x) = false) →
  (size (matching m t') + length (due_rows m until max t) = size (matching m t))%nat.
Proof.
  intros ids Ht' Hf. destruct (due_rows_ids m until max t) as [Hn _]. fold ids in Hn.
  assert (matching m t' = matching m t ∖ list_to_set ids) as E.
  { apply set_eq. intros id. rewrite elem_of_difference, !elem_of_matching, elem_of_list_to_set. rewrite Ht'. split.
    - intros (x & Hx & Hm). apply fmap_Some in Hx as (x0 & Hx0 & ->). case_bool_decide as Hin.
      + exfalso. apply list_elem_of_fmap in Hin as ([id' x1] & [= ->] & Hin). apply due_rows_elem in Hin as [H1 H2]. cbn in *. simplify_eq.
        by rewrite Hf in Hm.
      + split; [eauto|done].
    - intros [(x & Hx & Hm) Hni]. exists x. rewrite Hx. cbn. by rewrite bool_decide_eq_false_2. }
  assert (list_to_set ids ⊆ matching m t) as Hsub.
  { intros id. rewrite elem_of_list_to_set, elem_of_matching. intros ([id' x] & [= ->] & H)%list_elem_of_fmap. apply due_rows_elem in H. eauto. }
  rewrite E, size_difference by done. rewrite size_list_to_set by done. unfold ids at 1. rewrite length_fmap.
  apply subseteq_size in Hsub. rewrite size_list_to_set in Hsub by done. unfold ids in Hsub. rewrite length_fmap in Hsub. lia.
Qed.

(** *** Batches *)

Lemma batches_rel {T} (R : T → T → list Push → Prop) batch fuel n t :
  (∀ t, R t t []) → (∀ t1 t2 t3 p q, R t1 t2 p → R t2 t3 q → R t1 t3 (p ++ q)) →
  (∀ n t, R t (batch n t).1.1.1 (batch n t).1.1.2) → R t (batches fuel n batch t).1.1 (batches fuel n batch t).1.2.
Proof.
  intros Hr Ht Hb. revert n t. induction fuel as [|fuel IH]; intros n t; cbn [batches]; [apply Hr|].
  specialize (Hb n t). destruct (batch n t) as [[[t1 p] count] ok]. cbn in Hb. destruct (negb ok); [done|]. destruct (_ <? _)%nat; [done|].
  specialize (IH (S n) t1). destruct (batches fuel (S n) batch t1) as [[t2 q] ok2]. by eapply Ht.
Qed.

Lemma batches_all {T} (μ : T → nat) batch fuel n t :
  (∀ n t, (batch n t).2 = true ∧ (batch n t).1.2 = expiryBatch `min` μ t ∧ μ (batch n t).1.1.1 + (batch n t).1.2 = μ t)%nat →
  (μ t ≤ fuel * expiryBatch)%nat → μ (batches fuel n batch t).1.1 = 0%nat ∧ (batches fuel n batch t).2 = true.
Proof.
  intros Hb. revert n t. induction fuel as [|fuel IH]; intros n t Hle; cbn [batches]; [cbn; split; [lia|done]|].
  destruct (Hb n t) as (H1 & H2 & H3). destruct (batch n t) as [[[t1 p] count] ok]. cbn [fst snd] in *. subst ok. cbn [negb].
  destruct (Nat.ltb_spec count expiryBatch); [cbn; split; [lia|done]|].
  destruct (IH (S n) t1) as [I1 I2]; [lia|]. by destruct (batches fuel (S n) batch t1) as [[t2 q] ok2].
Qed.

(** *** Groups *)

Section groups.
Context {K A : Type} `{EqDecision K}.

Lemma put_row_elem (k : K) (a : A) groups k' l :
  (k', l) ∈ put_row k a groups → ∀ b, b ∈ l → (k' = k ∧ b = a) ∨ ∃ l0, (k', l0) ∈ groups ∧ b ∈ l0.
Proof.
  induction groups as [|[k1 l1] groups IH]; cbn [put_row].
  - intros [[= -> ->]|?%elem_of_nil]%elem_of_cons; [|done]. intros b ?%list_elem_of_singleton. by left.
  - case_bool_decide as Hk; intros [H|H]%elem_of_cons b Hb.
    + injection H as -> ->. apply elem_of_app in Hb as [Hb|?%list_elem_of_singleton]; [right; exists l1; split; [left|done]|by left].
    + right. exists l. split; [by right|done].
    + injection H as -> ->. right. exists l1. split; [left|done].
    + destruct (IH H b Hb) as [?|(l0 & ? & ?)]; [by left|]. right. exists l0. split; [by right|done].
Qed.
Lemma put_row_new (k : K) (a : A) groups : ∃ l, (k, l) ∈ put_row k a groups ∧ a ∈ l.
Proof.
  induction groups as [|[k1 l1] groups (l & ? & ?)]; cbn [put_row]; [exists [a]; split; left|]. case_bool_decide as Hk.
  - subst. exists (l1 ++ [a]). split; [left|]. set_solver.
  - exists l. split; [by right|done].
Qed.
Lemma put_row_old (k : K) (a : A) groups k' l b : (k', l) ∈ groups → b ∈ l → ∃ l', (k', l') ∈ put_row k a groups ∧ b ∈ l'.
Proof.
  induction groups as [|[k1 l1] groups IH]; [by intros ?%elem_of_nil|]. cbn [put_row]. intros [[= -> ->]|H]%elem_of_cons Hb.
  - case_bool_decide; [exists (l1 ++ [a])|exists l1]; (split; [left|set_solver]).
  - case_bool_decide; [exists l; split; [by right|done]|]. destruct (IH H Hb) as (l' & ? & ?). exists l'. split; [by right|done].
Qed.
End groups.

Lemma targets_spec cat due :
  (∀ k ids id, (k, ids) ∈ targets cat due → id ∈ ids → ∃ x, (id, x) ∈ due ∧ release_target cat x = k) ∧
  (∀ id x, (id, x) ∈ due → ∃ ids, (release_target cat x, ids) ∈ targets cat due ∧ id ∈ ids).
Proof.
  unfold targets. induction due as [|[id0 x0] due [IH1 IH2]] using rev_ind.
  { split; [by intros ? ? ? ?%elem_of_nil|by intros ? ? ?%elem_of_nil]. }
  rewrite foldl_app. cbn [foldl fst snd]. split.
  - intros k ids id Hin Hid. destruct (put_row_elem _ _ _ _ _ Hin id Hid) as [[-> ->]|(ids0 & H & Hj)]; [exists x0; set_solver|].
    destruct (IH1 _ _ _ H Hj) as (x & ? & ?). exists x. set_solver.
  - intros id x [H|[= -> ->]%list_elem_of_singleton]%elem_of_app; [|apply put_row_new]. destruct (IH2 _ _ H) as (ids & ? & ?). by eapply put_row_old.
Qed.

Lemma group_rows_elem {A} (key : A → string) rows a : a ∈ rows → ∃ l, (key a, l) ∈ group_rows key rows ∧ a ∈ l.
Proof.
  unfold group_rows. induction rows as [|b rows IH] using rev_ind; [by intros ?%elem_of_nil|]. rewrite foldl_app. cbn [foldl].
  intros [H|H%list_elem_of_singleton]%elem_of_app; [|subst; apply put_row_new]. destruct (IH H) as (l & ? & ?). by eapply put_row_old.
Qed.

(** *** Identities *)

Section identities.
Variables (cat : Catalog) (tenancy : string → string * string) (fa : Faults) (now : Z) (accounts : gmap string AccountRec).

(** A ban or quarantine that a pass at [now] ends. *)
Definition identity_due (x : IdentityRec) : bool :=
  ban_due (pg_time now) x && negb (account_holds (pg_time now) accounts x) || quarantine_due (pg_time now) x.
(** The state that the identity enters, and its row. *)
Definition release_to (x : IdentityRec) : string :=
  if String.eqb (ir_state (x_row x)) StateBanned then banExpiryState cat (x_site x) (x_client x) else StatePending.
Definition released_row (x : IdentityRec) : IdentityRec :=
  released_identity (release_to x) (if String.eqb (ir_state (x_row x)) StateBanned then ReasonBanExpired else ReasonQuarantineEnded) (pg_time now) x.

(** The release is pushed to the hot state of the site. *)
Definition pushed (pushes : list Push) (id : string) (x : IdentityRec) : Prop :=
  ∃ changed, push_identities (x_site x) (release_to x) changed ∈ pushes ∧ changed_to (release_to x) (id, x) ∈ changed.
Definition passed (t t' : gmap string IdentityRec) (pushes : list Push) : Prop :=
  ∀ id, t' !! id = t !! id ∨
    ∃ x, t !! id = Some x ∧ identity_due x = true ∧ t' !! id = Some (released_row x) ∧ pushed pushes id x.

Lemma banExpiryState_cases s c : banExpiryState cat s c = StateActive ∨ banExpiryState cat s c = StatePending.
Proof. unfold banExpiryState. repeat case_match; auto. Qed.
Lemma release_to_cases x : release_to x = StateActive ∨ release_to x = StatePending.
Proof. unfold release_to. destruct (String.eqb _ _); [apply banExpiryState_cases|by right]. Qed.

(** What has been released is not due. *)
Lemma released_not_due to reason n' x : to = StateActive ∨ to = StatePending →
  ban_due n' (released_identity to reason n' x) = false ∧ quarantine_due n' (released_identity to reason n' x) = false.
Proof. unfold ban_due, quarantine_due, released_identity. cbn. by intros [-> | ->]. Qed.
Lemma released_row_not_due x : identity_due (released_row x) = false.
Proof.
  unfold identity_due, released_row.
  destruct (released_not_due (release_to x) (if String.eqb (ir_state (x_row x)) StateBanned then ReasonBanExpired else ReasonQuarantineEnded) (pg_time now) x
    (release_to_cases x)) as [-> ->]. done.
Qed.

Lemma ban_due_state x : ban_due (pg_time now) x = true → ir_state (x_row x) = StateBanned.
Proof. unfold ban_due. rewrite andb_true_iff, String.eqb_eq. tauto. Qed.
Lemma quarantine_due_state x : quarantine_due (pg_time now) x = true → ir_state (x_row x) = StateQuarantined.
Proof. unfold quarantine_due. rewrite andb_true_iff, String.eqb_eq. tauto. Qed.

Lemma passed_refl t : passed t t [].
Proof. intros id. by left. Qed.
Lemma pushed_app p q id x : pushed p id x ∨ pushed q id x → pushed (p ++ q) id x.
Proof. intros [(c & ? & ?)|(c & ? & ?)]; exists c; (split; [apply elem_of_app|]); auto. Qed.
Lemma passed_trans t1 t2 t3 p q : passed t1 t2 p → passed t2 t3 q → passed t1 t3 (p ++ q).
Proof.
  intros H1 H2 id. destruct (H2 id) as [E2|(x & Hx & Hd & E2 & P2)].
  - rewrite E2. destruct (H1 id) as [E1|(x & Hx & Hd & E1 & P1)]; [by left|]. right. exists x. split_and!; [done..|]. apply pushed_app. by left.
  - destruct (H1 id) as [E1|(x0 & Hx0 & Hd0 & E1 & P1)].
    + right. exists x. rewrite <- E1. split_and!; [done..|]. apply pushed_app. by right.
    + exfalso. rewrite E1 in Hx. injection Hx as <-. by rewrite released_row_not_due in Hd.
Qed.

(** The rows of a group are all of its target. *)
Definition group_ok (t : gmap string IdentityRec) (k : string * string) (ids : list string) : Prop :=
  ∀ id x, id ∈ ids → t !! id = Some x → ban_due (pg_time now) x = true → account_holds (pg_time now) accounts x = false ∧ release_target cat x = k.

Lemma group_ok_passed t t' p k ids : passed t t' p → group_ok t k ids → group_ok t' k ids.
Proof.
  intros Hp Hg id x Hid Hx Hd. destruct (Hp id) as [E|(x0 & Hx0 & _ & E & _)]; [rewrite E in Hx; by eapply Hg|].
  rewrite E in Hx. injection Hx as <-. unfold released_row in Hd. destruct (released_not_due (release_to x0)
    (if String.eqb (ir_state (x_row x0)) StateBanned then ReasonBanExpired else ReasonQuarantineEnded) (pg_time now) x0 (release_to_cases x0)) as [E' _].
  by rewrite E' in Hd.
Qed.

Lemma ban_released x k : ban_due (pg_time now) x = true → release_target cat x = k →
  released_row x = released_identity k.2 ReasonBanExpired (pg_time now) x ∧ release_to x = k.2 ∧ x_site x = k.1.
Proof. intros Hd%ban_due_state <-. unfold released_row, release_to. by rewrite Hd. Qed.

Lemma releaseBans_passed n k ids t t' p :
  group_ok t k ids → releaseBans tenancy fa now n k ids t = Some (t', p) → passed t t' p.
Proof.
  intros Hg. unfold releaseBans. destruct (fa_commits _ _ _); [|done]. cbn [ActionReleaseDueBans]. set (prev := filter _ _). intros [= <- <-] id.
  rewrite update_rows_lookup. case_bool_decide as Hin; [|left; by destruct (t !! id)].
  apply list_elem_of_fmap in Hin as ([id' x] & [= ->] & Hin). pose proof Hin as Hp. unfold prev in Hin.
  rewrite list_elem_of_filter, elem_of_map_to_list in Hin. cbn [fst snd] in Hin. destruct Hin as [Hm Hx].
  apply Is_true_true, andb_true_iff in Hm as [[Hi%bool_decide_eq_true Hd]%andb_true_iff _]. destruct (Hg id' x Hi Hx Hd) as [Ha Ht].
  destruct (ban_released x k Hd Ht) as (Er & Et & Es). right. exists x. split_and!; [done| |by rewrite Hx, Er|].
  - unfold identity_due. by rewrite Hd, Ha.
  - exists (changed_to k.2 <$> prev). rewrite Et, Es. split; [by right; left|]. apply list_elem_of_fmap. by exists (id', x).
Qed.

Lemma release_targets_passed n groups t :
  (∀ k ids, (k, ids) ∈ groups → group_ok t k ids) →
  passed t (release_targets tenancy fa now n groups t).1.1 (release_targets tenancy fa now n groups t).1.2.
Proof.
  revert t. induction groups as [|[k ids] groups IH]; intros t Hg; cbn [release_targets]; [apply passed_refl|].
  destruct (releaseBans _ _ _ _ _ _ _) as [[t1 p]|] eqn:E; [|apply passed_refl]. apply releaseBans_passed in E; [|apply Hg; left].
  specialize (IH t1). destruct (release_targets _ _ _ _ groups t1) as [[t2 q] ok]. cbn [fst snd] in *. eapply passed_trans; [exact E|].
  apply IH. intros k' ids' Hin. eapply group_ok_passed; [exact E|]. apply Hg. by right.
Qed.

Definition ban_match (_ : string) (x : IdentityRec) : bool := ban_due (pg_time now) x && negb (account_holds (pg_time now) accounts x).
Definition ban_rows (t : gmap string IdentityRec) : list (string * IdentityRec) :=
  due_rows ban_match (λ x, ir_ban (x_row x)) expiryBatch t.

Lemma ban_rows_ok t k ids : (k, ids) ∈ targets cat (ban_rows t) → group_ok t k ids.
Proof.
  intros Hin id x Hid Hx _. destruct (proj1 (targets_spec cat (ban_rows t)) k ids id Hin Hid) as (x' & Hx' & Ht).
  apply due_rows_elem in Hx' as [E Hm]. rewrite Hx in E. injection E as <-. split; [|done].
  apply andb_true_iff in Hm as [_ Hm]. by apply negb_true_iff.
Qed.

Lemma ban_batch_passed n t :
  passed t (ban_batch cat tenancy fa now accounts n t).1.1.1 (ban_batch cat tenancy fa now accounts n t).1.1.2.
Proof.
  unfold ban_batch. destruct (fa_reads _ _); [|apply passed_refl]. cbv zeta. change (ActionDueIdentityBans _ _ _) with (ban_rows t).
  pose proof (release_targets_passed n (targets cat (ban_rows t)) t (λ k ids, ban_rows_ok t k ids)) as H.
  by destruct (release_targets _ _ _ _ _ t) as [[t1 p] ok].
Qed.

Lemma quarantine_batch_passed n t :
  passed t (quarantine_batch tenancy fa now n t).1.1.1 (quarantine_batch tenancy fa now n t).1.1.2.
Proof.
  unfold quarantine_batch. destruct (fa_commits _ _ _); [|apply passed_refl]. cbn [ActionReleaseDueQuarantines]. set (prev := due_rows _ _ _ _). cbn [fst snd].
  intros id. rewrite update_rows_lookup. case_bool_decide as Hin; [|left; by destruct (t !! id)].
  apply list_elem_of_fmap in Hin as ([id' x] & [= ->] & Hin). pose proof Hin as Hp. apply due_rows_elem in Hin as [Hx [Hd _]%andb_true_iff].
  assert (release_to x = StatePending ∧ released_row x = released_identity StatePending ReasonQuarantineEnded (pg_time now) x) as [Et Er].
  { unfold released_row, release_to. by rewrite (quarantine_due_state _ Hd). }
  right. exists x. split_and!; [done|unfold identity_due; rewrite Hd; apply orb_true_r|by rewrite Hx, Er|].
  destruct (group_rows_elem (λ kx : string * IdentityRec, x_site kx.2) prev (id', x) Hp) as (l & Hl & Hin').
  exists (changed_to StatePending <$> l). rewrite Et. split; [right; apply list_elem_of_fmap; by exists (x_site x, l)|].
  apply list_elem_of_fmap. by exists (id', x).
Qed.

(** *** Complete passes *)

(** No query fails and no row is held by another transaction. *)
Definition faultless : Prop :=
  (∀ n, fa_reads fa n = true) ∧ (∀ n k, fa_commits fa n k = true) ∧ ∀ n id, fa_locked fa n id = false.
Hypothesis Hfa : faultless.

Definition in_groups (groups : list (string * string * list string)) (id : string) : Prop := ∃ k ids, (k, ids) ∈ groups ∧ id ∈ ids.

Lemma releaseBans_all n k ids t :
  group_ok t k ids → ∃ t' p, releaseBans tenancy fa now n k ids t = Some (t', p) ∧
    ∀ id x, t !! id = Some x → t' !! id = Some (if bool_decide (id ∈ ids) && ban_due (pg_time now) x then released_row x else x).
Proof.
  intros Hg. unfold releaseBans. destruct Hfa as (_ & -> & Hl). cbn [ActionReleaseDueBans]. set (prev := filter _ _). do 2 eexists. split; [done|].
  intros id x Hx. rewrite update_rows_lookup, Hx. cbn [fmap option_fmap option_map]. f_equal.
  assert (id ∈ prev.*1 ↔ id ∈ ids ∧ ban_due (pg_time now) x = true) as Hin.
  { unfold prev. rewrite list_elem_of_fmap. setoid_rewrite list_elem_of_filter. setoid_rewrite elem_of_map_to_list'. split.
    - intros ([id' x'] & [= ->] & Hm & Hx'). cbn [fst snd] in *. simplify_eq. rewrite Hl, andb_true_r in Hm.
      apply Is_true_true, andb_true_iff in Hm as [?%bool_decide_eq_true ?]. done.
    - intros [H1 H2]. exists (id, x). cbn [fst snd]. split; [done|]. split; [|done]. by rewrite Hl, H2, bool_decide_eq_true_2. }
  case_bool_decide as H1.
  - apply Hin in H1 as [H1 H2]. rewrite bool_decide_eq_true_2, H2 by done. destruct (Hg id x H1 Hx H2) as [_ Ht]. by destruct (ban_released x k H2 Ht) as [-> _].
  - case_bool_decide as H2; [|done]. destruct (ban_due (pg_time now) x) eqn:H3; [|done]. destruct H1. by apply Hin.
Qed.

Lemma release_targets_all n groups t :
  (∀ k ids, (k, ids) ∈ groups → group_ok t k ids) →
  (release_targets tenancy fa now n groups t).2 = true ∧
  ∀ id x, t !! id = Some x → ban_due (pg_time now) x = true → in_groups groups id →
    (release_targets tenancy fa now n groups t).1.1 !! id = Some (released_row x).
Proof.
  revert t. induction groups as [|[k ids] groups IH]; intros t Hg; cbn [release_targets].
  { split; [done|]. by intros id x _ _ (? & ? & ?%elem_of_nil & _). }
  destruct (releaseBans_all n k ids t) as (t1 & p & E & H1); [apply Hg; left|]. rewrite E.
  pose proof (releaseBans_passed n k ids t t1 p (Hg _ _ (list_elem_of_here _ _)) E) as Hp.
  assert (∀ k' ids', (k', ids') ∈ groups → group_ok t1 k' ids') as Hg1
    by (intros k' ids' Hin; eapply group_ok_passed; [exact Hp|]; apply Hg; by right).
  destruct (IH t1 Hg1) as [Hok H2]. pose proof (release_targets_passed n groups t1 Hg1) as Hp2.
  destruct (release_targets _ _ _ _ groups t1) as [[t2 q] ok]. cbn [fst snd] in *. split; [done|].
  intros id x Hx Hd Hin. specialize (H1 id x Hx). rewrite Hd, andb_true_r in H1. case_bool_decide as Hi.
  - destruct (Hp2 id) as [-> |(x1 & Hx1 & Hd1 & _)]; [done|]. rewrite H1 in Hx1. injection Hx1 as <-. by rewrite released_row_not_due in Hd1.
  - apply H2; [done..|]. destruct Hin as (k' & ids' & [[= -> ->]|Hin]%elem_of_cons & Hid); [done|]. by exists k', ids'.
Qed.

Lemma release_targets_other n groups t id :
  ¬ in_groups groups id → (release_targets tenancy fa now n groups t).1.1 !! id = t !! id.
Proof.
  revert t. induction groups as [|[k ids] groups IH]; intros t Hni; cbn [release_targets]; [done|].
  destruct (releaseBans _ _ _ _ _ _ _) as [[t1 p]|] eqn:E; [|done]. assert (t1 !! id = t !! id) as E1.
  { unfold releaseBans in E. destruct (fa_commits _ _ _); [|done]. cbn [ActionReleaseDueBans] in E. injection E as <- _. rewrite update_rows_lookup.
    rewrite bool_decide_eq_false_2; [by destruct (t !! id)|]. intros ([id' x] & [= ->] & [Hm _]%list_elem_of_filter)%list_elem_of_fmap.
    cbn [fst snd] in *. apply Is_true_true, andb_true_iff in Hm as [[Hi%bool_decide_eq_true _]%andb_true_iff _]. apply Hni. exists k, ids. split; [left|done]. }
  rewrite <- E1, <- (IH t1); [by destruct (release_targets _ _ _ _ groups t1) as [[t2 q] ok]|].
  intros (k' & ids' & Hin & Hid). apply Hni. exists k', ids'. split; [by right|done].
Qed.

Lemma ban_batch_all n t :
  let b := ban_batch cat tenancy fa now accounts n t in let μ := λ t, size (matching ban_match t) in
  (b.2 = true ∧ b.1.2 = expiryBatch `min` μ t ∧ μ b.1.1.1 + b.1.2 = μ t)%nat.
Proof.
  cbv zeta. unfold ban_batch. destruct Hfa as (-> & _ & _). change (ActionDueIdentityBans _ _ _) with (ban_rows t).
  destruct (release_targets_all n (targets cat (ban_rows t)) t (λ k ids, ban_rows_ok t k ids)) as [Hok Hall].
  pose proof (release_targets_other n (targets cat (ban_rows t)) t) as Hother.
  destruct (release_targets _ _ _ _ _ t) as [[t1 p] ok]. cbn [fst snd] in *. split_and!; [done|apply due_rows_ids|].
  destruct (targets_spec cat (ban_rows t)) as [T1 T2].
  apply (batch_matching ban_match (λ x, ir_ban (x_row x)) expiryBatch (λ _, released_row) t t1).
  - intros id. destruct (decide (id ∈ (ban_rows t).*1)) as [Hin|Hni].
    + pose proof Hin as Hin'. apply list_elem_of_fmap in Hin' as ([id' x] & [= <-] & Hx). cbn [fst]. rewrite bool_decide_eq_true_2 by done.
      destruct (T2 _ _ Hx) as (ids & ? & ?). apply due_rows_elem in Hx as [Hx Hm]. rewrite Hx. cbn. apply Hall; [done|by apply andb_true_iff in Hm as [? _]|].
      by exists (release_target cat x), ids.
    + rewrite bool_decide_eq_false_2 by done. rewrite Hother; [by destruct (t !! id)|]. intros (k & ids & Hg & Hid).
      destruct (T1 _ _ _ Hg Hid) as (x & Hx & _). apply Hni, list_elem_of_fmap. by exists (id, x).
  - intros ? x _. pose proof (released_row_not_due x) as H. unfold identity_due in H. by apply orb_false_iff in H as [? _].
Qed.

Lemma quarantine_batch_all n t :
  let b := quarantine_batch tenancy fa now n t in let μ := λ t, size (matching (λ _, quarantine_due (pg_time now)) t) in
  (b.2 = true ∧ b.1.2 = expiryBatch `min` μ t ∧ μ b.1.1.1 + b.1.2 = μ t)%nat.
Proof.
  cbv zeta. unfold quarantine_batch. destruct Hfa as (_ & -> & Hl). cbn [ActionReleaseDueQuarantines fst snd].
  assert (∀ max, due_rows (λ id x, quarantine_due (pg_time now) x && negb (fa_locked fa n id)) (λ x, ir_quarantine (x_row x)) max t =
    due_rows (λ _ x, quarantine_due (pg_time now) x) (λ x, ir_quarantine (x_row x)) max t) as E.
  { intros max. unfold due_rows. do 2 f_equal. apply list_filter_iff. intros kv. by rewrite Hl, andb_true_r. }
  rewrite E. split_and!; [done|apply due_rows_ids|].
  apply (batch_matching _ _ expiryBatch (λ _, released_identity StatePending ReasonQuarantineEnded (pg_time now))).
  - intros id. apply update_rows_lookup.
  - intros ? x _. by apply released_not_due; right.
Qed.
End identities.

(** Releasing the bans of accounts that ended does not change which accounts hold their
    identities. *)
Lemma accounts_holds cat tenancy fa now t x :
  account_holds (pg_time now) (expireAccountBans cat tenancy fa now t).1.1 x = account_holds (pg_time now) t x.
Proof.
  revert x. apply (batches_rel (λ t t' _, ∀ x, account_holds (pg_time now) t' x = account_holds (pg_time now) t x)); [done|by intros ? ? ? ? ? H1 H2 x; rewrite H2|].
  intros n t0 x. unfold account_batch. destruct (fa_commits _ _ _); [|done]. cbn [ActionReleaseDueAccountBans fst]. set (prev := due_rows _ _ _ _).
  unfold account_holds. destruct (x_account x) as [a|]; [|done]. cbn [mbind option_bind]. rewrite update_rows_lookup.
  case_bool_decide as Hin; [|by destruct (t0 !! a)]. apply list_elem_of_fmap in Hin as ([a' y] & [= ->] & Hin).
  apply due_rows_elem in Hin as [-> [Hd _]%andb_true_iff]. cbn. unfold account_due in Hd. apply andb_true_iff in Hd as [-> Hd]. cbn.
  destruct (ac_ban (y_row y)) as [u|]; [|done]. cbn in *. lia.
Qed.

Lemma matching_empty {A} m (t : gmap string A) id x : size (matching m t) = 0%nat → t !! id = Some x → m id x = false.
Proof.
  intros Hs%size_empty_inv Hx. destruct (m id x) eqn:E; [|done]. assert (id ∈ matching m t) as H by (apply elem_of_matching; eauto). set_solver.
Qed.

(** The identities that are due for the release of a ban or a quarantine. *)
Definition due_bans (now : Z) (db : Rows) : gset string :=
  matching (λ _ x, ban_due (pg_time now) x && negb (account_holds (pg_time now) (r_accounts db) x)) (r_identities db).
Definition due_quarantines (now : Z) (db : Rows) : gset string := matching (λ _, quarantine_due (pg_time now)) (r_identities db).

Section run.
Variables (cat : Catalog) (tenancy : string → string * string) (fa : Faults) (now : Z) (db : Rows).

Lemma identity_due_accounts accounts x :
  (∀ x, account_holds (pg_time now) accounts x = account_holds (pg_time now) (r_accounts db) x) → identity_due now accounts x = identity_due now (r_accounts db) x.
Proof. intros H. unfold identity_due. by rewrite H. Qed.

Lemma RunExpiry_passed :
  passed cat now (r_accounts db) (r_identities db) (r_identities (RunExpiry cat tenancy fa now true db).1.1) (RunExpiry cat tenancy fa now true db).1.2.
Proof.
  unfold RunExpiry. cbn [negb]. pose proof (accounts_holds cat tenancy fa now (r_accounts db)) as Ha.
  destruct (expireAccountBans _ _ _ _ _) as [[accounts p1] ok1]. cbn [fst] in Ha.
  pose proof (batches_rel (passed cat now accounts) (ban_batch cat tenancy fa now accounts) maxExpiryBatches 0 (r_identities db)
    (passed_refl cat now accounts) (passed_trans cat now accounts) (ban_batch_passed cat tenancy fa now accounts)) as H1.
  fold (expireIdentityBans cat tenancy fa now accounts (r_identities db)) in H1. destruct (expireIdentityBans _ _ _ _ _ _) as [[t1 p2] ok2]. cbn [fst snd] in H1.
  pose proof (batches_rel (passed cat now accounts) (quarantine_batch tenancy fa now) maxExpiryBatches 0 t1
    (passed_refl cat now accounts) (passed_trans cat now accounts) (quarantine_batch_passed cat tenancy fa now accounts)) as H2.
  fold (expireQuarantines tenancy fa now t1) in H2. destruct (expireQuarantines _ _ _ t1) as [[t2 p3] ok3]. cbn [fst snd] in H2.
  destruct (expireProxies _ _ _ _) as [[proxies p4] ok4]. cbn [fst snd r_identities].
  intros id. destruct (passed_trans _ _ _ _ _ _ _ _ H1 H2 id) as [->|(x & Hx & Hd & E & Hp)]; [by left|]. right. exists x.
  split_and!; [done|by rewrite <- (identity_due_accounts accounts)|done|]. apply pushed_app. right. rewrite (assoc_L (++)). apply pushed_app. by left.
Qed.

Lemma quarantine_keeps_bans accounts t t' p : passed cat now accounts t t' p → ∀ id x', t' !! id = Some x' → identity_due now accounts x' = true → t !! id = Some x'.
Proof.
  intros Hp id x' Hx' Hd. destruct (Hp id) as [E|(x & _ & _ & E & _)]; [congruence|]. rewrite E in Hx'. injection Hx' as <-.
  by rewrite released_row_not_due in Hd.
Qed.

Lemma RunExpiry_none_left id x :
  faultless fa → (size (due_bans now db) ≤ maxExpiryBatches * expiryBatch)%nat → (size (due_quarantines now db) ≤ maxExpiryBatches * expiryBatch)%nat →
  r_identities (RunExpiry cat tenancy fa now true db).1.1 !! id = Some x → identity_due now (r_accounts db) x = false.
Proof.
  intros Hf Hb Hq. unfold RunExpiry. cbn [negb]. pose proof (accounts_holds cat tenancy fa now (r_accounts db)) as Ha.
  destruct (expireAccountBans _ _ _ _ _) as [[accounts p1] ok1]. cbn [fst] in Ha.
  assert (∀ t, matching (ban_match now accounts) t = matching (λ _ x, ban_due (pg_time now) x && negb (account_holds (pg_time now) (r_accounts db) x)) t) as Em.
  { intros t. apply set_eq. intros i. rewrite !elem_of_matching. unfold ban_match. by setoid_rewrite Ha. }
  unfold due_quarantines in Hq. unfold due_bans in Hb. rewrite <- Em in Hb. clear Em.
  destruct (batches_all (λ t, size (matching (ban_match now accounts) t)) (ban_batch cat tenancy fa now accounts) maxExpiryBatches 0 (r_identities db)
    (ban_batch_all cat tenancy fa now accounts Hf) Hb) as [B1 _].
  pose proof (batches_rel (passed cat now accounts) (ban_batch cat tenancy fa now accounts) maxExpiryBatches 0 (r_identities db)
    (passed_refl cat now accounts) (passed_trans cat now accounts) (ban_batch_passed cat tenancy fa now accounts)) as H1.
  fold (expireIdentityBans cat tenancy fa now accounts (r_identities db)) in B1, H1. destruct (expireIdentityBans _ _ _ _ _ _) as [[t1 p2] ok2]. cbn [fst snd] in B1, H1.
  assert (size (matching (λ _, quarantine_due (pg_time now)) t1) ≤ maxExpiryBatches * expiryBatch)%nat as Hq1.
  { etrans; [|exact Hq]. apply subseteq_size. intros i. rewrite !elem_of_matching. intros (y & Hy & Hd). exists y. split; [|done].
    eapply (quarantine_keeps_bans _ _ _ _ H1); [done|]. unfold identity_due. rewrite Hd. apply orb_true_r. }
  destruct (batches_all (λ t, size (matching (λ _, quarantine_due (pg_time now)) t)) (quarantine_batch tenancy fa now) maxExpiryBatches 0 t1
    (quarantine_batch_all tenancy fa now Hf) Hq1) as [Q1 _].
  pose proof (batches_rel (passed cat now accounts) (quarantine_batch tenancy fa now) maxExpiryBatches 0 t1
    (passed_refl cat now accounts) (passed_trans cat now accounts) (quarantine_batch_passed cat tenancy fa now accounts)) as H2.
  fold (expireQuarantines tenancy fa now t1) in Q1, H2. destruct (expireQuarantines _ _ _ t1) as [[t2 p3] ok3]. cbn [fst snd] in Q1, H2.
  destruct (expireProxies _ _ _ _) as [[proxies p4] ok4]. cbn [fst snd r_identities]. intros Hx.
  destruct (identity_due now (r_accounts db) x) eqn:Hd; [|done]. rewrite <- (identity_due_accounts accounts) in Hd by done.
  pose proof (quarantine_keeps_bans _ _ _ _ H2 id x Hx Hd) as Hx1. unfold identity_due in Hd.
  pose proof (matching_empty _ _ _ _ B1 Hx1) as E1. pose proof (matching_empty _ _ _ _ Q1 Hx) as E2. unfold ban_match in E1. cbn in E2. by rewrite E1, E2 in Hd.
Qed.
End run.

(** *** Pushes *)

(** The released rows that pushes carry: every one was due. *)
Definition row_due (now : Z) (x : IdentityRec) : bool := ban_due (pg_time now) x || quarantine_due (pg_time now) x.
Definition change_ok (now : Z) (t : gmap string IdentityRec) (to : string) (c : changedIdentity) : Prop :=
  ∃ id x, t !! id = Some x ∧ row_due now x = true ∧ c = changed_to to (id, x).
Definition sound (now : Z) (t t' : gmap string IdentityRec) (pushes : list Push) : Prop :=
  (∀ id x, t' !! id = Some x → row_due now x = true → t !! id = Some x) ∧
  ∀ site to changed c, push_identities site to changed ∈ pushes → c ∈ changed → change_ok now t to c.

Section sound.
Variables (cat : Catalog) (tenancy : string → string * string) (fa : Faults) (now : Z).

Lemma sound_refl t : sound now t t [].
Proof. split; [done|]. by intros ? ? ? ? ?%elem_of_nil. Qed.
Lemma sound_trans t1 t2 t3 p q : sound now t1 t2 p → sound now t2 t3 q → sound now t1 t3 (p ++ q).
Proof.
  intros [A1 B1] [A2 B2]. split; [auto|]. intros site to changed c [H|H]%elem_of_app Hc; [by eapply B1|].
  destruct (B2 _ _ _ _ H Hc) as (id & x & Hx & Hd & ->). exists id, x. auto.
Qed.

(** An update of due rows, pushed in groups. *)
Lemma update_sound t (prev : list (string * IdentityRec)) to reason pushes :
  to = StateActive ∨ to = StatePending →
  (∀ id x, (id, x) ∈ prev → t !! id = Some x ∧ row_due now x = true) →
  (∀ site to' changed c, push_identities site to' changed ∈ pushes → c ∈ changed → to' = to ∧ c ∈ changed_to to <$> prev) →
  sound now t (update_rows prev.*1 (released_identity to reason (pg_time now)) t) pushes.
Proof.
  intros Hto Hprev Hp. split.
  - intros id x. rewrite update_rows_lookup. intros (x0 & Hx & E)%fmap_Some Hd. case_bool_decide; subst; [|done]. exfalso. revert Hd. unfold row_due.
    by destruct (released_not_due to reason (pg_time now) x0 Hto) as [-> ->].
  - intros site to' changed c Hin Hc. destruct (Hp _ _ _ _ Hin Hc) as [-> ([id x] & -> & Hx)%list_elem_of_fmap]. exists id, x. destruct (Hprev _ _ Hx). done.
Qed.

Lemma releaseBans_sound n k ids t t' p :
  k.2 = StateActive ∨ k.2 = StatePending → releaseBans tenancy fa now n k ids t = Some (t', p) → sound now t t' p.
Proof.
  intros Hk. unfold releaseBans. destruct (fa_commits _ _ _); [|done]. cbn [ActionReleaseDueBans]. set (prev := filter _ _). intros [= <- <-].
  apply update_sound; [done| |].
  - intros id x [Hm Hx]%list_elem_of_filter. apply elem_of_map_to_list in Hx. split; [done|]. cbn [fst snd] in Hm.
    apply Is_true_true, andb_true_iff in Hm as [[_ Hd]%andb_true_iff _]. unfold row_due. by rewrite Hd.
  - intros site to' changed c [H|[[= -> -> ->]|?%elem_of_nil]%elem_of_cons]%elem_of_cons Hc; [by unfold identity_events in H| |done]. done.
Qed.

Lemma release_targets_sound n groups t :
  (∀ k ids, (k, ids) ∈ groups → k.2 = StateActive ∨ k.2 = StatePending) →
  sound now t (release_targets tenancy fa now n groups t).1.1 (release_targets tenancy fa now n groups t).1.2.
Proof.
  revert t. induction groups as [|[k ids] groups IH]; intros t Hg; cbn [release_targets]; [apply sound_refl|].
  destruct (releaseBans _ _ _ _ _ _ _) as [[t1 p]|] eqn:E; [|apply sound_refl]. apply releaseBans_sound in E; [|eapply Hg; left].
  specialize (IH t1). destruct (release_targets _ _ _ _ groups t1) as [[t2 q] ok]. cbn [fst snd] in *. eapply sound_trans; [exact E|].
  apply IH. intros k' ids' Hin. eapply Hg. by right.
Qed.

Lemma targets_states due k ids : (k, ids) ∈ targets cat due → ids ≠ [] → k.2 = StateActive ∨ k.2 = StatePending.
Proof.
  intros Hin Hne. destruct ids as [|id ids]; [done|]. destruct (proj1 (targets_spec cat due) k _ id Hin (list_elem_of_here _ _)) as (x & _ & <-).
  apply banExpiryState_cases.
Qed.
Lemma targets_nonempty due k ids : (k, ids) ∈ targets cat due → ids ≠ [].
Proof.
  unfold targets. revert k ids. induction due as [|[id x] due IH] using rev_ind; intros k ids; [by intros ?%elem_of_nil|]. rewrite foldl_app. cbn [foldl fst snd].
  generalize (release_target cat x) as k0. revert IH. generalize (foldl (λ groups kx, put_row (release_target cat kx.2) kx.1 groups) [] due) as groups. intros groups IH k0.
  induction groups as [|[k1 l1] groups IHg]; cbn [put_row]; [by intros [[= -> ->]|?%elem_of_nil]%elem_of_cons|].
  case_bool_decide; intros [[= -> ->]|H']%elem_of_cons.
  - by destruct l1.
  - eapply IH. by right.
  - eapply IH. left.
  - apply IHg; [|done]. intros k' ids' Hin. eapply IH. by right.
Qed.

Lemma ban_batch_sound accounts n t :
  sound now t (ban_batch cat tenancy fa now accounts n t).1.1.1 (ban_batch cat tenancy fa now accounts n t).1.1.2.
Proof.
  unfold ban_batch. destruct (fa_reads _ _); [|apply sound_refl]. cbv zeta. set (due := ActionDueIdentityBans _ _ _).
  pose proof (release_targets_sound n (targets cat due) t) as H. destruct (release_targets _ _ _ _ _ t) as [[t1 p] ok]. apply H.
  intros k ids Hin. eapply targets_states; [exact Hin|]. by eapply targets_nonempty.
Qed.

Lemma group_rows_sub {A} (key : A → string) rows k l a : (k, l) ∈ group_rows key rows → a ∈ l → a ∈ rows.
Proof.
  unfold group_rows. revert k l. induction rows as [|b rows IH] using rev_ind; intros k l; [by intros ?%elem_of_nil|]. rewrite foldl_app. cbn [foldl].
  intros Hin Ha. destruct (put_row_elem _ _ _ _ _ Hin a Ha) as [[_ ->]|(l0 & H & Ha')]; [set_solver|]. apply elem_of_app. left. by eapply IH.
Qed.

Lemma quarantine_batch_sound n t :
  sound now t (quarantine_batch tenancy fa now n t).1.1.1 (quarantine_batch tenancy fa now n t).1.1.2.
Proof.
  unfold quarantine_batch. destruct (fa_commits _ _ _); [|apply sound_refl]. cbn [ActionReleaseDueQuarantines]. set (prev := due_rows _ _ _ _). cbn [fst snd].
  apply update_sound; [by right| |].
  - intros id x [Hx [Hd _]%andb_true_iff]%due_rows_elem. split; [done|]. unfold row_due. rewrite Hd. apply orb_true_r.
  - intros site to' changed c [H|([k l] & [= -> -> ->] & Hl)%list_elem_of_fmap]%elem_of_cons Hc; [by unfold identity_events in H|]. split; [done|].
    apply list_elem_of_fmap in Hc as (a & -> & Ha). apply list_elem_of_fmap. exists a. split; [done|]. by eapply group_rows_sub.
Qed.

(** What a pass pushes for identities was due in its rows. *)
Lemma RunExpiry_sound ping db site to changed c :
  push_identities site to changed ∈ (RunExpiry cat tenancy fa now ping db).1.2 → c ∈ changed → change_ok now (r_identities db) to c.
Proof.
  unfold RunExpiry. destruct ping; cbn [negb]; [|by intros ?%elem_of_nil].
  assert (∀ l T (f : nat → T → T * list Push * nat * bool) t, (∀ n t, push_identities site to changed ∉ (f n t).1.1.2) → push_identities site to changed ∉ (batches l 0 f t).1.2) as Hno.
  { intros l T f t Hf. apply (batches_rel (λ _ _ p, push_identities site to changed ∉ p)); [by intros _ ?%elem_of_nil|by intros; apply not_elem_of_app|done]. }
  pose proof (Hno maxExpiryBatches _ (account_batch cat tenancy fa now) (r_accounts db)) as N1. fold (expireAccountBans cat tenancy fa now (r_accounts db)) in N1.
  destruct (expireAccountBans _ _ _ _ _) as [[accounts p1] ok1].
  pose proof (batches_rel (sound now) (ban_batch cat tenancy fa now accounts) maxExpiryBatches 0 (r_identities db) sound_refl sound_trans (ban_batch_sound accounts)) as H1.
  fold (expireIdentityBans cat tenancy fa now accounts (r_identities db)) in H1. destruct (expireIdentityBans _ _ _ _ _ _) as [[t1 p2] ok2].
  pose proof (batches_rel (sound now) (quarantine_batch tenancy fa now) maxExpiryBatches 0 t1 sound_refl sound_trans quarantine_batch_sound) as H2.
  fold (expireQuarantines tenancy fa now t1) in H2. destruct (expireQuarantines _ _ _ t1) as [[t2 p3] ok3].
  pose proof (Hno maxExpiryBatches _ (proxy_batch tenancy fa now) (r_proxies db)) as N2. fold (expireProxies tenancy fa now (r_proxies db)) in N2.
  destruct (expireProxies _ _ _ _) as [[proxies p4] ok4]. cbn [fst snd] in *. destruct (sound_trans _ _ _ _ _ H1 H2) as [_ H].
  intros [Hin|[Hin|[Hin|Hin]%elem_of_app]%elem_of_app]%elem_of_app Hc.
  - exfalso. apply N1; [|done]. intros n t. unfold account_batch. destruct (fa_commits _ _ _); cbn; [|apply not_elem_of_nil]. set_solver.
  - apply (H site to changed c); [|done]. apply elem_of_app. by left.
  - apply (H site to changed c); [|done]. apply elem_of_app. by right.
  - exfalso. apply N2; [|done]. intros n t. unfold proxy_batch. destruct (fa_commits _ _ _); cbn; [|apply not_elem_of_nil]. set_solver.
Qed.
End sound.

(** *** Frames of pushes *)

(** What is kept of an identity: its hash and its packed entries. *)
Definition untouched (i : Z) (h h' : Hot) : Prop := h_id h' !! i = h_id h !! i ∧ ∀ eg, h_hs h' !! (eg, i) = h_hs h !! (eg, i).
#[export] Instance untouched_preorder i : PreOrder (untouched i).
Proof. split; [by split|]. intros h1 h2 h3 [A1 B1] [A2 B2]. split; [congruence|]. intros eg. by rewrite B2. Qed.

(** The push of a release touches its identity only. *)
Lemma transition_untouched now s at' to c st i :
  ch_Key c ≠ i → untouched i (site_hot st) (site_hot (ap_operation now (transition_op s (released_at at' to) c) st).2).
Proof.
  intros Hne. set (op := transition_op s (released_at at' to) c). change (ap_operation now op st) with (ap_set now op st). unfold ap_set.
  change (String.eqb (OpScope op) "ac") with false. change (OpSubject op) with (ch_Key c). cbv iota. destruct (negb _); [done|].
  destruct (ap_id_get _ _) as [id|]; [|done]. destruct (_ >? _); [done|]. cbn [snd].
  change (ap_has (Flags op) F_RESET_FAIL) with false. change (ap_has (Flags op) F_RESET_HEALTH) with false. cbn [ap_reset_identity negb andb].
  set (m1 := hset_life _ _ _ _ _ _). set (m2 := if _ && _ then on_hot _ m1 else m1).
  assert (untouched i (site_hot st) (m_hot m2)) as H2.
  { subst m2. destruct (_ && _); (split; [cbn; by rewrite ?lookup_alter_ne|done]). }
  clearbody m2. etrans; [exact H2|]. assert (untouched i (m_hot m2) (place_identity op (ch_Key c) (m_hot m2))) as H3.
  { split; [by rewrite (sm_id _ _ (place_identity_core _ _ _))|]. intros eg. f_equal. unfold place_identity, ap_zrem_all. destruct (string_in _ _); by rewrite !foldl_hs. }
  by destruct (String.eqb (To op) "banned" && _).
Qed.

Lemma transitions_untouched now s at' to changed chunk st i :
  chunk ⊆ transition_op s (released_at at' to) <$> changed → (∀ c, c ∈ changed → ch_Key c ≠ i) →
  untouched i (site_hot st) (site_hot (apply_lua now "" chunk st).2).
Proof.
  intros Hsub Hne. unfold apply_lua. cbn [String.eqb]. revert st. induction chunk as [|op chunk IH]; intros st; [done|]. cbn [ap_operations].
  assert (op ∈ transition_op s (released_at at' to) <$> changed) as (c & -> & Hc)%list_elem_of_fmap by (apply Hsub; left).
  pose proof (transition_untouched now s at' to c st i (Hne c Hc)) as H. destruct (ap_operation _ _ st) as [r s1]. cbn [snd] in H.
  specialize (IH (λ x Hx, Hsub x (list_elem_of_further _ _ _ Hx)) s1). destruct (ap_operations now chunk s1) as [out s2]. by etrans.
Qed.

Lemma pushAccount_untouched hkey to until at' st i : untouched i (site_hot st) (site_hot (pushAccount hkey to until at' st)).
Proof.
  unfold pushAccount, apply_lua. cbn [String.eqb ap_operations]. change (ap_operation _ (account_op hkey to until) st) with (set_account (at' / 1000000) (account_op hkey to until) st).
  unfold set_account. destruct (h_acc _ !! _); [|done]. destruct (negb _); [done|]. by destruct (_ >? _).
Qed.

(** ** Claims *)

(** C39: a pass of the expiry job ends exactly the bans and quarantines that are due.
    Whatever fails, is locked or is left over, the row of an identity either stays as
    it is, or it was banned until a time that has come, without an account whose own ban
    goes on, or quarantined until a time that has come; then it enters the state of its
    policy (after a ban) or pending (after a quarantine), without an end, and the
    release is among the pushes for its site.  When nothing fails, no row is held by
    another transaction and at most 20 batches of 1000 are due of either kind, no
    identity is left due. *)
Theorem RunExpiry_exact cat tenancy fa now db :
  let r := RunExpiry cat tenancy fa now true db in
  (∀ id, r_identities r.1.1 !! id = r_identities db !! id ∨
    ∃ x changed, r_identities db !! id = Some x ∧
      (ban_due (pg_time now) x = true ∧ account_holds (pg_time now) (r_accounts db) x = false ∨ quarantine_due (pg_time now) x = true) ∧
      r_identities r.1.1 !! id = Some (released_row cat now x) ∧
      push_identities (x_site x) (release_to cat x) changed ∈ r.1.2 ∧ changed_to (release_to cat x) (id, x) ∈ changed) ∧
  (faultless fa → (size (due_bans now db) ≤ maxExpiryBatches * expiryBatch)%nat → (size (due_quarantines now db) ≤ maxExpiryBatches * expiryBatch)%nat →
   ∀ id x, r_identities r.1.1 !! id = Some x →
     (ban_due (pg_time now) x = true → account_holds (pg_time now) (r_accounts db) x = true) ∧ quarantine_due (pg_time now) x = false).
Proof.
  intros r. split.
  - intros id. destruct (RunExpiry_passed cat tenancy fa now db id) as [?|(x & Hx & Hd & E & changed & ? & ?)]; [by left|].
    right. exists x, changed. split_and!; [done| |done..]. unfold identity_due in Hd. rewrite orb_true_iff, andb_true_iff, negb_true_iff in Hd. done.
  - intros Hf Hb Hq id x Hx. pose proof (RunExpiry_none_left cat tenancy fa now db id x Hf Hb Hq Hx) as Hd. unfold identity_due in Hd.
    apply orb_false_iff in Hd as [H1 H2]. split; [|done]. intros H. rewrite H in H1. by apply negb_false_iff.
Qed.

(** ** Runs *)

Definition demo_catalog : Catalog := λ site,
  if String.eqb site "s" then Some {| xs_Key := 1; xs_Groups := {[("web"%string, DefaultGroup) := {| xg_Snap := demo_group; xg_IdentityTypeIDs := ["guest"] |}]} |}
  else None.
Definition demo_identity (hkey : Z) (st : string) (changed : Z) (ban : option Z) (account : option string) : IdentityRec :=
  {| x_row := {| ir_hkey := hkey; ir_state := st; ir_reason := ""; ir_changed := changed; ir_ban := ban; ir_quarantine := None; ir_activated := None; ir_updated := changed |};
     x_site := "s"; x_client := "web"; x_type := "guest"; x_account := account |}.
Definition no_faults : Faults := {| fa_reads := λ _, true; fa_commits := λ _ _, true; fa_locked := λ _ _, false |}.

(** Two bans have ended at 510 ms; the account of the second identity is still banned. *)
Definition demo_rows : Rows :=
  {| r_identities := {["i10"%string := demo_identity 10 "banned" 100000 (Some 500000) None;
                       "i11"%string := demo_identity 11 "banned" 100000 (Some 500000) (Some "a")]};
     r_accounts := {["a"%string := {| y_row := {| ac_hkey := 5; ac_state := "banned"; ac_ban := None; ac_updated := 0 |}; y_site := "s" |}]};
     r_proxies := ∅ |}.
Definition demo_pass := RunExpiry demo_catalog (λ _, (""%string, ""%string)) no_faults 510000000 true demo_rows.

Lemma RunExpiry_exact_witness :
  r_identities demo_pass.1.1 !! "i10"%string = Some (released_row demo_catalog 510000000 (demo_identity 10 "banned" 100000 (Some 500000) None)) ∧
  r_identities demo_pass.1.1 !! "i11"%string = Some (demo_identity 11 "banned" 100000 (Some 500000) (Some "a"%string)).
Proof.
  destruct (RunExpiry_exact demo_catalog (λ _, (""%string, ""%string)) no_faults 510000000 demo_rows) as [H1 H2]. split.
  - destruct (H1 "i10"%string) as [E|(x & changed & Hx & _ & E & _)].
    + exfalso. specialize (H2 (conj (λ _, eq_refl) (conj (λ _ _, eq_refl) (λ _ _, eq_refl)))).
      assert (∀ n, (n ≤ maxExpiryBatches * expiryBatch)%nat ↔ Z.of_nat n ≤ 20000) as Hn by (intros n; unfold maxExpiryBatches, expiryBatch; lia).
      destruct (H2 ltac:(apply Hn; vm_compute; discriminate) ltac:(apply Hn; vm_compute; discriminate) "i10"%string _ E) as [H _]. vm_compute in H. by specialize (H eq_refl).
    + vm_compute in Hx. injection Hx as <-. exact E.
  - destruct (H1 "i11"%string) as [E|(x & changed & Hx & [[_ Ha]|Hq] & _)]; [exact E|vm_compute in Hx; injection Hx as <-..]; vm_compute in Ha || vm_compute in Hq; discriminate.
Defined.

(** A ban that is extended while the row still holds its old end.  Identity 10 is banned
    until 500 ms and the row says so; at 450 ms a report extends the ban until 2000 ms in
    Redis, and the state writer has yet to write it.  The pass at 510 ms finds the row
    due, releases it and pushes the release, which replaces the longer ban because the ban
    is older than the pass; and the change of 450 ms, when it is written, is older than
    the release and is dropped: the ban is lost on both sides. *)
Definition ban_until (until : Z) : luaOp := subject_op "ban" "id" 10 until flagAutomatic [1].
Definition extended_ban : Site := (apply_lua 450 "b" [ban_until 2000] (apply_lua 100 "a" [ban_until 500] demo_run).2).2.
Definition extension : StateRows.StateChange :=
  {| sc_ID := "e"; sc_At := 450000000; sc_TenantID := ""; sc_NamespaceID := ""; sc_SiteID := "s"; sc_SubjectKind := SubjectIdentity;
     sc_SubjectID := "i10"; sc_SubjectKey := 10; sc_EndpointGroupID := ""; sc_FromState := "banned"; sc_ToState := "banned";
     sc_Action := ActionBan; sc_Scope := SubjectIdentity; sc_Until := Some 2000000000; sc_Permanent := false; sc_Outcome := ""; sc_PolicyID := "";
     sc_PolicyVersion := 0; sc_Rule := ""; sc_ReportID := ""; sc_LeaseID := ""; sc_Actor := ActorSystem; sc_Reason := "";
     sc_Shadow := false; sc_Details := ""; sc_UpdateSubject := true; sc_StateReason := "" |}.

Example extended_ban_lost :
  let released := pushExpired demo_catalog 510000000 "s" StatePending [changed_to StatePending ("i10"%string, demo_identity 10 "banned" 100000 (Some 500000) None)] extended_ban in
  option_map id_st (h_id (site_hot extended_ban) !! 10) = Some "banned"%string ∧
  option_map lf_bu (m_idlife (s_mat extended_ban) !! 10) = Some 2000 ∧
  option_map id_st (h_id (site_hot released) !! 10) = Some "pending"%string ∧
  option_map (λ x, ir_state (identity_row extension (x_row x))) (r_identities demo_pass.1.1 !! "i10"%string) = Some "pending"%string.
Proof. vm_compute. done. Qed.
