(* ===== verification/WorkerObserve.v ===== *)
(** * observe.lua: one processed report

    internal/worker/lua/observe.lua applies a report to the hot state of a site:
    the report count of the lease, quota and breaker windows, cross attribution,
    health scores and failure streaks of the identity and the proxy, outcome
    counters and ban counts.  The theorems show that every stream entry is
    applied once, that the numeral comparison of the script orders stream ids,
    what the sliding counters count, and what a report leaves alone. *)

From S2P Require Import Prelude GoStrings GoFloat PolicyBase GoTime LuaCommon PolicyRotation PolicyResolve Breaker.
From S2P Require Import SchedState SchedSelect SchedAcquire SchedLease SchedLedger SchedRefine SchedGrant SchedLoop SchedRun Scheduler HotSync ActionApply.

Local Open Scope Z_scope.

(** ** Arguments and reply *)

Inductive CountSubject := count_identity | count_account | count_proxy.

(** The arguments of mode "full"; missing subjects and observations are [None]. *)
Record ObsArgs := {
  o_now : Z; o_lid : string; o_eg : Z; o_ident : option Z; o_proxy : option Z; o_outcome : string; o_blame : string;
  o_late : bool; o_obs_identity : option float64; o_obs_proxy : option float64; o_failure : bool; o_risk : bool;
  o_alpha : float64; o_baseline : float64; o_tau : Z; o_reset_after : Z; o_bucket : option (Z * Z);
  o_xa_on : bool; o_xa_window : Z; o_xa_pi : Z; o_xa_ip : Z;
  o_quotas : list Z; o_counts : list (CountSubject * Z); o_bans : list Z;
}.

Record ObsReply := {
  or_blame : string; or_suppressed : bool; or_probe : bool; or_state : string; or_account : option Z; or_type : string;
  or_e_nfail : Z; or_g_nfail : Z; or_p_nfail : Z; or_e_score : float64; or_e_samples : Z; or_g_score : float64;
  or_g_samples : Z; or_e_cd : Z; or_brk : State; or_counts : list Z; or_bans : list Z;
}.
Inductive ObsResult := obs_dup | obs_ckpt | obs_ok (r : ObsReply).

(** ** Stream ids *)

(** Canonical numerals: the longer one is larger, equal lengths compare bytewise. *)
Definition numeral_lt (a b : bytes) : bool :=
  (length a <? length b)%nat || ((length a =? length b)%nat && bool_decide (bytes_compare a b = Lt)).
Definition numeral_le (a b : bytes) : bool :=
  (length a <? length b)%nat || ((length a =? length b)%nat && bool_decide (bytes_compare a b ≠ Gt)).

(** Whether the entry [cur] was applied when [prev] was the last one. *)
Definition ob_dup (prev cur : Z * Z) : bool :=
  let pms := FormatInt prev.1 in
  let cms := FormatInt cur.1 in
  if bool_decide (pms = cms) then numeral_le (FormatInt cur.2) (FormatInt prev.2) else numeral_lt cms pms.

(** ** Sliding counters *)

Definition bucket_ms (w : Z) : Z := Z.max (w / 60) 1000.
(** The first bucket of the window that ends in bucket [idx]. *)
Definition lowest_bucket (w idx : Z) : Z := idx - (w + bucket_ms w - 1) / bucket_ms w + 1.

(** One more report in its bucket; older buckets are dropped, the others summed. *)
Definition count_bucket (now w : Z) (c : gmap Z Z) : Z * gmap Z Z :=
  let idx := now / bucket_ms w in
  let c := filter (λ kv, lowest_bucket w idx ≤ kv.1) (<[idx := default 0 (c !! idx) + 1]> c) in
  (map_fold (λ _ n sum, n + sum) 0 c, c).

Section report.
Context {lua : LuaMath}.
Variable args : ObsArgs.
Abbreviation now := (o_now args).
Abbreviation eg := (o_eg args).

Definition is_success : bool := String.eqb (o_outcome args) "success".

(** One more request in the quota window of [w] milliseconds. *)
Definition quota_count (m : gmap Z QWin) (w : Z) : gmap Z QWin :=
  if w <=? 0 then m
  else
    let idx := now / w in
    let q := default no_qwin (m !! w) in
    if q_c q =? idx then <[w := {| q_c := idx; q_n := q_n q + 1; q_p := q_p q |}]> m
    else <[w := {| q_c := idx; q_n := 1; q_p := if q_c q =? idx - 1 then q_n q else 0 |}]> m.

(** The report count of the lease and whether it is a probe; the first request was
    counted when the lease was acquired. *)
Definition count_lease (h : Hot) : bool * Hot :=
  match h_ls h !! o_lid args with
  | None => (false, h)
  | Some l =>
      let rc := ls_rc l + 1 in
      let h := on_ls (<[o_lid args := with_rc rc l]>) h in
      match o_ident args with
      | Some i =>
          if (rc >? 1) && negb (bool_decide (o_quotas args = []))
          then (ls_pr l, on_q (λ q, <[(eg, i) := foldl quota_count (default ∅ (q !! (eg, i))) (o_quotas args)]> q) h)
          else (ls_pr l, h)
      | None => (ls_pr l, h)
      end
  end.

Definition count_window (o : Obs) : Obs :=
  match o_bucket args with
  | None => o
  | Some k =>
      let w := default {| w_t := 0; w_s := 0; w_r := 0 |} (ob_win o !! k) in
      {| ob_ckpt := ob_ckpt o;
         ob_win := <[k := {| w_t := w_t w + 1; w_s := if is_success then w_s w + 1 else w_s w;
                             w_r := if o_risk args then w_r w + 1 else w_r w |}]> (ob_win o);
         ob_winh :=
           match o_ident args with
           | Some i => if String.eqb (o_outcome args) "captcha" then <[k := {[i]} ∪ default ∅ (ob_winh o !! k)]> (ob_winh o)
                       else ob_winh o
           | None => ob_winh o
           end |}
  end.

(** ** Cross attribution *)

Definition attributed (ids_on_proxy proxies_of_id : nat) (blame : string) : string :=
  if (o_xa_pi args <=? Z.of_nat ids_on_proxy) && (Z.of_nat proxies_of_id <? o_xa_ip args) then BlameProxy
  else if o_xa_ip args <=? Z.of_nat proxies_of_id then
    if String.eqb blame BlameProxy then BlameBoth
    else if negb (String.eqb blame BlameBoth) then BlameIdentity else blame
  else blame.

Definition cross_attribution (t : Stats) : string * Stats :=
  match o_proxy args, o_ident args with
  | Some p, Some i =>
      if o_risk args && negb (o_late args) && o_xa_on args && (o_xa_window args >? 0) then
        let xp := trimmed_zadd i now (o_xa_window args) (default ∅ (st_xap t !! p)) in
        let xi := trimmed_zadd p now (o_xa_window args) (default ∅ (st_xai t !! i)) in
        (attributed (size xp) (size xi) (o_blame args), on_xai (<[i := xi]>) (on_xap (<[p := xp]>) t))
      else (o_blame args, t)
  | _, _ => (o_blame args, t)
  end.

Definition blames_identity (blame : string) : bool := String.eqb blame BlameIdentity || String.eqb blame BlameBoth.
Definition blames_proxy (blame : string) : bool := String.eqb blame BlameProxy || String.eqb blame BlameBoth.

(** ** Scores and streaks *)

Definition alpha : float64 :=
  if f_ltb (o_alpha args) f_zero then f_zero else if f_ltb (f_of_Z 1) (o_alpha args) then f_of_Z 1 else o_alpha args.
Definition ewma (obs score : float64) : float64 := f_add (f_mul alpha obs) (f_mul (f_sub (f_of_Z 1) alpha) score).
Definition two_decimals (f : float64) : float64 := f_const (hundredths f) 100.
Definition four_decimals (f : float64) : float64 := f_const (nearest 10000 f) 10000.

(** The streak after the report; [None] when it does not change. *)
Definition next_streak (fail : bool) (nf lf : Z) : option (Z * Z) :=
  if fail then Some ((if now - lf >? o_reset_after args then 0 else nf) + 1, now)
  else if is_success && (nf >? 0) then Some (nf / 2, lf) else None.

(** The score decays, and an observation is averaged in. *)
Definition next_score (obs : option float64) (score : float64) (ts : Z) : float64 :=
  let decayed := sp_decay score ts now (o_baseline args) (o_tau args) in
  match obs with Some v => ewma v decayed | None => decayed end.

(** The packed entry of the identity, and whether it is written. *)
Definition observe_hs (obs : option float64) (fail : bool) (t : Hs) : Hs * bool :=
  let streak := next_streak fail (hs_nfail t) (hs_lastfail t) in
  let '(nf, lf) := default (hs_nfail t, hs_lastfail t) streak in
  let affects := bool_decide (is_Some obs) in
  ({| hs_score := if affects then two_decimals (next_score obs (hs_score t) (hs_sts t)) else hs_score t;
      hs_sts := if affects then now else hs_sts t;
      hs_samples := if affects then hs_samples t + 1 else hs_samples t;
      hs_nfail := nf; hs_lastfail := lf; hs_cd := hs_cd t; hs_ru := hs_ru t; hs_lu := hs_lu t |},
   affects || bool_decide (is_Some streak)).

(** The observation of the identity when the report affects it. *)
Definition identity_obs (blame : string) : option float64 :=
  if is_success || blames_identity blame then o_obs_identity args else None.
Definition identity_fail (blame : string) : bool :=
  o_failure args || (String.eqb (o_outcome args) OutcomeNetworkError && blames_identity blame).
Definition proxy_obs (blame : string) : option float64 :=
  if is_success || blames_proxy blame then o_obs_proxy args else None.
Definition proxy_fail (blame : string) : bool :=
  blames_proxy blame && negb is_success &&
  (o_failure args || String.eqb (o_outcome args) OutcomeProxyError || String.eqb (o_outcome args) OutcomeNetworkError).

(** The global score and streak of the identity. *)
Definition observe_global (i : Z) (obs : option float64) (fail : bool) (t : Stats) : Z * float64 * Z * bool * Stats :=
  let g := default {| gsc_score := o_baseline args; gsc_ts := now; gsc_n := 0 |} (st_score t !! i) in
  let '(nf0, lf0) := default (0, 0) (st_streak t !! i) in
  let score := next_score obs (gsc_score g) (gsc_ts g) in
  let streak := next_streak fail nf0 lf0 in
  let affects := bool_decide (is_Some obs) in
  let n := if affects then gsc_n g + 1 else gsc_n g in
  let t := if affects then on_score (<[i := {| gsc_score := two_decimals score; gsc_ts := now; gsc_n := n |}]>) t else t in
  let t := match streak with Some nl => on_streak (<[i := nl]>) t | None => t end in
  (from_option fst nf0 streak, score, n, affects || bool_decide (is_Some streak), t).

Definition with_px_score (sc : float64) (sts : Z) (d : Proxy) : Proxy :=
  {| px_st := px_st d; px_kd := px_kd d; px_rg := px_rg d; px_pv := px_pv d; px_tg := px_tg d; px_mc := px_mc d;
     px_al := px_al d; px_sc := Some sc; px_sts := Some sts; px_cd := px_cd d; px_gcd := px_gcd d; px_pid := px_pid d |}.

(** The score and streak of the proxy, when it is materialised: the streak. *)
Definition observe_proxy (p : Z) (blame : string) (s : Site) : Z * Site :=
  match h_px (site_hot s) !! p with
  | None => (0, s)
  | Some d =>
      let c := default {| ps_sn := 0; ps_nf := 0; ps_lf := 0 |} (st_px (m_stat (s_mat s)) !! p) in
      let obs := proxy_obs blame in
      let streak := next_streak (proxy_fail blame) (ps_nf c) (ps_lf c) in
      let '(nf, lf) := default (ps_nf c, ps_lf c) streak in
      let affects := bool_decide (is_Some obs) in
      let sc := next_score obs (default (o_baseline args) (px_sc d)) (default now (px_sts d)) in
      if affects || bool_decide (is_Some streak) then
        let s := if affects then on_mat (on_hot (on_px (<[p := with_px_score (two_decimals sc) now d]>))) s else s in
        let c := {| ps_sn := if affects then ps_sn c + 1 else ps_sn c; ps_nf := nf; ps_lf := lf |} in
        (nf, dirty_px p (on_mat (on_stat (on_pxstat (<[p := c]>))) s))
      else (nf, s)
  end.

(** ** Counters *)

Definition counter_subject (i : Z) (account : option Z) (k : CountSubject) : option string :=
  match k with
  | count_identity => Some (String.append "i" (str (FormatInt i)))
  | count_account => Some (match account with Some a => String.append "a" (str (FormatInt a))
                           | None => String.append "i" (str (FormatInt i)) end)
  | count_proxy => (λ p, String.append "p" (str (FormatInt p))) <$> o_proxy args
  end.
Definition counter_key (subject : string) (w : Z) : string :=
  String.append "cnt:" (String.append subject (String.append ":" (String.append (o_outcome args)
    (String.append ":" (str (FormatInt w)))))).

(** A counter is counted once, also when several rules ask for it. *)
Fixpoint count_all (i : Z) (account : option Z) (reqs : list (CountSubject * Z)) (counted : gmap string Z)
    (c : gmap string (gmap Z Z)) : list Z * gmap string (gmap Z Z) :=
  match reqs with
  | [] => ([], c)
  | (k, w) :: reqs =>
      let '(n, counted, c) :=
        match counter_subject i account k with
        | Some subject =>
            if w <=? 0 then (0, counted, c)
            else
              let key := counter_key subject w in
              match counted !! key with
              | Some n => (n, counted, c)
              | None => let '(n, b) := count_bucket now w (default ∅ (c !! key)) in (n, <[key := n]> counted, <[key := b]> c)
              end
        | None => (0, counted, c)
        end in
      let '(ns, c) := count_all i account reqs counted c in (n :: ns, c)
  end.

Definition ban_count (bans : zset Z) (w : Z) : Z := Z.of_nat (size (filter (λ kv, now - w ≤ kv.2) bans)).

(** ** The script *)

(** What an enforced report does to the identity, the proxy and the counters. *)
Definition observe_identity (i : Z) (d : Identity) (blame : string) (suppressed probe : bool) (brk : State) (s : Site) :
    ObsReply * Site :=
  let obs := identity_obs blame in
  let fail := identity_fail blame in
  let t0 := default (sp_hs_pack (hs_default (o_baseline args) now)) (h_hs (site_hot s) !! (eg, i)) in
  let '(t, hs_changed) := observe_hs obs fail t0 in
  let s := if hs_changed
           then on_mat (on_hot (λ h, mark_dirty {[(Some eg, i)]} (on_hs (<[(eg, i) := t]>) h))) s else s in
  let '(g_nfail, g_score, g_samples, g_changed, st) := observe_global i obs fail (m_stat (s_mat s)) in
  let s := on_mat (on_stat (λ _, st)) s in
  let s := if g_changed then on_mat (on_hot (mark_dirty {[(None, i)]})) s else s in
  let '(p_nfail, s) := match o_proxy args with Some p => observe_proxy p blame s | None => (0, s) end in
  let '(counts, c) := count_all i (id_acc d) (o_counts args) ∅ (s_cnt s) in
  let bans := ban_count (default ∅ (m_bans (s_mat s) !! i)) <$> o_bans args in
  ({| or_blame := blame; or_suppressed := suppressed; or_probe := probe; or_state := id_st d; or_account := id_acc d;
      or_type := id_ty d; or_e_nfail := hs_nfail t; or_g_nfail := g_nfail; or_p_nfail := p_nfail;
      or_e_score := four_decimals (next_score obs (hs_score t0) (hs_sts t0)); or_e_samples := hs_samples t;
      or_g_score := four_decimals g_score;
      or_g_samples := g_samples; or_e_cd := hs_cd t; or_brk := brk; or_counts := counts; or_bans := bans |},
   on_cnt (λ _, c) s).

(** The reply of a report that leaves the identity alone. *)
Definition passive_reply (d : option Identity) (blame : string) (suppressed probe : bool) (brk : State) : ObsReply :=
  {| or_blame := blame; or_suppressed := suppressed; or_probe := probe; or_state := from_option id_st "" d;
     or_account := d ≫= id_acc; or_type := from_option id_ty "" d; or_e_nfail := 0; or_g_nfail := 0; or_p_nfail := 0;
     or_e_score := four_decimals (o_baseline args); or_e_samples := 0;
     or_g_score := four_decimals (o_baseline args); or_g_samples := 0; or_e_cd := 0;
     or_brk := brk; or_counts := (λ _, 0) <$> o_counts args; or_bans := (λ _, 0) <$> o_bans args |}.

(** The lease, the windows, the breaker and the attribution: whether the lease is a
    probe, the breaker, the blame and the state when the script turns to the
    identity. *)
Definition before_identity (s : Site) : bool * Hash * string * Site :=
  let '(probe, h) := count_lease (site_hot s) in
  let s := on_obs count_window (on_mat (on_hot (λ _, on_aeg (<[eg := now]>) h)) s) in
  let b := default no_hash (h_brk h !! eg) in
  let s := if probe
           then on_mat (on_hot (on_brk (alter (λ b, b_hash (observe_probe is_success {| b_hash := b; b_brko := true |})) eg))) s
           else s in
  let '(blame, st) := cross_attribution (m_stat (s_mat s)) in
  (probe, b, blame, on_mat (on_stat (λ _, st)) s).

Definition observe_full (s : Site) : ObsReply * Site :=
  let '(probe, b, blame, s) := before_identity s in
  let sup := Breaker.suppressed now probe b in
  let d := o_ident args ≫= λ i, h_id (site_hot s) !! i in
  match o_ident args, d with
  | Some i, Some d' =>
      if negb sup && negb (o_late args) then observe_identity i d' blame sup probe (Breaker.st b) s
      else (passive_reply d blame sup probe (Breaker.st b), s)
  | _, _ => (passive_reply d blame sup probe (Breaker.st b), s)
  end.
End report.

(** The checkpoint of the shard is advanced before anything else; [None] is the
    mode "ckpt". *)
Definition observe_lua {lua : LuaMath} (shard : Z) (sid : Z * Z) (full : option ObsArgs) (s : Site) : ObsResult * Site :=
  let dup := match ob_ckpt (s_obs s) !! shard with Some prev => ob_dup prev sid | None => false end in
  if dup then (obs_dup, s)
  else
    let s := on_obs (λ o, {| ob_ckpt := <[shard := sid]> (ob_ckpt o); ob_win := ob_win o; ob_winh := ob_winh o |}) s in
    match full with
    | None => (obs_ckpt, s)
    | Some args => let '(r, s) := observe_full args s in (obs_ok r, s)
    end.

(** ** Stream ids *)

Lemma read_digits_shift x s : read_digits x s = x * 10 ^ Z.of_nat (length s) + read_digits 0 s.
Proof.
  revert x. induction s as [|c s IH]; intros x; [cbn; lia|]. unfold read_digits in *. cbn [foldl length].
  rewrite IH, (IH (0 * 10 + digit_value c)), Nat2Z.inj_succ, Z.pow_succ_r by lia. lia.
Qed.

(** Digits of one length compare as their values. *)
Lemma bytes_compare_digits a b :
  all_digits a → all_digits b → length a = length b → bytes_compare a b = (read_digits 0 a ?= read_digits 0 b).
Proof.
  intros Ha. revert b. induction Ha as [|c a Hc Ha IH]; intros [|d b] Hb Hl; try done.
  apply Forall_cons in Hb as [Hd Hb]. cbn in Hl. injection Hl as Hl. cbn [bytes_compare].
  change (read_digits 0 (c :: a)) with (read_digits (digit_value c) a). change (read_digits 0 (d :: b)) with (read_digits (digit_value d) b).
  rewrite (read_digits_shift _ a), (read_digits_shift _ b), <- Hl.
  pose proof (read_digits_bound a Ha) as Ba. pose proof (read_digits_bound b Hb) as Bb. rewrite <- Hl in Bb. unfold digit_value.
  rewrite IH by done. destruct (Z.compare_spec (bval c) (bval d)) as [->|?|?]; cbn [cmp_then].
  - by rewrite Z.add_compare_mono_l.
  - symmetry. apply Z.compare_lt_iff. nia.
  - symmetry. apply Z.compare_gt_iff. nia.
Qed.

Lemma format_digits_length fuel n :
  0 ≤ n < 10 ^ Z.of_nat (S fuel) →
  let len := Z.of_nat (length (format_digits (S fuel) n [])) in 1 ≤ len ∧ n < 10 ^ len ∧ (1 < len → 10 ^ (len - 1) ≤ n).
Proof.
  revert n. induction fuel as [|fuel IH]; intros n Hn; cbv zeta.
  - cbn in Hn. cbn [format_digits]. rewrite (Z.div_small n 10) by lia. cbn. lia.
  - remember (S fuel) as f. cbn [format_digits]. pose proof (Z.div_mod n 10 ltac:(lia)) as Hd. pose proof (Z.mod_pos_bound n 10 ltac:(lia)).
    destruct (Z.eqb_spec (n / 10) 0) as [E|E]; [cbn; lia|]. rewrite format_digits_app, length_app. cbn [length].
    rewrite Nat2Z.inj_succ, Z.pow_succ_r in Hn by lia. destruct (IH (n / 10)) as (H1 & H2 & H3).
    { split; [apply Z.div_pos; lia|apply Z.div_lt_upper_bound; lia]. }
    rewrite Nat2Z.inj_add. set (len := Z.of_nat (length _)) in *. change (Z.of_nat 1) with 1. split_and!; [lia| |].
    + rewrite Z.pow_add_r by lia. lia.
    + intros _. replace (len + 1 - 1) with (len - 1 + 1) by lia. rewrite Z.pow_add_r by lia.
      destruct (decide (len = 1)) as [->|]; [cbn; lia|]. specialize (H3 ltac:(lia)). lia.
Qed.

(** Stream ids are pairs of unsigned 64-bit numbers. *)
Definition numeral (n : Z) : Prop := 0 ≤ n < 10 ^ 20.
Definition stream_id (sid : Z * Z) : Prop := numeral sid.1 ∧ numeral sid.2.

Lemma numeral_spec n m :
  numeral n → numeral m → numeral_lt (FormatInt n) (FormatInt m) = (n <? m) ∧ numeral_le (FormatInt n) (FormatInt m) = (n <=? m).
Proof.
  intros Hn Hm. unfold numeral_lt, numeral_le.
  destruct (format_digits_spec 20 n Hn) as [Dn Rn]. destruct (format_digits_spec 20 m Hm) as [Dm Rm].
  pose proof (format_digits_length 19 n Hn) as (Ln & Un & Bn). pose proof (format_digits_length 19 m Hm) as (Lm & Um & Bm).
  change (format_digits 20 n []) with (FormatInt n) in *. change (format_digits 20 m []) with (FormatInt m) in *.
  destruct (Nat.ltb_spec (length (FormatInt n)) (length (FormatInt m))) as [Hl|Hl]; cbn [orb].
  { assert (n < m) by (pose proof (Z.pow_le_mono_r 10 (Z.of_nat (length (FormatInt n))) (Z.of_nat (length (FormatInt m)) - 1)); lia).
    split; symmetry; [apply Z.ltb_lt|apply Z.leb_le]; lia. }
  destruct (Nat.eqb_spec (length (FormatInt n)) (length (FormatInt m))) as [He|He]; cbn [andb].
  - assert (bytes_compare (FormatInt n) (FormatInt m) = (n ?= m)) as E by (by rewrite bytes_compare_digits, Rn, Rm).
    split; apply Bool.eq_true_iff_eq; rewrite bool_decide_eq_true, E; [rewrite Z.ltb_lt|rewrite Z.leb_le]; done.
  - assert (m < n) by (pose proof (Z.pow_le_mono_r 10 (Z.of_nat (length (FormatInt m))) (Z.of_nat (length (FormatInt n)) - 1)); lia).
    split; symmetry; [apply Z.ltb_ge|apply Z.leb_gt]; lia.
Qed.

(** Stream order. *)
Definition sid_le (a b : Z * Z) : Prop := a.1 < b.1 ∨ a.1 = b.1 ∧ a.2 ≤ b.2.
#[export] Instance sid_le_dec a b : Decision (sid_le a b).
Proof. unfold sid_le. apply _. Defined.

Lemma FormatInt_inj n m : numeral n → numeral m → FormatInt n = FormatInt m → n = m.
Proof.
  intros Hn Hm E. destruct (format_digits_spec 20 n Hn) as [_ Rn]. destruct (format_digits_spec 20 m Hm) as [_ Rm].
  unfold FormatInt in E. congruence.
Qed.

Lemma ob_dup_le prev cur : stream_id prev → stream_id cur → ob_dup prev cur = bool_decide (sid_le cur prev).
Proof.
  intros [P1 P2] [C1 C2]. unfold ob_dup. destruct (numeral_spec cur.2 prev.2 C2 P2) as [_ E2].
  destruct (numeral_spec cur.1 prev.1 C1 P1) as [E1 _]. case_bool_decide as He.
  - apply FormatInt_inj in He; [|done..]. rewrite E2. apply Bool.eq_true_iff_eq. rewrite Z.leb_le, bool_decide_eq_true. unfold sid_le. lia.
  - rewrite E1. assert (prev.1 ≠ cur.1) by congruence. apply Bool.eq_true_iff_eq. rewrite Z.ltb_lt, bool_decide_eq_true. unfold sid_le. lia.
Qed.

(** ** Sliding counters *)

(** The buckets of a list of times. *)
Definition buckets (b : Z) (ts : list Z) : gmap Z Z :=
  foldl (λ c t, <[t / b := default 0 (c !! (t / b)) + 1]> c) ∅ ts.
Definition bucket_sum (c : gmap Z Z) : Z := map_fold (λ _ n sum, n + sum) 0 c.

Lemma bucket_sum_insert k n c : c !! k = None → bucket_sum (<[k := n]> c) = n + bucket_sum c.
Proof. intros Hk. unfold bucket_sum. rewrite map_fold_insert_L; [done|lia|done]. Qed.

Lemma bucket_sum_bump k c : bucket_sum (<[k := default 0 (c !! k) + 1]> c) = bucket_sum c + 1.
Proof.
  destruct (c !! k) as [n|] eqn:Hk; cbn.
  - rewrite <- insert_delete_eq, bucket_sum_insert by apply lookup_delete_eq.
    rewrite <- (insert_delete_id c k n Hk) at 2. rewrite bucket_sum_insert by apply lookup_delete_eq. lia.
  - rewrite bucket_sum_insert by done. lia.
Qed.

Lemma buckets_snoc b ts t : buckets b (ts ++ [t]) = <[t / b := default 0 (buckets b ts !! (t / b)) + 1]> (buckets b ts).
Proof. unfold buckets. by rewrite foldl_app. Qed.

Lemma buckets_sum b ts : bucket_sum (buckets b ts) = Z.of_nat (length ts).
Proof.
  induction ts as [|t ts IH] using rev_ind; [done|]. rewrite buckets_snoc, bucket_sum_bump, IH, length_app. cbn. lia.
Qed.

Lemma buckets_filter (P : Z → Prop) `{∀ t, Decision (P t)} b lo ts :
  (∀ t, P t ↔ lo ≤ t / b) → filter (λ kv : Z * Z, lo ≤ kv.1) (buckets b ts) = buckets b (filter P ts).
Proof.
  intros HP. induction ts as [|t ts IH] using rev_ind; [done|].
  rewrite buckets_snoc, filter_app, filter_cons, filter_nil, map_filter_insert. destruct (decide (P t)) as [Ht|Ht].
  - rewrite decide_True by (by apply HP). rewrite buckets_snoc, <- IH. do 3 f_equal. apply HP in Ht.
    destruct (buckets b ts !! (t / b)) as [n|] eqn:E; [rewrite (proj2 (map_lookup_filter_Some _ _ _ _)) by done; done|].
    by rewrite (proj2 (map_lookup_filter_None _ _ _)) by (by left).
  - rewrite decide_False by (cbn; rewrite <- HP; done). rewrite app_nil_r, <- IH, map_filter_delete. apply delete_id.
    apply map_lookup_filter_None. right. intros n _ Hn. by apply Ht, HP.
Qed.

Lemma bucket_ms_pos w : 1000 ≤ bucket_ms w.
Proof. unfold bucket_ms. lia. Qed.

Lemma lowest_mono w idx idx' : idx ≤ idx' → lowest_bucket w idx ≤ lowest_bucket w idx'.
Proof. unfold lowest_bucket. lia. Qed.

(** The counter after reports at the given times, and the count of the last one. *)
Definition count_history (w : Z) (ts : list Z) : Z * gmap Z Z := foldl (λ s t, count_bucket t w s.2) (0, ∅) ts.

Definition in_window (w t u : Z) : Prop := lowest_bucket w (t / bucket_ms w) ≤ u / bucket_ms w.
#[export] Instance in_window_dec w t u : Decision (in_window w t u).
Proof. unfold in_window. apply _. Defined.

Lemma count_history_spec w ts t :
  StronglySorted Z.le (ts ++ [t]) →
  count_history w (ts ++ [t]) =
    (Z.of_nat (length (filter (in_window w t) (ts ++ [t]))), buckets (bucket_ms w) (filter (in_window w t) (ts ++ [t]))).
Proof.
  revert t. induction ts as [|t' ts IH] using rev_ind; intros t Hs.
  - unfold count_history. cbn [app foldl snd]. unfold count_bucket. rewrite lookup_empty. cbn [default].
    change (<[t / bucket_ms w := 0 + 1]> ∅) with (buckets (bucket_ms w) [t]). rewrite (buckets_filter (in_window w t)) by done.
    change (map_fold _ 0 ?c) with (bucket_sum c). by rewrite buckets_sum.
  - assert (StronglySorted Z.le (ts ++ [t'])) as Hs' by (by apply StronglySorted_app_1_l in Hs).
    assert (t' ≤ t) as Ht.
    { eapply (StronglySorted_app_1_elem_of _ _ _ t' t Hs); [apply elem_of_app; right|]; apply list_elem_of_singleton; done. }
    unfold count_history. rewrite foldl_app. cbn [foldl]. change (foldl _ (0, ∅) (ts ++ [t'])) with (count_history w (ts ++ [t'])).
    rewrite IH by done. cbn [snd]. unfold count_bucket. rewrite <- buckets_snoc, (buckets_filter (in_window w t)) by done.
    change (map_fold _ 0 ?c) with (bucket_sum c). rewrite buckets_sum.
    assert (filter (in_window w t) (filter (in_window w t') (ts ++ [t']) ++ [t]) = filter (in_window w t) ((ts ++ [t']) ++ [t])) as E; [|by rewrite E].
    rewrite filter_app, list_filter_filter_l, <- filter_app; [done|]. intros u. unfold in_window. pose proof (bucket_ms_pos w).
    pose proof (lowest_mono w _ _ (Z.div_le_mono t' t (bucket_ms w) ltac:(lia) Ht)). lia.
Qed.

Lemma in_window_bounds w t u :
  0 < w → (t - w + bucket_ms w ≤ u → in_window w t u) ∧ (in_window w t u → t - w - bucket_ms w < u).
Proof.
  intros Hw. unfold in_window, lowest_bucket. pose proof (bucket_ms_pos w) as Hb. set (b := bucket_ms w) in *.
  pose proof (Z.div_mod t b ltac:(lia)) as Ht. pose proof (Z.mod_pos_bound t b ltac:(lia)).
  pose proof (Z.div_mod u b ltac:(lia)) as Hu. pose proof (Z.mod_pos_bound u b ltac:(lia)).
  pose proof (Z.div_mod (w + b - 1) b ltac:(lia)) as Hc. pose proof (Z.mod_pos_bound (w + b - 1) b ltac:(lia)).
  set (q := (w + b - 1) / b) in *. split; intros Hin.
  - assert (b * (t / b - q + 1) < b * (u / b) + b) by lia. nia.
  - assert (b * (t / b - q + 1) ≤ b * (u / b)) by nia. lia.
Qed.

(** ** What a report leaves alone *)

(** The fields of a proxy that the scheduler decides on, and its score fields. *)
Definition px_core (d : Proxy) : string * string * string * string * list string * Z * Z * Z * Z * string :=
  (px_st d, px_kd d, px_rg d, px_pv d, px_tg d, px_mc d, px_al d, px_cd d, px_gcd d, px_pid d).

(** Everything that decides who may be leased: lifecycle states, ready queues,
    availability, leases up to their report counts, proxies up to their scores. *)
Record report_frame (s s' : Site) : Prop := {
  rf_id : h_id (site_hot s') = h_id (site_hot s);
  rf_acc : h_acc (site_hot s') = h_acc (site_hot s);
  rf_rdy : h_rdy (site_hot s') = h_rdy (site_hot s);
  rf_pxrdy : h_pxrdy (site_hot s') = h_pxrdy (site_hot s);
  rf_lsexp : h_lsexp (site_hot s') = h_lsexp (site_hot s);
  rf_ls : ∀ lid, ∃ rc, h_ls (site_hot s') !! lid = with_rc rc <$> h_ls (site_hot s) !! lid;
  rf_px : px_core <$> h_px (site_hot s') = px_core <$> h_px (site_hot s);
  rf_hs : ∀ eg i, sp_hs_cd_ru (h_hs (site_hot s') !! (eg, i)) = sp_hs_cd_ru (h_hs (site_hot s) !! (eg, i));
  rf_life : m_idlife (s_mat s') = m_idlife (s_mat s) ∧ m_accsct (s_mat s') = m_accsct (s_mat s) ∧
    m_pxlife (s_mat s') = m_pxlife (s_mat s);
  rf_axr : s_axr s' = s_axr s;
}.

Lemma with_own_rc l : with_rc (ls_rc l) l = l.
Proof. by destruct l. Qed.
Lemma same_ls (h h' : Hot) : h_ls h' = h_ls h → ∀ lid, ∃ rc, h_ls h' !! lid = with_rc rc <$> h_ls h !! lid.
Proof.
  intros -> lid. destruct (h_ls h !! lid) as [l|] eqn:E; [|by exists 0]. exists (ls_rc l). cbn. by rewrite with_own_rc.
Qed.

#[export] Instance report_frame_preorder : PreOrder report_frame.
Proof.
  split; [intros s; split; try done; by apply same_ls|]. intros s1 s2 s3 [] []. split; try congruence.
  - intros lid. destruct (rf_ls0 lid) as [r1 E1], (rf_ls1 lid) as [r2 E2]. exists r2. rewrite E2, E1. by destruct (h_ls (site_hot s1) !! lid).
  - destruct rf_life0 as (? & ? & ?), rf_life1 as (? & ? & ?). split_and!; congruence.
Qed.

Section frames.
Context {lua : LuaMath}.
Variable args : ObsArgs.

Lemma count_lease_frame s :
  report_frame s (on_mat (on_hot (λ _, on_aeg (<[o_eg args := o_now args]>) (count_lease args (site_hot s)).2)) s).
Proof.
  assert (∀ h, (count_lease args h).2 = h ∨ ∃ l f, h_ls h !! o_lid args = Some l ∧
    (count_lease args h).2 = on_q f (on_ls (<[o_lid args := with_rc (ls_rc l + 1) l]>) h)) as H.
  { intros h. unfold count_lease. destruct (h_ls h !! o_lid args) as [l|] eqn:Hl; [|by left]. right. exists l.
    destruct (o_ident args) as [i|]; [destruct (_ && _)|]; eexists; (split; [done|]); [done|by instantiate (1 := id)|by instantiate (1 := id)]. }
  destruct (H (site_hot s)) as [E|(l & f & Hl & E)]; (split; try done); unfold site_hot in *; cbn [on_mat s_mat on_hot m_hot] in *; rewrite ?E; try done.
  - by apply same_ls.
  - intros lid. cbn. destruct (decide (o_lid args = lid)) as [<-|Hne].
    + exists (ls_rc l + 1). by rewrite lookup_insert_eq, Hl.
    + rewrite lookup_insert_ne by done. by apply same_ls.
Qed.

Lemma observe_hs_cd obs fail t : hs_cd (observe_hs args obs fail t).1 = hs_cd t ∧ hs_ru (observe_hs args obs fail t).1 = hs_ru t.
Proof. unfold observe_hs. by destruct (default _ (next_streak _ _ _ _)). Qed.

Lemma observe_proxy_frame p blame s : report_frame s (observe_proxy args p blame s).2.
Proof.
  unfold observe_proxy. destruct (h_px (site_hot s) !! p) as [d|] eqn:Hd; [|done]. destruct (default _ (next_streak _ _ _ _)) as [nf lf].
  destruct (_ || _); [|done]. destruct (bool_decide _); (split; try done; try by apply same_ls).
  cbn. apply map_eq. intros q. rewrite !lookup_fmap. destruct (decide (p = q)) as [<-|]; [|by rewrite lookup_insert_ne].
  rewrite lookup_insert_eq. by rewrite Hd.
Qed.

Lemma observe_identity_frame i d blame sup probe brk s : report_frame s (observe_identity args i d blame sup probe brk s).2.
Proof.
  unfold observe_identity. set (t0 := default _ (h_hs _ !! _)). pose proof (observe_hs_cd (identity_obs args blame) (identity_fail args blame) t0) as [Ecd Eru].
  destruct (observe_hs _ _ _ t0) as [t changed]. cbn [fst] in Ecd, Eru. set (s1 := if changed then _ else s).
  assert (report_frame s s1) as F1.
  { subst s1. destruct changed; [|done]. split; try done; [by apply same_ls|]. intros eg j. unfold site_hot. cbn.
    destruct (decide ((o_eg args, i) = (eg, j))) as [[= <- <-]|Hne]; [|by rewrite lookup_insert_ne].
    rewrite lookup_insert_eq. cbn. rewrite Ecd, Eru. subst t0. unfold site_hot. by destruct (h_hs _ !! _). }
  destruct (observe_global _ _ _ _ _) as [[[[g_nfail g_score] g_samples] g_changed] st].
  set (s2 := on_mat (on_stat _) s1). assert (report_frame s1 s2) as F2 by (split; try done; by apply same_ls).
  set (s3 := if g_changed then _ else s2). assert (report_frame s2 s3) as F3 by (subst s3; destruct g_changed; [|done]; split; try done; by apply same_ls).
  set (pr := match o_proxy args with Some p => _ | None => _ end).
  assert (report_frame s3 pr.2) as F4 by (subst pr; destruct (o_proxy args); [apply observe_proxy_frame|done]).
  destruct pr as [p_nfail s4]. destruct (count_all _ _ _ _ _ _) as [counts c]. cbn [snd] in *.
  etrans; [exact F1|]. etrans; [exact F2|]. etrans; [exact F3|]. etrans; [exact F4|]. split; try done; by apply same_ls.
Qed.
End frames.

Section whole.
Context {lua : LuaMath}.
Variable args : ObsArgs.

Lemma before_identity_frame s : report_frame s (before_identity args s).2.
Proof.
  unfold before_identity. pose proof (count_lease_frame args s) as F. destruct (count_lease args (site_hot s)) as [probe h]. cbn [snd] in F.
  set (s1 := on_mat (on_hot (λ _, on_aeg _ h)) s) in *. set (s2 := on_obs _ s1).
  assert (report_frame s1 s2) as F2 by (split; try done; by apply same_ls).
  set (s3 := if probe then _ else s2). assert (report_frame s2 s3) as F3 by (subst s3; destruct probe; [|done]; split; try done; by apply same_ls).
  destruct (cross_attribution args _) as [blame st]. cbn [snd]. etrans; [exact F|]. etrans; [exact F2|]. etrans; [exact F3|].
  split; try done; by apply same_ls.
Qed.

(** What the script does to the identity, when it is there and the report counts. *)
Lemma observe_full_cases s :
  let '(probe, b, blame, s1) := before_identity args s in
  let sup := Breaker.suppressed (o_now args) probe b in
  or_suppressed (observe_full args s).1 = sup ∧
  ((∃ i d, o_ident args = Some i ∧ h_id (site_hot s) !! i = Some d ∧ sup = false ∧ o_late args = false ∧
     observe_full args s = observe_identity args i d blame sup probe (Breaker.st b) s1) ∨
   (∀ i d, o_ident args = Some i → h_id (site_hot s) !! i = Some d → sup = false → o_late args = false → False) ∧
   (observe_full args s).2 = s1).
Proof.
  pose proof (before_identity_frame s) as F. unfold observe_full. destruct (before_identity args s) as [[[probe b] blame] s1].
  cbn [snd] in F. rewrite (rf_id _ _ F). cbv zeta.
  destruct (o_ident args) as [i|]; [|split; [done|by right]]. cbn [mbind option_bind].
  destruct (h_id (site_hot s) !! i) as [d|] eqn:Hd; [|split; [done|]; right; split; [|done]; intros ? ? [= <-]; congruence].
  destruct (Breaker.suppressed _ _ _) eqn:Hs; cbn [negb andb]; [split; [done|]; right; by split|].
  destruct (o_late args) eqn:Hl; cbn [negb andb]; [split; [done|]; right; by split|]. split; [|left; by exists i, d].
  unfold observe_identity. destruct (observe_hs _ _ _ _). destruct (observe_global _ _ _ _ _) as [[[[? ?] ?] ?] ?].
  destruct (match o_proxy args with Some p => _ | None => _ end). by destruct (count_all _ _ _ _ _ _).
Qed.

Lemma observe_full_frame s : report_frame s (observe_full args s).2.
Proof.
  pose proof (observe_full_cases s) as H. pose proof (before_identity_frame s) as F.
  destruct (before_identity args s) as [[[probe b] blame] s1]. cbn [snd] in F.
  destruct H as [_ [(i & d & _ & _ & _ & _ & ->)|[_ ->]]]; [|done]. etrans; [exact F|apply observe_identity_frame].
Qed.

(** Only the windows of the breaker and the checkpoints belong to the worker. *)
Lemma observe_proxy_ckpt p blame s : s_obs (observe_proxy args p blame s).2 = s_obs s.
Proof.
  unfold observe_proxy. destruct (h_px _ !! p); [|done]. destruct (default _ (next_streak _ _ _ _)). destruct (_ || _); [|done].
  by destruct (bool_decide _).
Qed.

(** Of what only reports keep, a report changes the breaker window. *)
Lemma observe_full_obs s : s_obs (observe_full args s).2 = count_window args (s_obs s).
Proof.
  pose proof (observe_full_cases s) as H. assert (s_obs (before_identity args s).2 = count_window args (s_obs s)) as E.
  { unfold before_identity. destruct (count_lease args (site_hot s)) as [probe h]. destruct (cross_attribution args _) as [blame st].
    by destruct probe. }
  destruct (before_identity args s) as [[[probe b] blame] s1]. cbn [snd] in E. rewrite <- E.
  destruct H as [_ [(i & d & _ & _ & _ & _ & ->)|[_ ->]]]; [|done]. unfold observe_identity. destruct (observe_hs _ _ _ _) as [t changed].
  destruct (observe_global _ _ _ _ _) as [[[[g_nfail g_score] g_samples] g_changed] st]. set (s3 := if g_changed then _ else _).
  assert (s_obs s3 = s_obs s1) as E3 by (subst s3; by destruct g_changed, changed). clearbody s3.
  set (pr := match o_proxy args with Some p => _ | None => _ end).
  assert (s_obs pr.2 = s_obs s3) as E4 by (subst pr; destruct (o_proxy args); [apply observe_proxy_ckpt|done]).
  destruct pr as [p_nfail s4]. destruct (count_all _ _ _ _ _ _) as [counts c]. cbn [snd] in *. cbn. by rewrite E4, E3.
Qed.
Lemma observe_full_ckpt s : ob_ckpt (s_obs (observe_full args s).2) = ob_ckpt (s_obs s).
Proof. rewrite observe_full_obs. unfold count_window. by destruct (o_bucket args). Qed.
End whole.

Lemma observe_lua_frame {lua : LuaMath} shard sid full s : report_frame s (observe_lua shard sid full s).2.
Proof.
  unfold observe_lua. destruct (match ob_ckpt _ !! shard with Some _ => _ | None => _ end); [done|].
  set (s1 := on_obs _ s). assert (report_frame s s1) as F by (split; try done; by apply same_ls).
  destruct full as [args|]; [|done]. pose proof (observe_full_frame args s1) as F1.
  destruct (observe_full args s1) as [r s2]. by etrans.
Qed.

(** Leases up to their report counts are what the ledger needs. *)
Lemma report_frame_foreign s s' : report_frame s s' → foreign (ledger_of (site_hot s)) (ledger_of (site_hot s')).
Proof.
  intros []. split; cbn.
  - done.
  - intros lid l Hl. destruct (rf_ls0 lid) as [rc ->]. by rewrite Hl.
  - intros lid l' Hl. destruct (rf_ls0 lid) as [rc E]. rewrite E in Hl. apply fmap_Some in Hl as (l & Hl & _). by exists l.
  - intros i c Hc. left. by rewrite <- rf_id0.
  - intros p c Hc. left. rewrite <- Hc, !lookup_fmap. apply (f_equal (λ m, m !! p)) in rf_px0. rewrite !lookup_fmap in rf_px0.
    destruct (h_px (site_hot s') !! p), (h_px (site_hot s) !! p); try done. cbn in *. by injection rf_px0 as ? ? ? ? ? ? -> ? ? ?.
Qed.

(** ** Checkpoints *)

Definition delivery : Type := Z * (Z * Z) * option ObsArgs.
Definition deliver {lua : LuaMath} (s : Site) (d : delivery) : Site := let '(shard, sid, full) := d in (observe_lua shard sid full s).2.

Section checkpoints.
Context {lua : LuaMath}.

(** The last applied id of a shard only grows. *)
Definition ckpt_past (s : Site) (shard : Z) (sid : Z * Z) : Prop :=
  ∃ last, ob_ckpt (s_obs s) !! shard = Some last ∧ stream_id last ∧ sid_le sid last.

Lemma observe_lua_ckpt shard sid full s :
  ob_ckpt (s_obs (observe_lua shard sid full s).2) =
    if match ob_ckpt (s_obs s) !! shard with Some prev => ob_dup prev sid | None => false end
    then ob_ckpt (s_obs s) else <[shard := sid]> (ob_ckpt (s_obs s)).
Proof.
  unfold observe_lua. destruct (match ob_ckpt _ !! shard with Some _ => _ | None => _ end); [done|].
  destruct full as [args|]; [|done]. set (s1 := on_obs _ s). pose proof (observe_full_ckpt args s1) as E.
  by destruct (observe_full args s1) as [r s2].
Qed.

Lemma sid_le_trans a b c : sid_le a b → sid_le b c → sid_le a c.
Proof. unfold sid_le. lia. Qed.
Lemma sid_le_total a b : ¬ sid_le a b → sid_le b a.
Proof. unfold sid_le. lia. Qed.

Lemma ckpt_past_deliver s shard sid d :
  ckpt_past s shard sid → stream_id d.1.2 → ckpt_past (deliver s d) shard sid.
Proof.
  intros (last & Hl & Hid & Hle) Hd. destruct d as [[sh id] full]. cbn [fst snd] in Hd. unfold deliver, ckpt_past. rewrite observe_lua_ckpt.
  destruct (decide (sh = shard)) as [->|Hne].
  - rewrite Hl, ob_dup_le by done. case_bool_decide as Hdup; [by exists last|]. exists id. rewrite lookup_insert_eq. split_and!; [done|done|].
    eapply sid_le_trans; [exact Hle|by apply sid_le_total].
  - exists last. split; [|done]. destruct (match ob_ckpt _ !! sh with Some _ => _ | None => _ end); [done|]. by rewrite lookup_insert_ne.
Qed.

Lemma ckpt_past_dup s shard sid full : ckpt_past s shard sid → stream_id sid → observe_lua shard sid full s = (obs_dup, s).
Proof.
  intros (last & Hl & Hid & Hle) Hs. unfold observe_lua. rewrite Hl, ob_dup_le by done. by rewrite bool_decide_eq_true_2.
Qed.
End checkpoints.

(** ** Counters of a report *)

(** The text after the last separator. *)
Lemma app_last_inj (c : ascii) (a b x y : bytes) : c ∉ x → c ∉ y → a ++ c :: x = b ++ c :: y → a = b ∧ x = y.
Proof.
  intros Hx Hy. revert b. induction a as [|d a IH]; intros [|e b]; cbn; intros E.
  - by injection E.
  - injection E as <- ->. rewrite elem_of_app, elem_of_cons in Hx. tauto.
  - injection E as -> <-. rewrite elem_of_app, elem_of_cons in Hy. tauto.
  - injection E as E1 E2. destruct (IH b E2) as [-> ->]. by subst.
Qed.

Lemma FormatInt_no_colon n : numeral n → ":"%char ∉ FormatInt n.
Proof.
  intros Hn H. destruct (format_digits_spec 20 n Hn) as [D _]. unfold all_digits in D. rewrite Forall_forall in D.
  by apply D in H.
Qed.

(** A counter has one window. *)
Lemma counter_key_window args subj1 w1 subj2 w2 :
  numeral w1 → numeral w2 → counter_key args subj1 w1 = counter_key args subj2 w2 → w1 = w2.
Proof.
  intros H1 H2 E%(f_equal bs). unfold counter_key in E. rewrite !bs_app, !bs_str, !app_assoc in E.
  change (bs ":") with [":"%char] in E. rewrite <- !(app_assoc _ [":"%char] (FormatInt _)) in E. cbn [app] in E.
  apply (app_last_inj ":"%char) in E as [_ E]; [by apply FormatInt_inj in E|by apply FormatInt_no_colon..].
Qed.

Section counters.
Variables (args : ObsArgs) (i : Z) (account : option Z).

(** The counter that a request asks for. *)
Definition request_key (r : CountSubject * Z) : option string :=
  if r.2 <=? 0 then None else (λ subj, counter_key args subj r.2) <$> counter_subject args i account r.1.

Lemma request_key_inv r key :
  request_key r = Some key → ∃ subj, counter_subject args i account r.1 = Some subj ∧ (r.2 <=? 0) = false ∧ key = counter_key args subj r.2.
Proof. unfold request_key. destruct (r.2 <=? 0); [done|]. destruct (counter_subject _ _ _ _) as [subj|]; [|done]. cbn. intros [= <-]. eauto. Qed.

Lemma count_all_cons k w reqs counted c :
  count_all args i account ((k, w) :: reqs) counted c =
    let '(n, counted, c) :=
      match request_key (k, w) with
      | Some key =>
          match counted !! key with
          | Some n => (n, counted, c)
          | None => let '(n, b) := count_bucket (o_now args) w (default ∅ (c !! key)) in (n, <[key := n]> counted, <[key := b]> c)
          end
      | None => (0, counted, c)
      end in
    let '(ns, c) := count_all args i account reqs counted c in (n :: ns, c).
Proof. cbn [count_all]. unfold request_key. cbn [fst snd]. destruct (counter_subject args i account k); [|by destruct (w <=? 0)]. by destruct (w <=? 0). Qed.

(** A counter that was counted stays, and its count is the answer of every
    request of it. *)
Lemma count_all_counted reqs counted c key n :
  counted !! key = Some n →
  (count_all args i account reqs counted c).2 !! key = c !! key ∧
  ∀ j r, reqs !! j = Some r → request_key r = Some key → (count_all args i account reqs counted c).1 !! j = Some n.
Proof.
  revert counted c. induction reqs as [|[k w] reqs IH]; intros counted c Hn; [done|]. rewrite count_all_cons.
  destruct (request_key (k, w)) as [key'|] eqn:Hk.
  - destruct (counted !! key') as [n'|] eqn:Hn'.
    + destruct (IH counted c Hn) as [H1 H2]. destruct (count_all _ _ _ reqs _ _) as [ns c']. split; [done|].
      intros [|j] r Hj Hr; [|by eapply H2]. cbn in Hj. injection Hj as <-. cbn. congruence.
    + assert (key' ≠ key) as Hne by congruence. destruct (count_bucket _ _ _) as [n' b]. destruct (IH (<[key' := n']> counted) (<[key' := b]> c)) as [H1 H2]; [by rewrite lookup_insert_ne|].
      destruct (count_all _ _ _ reqs _ _) as [ns c']. cbn [fst snd] in *. rewrite lookup_insert_ne in H1 by done. split; [done|].
      intros [|j] r Hj Hr; [|by eapply H2]. cbn in Hj. injection Hj as <-. congruence.
  - destruct (IH counted c Hn) as [H1 H2]. destruct (count_all _ _ _ reqs _ _) as [ns c']. split; [done|].
    intros [|j] r Hj Hr; [|by eapply H2]. cbn in Hj. injection Hj as <-. congruence.
Qed.

Lemma count_all_fresh reqs counted c key w j r :
  Forall (λ r, numeral r.2 ∨ r.2 ≤ 0) reqs → counted !! key = None →
  reqs !! j = Some r → request_key r = Some key → r.2 = w →
  let out := count_all args i account reqs counted c in
  let '(n, b) := count_bucket (o_now args) w (default ∅ (c !! key)) in out.1 !! j = Some n ∧ out.2 !! key = Some b.
Proof.
  intros Hw Hn Hj Hr Hw'. revert counted c j Hn Hj. induction Hw as [|[k' w'] reqs Hw1 Hw IH]; intros counted c j Hn Hj; cbv zeta; [done|].
  rewrite count_all_cons. destruct (request_key (k', w')) as [key'|] eqn:Hk; [|destruct j as [|j]; [cbn in Hj; congruence|]].
  - destruct (decide (key' = key)) as [->|Hne].
    + assert (w' = w) as ->.
      { apply request_key_inv in Hk as (s1 & _ & Hp1 & E1), Hr as (s2 & _ & Hp2 & E2). cbn [fst snd] in *. rewrite Z.leb_gt in Hp1, Hp2.
        assert (numeral r.2) as Hr2. { apply list_elem_of_lookup_2 in Hj. apply elem_of_cons in Hj as [->|Hin]; [cbn in *; destruct Hw1; [done|lia]|].
          rewrite Forall_forall in Hw. destruct (Hw _ Hin); [done|lia]. }
        rewrite Hw' in *. eapply (counter_key_window args s1 w' s2 w); [destruct Hw1; [done|lia]|done|congruence]. }
      rewrite Hn. destruct (count_bucket _ w _) as [n b].
      destruct (count_all_counted reqs (<[key := n]> counted) (<[key := b]> c) key n) as [H1 H2]; [by rewrite lookup_insert_eq|].
      destruct (count_all _ _ _ reqs _ _) as [ns c']. cbn [fst snd] in *. rewrite H1, lookup_insert_eq. split; [|done].
      destruct j as [|j]; [done|]. by apply (H2 j r).
    + destruct j as [|j]; [cbn in Hj; congruence|]. destruct (counted !! key') as [n'|].
      * specialize (IH counted c j Hn Hj). destruct (count_bucket _ w _) as [n b]. by destruct (count_all _ _ _ reqs _ _).
      * destruct (count_bucket _ w' _) as [n' b']. specialize (IH (<[key' := n']> counted) (<[key' := b']> c) j).
        rewrite !lookup_insert_ne in IH by done. specialize (IH Hn Hj). destruct (count_bucket _ w _) as [n b]. by destruct (count_all _ _ _ reqs _ _).
  - specialize (IH counted c j Hn Hj). destruct (count_bucket _ w _) as [n b]. by destruct (count_all _ _ _ reqs _ _).
Qed.
End counters.

(** ** Claims *)

Section claims.
Context {lua : LuaMath}.

(** Scores, streaks, counters and dirty marks. *)
Definition statistics (s : Site) :=
  (h_hs (site_hot s), h_px (site_hot s), h_dirty (site_hot s), st_score (m_stat (s_mat s)), st_streak (m_stat (s_mat s)),
   st_px (m_stat (s_mat s)), s_cnt s, s_pdirty s).

Lemma before_identity_statistics args s : statistics (before_identity args s).2 = statistics s.
Proof.
  unfold before_identity. destruct (count_lease args (site_hot s)) as [probe h] eqn:E.
  assert (h_hs h = h_hs (site_hot s) ∧ h_px h = h_px (site_hot s) ∧ h_dirty h = h_dirty (site_hot s)) as (E1 & E2 & E3).
  { unfold count_lease in E. destruct (h_ls (site_hot s) !! o_lid args); [|by simplify_eq]. destruct (o_ident args); [destruct (_ && _)|]; by simplify_eq. }
  set (s3 := if probe then _ else _). assert (statistics s3 = statistics s) as E4.
  { subst s3. destruct probe; unfold statistics, site_hot in *; cbn; by rewrite E1, E2, E3. }
  clearbody s3. unfold cross_attribution. destruct (o_proxy args); [|exact E4]. destruct (o_ident args); [|exact E4]. by destruct (_ && _).
Qed.

(** A report never changes who may be leased: lifecycle states, ready queues,
    cooldowns, accounts and recorded results stay, leases keep everything but their
    report count and proxies everything but their score.  A report that arrives
    while the breaker is open, or late, also leaves every score, failure streak,
    counter and dirty mark. *)
Theorem observe_scope shard sid args s r s' :
  observe_lua shard sid (Some args) s = (obs_ok r, s') →
  report_frame s s' ∧ (or_suppressed r = true ∨ o_late args = true → statistics s' = statistics s).
Proof.
  intros H. split; [pose proof (observe_lua_frame shard sid (Some args) s) as F; by rewrite H in F|]. intros Hp. unfold observe_lua in H.
  destruct (match ob_ckpt _ !! shard with Some _ => _ | None => _ end); [done|]. set (s1 := on_obs _ s) in H.
  pose proof (observe_full_cases args s1) as C. pose proof (before_identity_statistics args s1) as E.
  destruct (observe_full args s1) as [r' s2]. injection H as -> ->. destruct (before_identity args s1) as [[[probe b] blame] s3].
  cbn [fst snd] in *. destruct C as [C1 [(i & d & _ & _ & C2 & C3 & _)|[_ ->]]]; [|exact E]. destruct Hp; congruence.
Qed.

(** A stream entry is applied once: after it was handed to the script, it and
    every earlier entry of the shard is answered as a duplicate without a write,
    whatever other entries of any shard were handed over in between. *)
Theorem observe_once shard sid full s (ds : list delivery) sid' full' :
  stream_id sid → (∀ last, ob_ckpt (s_obs s) !! shard = Some last → stream_id last) → Forall (λ d : delivery, stream_id d.1.2) ds →
  stream_id sid' → sid_le sid' sid →
  let s' := foldl deliver (observe_lua shard sid full s).2 ds in observe_lua shard sid' full' s' = (obs_dup, s').
Proof.
  intros Hsid Hck Hds Hsid' Hle s'. apply ckpt_past_dup; [|done]. subst s'.
  assert (ckpt_past (observe_lua shard sid full s).2 shard sid') as H.
  { unfold ckpt_past. rewrite observe_lua_ckpt. destruct (ob_ckpt (s_obs s) !! shard) as [prev|] eqn:Hp; [rewrite ob_dup_le by eauto; case_bool_decide|].
    - exists prev. split_and!; [done|by apply Hck|by eapply sid_le_trans].
    - exists sid. by rewrite lookup_insert_eq.
    - exists sid. by rewrite lookup_insert_eq. }
  clear Hck Hle. generalize dependent (observe_lua shard sid full s).2. induction Hds as [|d ds Hd Hds IH]; intros s1 H; [done|].
  cbn [foldl]. apply IH. by apply ckpt_past_deliver.
Qed.

Lemma observe_identity_counts args i d blame sup probe brk s :
  let out := observe_identity args i d blame sup probe brk s in
  (or_counts out.1, s_cnt out.2) = count_all args i (id_acc d) (o_counts args) ∅ (s_cnt s).
Proof.
  unfold observe_identity. destruct (observe_hs _ _ _ _) as [t changed]. set (s1 := if changed then _ else s).
  assert (s_cnt s1 = s_cnt s) as E1 by (subst s1; by destruct changed).
  destruct (observe_global _ _ _ _ _) as [[[[g_nfail g_score] g_samples] g_changed] st]. set (s3 := if g_changed then _ else _).
  assert (s_cnt s3 = s_cnt s) as E3 by (subst s3; by destruct g_changed). clearbody s3.
  set (pr := match o_proxy args with Some p => _ | None => _ end). assert (s_cnt pr.2 = s_cnt s3) as E4.
  { subst pr. destruct (o_proxy args); [|done]. unfold observe_proxy. destruct (h_px _ !! _); [|done].
    destruct (default _ (next_streak _ _ _ _)). destruct (_ || _); [|done]. by destruct (bool_decide _). }
  destruct pr as [p_nfail s4]. cbn [snd] in E4. rewrite E4, E3. by destruct (count_all _ _ _ _ _ _).
Qed.

(** The count of a report is the number of reports of its outcome in the window.
    Where a counter holds the reports at the times [ts], an enforced report adds
    its own, answers with the number of those whose bucket is in the window, and
    these are all reports of the last [w] milliseconds less one bucket and none
    older than the window and one bucket. *)
Theorem sliding_count shard sid args s r s' i d j k w key ts :
  observe_lua shard sid (Some args) s = (obs_ok r, s') → or_suppressed r = false → o_late args = false →
  o_ident args = Some i → h_id (site_hot s) !! i = Some d →
  Forall (λ r, numeral r.2 ∨ r.2 ≤ 0) (o_counts args) → o_counts args !! j = Some (k, w) →
  request_key args i (id_acc d) (k, w) = Some key →
  StronglySorted Z.le (ts ++ [o_now args]) → default ∅ (s_cnt s !! key) = (count_history w ts).2 →
  let counted := filter (in_window w (o_now args)) (ts ++ [o_now args]) in
  or_counts r !! j = Some (Z.of_nat (length counted)) ∧
  s_cnt s' !! key = Some (count_history w (ts ++ [o_now args])).2 ∧
  ∀ u, u ∈ ts ++ [o_now args] →
    (o_now args - w + bucket_ms w ≤ u → u ∈ counted) ∧ (u ∈ counted → o_now args - w - bucket_ms w < u).
Proof.
  intros H Hsup Hlate Hi Hd Hw Hj Hk Hts Hc counted. unfold observe_lua in H.
  destruct (match ob_ckpt _ !! shard with Some _ => _ | None => _ end); [done|]. set (s1 := on_obs _ s) in H.
  pose proof (observe_full_cases args s1) as C. pose proof (before_identity_statistics args s1) as E.
  destruct (observe_full args s1) as [r' s2]. injection H as -> ->. destruct (before_identity args s1) as [[[probe b] blame] s3].
  cbn [fst snd] in *. destruct C as [C1 [(i' & d' & Hi' & Hd' & _ & _ & Ho)|[C _]]]; [|exfalso; by eapply C; eauto; congruence].
  assert (i' = i) as -> by congruence. change (site_hot s1) with (site_hot s) in Hd'. assert (d' = d) as -> by congruence.
  pose proof (observe_identity_counts args i d blame (Breaker.suppressed (o_now args) probe b) probe (Breaker.st b) s3) as Hoc.
  cbv zeta in Hoc. rewrite <- Ho in Hoc. cbn [fst snd] in Hoc. assert (s_cnt s3 = s_cnt s) as E3 by by injection E.
  pose proof (count_all_fresh args i (id_acc d) (o_counts args) ∅ (s_cnt s) key w j (k, w) Hw (lookup_empty _) Hj Hk eq_refl) as Hf.
  cbv zeta in Hf. rewrite E3 in Hoc. rewrite <- Hoc in Hf. rewrite Hc in Hf. cbn [fst snd] in Hf.
  pose proof (count_history_spec w ts (o_now args) Hts) as Hh. unfold count_history in Hh at 1. rewrite foldl_app in Hh. cbn [foldl] in Hh.
  change (foldl _ (0, ∅) ts) with (count_history w ts) in Hh. rewrite Hh in Hf. destruct Hf as [F1 F2].
  split_and!; [exact F1| |].
  - rewrite F2, (count_history_spec w ts _ Hts). done.
  - intros u Hu. subst counted. rewrite list_elem_of_filter. pose proof (in_window_bounds w (o_now args) u) as B.
    apply request_key_inv in Hk as (_ & _ & Hpos & _). cbn in Hpos. rewrite Z.leb_gt in Hpos. specialize (B Hpos). tauto.
Qed.
End claims.

(** ** Runs *)

#[local] Existing Instance flat_math.

(** A captcha on a lease of identity 10 that is gone. *)
Definition demo_report (now : Z) (outcome : string) : ObsArgs :=
  {| o_now := now; o_lid := "lse_a"; o_eg := 1; o_ident := Some 10; o_proxy := None; o_outcome := outcome; o_blame := BlameIdentity;
     o_late := false; o_obs_identity := Some f_zero; o_obs_proxy := None; o_failure := true; o_risk := true;
     o_alpha := f_const 1 10; o_baseline := f_of_Z 70; o_tau := 0; o_reset_after := 600000; o_bucket := Some (1, now / 5000);
     o_xa_on := false; o_xa_window := 0; o_xa_pi := 0; o_xa_ip := 0; o_quotas := []; o_counts := [(count_identity, 60000)]; o_bans := [] |}.

Definition reply_of (r : ObsResult) : option ObsReply := match r with obs_ok r => Some r | _ => None end.
Lemma reply_of_ok (out : ObsResult * Site) r : reply_of out.1 = Some r → out = (obs_ok r, out.2).
Proof. destruct out as [[| |r'] s]; try done. by intros [= ->]. Qed.

Lemma observe_scope_witness :
  ∃ r, reply_of (observe_lua 0 (100, 0) (Some (demo_report 5000 "captcha")) demo_run).1 = Some r ∧ or_e_nfail r = 1 ∧
    report_frame demo_run (observe_lua 0 (100, 0) (Some (demo_report 5000 "captcha")) demo_run).2.
Proof.
  eexists. split; [vm_compute; reflexivity|]. split; [reflexivity|].
  eapply (observe_scope 0 (100, 0) (demo_report 5000 "captcha") demo_run). apply reply_of_ok. vm_compute. reflexivity.
Defined.

Lemma observe_once_witness :
  let s := foldl deliver (observe_lua 0 (100, 0) (Some (demo_report 5000 "captcha")) demo_run).2 [(0, (100, 1), None); (1, (7, 0), None)] in
  observe_lua 0 (99, 5) (Some (demo_report 6000 "captcha")) s = (obs_dup, s).
Proof.
  apply (observe_once 0 (100, 0) (Some (demo_report 5000 "captcha")) demo_run [(0, (100, 1), None); (1, (7, 0), None)]).
  - split; split; vm_compute; congruence.
  - intros last H. discriminate H.
  - repeat constructor; vm_compute; congruence.
  - split; split; vm_compute; congruence.
  - left. vm_compute. reflexivity.
Defined.

Lemma sliding_count_witness :
  let s := (observe_lua 0 (100, 0) (Some (demo_report 5000 "captcha")) demo_run).2 in
  ∃ r, reply_of (observe_lua 0 (101, 0) (Some (demo_report 6000 "captcha")) s).1 = Some r ∧ or_counts r !! 0%nat = Some 2.
Proof.
  intros s. eexists. split; [vm_compute; reflexivity|].
  eapply (sliding_count 0 (101, 0) (demo_report 6000 "captcha") s _ _ 10 (demo_identity "id-10") 0 count_identity 60000 "cnt:i10:captcha:60000" [5000]).
  - apply reply_of_ok. vm_compute. reflexivity.
  - reflexivity.
  - reflexivity.
  - reflexivity.
  - vm_compute. reflexivity.
  - repeat constructor; vm_compute; congruence.
  - reflexivity.
  - vm_compute. reflexivity.
  - repeat constructor; vm_compute; congruence.
  - vm_compute. reflexivity.
Defined.
