(* ===== verification/SiteScripts.v ===== *)
(** * The smaller scripts that write the hot state of a site

    lease_retain.lua (internal/signal), cooldown.lua, health.lua and reset.lua
    (internal/proxy) and revert.lua (internal/breaker).  The theorem on
    revert.lua shows that it gives back exactly the recorded cooldowns; the
    frames of the others are used for the runs of a site. *)

From S2P Require Import Prelude GoStrings GoFloat PolicyBase GoTime LuaCommon PolicyRotation PolicyResolve Breaker.
From S2P Require Import SchedState SchedSelect SchedAcquire SchedLease SchedLedger SchedRefine SchedGrant SchedLoop SchedRun Scheduler HotSync ActionApply WorkerObserve.

Local Open Scope Z_scope.

(** ** lease_retain.lua *)

(** [n] more reports of the lease; timely ones keep the hash readable.  The TTL of
    an ended hash, which PEXPIRE raises, is not part of the model. *)
Definition retained (now retain late n : Z) (l : Lease) : Lease :=
  let timely := bool_decide (ls_st l = LeaseActive) ||
                (ended_ms l <=? 0) || (now - ended_ms l <=? late) in
  with_retention (ls_rv l + n) (if timely then Z.max (ls_kx l) (now + retain) else ls_kx l) l.

Definition lease_retain_one (ns : string) (now retain late : Z) (s : list string * Hot) (k : string * Z) : list string * Hot :=
  let '(out, h) := s in
  match h_ls h !! k.1 with
  | None => (out ++ [""], h)
  | Some l =>
      (out ++ [ls_ns l],
       if String.eqb (ls_ns l) ns then on_ls (<[k.1 := retained now retain late k.2 l]>) h else h)
  end.
Definition lease_retain_lua (ns : string) (now retain late : Z) (reports : list (string * Z)) (h : Hot) : list string * Hot :=
  foldl (lease_retain_one ns now retain late) ([], h) reports.

(** ** Proxy scripts *)

(** cooldown.lua on a proxy that is materialised; [None] when it is not, where the
    script leaves a hash without "st". *)
Definition proxy_cooldown_lua (p : Z) (global : bool) (until : Z) (pid : string) (s : Site) : option (Z * Site) :=
  d ← h_px (site_hot s) !! p;
  let cd := if global then px_cd d else until in
  let gcd := if global then until else px_gcd d in
  let d' := {| px_st := px_st d; px_kd := px_kd d; px_rg := px_rg d; px_pv := px_pv d; px_tg := px_tg d; px_mc := px_mc d;
               px_al := px_al d; px_sc := px_sc d; px_sts := px_sts d; px_cd := cd; px_gcd := gcd; px_pid := pid |} in
  let avail := Z.max cd gcd in
  let h := on_px (<[p := d']>) (site_hot s) in
  let h := match h_pxrdy h !! p with
           | Some score =>
               if (avail >? 0) && ((avail >? score) || ((avail <? score) && (px_al d <? px_mc d)))
               then on_pxrdy (zadd_xx p avail) h else h
           | None => h
           end in
  Some (avail, dirty_px p (on_mat (on_hot (λ _, h)) s)).

(** health.lua: the observation of a health check. *)
Definition sp_ewma (score obs alpha : float64) : float64 :=
  let alpha := if f_ltb alpha f_zero then f_zero else if f_ltb (f_of_Z 1) alpha then f_of_Z 1 else alpha in
  f_add (f_mul alpha obs) (f_mul (f_sub (f_of_Z 1) alpha) score).

Definition proxy_health_lua {lua : LuaMath} (p : Z) (obs : float64) (now : Z) (alpha baseline : float64) (tau reset_after : Z)
    (ok : bool) (s : Site) : option float64 * Site :=
  match h_px (site_hot s) !! p with
  | None => (None, s)
  | Some d =>
      let c := default {| ps_sn := 0; ps_nf := 0; ps_lf := 0 |} (st_px (m_stat (s_mat s)) !! p) in
      let score := sp_decay (default baseline (px_sc d)) (default now (px_sts d)) now baseline tau in
      let sc := two_decimals (sp_ewma score obs alpha) in
      let nf := if ok then ps_nf c / 2 else (if (reset_after >? 0) && (now - ps_lf c >? reset_after) then 0 else ps_nf c) + 1 in
      let c' := {| ps_sn := ps_sn c + 1; ps_nf := nf; ps_lf := if ok then ps_lf c else now |} in
      (Some sc,
       dirty_px p (on_mat (λ m, on_stat (on_pxstat (<[p := c']>)) (on_hot (on_px (<[p := with_px_score sc now d]>)) m)) s))
  end.

Definition without_px_score (d : Proxy) : Proxy :=
  {| px_st := px_st d; px_kd := px_kd d; px_rg := px_rg d; px_pv := px_pv d; px_tg := px_tg d; px_mc := px_mc d;
     px_al := px_al d; px_sc := None; px_sts := None; px_cd := px_cd d; px_gcd := px_gcd d; px_pid := px_pid d |}.
Definition proxy_reset_lua (p : Z) (s : Site) : bool * Site :=
  match h_px (site_hot s) !! p with
  | None => (false, s)
  | Some d => (true, dirty_px p (on_mat (λ m, on_stat (on_pxstat (delete p)) (on_hot (on_px (<[p := without_px_score d]>)) m)) s))
  end.

(** ** revert.lua *)

#[export] Instance cooldown_member : Member (Z * Z * Z) :=
  {| member_bytes := λ '(i, cd, nf), FormatInt i ++ "|"%char :: FormatInt cd ++ "|"%char :: FormatInt nf |}.
#[export] Instance site_cooldown_member : Member (Z * Z) := {| member_bytes := λ '(i, cd), FormatInt i ++ "|"%char :: FormatInt cd |}.

(** [ZRANGEBYSCORE z min +inf LIMIT 0 n] *)
Definition zrange_since {K} `{Countable K} `{!Member K} (z : zset K) (min : Z) (n : nat) : list K :=
  take n (filter (λ kv, min ≤ kv.2) (zrange_withscores z)).*1.

Definition touch (i : Z) (touched : list Z) : list Z := if bool_decide (i ∈ touched) then touched else touched ++ [i].

(** Back to the values before the cooldown, where they are higher now. *)
Definition reverted_hs (prev_cd prev_nfail : Z) (t : Hs) : Hs :=
  {| hs_score := hs_score t; hs_sts := hs_sts t; hs_samples := hs_samples t; hs_nfail := Z.min (hs_nfail t) prev_nfail;
     hs_lastfail := hs_lastfail t; hs_cd := Z.min (hs_cd t) prev_cd; hs_ru := hs_ru t; hs_lu := hs_lu t |}.

Definition revert_endpoint_one (eg : Z) (s : list Z * Hot) (e : Z * Z * Z) : list Z * Hot :=
  let '(touched, h) := s in
  let '(i, prev_cd, prev_nfail) := e in
  match h_hs h !! (eg, i) with
  | Some t =>
      if (hs_cd t >? prev_cd) || (hs_nfail t >? prev_nfail)
      then (touch i touched, on_hs (<[(eg, i) := sp_hs_pack (reverted_hs prev_cd prev_nfail t)]>) h)
      else s
  | None => s
  end.

Definition revert_endpoint (eg now window : Z) (limit : nat) (m : Mat) : nat * Mat :=
  let rcd := default ∅ (m_rcd m !! eg) in
  let members := zrange_since rcd (now - window) limit in
  let '(touched, h) := foldl (revert_endpoint_one eg) ([], m_hot m) members in
  let h := foldl (λ h i, mark_dirty {[(Some eg, i)]} (sp_rescore i h eg)) h touched in
  (length touched, on_rcd (<[eg := filter (λ kv, kv.1 ∉ members) rcd]>) (on_hot (λ _, h) m)).

Definition revert_site_one (s : list Z * Hot) (e : Z * Z) : list Z * Hot :=
  let '(touched, h) := s in
  match h_id h !! e.1 with
  | Some d => if id_scd d >? e.2 then (touch e.1 touched, on_id (<[e.1 := with_scd e.2 d]>) h) else s
  | None => s
  end.

Definition revert_site (now window : Z) (limit : nat) (egs : list Z) (s : Site) : nat * Site :=
  let members := zrange_since (s_rcds s) (now - window) limit in
  let '(touched, h) := foldl revert_site_one ([], site_hot s) members in
  let h := foldl (λ h i, mark_dirty {[(None, i)]} (foldl (sp_rescore i) h egs)) h touched in
  (length touched, on_rcds (filter (λ kv, kv.1 ∉ members)) (on_mat (on_hot (λ _, h)) s)).

(** [all] adds the site cooldowns. *)
Definition revert_lua (eg now window : Z) (all : bool) (limit : Z) (egs : list Z) (s : Site) : nat * nat * Site :=
  let limit := Z.to_nat (Z.max limit 1) in
  let '(n, m) := revert_endpoint eg now window limit (s_mat s) in
  let s := on_mat (λ _, m) s in
  if all then let '(k, s) := revert_site now window limit egs s in (n, k, s) else (n, 0%nat, s).

(** ** What revert.lua gives back *)

Definition cd_nfail (t : Hs) : Z * Z := (hs_cd t, hs_nfail t).
(** The lowest cooldown and streak that the entries of the identity hold. *)
Definition lowest (i : Z) (es : list (Z * Z * Z)) (cn : Z * Z) : Z * Z :=
  foldl (λ cn e, if decide (e.1.1 = i) then (Z.min cn.1 e.1.2, Z.min cn.2 e.2) else cn) cn es.

Lemma lowest_cons i e es cn :
  lowest i (e :: es) cn = lowest i es (if decide (e.1.1 = i) then (Z.min cn.1 e.1.2, Z.min cn.2 e.2) else cn).
Proof. done. Qed.

Lemma lowest_le i es cn : (lowest i es cn).1 ≤ cn.1 ∧ (lowest i es cn).2 ≤ cn.2.
Proof.
  revert cn. induction es as [|e es IH]; intros cn; [cbn; lia|]. rewrite lowest_cons.
  destruct (decide _); [|apply IH]. destruct (IH (Z.min cn.1 e.1.2, Z.min cn.2 e.2)). cbn [fst snd] in *. lia.
Qed.

Lemma lowest_spec i es cn pc pn :
  (i, pc, pn) ∈ es → (lowest i es cn).1 ≤ pc ∧ (lowest i es cn).2 ≤ pn.
Proof.
  revert cn. induction es as [|e es IH]; intros cn H; [by apply not_elem_of_nil in H|]. rewrite lowest_cons.
  apply elem_of_cons in H as [<-|H]; [|by apply IH]. rewrite decide_True by done. cbn [fst snd].
  destruct (lowest_le i es (Z.min cn.1 pc, Z.min cn.2 pn)). cbn [fst snd] in *. lia.
Qed.

Lemma lowest_from i es cn : (lowest i es cn).1 = cn.1 ∨ ∃ pn, (i, (lowest i es cn).1, pn) ∈ es.
Proof.
  revert cn. induction es as [|e es IH]; intros cn; [by left|]. rewrite lowest_cons.
  destruct (decide (e.1.1 = i)) as [Hi|]; [|destruct (IH cn) as [H|(pn & H)]; [by left|right; exists pn; by apply list_elem_of_further]].
  destruct (IH (Z.min cn.1 e.1.2, Z.min cn.2 e.2)) as [H|(pn & H)]; [|right; exists pn; by apply list_elem_of_further].
  rewrite H. cbn [fst]. destruct (Z.min_spec cn.1 e.1.2) as [[_ ->]|[_ ->]]; [by left|]. right. exists e.2. destruct e as [[i' pc] pn]. cbn in *. subst.
  apply list_elem_of_here.
Qed.

Lemma revert_endpoint_fold eg es touched h :
  let r := foldl (revert_endpoint_one eg) (touched, h) es in
  (∀ g i, cd_nfail <$> h_hs r.2 !! (g, i) =
    (λ t, if decide (g = eg) then lowest i es (cd_nfail t) else cd_nfail t) <$> h_hs h !! (g, i)) ∧
  (∃ f, r.2 = on_hs f h) ∧
  (∀ i, i ∈ touched ∨ cd_of r.2 eg i ≠ cd_of h eg i → i ∈ r.1).
Proof.
  revert touched h. induction es as [|[[i pc] pn] es IH]; intros touched h; cbv zeta.
  - cbn. split_and!; [|by exists id; destruct h|intros i [H|H]; done]. intros g i. destruct (h_hs h !! (g, i)); [|done]. cbn. by destruct (decide _).
  - cbn [foldl]. destruct (revert_endpoint_one eg (touched, h) (i, pc, pn)) as [t1 h1] eqn:E. specialize (IH t1 h1). cbv zeta in IH.
    destruct (foldl (revert_endpoint_one eg) (t1, h1) es) as [t2 h2]. cbn [fst snd] in *. destruct IH as (H1 & [f2 H2] & H3).
    assert ((∃ f, h1 = on_hs f h) ∧ (∀ g j, cd_nfail <$> h_hs h1 !! (g, j) =
      (λ t, if decide (g = eg) then lowest j [(i, pc, pn)] (cd_nfail t) else cd_nfail t) <$> h_hs h !! (g, j)) ∧
      (∀ j, j ∈ touched ∨ cd_of h1 eg j ≠ cd_of h eg j → j ∈ t1)) as ([f1 F1] & F2 & F3).
    { unfold revert_endpoint_one in E. destruct (h_hs h !! (eg, i)) as [t|] eqn:Ht; [destruct (_ || _) eqn:Ec|]; injection E as <- <-.
      - split_and!; [by eexists| |].
        + intros g j. cbn [h_hs on_hs]. destruct (decide ((eg, i) = (g, j))) as [[= <- <-]|Hne].
          * rewrite lookup_insert_eq, Ht. cbn [fmap option_fmap option_map lowest foldl fst snd]. by rewrite !decide_True.
          * rewrite lookup_insert_ne by done. destruct (h_hs h !! (g, j)); [|done]. cbn. destruct (decide (g = eg)) as [->|]; [|done].
            rewrite decide_False; [done|]. intros ->. done.
        + intros j Hj. unfold touch. destruct (decide (j = i)) as [->|Hne]; [case_bool_decide; [done|set_solver]|].
          destruct Hj as [Hj|Hj]; [case_bool_decide; set_solver|]. exfalso. apply Hj. unfold cd_of. cbn. rewrite lookup_insert_ne; [done|]. congruence.
      - split_and!; [by exists id; destruct h| |].
        + intros g j. destruct (decide ((eg, i) = (g, j))) as [[= <- <-]|Hne].
          * rewrite Ht. cbn [fmap option_fmap option_map lowest foldl fst snd]. rewrite !decide_True by done. unfold cd_nfail. cbn.
            apply orb_false_iff in Ec as [E1 E2]. f_equal. f_equal; lia.
          * destruct (h_hs h !! (g, j)); [|done]. cbn. destruct (decide (g = eg)) as [->|]; [|done]. rewrite decide_False; [done|]. intros ->. done.
        + intros j [Hj|Hj]; done.
      - split_and!; [by exists id; destruct h| |intros j [Hj|Hj]; done].
        intros g j. destruct (decide ((eg, i) = (g, j))) as [[= <- <-]|Hne]; [by rewrite Ht|].
        destruct (h_hs h !! (g, j)); [|done]. cbn. destruct (decide (g = eg)) as [->|]; [|done]. rewrite decide_False; [done|]. intros ->. done. }
    split_and!.
    + intros g j. rewrite H1. specialize (F2 g j). destruct (h_hs h1 !! (g, j)) as [t'|], (h_hs h !! (g, j)) as [t|]; try done.
      cbn [fmap option_fmap option_map] in *. apply (inj Some) in F2. f_equal. destruct (decide (g = eg)); [|done]. by rewrite F2.
    + rewrite H2, F1. by exists (f2 ∘ f1).
    + intros j Hj. apply H3. destruct (decide (j ∈ t1)) as [|Hn]; [by left|]. right.
      assert (cd_of h1 eg j = cd_of h eg j) as E1 by (destruct (decide (cd_of h1 eg j = cd_of h eg j)); [done|exfalso; apply Hn; auto]).
      rewrite E1. destruct Hj as [Hj|Hj]; [|done]. exfalso. apply Hn. auto.
Qed.

(** Rescoring changes ready queues and dirty marks only. *)
Record rescored (h h' : Hot) : Prop := {
  rs_id : h_id h' = h_id h; rs_acc : h_acc h' = h_acc h; rs_hs : h_hs h' = h_hs h; rs_px : h_px h' = h_px h;
  rs_ls : h_ls h' = h_ls h; rs_lsexp : h_lsexp h' = h_lsexp h;
}.
#[export] Instance rescored_preorder : PreOrder rescored.
Proof. split; [by split|]. intros h1 h2 h3 [] []. split; congruence. Qed.

Lemma rescored_avail h h' eg i : rescored h h' → sp_avail h' eg i = sp_avail h eg i.
Proof. intros []. unfold sp_avail. by rewrite rs_id0, rs_acc0, rs_hs0. Qed.

Lemma rescore_fold i egs h : rescored h (foldl (sp_rescore i) h egs).
Proof. revert h. induction egs as [|eg egs IH]; intros h; [done|]. cbn [foldl]. etrans; [|apply IH]. by split. Qed.

Lemma rescore_all eg js h :
  let h' := foldl (λ h i, mark_dirty {[(Some eg, i)]} (sp_rescore i h eg)) h js in
  rescored h h' ∧ ∀ i s, i ∈ js → rdy_of h' eg !! i = Some s → s = sp_avail h eg i.
Proof.
  induction js as [|j js IH] using rev_ind; cbv zeta.
  - cbn. split; [done|]. intros i s H. by apply not_elem_of_nil in H.
  - rewrite foldl_app. cbn [foldl]. set (h1 := foldl _ h js) in *. destruct IH as [IH1 IH2].
    assert (rescored h1 (mark_dirty {[(Some eg, j)]} (sp_rescore j h1 eg))) as H1 by by split.
    split; [by etrans|]. intros i s Hi Hs. cbn in Hs. unfold rdy_of in Hs at 1. cbn in Hs. rewrite lookup_insert_eq in Hs. cbn in Hs.
    rewrite zadd_xx_lookup in Hs. destruct (decide (j = i)) as [->|Hne].
    + rewrite <- (rescored_avail _ _ eg i IH1). destruct (rdy_of h1 eg !! i); [|done]. cbn in Hs. congruence.
    + apply (IH2 i s); [|done]. apply elem_of_app in Hi as [Hi|Hi]; [done|]. apply list_elem_of_singleton in Hi. congruence.
Qed.

Lemma revert_site_fold es touched h :
  let r := foldl revert_site_one (touched, h) es in
  (∃ f, r.2 = on_id f h) ∧ (∀ i, h_id h !! i = None → h_id r.2 !! i = None) ∧
  ∀ i d, h_id h !! i = Some d → ∃ scd, h_id r.2 !! i = Some (with_scd scd d) ∧ scd ≤ id_scd d ∧ (∀ pc, (i, pc) ∈ es → scd ≤ pc) ∧
    (scd = id_scd d ∨ (i, scd) ∈ es).
Proof.
  revert touched h. induction es as [|[j pc] es IH]; intros touched h; cbv zeta.
  - split_and!; [by exists id; destruct h|done|]. intros i d Hd. exists (id_scd d). cbn. split_and!; [by destruct d|lia| |by left].
    intros pc H. by apply not_elem_of_nil in H.
  - cbn [foldl]. destruct (revert_site_one (touched, h) (j, pc)) as [t1 h1] eqn:E. specialize (IH t1 h1). cbv zeta in IH.
    destruct (foldl revert_site_one (t1, h1) es) as [t2 h2]. cbn [fst snd] in *. destruct IH as ([f2 H2] & Hn & H3).
    assert ((∃ f, h1 = on_id f h) ∧ (∀ i, h_id h !! i = None → h_id h1 !! i = None) ∧ ∀ i d, h_id h !! i = Some d →
      h_id h1 !! i = Some (if decide (i = j) then with_scd (Z.min (id_scd d) pc) d else d)) as ([f1 F1] & Fn & F2).
    { unfold revert_site_one in E. cbn [fst snd] in E. destruct (h_id h !! j) as [d0|] eqn:Hj; [destruct (id_scd d0 >? pc) eqn:Hgt|]; injection E as <- <-.
      - split_and!; [by eexists|intros i Hi; cbn; rewrite lookup_insert_ne; [done|congruence]|]. intros i d Hd. cbn. destruct (decide (i = j)) as [->|Hne].
        + rewrite lookup_insert_eq. simplify_eq. do 2 f_equal. lia.
        + by rewrite lookup_insert_ne.
      - split_and!; [by exists id; destruct h|done|]. intros i d Hd. destruct (decide (i = j)) as [->|]; [|done].
        assert (d0 = d) as -> by congruence. rewrite Hd. f_equal. rewrite Z.min_l by lia. by destruct d.
      - split_and!; [by exists id; destruct h|done|]. intros i d Hd. destruct (decide (i = j)) as [->|]; [congruence|done]. }
    split_and!; [rewrite H2, F1; by exists (f2 ∘ f1)|auto|]. intros i d Hd. destruct (H3 _ _ (F2 i d Hd)) as (scd & Hs & Hle & Hall & Hfrom). exists scd.
    destruct (decide (i = j)) as [->|Hne].
    + cbn in Hle, Hfrom, Hs. split_and!; [done|lia| |].
      * intros pc' [[= ->]|Hin]%elem_of_cons; [lia|by apply Hall].
      * destruct Hfrom as [->|Hin]; [|right; by apply list_elem_of_further]. destruct (Z.min_spec (id_scd d) pc) as [[_ ->]|[_ ->]]; [by left|].
        right. apply list_elem_of_here.
    + split_and!; [done|done| |destruct Hfrom; [by left|right; by apply list_elem_of_further]].
      intros pc' [[= ? _]|Hin]%elem_of_cons; [done|by apply Hall].
Qed.

Lemma rescore_sites egs js h :
  rescored h (foldl (λ h i, mark_dirty {[(None, i)]} (foldl (sp_rescore i) h egs)) h js).
Proof.
  revert h. induction js as [|j js IH]; intros h; [done|]. cbn [foldl]. etrans; [|apply IH]. etrans; [apply (rescore_fold j egs)|]. by split.
Qed.

Lemma filter_consumed {K} `{Countable K} (z : zset K) (es : list K) (e : K) : e ∈ es → filter (λ kv, kv.1 ∉ es) z !! e = None.
Proof. intros He. apply map_lookup_filter_None. right. intros s _ Hn. by apply Hn. Qed.

Section revert.
Variables (eg now window : Z) (all : bool) (limit : Z) (egs : list Z) (s : Site).
Let lim : nat := Z.to_nat (Z.max limit 1).
(** The entries that a run reverts. *)
Definition endpoint_entries : list (Z * Z * Z) := zrange_since (default ∅ (m_rcd (s_mat s) !! eg)) (now - window) lim.
Definition site_entries : list (Z * Z) := if all then zrange_since (s_rcds s) (now - window) lim else [].

Record reverted (s' : Site) : Prop := {
  rv_hs : ∀ g i, cd_nfail <$> h_hs (site_hot s') !! (g, i) =
    (λ t, if decide (g = eg) then lowest i endpoint_entries (cd_nfail t) else cd_nfail t) <$> h_hs (site_hot s) !! (g, i);
  rv_none : ∀ i, h_id (site_hot s) !! i = None → h_id (site_hot s') !! i = None;
  rv_id : ∀ i d, h_id (site_hot s) !! i = Some d → ∃ scd, h_id (site_hot s') !! i = Some (with_scd scd d) ∧ scd ≤ id_scd d ∧
    (∀ pc, (i, pc) ∈ site_entries → scd ≤ pc) ∧ (scd = id_scd d ∨ (i, scd) ∈ site_entries);
  rv_rcd : ∀ e, e ∈ endpoint_entries → default ∅ (m_rcd (s_mat s') !! eg) !! e = None;
  rv_rcds : ∀ e, e ∈ site_entries → s_rcds s' !! e = None;
  rv_ls : h_ls (site_hot s') = h_ls (site_hot s);
  rv_lsexp : h_lsexp (site_hot s') = h_lsexp (site_hot s);
  rv_px : h_px (site_hot s') = h_px (site_hot s);
  rv_life : m_idlife (s_mat s') = m_idlife (s_mat s);
}.

Lemma revert_lua_reverted : reverted (revert_lua eg now window all limit egs s).2.
Proof.
  unfold revert_lua, revert_endpoint. fold lim. fold endpoint_entries.
  pose proof (revert_endpoint_fold eg endpoint_entries [] (site_hot s)) as H. cbv zeta in H. unfold site_hot in *.
  destruct (foldl (revert_endpoint_one eg) ([], m_hot (s_mat s)) endpoint_entries) as [touched h1]. cbn [fst snd] in H. destruct H as (H1 & [f H2] & _).
  destruct (rescore_all eg touched h1) as [[] _]. cbv zeta in *. set (h2 := foldl _ h1 touched) in *. clearbody h2.
  set (s1 := on_mat _ s). destruct all eqn:Hall.
  - unfold revert_site. change (s_rcds s1) with (s_rcds s). assert (site_entries = zrange_since (s_rcds s) (now - window) lim) as Es by (unfold site_entries; by rewrite Hall).
    rewrite <- Es. pose proof (revert_site_fold site_entries [] (site_hot s1)) as G. cbv zeta in G.
    destruct (foldl revert_site_one ([], site_hot s1) site_entries) as [touched' h3]. cbn [fst snd] in G. destruct G as ([g G1] & G2 & G3).
    change (site_hot s1) with h2 in *. pose proof (rescore_sites egs touched' h3) as []. cbv zeta in *. set (h4 := foldl _ h3 touched') in *. clearbody h4.
    split; unfold site_hot; cbn; rewrite ?rs_id1, ?rs_hs1, ?rs_px1, ?rs_ls1, ?rs_lsexp1, ?G1; cbn; rewrite ?rs_hs0, ?rs_px0, ?rs_ls0, ?rs_lsexp0, ?H2; try done.
    + intros g0 i. specialize (H1 g0 i). by rewrite H2 in H1.
    + intros i Hi. specialize (G2 i). rewrite rs_id0, H2 in G2. rewrite G1 in G2. by apply G2.
    + intros i d Hd. specialize (G3 i d). rewrite rs_id0, H2 in G3. rewrite G1 in G3. by apply G3.
    + intros e He. rewrite lookup_insert_eq. by apply filter_consumed.
    + intros e He. by apply filter_consumed.
  - assert (site_entries = []) as Es by (unfold site_entries; by rewrite Hall).
    split; unfold site_hot; cbn; rewrite ?rs_id0, ?rs_hs0, ?rs_px0, ?rs_ls0, ?rs_lsexp0, ?H2; try done.
    + intros g0 i. specialize (H1 g0 i). by rewrite H2 in H1.
    + intros i d Hd. exists (id_scd d). rewrite Es. split_and!; [cbn; rewrite Hd; by destruct d|lia|intros pc Hp; by apply not_elem_of_nil in Hp|by left].
    + intros e He. rewrite lookup_insert_eq. by apply filter_consumed.
    + intros e He. rewrite Es in He. by apply not_elem_of_nil in He.
Qed.

(** When a breaker opens, the cooldowns it caused are given back and nothing
    else: for every recorded entry of the window, the cooldown and the failure
    streak of the identity on the group, and in mode "all" its cooldown on the
    site, are at most what they were before the action, and every cooldown is the
    old one or one that an entry recorded.  Lifecycle states, leases and lease
    counts stay, and the entries are consumed. *)
Theorem revert_gives_back :
  let s' := (revert_lua eg now window all limit egs s).2 in
  (∀ i t, h_hs (site_hot s) !! (eg, i) = Some t →
     ∃ t', h_hs (site_hot s') !! (eg, i) = Some t' ∧ hs_cd t' ≤ hs_cd t ∧
       (∀ pc pn, (i, pc, pn) ∈ endpoint_entries → hs_cd t' ≤ pc ∧ hs_nfail t' ≤ pn) ∧
       (hs_cd t' = hs_cd t ∨ ∃ pn, (i, hs_cd t', pn) ∈ endpoint_entries)) ∧
  (∀ i d, h_id (site_hot s) !! i = Some d →
     ∃ scd, h_id (site_hot s') !! i = Some (with_scd scd d) ∧ scd ≤ id_scd d ∧ (∀ pc, (i, pc) ∈ site_entries → scd ≤ pc) ∧
       (scd = id_scd d ∨ (i, scd) ∈ site_entries)) ∧
  (∀ e, e ∈ endpoint_entries → default ∅ (m_rcd (s_mat s') !! eg) !! e = None) ∧ (∀ e, e ∈ site_entries → s_rcds s' !! e = None) ∧
  h_ls (site_hot s') = h_ls (site_hot s).
Proof.
  destruct revert_lua_reverted. cbv zeta. set (s' := (revert_lua eg now window all limit egs s).2) in *. split_and!; try done.
  intros i t Ht. specialize (rv_hs0 eg i). rewrite Ht in rv_hs0. destruct (h_hs (site_hot s') !! (eg, i)) as [t'|]; [|done].
  cbn [fmap option_fmap option_map] in rv_hs0. rewrite decide_True in rv_hs0 by done. apply (inj Some) in rv_hs0. exists t'.
  change (hs_cd t') with (cd_nfail t').1. change (hs_nfail t') with (cd_nfail t').2. rewrite rv_hs0.
  split_and!; [done|apply (lowest_le i endpoint_entries (cd_nfail t))|intros pc pn; apply lowest_spec|apply lowest_from].
Qed.

Lemma revert_ledger : ledger_of (site_hot (revert_lua eg now window all limit egs s).2) = ledger_of (site_hot s).
Proof.
  destruct revert_lua_reverted. set (s' := (revert_lua eg now window all limit egs s).2) in *. unfold ledger_of. rewrite rv_ls0, rv_lsexp0, rv_px0. f_equal.
  apply map_eq. intros i. rewrite !lookup_fmap. destruct (h_id (site_hot s) !! i) as [d|] eqn:Hd.
  - destruct (rv_id0 i d Hd) as (scd & -> & _). done.
  - by rewrite (rv_none0 i Hd).
Qed.
End revert.
