(* ===== verification/SiteRun.v ===== *)
(** * Runs of a site

    Every script of the program that writes the hot state of a site, as steps of
    one machine: the lease scripts, the reports, the actions, the
    synchronisation, the expiry job, the breaker and the proxy scripts.  The theorems
    show that its runs are runs of the lease machine, so that the leases stay accounted
    for and exclusive, and that an identity that is kept off stays off, whatever the
    program does by itself, as long as the rows of the database hold it. *)

From S2P Require Import Prelude GoStrings GoFloat PolicyBase GoTime LuaCommon PolicyAction PolicyRotation PolicySeverity PolicyEvaluate PolicyResolve Breaker StateRows.
From S2P Require Import SchedState SchedSelect SchedAcquire SchedLease SchedLedger SchedRefine SchedGrant SchedLoop SchedRun Scheduler.
From S2P Require Import HotSync ActionApply ActionExec ActionExpiry WorkerObserve SiteScripts.

Local Open Scope Z_scope.

(** ** Steps *)

Definition set_hot (h : Hot) (s : Site) : Site := on_mat (on_hot (λ _, h)) s.

(** The breaker of a group within the hot state. *)
Definition breaker_at (s : Site) (eg : Z) : breaker :=
  {| b_hash := default no_hash (h_brk (site_hot s) !! eg); b_brko := bool_decide (eg ∈ m_brko (s_mat s)) |}.
Definition set_breaker (eg : Z) (b : breaker) (s : Site) : Site :=
  on_mat (λ m, on_brko (λ o, if b_brko b then {[eg]} ∪ o else o ∖ {[eg]}) (on_hot (on_brk (<[eg := b_hash b]>)) m)) s.

(** Keys that expire: hashes of ended leases, and the sticky sessions, quota windows,
    counters, attribution sets, breaker windows and recorded results.  Checkpoints
    have no expiry. *)
Record expired (s s' : Site) : Prop := {
  ex_ls : ∀ lid, h_ls (site_hot s') !! lid = h_ls (site_hot s) !! lid ∨
    ∃ l, h_ls (site_hot s) !! lid = Some l ∧ active l = false ∧ h_ls (site_hot s') !! lid = None;
  ex_hot : ∃ f g k, site_hot s' = on_ls f (on_stk g (on_q k (site_hot s)));
  ex_ckpt : ob_ckpt (s_obs s') = ob_ckpt (s_obs s);
}.

(** The calls of the synchronisation. *)
Inductive SyncCall :=
| call_identities (args : SyncArgs) (accounts : list HotSync.AccountRow) (ops : list IdentityOp)
| call_accounts (merge : bool) (op : AccountOp) (push : bool) (egs : list Z) (a : HotSync.AccountRow) (now : Z) (members : list Z)
| call_proxies (merge : bool) (now : Z) (rows : list HotSync.ProxyRow)
| call_maintenance (op : Maintenance).
Definition run_sync (c : SyncCall) (m : Mat) : Mat :=
  match c with
  | call_identities args accounts ops => (sync_identities args accounts ops m).1
  | call_accounts merge op push egs a now members => (sync_accounts merge op push egs a now members m).1
  | call_proxies merge now rows => (sync_proxies merge now rows m).1
  | call_maintenance op => (sync_maintenance op m).1
  end.

(** What a run assumes of the steps that read the database or take actions back:
    which calls of the synchronisation it has, which rows an expiry pass at a time
    reads, and whether breakers revert cooldowns. *)
Record View := { vw_sync : SyncCall → Mat → Prop; vw_due : Z → IdentityRec → Prop; vw_revert : Prop }.
Definition anything : View := {| vw_sync := λ _ _, True; vw_due := λ _ _, True; vw_revert := True |}.

Section runs.
Context {lua : LuaMath}.

(** What the program does by itself: serve leases, process reports, apply the
    actions of policies, check proxies, evaluate breakers and give back the cooldowns
    that an opening breaker reverts, synchronise, and end bans and quarantines. *)
Inductive astep (v : View) : Z * Site → Z * Site → Prop :=
| as_acquire t args s : t ≤ a_now args → acquire_ready args (site_hot s) →
    astep v (t, s) (a_now args, set_hot (acquire_lua args (site_hot s)).2 s)
| as_renew t now lid extend ns s : t ≤ now → astep v (t, s) (now, set_hot (renew_lua now lid extend ns (site_hot s)).2 s)
| as_release t now lid late ns windows layout s : t ≤ now →
    astep v (t, s) (now, set_hot (release_lua now lid late ns windows layout (site_hot s)).2 s)
| as_reap t now limit late layout s : t ≤ now → astep v (t, s) (now, set_hot (reap_lua now limit late layout (site_hot s)).2 s)
| as_retain t now ns at' retain late reports s : t ≤ now →
    astep v (t, s) (now, set_hot (lease_retain_lua ns at' retain late reports (site_hot s)).2 s)
| as_observe t now shard sid full s : t ≤ now → stream_id sid → astep v (t, s) (now, (observe_lua shard sid full s).2)
| as_action t now at' token ops s : t ≤ now → Forall automatic ops → astep v (t, s) (now, (apply_lua at' token ops s).2)
| as_health t now p obs at' alpha baseline tau reset ok s : t ≤ now →
    astep v (t, s) (now, (proxy_health_lua p obs at' alpha baseline tau reset ok s).2)
| as_breaker t now limit eg b s : t ≤ now → Breaker.step limit (breaker_at s eg) b → astep v (t, s) (now, set_breaker eg b s)
| as_expire t now s s' : t ≤ now → expired s s' → astep v (t, s) (now, s')
| as_sync t now c s : t ≤ now → vw_sync v c (s_mat s) → astep v (t, s) (now, on_mat (run_sync c) s)
| as_revert t now eg at' window all limit egs s : t ≤ now → vw_revert v → astep v (t, s) (now, (revert_lua eg at' window all limit egs s).2)
(** A pass that started at [now], in nanoseconds, pushes some of its releases. *)
| as_pass t now ns cat tenancy fa db site cs to changed chunk s :
    t ≤ now → ns / 1000000 ≤ now → (∀ id x, r_identities db !! id = Some x → vw_due v ns x) →
    push_identities site to changed ∈ (RunExpiry cat tenancy fa ns true db).1.2 → cat site = Some cs →
    chunk ⊆ transition_op cs (released_at ns to) <$> changed →
    astep v (t, s) (now, (apply_lua (ns / 1000000) "" chunk s).2)
| as_pass_account t now ns cat tenancy fa db site id hkey s :
    t ≤ now → push_account site id hkey ∈ (RunExpiry cat tenancy fa ns true db).1.2 →
    astep v (t, s) (now, pushAccount hkey StateActive 0 ns s).

(** The runs in which no synchronisation creates the hash of an identity or a proxy that
    has active leases, as it would for one that is archived and restored while leased. *)
Definition safe_call (c : SyncCall) (m : Mat) : Prop :=
  match c with
  | call_identities _ _ ops => identities_safe ops (m_hot m)
  | call_proxies _ _ rows => proxies_safe rows (m_hot m)
  | _ => True
  end.
Definition lease_safe : View := {| vw_sync := safe_call; vw_due := λ _ _, True; vw_revert := True |}.

(** Together with what operators do. *)
Inductive sstep : Z * Site → Z * Site → Prop :=
| ss_auto s s' : astep lease_safe s s' → sstep s s'
| ss_apply t now at' token ops s : t ≤ now → sstep (t, s) (now, (apply_lua at' token ops s).2)
| ss_cooldown t now p global until pid s avail s' : t ≤ now → proxy_cooldown_lua p global until pid s = Some (avail, s') → sstep (t, s) (now, s')
| ss_reset t now p s : t ≤ now → sstep (t, s) (now, (proxy_reset_lua p s).2).

Inductive sreachable : Z * Site → Prop :=
| sr_new t : sreachable (t, no_site)
| sr_step s s' : sreachable s → sstep s s' → sreachable s'.
End runs.

(** ** Ledger *)

Lemma foreign_eq g g' : g' = g → foreign g g'.
Proof. intros ->. apply foreign_refl. Qed.

Lemma retain_one_ledger ns now retain late k out h :
  foreign (ledger_of h) (ledger_of (lease_retain_one ns now retain late (out, h) k).2).
Proof.
  unfold lease_retain_one. destruct (h_ls h !! k.1) as [l|] eqn:Hl; [|apply foreign_refl]. destruct (String.eqb _ _); [|apply foreign_refl]. cbn [snd].
  split; cbn; try done; [| |by intros i c Hc; left|by intros p c Hc; left].
  - intros lid l' Hl'. destruct (decide (k.1 = lid)) as [<-|Hne].
    + rewrite lookup_insert_eq. simplify_eq. by repeat split.
    + rewrite lookup_insert_ne, Hl' by done. by repeat split.
  - intros lid l' Hl'. destruct (decide (k.1 = lid)) as [<-|Hne]; [by rewrite Hl|]. rewrite lookup_insert_ne in Hl' by done. by rewrite Hl'.
Qed.

Section sound.
Context {lua : LuaMath}.

Lemma hreach_foreign t now h h' : hreachable (t, h) → t ≤ now → foreign (ledger_of h) (ledger_of h') → hreachable (now, h').
Proof. intros Hr Ht Hf. eapply hr_step; [exact Hr|]. by apply hstep_other. Qed.
Lemma hreach_same t now h h' : hreachable (t, h) → t ≤ now → ledger_of h' = ledger_of h → hreachable (now, h').
Proof. intros Hr Ht E. eapply hreach_foreign; [done..|]. by apply foreign_eq. Qed.

Lemma retain_reachable t now ns at' retain late reports out h :
  hreachable (t, h) → t ≤ now → hreachable (now, (foldl (lease_retain_one ns at' retain late) (out, h) reports).2).
Proof.
  intros Hr Ht. assert (hreachable (now, h)) as Hn by (by eapply hreach_same). clear Hr Ht. revert out h Hn.
  induction reports as [|k reports IH]; intros out h Hn; [done|]. cbn [foldl]. pose proof (retain_one_ledger ns at' retain late k out h) as Hf.
  destruct (lease_retain_one _ _ _ _ _ _) as [out1 h1]. apply IH. by eapply hreach_foreign.
Qed.

Lemma health_ledger p obs now alpha baseline tau reset ok s :
  ledger_of (site_hot (proxy_health_lua p obs now alpha baseline tau reset ok s).2) = ledger_of (site_hot s).
Proof. unfold proxy_health_lua. destruct (h_px (site_hot s) !! p) as [d|] eqn:Hd; [|done]. cbn. by eapply ledger_px_insert. Qed.

Lemma reset_ledger p s : ledger_of (site_hot (proxy_reset_lua p s).2) = ledger_of (site_hot s).
Proof. unfold proxy_reset_lua. destruct (h_px (site_hot s) !! p) as [d|] eqn:Hd; [|done]. cbn. by eapply ledger_px_insert. Qed.

Lemma cooldown_ledger p global until pid s avail s' :
  proxy_cooldown_lua p global until pid s = Some (avail, s') → ledger_of (site_hot s') = ledger_of (site_hot s).
Proof.
  unfold proxy_cooldown_lua. destruct (h_px (site_hot s) !! p) as [d|] eqn:Hd; [|done]. cbn [mbind option_bind]. intros [= _ <-].
  set (h1 := on_px _ (site_hot s)). assert (ledger_of h1 = ledger_of (site_hot s)) as E by (by eapply ledger_px_insert).
  etrans; [|exact E]. change (h_pxrdy h1) with (h_pxrdy (site_hot s)). destruct (h_pxrdy (site_hot s) !! p); [|done]. by destruct (_ && _).
Qed.

Lemma expired_foreign s s' : expired s s' → foreign (ledger_of (site_hot s)) (ledger_of (site_hot s')).
Proof.
  intros [Hl (f & g & k & Eh) _]. assert (∀ lid, f (h_ls (site_hot s)) !! lid = h_ls (site_hot s') !! lid) as Ef by (rewrite Eh; done).
  split; [by rewrite Eh|..].
  - intros lid l H. cbn in *. destruct (Hl lid) as [->|(l' & Hl' & Ha & ->)]; [rewrite H; by repeat split|]. congruence.
  - intros lid l H. cbn in *. destruct (Hl lid) as [E|(l' & Hl' & _ & E)]; [by rewrite <- E, H|congruence].
  - intros i c H. left. by rewrite Eh in H.
  - intros p c H. left. by rewrite Eh in H.
Qed.

Lemma run_sync_step c m : safe_call c m → mat_step m (run_sync c m).
Proof. destruct c; cbn; intros Hs; by constructor. Qed.

Lemma astep_reachable t s t' s' : hreachable (t, site_hot s) → astep lease_safe (t, s) (t', s') → hreachable (t', site_hot s').
Proof.
  intros Hr H. inversion H; subst.
  - match goal with Ha : acquire_ready ?args _, Ht : t ≤ _ |- _ => exact (hr_step _ _ Hr (hstep_acquire t args _ Ht Ha)) end.
  - eapply hr_step; [exact Hr|by apply hstep_renew].
  - eapply hr_step; [exact Hr|by apply hstep_release].
  - eapply hr_step; [exact Hr|by apply hstep_reap].
  - by apply (retain_reachable t t').
  - eapply hreach_foreign; [done..|]. apply report_frame_foreign, observe_lua_frame.
  - eapply hreach_same; [done..|]. apply apply_lua_ledger.
  - eapply hreach_same; [done..|]. apply health_ledger.
  - by eapply hreach_same.
  - eapply hreach_foreign; [done..|]. by apply expired_foreign.
  - apply (mat_step_reachable t t' (s_mat s)); [done..|]. by apply run_sync_step.
  - eapply hreach_same; [done..|]. apply revert_ledger.
  - eapply hreach_same; [done..|]. apply apply_lua_ledger.
  - eapply hreach_same; [done..|]. apply apply_lua_ledger.
Qed.

Lemma sstep_reachable t s t' s' : hreachable (t, site_hot s) → sstep (t, s) (t', s') → hreachable (t', site_hot s').
Proof.
  intros Hr H. inversion H; subst.
  - by eapply astep_reachable.
  - eapply hreach_same; [done..|]. apply apply_lua_ledger.
  - eapply hreach_same; [done..|]. by eapply cooldown_ledger.
  - eapply hreach_same; [done..|]. apply reset_ledger.
Qed.

(** C5: every run of the program on a site is a run of the lease machine, provided
    that no synchronisation creates the hash of an identity or a proxy that has active
    leases: reports, actions, manual changes, cooldown reverts, expiry passes, proxy
    checks, breaker evaluations, such synchronisations and the expiry of keys only
    interleave with the lease scripts in ways that leave the leases and their counts
    alone.  So whatever holds in every reachable hot state of the lease scripts holds
    on every site.  The program does not enforce the proviso: an identity that is
    archived and restored while it is leased breaks it. *)
Theorem site_runs t s : sreachable (t, s) → hreachable (t, site_hot s) ∧ lreachable (t, ledger_of (site_hot s)).
Proof.
  assert (∀ p, sreachable p → hreachable (p.1, site_hot p.2)) as H.
  { induction 1 as [t0|[t0 s0] [t1 s1] _ IH Hs]; [apply hr_new|]. by eapply sstep_reachable. }
  intros Hs. apply H in Hs. split; [done|]. by apply (hreachable_refines (t, site_hot s)).
Qed.
End sound.

(** ** Identities that are kept off *)

Lemma kept_off_life h h' i eg t : same_life h h' → kept_off h i eg t → kept_off h' i eg t.
Proof.
  intros [Hid Hcd] (d & Hd & Hk). specialize (Hid i). rewrite Hd in Hid. destruct (h_id h' !! i) as [d'|] eqn:Hd'; [|done].
  cbn in Hid. injection Hid as E1 E2. exists d'. split; [done|]. by rewrite E1, E2, Hcd.
Qed.

Lemma restore_life i end_ms upto idlevel h gs : same_life h (foldl (restore_score i end_ms upto idlevel) h gs).
Proof.
  revert h. induction gs as [|g gs IH]; intros h; [done|]. cbn [foldl]. etrans; [|apply IH]. unfold restore_score.
  repeat case_match; try done; by apply same_life_eq.
Qed.

Lemma endpoint_reuse_cd l end_ms now abort baseline raw cd ru t :
  endpoint_reuse l end_ms now abort baseline raw = (cd, ru, Some t) → hs_cd t = (sp_hs_cd_ru raw).1.
Proof.
  unfold endpoint_reuse. destruct (_ && bool_decide (ls_rs l = _)); [|by destruct (sp_hs_cd_ru raw)].
  destruct (_ && _); [|destruct (_ && _); [|done]]; intros [= _ _ <-]; by destruct raw.
Qed.

Lemma end_identity_life l end_ms now abort layout d h :
  h_id h !! ls_i l = Some d → same_life h (end_identity l end_ms now abort layout d h).
Proof.
  intros Hd. unfold end_identity. set (h1 := if re_site_written _ then _ else h).
  assert (same_life h h1 ∧ h_id h1 = h_id h) as [H1 E1] by (subst h1; destruct (re_site_written _); [split; [by apply same_life_eq|done]|done]).
  destruct (endpoint_reuse _ _ _ _ _ _) as [[cd ru] hs'] eqn:Her. set (h2 := match hs' with Some t => _ | None => h1 end).
  assert (same_life h1 h2 ∧ h_id h2 = h_id h1) as [H2 E2].
  { subst h2. destruct hs' as [t|]; [|done]. split; [|done]. split; [done|]. intros eg i. unfold cd_of. cbn.
    destruct (decide ((ls_e l, ls_i l) = (eg, i))) as [[= <- <-]|Hne]; [|by rewrite lookup_insert_ne].
    rewrite lookup_insert_eq. cbn. by apply endpoint_reuse_cd in Her. }
  clearbody h2. clear Her. set (d' := if _ && _ then _ else _). assert (id_st d' = id_st d ∧ id_scd d' = id_scd d) as [Est Escd] by (subst d'; by destruct (_ && _)).
  clearbody d'. set (h3 := on_id _ h2). assert (same_life h2 h3) as H3.
  { split; [|done]. intros i. cbn. destruct (decide (ls_i l = i)) as [<-|Hne]; [|by rewrite lookup_insert_ne].
    rewrite lookup_insert_eq, E2, E1, Hd. cbn. by rewrite Est, Escd. }
  set (h4 := on_rdy _ _ h3). assert (same_life h3 h4) as H4 by (by apply same_life_eq).
  set (h5 := if _ && _ then foldl _ h4 _ else h4). assert (same_life h4 h5) as H5 by (subst h5; destruct (_ && _); [apply restore_life|done]).
  etrans; [exact H1|]. etrans; [exact H2|]. etrans; [exact H3|]. etrans; [exact H4|]. etrans; [exact H5|].
  destruct (re_restored_site _); [apply restore_life|done].
Qed.

Lemma ls_end_life lid l st end_ms now late ws layout h : same_life h (SchedLease.ls_end lid l st end_ms now late ws layout h).
Proof.
  unfold SchedLease.ls_end. set (h1 := on_lsexp _ _). set (h2 := match ws with Some _ => _ | None => h1 end).
  assert (same_life h h2) as H2.
  { subst h2. destruct ws; [|by apply same_life_eq]. etrans; [by apply (same_life_eq h h1)|]. unfold ls_abort_accounting.
    destruct (ls_a l >? 0), (ls_pr l); by apply same_life_eq. }
  clearbody h2. set (h3 := match h_id h2 !! ls_i l with Some _ => _ | None => h2 end).
  assert (same_life h2 h3) as H3 by (subst h3; destruct (h_id h2 !! ls_i l) as [d|] eqn:Hd; [by apply end_identity_life|done]).
  clearbody h3. etrans; [exact H2|]. etrans; [exact H3|]. destruct (ls_p l) as [p|]; [|done]. unfold end_proxy.
  repeat case_match; try done; by apply same_life_eq.
Qed.

Lemma renew_life now lid extend ns h : same_life h (renew_lua now lid extend ns h).2.
Proof.
  unfold renew_lua. destruct (h_ls h !! lid) as [l|]; [|done]. destruct (_ && _); [done|]. destruct (ls_st l); [|done..].
  destruct (now >=? _); [done|]. destruct (ls_x l >=? _); [done|]. destruct (ls_mc l =? 1); [|by apply same_life_eq]. cbn.
  destruct (h_id h !! ls_i l) as [d|] eqn:Hd; [|by apply same_life_eq]. split; [|done]. intros i. cbn.
  destruct (decide (ls_i l = i)) as [<-|Hne]; [by rewrite lookup_insert_eq, Hd|by rewrite lookup_insert_ne].
Qed.

Lemma release_life now lid late ns ws layout h : same_life h (release_lua now lid late ns ws layout h).2.
Proof. unfold release_lua. repeat case_match; try done. apply ls_end_life. Qed.

Lemma reap_life now limit late layout h : same_life h (reap_lua now limit late layout h).2.
Proof.
  unfold reap_lua. generalize (zrangebyscore (h_lsexp h) now 0 limit) as ids. intros ids.
  assert (∀ out h0, same_life h0 (foldl (reap_one now late layout) (out, h0) ids).2) as H.
  { induction ids as [|lid ids IH]; intros out h0; [done|]. cbn [foldl]. destruct (reap_one _ _ _ (out, h0) lid) as [out1 h1] eqn:E.
    etrans; [|apply IH]. unfold reap_one in E. destruct (h_ls h0 !! lid) as [l|]; [destruct (bool_decide _)|]; injection E as <- <-;
      [apply ls_end_life|by apply same_life_eq..]. }
  specialize (H [] h). by destruct (foldl (reap_one now late layout) ([], h) ids).
Qed.

Lemma retain_life ns now retain late reports out h :
  same_life h (foldl (lease_retain_one ns now retain late) (out, h) reports).2.
Proof.
  revert out h. induction reports as [|k reports IH]; intros out h; [done|]. cbn [foldl].
  destruct (lease_retain_one _ _ _ _ (out, h) k) as [out1 h1] eqn:E. etrans; [|apply IH]. unfold lease_retain_one in E.
  destruct (h_ls h !! k.1); [destruct (String.eqb _ _)|]; injection E as _ <-; by apply same_life_eq.
Qed.

Lemma report_life s s' : report_frame s s' → same_life (site_hot s) (site_hot s').
Proof. intros []. split; [by rewrite rf_id|]. intros eg i. unfold cd_of. by rewrite rf_hs. Qed.

Lemma apply_kept_off now token ops s i eg t :
  Forall automatic ops → kept_off (site_hot s) i eg t → kept_off (site_hot (apply_lua now token ops s).2) i eg t.
Proof.
  intros Ha Hk. assert (kept_off (site_hot (ap_operations now ops s).2) i eg t) as H
    by (eapply kept_off_mono; [by apply ap_operations_escalates|by apply ap_operations_cools|done]).
  unfold apply_lua. destruct (String.eqb _ _); [done|]. destruct (s_axr s !! token); [done|]. by destruct (ap_operations now ops s).
Qed.

(** The identity cannot be leased on the group at the time: its lifecycle withholds it
    or, unless [rev], it cools down. *)
Definition barred (rev : bool) (h : Hot) (i eg t : Z) : Prop :=
  ∃ d, h_id h !! i = Some d ∧ (is_ready (id_st d) = false ∨ rev = false ∧ (t < id_scd d ∨ t < cd_of h eg i)).

Lemma barred_kept_off rev h i eg t : barred rev h i eg t → kept_off h i eg t.
Proof. intros (d & Hd & [Hr|[_ Hc]]); exists d; auto. Qed.
Lemma kept_off_barred h i eg t : kept_off h i eg t → barred false h i eg t.
Proof. intros (d & Hd & [Hr|Hc]); exists d; auto. Qed.

(** What is kept off at every time is withheld by its lifecycle. *)
Lemma kept_off_forever h i eg t : (∀ u, kept_off h i eg u) → barred true h i eg t.
Proof.
  intros Hk. destruct (Hk 0) as (d & Hd & _). exists d. split; [done|left].
  destruct (Hk (Z.max (id_scd d) (cd_of h eg i))) as (d' & Hd' & H). rewrite Hd in Hd'. injection Hd' as <-. destruct H as [?|H]; [done|lia].
Qed.

Lemma barred_mono rev h h' i eg t :
  (∀ u, kept_off h i eg u → kept_off h' i eg u) → barred rev h i eg t → barred rev h' i eg t.
Proof.
  intros Hk Hb. destruct rev; [|apply kept_off_barred, Hk; by eapply barred_kept_off].
  apply kept_off_forever. intros u. apply Hk. destruct Hb as (d & Hd & [Hr|[? _]]); [|done]. exists d. auto.
Qed.

Lemma untouched_kept_off h h' i eg t : untouched i h h' → kept_off h i eg t → kept_off h' i eg t.
Proof. intros [Hi Hh] (d & Hd & Hk). exists d. rewrite Hi. split; [done|]. unfold cd_of in *. by rewrite Hh. Qed.

(** *** Synchronisation *)

(** The record of the identity, if there is one, does not bring it back: the row is
    not schedulable either, or Redis holds a newer change in force, or the record merges.
    An identity that is archived is removed instead. *)
Definition keeps_record (i : Z) (args : SyncArgs) (m : Mat) (op : IdentityOp) : Prop :=
  op_id op = i → ∃ r, op = sync_op r ∧
    (is_ready (iw_st r) = false ∨
     keep_redis_lifecycle (sy_now args) (sy_merge args) (id_st <$> h_id (m_hot m) !! i) (m_idlife m !! i ≫= lf_sct) (iw_sct r)
       (from_option lf_bu 0 (m_idlife m !! i)) (from_option lf_qu 0 (m_idlife m !! i)) = true).
Fixpoint keeps_records (i : Z) (args : SyncArgs) (s : Mat * (nat * nat * nat)) (ops : list IdentityOp) : Prop :=
  match ops with [] => True | op :: ops => keeps_record i args s.1 op ∧ keeps_records i args (sync_record args s op) ops end.
(** Groups that are deleted take their cooldowns with them. *)
Definition keeps_call (i : Z) (c : SyncCall) (m : Mat) : Prop :=
  match c with
  | call_identities args accounts ops => keeps_records i args (foldl (sync_account args) m accounts, (0%nat, 0%nat, 0%nat)) ops
  | call_maintenance (drop_groups _) => False
  | _ => True
  end.

Lemma sync_group_cd args i level jitter eligible s eg eg' :
  cd_of (sync_group args i level jitter eligible s eg).1 eg' i = cd_of s.1 eg' i.
Proof.
  destruct s as [h w]. unfold sync_group. set (h1 := match _ with Some t => _ | None => h end).
  assert (cd_of h1 eg' i = cd_of h eg' i) as H1.
  { subst h1. destruct (h_hs h !! (eg, i)) as [t0|] eqn:Ht; [|done]. cbn [mbind option_bind]. destruct (reset_entry args eg t0) as [t|] eqn:Er; [|done].
    assert (hs_cd t = hs_cd t0) as Et by (unfold reset_entry in Er; destruct (sy_reset_health args); [by simplify_eq|]; destruct (_ && _); by simplify_eq).
    unfold cd_of. cbn. destruct (decide (eg = eg')) as [<-|Hne]; [|by rewrite lookup_insert_ne by congruence]. rewrite lookup_insert_eq, Ht. cbn. by rewrite Et. }
  clearbody h1. cbn [fst] in *. rewrite <- H1. destruct (negb eligible); [done|]. destruct (_ && _); [done|]. by destruct (sp_hs_cd_ru _).
Qed.
Lemma sync_groups_cd args i level jitter eligible egs s eg' :
  cd_of (foldl (sync_group args i level jitter eligible) s egs).1 eg' i = cd_of s.1 eg' i.
Proof. revert s. induction egs as [|eg egs IH]; intros s; [done|]. cbn [foldl]. by rewrite IH, sync_group_cd. Qed.

Lemma sync_identity_kept_off args r m eg t :
  keeps_record (iw_i r) args m (sync_op r) → kept_off (m_hot m) (iw_i r) eg t → kept_off (m_hot (sync_identity args r m).1) (iw_i r) eg t.
Proof.
  intros Hk (d & Hd & Ho). destruct (sync_identity_hash args r m) as (Hid & _ & _). exists (synced_hash args r m). split; [exact Hid|].
  destruct (sync_identity_run args r m) as [_ Hh]. destruct (hash_written_same args r m) as (_ & _ & _ & Ehs & _).
  assert (cd_of (m_hot (sync_identity args r m).1) eg (iw_i r) = cd_of (m_hot m) eg (iw_i r)) as ->
    by (rewrite Hh, !sync_groups_cd; unfold cd_of; cbn [fst]; by rewrite Ehs).
  destruct (Hk eq_refl) as (r' & [= <-] & Hrow). unfold synced_hash, sync_lifecycle. rewrite Hd in Hrow |- *. cbn [fmap option_fmap option_map from_option] in *.
  destruct (keep_redis_lifecycle _ _ _ _ _ _ _); cbn [id_st id_scd sync_hash from_option]; [done|].
  destruct Hrow as [Hr|?]; [by left|done].
Qed.

Lemma sync_record_kept_off i args s op eg t :
  keeps_record i args s.1 op → kept_off (m_hot s.1) i eg t → kept_off (m_hot (sync_record args s op).1) i eg t.
Proof.
  intros Hr Hk. destruct (decide (op_id op = i)) as [Hi|Hne].
  - destruct (Hr Hi) as (r & -> & _). cbn in Hi. subst i. destruct s as [m [[n1 n2] n3]]. cbn [fst] in *. pose proof (sync_identity_kept_off args r m eg t Hr Hk) as H.
    cbn [sync_record]. by destruct (sync_identity args r m).
  - destruct (sync_record_frame args i s op Hne) as [Hi _ _ _ Hh]. by apply (untouched_kept_off (m_hot s.1)).
Qed.

Lemma sync_accounts_hot merge op push egs a now members m :
  let h := m_hot m in let h' := m_hot (sync_accounts merge op push egs a now members m).1 in h_id h' = h_id h ∧ h_hs h' = h_hs h.
Proof.
  cbv zeta. unfold sync_accounts. set (m1 := if bool_decide _ then _ else m).
  assert (h_id (m_hot m1) = h_id (m_hot m) ∧ h_hs (m_hot m1) = h_hs (m_hot m)) as [E1 E2]
    by (subst m1; destruct (bool_decide _); [|done]; unfold write_account; by repeat case_match).
  clearbody m1. set (s2 := if _ || _ then _ else _). assert (m_hot s2.1 = m_hot m1) as E by (subst s2; by destruct (_ || _)).
  destruct s2 as [m2 added]. cbn [fst] in E. set (s3 := if push then _ else _).
  assert (h_id s3.1 = h_id (m_hot m2) ∧ h_hs s3.1 = h_hs (m_hot m2)) as [E3 E4].
  { subst s3. destruct push; [|done]. assert (∀ s i, h_id (foldl (push_member i) s egs).1 = h_id s.1 ∧ h_hs (foldl (push_member i) s egs).1 = h_hs s.1) as Hp.
    { intros s i. revert s. induction egs as [|eg egs' IH]; intros [h n]; [done|]. cbn [foldl]. destruct (IH (push_member i (h, n) eg)) as [-> ->]. done. }
    assert (∀ s, h_id (foldl (λ s i, foldl (push_member i) s egs) s members).1 = h_id s.1 ∧ h_hs (foldl (λ s i, foldl (push_member i) s egs) s members).1 = h_hs s.1) as H.
    { induction members as [|i members IH]; intros s; [done|]. cbn [foldl]. destruct (IH (foldl (push_member i) s egs)) as [-> ->]. apply Hp. }
    apply (H (m_hot m2, 0%nat)). }
  destruct s3 as [h3 pushed]. cbn in *. rewrite E3, E4, E, E1, E2. done.
Qed.

Lemma sync_proxies_hot merge now rows m :
  let h := m_hot m in let h' := m_hot (sync_proxies merge now rows m).1 in h_id h' = h_id h ∧ h_hs h' = h_hs h.
Proof.
  cbv zeta. unfold sync_proxies. assert (∀ s : Mat * nat, h_id (m_hot (foldl (sync_proxy merge now) s rows).1) = h_id (m_hot s.1) ∧
    h_hs (m_hot (foldl (sync_proxy merge now) s rows).1) = h_hs (m_hot s.1)) as H.
  { induction rows as [|r rows IH]; intros s; [done|]. cbn [foldl]. destruct (IH (sync_proxy merge now s r)) as [-> ->]. destruct s as [m1 n]. unfold sync_proxy.
    destruct (match keep_redis_lifecycle _ _ _ _ _ _ _ with true => _ | false => _ end) as [[[st bu] qu] sct]. by destruct (String.eqb st "active"). }
  specialize (H (m, 0%nat)). by destruct (foldl (sync_proxy merge now) (m, 0%nat) rows).
Qed.

Lemma foldl_life {A B} (mat : B → Mat) (f : B → A → B) l b :
  (∀ b a, same_life (m_hot (mat b)) (m_hot (mat (f b a)))) → same_life (m_hot (mat b)) (m_hot (mat (foldl f b l))).
Proof. intros Hf. revert b. induction l as [|a l IH]; intros b; [done|]. cbn [foldl]. etrans; [apply Hf|apply IH]. Qed.

Lemma sync_maintenance_life op m : (∀ egs, op ≠ drop_groups egs) → same_life (m_hot m) (m_hot (sync_maintenance op m).1).
Proof.
  intros Hd. destruct op as [eg types ids|ps|ps|pairs|egs]; cbn [sync_maintenance]; [..|by destruct (Hd egs)];
    change m with ((m, 0%nat).1) at 1; apply foldl_life.
  - intros [m1 n] i. unfold prune_one. destruct (kept_ready _ _); [done|]. by apply same_life_eq.
  - intros [m1 n] p. unfold prune_one. destruct (from_option _ _ _); [done|]. by apply same_life_eq.
  - intros [m1 n] p. by apply same_life_eq.
  - intros [m1 n] [i p]. unfold clear_binding. cbn [fst snd]. destruct (h_id (m_hot m1) !! i) as [d|] eqn:Hi; [|done]. destruct (bool_decide _); [|done].
    split; [|done]. intros j. cbn. destruct (decide (i = j)) as [<-|Hne]; [by rewrite lookup_insert_eq, Hi|by rewrite lookup_insert_ne].
Qed.

Lemma run_sync_kept_off i c m eg t : keeps_call i c m → kept_off (m_hot m) i eg t → kept_off (m_hot (run_sync c m)) i eg t.
Proof.
  destruct c as [args accounts ops|merge op push egs a now members|merge now rows|op]; cbn [run_sync keeps_call]; intros Hc Hk.
  - unfold sync_identities. set (s := (foldl (sync_account args) m accounts, _)) in *. assert (kept_off (m_hot s.1) i eg t) as Hs.
    { eapply untouched_kept_off; [|exact Hk]. subst s. cbn [fst]. clear. revert m. induction accounts as [|a accounts IH]; intros m; [done|]. cbn [foldl].
      etrans; [|apply IH]. destruct (sync_account_same args m a) as (E1 & _ & _ & E2 & _). split; [by rewrite E1|]. intros eg. by rewrite E2. }
    clearbody s. revert s Hc Hs. induction ops as [|op ops IH]; intros s Hc Hs; [done|]. cbn [foldl keeps_records] in *. destruct Hc as [H1 H2].
    apply IH; [done|]. by apply sync_record_kept_off.
  - destruct (sync_accounts_hot merge op push egs a now members m) as [E1 E2]. eapply untouched_kept_off; [|exact Hk]. split; [by rewrite E1|intros; by rewrite E2].
  - destruct (sync_proxies_hot merge now rows m) as [E1 E2]. eapply untouched_kept_off; [|exact Hk]. split; [by rewrite E1|intros; by rewrite E2].
  - eapply kept_off_life; [|exact Hk]. apply sync_maintenance_life. by intros egs ->.
Qed.

(** *** Runs that hold an identity *)

(** The row of a banned or quarantined identity holds it until [u], in milliseconds. *)
Definition holds_until (u : Z) (x : IdentityRec) : Prop :=
  (ir_state (x_row x) = StateBanned → ∀ e, ir_ban (x_row x) = Some e → u * 1000 ≤ e) ∧
  (ir_state (x_row x) = StateQuarantined → ∀ e, ir_quarantine (x_row x) = Some e → u * 1000 ≤ e).

(** Runs in which the database holds the identity: synchronisations do not bring it back,
    and the rows that expiry passes read hold it until [u].  With [rev], breakers may
    give cooldowns back. *)
Definition holding (rev : bool) (i u : Z) : View :=
  {| vw_sync := keeps_call i; vw_due := λ _ x, ir_hkey (x_row x) = i → holds_until u x; vw_revert := rev = true |}.
(** The same before [u]: passes that read a row of the identity start before it. *)
Definition holding_before (rev : bool) (i u : Z) : View :=
  {| vw_sync := keeps_call i; vw_due := λ ns x, ir_hkey (x_row x) = i → ns / 1000000 < u ∧ holds_until u x; vw_revert := rev = true |}.

Lemma holds_not_due u ns x : ns / 1000000 < u → holds_until u x → row_due ns x = false.
Proof.
  intros Hlt [Hb Hq]. assert (pg_time ns < u * 1000) as Hp.
  { unfold pg_time. apply Z.div_lt_upper_bound; [lia|]. apply Z.lt_nge. intros Hge. assert (u ≤ ns / 1000000); [|lia]. apply Z.div_le_lower_bound; lia. }
  unfold row_due, ban_due, quarantine_due, ended. destruct (String.eqb_spec (ir_state (x_row x)) StateBanned) as [E|_].
  - rewrite E. destruct (ir_ban (x_row x)) as [e|] eqn:He; [|done]. cbn. specialize (Hb E e eq_refl). rewrite orb_false_r. lia.
  - destruct (String.eqb_spec (ir_state (x_row x)) StateQuarantined) as [E|_]; [|done]. destruct (ir_quarantine (x_row x)) as [e|] eqn:He; [|done].
    cbn. specialize (Hq E e eq_refl). lia.
Qed.

Section kept.
Context {lua : LuaMath}.

(** Steps other than reverts keep an identity off. *)
Lemma astep_kept_off rev t s t' s' i u :
  astep (holding_before rev i u) (t, s) (t', s') →
  (∃ eg' at' window all limit egs, s' = (revert_lua eg' at' window all limit egs s).2 ∧ rev = true) ∨
  (∀ eg x, kept_off (site_hot s) i eg x → kept_off (site_hot s') i eg x).
Proof.
  intros H. inversion H; subst;
    try match goal with Ha : acquire_ready _ _ |- _ => right; intros eg1 x1; exact (kept_off_life _ _ _ _ _ (acquire_lua_life _ _ Ha)) end.
  - right. intros eg1 x1. exact (kept_off_life _ _ _ _ _ (renew_life _ _ _ _ _)).
  - right. intros eg1 x1. exact (kept_off_life _ _ _ _ _ (release_life _ _ _ _ _ _ _)).
  - right. intros eg1 x1. exact (kept_off_life _ _ _ _ _ (reap_life _ _ _ _ _)).
  - right. intros eg1 x1. exact (kept_off_life _ _ _ _ _ (retain_life _ _ _ _ _ _ _)).
  - right. intros eg1 x1. exact (kept_off_life _ _ _ _ _ (report_life _ _ (observe_lua_frame _ _ _ _))).
  - right. intros eg1 x1. by apply apply_kept_off.
  - right. intros eg1 x1. apply kept_off_life. unfold proxy_health_lua. destruct (h_px _ !! _); [|done]. by apply same_life_eq.
  - right. intros eg1 x1. by apply kept_off_life, same_life_eq.
  - right. intros eg1 x1. apply kept_off_life. match goal with He : expired s s' |- _ => destruct (ex_hot _ _ He) as (f & g & k & ->) end. by apply same_life_eq.
  - right. intros eg1 x1. by apply run_sync_kept_off.
  - left. by repeat eexists.
  - right. intros eg1 x1. apply untouched_kept_off. eapply transitions_untouched; [done|]. intros c Hc Hi.
    match goal with Hp : push_identities _ _ _ ∈ _ |- _ => destruct (RunExpiry_sound _ _ _ _ _ _ _ _ _ _ Hp Hc) as (id & row & Hrow & Hdue & ->) end.
    match goal with Hv : ∀ id x, _ → vw_due _ _ _ |- _ => destruct (Hv id row Hrow Hi) as [Hlt Hold] end. by rewrite (holds_not_due u _ row Hlt Hold) in Hdue.
  - right. intros eg1 x1. apply untouched_kept_off, pushAccount_untouched.
Qed.

Lemma astep_barred rev p p' i u eg x :
  astep (holding_before rev i u) p p' → barred rev (site_hot p.2) i eg x → barred rev (site_hot p'.2) i eg x.
Proof.
  destruct p as [t s], p' as [t' s']. intros H Hb. destruct (astep_kept_off rev t s t' s' i u H) as [(eg' & at' & window & all & limit & egs & -> & ->)|Hk].
  - destruct Hb as (d & Hd & [Hr|[? _]]); [|done]. destruct (rv_id _ _ _ _ _ _ _ (revert_lua_reverted eg' at' window all limit egs s) i d Hd) as (scd & E & _).
    exists (with_scd scd d). split; [done|by left].
  - eapply barred_mono; [|exact Hb]. intros u'. apply Hk.
Qed.

Lemma arun_barred rev p p' i u eg x :
  rtc (astep (holding_before rev i u)) p p' → barred rev (site_hot p.2) i eg x → barred rev (site_hot p'.2) i eg x.
Proof. induction 1 as [|p p1 p' Hs _ IH]; [done|]. intros Hk. apply IH. by eapply astep_barred. Qed.

(** A step at any time. *)
Definition auto_step (v : View) (s s' : Site) : Prop := ∃ t t', astep v (t, s) (t', s').

Lemma auto_barred rev s s' i u eg x :
  rtc (auto_step (holding_before rev i u)) s s' → barred rev (site_hot s) i eg x → barred rev (site_hot s') i eg x.
Proof. induction 1 as [|s s1 s' (t & t' & Hs) _ IH]; [done|]. intros Hk. apply IH. by eapply (astep_barred rev (t, s) (t', s1)). Qed.
Lemma auto_kept_off s s' i u eg x :
  rtc (auto_step (holding_before false i u)) s s' → kept_off (site_hot s) i eg x → kept_off (site_hot s') i eg x.
Proof. intros Hs Hk. eapply barred_kept_off, auto_barred; [exact Hs|by apply kept_off_barred]. Qed.

(** Time passes. *)
Lemma astep_time v p p' : astep v p p' → p.1 ≤ p'.1.
Proof. by destruct 1. Qed.
Lemma arun_time v p p' : rtc (astep v) p p' → p.1 ≤ p'.1.
Proof. induction 1 as [|p p1 p' H%astep_time _ IH]; [done|lia]. Qed.

(** A run that holds the identity and ends before [u] is one before [u]. *)
Lemma holding_lift rev i u p p' : rtc (astep (holding rev i u)) p p' → p'.1 < u → rtc (astep (holding_before rev i u)) p p'.
Proof.
  induction 1 as [|p p1 p' Hs Hr IH]; [done|]. intros Hu. pose proof (arun_time _ _ _ Hr) as Ht. eapply rtc_l; [|by apply IH]. clear IH Hr.
  destruct Hs; try by econstructor. cbn in Ht. eapply as_pass; [done..| |done|done|done]. intros id x Hx Hi. split; [lia|].
  match goal with Hv : ∀ id x, _ → vw_due _ _ _ |- _ => by apply (Hv id x Hx) end.
Qed.

(** *** Checkpoints *)

Lemma apply_lua_obs now token ops s : s_obs (apply_lua now token ops s).2 = s_obs s.
Proof.
  unfold apply_lua. destruct (ap_operations_kept now ops s) as [E _]. destruct (String.eqb _ _); [done|]. destruct (s_axr s !! token); [done|].
  by destruct (ap_operations now ops s).
Qed.
Lemma revert_obs eg now window all limit egs s : s_obs (revert_lua eg now window all limit egs s).2 = s_obs s.
Proof.
  unfold revert_lua, revert_endpoint. destruct (foldl _ _ _) as [touched h]. destruct all; [|done]. unfold revert_site. by destruct (foldl _ _ _) as [touched' h'].
Qed.

(** Only reports move checkpoints. *)
Lemma astep_ckpt v p p' :
  astep v p p' → ob_ckpt (s_obs p'.2) = ob_ckpt (s_obs p.2) ∨ ∃ shard sid full, stream_id sid ∧ p'.2 = (observe_lua shard sid full p.2).2.
Proof.
  destruct 1; cbn [snd]; try (left; reflexivity).
  - right. eauto.
  - left. by rewrite apply_lua_obs.
  - left. unfold proxy_health_lua. by destruct (h_px _ !! _).
  - left. by eapply ex_ckpt.
  - left. by rewrite revert_obs.
  - left. by rewrite apply_lua_obs.
  - left. unfold pushAccount. by rewrite apply_lua_obs.
Qed.

(** Checkpoints never go back. *)
Lemma auto_ckpt v s s' shard sid : auto_step v s s' → ckpt_past s shard sid → ckpt_past s' shard sid.
Proof.
  intros (t & t' & [E|(shard0 & sid0 & full & Hid & E)]%astep_ckpt) Hk; cbn [snd] in E; [unfold ckpt_past in *; by rewrite E|]. subst s'.
  by apply (ckpt_past_deliver s shard sid (shard0, sid0, full)).
Qed.

(** C6: an identity that is kept off stays off.  Suppose that the lifecycle of the
    identity withholds it (it is neither active nor pending) or, as long as no breaker
    reverts cooldowns, that it cools down on the site or on the group past the time of
    an acquire call.  Then the call does not lease it, whatever leases, renewals,
    releases, reports, automatic actions, health checks, breaker evaluations,
    synchronisations, expiry passes and expiries of keys happened in between, provided
    that everything happened before [u], that the rows that expiry passes read hold
    the identity until [u] if they ban or quarantine it, and that the records
    that synchronisations apply to it are not schedulable or are outranked by a newer
    change in Redis.  Only operators, rows that end earlier and, for cooldowns, a breaker
    that opens bring it back.  Runs with an operator who archives the identity or deletes
    endpoint groups are left out. *)
Theorem kept_off_until_restored rev u t s t' s' args i moved out h' :
  barred rev (site_hot s) i (a_eg args) (a_now args) → rtc (astep (holding rev i u)) (t, s) (t', s') → t' < u →
  acquire_ready args (site_hot s') → acquire_lua args (site_hot s') = (ReplyOK moved out, h') → i ∉ lo_i <$> out.
Proof.
  intros Hk Hs Hu Hr H. eapply kept_off_not_leased; [exact Hr|exact H|]. eapply barred_kept_off.
  by apply (arun_barred rev _ _ i u _ _ (holding_lift rev i u _ _ Hs Hu)).
Qed.
End kept.

(** ** Runs *)

#[local] Existing Instance flat_math.

(** An identity is synchronised into an empty site and leased. *)
Definition demo_synced : Site := on_mat (λ m, (sync_identities (demo_sync 500) [] [sync_op (demo_row 10 "active" 400)] m).1) no_site.

Lemma demo_synced_step : sstep (0, no_site) (500, demo_synced).
Proof.
  apply ss_auto. apply (as_sync lease_safe 0 500 (call_identities (demo_sync 500) [] [sync_op (demo_row 10 "active" 400)]) no_site); [lia|].
  intros r Hr. left. unfold held_by. vm_compute. reflexivity.
Qed.

Lemma demo_synced_ready : acquire_ready (demo_args 1000 ["lse_a"; "lse_b"]) (site_hot demo_synced).
Proof.
  split; [cbn; lia|apply demo_prefixes|cbn; lia|]. intros p n _. assert (h_ls (site_hot demo_synced) = ∅) as -> by (vm_compute; reflexivity).
  apply lookup_empty.
Qed.

(** Identity 10 of the synchronised site is banned; then a lease is released, a report
    arrives, a synchronisation finds the ban in the row, and an expiry pass ends the ban
    of identity 11 only. *)
Definition demo_banned : Site := site_at demo_executed.2 1.
Definition demo_released : Site := set_hot (release_lua 2500 "lse_a" 0 "" None [] (site_hot demo_banned)).2 demo_banned.
Definition demo_observed : Site := (observe_lua 0 (7, 0) None demo_released).2.
Definition demo_call : SyncCall := call_identities (demo_sync 2700) [] [sync_op (demo_row 10 "banned" 400)].
Definition demo_db : Rows :=
  {| r_identities := {["i10"%string := demo_identity 10 "banned" 2000000 (Some 900000000) None; "i11"%string := demo_identity 11 "banned" 100000 (Some 2000000) None]};
     r_accounts := ∅; r_proxies := ∅ |}.
Definition demo_changed : list changedIdentity := [changed_to StatePending ("i11"%string, demo_identity 11 "banned" 100000 (Some 2000000) None)].
Definition demo_catalog_site : CatalogSite := default {| xs_Key := 0; xs_Groups := ∅ |} (demo_catalog "s").
Definition demo_later : Site :=
  (apply_lua 2800 "" (transition_op demo_catalog_site (released_at 2800000000 StatePending) <$> demo_changed) (on_mat (run_sync demo_call) demo_observed)).2.

Lemma demo_rows_hold id x : r_identities demo_db !! id = Some x → ir_hkey (x_row x) = 10 → holds_until 900000 x.
Proof.
  unfold demo_db. cbn [r_identities]. intros [[<- <-]|[_ [<- <-]%lookup_singleton_Some]]%lookup_insert_Some; [|done].
  intros _. split; [|done]. intros _ e [= <-]. done.
Qed.

Lemma demo_later_run : rtc (astep (holding true 10 900000)) (2000, demo_banned) (2800, demo_later).
Proof.
  apply (rtc_l _ _ (2500, demo_released)); [by apply as_release|].
  apply (rtc_l _ _ (2600, demo_observed)); [apply as_observe; [lia|by apply (bool_decide_unpack _); vm_compute]|].
  apply (rtc_l _ _ (2700, on_mat (run_sync demo_call) demo_observed)); [apply as_sync; [lia|]|].
  { split; [|done]. intros _. eexists. split; [reflexivity|]. by left. }
  apply rtc_once. eapply (as_pass (holding true 10 900000) 2700 2800 2800000000 demo_catalog (λ _, (""%string, ""%string)) no_faults demo_db "s" demo_catalog_site
    StatePending demo_changed); [lia|by vm_compute|exact demo_rows_hold| |reflexivity|done].
  apply list_elem_of_In. vm_compute. tauto.
Qed.

Lemma demo_later_ready : acquire_ready (demo_args 3000 ["lse_c"]) (site_hot demo_later).
Proof.
  split; [cbn; lia|apply NoDup_singleton|cbn; lia|]. intros p n _. assert (h_ls (site_hot demo_later) = ∅) as -> by (vm_compute; reflexivity).
  apply lookup_empty.
Qed.

Lemma kept_off_until_restored_witness :
  ∃ moved out h', acquire_lua (demo_args 3000 ["lse_c"]) (site_hot demo_later) = (ReplyOK moved out, h') ∧ 10 ∉ lo_i <$> out.
Proof.
  destruct (acquire_lua (demo_args 3000 ["lse_c"]) (site_hot demo_later)) as [reply h'] eqn:E.
  destruct reply as [moved out| | |] eqn:Er; try (apply (f_equal fst) in E; vm_compute in E; discriminate E).
  exists moved, out, h'. split; [reflexivity|].
  eapply (kept_off_until_restored true 900000 2000 demo_banned 2800 demo_later (demo_args 3000 ["lse_c"]) 10).
  - destruct (h_id (site_hot demo_banned) !! 10) as [d|] eqn:Hd; [|vm_compute in Hd; discriminate Hd].
    exists d. split; [exact Hd|]. left. vm_compute in Hd. injection Hd as <-. reflexivity.
  - apply demo_later_run.
  - lia.
  - apply demo_later_ready.
  - exact E.
Defined.

Definition demo_synced_leased : Site := set_hot (acquire_lua (demo_args 1000 ["lse_a"; "lse_b"]) (site_hot demo_synced)).2 demo_synced.

Lemma demo_synced_leased_step : sstep (500, demo_synced) (1000, demo_synced_leased).
Proof. refine (ss_auto _ _ (as_acquire lease_safe 500 (demo_args 1000 ["lse_a"; "lse_b"]) demo_synced _ demo_synced_ready)). cbn. lia. Qed.

Lemma site_runs_witness : hreachable (1000, site_hot demo_synced_leased) ∧ size (h_ls (site_hot demo_synced_leased)) = 1%nat.
Proof.
  split; [|vm_compute; reflexivity].
  exact (proj1 (site_runs 1000 demo_synced_leased (sr_step _ _ (sr_step _ _ (sr_new 0) demo_synced_step) demo_synced_leased_step))).
Defined.
