(* ===== verification/IdGen.v ===== *)
(** * Identifiers

    internal/pkg/idgen: entity ids, and lease ids, which carry the key of their
    site and the shard of their reports.  [ParseLeaseID] accepts exactly the ids
    that [LeasePrefix] and [FormatShard] write, so a report is routed to the site
    and the shard of its lease without a lookup. *)

From S2P Require Import Prelude GoStrings GoTime.

Local Open Scope Z_scope.

(** ** strconv in other bases *)

Definition base_digit (d : Z) : ascii := ascii_of_N (Z.to_N (if d <? 10 then 48 + d else 87 + d)).
Definition base_value (c : ascii) : option Z :=
  if byte_in 48 57 c then Some (bval c - 48)
  else if byte_in 97 122 c then Some (bval c - 87)
  else if byte_in 65 90 c then Some (bval c - 55) else None.

(** [strconv.FormatInt(n, base)] of a number that is not negative and has at most
    [fuel] digits. *)
Fixpoint format_base (base : Z) (fuel : nat) (n : Z) (acc : bytes) : bytes :=
  match fuel with
  | O => acc
  | S fuel =>
      let acc := base_digit (n mod base) :: acc in
      if n / base =? 0 then acc else format_base base fuel (n / base) acc
  end.
Definition FormatInt36 (n : Z) : bytes := format_base 36 13 n [].

Definition read_base (base : Z) (x : option Z) (s : bytes) : option Z :=
  foldl (λ x c, x ← x; d ← base_value c; if d <? base then Some (x * base + d) else None) x s.

(** [strconv.ParseInt(s, base, bits)] for a base other than 0; [None] is an error. *)
Definition ParseIntBase (base bits : Z) (s : bytes) : option Z :=
  let '(neg, ds) := match s with
                    | c :: s' => if decide (c = "-"%char) then (true, s') else if decide (c = "+"%char) then (false, s') else (false, s)
                    | [] => (false, s)
                    end in
  match ds with
  | [] => None
  | _ =>
      x ← read_base base (Some 0) ds;
      if neg then if x <=? 2 ^ (bits - 1) then Some (- x) else None
      else if x <? 2 ^ (bits - 1) then Some x else None
  end.

(** ** Ids *)

Definition hexLen : nat := 32.
Definition isLowerHex (s : bytes) : bool := forallb (λ c, byte_in 48 57 c || byte_in 97 102 c) s.

Definition Valid (id prefix : bytes) : bool :=
  has_prefix id (prefix ++ ["_"%char]) &&
  let rest := drop (S (length prefix)) id in (length rest =? hexLen)%nat && isLowerHex rest.

Record LeaseRef := { lr_SiteKey : Z; lr_Shard : Z }.
Definition lease_tag : bytes := bs "lse".

(** [hex] is the UUID. *)
Definition LeasePrefix (hex : bytes) (siteKey : Z) : bytes :=
  lease_tag ++ "_"%char :: hex ++ "_"%char :: FormatInt36 siteKey ++ ["_"%char].
(** ["%02x"] *)
Definition FormatShard (shard : Z) : bytes :=
  let h := format_base 16 16 shard [] in if (length h <? 2)%nat then "0"%char :: h else h.

Definition ParseLeaseID (id : bytes) : option LeaseRef :=
  if (length id <? length lease_tag + 1 + hexLen + 1 + 1 + 1 + 2)%nat || negb (has_prefix id (lease_tag ++ ["_"%char])) then None
  else match split_byte "_"%char (drop (S (length lease_tag)) id) with
  | [hex; key; shard] =>
      if negb (length hex =? hexLen)%nat || negb (isLowerHex hex) || negb (length shard =? 2)%nat || negb (isLowerHex shard) then None
      else if (length key =? 0)%nat || (13 <? length key)%nat then None
      else
        k ← ParseIntBase 36 64 key;
        if (k <=? 0) || negb (bool_decide (FormatInt36 k = key)) then None
        else n ← ParseIntBase 16 32 shard; Some {| lr_SiteKey := k; lr_Shard := n |}
  | _ => None
  end.

Definition report_byte (c : ascii) : bool :=
  byte_in 97 122 c || byte_in 65 90 c || byte_in 48 57 c ||
  bool_decide (c ∈ ["_"%char; "."%char; ":"%char; "-"%char]).
Definition ValidReportID (id : bytes) : bool :=
  negb (length id =? 0)%nat && negb (64 <? length id)%nat && forallb report_byte id.

(** ** Numerals *)

Definition lower_digit (base : Z) (c : ascii) : Prop := ∃ d, 0 ≤ d < base ∧ c = base_digit d.

Lemma base_digit_bval d : 0 ≤ d < 36 → bval (base_digit d) = if d <? 10 then 48 + d else 87 + d.
Proof.
  intros Hd. unfold base_digit, bval. rewrite N_ascii_embedding; [|destruct (Z.ltb_spec d 10); lia]. destruct (Z.ltb_spec d 10); lia.
Qed.

Lemma base_digit_value d : 0 ≤ d < 36 → base_value (base_digit d) = Some d.
Proof.
  intros Hd. unfold base_value, byte_in. rewrite base_digit_bval by done. destruct (Z.ltb_spec d 10).
  - rewrite (proj2 (andb_true_iff _ _)) by lia. f_equal. lia.
  - destruct (_ && _) eqn:E1; [lia|]. rewrite (proj2 (andb_true_iff _ _)) by lia. f_equal. lia.
Qed.

Lemma base_digit_ne d c : 0 ≤ d < 36 → base_value c = None → base_digit d ≠ c.
Proof. intros Hd Hc <-. by rewrite base_digit_value in Hc. Qed.

Section base.
Variable base : Z.
Hypothesis base_ok : 2 ≤ base ≤ 36.

Lemma format_base_app fuel n acc : format_base base fuel n acc = format_base base fuel n [] ++ acc.
Proof.
  revert n acc. induction fuel as [|fuel IH]; intros n acc; [done|]. cbn [format_base]. destruct (_ =? 0); [done|].
  rewrite (IH _ (_ :: acc)), (IH _ [_]), <- app_assoc. done.
Qed.

Lemma format_base_S fuel n acc :
  format_base base (S fuel) n acc =
    if n / base =? 0 then base_digit (n mod base) :: acc else format_base base fuel (n / base) (base_digit (n mod base) :: acc).
Proof. done. Qed.

Lemma format_base_spec fuel n :
  0 ≤ n < base ^ Z.of_nat fuel →
  Forall (lower_digit base) (format_base base fuel n []) ∧ read_base base (Some 0) (format_base base fuel n []) = Some n ∧
  (length (format_base base fuel n []) ≤ fuel)%nat.
Proof.
  revert n. induction fuel as [|fuel IH]; intros n Hn; [cbn in *; split_and!; [constructor|f_equal; lia|lia]|].
  pose proof (Z.mod_pos_bound n base ltac:(lia)) as Hm. pose proof (Z.div_mod n base ltac:(lia)) as Hd.
  assert (base_value (base_digit (n mod base)) = Some (n mod base)) as Hv by (apply base_digit_value; lia).
  assert (lower_digit base (base_digit (n mod base))) as Hl by (by exists (n mod base)).
  cbn [format_base]. destruct (n / base =? 0) eqn:E.
  - apply Z.eqb_eq in E. split_and!; [by repeat constructor| |cbn; lia]. cbn. rewrite Hv. cbn. rewrite (proj2 (Z.ltb_lt _ _)) by lia. f_equal. lia.
  - rewrite Nat2Z.inj_succ, Z.pow_succ_r in Hn by lia. destruct (IH (n / base)) as (Ha & Hr & Hlen).
    { split; [apply Z.div_pos; lia|apply Z.div_lt_upper_bound; lia]. }
    rewrite format_base_app. split_and!.
    + apply Forall_app; split; [done|by repeat constructor].
    + unfold read_base in *. rewrite foldl_app, Hr. cbn. rewrite Hv. cbn. rewrite (proj2 (Z.ltb_lt _ _)) by lia. f_equal. lia.
    + rewrite length_app. cbn. lia.
Qed.

Lemma format_base_cons fuel n : fuel ≠ O → format_base base fuel n [] ≠ [].
Proof.
  destruct fuel as [|fuel]; [done|]. intros _. cbn [format_base]. destruct (_ =? 0); [done|]. rewrite format_base_app.
  by destruct (format_base base fuel (n / base) []).
Qed.

(** [ParseInt] reads digits without a sign. *)
Lemma ParseIntBase_digits bits s x :
  s ≠ [] → Forall (lower_digit base) s → read_base base (Some 0) s = Some x → x < 2 ^ (bits - 1) → ParseIntBase base bits s = Some x.
Proof.
  intros Hs Hf Hr Hx. unfold ParseIntBase. destruct s as [|c s]; [done|]. apply Forall_cons in Hf as [(d & Hd & ->) _].
  rewrite !decide_False by (apply base_digit_ne; [lia|done]). rewrite Hr. cbn. by rewrite (proj2 (Z.ltb_lt _ _)).
Qed.
End base.

(** ** Lease ids *)

Lemma split_byte_none c s : c ∉ s → split_byte c s = [s].
Proof. intros H. rewrite split_byte_index. by rewrite (proj2 (index_byte_none c s) H). Qed.

Lemma split_byte_app c a b : c ∉ a → split_byte c (a ++ c :: b) = a :: split_byte c b.
Proof.
  induction a as [|d a IH]; intros H; cbn.
  - by rewrite decide_True.
  - apply not_elem_of_cons in H as [Hne H]. rewrite decide_False by done. by rewrite IH.
Qed.

(** Splitting and joining. *)
Lemma split_byte_join c s w ws : split_byte c s = w :: ws → s = w ++ mjoin ((λ v, c :: v) <$> ws).
Proof.
  revert w ws. induction s as [|d s IH]; intros w ws; cbn; [intros [= <- <-]; done|].
  destruct (decide (c = d)) as [<-|Hne].
  - intros [= <- <-]. destruct (split_byte_cons c s) as (v & vs & E). rewrite E. cbn. f_equal. by apply IH.
  - destruct (split_byte_cons c s) as (v & vs & E). rewrite E. intros [= <- <-]. cbn. f_equal. by apply IH.
Qed.

Lemma lower_hex_digit c : byte_in 48 57 c || byte_in 97 102 c = true ↔ lower_digit 16 c.
Proof.
  unfold byte_in. rewrite orb_true_iff, !andb_true_iff, !Z.leb_le. split.
  - intros H. exists (if bval c <? 58 then bval c - 48 else bval c - 87). split; [destruct (Z.ltb_spec (bval c) 58); lia|].
    apply bval_inj. rewrite base_digit_bval by (destruct (Z.ltb_spec (bval c) 58); lia).
    destruct (Z.ltb_spec (bval c) 58); [rewrite (proj2 (Z.ltb_lt _ _)) by lia; lia|rewrite (proj2 (Z.ltb_ge _ _)) by lia; lia].
  - intros (d & Hd & ->). rewrite base_digit_bval by lia. destruct (Z.ltb_spec d 10); lia.
Qed.

Lemma isLowerHex_iff s : isLowerHex s = true ↔ Forall (lower_digit 16) s.
Proof.
  unfold isLowerHex. rewrite forallb_forall, Forall_forall. setoid_rewrite list_elem_of_In. split; intros H c Hc; apply lower_hex_digit; by apply H.
Qed.

Lemma lower_digits_plain base s : base ≤ 36 → Forall (lower_digit base) s → "_"%char ∉ s.
Proof.
  intros Hb Hs Hin. rewrite Forall_forall in Hs. destruct (Hs _ Hin) as (d & Hd & E). symmetry in E. revert E. apply base_digit_ne; [lia|done].
Qed.

Lemma FormatShard_digits n : 0 ≤ n < 256 → FormatShard n = [base_digit (n / 16); base_digit (n mod 16)].
Proof.
  intros Hn. unfold FormatShard. rewrite format_base_S.
  assert (n / 16 < 16) by (apply Z.div_lt_upper_bound; lia). assert (0 ≤ n / 16) by (apply Z.div_pos; lia).
  destruct (n / 16 =? 0) eqn:E.
  - apply Z.eqb_eq in E. rewrite E. done.
  - rewrite format_base_S, (Z.div_small (n / 16) 16), (Z.mod_small (n / 16) 16) by lia. done.
Qed.

Lemma shard_lower a b : 0 ≤ a < 16 → 0 ≤ b < 16 → Forall (lower_digit 16) [base_digit a; base_digit b].
Proof. intros Ha Hb. apply Forall_cons. split; [by exists a|]. apply Forall_cons. split; [by exists b|constructor]. Qed.

Lemma ParseIntBase_shard a b :
  0 ≤ a < 16 → 0 ≤ b < 16 → ParseIntBase 16 32 [base_digit a; base_digit b] = Some (a * 16 + b).
Proof.
  intros Ha Hb. apply ParseIntBase_digits; [lia|done| | |cbn; lia].
  - by apply shard_lower.
  - cbn. rewrite !base_digit_value by lia. cbn. rewrite (proj2 (Z.ltb_lt a _)), (proj2 (Z.ltb_lt b _)) by lia. done.
Qed.

Lemma ParseIntBase_36 k : 0 ≤ k ≤ int64_max → ParseIntBase 36 64 (FormatInt36 k) = Some k.
Proof.
  intros Hk. unfold int64_max in Hk. destruct (format_base_spec 36 ltac:(lia) 13 k) as (H1 & H2 & _); [cbn; lia|].
  apply ParseIntBase_digits; [lia|by apply format_base_cons|done|done|lia].
Qed.

Lemma base_value_nonneg c d : base_value c = Some d → 0 ≤ d.
Proof.
  unfold base_value, byte_in. intros H. repeat (destruct (_ && _) eqn:E in H; [apply andb_true_iff in E as [?%Z.leb_le ?%Z.leb_le]; simplify_eq; lia|clear E]). done.
Qed.

Lemma read_base_None base s : read_base base None s = None.
Proof. unfold read_base. induction s as [|c s IH]; [done|]. exact IH. Qed.

Lemma read_base_nonneg base s x y : 0 ≤ base → 0 ≤ x → read_base base (Some x) s = Some y → 0 ≤ y.
Proof.
  intros Hb. revert x. induction s as [|c s IH]; intros x Hx; [cbn; intros [= <-]; done|]. 
  change (read_base base (Some x) (c :: s)) with
    (read_base base (d ← base_value c; if d <? base then Some (x * base + d) else None) s).
  destruct (base_value c) as [d|] eqn:Hd; cbn [mbind option_bind]; [destruct (d <? base)|].
  - apply base_value_nonneg in Hd. intros H. eapply IH; [|exact H]. nia.
  - by rewrite read_base_None.
  - by rewrite read_base_None.
Qed.

Lemma ParseIntBase_max base s x : 0 ≤ base → ParseIntBase base 64 s = Some x → x ≤ int64_max.
Proof.
  unfold ParseIntBase, int64_max. intros Hb. destruct (match s with [] => _ | _ => _ end) as [neg ds]. destruct ds as [|c ds]; [done|].
  destruct (read_base base (Some 0) (c :: ds)) as [y|] eqn:E; [|done]. apply read_base_nonneg in E; [|done..].
  cbn [mbind option_bind]. change (64 - 1) with 63. intros H.
  destruct neg; [destruct (Z.leb_spec y (2 ^ 63)) in H|destruct (Z.ltb_spec y (2 ^ 63)) in H]; simplify_eq; lia.
Qed.

(** The ids that the scheduler writes for a site and a shard. *)
Definition lease_id_of (ref : LeaseRef) (id : bytes) : Prop :=
  ∃ hex, length hex = hexLen ∧ isLowerHex hex = true ∧ 0 < lr_SiteKey ref ≤ int64_max ∧ 0 ≤ lr_Shard ref < 256 ∧
    id = LeasePrefix hex (lr_SiteKey ref) ++ FormatShard (lr_Shard ref).

Lemma ParseLeaseID_sound id ref : ParseLeaseID id = Some ref → lease_id_of ref id.
Proof.
  unfold ParseLeaseID. destruct (_ || _) eqn:E0; [done|]. apply orb_false_iff in E0 as [_ E0]. apply negb_false_iff, has_prefix_spec in E0 as [rest ->].
  rewrite <- app_assoc. change (S (length lease_tag)) with (length (lease_tag ++ ["_"%char])). rewrite app_assoc, drop_app_length.
  destruct (split_byte "_"%char rest) as [|hex [|key [|shard [|]]]] eqn:Es; try done. apply split_byte_join in Es. cbn [fmap list_fmap mjoin list_join] in Es. rewrite app_nil_r in Es.
  destruct (_ || _ || _ || _) eqn:E1; [done|]. rewrite !orb_false_iff, !negb_false_iff, !Nat.eqb_eq in E1. destruct E1 as [[[H1 H2] H3] H4].
  destruct (_ || _); [done|]. destruct (ParseIntBase 36 64 key) as [k|] eqn:Hk; [|done]. cbn [mbind option_bind].
  destruct (_ || _) eqn:E2; [done|]. rewrite orb_false_iff, negb_false_iff, bool_decide_eq_true, Z.leb_gt in E2. destruct E2 as [Hpos Hkey].
  apply isLowerHex_iff in H4. destruct shard as [|a [|b [|]]]; try done.
  apply Forall_cons in H4 as [(da & Ha & ->) H4]. apply Forall_cons in H4 as [(db & Hb & ->) _].
  rewrite ParseIntBase_shard by done. cbn [mbind option_bind]. intros [= <-]. exists hex. cbn [lr_SiteKey lr_Shard]. split_and!; try done; try lia.
  + by eapply (ParseIntBase_max 36).
  + subst. rewrite FormatShard_digits by lia. rewrite (Z.div_add_l da 16 db), (Z.div_small db 16), Z.add_0_r by lia.
    assert ((da * 16 + db) mod 16 = db) as -> by (rewrite Z.add_comm, Z_mod_plus_full; by apply Z.mod_small).
    unfold LeasePrefix. by repeat (rewrite <- ?app_assoc; cbn [app]).
Qed.

Lemma ParseLeaseID_complete id ref : lease_id_of ref id → ParseLeaseID id = Some ref.
Proof.
  unfold ParseLeaseID. intros (hex & H1 & H2 & Hk & Hn & ->). destruct ref as [k n]. cbn [lr_SiteKey lr_Shard] in *. rewrite FormatShard_digits by done.
  assert (0 ≤ n / 16 < 16) as Hq by (split; [apply Z.div_pos; lia|apply Z.div_lt_upper_bound; lia]). pose proof (Z.mod_pos_bound n 16 ltac:(lia)) as Hm.
  set (shard := [base_digit (n / 16); base_digit (n mod 16)]). assert (Forall (lower_digit 16) shard) as Hsh by (by apply shard_lower).
  unfold int64_max in Hk. destruct (format_base_spec 36 ltac:(lia) 13 k) as (K1 & _ & K3); [cbn; lia|]. fold (FormatInt36 k) in K1, K3.
  assert (0 < length (FormatInt36 k))%nat as K4 by (destruct (FormatInt36 k) eqn:E; [by apply format_base_cons in E|cbn; lia]).
  assert (LeasePrefix hex k ++ shard = (lease_tag ++ ["_"%char]) ++ hex ++ "_"%char :: FormatInt36 k ++ "_"%char :: shard) as -> by (unfold LeasePrefix; by repeat (rewrite <- ?app_assoc; cbn [app])).
  assert (has_prefix ((lease_tag ++ ["_"%char]) ++ hex ++ "_"%char :: FormatInt36 k ++ "_"%char :: shard) (lease_tag ++ ["_"%char]) = true) as ->
    by (apply has_prefix_spec; by eexists).
  rewrite (proj2 (Nat.ltb_ge _ _)).
  2:{ rewrite !length_app. cbn [length]. rewrite length_app. cbn [length]. unfold shard. cbn [length]. rewrite H1. lia. }
  cbn [negb orb]. change (S (length lease_tag)) with (length (lease_tag ++ ["_"%char])). rewrite drop_app_length.
  apply isLowerHex_iff in H2. rewrite split_byte_app by (by apply (lower_digits_plain 16)). rewrite split_byte_app by (by apply (lower_digits_plain 36)).
  rewrite split_byte_none by (by apply (lower_digits_plain 16)). apply isLowerHex_iff in H2, Hsh. rewrite H1, H2, Hsh. change (length shard =? 2)%nat with true. rewrite Nat.eqb_refl. cbn [negb orb].
  destruct ((length (FormatInt36 k) =? 0)%nat || _) eqn:E; [apply orb_true_iff in E as [E|E]; [apply Nat.eqb_eq in E; lia|apply Nat.ltb_lt in E; lia]|].
  rewrite ParseIntBase_36 by (unfold int64_max; lia). cbn [mbind option_bind]. rewrite (proj2 (Z.leb_gt _ _)) by lia. rewrite bool_decide_eq_true_2 by done.
  cbn [negb orb]. unfold shard. rewrite ParseIntBase_shard by lia. cbn. do 2 f_equal. pose proof (Z.div_mod n 16). lia.
Qed.

(** C38: lease ids round trip: parsing succeeds exactly on the ids that the scheduler
    writes, a prefix with 32 hex digits and the site key, then the two hex digits
    of the shard, and returns that key and that shard. *)
Theorem ParseLeaseID_iff id ref : ParseLeaseID id = Some ref ↔ lease_id_of ref id.
Proof. split; [apply ParseLeaseID_sound|apply ParseLeaseID_complete]. Qed.
