(* ===== verification/Effects.v ===== *)
(** * Programs of calls

    A process that talks to services is a program of calls: a tree that continues
    with the answer of each call.  A machine says what a call does to the shared
    state and what it leaves behind, under a fate that decides whether and how it is
    answered; the process may die in a call.  Between two calls other processes
    change the state, and the process may die after any call.  [wp] is a weakest
    precondition under what the others may do, and [wp_interp] carries it to every
    run. *)

From S2P Require Import Prelude.

Inductive prog (C : Type → Type) (A : Type) : Type :=
| Ret (a : A)
| Call (X : Type) (c : C X) (k : X → prog C A).
Arguments Ret {C A} a.
Arguments Call {C A X} c k.

Fixpoint prog_bind {C : Type → Type} {A B : Type} (p : prog C A) (k : A → prog C B) : prog C B :=
  match p with Ret a => k a | Call c k' => Call c (λ x, prog_bind (k' x) k) end.
Definition call {C : Type → Type} {X : Type} (c : C X) : prog C X := Call c Ret.

Declare Scope prog_scope.
Delimit Scope prog_scope with prog.
Notation "x <- p ;; k" := (prog_bind p (λ x, k)) (at level 100, p at next level, right associativity) : prog_scope.
Notation "p ;; k" := (prog_bind p (λ _, k)) (at level 100, right associativity) : prog_scope.

(** The program makes at most [n] calls. *)
Fixpoint calls_le {C : Type → Type} {A : Type} (n : nat) (p : prog C A) {struct p} : Prop :=
  match p with
  | Ret _ => True
  | Call c k => match n with O => False | S n => ∀ x, calls_le n (k x) end
  end.

Lemma calls_le_weaken {C : Type → Type} {A : Type} n m (p : prog C A) : (n ≤ m)%nat → calls_le n p → calls_le m p.
Proof.
  revert n m. induction p as [a|X c k IH]; intros n m Hnm H; [done|]. destruct n as [|n]; [done|]. destruct m as [|m]; [lia|].
  intros x. apply (IH x n m); [lia|apply H].
Qed.
Lemma calls_le_bind {C : Type → Type} {A B : Type} n m (p : prog C A) (k : A → prog C B) :
  calls_le n p → (∀ a, calls_le m (k a)) → calls_le (n + m) (prog_bind p k).
Proof.
  intros Hp Hk. revert n Hp. induction p as [a|X c k' IH]; intros n Hp; cbn [prog_bind].
  - eapply calls_le_weaken; [|apply Hk]. lia.
  - destruct n as [|n]; [done|]. intros x. apply IH, Hp.
Qed.

Section machine.
Context {C : Type → Type} {St F L : Type}.

(** The answer of a call, [None] when the process dies in it. *)
Variable exec : ∀ X, F → C X → St → option X * St.
Variable logged : ∀ X, C X → X → list L.

(** A run of at most [fuel] calls, after which the process dies: its result, what it
    left behind, and the state.  Before each call others may change the state. *)
Fixpoint interp {A : Type} (env : nat → St → St) (fates : nat → F) (fuel : nat) (p : prog C A) (st : St) {struct p} :
    option A * list L * St :=
  match p with
  | Ret a => (Some a, [], st)
  | Call c k =>
      match fuel with
      | O => (None, [], st)
      | S fuel =>
          match exec _ (fates fuel) c (env fuel st) with
          | (None, st) => (None, [], st)
          | (Some x, st) => let '(r, l, st) := interp env fates fuel (k x) st in (r, logged _ c x ++ l, st)
          end
      end
  end.

Lemma interp_ends {A : Type} env fates n fuel (p : prog C A) st :
  (∀ X fate (c : C X) st, (exec X fate c st).1 ≠ None) → calls_le n p → (n ≤ fuel)%nat →
  ∃ a, (interp env fates fuel p st).1.1 = Some a.
Proof.
  intros Hd. revert n fuel st. induction p as [a|X c k IH]; intros n fuel st Hp Hn; [by exists a|]. destruct n as [|n]; [done|].
  destruct fuel as [|fuel]; [lia|]. cbn [interp]. pose proof (Hd X (fates fuel) c (env fuel st)) as Hx.
  destruct (exec _ _ _ _) as [[x|] st1]; [|done]. clear Hx.
  destruct (IH x n fuel st1 (Hp x) ltac:(lia)) as [a Ha]. destruct (interp _ _ _ _ _) as [[r l] st2]. by exists a.
Qed.

(** [wp p Q I l st]: whatever becomes of the calls of [p] and whatever the others do
    within [rely] between them, [I] holds after every call, and [Q] of the result at
    the end.  [l] is what was left behind before. *)
Variable rely : St → St → Prop.

Fixpoint wp {A : Type} (p : prog C A) (Q : A → list L → St → Prop) (I : list L → St → Prop) (l : list L) (st : St) : Prop :=
  I l st ∧
  match p with
  | Ret a => Q a l st
  | Call c k =>
      ∀ st1 fate, rely st st1 →
        match exec _ fate c st1 with
        | (None, st2) => I l st2
        | (Some x, st2) => wp (k x) Q I (l ++ logged _ c x) st2
        end
  end.

Lemma wp_crash {A : Type} (p : prog C A) Q I l st : wp p Q I l st → I l st.
Proof. destruct p; by intros []. Qed.

Lemma wp_mono {A : Type} (p : prog C A) (Q Q' : A → list L → St → Prop) I l st :
  (∀ a l st, I l st → Q a l st → Q' a l st) → wp p Q I l st → wp p Q' I l st.
Proof.
  intros HQ. revert l st. induction p as [a|X c k IH]; intros l st [HI H]; (split; [done|]); [by apply HQ|].
  intros st1 fate Hr. specialize (H st1 fate Hr). destruct (exec _ _ _ _) as [[x|] st2]; [|done]. by apply IH.
Qed.

Lemma wp_bind {A B : Type} (p : prog C A) (k : A → prog C B) Q I l st :
  wp p (λ a l st, wp (k a) Q I l st) I l st → wp (prog_bind p k) Q I l st.
Proof.
  revert l st. induction p as [a|X c k' IH]; intros l st; [by intros [_ H]|]. intros [HI H]. split; [done|]. intros st1 fate Hr.
  specialize (H st1 fate Hr). destruct (exec _ _ _ _) as [[x|] st2]; [|done]. by apply IH.
Qed.

Lemma wp_step {X : Type} (c : C X) Q I l st :
  I l st →
  (∀ st1 fate, rely st st1 →
     match exec _ fate c st1 with
     | (None, st2) => I l st2
     | (Some x, st2) => I (l ++ logged _ c x) st2 ∧ Q x (l ++ logged _ c x) st2
     end) →
  wp (call c) Q I l st.
Proof. intros HI H. split; [done|]. intros st1 fate Hr. specialize (H st1 fate Hr). destruct (exec _ _ _ _) as [[x|] st2]; exact H. Qed.

(** Every run is covered. *)
Lemma wp_interp {A : Type} (p : prog C A) Q I l st env fates fuel :
  (∀ n st, rely st (env n st)) → wp p Q I l st →
  let '(r, l', st') := interp env fates fuel p st in I (l ++ l') st' ∧ (∀ a, r = Some a → Q a (l ++ l') st').
Proof.
  intros He. revert l st fuel. induction p as [a|X c k IH]; intros l st fuel [HI H].
  { cbn. rewrite app_nil_r. split; [done|]. by intros a' [= <-]. }
  destruct fuel as [|fuel]; cbn [interp]; [rewrite app_nil_r; split; [done|]; by intros a'|].
  specialize (H (env fuel st) (fates fuel) (He _ _)). destruct (exec _ _ _ _) as [[x|] st2]; [|rewrite app_nil_r; split; [done|]; by intros a'].
  specialize (IH x _ _ fuel H). destruct (interp _ _ _ _ _) as [[r l'] st']. by rewrite app_assoc.
Qed.
End machine.

(** ** Undisturbed runs

    Nobody else acts and every call has the same fate. *)
Section eval.
Context {C : Type → Type} {St : Type}.
Variable exec : ∀ X, C X → St → option X * St.

Fixpoint eval {A : Type} (p : prog C A) (st : St) : option A * St :=
  match p with
  | Ret a => (Some a, st)
  | Call c k => match exec _ c st with (Some x, st) => eval (k x) st | (None, st) => (None, st) end
  end.

Lemma eval_bind {A B : Type} (p : prog C A) (k : A → prog C B) st :
  eval (prog_bind p k) st = match eval p st with (Some a, st) => eval (k a) st | (None, st) => (None, st) end.
Proof. revert st. induction p as [a|X c k' IH]; intros st; [done|]. cbn. destruct (exec X c st) as [[x|] st1]; [apply IH|done]. Qed.
Lemma eval_call {X : Type} (c : C X) st : eval (call c) st = match exec _ c st with (Some x, st) => (Some x, st) | (None, st) => (None, st) end.
Proof. done. Qed.
End eval.

(** ** A machine beside something else

    The calls act on one half of the state, the others on both. *)
Section beside.
Context {C : Type → Type} {St G F L : Type}.
Variable exec : ∀ X, F → C X → St → option X * St.
Variable logged : ∀ X, C X → X → list L.
Definition exec_beside (X : Type) (fate : F) (c : C X) (s : St * G) : option X * (St * G) :=
  let '(r, st) := exec X fate c s.1 in (r, (st, s.2)).

(** What is known of the calls alone is known beside the rest, along with what both
    the calls and the others keep. *)
Lemma wp_beside (rely : St → St → Prop) (rely' : St * G → St * G → Prop) (J : St * G → Prop) {A : Type} (p : prog C A) Q I l s :
  (∀ s s', rely' s s' → rely s.1 s'.1 ∧ (J s → J s')) → (∀ X fate (c : C X) s, J s → J (exec_beside X fate c s).2) →
  J s → wp exec logged rely p Q I l s.1 →
  wp exec_beside logged rely' p (λ a l s, Q a l s.1 ∧ J s) (λ l s, I l s.1 ∧ J s) l s.
Proof.
  intros Hr Hc. revert l s. induction p as [a|X c k IH]; intros l s HJ [HI H]; (split; [done|]); [done|].
  intros s1 fate [Hs1 HJ1]%Hr. specialize (H s1.1 fate Hs1). specialize (Hc X fate c s1 (HJ1 HJ)). unfold exec_beside in *.
  destruct (exec X fate c s1.1) as [[x|] st2]; [by apply IH|done].
Qed.
End beside.

(** ** Programs side by side

    Several programs run on one state.  Each is verified alone, against what the
    others may do ([rely]) and with what it does itself ([guar]). *)
Section parallel.
Context {K : Type} `{EqDecision K} {C : Type → Type} {St F : Type}.
Variable exec : K → ∀ X, F → C X → St → option X * St.
Variable inv : St → Prop.
Variables rely guar : K → St → St → Prop.

Fixpoint rg {A : Type} (i : K) (p : prog C A) (Q : A → St → Prop) (st : St) : Prop :=
  match p with
  | Ret a => Q a st
  | Call c k =>
      ∀ st1 fate, rely i st st1 → inv st1 →
        let '(r, st2) := exec i _ fate c st1 in
        inv st2 ∧ guar i st1 st2 ∧ match r with Some x => rg i (k x) Q st2 | None => True end
  end.

Lemma rg_mono {A : Type} i (p : prog C A) (Q Q' : A → St → Prop) st :
  (∀ a st, Q a st → Q' a st) → rg i p Q st → rg i p Q' st.
Proof.
  intros HQ. revert st. induction p as [a|X c k IH]; intros st HP; [by apply HQ|]. intros st1 fate Hr Hi.
  specialize (HP st1 fate Hr Hi). destruct (exec _ _ _ _ _) as [r st2]. destruct HP as (HP1 & HP2 & HP3). split; [done|]. split; [done|].
  destruct r as [x|]; [by apply IH|done].
Qed.
Lemma rg_bind {A B : Type} i (p : prog C A) (k : A → prog C B) Q st :
  rg i p (λ a st, rg i (k a) Q st) st → rg i (prog_bind p k) Q st.
Proof.
  revert st. induction p as [a|X c k' IH]; intros st HP; [done|]. intros st1 fate Hr Hi.
  specialize (HP st1 fate Hr Hi). destruct (exec _ _ _ _ _) as [r st2]. destruct HP as (HP1 & HP2 & HP3). split; [done|]. split; [done|].
  destruct r as [x|]; [by apply IH|done].
Qed.
Lemma rg_call {X : Type} i (c : C X) Q st :
  (∀ st1 fate, rely i st st1 → inv st1 →
     let '(r, st2) := exec i _ fate c st1 in inv st2 ∧ guar i st1 st2 ∧ ∀ x, r = Some x → Q x st2) →
  rg i (call c) Q st.
Proof.
  intros HP st1 fate Hr Hi. specialize (HP st1 fate Hr Hi). destruct (exec _ _ _ _ _) as [r st2]. destruct HP as (HP1 & HP2 & HP3).
  split; [done|]. split; [done|]. destruct r as [x|]; [by apply HP3|done].
Qed.

(** A pool of running programs.  A program makes a call, dies, or a new one starts;
    [env] is what happens besides. *)
Variable main : K → prog C unit.
Variables (env : St → St → Prop) (die born : K → St → St).

Definition set_at (i : K) (p : option (prog C unit)) (P : K → option (prog C unit)) (j : K) : option (prog C unit) :=
  if decide (i = j) then p else P j.

Inductive par_step : St * (K → option (prog C unit)) → St * (K → option (prog C unit)) → Prop :=
| par_call i X (c : C X) k fate x st st' P :
    P i = Some (Call c k) → exec i X fate c st = (Some x, st') → par_step (st, P) (st', set_at i (Some (k x)) P)
| par_die i p st P : P i = Some p → par_step (st, P) (die i st, set_at i None P)
| par_born i st P : P i = None → par_step (st, P) (born i st, set_at i (Some (main i)) P)
| par_env st st' P : env st st' → par_step (st, P) (st', P).

Hypothesis rely_trans : ∀ i st1 st2 st3, rely i st1 st2 → rely i st2 st3 → rely i st1 st3.
Hypothesis rely_refl : ∀ i st, rely i st st.
Hypothesis guar_rely : ∀ i j st1 st2, i ≠ j → guar i st1 st2 → rely j st1 st2.
Hypothesis env_keeps : ∀ st1 st2, env st1 st2 → inv st1 → inv st2 ∧ ∀ i, rely i st1 st2.
Hypothesis die_keeps : ∀ i st, inv st → inv (die i st) ∧ ∀ j, i ≠ j → rely j st (die i st).
Hypothesis born_keeps : ∀ i st, inv st → inv (born i st) ∧ ∀ j, i ≠ j → rely j st (born i st).
Hypothesis main_safe : ∀ i st, inv st → rg i (main i) (λ _ _, True) (born i st).

Lemma rg_stable i (p : prog C unit) st st' : rely i st st' → rg i p (λ _ _, True) st → rg i p (λ _ _, True) st'.
Proof. destruct p as [a|X c k]; [done|]. intros Hr HP st1 fate Hr1. apply HP. by eapply rely_trans. Qed.

Definition pool_ok (s : St * (K → option (prog C unit))) : Prop := inv s.1 ∧ ∀ i p, s.2 i = Some p → rg i p (λ _ _, True) s.1.

Lemma par_step_ok s s' : par_step s s' → pool_ok s → pool_ok s'.
Proof.
  intros [i X c k fate x st st' P HP He|i p st P HP|i st P HP|st st' P He] [Hi Hp]; cbn in *.
  - pose proof (Hp _ _ HP st fate (rely_refl i st) Hi) as Hc. rewrite He in Hc. destruct Hc as (Hc1 & Hc2 & Hc3). split; [done|].
    cbn. intros j q Hq. unfold set_at in Hq. case_decide as Hne; [subst j; injection Hq as <-; done|]. eapply rg_stable; [by apply (guar_rely i)|by apply Hp].
  - destruct (die_keeps i st Hi) as [H1 H2]. split; [done|]. cbn. intros j q Hq. unfold set_at in Hq. case_decide as Hne; [done|].
    eapply rg_stable; [by apply H2|by apply Hp].
  - destruct (born_keeps i st Hi) as [H1 H2]. split; [done|]. cbn. intros j q Hq. unfold set_at in Hq. case_decide as Hne; [subst j; injection Hq as <-; by apply main_safe|].
    eapply rg_stable; [by apply H2|by apply Hp].
  - destruct (env_keeps st st' He Hi) as [H1 H2]. split; [done|]. cbn. intros j q Hq. eapply rg_stable; [apply H2|by apply Hp].
Qed.

(** The runs from a state without programs. *)
Inductive par_reach (st : St) : St * (K → option (prog C unit)) → Prop :=
| par_start : par_reach st (st, λ _, None)
| par_next s s' : par_reach st s → par_step s s' → par_reach st s'.

(** Whatever the programs do, the invariant holds. *)
Lemma par_inv st s : inv st → par_reach st s → inv s.1.
Proof. intros Hi Hs. assert (pool_ok s) as Hp; [|apply Hp]. induction Hs as [|s1 s2 _ IH H12]; [by split|]. by eapply par_step_ok. Qed.

(** The calls of one program, one after the other, as long as it makes some. *)
Fixpoint par_run (i : K) (fates : list F) (s : St * (K → option (prog C unit))) : St * (K → option (prog C unit)) :=
  match fates with
  | [] => s
  | fate :: fates =>
      match s.2 i with
      | Some (Call c k) =>
          match exec i _ fate c s.1 with (Some x, st) => par_run i fates (st, set_at i (Some (k x)) s.2) | (None, _) => s end
      | _ => s
      end
  end.
Lemma par_run_reach st i fates s : par_reach st s → par_reach st (par_run i fates s).
Proof.
  revert s. induction fates as [|fate fates IH]; intros [st' P] Hs; cbn; [done|].
  destruct (P i) as [[a|X c k]|] eqn:HP; [done| |done]. destruct (exec i X fate c st') as [[x|] st1] eqn:E; [|done].
  apply IH. eapply par_next; [exact Hs|]. by eapply par_call.
Qed.
End parallel.
