(* ===== verification/WorkerProcess.v ===== *)
(** * The report worker

    internal/worker (process.go, observe.go, record.go): a report that is read from
    a stream is classified, applied by observe.lua, evaluated against the action
    policy, executed, released when it asks for it, and recorded.  The pipeline is a
    program of calls, each of which may be answered, get lost, or run without its
    answer arriving, while other writers change the sites between the calls and the
    process may die after any of them.  The theorems follow a report through the
    pipeline under all of that. *)

From S2P Require Import Prelude GoStrings GoFloat PolicyBase PolicySignal GoTime LuaCommon PolicyAction PolicyRotation PolicySeverity PolicyEvaluate PolicyResolve Breaker IdGen.
From S2P Require Import SchedState SchedSelect SchedAcquire SchedLease SchedLedger SchedRefine SchedGrant SchedLoop SchedRun Scheduler.
From S2P Require Import HotSync ActionApply ActionExec ActionExpiry WorkerObserve SiteScripts SiteRun Effects.

Local Open Scope Z_scope.

(** ** Events, catalog and configuration *)

(** [signal.Event]; times are Unix milliseconds, 0 when unknown. *)
Record Event := {
  ev_ReportID : string; ev_LeaseID : string; ev_NamespaceID : string; ev_TenantID : string; ev_TokenID : string;
  ev_Node : string; ev_ReceivedAt : Z; ev_Facts : ReportFacts; ev_StartedAt : Z; ev_FinishedAt : Z; ev_Release : bool;
}.

(** What the worker reads of the hash of a lease. *)
Record leaseInfo := {
  li_identityKey : Z; li_identityID : string; li_egKey : Z; li_proxyKey : Z; li_proxyID : string;
  li_namespaceID : string; li_state : LeaseState; li_endedMs : Z;
}.

Record ReportRecord := {
  rec_ReceivedAt : Z; rec_StartedAt : Z; rec_FinishedAt : Z; rec_TenantID : string; rec_NamespaceID : string;
  rec_SiteID : string; rec_Site : string; rec_EndpointGroupID : string; rec_EndpointGroup : string; rec_Client : string;
  rec_IdentityID : string; rec_IdentityType : string; rec_ProxyID : string; rec_LeaseID : string; rec_ReportID : string;
  rec_Node : string; rec_TokenID : string; rec_Facts : ReportFacts; rec_Outcome : string; rec_Blame : string;
  rec_Rule : string; rec_Suppressed : bool; rec_Late : bool; rec_Probe : bool;
}.

(** ** Programs of calls *)

(** The calls of the pipeline with their answers; [None] is an error. *)
Inductive cmd : Type → Type :=
| c_load (site : Z) (lid : string) : cmd (option (option leaseInfo))
| c_observe (site shard : Z) (sid : Z * Z) (full : option ObsArgs) : cmd (option ObsResult)
| c_execute (in' : ExecInput) : cmd (option (list AppliedAction * list StateChange))
| c_release (site : Z) (lid : string) (nowMs : Z) : cmd (option ReleaseReply)
| c_notify (site eg : Z) : cmd unit
| c_record (rec : ReportRecord) : cmd unit.

Local Open Scope prog_scope.

(** [retry]: the result with the number of attempts; [n] is the number of further
    attempts after a failed one. *)
Definition retryBackoff : list Z := [50 * Millisecond; 200 * Millisecond; 500 * Millisecond].
Fixpoint retry_from {C : Type → Type} {A : Type} (n : nat) (attempt : nat) (fn : prog C (option A)) : prog C (option A * nat) :=
  r <- fn ;;
  match r, n with
  | Some a, _ => Ret (Some a, attempt)
  | None, O => Ret (None, attempt)
  | None, S n => retry_from n (S attempt) fn
  end.
Definition retry {C : Type → Type} {A : Type} (fn : prog C (option A)) : prog C (option A * nat) := retry_from (length retryBackoff) 1 fn.

(** What the process leaves behind besides the sites. *)
Inductive Log :=
| log_load (r : option (option leaseInfo))
| log_observe (site shard : Z) (sid : Z * Z) (full : option ObsArgs) (r : option ObsResult)
| log_execute (in' : ExecInput) (r : option (list AppliedAction * list StateChange))
| log_release (site : Z) (lid : string)
| log_notify (site eg : Z)
| log_record (rec : ReportRecord).

Definition logged {X : Type} (c : cmd X) : X → list Log :=
  match c in cmd X return X → list Log with
  | c_load _ _ => λ r, [log_load r]
  | c_observe site shard sid full => λ r, [log_observe site shard sid full r]
  | c_execute in' => λ r, [log_execute in' r]
  | c_release site lid _ => λ _, [log_release site lid]
  | c_notify site eg => λ _, [log_notify site eg]
  | c_record rec => λ _, [log_record rec]
  end.

Abbreviation Sites := (gmap Z Site).

(** A call that a site answers. *)
Definition site_call {A : Type} (fate : CallFate) (site : Z) (f : Site → A * Site) (st : Sites) : option A * Sites :=
  match fate with
  | call_lost => (None, st)
  | call_timeout => (None, <[site := (f (site_at st site)).2]> st)
  | call_done => (Some (f (site_at st site)).1, <[site := (f (site_at st site)).2]> st)
  end.

Definition lease_info (l : Lease) : option leaseInfo :=
  if String.eqb (ls_ns l) "" && (ls_i l =? 0) then None
  else Some {| li_identityKey := ls_i l; li_identityID := ls_iid l; li_egKey := ls_e l; li_proxyKey := default 0 (ls_p l);
               li_proxyID := ls_pid l; li_namespaceID := ls_ns l; li_state := ls_st l; li_endedMs := ended_ms l |}.
Definition loadLease (lid : string) (s : Site) : option leaseInfo := h_ls (site_hot s) !! lid ≫= lease_info.

(** What the calls run: the digest and the configuration of the executor, and the
    late window and group layout of the scheduler. *)
Record Services := {
  sv_digest : Z → list luaOp → string; sv_record_cooldowns : bool; sv_late : Z; sv_layout : Z → Layout;
}.

Section run.
Context {lua : LuaMath}.
Variable sv : Services.

Definition exec {X : Type} (fates : Z → CallFate) (c : cmd X) : Sites → X * Sites :=
  match c in cmd X return Sites → X * Sites with
  | c_load site lid => site_call (fates site) site (λ s, (loadLease lid s, s))
  | c_observe site shard sid full => site_call (fates site) site (observe_lua shard sid full)
  | c_execute in' => Execute (sv_digest sv) (sv_record_cooldowns sv) fates in'
  | c_release site lid nowMs =>
      site_call (fates site) site (λ s,
        let '(r, h) := release_lua nowMs lid (sv_late sv) "" None (sv_layout sv site) (site_hot s) in (r, set_hot h s))
  | c_notify _ _ => λ st, (tt, st)
  | c_record _ => λ st, (tt, st)
  end.


(** No call ends the process. *)
Definition exec_live (X : Type) (fates : Z → CallFate) (c : cmd X) (st : Sites) : option X * Sites :=
  let '(x, st) := exec fates c st in (Some x, st).
End run.

(** Runs of a program of the pipeline. *)
Abbreviation interp sv := (Effects.interp (exec_live sv) (@logged)).

(** ** Arguments of observe.lua *)

(** The window and the bucket length in milliseconds. *)
Definition maxBreakerBuckets : Z := 60.
Definition breakerWindow (spec : option BreakerSpec) : Z * Z :=
  let windowMs :=
    match spec with
    | Some s => if Duration_Milliseconds (bk_Window s) >? 0 then Duration_Milliseconds (bk_Window s)
                else Duration_Milliseconds DefaultBreakerWindow
    | None => Duration_Milliseconds DefaultBreakerWindow
    end in
  let buckets :=
    match spec with
    | Some s => if (bk_Buckets s >? 0) && (bk_Buckets s <=? maxBreakerBuckets) then bk_Buckets s else DefaultBreakerBuckets
    | None => DefaultBreakerBuckets
    end in
  (windowMs, Z.max (Z.quot windowMs buckets) 1).

Definition counterSubject (subject : string) : CountSubject :=
  if String.eqb subject SubjectAccount then count_account
  else if String.eqb subject SubjectProxy then count_proxy else count_identity.
Definition observed (v : float64 * bool) : option float64 := if v.2 then Some v.1 else None.

Section pipeline.
Context `{RE : RegexEngine}.

(** What the worker reads of [catalog.EndpointGroup]; a group without a rotation
    policy has no quotas. *)
Record CatGroup := {
  cg_ID : string; cg_Name : string; cg_Snap : GroupSnapshot; cg_Signal : option CompiledSignal; cg_Quotas : list QuotaSpec;
}.

(** What it reads of a site and its namespace: [ct_Snapshots] are the groups of
    [GroupsByID], [ct_Peers] the keys of the other sites of the namespace. *)
Record CatSite := {
  ct_Key : Z; ct_ID : string; ct_Name : string; ct_NamespaceID : string; ct_TenantID : string; ct_Clients : list string;
  ct_Groups : gmap (string * string) CatGroup; ct_GroupsByKey : gmap Z CatGroup; ct_Snapshots : list GroupSnapshot;
  ct_Peers : list Z;
}.

(** [w_reload] is the catalog after a reload of a namespace that was allowed and
    succeeded. *)
Record Worker := {
  w_SiteByKey : Z → option CatSite; w_reload : string → option (Z → option CatSite);
  w_fallbackSignal : option CompiledSignal; w_fallbackAction : option CompiledAction; w_LateReportWindow : Z;
  w_jitter : nat → float64; w_exec : bool; w_rel : bool; w_brk : bool; w_rec : bool;
}.

Record observeParams := {
  op_now : Z; op_leaseID : string; op_group : CatGroup; op_action : CompiledAction; op_identityKey : Z; op_proxyKey : Z;
  op_outcome : string; op_blame : string; op_late : bool; op_counters : list CounterRequest; op_banWindows : list Z;
}.

(** [observeArgs] with [appendObserveHeader], [healthPolicyArg] and
    [crossAttributionArg]. *)
Definition observeArgs (p : observeParams) : ObsArgs :=
  let act := op_action p in
  let g := cg_Snap (op_group p) in
  let nowMs := op_now p / 1000000 in
  let '(windowMs, bucketMs) := breakerWindow (gs_Breaker g) in
  {| o_now := nowMs; o_lid := op_leaseID p; o_eg := gs_Key g; o_ident := Some (op_identityKey p);
     o_proxy := if op_proxyKey p >? 0 then Some (op_proxyKey p) else None;
     o_outcome := op_outcome p; o_blame := op_blame p; o_late := op_late p;
     o_obs_identity := observed (Observation (Some act) (op_outcome p) BlameIdentity);
     o_obs_proxy := observed (ProxyObservation (op_outcome p) BlameProxy);
     o_failure := IsFailureOutcome (op_outcome p); o_risk := IsRiskOutcome (op_outcome p);
     o_alpha := h_Alpha (ac_Health act); o_baseline := h_Baseline (ac_Health act);
     o_tau := Duration_Milliseconds (h_Tau (ac_Health act)); o_reset_after := std_ms (FailureResetAfter (Some act));
     o_bucket := if (windowMs >? 0) && (bucketMs >? 0) then Some (gs_Key g, Z.quot nowMs bucketMs) else None;
     o_xa_on := ca_Enabled (ac_CrossAttribution act);
     o_xa_window := Duration_Milliseconds (ca_Window (ac_CrossAttribution act));
     o_xa_pi := ca_ProxyDistinctIdentities (ac_CrossAttribution act);
     o_xa_ip := ca_IdentityDistinctProxies (ac_CrossAttribution act);
     o_quotas := (λ q, Duration_Milliseconds (q_Window q)) <$> cg_Quotas (op_group p);
     o_counts := (λ c, (counterSubject (cr_Subject c), std_ms (cr_Window c))) <$> op_counters p;
     o_bans := std_ms <$> op_banWindows p |}.

(** ** Classification and records *)

Definition DefaultGroup : string := "_default".

(** The signal policy of the default group of the first client that has one. *)
Fixpoint fallback_signal (groups : gmap (string * string) CatGroup) (clients : list string) : option CompiledSignal :=
  match clients with
  | [] => None
  | c :: clients =>
      match groups !! (c, DefaultGroup) ≫= cg_Signal with Some s => Some s | None => fallback_signal groups clients end
  end.
Definition fallbackGroupSignal (w : Worker) (site : CatSite) : option CompiledSignal :=
  match fallback_signal (ct_Groups site) (ct_Clients site) with Some s => Some s | None => w_fallbackSignal w end.
Definition classification (sig : option CompiledSignal) (ev : Event) : Classification := Classify sig (ev_Facts ev).

(** The report as it moves through the pipeline; [r_now] is in nanoseconds. *)
Record report := {
  r_shard : Z; r_streamID : Z * Z; r_ev : Event; r_site : CatSite; r_group : option CatGroup; r_lease : option leaseInfo;
  r_now : Z;
}.

Definition baseRecord (r : report) : ReportRecord :=
  let ev := r_ev r in
  let site := r_site r in
  {| rec_ReceivedAt := ev_ReceivedAt ev; rec_StartedAt := ev_StartedAt ev; rec_FinishedAt := ev_FinishedAt ev;
     rec_TenantID := if String.eqb (ev_TenantID ev) "" then ct_TenantID site else ev_TenantID ev;
     rec_NamespaceID := ct_NamespaceID site; rec_SiteID := ct_ID site; rec_Site := ct_Name site;
     rec_EndpointGroupID := from_option cg_ID "" (r_group r); rec_EndpointGroup := from_option cg_Name "" (r_group r);
     rec_Client := from_option (λ g, gs_Client (cg_Snap g)) "" (r_group r);
     rec_IdentityID := from_option li_identityID "" (r_lease r); rec_IdentityType := "";
     rec_ProxyID := from_option li_proxyID "" (r_lease r); rec_LeaseID := ev_LeaseID ev; rec_ReportID := ev_ReportID ev;
     rec_Node := ev_Node ev; rec_TokenID := ev_TokenID ev; rec_Facts := ev_Facts ev; rec_Outcome := ""; rec_Blame := "";
     rec_Rule := ""; rec_Suppressed := false; rec_Late := false; rec_Probe := false |}.

(** The record with what the pipeline found out. *)
Definition finish_record (rec : ReportRecord) (cls : Classification) (late suppressed probe : bool) (ty : string) : ReportRecord :=
  {| rec_ReceivedAt := rec_ReceivedAt rec; rec_StartedAt := rec_StartedAt rec; rec_FinishedAt := rec_FinishedAt rec;
     rec_TenantID := rec_TenantID rec; rec_NamespaceID := rec_NamespaceID rec; rec_SiteID := rec_SiteID rec; rec_Site := rec_Site rec;
     rec_EndpointGroupID := rec_EndpointGroupID rec; rec_EndpointGroup := rec_EndpointGroup rec; rec_Client := rec_Client rec;
     rec_IdentityID := rec_IdentityID rec; rec_IdentityType := ty; rec_ProxyID := rec_ProxyID rec; rec_LeaseID := rec_LeaseID rec;
     rec_ReportID := rec_ReportID rec; rec_Node := rec_Node rec; rec_TokenID := rec_TokenID rec; rec_Facts := rec_Facts rec;
     rec_Outcome := cl_Outcome cls; rec_Blame := cl_Blame cls; rec_Rule := cl_RuleName cls; rec_Suppressed := suppressed;
     rec_Late := late; rec_Probe := probe |}.

(** ** The pipeline *)

(** [isLate]: the report came more than the late window after its lease ended. *)
Definition isLate (w : Worker) (r : report) (l : leaseInfo) : bool :=
  if bool_decide (li_state l = LeaseActive) || (li_endedMs l <=? 0) then false
  else
    let at' := if ev_ReceivedAt (r_ev r) <=? 0 then r_now r / 1000000 else ev_ReceivedAt (r_ev r) in
    at' - li_endedMs l >? std_ms (w_LateReportWindow w).

(** A map filled from two lists, later entries overriding earlier ones. *)
Definition filled {K : Type} `{EqDecision K} (ks : list K) (vs : list Z) : K → Z :=
  foldl (λ m kv k, if decide (k = kv.1) then kv.2 else m k) (λ _, 0) (zip ks vs).

Definition evalInput (w : Worker) (cls : Classification) (obs : ObsReply) (p : observeParams) (l : leaseInfo) : EvalInput :=
  let remaining := or_e_cd obs - op_now p / 1000000 in
  {| in_Outcome := cl_Outcome cls; in_Blame := or_blame obs; in_IdentityState := or_state obs;
     in_HasAccount := default 0 (or_account obs) >? 0; in_HasProxy := li_proxyKey l >? 0;
     in_Counts := filled (op_counters p) (or_counts obs); in_BanCounts := filled (op_banWindows p) (or_bans obs);
     in_EndpointStreak := or_e_nfail obs; in_SiteStreak := or_g_nfail obs; in_ProxyStreak := or_p_nfail obs;
     in_EndpointScore := or_e_score obs; in_EndpointSamples := or_e_samples obs; in_GlobalScore := or_g_score obs;
     in_GlobalSamples := or_g_samples obs;
     in_EndpointCooldownRemaining := if remaining >? 0 then wrap64 (remaining * Millisecond) else 0;
     in_Jitter := Some (w_jitter w) |}.

Inductive observeStatus := observeApplied (obs : ObsReply) | observeSkipped | observeUnknown.

Definition observeWithRetry (r : report) (p : observeParams) : prog cmd observeStatus :=
  x <- retry (call (c_observe (ct_Key (r_site r)) (r_shard r) (r_streamID r) (Some (observeArgs p)))) ;;
  Ret match x with
      | (Some (obs_ok obs), _) => observeApplied obs
      | (Some obs_dup, attempts) => if (1 <? attempts)%nat then observeUnknown else observeSkipped
      | (Some obs_ckpt, _) | (None, _) => observeUnknown
      end.

Definition notifyRisk (w : Worker) (r : report) (g : CatGroup) (outcome : string) : prog cmd unit :=
  if w_brk w && IsRiskOutcome outcome then call (c_notify (ct_Key (r_site r)) (gs_Key (cg_Snap g))) else Ret tt.
Definition record (w : Worker) (rec : ReportRecord) : prog cmd unit := if w_rec w then call (c_record rec) else Ret tt.
Definition releaseIfRequested (w : Worker) (r : report) (l : leaseInfo) : prog cmd unit :=
  if negb (ev_Release (r_ev r)) || negb (bool_decide (li_state l = LeaseActive)) || negb (w_rel w) then Ret tt
  else retry (call (c_release (ct_Key (r_site r)) (ev_LeaseID (r_ev r)) (r_now r / 1000000))) ;; Ret tt.

(** The input that the executor gets for the planned actions of a report. *)
Definition exec_input (r : report) (l : leaseInfo) (g : CatGroup) (act : CompiledAction) (cls : Classification) (obs : ObsReply)
    (planned : list PlannedAction) : ExecInput :=
  {| SiteKey := ct_Key (r_site r); SiteGroups := ct_Snapshots (r_site r); PeerKeys := ct_Peers (r_site r);
     InGroup := Some (cg_Snap g); LeaseID := ev_LeaseID (r_ev r); ReportID := ev_ReportID (r_ev r);
     IdentityKey := li_identityKey l; IdentityID := li_identityID l; AccountKey := default 0 (or_account obs);
     ProxyKey := li_proxyKey l; ProxyID := li_proxyID l; InOutcome := cl_Outcome cls; Planned := planned;
     InShadow := Shadow (Some act); Now := r_now r |}.
(** The executor is idempotent per report, so a failed call is made again. *)
Definition execute (in' : ExecInput) : prog cmd unit := retry (call (c_execute in')) ;; Ret tt.

(** Whether actions are planned at all. *)
Definition enforced (w : Worker) (late : bool) (obs : ObsReply) : bool :=
  negb (or_suppressed obs) && negb late && negb (String.eqb (or_state obs) "") && w_exec w.

Definition blamed (cls : Classification) (blame : string) : Classification :=
  {| cl_Outcome := cl_Outcome cls; cl_Blame := blame; cl_RuleIndex := cl_RuleIndex cls; cl_RuleName := cl_RuleName cls |}.

Definition observe_params (w : Worker) (r : report) (l : leaseInfo) (g : CatGroup) (act : CompiledAction) (cls : Classification) :
    observeParams :=
  {| op_now := r_now r; op_leaseID := ev_LeaseID (r_ev r); op_group := g; op_action := act; op_identityKey := li_identityKey l;
     op_proxyKey := li_proxyKey l; op_outcome := cl_Outcome cls; op_blame := cl_Blame cls; op_late := isLate w r l;
     op_counters := CounterRequests (Some act) (cl_Outcome cls); op_banWindows := EscalationWindows (Some act) |}.

Definition planned_for (w : Worker) (r : report) (l : leaseInfo) (g : CatGroup) (act : CompiledAction) (cls : Classification)
    (obs : ObsReply) : list PlannedAction :=
  if enforced w (isLate w r l) obs then Evaluate (Some act) (evalInput w cls obs (observe_params w r l g act cls) l) else [].

Definition group_signal (w : Worker) (g : CatGroup) : option CompiledSignal :=
  match cg_Signal g with Some s => Some s | None => w_fallbackSignal w end.
Definition group_action (w : Worker) (g : CatGroup) : option CompiledAction :=
  match gs_Action (cg_Snap g) with Some a => Some a | None => w_fallbackAction w end.

Definition processLeased (w : Worker) (r : report) (l : leaseInfo) (g : CatGroup) : prog cmd unit :=
  let cls := classification (group_signal w g) (r_ev r) in
  let late := isLate w r l in
  match group_action w g with
  | None => record w (finish_record (baseRecord r) cls late false false "")
  | Some act =>
      status <- observeWithRetry r (observe_params w r l g act cls) ;;
      match status with
      | observeSkipped => releaseIfRequested w r l
      | observeUnknown =>
          releaseIfRequested w r l ;; notifyRisk w r g (cl_Outcome cls) ;;
          record w (finish_record (baseRecord r) cls late false false "")
      | observeApplied obs =>
          let planned := planned_for w r l g act cls obs in
          (match planned with [] => Ret tt | _ => execute (exec_input r l g act cls obs planned) end) ;;
          releaseIfRequested w r l ;; notifyRisk w r g (cl_Outcome cls) ;;
          record w (finish_record (baseRecord r) (blamed cls (or_blame obs)) late (or_suppressed obs) (or_probe obs) (or_type obs))
      end
  end.

(** A report whose lease or group is gone. *)
Definition statsOnly (w : Worker) (r : report) : prog cmd unit :=
  x <- retry (call (c_observe (ct_Key (r_site r)) (r_shard r) (r_streamID r) None)) ;;
  match x with
  | (Some obs_dup, 1%nat) => Ret tt
  | _ => record w (finish_record (baseRecord r) (classification (fallbackGroupSignal w (r_site r)) (r_ev r)) false false false "")
  end.

(** The site of the report, after a reload of its namespace when it is unknown. *)
Definition find_site (w : Worker) (ev : Event) (key : Z) : option CatSite :=
  match w_SiteByKey w key with
  | Some site => Some site
  | None => w_reload w (ev_NamespaceID ev) ≫= λ cat, cat key
  end.

Definition processEvent (w : Worker) (shard : Z) (streamID : Z * Z) (now : Z) (ev : Event) : prog cmd unit :=
  match ParseLeaseID (bs (ev_LeaseID ev)) ≫= λ ref, find_site w ev (lr_SiteKey ref) with
  | None => Ret tt
  | Some site =>
      if negb (String.eqb (ct_NamespaceID site) (ev_NamespaceID ev)) then Ret tt
      else
        let r g l := {| r_shard := shard; r_streamID := streamID; r_ev := ev; r_site := site; r_group := g; r_lease := l; r_now := now |} in
        x <- retry (call (c_load (ct_Key site) (ev_LeaseID ev))) ;;
        match x.1 with
        | None =>
            record w (finish_record (baseRecord (r None None)) (classification (fallbackGroupSignal w site) ev) false false false "")
        | Some None => statsOnly w (r None None)
        | Some (Some l) =>
            if negb (String.eqb (li_namespaceID l) (ev_NamespaceID ev)) then Ret tt
            else match ct_GroupsByKey site !! li_egKey l with
            | None => statsOnly w (r None (Some l))
            | Some g => processLeased w (r (Some g) (Some l)) l g
            end
        end
  end.
End pipeline.

(** ** Reasoning about programs *)

Abbreviation wp sv rely := (Effects.wp (exec_live sv) (@logged) rely).

Lemma exec_answers {lua : LuaMath} sv X fates (c : cmd X) st : (exec_live sv X fates c st).1 ≠ None.
Proof. unfold exec_live. by destruct (exec _ _ _ _). Qed.

Lemma wp_call {lua : LuaMath} sv rely {X : Type} (c : cmd X) Q I l st :
  I l st →
  (∀ st1 fates, rely st st1 → let '(x, st2) := exec sv fates c st1 in I (l ++ logged c x) st2 ∧ Q x (l ++ logged c x) st2) →
  wp sv rely (call c) Q I l st.
Proof. intros HI H. apply wp_step; [done|]. intros st1 fates Hr. specialize (H st1 fates Hr). unfold exec_live. by destruct (exec _ _ _ _). Qed.

Section logic.
Context {C : Type → Type} {St F L : Type} (exec : ∀ X, F → C X → St → option X * St) (logged : ∀ X, C X → X → list L).
Context (rely : St → St → Prop).
Abbreviation wp := (Effects.wp exec logged rely).

(** [I k] holds after [k] failed attempts. *)
Lemma wp_retry_from {B : Type} (n k : nat) (fn : prog C (option B)) (I : nat → list L → St → Prop) Q J l st :
  (∀ k l st, I k l st → wp fn (λ r l st, match r with Some a => Q (Some a, S k) l st | None => I (S k) l st ∧ Q (None, S k) l st end) J l st) →
  I k l st → wp (retry_from n (S k) fn) Q J l st.
Proof.
  intros H. revert k l st. induction n as [|n IH]; intros k l st Hk; cbn [retry_from]; apply wp_bind; (eapply wp_mono; [|by apply H]);
    intros [a|] l' st' HC; [done|by intros [_ HQ]|done|intros [HI _]; by apply IH].
Qed.
Lemma wp_retry {B : Type} (fn : prog C (option B)) (I : nat → list L → St → Prop) Q J l st :
  (∀ k l st, I k l st → wp fn (λ r l st, match r with Some a => Q (Some a, S k) l st | None => I (S k) l st ∧ Q (None, S k) l st end) J l st) →
  I 0%nat l st → wp (retry fn) Q J l st.
Proof. apply wp_retry_from. Qed.
End logic.

(** ** Calls are steps of the sites *)

Lemma site_at_insert st k s : site_at (<[k := s]> st) k = s.
Proof. unfold site_at. by rewrite lookup_insert_eq. Qed.
Lemma site_at_other st k j s : k ≠ j → site_at (<[k := s]> st) j = site_at st j.
Proof. intros. unfold site_at. by rewrite lookup_insert_ne. Qed.

Lemma site_call_at {A : Type} fate site (f : Site → A * Site) st k :
  site_at (site_call fate site f st).2 k = site_at st k ∨
  k = site ∧ site_at (site_call fate site f st).2 k = (f (site_at st k)).2.
Proof.
  destruct fate; cbn; [|by left|]; (destruct (decide (site = k)) as [->|Hne]; [right; split; [done|]; apply site_at_insert|left; by apply site_at_other]).
Qed.

Section steps.
Context {lua : LuaMath}.
Variable sv : Services.

Definition cmd_ok {X : Type} (c : cmd X) : Prop :=
  match c with
  | c_observe _ _ sid _ => stream_id sid
  | c_execute in' => NoDup (SiteKey in' :: PeerKeys in')
  | _ => True
  end.

Lemma Execute_auto v rc digest fates in' st k :
  NoDup (SiteKey in' :: PeerKeys in') → rtc (auto_step v) (site_at st k) (site_at (Execute digest rc fates in' st).2 k).
Proof.
  intros Hd. unfold Execute. destruct (Planned in') as [|pa planned]; [done|]. destruct (_ || _); [done|].
  set (plans := _ <$> _). pose proof (applyPlans_sites digest fates in' plans (Now in') st Hd k) as H.
  destruct (applyPlans digest fates in' plans (Now in') st) as [r s1]. cbn [snd] in *. destruct H as [->|(ops & Hin & ->)]; [done|].
  assert (Forall automatic ops) as Ha by (by apply (calls_automatic in' (pa :: planned) (Now in') (k, ops))).
  unfold run_call. set (nowMs := Now in' / 1000000). set (token := call_token _ _ _ _).
  assert (auto_step v (site_at st k) (apply_lua nowMs token ops (site_at st k)).2) as Hs by (exists 0, 0; by apply as_action).
  destruct (fates k); [|done|by apply rtc_once]. apply rtc_once. by destruct (apply_lua _ _ _ _).
Qed.

(** Whatever becomes of a call, each site takes automatic steps. *)
Lemma exec_auto v {X : Type} fates (c : cmd X) st k : cmd_ok c → rtc (auto_step v) (site_at st k) (site_at (exec sv fates c st).2 k).
Proof.
  destruct c as [site lid|site shard sid full|in'|site lid nowMs|site eg|rec]; intros Hok; cbn [exec]; [..|done|done].
  - by destruct (site_call_at (fates site) site (λ s, (loadLease lid s, s)) st k) as [->|[_ ->]].
  - destruct (site_call_at (fates site) site (observe_lua shard sid full) st k) as [->|[_ ->]]; [done|]. apply rtc_once. exists 0, 0. by apply as_observe.
  - by apply Execute_auto.
  - match goal with |- context [site_call ?f ?s ?g ?st] => destruct (site_call_at f s g st k) as [->|[_ ->]] end; [done|].
    pose proof (as_release v nowMs nowMs lid (sv_late sv) "" None (sv_layout sv site) (site_at st k) ltac:(lia)) as H.
    destruct (release_lua _ _ _ _ _ _ _) as [r h]. apply rtc_once. by exists nowMs, nowMs.
Qed.
End steps.

(** ** Phases of the pipeline

    [Before] the answer of observe.lua, [Fresh] between that answer and the actions,
    [After] for the rest. *)

(** The calls after the actions. *)
Definition closing {X : Type} (c : cmd X) : Prop :=
  match c with c_release _ _ _ | c_notify _ _ | c_record _ => True | _ => False end.

Section phases.
Context `{RE : RegexEngine} {lua : LuaMath}.
Variables (sv : Services) (rely : Sites → Sites → Prop) (w : Worker) (shard : Z) (sid : Z * Z) (now : Z) (ev : Event).

Definition event_site : option CatSite := ParseLeaseID (bs (ev_LeaseID ev)) ≫= λ ref, find_site w ev (lr_SiteKey ref).

(** The inputs that the report may be executed with. *)
Definition report_input (site : CatSite) (in' : ExecInput) : Prop :=
  SiteKey in' = ct_Key site ∧ PeerKeys in' = ct_Peers site ∧ LeaseID in' = ev_LeaseID ev ∧ ReportID in' = ev_ReportID ev.

Variables (C Before Fresh After : list Log → Sites → Prop).
Hypothesis before_after : ∀ l st, Before l st → After l st.
Hypothesis fresh_after : ∀ l st, Fresh l st → After l st.
Hypothesis after_crash : ∀ l st, After l st → C l st.
Hypothesis load_before : ∀ site lid l st st1 fates x, Before l st → rely st st1 →
  Before (l ++ [log_load x]) (exec sv fates (c_load site lid) st1).2.
Hypothesis observe_phase : ∀ site full l st st1 fates, event_site = Some site → Before l st → rely st st1 →
  let '(x, st2) := exec sv fates (c_observe (ct_Key site) shard sid full) st1 in
  let l' := l ++ [log_observe (ct_Key site) shard sid full x] in
  ((∀ obs, x ≠ Some (obs_ok obs)) → Before l' st2) ∧ (∀ obs, x = Some (obs_ok obs) → Fresh l' st2).
Hypothesis execute_phase : ∀ site in' l st, event_site = Some site → report_input site in' → Fresh l st →
  wp sv rely (execute in') (λ _ l st, After l st) C l st.
Hypothesis closing_after : ∀ X (c : cmd X) l st st1 fates, closing c → After l st → rely st st1 →
  let '(x, st2) := exec sv fates c st1 in After (l ++ logged c x) st2.

Local Abbreviation wpA p := (wp sv rely p (λ _ l st, After l st) C).

Lemma wp_done l st : After l st → wpA (Ret tt) l st.
Proof. intros H. split; [by apply after_crash|done]. Qed.

Lemma closing_call {X : Type} (c : cmd X) l st : closing c → After l st → wpA (call c) l st.
Proof.
  intros Hc HA. apply wp_call; [by apply after_crash|]. intros st1 fates Hr. pose proof (closing_after X c l st st1 fates Hc HA Hr) as H.
  destruct (exec _ _ _ _) as [x st2]. split; [by apply after_crash|done].
Qed.

Lemma record_after rec l st : After l st → wpA (record w rec) l st.
Proof. intros HA. unfold record. destruct (w_rec w); [by apply closing_call|by apply wp_done]. Qed.
Lemma notify_after r g outcome l st : After l st → wpA (notifyRisk w r g outcome) l st.
Proof. intros HA. unfold notifyRisk. destruct (_ && _); [by apply closing_call|by apply wp_done]. Qed.
Lemma release_after r li l st : After l st → wpA (releaseIfRequested w r li) l st.
Proof.
  intros HA. unfold releaseIfRequested. destruct (_ || _); [by apply wp_done|]. apply wp_bind.
  apply wp_retry with (I := λ _ l st, After l st); [|done]. intros k l1 st1 H1. eapply wp_mono; [|by apply closing_call].
  intros [x|] l2 st2 _ H2; [by apply wp_done|]. split; [done|by apply wp_done].
Qed.

(** The calls that end an event. *)
Lemma finish_after r li g outcome rec l st :
  After l st → wpA (prog_bind (releaseIfRequested w r li) (λ _, prog_bind (notifyRisk w r g outcome) (λ _, record w rec))) l st.
Proof.
  intros HA. apply wp_bind. eapply wp_mono; [|by apply release_after]. intros ? l1 st1 _ H1.
  apply wp_bind. eapply wp_mono; [|by apply notify_after]. intros ? l2 st2 _ H2. by apply record_after.
Qed.

Lemma observe_retry site full l st :
  event_site = Some site → Before l st →
  wp sv rely (retry (call (c_observe (ct_Key site) shard sid full)))
    (λ x l st, match x.1 with Some (obs_ok _) => Fresh l st | _ => Before l st end) C l st.
Proof.
  intros Hsite HB. apply wp_retry with (I := λ _ l st, Before l st); [|done]. intros k l1 st1 H1.
  apply wp_call; [by apply after_crash, before_after|]. intros st2 fates Hr.
  pose proof (observe_phase site full l1 st1 st2 fates Hsite H1 Hr) as H. destruct (exec _ _ _ _) as [x st3].
  destruct H as [HBef HFr]. cbn [logged]. destruct x as [[| |obs]|].
  1,2: split; [apply after_crash, before_after|]; by apply HBef.
  - split; [apply after_crash, fresh_after|]; by eapply HFr.
  - split; [apply after_crash, before_after|split]; by apply HBef.
Qed.

Lemma processLeased_wp r li g l st :
  event_site = Some (r_site r) → r_shard r = shard → r_streamID r = sid → r_ev r = ev → Before l st → wpA (processLeased w r li g) l st.
Proof.
  intros Hsite Hsh Hid Hev HB. unfold processLeased. destruct (group_action w g) as [act|]; [|by apply record_after, before_after].
  apply wp_bind. unfold observeWithRetry. rewrite Hsh, Hid. apply wp_bind. eapply wp_mono; [|by apply observe_retry].
  intros [[[| |obs]|] n] l1 st1 _ H1; cbn [fst] in H1; (split; [apply after_crash; first [by apply before_after|by apply fresh_after]|]).
  1: destruct (1 <? n)%nat; [by apply finish_after, before_after|by apply release_after, before_after].
  1,3: by apply finish_after, before_after.
  apply wp_bind. eapply wp_mono; [|destruct (planned_for _ _ _ _ _ _ _) as [|pa planned];
    [by apply wp_done, fresh_after|apply (execute_phase (r_site r)); [done| |exact H1]]].
  - intros ? l2 st2 _ H2. by apply finish_after.
  - unfold report_input. by rewrite <- Hev.
Qed.

Lemma statsOnly_wp r l st :
  event_site = Some (r_site r) → r_shard r = shard → r_streamID r = sid → Before l st → wpA (statsOnly w r) l st.
Proof.
  intros Hsite Hsh Hid HB. unfold statsOnly. rewrite Hsh, Hid. apply wp_bind. eapply wp_mono; [|by apply observe_retry].
  intros [x n] l1 st1 _ H1. assert (After l1 st1) as HA by (destruct x as [[| |obs]|]; [by apply before_after..|by apply fresh_after|by apply before_after]).
  destruct x as [[| |obs]|]; [destruct n as [|[|n]]|..]; by first [apply wp_done|apply record_after].
Qed.

Lemma processEvent_wp l st : Before l st → wpA (processEvent w shard sid now ev) l st.
Proof.
  intros HB. pose proof (before_after _ _ HB) as HA. unfold processEvent. change (ParseLeaseID _ ≫= _) with event_site.
  case_eq event_site; [intros site Hsite|intros _; by apply wp_done]. destruct (negb _); [by apply wp_done|]. apply wp_bind.
  apply wp_retry with (I := λ _ l st, Before l st); [|done]. intros k l1 st1 H1.
  apply wp_call; [by apply after_crash, before_after|]. intros st2 fates Hr. pose proof (λ x, load_before (ct_Key site) (ev_LeaseID ev) l1 st1 st2 fates x H1 Hr) as H2.
  destruct (exec _ _ _ _) as [x st3]. cbn [snd logged] in *. specialize (H2 x). split; [by apply after_crash, before_after|].
  destruct x as [[li|]|]; cbn [fst].
  - destruct (negb _); [by apply wp_done, before_after|]. destruct (ct_GroupsByKey site !! _) as [g|]; [by apply processLeased_wp|by apply statsOnly_wp].
  - by apply statsOnly_wp.
  - split; [done|by apply record_after, before_after].
Qed.
End phases.

(** ** Redelivered entries *)

(** The sites change by automatic steps only, under a view of each. *)
Definition keeps_under {lua : LuaMath} (v : Z → View) (st st' : Sites) : Prop := ∀ k, rtc (auto_step (v k)) (site_at st k) (site_at st' k).
Abbreviation keeps_sites := (keeps_under (λ _, anything)).

Definition is_execute (e : Log) : bool := match e with log_execute _ _ => true | _ => false end.
Definition executes (l : list Log) : bool := existsb is_execute l.

Lemma executes_app l l' : executes (l ++ l') = executes l || executes l'.
Proof. apply existsb_app. Qed.
Lemma executes_closing {X : Type} (c : cmd X) x : closing c → executes (logged c x) = false.
Proof. by destruct c. Qed.

(** The checkpoints are stream ids. *)
Definition ckpt_valid (s : Site) : Prop := ∀ shard last, ob_ckpt (s_obs s) !! shard = Some last → stream_id last.

Section delivered.
Context `{RE : RegexEngine} {lua : LuaMath}.
Variable sv : Services.

Lemma auto_ckpts v s s' shard sid : rtc (auto_step v) s s' → ckpt_past s shard sid → ckpt_past s' shard sid.
Proof. induction 1 as [|s s1 s' Hs _ IH]; [done|]. intros Hk. apply IH. by eapply auto_ckpt. Qed.

Lemma observe_ckpt_valid shard sid full s : stream_id sid → ckpt_valid s → ckpt_valid (observe_lua shard sid full s).2.
Proof.
  intros Hid Hv sh last. rewrite observe_lua_ckpt. destruct (match _ with Some _ => _ | None => _ end); [apply Hv|].
  destruct (decide (shard = sh)) as [->|Hne]; [rewrite lookup_insert_eq; by intros [= <-]|]. rewrite lookup_insert_ne by done. apply Hv.
Qed.

Lemma auto_ckpt_valid v s s' : rtc (auto_step v) s s' → ckpt_valid s → ckpt_valid s'.
Proof.
  induction 1 as [|s s1 s' (t & t' & [E|(shard & sid & full & Hid & E)]%astep_ckpt) _ IH]; [done|..]; intros Hv; apply IH; cbn [snd] in E.
  - unfold ckpt_valid. by rewrite E.
  - subst s1. by apply observe_ckpt_valid.
Qed.

(** An entry that was applied is past the checkpoint. *)
Lemma observe_ok_past shard sid full s obs s' :
  stream_id sid → observe_lua shard sid full s = (obs_ok obs, s') → ckpt_past s' shard sid.
Proof.
  intros Hid H. pose proof (observe_lua_ckpt shard sid full s) as E. rewrite H in E. cbn [snd] in E.
  unfold observe_lua in H. destruct (match ob_ckpt _ !! shard with Some _ => _ | None => _ end); [done|].
  exists sid. rewrite E, lookup_insert_eq. split_and!; [done|done|]. right. lia.
Qed.

(** One processing of an entry: by a worker at a time, among others, until a number
    of calls was made. *)
Record Delivery := {
  dl_worker : Worker; dl_now : Z; dl_env : nat → Sites → Sites; dl_fates : nat → Z → CallFate; dl_calls : nat;
}.
Definition process (shard : Z) (sid : Z * Z) (ev : Event) (d : Delivery) (st : Sites) : list Log * Sites :=
  let '(_, l, st) := interp sv (dl_env d) (dl_fates d) (dl_calls d) (processEvent (dl_worker d) shard sid (dl_now d) ev) st in (l, st).
Fixpoint process_all (shard : Z) (sid : Z * Z) (ev : Event) (ds : list Delivery) (st : Sites) : list (list Log) * Sites :=
  match ds with
  | [] => ([], st)
  | d :: ds => let '(l, st) := process shard sid ev d st in let '(ls, st) := process_all shard sid ev ds st in (l :: ls, st)
  end.

(** The workers agree on the site of the event and know its namespace; the others
    take automatic steps. *)
Definition delivery_ok (ev : Event) (k : Z) (d : Delivery) : Prop :=
  (∀ n st, keeps_sites st (dl_env d n st)) ∧
  (∀ site, event_site (dl_worker d) ev = Some site → ct_Key site = k ∧ NoDup (ct_Key site :: ct_Peers site)).

Section entry.
Variables (shard : Z) (sid : Z * Z) (ev : Event) (k : Z).
Hypothesis Hid : stream_id sid.

Abbreviation valid st := (∀ k, ckpt_valid (site_at st k)).
Abbreviation past st := (ckpt_past (site_at st k) shard sid).

Lemma keeps_trans v st st1 st2 : keeps_under v st st1 → keeps_under v st1 st2 → keeps_under v st st2.
Proof. intros H1 H2 j. etrans; [apply H1|apply H2]. Qed.
Lemma keeps_exec v {X : Type} fates (c : cmd X) st : cmd_ok c → keeps_under v st (exec sv fates c st).2.
Proof. intros Hc j. by apply exec_auto. Qed.
Lemma keeps_past st st' : keeps_sites st st' → past st → past st'.
Proof. intros Hk. by eapply auto_ckpts. Qed.
Lemma keeps_valid st st' : keeps_sites st st' → valid st → valid st'.
Proof. intros Hk Hv j. eapply auto_ckpt_valid; [apply Hk|apply Hv]. Qed.

(** Only the answer to an applied entry leads to actions, and it moves the
    checkpoint past the entry. *)
Lemma process_past d st :
  delivery_ok ev k d → valid st → let '(l, st') := process shard sid ev d st in valid st' ∧ (executes l = true → past st').
Proof.
  intros [He Hcat] Hv.
  set (After := λ (l : list Log) st, valid st ∧ (executes l = true → past st)).
  assert (wp sv keeps_sites (processEvent (dl_worker d) shard sid (dl_now d) ev) (λ _ l st, After l st) After [] st) as Hwp.
  { apply (processEvent_wp sv keeps_sites (dl_worker d) shard sid (dl_now d) ev After (λ l st, executes l = false ∧ valid st)
      (λ l st, past st ∧ valid st) After); [intros l s [Hl Hs]; split; [done|]; by rewrite Hl|by intros l s []|done|..|by split].
    - intros site lid l s s1 fates x [Hl Hs] Hr. split; [by rewrite executes_app, Hl|]. eapply keeps_valid; [|exact Hs]. by eapply keeps_trans; [|apply (keeps_exec _ fates (c_load site lid))].
    - intros site full l s s1 fates Hsite [Hl Hs] Hr. destruct (Hcat site Hsite) as [Hk _]. pose proof (keeps_exec (λ _, anything) fates (c_observe (ct_Key site) shard sid full) s1 Hid) as Hx.
      assert (valid (exec sv fates (c_observe (ct_Key site) shard sid full) s1).2) as Hv2 by (eapply keeps_valid; [|exact Hs]; by eapply keeps_trans).
      destruct (exec _ _ _ _) as [x s2] eqn:Ex. cbn [snd] in Hv2. split; [intros _; by rewrite executes_app, Hl|]. intros obs ->. split; [|done].
      cbn in Ex. rewrite Hk in Ex. destruct (fates k); [|done..]. cbn in Ex. injection Ex as Eo <-. rewrite site_at_insert.
      eapply observe_ok_past; [done|]. by rewrite <- Eo, <- surjective_pairing.
    - intros site in' l s Hsite (E1 & E2 & _) Hs. destruct (Hcat site Hsite) as [_ Hd]. apply wp_bind.
      apply wp_retry with (I := λ _ l st, past st ∧ valid st); [|done]. intros n l1 s1 [H1 H1']. apply wp_call; [by split|]. intros s2 fates Hr.
      assert (keeps_sites s1 (exec sv fates (c_execute in') s2).2) as Hx by (eapply keeps_trans; [exact Hr|apply keeps_exec; cbn; by rewrite E1, E2]).
      destruct (exec _ _ _ _) as [x s3]. cbn [snd] in Hx. assert (past s3 ∧ valid s3) as [H3 H3'] by (split; [by eapply keeps_past|by eapply keeps_valid]).
      split; [by split|]. destruct x; [|split; [done|]]; split; by split.
    - intros X c l s s1 fates Hc [H1 H2] Hr. assert (keeps_sites s (exec sv fates c s1).2) as Hx by (eapply keeps_trans; [exact Hr|apply keeps_exec; by destruct c]).
      destruct (exec _ _ _ _) as [x s2]. cbn [snd] in Hx. split; [by eapply keeps_valid|]. rewrite executes_app, (executes_closing c x Hc), orb_false_r.
      intros Hex. eapply keeps_past; [done|]. by apply H2. }
  pose proof (wp_interp _ _ keeps_sites _ _ _ _ _ (dl_env d) (dl_fates d) (dl_calls d) He Hwp) as H. unfold process.
  destruct (interp _ _ _ _ _ _) as [[r l] st']. exact (proj1 H).
Qed.

(** An entry past the checkpoint leads to no action. *)
Lemma process_dup d st :
  delivery_ok ev k d → past st → let '(l, st') := process shard sid ev d st in executes l = false ∧ past st'.
Proof.
  intros [He Hcat] Hp. set (After := λ (l : list Log) st, executes l = false ∧ past st).
  assert (wp sv keeps_sites (processEvent (dl_worker d) shard sid (dl_now d) ev) (λ _ l st, After l st) After [] st) as Hwp.
  { apply (processEvent_wp sv keeps_sites (dl_worker d) shard sid (dl_now d) ev After After (λ _ _, False) After); [done..| | | | |by split].
    - intros site lid l s s1 fates x [Hl Hs] Hr. split; [by rewrite executes_app, Hl|]. eapply keeps_past; [|exact Hs]. by eapply keeps_trans; [|apply (keeps_exec _ fates (c_load site lid))].
    - intros site full l s s1 fates Hsite [Hl Hs] Hr. destruct (Hcat site Hsite) as [Hk _]. apply (keeps_past _ _ Hr) in Hs.
      assert (keeps_sites s1 (exec sv fates (c_observe (ct_Key site) shard sid full) s1).2) as Hx by (by apply keeps_exec).
      destruct (exec _ _ _ _) as [x s2] eqn:Ex. cbn [snd] in Hx. split; [intros _; split; [by rewrite executes_app, Hl|by eapply keeps_past]|].
      intros obs ->. cbn in Ex. rewrite Hk in Ex. destruct (fates k); [|done..]. cbn in Ex. injection Ex as Eo _. by rewrite ckpt_past_dup in Eo.
    - by intros site in' l s _ _ ?.
    - intros X c l s s1 fates Hc [H1 H2] Hr. assert (keeps_sites s (exec sv fates c s1).2) as Hx by (eapply keeps_trans; [exact Hr|apply keeps_exec; by destruct c]).
      destruct (exec _ _ _ _) as [x s2]. cbn [snd] in Hx. split; [by rewrite executes_app, H1, (executes_closing c x Hc)|by eapply keeps_past]. }
  pose proof (wp_interp _ _ keeps_sites _ _ _ _ _ (dl_env d) (dl_fates d) (dl_calls d) He Hwp) as H. unfold process.
  destruct (interp _ _ _ _ _ _) as [[r l] st']. exact (proj1 H).
Qed.

Lemma process_all_dup ds st :
  Forall (delivery_ok ev k) ds → past st → Forall (λ l, executes l = false) (process_all shard sid ev ds st).1.
Proof.
  intros Hds. revert st. induction Hds as [|d ds Hd _ IH]; intros st Hp; [constructor|]. cbn [process_all].
  pose proof (process_dup d st Hd Hp) as H. destruct (process shard sid ev d st) as [l st1]. destruct H as [Hl Hp1].
  specialize (IH st1 Hp1). destruct (process_all shard sid ev ds st1) as [ls st2]. by constructor.
Qed.

(** C8: actions are taken at most once: however often a stream entry is processed, by
    whichever workers, with crashes after any call, calls that get lost or run
    without their answer, and other entries and scripts in between, at most one of
    the processings hands actions to the executor. *)
Theorem acts_once ds st :
  valid st → Forall (delivery_ok ev k) ds →
  (length (filter (λ l, executes l = true) (process_all shard sid ev ds st).1) ≤ 1)%nat.
Proof.
  intros Hv Hds. revert st Hv. induction Hds as [|d ds Hd Hds IH]; intros st Hv; [cbn; lia|]. cbn [process_all].
  pose proof (process_past d st Hd Hv) as H. destruct (process shard sid ev d st) as [l st1]. destruct H as [Hv1 Hp1].
  specialize (IH st1 Hv1). pose proof (process_all_dup ds st1 Hds) as Hdup. destruct (process_all shard sid ev ds st1) as [ls st2]. cbn [fst] in *.
  rewrite filter_cons. case_decide as Hex; [|done]. specialize (Hdup (Hp1 Hex)). cbn [length].
  assert (filter (λ l, executes l = true) ls = []) as ->; [|cbn; lia]. clear -Hdup. induction Hdup as [|l' ls Hl _ IH]; [done|].
  rewrite filter_cons_False; [done|]. by rewrite Hl.
Qed.
End entry.
End delivered.

(** ** Applied actions take effect *)

(** An action on the identity that was applied and covers the group at the time; a
    lifecycle change covers every time. *)
Definition covers (in' : ExecInput) (a : AppliedAction) (eg t : Z) : Prop :=
  aa_Skipped a = false ∧ aa_SubjectKind a = SubjectIdentity ∧ pa_Action (aa_Planned a) ≠ ActionActivate ∧
  (pa_Action (aa_Planned a) = ActionCooldown →
     (∀ u, aa_Until a = Some u → t * 1000000 < u) ∧ (pa_Scope (aa_Planned a) = ScopeIdentityEndpoint → Some eg = gs_Key <$> InGroup in')).

(** It is in force: it has not ended, and a cooldown on an endpoint group is on this one. *)
Definition in_force (in' : ExecInput) (a : AppliedAction) (eg t : Z) : Prop :=
  aa_Skipped a = false ∧ aa_SubjectKind a = SubjectIdentity ∧ pa_Action (aa_Planned a) ≠ ActionActivate ∧
  (∀ u, aa_Until a = Some u → t * 1000000 < u) ∧
  (pa_Action (aa_Planned a) = ActionCooldown → pa_Scope (aa_Planned a) = ScopeIdentityEndpoint → Some eg = gs_Key <$> InGroup in').

Lemma in_force_covers in' a eg t : in_force in' a eg t → covers in' a eg t.
Proof. intros (H1 & H2 & H3 & H4 & H5). split_and!; auto. Qed.
Lemma covers_always in' a eg t : in_force in' a eg t → pa_Action (aa_Planned a) ≠ ActionCooldown → ∀ t', covers in' a eg t'.
Proof. intros (H1 & H2 & H3 & _) Hn t'. by split_and!. Qed.

(** The site and the key of an identity, and the time until which the database holds it. *)
Record Held := { hd_site : Z; hd_key : Z; hd_until : Z }.
(** On its site the steps of others do not bring the identity back. *)
Definition held_view (rev : bool) (hd : Held) (k : Z) : View :=
  if decide (k = hd_site hd) then holding_before rev (hd_key hd) (hd_until hd) else anything.

Definition withheld (hd : Held) (l : list Log) (st : Sites) : Prop :=
  ∀ in' acts changes a eg t, log_execute in' (Some (acts, changes)) ∈ l → SiteKey in' = hd_site hd → IdentityKey in' = hd_key hd →
    a ∈ acts → covers in' a eg t → kept_off (site_hot (site_at st (SiteKey in'))) (IdentityKey in') eg t.

Section effect.
Context `{RE : RegexEngine} {lua : LuaMath}.
Variables (sv : Services) (ev : Event) (hd : Held).

(** The key under which the results of a call for the report are recorded. *)
Definition record_key (d : string) : string :=
  String.append "r:" (String.append (ev_LeaseID ev) (String.append ":" (String.append (ev_ReportID ev) (String.append ":" d)))).

(** Others take automatic steps that do not bring the identity back, no breaker reverts
    cooldowns on its site meanwhile, and they record nothing under the keys of the report. *)
Definition others (st st' : Sites) : Prop :=
  keeps_under (held_view false hd) st st' ∧
  ∀ k d, s_axr (site_at st' k) !! record_key d = s_axr (site_at st k) !! record_key d ∨ s_axr (site_at st' k) !! record_key d = None.

Definition unseen (st : Sites) : Prop := ∀ k d, s_axr (site_at st k) !! record_key d = None.

Lemma others_unseen st st' : others st st' → unseen st → unseen st'.
Proof. intros [_ H] Hu k d. destruct (H k d) as [E|E]; rewrite E; [apply Hu|done]. Qed.

Lemma held_kept_off in' st st' eg t :
  SiteKey in' = hd_site hd → IdentityKey in' = hd_key hd → keeps_under (held_view false hd) st st' →
  kept_off (site_hot (site_at st (SiteKey in'))) (IdentityKey in') eg t → kept_off (site_hot (site_at st' (SiteKey in'))) (IdentityKey in') eg t.
Proof.
  intros Ek Ei Hk. specialize (Hk (SiteKey in')). unfold held_view in Hk. rewrite decide_True in Hk by done. rewrite <- Ei in Hk. by eapply auto_kept_off.
Qed.

Lemma withheld_keeps l st st' : keeps_under (held_view false hd) st st' → withheld hd l st → withheld hd l st'.
Proof. intros Hk Hw in' acts changes a eg t H1 H2 H3 H4 H5. eapply held_kept_off; [done|done|exact Hk|]. by eapply Hw. Qed.

Lemma withheld_app l l' st : executes l' = false → withheld hd l st → withheld hd (l ++ l') st.
Proof.
  intros Hl Hw in' acts changes a eg t [H1|H1]%elem_of_app; [by eapply Hw|]. exfalso. apply not_true_iff_false in Hl. apply Hl.
  apply existsb_exists. eexists. by rewrite <- list_elem_of_In.
Qed.

Lemma append_assoc a b c : String.append (String.append a b) c = String.append a (String.append b c).
Proof. induction a as [|x a IH]; [done|]. exact (f_equal (String x) IH). Qed.

Lemma main_token_key site in' :
  report_input ev site in' → main_token (sv_digest sv) in' ≠ "" → ∃ d, main_token (sv_digest sv) in' = record_key d.
Proof.
  intros (_ & _ & E1 & E2). unfold main_token, call_token, replayToken, record_key. rewrite E1, E2. destruct (String.eqb (ev_ReportID ev) ""); [done|].
  destruct (String.eqb _ ""); [done|]. intros _. eexists. by rewrite !append_assoc.
Qed.

Lemma others_honoured site in' ops st st' :
  SiteKey in' = hd_site hd → IdentityKey in' = hd_key hd → report_input ev site in' → others st st' → record_honoured (main_token (sv_digest sv) in') in' ops (site_at st (SiteKey in')) →
  record_honoured (main_token (sv_digest sv) in') in' ops (site_at st' (SiteKey in')).
Proof.
  intros Ek Ei Hin [Hk Ho] Hh rs Ht Hr. destruct (main_token_key site in' Hin Ht) as [d E]. rewrite E in *.
  destruct (Ho (SiteKey in') d) as [Eq|Eq]; rewrite Eq in Hr; [|done]. eapply honoured_mono; [|by apply Hh].
  intros eg t. by apply held_kept_off.
Qed.

(** The attempts of an execution, which are honoured once they took effect. *)
Lemma execute_withheld site in' l st :
  NoDup (ct_Key site :: ct_Peers site) → report_input ev site in' → withheld hd l st → unseen st →
  wp sv others (execute in') (λ _ l st, withheld hd l st) (withheld hd) l st.
Proof.
  intros Hd Hin Hw Hu. pose proof Hin as (E1 & E2 & _). rewrite <- E1, <- E2 in Hd. apply wp_bind.
  apply wp_retry with (I := λ _ l st, withheld hd l st ∧ (SiteKey in' = hd_site hd → IdentityKey in' = hd_key hd →
    record_honoured (main_token (sv_digest sv) in') in' (main_ops (plans_of in')) (site_at st (SiteKey in')))).
  2:{ split; [done|]. intros _ _ rs Ht Hr. destruct (main_token_key site in' Hin Ht) as [d E]. by rewrite E, Hu in Hr. }
  intros n l1 st1 [H1 Hh]. apply wp_call; [done|]. intros st2 fates Hr.
  assert (SiteKey in' = hd_site hd → IdentityKey in' = hd_key hd → record_honoured (main_token (sv_digest sv) in') in' (main_ops (plans_of in')) (site_at st2 (SiteKey in'))) as Hh1
    by (intros Ek Ei; eapply (others_honoured site); [done..|by apply Hh]).
  assert (keeps_under (held_view false hd) st1 (exec sv fates (c_execute in') st2).2) as Hx by (eapply keeps_trans; [apply Hr|by apply keeps_exec]).
  pose proof (λ Ek Ei, Execute_record (sv_digest sv) (sv_record_cooldowns sv) fates in' st2 Hd (Hh1 Ek Ei)) as Hh2.
  cbn [exec logged] in *. destruct (Execute _ _ _ _ _) as [x st3] eqn:Ex. cbn [snd] in *. apply (withheld_keeps _ _ _ Hx) in H1.
  assert (withheld hd (l1 ++ [log_execute in' x]) st3) as H3.
  { intros in2 acts changes a eg t [H|[= -> <-]%list_elem_of_singleton]%elem_of_app; [by eapply H1|].
    intros Ek Ei [j Hj]%list_elem_of_lookup (Hs & Hkind & Hact & Hcov).
    exact (Execute_applied _ _ _ _ _ _ _ _ j a eg t Hd (Hh1 Ek Ei) Ex Hj Hs Hkind Hact Hcov). }
  split; [done|]. destruct x; [|split; [done|]]; by split.
Qed.

Lemma load_axr fates site lid st k : s_axr (site_at (exec sv fates (c_load site lid) st).2 k) = s_axr (site_at st k).
Proof. cbn. by destruct (site_call_at (fates site) site (λ s, (loadLease lid s, s)) st k) as [->|[_ ->]]. Qed.
Lemma observe_axr fates site shard sid full st k : s_axr (site_at (exec sv fates (c_observe site shard sid full) st).2 k) = s_axr (site_at st k).
Proof.
  cbn. destruct (site_call_at (fates site) site (observe_lua shard sid full) st k) as [->|[_ ->]]; [done|]. apply (observe_lua_frame shard sid full).
Qed.

Lemma processEvent_withheld w shard sid now st :
  stream_id sid → (∀ site, event_site w ev = Some site → NoDup (ct_Key site :: ct_Peers site)) → unseen st →
  wp sv others (processEvent w shard sid now ev) (λ _ l st, withheld hd l st) (withheld hd) [] st.
Proof.
  intros Hid Hcat Hu. set (Before := λ (l : list Log) st, withheld hd l st ∧ unseen st).
  apply (processEvent_wp sv others w shard sid now ev (withheld hd) Before Before (withheld hd)); try (by intros l s []); [done|..].
  - intros site lid l s s1 fates x [H1 H2] Hr. split; [apply withheld_app; [done|]|intros k d; rewrite load_axr; by apply (others_unseen _ _ Hr)].
    eapply withheld_keeps; [|exact H1]. eapply keeps_trans; [apply Hr|by apply keeps_exec].
  - intros site full l s s1 fates Hsite [H1 H2] Hr.
    assert (keeps_under (held_view false hd) s (exec sv fates (c_observe (ct_Key site) shard sid full) s1).2) as Hx by (eapply keeps_trans; [apply Hr|by apply keeps_exec]).
    assert (unseen (exec sv fates (c_observe (ct_Key site) shard sid full) s1).2) as Hu2 by (intros k d; rewrite observe_axr; by apply (others_unseen _ _ Hr)).
    destruct (exec _ _ _ _) as [x s2]. cbn [snd] in *. assert (Before (l ++ [log_observe (ct_Key site) shard sid full x]) s2) as HB.
    { split; [|done]. apply withheld_app; [done|]. by eapply withheld_keeps. }
    by split.
  - intros site in' l s Hsite Hin [H1 H2]. by eapply execute_withheld; [apply Hcat|..].
  - intros X c l s s1 fates Hc H1 Hr. assert (keeps_under (held_view false hd) s (exec sv fates c s1).2) as Hx by (eapply keeps_trans; [apply Hr|apply keeps_exec; by destruct c]).
    destruct (exec _ _ _ _) as [x s2]. cbn [snd] in Hx. apply withheld_app; [by apply executes_closing|]. by eapply withheld_keeps.
  - split; [|done]. intros in' acts changes a eg t H. by apply not_elem_of_nil in H.
Qed.

(** C7: a report that condemns an identity withholds it.  When the worker has
    processed a report, or died while doing so, and the executor answered that it
    banned, expired, quarantined or cooled down the identity, no later acquire call
    leases the identity while the action is in force, whatever calls were lost or
    made again, and whatever leases, reports, actions, synchronisations, expiry passes
    and other automatic steps happened meanwhile and since, provided that they do not
    bring it back: the expiry passes that read its row start before [hd_until] and find it
    held until then, the synchronisations apply no record to it that is schedulable and
    not outranked by a newer change in Redis, it is not archived, no endpoint group is
    deleted, and no breaker reverts cooldowns on the site while the report is processed or,
    if the action is a cooldown, afterwards. *)
Theorem report_withholds rev w shard sid now env fates calls st r l st' in' acts changes a s args moved out h' :
  stream_id sid → (∀ site, event_site w ev = Some site → NoDup (ct_Key site :: ct_Peers site)) →
  (∀ n st, others st (env n st)) → unseen st →
  interp sv env fates calls (processEvent w shard sid now ev) st = (r, l, st') →
  log_execute in' (Some (acts, changes)) ∈ l → SiteKey in' = hd_site hd → IdentityKey in' = hd_key hd →
  a ∈ acts → in_force in' a (a_eg args) (a_now args) → (pa_Action (aa_Planned a) = ActionCooldown → rev = false) →
  rtc (auto_step (held_view rev hd (SiteKey in'))) (site_at st' (SiteKey in')) s → acquire_ready args (site_hot s) →
  acquire_lua args (site_hot s) = (ReplyOK moved out, h') → IdentityKey in' ∉ lo_i <$> out.
Proof.
  intros Hid Hcat He Hu Hrun Hl Ek Ei Ha Hf Hrev Hs Hr Hacq. eapply kept_off_not_leased; [exact Hr|exact Hacq|].
  unfold held_view in Hs. rewrite decide_True in Hs by done. rewrite <- Ei in Hs. eapply barred_kept_off, auto_barred; [exact Hs|].
  pose proof (wp_interp _ _ others _ _ _ _ _ env fates calls He (processEvent_withheld w shard sid now st Hid Hcat Hu)) as H.
  rewrite Hrun in H. destruct H as [Hw _]. destruct rev; [|apply kept_off_barred; eapply Hw; [done..|by apply in_force_covers]].
  apply kept_off_forever. intros t. eapply Hw; [done..|]. eapply covers_always; [exact Hf|]. intros Hc. by specialize (Hrev Hc).
Qed.
End effect.

(** ** Bounded work *)

Lemma calls_le_retry {C : Type → Type} {A : Type} (c : C (option A)) : calls_le 4 (retry (call c)).
Proof. cbn. do 4 (intros [?|]; cbn; [done|]). done. Qed.

Section bounds.
Context `{RE : RegexEngine}.

Lemma record_calls w rec : calls_le 1 (record w rec).
Proof. unfold record. by destruct (w_rec w). Qed.
Lemma notify_calls w r g outcome : calls_le 1 (notifyRisk w r g outcome).
Proof. unfold notifyRisk. by destruct (_ && _). Qed.
Lemma release_calls w r l : calls_le 4 (releaseIfRequested w r l).
Proof. unfold releaseIfRequested. destruct (_ || _); [done|]. apply (calls_le_bind 4 0); [apply calls_le_retry|done]. Qed.

Lemma finish_calls w r l g outcome rec :
  calls_le 6 (prog_bind (releaseIfRequested w r l) (λ _, prog_bind (notifyRisk w r g outcome) (λ _, record w rec))).
Proof. apply (calls_le_bind 4 2); [apply release_calls|]. intros _. apply (calls_le_bind 1 1); [apply notify_calls|]. intros _. apply record_calls. Qed.

Lemma processLeased_calls w r l g : calls_le 14 (processLeased w r l g).
Proof.
  unfold processLeased. destruct (group_action w g); [|eapply calls_le_weaken; [|apply record_calls]; lia].
  apply (calls_le_bind 4 10); [apply (calls_le_bind 4 0); [apply calls_le_retry|done]|]. intros [obs| |].
  - apply (calls_le_bind 4 6); [|intros _; apply finish_calls]. destruct (planned_for _ _ _ _ _ _ _); [done|].
    apply (calls_le_bind 4 0); [apply calls_le_retry|done].
  - eapply calls_le_weaken; [|apply release_calls]. lia.
  - eapply calls_le_weaken; [|apply finish_calls]. lia.
Qed.

Lemma processEvent_calls w shard sid now ev : calls_le 18 (processEvent w shard sid now ev).
Proof.
  unfold processEvent. destruct (_ ≫= _) as [site|]; [|done]. destruct (negb _); [done|]. apply (calls_le_bind 4 14); [apply calls_le_retry|].
  assert (∀ r, calls_le 14 (statsOnly w r)) as Hs.
  { intros r. apply (calls_le_bind 4 10); [apply calls_le_retry|]. intros [[[| |obs]|] [|[|n]]]; first [done|eapply calls_le_weaken; [|apply record_calls]; lia]. }
  intros [[[l|]|] n]; cbn [fst]; [|apply Hs|eapply calls_le_weaken; [|apply record_calls]; lia].
  destruct (negb _); [done|]. destruct (_ !! _); [apply processLeased_calls|apply Hs].
Qed.

Definition is_record (e : Log) : bool := match e with log_record _ => true | _ => false end.
Definition records (l : list Log) : nat := length (filter (λ e, is_record e = true) l).
Lemma records_app l l' : records (l ++ l') = (records l + records l')%nat.
Proof. unfold records. by rewrite filter_app, length_app. Qed.

(** The answers of observe.lua. *)
Definition answers (l : list Log) : list (option ObsResult) :=
  omap (λ e, match e with log_observe _ _ _ _ r => Some r | _ => None end) l.
Lemma answers_app l l' : answers (l ++ l') = answers l ++ answers l'.
Proof. apply omap_app. Qed.

Context {lua : LuaMath}.
Variables (sv : Services) (w : Worker) (shard : Z) (sid : Z * Z) (now : Z) (ev : Event) (site : CatSite).
Local Abbreviation wpl p Q := (wp sv (λ _ _, True) p (λ a l _, Q a l) (λ _ _, True)).

Lemma wpl_call {X : Type} (c : cmd X) (Q : X → list Log → Prop) l st : (∀ x, Q x (l ++ logged c x)) → wpl (call c) Q l st.
Proof. intros H. apply wp_call; [done|]. intros st1 fates _. by destruct (exec _ _ _ _) as [x st2]. Qed.

(** A call that is made again leaves no record, and its answer is logged. *)
(** The attempts of a call: failed ones and the last. *)
Definition attempts {A : Type} (c : cmd (option A)) (r : option A * nat) : list Log :=
  (replicate (r.2 - 1) None ++ [r.1]) ≫= logged c.

Lemma wpl_retry {A : Type} (c : cmd (option A)) l st : wpl (retry (call c)) (λ r l', l' = l ++ attempts c r) l st.
Proof.
  apply wp_retry with (I := λ k l' _, l' = l ++ (replicate k None ≫= logged c)); [|by rewrite app_nil_r]. intros k l1 st1 ->. apply wpl_call.
  assert (∀ x, (l ++ (replicate k None ≫= logged c)) ++ logged c x = l ++ attempts c (x, S k)) as H.
  { intros x. unfold attempts. cbn [fst snd]. rewrite Nat.sub_succ, Nat.sub_0_r, bind_app, <- app_assoc. cbn. by rewrite app_nil_r. }
  intros [a|]; [apply H|]. split; [|apply H]. rewrite H. unfold attempts. cbn [fst snd]. by rewrite Nat.sub_succ, Nat.sub_0_r, <- replicate_S_end.
Qed.

(** Calls that neither record nor observe. *)
Definition quiet (l : list Log) : Prop := records l = 0%nat ∧ answers l = [].

Lemma quiet_app l l' : quiet l → quiet l' → quiet (l ++ l').
Proof. intros [E1 E2] [E3 E4]. unfold quiet. by rewrite records_app, answers_app, E1, E2, E3, E4. Qed.
Lemma quiet_attempts {A : Type} (c : cmd (option A)) r : (∀ x, quiet (logged c x)) → quiet (attempts c r).
Proof.
  intros Hc. unfold attempts. generalize (replicate (r.2 - 1) None ++ [r.1]). intros xs.
  induction xs as [|x xs IH]; [done|]. cbn. by apply quiet_app.
Qed.
Lemma observe_attempts site' full r :
  let l := attempts (c_observe site' shard sid full) r in records l = 0%nat ∧ answers l = replicate (r.2 - 1) None ++ [r.1].
Proof.
  unfold attempts. generalize (replicate (r.2 - 1) None ++ [r.1]). intros xs.
  induction xs as [|x xs [IH1 IH2]]; [done|]. split; [done|]. cbn -[answers] in *. unfold answers in *. cbn. by rewrite IH2.
Qed.

Local Abbreviation quietly l := (λ _ l', ∃ l2, l' = l ++ l2 ∧ quiet l2).
Lemma wpl_bind_quiet {A B : Type} (p : prog cmd A) (k : A → prog cmd B) (Q : B → list Log → Prop) l st :
  (∀ l st, wpl p (quietly l) l st) → (∀ a l2 st, quiet l2 → wpl (k a) Q (l ++ l2) st) → wpl (prog_bind p k) Q l st.
Proof. intros Hp Hk. apply wp_bind. eapply wp_mono; [|apply Hp]. intros a l' st' _ (l2 & -> & Hl2). by apply Hk. Qed.

Lemma release_quiet r li l st : wpl (releaseIfRequested w r li) (quietly l) l st.
Proof.
  unfold releaseIfRequested. destruct (_ || _); [split; [done|]; exists []; by rewrite app_nil_r|]. apply wp_bind. eapply wp_mono; [|by apply wpl_retry].
  intros x l' st' _ ->. split; [done|]. eexists. split; [done|]. by apply quiet_attempts.
Qed.
Lemma notify_quiet r g outcome l st : wpl (notifyRisk w r g outcome) (quietly l) l st.
Proof.
  unfold notifyRisk. destruct (_ && _); [|split; [done|]; exists []; by rewrite app_nil_r]. apply wpl_call. intros x. by eexists.
Qed.
Lemma execute_quiet in' l st : wpl (execute in') (quietly l) l st.
Proof.
  unfold execute. apply wp_bind. eapply wp_mono; [|by apply wpl_retry]. intros x l' st' _ ->. split; [done|]. eexists. split; [done|]. by apply quiet_attempts.
Qed.
Lemma record_one rec l st : w_rec w = true → records l = 0%nat → wpl (record w rec) (λ _ l', records l' = 1%nat) l st.
Proof. intros Hw Hl. unfold record. rewrite Hw. apply wpl_call. intros x. by rewrite records_app, Hl. Qed.

Lemma finish_one r li g outcome rec l st :
  w_rec w = true → records l = 0%nat →
  wpl (prog_bind (releaseIfRequested w r li) (λ _, prog_bind (notifyRisk w r g outcome) (λ _, record w rec))) (λ _ l', records l' = 1%nat) l st.
Proof.
  intros Hw Hl. apply wpl_bind_quiet; [apply release_quiet|]. intros _ l1 st1 [H1 _]. apply wpl_bind_quiet; [apply notify_quiet|].
  intros _ l2 st2 [H2 _]. apply record_one; [done|]. by rewrite !records_app, Hl, H1, H2.
Qed.

(** What a finished event leaves behind: a record, or the reason for none, which is
    that observe.lua had seen the entry before or a lease of another namespace. *)
Definition accounted (l : list Log) : Prop :=
  records l = 1%nat ∨
  records l = 0%nat ∧
    (answers l = [Some obs_dup] ∨ (∃ li, log_load (Some (Some li)) ∈ l ∧ li_namespaceID li ≠ ev_NamespaceID ev)).

Lemma processLeased_accounted r li g l st :
  w_rec w = true → r_site r = site → r_shard r = shard → r_streamID r = sid → quiet l →
  wpl (processLeased w r li g) (λ _ l', accounted l') l st.
Proof.
  intros Hw Hsite Hsh Hid [Hl Ha]. unfold processLeased. destruct (group_action w g) as [act|].
  2:{ eapply wp_mono; [|by apply record_one]. intros ? l' st' _ H. by left. }
  apply wp_bind. unfold observeWithRetry. apply wp_bind. rewrite Hsite, Hsh, Hid. eapply wp_mono; [|by apply wpl_retry].
  intros [x n] l1 st1 _ ->. split; [done|]. pose proof (observe_attempts (ct_Key site) (Some (observeArgs (observe_params w r li g act
    (classification (group_signal w g) (r_ev r))))) (x, n)) as [E1 E2]. cbn [fst snd] in E2. set (l2 := attempts _ _) in *.
  assert (∀ outcome rec l3 st, records l3 = 0%nat →
    wpl (prog_bind (releaseIfRequested w r li) (λ _, prog_bind (notifyRisk w r g outcome) (λ _, record w rec))) (λ _ l', accounted l') l3 st) as Hfin.
  { intros outcome rec l3 st2 H. eapply wp_mono; [|by apply finish_one]. intros ? l' st' _ H'. by left. }
  assert (records (l ++ l2) = 0%nat) as H0 by (by rewrite records_app, Hl, E1).
  destruct x as [[| |obs]|]; [destruct (Nat.ltb_spec 1 n); [by apply Hfin|]|by apply Hfin| |by apply Hfin].
  - eapply wp_mono; [|apply release_quiet]. intros ? l' st2 _ (l3 & -> & H3 & H3'). right. split; [by rewrite records_app, H0, H3|]. left.
    rewrite !answers_app, Ha, E2, H3'. by replace (n - 1)%nat with 0%nat by lia.
  - destruct (planned_for _ _ _ _ _ _ _) as [|pa planned]; [by apply Hfin|].
    apply wpl_bind_quiet; [apply execute_quiet|]. intros _ l3 st2 [E3 _]. apply Hfin. by rewrite records_app, H0, E3.
Qed.

Lemma statsOnly_accounted r l st :
  w_rec w = true → r_site r = site → r_shard r = shard → r_streamID r = sid → quiet l →
  wpl (statsOnly w r) (λ _ l', accounted l') l st.
Proof.
  intros Hw Hsite Hsh Hid [Hl Ha]. unfold statsOnly. apply wp_bind. rewrite Hsite, Hsh, Hid. eapply wp_mono; [|by apply wpl_retry].
  intros [x n] l1 st1 _ ->. pose proof (observe_attempts (ct_Key site) None (x, n)) as [E1 E2]. cbn [fst snd] in E2. set (l2 := attempts _ _) in *.
  assert (records (l ++ l2) = 0%nat) as H0 by (by rewrite records_app, Hl, E1).
  assert (∀ rec, wpl (record w rec) (λ _ l', accounted l') (l ++ l2) st1) as Hfin.
  { intros rec. eapply wp_mono; [|by apply record_one]. intros ? l' st' _ H'. by left. }
  destruct x as [[| |obs]|]; [destruct n as [|[|n]]; [apply Hfin| |apply Hfin]|apply Hfin..].
  split; [done|]. right. split; [done|]. left. by rewrite answers_app, Ha, E2.
Qed.

Lemma processEvent_accounted env fates calls st u l st' :
  w_rec w = true → event_site w ev = Some site → ct_NamespaceID site = ev_NamespaceID ev →
  interp sv env fates calls (processEvent w shard sid now ev) st = (Some u, l, st') → accounted l.
Proof.
  intros Hw Hsite Hns Hrun.
  assert (wpl (processEvent w shard sid now ev) (λ _ l', accounted l') [] st) as Hwp.
  { unfold processEvent. change (ParseLeaseID _ ≫= _) with (event_site w ev). rewrite Hsite, Hns, String.eqb_refl. cbn [negb].
    apply wp_bind. eapply wp_mono; [|by apply wpl_retry]. intros [x n] l1 st1 _ ->. cbn [app].
    assert (quiet (attempts (c_load (ct_Key site) (ev_LeaseID ev)) (x, n))) as Hq by (by apply quiet_attempts).
    destruct x as [[li|]|]; cbn [fst]; [|by apply statsOnly_accounted|].
    - destruct (String.eqb_spec (li_namespaceID li) (ev_NamespaceID ev)) as [_|Hne]; cbn [negb].
      + destruct (ct_GroupsByKey site !! _) as [g|]; [by apply processLeased_accounted|by apply statsOnly_accounted].
      + split; [done|]. right. split; [apply Hq|]. right. exists li. split; [|done]. unfold attempts. rewrite bind_app, elem_of_app. right.
        apply list_elem_of_here.
    - eapply wp_mono; [|apply record_one; [done|apply Hq]]. intros ? l' st2 _ H'. by left. }
  pose proof (wp_interp _ _ (λ _ _, True) _ _ _ _ _ env fates calls (λ _ _, I) Hwp) as H. rewrite Hrun in H. destruct H as [_ H]. by apply (H u).
Qed.

(** C29: every report is finished and accounted for: whatever becomes of the calls and
    whatever others do, the worker is done with a report of a known site of its
    namespace after at most 18 calls, and has recorded it exactly once, unless its
    entry had been applied before or its lease belongs to another namespace, when it
    records nothing. *)
Theorem recorded_once env fates calls st r l st' :
  w_rec w = true → event_site w ev = Some site → ct_NamespaceID site = ev_NamespaceID ev → (18 ≤ calls)%nat →
  interp sv env fates calls (processEvent w shard sid now ev) st = (r, l, st') → r = Some tt ∧ accounted l.
Proof.
  intros Hw Hsite Hns Hc Hrun. pose proof (interp_ends (exec_live sv) (@logged) env fates 18 calls _ st (exec_answers sv) (processEvent_calls w shard sid now ev) Hc) as [u Hu].
  rewrite Hrun in Hu. cbn in Hu. subst r. destruct u. split; [done|]. by eapply processEvent_accounted.
Qed.
End bounds.

(** ** Runs *)

#[local] Existing Instance flat_math.
#[local] Existing Instance literal_engine.

(** Identity 10 of site 1 is leased; a report of the lease says that it was banned. *)
Definition demo_lid : string := "lse_00112233445566778899aabbccddeeff_1_0a".
Definition demo_leased : Site :=
  set_hot (acquire_lua (demo_args 1000 ["lse_00112233445566778899aabbccddeeff_1_"]) (site_hot demo_run)).2 demo_run.
Definition demo_cat_group : CatGroup :=
  {| cg_ID := "eg-1"; cg_Name := "search"; cg_Snap := {| gs_Client := "web"; gs_Key := 1; gs_Action := Some ex_compiled; gs_Breaker := None |};
     cg_Signal := Some {| cs_trustHint := true; cs_rules := [] |}; cg_Quotas := [] |}.
Definition demo_cat_site : CatSite :=
  {| ct_Key := 1; ct_ID := "sit-1"; ct_Name := "example"; ct_NamespaceID := "ns-1"; ct_TenantID := "ten-1"; ct_Clients := ["web"];
     ct_Groups := {[("web", "search") := demo_cat_group]}; ct_GroupsByKey := {[1 := demo_cat_group]};
     ct_Snapshots := [cg_Snap demo_cat_group]; ct_Peers := [2] |}.
Definition demo_worker : Worker :=
  {| w_SiteByKey := λ k, if k =? 1 then Some demo_cat_site else None; w_reload := λ _, None; w_fallbackSignal := None; w_fallbackAction := None;
     w_LateReportWindow := 10 * Minute; w_jitter := λ _, f_zero; w_exec := true; w_rel := true; w_brk := true; w_rec := true |}.
Definition demo_event : Event :=
  {| ev_ReportID := "r-1"; ev_LeaseID := demo_lid; ev_NamespaceID := "ns-1"; ev_TenantID := "ten-1"; ev_TokenID := "tok"; ev_Node := "node-1";
     ev_ReceivedAt := 2000;
     ev_Facts := {| rf_URI := "/"; rf_Method := "GET"; rf_HTTPStatus := 403; rf_BusinessCode := ""; rf_ErrorKind := ""; rf_Markers := [];
                    rf_OutcomeHint := "banned"; rf_LatencyMs := 10; rf_ResponseBytes := 0 |};
     ev_StartedAt := 1500; ev_FinishedAt := 1900; ev_Release := true |}.
Definition demo_services : Services := {| sv_digest := λ _ _, "d"; sv_record_cooldowns := false; sv_late := 600000; sv_layout := λ _, [] |}.
(** The first call of the executor runs without its answer arriving. *)
Definition demo_fates (n : nat) (k : Z) : CallFate := if (n =? 15)%nat then call_timeout else call_done.
Definition demo_sites_leased : Sites := {[1 := demo_leased]}.
Definition demo_processed :=
  interp demo_services (λ _ st, st) demo_fates 18 (processEvent demo_worker 10 (5, 0) 2000000000 demo_event) demo_sites_leased.

(** The answers of the executor. *)
Definition executed (l : list Log) : list (ExecInput * list AppliedAction * list StateChange) :=
  omap (λ e, match e with log_execute in' (Some (acts, changes)) => Some (in', acts, changes) | _ => None end) l.
Lemma executed_in l in' acts changes : (in', acts, changes) ∈ executed l → log_execute in' (Some (acts, changes)) ∈ l.
Proof. intros (e & He & H)%list_elem_of_omap. by destruct e as [| |in2 [[acts2 changes2]|]| | |]; simplify_eq. Qed.

Lemma demo_known : event_site demo_worker demo_event = Some demo_cat_site.
Proof.
  unfold event_site. assert (ParseLeaseID (bs (ev_LeaseID demo_event)) = Some {| lr_SiteKey := 1; lr_Shard := 10 |}) as -> by (vm_compute; reflexivity).
  reflexivity.
Qed.
Lemma demo_event_site site : event_site demo_worker demo_event = Some site → ct_Key site = 1 ∧ NoDup (ct_Key site :: ct_Peers site).
Proof.
  rewrite demo_known. intros [= <-]. split; [reflexivity|]. change (NoDup [1; 2]). by apply (bool_decide_unpack _); vm_compute.
Qed.

Lemma demo_stream_id : stream_id (5, 0).
Proof. by apply (bool_decide_unpack _); vm_compute. Qed.

Lemma demo_unchanged v st : keeps_under v st st.
Proof. intros k. reflexivity. Qed.

Lemma demo_leased_at (P : Site → Prop) : P demo_leased → P no_site → ∀ k, P (site_at demo_sites_leased k).
Proof.
  intros H1 H2 k. unfold site_at, demo_sites_leased. destruct (decide (k = 1)) as [->|Hne]; [by rewrite lookup_singleton_eq|by rewrite lookup_singleton_ne].
Qed.

Definition demo_deliveries : list Delivery :=
  [{| dl_worker := demo_worker; dl_now := 2000000000; dl_env := λ _ st, st; dl_fates := demo_fates; dl_calls := 16 |};
   {| dl_worker := demo_worker; dl_now := 3000000000; dl_env := λ _ st, st; dl_fates := λ _ _, call_done; dl_calls := 18 |}].

(** The worker dies after the executor answered; the entry is processed again. *)
Lemma acts_once_witness :
  (executes <$> (process_all demo_services 10 (5, 0) demo_event demo_deliveries demo_sites_leased).1) = [true; false] ∧
  (length (filter (λ l, executes l = true) (process_all demo_services 10%Z (5, 0)%Z demo_event demo_deliveries demo_sites_leased).1) ≤ 1)%nat.
Proof.
  split; [vm_compute; reflexivity|]. apply (acts_once demo_services 10 (5, 0) demo_event 1 demo_stream_id).
  - apply (demo_leased_at ckpt_valid); intros shard last H; change ((∅ : gmap Z (Z * Z)) !! shard = Some last) in H; by apply lookup_empty_Some in H.
  - constructor; [|constructor; [|constructor]]; (split; [intros n st; apply demo_unchanged|exact demo_event_site]).
Defined.

Lemma recorded_once_witness : demo_processed.1.1 = Some tt ∧ records demo_processed.1.2 = 1%nat.
Proof.
  destruct demo_processed as [[r l] st'] eqn:E.
  destruct (recorded_once demo_services demo_worker 10 (5, 0) 2000000000 demo_event demo_cat_site (λ _ st, st) demo_fates 18 demo_sites_leased r l st')
    as [Hr Hl]; [reflexivity|exact demo_known|reflexivity|lia|exact E|]. split; [exact Hr|].
  apply (f_equal (λ x, records x.1.2)) in E. cbn [fst snd] in *. rewrite <- E. vm_compute. reflexivity.
Defined.

Lemma demo_unseen : unseen demo_event demo_sites_leased.
Proof. intros k d. revert k. apply (demo_leased_at (λ s, s_axr s !! record_key demo_event d = None)); apply lookup_empty. Qed.

Lemma demo_after_ready : acquire_ready (demo_args 3000 ["lse_c"]) (site_hot (site_at demo_processed.2 1)).
Proof.
  split; [cbn; lia|apply NoDup_singleton|cbn; lia|]. intros p n Hp. cbn in Hp. apply list_elem_of_singleton in Hp as ->.
  assert (∀ lid, h_ls (site_hot (site_at demo_processed.2 1)) !! lid ≠ None → lid = demo_lid) as Hls.
  { intros lid Hl. assert (dom (h_ls (site_hot (site_at demo_processed.2 1))) = ({[demo_lid]} : gset string)) as Ed by (vm_compute; reflexivity).
    assert (lid ∈ ({[demo_lid]} : gset string)) as Hx by (rewrite <- Ed; by apply elem_of_dom, not_eq_None_Some). by apply elem_of_singleton in Hx. }
  destruct (h_ls _ !! _) as [l|] eqn:Hl; [|done]. exfalso. specialize (Hls _ ltac:(by rewrite Hl)). discriminate Hls.
Qed.

Lemma report_withholds_witness :
  ∃ in' acts changes a moved out h',
    log_execute in' (Some (acts, changes)) ∈ demo_processed.1.2 ∧ a ∈ acts ∧ aa_ToState a = "banned" ∧
    acquire_lua (demo_args 3000 ["lse_c"]) (site_hot (site_at demo_processed.2 1)) = (ReplyOK moved out, h') ∧
    (lo_i <$> out) = [11] ∧ IdentityKey in' = 10 ∧ IdentityKey in' ∉ lo_i <$> out.
Proof.
  assert (∃ in' acts changes a, (in', acts, changes) ∈ executed demo_processed.1.2 ∧ a ∈ acts ∧ aa_ToState a = "banned" ∧ IdentityKey in' = 10 ∧
    SiteKey in' = 1 ∧ aa_Skipped a = false ∧ aa_SubjectKind a = SubjectIdentity ∧ pa_Action (aa_Planned a) = ActionBan ∧
    ∀ u, aa_Until a = Some u → 3000000000 < u)
    as (in' & acts & changes & a & Hin & Ha & Hto & Hi & Hk & Hs & Hkind & Hact & Huntil).
  { assert (match executed demo_processed.1.2 with
      | (in', a :: _, _) :: _ => String.eqb (aa_ToState a) "banned" && (IdentityKey in' =? 10) && (SiteKey in' =? 1) && negb (aa_Skipped a) &&
          String.eqb (aa_SubjectKind a) SubjectIdentity && String.eqb (pa_Action (aa_Planned a)) ActionBan &&
          from_option (λ u, 3000000000 <? u) true (aa_Until a)
      | _ => false end = true) as H by (vm_compute; reflexivity).
    destruct (executed demo_processed.1.2) as [|[[in' [|a acts]] changes] rest]; [discriminate H|discriminate H|].
    rewrite !andb_true_iff, !String.eqb_eq, !Z.eqb_eq, negb_true_iff in H. destruct H as ((((((H1 & H2) & H3) & H4) & H5) & H6) & H7).
    exists in', (a :: acts), changes, a. split_and!; try done; [apply list_elem_of_here..|]. intros u Eu. rewrite Eu in H7. by apply Z.ltb_lt. }
  apply executed_in in Hin. pose proof demo_after_ready as Hready.
  destruct (acquire_lua (demo_args 3000 ["lse_c"]) (site_hot (site_at demo_processed.2 1))) as [reply h'] eqn:Eacq.
  assert (∃ moved out, reply = ReplyOK moved out ∧ (lo_i <$> out) = [11]) as (moved & out & -> & Hout).
  { apply (f_equal fst) in Eacq. vm_compute in Eacq. cbn in Eacq. subst reply. do 2 eexists. split; reflexivity. }
  destruct demo_processed as [[r l] st'] eqn:Erun. cbn [fst snd] in *.
  exists in', acts, changes, a, moved, out, h'. split; [exact Hin|]. split; [exact Ha|]. split; [exact Hto|]. split; [reflexivity|].
  split; [exact Hout|]. split; [exact Hi|].
  eapply (report_withholds demo_services demo_event {| hd_site := 1; hd_key := 10; hd_until := 4000 |} true demo_worker 10 (5, 0) 2000000000 (λ _ st, st) demo_fates 18
    demo_sites_leased r l st' in' acts changes a (site_at st' 1) (demo_args 3000 ["lse_c"]) moved out h').
  - exact demo_stream_id.
  - intros site Hsite. exact (proj2 (demo_event_site site Hsite)).
  - intros n st. split; [apply demo_unchanged|]. intros k d. by left.
  - exact demo_unseen.
  - exact Erun.
  - exact Hin.
  - exact Hk.
  - exact Hi.
  - exact Ha.
  - split_and!; [exact Hs|exact Hkind|rewrite Hact; discriminate| |rewrite Hact; discriminate].
    intros u Eu. cbn. exact (Huntil u Eu).
  - rewrite Hact. discriminate.
  - rewrite Hk. reflexivity.
  - exact Hready.
  - exact Eacq.
Defined.
