(* ===== verification/WorkerWindow.v ===== *)
(** * Breaker windows between the worker and the breaker

    The worker counts reports in the buckets "win:<eg>:<bucket>" (observe.lua, with
    the bucket that observe.go computes) and breaker_eval.lua sums the buckets of
    the window (with the arguments that internal/breaker computes).  The theorem
    shows that the two agree: the breaker is evaluated on exactly the reports of
    its window, each counted once. *)

From S2P Require Import Prelude GoStrings GoFloat PolicyBase PolicySignal GoTime LuaCommon PolicyAction PolicyRotation PolicySeverity PolicyEvaluate PolicyResolve Breaker IdGen.
From S2P Require Import SchedState SchedSelect SchedAcquire SchedLease SchedLedger SchedRefine SchedGrant SchedLoop SchedRun Scheduler.
From S2P Require Import HotSync ActionApply ActionExec WorkerObserve SiteScripts SiteRun WorkerProcess.

Local Open Scope Z_scope.

(** The fields "t", "s" and "r" of the bucket. *)
Definition window_of (eg : Z) (o : Obs) (k : Z) : Bucket :=
  match ob_win o !! (eg, k) with
  | Some w => {| bu_total := w_t w; bu_success := w_s w; bu_risk := w_r w |}
  | None => {| bu_total := 0; bu_success := 0; bu_risk := 0 |}
  end.

(** The reports that the script applied. *)
Fixpoint answered {lua : LuaMath} (ds : list delivery) (s : Site) : list ObsArgs :=
  match ds with
  | [] => []
  | d :: ds =>
      let '(shard, sid, full) := d in
      match observe_lua shard sid full s, full with
      | (obs_ok _, s), Some args => args :: answered ds s
      | (_, s), _ => answered ds s
      end
  end.

(** The report falls into one of the buckets of the group. *)
Definition counted_in (eg : Z) (bs : list Z) (args : ObsArgs) : bool :=
  match o_bucket args with Some (e, k) => (e =? eg) && bool_decide (k ∈ bs) | None => false end.

(** The worker's window is the breaker's. *)
Lemma breakerWindow_params spec : breakerWindow spec = (ep_WindowMs (paramsFor spec), ep_BucketMs (paramsFor spec)).
Proof.
  assert (∀ w b, 0 < w → 0 < b → Z.max (Z.quot w b) 1 = if Z.quot w b <=? 0 then 1 else Z.quot w b) as Hq
    by (intros w b Hw Hb; destruct (Z.leb_spec (Z.quot w b) 0); lia).
  unfold breakerWindow, paramsFor. destruct spec as [s|]; [|reflexivity]. cbn [default from_option id ep_WindowMs ep_BucketMs].
  change (Duration_Milliseconds (bk_Window defaultSpec)) with 60000. change (bk_Buckets defaultSpec) with 12.
  change (Duration_Milliseconds DefaultBreakerWindow) with 60000. change DefaultBreakerBuckets with 12. unfold positiveMs, maxBreakerBuckets.
  destruct (Z.gtb_spec (Duration_Milliseconds (bk_Window s)) 0), (Z.gtb_spec (bk_Buckets s) 0), (Z.leb_spec (bk_Buckets s) 0),
    (Z.leb_spec (bk_Buckets s) 60), (Z.gtb_spec (bk_Buckets s) 60); cbn [andb orb]; try lia; by rewrite Hq by lia.
Qed.

(** ** Sums over buckets *)

Definition sum_of (f : Z → Z) (bs : list Z) : Z := foldr Z.add 0 (f <$> bs).

Lemma sum_of_ext f g bs : (∀ k, k ∈ bs → f k = g k) → sum_of f bs = sum_of g bs.
Proof. intros H. unfold sum_of. f_equal. apply list_fmap_ext. intros i k Hk. by eapply H, list_elem_of_lookup_2. Qed.

Lemma sum_of_zero f bs : (∀ k, k ∈ bs → f k = 0) → sum_of f bs = 0.
Proof. intros H. rewrite (sum_of_ext f (λ _, 0)) by done. clear H. by induction bs. Qed.

(** One more in one bucket. *)
Lemma sum_of_bump f g bs k d :
  NoDup bs → g k = f k + d → (∀ j, j ≠ k → g j = f j) → sum_of g bs = sum_of f bs + (if bool_decide (k ∈ bs) then d else 0).
Proof.
  intros Hd Hk Hj. induction Hd as [|j bs Hni Hd IH]; [done|]. unfold sum_of in *. cbn [fmap list_fmap foldr]. rewrite IH.
  destruct (decide (j = k)) as [->|Hne].
  - rewrite (bool_decide_eq_true_2 (k ∈ k :: bs)) by apply list_elem_of_here. rewrite bool_decide_eq_false_2 by done. lia.
  - rewrite Hj by done. rewrite (bool_decide_ext (k ∈ j :: bs) (k ∈ bs)) by (rewrite elem_of_cons; naive_solver). lia.
Qed.

Lemma window_buckets_NoDup p now lastClosed : NoDup (window_buckets p now lastClosed).
Proof. unfold window_buckets. apply NoDup_fmap_2; [|apply NoDup_seq]. intros i j. lia. Qed.

Lemma window_of_total_ext eg o o' k : ob_win o' !! (eg, k) = ob_win o !! (eg, k) → window_of eg o' k = window_of eg o k.
Proof. intros E. unfold window_of. by rewrite E. Qed.

(** What a report adds to a sum over the buckets. *)
Lemma count_window_sum (f : Bucket → Z) (δ : ObsArgs → bool) eg args o bs :
  (∀ t s r, f {| bu_total := t + 1; bu_success := if is_success args then s + 1 else s; bu_risk := if o_risk args then r + 1 else r |} =
     f {| bu_total := t; bu_success := s; bu_risk := r |} + (if δ args then 1 else 0)) →
  NoDup bs →
  sum_of (λ k, f (window_of eg (count_window args o) k)) bs =
  sum_of (λ k, f (window_of eg o k)) bs + (if counted_in eg bs args && δ args then 1 else 0).
Proof.
  intros Hf Hd. unfold counted_in. destruct (o_bucket args) as [[e k]|] eqn:Eb.
  2:{ unfold count_window. rewrite Eb. cbn. lia. }
  destruct (Z.eqb_spec e eg) as [->|Hne]; cbn [andb].
  - rewrite (sum_of_bump (λ k, f (window_of eg o k)) _ bs k (if δ args then 1 else 0) Hd).
    + destruct (bool_decide (k ∈ bs)); done.
    + unfold count_window, window_of. rewrite Eb. cbn. rewrite lookup_insert_eq. destruct (ob_win o !! (eg, k)) as [w|]; apply Hf.
    + intros j Hj. f_equal. apply window_of_total_ext. unfold count_window. rewrite Eb. cbn. rewrite lookup_insert_ne; [done|congruence].
  - rewrite Z.add_0_r. apply sum_of_ext. intros j _. f_equal. apply window_of_total_ext. unfold count_window. rewrite Eb. cbn.
    rewrite lookup_insert_ne; [done|congruence].
Qed.

Section window.
Context {lua : LuaMath}.

Lemma observe_lua_win shard sid full s :
  ob_win (s_obs (observe_lua shard sid full s).2) =
  match (observe_lua shard sid full s).1, full with obs_ok _, Some args => ob_win (count_window args (s_obs s)) | _, _ => ob_win (s_obs s) end.
Proof.
  unfold observe_lua. destruct (match ob_ckpt _ !! shard with Some _ => _ | None => _ end); [done|]. destruct full as [args|]; [|done].
  set (s1 := on_obs _ s). pose proof (observe_full_obs args s1) as E. destruct (observe_full args s1) as [r s2]. cbn [fst snd] in *. rewrite E.
  unfold count_window. by destruct (o_bucket args).
Qed.

Lemma deliver_sum (f : Bucket → Z) (δ : ObsArgs → bool) eg ds s bs :
  (∀ args t s r, f {| bu_total := t + 1; bu_success := if is_success args then s + 1 else s; bu_risk := if o_risk args then r + 1 else r |} =
     f {| bu_total := t; bu_success := s; bu_risk := r |} + (if δ args then 1 else 0)) →
  NoDup bs →
  sum_of (λ k, f (window_of eg (s_obs (foldl deliver s ds)) k)) bs =
  sum_of (λ k, f (window_of eg (s_obs s) k)) bs + Z.of_nat (length (filter (λ a, counted_in eg bs a && δ a = true) (answered ds s))).
Proof.
  intros Hf Hd. revert s. induction ds as [|[[shard sid] full] ds IH]; intros s; [cbn; lia|]. cbn [foldl]. rewrite IH. cbn [deliver answered].
  pose proof (observe_lua_win shard sid full s) as E. destruct (observe_lua shard sid full s) as [r s1]. cbn [fst snd] in *.
  assert (∀ o, ob_win (s_obs s1) = ob_win o → sum_of (λ k, f (window_of eg (s_obs s1) k)) bs = sum_of (λ k, f (window_of eg o k)) bs) as Heq.
  { intros o Eo. apply sum_of_ext. intros k _. f_equal. apply window_of_total_ext. by rewrite Eo. }
  destruct r as [| |r]; [by rewrite (Heq _ E)..|]. destruct full as [args|]; [|by rewrite (Heq _ E)].
  rewrite (Heq _ E), (count_window_sum f δ) by done. rewrite filter_cons. destruct (counted_in eg bs args && δ args); cbn [length]; [|case_decide; [done|lia]].
  case_decide; [cbn [length]; lia|done].
Qed.
Lemma params_positive spec : 0 < ep_WindowMs (paramsFor spec) ∧ 0 < ep_BucketMs (paramsFor spec) ∧ 0 < ep_Buckets (paramsFor spec).
Proof.
  pose proof (paramsFor_clamped spec) as E. split_and!.
  - unfold paramsFor, positiveMs. cbn [ep_WindowMs]. change (Duration_Milliseconds (bk_Window defaultSpec)) with 60000.
    destruct (Z.gtb_spec (Duration_Milliseconds (bk_Window (default defaultSpec spec))) 0); lia.
  - apply (f_equal ep_BucketMs) in E. cbn [clamped ep_BucketMs] in E. lia.
  - apply (f_equal ep_Buckets) in E. cbn [clamped ep_Buckets] in E. revert E.
    destruct (Z.ltb_spec (ep_Buckets (paramsFor spec)) 1); lia.
Qed.

Context `{RE : RegexEngine}.

(** A report of a group with the breaker policy, as the worker sends it. *)
Definition group_report (spec : option BreakerSpec) (eg : Z) (args : ObsArgs) : Prop :=
  ∃ p, args = observeArgs p ∧ gs_Breaker (cg_Snap (op_group p)) = spec ∧ gs_Key (cg_Snap (op_group p)) = eg ∧ 0 ≤ op_now p.

Lemma group_report_bucket spec eg args :
  group_report spec eg args → 0 ≤ o_now args ∧ o_bucket args = Some (eg, o_now args / ep_BucketMs (paramsFor spec)).
Proof.
  intros (p & -> & Hb & Hk & Hn). unfold observeArgs. rewrite Hb, breakerWindow_params. cbn [o_now o_bucket].
  destruct (params_positive spec) as (H1 & H2 & _). rewrite !(proj2 (Z.gtb_lt _ _)) by done. cbn [andb].
  assert (0 ≤ op_now p / 1000000) as Hms by (apply Z.div_pos; lia). split; [done|]. by rewrite Z.quot_div_nonneg, Hk by lia.
Qed.

(** C30: the breaker is evaluated on the reports of its window: whatever stream entries
    were processed and redelivered, the totals that breaker_eval.lua sums are the
    numbers of reports, successes and risks that were applied in the buckets of the
    window, and a report of the group is among them exactly when it came in the last
    buckets of the window, to the length of a bucket, and since the last close. *)
Theorem breaker_counts_reports spec eg ds s mode now pfcount b :
  (∀ k, ob_win (s_obs s) !! (eg, k) = None) → 0 ≤ now →
  let p := paramsFor spec in
  let w := er_Window (breaker_eval p mode now (window_of eg (s_obs (foldl deliver s ds))) pfcount b).2 in
  let bs := window_buckets p now (lc (b_hash b)) in
  let number (P : ObsArgs → bool) := Z.of_nat (length (filter (λ a, counted_in eg bs a && P a = true) (answered ds s))) in
  wi_Total w = number (λ _, true) ∧ wi_Success w = number is_success ∧ wi_Risk w = number o_risk ∧
  ∀ args, group_report spec eg args →
    (now - (ep_Buckets p - 1) * ep_BucketMs p ≤ o_now args ≤ now → (0 < lc (b_hash b) → lc (b_hash b) + ep_BucketMs p ≤ o_now args) →
       counted_in eg bs args = true) ∧
    (counted_in eg bs args = true →
       now - ep_Buckets p * ep_BucketMs p < o_now args < now + ep_BucketMs p ∧ (0 < lc (b_hash b) → lc (b_hash b) ≤ o_now args)).
Proof.
  intros Hs Hnow p w bs number. assert (clamped p = p) as Ec by apply paramsFor_clamped.
  assert (∀ (f : Bucket → Z) (δ : ObsArgs → bool), (∀ args t s r, f {| bu_total := t + 1; bu_success := if is_success args then s + 1 else s; bu_risk := if o_risk args then r + 1 else r |} =
     f {| bu_total := t; bu_success := s; bu_risk := r |} + (if δ args then 1 else 0)) → f {| bu_total := 0; bu_success := 0; bu_risk := 0 |} = 0 →
     foldr Z.add 0 ((λ k, f (window_of eg (s_obs (foldl deliver s ds)) k)) <$> bs) = number δ) as Hsum.
  { intros f δ Hf H0. subst number bs. cbv beta. pose proof (deliver_sum f δ eg ds s (window_buckets p now (lc (b_hash b))) Hf (window_buckets_NoDup _ _ _)) as H.
    unfold sum_of at 1 in H. rewrite H, sum_of_zero; [lia|]. intros k _. unfold window_of. by rewrite Hs. }
  split_and!; [subst w; cbn; rewrite Ec; fold bs; (apply Hsum; [|done]); intros args t r1 r2; cbn; by try destruct (is_success args); try destruct (o_risk args); lia ..|].
  intros args Hr. destruct (group_report_bucket spec eg args Hr) as [Hpos Eb]. destruct (params_positive spec) as (_ & Hb & Hn). fold p in Eb, Hb, Hn.
  unfold counted_in. rewrite Eb, Z.eqb_refl. cbn [andb]. rewrite bool_decide_eq_true. set (t := o_now args) in *.
  pose proof (Z.mul_div_le t (ep_BucketMs p) Hb). pose proof (Z.mul_succ_div_gt t (ep_BucketMs p) Hb). split.
  - intros Hin Hlc. apply window_buckets_in. split; [|apply Z.div_le_mono; lia]. unfold window_first.
    assert (now / ep_BucketMs p - (ep_Buckets p - 1) ≤ t / ep_BucketMs p) as Hfirst.
    { apply Z.div_le_lower_bound; [done|]. pose proof (Z.mul_div_le now (ep_BucketMs p) Hb). nia. }
    destruct (Z.gtb_spec (lc (b_hash b)) 0) as [Hc|]; [|lia]. specialize (Hlc Hc).
    pose proof (Z.mul_div_le (- lc (b_hash b)) (ep_BucketMs p) Hb). pose proof (Z.mul_succ_div_gt (- lc (b_hash b)) (ep_BucketMs p) Hb). nia.
  - intros Hin. pose proof (window_buckets_spec p now (lc (b_hash b)) (t / ep_BucketMs p) Hnow) as H'. rewrite Ec in H'. destruct (H' Hin) as [H1 H2].
    split; [nia|]. intros H3. specialize (H2 H3). nia.
Qed.
End window.

(** ** Runs *)

#[local] Existing Instance flat_math.
#[local] Existing Instance literal_engine.

(** Two reports of the group of the example, the first one delivered twice. *)
Definition demo_params (now : Z) (outcome : string) : observeParams :=
  {| op_now := now; op_leaseID := demo_lid; op_group := demo_cat_group; op_action := ex_compiled; op_identityKey := 10; op_proxyKey := 0;
     op_outcome := outcome; op_blame := BlameIdentity; op_late := false; op_counters := []; op_banWindows := [] |}.
Definition demo_stream : list delivery :=
  [(10, (5, 0), Some (observeArgs (demo_params 2000000000 "success"))); (10, (5, 0), Some (observeArgs (demo_params 2000000000 "success")));
   (10, (6, 0), Some (observeArgs (demo_params 9000000000 "banned")))].
Definition demo_counted : Site := foldl deliver demo_leased demo_stream.

Lemma breaker_counts_reports_witness :
  let w := er_Window (breaker_eval (paramsFor None) true 10000 (window_of 1 (s_obs demo_counted)) ex_captcha ex_closed).2 in
  wi_Total w = 2 ∧ wi_Success w = 1 ∧ wi_Risk w = 1.
Proof.
  cbv zeta. assert (∀ k, ob_win (s_obs demo_leased) !! (1, k) = None) as Hw by (intros k; apply lookup_empty).
  destruct (breaker_counts_reports None 1 demo_stream demo_leased true 10000 ex_captcha ex_closed Hw ltac:(lia)) as (H1 & H2 & H3 & _).
  fold demo_counted in H1, H2, H3. rewrite H1, H2, H3. vm_compute. split_and!; reflexivity.
Defined.
