(* ===== verification/ReportStream.v ===== *)
(** * The report streams

    A Redis stream with the consumer group of the workers: the entries in the order
    of their ids, the last id that was delivered to the group, and the entries that
    were delivered and not acknowledged.  The commands are the ones that ingest.lua
    (internal/signal) and the consumers (internal/worker/consumer.go) use. *)

From S2P Require Import Prelude GoStrings GoFloat PolicyBase GoTime LuaCommon WorkerObserve.

Local Open Scope Z_scope.

(** ** Stream ids *)

Abbreviation sid := (Z * Z)%type.
Definition sid_lt (a b : sid) : Prop := a.1 < b.1 ∨ a.1 = b.1 ∧ a.2 < b.2.
#[export] Instance sid_lt_dec a b : Decision (sid_lt a b).
Proof. unfold sid_lt. apply _. Defined.

(** Linear arithmetic on ids. *)
Ltac sid_solve :=
  unfold sid_lt, sid_le in *;
  repeat match goal with
         | x : sid |- _ => destruct x
         | H : (_, _) = (_, _) |- _ => injection H as ?; subst
         | H : (_, _) ≠ (_, _) |- _ => rewrite pair_equal_spec in H
         | |- (_, _) = (_, _) => f_equal
         end; cbn [fst snd] in *; lia.

Lemma sid_lt_le a b : sid_lt a b → sid_le a b.
Proof. sid_solve. Qed.
Lemma sid_lt_irrefl a : ¬ sid_lt a a.
Proof. sid_solve. Qed.
Lemma sid_lt_trans a b c : sid_lt a b → sid_lt b c → sid_lt a c.
Proof. sid_solve. Qed.
Lemma sid_lt_le_trans a b c : sid_lt a b → sid_le b c → sid_lt a c.
Proof. sid_solve. Qed.
Lemma sid_le_lt_trans a b c : sid_le a b → sid_lt b c → sid_lt a c.
Proof. sid_solve. Qed.
Lemma sid_le_not_lt a b : sid_le a b ↔ ¬ sid_lt b a.
Proof. sid_solve. Qed.
Lemma sid_le_lt_eq a b : sid_le a b → sid_lt a b ∨ a = b.
Proof.
  destruct a as [a1 a2], b as [b1 b2]. unfold sid_le, sid_lt. cbn. intros [?|[-> ?]]; [by left; left|].
  destruct (decide (a2 = b2)) as [->|]; [by right|]. left. right. lia.
Qed.
#[export] Instance sid_le_transitive : Transitive sid_le := sid_le_trans.
#[export] Instance sid_le_totality : Total sid_le.
Proof. intros a b. destruct (decide (sid_le a b)); [by left|right; by apply sid_le_total]. Qed.
#[export] Instance sid_le_antisym : AntiSymm eq sid_le.
Proof. intros a b H1 H2. apply sid_le_lt_eq in H1 as [H1|]; [|done]. apply sid_le_not_lt in H2. done. Qed.
#[export] Instance sid_le_refl : Reflexive sid_le.
Proof. intros a. sid_solve. Qed.

(** ** Lists in order *)

Section sorted.
Context {B : Type} (R : relation B).

Lemma sorted_take_drop n (l : list B) x y : StronglySorted R l → x ∈ take n l → y ∈ drop n l → R x y.
Proof. intros H Hx Hy. rewrite <- (take_drop n l) in H. apply StronglySorted_app in H as (Hxy & _ & _). by apply Hxy. Qed.
Lemma elem_take n (l : list B) x : x ∈ take n l → x ∈ l.
Proof. intros H. rewrite <- (take_drop n l), elem_of_app. by left. Qed.
Lemma elem_drop n (l : list B) x : x ∈ drop n l → x ∈ l.
Proof. intros H. rewrite <- (take_drop n l), elem_of_app. by right. Qed.
Lemma sorted_take n (l : list B) : StronglySorted R l → StronglySorted R (take n l).
Proof. intros H. rewrite <- (take_drop n l) in H. by apply StronglySorted_app in H as (_ & H & _). Qed.
Lemma sorted_drop n (l : list B) : StronglySorted R l → StronglySorted R (drop n l).
Proof. intros H. rewrite <- (take_drop n l) in H. by apply StronglySorted_app in H as (_ & _ & H). Qed.
Lemma sorted_filter (P : B → Prop) `{∀ x, Decision (P x)} (l : list B) : StronglySorted R l → StronglySorted R (filter P l).
Proof.
  induction 1 as [|x l _ IH Hx]; [constructor|]. rewrite filter_cons. case_decide; [|done]. constructor; [done|].
  rewrite Forall_forall in Hx |- *. intros y [_ Hy]%list_elem_of_filter. by apply Hx.
Qed.
End sorted.

(** ** Streams *)

Section stream.
Context {A : Type}.

(** [g_seen] is when a consumer was last active. *)
Record Group := { g_last : sid; g_pel : gmap sid string; g_seen : gmap string Z }.
Record Stream := { x_entries : list (sid * A); x_top : sid; x_group : option Group }.

Definition with_group (g : Group) (s : Stream) : Stream := {| x_entries := x_entries s; x_top := x_top s; x_group := Some g |}.
Definition with_entries (es : list (sid * A)) (s : Stream) : Stream := {| x_entries := es; x_top := x_top s; x_group := x_group s |}.

(** XADD with MAXLEN ~: the oldest entries beyond the cap may be evicted. *)
Definition next_id (now : Z) (top : sid) : sid := if top.1 <? now then (now, 0) else (top.1, top.2 + 1).
Definition xadd (now : Z) (maxlen evict : nat) (a : A) (s : Stream) : Stream :=
  let id := next_id now (x_top s) in
  let es := x_entries s ++ [(id, a)] in
  {| x_entries := drop (Nat.min evict (length es - maxlen)) es; x_top := id; x_group := x_group s |}.

(** XGROUP CREATE with MKSTREAM, where an existing group is left alone. *)
Definition xgroup_create (start : sid) (s : Stream) : Stream :=
  match x_group s with
  | Some _ => s
  | None => with_group {| g_last := start; g_pel := ∅; g_seen := ∅ |} s
  end.

(** XREADGROUP with ">": the next entries, now pending for the consumer. *)
Definition read_new (n : nat) (g : Group) (s : Stream) : list (sid * A) :=
  take n (filter (λ e, sid_lt (g_last g) e.1) (x_entries s)).
Definition delivered_to (consumer : string) (es : list (sid * A)) (pel : gmap sid string) : gmap sid string :=
  foldr (λ e, <[e.1 := consumer]>) pel es.
Definition xreadgroup (consumer : string) (now : Z) (n : nat) (s : Stream) : option (list (sid * A)) * Stream :=
  match x_group s with
  | None => (None, s)
  | Some g =>
      let new := read_new n g s in
      (Some new,
       with_group {| g_last := from_option fst (g_last g) (last new); g_pel := delivered_to consumer new (g_pel g);
                     g_seen := <[consumer := now]> (g_seen g) |} s)
  end.

(** XAUTOCLAIM with a minimum idle time of zero: the next pending entries from
    [start] on; pending ids without an entry are dropped. *)
Definition pel_ids (pel : gmap sid string) : list sid := merge_sort sid_le (map_to_list pel).*1.
Definition scanned (start : sid) (g : Group) : list sid := filter (λ id, sid_le start id) (pel_ids (g_pel g)).
Definition entry_at (s : Stream) (id : sid) : option (sid * A) := list_find (λ e, e.1 = id) (x_entries s) ≫= λ ie, Some ie.2.
Definition dead (s : Stream) (ids : list sid) : list sid := filter (λ id, entry_at s id = None) ids.
Definition xautoclaim (consumer : string) (now : Z) (start : sid) (n : nat) (s : Stream) : option (sid * list (sid * A)) * Stream :=
  match x_group s with
  | None => (None, s)
  | Some g =>
      let ids := take n (scanned start g) in
      let claimed := omap (entry_at s) ids in
      (Some (default (0, 0) (head (drop n (scanned start g))), claimed),
       with_group {| g_last := g_last g; g_pel := delivered_to consumer claimed (filter (λ p, p.1 ∉ dead s ids) (g_pel g));
                     g_seen := <[consumer := now]> (g_seen g) |} s)
  end.

Definition on_pel (f : gmap sid string → gmap sid string) (s : Stream) : Stream :=
  match x_group s with
  | None => s
  | Some g => with_group {| g_last := g_last g; g_pel := f (g_pel g); g_seen := g_seen g |} s
  end.
Definition xack (ids : list sid) : Stream → Stream := on_pel (filter (λ p, p.1 ∉ ids)).

(** XPENDING: the smallest pending id; XINFO GROUPS: the last delivered one. *)
Definition xpending (s : Stream) : option sid := x_group s ≫= λ g, head (pel_ids (g_pel g)).

(** XTRIM with MINID ~: up to [k] of the entries below the floor are removed. *)
Definition xtrim (floor : sid) (k : nat) (s : Stream) : Stream :=
  with_entries (drop (Nat.min k (length (filter (λ e, sid_lt e.1 floor) (x_entries s)))) (x_entries s)) s.

(** XINFO CONSUMERS: names with their pending entries and idle times. *)
Definition xconsumers (now : Z) (s : Stream) : list (string * nat * Z) :=
  match x_group s with
  | None => []
  | Some g => (λ c, (c.1, length (filter (λ p, p.2 = c.1) (map_to_list (g_pel g))), now - c.2)) <$> map_to_list (g_seen g)
  end.
(** XGROUP DELCONSUMER: the pending entries of the consumer go with it. *)
Definition xdelconsumer (consumer : string) (s : Stream) : Stream :=
  match x_group s with
  | None => s
  | Some g =>
      with_group {| g_last := g_last g; g_pel := filter (λ p, p.2 ≠ consumer) (g_pel g); g_seen := delete consumer (g_seen g) |} s
  end.

(** ** Well-formed streams *)

Definition before (a b : sid * A) : Prop := sid_lt a.1 b.1.
Definition id_in (id : sid) (es : list (sid * A)) : Prop := id ∈ es.*1.
Definition is_pending (id : sid) (s : Stream) : Prop := ∃ g, x_group s = Some g ∧ is_Some (g_pel g !! id).
(** The group does not know the entry yet. *)
Definition undelivered (id : sid) (s : Stream) : Prop := ∀ g, x_group s = Some g → sid_lt (g_last g) id.

Record stream_wf (s : Stream) : Prop := {
  wf_sorted : StronglySorted before (x_entries s);
  wf_range : ∀ id, id_in id (x_entries s) → sid_lt (0, 0) id ∧ sid_le id (x_top s);
  wf_top : sid_le (0, 0) (x_top s);
  wf_last : ∀ g, x_group s = Some g → sid_le (g_last g) (x_top s);
  wf_pel : ∀ g id, x_group s = Some g → is_Some (g_pel g !! id) → sid_lt (0, 0) id ∧ sid_le id (g_last g);
}.

Lemma next_id_lt now top : sid_lt top (next_id now top).
Proof. unfold next_id. destruct (Z.ltb_spec top.1 now); sid_solve. Qed.

Lemma pel_ids_in pel id : id ∈ pel_ids pel ↔ is_Some (pel !! id).
Proof.
  unfold pel_ids. rewrite (merge_sort_Permutation sid_le), list_elem_of_fmap. split.
  - intros ([i c] & -> & H%elem_of_map_to_list). by exists c.
  - intros [c H]. exists (id, c). split; [done|]. by apply elem_of_map_to_list.
Qed.
Lemma pel_ids_sorted pel : StronglySorted sid_lt (pel_ids pel).
Proof.
  assert (NoDup (pel_ids pel)) as Hd by (unfold pel_ids; rewrite (merge_sort_Permutation sid_le); apply NoDup_fst_map_to_list).
  assert (StronglySorted sid_le (pel_ids pel)) as Hs by apply (StronglySorted_merge_sort sid_le).
  induction Hs as [|x l _ IH Hx]; [constructor|]. apply NoDup_cons in Hd as [Hn Hd]. constructor; [by apply IH|].
  rewrite Forall_forall in Hx |- *. intros y Hy. destruct (sid_le_lt_eq x y (Hx y Hy)) as [|<-]; done.
Qed.

Lemma delivered_to_some c es pel id : is_Some (delivered_to c es pel !! id) ↔ id_in id es ∨ is_Some (pel !! id).
Proof.
  unfold id_in. induction es as [|e es IH]; cbn [delivered_to foldr fmap list_fmap].
  - rewrite elem_of_nil. tauto.
  - rewrite elem_of_cons. destruct (decide (e.1 = id)) as [<-|Hne]; [rewrite lookup_insert_eq; split; [by left; left|by eexists]|].
    rewrite lookup_insert_ne by done. fold (delivered_to c es pel). rewrite IH. split; [tauto|]. intros [[->|]|]; tauto.
Qed.

Lemma entry_of_some s id e : entry_at s id = Some e → e ∈ x_entries s ∧ e.1 = id.
Proof.
  unfold entry_at. intros H. apply bind_Some in H as ([i e'] & H & [= <-]). apply list_find_Some in H as (H & E & _).
  split; [by eapply list_elem_of_lookup_2|done].
Qed.
Lemma entry_of_none s id : entry_at s id = None ↔ ¬ id_in id (x_entries s).
Proof.
  unfold entry_at, id_in. split.
  - intros H Hin. apply list_elem_of_fmap in Hin as (e & -> & He). destruct (list_find (λ e', e'.1 = e.1) (x_entries s)) as [[i e']|] eqn:E; [done|].
    apply list_find_None in E. rewrite Forall_forall in E. by apply (E e He).
  - intros Hin. destruct (list_find _ _) as [[i e]|] eqn:E; [|done]. exfalso. apply Hin. apply list_find_Some in E as (E & <- & _).
    apply list_elem_of_fmap. exists e. split; [done|by eapply list_elem_of_lookup_2].
Qed.

Lemma id_in_elem e es : e ∈ es → id_in e.1 es.
Proof. intros H. apply list_elem_of_fmap. by exists e. Qed.
Lemma id_in_drop n id (es : list (sid * A)) : id_in id (drop n es) → id_in id es.
Proof. unfold id_in. rewrite fmap_drop. apply elem_drop. Qed.
Lemma id_in_split n id (es : list (sid * A)) : id_in id es → id_in id (take n es) ∨ id_in id (drop n es).
Proof. unfold id_in. rewrite <- (take_drop n es) at 1. rewrite fmap_app, elem_of_app. done. Qed.
Lemma id_in_app id (es es' : list (sid * A)) : id_in id (es ++ es') ↔ id_in id es ∨ id_in id es'.
Proof. unfold id_in. by rewrite fmap_app, elem_of_app. Qed.

Lemma xadd_wf now maxlen evict a s : stream_wf s → stream_wf (xadd now maxlen evict a s).
Proof.
  intros W. pose proof (next_id_lt now (x_top s)) as Hn. split; cbn.
  - apply sorted_drop, StronglySorted_app. split_and!; [|apply W|repeat constructor].
    intros e e' He ->%list_elem_of_singleton. unfold before. cbn. eapply sid_le_lt_trans; [|exact Hn]. apply (wf_range s W), id_in_elem, He.
  - intros id [Hid|Hid]%id_in_drop%id_in_app.
    + destruct (wf_range s W id Hid). split; [done|]. etrans; [done|by apply sid_lt_le].
    + apply list_elem_of_singleton in Hid as ->. pose proof (wf_top s W). split; [by eapply sid_le_lt_trans|done].
  - etrans; [by apply wf_top|by apply sid_lt_le].
  - intros g Hg. etrans; [by apply (wf_last s W)|by apply sid_lt_le].
  - apply W.
Qed.

Lemma xgroup_create_wf s : stream_wf s → stream_wf (xgroup_create (0, 0) s).
Proof.
  intros W. unfold xgroup_create. destruct (x_group s) as [g|] eqn:Hg; [done|]. split; cbn; [apply (wf_sorted s W)|apply (wf_range s W)|apply (wf_top s W)| |].
  - intros g [= <-]. by apply wf_top.
  - intros g id [= <-]. cbn. rewrite lookup_empty. by intros [].
Qed.

(** A change of the group. *)
Lemma with_group_wf g s :
  stream_wf s → sid_le (g_last g) (x_top s) → (∀ id, is_Some (g_pel g !! id) → sid_lt (0, 0) id ∧ sid_le id (g_last g)) → stream_wf (with_group g s).
Proof. intros W Hl Hp. split; cbn; [apply (wf_sorted s W)|apply (wf_range s W)|apply (wf_top s W)| |]; [by intros ? [= <-]|intros ? id [= <-]; apply Hp]. Qed.

Lemma read_new_spec n g s :
  stream_wf s →
  StronglySorted before (read_new n g s) ∧
  (∀ e, e ∈ read_new n g s → e ∈ x_entries s ∧ sid_lt (g_last g) e.1) ∧
  sid_le (g_last g) (from_option fst (g_last g) (last (read_new n g s))) ∧
  (∀ id, id_in id (read_new n g s) → sid_le id (from_option fst (g_last g) (last (read_new n g s)))) ∧
  (∀ id, id_in id (x_entries s) → sid_lt (g_last g) id →
     sid_le id (from_option fst (g_last g) (last (read_new n g s))) → id_in id (read_new n g s)).
Proof.
  intros W. unfold read_new. set (new := filter _ _).
  assert (StronglySorted before new) as Hs by (apply sorted_filter, W).
  assert (∀ e, e ∈ new ↔ e ∈ x_entries s ∧ sid_lt (g_last g) e.1) as Hin by (intros e; subst new; rewrite list_elem_of_filter; tauto).
  assert (∀ e, e ∈ take n new → e ∈ x_entries s ∧ sid_lt (g_last g) e.1) as Ht by (intros e He; apply Hin; by eapply elem_take).
  split_and!; [by apply sorted_take|done|..].
  - destruct (last (take n new)) as [e|] eqn:El; cbn; [|done]. apply last_Some_elem_of in El. by apply sid_lt_le, Ht.
  - intros id Hid. destruct (last (take n new)) as [e|] eqn:El; cbn; [|apply last_None in El; rewrite El in Hid; by apply not_elem_of_nil in Hid].
    apply last_Some in El as [es El]. rewrite El in Hid. apply id_in_app in Hid as [Hid|Hid]; [|by apply list_elem_of_singleton in Hid as ->].
    apply (sorted_take before n) in Hs. rewrite El in Hs. apply StronglySorted_app in Hs as (Hs & _).
    apply list_elem_of_fmap in Hid as (e' & -> & He'). apply sid_lt_le, Hs; [done|]. by apply list_elem_of_singleton.
  - intros id Hid Hlt Hle. apply list_elem_of_fmap in Hid as (e & -> & He). assert (e ∈ new) as Hn by (by apply Hin).
    rewrite <- (take_drop n new), elem_of_app in Hn. destruct Hn as [Hn|Hn]; [by apply id_in_elem|]. exfalso.
    destruct (last (take n new)) as [e'|] eqn:El; cbn in Hle; [|by apply sid_le_not_lt in Hle].
    apply last_Some_elem_of in El. apply sid_le_not_lt in Hle. apply Hle. by eapply (sorted_take_drop before n new).
Qed.

Lemma xreadgroup_wf c now n s : stream_wf s → stream_wf (xreadgroup c now n s).2.
Proof.
  intros W. unfold xreadgroup. destruct (x_group s) as [g|] eqn:Hg; [|done]. cbn [snd].
  pose proof (read_new_spec n g s W) as (_ & Hin & Hle & Hid & _). apply with_group_wf; [done|..]; cbn [g_last g_pel].
  - destruct (last (read_new n g s)) as [e|] eqn:El; cbn; [|by apply (wf_last s W)]. apply last_Some_elem_of, Hin in El as [El _].
    by apply (wf_range s W), id_in_elem.
  - intros id [H|H]%delivered_to_some.
    + split; [|by apply Hid]. apply list_elem_of_fmap in H as (e & -> & He). apply Hin in He as [He _]. by apply (wf_range s W), id_in_elem.
    + destruct (wf_pel s W g id Hg H). split; [done|]. by etrans.
Qed.

Lemma scanned_spec start g id : id ∈ scanned start g ↔ sid_le start id ∧ is_Some (g_pel g !! id).
Proof. unfold scanned. rewrite list_elem_of_filter, pel_ids_in. tauto. Qed.
Lemma scanned_sorted start g : StronglySorted sid_lt (scanned start g).
Proof. apply sorted_filter, pel_ids_sorted. Qed.

Lemma omap_entries_sorted s (ids : list sid) : StronglySorted sid_lt ids → StronglySorted before (omap (entry_at s) ids).
Proof.
  induction 1 as [|id ids _ IH Hid]; [constructor|]. cbn. destruct (entry_at s id) as [e|] eqn:E; [|done]. constructor; [done|].
  rewrite Forall_forall. rewrite Forall_forall in Hid. intros e' (id' & Hin & E')%list_elem_of_omap. unfold before.
  apply entry_of_some in E as [_ ->], E' as [_ ->]. by apply Hid.
Qed.

(** What a claim returns and leaves. *)
Lemma xautoclaim_spec c now start n s g :
  stream_wf s → x_group s = Some g → (0 < n)%nat →
  ∃ next es g',
    xautoclaim c now start n s = (Some (next, es), with_group g' s) ∧ stream_wf (with_group g' s) ∧ g_last g' = g_last g ∧
    StronglySorted before es ∧ (∀ e, e ∈ es → e ∈ x_entries s ∧ is_Some (g_pel g !! e.1) ∧ sid_le start e.1) ∧
    (∀ id, is_Some (g_pel g' !! id) → is_Some (g_pel g !! id)) ∧
    (∀ id, is_Some (g_pel g !! id) → id_in id (x_entries s) → is_Some (g_pel g' !! id)) ∧
    (∀ id, is_Some (g_pel g !! id) → id_in id (x_entries s) → sid_le start id → next = (0, 0) ∨ sid_lt id next → id_in id es) ∧
    (next = (0, 0) ∨ sid_lt start next) ∧ (∀ e, e ∈ es → next = (0, 0) ∨ sid_lt e.1 next).
Proof.
  intros W Hg Hn. unfold xautoclaim. rewrite Hg. eexists _, _, _. split; [done|]. set (ids := take n (scanned start g)). set (es := omap _ ids).
  assert (∀ e, e ∈ es → e ∈ x_entries s ∧ is_Some (g_pel g !! e.1) ∧ sid_le start e.1) as Hes.
  { intros e (id & Hid & E)%list_elem_of_omap. apply entry_of_some in E as [He <-]. apply elem_take, scanned_spec in Hid as [H1 H2]. done. }
  assert (∀ id, is_Some (delivered_to c es (filter (λ p, p.1 ∉ dead s ids) (g_pel g)) !! id) → is_Some (g_pel g !! id)) as Hsub.
  { intros id [H|[x H]]%delivered_to_some; [|apply map_lookup_filter_Some in H as [H _]; by exists x].
    apply list_elem_of_fmap in H as (e & -> & He). by apply Hes. }
  pose proof (scanned_sorted start g) as Hsort.
  split_and!; [| |exact (omap_entries_sorted s _ (sorted_take sid_lt n _ Hsort))|exact Hes|exact Hsub|..]; cbn [g_last g_pel].
  - apply with_group_wf; [done|exact (wf_last s W g Hg)|]. intros id Hid. by apply (wf_pel s W g id Hg), Hsub.
  - done.
  - intros id [x Hx] Hin. apply delivered_to_some. right. exists x. apply map_lookup_filter_Some. split; [done|]. cbn.
    unfold dead. rewrite list_elem_of_filter, entry_of_none. tauto.
  - intros id Hid Hin Hle Hnext. assert (id ∈ scanned start g) as Hs by (by apply scanned_spec).
    assert (id ∈ ids) as Hids.
    { subst ids. rewrite <- (take_drop n (scanned start g)), elem_of_app in Hs. destruct Hs as [|Hs]; [done|exfalso].
      destruct (drop n (scanned start g)) as [|x l] eqn:Ed; [by apply not_elem_of_nil in Hs|]. cbn in Hnext.
      assert (sid_le x id) as Hx.
      { apply (sorted_drop sid_lt n) in Hsort. rewrite Ed in Hsort. apply StronglySorted_inv in Hsort as [_ Hx].
        apply elem_of_cons in Hs as [->|Hs]; [done|]. rewrite Forall_forall in Hx. by apply sid_lt_le, Hx. }
      destruct Hnext as [->|Hlt]; [|by apply sid_le_not_lt in Hx].
      assert ((0, 0) ∈ scanned start g) as Hz by (apply (elem_drop n); rewrite Ed; apply list_elem_of_here).
      apply scanned_spec in Hz as [_ Hz]. destruct (wf_pel s W g _ Hg Hz) as [Hz' _]. by apply sid_lt_irrefl in Hz'. }
    destruct (entry_at s id) as [e|] eqn:E; [|by apply entry_of_none in E].
    assert (e ∈ es) as He by (apply list_elem_of_omap; by exists id). apply entry_of_some in E as [_ <-]. by apply id_in_elem.
  - destruct (drop n (scanned start g)) as [|x l] eqn:Ed; [by left|]. right. cbn.
    assert (∃ y, y ∈ take n (scanned start g)) as [y Hy].
    { destruct (scanned start g) as [|y l']; [by rewrite drop_nil in Ed|]. exists y. destruct n as [|n]; [lia|]. apply list_elem_of_here. }
    assert (sid_lt y x) as Hyx by (eapply (sorted_take_drop sid_lt n); [exact Hsort|done|rewrite Ed; apply list_elem_of_here]).
    eapply sid_le_lt_trans; [|exact Hyx]. by apply elem_take, scanned_spec in Hy as [Hy _].
  - intros e (id & Hid & E)%list_elem_of_omap. apply entry_of_some in E as [_ ->].
    destruct (drop n (scanned start g)) as [|x l] eqn:Ed; [by left|]. right. cbn.
    eapply (sorted_take_drop sid_lt n); [exact Hsort|done|rewrite Ed; apply list_elem_of_here].
Qed.

Lemma on_pel_wf f s :
  stream_wf s → (∀ pel id, is_Some (f pel !! id) → is_Some (pel !! id)) → stream_wf (on_pel f s).
Proof.
  intros W Hf. unfold on_pel. destruct (x_group s) as [g|] eqn:Hg; [|done]. apply with_group_wf; cbn; [done|by apply (wf_last s W)|].
  intros id Hid. apply (wf_pel s W g id Hg). by eapply Hf.
Qed.
Lemma filter_some (P : sid * string → Prop) `{∀ x, Decision (P x)} (pel : gmap sid string) id :
  is_Some (filter P pel !! id) → is_Some (pel !! id).
Proof. intros [x H']. apply map_lookup_filter_Some in H' as [H' _]. by exists x. Qed.

Lemma xack_wf ids s : stream_wf s → stream_wf (xack ids s).
Proof. intros W. apply on_pel_wf; [done|]. intros pel id. apply filter_some. Qed.

Lemma xdelconsumer_wf c s : stream_wf s → stream_wf (xdelconsumer c s).
Proof.
  intros W. unfold xdelconsumer. destruct (x_group s) as [g|] eqn:Hg; [|done]. apply with_group_wf; cbn; [done|by apply (wf_last s W)|].
  intros id Hid. apply (wf_pel s W g id Hg). by eapply filter_some.
Qed.

Lemma xtrim_wf floor k s : stream_wf s → stream_wf (xtrim floor k s).
Proof.
  intros W. split; cbn; [apply sorted_drop, (wf_sorted s W)| |apply (wf_top s W)|apply (wf_last s W)|apply (wf_pel s W)].
  intros id Hid%id_in_drop. by apply (wf_range s W).
Qed.

(** In a stream in order the entries below the floor come first. *)
Lemma sorted_below floor (es : list (sid * A)) :
  StronglySorted before es → filter (λ e, sid_lt e.1 floor) es = take (length (filter (λ e, sid_lt e.1 floor) es)) es.
Proof.
  induction 1 as [|e es _ IH He]; [done|]. rewrite filter_cons. case_decide as Hlt; [cbn; by f_equal|].
  assert (filter (λ e, sid_lt e.1 floor) es = []) as ->; [|done]. rewrite Forall_forall in He. apply elem_of_nil_inv. intros e' [Hlt' Hin]%list_elem_of_filter.
  apply Hlt. eapply sid_lt_trans; [|exact Hlt']. by apply He.
Qed.

(** A trim removes entries below the floor only. *)
Lemma xtrim_keeps floor k s id :
  stream_wf s → id_in id (x_entries s) → id_in id (x_entries (xtrim floor k s)) ∨ sid_lt id floor.
Proof.
  intros W Hid. cbn. set (m := length _). destruct (id_in_split (Nat.min k m) id _ Hid) as [H|H]; [right|by left].
  apply list_elem_of_fmap in H as (e & -> & He). assert (e ∈ take m (x_entries s)) as Hm.
  { rewrite <- take_take in He. by eapply elem_take. }
  subst m. rewrite <- sorted_below in Hm by apply W. by apply list_elem_of_filter in Hm as [? _].
Qed.
Lemma xack_pending ids s id : is_pending id (xack ids s) ↔ is_pending id s ∧ id ∉ ids.
Proof.
  unfold is_pending, xack, on_pel. destruct (x_group s) as [g|] eqn:Hg; [|rewrite Hg; split; [by intros (? & [=] & _)|by intros [(? & [=] & _) _]]]. cbn. split.
  - intros (g' & [= <-] & [x Hx]). cbn in Hx. apply map_lookup_filter_Some in Hx as [Hx Hn]. split; [|done]. exists g. split; [done|by exists x].
  - intros [(g' & [= <-] & [x Hx]) Hn]. eexists. split; [done|]. exists x. cbn. by apply map_lookup_filter_Some.
Qed.

End stream.
Arguments Stream A : clear implicits.
