(* ===== verification/WorkerConsume.v ===== *)
(** * The stream consumer

    internal/worker/consumer.go: the consumer of a shard creates the group, takes
    over the pending entries, reads new ones, processes them in order, acknowledges
    and trims.  It is a program of calls like the pipeline, which it runs for every
    entry; reports are appended between the calls, a call may fail with or without
    having run, and the consumer may stop or die anywhere and be followed by another
    one.  The theorems show that no report is lost before it was processed, and that
    the first processing of a report is never mistaken for a redelivery, provided
    that no read loses its answer; the last part shows what happens when one does. *)

From S2P Require Import Prelude GoStrings GoFloat PolicyBase PolicySignal GoTime LuaCommon PolicyAction PolicyRotation PolicySeverity PolicyEvaluate PolicyResolve Breaker IdGen.
From S2P Require Import SchedState SchedSelect SchedAcquire SchedLease SchedLedger SchedRefine SchedGrant SchedLoop SchedRun Scheduler.
From S2P Require Import HotSync ActionApply ActionExec WorkerObserve SiteScripts SiteRun Effects WorkerProcess ReportStream.

Local Open Scope Z_scope.
Local Open Scope prog_scope.

(** ** The calls of a consumer *)

(** A stream entry; [None] for one that cannot be decoded. *)
Abbreviation Entry := (sid * option Event)%type.

Inductive Reply (A : Type) := Answer (a : A) | NoGroup | Failed.
Arguments Answer {A} a.
Arguments NoGroup {A}.
Arguments Failed {A}.

(** [s_err] asks whether the context is cancelled, [s_sleep] sleeps and answers
    whether it was not, [s_now] reads the clock; the others are the commands on the
    stream, and the processing of an entry. *)
Inductive scmd : Type → Type :=
| s_err : scmd bool
| s_sleep (d : Z) : scmd bool
| s_now : scmd Z
| s_create : scmd (option unit)
| s_read (n : nat) : scmd (Reply (list Entry))
| s_claim (cursor : sid) (n : nat) : scmd (Reply (sid * list Entry))
| s_ack (ids : list sid) : scmd (option unit)
| s_pending : scmd (option (option sid))
| s_last : scmd (option (option sid))
| s_trim (floor : sid) : scmd (option unit)
| s_consumers : scmd (option (list (string * nat * Z)))
| s_del (name : string) : scmd (option unit)
| s_event (e : Entry) : scmd unit.

(** ** The program *)

Definition claimStart : sid := (0, 0).
Definition staleConsumerIdle : Z := 5 * Minute.
Definition minBackoff : Z := 100 * Millisecond.
Definition maxBackoff : Z := 5 * Second.
Definition DefaultTrimInterval : Z := 5 * Second.

(** What the consumer reads of the configuration of its instance. *)
Record Instance := { cf_InstanceID : string; cf_BatchSize : nat; cf_TrimInterval : Z }.

(** [trimmer]: when the stream was trimmed and the last acknowledged entry. *)
Record trimmer := { tr_interval : Z; tr_last : Z; tr_lastAcked : option sid }.
Definition trimmer_record (id : option sid) (t : trimmer) : trimmer :=
  match id with
  | Some id => {| tr_interval := tr_interval t; tr_last := tr_last t; tr_lastAcked := Some id |}
  | None => t
  end.
Definition trimmer_due (now : Z) (t : trimmer) : bool * trimmer :=
  if now - tr_last t <? tr_interval t then (false, t)
  else (true, {| tr_interval := tr_interval t; tr_last := now; tr_lastAcked := tr_lastAcked t |}).

(** [wait] with the backoff it leaves; [false] when the context was cancelled. *)
Definition wait (backoff : Z) : prog scmd (bool * Z) :=
  ok <- call (s_sleep backoff) ;; Ret (ok, Z.min (2 * backoff) maxBackoff).
Definition ensureGroup : prog scmd (option unit) := call s_create.
(** The group is created again after it was found missing. *)
Definition recreate (backoff : Z) : prog scmd (bool * Z) :=
  g <- ensureGroup ;; match g with Some _ => Ret (true, backoff) | None => wait backoff end.

Section program.
Variable cfg : Instance.

(** The entries until the context is cancelled, and the ids of the processed ones. *)
Fixpoint process_entries (entries : list Entry) (ids : list sid) : prog scmd (list sid) :=
  match entries with
  | [] => Ret ids
  | e :: entries =>
      err <- call s_err ;;
      if err : bool then Ret ids else call (s_event e) ;; process_entries entries (ids ++ [e.1])
  end.

(** complete, acked, lastID *)
Definition processBatch (entries : list Entry) : prog scmd (bool * bool * option sid) :=
  ids <- process_entries entries [] ;;
  let complete := (length ids =? length entries)%nat in
  match last ids with
  | None => Ret (complete, true, None)
  | Some lastID =>
      x <- retry (call (s_ack ids)) ;;
      match x.1 with Some _ => Ret (complete, true, Some lastID) | None => Ret (complete, false, None) end
  end.

(** claimed, acked, lastID, and the backoff *)
Fixpoint claimPending (fuel : nat) (cursor : sid) (acked : bool) (lastID : option sid) (backoff : Z) :
    prog scmd (bool * bool * option sid * Z) :=
  match fuel with
  | O => Ret (false, acked, lastID, backoff)
  | S fuel =>
      err <- call s_err ;;
      if err : bool then Ret (false, acked, lastID, backoff)
      else
        r <- call (s_claim cursor (cf_BatchSize cfg)) ;;
        match r with
        | Answer (next, entries) =>
            b <- (match entries with [] => Ret (true, true, None) | _ => processBatch entries end) ;;
            let '(complete, ok, id) := b in
            let acked := acked && ok in
            let lastID := match id with Some id => Some id | None => lastID end in
            if negb complete then Ret (false, acked, lastID, backoff)
            else if decide (next = claimStart) then Ret (true, acked, lastID, backoff)
            else claimPending fuel next acked lastID backoff
        | _ =>
            err <- call s_err ;;
            if err : bool then Ret (false, acked, lastID, backoff)
            else
              c <- (match r with NoGroup => recreate backoff | _ => wait backoff end) ;;
              let '(ok, backoff) := c in
              if ok : bool then claimPending fuel cursor acked lastID backoff else Ret (false, acked, lastID, backoff)
        end
  end.

(** The oldest entry that must survive; [None] is an error. *)
Definition trimFloor (lastAcked : option sid) : prog scmd (option (option sid)) :=
  p <- call s_pending ;;
  match p with
  | None => Ret None
  | Some (Some oldest) => Ret (Some (Some oldest))
  | Some None => match lastAcked with Some id => Ret (Some (Some id)) | None => call s_last end
  end.
Definition trimProcessed (lastAcked : option sid) : prog scmd unit :=
  floor <- trimFloor lastAcked ;;
  match floor with
  | Some (Some floor) => if decide (floor = claimStart) then Ret tt else call (s_trim floor) ;; Ret tt
  | _ => Ret tt
  end.

Definition stale (c : string * nat * Z) : bool :=
  negb (String.eqb c.1.1 "" || String.eqb c.1.1 (cf_InstanceID cfg) || (0 <? c.1.2)%nat || (c.2 <? std_ms staleConsumerIdle)).
Fixpoint remove_all (consumers : list (string * nat * Z)) : prog scmd unit :=
  match consumers with
  | [] => Ret tt
  | c :: consumers => (if stale c then call (s_del c.1.1) ;; Ret tt else Ret tt) ;; remove_all consumers
  end.
Definition removeStaleConsumers : prog scmd unit :=
  r <- call s_consumers ;; match r with None => Ret tt | Some consumers => remove_all consumers end.

(** The loop that creates the group; [None] when the consumer stops. *)
Fixpoint create_group (fuel : nat) (backoff : Z) : prog scmd (option Z) :=
  match fuel with
  | O => Ret None
  | S fuel =>
      err <- call s_err ;;
      if err : bool then Ret (Some backoff)
      else
        g <- ensureGroup ;;
        match g with
        | Some _ => Ret (Some backoff)
        | None =>
            c <- wait backoff ;;
            let '(ok, backoff) := c in if ok : bool then create_group fuel backoff else Ret None
        end
  end.

Definition trimInterval : Z := if cf_TrimInterval cfg >? 0 then cf_TrimInterval cfg else DefaultTrimInterval.

(** The loop of [consume]. *)
Fixpoint consume_loop (fuel : nat) (tr : trimmer) (acked : bool) (backoff : Z) : prog scmd unit :=
  match fuel with
  | O => Ret tt
  | S fuel =>
      err <- call s_err ;;
      if err : bool then Ret tt
      else if negb acked then
        c <- claimPending fuel claimStart true None backoff ;;
        let '(claimed, acked, lastID, backoff) := c in
        if claimed : bool then consume_loop fuel (trimmer_record lastID tr) acked backoff else Ret tt
      else
        r <- call (s_read (cf_BatchSize cfg)) ;;
        match r with
        | Answer entries =>
            b <- (match entries with [] => Ret (true, acked, None) | _ => processBatch entries end) ;;
            let '(complete, acked, lastID) := b in
            if negb complete then Ret tt
            else
              let tr := trimmer_record lastID tr in
              if acked : bool then
                now <- call s_now ;;
                let '(due, tr) := trimmer_due now tr in
                (if due : bool then trimProcessed (tr_lastAcked tr) else Ret tt) ;;
                consume_loop fuel tr acked minBackoff
              else consume_loop fuel tr acked minBackoff
        | _ =>
            err <- call s_err ;;
            if err : bool then Ret tt
            else
              c <- (match r with NoGroup => recreate backoff | _ => wait backoff end) ;;
              let '(ok, backoff) := c in
              if ok : bool then consume_loop fuel tr acked backoff else Ret tt
        end
  end.

Definition consume (fuel : nat) : prog scmd unit :=
  g <- create_group fuel minBackoff ;;
  match g with
  | None => Ret tt
  | Some backoff =>
      now <- call s_now ;;
      let tr := {| tr_interval := trimInterval; tr_last := now; tr_lastAcked := None |} in
      c <- claimPending fuel claimStart true None backoff ;;
      let '(claimed, acked, lastID, backoff) := c in
      if claimed : bool then removeStaleConsumers ;; consume_loop fuel (trimmer_record lastID tr) acked backoff else Ret tt
  end.
End program.

(** ** The world of a shard *)

(** The checkpoint of the shard at a site. *)
Abbreviation ckpt st k shard := (ob_ckpt (s_obs (site_at st k)) !! shard).

Section world.
Context `{RE : RegexEngine} {lua : LuaMath}.

(** One processing of an entry, by a worker: what it left behind and whether it came
    to its end. *)
Record Processing := { pr_entry : Entry; pr_worker : Worker; pr_log : list Log; pr_done : bool }.

(** The stream and the sites, with a history for the specification: the processings
    in their order, all entries that were ever appended and those that the cap of the
    stream evicted. *)
Record World := {
  wd_stream : Stream (option Event); wd_sites : Sites; wd_hist : list Processing; wd_added : list Entry; wd_evicted : list sid;
}.
Definition on_stream (f : Stream (option Event) → Stream (option Event)) (w : World) : World :=
  {| wd_stream := f (wd_stream w); wd_sites := wd_sites w; wd_hist := wd_hist w; wd_added := wd_added w; wd_evicted := wd_evicted w |}.

(** Others leave the checkpoints of the shard alone. *)
Definition quiet_sites (shard : Z) (st st' : Sites) : Prop := ∀ k, ckpt st' k shard = ckpt st k shard.

(** The catalog of a delivery lists a site once, and nobody else consumes the shard. *)
Definition delivery_quiet (shard : Z) (d : Delivery) : Prop :=
  (∀ n st, quiet_sites shard st (dl_env d n st)) ∧
  (∀ ev site, event_site (dl_worker d) ev = Some site → NoDup (ct_Key site :: ct_Peers site)).

(** What becomes of a call: whether it is answered, whether the context is cancelled,
    the clocks, how much a trim removes and how the pipeline runs. *)
Record Fate (shard : Z) := {
  f_call : CallFate; f_cancelled : bool; f_now : Z; f_trim : nat; f_delivery : Delivery; f_quiet : delivery_quiet shard f_delivery;
}.
Arguments f_call {shard}.
Arguments f_cancelled {shard}.
Arguments f_now {shard}.
Arguments f_trim {shard}.
Arguments f_delivery {shard}.
Arguments f_quiet {shard}.

Section machine.
Variables (sv : Services) (shard : Z).
(** Whether a read may run on the server and lose its answer. *)
Variable lossy : bool.
Variable cfg : Instance.

(** A command that answers or fails, with or without having run. *)
Definition stream_call {A : Type} (fate : Fate shard) (f : Stream (option Event) → A * Stream (option Event)) (w : World) : option A * World :=
  match f_call fate with
  | call_lost => (None, w)
  | call_timeout => (None, on_stream (λ s, (f s).2) w)
  | call_done => (Some (f (wd_stream w)).1, on_stream (λ s, (f s).2) w)
  end.
Definition reply_of {A : Type} (r : option (option A)) : Reply A :=
  match r with Some (Some a) => Answer a | Some None => NoGroup | None => Failed end.

Definition run_event (e : Entry) (d : Delivery) (w : World) : option unit * World :=
  let '(r, l, sites) :=
    match e.2 with
    | None => (Some tt, [], wd_sites w)
    | Some ev => interp sv (dl_env d) (dl_fates d) (dl_calls d) (processEvent (dl_worker d) shard e.1 (dl_now d) ev) (wd_sites w)
    end in
  (r, {| wd_stream := wd_stream w; wd_sites := sites;
         wd_hist := wd_hist w ++ [{| pr_entry := e; pr_worker := dl_worker d; pr_log := l; pr_done := bool_decide (is_Some r) |}];
         wd_added := wd_added w; wd_evicted := wd_evicted w |}).

Definition answer_with {X Y : Type} (f : X → Y) (r : X * World) : option Y * World := (Some (f r.1), r.2).

Definition exec_stream (X : Type) (fate : Fate shard) (c : scmd X) : World → option X * World :=
  match c in scmd X return World → option X * World with
  | s_err => λ w, (Some (f_cancelled fate), w)
  | s_sleep _ => λ w, (Some (negb (f_cancelled fate)), w)
  | s_now => λ w, (Some (f_now fate), w)
  | s_create => λ w, answer_with id (stream_call fate (λ s, (tt, xgroup_create (0, 0) s)) w)
  | s_read n => λ w,
      match f_call fate, lossy with
      | call_timeout, false => (Some Failed, w)
      | _, _ => answer_with reply_of (stream_call fate (xreadgroup (cf_InstanceID cfg) (f_now fate) n) w)
      end
  | s_claim cursor n => λ w, answer_with reply_of (stream_call fate (xautoclaim (cf_InstanceID cfg) (f_now fate) cursor n) w)
  | s_ack ids => λ w, answer_with id (stream_call fate (λ s, (tt, xack ids s)) w)
  | s_pending => λ w,
      answer_with (λ r, r ≫= id) (stream_call fate (λ s, (match x_group s with None => None | Some _ => Some (xpending s) end, s)) w)
  | s_last => λ w, answer_with id (stream_call fate (λ s, (g_last <$> x_group s, s)) w)
  | s_trim floor => λ w, answer_with id (stream_call fate (λ s, (tt, xtrim floor (f_trim fate) s)) w)
  | s_consumers => λ w, answer_with id (stream_call fate (λ s, (xconsumers (f_now fate) s, s)) w)
  | s_del name => λ w, answer_with id (stream_call fate (λ s, (tt, xdelconsumer name s)) w)
  | s_event e => run_event e (f_delivery fate)
  end.
End machine.

Abbreviation wps sv shard lossy cfg rely := (Effects.wp (exec_stream sv shard lossy cfg) (λ _ _ _, @nil unit) rely).

(** ** One event *)

Section event.
Variables (sv : Services) (shard : Z).

Lemma Execute_obs rc digest fates in' st k :
  NoDup (SiteKey in' :: PeerKeys in') → s_obs (site_at (Execute digest rc fates in' st).2 k) = s_obs (site_at st k).
Proof.
  intros Hd. unfold Execute. destruct (Planned in') as [|pa planned]; [done|]. destruct (_ || _); [done|].
  set (plans := _ <$> _). pose proof (applyPlans_sites digest fates in' plans (Now in') st Hd k) as H.
  destruct (applyPlans digest fates in' plans (Now in') st) as [r s1]. cbn [snd] in *. destruct H as [->|(ops & _ & ->)]; [done|].
  unfold run_call. destruct (fates k); [|done|apply apply_lua_obs].
  match goal with |- context [apply_lua ?now ?token ?ops ?s] => pose proof (apply_lua_obs now token ops s); by destruct (apply_lua now token ops s) end.
Qed.

(** Only observe.lua moves checkpoints. *)
Lemma exec_ckpt {X : Type} fates (c : cmd X) st k :
  cmd_ok c → match c with c_observe _ _ _ _ => True | _ => ckpt (exec sv fates c st).2 k shard = ckpt st k shard end.
Proof.
  destruct c as [site lid|site sh sid full|in'|site lid nowMs|site eg|rec]; intros Hok; cbn [exec]; try done.
  - by destruct (site_call_at (fates site) site (λ s, (loadLease lid s, s)) st k) as [->|[_ ->]].
  - by rewrite Execute_obs.
  - match goal with |- context [site_call ?f ?s ?g ?st] => destruct (site_call_at f s g st k) as [->|[_ ->]] end; [done|]. by destruct (release_lua _ _ _ _ _ _ _).
Qed.

Variables (id : sid) (st0 : Sites).
Hypothesis Hid : stream_id id.

(** The entry is ahead of every checkpoint. *)
Definition ahead (st : Sites) : Prop := ∀ k c, ckpt st k shard = Some c → stream_id c ∧ sid_lt c id.
(** Checkpoints only move to the entry. *)
Definition marked (st : Sites) : Prop := ∀ k c, ckpt st k shard = Some c → c = id ∨ ckpt st0 k shard = Some c.
(** The first answer of observe.lua was not that of a redelivery. *)
Definition unskipped (l : list Log) : Prop := head (answers l) ≠ Some (Some obs_dup).

Lemma unskipped_app l l' : answers l' = [] → unskipped l → unskipped (l ++ l').
Proof. unfold unskipped. rewrite answers_app. intros ->. by rewrite app_nil_r. Qed.

Definition ev_before (l : list Log) (st : Sites) : Prop :=
  (ahead st0 → unskipped l ∧ (answers l = [] → ahead st)) ∧ marked st.
Definition ev_after (l : list Log) (st : Sites) : Prop := (ahead st0 → unskipped l) ∧ marked st.

Lemma ev_before_step l l' st st' :
  (∀ k, ckpt st' k shard = ckpt st k shard) → answers l' = [] → ev_before l st → ev_before (l ++ l') st'.
Proof.
  intros E El [H1 H2]. split; [|intros k c; rewrite E; apply H2]. intros H0. destruct (H1 H0) as [Hu Ha]. split; [by apply unskipped_app|].
  rewrite answers_app, El, app_nil_r. intros Hl k c. rewrite E. by apply Ha.
Qed.
Lemma ev_after_step l l' st st' :
  (∀ k, ckpt st' k shard = ckpt st k shard) → answers l' = [] → ev_after l st → ev_after (l ++ l') st'.
Proof. intros E El [H1 H2]. split; [|intros k c; rewrite E; apply H2]. intros H0. by apply unskipped_app, H1. Qed.

Lemma ev_observe site full l st fates :
  ev_before l st →
  let '(x, st') := exec sv fates (c_observe site shard id full) st in
  let l' := l ++ [log_observe site shard id full x] in ev_before l' st' ∧ ev_after l' st'.
Proof.
  intros [H1 H2]. destruct (exec _ _ _ _) as [x st'] eqn:Ex. cbn zeta.
  set (l' := l ++ _). assert (answers l' = answers l ++ [x]) as El by (subst l'; by rewrite answers_app). assert (marked st') as Hm.
  { intros k c. cbn in Ex. pose proof (site_call_at (fates site) site (observe_lua shard id full) st k) as Hk. rewrite Ex in Hk. cbn [snd] in Hk.
    destruct Hk as [->|[-> ->]]; [apply H2|]. rewrite observe_lua_ckpt. destruct (match _ with Some _ => _ | None => _ end); [apply H2|].
    rewrite lookup_insert_eq. intros [= ->]. by left. }
  assert (ahead st0 → unskipped l') as Hu.
  { intros H0. destruct (H1 H0) as [Hu Ha]. unfold unskipped in *. rewrite El. destruct (answers l) as [|a al]; [|exact Hu].
    specialize (Ha eq_refl). cbn. intros [= ->]. cbn in Ex. destruct (fates site); [|done..]. cbn in Ex. injection Ex as Ex _.
    unfold observe_lua in Ex. destruct (ckpt st site shard) as [c|] eqn:Ec; [|by destruct full as [a|]; [destruct (observe_full a _)|]].
    destruct (Ha site c Ec) as [Hc Hlt]. rewrite ob_dup_le in Ex by done. rewrite bool_decide_eq_false_2 in Ex by (by rewrite sid_le_not_lt; auto).
    by destruct full as [a|]; [destruct (observe_full a _)|]. }
  split; (split; [|done]); [|done]. intros H0. split; [by apply Hu|]. rewrite El. by destruct (answers l).
Qed.

(** Whatever becomes of the processing of an entry, the checkpoints move to it only,
    and when it was ahead of them it is not taken for a redelivery. *)
Lemma event_marks d ev st :
  delivery_quiet shard d → st = st0 →
  let '(r, l, st') := interp sv (dl_env d) (dl_fates d) (dl_calls d) (processEvent (dl_worker d) shard id (dl_now d) ev) st in ev_after l st'.
Proof.
  intros [He Hcat] ->.
  assert (wp sv (quiet_sites shard) (processEvent (dl_worker d) shard id (dl_now d) ev) (λ _ l st, ev_after l st) ev_after [] st0) as Hwp.
  { apply (processEvent_wp sv (quiet_sites shard) (dl_worker d) shard id (dl_now d) ev ev_after ev_before ev_after ev_after).
    - intros l s [H1 H2]. split; [|done]. intros H0. by apply H1.
    - done.
    - done.
    - intros site lid l s s1 fates x HB Hr. apply (ev_before_step l [log_load x] s); [|done|done]. intros k. rewrite (exec_ckpt fates (c_load site lid) s1 k I). apply Hr.
    - intros site full l s s1 fates Hsite HB Hr. assert (ev_before l s1) as HB1.
      { rewrite <- (app_nil_r l). by apply (ev_before_step l [] s s1). }
      pose proof (ev_observe (ct_Key site) full l s1 fates HB1) as H. destruct (exec _ _ _ _) as [x s2]. destruct H as [Hb Ha]. done.
    - intros site in' l s Hsite (E1 & E2 & _) HA. apply wp_bind. apply wp_retry with (I := λ _ l st, ev_after l st); [|done]. intros n l1 s1 H1.
      apply wp_call; [done|]. intros s2 fates Hr. assert (cmd_ok (c_execute in')) as Hok by (cbn; rewrite E1, E2; by eapply Hcat).
      pose proof (λ k, exec_ckpt fates (c_execute in') s2 k Hok) as Hk. destruct (exec _ _ _ _) as [x s3]. cbn [snd logged] in *.
      assert (ev_after (l1 ++ [log_execute in' x]) s3) as H3 by (apply (ev_after_step l1 _ s1); [intros k; rewrite Hk; apply Hr|done|done]).
      split; [done|]. destruct x; [|split; [done|]]; by split.
    - intros X c l s s1 fates Hc HA Hr. pose proof (λ k, exec_ckpt fates c s1 k) as Hk. destruct (exec _ _ _ _) as [x s2] eqn:Ex.
      apply (ev_after_step l _ s); [|by destruct c|done]. intros k. rewrite <- (Hr k). specialize (Hk k).
      destruct c; try done; by apply Hk.
    - split; [|by right]. intros H0. by split. }
  pose proof (wp_interp _ _ (quiet_sites shard) _ _ _ _ _ (dl_env d) (dl_fates d) (dl_calls d) He Hwp) as H.
  destruct (interp _ _ _ _ _ _) as [[r l] st']. exact (proj1 H).
Qed.
End event.

(** ** The invariant *)

Definition begun (w : World) (id : sid) : Prop := ∃ p, p ∈ wd_hist w ∧ (pr_entry p).1 = id.
Definition processed (w : World) (id : sid) : Prop := ∃ p, p ∈ wd_hist w ∧ (pr_entry p).1 = id ∧ pr_done p = true.
Definition evicted (w : World) (id : sid) : Prop := id ∈ wd_evicted w.
Definition added (w : World) (id : sid) : Prop := id_in id (wd_added w).
Definition delivered (w : World) (id : sid) : Prop := ∃ g, x_group (wd_stream w) = Some g ∧ sid_le id (g_last g).
(** In the stream and either unknown to the group or pending. *)
Definition waiting (w : World) (id : sid) : Prop :=
  id_in id (x_entries (wd_stream w)) ∧ (undelivered id (wd_stream w) ∨ is_pending id (wd_stream w)).

(** A processing was not skipped, and when it came to its end the report of a known
    site has been recorded, or its lease belongs to another namespace. *)
Definition settled (p : Processing) : Prop :=
  unskipped (pr_log p) ∧
  ∀ ev site, (pr_entry p).2 = Some ev → event_site (pr_worker p) ev = Some site → ct_NamespaceID site = ev_NamespaceID ev →
    w_rec (pr_worker p) = true → pr_done p = true →
    records (pr_log p) = 1%nat ∨ ∃ li, log_load (Some (Some li)) ∈ pr_log p ∧ li_namespaceID li ≠ ev_NamespaceID ev.
(** The first processing of every entry. *)
Definition firsts_settled (hist : list Processing) : Prop :=
  ∀ h1 p h2, hist = h1 ++ p :: h2 → (∀ q, q ∈ h1 → (pr_entry q).1 ≠ (pr_entry p).1) → settled p.

Section invariant.
Variables (shard : Z) (lossy : bool).

Record order_ok (w : World) : Prop := {
  oo_closed : ∀ id id', begun w id → added w id' → sid_lt id' id → begun w id' ∨ evicted w id';
  oo_delivered : ∀ id, begun w id → delivered w id;
  oo_ckpt : ∀ k c, ckpt (wd_sites w) k shard = Some c → begun w c;
  oo_settled : firsts_settled (wd_hist w);
}.
Record world_ok (w : World) : Prop := {
  ok_wf : stream_wf (wd_stream w);
  ok_entries : ∀ e, e ∈ x_entries (wd_stream w) → e ∈ wd_added w;
  ok_added : ∀ id, added w id → stream_id id ∧ sid_le id (x_top (wd_stream w));
  ok_begun : ∀ id, begun w id → added w id;
  ok_pending : ∀ id, is_pending id (wd_stream w) → added w id;
  ok_evicted : ∀ id, evicted w id → added w id ∧ ∀ e, e ∈ x_entries (wd_stream w) → sid_lt id e.1;
  ok_kept : ∀ id, added w id → waiting w id ∨ processed w id ∨ evicted w id;
  ok_order : lossy = false → order_ok w;
}.

Lemma processed_begun w id : processed w id → begun w id.
Proof. intros (p & Hp & E & _). by exists p. Qed.

(** A command on the stream. *)
Lemma on_stream_ok f w :
  world_ok w → let s := wd_stream w in
  stream_wf (f s) → x_top (f s) = x_top s → (∀ e, e ∈ x_entries (f s) → e ∈ x_entries s) →
  (∀ id, is_pending id (f s) → is_pending id s ∨ id_in id (x_entries s)) →
  (∀ id, waiting w id → waiting (on_stream f w) id ∨ processed w id ∨ evicted w id) →
  (∀ id, delivered w id → delivered (on_stream f w) id) → world_ok (on_stream f w).
Proof.
  intros K s Hwf Htop Hin Hpend Hwait Hdel. split; cbn -[begun processed evicted added delivered waiting].
  - done.
  - intros e He. by apply (ok_entries w K), Hin.
  - intros id Hid. cbn. fold s. rewrite Htop. by apply (ok_added w K).
  - apply (ok_begun w K).
  - intros id [Hid|Hid]%Hpend; [by apply (ok_pending w K)|]. apply list_elem_of_fmap in Hid as (e & -> & He).
    apply id_in_elem, (ok_entries w K), He.
  - intros id Hid. destruct (ok_evicted w K id Hid) as [Ha He]. split; [done|]. intros e Hx. by apply He, Hin.
  - intros id Hid. destruct (ok_kept w K id Hid) as [Hw|Hp]; [by apply Hwait|by right].
  - intros Hl. destruct (ok_order w K Hl) as [H1 H2 H3 H4]. split; [exact H1| |exact H3|exact H4]. intros id Hb. by apply Hdel, H2.
Qed.

(** ** The others *)

Definition append_entry (now : Z) (maxlen evict : nat) (a : option Event) (w : World) : World :=
  let e := (next_id now (x_top (wd_stream w)), a) in
  let es := x_entries (wd_stream w) ++ [e] in
  {| wd_stream := xadd now maxlen evict a (wd_stream w); wd_sites := wd_sites w; wd_hist := wd_hist w;
     wd_added := wd_added w ++ [e]; wd_evicted := wd_evicted w ++ (take (Nat.min evict (length es - maxlen)) es).*1 |}.

(** Reports are appended, with ids of 64-bit numbers, and the sites change except for
    the checkpoints of the shard. *)
Inductive env_step (w : World) : World → Prop :=
| env_append now maxlen evict a : stream_id (next_id now (x_top (wd_stream w))) → env_step w (append_entry now maxlen evict a w)
| env_sites sites : quiet_sites shard (wd_sites w) sites →
    env_step w {| wd_stream := wd_stream w; wd_sites := sites; wd_hist := wd_hist w; wd_added := wd_added w; wd_evicted := wd_evicted w |}.

Lemma append_ok now maxlen evict a w :
  stream_id (next_id now (x_top (wd_stream w))) → world_ok w → world_ok (append_entry now maxlen evict a w).
Proof.
  intros Hs K. pose proof (ok_wf w K) as W. pose proof (next_id_lt now (x_top (wd_stream w))) as Hn.
  set (e := (next_id now (x_top (wd_stream w)), a)) in *. set (es := x_entries (wd_stream w) ++ [e]).
  set (k := Nat.min evict (length es - maxlen)).
  assert (∀ e', e' ∈ es → e' ∈ wd_added w ++ [e]) as Hes.
  { intros e' [He|He]%elem_of_app; apply elem_of_app; [left; by apply (ok_entries w K)|by right]. }
  assert (∀ id, added (append_entry now maxlen evict a w) id ↔ added w id ∨ id = e.1) as Hadd.
  { intros id. unfold added. cbn. rewrite id_in_app. unfold id_in at 2. cbn. by rewrite list_elem_of_singleton. }
  assert (∀ e', e' ∈ es → sid_le e'.1 e.1) as Hle.
  { intros e' [He|He]%elem_of_app; [|by apply list_elem_of_singleton in He as ->]. etrans; [|by apply sid_lt_le]. by apply (wf_range _ W), id_in_elem. }
  split.
  - by apply xadd_wf.
  - intros e' He'%elem_drop. by apply Hes.
  - intros id [Hid| ->]%Hadd; [|done]. destruct (ok_added w K id Hid) as [H1 H2]. split; [done|]. cbn. etrans; [done|by apply sid_lt_le].
  - intros id Hid. apply Hadd. left. by apply (ok_begun w K).
  - intros id Hid. apply Hadd. left. by apply (ok_pending w K).
  - assert (StronglySorted before es) as Hsort.
    { apply StronglySorted_app. split_and!; [|apply (wf_sorted _ W)|repeat constructor]. intros x y Hx Hy. apply list_elem_of_singleton in Hy as ->.
      unfold before. cbn. eapply sid_le_lt_trans; [|exact Hn]. by apply (wf_range _ W), id_in_elem. }
    intros id [Hid|Hid]%elem_of_app.
    + destruct (ok_evicted w K id Hid) as [H1 H2]. split; [apply Hadd; by left|]. intros e' He'%elem_drop. apply elem_of_app in He' as [He|He]; [by apply H2|].
      apply list_elem_of_singleton in He as ->. cbn. eapply sid_le_lt_trans; [|exact Hn]. by apply (ok_added w K).
    + apply list_elem_of_fmap in Hid as (x & -> & Hx). split; [apply id_in_elem, Hes; by eapply elem_take|].
      intros e' He'. by apply (sorted_take_drop before k es).
  - assert (∀ id, id_in id es → waiting w id ∨ id = e.1 → waiting (append_entry now maxlen evict a w) id ∨ evicted (append_entry now maxlen evict a w) id) as Hcase.
    { intros id Hin Hw. destruct (id_in_split k id es Hin) as [H|H]; [right; apply elem_of_app; by right|]. left. split; [exact H|].
      destruct Hw as [[_ Hw]| ->]; [exact Hw|]. left. intros g Hg. cbn. eapply sid_le_lt_trans; [|exact Hn]. by apply (wf_last _ W). }
    intros id [Hid| ->]%Hadd.
    + destruct (ok_kept w K id Hid) as [Hw|[Hp|He]]; [|right; by left|right; right; apply elem_of_app; by left].
      destruct (Hcase id) as [?|?]; [apply id_in_app; left; apply Hw|by left|by left|right; by right].
    + destruct (Hcase e.1) as [?|?]; [apply id_in_app; right; apply list_elem_of_here|by right|by left|right; by right].
  - intros Hl. destruct (ok_order w K Hl) as [H1 H2 H3 H4]. split; [|exact H2|exact H3|exact H4].
    intros id id' Hb [Ha| ->]%Hadd Hlt; [destruct (H1 id id' Hb Ha Hlt); [by left|right; apply elem_of_app; by left]|]. exfalso.
    apply (ok_begun w K), (ok_added w K) in Hb as [_ Hb]. apply (sid_lt_irrefl id). eapply sid_le_lt_trans; [exact Hb|]. by eapply sid_lt_trans.
Qed.

Lemma env_ok w w' : env_step w w' → world_ok w → world_ok w'.
Proof.
  intros [now maxlen evict a Hs|sites Hq] K; [by apply append_ok|]. destruct K as [? ? ? ? ? ? ? Ho]. split; try done.
  intros Hl. destruct (Ho Hl) as [H1 H2 H3 H4]. split; [exact H1|exact H2| |exact H4]. intros k c. cbn. rewrite Hq. apply H3.
Qed.
(** ** What the consumer knows *)

Definition below (b : option sid) (id : sid) : Prop := match b with Some c => sid_lt id c | None => True end.

(** The entries it is about to process: nothing older than one of them is missing,
    and the pending entries below the bound are among them or were processed. *)
Record batch_order (b : option sid) (es : list Entry) (w : World) : Prop := {
  bo_sorted : StronglySorted before es;
  bo_ahead : ∀ e, e ∈ es → begun w e.1 ∨ ∀ c, begun w c → sid_lt c e.1;
  bo_older : ∀ e id, e ∈ es → added w id → sid_lt id e.1 → begun w id ∨ evicted w id ∨ id_in id es;
  bo_below : ∀ id, is_pending id (wd_stream w) → below b id → begun w id ∨ evicted w id ∨ id_in id es;
}.
Definition batch (b : option sid) (es : list Entry) (w : World) : Prop :=
  (∀ e, e ∈ es → e ∈ wd_added w ∧ delivered w e.1) ∧ (lossy = false → batch_order b es w).
(** Entries that may be acknowledged. *)
Definition ackable (ids : list sid) (w : World) : Prop := ∀ id, id ∈ ids → processed w id ∧ delivered w id.
Definition known (o : option sid) (w : World) : Prop := ∀ id, o = Some id → delivered w id.
(** A floor that a trim may use. *)
Definition floor_ok (floor : sid) (w : World) : Prop :=
  sid_le floor (x_top (wd_stream w)) ∧ ∀ id, added w id → sid_lt id floor → processed w id ∨ evicted w id.
Definition none_pending (w : World) : Prop := ∀ id, ¬ is_pending id (wd_stream w).
Definition unused (names : list string) (w : World) : Prop :=
  ∀ g id name, x_group (wd_stream w) = Some g → g_pel g !! id = Some name → name ∉ names.

(** The others change none of this. *)
Record same_view (w w' : World) : Prop := {
  sv_hist : wd_hist w' = wd_hist w;
  sv_group : x_group (wd_stream w') = x_group (wd_stream w);
  sv_top : sid_le (x_top (wd_stream w)) (x_top (wd_stream w'));
  sv_added : ∀ id, added w' id → added w id ∨ sid_lt (x_top (wd_stream w)) id;
  sv_grown : ∀ e, e ∈ wd_added w → e ∈ wd_added w';
  sv_evicted : ∀ id, evicted w id → evicted w' id;
}.

Lemma env_view w w' : env_step w w' → same_view w w'.
Proof.
  intros [now maxlen evict a Hs|sites Hq]; [|split; try done; by left]. pose proof (next_id_lt now (x_top (wd_stream w))) as Hn. split; try done.
  - by apply sid_lt_le.
  - intros id [Hid|Hid]%id_in_app; [by left|]. apply list_elem_of_singleton in Hid as ->. by right.
  - intros e He. apply elem_of_app. by left.
  - intros id Hid. apply elem_of_app. by left.
Qed.

Section stable.
Context (w w' : World) (V : same_view w w').

Lemma view_begun id : begun w' id ↔ begun w id.
Proof. unfold begun. by rewrite (sv_hist _ _ V). Qed.
Lemma view_processed id : processed w' id ↔ processed w id.
Proof. unfold processed. by rewrite (sv_hist _ _ V). Qed.
Lemma view_delivered id : delivered w' id ↔ delivered w id.
Proof. unfold delivered. by rewrite (sv_group _ _ V). Qed.
Lemma view_pending id : is_pending id (wd_stream w') ↔ is_pending id (wd_stream w).
Proof. unfold is_pending. by rewrite (sv_group _ _ V). Qed.

Lemma view_batch b es : world_ok w → batch b es w → batch b es w'.
Proof.
  intros K [H1 H2]. split.
  - intros e He. destruct (H1 e He). split; [by apply (sv_grown _ _ V)|by apply view_delivered].
  - intros Hl. destruct (H2 Hl) as [B1 B2 B3 B4]. split.
    + done.
    + intros e He. destruct (B2 e He) as [Hb|Hb]; [left; by apply view_begun|right]. intros c Hc%view_begun. by apply Hb.
    + intros e id He Ha Hlt. destruct (sv_added _ _ V id Ha) as [Ha'|Ha'].
      * destruct (B3 e id He Ha' Hlt) as [|[|]]; [left; by apply view_begun|right; left; by apply (sv_evicted _ _ V)|by right; right].
      * exfalso. destruct (H1 e He) as [Hin _]. apply id_in_elem, (ok_added w K) in Hin as [_ Hin].
        apply (sid_lt_irrefl id). eapply sid_lt_trans; [exact Hlt|]. by eapply sid_le_lt_trans.
    + intros id Hp%view_pending Hb. destruct (B4 id Hp Hb) as [|[|]]; [left; by apply view_begun|right; left; by apply (sv_evicted _ _ V)|by right; right].
Qed.
Lemma view_ackable ids : ackable ids w → ackable ids w'.
Proof. intros H id Hid. destruct (H id Hid). split; [by apply view_processed|by apply view_delivered]. Qed.
Lemma view_known o : known o w → known o w'.
Proof. intros H id Hid. by apply view_delivered, H. Qed.
Lemma view_floor f : floor_ok f w → floor_ok f w'.
Proof.
  intros [H1 H2]. split; [by etrans; [|apply (sv_top _ _ V)]|]. intros id Ha Hlt. destruct (sv_added _ _ V id Ha) as [Ha'|Ha'].
  - destruct (H2 id Ha' Hlt); [left; by apply view_processed|right; by apply (sv_evicted _ _ V)].
  - exfalso. apply (sid_lt_irrefl id). eapply sid_lt_le_trans; [exact Hlt|]. etrans; [exact H1|by apply sid_lt_le].
Qed.
Lemma view_none : none_pending w → none_pending w'.
Proof. intros H id Hp%view_pending. by apply (H id). Qed.
Lemma view_unused names : unused names w → unused names w'.
Proof. unfold unused. by rewrite (sv_group _ _ V). Qed.
End stable.

(** Knowledge that the others keep. *)
Definition stable (P : World → Prop) : Prop := ∀ w w', same_view w w' → world_ok w → P w → P w'.

Lemma stable_batch b es : stable (batch b es).
Proof. intros w w' V K. by apply view_batch. Qed.
Lemma stable_ackable ids : stable (ackable ids).
Proof. intros w w' V _. by apply view_ackable. Qed.
Lemma stable_known o : stable (known o).
Proof. intros w w' V _. by apply view_known. Qed.
Lemma stable_floor f : stable (floor_ok f).
Proof. intros w w' V _. by apply view_floor. Qed.
Lemma stable_none : stable none_pending.
Proof. intros w w' V _. by apply view_none. Qed.
Lemma stable_unused names : stable (unused names).
Proof. intros w w' V _. by apply view_unused. Qed.
Lemma stable_true : stable (λ _, True).
Proof. done. Qed.
Lemma stable_and P Q : stable P → stable Q → stable (λ w, P w ∧ Q w).
Proof. intros HP HQ w w' V K [H1 H2]. split; [by eapply HP|by eapply HQ]. Qed.

Lemma others_keep P w w' : stable P → rtc env_step w w' → world_ok w → P w → world_ok w' ∧ P w'.
Proof.
  intros HP. induction 1 as [w|w w1 w' H1 _ IH]; [done|]. intros K H. apply IH; [by eapply env_ok|]. eapply HP; [|exact K|exact H]. by apply env_view.
Qed.

(** ** Triples

    [sat p P Q]: from a good world where [P] is known, every call of [p] leaves a
    good world, and [Q] is known of the result. *)

Variables (sv : Services) (cfg : Instance).
Hypothesis Hbatch : (0 < cf_BatchSize cfg)%nat.

Definition sat {A : Type} (p : prog scmd A) (P : World → Prop) (Q : A → World → Prop) : Prop :=
  ∀ l w, world_ok w → P w → wps sv shard lossy cfg (rtc env_step) p (λ a _ w, Q a w) (λ _ w, world_ok w) l w.

Lemma sat_ret {A : Type} (a : A) P Q : (∀ w, world_ok w → P w → Q a w) → sat (Ret a) P Q.
Proof. intros H l w K HP. split; [done|by apply H]. Qed.
Lemma sat_bind {A B : Type} (p : prog scmd A) (k : A → prog scmd B) P R Q :
  sat p P R → (∀ a, sat (k a) (R a) Q) → sat (prog_bind p k) P Q.
Proof. intros Hp Hk l w K HP. apply wp_bind. eapply wp_mono; [|by apply Hp]. intros a l' w' K' HR. by apply Hk. Qed.
Lemma sat_conseq {A : Type} (p : prog scmd A) (P P' : World → Prop) (Q Q' : A → World → Prop) :
  sat p P' Q' → (∀ w, world_ok w → P w → P' w) → (∀ a w, world_ok w → Q' a w → Q a w) → sat p P Q.
Proof. intros Hp HP HQ l w K H. eapply wp_mono; [|apply Hp; [done|by apply HP]]. intros a l' w' K' HR. by apply HQ. Qed.
Lemma sat_call {X : Type} (c : scmd X) P Q :
  stable P →
  (∀ w fate, world_ok w → P w →
     match exec_stream sv shard lossy cfg X fate c w with
     | (None, w') => world_ok w'
     | (Some x, w') => world_ok w' ∧ Q x w'
     end) →
  sat (call c) P Q.
Proof.
  intros HP H l w K Hw. apply wp_step; [done|]. intros w1 fate Hr. destruct (others_keep P w w1 HP Hr K Hw) as [K1 Hw1]. by apply H.
Qed.
Lemma sat_retry {A : Type} (fn : prog scmd (option A)) (P : World → Prop) Q :
  sat fn P (λ r w, match r with Some a => Q (Some a) w | None => P w end) → (∀ w, world_ok w → P w → Q None w) →
  sat (retry fn) P (λ x, Q x.1).
Proof.
  intros Hf HN l w K HP. apply wp_retry with (I := λ _ _ w, world_ok w ∧ P w); [|done]. intros k l1 w1 [K1 H1].
  eapply wp_mono; [|by apply Hf]. intros [a|] l2 w2 K2 H2; cbn [fst]; [done|]. split; [done|by apply HN].
Qed.

(** What was delivered or processed stays so. *)
Definition grows (w w' : World) : Prop :=
  (∀ id, delivered w id → delivered w' id) ∧ (∀ id, processed w id → processed w' id).

Lemma on_stream_grows f w :
  (∀ g, x_group (wd_stream w) = Some g → ∃ g', x_group (f (wd_stream w)) = Some g' ∧ sid_le (g_last g) (g_last g')) → grows w (on_stream f w).
Proof.
  intros H. split; [|done]. intros id (g & Hg & Hle). destruct (H g Hg) as (g' & Hg' & Hle'). exists g'. split; [done|]. by etrans.
Qed.
Lemma stream_call_grows {A : Type} (fate : Fate shard) (f : Stream (option Event) → A * Stream (option Event)) w :
  (∀ g, x_group (wd_stream w) = Some g → ∃ g', x_group (f (wd_stream w)).2 = Some g' ∧ sid_le (g_last g) (g_last g')) →
  grows w (stream_call shard fate f w).2.
Proof. intros H. unfold stream_call. destruct (f_call fate); [by apply on_stream_grows|done|by apply on_stream_grows]. Qed.

Lemma exec_grows X fate (c : scmd X) w : stream_wf (wd_stream w) → grows w (exec_stream sv shard lossy cfg X fate c w).2.
Proof.
  intros W. assert (∀ n, ∀ g, x_group (wd_stream w) = Some g → ∃ g',
    x_group (xreadgroup (cf_InstanceID cfg) (f_now fate) n (wd_stream w)).2 = Some g' ∧ sid_le (g_last g) (g_last g')) as Hread.
  { intros n g Hg. unfold xreadgroup. rewrite Hg. eexists. split; [done|]. cbn. by destruct (read_new_spec n g (wd_stream w) W) as (_ & _ & H & _). }
  destruct c; cbn [exec_stream answer_with snd]; try done; try (apply stream_call_grows; cbn [snd]; intros g Hg).
  - unfold xgroup_create. rewrite Hg. by eexists.
  - destruct (f_call fate), lossy; try done; cbn [answer_with snd]; apply stream_call_grows, Hread.
  - unfold xautoclaim. rewrite Hg. by eexists.
  - unfold xack, on_pel. rewrite Hg. by eexists.
  - by eexists.
  - by eexists.
  - cbn. by eexists.
  - by eexists.
  - unfold xdelconsumer. rewrite Hg. by eexists.
  - unfold run_event. destruct (match e.2 with Some _ => _ | None => _ end) as [[r l] sites]. split; [done|].
    intros id (p & Hp & E). exists p. split; [|done]. apply elem_of_app. by left.
Qed.

(** Facts about delivered and processed entries survive every program. *)
Lemma sat_frame {A : Type} (p : prog scmd A) P Q (R : World → Prop) :
  stable R → (∀ w w', grows w w' → R w → R w') → sat p P Q → sat p (λ w, P w ∧ R w) (λ a w, Q a w ∧ R w).
Proof.
  intros HR Hm Hp l w K [HP Hw]. specialize (Hp l w K HP). clear HP. revert l w K Hw Hp.
  induction p as [a|X c k IH]; intros l w K Hw [_ Hp]; (split; [done|]); [done|]. intros w1 fate Hr.
  destruct (others_keep R w w1 HR Hr K Hw) as [K1 Hw1]. specialize (Hp w1 fate Hr).
  pose proof (exec_grows X fate c w1 (ok_wf w1 K1)) as Hg. destruct (exec_stream _ _ _ _ _ _ _ _) as [[x|] w2]; [|done].
  cbn [snd] in Hg. apply IH; [exact (wp_crash _ _ _ _ _ _ _ _ Hp)|by eapply Hm|done].
Qed.
Lemma known_grows o w w' : grows w w' → known o w → known o w'.
Proof. intros [Hg _] H id Hid. by apply Hg, H. Qed.
Lemma ackable_grows ids w w' : grows w w' → ackable ids w → ackable ids w'.
Proof. intros [H1 H2] H id Hid. destruct (H id Hid). split; [by apply H2|by apply H1]. Qed.

(** ** Commands *)

Abbreviation exec' := (exec_stream sv shard lossy cfg).

(** A command that the server runs when it is not lost. *)
Lemma sat_stream {A X : Type} (c : scmd X) (f : Fate shard → Stream (option Event) → A * Stream (option Event)) (h : option A → X) P Q :
  stable P → (∀ fate w, exec' X fate c w = answer_with h (stream_call shard fate (f fate) w)) →
  (∀ w, world_ok w → P w → Q (h None) w) →
  (∀ w fate, world_ok w → P w → let w' := on_stream (λ s, (f fate s).2) w in
     world_ok w' ∧ Q (h (Some (f fate (wd_stream w)).1)) w' ∧ Q (h None) w') →
  sat (call c) P Q.
Proof.
  intros HP Hc H0 H. apply sat_call; [done|]. intros w fate K Hw. rewrite Hc. unfold answer_with, stream_call.
  destruct (H w fate K Hw) as (K' & H1 & H2). destruct (f_call fate); cbn [fst snd]; (split; [done|]); [done|by apply H0|done].
Qed.

Lemma batch_on_stream f b es w :
  (∀ id, is_pending id (f (wd_stream w)) → is_pending id (wd_stream w)) → (∀ id, delivered w id → delivered (on_stream f w) id) →
  batch b es w → batch b es (on_stream f w).
Proof.
  intros Hp Hd [H1 H2]. split; [intros e He; destruct (H1 e He); split; [done|by apply Hd]|].
  intros Hl. destruct (H2 Hl) as [B1 B2 B3 B4]. split; [exact B1|exact B2|exact B3|]. intros id Hid. by apply B4, Hp.
Qed.

(** Read-only calls. *)
Lemma sat_pure {X : Type} (c : scmd X) P :
  stable P → (∀ fate w, ∃ x, exec' X fate c w = (Some x, w)) → sat (call c) P (λ _, P).
Proof. intros HP Hc. apply sat_call; [done|]. intros w fate K Hw. by destruct (Hc fate w) as [x ->]. Qed.
Lemma sat_err P : stable P → sat (call s_err) P (λ _, P).
Proof. intros HP. apply sat_pure; [done|]. intros fate w. by eexists. Qed.
Lemma sat_now P : stable P → sat (call s_now) P (λ _, P).
Proof. intros HP. apply sat_pure; [done|]. intros fate w. by eexists. Qed.
Lemma sat_wait backoff P : stable P → sat (wait backoff) P (λ _, P).
Proof.
  intros HP. eapply sat_bind; [apply sat_pure; [done|]; intros fate w; by eexists|]. intros ok. by apply sat_ret.
Qed.

(** Commands that only take pending entries away, of those that are processed. *)
Lemma drop_pending_ok f w :
  world_ok w → let s := wd_stream w in
  stream_wf (f s) → x_top (f s) = x_top s → x_entries (f s) = x_entries s →
  (∀ id, is_pending id (f s) → is_pending id s) →
  (∀ id, is_pending id s → id_in id (x_entries s) → is_pending id (f s) ∨ processed w id ∨ evicted w id) →
  (∀ id, undelivered id s → id_in id (x_entries s) → undelivered id (f s)) →
  (∀ id, delivered w id → delivered (on_stream f w) id) → world_ok (on_stream f w).
Proof.
  intros K s Hwf Htop Hes Hp Hkeep Hund Hdel. apply on_stream_ok; try done.
  - intros e. fold s. by rewrite Hes.
  - intros id Hid. left. by apply Hp.
  - intros id [Hin [Hu|Hpe]].
    + left. split; cbn; fold s; [by rewrite Hes|]. left. by apply Hund.
    + destruct (Hkeep id Hpe Hin) as [?|?]; [left|by right]. split; cbn; fold s; [by rewrite Hes|by right].
Qed.

Lemma sat_create b : sat ensureGroup (batch b []) (λ _, batch b []).
Proof.
  apply (sat_stream _ (λ _ s, (tt, xgroup_create (0, 0) s)) id); [apply stable_batch|done|done|]. intros w fate K Hb. cbn [snd]. set (s := wd_stream w).
  assert (∀ id, delivered w id → delivered (on_stream (xgroup_create (0, 0)) w) id) as Hd.
  { intros i (g & Hg & Hle). exists g. split; [|done]. cbn. unfold xgroup_create. by rewrite Hg. }
  assert (∀ i, is_pending i (xgroup_create (0, 0) s) ↔ is_pending i s) as Hp.
  { intros i. unfold is_pending, xgroup_create. destruct (x_group s) as [g|] eqn:Hg; [by rewrite Hg|]. cbn. split; [|by intros (? & [=] & _)].
    intros (g & [= <-] & [x Hx]). cbn in Hx. by rewrite lookup_empty in Hx. }
  split; [|split; (apply batch_on_stream; [intros i; apply Hp|done|done])].
  apply (drop_pending_ok (xgroup_create (0, 0))); fold s; [done|by apply xgroup_create_wf, ok_wf|..|exact Hd].
  - unfold xgroup_create. by destruct (x_group s).
  - unfold xgroup_create. by destruct (x_group s).
  - intros i. apply Hp.
  - intros i Hi _. left. by apply Hp.
  - intros i Hu Hin. unfold undelivered, xgroup_create. destruct (x_group s) as [g|] eqn:Hg; [by rewrite Hg; intros ? [= <-]; apply Hu|].
    cbn. intros ? [= <-]. by apply (wf_range s (ok_wf w K)).
Qed.
Lemma sat_recreate backoff b : sat (recreate backoff) (batch b []) (λ _, batch b []).
Proof.
  eapply sat_bind; [apply sat_create|]. intros [u|]; [by apply sat_ret|apply sat_wait, stable_batch].
Qed.

Lemma sat_ack ids b es : sat (call (s_ack ids)) (λ w, ackable ids w ∧ batch b es w) (λ _ w, ackable ids w ∧ batch b es w).
Proof.
  apply (sat_stream _ (λ _ s, (tt, xack ids s)) id); [apply stable_and; [apply stable_ackable|apply stable_batch]|done|done|].
  intros w fate K [Ha Hb]. cbn [snd]. set (s := wd_stream w).
  assert (grows w (on_stream (xack ids) w)) as Hg.
  { apply on_stream_grows. intros g Hg. unfold xack, on_pel. fold s in Hg |- *. rewrite Hg. by eexists. }
  assert (ackable ids (on_stream (xack ids) w) ∧ batch b es (on_stream (xack ids) w)) as HQ.
  { split; [by eapply ackable_grows|]. apply batch_on_stream; [intros i [Hi _]%xack_pending; done|apply Hg|done]. }
  split; [|split; exact HQ]. apply drop_pending_ok; fold s; [done|by apply xack_wf, ok_wf|..|apply Hg].
  - unfold xack, on_pel. by destruct (x_group s).
  - unfold xack, on_pel. by destruct (x_group s).
  - by intros i [Hi _]%xack_pending.
  - intros i Hi _. destruct (decide (i ∈ ids)) as [Hin|Hin]; [right; left; by apply Ha|left; by apply xack_pending].
  - intros i Hu _. unfold undelivered, xack, on_pel. destruct (x_group s) as [g|] eqn:E; [|by rewrite E]. cbn. intros ? [= <-]. exact (Hu g E).
Qed.

(** New entries come after everything that was delivered. *)
Lemma read_batch w g es n now :
  world_ok w → x_group (wd_stream w) = Some g → es = read_new n g (wd_stream w) → batch None [] w →
  batch None es (on_stream (λ s, (xreadgroup (cf_InstanceID cfg) now n s).2) w).
Proof.
  intros K Hg Ees [_ HB]. set (s := wd_stream w) in *. pose proof (read_new_spec n g s (ok_wf w K)) as (Hs & Hin & Hle & Hid & Hall).
  rewrite <- Ees in *. set (top := from_option fst (g_last g) (last es)) in *. set (w' := on_stream _ w).
  assert (x_group (wd_stream w') = Some {| g_last := top; g_pel := delivered_to (cf_InstanceID cfg) es (g_pel g);
    g_seen := <[cf_InstanceID cfg := now]> (g_seen g) |}) as Hg'.
  { subst w'. cbn. fold s. unfold xreadgroup. rewrite Hg. cbn. by rewrite <- Ees. }
  split.
  - intros e He. split; [by apply (ok_entries w K), Hin|]. eexists. split; [exact Hg'|]. cbn. by apply Hid, id_in_elem.
  - intros Hl. destruct (ok_order w K Hl) as [O1 O2 _ _]. destruct (HB Hl) as [_ _ _ B4].
    assert (∀ id, is_pending id s → begun w id ∨ evicted w id) as Hpend.
    { intros id Hp. destruct (B4 id Hp I) as [|[|H]]; [by left|by right|by apply not_elem_of_nil in H]. }
    split; [exact Hs|..].
    + intros e He. right. intros c Hc. destruct (O2 c Hc) as (g1 & Hg1 & Hc1). fold s in Hg1. rewrite Hg in Hg1. injection Hg1 as <-.
      eapply sid_le_lt_trans; [exact Hc1|]. by apply Hin.
    + intros e id He Ha Hlt. destruct (ok_kept w K id Ha) as [[H1 [H2|H2]]|[H|H]].
      * right; right. apply Hall; [done|by apply (H2 g)|]. etrans; [by apply sid_lt_le|]. by apply Hid, id_in_elem.
      * destruct (Hpend id H2); [by left|by right; left].
      * left. by apply processed_begun.
      * by right; left.
    + intros id (g1 & Hg1 & Hp) _. rewrite Hg' in Hg1. injection Hg1 as <-. cbn in Hp. apply delivered_to_some in Hp as [Hp|Hp]; [by right; right|].
      destruct (Hpend id) as [|]; [by exists g|by left|by right; left].
Qed.

Lemma read_ok w now n : world_ok w → world_ok (on_stream (λ s, (xreadgroup (cf_InstanceID cfg) now n s).2) w).
Proof.
  intros K. set (s := wd_stream w). destruct (x_group s) as [g|] eqn:Hg.
  2:{ assert ((xreadgroup (cf_InstanceID cfg) now n s).2 = s) as E by (unfold xreadgroup; by rewrite Hg).
      apply on_stream_ok; fold s; rewrite ?E; try done; [by apply (ok_wf w K)|by left|..].
      - intros id H. left. unfold waiting in *. cbn. fold s. by rewrite E.
      - intros id H. unfold delivered in *. cbn. fold s. by rewrite E. }
  pose proof (read_new_spec n g s (ok_wf w K)) as (_ & Hin & Hle & Hid & Hall).
  assert ((xreadgroup (cf_InstanceID cfg) now n s).2 = with_group {| g_last := from_option fst (g_last g) (last (read_new n g s));
    g_pel := delivered_to (cf_InstanceID cfg) (read_new n g s) (g_pel g); g_seen := <[cf_InstanceID cfg := now]> (g_seen g) |} s) as E.
  { unfold xreadgroup. by rewrite Hg. }
  apply on_stream_ok; fold s; [done|by apply xreadgroup_wf, ok_wf|by rewrite E|by rewrite E|..].
  - intros id (g1 & Hg1 & Hp). rewrite E in Hg1. injection Hg1 as <-. cbn in Hp. apply delivered_to_some in Hp as [Hp|Hp]; [right|left; by exists g].
    apply list_elem_of_fmap in Hp as (e & -> & He). apply id_in_elem. by apply Hin.
  - intros id [Hes Hw]. left. split; [cbn; fold s; by rewrite E|]. unfold undelivered, is_pending. cbn. fold s. rewrite E. cbn.
    destruct Hw as [Hu|(g1 & Hg1 & Hp)].
    + destruct (decide (sid_lt (from_option fst (g_last g) (last (read_new n g s))) id)) as [H|H]; [left; by intros ? [= <-]|right].
      eexists. split; [done|]. cbn. apply delivered_to_some. left. apply Hall; [done|by apply (Hu g)|]. by apply sid_le_not_lt.
    + right. eexists. split; [done|]. cbn. apply delivered_to_some. right. fold s in Hg1. congruence.
  - intros id (g1 & Hg1 & Hle1). fold s in Hg1. rewrite Hg in Hg1. injection Hg1 as <-. eexists. split; [cbn; fold s; by rewrite E|]. cbn. by etrans.
Qed.

Lemma sat_read : sat (call (s_read (cf_BatchSize cfg))) (batch None [])
  (λ r w, match r with Answer es => batch None es w | _ => batch None [] w end).
Proof.
  apply sat_call; [apply stable_batch|]. intros w fate K HB. cbn [exec_stream]. set (n := cf_BatchSize cfg). set (s := wd_stream w).
  pose proof (read_ok w (f_now fate) n K) as K'.
  destruct (f_call fate) eqn:Ef; [|by cbn; unfold stream_call; rewrite Ef|].
  - cbn -[xreadgroup]. unfold stream_call. rewrite Ef. cbn -[xreadgroup on_stream]. split; [exact K'|]. fold s.
    destruct (x_group s) as [g|] eqn:Hg.
    + assert ((xreadgroup (cf_InstanceID cfg) (f_now fate) n s).1 = Some (read_new n g s)) as -> by (unfold xreadgroup; by rewrite Hg).
      by eapply read_batch.
    + assert (xreadgroup (cf_InstanceID cfg) (f_now fate) n s = (None, s)) as E by (unfold xreadgroup; by rewrite Hg).
      rewrite E. cbn [fst reply_of]. apply batch_on_stream; [fold s; by rewrite E| |done]. intros id. unfold delivered. cbn. fold s. by rewrite E.
  - case_eq lossy; intros Hl; [|done]. unfold stream_call. rewrite Ef. cbn -[xreadgroup on_stream]. split; [exact K'|].
    split; [intros e He; by apply not_elem_of_nil in He|]. by rewrite Hl.
Qed.

(** Pending entries are taken over in their order. *)
Definition bound_of (next : sid) : option sid := if decide (next = claimStart) then None else Some next.
Lemma below_bound next id : below (bound_of next) id → next = (0, 0) ∨ sid_lt id next.
Proof. unfold bound_of, claimStart. case_decide; cbn; [by left|by right]. Qed.

Lemma claim_batch w g g' cursor next es :
  world_ok w → let s := wd_stream w in let w' := on_stream (with_group g') w in
  x_group s = Some g → g_last g' = g_last g → StronglySorted before es →
  (∀ e, e ∈ es → e ∈ x_entries s ∧ is_Some (g_pel g !! e.1) ∧ sid_le cursor e.1) →
  (∀ id, is_Some (g_pel g' !! id) → is_Some (g_pel g !! id)) →
  (∀ id, is_Some (g_pel g !! id) → id_in id (x_entries s) → sid_le cursor id → next = (0, 0) ∨ sid_lt id next → id_in id es) →
  (∀ e, e ∈ es → next = (0, 0) ∨ sid_lt e.1 next) →
  batch (Some cursor) [] w → batch (bound_of next) es w'.
Proof.
  intros K s w' Hg Hlast Hsort Hes Hsub Hall Hnext [_ HB]. pose proof (ok_wf w K) as W. fold s in W.
  assert (∀ e, e ∈ es → delivered w e.1) as Hdel.
  { intros e He. exists g. split; [done|]. by apply (wf_pel s W g _ Hg), Hes. }
  split.
  - intros e He. split; [by apply (ok_entries w K), Hes|]. destruct (Hdel e He) as (g1 & Hg1 & Hle). fold s in Hg1. rewrite Hg in Hg1.
    injection Hg1 as <-. exists g'. split; [done|]. by rewrite Hlast.
  - intros Hl. destruct (ok_order w K Hl) as [O1 O2 _ _]. destruct (HB Hl) as [_ _ _ B4].
    assert (∀ id, is_Some (g_pel g !! id) → next = (0, 0) ∨ sid_lt id next → begun w id ∨ evicted w id ∨ id_in id es) as Hpend.
    { intros id Hp Hn. destruct (decide (sid_lt id cursor)) as [Hlt|Hge].
      - destruct (B4 id) as [|[|H]]; [by exists g|done|by left|by right; left|by apply not_elem_of_nil in H].
      - destruct (ok_kept w K id) as [[Hin _]|[H|H]]; [apply (ok_pending w K); by exists g|..|by right; left].
        + right; right. apply Hall; [done|done| |done]. by apply sid_le_not_lt.
        + left. by apply processed_begun. }
    split; [exact Hsort|..].
    + intros e He. destruct (decide (Exists (λ p, (pr_entry p).1 = e.1) (wd_hist w))) as [Hx|Hx].
      { left. apply Exists_exists in Hx as (p & Hp & E). by exists p. }
      right. intros c Hc. destruct (decide (sid_lt c e.1)) as [|Hn]; [done|]. exfalso.
      assert (begun w e.1 ∨ evicted w e.1) as [Hb|Hev].
      { apply sid_le_not_lt, sid_le_lt_eq in Hn as [Hn|Hn]; [|left; by rewrite Hn]. apply (O1 c e.1 Hc); [|done]. by apply id_in_elem, (ok_entries w K), Hes. }
      * apply Hx, Exists_exists. destruct Hb as (p & Hp & E). by exists p.
      * destruct (ok_evicted w K e.1 Hev) as [_ Hev']. apply (sid_lt_irrefl e.1), Hev', Hes, He.
    + intros e id He Ha Hlt. destruct (ok_kept w K id Ha) as [[Hin [Hu|Hp]]|[H|H]].
      * exfalso. destruct (Hdel e He) as (g1 & Hg1 & Hle). specialize (Hu g1 Hg1). apply (sid_lt_irrefl id). eapply sid_lt_le_trans; [exact Hlt|].
        etrans; [exact Hle|by apply sid_lt_le].
      * destruct Hp as (g1 & Hg1 & Hp). fold s in Hg1. rewrite Hg in Hg1. injection Hg1 as <-. apply Hpend; [done|].
        destruct (Hnext e He) as [|Hn]; [by left|right]. by eapply sid_lt_trans.
      * left. by apply processed_begun.
      * by right; left.
    + intros id (g1 & Hg1 & Hp) Hb. cbn in Hg1. injection Hg1 as <-. apply Hpend; [by apply Hsub|by apply below_bound].
Qed.

Lemma sat_claim cursor : sat (call (s_claim cursor (cf_BatchSize cfg))) (batch (Some cursor) [])
  (λ r w, match r with Answer (next, es) => batch (bound_of next) es w | _ => batch (Some cursor) [] w end).
Proof.
  apply (sat_stream _ (λ fate, xautoclaim (cf_InstanceID cfg) (f_now fate) cursor (cf_BatchSize cfg)) reply_of); [apply stable_batch|done|done|].
  intros w fate K HB. set (n := cf_BatchSize cfg). set (s := wd_stream w). destruct (x_group s) as [g|] eqn:Hg.
  - destruct (xautoclaim_spec (cf_InstanceID cfg) (f_now fate) cursor n s g (ok_wf w K) Hg Hbatch)
      as (next & es & g' & E & Hwf & Hlast & Hsort & Hes & Hsub & Hkeep & Hall & _ & Hnext).
    cbn zeta. assert (on_stream (λ s, (xautoclaim (cf_InstanceID cfg) (f_now fate) cursor n s).2) w = on_stream (with_group g') w) as ->.
    { unfold on_stream. f_equal. fold s. by rewrite E. }
    fold s. rewrite E. cbn [fst reply_of].
    assert (∀ id, delivered w id → delivered (on_stream (with_group g') w) id) as Hd.
    { intros id (g1 & Hg1 & Hle). fold s in Hg1. rewrite Hg in Hg1. injection Hg1 as <-. exists g'. split; [done|]. by rewrite Hlast. }
    assert (∀ id, is_pending id (with_group g' s) → is_pending id s) as Hp.
    { intros id (g1 & Hg1 & Hp). injection Hg1 as <-. exists g. split; [done|by apply Hsub]. }
    split_and!; [|by eapply claim_batch|by apply batch_on_stream].
    apply drop_pending_ok; try done.
    + intros id (g1 & Hg1 & Hpe) Hin. fold s in Hg1. rewrite Hg in Hg1. injection Hg1 as <-. left. exists g'. split; [done|by apply Hkeep].
    + intros id Hu _ g1 Hg1. injection Hg1 as <-. rewrite Hlast. by apply Hu.
  - assert (xautoclaim (cf_InstanceID cfg) (f_now fate) cursor n s = (None, s)) as E by (unfold xautoclaim; by rewrite Hg).
    cbn zeta. fold s. rewrite E. cbn [fst reply_of].
    assert (on_stream (λ s, (xautoclaim (cf_InstanceID cfg) (f_now fate) cursor n s).2) w = w) as ->; [|done].
    unfold on_stream. fold s. rewrite E. cbn [snd]. subst s. by destruct w.
Qed.

(** ** Processing an entry *)

Definition record_processing (p : Processing) (sites : Sites) (w : World) : World :=
  {| wd_stream := wd_stream w; wd_sites := sites; wd_hist := wd_hist w ++ [p]; wd_added := wd_added w; wd_evicted := wd_evicted w |}.

Lemma begun_more p sites w id : begun (record_processing p sites w) id ↔ begun w id ∨ id = (pr_entry p).1.
Proof.
  unfold begun. cbn. split.
  - intros (q & [Hq|Hq]%elem_of_app & E); [left; by exists q|right]. by apply list_elem_of_singleton in Hq as ->.
  - intros [(q & Hq & E)| ->]; [exists q|exists p]; (split; [apply elem_of_app|done]); [by left|right; apply list_elem_of_here].
Qed.
Lemma processed_more p sites w id : processed w id → processed (record_processing p sites w) id.
Proof. intros (q & Hq & E). exists q. split; [apply elem_of_app; by left|done]. Qed.

Lemma firsts_settled_more hist p :
  firsts_settled hist → ((∀ q, q ∈ hist → (pr_entry q).1 ≠ (pr_entry p).1) → settled p) → firsts_settled (hist ++ [p]).
Proof.
  intros Hh Hp h1 q h2 E Hq. destruct h2 as [|x h2 _] using rev_ind.
  - apply app_inj_tail in E as [-> ->]. by apply Hp.
  - rewrite app_comm_cons, app_assoc in E. apply app_inj_tail in E as [-> _]. by eapply Hh.
Qed.

Lemma event_ok w b e es ids p sites :
  world_ok w → batch b (e :: es) w → ackable ids w → pr_entry p = e →
  (∀ k c, ckpt sites k shard = Some c → c = e.1 ∨ ckpt (wd_sites w) k shard = Some c) →
  ((∀ k c, ckpt (wd_sites w) k shard = Some c → stream_id c ∧ sid_lt c e.1) → settled p) →
  let w' := record_processing p sites w in
  world_ok w' ∧ (pr_done p = true → batch b es w' ∧ ackable (ids ++ [e.1]) w').
Proof.
  intros K [HB1 HB2] Hack He Hmark Hset w'. destruct (HB1 e (list_elem_of_here _ _)) as [Hadd Hdel].
  assert (∀ id, begun w' id ↔ begun w id ∨ id = e.1) as Hb by (intros id; unfold w'; by rewrite begun_more, He).
  assert (∀ id, processed w id → processed w' id) as Hp by (intros id; apply processed_more).
  split.
  - pose proof K as [? ? ? Kb ? ? Kk Ko]. split; try done.
    + intros id [Hid| ->]%Hb; [by apply Kb|by apply id_in_elem].
    + intros id Hid. destruct (Kk id Hid) as [|[|]]; [by left|right; left; by apply Hp|by right; right].
    + intros Hl. destruct (Ko Hl) as [O1 O2 O3 O4]. destruct (HB2 Hl) as [B1 B2 B3 B4]. apply StronglySorted_inv in B1 as [_ B1].
      assert (∀ id, added w id → sid_lt id e.1 → begun w id ∨ evicted w id) as Holder.
      { intros id Ha Hlt. destruct (B3 e id (list_elem_of_here _ _) Ha Hlt) as [|[|Hin]]; [by left|by right|]. exfalso.
        apply list_elem_of_fmap in Hin as (x & -> & Hx). apply elem_of_cons in Hx as [->|Hx]; [by apply sid_lt_irrefl in Hlt|].
        rewrite Forall_forall in B1. apply (sid_lt_irrefl e.1). eapply sid_lt_trans; [by apply B1|done]. }
      split.
      * intros id id' [Hid| ->]%Hb Ha Hlt.
        -- destruct (O1 id id' Hid Ha Hlt); [left; apply Hb; by left|by right].
        -- destruct (Holder id' Ha Hlt); [left; apply Hb; by left|by right].
      * intros id [Hid| ->]%Hb; [by apply O2|done].
      * intros k c Hc. apply Hb. destruct (Hmark k c Hc) as [->|Hc']; [by right|left; by eapply O3].
      * apply firsts_settled_more; [done|]. rewrite He. intros Hfresh. apply Hset. intros k c Hc. apply O3 in Hc.
        split; [by apply (ok_added w K), (ok_begun w K)|]. destruct (B2 e (list_elem_of_here _ _)) as [(q & Hq & E)|Hlt]; [by apply Hfresh in Hq|by apply Hlt].
  - intros Hdone. split; [split|].
    + intros x Hx. apply HB1. by apply elem_of_cons; right.
    + intros Hl. destruct (HB2 Hl) as [B1 B2 B3 B4]. apply StronglySorted_inv in B1 as [B1' B1]. rewrite Forall_forall in B1.
      assert (∀ id, begun w id ∨ evicted w id ∨ id_in id (e :: es) → begun w' id ∨ evicted w id ∨ id_in id es) as Hnext.
      { intros id [H|[H|H]]; [left; apply Hb; by left|by right; left|]. apply elem_of_cons in H as [->|H]; [left; apply Hb; by right|by right; right]. }
      split; [exact B1'|..].
      * intros x Hx. destruct (B2 x) as [Hx'|Hx']; [by apply elem_of_cons; right|left; apply Hb; by left|right].
        intros c [Hc| ->]%Hb; [by apply Hx'|by apply B1].
      * intros x id Hx Ha Hlt. apply Hnext. eapply B3; [by apply elem_of_cons; right|done|done].
      * intros id Hpe Hbe. apply Hnext. by apply B4.
    + intros id [Hid|Hid]%elem_of_app.
      * destruct (Hack id Hid). split; [by apply Hp|done].
      * apply list_elem_of_singleton in Hid as ->. split; [|done]. exists p. split; [apply elem_of_app; right; apply list_elem_of_here|by rewrite He].
Qed.

Lemma sat_event b e es ids :
  sat (call (s_event e)) (λ w, batch b (e :: es) w ∧ ackable ids w) (λ _ w, batch b es w ∧ ackable (ids ++ [e.1]) w).
Proof.
  apply sat_call; [apply stable_and; [apply stable_batch|apply stable_ackable]|]. intros w fate K [HB Ha]. cbn [exec_stream]. unfold run_event.
  set (d := f_delivery fate). destruct HB as [HB1 HB2]. destruct (HB1 e (list_elem_of_here _ _)) as [Hadd _].
  assert (stream_id e.1) as Hid by (by apply (ok_added w K), id_in_elem).
  destruct (match e.2 with Some _ => _ | None => _ end) as [[r l] sites] eqn:E.
  set (p := {| pr_entry := e; pr_worker := dl_worker d; pr_log := l; pr_done := bool_decide (is_Some r) |}).
  destruct (event_ok w b e es ids p sites K (conj HB1 HB2) Ha eq_refl) as [K' HQ].
  - destruct (e.2) as [ev|]; [|injection E as <- <- <-; by right].
    pose proof (event_marks sv shard e.1 (wd_sites w) Hid d ev (wd_sites w) (f_quiet fate) eq_refl) as H. rewrite E in H. apply H.
  - intros Hahead. destruct (e.2) as [ev|] eqn:Eev.
    + pose proof (event_marks sv shard e.1 (wd_sites w) Hid d ev (wd_sites w) (f_quiet fate) eq_refl) as H. rewrite E in H.
      destruct H as [Hu _]. specialize (Hu Hahead). split; [exact Hu|]. cbn. rewrite Eev. intros ev' site [= <-] Hsite Hns Hrec Hdone.
      apply bool_decide_eq_true in Hdone as [u ->].
      destruct (processEvent_accounted sv (dl_worker d) shard e.1 (dl_now d) ev site _ _ _ _ _ _ _ Hrec Hsite Hns E) as [H|[_ [H|H]]]; [by left| |by right].
      exfalso. apply Hu. by rewrite H.
    + injection E as <- <- <-. split; [done|]. cbn. by rewrite Eev.
  - destruct r as [u|]; [|exact K']. split; [exact K'|]. by apply HQ.
Qed.

(** ** Trimming and stale consumers *)

(** A command that leaves the stream alone. *)
Lemma sat_query {A X : Type} (c : scmd X) (f : Fate shard → Stream (option Event) → A) (h : option A → X) P (Q : X → World → Prop) :
  stable P → (∀ fate w, exec' X fate c w = answer_with h (stream_call shard fate (λ s, (f fate s, s)) w)) →
  (∀ w, world_ok w → P w → Q (h None) w) → (∀ w fate, world_ok w → P w → Q (h (Some (f fate (wd_stream w)))) w) → sat (call c) P (λ x w, P w ∧ Q x w).
Proof.
  intros HP Hc H0 H1. apply (sat_stream _ (λ fate s, (f fate s, s)) h); [done|done|auto|]. intros w fate K Hw. cbn [fst snd].
  assert (on_stream (λ s, s) w = w) as -> by (by destruct w). auto.
Qed.

Lemma xpending_spec (s : Stream (option Event)) :
  (∀ f, xpending s = Some f → is_pending f s ∧ ∀ id, is_pending id s → sid_le f id) ∧ (xpending s = None → ∀ id, ¬ is_pending id s).
Proof.
  unfold xpending, is_pending. destruct (x_group s) as [g|]; cbn; [|by split; [|intros _ id (? & ? & _)]].
  pose proof (pel_ids_sorted (g_pel g)) as Hs. pose proof (pel_ids_in (g_pel g)) as Hin. destruct (pel_ids (g_pel g)) as [|x l]; cbn; split.
  - done.
  - intros _ id (? & [= <-] & Hp). apply Hin, not_elem_of_nil in Hp. done.
  - intros f [= <-]. split; [exists g; split; [done|apply Hin, list_elem_of_here]|]. intros id (? & [= <-] & Hp).
    apply Hin, elem_of_cons in Hp as [->|Hp]; [done|]. apply StronglySorted_inv in Hs as [_ Hs]. rewrite Forall_forall in Hs. by apply sid_lt_le, Hs.
  - done.
Qed.

(** What is older than every pending entry has been processed. *)
Lemma delivered_floor w f :
  world_ok w → delivered w f → (∀ id, is_pending id (wd_stream w) → sid_le f id) → floor_ok f w.
Proof.
  intros K (g & Hg & Hle) Hp. split; [etrans; [exact Hle|]; by apply (wf_last _ (ok_wf w K))|].
  intros id Ha Hlt. destruct (ok_kept w K id Ha) as [[_ [Hu|Hpe]]|H]; [| |exact H]; exfalso; apply (sid_lt_irrefl id).
  - eapply sid_lt_trans; [exact Hlt|]. eapply sid_le_lt_trans; [exact Hle|by apply Hu].
  - eapply sid_lt_le_trans; [exact Hlt|by apply Hp].
Qed.

Lemma sat_trimFloor lastAcked :
  sat (trimFloor lastAcked) (λ w, batch None [] w ∧ known lastAcked w)
    (λ r w, batch None [] w ∧ match r with Some (Some f) => floor_ok f w | _ => True end).
Proof.
  assert (stable (λ w, batch None [] w ∧ known lastAcked w)) as HP by (apply stable_and; [apply stable_batch|apply stable_known]).
  eapply sat_bind; [apply (sat_query _ (λ _ s, match x_group s with None => None | Some _ => Some (xpending s) end) (λ r, r ≫= id) _
    (λ r w, match r with Some (Some f) => floor_ok f w | Some None => none_pending w | None => True end)); [exact HP|done|done|]|].
  - intros w fate K _. cbn. destruct (x_group (wd_stream w)) as [g|] eqn:Hg; cbn; [|done]. destruct (xpending_spec (wd_stream w)) as [H1 H2].
    destruct (xpending (wd_stream w)) as [f|]; [|exact (H2 eq_refl)]. destruct (H1 f eq_refl) as [Hf Hmin]. apply delivered_floor; [done| |done].
    destruct Hf as (g1 & Hg1 & Hf). exists g1. split; [done|]. by apply (wf_pel _ (ok_wf w K)).
  - intros [[f|]|]; [by apply sat_ret; intros w K [[H1 H2] H3]| |by apply sat_ret; intros w K [[H1 H2] H3]].
    destruct lastAcked as [id|].
    + apply sat_ret. intros w K [[HB Hk] Hn]. split; [done|]. apply delivered_floor; [done|by apply Hk|]. intros i Hi. by apply Hn in Hi.
    + eapply sat_conseq; [apply (sat_query s_last (λ _ s, g_last <$> x_group s) id (λ w, batch None [] w ∧ none_pending w)
        (λ r w, match r with Some (Some f) => floor_ok f w | _ => True end)); [apply stable_and; [apply stable_batch|apply stable_none]|done|done|]|..].
      * intros w fate K [_ Hn]. cbn. destruct (x_group (wd_stream w)) as [g|] eqn:Hg; cbn; [|done].
        apply delivered_floor; [done|by exists g|]. intros i Hi. by apply Hn in Hi.
      * by intros w K [[H1 H2] H3].
      * by intros r w K [[H1 H2] H3].
Qed.

Lemma sat_trim f : sat (call (s_trim f)) (λ w, batch None [] w ∧ floor_ok f w) (λ _, batch None []).
Proof.
  apply (sat_stream _ (λ fate s, (tt, xtrim f (f_trim fate) s)) id); [apply stable_and; [apply stable_batch|apply stable_floor]|done|by intros w K [H1 H2]|].
  intros w fate K [HB [_ Hf]]. cbn [snd]. set (w' := on_stream _ w). assert (batch None [] w') as HB' by (by apply batch_on_stream).
  split; [|by split]. apply on_stream_ok; [done|by apply xtrim_wf, ok_wf|done|by intros e He%elem_drop|by left| |done].
  intros id [Hin Hw]. destruct (xtrim_keeps f (f_trim fate) (wd_stream w) id (ok_wf w K) Hin) as [H|H]; [by left|right].
  apply Hf; [|done]. apply list_elem_of_fmap in Hin as (e & -> & He). by apply id_in_elem, (ok_entries w K).
Qed.

Lemma sat_trimProcessed lastAcked : sat (trimProcessed lastAcked) (λ w, batch None [] w ∧ known lastAcked w) (λ _, batch None []).
Proof.
  eapply sat_bind; [apply sat_trimFloor|]. intros [[f|]|]; [|by apply sat_ret; intros w K [H1 H2]..].
  case_decide; [by apply sat_ret; intros w K [H1 H2]|]. eapply sat_bind; [apply sat_trim|]. intros ?. by apply sat_ret.
Qed.

Lemma sat_del name names :
  name ∈ names → sat (call (s_del name)) (λ w, batch None [] w ∧ unused names w) (λ _ w, batch None [] w ∧ unused names w).
Proof.
  intros Hname. apply (sat_stream _ (λ _ s, (tt, xdelconsumer name s)) id); [apply stable_and; [apply stable_batch|apply stable_unused]|done|done|].
  intros w fate K [HB Hu]. cbn [snd]. set (s := wd_stream w) in *. set (w' := on_stream _ w).
  assert (∀ i, is_pending i (xdelconsumer name s) ↔ is_pending i s) as Hp.
  { intros i. unfold is_pending, xdelconsumer. destruct (x_group s) as [g|] eqn:Hg; [|by rewrite Hg]. cbn. split.
    - intros (g1 & [= <-] & Hx). exists g. split; [done|]. by eapply filter_some.
    - intros (g1 & [= <-] & [x Hx]). eexists. split; [done|]. exists x. cbn. apply map_lookup_filter_Some. split; [done|].
      cbn. intros ->. by apply (Hu g i name Hg Hx). }
  assert (∀ i, delivered w i → delivered w' i) as Hd.
  { intros i (g & Hg & Hle). fold s in Hg. eexists. split; [cbn; fold s; unfold xdelconsumer; by rewrite Hg|done]. }
  assert (batch None [] w' ∧ unused names w') as HQ.
  { split; [apply batch_on_stream; [intros i; apply Hp|done|done]|]. intros g i nm Hg Hx. cbn in Hg. fold s in Hg. unfold xdelconsumer in Hg.
    destruct (x_group s) as [g0|] eqn:Hg0; [|by eapply Hu; [rewrite Hg0 in Hg|]]. cbn in Hg. injection Hg as <-. cbn in Hx.
    apply map_lookup_filter_Some in Hx as [Hx _]. by eapply Hu. }
  split; [|by split]. apply drop_pending_ok; fold s; [done|by apply xdelconsumer_wf, ok_wf|..|exact Hd].
  - unfold xdelconsumer. by destruct (x_group s).
  - unfold xdelconsumer. by destruct (x_group s).
  - intros i. apply Hp.
  - intros i Hi _. left. by apply Hp.
  - intros i Hun _. unfold undelivered, xdelconsumer. destruct (x_group s) as [g|] eqn:E; [|by rewrite E]. cbn. intros ? [= <-]. exact (Hun g E).
Qed.

Lemma xconsumers_unused (s : Stream (option Event)) now c g id name :
  c ∈ xconsumers now s → c.1.2 = 0%nat → x_group s = Some g → g_pel g !! id = Some name → name ≠ c.1.1.
Proof.
  unfold xconsumers. intros Hc H0 Hg Hp ->. rewrite Hg in Hc. apply list_elem_of_fmap in Hc as ([nm seen] & -> & _). cbn in *.
  apply length_zero_iff_nil in H0. apply (filter_nil_not_elem_of (λ p : sid * string, p.2 = nm) _ (id, nm) H0); [done|by apply elem_of_map_to_list].
Qed.

Lemma sat_remove_all cs names :
  (∀ c, c ∈ cs → stale cfg c = true → c.1.1 ∈ names) →
  sat (remove_all cfg cs) (λ w, batch None [] w ∧ unused names w) (λ _ w, batch None [] w ∧ unused names w).
Proof.
  induction cs as [|c cs IH]; intros Hn; [by apply sat_ret|]. cbn [remove_all]. eapply sat_bind with (R := λ _ w, batch None [] w ∧ unused names w).
  - destruct (stale cfg c) eqn:E; [|by apply sat_ret]. eapply sat_bind; [apply sat_del, Hn; [apply list_elem_of_here|done]|]. intros ?. by apply sat_ret.
  - intros ?. apply IH. intros c' Hc'. apply Hn. by apply elem_of_cons; right.
Qed.
Lemma sat_removeStaleConsumers : sat (removeStaleConsumers cfg) (batch None []) (λ _, batch None []).
Proof.
  eapply sat_bind; [apply (sat_query _ (λ fate s, xconsumers (f_now fate) s) id _
    (λ r w, match r with Some cs => unused ((λ c, c.1.1) <$> filter (λ c, stale cfg c = true) cs) w | None => True end)); [apply stable_batch|done|done|]|].
  - intros w fate K _. cbn. intros g i name Hg Hp (c & -> & [Hst Hc]%list_elem_of_filter)%list_elem_of_fmap.
    eapply xconsumers_unused; [exact Hc| |exact Hg|exact Hp|done]. unfold stale in Hst.
    destruct (Nat.ltb_spec 0 c.1.2); [by rewrite orb_true_r in Hst|lia].
  - intros [cs|]; [|by apply sat_ret; intros w K [H1 H2]]. eapply sat_conseq;
      [apply (sat_remove_all cs ((λ c, c.1.1) <$> filter (λ c, stale cfg c = true) cs))|by intros w K H|by intros a w K [H1 H2]].
    intros c Hc Hs. apply list_elem_of_fmap. exists c. split; [done|]. by apply list_elem_of_filter.
Qed.

Lemma sat_exists {A B : Type} (p : prog scmd A) (P : B → World → Prop) Q :
  (∀ x, sat p (P x) Q) → sat p (λ w, ∃ x, P x w) Q.
Proof. intros H l w K [x Hx]. by eapply H. Qed.

(** ** The program *)

Lemma sat_process_entries b es ids :
  sat (process_entries es ids) (λ w, batch b es w ∧ ackable ids w)
    (λ ids' w, ∃ es', ackable ids' w ∧ batch b es' w ∧ (length ids' = length ids + length es → es' = [])%nat).
Proof.
  revert ids. induction es as [|e es IH]; intros ids; cbn [process_entries].
  { apply sat_ret. intros w K [H1 H2]. by exists []. }
  assert (stable (λ w, batch b (e :: es) w ∧ ackable ids w)) as HP by (apply stable_and; [apply stable_batch|apply stable_ackable]).
  eapply sat_bind; [by apply sat_err|]. intros [|]; cbv beta match.
  - apply sat_ret. intros w K [H1 H2]. exists (e :: es). split_and!; [done|done|]. cbn. lia.
  - eapply sat_bind; [apply sat_event|]. intros ?. eapply sat_conseq; [apply IH|done|]. intros ids' w K (es' & H1 & H2 & H3). exists es'.
    split_and!; [done|done|]. intros E. apply H3. rewrite length_app. cbn [length] in *. lia.
Qed.

Lemma sat_processBatch b es :
  sat (processBatch es) (batch b es) (λ r w, (r.1.1 = true → batch b [] w) ∧ known r.2 w).
Proof.
  eapply sat_bind; [eapply sat_conseq; [apply (sat_process_entries b es [])| |]|].
  { intros w K H. split; [exact H|]. by intros id Hid%not_elem_of_nil. }
  { intros ids w K H. exact H. }
  intros ids. apply sat_exists. intros es'. set (complete := (length ids =? length es)%nat).
  assert (∀ w, ackable ids w ∧ batch b es' w ∧ (length ids = length (@nil sid) + length es → es' = [])%nat → complete = true → batch b [] w) as Hc.
  { intros w (_ & H1 & H2) E. apply Nat.eqb_eq in E. by rewrite <- (H2 E). }
  destruct (last ids) as [lastID|] eqn:El; [|by apply sat_ret; intros w K H; split; [intros E; by apply Hc|]].
  assert (sat (retry (call (s_ack ids))) (λ w, ackable ids w ∧ batch b es' w ∧ (length ids = length (@nil sid) + length es → es' = [])%nat)
    (λ _ w, ackable ids w ∧ batch b es' w ∧ (length ids = length (@nil sid) + length es → es' = [])%nat)) as Hack.
  { eapply sat_conseq; [apply (sat_retry _ (λ w, ackable ids w ∧ batch b es' w ∧ (length ids = length (@nil sid) + length es → es' = [])%nat)
      (λ _ w, ackable ids w ∧ batch b es' w ∧ (length ids = length (@nil sid) + length es → es' = [])%nat))|done|done]; [|done].
    intros l w K (H1 & H2 & H3). eapply wp_mono; [|by apply (sat_ack ids b es')]. intros [u|] l' w' K' [H1' H2']; done. }
  eapply sat_bind; [exact Hack|]. intros x. destruct (x.1); apply sat_ret; intros w K H; (split; [intros E; by apply Hc|]); [|done].
  intros id [= <-]. destruct H as (Ha & _). apply Ha. by apply last_Some_elem_of.
Qed.

Lemma first_batch w : world_ok w → batch (Some claimStart) [] w.
Proof.
  intros K. split; [by intros e He%not_elem_of_nil|]. intros Hl. split; [constructor|by intros e He%not_elem_of_nil|by intros e id He%not_elem_of_nil|].
  intros id (g & Hg & Hp) Hlt. exfalso. destruct (wf_pel _ (ok_wf w K) g id Hg Hp) as [H _]. cbn in Hlt. apply (sid_lt_irrefl id). by eapply sid_lt_trans.
Qed.

Lemma sat_claimPending fuel cursor acked lastID backoff :
  sat (claimPending cfg fuel cursor acked lastID backoff) (λ w, batch (Some cursor) [] w ∧ known lastID w)
    (λ r w, (r.1.1.1 = true → batch None [] w) ∧ known r.1.2 w).
Proof.
  revert cursor acked lastID backoff. induction fuel as [|fuel IH]; intros cursor acked lastID backoff; cbn [claimPending].
  { by apply sat_ret; intros w K [H1 H2]. }
  set (P := λ w, batch (Some cursor) [] w ∧ known lastID w).
  assert (stable P) as HP by (apply stable_and; [apply stable_batch|apply stable_known]).
  assert (∀ ok backoff', sat (if ok : bool then claimPending cfg fuel cursor acked lastID backoff' else Ret (false, acked, lastID, backoff')) P
    (λ r w, (r.1.1.1 = true → batch None [] w) ∧ known r.1.2 w)) as Hagain.
  { intros [|] backoff'; [apply IH|]. by apply sat_ret; intros w K [H1 H2]. }
  eapply sat_bind; [by apply sat_err|]. intros [|]; cbv beta match; [by apply sat_ret; intros w K [H1 H2]|].
  eapply sat_bind; [apply sat_frame; [apply stable_known|apply known_grows|apply sat_claim]|].
  intros [[next es]| |].
  - eapply sat_bind with (R := λ r w, ((r.1.1 = true → batch (bound_of next) [] w) ∧ known r.2 w) ∧ known lastID w).
    { apply sat_frame; [apply stable_known|apply known_grows|]. destruct es as [|e es]; [by apply sat_ret|apply sat_processBatch]. }
    intros [[complete ok] id]. cbn [fst snd]. destruct complete; cbn [negb].
    2:{ apply sat_ret. intros w K [[_ H1] H2]. split; [done|]. by destruct id. }
    unfold bound_of. case_decide.
    + apply sat_ret. intros w K [[H0 H1] H2]. split; [intros _; by apply H0|]. by destruct id.
    + eapply sat_conseq; [apply IH| |done]. intros w K [[H0 H1] H2]. split; [by apply H0|]. by destruct id.
  - eapply sat_bind; [by apply sat_err|]. intros [|]; cbv beta match; [by apply sat_ret; intros w K [H1 H2]|].
    eapply sat_bind; [apply sat_frame; [apply stable_known|apply known_grows|apply sat_recreate]|]. intros [ok backoff']. apply Hagain.
  - eapply sat_bind; [by apply sat_err|]. intros [|]; cbv beta match; [by apply sat_ret; intros w K [H1 H2]|].
    eapply sat_bind; [by apply sat_wait|]. intros [ok backoff']. apply Hagain.
Qed.

Lemma sat_create_group fuel backoff : sat (create_group fuel backoff) (λ _, True) (λ _ _, True).
Proof.
  revert backoff. induction fuel as [|fuel IH]; intros backoff; cbn [create_group]; [by apply sat_ret|].
  eapply sat_bind; [apply sat_err, stable_true|]. intros [|]; cbv beta match; [by apply sat_ret|].
  eapply sat_bind; [eapply sat_conseq; [apply (sat_create (Some claimStart))|intros w K _; by apply first_batch|by intros a w K H]|].
  intros [u|]; [by apply sat_ret|]. eapply sat_bind; [apply sat_wait, stable_batch|]. intros [[|] backoff']; [|by apply sat_ret].
  eapply sat_conseq; [apply IH|done|done].
Qed.

Lemma known_record id tr w : known id w → known (tr_lastAcked tr) w → known (tr_lastAcked (trimmer_record id tr)) w.
Proof. by destruct id. Qed.

Lemma sat_consume_loop fuel tr acked backoff :
  sat (consume_loop cfg fuel tr acked backoff) (λ w, batch None [] w ∧ known (tr_lastAcked tr) w) (λ _ _, True).
Proof.
  revert tr acked backoff. induction fuel as [|fuel IH]; intros tr acked backoff; cbn [consume_loop]; [by apply sat_ret|].
  set (P := λ w, batch None [] w ∧ known (tr_lastAcked tr) w).
  assert (stable P) as HP by (apply stable_and; [apply stable_batch|apply stable_known]).
  assert (∀ ok acked' backoff', sat (if ok : bool then consume_loop cfg fuel tr acked' backoff' else Ret tt) P (λ _ _, True)) as Hagain.
  { intros [|] acked' backoff'; [apply IH|by apply sat_ret]. }
  eapply sat_bind; [by apply sat_err|]. intros [|]; cbv beta match; [by apply sat_ret|]. destruct acked; cbn [negb].
  2:{ eapply sat_bind with (R := λ r w, ((r.1.1.1 = true → batch None [] w) ∧ known r.1.2 w) ∧ known (tr_lastAcked tr) w).
      { eapply sat_conseq; [apply sat_frame; [apply (stable_known (tr_lastAcked tr))|apply known_grows|apply sat_claimPending]| |by intros a w K H].
        intros w K [_ H]. split; [split; [by apply first_batch|done]|done]. }
      intros [[[claimed acked'] lastID] backoff']. cbn [fst snd]. destruct claimed; [|by apply sat_ret].
      eapply sat_conseq; [apply IH| |done]. intros w K [[H1 H2] H3]. split; [by apply H1|by apply known_record]. }
  eapply sat_bind; [apply sat_frame; [apply stable_known|apply known_grows|apply sat_read]|]. intros [es| |].
  - eapply sat_bind with (R := λ r w, ((r.1.1 = true → batch None [] w) ∧ known r.2 w) ∧ known (tr_lastAcked tr) w).
    { apply sat_frame; [apply stable_known|apply known_grows|]. destruct es as [|e es]; [by apply sat_ret|apply sat_processBatch]. }
    intros [[complete acked'] lastID]. cbn [fst snd]. destruct complete; cbn [negb]; [|by apply sat_ret].
    set (tr' := trimmer_record lastID tr).
    assert (∀ w, world_ok w → ((true = true → batch None [] w) ∧ known lastID w) ∧ known (tr_lastAcked tr) w → batch None [] w ∧ known (tr_lastAcked tr') w) as Hpre.
    { intros w K [[H1 H2] H3]. split; [by apply H1|by apply known_record]. }
    destruct acked'; [|eapply sat_conseq; [apply IH|exact Hpre|done]].
    apply (sat_conseq _ _ (λ w, batch None [] w ∧ known (tr_lastAcked tr') w) _ (λ _ _, True)); [|exact Hpre|done].
    eapply sat_bind; [apply sat_now, stable_and; [apply stable_batch|apply stable_known]|]. intros now. cbv beta.
    assert (tr_lastAcked (trimmer_due now tr').2 = tr_lastAcked tr') as Et by (unfold trimmer_due; by destruct (_ <? _)).
    destruct (trimmer_due now tr') as [due tr'']. cbn [snd] in Et. rewrite <- Et.
    eapply sat_bind with (R := λ _ w, batch None [] w ∧ known (tr_lastAcked tr'') w); [|intros ?; apply IH].
    destruct due; [|by apply sat_ret]. eapply sat_conseq;
      [apply sat_frame; [apply (stable_known (tr_lastAcked tr''))|apply known_grows|apply (sat_trimProcessed (tr_lastAcked tr''))]| |by intros a w K H].
    intros w K [H1 H2]. done.
  - eapply sat_bind; [by apply sat_err|]. intros [|]; cbv beta match; [by apply sat_ret|].
    eapply sat_bind; [apply sat_frame; [apply stable_known|apply known_grows|apply sat_recreate]|]. intros [ok backoff']. apply Hagain.
  - eapply sat_bind; [by apply sat_err|]. intros [|]; cbv beta match; [by apply sat_ret|].
    eapply sat_bind; [by apply sat_wait|]. intros [ok backoff']. apply Hagain.
Qed.

Lemma sat_consume fuel : sat (consume cfg fuel) (λ _, True) (λ _ _, True).
Proof.
  eapply sat_bind; [apply sat_create_group|]. intros [backoff|]; [|by apply sat_ret]. eapply sat_bind; [apply sat_now, stable_true|]. intros now.
  eapply sat_bind; [eapply sat_conseq; [apply sat_claimPending| |by intros a w K H]|].
  { intros w K _. split; [by apply first_batch|done]. }
  intros [[[claimed acked] lastID] backoff']. cbn [fst snd]. destruct claimed; [|by apply sat_ret].
  eapply sat_bind with (R := λ _ w, batch None [] w ∧ known lastID w).
  { eapply sat_conseq; [apply sat_frame; [apply (stable_known lastID)|apply known_grows|apply sat_removeStaleConsumers]| |by intros a w K H].
    intros w K [H1 H2]. split; [by apply H1|done]. }
  intros ?. eapply sat_conseq; [apply sat_consume_loop| |done]. intros w K [H1 H2]. split; [done|]. by apply known_record.
Qed.
End invariant.

(** ** Consumers one after the other *)

(** A consumer of an instance: the bounds of its loops and of its calls, what the
    others do and what becomes of the calls. *)
Record Session (shard : Z) := {
  ss_instance : Instance; ss_loops : nat; ss_calls : nat; ss_env : nat → World → World; ss_fates : nat → Fate shard;
}.
Arguments ss_instance {shard}.
Arguments ss_loops {shard}.
Arguments ss_calls {shard}.
Arguments ss_env {shard}.
Arguments ss_fates {shard}.

Definition session (sv : Services) (shard : Z) (lossy : bool) (w : World) (s : Session shard) : World :=
  (Effects.interp (exec_stream sv shard lossy (ss_instance s)) (λ _ _ _, @nil unit) (ss_env s) (ss_fates s) (ss_calls s)
     (consume (ss_instance s) (ss_loops s)) w).2.
Definition sessions (sv : Services) (shard : Z) (lossy : bool) (ss : list (Session shard)) (w : World) : World :=
  foldl (session sv shard lossy) w ss.

(** The others append reports and keep off the checkpoints of the shard. *)
Definition session_ok (shard : Z) (s : Session shard) : Prop :=
  (0 < cf_BatchSize (ss_instance s))%nat ∧ ∀ n w, rtc (env_step shard) w (ss_env s n w).

(** Before the first report. *)
Definition empty_world (sites : Sites) : World :=
  {| wd_stream := {| x_entries := []; x_top := (0, 0); x_group := None |}; wd_sites := sites; wd_hist := []; wd_added := []; wd_evicted := [] |}.

Lemma empty_ok shard lossy sites : (∀ k, ckpt sites k shard = None) → world_ok shard lossy (empty_world sites).
Proof.
  intros Hs. assert (∀ (l : list Processing) id, l = [] → ¬ ∃ p, p ∈ l ∧ (pr_entry p).1 = id) as Hnone by (intros l id -> (p & Hp & _); by apply not_elem_of_nil in Hp).
  split; cbn.
  - split; cbn; [constructor|by intros id Hid%not_elem_of_nil|done|done|done].
  - by intros e He%not_elem_of_nil.
  - by intros id Hid%not_elem_of_nil.
  - intros id H. by apply Hnone in H.
  - by intros id (g & Hg & _).
  - by intros id Hid%not_elem_of_nil.
  - by intros id Hid%not_elem_of_nil.
  - intros _. split; [intros id id' H; by apply Hnone in H|intros id H; by apply Hnone in H|intros k c Hc; cbn in Hc; by rewrite Hs in Hc|].
    intros h1 p h2 E. by destruct h1.
Qed.

Lemma session_keeps sv shard lossy s w : session_ok shard s → world_ok shard lossy w → world_ok shard lossy (session sv shard lossy w s).
Proof.
  intros [Hb He] K. unfold session.
  pose proof (wp_interp _ _ _ _ _ _ _ _ (ss_env s) (ss_fates s) (ss_calls s) He (sat_consume shard lossy sv (ss_instance s) Hb (ss_loops s) [] w K I)) as H.
  destruct (Effects.interp _ _ _ _ _ _ _) as [[r l] w']. apply H.
Qed.
Lemma sessions_keep sv shard lossy ss w :
  Forall (session_ok shard) ss → world_ok shard lossy w → world_ok shard lossy (sessions sv shard lossy ss w).
Proof. intros Hss. revert w. induction Hss as [|s ss Hs _ IH]; intros w K; [done|]. by apply IH, session_keeps. Qed.

(** C17: reports are processed in order and count once: when no read loses its answer,
    an entry is first processed after all older ones but the evicted, that first
    processing is not taken for a redelivery, and if it comes to its end the report of
    a known site has been recorded exactly once, unless its lease belongs to another
    namespace. *)
Theorem first_processing_counts sv shard ss sites :
  (∀ k, ckpt sites k shard = None) → Forall (session_ok shard) ss →
  let w := sessions sv shard false ss (empty_world sites) in
  firsts_settled (wd_hist w) ∧ ∀ id id', begun w id → added w id' → sid_lt id' id → begun w id' ∨ evicted w id'.
Proof.
  intros Hs Hss w. pose proof (sessions_keep sv shard false ss _ Hss (empty_ok shard false sites Hs)) as K.
  destruct (ok_order shard false w K eq_refl) as [H1 _ _ H2]. by split.
Qed.
End world.

(** ** Runs *)

#[local] Existing Instance flat_math.
#[local] Existing Instance literal_engine.

Definition demo_delivery : Delivery :=
  {| dl_worker := demo_worker; dl_now := 2000000000; dl_env := λ _ st, st; dl_fates := λ _ _, call_done; dl_calls := 18 |}.
Lemma demo_quiet : delivery_quiet 10 demo_delivery.
Proof.
  split; [by intros n st k|]. intros ev site. cbn [dl_worker demo_delivery]. unfold event_site, find_site. cbn [w_SiteByKey w_reload demo_worker].
  destruct (ParseLeaseID _) as [ref|]; [|done]. cbn. destruct (_ =? 1); [|done]. intros [= <-]. change (NoDup [1; 2]).
  by apply (bool_decide_unpack _); vm_compute.
Qed.
Definition demo_fate (c : CallFate) (cancelled : bool) : Fate 10 :=
  {| f_call := c; f_cancelled := cancelled; f_now := 2000; f_trim := 0; f_delivery := demo_delivery; f_quiet := demo_quiet |}.

Definition demo_append (ev : Event) (w : World) : World :=
  if decide (stream_id (next_id 5 (x_top (wd_stream w)))) then append_entry 5 1000 0 (Some ev) w else w.
Definition demo_event2 : Event :=
  {| ev_ReportID := "r-2"; ev_LeaseID := demo_lid; ev_NamespaceID := "ns-1"; ev_TenantID := "ten-1"; ev_TokenID := "tok"; ev_Node := "node-1";
     ev_ReceivedAt := 2000; ev_Facts := ev_Facts demo_event; ev_StartedAt := 1500; ev_FinishedAt := 1900; ev_Release := false |}.

(** A consumer that reads one entry at a time.  Two reports are appended before its
    first call, the call number [lost] runs without its answer, and its context is
    cancelled from the call number [stop] on. *)
Definition demo_session (lost stop : nat) : Session 10 :=
  {| ss_instance := {| cf_InstanceID := "a"; cf_BatchSize := 1; cf_TrimInterval := 0 |}; ss_loops := 5; ss_calls := 40;
     ss_env := λ n w, if (n =? 39)%nat && bool_decide (wd_added w = []) then demo_append demo_event2 (demo_append demo_event w) else w;
     ss_fates := λ n, demo_fate (if (n + lost =? 39)%nat then call_timeout else call_done) (n + stop <=? 39)%nat |}.

Lemma demo_session_ok lost stop : session_ok 10 (demo_session lost stop).
Proof.
  split; [cbn; lia|]. intros n w. cbn. destruct (_ && _); [|done].
  assert (∀ ev w, rtc (env_step 10) w (demo_append ev w)) as H by (intros ev w'; unfold demo_append; case_decide; [by apply rtc_once, env_append|done]).
  etrans; apply H.
Qed.
Lemma demo_no_ckpt k : ob_ckpt (s_obs (site_at demo_sites_leased k)) !! 10 = None.
Proof. revert k. apply (demo_leased_at (λ s, ob_ckpt (s_obs s) !! 10 = None)); apply lookup_empty. Qed.

(** The answer to its first read is lost, and the consumer is followed by another. *)
Definition demo_sessions : list (Session 10) := [demo_session 7 16; demo_session 40 9].
Lemma demo_sessions_ok : Forall (session_ok 10) demo_sessions.
Proof. repeat constructor; try apply demo_session_ok. Qed.
Local Abbreviation demo_world lossy := (sessions demo_services 10 lossy demo_sessions (empty_world demo_sites_leased)).

Definition skipped_dup (l : list Log) : bool := match answers l with [Some obs_dup] => true | _ => false end.
Definition outline (p : Processing) : sid * bool * nat * bool := ((pr_entry p).1, pr_done p, records (pr_log p), skipped_dup (pr_log p)).

Lemma first_processing_counts_witness :
  let w := demo_world false in outline <$> wd_hist w = [((5, 0), true, 1%nat, false); ((5, 1), true, 1%nat, false)] ∧ firsts_settled (wd_hist w).
Proof.
  split; [vm_compute; reflexivity|].
  exact (proj1 (first_processing_counts demo_services 10 demo_sessions demo_sites_leased demo_no_ckpt demo_sessions_ok)).
Defined.

(** The condition on reads is needed: a read that runs on the server and loses its
    answer leaves its entries pending while the consumer reads on, and when the next
    consumer takes them over, observe.lua answers that they are behind the checkpoint:
    the report is skipped and acknowledged without having been applied or recorded. *)
Example lost_read_skips_report :
  Forall (session_ok 10) demo_sessions ∧
  let w := sessions demo_services 10 true demo_sessions (empty_world demo_sites_leased) in
  outline <$> wd_hist w = [((5, 1), true, 1%nat, false); ((5, 0), true, 0%nat, true)] ∧ ¬ is_pending (5, 0) (wd_stream w) ∧ ¬ firsts_settled (wd_hist w).
Proof.
  split; [exact demo_sessions_ok|]. cbv zeta.
  assert (outline <$> wd_hist (demo_world true) = [((5, 1), true, 1%nat, false); ((5, 0), true, 0%nat, true)]) as E by (vm_compute; reflexivity).
  assert ((λ g, g_pel g !! (5, 0)) <$> x_group (wd_stream (demo_world true)) = Some None) as Ep by (vm_compute; reflexivity).
  revert E Ep. generalize (demo_world true). intros w E Ep. split; [exact E|]. split.
  - intros (g & Hg & [x Hx]). rewrite Hg in Ep. cbn in Ep. rewrite Hx in Ep. discriminate Ep.
  - destruct (wd_hist w) as [|q [|p [|? ?]]]; try discriminate E. unfold outline in E. cbn [fmap list_fmap] in E.
    injection E as Eq _ _ _ Eid _ _ Es. intros H. destruct (H [q] p [] eq_refl) as [Hu _].
    { intros q' ->%list_elem_of_singleton. rewrite Eq, Eid. discriminate. }
    apply Hu. unfold skipped_dup in Es. destruct (answers (pr_log p)) as [|[[| |]|] [|? ?]]; try discriminate Es. reflexivity.
Qed.
