(* ===== verification/SignalIngest.v ===== *)
(** * Report ingestion

    internal/signal (ingest.go, event.go, ingest.lua): a batch of reports is checked
    report by report, the leases are looked up in the hot state of their sites, and
    the reports of known leases are appended to the stream of the shard that the
    lease id names, unless the shard has seen their report id within the dedup
    window.  The scripts are called in pipelines of which every call may be answered,
    get lost, or run without its answer.  The theorems show which reports get into a
    stream, how a batch is accounted for, and that a batch may be sent again. *)

From S2P Require Import Prelude GoStrings GoFloat PolicyBase PolicySignal GoTime LuaCommon PolicyAction PolicyRotation PolicySeverity PolicyEvaluate PolicyResolve Breaker IdGen.
From S2P Require Import SchedState SchedSelect SchedAcquire SchedLease SchedLedger SchedRefine SchedGrant SchedLoop SchedRun Scheduler.
From S2P Require Import HotSync ActionApply ActionExec WorkerObserve SiteScripts SiteRun Effects WorkerProcess ReportStream Authz.

Local Open Scope Z_scope.

(** ** Requests and configuration *)

(** [spinneretv1.Report]; times are seconds and nanoseconds. *)
Record Report := {
  rp_ReportId : string; rp_LeaseId : string; rp_Facts : ReportFacts; rp_StartedAt : option (Z * Z); rp_FinishedAt : option (Z * Z);
  rp_Release : bool;
}.

(** [timestamppb.Timestamp.CheckValid]: present, and from the year 1 to 9999. *)
Definition ts_valid (t : option (Z * Z)) : bool :=
  match t with
  | Some (s, n) => (-62135596800 <=? s) && (s <=? 253402300799) && (0 <=? n) && (n <? 1000000000)
  | None => false
  end.
Definition ts_millis (t : Z * Z) : Z := t.1 * 1000 + t.2 / 1000000.

Definition MaxReports : nat := 500.
Definition DefaultReportShards : Z := 16.
Definition MaxReportShards : Z := 256.
Definition DefaultDedupTTL : Z := Hour.
Definition DefaultStreamMaxLen : Z := 1000000.
Definition DefaultLateReportWindow : Z := 10 * Minute.
Definition maxNodeLen : nat := 128.
Definition maxRejectMessageLen : nat := 256.
Definition maxRetainBatch : nat := 100.

Record Config := { cf_ReportShards : Z; cf_DedupTTL : Z; cf_StreamMaxLen : Z; cf_LateReportWindow : Z }.
(** The configuration that [NewIngestor] keeps. *)
Definition NewIngestor (cfg : Config) : Config :=
  let shards := if cf_ReportShards cfg <=? 0 then DefaultReportShards else cf_ReportShards cfg in
  let ttl := if cf_DedupTTL cfg <=? 0 then DefaultDedupTTL else cf_DedupTTL cfg in
  {| cf_ReportShards := if shards >? MaxReportShards then MaxReportShards else shards;
     cf_DedupTTL := if ttl <? Millisecond then Millisecond else ttl;
     cf_StreamMaxLen := if cf_StreamMaxLen cfg <=? 0 then DefaultStreamMaxLen else cf_StreamMaxLen cfg;
     cf_LateReportWindow := if cf_LateReportWindow cfg <=? 0 then DefaultLateReportWindow else cf_LateReportWindow cfg |}.

(** What ingestion reads of a site of the catalog and its namespace. *)
Record SiteInfo := { si_SiteID : string; si_SiteName : string; si_NamespaceID : string; si_NamespaceName : string; si_TenantID : string }.

Inductive RejectReason := ReasonInvalidArgument | ReasonLeaseUnknown | ReasonScopeMissing.
Record Rejected := { rj_ReportID : string; rj_Reason : RejectReason; rj_Message : string }.
Definition reject (r : Report) (reason : RejectReason) (msg : string) : Rejected :=
  {| rj_ReportID := rp_ReportId r; rj_Reason := reason; rj_Message := msg |}.

Definition truncate (s : bytes) (n : nat) : bytes := if (length s <=? n)%nat then s else take n s.
(** Runes outside of printable ASCII are dropped, of which every byte is outside. *)
Definition printable (c : ascii) : bool := negb ((Z.of_nat (nat_of_ascii c) <? 32) || (Z.of_nat (nat_of_ascii c) >? 126)).
Definition sanitizeNode (node : bytes) : bytes := truncate (filter (λ c, printable c = true) (TrimSpace node)) maxNodeLen.

(** A report that passed the stateless checks. *)
Record candidate := { cd_report : Report; cd_ref : LeaseRef; cd_site : SiteInfo }.

(** ** Events *)

(** [Event.validate] as [EncodeEvent] and [DecodeEvent] apply it. *)
Definition Event_validate (e : Event) : option string :=
  if String.eqb (ev_ReportID e) "" then Some "signal: invalid report event: rid is required"
  else if String.eqb (ev_LeaseID e) "" then Some "signal: invalid report event: lid is required"
  else if String.eqb (ev_NamespaceID e) "" then Some "signal: invalid report event: ns is required" else None.

Definition buildEvent (p : Principal) (node : string) (c : candidate) (now : Z) : Event :=
  let r := cd_report c in
  {| ev_ReportID := rp_ReportId r; ev_LeaseID := rp_LeaseId r; ev_NamespaceID := si_NamespaceID (cd_site c);
     ev_TenantID := si_TenantID (cd_site c); ev_TokenID := if String.eqb (pr_Kind p) KindToken then pr_ID p else "";
     ev_Node := node; ev_ReceivedAt := now / 1000000; ev_Facts := rp_Facts r;
     ev_StartedAt := from_option ts_millis 0 (rp_StartedAt r); ev_FinishedAt := from_option ts_millis 0 (rp_FinishedAt r);
     ev_Release := rp_Release r |}.

(** ** ingest.lua *)

(** The stream of a shard with its dedup markers and when they expire.  [q_added] and
    [q_evicted] list for the specification everything that was ever appended, and what
    the cap of the stream evicted. *)
Record Queue := { q_stream : Stream (option Event); q_dedup : gmap string Z; q_added : list (sid * option Event); q_evicted : list sid }.

(** SET with NX and PX on a marker, which is gone once its expiry is past. *)
Definition marker_fresh (now : Z) (id : string) (q : Queue) : bool :=
  match q_dedup q !! id with Some expiry => expiry <? now | None => true end.
Definition ingest_one (now ttl : Z) (maxlen evict : nat) (s : list Z * Queue) (item : string * Event) : list Z * Queue :=
  let '(flags, q) := s in
  if marker_fresh now item.1 q then
    let e := (next_id now (x_top (q_stream q)), Some item.2) in
    let es := x_entries (q_stream q) ++ [e] in
    (flags ++ [1],
     {| q_stream := xadd now maxlen evict (Some item.2) (q_stream q); q_dedup := <[item.1 := now + ttl]> (q_dedup q);
        q_added := q_added q ++ [e]; q_evicted := q_evicted q ++ (take (Nat.min evict (length es - maxlen)) es).*1 |})
  else (flags ++ [0], q).
Definition ingest_lua (now ttl : Z) (maxlen evict : nat) (items : list (string * Event)) (q : Queue) : list Z * Queue :=
  foldl (ingest_one now ttl maxlen evict) ([], q) items.

(** ** The handler *)

Abbreviation Queues := (gmap Z Queue).
Definition empty_queue : Queue := {| q_stream := {| x_entries := []; x_top := (0, 0); x_group := None |}; q_dedup := ∅; q_added := []; q_evicted := [] |}.
Definition queue_at (qs : Queues) (shard : Z) : Queue := default empty_queue (qs !! shard).

Section ingest.
(** [protovalidate.Validate], which answers the message of a violation, and the
    catalog. *)
Variables (Validate : Report → option bytes) (SiteByKey : Z → option SiteInfo) (cfg : Config).

Definition lease_unknown (r : Report) : Rejected := reject r ReasonLeaseUnknown "lease is unknown or expired".

Definition check (p : Principal) (r : option Report) : Rejected + candidate :=
  match r with
  | None => inl {| rj_ReportID := ""; rj_Reason := ReasonInvalidArgument; rj_Message := "report is empty" |}
  | Some r =>
      match Validate r with
      | Some msg => inl (reject r ReasonInvalidArgument (str (truncate msg maxRejectMessageLen)))
      | None =>
          if negb (ValidReportID (bs (rp_ReportId r))) then
            inl (reject r ReasonInvalidArgument "report_id must be 1-64 characters of [A-Za-z0-9_.:-]")
          else if negb (ts_valid (rp_StartedAt r)) || negb (ts_valid (rp_FinishedAt r)) then
            inl (reject r ReasonInvalidArgument "started_at and finished_at must be valid timestamps")
          else match ParseLeaseID (bs (rp_LeaseId r)) with
          | None => inl (lease_unknown r)
          | Some ref =>
              if lr_Shard ref >=? cf_ReportShards cfg then inl (lease_unknown r)
              else match SiteByKey (lr_SiteKey ref) with
              | None => inl (lease_unknown r)
              | Some s =>
                  if String.eqb (pr_Kind p) KindToken && negb (String.eqb (si_NamespaceID s) (pr_NamespaceID p)) then inl (lease_unknown r)
                  else
                    let res := {| r_TenantID := si_TenantID s; r_NamespaceID := si_NamespaceID s; r_NamespaceName := si_NamespaceName s;
                                  r_SiteID := si_SiteID s; r_SiteName := si_SiteName s; r_ConfigGroup := ""; r_SecretPath := "" |} in
                    if negb (Can (Some p) PermReportWrite res) then
                      inl (reject r ReasonScopeMissing "report:write is not granted for the lease site")
                    else inr {| cd_report := r; cd_ref := ref; cd_site := s |}
              end
          end
      end
  end.

(** The leases of the candidates: namespaces and numbers of reports, and the leases
    of each site in the order in which they came up. *)
Record leaseRef := { lf_ns : string; lf_reports : Z }.
Record leaseRefs := { lf_refs : gmap string leaseRef; lf_bySite : gmap Z (list string); lf_siteOrder : list Z }.
Definition collect_one (s : leaseRefs) (c : candidate) : leaseRefs :=
  let id := rp_LeaseId (cd_report c) in
  let key := lr_SiteKey (cd_ref c) in
  match lf_refs s !! id with
  | Some ref =>
      {| lf_refs := <[id := {| lf_ns := lf_ns ref; lf_reports := lf_reports ref + 1 |}]> (lf_refs s); lf_bySite := lf_bySite s; lf_siteOrder := lf_siteOrder s |}
  | None =>
      {| lf_refs := <[id := {| lf_ns := si_NamespaceID (cd_site c); lf_reports := 1 |}]> (lf_refs s);
         lf_bySite := <[key := default [] (lf_bySite s !! key) ++ [id]]> (lf_bySite s);
         lf_siteOrder := match lf_bySite s !! key with Some _ => lf_siteOrder s | None => lf_siteOrder s ++ [key] end |}
  end.
Definition collect (cs : list candidate) : leaseRefs := foldl collect_one {| lf_refs := ∅; lf_bySite := ∅; lf_siteOrder := [] |} cs.

(** At most [n] at a time; [fuel] bounds the number of chunks. *)
Fixpoint chunks (fuel n : nat) (ids : list string) : list (list string) :=
  match fuel, ids with
  | _, [] | O, _ => []
  | S fuel, _ => take n ids :: chunks fuel n (drop n ids)
  end.
(** The calls of lease_retain.lua: site, namespace, leases with their reports. *)
Definition retain_calls (s : leaseRefs) : list (Z * string * list (string * Z)) :=
  key ← lf_siteOrder s;
  (λ chunk, (key, from_option (λ id, from_option lf_ns "" (lf_refs s !! id)) "" (head chunk),
             (λ id, (id, from_option lf_reports 0 (lf_refs s !! id))) <$> chunk)) <$>
    (let ids := default [] (lf_bySite s !! key) in chunks (length ids) maxRetainBatch ids).

Definition retain_call (now : Z) (fate : CallFate) (c : Z * string * list (string * Z)) (sites : Sites) : option (list string) * Sites :=
  site_call fate c.1.1 (λ s,
    let '(out, h) := lease_retain_lua c.1.2 (now / 1000000) (std_ms (cf_DedupTTL cfg)) (std_ms (cf_LateReportWindow cfg)) c.2 (site_hot s) in
    (out, set_hot h s)) sites.
(** A pipeline: every call is made, whatever became of the others. *)
Fixpoint retain_all (now : Z) (fates : list CallFate) (calls : list (Z * string * list (string * Z))) (sites : Sites) :
    list (option (list string)) * Sites :=
  match calls with
  | [] => ([], sites)
  | c :: calls =>
      let '(r, sites) := retain_call now (default call_lost (head fates)) c sites in
      let '(rs, sites) := retain_all now (tail fates) calls sites in (r :: rs, sites)
  end.
(** The leases that exist in the namespace of their site; [None] is an error. *)
Definition known_of (refs : gmap string leaseRef) (known : gmap string bool) (answer : (string * Z) * string) : gmap string bool :=
  let '((id, _), ns) := answer in
  if String.eqb ns "" then known else <[id := String.eqb ns (from_option lf_ns "" (refs !! id))]> known.
Definition lookupLeases (cs : list candidate) (now : Z) (fates : list CallFate) (sites : Sites) : option (gmap string bool) * Sites :=
  let s := collect cs in
  let calls := retain_calls s in
  let '(rs, sites) := retain_all now fates calls sites in
  (match mapM id rs with
   | None => None
   | Some outs => Some (foldl (known_of (lf_refs s)) ∅ (mjoin (zip_with (λ c out, zip c.2 out) calls outs)))
   end, sites).

(** The encoded reports by shard in the order in which the shards came up, and the
    rejected ones. *)
Record Grouped := { gr_order : list Z; gr_shards : gmap Z (list (string * Event)); gr_rejected : list Rejected }.
Definition group_one (p : Principal) (node : string) (known : gmap string bool) (now : Z) (g : Grouped) (c : candidate) : Grouped :=
  let r := cd_report c in
  let shard := lr_Shard (cd_ref c) in
  if negb (default false (known !! rp_LeaseId r)) then
    {| gr_order := gr_order g; gr_shards := gr_shards g; gr_rejected := gr_rejected g ++ [lease_unknown r] |}
  else
    let e := buildEvent p node c now in
    match Event_validate e with
    | Some msg => {| gr_order := gr_order g; gr_shards := gr_shards g; gr_rejected := gr_rejected g ++ [reject r ReasonInvalidArgument msg] |}
    | None =>
        {| gr_order := match gr_shards g !! shard with Some _ => gr_order g | None => gr_order g ++ [shard] end;
           gr_shards := <[shard := default [] (gr_shards g !! shard) ++ [(rp_ReportId r, e)]]> (gr_shards g); gr_rejected := gr_rejected g |}
    end.
Definition groupByShard (p : Principal) (node : string) (cs : list candidate) (known : gmap string bool) (rejected : list Rejected) (now : Z) : Grouped :=
  foldl (group_one p node known now) {| gr_order := []; gr_shards := ∅; gr_rejected := rejected |} cs.

(** What becomes of a call of ingest.lua: the clock of the server and how many old
    entries the cap evicts. *)
Record EnqueueFate := { ef_call : CallFate; ef_now : Z; ef_evict : nat }.
Definition enqueue_call (fate : EnqueueFate) (shard : Z) (items : list (string * Event)) (qs : Queues) : option (list Z) * Queues :=
  let '(flags, q) :=
    ingest_lua (ef_now fate) (std_ms (cf_DedupTTL cfg)) (Z.to_nat (cf_StreamMaxLen cfg)) (ef_evict fate) items (queue_at qs shard) in
  match ef_call fate with
  | call_lost => (None, qs)
  | call_timeout => (None, <[shard := q]> qs)
  | call_done => (Some flags, <[shard := q]> qs)
  end.
(** accepted, duplicated, and whether every call was answered *)
Fixpoint enqueue (fates : list EnqueueFate) (order : list Z) (shards : gmap Z (list (string * Event))) (qs : Queues) : nat * nat * bool * Queues :=
  match order with
  | [] => (0%nat, 0%nat, true, qs)
  | shard :: order =>
      let '(r, qs) := enqueue_call (default {| ef_call := call_lost; ef_now := 0; ef_evict := 0 |} (head fates)) shard (default [] (shards !! shard)) qs in
      let '(accepted, duplicated, ok, qs) := enqueue (tail fates) order shards qs in
      match r with
      | Some flags => ((accepted + length (filter (λ f, f = 1%Z) flags))%nat, (duplicated + length (filter (λ f, f ≠ 1%Z) flags))%nat, ok, qs)
      | None => (accepted, duplicated, false, qs)
      end
  end.

Inductive IngestError := Unauthenticated | TooManyReports | Unavailable.
Inductive IngestResult := IngestFailed (accepted duplicated : nat) (err : IngestError) | Ingested (accepted duplicated : nat) (rejected : list Rejected).

(** One request: the clock of the ingestor and what becomes of the calls. *)
Record Attempt := { at_now : Z; at_retain : list CallFate; at_enqueue : list EnqueueFate }.

(** The candidates and the rejected ones of a batch. *)
Fixpoint check_all (p : Principal) (reports : list (option Report)) : list Rejected * list candidate :=
  match reports with
  | [] => ([], [])
  | r :: reports =>
      let '(rejected, cs) := check_all p reports in
      match check p r with inl rej => (rej :: rejected, cs) | inr c => (rejected, c :: cs) end
  end.

Definition Ingest (a : Attempt) (p : option Principal) (node : bytes) (reports : list (option Report)) (st : Sites * Queues) :
    IngestResult * (Sites * Queues) :=
  match p with
  | None => (IngestFailed 0 0 Unauthenticated, st)
  | Some p =>
      if (MaxReports <? length reports)%nat then (IngestFailed 0 0 TooManyReports, st)
      else
        match reports with
        | [] => (Ingested 0 0 [], st)
        | _ =>
            let '(rejected, cs) := check_all p reports in
            match cs with
            | [] => (Ingested 0 0 rejected, st)
            | _ =>
                let '(known, sites) := lookupLeases cs (at_now a) (at_retain a) st.1 in
                match known with
                | None => (IngestFailed 0 0 Unavailable, (sites, st.2))
                | Some known =>
                    let g := groupByShard p (str (sanitizeNode node)) cs known rejected (at_now a) in
                    match gr_order g with
                    | [] => (Ingested 0 0 (gr_rejected g), (sites, st.2))
                    | order =>
                        let '(accepted, duplicated, ok, qs) := enqueue (at_enqueue a) order (gr_shards g) st.2 in
                        (if ok : bool then Ingested accepted duplicated (gr_rejected g) else IngestFailed accepted duplicated Unavailable, (sites, qs))
                    end
                end
            end
        end
  end.
End ingest.

(** ** Which reports are accepted *)

Section accepted.
Context (Validate : Report → option bytes) (SiteByKey : Z → option SiteInfo) (cfg : Config).

(** What a candidate has passed. *)
Definition authorised (p : Principal) (c : candidate) : Prop :=
  let r := cd_report c in let s := cd_site c in
  Validate r = None ∧ ValidReportID (bs (rp_ReportId r)) = true ∧ ParseLeaseID (bs (rp_LeaseId r)) = Some (cd_ref c) ∧
  lr_Shard (cd_ref c) < cf_ReportShards cfg ∧ SiteByKey (lr_SiteKey (cd_ref c)) = Some s ∧
  (pr_Kind p = KindToken → si_NamespaceID s = pr_NamespaceID p) ∧
  Can (Some p) PermReportWrite
    {| r_TenantID := si_TenantID s; r_NamespaceID := si_NamespaceID s; r_NamespaceName := si_NamespaceName s; r_SiteID := si_SiteID s;
       r_SiteName := si_SiteName s; r_ConfigGroup := ""; r_SecretPath := "" |} = true.

Lemma check_authorised p r c : check Validate SiteByKey cfg p r = inr c → r = Some (cd_report c) ∧ authorised p c.
Proof.
  unfold check. destruct r as [r|]; [|done]. destruct (Validate r) eqn:E1; [done|]. destruct (ValidReportID _) eqn:E2; cbn [negb]; [|done].
  destruct (_ || _); [done|]. destruct (ParseLeaseID _) as [ref|] eqn:E3; [|done]. destruct (Z.geb_spec (lr_Shard ref) (cf_ReportShards cfg)); [done|].
  destruct (SiteByKey _) as [s|] eqn:E4; [|done]. destruct (_ && _) eqn:E5; [done|]. destruct (Can _ _ _) eqn:E6; cbn [negb]; [|done].
  intros [= <-]. split; [done|]. unfold authorised. cbn. split_and!; try done. intros Hk. rewrite Hk in E5. cbn in E5. by apply negb_false_iff, String.eqb_eq in E5.
Qed.
Lemma check_rejects p r rej : check Validate SiteByKey cfg p (Some r) = inl rej → rj_ReportID rej = rp_ReportId r.
Proof.
  unfold check. destruct (Validate r); [by intros [= <-]|]. destruct (ValidReportID _); cbn [negb]; [|by intros [= <-]].
  destruct (_ || _); [by intros [= <-]|]. destruct (ParseLeaseID _) as [ref|]; [|by intros [= <-]]. destruct (_ >=? _); [by intros [= <-]|].
  destruct (SiteByKey _) as [s|]; [|by intros [= <-]]. destruct (_ && _); [by intros [= <-]|]. destruct (Can _ _ _); [done|by intros [= <-]].
Qed.

Lemma check_all_spec p reports :
  let '(rejected, cs) := check_all Validate SiteByKey cfg p reports in
  (length rejected + length cs = length reports)%nat ∧
  (∀ c, c ∈ cs → Some (cd_report c) ∈ reports ∧ authorised p c) ∧
  (∀ r, Some r ∈ reports → rp_ReportId r ∈ rj_ReportID <$> rejected ∨ ∃ c, c ∈ cs ∧ cd_report c = r).
Proof.
  induction reports as [|r reports IH]; cbn [check_all].
  { split_and!; [done|by intros c Hc%not_elem_of_nil|by intros r Hr%not_elem_of_nil]. }
  destruct (check_all _ _ _ p reports) as [rejected cs]. destruct IH as (IH1 & IH2 & IH3). destruct (check _ _ _ p r) as [rej|c] eqn:E; cbn [length].
  - split_and!; [lia|intros c Hc; destruct (IH2 c Hc); split; [by apply elem_of_cons; right|done]|].
    intros r' [<-|Hr]%elem_of_cons; [left; cbn; rewrite (check_rejects _ _ _ E); apply list_elem_of_here|].
    destruct (IH3 r' Hr); [left; by apply elem_of_cons; right|by right].
  - destruct (check_authorised _ _ _ E) as [-> Ha]. split_and!; [lia|..].
    + intros c' [->|Hc]%elem_of_cons; [split; [apply list_elem_of_here|done]|]. destruct (IH2 c' Hc). split; [by apply elem_of_cons; right|done].
    + intros r' [[= ->]|Hr]%elem_of_cons; [right; exists c; split; [apply list_elem_of_here|done]|].
      destruct (IH3 r' Hr) as [|(c' & Hc & E')]; [by left|right]. exists c'. split; [by apply elem_of_cons; right|done].
Qed.

(** ** Lease lookup *)

(** The namespace of a lease, empty when it is gone. *)
Definition lease_ns (sites : Sites) (key : Z) (id : string) : string := from_option ls_ns "" (h_ls (site_hot (site_at sites key)) !! id).

Lemma lease_retain_out ns now retain late reports out h :
  let '(out', h') := foldl (lease_retain_one ns now retain late) (out, h) reports in
  out' = out ++ ((λ k, from_option ls_ns "" (h_ls h !! k.1)) <$> reports) ∧ ∀ id, ls_ns <$> h_ls h' !! id = ls_ns <$> h_ls h !! id.
Proof.
  revert out h. induction reports as [|k reports IH]; intros out h; cbn [foldl fmap list_fmap]; [by rewrite app_nil_r|].
  assert (∃ h1, lease_retain_one ns now retain late (out, h) k = (out ++ [from_option ls_ns "" (h_ls h !! k.1)], h1) ∧
    ∀ id, ls_ns <$> h_ls h1 !! id = ls_ns <$> h_ls h !! id) as (h1 & -> & H1).
  { unfold lease_retain_one. destruct (h_ls h !! k.1) as [l|] eqn:El; [|by eexists]. eexists. split; [done|]. intros id.
    destruct (String.eqb _ _); [|done]. cbn. destruct (decide (k.1 = id)) as [<-|Hne]; [by rewrite lookup_insert_eq, El|by rewrite lookup_insert_ne]. }
  specialize (IH (out ++ [from_option ls_ns "" (h_ls h !! k.1)]) h1). destruct (foldl _ _ reports) as [out' h']. destruct IH as [-> IH]. split.
  - rewrite <- app_assoc. cbn. do 2 f_equal. apply list_fmap_ext. intros i x _. specialize (H1 x.1). destruct (h_ls h1 !! x.1), (h_ls h !! x.1); cbn in *; congruence.
  - intros id. by rewrite IH, H1.
Qed.

Lemma lease_ns_eq sites sites' key id :
  ls_ns <$> h_ls (site_hot (site_at sites' key)) !! id = ls_ns <$> h_ls (site_hot (site_at sites key)) !! id → lease_ns sites' key id = lease_ns sites key id.
Proof. unfold lease_ns. intros E. by destruct (h_ls _ !! id), (h_ls _ !! id); cbn in E; simplify_eq. Qed.

Lemma retain_call_spec now fate c sites :
  let '(r, sites') := retain_call cfg now fate c sites in
  (∀ key id, lease_ns sites' key id = lease_ns sites key id) ∧
  (∀ out, r = Some out → out = (λ k, lease_ns sites c.1.1 k.1) <$> c.2).
Proof.
  unfold retain_call. set (f := λ s : Site, _).
  assert (∀ s, (f s).1 = (λ k, from_option ls_ns "" (h_ls (site_hot s) !! k.1)) <$> c.2 ∧
    ∀ id, ls_ns <$> h_ls (site_hot (f s).2) !! id = ls_ns <$> h_ls (site_hot s) !! id) as Hf.
  { intros s. subst f. cbn beta. unfold lease_retain_lua. pose proof (lease_retain_out c.1.2 (now / 1000000) (std_ms (cf_DedupTTL cfg))
      (std_ms (cf_LateReportWindow cfg)) c.2 [] (site_hot s)) as H. destruct (foldl _ _ _) as [out h]. done. }
  pose proof (λ key, site_call_at fate c.1.1 f sites key) as Hs. destruct (site_call fate c.1.1 f sites) as [r sites'] eqn:E. cbn [snd] in Hs. split.
  - intros key id. apply lease_ns_eq. destruct (Hs key) as [->|[_ ->]]; [done|apply Hf].
  - intros out ->. destruct fate; cbn in E; [|done..]. injection E as <- _. apply Hf.
Qed.

Lemma retain_all_spec now fates calls sites (outs : list (list string)) :
  mapM id (retain_all cfg now fates calls sites).1 = Some outs →
  outs = (λ c : Z * string * list (string * Z), (λ k, lease_ns sites c.1.1 k.1) <$> c.2) <$> calls.
Proof.
  revert fates sites outs. induction calls as [|c calls IH]; intros fates sites outs; cbn [retain_all]; [by intros [= <-]|].
  pose proof (retain_call_spec now (default call_lost (head fates)) c sites) as H. destruct (retain_call _ _ _ _ _) as [r sites1]. destruct H as [H1 H2].
  specialize (IH (tail fates) sites1). destruct (retain_all _ _ _ _ _) as [rs sites2]. cbn [fst] in *. intros E.
  apply mapM_Some in E. apply Forall2_cons_inv_l in E as (out & outs' & Hr & E%mapM_Some & ->). cbn in Hr.
  rewrite (IH _ E), (H2 _ Hr). cbn. f_equal. apply list_fmap_ext. intros i x _. apply list_fmap_ext. intros j k _. apply H1.
Qed.

Lemma collect_spec cs :
  let s := collect cs in
  (∀ key id, id ∈ default [] (lf_bySite s !! key) → ∃ c, c ∈ cs ∧ rp_LeaseId (cd_report c) = id ∧ lr_SiteKey (cd_ref c) = key) ∧
  (∀ id ref, lf_refs s !! id = Some ref → ∃ c, c ∈ cs ∧ rp_LeaseId (cd_report c) = id ∧ lf_ns ref = si_NamespaceID (cd_site c)).
Proof.
  induction cs as [|c cs [IH1 IH2]] using rev_ind; cbn zeta.
  { split; [intros key id; cbn; rewrite lookup_empty; by intros H%not_elem_of_nil|intros id ref; cbn; by rewrite lookup_empty]. }
  unfold collect in *. rewrite foldl_app. cbn [foldl]. set (s := foldl collect_one _ cs) in *.
  assert (∀ key id, id ∈ default [] (lf_bySite s !! key) → ∃ c', c' ∈ cs ++ [c] ∧ rp_LeaseId (cd_report c') = id ∧ lr_SiteKey (cd_ref c') = key) as H1.
  { intros key id (c' & Hc & E)%IH1. exists c'. split; [apply elem_of_app; by left|done]. }
  assert (∀ id ref, lf_refs s !! id = Some ref → ∃ c', c' ∈ cs ++ [c] ∧ rp_LeaseId (cd_report c') = id ∧ lf_ns ref = si_NamespaceID (cd_site c')) as H2.
  { intros id ref (c' & Hc & E)%IH2. exists c'. split; [apply elem_of_app; by left|done]. }
  assert (c ∈ cs ++ [c]) as Hc by (apply elem_of_app; right; apply list_elem_of_here).
  unfold collect_one. destruct (lf_refs s !! rp_LeaseId (cd_report c)) as [ref0|] eqn:Er; cbn [lf_bySite lf_refs]; split.
  - exact H1.
  - intros id ref. destruct (decide (rp_LeaseId (cd_report c) = id)) as [<-|Hne]; [|rewrite lookup_insert_ne by done; apply H2].
    rewrite lookup_insert_eq. intros [= <-]. cbn. by apply H2.
  - intros key id. destruct (decide (lr_SiteKey (cd_ref c) = key)) as [<-|Hne]; [|rewrite lookup_insert_ne by done; apply H1].
    rewrite lookup_insert_eq. cbn. intros [H|H]%elem_of_app; [by apply H1|]. apply list_elem_of_singleton in H as ->. by exists c.
  - intros id ref. destruct (decide (rp_LeaseId (cd_report c) = id)) as [<-|Hne]; [|rewrite lookup_insert_ne by done; apply H2].
    rewrite lookup_insert_eq. intros [= <-]. by exists c.
Qed.

Lemma chunks_in fuel n ids chunk id : chunk ∈ chunks fuel n ids → id ∈ chunk → id ∈ ids.
Proof.
  revert ids. induction fuel as [|fuel IH]; intros ids; cbn [chunks]; destruct ids as [|x ids]; try by intros H%not_elem_of_nil.
  intros [->|H]%elem_of_cons Hid; [by eapply elem_take|]. eapply elem_drop, IH; done.
Qed.
Lemma retain_calls_in s c k : c ∈ retain_calls s → k ∈ c.2 → k.1 ∈ default [] (lf_bySite s !! c.1.1).
Proof.
  unfold retain_calls. intros (key & Hc & _)%list_elem_of_bind Hk. apply list_elem_of_fmap in Hc as (chunk & -> & Hchunk). cbn in *.
  apply list_elem_of_fmap in Hk as (id & -> & Hid). cbn. by eapply chunks_in.
Qed.

Lemma known_true refs answers id :
  foldl (known_of refs) ∅ answers !! id = Some true →
  ∃ n ns, (id, n, ns) ∈ answers ∧ ns ≠ "" ∧ ns = from_option lf_ns "" (refs !! id).
Proof.
  induction answers as [|[[id' n] ns] answers IH] using rev_ind; [cbn; by rewrite lookup_empty|].
  rewrite foldl_app. cbn. intros H.
  assert (foldl (known_of refs) ∅ answers !! id = Some true → ∃ n0 ns0, (id, n0, ns0) ∈ answers ++ [(id', n, ns)] ∧ ns0 ≠ "" ∧ ns0 = from_option lf_ns "" (refs !! id)) as Hold.
  { intros (n0 & ns0 & Hin & E)%IH. exists n0, ns0. split; [apply elem_of_app; by left|done]. }
  destruct (String.eqb_spec ns "") as [_|Hne]; [by apply Hold|].
  destruct (decide (id' = id)) as [->|Hid]; [|rewrite lookup_insert_ne in H by done; by apply Hold].
  rewrite lookup_insert_eq in H. injection H as H%String.eqb_eq. exists n, ns. split; [apply elem_of_app; right; apply list_elem_of_here|done].
Qed.

Lemma answers_in sites calls id n ns :
  (id, n, ns) ∈ mjoin (zip_with (λ (c : Z * string * list (string * Z)) out, zip c.2 out) calls
    ((λ c : Z * string * list (string * Z), (λ k, lease_ns sites c.1.1 k.1) <$> c.2) <$> calls)) →
  ∃ c, c ∈ calls ∧ (id, n) ∈ c.2 ∧ ns = lease_ns sites c.1.1 id.
Proof.
  induction calls as [|c calls IH]; cbn; [by intros H%not_elem_of_nil|]. intros [H|H]%elem_of_app.
  - exists c. split; [apply list_elem_of_here|]. rewrite zip_with_fmap_r in H. clear IH. induction c.2 as [|k ks IHk]; cbn in H; [by apply not_elem_of_nil in H|].
    apply elem_of_cons in H as [[= <- ->]|H]; [split; [apply list_elem_of_here|done]|]. destruct (IHk H). split; [by apply elem_of_cons; right|done].
  - destruct (IH H) as (c' & Hc & E). exists c'. split; [by apply elem_of_cons; right|done].
Qed.

(** A lease that is found exists at its site in the namespace of the site. *)
Lemma lookup_known p cs now fates sites known sites' c :
  (∀ c, c ∈ cs → authorised p c) → lookupLeases cfg cs now fates sites = (Some known, sites') → c ∈ cs →
  known !! rp_LeaseId (cd_report c) = Some true →
  lease_ns sites (lr_SiteKey (cd_ref c)) (rp_LeaseId (cd_report c)) = si_NamespaceID (cd_site c) ∧ si_NamespaceID (cd_site c) ≠ "".
Proof.
  intros Hcs E Hc Hk. unfold lookupLeases in E. set (s := collect cs) in *. destruct (collect_spec cs) as [H1 H2]. fold s in H1, H2.
  destruct (retain_all _ _ _ _ _) as [rs sites1] eqn:Er. injection E as E _.
  destruct (mapM id rs) as [outs|] eqn:Eo; [|done]. injection E as <-.
  assert (outs = (λ c : Z * string * list (string * Z), (λ k, lease_ns sites c.1.1 k.1) <$> c.2) <$> retain_calls s) as ->.
  { apply (retain_all_spec now fates). by rewrite Er. }
  apply known_true in Hk as (n & ns & Hin & Hne & Ens). apply answers_in in Hin as (call & Hcall & Hid & ->).
  pose proof (retain_calls_in s call _ Hcall Hid) as Hby. apply H1 in Hby as (c1 & Hc1 & Eid & Ekey). cbn in Eid.
  destruct (lf_refs s !! rp_LeaseId (cd_report c)) as [ref|] eqn:Eref; [|by rewrite Ens in Hne]. apply H2 in Eref as (c2 & Hc2 & Eid2 & Ens2).
  destruct (Hcs c Hc) as (_ & _ & Pc & _ & Sc & _), (Hcs c1 Hc1) as (_ & _ & P1 & _ & S1 & _), (Hcs c2 Hc2) as (_ & _ & P2 & _ & S2 & _).
  rewrite Eid in P1. rewrite Eid2 in P2. rewrite Pc in P1, P2. injection P1 as P1. injection P2 as P2. rewrite <- P1 in S1, Ekey. rewrite <- P2 in S2.
  rewrite Sc in S2. injection S2 as S2. cbn in Ens. rewrite Ens2, <- S2 in Ens. rewrite <- Ekey in Ens, Hne. by rewrite <- Ens.
Qed.

(** ** Grouping *)

Definition items_of (shards : gmap Z (list (string * Event))) (shard : Z) : list (string * Event) := default [] (shards !! shard).
Definition total (order : list Z) (shards : gmap Z (list (string * Event))) : nat := sum_list ((λ s, length (items_of shards s)) <$> order).

Section grouped.
Context (p : Principal) (node : string) (known : gmap string bool) (now : Z) (rejected : list Rejected).

Definition item_of (c : candidate) : string * Event := (rp_ReportId (cd_report c), buildEvent p node c now).

Record grouped_ok (cs : list candidate) (g : Grouped) : Prop := {
  go_nodup : NoDup (gr_order g);
  go_order : ∀ s, s ∈ gr_order g ↔ is_Some (gr_shards g !! s);
  go_items : ∀ s i, i ∈ items_of (gr_shards g) s →
    ∃ c, c ∈ cs ∧ known !! rp_LeaseId (cd_report c) = Some true ∧ lr_Shard (cd_ref c) = s ∧ i = item_of c;
  go_total : (total (gr_order g) (gr_shards g) + length (gr_rejected g) = length cs + length rejected)%nat;
  go_all : ∀ c, c ∈ cs → rp_ReportId (cd_report c) ∈ rj_ReportID <$> gr_rejected g ∨ item_of c ∈ items_of (gr_shards g) (lr_Shard (cd_ref c));
  go_rejected : ∀ rej, rej ∈ rejected → rej ∈ gr_rejected g;
}.

Lemma total_insert order shards shard i :
  NoDup order → shard ∈ order → total order (<[shard := items_of shards shard ++ [i]]> shards) = S (total order shards).
Proof.
  unfold total. induction order as [|s order IH]; intros Hd Hin; [by apply not_elem_of_nil in Hin|]. apply NoDup_cons in Hd as [Hs Hd].
  cbn. apply elem_of_cons in Hin as [->|Hin].
  - unfold items_of at 1. rewrite lookup_insert_eq. cbn. rewrite length_app. cbn.
    assert ((λ x, length (items_of (<[s := items_of shards s ++ [i]]> shards) x)) <$> order = (λ x, length (items_of shards x)) <$> order) as ->; [|lia].
    apply list_fmap_ext. intros j x Hx. unfold items_of at 1. rewrite lookup_insert_ne; [done|]. intros ->. by apply Hs, (list_elem_of_lookup_2 _ j).
  - rewrite (IH Hd Hin). unfold items_of at 1. rewrite lookup_insert_ne by (intros ->; done). fold (items_of shards s). lia.
Qed.

Lemma group_one_ok cs g c : grouped_ok cs g → grouped_ok (cs ++ [c]) (group_one p node known now g c).
Proof.
  intros [G1 G2 G3 G4 G5 G6]. unfold group_one. cbv zeta. set (r := cd_report c). set (shard := lr_Shard (cd_ref c)).
  assert (∀ rej, rj_ReportID rej = rp_ReportId r →
    grouped_ok (cs ++ [c]) {| gr_order := gr_order g; gr_shards := gr_shards g; gr_rejected := gr_rejected g ++ [rej] |}) as Hrej.
  { intros rej Erej. split; cbn [gr_order gr_shards gr_rejected].
    - done.
    - done.
    - intros s i (c' & Hc & E)%G3. exists c'. split; [apply elem_of_app; by left|done].
    - rewrite !length_app. cbn. lia.
    - intros c' [Hc|Hc]%elem_of_app; rewrite fmap_app, elem_of_app.
      + destruct (G5 c' Hc); [left; by left|by right].
      + apply list_elem_of_singleton in Hc as ->. left. right. cbn. rewrite Erej. apply list_elem_of_here.
    - intros rej' Hr. apply elem_of_app. left. by apply G6. }
  destruct (known !! rp_LeaseId r) as [[|]|] eqn:Ek; cbn [from_option id negb]; [|by apply Hrej..].
  destruct (Event_validate _) as [msg|]; [by apply Hrej|].
  set (order := match gr_shards g !! shard with Some _ => gr_order g | None => gr_order g ++ [shard] end).
  assert (NoDup order ∧ shard ∈ order ∧ (∀ s, s ∈ order ↔ s = shard ∨ is_Some (gr_shards g !! s)) ∧ total order (gr_shards g) = total (gr_order g) (gr_shards g))
    as (N1 & N2 & N3 & N4).
  { subst order. destruct (gr_shards g !! shard) as [l|] eqn:El.
    - split_and!; [done|apply G2; by eexists| |done]. intros s. rewrite G2. split; [by right|]. intros [->|]; [by eexists|done].
    - assert (shard ∉ gr_order g) as Hn by (rewrite G2, El; by intros []). split_and!.
      + apply NoDup_app. split_and!; [done| |apply NoDup_singleton]. intros s Hs Hs'. apply list_elem_of_singleton in Hs' as ->. done.
      + apply elem_of_app. right. apply list_elem_of_here.
      + intros s. rewrite elem_of_app, G2, list_elem_of_singleton. tauto.
      + unfold total. rewrite fmap_app, sum_list_with_app. cbn. unfold items_of at 2. rewrite El. cbn. lia. }
  change (rp_ReportId r, buildEvent p node c now) with (item_of c). fold (items_of (gr_shards g) shard). split; cbn [gr_order gr_shards gr_rejected].
  - done.
  - intros s. rewrite N3. destruct (decide (s = shard)) as [->|Hne]; [rewrite lookup_insert_eq; split; [by eexists|by left]|].
    rewrite lookup_insert_ne by done. split; [by intros [|]|by right].
  - intros s i. unfold items_of at 1. destruct (decide (s = shard)) as [->|Hne].
    + rewrite lookup_insert_eq. cbn. intros [(c' & Hc & E)%G3|Hi]%elem_of_app; [exists c'; split; [apply elem_of_app; by left|done]|].
      apply list_elem_of_singleton in Hi as ->. exists c. split; [apply elem_of_app; right; apply list_elem_of_here|done].
    + rewrite lookup_insert_ne by done. intros (c' & Hc & E)%G3. exists c'. split; [apply elem_of_app; by left|done].
  - rewrite total_insert by done. rewrite length_app. cbn. lia.
  - intros c' [Hc|Hc]%elem_of_app.
    + destruct (G5 c' Hc) as [|Hi]; [by left|right]. unfold items_of at 1. destruct (decide (lr_Shard (cd_ref c') = shard)) as [E|Hne].
      * rewrite E, lookup_insert_eq. cbn. apply elem_of_app. left. by rewrite <- E.
      * by rewrite lookup_insert_ne.
    + apply list_elem_of_singleton in Hc as ->. right. unfold items_of at 1. rewrite lookup_insert_eq. cbn. apply elem_of_app. right. apply list_elem_of_here.
  - done.
Qed.

Lemma groupByShard_ok cs : grouped_ok cs (groupByShard p node cs known rejected now).
Proof.
  unfold groupByShard. induction cs as [|c cs IH] using rev_ind; [|rewrite foldl_app; by apply group_one_ok].
  split; cbn; [constructor|..].
  - intros s. rewrite lookup_empty. split; [by intros H%not_elem_of_nil|by intros []].
  - intros s i. unfold items_of. rewrite lookup_empty. by intros H%not_elem_of_nil.
  - done.
  - by intros c H%not_elem_of_nil.
  - done.
Qed.
End grouped.

(** ** Enqueueing *)

Lemma queue_at_insert qs shard q : queue_at (<[shard := q]> qs) shard = q.
Proof. unfold queue_at. by rewrite lookup_insert_eq. Qed.
Lemma queue_at_other qs shard shard' q : shard ≠ shard' → queue_at (<[shard := q]> qs) shard' = queue_at qs shard'.
Proof. intros. unfold queue_at. by rewrite lookup_insert_ne. Qed.

Lemma ingest_lua_spec now ttl maxlen evict items flags q :
  let '(flags', q') := foldl (ingest_one now ttl maxlen evict) (flags, q) items in
  length flags' = (length flags + length items)%nat ∧
  (∀ e, e ∈ q_added q' → e ∈ q_added q ∨ ∃ i, i ∈ items ∧ e.2 = Some i.2).
Proof.
  revert flags q. induction items as [|i items IH]; intros flags q; cbn [foldl]; [split; [by cbn; lia|by left]|].
  assert (∃ f q1, ingest_one now ttl maxlen evict (flags, q) i = (flags ++ [f], q1) ∧ ∀ e, e ∈ q_added q1 → e ∈ q_added q ∨ e.2 = Some i.2) as (f & q1 & -> & H1).
  { unfold ingest_one. destruct (marker_fresh _ _ _); [|by eexists _, _; split; [done|by left]]. eexists _, _. split; [done|]. cbn.
    intros e [He|He]%elem_of_app; [by left|]. apply list_elem_of_singleton in He as ->. by right. }
  specialize (IH (flags ++ [f]) q1). destruct (foldl _ _ items) as [flags' q']. destruct IH as [IH1 IH2]. rewrite length_app in IH1. cbn in *. split; [lia|].
  intros e [He|(i' & Hi & E)]%IH2; [|right; exists i'; split; [by apply elem_of_cons; right|done]]. destruct (H1 e He) as [|E]; [by left|].
  right. exists i. split; [apply list_elem_of_here|done].
Qed.

Lemma filter_split (flags : list Z) : (length (filter (λ f, f = 1%Z) flags) + length (filter (λ f, f ≠ 1%Z) flags) = length flags)%nat.
Proof. induction flags as [|f flags IH]; [done|]. rewrite !filter_cons. repeat case_decide; cbn; try done; lia. Qed.

Lemma enqueue_spec fates order shards qs :
  let '(accepted, duplicated, ok, qs') := enqueue cfg fates order shards qs in
  (ok = true → (accepted + duplicated = total order shards)%nat) ∧
  (∀ shard e, e ∈ q_added (queue_at qs' shard) → e ∈ q_added (queue_at qs shard) ∨ ∃ i, i ∈ items_of shards shard ∧ e.2 = Some i.2).
Proof.
  revert fates qs. induction order as [|s order IH]; intros fates qs; cbn [enqueue]; [split; [done|by left]|].
  set (fate := default _ (head fates)). fold (items_of shards s). unfold enqueue_call, ingest_lua.
  pose proof (ingest_lua_spec (ef_now fate) (std_ms (cf_DedupTTL cfg)) (Z.to_nat (cf_StreamMaxLen cfg)) (ef_evict fate) (items_of shards s) [] (queue_at qs s)) as Hl.
  destruct (foldl _ _ _) as [flags q]. destruct Hl as [Hl1 Hl2].
  assert (∀ shard e, e ∈ q_added (queue_at (<[s := q]> qs) shard) → e ∈ q_added (queue_at qs shard) ∨ ∃ i, i ∈ items_of shards shard ∧ e.2 = Some i.2) as Hq.
  { intros shard e. destruct (decide (s = shard)) as [<-|Hne]; [rewrite queue_at_insert; apply Hl2|rewrite queue_at_other by done; by left]. }
  destruct (ef_call fate).
  - specialize (IH (tail fates) (<[s := q]> qs)). destruct (enqueue _ _ order _ _) as [[[accepted duplicated] ok] qs']. destruct IH as [IH1 IH2]. split.
    + intros Hok. specialize (IH1 Hok). pose proof (filter_split flags). unfold total in *. cbn in *. lia.
    + intros shard e [He|He]%IH2; [by apply Hq|by right].
  - specialize (IH (tail fates) qs). destruct (enqueue _ _ order _ _) as [[[accepted duplicated] ok] qs']. by split; [|apply IH].
  - specialize (IH (tail fates) (<[s := q]> qs)). destruct (enqueue _ _ order _ _) as [[[accepted duplicated] ok] qs']. split; [done|].
    intros shard e [He|He]%(proj2 IH); [by apply Hq|by right].
Qed.

Lemma enqueue_other fates order shards qs shard :
  shard ∉ order → let '(_, _, _, qs') := enqueue cfg fates order shards qs in queue_at qs' shard = queue_at qs shard.
Proof.
  revert fates qs. induction order as [|s order IH]; intros fates qs Hs; cbn [enqueue]; [done|]. apply not_elem_of_cons in Hs as [Hne Hs].
  unfold enqueue_call. destruct (ingest_lua _ _ _ _ _ _) as [flags q]. set (f := default _ _).
  destruct (ef_call f); [specialize (IH (tail fates) (<[s := q]> qs) Hs)|specialize (IH (tail fates) qs Hs)|specialize (IH (tail fates) (<[s := q]> qs) Hs)];
    destruct (enqueue _ _ order _ _) as [[[accepted duplicated] ok] qs']; rewrite IH; rewrite ?queue_at_other; done.
Qed.

(** The script runs at most once on a shard, and once if every call is answered. *)
Lemma enqueue_shard fates order shards qs shard :
  NoDup order →
  let '(_, _, ok, qs') := enqueue cfg fates order shards qs in
  (queue_at qs' shard = queue_at qs shard ∧ (ok = true → shard ∉ order)) ∨
  ∃ f, f ∈ fates ∧ queue_at qs' shard =
    (ingest_lua (ef_now f) (std_ms (cf_DedupTTL cfg)) (Z.to_nat (cf_StreamMaxLen cfg)) (ef_evict f) (items_of shards shard) (queue_at qs shard)).2.
Proof.
  revert fates qs. induction order as [|s order IH]; intros fates qs Hd; cbn [enqueue]; [left; split; [done|]; intros _; apply not_elem_of_nil|].
  apply NoDup_cons in Hd as [Hs Hd]. fold (items_of shards s). unfold enqueue_call.
  destruct (ingest_lua _ _ _ _ _ _) as [flags q] eqn:Eq. set (f := default _ _) in *.
  assert (∃ r qs1, match ef_call f with call_done => (Some flags, <[s := q]> qs) | call_lost => (None, qs) | call_timeout => (None, <[s := q]> qs) end = (r, qs1) ∧
    (queue_at qs1 shard = queue_at qs shard ∧ (s = shard → r = None) ∨ s = shard ∧ f ∈ fates ∧ queue_at qs1 shard = q)) as (r & qs1 & -> & Hc).
  { destruct (decide (s = shard)) as [->|Hne]; [|destruct (ef_call f); do 2 eexists; (split; [done|]); left; rewrite ?(queue_at_other _ _ _ _ Hne); done].
    destruct fates as [|f' fates]; [by exists None, qs; split; [|left]|]. cbn in f. assert (f ∈ f' :: fates) by apply list_elem_of_here.
    destruct (ef_call f); do 2 eexists; (split; [done|]); rewrite ?queue_at_insert; by (right + left). }
  specialize (IH (tail fates) qs1 Hd). pose proof (enqueue_other (tail fates) order shards qs1 shard) as Ho. destruct (enqueue _ _ order _ _) as [[[accepted duplicated] ok] qs'].
  assert (∀ f, f ∈ tail fates → f ∈ fates) as Ht by (intros f' Hf; destruct fates; [done|by apply elem_of_cons; right]).
  destruct Hc as [[E Hr]|(-> & Hf & E)].
  - rewrite E in IH. destruct IH as [[E' Hok]|(f' & Hf & E')]; [|destruct r; right; exists f'; (split; [by apply Ht|done])].
    destruct r as [flags'|]; left; (split; [done|]); [|done]. intros Eok [<-|Hin]%elem_of_cons; [by specialize (Hr eq_refl)|by apply Hok].
  - specialize (Ho Hs). destruct r; right; exists f; (split; [done|]); by rewrite Eq, Ho, E.
Qed.

(** ** A request *)

Abbreviation Ingest' := (Ingest Validate SiteByKey cfg).

(** Nothing is enqueued and every report is rejected, or the reports of known leases
    are enqueued. *)
Lemma Ingest_cases a p node reports st res st' :
  Ingest' a (Some p) node reports st = (res, st') →
  let '(rejected, cs) := check_all Validate SiteByKey cfg p reports in
  (st'.2 = st.2 ∧ ∀ accepted duplicated rejected', res = Ingested accepted duplicated rejected' →
     cs = [] ∧ (accepted + duplicated = 0)%nat ∧ rejected' = rejected) ∨
  ∃ known sites accepted duplicated ok,
    lookupLeases cfg cs (at_now a) (at_retain a) st.1 = (Some known, sites) ∧
    let g := groupByShard p (str (sanitizeNode node)) cs known rejected (at_now a) in
    enqueue cfg (at_enqueue a) (gr_order g) (gr_shards g) st.2 = (accepted, duplicated, ok, st'.2) ∧
    res = if ok : bool then Ingested accepted duplicated (gr_rejected g) else IngestFailed accepted duplicated Unavailable.
Proof.
  unfold Ingest. destruct (_ <? _)%nat; [intros [= <- <-]; destruct (check_all _ _ _ p reports); left; by split|].
  destruct reports as [|r reports']; [intros [= <- <-]; cbn; left; split; [done|]; by intros ? ? ? [= <- <- <-]|]. generalize (r :: reports') as reports. clear r reports'. intros reports.
  destruct (check_all _ _ _ p reports) as [rejected cs]. destruct cs as [|c cs']; [intros [= <- <-]; left; split; [done|]; by intros ? ? ? [= <- <- <-]|].
  generalize (c :: cs') as cs. clear c cs'. intros cs.
  destruct (lookupLeases _ _ _ _ _) as [[known|] sites]; [|intros [= <- <-]; left; by split].
  intros H. right. exists known, sites. set (g := groupByShard _ _ _ _ _ _) in *.
  destruct (gr_order g) as [|s order] eqn:Eo.
  - injection H as <- <-. by exists 0%nat, 0%nat, true.
  - destruct (enqueue _ _ _ _ _) as [[[accepted duplicated] ok] qs] eqn:Ee. injection H as <- <-. by exists accepted, duplicated, ok.
Qed.

(** The reports of a shard that a successful request did not reject. *)
Definition acks (shard : Z) (reports : list (option Report)) (res : IngestResult) : list string :=
  match res with
  | Ingested _ _ rejected =>
      rp_ReportId <$> filter (λ r, lr_Shard <$> ParseLeaseID (bs (rp_LeaseId r)) = Some shard ∧ rp_ReportId r ∉ rj_ReportID <$> rejected) (omap id reports)
  | IngestFailed _ _ _ => []
  end.
Definition named (items : list (string * Event)) : Prop := ∀ i, i ∈ items → ev_ReportID i.2 = i.1.

Lemma acks_in shard reports accepted duplicated rejected id :
  id ∈ acks shard reports (Ingested accepted duplicated rejected) →
  ∃ r, Some r ∈ reports ∧ rp_ReportId r = id ∧ lr_Shard <$> ParseLeaseID (bs (rp_LeaseId r)) = Some shard ∧ id ∉ rj_ReportID <$> rejected.
Proof.
  intros (r & -> & Hr)%list_elem_of_fmap. apply list_elem_of_filter in Hr as [[Hs Hn] Hr]. exists r. split; [|done].
  apply list_elem_of_omap in Hr as (x & Hx & E). cbn in E. by subst x.
Qed.

Lemma items_total order shards shard : shard ∈ order → (length (items_of shards shard) ≤ total order shards)%nat.
Proof.
  induction order as [|s order IH]; [by intros ?%not_elem_of_nil|]. unfold total in *. cbn. intros [<-|H]%elem_of_cons; [lia|]. specialize (IH H). lia.
Qed.

(** On a shard a request does nothing, or runs the script on items among which are the
    acknowledged reports. *)
Lemma Ingest_shard a p node reports shard st res st' :
  Ingest' a p node reports st = (res, st') →
  (queue_at st'.2 shard = queue_at st.2 shard ∧ acks shard reports res = []) ∨
  ∃ f items, f ∈ at_enqueue a ∧ named items ∧ (length items ≤ length reports)%nat ∧
    queue_at st'.2 shard =
      (ingest_lua (ef_now f) (std_ms (cf_DedupTTL cfg)) (Z.to_nat (cf_StreamMaxLen cfg)) (ef_evict f) items (queue_at st.2 shard)).2 ∧
    ∀ id, id ∈ acks shard reports res → id ∈ items.*1.
Proof.
  intros H. destruct p as [p|]; [|cbn in H; injection H as <- <-; by left]. apply Ingest_cases in H. pose proof (check_all_spec p reports) as Hc.
  destruct (check_all _ _ _ p reports) as [rejected cs]. destruct Hc as (Hlen & Hcs & Hall).
  destruct H as [[-> Hres]|(known & sites & accepted & duplicated & ok & Hk & Hg)].
  - left. split; [done|]. destruct res as [|accepted duplicated rejected']; [done|]. destruct (Hres _ _ _ eq_refl) as (-> & _ & ->).
    apply elem_of_nil_inv. intros id (r & Hr & <- & _ & Hnot)%acks_in. destruct (Hall r Hr) as [Hx|(c & Hx & _)]; [done|by apply not_elem_of_nil in Hx].
  - destruct (groupByShard_ok p (str (sanitizeNode node)) known (at_now a) rejected cs) as [G1 G2 G3 G4 G5 G6].
    set (g := groupByShard _ _ _ _ _ _) in *. cbn zeta in Hg. destruct Hg as [Hen Hres].
    assert (∀ id, id ∈ acks shard reports res → ok = true ∧ id ∈ (items_of (gr_shards g) shard).*1) as Ha.
    { intros id Hid. destruct ok; [|rewrite Hres in Hid; by apply not_elem_of_nil in Hid]. split; [done|]. rewrite Hres in Hid.
      apply acks_in in Hid as (r & Hr & Eid & Hs & Hnot). destruct (Hall r Hr) as [Hx|(c & Hcin & <-)].
      { exfalso. apply Hnot. apply list_elem_of_fmap in Hx as (rej & Hx & Hrej). rewrite <- Eid, Hx. apply list_elem_of_fmap. exists rej. split; [done|by apply G6]. }
      destruct (G5 c Hcin) as [Hx|Hx]; [by rewrite Eid in Hx|]. destruct (Hcs c Hcin) as [_ (_ & _ & Hp & _)]. rewrite Hp in Hs. injection Hs as <-.
      apply list_elem_of_fmap. eexists. split; [|exact Hx]. by rewrite <- Eid. }
    assert (∀ id, id ∈ (items_of (gr_shards g) shard).*1 → shard ∈ gr_order g) as Hin.
    { intros id Hid. apply G2. unfold items_of in Hid. destruct (gr_shards g !! shard) as [l|]; [by eexists|by apply not_elem_of_nil in Hid]. }
    pose proof (enqueue_shard (at_enqueue a) (gr_order g) (gr_shards g) st.2 shard G1) as Hq. rewrite Hen in Hq.
    destruct Hq as [[Hq Hok]|(f & Hf & Hq)]; [left; split; [done|]; apply elem_of_nil_inv; intros id [E Hid]%Ha; by eapply (Hok E), Hin|].
    right. exists f, (items_of (gr_shards g) shard). split_and!; [done| | |done|by intros id [_ Hid]%Ha].
    + intros i Hi. by apply G3 in Hi as (c & _ & _ & _ & ->).
    + destruct (items_of (gr_shards g) shard) as [|i l] eqn:Ei; [cbn; lia|]. rewrite <- Ei.
      pose proof (items_total (gr_order g) (gr_shards g) shard (Hin i.1 ltac:(apply list_elem_of_here))). lia.
Qed.

(** C13: only reports of leases that the caller may report on get into a stream: every
    entry that a request appends is a report of the batch whose id is well-formed,
    whose lease names the shard and a site of the catalog on which the caller holds
    report:write, in the namespace of a token, and whose lease exists at that site in
    the namespace of the site.  When the request succeeds, its reports are accepted,
    duplicated or rejected, each counted once. *)
Theorem Ingest_sound a p node reports st res st' :
  Ingest' a (Some p) node reports st = (res, st') →
  (∀ shard e, e ∈ q_added (queue_at st'.2 shard) → e ∈ q_added (queue_at st.2 shard) ∨
     ∃ c, Some (cd_report c) ∈ reports ∧ authorised p c ∧ lr_Shard (cd_ref c) = shard ∧
          e.2 = Some (buildEvent p (str (sanitizeNode node)) c (at_now a)) ∧
          lease_ns st.1 (lr_SiteKey (cd_ref c)) (rp_LeaseId (cd_report c)) = si_NamespaceID (cd_site c) ∧ si_NamespaceID (cd_site c) ≠ "") ∧
  (∀ accepted duplicated rejected, res = Ingested accepted duplicated rejected → (accepted + duplicated + length rejected = length reports)%nat).
Proof.
  intros H. apply Ingest_cases in H. pose proof (check_all_spec p reports) as Hc. destruct (check_all _ _ _ p reports) as [rejected cs].
  destruct Hc as (Hlen & Hcs & _). destruct H as [[-> Hres]|(known & sites & accepted & duplicated & ok & Hk & Hg)].
  - split; [by left|]. intros ? ? ? E. destruct (Hres _ _ _ E) as (-> & H0 & ->). cbn in Hlen. lia.
  - destruct (groupByShard_ok p (str (sanitizeNode node)) known (at_now a) rejected cs) as [G1 G2 G3 G4 G5 G6].
    set (g := groupByShard _ _ _ _ _ _) in *. cbn zeta in Hg. destruct Hg as [He Hres].
    pose proof (enqueue_spec (at_enqueue a) (gr_order g) (gr_shards g) st.2) as Hq. rewrite He in Hq. destruct Hq as [Hq1 Hq2]. split.
    + intros shard e [|(i & Hi & E)]%Hq2; [by left|right]. apply G3 in Hi as (c & Hc & Hkn & Hs & ->). exists c. destruct (Hcs c Hc) as [Hin Ha].
      split; [done|]. split; [done|]. split; [done|]. split; [done|]. eapply (lookup_known p cs); [|exact Hk|done|done]. intros c' Hc'. by apply Hcs.
    + intros ? ? ? E. destruct ok; [|by rewrite E in Hres]. rewrite Hres in E. injection E as <- <- <-. specialize (Hq1 eq_refl). lia.
Qed.

(** ** Sending a batch again *)

(** How often a report id was ever appended to the stream. *)
Definition appended (id : string) (q : Queue) : nat := length (filter (λ e : sid * option Event, ev_ReportID <$> e.2 = Some id) (q_added q)).

Section once.
Context (id : string) (t0 : Z) (n0 : nat).
Local Abbreviation ttl := (std_ms (cf_DedupTTL cfg)).

Definition remembered (q : Queue) : Prop := ∃ x, q_dedup q !! id = Some x ∧ t0 + ttl ≤ x ∧ appended id q = S n0.
Definition once (q : Queue) : Prop := (q_dedup q !! id = None ∧ appended id q = n0) ∨ remembered q.
Definition in_window (f : EnqueueFate) : Prop := t0 ≤ ef_now f < t0 + ttl.

Lemma ingest_one_once now maxlen evict flags q item :
  t0 ≤ now < t0 + ttl → ev_ReportID item.2 = item.1 → once q →
  let q' := (ingest_one now ttl maxlen evict (flags, q) item).2 in once q' ∧ (item.1 = id ∨ remembered q → remembered q').
Proof.
  intros Hnow Hn Hq. unfold ingest_one, marker_fresh. destruct (decide (item.1 = id)) as [E|Hne].
  - rewrite E. destruct Hq as [[Hm Hc]|(x & Hm & Hx & Hc)]; rewrite Hm.
    + assert (remembered (ingest_one now ttl maxlen evict (flags, q) item).2) as Hr; [|unfold ingest_one, marker_fresh in Hr; rewrite E, Hm in Hr; split; [by right|done]].
      unfold ingest_one, marker_fresh. rewrite E, Hm. exists (now + ttl). cbn. rewrite lookup_insert_eq. split_and!; [done|lia|].
      unfold appended in *. cbn. rewrite filter_app, length_app, Hc, filter_cons_True by (cbn; by rewrite Hn, E). cbn. lia.
    + destruct (Z.ltb_spec x now); [lia|]. cbn. assert (remembered q) as Hr by (by exists x). split; [by right|done].
  - assert (∀ q1, q_dedup q1 !! id = q_dedup q !! id → appended id q1 = appended id q → once q1 ∧ (item.1 = id ∨ remembered q → remembered q1)) as Hkeep.
    { intros q1 E1 E2. unfold once, remembered in *. rewrite E1, E2. split; [done|]. by intros [|]. }
    destruct (match _ with Some _ => _ | None => _ end); cbn [snd]; [|by apply Hkeep]. apply Hkeep; cbn; [by rewrite lookup_insert_ne|].
    unfold appended. cbn. rewrite filter_app, length_app, filter_cons_False, filter_nil by (cbn; rewrite Hn; congruence). cbn. lia.
Qed.

Lemma ingest_lua_once now maxlen evict items flags q :
  t0 ≤ now < t0 + ttl → named items → once q →
  let q' := (foldl (ingest_one now ttl maxlen evict) (flags, q) items).2 in once q' ∧ (id ∈ items.*1 ∨ remembered q → remembered q').
Proof.
  intros Hnow. revert flags q. induction items as [|i items IH]; intros flags q Hn Hq; cbn [foldl]; [split; [done|]; by intros [H%not_elem_of_nil|]|].
  destruct (ingest_one_once now maxlen evict flags q i Hnow (Hn i (list_elem_of_here _ _)) Hq) as [H1 H2].
  destruct (ingest_one _ _ _ _ _ i) as [flags1 q1]. cbn [snd] in H1, H2.
  destruct (IH flags1 q1 ltac:(intros i' Hi; apply Hn; by apply elem_of_cons; right) H1) as [IH1 IH2]. split; [done|].
  intros [H|H]; [|by apply IH2; right; apply H2; right]. cbn in H. apply elem_of_cons in H as [->|H]; apply IH2; [right; apply H2; by left|by left].
Qed.

End once.

(** A request sent again: others act before it. *)
Record Try := { ty_env : Sites * Queues → Sites * Queues; ty_attempt : Attempt }.
Definition tries (p : option Principal) (node : bytes) (reports : list (option Report)) (ts : list Try) (st : Sites * Queues) : Sites * Queues :=
  foldl (λ st t, (Ingest' (ty_attempt t) p node reports (ty_env t st)).2) st ts.
(** Others leave the report id of the shard alone, and the request is made within the
    dedup window of the first one. *)
Definition try_ok (shard : Z) (id : string) (t0 : Z) (t : Try) : Prop :=
  (∀ st, let q := queue_at st.2 shard in let q' := queue_at (ty_env t st).2 shard in
     q_dedup q' !! id = q_dedup q !! id ∧ appended id q' = appended id q) ∧
  Forall (in_window t0) (at_enqueue (ty_attempt t)).

Lemma Ingest_step p node reports shard id t0 n0 t st res st' :
  try_ok shard id t0 t → once id t0 n0 (queue_at st.2 shard) →
  Ingest' (ty_attempt t) p node reports (ty_env t st) = (res, st') →
  once id t0 n0 (queue_at st'.2 shard) ∧ (id ∈ acks shard reports res → remembered id t0 n0 (queue_at st'.2 shard)).
Proof.
  intros [He Hw] Hq H. assert (once id t0 n0 (queue_at (ty_env t st).2 shard)) as Hq1.
  { destruct (He st) as [E1 E2]. unfold once, remembered in *. by rewrite E1, E2. }
  apply (Ingest_shard _ _ _ _ shard) in H as [[-> ->]|(f & items & Hf & Hn & _ & -> & Ha)]; [split; [done|]; by intros ?%not_elem_of_nil|].
  destruct (ingest_lua_once id t0 n0 (ef_now f) (Z.to_nat (cf_StreamMaxLen cfg)) (ef_evict f) items [] (queue_at (ty_env t st).2 shard)) as [H1 H2];
    [by eapply (Forall_forall (in_window t0))|done|done|]. split; [exact H1|]. intros Hid%Ha. apply H2. by left.
Qed.

(** C14: a batch may be sent again: whatever became of the calls of earlier requests,
    within the dedup window a report id is appended at most once to the stream of its
    shard, and when a request succeeds, exactly once for every report that it did not
    reject. *)
Theorem Ingest_once p node reports ts t shard id t0 st res st' :
  q_dedup (queue_at st.2 shard) !! id = None → Forall (try_ok shard id t0) ts → try_ok shard id t0 t →
  Ingest' (ty_attempt t) p node reports (ty_env t (tries p node reports ts st)) = (res, st') →
  let before := appended id (queue_at st.2 shard) in
  let after := appended id (queue_at st'.2 shard) in
  (after ≤ before + 1)%nat ∧ (id ∈ acks shard reports res → after = (before + 1)%nat).
Proof.
  intros H0 Hts Ht Hrun before after. assert (once id t0 before (queue_at (tries p node reports ts st).2 shard)) as Hq.
  { assert (once id t0 before (queue_at st.2 shard)) as Hq by (by left). clear Ht Hrun H0. revert Hq. generalize st as st1. subst before.
    induction Hts as [|t1 ts Ht1 _ IH]; intros st1 Hq; [done|]. apply IH.
    destruct (Ingest' (ty_attempt t1) p node reports (ty_env t1 st1)) as [res1 st2] eqn:E. by eapply Ingest_step. }
  destruct (Ingest_step p node reports shard id t0 before t _ res st' Ht Hq Hrun) as [H1 H2]. split.
  - destruct H1 as [[_ E]|(x & _ & _ & E)]; unfold after; lia.
  - intros (x & _ & _ & E)%H2. unfold after. lia.
Qed.
End accepted.

(** ** A request *)

#[local] Existing Instance flat_math.

Definition demo_cfg : Config := NewIngestor {| cf_ReportShards := 0; cf_DedupTTL := 0; cf_StreamMaxLen := 0; cf_LateReportWindow := 0 |}.
Definition demo_catalog (key : Z) : option SiteInfo :=
  if key =? 1 then Some {| si_SiteID := "s1"; si_SiteName := "shop"; si_NamespaceID := "ns-1"; si_NamespaceName := "prod"; si_TenantID := "ten-1" |} else None.
Definition demo_token : Principal :=
  {| pr_Kind := KindToken; pr_ID := "tok"; pr_Name := "node"; pr_TenantID := "ten-1"; pr_NamespaceID := "ns-1"; pr_NamespaceName := "prod";
     pr_IsPlatformAdmin := false; pr_Bindings := []; pr_Scopes := [{| sc_Raw := bs "report:write"; sc_Name := ScopeReportWrite; sc_Arg := [] |}] |}.
Definition demo_request (id lid : string) : option Report :=
  Some {| rp_ReportId := id; rp_LeaseId := lid; rp_Facts := ev_Facts demo_event; rp_StartedAt := Some (1, 500000000); rp_FinishedAt := Some (1, 900000000);
          rp_Release := true |}.
(** The second report is of a lease of another shard that does not exist. *)
Definition demo_batch : list (option Report) :=
  [demo_request "r-1" demo_lid; demo_request "r-2" (str (LeasePrefix (replicate 32 "b"%char) 1 ++ FormatShard 11)); demo_request "r 3" demo_lid; None].
Definition demo_attempt (now : Z) (fate : CallFate) : Attempt :=
  {| at_now := now * 1000000; at_retain := [call_done]; at_enqueue := [{| ef_call := fate; ef_now := now; ef_evict := 0 |}] |}.
Local Abbreviation demo_Ingest := (Ingest (λ _, None) demo_catalog demo_cfg).

Lemma Ingest_sound_witness :
  let '(res, st') := demo_Ingest (demo_attempt 2000 call_done) (Some demo_token) [] demo_batch (demo_sites_leased, ∅) in
  (∃ rejected, res = Ingested 1 0 rejected ∧ (1 + 0 + length rejected = 4)%nat) ∧ appended "r-1" (queue_at st'.2 10) = 1%nat.
Proof.
  destruct (demo_Ingest _ _ _ _ _) as [res st'] eqn:E.
  assert (∃ rejected, res = Ingested 1 0 rejected) as [rejected Hr].
  { apply (f_equal fst) in E. cbn [fst] in E. subst res. eexists. vm_compute. reflexivity. }
  split; [|apply (f_equal (λ r, appended "r-1" (queue_at r.2.2 10))) in E; cbn in E; rewrite <- E; vm_compute; reflexivity].
  exists rejected. split; [exact Hr|].
  exact (proj2 (Ingest_sound (λ _, None) demo_catalog demo_cfg (demo_attempt 2000 call_done) demo_token [] demo_batch (demo_sites_leased, ∅) res st' E) 1%nat 0%nat rejected Hr).
Defined.

(** The first request is answered by an error although its reports were appended. *)
Definition demo_try (now : Z) (fate : CallFate) : Try := {| ty_env := λ st, st; ty_attempt := demo_attempt now fate |}.
Lemma demo_try_ok now fate : 2000 ≤ now < 3000 → try_ok demo_cfg 10 "r-1" 2000 (demo_try now fate).
Proof. intros Hn. split; [done|]. constructor; [|done]. unfold in_window. cbn [ef_now]. change (std_ms (cf_DedupTTL demo_cfg)) with 3600000. lia. Qed.

Lemma Ingest_once_witness :
  let st := (demo_sites_leased, ∅) in
  let st1 := tries (λ _, None) demo_catalog demo_cfg (Some demo_token) [] demo_batch [demo_try 2000 call_timeout] st in
  let '(res, st') := demo_Ingest (demo_attempt 2500 call_done) (Some demo_token) [] demo_batch st1 in
  (∃ rejected, res = Ingested 0 1 rejected) ∧ (appended "r-1" (queue_at st'.2 10) ≤ 1)%nat.
Proof.
  intros st st1. destruct (demo_Ingest _ _ _ _ _) as [res st'] eqn:E. split.
  - apply (f_equal fst) in E. cbn [fst] in E. subst res. eexists. vm_compute. reflexivity.
  - refine (proj1 (Ingest_once (λ _, None) demo_catalog demo_cfg (Some demo_token) [] demo_batch [demo_try 2000 call_timeout] (demo_try 2500 call_done)
      10 "r-1" 2000 st res st' _ _ _ E)); [vm_compute; reflexivity| |apply demo_try_ok; lia].
    constructor; [apply demo_try_ok; lia|constructor].
Defined.
