(* ===== verification/ReportPath.v ===== *)
(** * From the request to the pipeline

    A shard of the report stream with both ends: the requests that append to it
    ([SignalIngest]) and the consumer that processes it ([WorkerConsume]) run on one
    state, where requests come in between any two calls of the consumer.  What a
    request acknowledged is not lost, whatever fails. *)

From S2P Require Import Prelude GoStrings GoFloat PolicyBase PolicySignal GoTime LuaCommon PolicyAction PolicyRotation PolicySeverity PolicyEvaluate PolicyResolve Breaker IdGen.
From S2P Require Import SchedState SchedSelect SchedAcquire SchedLease SchedLedger SchedRefine SchedGrant SchedLoop SchedRun Scheduler.
From S2P Require Import HotSync ActionApply ActionExec WorkerObserve SiteScripts SiteRun Effects WorkerProcess ReportStream Authz WorkerConsume SignalIngest.

Local Open Scope Z_scope.

(** ** Requests beside the consumer *)

Record Request := { rq_attempt : Attempt; rq_caller : option Principal; rq_node : bytes; rq_reports : list (option Report) }.

(** What the consumer does not touch: the dedup markers and the other shards.
    [bs_acked] collects the reports of the shard that requests acknowledged. *)
Record Beside := { bs_queues : Queues; bs_acked : list string }.
Abbreviation System := (World * Beside)%type.

Section path.
Context `{RE : RegexEngine} {lua : LuaMath} (Validate : Report → option bytes) (SiteByKey : Z → option SiteInfo) (cfg : Config) (shard : Z).

Definition queue_of (s : System) : Queue :=
  {| q_stream := wd_stream s.1; q_dedup := q_dedup (queue_at (bs_queues s.2) shard); q_added := wd_added s.1; q_evicted := wd_evicted s.1 |}.
Definition with_queue (sites : Sites) (q : Queue) (w : World) : World :=
  {| wd_stream := q_stream q; wd_sites := sites; wd_hist := wd_hist w; wd_added := q_added q; wd_evicted := q_evicted q |}.

Definition request (rq : Request) (s : System) : System :=
  let '(res, st) :=
    Ingest Validate SiteByKey cfg (rq_attempt rq) (rq_caller rq) (rq_node rq) (rq_reports rq) (wd_sites s.1, <[shard := queue_of s]> (bs_queues s.2)) in
  (with_queue st.1 (queue_at st.2 shard) s.1, {| bs_queues := st.2; bs_acked := bs_acked s.2 ++ acks shard (rq_reports rq) res |}).

(** The next [n] ids of the stream are 64-bit numbers. *)
Definition room (n : nat) (top : sid) : Prop := numeral top.1 ∧ 0 ≤ top.2 ∧ top.2 + Z.of_nat n < 10 ^ 20.
Definition request_ok (rq : Request) (s : System) : Prop :=
  Forall (λ f, numeral (ef_now f)) (at_enqueue (rq_attempt rq)) ∧ room (length (rq_reports rq)) (x_top (wd_stream s.1)).

Inductive sys_step (s : System) : System → Prop :=
| sys_request rq : request_ok rq s → sys_step s (request rq s)
| sys_sites sites : quiet_sites shard (wd_sites s.1) sites →
    sys_step s ({| wd_stream := wd_stream s.1; wd_sites := sites; wd_hist := wd_hist s.1; wd_added := wd_added s.1; wd_evicted := wd_evicted s.1 |}, s.2).

(** ** A request is what the consumer allows *)

Lemma room_next n now top : room (S n) top → numeral now → stream_id (next_id now top) ∧ room n (next_id now top).
Proof. unfold room, stream_id, numeral, next_id. intros (H1 & H2 & H3) Hn. destruct (Z.ltb_spec top.1 now); cbn [fst snd]; lia. Qed.

Lemma ingest_lua_env now ttl maxlen evict items sites flags q w :
  numeral now → room (length items) (x_top (q_stream q)) →
  rtc (env_step shard) (with_queue sites q w) (with_queue sites (foldl (ingest_one now ttl maxlen evict) (flags, q) items).2 w).
Proof.
  intros Hn. revert flags q. induction items as [|i items IH]; intros flags q Hr; cbn [foldl]; [done|].
  destruct (room_next _ now _ Hr Hn) as [Hs Hr']. unfold ingest_one at 2. destruct (marker_fresh now i.1 q).
  - eapply rtc_l; [|by apply IH]. apply (env_append shard (with_queue sites q w) now maxlen evict (Some i.2) Hs).
  - apply IH. destruct Hr as (? & ? & ?). split_and!; [done|done|]. cbn [length] in *. lia.
Qed.

Lemma retain_all_obs now fates calls sites k : s_obs (site_at (retain_all cfg now fates calls sites).2 k) = s_obs (site_at sites k).
Proof.
  revert fates sites. induction calls as [|c calls IH]; intros fates sites; cbn [retain_all]; [done|]. unfold retain_call.
  set (f := λ s : Site, _). pose proof (site_call_at (default call_lost (head fates)) c.1.1 f sites k) as Hs.
  destruct (site_call _ _ _ sites) as [r sites1]. cbn [snd] in Hs. specialize (IH (tail fates) sites1). destruct (retain_all _ _ _ _ _) as [rs sites2].
  cbn [snd] in *. rewrite IH. destruct Hs as [->|[-> ->]]; [done|]. subst f. cbn beta. by destruct (lease_retain_lua _ _ _ _ _ _).
Qed.
Lemma Ingest_obs a p node reports st k :
  s_obs (site_at (Ingest Validate SiteByKey cfg a p node reports st).2.1 k) = s_obs (site_at st.1 k).
Proof.
  unfold Ingest. destruct p as [p|]; [|done]. destruct (_ <? _)%nat; [done|]. destruct reports as [|r reports]; [done|].
  destruct (check_all _ _ _ p _) as [rejected [|c cs]]; [done|]. unfold lookupLeases.
  pose proof (retain_all_obs (at_now a) (at_retain a) (retain_calls (collect (c :: cs))) st.1 k) as H. destruct (retain_all _ _ _ _ _) as [rs sites].
  destruct (mapM id rs) as [outs|]; [|done]. destruct (gr_order _); [done|]. by destruct (enqueue _ _ _ _ _) as [[[accepted duplicated] ok] qs].
Qed.
(** ** Who is in the stream *)

Definition holds_report (added : list Entry) (id : string) : Prop := ∃ e, e ∈ added ∧ ev_ReportID <$> e.2 = Some id.
Definition backed (q : Queue) : Prop := ∀ id, is_Some (q_dedup q !! id) → holds_report (q_added q) id.

Lemma holds_app l l' id : holds_report l id → holds_report (l ++ l') id.
Proof. intros (e & He & E). exists e. split; [by apply elem_of_app; left|done]. Qed.

(** What a script leaves: the entries it found, and one for every marker and for every
    report of the call. *)
Record fills (items : list (string * Event)) (q q' : Queue) : Prop := {
  fi_added : ∀ id, holds_report (q_added q) id → holds_report (q_added q') id;
  fi_backed : backed q';
  fi_items : ∀ i, i ∈ items → holds_report (q_added q') i.1;
}.

Lemma ingest_lua_fills now ttl maxlen evict items flags q :
  named items → backed q → fills items q (foldl (ingest_one now ttl maxlen evict) (flags, q) items).2.
Proof.
  revert flags q. induction items as [|i items IH]; intros flags q Hn Hb; cbn [foldl]; [by split; [| |intros i Hi%not_elem_of_nil]|].
  assert (∃ flags1 q1, ingest_one now ttl maxlen evict (flags, q) i = (flags1, q1) ∧ fills [i] q q1) as (flags1 & q1 & -> & [A1 A2 A3]).
  { unfold ingest_one, marker_fresh. specialize (Hn i (list_elem_of_here _ _)).
    assert (∀ q', q_added q' = q_added q → q_dedup q' = q_dedup q → is_Some (q_dedup q !! i.1) → fills [i] q q') as Hold.
    { intros q' E1 E2 Hm. split; [by rewrite E1|unfold backed; by rewrite E1, E2|]. intros i' ->%list_elem_of_singleton. rewrite E1. by apply Hb. }
    destruct (match _ with Some _ => _ | None => _ end) eqn:E.
    - do 2 eexists. split; [done|]. set (e := (_, _)).
      assert (holds_report (q_added q ++ [e]) i.1) as Hi by (exists e; split; [by apply elem_of_app; right; apply list_elem_of_here|cbn; by rewrite Hn]).
      split; cbn; [intros id; apply holds_app| |by intros i' ->%list_elem_of_singleton].
      intros id. cbn. destruct (decide (i.1 = id)) as [<-|Hne]; [done|]. rewrite lookup_insert_ne by done. intros H. by apply holds_app, Hb.
    - do 2 eexists. split; [done|]. apply Hold; [done|done|]. by destruct (q_dedup q !! i.1). }
  destruct (IH flags1 q1 ltac:(intros i' Hi; apply Hn; by apply elem_of_cons; right) A2) as [B1 B2 B3]. split; [by intros id Hid%A1; apply B1|done|].
  intros i' [->|Hi]%elem_of_cons; [apply B1, A3, list_elem_of_here|by apply B3].
Qed.

Lemma queue_at_self s : queue_at (<[shard := queue_of s]> (bs_queues s.2)) shard = queue_of s.
Proof. apply queue_at_insert. Qed.
Lemma queue_of_request sites qs w acked : queue_of (with_queue sites (queue_at qs shard) w, {| bs_queues := qs; bs_acked := acked |}) = queue_at qs shard.
Proof. unfold queue_of. cbn. by destruct (queue_at qs shard). Qed.

(** Every marker of the shard and every acknowledged report has its entry. *)
Definition sys_backed (s : System) : Prop := backed (queue_of s) ∧ ∀ id, id ∈ bs_acked s.2 → holds_report (wd_added s.1) id.

Lemma request_spec rq s : request_ok rq s → rtc (env_step shard) s.1 (request rq s).1 ∧ (sys_backed s → sys_backed (request rq s)).
Proof.
  intros [Hclock Hroom]. unfold request. set (st := (wd_sites s.1, <[shard := queue_of s]> (bs_queues s.2))).
  pose proof (Ingest_obs (rq_attempt rq) (rq_caller rq) (rq_node rq) (rq_reports rq) st) as Hobs.
  destruct (Ingest _ _ _ _ _ _ _ _) as [res st'] eqn:E. cbn [snd] in Hobs.
  apply (Ingest_shard _ _ _ _ _ _ _ shard) in E. subst st. cbn [snd fst] in *. rewrite queue_at_self in E.
  assert (rtc (env_step shard) s.1 (with_queue st'.1 (queue_of s) s.1)) as Hsites.
  { apply rtc_once. apply (env_sites shard s.1 st'.1). intros k. by rewrite Hobs. }
  unfold sys_backed. rewrite queue_of_request. cbn [fst snd bs_acked wd_added with_queue].
  destruct E as [[-> ->]|(f & items & Hf & Hn & Hlen & -> & Ha)]; [rewrite app_nil_r; by split|]. split.
  - etrans; [exact Hsites|]. apply ingest_lua_env; [by eapply (Forall_forall (λ f, numeral (ef_now f)))|].
    destruct Hroom as (? & ? & ?). split_and!; [done|done|]. cbn [queue_of q_stream]. lia.
  - intros [Hb Hk]. destruct (ingest_lua_fills (ef_now f) (std_ms (cf_DedupTTL cfg)) (Z.to_nat (cf_StreamMaxLen cfg)) (ef_evict f) items [] _ Hn Hb) as [F1 F2 F3].
    split; [exact F2|]. intros id [Hid|Hid]%elem_of_app; [by apply F1, Hk|]. apply Ha, list_elem_of_fmap in Hid as (i & -> & Hi). by apply F3.
Qed.

Lemma sys_step_spec s s' : sys_step s s' → rtc (env_step shard) s.1 s'.1 ∧ (sys_backed s → sys_backed s').
Proof. intros [rq Hrq|sites Hq]; [by apply request_spec|]. split; [|done]. by apply rtc_once, (env_sites shard s.1 sites). Qed.
Lemma sys_steps_spec s s' : rtc sys_step s s' → rtc (env_step shard) s.1 s'.1 ∧ (sys_backed s → sys_backed s').
Proof.
  induction 1 as [s|s s1 s' H _ [IH1 IH2]]; [done|]. apply sys_step_spec in H as [H1 H2]. split; [by etrans|]. intros Hs. by apply IH2, H2.
Qed.

(** ** Consumers and requests together *)

(** A consumer, as [Session] but with requests in between its calls. *)
Record Run := {
  rn_instance : Instance; rn_loops : nat; rn_calls : nat; rn_env : nat → System → System; rn_fates : nat → Fate shard;
}.
Definition run_ok (r : Run) : Prop := (0 < cf_BatchSize (rn_instance r))%nat ∧ ∀ n s, rtc sys_step s (rn_env r n s).
Definition run (sv : Services) (lossy : bool) (s : System) (r : Run) : System :=
  (Effects.interp (exec_beside (exec_stream sv shard lossy (rn_instance r))) (λ _ _ _, @nil unit) (rn_env r) (rn_fates r) (rn_calls r)
     (consume (rn_instance r) (rn_loops r)) s).2.
Definition new_system (sites : Sites) : System := (empty_world sites, {| bs_queues := ∅; bs_acked := [] |}).

Lemma exec_added sv lossy inst X fate (c : scmd X) w : wd_added (exec_stream sv shard lossy inst X fate c w).2 = wd_added w.
Proof.
  destruct c; cbn; unfold stream_call, run_event; try done; try (by destruct (f_call shard fate)).
  - by destruct (f_call shard fate), lossy.
  - by destruct (match e.2 with Some _ => _ | None => _ end) as [[r l] sites].
Qed.
Lemma exec_backed sv lossy inst X fate (c : scmd X) s : sys_backed s → sys_backed (exec_beside (exec_stream sv shard lossy inst) X fate c s).2.
Proof.
  unfold exec_beside. pose proof (exec_added sv lossy inst X fate c s.1) as E. destruct (exec_stream _ _ _ _ _ _ _ _) as [r w]. cbn [snd] in E.
  unfold sys_backed, backed, queue_of. cbn. by rewrite E.
Qed.

Lemma run_keeps sv lossy s r :
  run_ok r → world_ok shard lossy s.1 → sys_backed s → world_ok shard lossy (run sv lossy s r).1 ∧ sys_backed (run sv lossy s r).
Proof.
  intros [Hb He] K Hs. unfold run.
  pose proof (wp_beside (exec_stream sv shard lossy (rn_instance r)) (λ _ _ _, []) (rtc (env_step shard)) (rtc sys_step) sys_backed _ _ _ _ s
    sys_steps_spec (exec_backed sv lossy (rn_instance r)) Hs (sat_consume shard lossy sv (rn_instance r) Hb (rn_loops r) [] s.1 K I)) as W.
  pose proof (wp_interp _ _ _ _ _ _ _ _ (rn_env r) (rn_fates r) (rn_calls r) He W) as H.
  destruct (Effects.interp _ _ _ _ _ _ _) as [[x l] s']. apply H.
Qed.

(** C9: an acknowledged report is not lost: requests arrive in between any two calls of
    the consumers of a shard, calls of either are lost, time out or fail, consumers
    die anywhere.  At every point each report of the shard that a request answered
    without rejecting it, as accepted or as duplicated, has an entry that waits in
    the stream, unknown to the group or pending, unless it was processed to the end or
    the cap of the stream evicted it.  In particular a trim never removes an
    unprocessed report. *)
Theorem acknowledged_kept sv lossy runs sites id :
  (∀ k, ckpt sites k shard = None) → Forall run_ok runs →
  let s := foldl (run sv lossy) (new_system sites) runs in
  id ∈ bs_acked s.2 →
  ∃ e, e ∈ wd_added s.1 ∧ ev_ReportID <$> e.2 = Some id ∧ (waiting s.1 e.1 ∨ processed s.1 e.1 ∨ evicted s.1 e.1).
Proof.
  intros Hs Hruns s. assert (world_ok shard lossy s.1 ∧ sys_backed s) as [K [_ Hk]].
  { assert (world_ok shard lossy (new_system sites).1 ∧ sys_backed (new_system sites)) as H.
    { split; [by apply empty_ok|]. split; [|by intros ? ?%not_elem_of_nil]. intros id' [x Hx]. exfalso. revert Hx. unfold queue_of, queue_at. cbn. by rewrite !lookup_empty. }
    subst s. revert H. generalize (new_system sites) as s. induction Hruns as [|r runs Hr _ IH]; intros s [K Hb]; [done|]. by apply IH, run_keeps. }
  intros (e & He & E)%Hk. exists e. split; [done|]. split; [done|]. apply (ok_kept shard lossy s.1 K).
  unfold added, id_in. apply list_elem_of_fmap. by exists e.
Qed.
End path.

(** ** A run *)

#[local] Existing Instance flat_math.
#[local] Existing Instance literal_engine.

#[local] Instance room_dec n top : Decision (room n top).
Proof. unfold room, numeral. apply _. Defined.

(** The request of [SignalIngest] arrives before the first call of the consumer, and
    its answer is lost; it is sent again before the tenth. *)
Definition demo_rq (now : Z) (fate : CallFate) : Request :=
  {| rq_attempt := demo_attempt now fate; rq_caller := Some demo_token; rq_node := []; rq_reports := demo_batch |}.
Definition demo_arrives (now : Z) (fate : CallFate) (s : System) : System :=
  if decide (room 4 (x_top (wd_stream s.1))) then request (λ _, None) demo_catalog demo_cfg 10 (demo_rq now fate) s else s.
Definition demo_together : Run 10 :=
  {| rn_instance := {| cf_InstanceID := "a"; cf_BatchSize := 1; cf_TrimInterval := 0 |}; rn_loops := 5; rn_calls := 40;
     rn_env := λ n s, if (n =? 39)%nat then demo_arrives 2000 call_timeout s else if (n =? 30)%nat then demo_arrives 2500 call_done s else s;
     rn_fates := λ n, demo_fate call_done (n <=? 20)%nat |}.

Lemma demo_together_ok : run_ok (λ _, None) demo_catalog demo_cfg 10 demo_together.
Proof.
  split; [cbn; lia|]. intros n s. cbn [rn_env demo_together].
  assert (∀ now fate, numeral now → rtc (sys_step (λ _, None) demo_catalog demo_cfg 10) s (demo_arrives now fate s)) as H.
  { intros now fate Hn. unfold demo_arrives. case_decide; [|done]. apply rtc_once, sys_request. split; [|done]. by constructor. }
  destruct (_ =? 39)%nat; [apply H; unfold numeral; lia|]. destruct (_ =? 30)%nat; [apply H; unfold numeral; lia|done].
Qed.

Lemma acknowledged_kept_witness :
  let s := foldl (run 10 demo_services true) (new_system demo_sites_leased) [demo_together] in
  bs_acked s.2 = ["r-1"] ∧
  ∃ e, e ∈ wd_added s.1 ∧ ev_ReportID <$> e.2 = Some "r-1" ∧ (waiting s.1 e.1 ∨ processed s.1 e.1 ∨ evicted s.1 e.1).
Proof.
  intros s. assert (bs_acked s.2 = ["r-1"]) as Ha by (vm_compute; reflexivity). split; [exact Ha|].
  refine (acknowledged_kept (λ _, None) demo_catalog demo_cfg 10 demo_services true [demo_together] demo_sites_leased "r-1" demo_no_ckpt _ _).
  - constructor; [apply demo_together_ok|constructor].
  - change (foldl _ _ _) with s. rewrite Ha. apply list_elem_of_here.
Defined.
