(* ===== verification/WorkerOwner.v ===== *)
(** * The ownership of shards

    internal/worker/ownership.go, registry.lua and internal/store/redis/lock.go: the
    instances of the worker register with heartbeats, divide the shards of the report
    stream among them by locks that expire, and run a consumer for every shard they
    own.  The loop of an instance is a program of calls; the goroutines that wait for
    a consumer to stop, the consumers and the clock take steps in between.  The
    theorems show that two consumers of a shard run at the same time only when the
    lock of one was not renewed for longer than its time to live, and that two rounds
    of heartbeats of the live instances leave every shard owned and balanced. *)

From S2P Require Import Prelude GoStrings GoFloat PolicyBase PolicySignal GoTime LuaCommon PolicyAction PolicyRotation PolicySeverity PolicyEvaluate PolicyResolve Breaker IdGen.
From S2P Require Import ActionExec Effects.

Local Open Scope Z_scope.
Local Open Scope prog_scope.

(** ** Locks and the registry *)

(** The holder of a lock and when it expires; a key is gone once its expiry is past. *)
Abbreviation Locks := (gmap Z (string * Z)).
Definition lock_live (now : Z) (l : string * Z) : bool := now <=? l.2.
Definition held (locks : Locks) (now shard : Z) : option string :=
  match locks !! shard with Some l => if lock_live now l then Some l.1 else None | None => None end.

Definition lockArgs (owner : string) (ttl : Z) : option Z :=
  let ms := std_ms ttl in if String.eqb owner "" || (ms <? 1) then None else Some ms.

(** The scripts of the locks, run at the time [now] of the server. *)
Definition TryLock (now ms shard : Z) (owner : string) (locks : Locks) : bool * Locks :=
  match held locks now shard with Some _ => (false, locks) | None => (true, <[shard := (owner, now + ms)]> locks) end.
Definition RefreshLock (now ms shard : Z) (owner : string) (locks : Locks) : bool * Locks :=
  if decide (held locks now shard = Some owner) then (true, <[shard := (owner, now + ms)]> locks) else (false, locks).
Definition Unlock (now shard : Z) (owner : string) (locks : Locks) : Locks :=
  if decide (held locks now shard = Some owner) then delete shard locks else locks.

(** registry.lua: heartbeats by instance.  The caller sorts the live members. *)
Definition registry_lua (beat : bool) (id : string) (window now : Z) (reg : gmap string Z) : list string * gmap string Z :=
  let cutoff := now - window in
  let reg := if beat then filter (λ m, cutoff ≤ m.2) (<[id := now]> reg) else reg in
  ((map_to_list (filter (λ m, cutoff ≤ m.2) reg)).*1, reg).

(** ** Instances *)

Inductive shardPhase := phaseOwned | phaseReleasing | phaseLost.
#[export] Instance shardPhase_eq_dec : EqDecision shardPhase.
Proof. solve_decision. Defined.

(** [done] is whether the consumer has stopped; [sh_shard] is the shard it consumes. *)
Record shardState := { sh_phase : shardPhase; sh_cancelled : bool; sh_done : bool; sh_lastRefresh : Z; sh_shard : Z }.
#[export] Instance shardState_eq_dec : EqDecision shardState.
Proof. solve_decision. Defined.
Definition set_phase (p : shardPhase) (st : shardState) : shardState :=
  {| sh_phase := p; sh_cancelled := true; sh_done := sh_done st; sh_lastRefresh := sh_lastRefresh st; sh_shard := sh_shard st |}.
Definition touch (now : Z) (st : shardState) : shardState :=
  {| sh_phase := sh_phase st; sh_cancelled := sh_cancelled st; sh_done := sh_done st; sh_lastRefresh := now; sh_shard := sh_shard st |}.
Definition stop (st : shardState) : shardState :=
  {| sh_phase := sh_phase st; sh_cancelled := sh_cancelled st; sh_done := true; sh_lastRefresh := sh_lastRefresh st; sh_shard := sh_shard st |}.

(** The goroutines that wait for a consumer: [t_release] unlocks and forgets the shard
    then, [t_forget] only forgets it. *)
Inductive Task := t_release (shard : Z) (a : nat) | t_forget (shard : Z) (a : nat).
#[export] Instance Task_eq_dec : EqDecision Task.
Proof. solve_decision. Defined.

(** A running process: the objects of its shards by address, the table of shards, the
    goroutines, whether its context is cancelled, and whether it shuts down. *)
Record Inst := {
  in_heap : list shardState; in_shards : gmap Z nat; in_tasks : list Task; in_ctx : bool; in_closing : bool;
}.
Definition new_inst : Inst := {| in_heap := []; in_shards := ∅; in_tasks := []; in_ctx := false; in_closing := false |}.
Definition on_heap (a : nat) (f : shardState → shardState) (w : Inst) : Inst :=
  {| in_heap := alter f a (in_heap w); in_shards := in_shards w; in_tasks := in_tasks w; in_ctx := in_ctx w; in_closing := in_closing w |}.
Definition on_table (f : gmap Z nat → gmap Z nat) (w : Inst) : Inst :=
  {| in_heap := in_heap w; in_shards := f (in_shards w); in_tasks := in_tasks w; in_ctx := in_ctx w; in_closing := in_closing w |}.
Definition on_tasks (f : list Task → list Task) (w : Inst) : Inst :=
  {| in_heap := in_heap w; in_shards := in_shards w; in_tasks := f (in_tasks w); in_ctx := in_ctx w; in_closing := in_closing w |}.

(** The instances on one Redis.  [cl_granted] notes for the specification when the last
    successful lock call of an instance ran on a shard. *)
Record Cluster := {
  cl_now : Z; cl_registry : gmap string Z; cl_locks : Locks; cl_insts : gmap string Inst; cl_granted : gmap (string * Z) Z;
}.
Definition inst_at (cl : Cluster) (i : string) : Inst := default new_inst (cl_insts cl !! i).
Definition on_inst (i : string) (f : Inst → Inst) (cl : Cluster) : Cluster :=
  {| cl_now := cl_now cl; cl_registry := cl_registry cl; cl_locks := cl_locks cl; cl_insts := alter f i (cl_insts cl); cl_granted := cl_granted cl |}.

(** [startShard]: the consumer starts. *)
Definition startShard (now shard : Z) (w : Inst) : Inst :=
  {| in_heap := in_heap w ++ [{| sh_phase := phaseOwned; sh_cancelled := false; sh_done := false; sh_lastRefresh := now; sh_shard := shard |}];
     in_shards := <[shard := length (in_heap w)]> (in_shards w); in_tasks := in_tasks w; in_ctx := in_ctx w; in_closing := in_closing w |}.
Definition phase_of (w : Inst) (a : nat) : option shardPhase := sh_phase <$> in_heap w !! a.
Definition releaseShard (shard : Z) (w : Inst) : Inst :=
  match in_shards w !! shard with
  | Some a =>
      if decide (phase_of w a = Some phaseOwned) then on_tasks (λ ts, ts ++ [t_release shard a]) (on_heap a (set_phase phaseReleasing) w) else w
  | None => w
  end.
Definition loseShard (shard : Z) (a : nat) (w : Inst) : Inst :=
  if decide (in_shards w !! shard = Some a ∧ phase_of w a = Some phaseOwned)
  then on_tasks (λ ts, ts ++ [t_forget shard a]) (on_heap a (set_phase phaseLost) w) else w.
Definition forgetShard (shard : Z) (a : nat) (w : Inst) : Inst :=
  if decide (in_shards w !! shard = Some a) then on_table (delete shard) w else w.

(** ** The program of an instance *)

Record OwnerConfig := {
  oc_ReportShards : Z; oc_LiveWindow : Z; oc_OwnerTTL : Z; oc_OwnerRefresh : Z;
}.

(** What wakes the loop. *)
Inductive Wake := wake_done | wake_heartbeat | wake_refresh | wake_pending.

(** Calls of Redis answer [None] on an error. The others are the critical sections on
    the table and what else the loop asks for. *)
Inductive ocmd : Type → Type :=
| o_err : ocmd bool
| o_now : ocmd Z
| o_wake : ocmd Wake
| o_registry (beat : bool) : ocmd (option (list string))
| o_table : ocmd (list (Z * nat * shardState))
| o_try (shard : Z) : ocmd (option bool)
| o_refresh (shard : Z) : ocmd (option bool)
| o_unlock (shard : Z) : ocmd (option unit)
| o_start (shard : Z) : ocmd unit
| o_release (shard : Z) : ocmd unit
| o_lose (shard : Z) (a : nat) : ocmd unit
| o_touch (a : nat) : ocmd unit
| o_close : ocmd (list (Z * nat))
| o_cancel (a : nat) : ocmd unit
| o_wait (a : nat) : ocmd bool
| o_bgwait : ocmd unit
| o_phase (a : nat) : ocmd shardPhase
| o_forget (shard : Z) (a : nat) : ocmd unit
| o_leave : ocmd (option unit).

Section program.
Variables (cfg : OwnerConfig) (id : string).

Definition registry (beat : bool) : prog ocmd (option (list string)) :=
  r <- call (o_registry beat) ;; Ret (SortFunc string_compare <$> r).

(** index and number of the live members *)
Definition index_of (live : list string) : option nat := fst <$> list_find (λ j, j = id) live.
Definition Membership : prog ocmd (option (option nat * nat)) :=
  r <- registry false ;; Ret ((λ live, (index_of live, length live)) <$> r).

Definition acquireShard (shard : Z) : prog ocmd (option bool) :=
  r <- call (o_try shard) ;;
  match r with
  | Some false => call (o_refresh shard)
  | _ => Ret r
  end.

Fixpoint release_all (shards : list Z) : prog ocmd unit :=
  match shards with [] => Ret tt | s :: shards => call (o_release s) ;; release_all shards end.

(** The loop over [k] from [ReportShards - left] on. *)
Fixpoint acquire_loop (left : nat) (start : Z) (busy : list Z) (need : Z) : prog ocmd unit :=
  match left with
  | O => Ret tt
  | S rest =>
      if need <=? 0 then Ret tt
      else
        err <- call o_err ;;
        if err : bool then Ret tt
        else
          let s := (start + (oc_ReportShards cfg - Z.of_nat left)) mod oc_ReportShards cfg in
          if decide (s ∈ busy) then acquire_loop rest start busy need
          else
            r <- acquireShard s ;;
            match r with
            | None => Ret tt
            | Some true => call (o_start s) ;; acquire_loop rest start busy (need - 1)
            | Some false => acquire_loop rest start busy need
            end
  end.

(** The position of the instance and the number of members, itself included. *)
Definition place (live : list string) : Z * Z :=
  match index_of live with
  | Some pos => (Z.of_nat pos, Z.of_nat (length live))
  | None => (Z.of_nat (length live), Z.of_nat (length live) + 1)
  end.
Definition target (n : Z) : Z := (oc_ReportShards cfg + n - 1) / n.

Definition rebalance (live : list string) : prog ocmd unit :=
  let '(pos, n) := place live in
  let target := target n in
  tbl <- call o_table ;;
  let busy := (λ x : Z * nat * shardState, x.1.1) <$> tbl in
  let owned := merge_sort Z.le ((λ x : Z * nat * shardState, x.1.1) <$> filter (λ x : Z * nat * shardState, sh_phase x.2 = phaseOwned) tbl) in
  let have := Z.of_nat (length owned) in
  if have >? target then release_all (drop (Z.to_nat target) owned)
  else if have <? target then acquire_loop (Z.to_nat (oc_ReportShards cfg)) (pos * oc_ReportShards cfg / n) busy (target - have)
  else Ret tt.

Definition tick : prog ocmd unit :=
  r <- registry true ;; match r with None => Ret tt | Some live => rebalance live end.

(** [failed] is whether a call of the round failed. *)
Fixpoint refresh_loop (items : list (Z * nat * Z)) (failed : bool) : prog ocmd unit :=
  match items with
  | [] => Ret tt
  | (shard, a, last) :: items =>
      err <- call o_err ;;
      if err : bool then Ret tt
      else
        r <- (if failed then Ret None else call (o_refresh shard)) ;;
        match r with
        | Some true => call (o_touch a) ;; refresh_loop items failed
        | Some false => call (o_lose shard a) ;; refresh_loop items failed
        | None =>
            now <- call o_now ;;
            (if now - last >? oc_OwnerTTL cfg - oc_OwnerRefresh cfg then call (o_lose shard a) else Ret tt) ;;
            refresh_loop items true
        end
  end.
Definition refreshOwnership : prog ocmd unit :=
  tbl <- call o_table ;;
  refresh_loop ((λ x : Z * nat * shardState, (x.1.1, x.1.2, sh_lastRefresh x.2)) <$> filter (λ x : Z * nat * shardState, sh_phase x.2 ≠ phaseLost) tbl) false.

(** ** Shutdown *)

Fixpoint cancel_all (states : list (Z * nat)) : prog ocmd unit :=
  match states with [] => Ret tt | x :: states => call (o_cancel x.2) ;; cancel_all states end.
(** The consumers that stopped in time, and whether the deadline passed. *)
Fixpoint wait_all (states : list (Z * nat)) : prog ocmd (list (Z * nat) * bool) :=
  match states with
  | [] => Ret ([], false)
  | x :: states =>
      ok <- call (o_wait x.2) ;; r <- wait_all states ;;
      Ret (if ok : bool then x :: r.1 else r.1, negb ok || r.2)
  end.
Fixpoint unlock_all (stopped : list (Z * nat)) : prog ocmd unit :=
  match stopped with
  | [] => Ret tt
  | (shard, a) :: stopped =>
      phase <- call (o_phase a) ;;
      (if decide (phase = phaseLost) then Ret None else call (o_unlock shard)) ;;
      call (o_forget shard a) ;;
      unlock_all stopped
  end.
Definition shutdown : prog ocmd unit :=
  states <- call o_close ;;
  cancel_all states ;;
  w <- wait_all states ;;
  (if w.2 : bool then Ret tt else call o_bgwait) ;;
  unlock_all w.1 ;;
  call o_leave ;;
  Ret tt.

(** The loop of [Run], which is left when the context is cancelled. *)
Fixpoint run_loop (fuel : nat) : prog ocmd unit :=
  match fuel with
  | O => Ret tt
  | S fuel =>
      e <- call o_wake ;;
      match e with
      | wake_done => shutdown
      | wake_heartbeat => tick ;; run_loop fuel
      | wake_refresh => refreshOwnership ;; run_loop fuel
      | wake_pending => run_loop fuel
      end
  end.
Definition Run (fuel : nat) : prog ocmd unit := tick ;; run_loop fuel.
End program.

(** ** Runs *)

(** What becomes of a call: whether it is answered, the clock of the instance, the order
    in which a map is iterated and what wakes the loop. *)
Record OwnerFate := { of_call : CallFate; of_now : Z; of_order : list nat; of_wake : Wake }.

Section machine.
Variable cfg : OwnerConfig.

Definition in_order {A : Type} `{EqDecision A} (order : list nat) (l : list A) : list A :=
  let l' := omap (λ k, l !! k) order in if decide (l' ≡ₚ l) then l' else l.

(** A call that answers or fails, with or without having run. *)
Definition redis_call {A : Type} (fate : OwnerFate) (f : Cluster → A * Cluster) (cl : Cluster) : option A * Cluster :=
  match of_call fate with
  | call_lost => (None, cl)
  | call_timeout => (None, (f cl).2)
  | call_done => (Some (f cl).1, (f cl).2)
  end.
Definition answer_with {X Y : Type} (f : X → Y) (r : X * Cluster) : option Y * Cluster := (Some (f r.1), r.2).

(** A lock call of an instance, which is refused before it is sent when its arguments
    are invalid. *)
Definition lock_call (i : string) (shard : Z) (script : Z → Locks → bool * Locks) (fate : OwnerFate) (cl : Cluster) : option bool * Cluster :=
  match lockArgs i (oc_OwnerTTL cfg) with
  | None => (None, cl)
  | Some ms =>
      redis_call fate (λ cl,
        let '(ok, locks) := script ms (cl_locks cl) in
        (ok, {| cl_now := cl_now cl; cl_registry := cl_registry cl; cl_locks := locks; cl_insts := cl_insts cl;
                cl_granted := if ok : bool then <[(i, shard) := cl_now cl]> (cl_granted cl) else cl_granted cl |})) cl
  end.
Definition on_registry (f : gmap string Z → gmap string Z) (cl : Cluster) : Cluster :=
  {| cl_now := cl_now cl; cl_registry := f (cl_registry cl); cl_locks := cl_locks cl; cl_insts := cl_insts cl; cl_granted := cl_granted cl |}.
Definition unlock_call (i : string) (shard : Z) (fate : OwnerFate) (cl : Cluster) : option unit * Cluster :=
  redis_call fate (λ cl,
    (tt, {| cl_now := cl_now cl; cl_registry := cl_registry cl; cl_locks := Unlock (cl_now cl) shard i (cl_locks cl);
            cl_insts := cl_insts cl; cl_granted := cl_granted cl |})) cl.

(** The table with the objects it points to. *)
Definition table_of (w : Inst) : list (Z * nat * shardState) :=
  omap (λ x : Z * nat, (λ st, (x, st)) <$> in_heap w !! x.2) (map_to_list (in_shards w)).

Definition exec_owner (i : string) (X : Type) (fate : OwnerFate) (c : ocmd X) : Cluster → option X * Cluster :=
  match c in ocmd X return Cluster → option X * Cluster with
  | o_err => λ cl, (Some (in_ctx (inst_at cl i)), cl)
  | o_now => λ cl, (Some (of_now fate), cl)
  | o_wake => λ cl,
      (Some (match of_wake fate with wake_done => if in_ctx (inst_at cl i) then wake_done else wake_pending | e => e end), cl)
  | o_registry beat => λ cl,
      answer_with Datatypes.id (redis_call fate (λ cl,
        let '(live, reg) := registry_lua beat i (std_ms (oc_LiveWindow cfg)) (cl_now cl) (cl_registry cl) in (live, on_registry (λ _, reg) cl)) cl)
  | o_table => λ cl, (Some (in_order (of_order fate) (table_of (inst_at cl i))), cl)
  | o_try shard => λ cl, answer_with Datatypes.id (lock_call i shard (λ ms, TryLock (cl_now cl) ms shard i) fate cl)
  | o_refresh shard => λ cl, answer_with Datatypes.id (lock_call i shard (λ ms, RefreshLock (cl_now cl) ms shard i) fate cl)
  | o_unlock shard => λ cl, answer_with Datatypes.id (unlock_call i shard fate cl)
  | o_start shard => λ cl, (Some tt, on_inst i (startShard (of_now fate) shard) cl)
  | o_release shard => λ cl, (Some tt, on_inst i (releaseShard shard) cl)
  | o_lose shard a => λ cl, (Some tt, on_inst i (loseShard shard a) cl)
  | o_touch a => λ cl, (Some tt, on_inst i (on_heap a (touch (of_now fate))) cl)
  | o_close => λ cl,
      (Some (in_order (of_order fate) (map_to_list (in_shards (inst_at cl i)))),
       on_inst i (λ w, {| in_heap := in_heap w; in_shards := in_shards w; in_tasks := in_tasks w; in_ctx := in_ctx w; in_closing := true |}) cl)
  | o_cancel a => λ cl, (Some tt, on_inst i (on_heap a (λ st, set_phase (sh_phase st) st)) cl)
  | o_wait a => λ cl, (Some (from_option sh_done false (in_heap (inst_at cl i) !! a)), cl)
  | o_bgwait => λ cl, (Some tt, cl)
  | o_phase a => λ cl, (Some (default phaseLost (phase_of (inst_at cl i) a)), cl)
  | o_forget shard a => λ cl, (Some tt, on_inst i (forgetShard shard a) cl)
  | o_leave => λ cl, answer_with Datatypes.id (redis_call fate (λ cl, (tt, on_registry (delete i) cl)) cl)
  end.

(** What happens besides: time passes, the context of an instance is cancelled, a
    consumer stops when its context is cancelled, and the goroutines that waited for
    it go on. *)
Inductive bg_step (cl : Cluster) : Cluster → Prop :=
| bg_time now : cl_now cl ≤ now →
    bg_step cl {| cl_now := now; cl_registry := cl_registry cl; cl_locks := cl_locks cl; cl_insts := cl_insts cl; cl_granted := cl_granted cl |}
| bg_cancel i :
    bg_step cl (on_inst i (λ w, {| in_heap := in_heap w; in_shards := in_shards w; in_tasks := in_tasks w; in_ctx := true; in_closing := in_closing w |}) cl)
| bg_stop i w a st : cl_insts cl !! i = Some w → in_heap w !! a = Some st → sh_cancelled st || in_ctx w = true →
    bg_step cl (on_inst i (on_heap a stop) cl)
| bg_release i w shard a st fate : cl_insts cl !! i = Some w → t_release shard a ∈ in_tasks w → in_heap w !! a = Some st → sh_done st = true →
    bg_step cl (on_inst i (on_tasks (λ ts, t_forget shard a :: filter (λ t, t ≠ t_release shard a) ts)) (unlock_call i shard fate cl).2)
| bg_forget i w shard a st : cl_insts cl !! i = Some w → t_forget shard a ∈ in_tasks w → in_heap w !! a = Some st → sh_done st = true →
    bg_step cl (on_inst i (λ w, on_tasks (filter (λ t, t ≠ t_forget shard a)) (forgetShard shard a w)) cl).

(** The death of a process, and its start. *)
Definition die (i : string) (cl : Cluster) : Cluster :=
  {| cl_now := cl_now cl; cl_registry := cl_registry cl; cl_locks := cl_locks cl; cl_insts := delete i (cl_insts cl); cl_granted := cl_granted cl |}.
Definition born (i : string) (cl : Cluster) : Cluster :=
  {| cl_now := cl_now cl; cl_registry := cl_registry cl; cl_locks := cl_locks cl; cl_insts := <[i := new_inst]> (cl_insts cl); cl_granted := cl_granted cl |}.
End machine.

(** ** What protects a consumer *)

Section exclusion.
Variable cfg : OwnerConfig.
Local Abbreviation ttl := (std_ms (oc_OwnerTTL cfg)).

(** The lock that was granted at [g] still stands, unless its time to live is over. *)
Definition holds (cl : Cluster) (i : string) (s g : Z) : Prop :=
  g + ttl < cl_now cl ∨ ∃ x, cl_locks cl !! s = Some (i, x) ∧ g + ttl ≤ x.
Definition guarded (cl : Cluster) (i : string) (s : Z) : Prop := ∃ g, cl_granted cl !! (i, s) = Some g ∧ holds cl i s g.

Record inst_ok (cl : Cluster) (i : string) (w : Inst) : Prop := {
  io_table : ∀ s a, in_shards w !! s = Some a → ∃ st, in_heap w !! a = Some st ∧ sh_shard st = s;
  io_running : ∀ a st, in_heap w !! a = Some st → sh_done st = false → in_shards w !! sh_shard st = Some a;
  io_guarded : ∀ a st, in_heap w !! a = Some st → sh_done st = false → guarded cl i (sh_shard st);
  io_release : ∀ s a, t_release s a ∈ in_tasks w → in_shards w !! s = Some a ∨ in_shards w !! s = None ∧ in_closing w = true;
  io_tasks : ∀ s a, t_release s a ∈ in_tasks w → t_forget s a ∉ in_tasks w;
  io_phase : ∀ t s a, t ∈ in_tasks w → t = t_release s a ∨ t = t_forget s a → ∃ p, phase_of w a = Some p ∧ p ≠ phaseOwned;
}.
Definition inv (cl : Cluster) : Prop := ∀ i w, cl_insts cl !! i = Some w → inst_ok cl i w.

(** What the program of an instance may count on, and what it leaves alone. *)
Record shrinks (w w' : Inst) : Prop := {
  sk_closing : in_closing w' = in_closing w;
  sk_table : ∀ s a, in_shards w' !! s = Some a → in_shards w !! s = Some a;
  sk_heap : ∀ a st, in_heap w !! a = Some st → ∃ st', in_heap w' !! a = Some st' ∧ (sh_done st = true → sh_done st' = true);
}.
Record rely (i : string) (cl cl' : Cluster) : Prop := {
  rl_inst : ∀ w, cl_insts cl !! i = Some w → ∃ w', cl_insts cl' !! i = Some w' ∧ shrinks w w';
  rl_holds : ∀ w s, cl_insts cl !! i = Some w → in_closing w = false → in_shards w !! s = None → guarded cl i s → guarded cl' i s;
}.
Record guar (i : string) (cl cl' : Cluster) : Prop := {
  gu_insts : ∀ j, i ≠ j → cl_insts cl' !! j = cl_insts cl !! j;
  gu_guarded : ∀ j s, i ≠ j → guarded cl j s → guarded cl' j s;
}.

Lemma shrinks_refl w : shrinks w w.
Proof. split; [done|done|]. intros a st Hst. by exists st. Qed.
Lemma shrinks_none w w' s : shrinks w w' → in_shards w !! s = None → in_shards w' !! s = None.
Proof. intros H Hs. apply eq_None_not_Some. intros [a Ha]. apply (sk_table _ _ H) in Ha. congruence. Qed.
Lemma rely_refl i cl : rely i cl cl.
Proof. split; [|done]. intros w Hw. exists w. split; [done|apply shrinks_refl]. Qed.
Lemma rely_trans i cl1 cl2 cl3 : rely i cl1 cl2 → rely i cl2 cl3 → rely i cl1 cl3.
Proof.
  intros [A1 A2] [B1 B2]. split.
  - intros w Hw. destruct (A1 w Hw) as (w' & Hw' & [S1 S2 S3]). destruct (B1 w' Hw') as (w'' & Hw'' & [T1 T2 T3]).
    exists w''. split; [done|]. split; [congruence|intros s a Ha; by apply S2, T2|].
    intros a st Hst. destruct (S3 a st Hst) as (st' & Hst' & Hd). destruct (T3 a st' Hst') as (st'' & Hst'' & Hd').
    exists st''. split; [done|]. intros E. by apply Hd', Hd.
  - intros w s Hw Hc Hs Hg. destruct (A1 w Hw) as (w' & Hw' & Hk). eapply B2; [done| | |by eapply A2].
    + by rewrite (sk_closing _ _ Hk).
    + by eapply shrinks_none.
Qed.
Lemma guar_rely i j cl cl' : i ≠ j → guar i cl cl' → rely j cl cl'.
Proof.
  intros Hne [G1 G2]. split; [|intros w s _ _ _; by apply G2]. intros w Hw. exists w. rewrite G1 by done. split; [done|apply shrinks_refl].
Qed.

Lemma inst_ok_guarded cl cl' i w :
  (∀ a st, in_heap w !! a = Some st → sh_done st = false → guarded cl i (sh_shard st) → guarded cl' i (sh_shard st)) → inst_ok cl i w → inst_ok cl' i w.
Proof. intros H [H1 H2 H3 H4 H5 H6]. split; try done. intros a st Ha Hd. eapply H; [done|done|]. by eapply H3. Qed.

(** A step that leaves time, locks and grants alone. *)
Definition same_locks (cl cl' : Cluster) : Prop :=
  cl_now cl' = cl_now cl ∧ cl_locks cl' = cl_locks cl ∧ cl_granted cl' = cl_granted cl.
Lemma same_guarded cl cl' i s : same_locks cl cl' → guarded cl' i s ↔ guarded cl i s.
Proof. intros (E1 & E2 & E3). unfold guarded, holds. by rewrite E1, E2, E3. Qed.

(** An instance changes itself. *)
Lemma on_inst_inv i f cl :
  inv cl → (∀ w, cl_insts cl !! i = Some w → inst_ok cl i (f w)) → inv (on_inst i f cl) ∧ guar i cl (on_inst i f cl).
Proof.
  intros Hi Hf. assert (same_locks cl (on_inst i f cl)) as Hs by done. split.
  - intros j w. cbn. rewrite lookup_alter. case_decide as E; [subst j|].
    + intros (w0 & Hw & ->)%fmap_Some_1. eapply inst_ok_guarded; [|by apply Hf]. intros a st _ _. by apply same_guarded.
    + intros Hw. eapply inst_ok_guarded; [|by apply Hi]. intros a st _ _. by apply same_guarded.
  - split; [|intros j s _; by apply same_guarded]. intros j Hne. cbn. by rewrite lookup_alter_ne.
Qed.

(** ** What an instance does to itself *)

Lemma heap_alter_inv f a b (h : list shardState) st' :
  alter f a h !! b = Some st' → ∃ st, h !! b = Some st ∧ (st' = st ∨ a = b ∧ st' = f st).
Proof.
  destruct (decide (a = b)) as [->|Hne]; [|rewrite list_lookup_alter_ne by done; intros H; by exists st'; split; [|left]].
  rewrite list_lookup_alter_eq. intros (st & Hst & ->)%fmap_Some_1. exists st. split; [done|]. by right.
Qed.
Lemma heap_alter f a b (h : list shardState) st :
  h !! b = Some st → ∃ st', alter f a h !! b = Some st' ∧ (st' = st ∨ a = b ∧ st' = f st).
Proof.
  intros Hst. destruct (decide (a = b)) as [->|Hne]; [|exists st; rewrite list_lookup_alter_ne by done; by split; [|left]].
  exists (f st). rewrite list_lookup_alter_eq, Hst. split; [done|]. by right.
Qed.

(** An object is touched, cancelled or stopped. *)
Definition benign (f : shardState → shardState) : Prop :=
  ∀ st, sh_shard (f st) = sh_shard st ∧ (sh_done st = true → sh_done (f st) = true) ∧ (sh_phase (f st) = phaseOwned → sh_phase st = phaseOwned).

Lemma on_heap_ok cl i w a f : benign f → inst_ok cl i w → inst_ok cl i (on_heap a f w).
Proof.
  intros Hf [H1 H2 H3 H4 H5 H6].
  assert (∀ b st', alter f a (in_heap w) !! b = Some st' →
    ∃ st, in_heap w !! b = Some st ∧ sh_shard st' = sh_shard st ∧ (sh_done st' = false → sh_done st = false) ∧ (sh_phase st' = phaseOwned → sh_phase st = phaseOwned)) as Hold.
  { intros b st' (st & Hst & Hor)%heap_alter_inv. exists st. split; [done|]. destruct (Hf st) as (F1 & F2 & F3).
    destruct Hor as [->|[_ ->]]; [done|]. split_and!; [done| |done]. intros E. destruct (sh_done st); [by rewrite F2 in E|done]. }
  split; cbn; try done.
  - intros s b Hb. destruct (H1 s b Hb) as (st & Hst & Es). destruct (heap_alter f a b _ _ Hst) as (st' & Hst' & Hor).
    exists st'. split; [done|]. destruct Hor as [->|[_ ->]]; [done|]. by rewrite (proj1 (Hf st)).
  - intros b st' (st & Hst & Es & Ed & _)%Hold E. rewrite Es. by apply H2, Ed.
  - intros b st' (st & Hst & Es & Ed & _)%Hold E. rewrite Es. by eapply H3, Ed.
  - intros t s b Ht Hor. destruct (H6 t s b Ht Hor) as (p & (st & Hst & ->)%fmap_Some_1 & Hp). unfold phase_of. cbn.
    destruct (heap_alter f a b _ _ Hst) as (st' & Hst' & Hor'). rewrite Hst'. exists (sh_phase st'). split; [done|].
    destruct Hor' as [->|[_ ->]]; [done|]. intros E. by apply Hp, Hf.
Qed.

(** A goroutine starts that waits for the consumer of an owned shard. *)
Lemma await_ok cl i w t s a p :
  in_shards w !! s = Some a → phase_of w a = Some phaseOwned → t = t_release s a ∨ t = t_forget s a → p ≠ phaseOwned →
  inst_ok cl i w → inst_ok cl i (on_tasks (λ ts, ts ++ [t]) (on_heap a (set_phase p) w)).
Proof.
  intros Hs Hp Ht Hne Hok. assert (inst_ok cl i (on_heap a (set_phase p) w)) as Hok1 by (apply on_heap_ok; [|done]; by intros st).
  destruct Hok as [_ _ _ _ _ H6]. destruct Hok1 as [K1 K2 K3 K4 K5 K6].
  assert (∀ t' s', t' ∈ in_tasks w → t' = t_release s' a ∨ t' = t_forget s' a → False) as Hno by (intros t' s' Hin Hor; destruct (H6 t' s' a Hin Hor) as (p' & E & ?); congruence).
  split; cbn in *; try done.
  - intros s' a' [Hin|Hin]%elem_of_app; [by apply K4|]. apply list_elem_of_singleton in Hin. destruct Ht as [->| ->]; simplify_eq. by left.
  - intros s' a' [Hin|Hin]%elem_of_app [Hin'|Hin']%elem_of_app.
    + by eapply K5.
    + apply list_elem_of_singleton in Hin'. destruct Ht as [->| ->]; simplify_eq. eapply Hno; [exact Hin|by left].
    + apply list_elem_of_singleton in Hin. destruct Ht as [->| ->]; simplify_eq. eapply Hno; [exact Hin'|by right].
    + apply list_elem_of_singleton in Hin, Hin'. simplify_eq.
  - intros t' s' a' [Hin|Hin]%elem_of_app Hor; [by eapply K6|]. apply list_elem_of_singleton in Hin as ->.
    assert (a' = a) as -> by (destruct Ht as [->| ->], Hor; simplify_eq; done).
    unfold phase_of in *. cbn. apply fmap_Some_1 in Hp as (st & Hst & _). rewrite list_lookup_alter_eq, Hst. by exists p.
Qed.

Lemma releaseShard_ok cl i w s : inst_ok cl i w → inst_ok cl i (releaseShard s w).
Proof. unfold releaseShard. destruct (in_shards w !! s) as [a|] eqn:Hs; [|done]. case_decide; [|done]. intros H1. apply (await_ok cl i w _ s a); [done|done|by left|done|done]. Qed.
Lemma loseShard_ok cl i w s a : inst_ok cl i w → inst_ok cl i (loseShard s a w).
Proof. unfold loseShard. case_decide as H; [|done]. destruct H as [Hs Hp]. intros H1. apply (await_ok cl i w _ s a); [done|done|by right|done|done]. Qed.

(** The consumer of a shard that is not in the table starts under a granted lock. *)
Lemma startShard_ok cl i w now s :
  in_shards w !! s = None → in_closing w = false → guarded cl i s → inst_ok cl i w → inst_ok cl i (startShard now s w).
Proof.
  intros Hs Hc Hg [H1 H2 H3 H4 H5 H6]. set (st0 := {| sh_phase := phaseOwned; sh_cancelled := false; sh_done := false; sh_lastRefresh := now; sh_shard := s |}).
  assert (∀ a st, (in_heap w ++ [st0]) !! a = Some st → in_heap w !! a = Some st ∨ a = length (in_heap w) ∧ st = st0) as Hold.
  { intros a st [H|[Hle H]]%lookup_app_Some; [by left|right]. apply list_lookup_singleton_Some in H as [E <-]. split; [lia|done]. }
  assert (∀ a st, in_heap w !! a = Some st → (in_heap w ++ [st0]) !! a = Some st) as Hnew by (intros; by apply lookup_app_l_Some).
  assert (∀ s' a, in_shards w !! s' = Some a → <[s := length (in_heap w)]> (in_shards w) !! s' = Some a) as Htab.
  { intros s' a Ha. rewrite lookup_insert_ne; [done|]. congruence. }
  split; cbn.
  - intros s' a [[<- <-]|[Hne Ha]]%lookup_insert_Some; [exists st0; split; [|done]; by rewrite lookup_app_r, Nat.sub_diag by done|].
    destruct (H1 s' a Ha) as (st & Hst & Es). exists st. split; [by apply Hnew|done].
  - intros a st [Hst|[-> ->]]%Hold Hd; [by apply Htab, H2|apply lookup_insert_eq].
  - intros a st [Hst|[-> ->]]%Hold Hd; [by eapply H3|done].
  - intros s' a Ht. left. destruct (H4 s' a Ht) as [Ha|[_ Ha]]; [by apply Htab|congruence].
  - done.
  - intros t s' a Ht Hor. destruct (H6 t s' a Ht Hor) as (p & (st & Hst & ->)%fmap_Some_1 & Hp). unfold phase_of. cbn.
    exists (sh_phase st). split; [|done]. apply fmap_Some. exists st. split; [by apply Hnew|done].
Qed.

Definition stopped (w : Inst) (a : nat) : Prop := ∃ st, in_heap w !! a = Some st ∧ sh_done st = true.
Lemma stopped_not_running w a st : stopped w a → in_heap w !! a = Some st → sh_done st = false → False.
Proof. intros (st' & E & Hd) Hst. rewrite Hst in E. injection E as <-. by rewrite Hd. Qed.

Lemma forgetShard_ok cl i w s a :
  stopped w a → (t_release s a ∈ in_tasks w → in_closing w = true) → inst_ok cl i w → inst_ok cl i (forgetShard s a w).
Proof.
  intros Hst Hcl Hok. unfold forgetShard. case_decide as Hs; [|done]. destruct Hok as [H1 H2 H3 H4 H5 H6]. split; cbn; try done.
  - intros s' b [_ Hb]%lookup_delete_Some. by apply H1.
  - intros b st Hb Hd. pose proof (H2 b st Hb Hd) as Ht. apply lookup_delete_Some. split; [|done]. intros E. subst s. rewrite Ht in Hs. injection Hs as ->.
    by eapply stopped_not_running.
  - intros s' b Hin. destruct (decide (s = s')) as [<-|Hne].
    + right. split; [apply lookup_delete_eq|]. destruct (H4 s b Hin) as [E|[_ E]]; [|done]. rewrite Hs in E. injection E as <-. by apply Hcl.
    + rewrite lookup_delete_ne by done. by apply H4.
Qed.

Lemma drop_task_ok cl i w t : inst_ok cl i w → inst_ok cl i (on_tasks (filter (λ t', t' ≠ t)) w).
Proof.
  intros [H1 H2 H3 H4 H5 H6]. split; cbn; try done.
  - intros s a [_ Hin]%list_elem_of_filter. by apply H4.
  - intros s a [_ Hin]%list_elem_of_filter [_ Hin']%list_elem_of_filter. by eapply H5.
  - intros t' s a [_ Hin]%list_elem_of_filter. by apply H6.
Qed.

(** The goroutine that unlocked the shard goes on to forget it. *)
Lemma unlocked_ok cl i w s a :
  t_release s a ∈ in_tasks w → inst_ok cl i w → inst_ok cl i (on_tasks (λ ts, t_forget s a :: filter (λ t, t ≠ t_release s a) ts) w).
Proof.
  intros Ht Hok. destruct (drop_task_ok cl i w (t_release s a) Hok) as [H1 H2 H3 H4 H5 H6]. destruct Hok as [_ _ _ _ _ K6]. split; cbn in *; try done.
  - intros s' b [?|Hin]%elem_of_cons; [done|by apply H4].
  - intros s' b [?|Hin]%elem_of_cons [E|Hin']%elem_of_cons; [done..| |by eapply H5]. simplify_eq. by apply list_elem_of_filter in Hin as [? _].
  - intros t s' b [->|Hin]%elem_of_cons Hor; [|by eapply H6]. destruct Hor; simplify_eq. eapply K6; [exact Ht|by left].
Qed.

(** ** Locks *)

Lemma held_other locks now s i j x : held locks now s = None ∨ held locks now s = Some i → locks !! s = Some (j, x) → i ≠ j → x < now.
Proof. unfold held, lock_live. intros H E Hne. rewrite E in H. cbn in H. destruct (Z.leb_spec now x); [|done]. destruct H; simplify_eq. Qed.

Record lock_script (i : string) (s : Z) (script : Z → Locks → bool * Locks) (cl : Cluster) : Prop := {
  lk_fails : ∀ ms locks, (script ms (cl_locks cl)) = (false, locks) → locks = cl_locks cl;
  lk_takes : ∀ ms locks, (script ms (cl_locks cl)) = (true, locks) →
    locks = <[s := (i, cl_now cl + ms)]> (cl_locks cl) ∧ (held (cl_locks cl) (cl_now cl) s = None ∨ held (cl_locks cl) (cl_now cl) s = Some i);
}.
Lemma TryLock_script i s cl : lock_script i s (λ ms, TryLock (cl_now cl) ms s i) cl.
Proof. split; intros ms locks; unfold TryLock; destruct (held _ _ _) eqn:E; intros [= <-]; auto. Qed.
Lemma RefreshLock_script i s cl : lock_script i s (λ ms, RefreshLock (cl_now cl) ms s i) cl.
Proof. split; intros ms locks; unfold RefreshLock; case_decide; intros [= <-]; auto. Qed.

(** A lock call disturbs nobody, and its success guards the shard. *)
Lemma lock_call_spec i s script fate cl :
  lock_script i s script cl →
  let '(r, cl') := lock_call cfg i s script fate cl in
  cl_insts cl' = cl_insts cl ∧ (∀ j s', guarded cl j s' → guarded cl' j s') ∧ (r = Some true → guarded cl' i s).
Proof.
  intros [L1 L2]. unfold lock_call, lockArgs. destruct (_ || _); [done|]. unfold redis_call.
  destruct (script ttl (cl_locks cl)) as [ok locks] eqn:E. set (cl1 := {| cl_now := _ |}).
  assert (cl_insts cl1 = cl_insts cl ∧ (∀ j s', guarded cl j s' → guarded cl1 j s') ∧ (ok = true → guarded cl1 i s)) as (H1 & H2 & H3).
  { split; [done|]. destruct ok.
    - apply L2 in E as [-> Hh]. assert (guarded cl1 i s) as Hg.
      { exists (cl_now cl). cbn. rewrite lookup_insert_eq. split; [done|]. right. exists (cl_now cl + ttl). cbn. rewrite lookup_insert_eq. split; [done|lia]. }
      split; [|done]. intros j s' (g & Eg & Hg'). destruct (decide ((i, s) = (j, s'))) as [E|Hne]; [by injection E as <- <-|].
      exists g. cbn. rewrite lookup_insert_ne by done. split; [done|]. destruct Hg' as [Hg'|(x & Ex & Hx)]; [by left|].
      destruct (decide (s = s')) as [<-|Hs]; [|right; exists x; cbn; by rewrite lookup_insert_ne]. left. cbn.
      assert (x < cl_now cl); [|lia]. eapply held_other; [exact Hh|exact Ex|]. congruence.
    - apply L1 in E as ->. split; [|done]. intros j s'. by apply same_guarded. }
  destruct (of_call fate); [split_and!; [done|done|]; intros [= ->]; by apply H3|done|done].
Qed.

Lemma unlock_call_spec i s fate cl :
  let cl' := (unlock_call i s fate cl).2 in
  cl_insts cl' = cl_insts cl ∧ ∀ j s', (i, s) ≠ (j, s') → guarded cl j s' → guarded cl' j s'.
Proof.
  unfold unlock_call, redis_call. destruct (of_call fate); cbn [snd]; try done.
  all: split; [done|]; intros j s' Hne (g & Eg & Hg); exists g; split; [done|]; destruct Hg as [Hg|(x & Ex & Hx)]; [by left|].
  all: cbn; unfold Unlock, held; case_decide as Hh; [|right; by exists x].
  all: destruct (decide (s = s')) as [<-|Hs]; [|right; exists x; cbn; by rewrite lookup_delete_ne].
  all: rewrite Ex in Hh; unfold lock_live in Hh; cbn in Hh; destruct (_ <=? _); simplify_eq.
Qed.

(** ** The goroutines *)

Lemma inv_locks cl cl' :
  cl_insts cl' = cl_insts cl →
  (∀ j w a st, cl_insts cl !! j = Some w → in_heap w !! a = Some st → sh_done st = false → guarded cl j (sh_shard st) → guarded cl' j (sh_shard st)) →
  inv cl → inv cl'.
Proof. intros E Hg Hi j w Hw. rewrite E in Hw. eapply inst_ok_guarded; [|by apply Hi]. intros a st Ha Hd. by eapply Hg. Qed.

Lemma on_inst_keeps i f cl :
  inv cl → (∀ w, cl_insts cl !! i = Some w → inst_ok cl i (f w) ∧ shrinks w (f w)) →
  inv (on_inst i f cl) ∧ ∀ j, rely j cl (on_inst i f cl).
Proof.
  intros Hi Hf. destruct (on_inst_inv i f cl Hi) as [H1 H2]; [by apply Hf|]. split; [done|].
  intros j. destruct (decide (i = j)) as [<-|Hne]; [|by eapply guar_rely]. split; [|intros w s _ _ _; by apply same_guarded].
  intros w Hw. exists (f w). split; [cbn; by rewrite lookup_alter_eq, Hw|by apply Hf].
Qed.

Lemma on_heap_shrinks w a f : benign f → shrinks w (on_heap a f w).
Proof.
  intros Hf. split; [done|done|]. intros b st Hst. destruct (heap_alter f a b _ _ Hst) as (st' & Hst' & Hor). exists st'. split; [done|].
  destruct Hor as [->|[_ ->]]; [done|]. apply Hf.
Qed.
Lemma on_tasks_shrinks w f : shrinks w (on_tasks f w).
Proof. split; [done|done|]. intros a st Hst. by exists st. Qed.
Lemma forgetShard_shrinks w s a : shrinks w (forgetShard s a w).
Proof.
  unfold forgetShard. case_decide; [|apply shrinks_refl]. split; [done| |intros b st Hst; by exists st].
  cbn. by intros s' b [_ Hb]%lookup_delete_Some.
Qed.
Lemma shrinks_trans w1 w2 w3 : shrinks w1 w2 → shrinks w2 w3 → shrinks w1 w3.
Proof.
  intros [S1 S2 S3] [T1 T2 T3]. split; [congruence|intros s a Ha; by apply S2, T2|]. intros a st Hst.
  destruct (S3 a st Hst) as (st' & Hst' & Hd). destruct (T3 a st' Hst') as (st'' & Hst'' & Hd'). exists st''. split; [done|]. intros E. by apply Hd', Hd.
Qed.

(** Nobody consumes a shard whose consumer is the stopped one of the table. *)
Lemma none_running cl i w s a :
  inst_ok cl i w → stopped w a → in_shards w !! s = Some a ∨ in_shards w !! s = None →
  ∀ b st, in_heap w !! b = Some st → sh_done st = false → sh_shard st ≠ s.
Proof.
  intros Hok Ha Hor b st Hb Hd E. pose proof (io_running _ _ _ Hok b st Hb Hd) as Ht. rewrite E in Ht. destruct Hor as [Hs|Hs]; [|congruence].
  rewrite Hs in Ht. injection Ht as <-. by eapply stopped_not_running.
Qed.

Lemma unlock_inv i w s a fate cl :
  inv cl → cl_insts cl !! i = Some w → stopped w a → in_shards w !! s = Some a ∨ in_shards w !! s = None →
  inv (unlock_call i s fate cl).2 ∧ guar i cl (unlock_call i s fate cl).2.
Proof.
  intros Hi Hw Ha Hor. destruct (unlock_call_spec i s fate cl) as [E Hg]. split.
  - eapply inv_locks; [done| |done]. intros j w' b st Hw' Hb Hd. apply Hg. intros [= <- ->]. rewrite Hw in Hw'. injection Hw' as <-.
    by eapply none_running; [by apply Hi|..].
  - split; [by intros j _; rewrite E|]. intros j s' Hne. apply Hg. congruence.
Qed.

Lemma bg_step_keeps cl cl' : bg_step cl cl' → inv cl → inv cl' ∧ ∀ i, rely i cl cl'.
Proof.
  intros [now Hn|i|i w a st Hw Hst _|i w s a st fate Hw Ht Hst Hd|i w s a st Hw Ht Hst Hd] Hi.
  - set (cl1 := {| cl_now := now |}). assert (∀ j s, guarded cl j s → guarded cl1 j s) as Hg.
    { intros j s (g & Eg & Hg). exists g. split; [done|]. destruct Hg as [Hg|Hg]; [left; cbn; lia|by right]. }
    split; [by eapply inv_locks; [| |done]; [done|]; intros *; auto|]. intros j. split; [|intros w s _ _ _; apply Hg].
    intros w Hw. exists w. split; [done|apply shrinks_refl].
  - apply on_inst_keeps; [done|]. intros w Hw. destruct (Hi i w Hw). split; [done|]. split; [done|done|]. intros a st Hst. by exists st.
  - apply on_inst_keeps; [done|]. intros w' Hw'. assert (benign stop) as Hb by (by intros st'; split_and!).
    split; [apply on_heap_ok; [done|by apply Hi]|by apply on_heap_shrinks].
  - assert (stopped w a) as Ha by (by exists st). pose proof (io_release _ _ _ (Hi i w Hw) s a Ht) as Hor.
    destruct (unlock_inv i w s a fate cl Hi Hw Ha) as [H1 H2]; [destruct Hor as [|[? _]]; auto|].
    destruct (unlock_call_spec i s fate cl) as [E Hg]. set (cl1 := (unlock_call i s fate cl).2) in *.
    destruct (on_inst_keeps i (on_tasks (λ ts, t_forget s a :: filter (λ t, t ≠ t_release s a) ts)) cl1 H1) as [H3 H4].
    { intros w' Hw'. rewrite E, Hw in Hw'. injection Hw' as <-. split; [|apply on_tasks_shrinks]. apply unlocked_ok; [done|]. apply H1. by rewrite E. }
    split; [done|]. intros j. eapply rely_trans; [|apply H4]. destruct (decide (i = j)) as [<-|Hne]; [|by eapply guar_rely]. split.
    + intros w' Hw'. exists w'. rewrite E. split; [done|apply shrinks_refl].
    + intros w' s' Hw' Hc Hs. apply Hg. intros [= <-]. rewrite Hw in Hw'. injection Hw' as <-. destruct Hor as [?|[_ ?]]; congruence.
  - apply on_inst_keeps; [done|]. intros w' Hw'. rewrite Hw in Hw'. injection Hw' as <-. split.
    + apply drop_task_ok, forgetShard_ok; [by exists st| |by apply Hi]. intros Hr. by destruct (io_tasks _ _ _ (Hi i w Hw) s a Hr).
    + eapply shrinks_trans; [apply forgetShard_shrinks|apply on_tasks_shrinks].
Qed.

Lemma die_keeps i cl : inv cl → inv (die i cl) ∧ ∀ j, i ≠ j → rely j cl (die i cl).
Proof.
  intros Hi. assert (same_locks cl (die i cl)) as Hs by done. split.
  - intros j w Hw. cbn in Hw. apply lookup_delete_Some in Hw as [_ Hw]. eapply inst_ok_guarded; [|by apply Hi]. intros a st _ _. by apply same_guarded.
  - intros j Hne. split; [|intros w s _ _ _; by apply same_guarded]. intros w Hw. exists w. cbn. rewrite lookup_delete_ne by done.
    split; [done|apply shrinks_refl].
Qed.
Lemma born_keeps i cl : inv cl → inv (born i cl) ∧ ∀ j, i ≠ j → rely j cl (born i cl).
Proof.
  intros Hi. assert (same_locks cl (born i cl)) as Hs by done. split.
  - intros j w Hw. cbn in Hw. apply lookup_insert_Some in Hw as [[<- <-]|[_ Hw]].
    + split; cbn; intros *; rewrite ?lookup_empty, ?lookup_nil; try done; by intros ?%not_elem_of_nil.
    + eapply inst_ok_guarded; [|by apply Hi]. intros a st _ _. by apply same_guarded.
  - intros j Hne. split; [|intros w s _ _ _; by apply same_guarded]. intros w Hw. exists w. cbn. rewrite lookup_insert_ne by done.
    split; [done|apply shrinks_refl].
Qed.

(** ** The program keeps the invariant *)

Local Abbreviation safe i p Q := (rg (exec_owner cfg) inv rely guar i p Q).
Definition stable (i : string) (P : Cluster → Prop) : Prop := ∀ cl cl', rely i cl cl' → P cl → P cl'.

(** A call that the program of its own instance need not notice. *)
Definition gentle {X : Type} (c : ocmd X) : Prop :=
  ∀ i fate cl, inv cl → let cl' := (exec_owner cfg i X fate c cl).2 in inv cl' ∧ guar i cl cl' ∧ rely i cl cl'.

Lemma gentle_insts i cl cl' :
  cl_insts cl' = cl_insts cl → (∀ j s, guarded cl j s → guarded cl' j s) → inv cl → inv cl' ∧ guar i cl cl' ∧ rely i cl cl'.
Proof.
  intros E Hg Hi. split; [eapply inv_locks; [exact E| |exact Hi]; intros j w a st _ _ _; apply Hg|]. split; (split; [|by auto]); [by intros j _; rewrite E|].
  intros w Hw. exists w. rewrite E. split; [done|apply shrinks_refl].
Qed.
Lemma gentle_inst i f cl :
  (∀ w, inst_ok cl i w → inst_ok cl i (f w)) → (∀ w, shrinks w (f w)) → inv cl → inv (on_inst i f cl) ∧ guar i cl (on_inst i f cl) ∧ rely i cl (on_inst i f cl).
Proof.
  intros Hf Hs Hi. destruct (on_inst_inv i f cl Hi) as [H1 H2]; [intros w Hw; by apply Hf, Hi|]. split; [done|]. split; [done|].
  destruct (on_inst_keeps i f cl Hi) as [_ H3]; [|apply H3]. intros w Hw. split; [by apply Hf, Hi|apply Hs].
Qed.

Lemma benign_phase p : p ≠ phaseOwned → benign (set_phase p).
Proof. intros Hp st. by split_and!. Qed.
Lemma releaseShard_shrinks w s : shrinks w (releaseShard s w).
Proof.
  unfold releaseShard. destruct (in_shards w !! s); [|apply shrinks_refl]. case_decide; [|apply shrinks_refl].
  eapply shrinks_trans; [|apply on_tasks_shrinks]. by apply on_heap_shrinks, benign_phase.
Qed.
Lemma loseShard_shrinks w s a : shrinks w (loseShard s a w).
Proof. unfold loseShard. case_decide; [|apply shrinks_refl]. eapply shrinks_trans; [|apply on_tasks_shrinks]. by apply on_heap_shrinks, benign_phase. Qed.

Lemma gentle_lock i s script fate cl :
  lock_script i s script cl → inv cl → let cl' := (lock_call cfg i s script fate cl).2 in inv cl' ∧ guar i cl cl' ∧ rely i cl cl'.
Proof.
  intros Hl Hi. pose proof (lock_call_spec i s script fate cl Hl) as H. destruct (lock_call _ _ _ _ _ _) as [r cl'].
  destruct H as (H1 & H2 & _). by apply gentle_insts.
Qed.

Definition gentle_cmd {X : Type} (c : ocmd X) : bool :=
  match c with o_start _ | o_close | o_unlock _ | o_forget _ _ => false | _ => true end.
Lemma gentle_cmd_gentle {X : Type} (c : ocmd X) : gentle_cmd c = true → gentle c.
Proof.
  intros Hc i fate cl Hi. assert (∀ cl', cl_insts cl' = cl_insts cl → same_locks cl cl' → inv cl' ∧ guar i cl cl' ∧ rely i cl cl') as Hq.
  { intros cl' E Hs. apply gentle_insts; [done| |done]. intros j s. by apply same_guarded. }
  assert (∀ a f, benign f → inv (on_inst i (on_heap a f) cl) ∧ guar i cl (on_inst i (on_heap a f) cl) ∧ rely i cl (on_inst i (on_heap a f) cl)) as Hh.
  { intros a f Hf. apply gentle_inst; [intros w; by apply on_heap_ok|intros w; by apply on_heap_shrinks|done]. }
  destruct c; cbn -[lock_call] in *; try done; try (by apply Hq).
  - unfold redis_call. destruct (of_call fate); cbn [snd]; try (by apply Hq); destruct (registry_lua _ _ _ _ _); by apply Hq.
  - by apply gentle_lock; [apply TryLock_script|].
  - by apply gentle_lock; [apply RefreshLock_script|].
  - apply gentle_inst; [intros w; apply releaseShard_ok|intros w; apply releaseShard_shrinks|done].
  - apply gentle_inst; [intros w; apply loseShard_ok|intros w; apply loseShard_shrinks|done].
  - apply Hh. by intros st.
  - apply Hh. by intros st.
  - unfold redis_call. destruct (of_call fate); by apply Hq.
Qed.

Lemma safe_call {X : Type} (c : ocmd X) i (P : Cluster → Prop) (Q : X → Cluster → Prop) cl :
  stable i P → P cl →
  (∀ fate cl1, inv cl1 → P cl1 → let '(r, cl2) := exec_owner cfg i X fate c cl1 in inv cl2 ∧ guar i cl1 cl2 ∧ ∀ x, r = Some x → Q x cl2) →
  safe i (call c) Q cl.
Proof. intros Hst HP H. apply rg_call. intros cl1 fate Hr Hi. apply H; [done|]. by eapply Hst. Qed.
Lemma safe_gentle {X : Type} (c : ocmd X) i (P : Cluster → Prop) cl :
  gentle_cmd c = true → stable i P → P cl → safe i (call c) (λ _, P) cl.
Proof.
  intros Hc Hst HP. apply (safe_call c i P); [done|done|]. intros fate cl1 Hi HP1.
  pose proof (gentle_cmd_gentle c Hc i fate cl1 Hi) as H. destruct (exec_owner _ _ _ _ _ _) as [r cl2]. destruct H as (H1 & H2 & H3).
  split; [done|]. split; [done|]. intros x _. by eapply Hst.
Qed.

(** A program of such calls. *)
Fixpoint gently {A : Type} (p : prog ocmd A) : Prop :=
  match p with Ret _ => True | Call c k => gentle_cmd c = true ∧ ∀ x, gently (k x) end.
Lemma gently_bind {A B : Type} (p : prog ocmd A) (k : A → prog ocmd B) : gently p → (∀ a, gently (k a)) → gently (prog_bind p k).
Proof. intros Hp Hk. induction p as [a|X c k' IH]; [apply Hk|]. destruct Hp as [Hc Hp]. split; [done|]. intros x. by apply IH. Qed.
Lemma safe_gently {A : Type} (p : prog ocmd A) i (P : Cluster → Prop) cl : gently p → stable i P → P cl → safe i p (λ _, P) cl.
Proof.
  intros Hp Hst. revert cl. induction p as [a|X c k IH]; intros cl HP; [done|]. destruct Hp as [Hc Hp].
  intros cl1 fate Hr Hi. pose proof (gentle_cmd_gentle c Hc i fate cl1 Hi) as H. destruct (exec_owner _ _ _ _ _ _) as [r cl2].
  destruct H as (H1 & H2 & H3). split; [done|]. split; [done|]. destruct r as [x|]; [|done]. apply IH; [done|]. eapply Hst; [exact H3|]. by eapply Hst.
Qed.

Definition up (i : string) (cl : Cluster) : Prop := ∃ w, cl_insts cl !! i = Some w ∧ in_closing w = false.
Definition untracked (i : string) (s : Z) (cl : Cluster) : Prop := ∃ w, cl_insts cl !! i = Some w ∧ in_closing w = false ∧ in_shards w !! s = None.
Lemma up_stable i : stable i (up i).
Proof.
  intros cl cl' [Hr _] (w & Hw & Hc). destruct (Hr w Hw) as (w' & Hw' & Hs). exists w'. split; [done|]. by rewrite (sk_closing _ _ Hs).
Qed.
Lemma untracked_stable i s : stable i (untracked i s).
Proof.
  intros cl cl' [Hr _] (w & Hw & Hc & Hs). destruct (Hr w Hw) as (w' & Hw' & Hk). exists w'.
  split; [done|]. split; [by rewrite (sk_closing _ _ Hk)|by eapply shrinks_none].
Qed.
Lemma granted_stable i s : stable i (λ cl, untracked i s cl ∧ guarded cl i s).
Proof.
  intros cl cl' Hr [Hu Hg]. split; [by eapply untracked_stable|]. destruct Hu as (w & Hw & Hc & Hs). by eapply rl_holds.
Qed.
Lemma stable_all {A : Type} i (P : A → Cluster → Prop) : (∀ a, stable i (P a)) → stable i (λ cl, ∀ a, P a cl).
Proof. intros H cl cl' Hr HP a. by eapply H. Qed.
Lemma stable_imp i (T : Prop) P : stable i P → stable i (λ cl, T → P cl).
Proof. intros H cl cl' Hr HP Ht. eapply H; [done|by apply HP]. Qed.
Lemma owner_stable_and i P Q : stable i P → stable i Q → stable i (λ cl, P cl ∧ Q cl).
Proof. intros HP HQ cl cl' Hr [H1 H2]. split; [by eapply HP|by eapply HQ]. Qed.

(** The two lock calls: after a success the shard is guarded. *)
Lemma safe_lock i s (c : ocmd (option bool)) (P : Cluster → Prop) cl :
  c = o_try s ∨ c = o_refresh s → stable i P → P cl →
  safe i (call c) (λ r cl, P cl ∧ (r = Some true → guarded cl i s)) cl.
Proof.
  intros Hc Hst HP. apply (safe_call c i P); [done|done|]. intros fate cl1 Hi HP1.
  assert (gentle_cmd c = true) as Hg by (by destruct Hc as [->| ->]). pose proof (gentle_cmd_gentle c Hg i fate cl1 Hi) as Hk.
  assert (∃ script, lock_script i s script cl1 ∧ exec_owner cfg i _ fate c cl1 = answer_with Datatypes.id (lock_call cfg i s script fate cl1)) as (script & Hs & E).
  { destruct Hc as [->| ->]; eexists; split; [apply TryLock_script| |apply RefreshLock_script|]; done. }
  rewrite E in *. pose proof (lock_call_spec i s script fate cl1 Hs) as Hl. unfold answer_with in *. destruct (lock_call _ _ _ _ _ _) as [r cl2].
  destruct Hk as (H1 & H2 & H3). destruct Hl as (_ & _ & Hl). cbn in *. split; [done|]. split; [done|]. intros x [= <-].
  split; [by eapply Hst|done].
Qed.
Lemma safe_acquireShard i s (P : Cluster → Prop) cl :
  stable i P → P cl → safe i (acquireShard s) (λ r cl, P cl ∧ (r = Some true → guarded cl i s)) cl.
Proof.
  intros Hst HP. apply rg_bind. eapply rg_mono; [|apply (safe_lock i s (o_try s) P); auto]. intros r cl1 [HP1 Hr].
  destruct r as [[]|]; [by split|by apply safe_lock; auto|by split].
Qed.

(** The shards that the acquiring loop has not come to. *)
Definition nth_shard (start k : Z) : Z := (start + k) mod oc_ReportShards cfg.
Definition ahead (i : string) (start : Z) (busy : list Z) (k : Z) (cl : Cluster) : Prop :=
  up i cl ∧ ∀ k', k ≤ k' < oc_ReportShards cfg → nth_shard start k' ∉ busy → untracked i (nth_shard start k') cl.
Lemma ahead_stable i start busy k : stable i (ahead i start busy k).
Proof. apply owner_stable_and; [apply up_stable|]. apply stable_all. intros k'. apply stable_imp, stable_imp, untracked_stable. Qed.
Lemma ahead_later i start busy k k' cl : k ≤ k' → ahead i start busy k cl → ahead i start busy k' cl.
Proof. intros Hk [H1 H2]. split; [done|]. intros k'' ?. apply H2. lia. Qed.
Lemma nth_shard_inj start k k' : 0 ≤ k < oc_ReportShards cfg → 0 ≤ k' < oc_ReportShards cfg → nth_shard start k = nth_shard start k' → k = k'.
Proof.
  unfold nth_shard. intros Hk Hk' E. assert ((k - k') mod oc_ReportShards cfg = 0) as H.
  { replace (k - k') with ((start + k) - (start + k')) by lia. rewrite Zminus_mod, E, Z.sub_diag. apply Z.mod_0_l. lia. }
  apply Z.mod_divide in H as [z Hz]; [|lia]. assert (z = 0) by nia. lia.
Qed.

Lemma safe_start i start busy k cl :
  0 ≤ k < oc_ReportShards cfg → nth_shard start k ∉ busy → ahead i start busy k cl → guarded cl i (nth_shard start k) →
  safe i (call (o_start (nth_shard start k))) (λ _, ahead i start busy (k + 1)) cl.
Proof.
  intros Hk Hb Ha Hg. set (s := nth_shard start k) in *.
  apply (safe_call _ i (λ cl, ahead i start busy k cl ∧ (untracked i s cl ∧ guarded cl i s))).
  - apply owner_stable_and; [apply ahead_stable|apply granted_stable].
  - split; [done|]. split; [|done]. apply Ha; [lia|done].
  - intros fate cl1 Hi (Ha1 & (w & Hw & Hc & Hs) & Hg1). cbn. destruct (on_inst_inv i (startShard (of_now fate) s) cl1 Hi) as [H1 H2].
    { intros w' Hw'. rewrite Hw in Hw'. injection Hw' as <-. apply startShard_ok; try done. by apply Hi. }
    split; [done|]. split; [done|]. intros _ _. unfold ahead, up, untracked in *. cbn. rewrite lookup_alter_eq, Hw.
    split; [by eexists|]. intros k' Hk' Hb'. eexists. split; [done|]. split; [done|]. cbn.
    destruct Ha1 as [_ Ha1]. destruct (Ha1 k' ltac:(lia) Hb') as (w' & Hw' & _ & Hs'). rewrite Hw in Hw'. injection Hw' as <-.
    rewrite lookup_insert_ne; [done|]. intros E. apply nth_shard_inj in E; lia.
Qed.

Lemma safe_acquire_loop i left start busy need cl :
  Z.of_nat left ≤ oc_ReportShards cfg → ahead i start busy (oc_ReportShards cfg - Z.of_nat left) cl →
  safe i (acquire_loop cfg left start busy need) (λ _, up i) cl.
Proof.
  revert need cl. induction left as [|left IH]; intros need cl Hl Ha; cbn [acquire_loop]; [apply Ha|].
  destruct (need <=? 0); [apply Ha|]. apply rg_bind. eapply rg_mono; [|apply (safe_gentle o_err i (ahead i start busy (oc_ReportShards cfg - Z.of_nat (S left))) cl); [done|apply ahead_stable|exact Ha]].
  cbv beta. clear cl Ha. intros err cl Ha. destruct err; [apply Ha|]. set (k := oc_ReportShards cfg - Z.of_nat (S left)) in *.
  fold (nth_shard start k). assert (∀ cl, ahead i start busy k cl → ahead i start busy (oc_ReportShards cfg - Z.of_nat left) cl) as Hl'.
  { intros cl'. apply ahead_later. lia. }
  case_decide as Hb; [apply IH; [lia|by apply Hl']|]. apply rg_bind.
  eapply rg_mono; [|apply (safe_acquireShard i _ _ cl (ahead_stable i start busy k) Ha)]. cbv beta. clear cl Ha. intros r cl [Ha Hr].
  destruct r as [[]|]; [|apply IH; [lia|by apply Hl']|apply Ha]. apply rg_bind.
  eapply rg_mono; [|apply (safe_start i start busy k cl); [lia|done|done|by apply Hr]]. cbv beta. intros _ cl' Ha'. apply IH; [lia|].
  by replace (oc_ReportShards cfg - Z.of_nat left) with (k + 1) by lia.
Qed.

Lemma in_order_perm {A : Type} `{EqDecision A} order (l : list A) : in_order order l ≡ₚ l.
Proof. unfold in_order. by case_decide. Qed.
Lemma table_of_all cl i w s a : inst_ok cl i w → in_shards w !! s = Some a → s ∈ (λ x : Z * nat * shardState, x.1.1) <$> table_of w.
Proof.
  intros Hok Hs. destruct (io_table _ _ _ Hok s a Hs) as (st & Hst & _). apply list_elem_of_fmap. exists (s, a, st). split; [done|].
  unfold table_of. apply list_elem_of_omap. exists (s, a). split; [by apply elem_of_map_to_list|]. cbn. by rewrite Hst.
Qed.

Lemma safe_table i cl :
  up i cl → safe i (call o_table) (λ tbl cl, up i cl ∧ ∀ s, s ∉ (λ x : Z * nat * shardState, x.1.1) <$> tbl → untracked i s cl) cl.
Proof.
  intros Hup. apply (safe_call _ i (up i)); [apply up_stable|done|]. intros fate cl1 Hi (w & Hw & Hc). cbn. split; [done|].
  split; [by split|]. intros tbl [= <-]. split; [by exists w|]. intros s Hs. exists w. split; [done|]. split; [done|].
  apply eq_None_not_Some. intros [a Ha]. apply Hs. rewrite in_order_perm. unfold inst_at. rewrite Hw. cbn. by eapply table_of_all; [apply Hi|].
Qed.

Lemma gently_release l : gently (release_all l).
Proof. induction l as [|s l IH]; [done|]. by split. Qed.

Lemma safe_rebalance i live cl : up i cl → safe i (rebalance cfg i live) (λ _, up i) cl.
Proof.
  intros Hup. unfold rebalance. destruct (place i live) as [pos n]. apply rg_bind. eapply rg_mono; [|by apply safe_table].
  cbv beta. clear cl Hup. intros tbl cl [Hup Hfree]. cbv zeta. set (busy := _ <$> tbl) in *.
  destruct (_ >? _); [apply safe_gently; [apply gently_release|apply up_stable|done]|]. destruct (_ <? _); [|done].
  destruct (decide (0 ≤ oc_ReportShards cfg)) as [Hn|Hn]; [|by replace (Z.to_nat (oc_ReportShards cfg)) with 0%nat by lia].
  apply safe_acquire_loop; [lia|]. split; [done|]. intros k _ Hb. by apply Hfree.
Qed.
Lemma safe_tick i cl : up i cl → safe i (tick cfg i) (λ _, up i) cl.
Proof.
  intros Hup. unfold tick, registry. apply rg_bind. eapply rg_mono; [|apply (safe_gently _ i (up i)); [|apply up_stable|exact Hup]].
  - cbv beta. intros [live|] cl' Hup'; [by apply safe_rebalance|done].
  - by apply gently_bind.
Qed.

Lemma gently_refresh items failed : gently (refresh_loop cfg items failed).
Proof.
  revert failed. induction items as [|[[s a] last] items IH]; intros failed; cbn [refresh_loop]; [done|].
  apply gently_bind; [done|]. intros err. destruct err; [done|]. apply gently_bind; [by destruct failed|]. intros r.
  destruct r as [[]|]; [apply gently_bind; [done|intros ?; apply IH]..|]. apply gently_bind; [done|]. intros now. apply gently_bind; [by destruct (_ >? _)|]. intros _. apply IH.
Qed.
Lemma safe_refresh i cl : up i cl → safe i (refreshOwnership cfg) (λ _, up i) cl.
Proof. intros Hup. apply safe_gently; [|apply up_stable|done]. split; [done|]. intros tbl. apply gently_refresh. Qed.

(** ** Shutdown *)

Definition leaving (i : string) (x : Z * nat) (cl : Cluster) : Prop :=
  ∃ w, cl_insts cl !! i = Some w ∧ in_closing w = true ∧ (in_shards w !! x.1 = Some x.2 ∨ in_shards w !! x.1 = None).
Definition halted (i : string) (x : Z * nat) (cl : Cluster) : Prop :=
  ∃ w, cl_insts cl !! i = Some w ∧ in_closing w = true ∧ (in_shards w !! x.1 = Some x.2 ∨ in_shards w !! x.1 = None) ∧ stopped w x.2.
Lemma leaving_stable i x : stable i (leaving i x).
Proof.
  intros cl cl' [Hr _] (w & Hw & Hc & Hor). destruct (Hr w Hw) as (w' & Hw' & Hk). exists w'. split; [done|]. split; [by rewrite (sk_closing _ _ Hk)|].
  destruct (in_shards w' !! x.1) as [a|] eqn:E; [|by right]. apply (sk_table _ _ Hk) in E. destruct Hor as [Hs|Hs]; [left|]; congruence.
Qed.
Lemma halted_stable i x : stable i (halted i x).
Proof.
  intros cl cl' Hr (w & Hw & Hc & Hor & (st & Hst & Hd)). assert (leaving i x cl') as (w' & Hw' & Hc' & Hor') by (eapply leaving_stable; [done|]; by exists w).
  destruct (rl_inst _ _ _ Hr w Hw) as (w'' & Hw'' & Hk). rewrite Hw' in Hw''. injection Hw'' as <-. exists w'. do 3 (split; [done|]).
  destruct (sk_heap _ _ Hk _ _ Hst) as (st' & Hst' & Hd'). exists st'. split; [done|by apply Hd'].
Qed.
Definition each (P : Z * nat → Cluster → Prop) (l : list (Z * nat)) (cl : Cluster) : Prop := ∀ x, x ∈ l → P x cl.
Lemma each_stable i P l : (∀ x, stable i (P x)) → stable i (each P l).
Proof. intros H. apply stable_all. intros x. by apply stable_imp. Qed.

Lemma safe_close i cl : up i cl → safe i (call o_close) (λ states, each (leaving i) states) cl.
Proof.
  intros Hup. apply (safe_call _ i (up i)); [apply up_stable|done|]. intros fate cl1 Hi (w & Hw & Hc). cbn.
  set (f := λ w : Inst, {| in_heap := in_heap w |}). destruct (on_inst_inv i f cl1 Hi) as [H1 H2].
  { intros w' Hw'. destruct (Hi i w' Hw') as [K1 K2 K3 K4 K5 K6]. split; try done. intros s a Ht. cbn. destruct (K4 s a Ht) as [|[? _]]; auto. }
  split; [done|]. split; [done|]. intros states [= <-] [s a] Hx. rewrite in_order_perm in Hx. unfold inst_at in Hx. rewrite Hw in Hx. cbn in Hx.
  apply elem_of_map_to_list in Hx. exists (f w). cbn. rewrite lookup_alter_eq, Hw. split; [done|]. split; [done|]. by left.
Qed.

Lemma gently_cancel l : gently (cancel_all l).
Proof. induction l as [|x l IH]; [done|]. by split. Qed.

Lemma safe_wait_all i states (R : Cluster → Prop) cl :
  stable i R → each (leaving i) states cl → R cl → safe i (wait_all states) (λ r cl, each (halted i) r.1 cl ∧ R cl) cl.
Proof.
  revert R cl. induction states as [|x states IH]; intros R cl HR H Hcl; cbn [wait_all]; [split; [by intros x Hx%not_elem_of_nil|done]|].
  apply rg_bind. eapply rg_mono; [|apply (safe_call _ i (λ cl, each (leaving i) (x :: states) cl ∧ R cl)
    (λ ok cl, each (leaving i) states cl ∧ (ok = true → halted i x cl) ∧ R cl)); [apply owner_stable_and; [apply each_stable, leaving_stable|done]|done|]].
  - cbv beta. clear cl H Hcl. intros ok cl (H1 & H2 & H3). apply rg_bind.
    eapply rg_mono; [|apply (IH (λ cl, (ok = true → halted i x cl) ∧ R cl)); [apply owner_stable_and; [apply stable_imp, halted_stable|done]|done|done]].
    cbv beta. intros r cl' (K1 & K2 & K3). split; [|done]. destruct ok; [|done]. intros y [->|Hy]%elem_of_cons; [by apply K2|by apply K1].
  - intros fate cl1 Hi [H1 HR1]. cbn. split; [done|]. split; [by split|]. intros ok [= <-].
    split; [intros y Hy; apply H1; by apply elem_of_cons; right|]. split; [|done].
    intros Hd. destruct (H1 x (list_elem_of_here _ _)) as (w & Hw & Hc & Hor). exists w. do 3 (split; [done|]).
    unfold inst_at in Hd. rewrite Hw in Hd. cbn in Hd. destruct (in_heap w !! x.2) as [st|] eqn:E; [|done]. by exists st.
Qed.

(** Unlocking and forgetting a shard whose consumer has stopped. *)
Lemma safe_leave i x (P : Cluster → Prop) cl :
  stable i P → P cl → halted i x cl →
  safe i (call (o_unlock x.1)) (λ _ cl, P cl ∧ halted i x cl) cl ∧ safe i (call (o_forget x.1 x.2)) (λ _, P) cl.
Proof.
  intros HP Hcl Hx. assert (stable i (λ cl, P cl ∧ halted i x cl)) as Hst by (apply owner_stable_and; [done|apply halted_stable]).
  assert (∀ cl1 cl2, inv cl1 → halted i x cl1 → cl_insts cl2 = cl_insts cl1 → rely i cl1 cl2) as Hr.
  { intros cl1 cl2 Hi (w & Hw & Hc & _) E. split.
    - intros w' Hw'. exists w'. rewrite E. split; [done|apply shrinks_refl].
    - intros w' s Hw' Hc'. congruence. }
  split; apply (safe_call _ i (λ cl, P cl ∧ halted i x cl)); try done; intros fate cl1 Hi [HP1 Hx1]; destruct Hx1 as (w & Hw & Hc & Hor & Hs).
  - destruct (unlock_inv i w x.1 x.2 fate cl1 Hi Hw Hs Hor) as [H1 H2]. destruct (unlock_call_spec i x.1 fate cl1) as [E _]. cbn.
    split; [done|]. split; [done|]. intros _ _. eapply Hst; [|split; [exact HP1|by exists w]]. apply Hr; [done|by exists w|done].
  - cbn. assert (∀ w', cl_insts cl1 !! i = Some w' → inst_ok cl1 i (forgetShard x.1 x.2 w') ∧ shrinks w' (forgetShard x.1 x.2 w')) as Hf.
    { intros w' Hw'. rewrite Hw in Hw'. injection Hw' as <-. split; [|apply forgetShard_shrinks]. apply forgetShard_ok; [done|done|by apply Hi]. }
    destruct (on_inst_inv i (forgetShard x.1 x.2) cl1 Hi) as [H1 H2]; [by apply Hf|].
    destruct (on_inst_keeps i (forgetShard x.1 x.2) cl1 Hi Hf) as [_ H3]. split; [done|]. split; [done|]. intros _ _. by eapply HP.
Qed.

Lemma safe_unlock_all i l cl : each (halted i) l cl → safe i (unlock_all l) (λ _ _, True) cl.
Proof.
  revert cl. induction l as [|[s a] l IH]; intros cl H; cbn [unlock_all]; [done|].
  assert (stable i (each (halted i) l)) as Hst by apply each_stable, halted_stable.
  assert (∀ cl, each (halted i) ((s, a) :: l) cl → each (halted i) l cl ∧ halted i (s, a) cl) as Hsp.
  { intros cl' H'. split; [intros y Hy; apply H'; by apply elem_of_cons; right|apply H', list_elem_of_here]. }
  assert (stable i (each (halted i) ((s, a) :: l))) as Hst' by apply each_stable, halted_stable.
  apply rg_bind. eapply rg_mono; [|apply (safe_gentle (o_phase a) i _ cl eq_refl Hst' H)]. cbv beta. clear cl H. intros phase cl H.
  apply rg_bind. apply rg_mono with (Q := λ _, each (halted i) ((s, a) :: l)).
  - clear cl H. intros _ cl [H1 H2]%Hsp. apply rg_bind. eapply rg_mono; [|apply (safe_leave i (s, a) (each (halted i) l) cl Hst H1 H2)].
    cbv beta. intros _. apply IH.
  - case_decide; [done|]. apply Hsp in H as [H1 H2]. eapply rg_mono; [|apply (safe_leave i (s, a) (each (halted i) l) cl Hst H1 H2)].
    cbv beta. intros _ cl' [K1 K2] y [->|Hy]%elem_of_cons; [done|by apply K1].
Qed.

Lemma safe_shutdown i cl : up i cl → safe i shutdown (λ _ _, True) cl.
Proof.
  intros Hup. unfold shutdown. apply rg_bind. eapply rg_mono; [|by apply safe_close]. cbv beta. clear cl Hup. intros states cl H.
  assert (stable i (each (leaving i) states)) as Hst by apply each_stable, leaving_stable.
  apply rg_bind. eapply rg_mono; [|apply (safe_gently _ i _ cl (gently_cancel states) Hst H)]. cbv beta. clear cl H. intros _ cl H.
  apply rg_bind. eapply rg_mono; [|apply (safe_wait_all i states (λ _, True) cl); done]. cbv beta. clear cl H. intros r cl [H _].
  assert (stable i (each (halted i) r.1)) as Hst' by apply each_stable, halted_stable.
  apply rg_bind. eapply rg_mono; [|apply (safe_gently _ i (each (halted i) r.1) cl); [by destruct r.2|exact Hst'|exact H]]. cbv beta. clear cl H. intros _ cl H.
  apply rg_bind. eapply rg_mono; [|by apply safe_unlock_all]. cbv beta. clear cl H. intros _ cl _.
  apply rg_bind. eapply rg_mono; [|apply (safe_gentle o_leave i (λ _, True) cl); done]. done.
Qed.

Lemma safe_run_loop i fuel cl : up i cl → safe i (run_loop cfg i fuel) (λ _ _, True) cl.
Proof.
  revert cl. induction fuel as [|fuel IH]; intros cl Hup; cbn [run_loop]; [done|].
  apply rg_bind. eapply rg_mono; [|apply (safe_gentle o_wake i (up i) cl); [done|apply up_stable|done]]. cbv beta. clear cl Hup. intros e cl Hup.
  destruct e; [by apply safe_shutdown|apply rg_bind; eapply rg_mono; [|by apply safe_tick]; intros ?; apply IH|
    apply rg_bind; eapply rg_mono; [|by apply safe_refresh]; intros ?; apply IH|by apply IH].
Qed.
Lemma safe_Run i fuel cl : safe i (Run cfg i fuel) (λ _ _, True) (born i cl).
Proof.
  unfold Run. apply rg_bind. eapply rg_mono; [intros ?; apply safe_run_loop|]. apply safe_tick. exists new_inst. cbn. by rewrite lookup_insert_eq.
Qed.

(** ** One consumer *)

(** A consumer of the shard runs in the process. *)
Definition consumes (cl : Cluster) (i : string) (a : nat) (s : Z) : Prop :=
  ∃ w st, cl_insts cl !! i = Some w ∧ in_heap w !! a = Some st ∧ sh_shard st = s ∧ sh_done st = false.
(** The last successful lock call on the shard is longer ago than the lock lives. *)
Definition overdue (cl : Cluster) (i : string) (s : Z) : Prop := ∃ g, cl_granted cl !! (i, s) = Some g ∧ g + ttl < cl_now cl.

(** Processes start, make calls, die and start again; the goroutines and the clock go
    on in between. *)
Definition owner_reach (loops : string → nat) : Cluster → Cluster * (string → option (prog ocmd unit)) → Prop :=
  par_reach (exec_owner cfg) (λ i, Run cfg i (loops i)) bg_step die born.

(** C10: in every interleaving of the processes, their goroutines and the clock, with
    processes that die and start again anywhere and calls that fail or lose their
    answers, two consumers of a shard that run at the same time are of two processes,
    and the lock of one of them was not granted or renewed for longer than its time
    to live.  So each successful lock call keeps the shard for the consumer. *)
Theorem one_consumer loops cl0 cl P i j a b s :
  cl_insts cl0 = ∅ → owner_reach loops cl0 (cl, P) →
  consumes cl i a s → consumes cl j b s → (i, a) ≠ (j, b) → i ≠ j ∧ (overdue cl i s ∨ overdue cl j s).
Proof.
  intros H0 Hrun (w & st & Hw & Hst & Es & Hd) (w' & st' & Hw' & Hst' & Es' & Hd') Hne. assert (inv cl) as Hi.
  { change cl with (cl, P).1. eapply (par_inv (exec_owner cfg) inv rely guar (λ i, Run cfg i (loops i)) bg_step die born); [..|exact Hrun].
    - apply rely_trans.
    - apply rely_refl.
    - apply guar_rely.
    - apply bg_step_keeps.
    - apply die_keeps.
    - apply born_keeps.
    - intros i' cl' _. apply safe_Run.
    - intros i' w1 Hw1. by rewrite H0, lookup_empty in Hw1. }
  assert (i ≠ j) as Hij.
  { intros <-. rewrite Hw in Hw'. injection Hw' as <-. pose proof (io_running _ _ _ (Hi i w Hw) a st Hst Hd) as Ha.
    pose proof (io_running _ _ _ (Hi i w Hw) b st' Hst' Hd') as Hb. rewrite Es in Ha. rewrite Es', Ha in Hb. congruence. }
  split; [done|]. destruct (io_guarded _ _ _ (Hi i w Hw) a st Hst Hd) as (g & Eg & Hg). destruct (io_guarded _ _ _ (Hi j w' Hw') b st' Hst' Hd') as (g' & Eg' & Hg').
  rewrite Es in Eg, Hg. rewrite Es' in Eg', Hg'. destruct Hg as [Hg|(x & Ex & _)]; [left; by exists g|].
  destruct Hg' as [Hg'|(x' & Ex' & _)]; [right; by exists g'|]. congruence.
Qed.
End exclusion.

(** ** Two instances *)

Definition demo_owner : OwnerConfig := {| oc_ReportShards := 1; oc_LiveWindow := 10 * Second; oc_OwnerTTL := 10 * Second; oc_OwnerRefresh := 3 * Second |}.
Definition demo_owner_fate (now : Z) : OwnerFate := {| of_call := call_done; of_now := now; of_order := []; of_wake := wake_pending |}.
Definition no_cluster : Cluster := {| cl_now := 1000; cl_registry := ∅; cl_locks := ∅; cl_insts := ∅; cl_granted := ∅ |}.
Definition at_time (now : Z) (cl : Cluster) : Cluster :=
  {| cl_now := now; cl_registry := cl_registry cl; cl_locks := cl_locks cl; cl_insts := cl_insts cl; cl_granted := cl_granted cl |}.
(** A process starts and makes its first five calls: heartbeat, table, context, lock
    and start. *)
Local Abbreviation System := (Cluster * (string → option (prog ocmd unit)))%type.
Definition demo_starts (i : string) (s : System) : System :=
  par_run (exec_owner demo_owner) i (replicate 5 (demo_owner_fate 0)) (born i s.1, set_at i (Some (Run demo_owner i 3)) s.2).
(** The first process makes no further call for eleven seconds, and a second starts. *)
Definition demo_first : System := demo_starts "a" (no_cluster, λ _, None).
Definition demo_system : System := demo_starts "b" (at_time 12000 demo_first.1, demo_first.2).
Definition demo_second : Cluster := demo_system.1.

Lemma demo_starts_reach cl0 i s : s.2 i = None → owner_reach demo_owner (λ _, 3%nat) cl0 s → owner_reach demo_owner (λ _, 3%nat) cl0 (demo_starts i s).
Proof. destruct s as [cl P]. intros HP Hs. apply par_run_reach. eapply par_next; [exact Hs|]. exact (par_born (exec_owner demo_owner) (λ i, Run demo_owner i 3) bg_step die born i cl P HP). Qed.
Lemma demo_second_reach : owner_reach demo_owner (λ _, 3%nat) no_cluster (demo_second, demo_system.2).
Proof.
  assert (demo_system = (demo_second, demo_system.2)) as <- by apply surjective_pairing.
  apply demo_starts_reach; [by vm_compute|]. apply par_next with (s := demo_first); [by apply demo_starts_reach, par_start|].
  rewrite (surjective_pairing demo_first) at 1. apply par_env, (bg_time demo_first.1 12000). by vm_compute.
Qed.
Lemma demo_consumes i : i ∈ ["a"; "b"] → consumes demo_second i 0 0.
Proof.
  intros [->|[->|[]%not_elem_of_nil]%elem_of_cons]%elem_of_cons; do 2 eexists; (split; [vm_compute; reflexivity|]); (split; [vm_compute; reflexivity|]); by split.
Qed.

Lemma one_consumer_witness : consumes demo_second "a" 0 0 ∧ consumes demo_second "b" 0 0 ∧ (overdue demo_owner demo_second "a" 0 ∨ overdue demo_owner demo_second "b" 0).
Proof.
  split; [apply demo_consumes; left|]. split; [apply demo_consumes; right; left|]. 
  refine (proj2 (one_consumer demo_owner (λ _, 3%nat) no_cluster demo_second demo_system.2 "a" "b" 0 0 0 eq_refl demo_second_reach _ _ _)); [apply demo_consumes; left|apply demo_consumes; right; left|discriminate].
Defined.
