(* ===== verification/OwnerBalance.v ===== *)
(** * The balance of the shards

    Rounds of heartbeats of the live instances of [WorkerOwner]: when calls succeed
    and consumers stop when they are told to, two rounds leave every shard with an
    owner and no owner with more than its share. *)

From S2P Require Import Prelude GoStrings GoFloat PolicyBase PolicySignal GoTime LuaCommon PolicyAction PolicyRotation PolicySeverity PolicyEvaluate PolicyResolve Breaker IdGen.
From S2P Require Import ActionExec Effects WorkerOwner.

Local Open Scope Z_scope.
Local Open Scope prog_scope.

Section balance.
Variables (cfg : OwnerConfig) (clock : Z).
Local Abbreviation S := (oc_ReportShards cfg).
Local Abbreviation ms := (std_ms (oc_OwnerTTL cfg)).

(** ** A turn *)

(** Every call is answered. *)
Definition answered : OwnerFate := {| of_call := call_done; of_now := clock; of_order := []; of_wake := wake_pending |}.
Definition exec_done (i : string) (X : Type) : ocmd X → Cluster → option X * Cluster := exec_owner cfg i X answered.
Local Abbreviation run i p cl := (eval (exec_done i) p cl).

(** The cancelled consumers of an instance stop, and its goroutines come to their end. *)
Definition stop_cancelled (st : shardState) : shardState := if sh_cancelled st then stop st else st.
Definition on_objects (f : shardState → shardState) (w : Inst) : Inst :=
  {| in_heap := f <$> in_heap w; in_shards := in_shards w; in_tasks := in_tasks w; in_ctx := in_ctx w; in_closing := in_closing w |}.
Definition finish_task (i : string) (cl : Cluster) (t : Task) : Cluster :=
  match t with
  | t_release shard a => on_inst i (forgetShard shard a) (unlock_call i shard answered cl).2
  | t_forget shard a => on_inst i (forgetShard shard a) cl
  end.
Definition drain (i : string) (cl : Cluster) : Cluster :=
  on_inst i (on_tasks (λ _, [])) (foldl (finish_task i) (on_inst i (on_objects stop_cancelled) cl) (in_tasks (inst_at cl i))).

(** A heartbeat of an instance, after which it finishes what it began to release. *)
Definition turn (cl : Cluster) (i : string) : Cluster := drain i (run i (tick cfg i) cl).2.
Definition round (live : list string) (cl : Cluster) : Cluster := foldl turn cl live.

(** ** Between the turns *)

Definition own (cl : Cluster) (i : string) : gset Z := dom (in_shards (inst_at cl i)).
Definition owner (cl : Cluster) (s : Z) : option string := held (cl_locks cl) (cl_now cl) s.

Record steady (w : Inst) : Prop := {
  sd_ctx : in_ctx w = false;
  sd_tasks : in_tasks w = [];
  sd_owned : ∀ s a, in_shards w !! s = Some a → ∃ st, in_heap w !! a = Some st ∧ sh_phase st = phaseOwned ∧ sh_shard st = s;
}.

(** The members are alive, nothing is being given up, and the locks are those of the
    tables. *)
Record shared (live : list string) (cl : Cluster) : Prop := {
  sr_reg : ∀ i, is_Some (cl_registry cl !! i) ↔ i ∈ live;
  sr_fresh : ∀ i x, cl_registry cl !! i = Some x → cl_now cl - std_ms (oc_LiveWindow cfg) ≤ x;
  sr_inst : ∀ i, i ∈ live → ∃ w, cl_insts cl !! i = Some w ∧ steady w;
  sr_locks : ∀ s i, owner cl s = Some i ↔ i ∈ live ∧ s ∈ own cl i;
  sr_range : ∀ i s, i ∈ live → s ∈ own cl i → 0 ≤ s < S;
}.

Hypothesis ttl_pos : 1 ≤ ms.
Hypothesis window_pos : 0 ≤ std_ms (oc_LiveWindow cfg).
Hypothesis shards_pos : 0 < S.
Context (live : list string) (live_nodup : NoDup live) (live_named : "" ∉ live).

(** ** One more shard *)

(** The lock of a free shard is taken and its consumer started. *)
Definition taken (i : string) (s : Z) (cl : Cluster) : Cluster :=
  on_inst i (startShard clock s)
    {| cl_now := cl_now cl; cl_registry := cl_registry cl; cl_locks := <[s := (i, cl_now cl + ms)]> (cl_locks cl); cl_insts := cl_insts cl;
       cl_granted := <[(i, s) := cl_now cl]> (cl_granted cl) |}.

Lemma own_taken i j s cl w :
  cl_insts cl !! i = Some w → own (taken i s cl) j = if decide (i = j) then {[s]} ∪ own cl j else own cl j.
Proof.
  intros Hw. unfold own, inst_at, taken. cbn. case_decide as E; [subst j; rewrite lookup_alter_eq, Hw; cbn; by rewrite dom_insert_L|].
  by rewrite lookup_alter_ne.
Qed.
Lemma owner_taken i s s' cl : owner (taken i s cl) s' = if decide (s = s') then Some i else owner cl s'.
Proof.
  unfold owner, held, taken, lock_live. cbn. case_decide as E; [subst s'; rewrite lookup_insert_eq; cbn; destruct (Z.leb_spec (cl_now cl) (cl_now cl + ms)); [done|lia]|].
  by rewrite lookup_insert_ne.
Qed.

Lemma shared_taken i s cl : i ∈ live → 0 ≤ s < S → owner cl s = None → shared live cl → shared live (taken i s cl).
Proof.
  intros Hi Hs Hfree [R1 R2 R3 R4 R5]. destruct (R3 i Hi) as (w & Hw & Hst). split.
  - done.
  - done.
  - intros j Hj. cbn. destruct (decide (i = j)) as [<-|Hne]; [|rewrite lookup_alter_ne by done; by apply R3].
    rewrite lookup_alter_eq, Hw. eexists. split; [done|]. destruct Hst as [D1 D2 D3]. split; [done|done|]. cbn.
    intros s' a [[<- <-]|[Hne Ha]]%lookup_insert_Some; [eexists; split; [rewrite lookup_app_r, Nat.sub_diag by done; done|done]|].
    destruct (D3 s' a Ha) as (st & Hst' & Hp). exists st. split; [by apply lookup_app_l_Some|done].
  - intros s' j. rewrite owner_taken, (own_taken i j s cl w Hw). case_decide as E; [subst s'|].
    + split; [intros [= <-]; split; [done|rewrite decide_True by done; set_solver]|]. intros [Hj Hin]. case_decide as E; [by subst j|].
      assert (owner cl s = Some j) by (by apply R4). congruence.
    + rewrite R4. case_decide; set_solver.
  - intros j s' Hj. rewrite (own_taken i j s cl w Hw). case_decide as E; [|by apply R5]. intros [->%elem_of_singleton|Hin]%elem_of_union; [done|by eapply R5].
Qed.

Lemma args_ok i : i ∈ live → lockArgs i (oc_OwnerTTL cfg) = Some ms.
Proof.
  intros Hi. unfold lockArgs. destruct (String.eqb_spec i ""); [by subst i|]. destruct (Z.ltb_spec ms 1); [lia|]. done.
Qed.

Lemma run_acquire_free i s cl :
  i ∈ live → owner cl s = None →
  ∃ cl1, run i (acquireShard s) cl = (Some (Some true), cl1) ∧ exec_done i unit (o_start s) cl1 = (Some tt, taken i s cl).
Proof.
  intros Hi Hs. unfold acquireShard. rewrite eval_bind, eval_call. unfold exec_done, exec_owner, lock_call, TryLock. rewrite (args_ok i Hi).
  unfold redis_call. cbn. fold (owner cl s). rewrite Hs. cbn. eexists. split; reflexivity.
Qed.
Lemma run_acquire_held i j s cl : i ∈ live → owner cl s = Some j → i ≠ j → run i (acquireShard s) cl = (Some (Some false), cl).
Proof.
  intros Hi Hs Hne. unfold acquireShard. rewrite eval_bind, eval_call. unfold exec_done, exec_owner, lock_call, TryLock. rewrite (args_ok i Hi).
  unfold redis_call. cbn. fold (owner cl s). rewrite Hs. cbn. unfold RefreshLock. cbn.
  change (held _ _ s) with (owner cl s). rewrite decide_False by congruence. by destruct cl.
Qed.

Lemma run_err i cl : i ∈ live → shared live cl → exec_done i bool o_err cl = (Some false, cl).
Proof. intros Hi Hsh. destruct (sr_inst _ _ Hsh i Hi) as (w & Hw & Hst). unfold exec_done, exec_owner, inst_at. rewrite Hw. cbn. by rewrite (sd_ctx _ Hst). Qed.

(** What the acquiring loop does from [k] on: it takes free shards until it has as
    many as it needs or none of the rest is free. *)
Record gains (i : string) (start k need : Z) (cl cl' : Cluster) : Prop := {
  ga_shared : shared live cl';
  ga_others : ∀ j, i ≠ j → own cl' j = own cl j;
  ga_own : own cl i ⊆ own cl' i;
  ga_held : ∀ s, owner cl s ≠ None → owner cl' s ≠ None;
  ga_size : Z.of_nat (size (own cl' i)) ≤ Z.of_nat (size (own cl i)) + Z.max need 0;
  ga_done : Z.of_nat (size (own cl' i)) = Z.of_nat (size (own cl i)) + need ∨ ∀ k', k ≤ k' < S → owner cl' (nth_shard cfg start k') ≠ None;
}.

Lemma acquire_loop_gains i left start busy need cl :
  i ∈ live → shared live cl → Z.of_nat left ≤ S → 0 ≤ need →
  (∀ k, S - Z.of_nat left ≤ k < S → nth_shard cfg start k ∈ busy ↔ nth_shard cfg start k ∈ own cl i) →
  ∃ cl', run i (acquire_loop cfg left start busy need) cl = (Some tt, cl') ∧ gains i start (S - Z.of_nat left) need cl cl'.
Proof.
  intros Hi. revert need cl. induction left as [|left IH]; intros need cl Hsh Hl Hn Hb; cbn [acquire_loop].
  { exists cl. split; [done|]. split; try done; [lia|]. right. intros k'. lia. }
  destruct (Z.leb_spec need 0) as [H0|H0]; [exists cl; split; [done|]; split; try done; [lia|left; lia]|].
  rewrite eval_bind, eval_call, (run_err i cl Hi Hsh). destruct (sr_inst _ _ Hsh i Hi) as (w & Hw & Hst). cbv beta iota. set (k := S - Z.of_nat (Datatypes.S left)) in *. fold (nth_shard cfg start k).
  set (s := nth_shard cfg start k) in *.
  assert (0 ≤ s < S) as Hs by (unfold s, nth_shard; apply Z.mod_pos_bound; lia).
  assert (∀ cl1 cl2 need', gains i start (S - Z.of_nat left) need' cl1 cl2 → owner cl1 s ≠ None → own cl1 i = own cl i ∨ own cl1 i = {[s]} ∪ own cl i → 
    (∀ j, i ≠ j → own cl1 j = own cl j) → (∀ s', owner cl s' ≠ None → owner cl1 s' ≠ None) →
    Z.of_nat (size (own cl1 i)) + need' = Z.of_nat (size (own cl i)) + need → 0 ≤ need' → gains i start k need cl cl2) as Hstep.
  { intros cl1 cl2 need' [G1 G2 G3 G4 G5 G6] Hsn Hown Hoth Hheld Hsz Hn'. split; [done| | | | |].
    - intros j Hne. by rewrite G2, Hoth.
    - destruct Hown as [E|E]; rewrite E in G3; set_solver.
    - intros s' H'. by apply G4, Hheld.
    - lia.
    - destruct G6 as [G6|G6]; [left; lia|right]. intros k' Hk'. destruct (decide (k' = k)) as [->|Hne]; [by apply G4|]. apply G6. lia. }
  assert (∀ cl', (∀ k', S - Z.of_nat left ≤ k' < S → nth_shard cfg start k' ∈ own cl' i ↔ nth_shard cfg start k' ∈ own cl i) →
    ∀ k', S - Z.of_nat left ≤ k' < S → nth_shard cfg start k' ∈ busy ↔ nth_shard cfg start k' ∈ own cl' i) as Hb'.
  { intros cl' H k' Hk'. rewrite (H k' Hk'). apply Hb. lia. }
  case_decide as Hbs.
  { destruct (IH need cl Hsh ltac:(lia) Hn (Hb' cl ltac:(done))) as (cl' & E & Hg). exists cl'. split; [exact E|].
    apply (Hstep cl cl' need); try done; [|by left]. apply Hb in Hbs; [|lia]. assert (owner cl s = Some i) as -> by (by apply (sr_locks _ _ Hsh)). done. }
  rewrite eval_bind. destruct (owner cl s) as [j|] eqn:Eo.
  - assert (i ≠ j) as Hne. { intros <-. apply (sr_locks _ _ Hsh) in Eo as [_ Eo]. apply Hbs, Hb; [lia|done]. }
    rewrite (run_acquire_held i j s cl Hi Eo Hne). destruct (IH need cl Hsh ltac:(lia) Hn (Hb' cl ltac:(done))) as (cl' & E & Hg).
    exists cl'. split; [exact E|]. apply (Hstep cl cl' need); try done; [by rewrite Eo|by left].
  - destruct (run_acquire_free i s cl Hi Eo) as (cl1 & E1 & E2). rewrite E1. cbv beta iota. rewrite eval_bind, eval_call, E2.
    pose proof (shared_taken i s cl Hi Hs Eo Hsh) as Hsh'. assert (s ∉ own cl i) as Hout by (intros H; apply Hbs, Hb; [lia|done]).
    destruct (IH (need - 1) (taken i s cl) Hsh' ltac:(lia) ltac:(lia)) as (cl' & E & Hg).
    { apply Hb'. intros k' Hk'. rewrite (own_taken i i s cl w Hw), decide_True by done. rewrite elem_of_union, elem_of_singleton.
      split; [intros [E|?]; [|done]|by right]. apply nth_shard_inj in E; lia. }
    exists cl'. split; [exact E|]. apply (Hstep (taken i s cl) cl' (need - 1)); try done.
    + rewrite owner_taken. by rewrite decide_True.
    + right. by rewrite (own_taken i i s cl w Hw), decide_True.
    + intros j Hne. by rewrite (own_taken i j s cl w Hw), decide_False.
    + intros s' H'. rewrite owner_taken. by case_decide.
    + rewrite (own_taken i i s cl w Hw), decide_True, size_union, size_singleton by (done || set_solver). lia.
    + lia.
Qed.

(** ** Giving shards up *)

(** What the goroutines leave of an instance that gave up [rel]. *)
Record gave (i : string) (rel : list Z) (cl cl' : Cluster) : Prop := {
  gv_now : cl_now cl' = cl_now cl;
  gv_registry : cl_registry cl' = cl_registry cl;
  gv_locks : ∀ s, cl_locks cl' !! s = if decide (s ∈ rel) then None else cl_locks cl !! s;
  gv_others : ∀ j, i ≠ j → cl_insts cl' !! j = cl_insts cl !! j;
  gv_table : ∀ w, cl_insts cl !! i = Some w → ∃ w', cl_insts cl' !! i = Some w' ∧ in_ctx w' = in_ctx w ∧
    ∀ s, in_shards w' !! s = if decide (s ∈ rel) then None else in_shards w !! s;
  gv_phase : ∀ w w' s a, cl_insts cl !! i = Some w → cl_insts cl' !! i = Some w' → s ∉ rel → in_shards w !! s = Some a →
    (λ st, (sh_phase st, sh_shard st)) <$> in_heap w' !! a = (λ st, (sh_phase st, sh_shard st)) <$> in_heap w !! a;
}.

(** The table and the phases of the instance after it told consumers to stop. *)
Record giving (rel : list Z) (w w' : Inst) : Prop := {
  gi_ctx : in_ctx w' = in_ctx w;
  gi_shards : in_shards w' = in_shards w;
  gi_tasks : in_tasks w' = in_tasks w ++ ((λ s, t_release s (default 0%nat (in_shards w !! s))) <$> rel);
  gi_heap : ∀ s a, s ∉ rel → in_shards w !! s = Some a → in_heap w' !! a = in_heap w !! a;
}.
Definition owned_all (rel : list Z) (w : Inst) : Prop :=
  ∀ s, s ∈ rel → ∃ a st, in_shards w !! s = Some a ∧ in_heap w !! a = Some st ∧ sh_phase st = phaseOwned.
Definition own_objects (w : Inst) : Prop := ∀ s a, in_shards w !! s = Some a → ∃ st, in_heap w !! a = Some st ∧ sh_shard st = s.

Lemma releaseShard_giving s w : owned_all [s] w → own_objects w → giving [s] w (releaseShard s w) ∧ own_objects (releaseShard s w).
Proof.
  intros Ho Hw. destruct (Ho s (list_elem_of_here _ _)) as (a & st & Hs & Hst & Hp). unfold releaseShard. rewrite Hs. unfold phase_of. rewrite Hst. cbn.
  rewrite decide_True by (by f_equal). split.
  - split; [done|done|cbn; by rewrite Hs|]. cbn. intros s' a' Hne Ha'. apply list_lookup_alter_ne. intros ->.
    destruct (Hw s' a' Ha') as (st1 & E1 & <-). destruct (Hw s a' Hs) as (st2 & E2 & <-). rewrite E1 in E2. injection E2 as <-. apply Hne, list_elem_of_here.
  - intros s' a' Ha'. cbn in *. destruct (Hw s' a' Ha') as (st1 & E1 & <-). destruct (decide (a = a')) as [<-|Hne].
    + exists (set_phase phaseReleasing st1). by rewrite list_lookup_alter_eq, E1.
    + exists st1. by rewrite list_lookup_alter_ne.
Qed.

Lemma release_giving rel w : NoDup rel → owned_all rel w → own_objects w → giving rel w (foldl (λ w s, releaseShard s w) w rel).
Proof.
  revert w. induction rel as [|s rel IH]; intros w Hd Ho Hw; [split; [done|done|cbn; by rewrite app_nil_r|done]|]. apply NoDup_cons in Hd as [Hs Hd]. cbn.
  destruct (releaseShard_giving s w) as [[G1 G2 G3 G4] Hw1]; [intros s' ->%list_elem_of_singleton; apply Ho, list_elem_of_here|done|].
  destruct (IH (releaseShard s w)) as [K1 K2 K3 K4]; [done| |done|].
  { intros s' Hs'. destruct (Ho s') as (a & st & Ha & Hst & Hp); [by apply elem_of_cons; right|]. exists a, st. rewrite G2, (G4 s' a); [done| |done].
    intros ->%list_elem_of_singleton. done. }
  split; [congruence|congruence| |].
  - rewrite K3, G3, <- app_assoc. cbn. by rewrite G2.
  - intros s' a [Hne Hin]%not_elem_of_cons Ha. rewrite (K4 s' a), (G4 s' a); [done| |done|done|by rewrite G2]. by intros ->%list_elem_of_singleton.
Qed.

Lemma run_release_all i rel cl :
  run i (release_all rel) cl = (Some tt, foldl (λ cl s, on_inst i (releaseShard s) cl) cl rel).
Proof. revert cl. induction rel as [|s rel IH]; intros cl; [done|]. cbn [release_all]. rewrite eval_bind, eval_call. cbv beta iota. apply IH. Qed.

Lemma on_inst_compose i f g cl : on_inst i f (on_inst i g cl) = on_inst i (f ∘ g) cl.
Proof.
  unfold on_inst. cbn. f_equal. apply map_eq. intros j. destruct (decide (i = j)) as [<-|Hne]; [rewrite !lookup_alter_eq; by destruct (_ !! i)|].
  by rewrite !lookup_alter_ne.
Qed.
Lemma on_inst_fold {A : Type} i (f : A → Inst → Inst) l cl :
  foldl (λ cl a, on_inst i (f a) cl) cl l = on_inst i (λ w, foldl (λ w a, f a w) w l) cl.
Proof.
  revert cl. induction l as [|a l IH]; intros cl; cbn; [|rewrite IH; by rewrite on_inst_compose].
  destruct cl. unfold on_inst. cbn. f_equal. apply map_eq. intros j.
  destruct (decide (i = j)) as [<-|Hne]; [rewrite lookup_alter_eq; by destruct (_ !! i)|by rewrite lookup_alter_ne].
Qed.

Lemma drain_one_task i s a w cl :
  cl_insts cl !! i = Some w → in_shards w !! s = Some a → owner cl s = Some i →
  finish_task i cl (t_release s a) =
    {| cl_now := cl_now cl; cl_registry := cl_registry cl; cl_locks := delete s (cl_locks cl);
       cl_insts := <[i := on_table (delete s) w]> (cl_insts cl); cl_granted := cl_granted cl |}.
Proof.
  intros Hw Hs Ho. unfold finish_task, unlock_call, redis_call, on_inst. cbn. unfold Unlock. fold (owner cl s). rewrite decide_True by done. f_equal.
  apply map_eq. intros j. destruct (decide (i = j)) as [<-|Hne]; [|by rewrite lookup_alter_ne, lookup_insert_ne].
  rewrite lookup_alter_eq, lookup_insert_eq, Hw. cbn. unfold forgetShard. by rewrite decide_True.
Qed.

Lemma finish_all i (addr : Z → nat) rel cl w :
  cl_insts cl !! i = Some w → NoDup rel → (∀ s, s ∈ rel → in_shards w !! s = Some (addr s) ∧ owner cl s = Some i) →
  let cl' := foldl (finish_task i) cl ((λ s, t_release s (addr s)) <$> rel) in
  cl_now cl' = cl_now cl ∧ cl_registry cl' = cl_registry cl ∧
  (∀ s, cl_locks cl' !! s = if decide (s ∈ rel) then None else cl_locks cl !! s) ∧
  (∀ j, i ≠ j → cl_insts cl' !! j = cl_insts cl !! j) ∧
  ∃ w', cl_insts cl' !! i = Some w' ∧ in_ctx w' = in_ctx w ∧ in_heap w' = in_heap w ∧
    ∀ s, in_shards w' !! s = if decide (s ∈ rel) then None else in_shards w !! s.
Proof.
  revert cl w. induction rel as [|s rel IH]; intros cl w Hw Hd Hs; cbn zeta; cbn [foldl fmap list_fmap].
  { assert (∀ {B} (m : gmap Z B) s, m !! s = if decide (s ∈ @nil Z) then None else m !! s) as Hnil.
    { intros B m s. case_decide as H; [by apply not_elem_of_nil in H|done]. }
    split; [done|]. split; [done|]. split; [intros s; apply Hnil|]. split; [done|]. exists w. do 3 (split; [done|]). intros s. apply Hnil. }
  apply NoDup_cons in Hd as [Hn Hd]. destruct (Hs s (list_elem_of_here _ _)) as [Ha Ho]. rewrite (drain_one_task i s (addr s) w cl Hw Ha Ho).
  set (cl1 := {| cl_now := _ |}). destruct (IH cl1 (on_table (delete s) w)) as (I1 & I2 & I3 & I4 & w' & I5 & I6 & I7 & I8).
  - cbn. by rewrite lookup_insert_eq.
  - done.
  - intros s' Hs'. destruct (Hs s') as [Ha' Ho']; [by apply elem_of_cons; right|]. assert (s ≠ s') by (by intros <-).
    cbn. unfold owner, held in *. cbn. by rewrite !lookup_delete_ne.
  - assert (∀ {B} (m : gmap Z B) s', (if decide (s' ∈ rel) then None else delete s m !! s') = if decide (s' ∈ s :: rel) then None else m !! s') as Hdec.
    { intros B m s'. destruct (decide (s' ∈ s :: rel)) as [Hin|Hin].
      - case_decide; [done|]. apply elem_of_cons in Hin as [->|]; [apply lookup_delete_eq|done].
      - apply not_elem_of_cons in Hin as [Hne Hin]. by rewrite decide_False, lookup_delete_ne. }
    split; [done|]. split; [done|]. split; [intros s'; rewrite I3; apply (Hdec (string * Z)%type)|]. split.
    + intros j Hne. rewrite I4 by done. cbn. by rewrite lookup_insert_ne.
    + exists w'. split; [done|]. split; [done|]. split; [done|]. intros s'. rewrite I8. cbn. apply Hdec.
Qed.

Lemma drain_gave i rel w cl :
  cl_insts cl !! i = Some w → NoDup rel → steady w → (∀ s, s ∈ rel → is_Some (in_shards w !! s) ∧ owner cl s = Some i) →
  gave i rel cl (drain i (on_inst i (λ w, foldl (λ w s, releaseShard s w) w rel) cl)) ∧
  ∃ w', cl_insts (drain i (on_inst i (λ w, foldl (λ w s, releaseShard s w) w rel) cl)) !! i = Some w' ∧ in_tasks w' = [].
Proof.
  intros Hw Hd [D1 D2 D3] Hrel. set (w1 := foldl (λ w s, releaseShard s w) w rel).
  destruct (release_giving rel w Hd) as [G1 G2 G3 G4].
  { intros s [[a Ha] _]%Hrel. destruct (D3 s a Ha) as (st & Hst & Hp & _). by exists a, st. }
  { intros s a Ha. destruct (D3 s a Ha) as (st & Hst & _ & Es). by exists st. }
  fold w1 in G1, G2, G3, G4. rewrite D2 in G3. cbn in G3.
  unfold drain. rewrite on_inst_compose. unfold inst_at. cbn [cl_insts on_inst]. rewrite lookup_alter_eq, Hw. cbn [fmap option_fmap option_map default]. fold w1. unfold id. rewrite G3.
  set (cl1 := on_inst i _ cl). set (addr := λ s, default 0%nat (in_shards w !! s)).
  destruct (finish_all i addr rel cl1 (on_objects stop_cancelled w1)) as (I1 & I2 & I3 & I4 & w' & I5 & I6 & I7 & I8).
  { unfold cl1. cbn. by rewrite lookup_alter_eq, Hw. }
  { done. }
  { intros s [[a Ha] Ho]%Hrel. split; [|exact Ho]. cbn. rewrite G2. unfold addr. by rewrite Ha. }
  change (λ s, t_release s (default 0%nat (in_shards w !! s))) with (λ s, t_release s (addr s)).
  set (cl2 := foldl (finish_task i) cl1 _) in *. split; [|exists (on_tasks (λ _, []) w'); cbn; by rewrite lookup_alter_eq, I5].
  split; cbn.
  - done.
  - done.
  - done.
  - intros j Hne. rewrite lookup_alter_ne by done. rewrite I4 by done. unfold cl1. cbn. by rewrite lookup_alter_ne.
  - intros w0 Hw0. rewrite Hw in Hw0. injection Hw0 as <-. exists (on_tasks (λ _, []) w'). rewrite lookup_alter_eq, I5. split; [done|]. cbn.
    split; [by rewrite I6|]. intros s. rewrite I8. cbn. by rewrite G2.
  - intros w0 w2 s a Hw0 Hw2 Hs Ha. rewrite Hw in Hw0. injection Hw0 as <-. rewrite lookup_alter_eq, I5 in Hw2. injection Hw2 as <-. cbn.
    rewrite I7. cbn. rewrite list_lookup_fmap, (G4 s a Hs Ha). destruct (in_heap w !! a) as [st|]; [|done]. cbn. unfold stop_cancelled. by destruct (sh_cancelled st).
Qed.

Lemma shared_gave i rel cl cl' :
  i ∈ live → shared live cl → gave i rel cl cl' → (∀ s, s ∈ rel → owner cl s = Some i) →
  (∃ w', cl_insts cl' !! i = Some w' ∧ in_tasks w' = []) →
  shared live cl' ∧ (∀ j, i ≠ j → own cl' j = own cl j) ∧ own cl' i = own cl i ∖ list_to_set rel.
Proof.
  intros Hi [R1 R2 R3 R4 R5] [V1 V2 V3 V4 V5 V6] Hrel (w' & Hw' & Ht). destruct (R3 i Hi) as (w & Hw & [D1 D2 D3]).
  destruct (V5 w Hw) as (w1 & Hw1 & C1 & T1). rewrite Hw' in Hw1. injection Hw1 as <-.
  assert (∀ j, i ≠ j → own cl' j = own cl j) as O1 by (intros j Hne; unfold own, inst_at; by rewrite V4).
  assert (own cl' i = own cl i ∖ list_to_set rel) as O2.
  { unfold own, inst_at. rewrite Hw, Hw'. cbn. apply set_eq. intros s. rewrite elem_of_difference, elem_of_list_to_set, !elem_of_dom, T1.
    case_decide; [split; [by intros [? ?]|tauto]|tauto]. }
  split; [|done]. assert (∀ s, owner cl' s = if decide (s ∈ rel) then None else owner cl s) as Hown.
  { intros s. unfold owner, held. rewrite V1, V3. by case_decide. }
  split.
  - by rewrite V2.
  - by rewrite V1, V2.
  - intros j Hj. destruct (decide (i = j)) as [<-|Hne]; [|rewrite V4 by done; by apply R3]. exists w'. split; [done|]. split; [congruence|done|].
    intros s a Ha. rewrite T1 in Ha. case_decide as Hs; [done|]. destruct (D3 s a Ha) as (st & Hst & Hp & Es).
    pose proof (V6 w w' s a Hw Hw' Hs Ha) as E. rewrite Hst in E. apply fmap_Some in E as (st' & Hst' & E). injection E as E1 E2. exists st'. split; [done|]. split; congruence.
  - intros s j. rewrite Hown. destruct (decide (i = j)) as [<-|Hne].
    + rewrite O2, elem_of_difference, elem_of_list_to_set. case_decide; [by split; [|tauto]|]. rewrite R4. tauto.
    + rewrite O1 by done. case_decide as Hs; [|apply R4]. split; [done|]. intros Hj. apply R4 in Hj. rewrite (Hrel s Hs) in Hj. congruence.
  - intros j s Hj. destruct (decide (i = j)) as [<-|Hne]; [rewrite O2; intros [Hin _]%elem_of_difference; by eapply R5|]. rewrite O1 by done. by apply R5.
Qed.

(** ** A turn *)

Lemma run_registry i cl :
  i ∈ live → shared live cl →
  ∃ l reg, run i (registry true) cl = (Some (Some l), on_registry (λ _, reg) cl) ∧ l ≡ₚ live ∧ shared live (on_registry (λ _, reg) cl).
Proof.
  intros Hi [R1 R2 R3 R4 R5]. set (fresh := λ m : string * Z, cl_now cl - std_ms (oc_LiveWindow cfg) ≤ m.2).
  assert (filter fresh (<[i := cl_now cl]> (cl_registry cl)) = <[i := cl_now cl]> (cl_registry cl)) as Hall.
  { apply map_filter_id. intros j x [[<- <-]|[_ Hx]]%lookup_insert_Some; unfold fresh; cbn; [lia|by eapply R2]. }
  set (reg := <[i := cl_now cl]> (cl_registry cl)) in *.
  exists (SortFunc string_compare (map_to_list reg).*1), reg. split.
  { unfold registry. rewrite eval_bind, eval_call. cbn. fold fresh. fold reg. by rewrite Hall, Hall. }
  assert (∀ j, is_Some (reg !! j) ↔ j ∈ live) as Hreg.
  { intros j. unfold reg. destruct (decide (i = j)) as [<-|Hne]; [rewrite lookup_insert_eq; split; [done|by eexists]|]. rewrite lookup_insert_ne by done. apply R1. }
  split.
  - rewrite SortFunc_perm. apply NoDup_Permutation; [apply NoDup_fst_map_to_list|done|]. intros j. rewrite <- Hreg, list_elem_of_fmap. split.
    + intros ([j' x] & -> & Hx%elem_of_map_to_list). by exists x.
    + intros [x Hx]. exists (j, x). split; [done|by apply elem_of_map_to_list].
  - split; try done. cbn. intros j x [[<- <-]|[_ Hx]]%lookup_insert_Some; [lia|by eapply R2].
Qed.

Lemma place_live i l : l ≡ₚ live → i ∈ live → ∃ pos, place i l = (pos, Z.of_nat (length live)).
Proof.
  intros Hl Hi. unfold place, index_of. destruct (list_find (λ j, j = i) l) as [[pos j]|] eqn:E; cbn; [exists (Z.of_nat pos); by rewrite Hl|].
  apply list_find_None, Forall_forall with (x := i) in E; [done|by rewrite Hl].
Qed.

Lemma table_keys w : steady w → (λ x : Z * nat * shardState, x.1.1) <$> table_of w = (map_to_list (in_shards w)).*1 ∧ Forall (λ x : Z * nat * shardState, sh_phase x.2 = phaseOwned) (table_of w).
Proof.
  intros [_ _ D3]. unfold table_of. assert (∀ x, x ∈ map_to_list (in_shards w) → ∃ st, in_heap w !! x.2 = Some st ∧ sh_phase st = phaseOwned) as H.
  { intros [s a] Hx%elem_of_map_to_list. destruct (D3 s a Hx) as (st & Hst & Hp & _). by exists st. }
  induction (map_to_list (in_shards w)) as [|x l IH]; [done|]. destruct (H x (list_elem_of_here _ _)) as (st & Hst & Hp). cbn. rewrite Hst. cbn.
  destruct IH as [IH1 IH2]; [intros y Hy; apply H; by apply elem_of_cons; right|]. split; [by f_equal|by constructor].
Qed.

Lemma size_own i w cl : cl_insts cl !! i = Some w → size (own cl i) = length (map_to_list (in_shards w)).
Proof. intros Hw. unfold own, inst_at. rewrite Hw. cbn. by rewrite size_dom, <- length_map_to_list. Qed.
Lemma own_keys i w cl s : cl_insts cl !! i = Some w → s ∈ own cl i ↔ s ∈ (map_to_list (in_shards w)).*1.
Proof.
  intros Hw. unfold own, inst_at. rewrite Hw. cbn. rewrite elem_of_dom, list_elem_of_fmap. split.
  - intros [a Ha]. exists (s, a). split; [done|by apply elem_of_map_to_list].
  - intros ([s' a] & -> & Ha%elem_of_map_to_list). by exists a.
Qed.

Local Abbreviation share := (target cfg (Z.of_nat (length live))).

(** What a turn of an instance does. *)
Record turned (i : string) (cl cl' : Cluster) : Prop := {
  tu_shared : shared live cl';
  tu_others : ∀ j, i ≠ j → own cl' j = own cl j;
  tu_share : Z.of_nat (size (own cl' i)) ≤ share;
  tu_held : Z.of_nat (size (own cl i)) ≤ share → ∀ s, owner cl s ≠ None → owner cl' s ≠ None;
  tu_full : Z.of_nat (size (own cl i)) ≤ share → Z.of_nat (size (own cl' i)) = share ∨ ∀ s, 0 ≤ s < S → owner cl' s ≠ None;
}.

Lemma drain_steady i cl :
  i ∈ live → shared live cl → shared live (drain i cl) ∧ (∀ j, own (drain i cl) j = own cl j) ∧ ∀ s, owner (drain i cl) s = owner cl s.
Proof.
  intros Hi Hsh. destruct (sr_inst _ _ Hsh i Hi) as (w & Hw & Hst). destruct (drain_gave i [] w cl Hw) as [Hg Ht]; [constructor|done|by intros s Hs%not_elem_of_nil|].
  rewrite <- (on_inst_fold i (λ s, releaseShard s) [] cl) in Hg, Ht. cbn in Hg, Ht.
  destruct (shared_gave i [] cl (drain i cl) Hi Hsh Hg) as (H1 & H2 & H3); [by intros s Hs%not_elem_of_nil|done|]. split; [done|]. split.
  - intros j. destruct (decide (i = j)) as [<-|Hne]; [rewrite H3; set_solver|by apply H2].
  - intros s. unfold owner, held. rewrite (gv_now _ _ _ _ Hg), (gv_locks _ _ _ _ Hg). case_decide as Hs; [by apply not_elem_of_nil in Hs|done].
Qed.

Lemma share_nonneg i : i ∈ live → 0 ≤ share.
Proof. intros Hi. destruct live as [|j l]; [by apply not_elem_of_nil in Hi|]. unfold target. cbn [length]. apply Z.div_pos; lia. Qed.

Lemma filter_keeps {A : Type} (P : A → Prop) `{∀ x, Decision (P x)} (l : list A) : (∀ x, x ∈ l → P x) → filter P l = l.
Proof.
  induction l as [|x l IH]; intros Hl; [done|]. rewrite filter_cons_True by apply Hl, list_elem_of_here. f_equal. apply IH. intros y Hy. apply Hl. by apply elem_of_cons; right.
Qed.
(** What the instance reads of its table. *)
Lemma table_answer (w : Inst) :
  steady w →
  let tbl := in_order [] (table_of w) in
  (λ x : Z * nat * shardState, x.1.1) <$> tbl ≡ₚ (map_to_list (in_shards w)).*1 ∧ filter (λ x : Z * nat * shardState, sh_phase x.2 = phaseOwned) tbl = tbl.
Proof.
  intros Hst. destruct (table_keys w Hst) as [Hk Ho]. intros tbl. pose proof (in_order_perm [] (table_of w)) as Hp. fold tbl in Hp.
  split; [by rewrite Hp, Hk|]. apply filter_keeps. intros x Hx. eapply Forall_forall in Ho; [exact Ho|]. by rewrite <- Hp.
Qed.

Lemma nth_shard_onto start s : 0 ≤ s < S → ∃ k, 0 ≤ k < S ∧ nth_shard cfg start k = s.
Proof.
  intros Hs. exists ((s - start) mod S). split; [apply Z.mod_pos_bound; lia|]. unfold nth_shard. rewrite Zplus_mod_idemp_r.
  replace (start + (s - start)) with s by lia. by apply Z.mod_small.
Qed.

Lemma turned_registry i reg cl cl' : turned i (on_registry (λ _, reg) cl) cl' → turned i cl cl'.
Proof. by intros [H1 H2 H3 H4 H5]. Qed.

Lemma release_turned i rel cl w :
  i ∈ live → shared live cl → cl_insts cl !! i = Some w → NoDup rel → (∀ s, s ∈ rel → s ∈ own cl i) →
  Z.of_nat (size (own cl i)) - Z.of_nat (length rel) ≤ share → share < Z.of_nat (size (own cl i)) →
  turned i cl (drain i (foldl (λ cl s, on_inst i (releaseShard s) cl) cl rel)).
Proof.
  intros Hi Hsh Hw Hd Hrel Hsz Hlt. destruct (sr_inst _ _ Hsh i Hi) as (w' & Hw' & Hst). rewrite Hw in Hw'. injection Hw' as <-.
  assert (∀ s, s ∈ rel → owner cl s = Some i) as Ho by (intros s Hs; apply (sr_locks _ _ Hsh); split; [done|by apply Hrel]).
  rewrite (on_inst_fold i (λ s, releaseShard s) rel cl). destruct (drain_gave i rel w cl Hw Hd Hst) as [Hg Ht].
  { intros s Hs. split; [|by apply Ho]. apply Hrel in Hs. unfold own, inst_at in Hs. rewrite Hw in Hs. by apply elem_of_dom in Hs. }
  destruct (shared_gave i rel cl _ Hi Hsh Hg Ho Ht) as (H1 & H2 & H3). split; [done|done| |lia|lia].
  pose proof (share_nonneg i Hi). rewrite H3, size_difference by set_solver. rewrite size_list_to_set by done. lia.
Qed.

Lemma gains_turned i start cl cl' :
  i ∈ live → gains i start 0 (share - Z.of_nat (size (own cl i))) cl cl' → Z.of_nat (size (own cl i)) ≤ share → turned i cl (drain i cl').
Proof.
  intros Hi [G1 G2 G3 G4 G5 G6] Hle. destruct (drain_steady i cl' Hi G1) as (D1 & D2 & D3). split; [done| | | |].
  - intros j Hne. by rewrite D2, G2.
  - rewrite D2. lia.
  - intros _ s Hs. rewrite D3. by apply G4.
  - intros _. rewrite D2. destruct G6 as [G6|G6]; [left; lia|right]. intros s Hs. destruct (nth_shard_onto start s Hs) as (k & Hk & <-). rewrite D3. apply G6. lia.
Qed.

Lemma turn_spec i cl : i ∈ live → shared live cl → turned i cl (turn cl i).
Proof.
  intros Hi Hsh. unfold turn, tick. rewrite eval_bind. destruct (run_registry i cl Hi Hsh) as (l & reg & E & Hl & Hsh1). rewrite E. cbv beta iota. clear E.
  destruct (place_live i l Hl Hi) as [pos Ep]. unfold rebalance. rewrite Ep. rewrite eval_bind, eval_call. cbv zeta. apply turned_registry with (reg := reg).
  set (cl1 := on_registry (λ _, reg) cl) in *. destruct (sr_inst _ _ Hsh1 i Hi) as (w & Hw & Hst).
  unfold exec_done at 1. cbn [exec_owner]. unfold inst_at. rewrite Hw. cbn [default]. unfold id. destruct (table_answer w Hst) as [Hk Hf].
  cbn [of_order answered]. set (tbl := in_order [] (table_of w)) in *. rewrite Hf. set (keys := _ <$> tbl) in *. set (owned := merge_sort Z.le keys).
  assert (owned ≡ₚ keys) as Hp by apply merge_sort_Permutation.
  assert (Z.of_nat (length owned) = Z.of_nat (size (own cl1 i))) as Hlen by (rewrite Hp, Hk, (size_own i w cl1 Hw), length_fmap; done).
  assert (∀ s, s ∈ keys ↔ s ∈ own cl1 i) as Hkeys by (intros s; by rewrite (own_keys i w cl1 s Hw), Hk).
  pose proof (share_nonneg i Hi) as H0. rewrite Hlen. destruct (Z.gtb_spec (Z.of_nat (size (own cl1 i))) share) as [Hgt|Hle].
  - rewrite run_release_all. cbn [snd]. assert (NoDup owned) as Hd by (rewrite Hp, Hk; apply NoDup_fst_map_to_list).
    apply (release_turned i _ cl1 w Hi Hsh1 Hw); [| |rewrite length_drop; lia|lia]; rewrite <- (take_drop (Z.to_nat share) owned) in Hd, Hp.
    + by apply NoDup_app in Hd as (_ & _ & Hd).
    + intros s Hs. apply Hkeys. rewrite <- Hp. by apply elem_of_app; right.
  - destruct (Z.ltb_spec (Z.of_nat (size (own cl1 i))) share) as [Hlt|Hge].
    + destruct (acquire_loop_gains i (Z.to_nat S) (pos * S / Z.of_nat (length live)) keys (share - Z.of_nat (size (own cl1 i))) cl1 Hi Hsh1) as (cl' & E & Hg);
        [lia|lia|by intros k _|]. rewrite E. cbn [snd]. replace (S - Z.of_nat (Z.to_nat S)) with 0 in Hg by lia. by eapply gains_turned.
    + cbn [eval snd]. apply (gains_turned i 0); [done| |lia]. split; try done; [lia|left; lia].
Qed.

(** ** Rounds *)

Definition within (cl : Cluster) (i : string) : Prop := Z.of_nat (size (own cl i)) ≤ share.

Lemma round_shares l cl :
  NoDup l → (∀ i, i ∈ l → i ∈ live) → shared live cl →
  shared live (foldl turn cl l) ∧ (∀ j, j ∉ l → own (foldl turn cl l) j = own cl j) ∧ ∀ i, i ∈ l → within (foldl turn cl l) i.
Proof.
  revert cl. induction l as [|i l IH]; intros cl Hd Hl Hsh; cbn [foldl]; [split_and!; [done|done|by intros i Hi%not_elem_of_nil]|].
  apply NoDup_cons in Hd as [Hi Hd]. destruct (turn_spec i cl (Hl i (list_elem_of_here _ _)) Hsh) as [T1 T2 T3 _ _].
  destruct (IH (turn cl i) Hd) as (I1 & I2 & I3); [intros j Hj; apply Hl; by apply elem_of_cons; right|done|]. split; [done|]. split.
  - intros j [Hne Hj]%not_elem_of_cons. rewrite I2 by done. by apply T2.
  - intros j [->|Hj]%elem_of_cons; [|by apply I3]. unfold within. by rewrite I2.
Qed.

(** Nobody has more than its share: then nothing is given up, and whoever had its turn
    has its full share or found nothing left. *)
Lemma round_fills l cl :
  NoDup l → (∀ i, i ∈ l → i ∈ live) → shared live cl → (∀ i, i ∈ live → within cl i) →
  (∀ s, owner cl s ≠ None → owner (foldl turn cl l) s ≠ None) ∧
  ∀ i, i ∈ l → Z.of_nat (size (own (foldl turn cl l) i)) = share ∨ ∀ s, 0 ≤ s < S → owner (foldl turn cl l) s ≠ None.
Proof.
  revert cl. induction l as [|i l IH]; intros cl Hd Hl Hsh Hw; cbn [foldl]; [split; [done|by intros i Hi%not_elem_of_nil]|].
  apply NoDup_cons in Hd as [Hi Hd]. pose proof (Hl i (list_elem_of_here _ _)) as Hil. assert (∀ j, j ∈ l → j ∈ live) as Hl' by (intros j Hj; apply Hl; by apply elem_of_cons; right).
  destruct (turn_spec i cl Hil Hsh) as [T1 T2 T3 T4 T5]. specialize (T4 (Hw i Hil)). specialize (T5 (Hw i Hil)).
  destruct (IH (turn cl i) Hd Hl' T1) as [I1 I2].
  { intros j Hj. destruct (decide (i = j)) as [<-|Hne]; [done|]. unfold within. rewrite T2 by done. by apply Hw. }
  split; [intros s Hs; by apply I1, T4|]. intros j [->|Hj]%elem_of_cons; [|by apply I2].
  destruct (round_shares l (turn cl i) Hd Hl' T1) as (_ & R2 & _). rewrite (R2 i Hi). destruct T5 as [T5|T5]; [by left|right]. intros s Hs. by apply I1, T5.
Qed.

Lemma own_disjoint cl i j : shared live cl → i ∈ live → j ∈ live → i ≠ j → own cl i ## own cl j.
Proof.
  intros Hsh Hi Hj Hne s Hs1 Hs2. assert (owner cl s = Some i) as E1 by (by apply (sr_locks _ _ Hsh)).
  assert (owner cl s = Some j) as E2 by (by apply (sr_locks _ _ Hsh)). congruence.
Qed.
Lemma size_all cl l :
  shared live cl → NoDup l → (∀ i, i ∈ l → i ∈ live ∧ Z.of_nat (size (own cl i)) = share) →
  Z.of_nat (size (⋃ (own cl <$> l))) = Z.of_nat (length l) * share.
Proof.
  intros Hsh. induction l as [|i l IH]; intros Hd Hl; [cbn; by rewrite size_empty|]. apply NoDup_cons in Hd as [Hi Hd]. cbn [fmap list_fmap union_list foldr length].
  destruct (Hl i (list_elem_of_here _ _)) as [Hil Hsz]. rewrite size_union.
  - specialize (IH Hd ltac:(intros j Hj; apply Hl; by apply elem_of_cons; right)). rewrite Nat2Z.inj_add, Hsz, IH, Nat2Z.inj_succ. ring.
  - intros s Hs (X & HX & HsX)%elem_of_union_list. apply list_elem_of_fmap in HX as (j & -> & Hj).
    apply (own_disjoint cl i j Hsh Hil) with (x := s); [by apply Hl; apply elem_of_cons; right|by intros <-|done|done].
Qed.

Lemma share_enough i : i ∈ live → S ≤ Z.of_nat (length live) * share.
Proof.
  intros Hi. assert (0 < Z.of_nat (length live)) as Hn by (destruct live; [by apply not_elem_of_nil in Hi|cbn; lia]). unfold target.
  pose proof (Z.div_mod (S + Z.of_nat (length live) - 1) (Z.of_nat (length live)) ltac:(lia)). pose proof (Z.mod_pos_bound (S + Z.of_nat (length live) - 1) (Z.of_nat (length live)) Hn). lia.
Qed.

Lemma full_covers cl s :
  live ≠ [] → shared live cl → (∀ i, i ∈ live → Z.of_nat (size (own cl i)) = share) → 0 ≤ s < S → owner cl s ≠ None.
Proof.
  intros Hne Hsh Hfull Hs E. assert (∃ i, i ∈ live) as [i0 Hi0].
  { clear -Hne. destruct live as [|i l]; [done|]. exists i. apply list_elem_of_here. }
  pose proof (size_all cl live Hsh live_nodup ltac:(intros i Hi; split; [done|by apply Hfull])) as Hsz.
  pose proof (share_enough i0 Hi0) as Hle.
  assert (⋃ (own cl <$> live) ⊆ list_to_set (seqZ 0 S) ∖ {[s]}) as Hsub.
  { intros s' (X & HX & HsX)%elem_of_union_list. apply list_elem_of_fmap in HX as (i & -> & Hi). apply elem_of_difference. split.
    - apply elem_of_list_to_set, elem_of_seqZ. pose proof (sr_range _ _ Hsh i s' Hi HsX). lia.
    - intros ->%elem_of_singleton. assert (owner cl s = Some i) by (by apply (sr_locks _ _ Hsh)). congruence. }
  apply subseteq_size in Hsub. rewrite size_difference, size_singleton, size_list_to_set, length_seqZ in Hsub.
  - lia.
  - apply NoDup_seqZ.
  - intros s' ->%elem_of_singleton. apply elem_of_list_to_set, elem_of_seqZ. lia.
Qed.

(** C26: two rounds of heartbeats balance the shards: when the calls succeed, consumers
    stop when they are told to and no process joins or leaves, then whatever the
    members owned before, every shard has exactly one owner after two rounds, and no
    member owns more than the number of shards divided by the number of members,
    rounded up. *)
Theorem rounds_balance cl :
  live ≠ [] → shared live cl →
  let cl' := round live (round live cl) in
  (∀ s, 0 ≤ s < S → ∃ i, i ∈ live ∧ s ∈ own cl' i ∧ ∀ j, j ∈ live → s ∈ own cl' j → i = j) ∧ ∀ i, i ∈ live → within cl' i.
Proof.
  intros Hne Hsh cl'. unfold cl', round. clear cl'. destruct (round_shares live cl live_nodup ltac:(done) Hsh) as (H1 & _ & H3).
  set (cl1 := foldl turn cl live) in *. destruct (round_shares live cl1 live_nodup ltac:(done) H1) as (K1 & _ & K3).
  destruct (round_fills live cl1 live_nodup ltac:(done) H1 H3) as [_ F]. set (cl2 := foldl turn cl1 live) in *. split; [|done].
  assert (∀ s, 0 ≤ s < S → owner cl2 s ≠ None) as Hall.
  { destruct (decide (Forall (λ i, Z.of_nat (size (own cl2 i)) = share) live)) as [Hf|Hf].
    - intros s. apply full_covers; [done|done|]. intros i Hi. by eapply Forall_forall in Hf.
    - apply not_Forall_Exists, Exists_exists in Hf as (i & Hi & Hn); [|apply _]. by destruct (F i Hi). }
  intros s Hs. specialize (Hall s Hs). destruct (owner cl2 s) as [i|] eqn:E; [|done]. pose proof E as [Hi Hin]%(sr_locks _ _ K1).
  exists i. split; [done|]. split; [done|]. intros j Hj Hjn. assert (owner cl2 s = Some j) by (by apply (sr_locks _ _ K1)). congruence.
Qed.
End balance.

(** ** Draining is what the goroutines do *)

Section drained.
Context (cfg : OwnerConfig) (clock : Z) (i : string).

Lemma on_inst_id f cl : (∀ w, cl_insts cl !! i = Some w → f w = w) → on_inst i f cl = cl.
Proof.
  intros Hf. destruct cl as [now reg locks insts granted]. unfold on_inst. cbn in *. f_equal. apply map_eq. intros j.
  destruct (decide (i = j)) as [<-|Hne]; [|by rewrite lookup_alter_ne]. rewrite lookup_alter_eq. destruct (insts !! i) as [w|] eqn:E; [|done]. cbn. f_equal. by apply Hf.
Qed.
Lemma on_inst_ext f g cl : (∀ w, cl_insts cl !! i = Some w → f w = g w) → on_inst i f cl = on_inst i g cl.
Proof.
  intros Hf. unfold on_inst. f_equal. apply map_eq. intros j. destruct (decide (i = j)) as [<-|Hne]; [|by rewrite !lookup_alter_ne].
  rewrite !lookup_alter_eq. destruct (cl_insts cl !! i) as [w|] eqn:E; [|done]. cbn. f_equal. by apply Hf.
Qed.

Definition stop_first (n : nat) (w : Inst) : Inst :=
  {| in_heap := (stop_cancelled <$> take n (in_heap w)) ++ drop n (in_heap w); in_shards := in_shards w; in_tasks := in_tasks w; in_ctx := in_ctx w;
     in_closing := in_closing w |}.
Lemma stop_steps n cl : rtc bg_step cl (on_inst i (stop_first n) cl).
Proof.
  induction n as [|n IH]; [rewrite on_inst_id; [done|]; intros w _; by destruct w|].
  destruct (cl_insts cl !! i) as [w|] eqn:Hw; [|rewrite on_inst_id in IH |- * by congruence; done].
  destruct (in_heap w !! n) as [st|] eqn:Hst.
  - assert ((stop_cancelled <$> take n (in_heap w)) ++ drop n (in_heap w) = (stop_cancelled <$> take n (in_heap w)) ++ st :: drop (S n) (in_heap w)) as E1 by (by erewrite drop_S).
    assert (length (stop_cancelled <$> take n (in_heap w)) = n) as Hn by (rewrite length_fmap, length_take; apply lookup_lt_Some in Hst; lia).
    assert (stop_cancelled <$> take (S n) (in_heap w) = (stop_cancelled <$> take n (in_heap w)) ++ [stop_cancelled st]) as E2 by (erewrite take_S_r by done; by rewrite fmap_app).
    destruct (sh_cancelled st) eqn:Hc.
    + etrans; [exact IH|]. apply rtc_once. replace (on_inst i (stop_first (S n)) cl) with (on_inst i (on_heap n stop) (on_inst i (stop_first n) cl)).
      * eapply (bg_stop _ i (stop_first n w) n st); [cbn; by rewrite lookup_alter_eq, Hw| |by rewrite Hc].
        cbn. rewrite E1, lookup_app_r by lia. by rewrite Hn, Nat.sub_diag.
      * rewrite on_inst_compose. apply on_inst_ext. intros w' Hw'. rewrite Hw in Hw'. injection Hw' as <-. unfold stop_first, on_heap. cbn. f_equal.
        rewrite E1, E2, <- app_assoc. cbn. rewrite alter_app_r_alt, Hn, Nat.sub_diag by lia. cbn. unfold stop_cancelled. by rewrite Hc.
    + replace (on_inst i (stop_first (S n)) cl) with (on_inst i (stop_first n) cl); [done|]. apply on_inst_ext. intros w' Hw'. rewrite Hw in Hw'. injection Hw' as <-.
      unfold stop_first. f_equal. rewrite E1, E2, <- app_assoc. cbn. unfold stop_cancelled at 3. by rewrite Hc.
  - replace (on_inst i (stop_first (S n)) cl) with (on_inst i (stop_first n) cl); [done|]. apply on_inst_ext. intros w' Hw'. rewrite Hw in Hw'. injection Hw' as <-.
    apply lookup_ge_None in Hst. unfold stop_first. by rewrite !take_ge, !drop_ge by lia.
Qed.

(** The goroutines of [ts] are left. *)
Definition with_tasks (ts : list Task) : Inst → Inst := on_tasks (λ _, ts).
Definition task_at (t : Task) : nat := match t with t_release _ a | t_forget _ a => a end.

Lemma filter_head t (ts : list Task) : t ∉ ts → filter (λ t', t' ≠ t) (t :: ts) = ts.
Proof. intros H. rewrite filter_cons_False by auto. apply filter_keeps. by intros t' Ht ->. Qed.

Lemma task_steps t ts cl w :
  cl_insts cl !! i = Some w → stopped w (task_at t) → (∀ t', t' ∈ ts → task_at t' ≠ task_at t) →
  rtc bg_step (on_inst i (with_tasks (t :: ts)) cl) (on_inst i (with_tasks ts) (finish_task clock i cl t)).
Proof.
  intros Hw (st & Hst & Hd) Hts.
  assert (∀ s a cl w, cl_insts cl !! i = Some w → in_heap w !! a = Some st → (∀ t', t' ∈ ts → task_at t' ≠ a) →
    bg_step (on_inst i (with_tasks (t_forget s a :: ts)) cl) (on_inst i (with_tasks ts) (on_inst i (forgetShard s a) cl))) as Hforget.
  { intros s a cl1 w1 Hw1 Hst1 Hts1. replace (on_inst i (with_tasks ts) (on_inst i (forgetShard s a) cl1)) with
      (on_inst i (λ w, on_tasks (filter (λ t, t ≠ t_forget s a)) (forgetShard s a w)) (on_inst i (with_tasks (t_forget s a :: ts)) cl1)).
    - eapply bg_forget; [cbn; by rewrite lookup_alter_eq, Hw1|apply list_elem_of_here|exact Hst1|done].
    - rewrite !on_inst_compose. apply on_inst_ext. intros w' _. unfold with_tasks, on_tasks, forgetShard. cbn -[filter].
      case_decide; cbn -[filter]; by rewrite filter_head by (intros Hin; by apply (Hts1 _ Hin)). }
  destruct t as [s a|s a]; cbn in *; [|by apply rtc_once, (Hforget s a cl w)].
  eapply rtc_l; [|apply rtc_once, (Hforget s a (unlock_call i s (answered clock) cl).2 w); [done|done|exact Hts]].
  replace (on_inst i (with_tasks (t_forget s a :: ts)) (unlock_call i s (answered clock) cl).2) with
    (on_inst i (on_tasks (λ ts, t_forget s a :: filter (λ t, t ≠ t_release s a) ts)) (unlock_call i s (answered clock) (on_inst i (with_tasks (t_release s a :: ts)) cl)).2).
  - eapply bg_release; [cbn; by rewrite lookup_alter_eq, Hw|apply list_elem_of_here|exact Hst|done].
  - change (unlock_call i s (answered clock) (on_inst i (with_tasks (t_release s a :: ts)) cl)).2 with
      (on_inst i (with_tasks (t_release s a :: ts)) (unlock_call i s (answered clock) cl).2). rewrite on_inst_compose. apply on_inst_ext. intros w' _.
    unfold with_tasks, on_tasks. cbn -[filter]. by rewrite filter_head by (intros Hin; by apply (Hts _ Hin)).
Qed.

Lemma tasks_steps ts cl w :
  cl_insts cl !! i = Some w → NoDup (task_at <$> ts) → (∀ t, t ∈ ts → stopped w (task_at t)) →
  rtc bg_step (on_inst i (with_tasks ts) cl) (on_inst i (with_tasks []) (foldl (finish_task clock i) cl ts)).
Proof.
  revert cl w. induction ts as [|t ts IH]; intros cl w Hw Hd Hs; [done|]. cbn [foldl fmap list_fmap] in *. apply NoDup_cons in Hd as [Hn Hd].
  etrans; [apply (task_steps t ts cl w Hw); [by apply Hs, list_elem_of_here|]; intros t' Ht' E; apply Hn; rewrite <- E; by apply list_elem_of_fmap_2|].
  assert (∃ w', cl_insts (finish_task clock i cl t) !! i = Some w' ∧ in_heap w' = in_heap w) as (w' & Hw' & Eh).
  { destruct t; cbn; rewrite lookup_alter_eq, Hw; eexists; (split; [done|]); unfold forgetShard; by case_decide. }
  apply (IH _ w'); [done|done|]. intros t' Ht'. unfold stopped. rewrite Eh. by apply Hs, elem_of_cons; right.
Qed.

(** Draining an instance is a run of its goroutines and consumers. *)
Lemma drain_steps cl w :
  cl_insts cl !! i = Some w → NoDup (task_at <$> in_tasks w) →
  (∀ t, t ∈ in_tasks w → ∃ st, in_heap w !! task_at t = Some st ∧ sh_cancelled st = true) → rtc bg_step cl (drain clock i cl).
Proof.
  intros Hw Hd Hc. unfold drain, inst_at. rewrite Hw. cbn [default]. unfold id. etrans; [apply (stop_steps (length (in_heap w)))|].
  assert (on_inst i (stop_first (length (in_heap w))) cl = on_inst i (on_objects stop_cancelled) cl) as ->.
  { apply on_inst_ext. intros w' Hw'. rewrite Hw in Hw'. injection Hw' as <-. unfold stop_first, on_objects. by rewrite take_ge, drop_ge, app_nil_r. }
  set (cl1 := on_inst i (on_objects stop_cancelled) cl). assert (cl_insts cl1 !! i = Some (on_objects stop_cancelled w)) as Hw1 by (cbn; by rewrite lookup_alter_eq, Hw).
  assert (cl1 = on_inst i (with_tasks (in_tasks w)) cl1) as E by (symmetry; apply on_inst_id; intros w' Hw'; rewrite Hw1 in Hw'; by injection Hw' as <-).
  rewrite E at 1. apply (tasks_steps (in_tasks w) cl1 _ Hw1 Hd). intros t (st & Hst & Hcan)%Hc. exists (stop st). cbn. rewrite list_lookup_fmap, Hst. cbn.
  unfold stop_cancelled. by rewrite Hcan.
Qed.
End drained.

(** ** Three instances, one of which owns everything *)

Definition demo_balance : OwnerConfig := {| oc_ReportShards := 4; oc_LiveWindow := 10 * Second; oc_OwnerTTL := 10 * Second; oc_OwnerRefresh := 3 * Second |}.
Definition demo_live : list string := ["a"; "b"; "c"].
Definition demo_members : Cluster :=
  {| cl_now := 1000; cl_registry := {["a" := 900; "b" := 950; "c" := 1000]}; cl_locks := ∅; cl_insts := {["a" := new_inst; "b" := new_inst; "c" := new_inst]};
     cl_granted := ∅ |}.
Definition demo_uneven : Cluster := foldl (λ cl s, taken demo_balance 0 "a" s cl) demo_members [0; 1; 2; 3].

Lemma demo_members_shared : shared demo_balance demo_live demo_members.
Proof.
  assert (∀ i, i ∈ demo_live ↔ i = "a" ∨ i = "b" ∨ i = "c") as Hl by (intros i; unfold demo_live; set_solver).
  assert (∀ i, i ∈ demo_live → cl_insts demo_members !! i = Some new_inst) as Hi by (intros i [->|[->| ->]]%Hl; by vm_compute).
  split.
  - intros i. rewrite Hl. cbn. rewrite !lookup_insert_is_Some, lookup_singleton_is_Some. destruct (decide (i = "a")), (decide (i = "b")), (decide (i = "c")); naive_solver.
  - intros i x. change (std_ms (oc_LiveWindow demo_balance)) with 10000. cbn. rewrite !lookup_insert_Some, lookup_singleton_Some. lia.
  - intros i Hi'. exists new_inst. split; [by apply Hi|]. split; [done|done|]. by intros s a Hs.
  - intros s i. unfold owner, held. cbn. rewrite lookup_empty. split; [done|]. intros [Hi' Hs]. unfold own, inst_at in Hs. rewrite (Hi i Hi') in Hs. set_solver.
  - intros i s Hi' Hs. unfold own, inst_at in Hs. rewrite (Hi i Hi') in Hs. set_solver.
Qed.
Lemma demo_uneven_shared : shared demo_balance demo_live demo_uneven.
Proof.
  unfold demo_uneven. cbn [foldl]. assert (1 ≤ std_ms (oc_OwnerTTL demo_balance)) as Ht by (vm_compute; discriminate).
  assert ("a" ∈ demo_live) as Ha by apply list_elem_of_here.
  repeat (apply shared_taken; [exact Ht|vm_compute; discriminate|vm_compute; reflexivity|by apply (bool_decide_unpack _); vm_compute|by apply (bool_decide_unpack _); vm_compute|exact Ha|vm_compute; by split|vm_compute; reflexivity|]). apply demo_members_shared.
Qed.

Lemma rounds_balance_witness :
  let cl := round demo_balance 0 demo_live (round demo_balance 0 demo_live demo_uneven) in
  (∃ i, i ∈ demo_live ∧ 3 ∈ own cl i) ∧ within demo_balance demo_live cl "a" ∧ elements (own cl "a") = [1; 0].
Proof.
  intros cl. destruct (rounds_balance demo_balance 0 ltac:(vm_compute; discriminate) ltac:(vm_compute; discriminate) ltac:(vm_compute; reflexivity) demo_live
    ltac:(by apply (bool_decide_unpack _); vm_compute) ltac:(by apply (bool_decide_unpack _); vm_compute) demo_uneven ltac:(discriminate) demo_uneven_shared) as [H1 H2].
  fold cl in H1, H2. assert (0 ≤ 3 < oc_ReportShards demo_balance) as H3 by (vm_compute; by split). destruct (H1 3 H3) as (i & Hi & Hin & _).
  split; [exact (ex_intro _ i (conj Hi Hin))|]. split; [exact (H2 "a" (list_elem_of_here _ _))|]. vm_compute. reflexivity.
Defined.
