(* ===== verification/Netip.v ===== *)
(** * Internet addresses

    What the program uses of the package [net/netip] of the Go standard library:
    addresses, prefixes, their text and its parsers.  An address is the integer of its
    32 or 128 bits.  The lemmas show that [ParseAddr] reads back what [Addr_String]
    writes, compressed zeros included, that [ParsePrefix] reads back what
    [Prefix_String] writes, and that a prefix contains exactly the addresses that
    share its leading bits. *)

From S2P Require Import Prelude GoStrings GoTime IdGen.

Local Open Scope Z_scope.

(** ** Addresses *)

(** The zero value, IPv4, and IPv6 with its zone. *)
Inductive Addr := AddrNone | Addr4 (n : Z) | Addr6 (n : Z) (zone : bytes).
#[export] Instance Addr_eq_dec : EqDecision Addr.
Proof. solve_decision. Defined.

Definition addr_ok (a : Addr) : Prop :=
  match a with AddrNone => False | Addr4 n => 0 ≤ n < 2 ^ 32 | Addr6 n _ => 0 ≤ n < 2 ^ 128 end.
Definition IsValid (a : Addr) : bool := match a with AddrNone => false | _ => true end.
Definition Is4 (a : Addr) : bool := match a with Addr4 _ => true | _ => false end.
Definition Is6 (a : Addr) : bool := match a with Addr6 _ _ => true | _ => false end.
Definition BitLen (a : Addr) : Z := match a with AddrNone => 0 | Addr4 _ => 32 | Addr6 _ _ => 128 end.
Definition Zone (a : Addr) : bytes := match a with Addr6 _ zone => zone | _ => [] end.
Definition addr_bits (a : Addr) : Z := match a with AddrNone => 0 | Addr4 n | Addr6 n _ => n end.

(** ::ffff:0:0/96 *)
Definition Is4In6 (a : Addr) : bool := match a with Addr6 n _ => Z.shiftr n 32 =? 65535 | _ => false end.
Definition Unmap (a : Addr) : Addr := if Is4In6 a then Addr4 (addr_bits a mod 2 ^ 32) else a.
Definition WithZone (zone : bytes) (a : Addr) : Addr := match a with Addr6 n _ => Addr6 n zone | _ => a end.

(** ** Prefixes *)

(** [p_Bits] is -1 when the prefix is not valid. *)
Record Prefix := { p_Addr : Addr; p_Bits : Z }.
#[export] Instance Prefix_eq_dec : EqDecision Prefix.
Proof. solve_decision. Defined.

Definition PrefixFrom (ip : Addr) (bits : Z) : Prefix :=
  {| p_Addr := WithZone [] ip; p_Bits := if IsValid ip && (0 <=? bits) && (bits <=? BitLen ip) then bits else -1 |}.
Definition clear_low (k n : Z) : Z := Z.shiftl (Z.shiftr n k) k.
Definition mask (bits : Z) (a : Addr) : Addr :=
  match a with AddrNone => AddrNone | Addr4 n => Addr4 (clear_low (32 - bits) n) | Addr6 n _ => Addr6 (clear_low (128 - bits) n) [] end.
(** [Prefix.Masked]; the zero prefix when it is not valid *)
Definition Masked (p : Prefix) : Prefix :=
  if 0 <=? p_Bits p then PrefixFrom (mask (p_Bits p) (p_Addr p)) (p_Bits p) else {| p_Addr := AddrNone; p_Bits := -1 |}.
Definition Contains (p : Prefix) (ip : Addr) : bool :=
  (0 <=? p_Bits p) && bool_decide (Zone ip = []) && negb (BitLen (p_Addr p) =? 0) && (BitLen (p_Addr p) =? BitLen ip)
  && (Z.shiftr (Z.lxor (addr_bits ip) (addr_bits (p_Addr p))) (BitLen ip - p_Bits p) =? 0).

(** ** Parsers *)

Definition dot : ascii := ".".
Definition colon_byte : ascii := ":".
Definition percent : ascii := "%".

(** The last occurrence of a byte: what is before and what is after it. *)
Fixpoint cut_last (c : ascii) (s : bytes) : option (bytes * bytes) :=
  match s with
  | [] => None
  | d :: s' =>
      match cut_last c s' with
      | Some (a, b) => Some (d :: a, b)
      | None => if decide (d = c) then Some ([], s') else None
      end
  end.

(** The octets of a dotted address: [prev] is the byte before, [val] and [digLen] the
    octet being read, [fields] the ones before. *)
Fixpoint parseIPv4Fields (prev : option ascii) (val : Z) (digLen : nat) (fields : list Z) (s : bytes) : option (list Z) :=
  match s with
  | [] => if (length fields <? 3)%nat then None else Some (fields ++ [val])
  | c :: s' =>
      if is_digit c then
        if (digLen =? 1)%nat && (val =? 0) then None
        else
          let val' := val * 10 + digit_value c in
          if val' >? 255 then None else parseIPv4Fields (Some c) val' (S digLen) fields s'
      else if decide (c = dot) then
        if bool_decide (prev = None) || bool_decide (s' = []) || bool_decide (prev = Some dot) then None
        else if (length fields =? 3)%nat then None
        else parseIPv4Fields (Some c) 0 0 (fields ++ [val]) s'
      else None
  end.
Definition join_base (base : Z) (l : list Z) : Z := foldl (λ x d, x * base + d) 0 l.
Definition parseIPv4 (s : bytes) : option Addr := Addr4 ∘ join_base 256 <$> parseIPv4Fields None 0 0 [] s.

Definition hex_value (c : ascii) : option Z :=
  if byte_in 48 57 c then Some (bval c - 48)
  else if byte_in 97 102 c then Some (bval c - 87)
  else if byte_in 65 70 c then Some (bval c - 55) else None.
(** A hexadecimal number of at most four digits: how many, its value, the rest. *)
Fixpoint hex_field (off : nat) (acc : Z) (s : bytes) : option (nat * Z * bytes) :=
  match s with
  | c :: s' =>
      match hex_value c with
      | None => Some (off, acc, s)
      | Some d =>
          let acc' := acc * 16 + d in
          if (3 <? off)%nat then None else if acc' >? 65535 then None else hex_field (S off) acc' s'
      end
  | [] => Some (off, acc, [])
  end.

(** The loop over the fields of 16 bits, at most [more] more: the fields, the position
    of the ellipsis, the rest of the text. *)
Fixpoint fields6 (more : nat) (fields : list Z) (ellipsis : option nat) (s : bytes) : option (list Z * option nat * bytes) :=
  match more with
  | O => Some (fields, ellipsis, s)
  | S more =>
      match hex_field 0 0 s with
      | None | Some (O, _, _) => None
      | Some (S _, acc, rest) =>
          match rest with
          | [] => Some (fields ++ [acc], ellipsis, [])
          | c :: rest =>
              if decide (c = dot) then
                if bool_decide (ellipsis = None) && negb (length fields =? 6)%nat then None
                else if (8 <? length fields + 2)%nat then None
                else
                  v4 ← parseIPv4Fields None 0 0 [] s;
                  match v4 with
                  | [a; b; c; d] => Some (fields ++ [a * 256 + b; c * 256 + d], ellipsis, [])
                  | _ => None
                  end
              else if decide (c = colon_byte) then
                let fields := fields ++ [acc] in
                match rest with
                | [] => None
                | c :: rest' =>
                    if decide (c = colon_byte) then
                      match ellipsis with
                      | Some _ => None
                      | None =>
                          if decide (rest' = []) then Some (fields, Some (length fields), [])
                          else fields6 more fields (Some (length fields)) rest'
                      end
                    else fields6 more fields ellipsis rest
                end
              else None
          end
      end
  end.
Definition expand (fields : list Z) (e : nat) : list Z := take e fields ++ replicate (8 - length fields) 0 ++ drop e fields.
Definition fields_addr (zone : bytes) (r : list Z * option nat * bytes) : option Addr :=
  let '(fields, ellipsis, rest) := r in
  if decide (rest = []) then
    match ellipsis with
    | None => if (length fields <? 8)%nat then None else Some (Addr6 (join_base 65536 fields) zone)
    | Some e => if (length fields <? 8)%nat then Some (Addr6 (join_base 65536 (expand fields e)) zone) else None
    end
  else None.
Definition parse6 (zone s : bytes) : option Addr :=
  if has_prefix s [colon_byte; colon_byte] then
    if decide (drop 2 s = []) then Some (Addr6 0 zone) else fields6 8 [] (Some O) (drop 2 s) ≫= fields_addr zone
  else fields6 8 [] None s ≫= fields_addr zone.
Definition parseIPv6 (s : bytes) : option Addr :=
  '(s, zone) ← match index_byte percent s with
               | None => Some (s, [])
               | Some i => if decide (drop (S i) s = []) then None else Some (take i s, drop (S i) s)
               end;
  parse6 zone s.

(** The first of the bytes [.], [:] and [%] decides what is parsed. *)
Fixpoint addr_kind (s : bytes) : option ascii :=
  match s with
  | [] => None
  | c :: s' => if decide (c = dot ∨ c = colon_byte ∨ c = percent) then Some c else addr_kind s'
  end.
Definition ParseAddr (s : bytes) : option Addr :=
  match addr_kind s with
  | Some c => if decide (c = dot) then parseIPv4 s else if decide (c = colon_byte) then parseIPv6 s else None
  | None => None
  end.

Definition slash : ascii := "/".
Definition ParsePrefix (s : bytes) : option Prefix :=
  '(a, b) ← cut_last slash s;
  ip ← ParseAddr a;
  if bool_decide (Zone ip ≠ []) then None
  else if (1 <? length b)%nat && negb (from_option (byte_in 49 57) false (head b)) then None
  else
    bits ← ParseInt b;
    if (bits <? 0) || (bits >? BitLen ip) then None else Some (PrefixFrom ip bits).

(** [strconv.ParseUint(s, 10, 16)] *)
Definition ParseUint16 (s : bytes) : option Z :=
  match s with
  | [] => None
  | _ => if forallb is_digit s && (digits_value s <=? 65535) then Some (digits_value s) else None
  end.
(** The address of [ParseAddrPort] and the port. *)
Definition ParseAddrPort (s : bytes) : option (Addr * Z) :=
  '(ip, port) ← cut_last colon_byte s;
  if bool_decide (ip = []) || bool_decide (port = []) then None
  else
    let v6 := bool_decide (head ip = Some "["%char) in
    if v6 && ((length ip <? 2)%nat || negb (bool_decide (last ip = Some "]"%char))) then None
    else
      port ← ParseUint16 port;
      a ← ParseAddr (if v6 then drop 1 (take (length ip - 1) ip) else ip);
      if (v6 && Is4 a) || (negb v6 && Is6 a) then None else Some (a, port).

(** ** Printers *)

(** The digits of [n] in a base, [k] of them, the highest first. *)
Fixpoint split_base (base : Z) (k : nat) (n : Z) : list Z :=
  match k with O => [] | S k => split_base base k (n / base) ++ [n mod base] end.
Definition join_with (sep : bytes) (l : list bytes) : bytes :=
  match l with [] => [] | w :: l => w ++ mjoin ((λ v, sep ++ v) <$> l) end.
Definition string4 (n : Z) : bytes := join_with [dot] (FormatInt <$> split_base 256 4 n).

Definition hex16 (g : Z) : bytes := format_base 16 4 g [].
Fixpoint zero_run (l : list Z) : nat :=
  match l with x :: l => if x =? 0 then S (zero_run l) else O | [] => O end.
(** The first longest run of at least two zero fields: where it starts and its length. *)
Definition longer_run (l : list Z) (best : option (nat * nat)) (i : nat) : option (nat * nat) :=
  let run := zero_run (drop i l) in
  if (2 <=? run)%nat && (from_option snd O best <? run)%nat then Some (i, run) else best.
Definition longest_run (l : list Z) : option (nat * nat) := foldl (longer_run l) None (seq 0 8).
Definition fields_text (l : list Z) : bytes := join_with [colon_byte] (hex16 <$> l).
Definition string6 (n : Z) : bytes :=
  let fields := split_base 65536 8 n in
  match longest_run fields with
  | None => fields_text fields
  | Some (i, k) => fields_text (take i fields) ++ colon_byte :: colon_byte :: fields_text (drop (i + k) fields)
  end.
Definition zone_text (zone : bytes) : bytes := match zone with [] => [] | _ => percent :: zone end.
Definition Addr_String (a : Addr) : bytes :=
  match a with
  | AddrNone => bs "invalid IP"
  | Addr4 n => string4 n
  | Addr6 n zone =>
      (if Is4In6 a then bs "::ffff:" ++ string4 (n mod 2 ^ 32) else string6 n) ++ zone_text zone
  end.
Definition Prefix_String (p : Prefix) : bytes :=
  if p_Bits p <? 0 then bs "invalid Prefix" else Addr_String (p_Addr p) ++ slash :: FormatInt (p_Bits p).

Example netip_examples :
  Addr_String <$> ParseAddr (bs "2001:db8:0:0:1:0:0:1") = Some (bs "2001:db8::1:0:0:1") ∧
  Addr_String <$> ParseAddr (bs "::ffff:a01:203") = Some (bs "::ffff:10.1.2.3") ∧
  Addr_String <$> ParseAddr (bs "fe80::1%eth0") = Some (bs "fe80::1%eth0") ∧
  Addr_String <$> ParseAddr (bs "::") = Some (bs "::") ∧
  ParseAddr (bs "10.0.0.256") = None ∧ ParseAddr (bs "10.0.0.01") = None ∧ ParseAddr (bs "1:2:3:4:5:6:7::8") = None ∧
  Prefix_String ∘ Masked <$> ParsePrefix (bs "2001:db8::1/32") = Some (bs "2001:db8::/32") ∧
  ParsePrefix (bs "10.0.0.0/33") = None ∧ ParseAddrPort (bs "[2001:db8::1]:443") = Some (Addr6 42540766411282592856903984951653826561 [], 443).
Proof. by vm_compute. Qed.

(** ** Digits in a base *)

Section split.
Variable base : Z.
Hypothesis base_pos : 0 < base.

Lemma split_base_length k n : length (split_base base k n) = k.
Proof. revert n. induction k as [|k IH]; intros n; [done|]. cbn. rewrite length_app, IH. cbn. lia. Qed.

Lemma split_base_range k n : Forall (λ d, 0 ≤ d < base) (split_base base k n).
Proof.
  revert n. induction k as [|k IH]; intros n; [constructor|]. cbn. apply Forall_app. split; [done|]. repeat constructor; apply Z.mod_pos_bound; lia.
Qed.

Lemma join_split k n : 0 ≤ n < base ^ Z.of_nat k → join_base base (split_base base k n) = n.
Proof.
  revert n. induction k as [|k IH]; intros n Hn; [cbn in *; lia|]. cbn. unfold join_base in *. rewrite foldl_app, IH; cbn.
  - pose proof (Z.div_mod n base ltac:(lia)). lia.
  - rewrite Nat2Z.inj_succ, Z.pow_succ_r in Hn by lia. split; [apply Z.div_pos; lia|apply Z.div_lt_upper_bound; lia].
Qed.

Lemma join_base_acc x l : foldl (λ x d, x * base + d) x l = x * base ^ Z.of_nat (length l) + join_base base l.
Proof.
  unfold join_base. revert x. induction l as [|d l IH] using rev_ind; intros x; cbn; [lia|].
  rewrite !foldl_app, length_app, IH. cbn. rewrite Nat2Z.inj_add, Z.pow_add_r by lia. change (Z.of_nat 1) with 1. lia.
Qed.

Lemma join_base_app l l' : join_base base (l ++ l') = join_base base l * base ^ Z.of_nat (length l') + join_base base l'.
Proof. unfold join_base at 1. rewrite foldl_app. apply join_base_acc. Qed.

Lemma join_base_range l : Forall (λ d, 0 ≤ d < base) l → 0 ≤ join_base base l < base ^ Z.of_nat (length l).
Proof.
  induction l as [|d l IH] using rev_ind; intros Hl; [cbn; lia|]. apply Forall_app in Hl as [Hl Hd]. apply Forall_cons in Hd as [Hd _].
  specialize (IH Hl). rewrite join_base_app, length_app, Nat2Z.inj_add, Z.pow_add_r by lia. cbn [length]. change (Z.of_nat 1) with 1.
  unfold join_base at 2 4. cbn. nia.
Qed.
End split.

(** ** Dotted addresses *)

Lemma octet_text n : 0 ≤ n ≤ 255 →
  FormatInt n = (if n <? 10 then [digit_byte n] else if n <? 100 then [digit_byte (n / 10); digit_byte (n mod 10)]
                 else [digit_byte (n / 100); digit_byte (n / 10 mod 10); digit_byte (n mod 10)]).
Proof.
  intros Hn. unfold FormatInt. destruct (Z.ltb_spec n 10).
  - cbn [format_digits]. rewrite Z.mod_small, Z.div_small by lia. done.
  - cbn [format_digits]. rewrite (proj2 (Z.eqb_neq (n / 10) 0)) by (assert (1 ≤ n / 10) by (apply Z.div_le_lower_bound; lia); lia).
    destruct (Z.ltb_spec n 100).
    + assert (0 ≤ n / 10 < 10) by (split; [apply Z.div_pos|apply Z.div_lt_upper_bound]; lia).
      rewrite (Z.div_small (n / 10)), (Z.mod_small (n / 10)) by lia. done.
    + assert (1 ≤ n / 10 / 10 < 10). { rewrite Z.div_div by lia. split; [apply Z.div_le_lower_bound|apply Z.div_lt_upper_bound]; lia. }
      rewrite (proj2 (Z.eqb_neq (n / 10 / 10) 0)) by lia. rewrite (Z.div_small (n / 10 / 10)), (Z.mod_small (n / 10 / 10)) by lia.
      rewrite Z.div_div by lia. done.
Qed.

Lemma fields4_digit prev val digLen fields d s :
  0 ≤ d ≤ 9 → (digLen = 1%nat → val ≠ 0) → val * 10 + d ≤ 255 →
  parseIPv4Fields prev val digLen fields (digit_byte d :: s) = parseIPv4Fields (Some (digit_byte d)) (val * 10 + d) (S digLen) fields s.
Proof.
  intros Hd Hz Hv. cbn [parseIPv4Fields]. rewrite digit_byte_digit, digit_byte_value by done.
  destruct ((digLen =? 1)%nat && (val =? 0)) eqn:E.
  { apply andb_true_iff in E as [E1%Nat.eqb_eq E2%Z.eqb_eq]. by destruct (Hz E1). }
  destruct (Z.gtb_spec (val * 10 + d) 255); [lia|done].
Qed.

Lemma fields4_octet prev fields n s : 0 ≤ n ≤ 255 →
  ∃ c k, is_digit c = true ∧ parseIPv4Fields prev 0 0 fields (FormatInt n ++ s) = parseIPv4Fields (Some c) n k fields s.
Proof.
  intros Hn. rewrite octet_text by done. pose proof (Z.div_mod n 10 ltac:(lia)). pose proof (Z.mod_pos_bound n 10 ltac:(lia)).
  destruct (Z.ltb_spec n 10); [|destruct (Z.ltb_spec n 100)]; cbn [app].
  - exists (digit_byte n), 1%nat. rewrite digit_byte_digit by lia. split; [done|]. rewrite fields4_digit by (done || lia). done.
  - exists (digit_byte (n mod 10)), 2%nat. rewrite digit_byte_digit by lia. split; [done|]. rewrite !fields4_digit by (done || lia). f_equal. lia.
  - exists (digit_byte (n mod 10)), 3%nat. rewrite digit_byte_digit by lia. split; [done|].
    pose proof (Z.div_mod (n / 10) 10 ltac:(lia)) as E. pose proof (Z.mod_pos_bound (n / 10) 10 ltac:(lia)). rewrite Z.div_div in E by lia. change (10 * 10) with 100 in E.
    rewrite !fields4_digit by (done || lia). f_equal. lia.
Qed.

Lemma fields4_dot c val k fields s : is_digit c = true → s ≠ [] → (length fields < 3)%nat →
  parseIPv4Fields (Some c) val k fields (dot :: s) = parseIPv4Fields (Some dot) 0 0 (fields ++ [val]) s.
Proof.
  intros Hc Hs Hl. cbn [parseIPv4Fields]. change (is_digit dot) with false. cbv iota. rewrite decide_True by done.
  rewrite !bool_decide_eq_false_2; [|by intros [= ->]|done|done]. cbn. by rewrite (proj2 (Nat.eqb_neq _ _)) by lia.
Qed.

Definition octet (n : Z) : Prop := 0 ≤ n < 256.
Lemma octets4 n : ∃ a b c d, split_base 256 4 n = [a; b; c; d] ∧ octet a ∧ octet b ∧ octet c ∧ octet d.
Proof. cbn. do 4 eexists. split; [done|]. unfold octet. split_and!; apply Z.mod_pos_bound; lia. Qed.

Ltac dotted := first [done|cbn; lia|apply FormatInt_cons|by intros [? ?]%app_nil].
Lemma fields4_text n : parseIPv4Fields None 0 0 [] (string4 n) = Some (split_base 256 4 n).
Proof.
  unfold string4. destruct (octets4 n) as (a & b & c & d & -> & Ha & Hb & Hc & Hd). unfold octet in *.
  cbn -[FormatInt parseIPv4Fields]. rewrite app_nil_r.
  destruct (fields4_octet None [] a (dot :: FormatInt b ++ dot :: FormatInt c ++ dot :: FormatInt d)) as (x1 & k1 & D1 & ->); [lia|].
  rewrite fields4_dot by dotted. cbn [app].
  destruct (fields4_octet (Some dot) [a] b (dot :: FormatInt c ++ dot :: FormatInt d)) as (x2 & k2 & D2 & ->); [lia|].
  rewrite fields4_dot by dotted. cbn [app].
  destruct (fields4_octet (Some dot) [a; b] c (dot :: FormatInt d)) as (x3 & k3 & D3 & ->); [lia|].
  rewrite fields4_dot by dotted. cbn [app].
  destruct (fields4_octet (Some dot) [a; b; c] d []) as (x4 & k4 & D4 & E); [lia|]. rewrite app_nil_r in E. by rewrite E.
Qed.

(** ** Fields of 16 bits *)

Definition field (g : Z) : Prop := 0 ≤ g < 65536.
Definition no_hex (s : bytes) : Prop := ∀ c, head s = Some c → hex_value c = None.

Lemma hex_digit c : lower_digit 16 c →
  (∃ d, 0 ≤ d ∧ d < 16 ∧ hex_value c = Some d ∧ base_value c = Some d) ∧ c ≠ dot ∧ c ≠ colon_byte ∧ c ≠ percent.
Proof.
  intros (d & Hd & ->). split.
  - exists d. rewrite base_digit_value by lia. split_and!; [lia..| |done]. unfold hex_value, byte_in. rewrite base_digit_bval by lia.
    destruct (Z.ltb_spec d 10).
    + rewrite (proj2 (andb_true_iff _ _)) by lia. f_equal. lia.
    + destruct (_ && _) eqn:E1; [lia|]. rewrite (proj2 (andb_true_iff _ _)) by lia. f_equal. lia.
  - split_and!; (apply base_digit_ne; [lia|done]).
Qed.

Lemma hex16_digits g : field g → Forall (lower_digit 16) (hex16 g).
Proof. intros Hg. apply format_base_spec; [lia|exact Hg]. Qed.

Lemma hex16_cons g : field g → ∃ c s, hex16 g = c :: s ∧ lower_digit 16 c.
Proof.
  intros Hg. pose proof (hex16_digits g Hg) as Hd. destruct (hex16 g) as [|c s] eqn:E; [by apply format_base_cons in E; [..|lia]|].
  apply Forall_cons in Hd as [Hc _]. by exists c, s.
Qed.

Lemma read_base_mono base s x y : 1 ≤ base → 0 ≤ x → read_base base (Some x) s = Some y → x ≤ y.
Proof.
  intros Hb. revert x. induction s as [|c s IH]; intros x Hx; [cbn; intros [= <-]; done|].
  change (read_base base (Some x) (c :: s)) with
    (read_base base (d ← base_value c; if d <? base then Some (x * base + d) else None) s).
  destruct (base_value c) as [d|] eqn:Hd; cbn [mbind option_bind]; [destruct (d <? base)|]; [|by rewrite read_base_None..].
  apply base_value_nonneg in Hd. intros H%IH; nia.
Qed.

Lemma hex_field_app s off acc g rest :
  Forall (lower_digit 16) s → (off + length s ≤ 4)%nat → 0 ≤ acc → read_base 16 (Some acc) s = Some g → g < 65536 → no_hex rest →
  hex_field off acc (s ++ rest) = Some ((off + length s)%nat, g, rest).
Proof.
  revert off acc. induction s as [|c s IH]; intros off acc Hs Hl Ha Hr Hg Hn.
  - cbn in Hr. injection Hr as ->. cbn [app length]. rewrite Nat.add_0_r. destruct rest as [|c rest]; [done|]. cbn. by rewrite (Hn c).
  - apply Forall_cons in Hs as [Hc Hs]. destruct (hex_digit c Hc) as [(d & Hd0 & Hd & Hx & Hb) _]. cbn [length] in *.
    cbn [app hex_field]. rewrite Hx. cbn in Hr. rewrite Hb in Hr. cbn in Hr. rewrite (proj2 (Z.ltb_lt d 16)) in Hr by lia.
    destruct (Nat.ltb_spec 3 off); [lia|]. pose proof (read_base_mono 16 s (acc * 16 + d) g ltac:(lia) ltac:(lia) Hr).
    destruct (Z.gtb_spec (acc * 16 + d) 65535); [lia|]. rewrite IH by (done || lia). do 3 f_equal. lia.
Qed.

Lemma hex_field_hex16 g rest : field g → no_hex rest → ∃ k, hex_field 0 0 (hex16 g ++ rest) = Some (S k, g, rest).
Proof.
  intros Hg Hn. destruct (format_base_spec 16 ltac:(lia) 4 g Hg) as (Hs & Hr & Hl). unfold hex16.
  rewrite (hex_field_app _ 0 0 g) by (done || apply Hg). destruct (hex16_cons g Hg) as (c & s & E & _). unfold hex16 in E. rewrite E. by exists (length s).
Qed.

Lemma fields_text_cons g g' l : fields_text (g :: g' :: l) = hex16 g ++ colon_byte :: fields_text (g' :: l).
Proof. done. Qed.
Lemma fields_text_one g : fields_text [g] = hex16 g.
Proof. apply app_nil_r. Qed.

Lemma fields_text_head l s : l ≠ [] → Forall field l → ∃ c r, fields_text l ++ s = c :: r ∧ lower_digit 16 c.
Proof.
  intros Hne Hl. destruct l as [|g l]; [done|]. apply Forall_cons in Hl as [Hg _]. destruct (hex16_cons g Hg) as (c & t & E & Hc).
  destruct l as [|g' l]; [rewrite fields_text_one|rewrite fields_text_cons]; rewrite E; by eexists c, _.
Qed.

Lemma no_hex_nil : no_hex [].
Proof. by intros c. Qed.
Lemma no_hex_colon s : no_hex (colon_byte :: s).
Proof. by intros c [= <-]. Qed.
#[local] Hint Resolve no_hex_nil no_hex_colon : core.

(** A field before the next one, and before an ellipsis. *)
Lemma fields6_next m fs e g l s : field g → l ≠ [] → Forall field l →
  fields6 (S m) fs e (hex16 g ++ colon_byte :: fields_text l ++ s) = fields6 m (fs ++ [g]) e (fields_text l ++ s).
Proof.
  intros Hg Hne Hl. destruct (hex_field_hex16 g (colon_byte :: fields_text l ++ s)) as [k E]; [done..|].
  destruct (fields_text_head l s Hne Hl) as (c & r & Ec & Hc). rewrite Ec in *. cbn [fields6]. rewrite E. cbv iota.
  rewrite decide_False, decide_True by done. by rewrite decide_False by apply (hex_digit c Hc).
Qed.

Lemma fields6_ellipsis m fs g s : field g → 
  fields6 (S m) fs None (hex16 g ++ colon_byte :: colon_byte :: s) =
    if decide (s = []) then Some (fs ++ [g], Some (length (fs ++ [g])), []) else fields6 m (fs ++ [g]) (Some (length (fs ++ [g]))) s.
Proof.
  intros Hg. destruct (hex_field_hex16 g (colon_byte :: colon_byte :: s)) as [k E]; [done..|]. cbn [fields6]. rewrite E. cbv iota.
  rewrite decide_False, decide_True by done. by rewrite decide_True.
Qed.

Lemma fields6_text m fs e l : l ≠ [] → Forall field l → (length l ≤ m)%nat → fields6 m fs e (fields_text l) = Some (fs ++ l, e, []).
Proof.
  revert m fs. induction l as [|g l IH]; intros m fs Hne Hl Hm; [done|]. apply Forall_cons in Hl as [Hg Hl]. destruct m as [|m]; [cbn in Hm; lia|].
  destruct l as [|g' l].
  - rewrite fields_text_one. destruct (hex_field_hex16 g [] Hg no_hex_nil) as [k E]. rewrite app_nil_r in E. cbn [fields6]. by rewrite E.
  - rewrite fields_text_cons, <- (app_nil_r (fields_text (g' :: l))), fields6_next, app_nil_r, IH by (done || (cbn in *; lia)). by rewrite <- app_assoc.
Qed.

Lemma fields6_gap m fs l r : l ≠ [] → Forall field l → Forall field r → (length l + length r ≤ m)%nat →
  fields6 m fs None (fields_text l ++ colon_byte :: colon_byte :: fields_text r) = Some (fs ++ l ++ r, Some (length (fs ++ l)), []).
Proof.
  revert m fs. induction l as [|g l IH]; intros m fs Hne Hl Hr Hm; [done|]. apply Forall_cons in Hl as [Hg Hl].
  destruct m as [|m]; [cbn in Hm; lia|]. destruct l as [|g' l].
  - rewrite fields_text_one, fields6_ellipsis by done. destruct r as [|g' r]; [done|]. rewrite decide_False.
    + rewrite fields6_text by (done || (cbn in *; lia)). by rewrite <- app_assoc.
    + destruct (fields_text_head (g' :: r) [] ltac:(done) Hr) as (c & t & E & _). rewrite app_nil_r in E. by rewrite E.
  - rewrite fields_text_cons, <- app_assoc. cbn [app]. rewrite fields6_next by done. rewrite IH by (done || (cbn in *; lia)).
    by rewrite <- !app_assoc.
Qed.

(** ** The run of zeros *)

Lemma zero_run_spec l : (zero_run l ≤ length l)%nat ∧ take (zero_run l) l = replicate (zero_run l) 0.
Proof.
  induction l as [|x l [IH1 IH2]]; [done|]. cbn. destruct (Z.eqb_spec x 0) as [->|]; cbn; [|split; [lia|done]]. split; [lia|by rewrite IH2].
Qed.

Definition run_ok (l : list Z) (r : option (nat * nat)) : Prop :=
  ∀ i k, r = Some (i, k) → (2 ≤ k)%nat ∧ (i + k ≤ length l)%nat ∧ take k (drop i l) = replicate k 0.
Lemma longer_run_ok l best i : run_ok l best → run_ok l (longer_run l best i).
Proof.
  intros Hb. unfold longer_run. destruct (_ && _) eqn:E; [|done]. apply andb_true_iff in E as [E%Nat.leb_le _]. intros i' k [= <- <-].
  destruct (zero_run_spec (drop i l)) as [Hl Ht]. rewrite length_drop in Hl. split_and!; [done|lia|done].
Qed.
Lemma longest_run_ok l : run_ok l (longest_run l).
Proof.
  unfold longest_run. assert (∀ js best, run_ok l best → run_ok l (foldl (longer_run l) best js)) as H; [|by apply H].
  induction js as [|i js IH]; intros best Hb; [done|]. by apply IH, longer_run_ok.
Qed.

(** ** Text of IPv6 *)

Lemma fields_of n : Forall field (split_base 65536 8 n).
Proof. by apply split_base_range. Qed.

Lemma fields_addr_gap zone a b k :
  (1 ≤ k)%nat → (length a + k + length b = 8)%nat →
  fields_addr zone (a ++ b, Some (length a), []) = Some (Addr6 (join_base 65536 (a ++ replicate k 0 ++ b)) zone).
Proof.
  intros Hk Hl. unfold fields_addr. rewrite decide_True by done. destruct (Nat.ltb_spec (length (a ++ b)) 8) as [_|H]; [|rewrite length_app in H; lia].
  unfold expand. rewrite take_app_length, drop_app_length, length_app. do 6 f_equal. lia.
Qed.

Lemma parse6_gap zone a b k :
  Forall field a → Forall field b → (2 ≤ k)%nat → (length a + k + length b = 8)%nat →
  parse6 zone (fields_text a ++ colon_byte :: colon_byte :: fields_text b) = Some (Addr6 (join_base 65536 (a ++ replicate k 0 ++ b)) zone).
Proof.
  intros Ha Hb Hk Hl. unfold parse6. rewrite <- (fields_addr_gap zone a b k) by (done || lia). destruct a as [|g a].
  - change (fields_text []) with (@nil ascii). cbn [app has_prefix]. rewrite !bool_decide_eq_true_2 by done. cbn [andb drop]. rewrite !drop_0.
    destruct b as [|h b]; [rewrite decide_True by done|rewrite decide_False].
    + done.
    + rewrite fields6_text by (done || (cbn in *; lia)). done.
    + destruct (fields_text_head (h :: b) [] ltac:(done) Hb) as (c & t & E & _). rewrite app_nil_r in E. by rewrite E.
  - destruct (has_prefix _ _) eqn:E.
    + destruct (fields_text_head (g :: a) (colon_byte :: colon_byte :: fields_text b) ltac:(done) Ha) as (c & t & Et & Hc). rewrite Et in E.
      cbn in E. apply andb_true_iff in E as [E%bool_decide_eq_true _]. by destruct (hex_digit c Hc) as (_ & _ & ? & _).
    + rewrite fields6_gap by (done || lia). done.
Qed.

Lemma parse6_full zone l : Forall field l → length l = 8%nat → parse6 zone (fields_text l) = Some (Addr6 (join_base 65536 l) zone).
Proof.
  intros Hf Hl. assert (l ≠ []) as Hne by (by intros ->). unfold parse6. destruct (has_prefix _ _) eqn:E.
  - destruct (fields_text_head l [] Hne Hf) as (c & t & Et & Hc). rewrite app_nil_r in Et. rewrite Et in E.
    cbn in E. apply andb_true_iff in E as [E%bool_decide_eq_true _]. by destruct (hex_digit c Hc) as (_ & _ & ? & _).
  - rewrite fields6_text by (done || lia). cbn. by rewrite Hl.
Qed.

Lemma parse6_string6 n zone : 0 ≤ n < 2 ^ 128 → parse6 zone (string6 n) = Some (Addr6 n zone).
Proof.
  intros Hn. pose proof (fields_of n) as Hf. pose proof (split_base_length 65536 8 n) as Hlen.
  pose proof (join_split 65536 ltac:(lia) 8 n Hn) as Hj. unfold string6. set (l := split_base 65536 8 n) in *.
  pose proof (longest_run_ok l) as Hr. destruct (longest_run l) as [[i k]|]; [|by rewrite parse6_full, Hj].
  destruct (Hr i k eq_refl) as (Hk & Hik & Ht). assert (l = take i l ++ replicate k 0 ++ drop (i + k) l) as El.
  { rewrite <- Ht, <- drop_drop, take_drop, take_drop. done. }
  rewrite (parse6_gap _ _ _ k); [by rewrite <- El, Hj|by apply Forall_take|by apply Forall_drop|done|]. rewrite length_take, length_drop. lia.
Qed.

Lemma addr_kind_hex s r : Forall (lower_digit 16) s → addr_kind (s ++ colon_byte :: r) = Some colon_byte.
Proof.
  induction s as [|c s IH]; intros Hs; [done|]. apply Forall_cons in Hs as [Hc Hs]. cbn. rewrite decide_False; [by apply IH|].
  destruct (hex_digit c Hc) as (_ & ? & ? & ?). naive_solver.
Qed.
Lemma addr_kind_fields l s : Forall field l → addr_kind (fields_text l ++ colon_byte :: s) = Some colon_byte.
Proof.
  intros Hl. destruct l as [|g l]; [done|]. apply Forall_cons in Hl as [Hg _]. apply hex16_digits in Hg.
  destruct l as [|g' l]; [rewrite fields_text_one|rewrite fields_text_cons, <- app_assoc]; by apply addr_kind_hex.
Qed.
Lemma addr_kind_string6 n s : addr_kind (string6 n ++ s) = Some colon_byte.
Proof.
  unfold string6. pose proof (fields_of n) as Hf. pose proof (split_base_length 65536 8 n) as Hl. set (l := split_base 65536 8 n) in *.
  destruct (longest_run l) as [[i k]|].
  - rewrite <- app_assoc. by apply addr_kind_fields, Forall_take.
  - destruct l as [|g [|g' l]]; [done..|]. rewrite fields_text_cons, <- app_assoc. apply Forall_cons in Hf as [Hg _]. by apply addr_kind_hex, hex16_digits.
Qed.

Definition addr_byte (c : ascii) : Prop := lower_digit 16 c ∨ c = colon_byte ∨ c = dot.
Lemma addr_byte_plain s : Forall addr_byte s → (percent ∉ s) ∧ (slash ∉ s).
Proof.
  intros Hs. split; intros Hin; eapply Forall_forall in Hin; try exact Hs; destruct Hin as [(d & Hd & E)|[?|?]]; try done;
    (symmetry in E; apply base_digit_ne in E; [done|lia|by vm_compute]).
Qed.
Lemma fields_text_bytes l : Forall field l → Forall addr_byte (fields_text l).
Proof.
  intros Hl. destruct l as [|g l]; [constructor|]. revert g Hl. induction l as [|g' l IH]; intros g Hl; apply Forall_cons in Hl as [Hg Hl].
  - rewrite fields_text_one. eapply Forall_impl; [by apply hex16_digits|]. by left.
  - rewrite fields_text_cons. apply Forall_app. split; [eapply Forall_impl; [by apply hex16_digits|]; by left|].
    constructor; [by right; left|by apply IH].
Qed.
Lemma string6_bytes n : Forall addr_byte (string6 n).
Proof.
  unfold string6. pose proof (fields_of n) as Hf. destruct (longest_run _) as [[i k]|]; [|by apply fields_text_bytes].
  apply Forall_app. split; [by apply fields_text_bytes, Forall_take|]. do 2 (constructor; [by right; left|]). by apply fields_text_bytes, Forall_drop.
Qed.
Lemma octet_bytes n : 0 ≤ n < 256 → Forall (lower_digit 16) (FormatInt n).
Proof.
  intros Hn. assert (∀ d, 0 ≤ d ≤ 9 → lower_digit 16 (digit_byte d)) as Hd.
  { intros d Hd. exists d. split; [lia|]. unfold base_digit, digit_byte. by rewrite (proj2 (Z.ltb_lt d 10)) by lia. }
  rewrite octet_text by lia. destruct (Z.ltb_spec n 10); [|destruct (Z.ltb_spec n 100)]; repeat (constructor; [apply Hd; Z.to_euclidean_division_equations; lia|]); constructor.
Qed.
Lemma string4_bytes n : Forall addr_byte (string4 n).
Proof.
  unfold string4. destruct (octets4 n) as (a & b & c & d & -> & Ha & Hb & Hc & Hd). cbn -[FormatInt]. unfold octet in *.
  assert (∀ x, 0 ≤ x < 256 → Forall addr_byte (FormatInt x)) as H by (intros x Hx; eapply Forall_impl; [by apply octet_bytes|]; by left).
  repeat (apply Forall_app; split; [by apply H|]); repeat first [constructor; [by right; right|]|apply Forall_app; split; [by apply H|]]. constructor.
Qed.

Lemma parseIPv6_zone t zone : Forall addr_byte t → parseIPv6 (t ++ zone_text zone) = parse6 zone t.
Proof.
  intros [Hp _]%addr_byte_plain. unfold parseIPv6. destruct zone as [|z zone]; cbn [zone_text].
  - rewrite app_nil_r, (proj2 (index_byte_none _ _) Hp). done.
  - rewrite (proj2 (index_byte_some percent (t ++ percent :: z :: zone) (length t))).
    + rewrite take_app_length. rewrite <- (Nat.add_1_r (length t)), drop_app_add. cbn [drop]. rewrite decide_False by done. done.
    + rewrite take_app_length. by rewrite lookup_app_r, Nat.sub_diag by lia.
Qed.

(** A dotted address starts with digits, and the first byte that is none is a point. *)
Lemma hex_field_some s off acc rest :
  Forall (lower_digit 16) s → (off + length s ≤ 4)%nat → 0 ≤ acc < 16 ^ Z.of_nat off → no_hex rest →
  ∃ g, hex_field off acc (s ++ rest) = Some ((off + length s)%nat, g, rest).
Proof.
  revert off acc. induction s as [|c s IH]; intros off acc Hs Hl Ha Hn.
  - exists acc. cbn [app length]. rewrite Nat.add_0_r. destruct rest as [|c rest]; [done|]. cbn. by rewrite (Hn c).
  - apply Forall_cons in Hs as [Hc Hs]. destruct (hex_digit c Hc) as [(d & Hd0 & Hd & Hx & _) _]. cbn [length] in *. cbn [app hex_field]. rewrite Hx.
    destruct (Nat.ltb_spec 3 off); [lia|]. assert (0 ≤ acc * 16 + d < 16 ^ Z.of_nat (S off)) as Hb.
    { rewrite Nat2Z.inj_succ, Z.pow_succ_r by lia. lia. }
    assert (16 ^ Z.of_nat (S off) ≤ 16 ^ 4) by (apply Z.pow_le_mono_r; lia). change (16 ^ 4) with 65536 in *.
    destruct (Z.gtb_spec (acc * 16 + d) 65535); [lia|]. destruct (IH (S off) (acc * 16 + d)) as [g E]; [done|lia|done..|]. exists g.
    rewrite E. do 3 f_equal. lia.
Qed.

Lemma string4_dot n : ∃ s r, string4 n = s ++ dot :: r ∧ Forall (lower_digit 16) s ∧ s ≠ [] ∧ (length s ≤ 3)%nat.
Proof.
  unfold string4. destruct (octets4 n) as (a & b & c & d & -> & Ha & _). exists (FormatInt a). eexists. split; [done|].
  split; [by apply octet_bytes|]. split; [apply FormatInt_cons|]. unfold octet in Ha. rewrite octet_text by lia. repeat case_match; cbn; lia.
Qed.
Lemma addr_kind_string4 n : addr_kind (string4 n) = Some dot.
Proof.
  destruct (string4_dot n) as (s & r & -> & Hs & _). induction s as [|c s IH]; [done|]. apply Forall_cons in Hs as [Hc Hs]. cbn.
  rewrite decide_False; [by apply IH|]. destruct (hex_digit c Hc) as (_ & ? & ? & ?). naive_solver.
Qed.

Lemma fields6_v4 fs e n : (length fs ≤ 6)%nat → (e = None → length fs = 6%nat) →
  fields6 (8 - length fs) fs e (string4 n) =
    match split_base 256 4 n with [a; b; c; d] => Some (fs ++ [a * 256 + b; c * 256 + d], e, []) | _ => None end.
Proof.
  intros Hl He. destruct (string4_dot n) as (s & r & E & Hs & Hne & Hs3). destruct (8 - length fs)%nat as [|m] eqn:Em; [lia|].
  destruct (hex_field_some s 0 0 (dot :: r)) as [g Eg]; [done|lia|done|by intros c [= <-]|]. cbn [fields6]. rewrite <- E in Eg. rewrite Eg.
  destruct s as [|c s]; [done|]. cbn [length Nat.add]. rewrite decide_True by done.
  assert (bool_decide (e = None) && negb (length fs =? 6)%nat = false) as ->.
  { destruct (bool_decide (e = None)) eqn:Eb; [|done]. apply bool_decide_eq_true in Eb. by rewrite (He Eb). }
  destruct (Nat.ltb_spec 8 (length fs + 2)); [lia|]. by rewrite fields4_text.
Qed.

Lemma mapped_bits n : Z.shiftr n 32 = 65535 → n = 65535 * 2 ^ 32 + n mod 2 ^ 32.
Proof. rewrite Z.shiftr_div_pow2 by lia. pose proof (Z.div_mod n (2 ^ 32) ltac:(lia)). lia. Qed.

Lemma parse6_mapped n zone : Z.shiftr n 32 = 65535 → parse6 zone (bs "::ffff:" ++ string4 (n mod 2 ^ 32)) = Some (Addr6 n zone).
Proof.
  intros Hm%mapped_bits. change (bs "::ffff:") with (colon_byte :: colon_byte :: hex16 65535 ++ [colon_byte]). unfold parse6.
  cbn [app has_prefix]. rewrite !bool_decide_eq_true_2 by done. cbn [andb drop]. rewrite drop_0, <- app_assoc. cbn [app].
  set (m := n mod 2 ^ 32) in *. destruct (string4_dot m) as (s & r & E & Hs & Hne & _). destruct s as [|c s]; [done|].
  assert (fields6 8 [] (Some O) (hex16 65535 ++ colon_byte :: string4 m) = fields6 7 [65535] (Some O) (string4 m)) as ->.
  { destruct (hex_field_hex16 65535 (colon_byte :: string4 m)) as [k Ek]; [done|done|]. rewrite E in *. cbn [fields6 app] in *. rewrite Ek. cbv iota.
    rewrite decide_False, decide_True by done. apply Forall_cons in Hs as [Hc _]. by rewrite decide_False by apply (hex_digit c Hc). }
  rewrite decide_False by done. 
  pose proof (fields6_v4 [65535] (Some O) m ltac:(cbn; lia) ltac:(done)) as E6. cbn [length Nat.sub] in E6. rewrite E6.
  pose proof (join_split 256 ltac:(lia) 4 m ltac:(apply Z.mod_pos_bound; lia)) as Hj. destruct (octets4 m) as (a & b & x & d & Es & _). rewrite Es in *.
  cbn in *. do 2 f_equal. lia.
Qed.

(** [ParseAddr] reads back the text of an address. *)
Lemma ParseAddr_String a : addr_ok a → ParseAddr (Addr_String a) = Some a.
Proof.
  destruct a as [|n|n zone]; [done|..]; intros Ha; unfold ParseAddr, Addr_String.
  - rewrite addr_kind_string4, decide_True by done. unfold parseIPv4. rewrite fields4_text. cbn [fmap option_fmap option_map compose].
    by rewrite join_split by (done || lia).
  - cbn [Is4In6]. destruct (Z.eqb_spec (Z.shiftr n 32) 65535) as [E|E].
    + change (addr_kind _) with (Some colon_byte). cbv iota. rewrite decide_False, decide_True by done.
      rewrite parseIPv6_zone; [by apply parse6_mapped|]. apply Forall_app. split; [|apply string4_bytes].
      change (bs "::ffff:") with (colon_byte :: colon_byte :: hex16 65535 ++ [colon_byte]). do 2 (constructor; [by right; left|]).
      apply Forall_app. split; [|by constructor; [right; left|]]. eapply Forall_impl; [by apply hex16_digits|]. by left.
    + rewrite addr_kind_string6, decide_False, decide_True by done. rewrite parseIPv6_zone by apply string6_bytes. by apply parse6_string6.
Qed.

(** ** What the parsers return *)

Lemma fields4_range prev val k fields s l :
  octet val → Forall octet fields → (length fields ≤ 3)%nat → parseIPv4Fields prev val k fields s = Some l → Forall octet l ∧ length l = 4%nat.
Proof.
  unfold octet. revert prev val k fields. induction s as [|c s IH]; intros prev val k fields Hv Hf Hl; cbn [parseIPv4Fields].
  - destruct (Nat.ltb_spec (length fields) 3); [done|]. intros [= <-]. rewrite length_app, Forall_app. split; [|cbn; lia]. split; [done|]. by apply Forall_singleton.
  - destruct (is_digit c) eqn:Ed.
    + apply is_digit_value in Ed. destruct (_ && _); [done|]. destruct (Z.gtb_spec (val * 10 + digit_value c) 255); [done|]. apply IH; [lia|done..].
    + destruct (decide (c = dot)); [|done]. destruct (_ || _); [done|]. destruct (Nat.eqb_spec (length fields) 3); [done|].
      apply IH; [lia| |rewrite length_app; cbn; lia]. apply Forall_app. split; [done|]. by apply Forall_singleton.
Qed.

Lemma hex_field_range off acc s k g r : field acc → hex_field off acc s = Some (k, g, r) → field g.
Proof.
  unfold field. revert off acc. induction s as [|c s IH]; intros off acc Ha; cbn [hex_field]; [by intros [= <- <- <-]|].
  destruct (hex_value c) as [d|] eqn:Ed; [|by intros [= <- <- <-]]. destruct (3 <? off)%nat; [done|].
  destruct (Z.gtb_spec (acc * 16 + d) 65535); [done|]. apply IH. split; [|lia]. unfold hex_value, byte_in in Ed. repeat case_match; simplify_eq; lia.
Qed.

Definition fields_ok (r : list Z * option nat * bytes) : Prop :=
  Forall field r.1.1 ∧ (length r.1.1 ≤ 8)%nat ∧ ∀ e, r.1.2 = Some e → (e ≤ length r.1.1)%nat.
Lemma fields6_range m fs e s r :
  Forall field fs → (length fs + m ≤ 8)%nat → (∀ k, e = Some k → (k ≤ length fs)%nat) → fields6 m fs e s = Some r → fields_ok r.
Proof.
  revert fs e s. induction m as [|m IH]; intros fs e s Hf Hl He; cbn [fields6].
  { intros [= <-]. split_and!; [done|cbn; lia|done]. }
  destruct (hex_field 0 0 s) as [[[[|k] g] rest]|] eqn:Eh; [done| |done]. apply hex_field_range in Eh; [|done].
  assert (Forall field (fs ++ [g])) as Hg by (apply Forall_app; split; [done|by apply Forall_singleton]).
  assert (length (fs ++ [g]) = S (length fs)) as Lg by (rewrite length_app; cbn; lia).
  assert (∀ k, e = Some k → (k ≤ length (fs ++ [g]))%nat) as He' by (intros k' H; specialize (He k' H); lia).
  assert (∀ t, fields_ok (fs ++ [g], e, t)) as Hok by (intros t; split_and!; [done|cbn; lia|done]).
  destruct rest as [|c rest]; [by intros [= <-]|]. destruct (decide (c = dot)).
  - destruct (_ && _); [done|]. destruct (Nat.ltb_spec 8 (length fs + 2)); [done|].
    destruct (parseIPv4Fields None 0 0 [] s) as [v4|] eqn:E4; [|done]. apply fields4_range in E4 as [H4 _]; [|done|constructor|cbn; lia].
    destruct v4 as [|a [|b [|c' [|d [|? ?]]]]]; try done. intros [= <-]. rewrite !Forall_cons in H4. unfold octet in H4. destruct H4 as (Ha & Hb & Hc & Hd & _).
    split_and!; cbn [fst snd].
    + apply Forall_app. split; [done|]. unfold field. repeat constructor; lia.
    + rewrite length_app. cbn. lia.
    + intros k' H'. specialize (He k' H'). rewrite length_app. lia.
  - destruct (decide (c = colon_byte)); [|done]. destruct rest as [|c' rest]; [done|]. destruct (decide (c' = colon_byte)); [|apply IH; [done|lia|done]].
    destruct e; [done|]. destruct (decide (rest = [])); [|apply IH; [done|lia|by intros k' [= <-]]].
    intros [= <-]. split_and!; [done|cbn; lia|by intros k' [= <-]].
Qed.

Lemma fields_addr_ok zone r a : fields_ok r → fields_addr zone r = Some a → addr_ok a.
Proof.
  destruct r as [[fs e] rest]. intros (Hf & Hl & He). cbn [fst snd] in *. unfold fields_addr. destruct (decide (rest = [])); [|done].
  assert (∀ l, Forall field l → length l = 8%nat → addr_ok (Addr6 (join_base 65536 l) zone)) as Hok.
  { intros l Hl' L8. cbn. pose proof (join_base_range 65536 ltac:(lia) l Hl') as H. rewrite L8 in H. exact H. }
  destruct e as [e|]; destruct (Nat.ltb_spec (length fs) 8); try done; intros [= <-]; apply Hok; try done; [| |lia].
  - unfold expand. rewrite !Forall_app. split_and!; [by apply Forall_take|by apply Forall_replicate|by apply Forall_drop].
  - specialize (He e eq_refl). unfold expand. rewrite !length_app, length_take, length_replicate, length_drop. lia.
Qed.

Lemma ParseAddr_ok s a : ParseAddr s = Some a → addr_ok a.
Proof.
  unfold ParseAddr. destruct (addr_kind s) as [c|]; [|done]. destruct (decide (c = dot)); [|destruct (decide (c = colon_byte)); [|done]].
  - unfold parseIPv4. intros (l & H & ->)%fmap_Some. apply fields4_range in H as [Hf Hl]; [|done|constructor|cbn; lia].
    cbn. pose proof (join_base_range 256 ltac:(lia) l Hf) as H. rewrite Hl in H. exact H.
  - unfold parseIPv6. intros ([t zone] & _ & H)%bind_Some. unfold parse6 in H. destruct (has_prefix t _).
    + destruct (decide (drop 2 t = [])); [by simplify_eq|]. apply bind_Some in H as (r & Hr & H). eapply fields_addr_ok; [|exact H].
      eapply fields6_range; [..|exact Hr]; [constructor|done|by intros k [= <-]].
    + apply bind_Some in H as (r & Hr & H). eapply fields_addr_ok; [|exact H]. by eapply fields6_range; [constructor|..|exact Hr].
Qed.

Lemma ParseAddrPort_ok s a port : ParseAddrPort s = Some (a, port) → addr_ok a.
Proof.
  unfold ParseAddrPort. intros ([ip p] & _ & H)%bind_Some. destruct (_ || _); [done|]. destruct (_ && _); [done|].
  apply bind_Some in H as (k & _ & H). apply bind_Some in H as (b & Hb%ParseAddr_ok & H). destruct (_ || _); [done|]. by simplify_eq.
Qed.

(** ** Prefixes *)

Definition prefix_ok (p : Prefix) : Prop := addr_ok (p_Addr p) ∧ Zone (p_Addr p) = [] ∧ 0 ≤ p_Bits p ≤ BitLen (p_Addr p).

Lemma cut_last_app c a b : c ∉ b → cut_last c (a ++ c :: b) = Some (a, b).
Proof.
  intros Hb. assert (cut_last c b = None) as E. { induction b as [|d b IH]; [done|]. cbn. rewrite IH by set_solver. rewrite decide_False; set_solver. }
  induction a as [|d a IH]; cbn; [by rewrite E, decide_True|by rewrite IH].
Qed.
Lemma FormatInt_no c n : 0 ≤ n ≤ int64_max → is_digit c = false → c ∉ FormatInt n.
Proof. intros Hn Hc Hin. pose proof (FormatInt_digits n Hn) as Hd. eapply Forall_forall in Hd; [|done]. congruence. Qed.

Lemma Addr_String_bytes a : addr_ok a → Zone a = [] → Forall addr_byte (Addr_String a).
Proof.
  destruct a as [|n|n zone]; [done|..]; intros _ Hz; unfold Addr_String; [apply string4_bytes|]. cbn in Hz. subst. rewrite app_nil_r.
  destruct (Is4In6 _); [|apply string6_bytes]. apply Forall_app. split; [|apply string4_bytes].
  change (bs "::ffff:") with (colon_byte :: colon_byte :: hex16 65535 ++ [colon_byte]). do 2 (constructor; [by right; left|]).
  apply Forall_app. split; [|by constructor; [right; left|]]. eapply Forall_impl; [by apply hex16_digits|]. by left.
Qed.

Lemma bits_head n : 0 ≤ n ≤ 255 → (1 <? length (FormatInt n))%nat && negb (from_option (byte_in 49 57) false (head (FormatInt n))) = false.
Proof.
  intros Hn. rewrite octet_text by done. destruct (Z.ltb_spec n 10); [done|]. assert (∀ d, 1 ≤ d ≤ 9 → byte_in 49 57 (digit_byte d) = true) as Hd.
  { intros d Hd. unfold byte_in. rewrite bval_digit by lia. apply andb_true_iff. lia. }
  destruct (Z.ltb_spec n 100); cbn [head from_option length]; rewrite Hd; try done; Z.to_euclidean_division_equations; lia.
Qed.

Lemma PrefixFrom_ok p : prefix_ok p → PrefixFrom (p_Addr p) (p_Bits p) = p.
Proof.
  destruct p as [a bits]. intros (Ha & Hz & Hb). cbn in *. unfold PrefixFrom. assert (WithZone [] a = a) as -> by (destruct a; [done..|cbn in Hz; by subst]).
  destruct (IsValid a && (0 <=? bits) && (bits <=? BitLen a)) eqn:E; [done|]. destruct a; [done|cbn in *; lia..].
Qed.

(** [ParsePrefix] reads back the text of a prefix. *)
Lemma ParsePrefix_String p : prefix_ok p → ParsePrefix (Prefix_String p) = Some p.
Proof.
  intros Hp. pose proof Hp as (Ha & Hz & Hb). assert (BitLen (p_Addr p) ≤ 128) as Hl by (destruct (p_Addr p); cbn; lia).
  unfold Prefix_String, ParsePrefix. destruct (Z.ltb_spec (p_Bits p) 0); [lia|].
  rewrite cut_last_app by (apply FormatInt_no; [unfold int64_max; lia|done]). cbn [mbind option_bind].
  rewrite ParseAddr_String by done. cbn [mbind option_bind]. rewrite bool_decide_eq_false_2 by (rewrite Hz; by intros []). rewrite bits_head by lia.
  rewrite ParseInt_FormatInt by (unfold int64_max; lia). cbn [mbind option_bind]. destruct (_ || _) eqn:E; [lia|]. f_equal. by apply PrefixFrom_ok.
Qed.

Lemma ParsePrefix_ok s p : ParsePrefix s = Some p → prefix_ok p.
Proof.
  unfold ParsePrefix. intros ([a b] & _ & H)%bind_Some. apply bind_Some in H as (ip & Ha%ParseAddr_ok & H). destruct (bool_decide _) eqn:Ez; [done|].
  apply bool_decide_eq_false in Ez. apply dec_stable in Ez. destruct (_ && _); [done|]. apply bind_Some in H as (bits & _ & H).
  destruct (_ || _) eqn:Eb; [done|]. assert (prefix_ok {| p_Addr := ip; p_Bits := bits |}) as Hp by (split_and!; [done|done|cbn; lia..]).
  pose proof (PrefixFrom_ok _ Hp) as E. cbn in E. rewrite E in H. by injection H as <-.
Qed.

(** The addresses of a prefix share its leading bits. *)
Definition tail_bits (p : Prefix) : Z := BitLen (p_Addr p) - p_Bits p.
Lemma Contains_iff p a : prefix_ok p →
  Contains p a = true ↔ Zone a = [] ∧ BitLen a = BitLen (p_Addr p) ∧ addr_bits a / 2 ^ tail_bits p = addr_bits (p_Addr p) / 2 ^ tail_bits p.
Proof.
  intros (Ha & _ & Hb). unfold Contains, tail_bits. rewrite !andb_true_iff, bool_decide_eq_true, negb_true_iff, Z.eqb_neq, !Z.eqb_eq, Z.leb_le.
  assert (BitLen (p_Addr p) ≠ 0) as H0 by (destruct (p_Addr p); [by destruct Ha|done..]).
  split.
  - intros ((((H1 & H2) & _) & H3) & H4). rewrite <- H3 in H4. rewrite Z.shiftr_lxor in H4. apply Z.lxor_eq in H4.
    rewrite !Z.shiftr_div_pow2 in H4 by lia. done.
  - intros (H1 & H2 & H3). rewrite H2. split_and!; [lia|done..|]. rewrite Z.shiftr_lxor, !Z.shiftr_div_pow2, H3 by lia. apply Z.lxor_nilpotent.
Qed.

(** A prefix that contains the address of a longer one contains its addresses. *)
Lemma Contains_within p c a :
  prefix_ok p → prefix_ok c → p_Bits p ≤ p_Bits c → Contains p (p_Addr c) = true → Contains c a = true → Contains p a = true.
Proof.
  intros Hp Hc Hb (_ & L & E)%Contains_iff (Z & L' & E')%Contains_iff; [|done..]. apply Contains_iff; [done|]. split; [done|]. split; [congruence|].
  pose proof Hp as (_ & _ & Hp'). pose proof Hc as (_ & _ & Hc').
  rewrite <- E. unfold tail_bits in *. rewrite L in *.
  replace (BitLen (p_Addr p) - p_Bits p) with ((BitLen (p_Addr p) - p_Bits c) + (p_Bits c - p_Bits p)) by lia.
  rewrite Z.pow_add_r, <- !Z.div_div, E' by (lia || apply Z.pow_pos_nonneg; lia || apply Z.pow_nonzero; lia). done.
Qed.

Lemma clear_low_div k n : 0 ≤ k → clear_low k n = n / 2 ^ k * 2 ^ k.
Proof. intros Hk. unfold clear_low. by rewrite Z.shiftl_mul_pow2, Z.shiftr_div_pow2. Qed.
Lemma clear_low_bounds k n : 0 ≤ k → 0 ≤ n → 0 ≤ clear_low k n ≤ n.
Proof.
  intros Hk Hn. rewrite clear_low_div by done. pose proof (Z.pow_pos_nonneg 2 k ltac:(lia) Hk).
  pose proof (Z.div_mod n (2 ^ k) ltac:(lia)). pose proof (Z.mod_pos_bound n (2 ^ k) ltac:(lia)). pose proof (Z.div_pos n (2 ^ k) Hn ltac:(lia)). nia.
Qed.

Lemma Masked_ok p : prefix_ok p → prefix_ok (Masked p) ∧ p_Bits (Masked p) = p_Bits p ∧ BitLen (p_Addr (Masked p)) = BitLen (p_Addr p).
Proof.
  intros (Ha & Hz & Hb). unfold Masked. destruct (Z.leb_spec 0 (p_Bits p)); [|lia]. set (m := mask (p_Bits p) (p_Addr p)).
  assert (addr_ok m ∧ Zone m = [] ∧ BitLen m = BitLen (p_Addr p)) as (Hm & Hmz & Hml).
  { unfold m. destruct (p_Addr p) as [|n|n z]; cbn in *; [done|..]; (split; [|done]);
      pose proof (clear_low_bounds (32 - p_Bits p) n); pose proof (clear_low_bounds (128 - p_Bits p) n); lia. }
  assert (prefix_ok {| p_Addr := m; p_Bits := p_Bits p |}) as Hp by (split_and!; [done|done|cbn; lia..]).
  pose proof (PrefixFrom_ok _ Hp) as E. cbn in E. by rewrite E.
Qed.

Lemma Contains_Masked p a : prefix_ok p → Contains (Masked p) a = Contains p a.
Proof.
  intros Hp. destruct (Masked_ok p Hp) as (Hm & Hmb & Hml). apply eq_true_iff_eq. rewrite !Contains_iff by done. unfold tail_bits. rewrite Hmb, Hml.
  assert (addr_bits (p_Addr (Masked p)) / 2 ^ (BitLen (p_Addr p) - p_Bits p) = addr_bits (p_Addr p) / 2 ^ (BitLen (p_Addr p) - p_Bits p)) as ->; [|done].
  destruct Hp as (Ha & Hz & Hb). unfold Masked. destruct (Z.leb_spec 0 (p_Bits p)); [|lia].
  destruct (p_Addr p) as [|n|n z]; cbn in *; [done|..]; rewrite clear_low_div by lia; apply Z.div_mul, Z.pow_nonzero; lia.
Qed.
