(* ===== verification/Netx.v ===== *)
(** * Client addresses

    internal/pkg/netx: prefixes of allowlists, and the address of the client behind
    trusted proxies.  The theorems show that what [ParsePrefixes] accepts is read back
    from its text, and which hop of the forwarding headers decides the address: with a
    trusted peer it is the rightmost hop that is no trusted proxy, whatever a client
    wrote before it. *)

From S2P Require Import Prelude GoStrings GoTime IdGen Netip.

Local Open Scope Z_scope.

(** ** Allowlists *)

Inductive netxErr := invalidCIDR | invalidIP | zoneNotAllowed.

Definition parsePrefix (v : bytes) : result netxErr Prefix :=
  if bool_decide (slash ∈ v) then
    match ParsePrefix v with
    | None => Err invalidCIDR
    | Some p =>
        let addr := p_Addr p in let bits := p_Bits p in
        if Is4In6 addr && (bits >=? 96) then Ok (Masked (PrefixFrom (Unmap addr) (bits - 96))) else Ok (Masked p)
    end
  else
    match ParseAddr v with
    | None => Err invalidIP
    | Some addr =>
        if bool_decide (Zone addr ≠ []) then Err zoneNotAllowed
        else let addr := Unmap addr in Ok (PrefixFrom addr (BitLen addr))
    end.

(** The error of an entry comes with its index. *)
Fixpoint parse_prefixes_loop (i : nat) (values : list bytes) : result (nat * netxErr) (list Prefix) :=
  match values with
  | [] => Ok []
  | raw :: values =>
      let v := TrimSpace raw in
      if bool_decide (v = []) then parse_prefixes_loop (S i) values
      else
        match parsePrefix v with
        | Err e => Err (i, e)
        | Ok p => match parse_prefixes_loop (S i) values with Ok out => Ok (p :: out) | Err e => Err e end
        end
  end.
Definition ParsePrefixes (values : list bytes) : result (nat * netxErr) (list Prefix) := parse_prefixes_loop 0 values.

Definition contains (prefixes : list Prefix) (addr : Addr) : bool :=
  if IsValid addr then existsb (λ p, Contains p addr) prefixes else false.
Definition normalize (addr : Addr) : Addr := Unmap (WithZone [] addr).
Definition AllowedIP (ip : Addr) (allow : list Prefix) : bool :=
  match allow with
  | [] => true
  | _ => if IsValid ip then contains allow (normalize ip) else false
  end.

(** ** The address of a client *)

Definition maxHopLen : nat := 128.
Definition quote : ascii := ascii_of_N 34.

Definition unquote (v : bytes) : bytes :=
  if (2 <=? length v)%nat && bool_decide (head v = Some quote) && bool_decide (last v = Some quote)
  then drop 1 (take (length v - 1) v) else v.
Definition parseHostAddr (v : bytes) : option Addr :=
  let v := unquote (TrimSpace v) in
  if bool_decide (v = []) || (maxHopLen <? length v)%nat then None
  else if bool_decide (head v = Some "["%char) then
    end_ ← index_byte "]"%char v;
    let tail := drop (S end_) v in
    if negb (bool_decide (tail = [])) && bool_decide (ParseAddrPort v = None) then None
    else
      match ParseAddr (drop 1 (take end_ v)) with
      | Some addr => if Is6 addr then Some (normalize addr) else None
      | None => None
      end
  else
    match ParseAddr v with
    | Some addr => Some (normalize addr)
    | None =>
        match ParseAddrPort v with
        | Some (addr, _) => if Is4 addr then Some (normalize addr) else None
        | None => None
        end
    end.

Section forwarded.
Variable trusted : list Prefix.

(** The walk ends with a result, or goes on with the last trusted hop. *)
Abbreviation Walk := (option Addr + option Addr)%type.

(** The loop over the hops of a line, from the right: a line has fewer hops than
    [fuel], its length and one more. *)
Fixpoint walk_line (fuel : nat) (rest : bytes) (found : option Addr) : Walk :=
  match fuel with
  | O => inr found
  | S fuel =>
      let '(hop, rest, more) := match cut_last ","%char rest with Some (before, hop) => (hop, before, true) | None => (rest, rest, false) end in
      let hop := TrimSpace hop in
      if negb (bool_decide (hop = [])) || more then
        match parseHostAddr hop with
        | None => inl found
        | Some addr =>
            if negb (contains trusted addr) then inl (Some addr)
            else if more : bool then walk_line fuel rest (Some addr) else inr (Some addr)
        end
      else inr found
  end.
(** The loop over the lines, the last first. *)
Fixpoint walk_lines (lines : list bytes) (found : option Addr) : option Addr :=
  match lines with
  | [] => found
  | line :: lines => match walk_line (S (length line)) line found with inl r => r | inr found => walk_lines lines found end
  end.
Definition fromForwardedFor (lines : list bytes) : option Addr := walk_lines (rev lines) None.
End forwarded.

(** The peer and the values of the two headers. *)
Record Request := { rq_RemoteAddr : bytes; rq_ForwardedFor : list bytes; rq_RealIP : list bytes }.

Definition ClientIP (r : option Request) (trusted : list Prefix) : Addr :=
  match r with
  | None => AddrNone
  | Some r =>
      match parseHostAddr (rq_RemoteAddr r) with
      | None => AddrNone
      | Some peer =>
          if negb (contains trusted peer) then peer
          else
            match fromForwardedFor trusted (rq_ForwardedFor r) with
            | Some addr => addr
            | None =>
                match rq_RealIP r with
                | [v] => match parseHostAddr v with Some addr => addr | None => peer end
                | _ => peer
                end
            end
      end
  end.

Example ClientIP_examples :
  match ParsePrefixes (bs <$> ["10.0.0.0/8"; " fd00::/8 "; ""; "127.0.0.1"]) with
  | Err _ => False
  | Ok trusted =>
      let ip remote xff real :=
        str (Addr_String (ClientIP (Some {| rq_RemoteAddr := bs remote; rq_ForwardedFor := bs <$> xff; rq_RealIP := bs <$> real |}) trusted)) in
      ip "203.0.113.5:4000" ["1.1.1.1"] ["2.2.2.2"] = "203.0.113.5" ∧
      ip "10.0.0.1:4000" ["6.6.6.6, 198.51.100.9, 10.0.0.2, 10.0.0.3"] [] = "198.51.100.9" ∧
      ip "10.0.0.1:4000" ["198.51.100.9, garbage, 10.0.0.7, 10.0.0.2"] [] = "10.0.0.7" ∧
      ip "[::ffff:10.0.0.1]:4000" ["198.51.100.9"; " "] [] = "198.51.100.9" ∧
      ip "10.0.0.1" ["198.51.100.9,"] ["198.51.100.30"] = "198.51.100.30" ∧
      ip "[fe80::1%en0]:4000" [] [] = "fe80::1" ∧
      ip "10.0.0.1:4000" ["[2001:db8::1]:443"] [] = "2001:db8::1" ∧
      ip "localhost:80" [] [] = "invalid IP"
  end.
Proof. vm_compute. by split_and!. Qed.

(** ** Normal forms *)

(** A valid address without a zone that is not an IPv4 address mapped to IPv6. *)
Definition normal (a : Addr) : Prop := addr_ok a ∧ Zone a = [] ∧ Is4In6 a = false.

Lemma normalize_normal a : addr_ok a → normal (normalize a).
Proof.
  unfold normalize, Unmap. destruct a as [|n|n zone]; [done|..]; intros Ha; cbn [WithZone]; [done|]. destruct (Is4In6 (Addr6 n [])) eqn:E; [|done].
  split_and!; try done; cbn; apply Z.mod_pos_bound; lia.
Qed.
Lemma normal_id a : normal a → normalize a = a.
Proof.
  intros (Ha & Hz & H4). unfold normalize, Unmap. assert (WithZone [] a = a) as -> by (destruct a; [done..|cbn in Hz; by subst]). by rewrite H4.
Qed.

Lemma parseHostAddr_normal v a : parseHostAddr v = Some a → normal a.
Proof.
  unfold parseHostAddr. set (u := unquote (TrimSpace v)). destruct (_ || _); [done|]. destruct (bool_decide (head u = _)).
  - intros (i & _ & H)%bind_Some. destruct (_ && _); [done|]. destruct (ParseAddr _) as [b|] eqn:E; [|done]. destruct (Is6 b); [|done].
    simplify_eq. by eapply normalize_normal, ParseAddr_ok.
  - destruct (ParseAddr u) as [b|] eqn:E; [intros; simplify_eq; by eapply normalize_normal, ParseAddr_ok|].
    destruct (ParseAddrPort u) as [[b port]|] eqn:E'; [|done]. destruct (Is4 b); [|done]. intros; simplify_eq. by eapply normalize_normal, ParseAddrPort_ok.
Qed.

(** ** Canonical prefixes *)

(** What [parsePrefix] returns. *)
Definition canonical (p : Prefix) : Prop := prefix_ok p ∧ Is4In6 (p_Addr p) = false ∧ Masked p = p.

Lemma clear_low_idem k n : 0 ≤ k → clear_low k (clear_low k n) = clear_low k n.
Proof. intros Hk. rewrite !clear_low_div by done. rewrite Z.div_mul by (apply Z.pow_nonzero; lia). done. Qed.
Lemma clear_low_0 n : clear_low 0 n = n.
Proof. rewrite clear_low_div by done. change (2 ^ 0) with 1. rewrite Z.div_1_r. lia. Qed.

Lemma Masked_unfold p : prefix_ok p → Masked p = {| p_Addr := mask (p_Bits p) (p_Addr p); p_Bits := p_Bits p |}.
Proof.
  intros Hp. destruct (Masked_ok p Hp) as (Hm & _ & _). revert Hm. unfold Masked. destruct Hp as (Ha & Hz & Hb). destruct (Z.leb_spec 0 (p_Bits p)); [|lia].
  intros _. unfold PrefixFrom. f_equal.
  - by destruct (p_Addr p).
  - assert (BitLen (mask (p_Bits p) (p_Addr p)) = BitLen (p_Addr p)) as -> by (by destruct (p_Addr p)).
    destruct (_ && _) eqn:E; [done|]. destruct (p_Addr p); [done|cbn in *; lia..].
Qed.

Lemma Masked_idem p : prefix_ok p → Masked (Masked p) = Masked p.
Proof.
  intros Hp. destruct (Masked_ok p Hp) as (Hm & _ & _). rewrite (Masked_unfold (Masked p)) by done. rewrite (Masked_unfold p) by done. cbn [p_Addr p_Bits].
  f_equal. destruct Hp as (Ha & Hz & Hb). destruct (p_Addr p); cbn in *; [done|..]; by rewrite clear_low_idem by lia.
Qed.

(** A mask of less than 96 bits leaves no mapped address: the bit before is cleared. *)
Lemma mask_not_mapped bits a : 0 ≤ bits ≤ 128 → (Is4In6 a = true → bits < 96) → Is4In6 (mask bits a) = false.
Proof.
  intros Hb Ha. destruct a as [|n|n zone]; [done..|]. cbn in *. apply Z.eqb_neq. rewrite !Z.shiftr_div_pow2, clear_low_div in * by lia. intros E.
  destruct (Z.lt_ge_cases bits 96) as [Hs|Hl].
  - replace (128 - bits) with (32 + 1 + (95 - bits)) in E by lia. rewrite !Z.pow_add_r in E by lia.
    replace (_ * (2 ^ 32 * 2 ^ 1 * 2 ^ (95 - bits))) with (n / (2 ^ 32 * 2 ^ 1 * 2 ^ (95 - bits)) * 2 ^ (95 - bits) * 2 * 2 ^ 32) in E by lia.
    rewrite Z.div_mul in E by lia. lia.
  - rewrite (proj2 (Z.eqb_eq (n / 2 ^ 32) 65535)) in Ha; [specialize (Ha eq_refl); lia|]. rewrite <- E.
    assert (2 ^ 32 = 2 ^ (128 - bits) * 2 ^ (bits - 96)) as -> by (rewrite <- Z.pow_add_r by lia; f_equal; lia).
    rewrite <- !Z.div_div, Z.div_mul by ((apply Z.pow_nonzero; lia) || (apply Z.pow_pos_nonneg; lia)). done.
Qed.

Lemma Masked_canonical p : prefix_ok p → (Is4In6 (p_Addr p) = true → p_Bits p < 96) → canonical (Masked p).
Proof.
  intros Hp H4. destruct (Masked_ok p Hp) as (Hm & _ & _). split_and!; [done| |by apply Masked_idem]. rewrite Masked_unfold by done. cbn [p_Addr].
  apply mask_not_mapped; [|done]. destruct Hp as (Ha & _ & Hb). destruct (p_Addr p); cbn in *; lia.
Qed.

Lemma full_prefix a : normal a → canonical (PrefixFrom a (BitLen a)).
Proof.
  intros (Ha & Hz & H4). assert (prefix_ok {| p_Addr := a; p_Bits := BitLen a |}) as Hp by (split_and!; [done|done|destruct a; cbn; lia..]).
  pose proof (PrefixFrom_ok _ Hp) as E. cbn [p_Addr p_Bits] in E. rewrite E. split_and!; [done..|]. rewrite Masked_unfold by done. cbn [p_Addr p_Bits]. f_equal.
  destruct a as [|n|n z]; cbn in *; [done|..]; rewrite clear_low_0; by subst.
Qed.

Lemma parsePrefix_canonical v p : parsePrefix v = Ok p → canonical p.
Proof.
  unfold parsePrefix. destruct (bool_decide (slash ∈ v)).
  - destruct (ParsePrefix v) as [q|] eqn:E; [|done]. apply ParsePrefix_ok in E as Hq. destruct (Is4In6 (p_Addr q) && (p_Bits q >=? 96)) eqn:E4.
    + intros [= <-]. apply andb_true_iff in E4 as [E4 Eb]. destruct Hq as (Ha & Hz & Hb). unfold Unmap. rewrite E4.
      set (q' := {| p_Addr := Addr4 (addr_bits (p_Addr q) mod 2 ^ 32); p_Bits := p_Bits q - 96 |}).
      assert (prefix_ok q') as Hq'.
      { split_and!; cbn; try done; try (apply Z.mod_pos_bound; lia); destruct (p_Addr q); cbn in *; lia. }
      pose proof (PrefixFrom_ok q' Hq') as Eq. cbn [p_Addr p_Bits q'] in Eq. rewrite Eq. by apply Masked_canonical.
    + intros [= <-]. apply Masked_canonical; [done|]. intros H4. rewrite H4 in E4. cbn in E4. lia.
  - destruct (ParseAddr v) as [a|] eqn:E; [|done]. destruct (bool_decide (Zone a ≠ [])) eqn:Ez; [done|]. intros [= <-]. apply full_prefix.
    apply bool_decide_eq_false, dec_stable in Ez. apply ParseAddr_ok in E. pose proof (normalize_normal a E) as Hn. unfold normalize in Hn.
    assert (WithZone [] a = a) as Ew by (destruct a; [done..|cbn in Ez; by subst]). by rewrite Ew in Hn.
Qed.

Lemma parsePrefix_text p : canonical p → parsePrefix (Prefix_String p) = Ok p.
Proof.
  intros (Hp & H4 & Hm). unfold parsePrefix. rewrite ParsePrefix_String by done. rewrite bool_decide_eq_true_2; [by rewrite H4, Hm|].
  unfold Prefix_String. destruct (Z.ltb_spec (p_Bits p) 0); [destruct Hp as (_ & _ & ?); lia|]. set_solver.
Qed.

Lemma addr_byte_ascii c : addr_byte c → bval c < 128 ∧ IsSpace (bval c) = false.
Proof.
  intros [(d & Hd & ->)|[->| ->]]; [|done..]. rewrite base_digit_bval by lia. split; [destruct (Z.ltb_spec d 10); lia|].
  unfold IsSpace. destruct (Z.ltb_spec d 10); repeat (apply orb_false_iff; split); lia.
Qed.

Lemma Prefix_String_trim p : prefix_ok p → TrimSpace (Prefix_String p) = Prefix_String p ∧ Prefix_String p ≠ [].
Proof.
  intros (Ha & Hz & Hb). unfold Prefix_String. destruct (Z.ltb_spec (p_Bits p) 0); [lia|]. pose proof (Addr_String_bytes _ Ha Hz) as Hs.
  assert (BitLen (p_Addr p) ≤ 128) as Hl by (destruct (p_Addr p); cbn; lia). pose proof (FormatInt_digits (p_Bits p) ltac:(unfold int64_max; lia)) as Hd.
  pose proof (FormatInt_cons (p_Bits p)) as Hne. destruct (Addr_String (p_Addr p)) as [|c s] eqn:E.
  { exfalso. pose proof (ParseAddr_String _ Ha) as H'. by rewrite E in H'. }
  split; [|done]. apply Forall_cons in Hs as [[Bc Sc]%addr_byte_ascii _]. destruct (last (FormatInt (p_Bits p))) as [d|] eqn:El; [|by apply last_None in El].
  apply last_Some_elem_of in El as Hin. eapply Forall_forall in Hd; [|done]. apply is_digit_range in Hd.
  eapply (TrimSpace_id c d); [done| |done|lia|done|].
  - rewrite last_app_cons. destruct (FormatInt (p_Bits p)); [done|]. exact El.
  - unfold IsSpace. repeat (apply orb_false_iff; split); lia.
Qed.

(** [ParsePrefixes] reads back the text of the prefixes it returned. *)
Lemma parse_prefixes_text ps i : Forall canonical ps → parse_prefixes_loop i (Prefix_String <$> ps) = Ok ps.
Proof.
  revert i. induction ps as [|p ps IH]; intros i Hp; [done|]. apply Forall_cons in Hp as [Hp Hps]. cbn [fmap list_fmap parse_prefixes_loop].
  destruct (Prefix_String_trim p) as [-> Hne]; [apply Hp|]. rewrite bool_decide_eq_false_2 by done. rewrite parsePrefix_text by done. by rewrite IH.
Qed.
Lemma parse_prefixes_canonical vs i ps : parse_prefixes_loop i vs = Ok ps → Forall canonical ps.
Proof.
  revert i ps. induction vs as [|v vs IH]; intros i ps; cbn; [intros [= <-]; constructor|]. destruct (bool_decide _); [apply IH|].
  destruct (parsePrefix _) as [p|] eqn:E; [|done]. destruct (parse_prefixes_loop (S i) vs) as [out|] eqn:E'; [|done]. intros [= <-].
  constructor; [by eapply parsePrefix_canonical|by eapply IH].
Qed.
Lemma ParsePrefixes_text vs ps : ParsePrefixes vs = Ok ps → ParsePrefixes (Prefix_String <$> ps) = Ok ps.
Proof. intros H%parse_prefixes_canonical. by apply parse_prefixes_text. Qed.

(** ** Which hop decides *)

(** The hops of a line: a blank before the first comma is none. *)
Definition hops_of (line : bytes) : list bytes :=
  match TrimSpace <$> split_byte ","%char line with
  | [] => []
  | w :: ws => if decide (w = []) then ws else w :: ws
  end.
Definition hops (lines : list bytes) : list bytes := mjoin (hops_of <$> lines).

Section decided.
Context (trusted : list Prefix).

Definition proxy_hop (h : bytes) : Prop := ∃ a, parseHostAddr h = Some a ∧ contains trusted a = true.
Definition first_addr (proxies : list bytes) : option Addr := h ← head proxies; parseHostAddr h.

(** The proxies are the trusted hops at the right; what [client] wrote has no part. *)
Inductive decides : list bytes → option Addr → Prop :=
| dec_client client h a proxies :
    parseHostAddr h = Some a → contains trusted a = false → Forall proxy_hop proxies → decides (client ++ h :: proxies) (Some a)
| dec_malformed client h proxies :
    parseHostAddr h = None → Forall proxy_hop proxies → decides (client ++ h :: proxies) (first_addr proxies)
| dec_proxies proxies : Forall proxy_hop proxies → decides proxies (first_addr proxies).

Lemma cut_last_split c s :
  split_byte c s = match cut_last c s with None => [s] | Some (a, b) => split_byte c a ++ [b] end.
Proof.
  induction s as [|d s IH]; [done|]. cbn [split_byte cut_last]. rewrite IH. destruct (cut_last c s) as [[a b]|].
  - cbn [split_byte]. destruct (decide (c = d)); [done|]. destruct (split_byte_cons c a) as (w & ws & ->). done.
  - destruct (decide (d = c)) as [->|Hd]; [by rewrite decide_True|by rewrite decide_False].
Qed.
Lemma cut_last_length c s a b : cut_last c s = Some (a, b) → (length a < length s)%nat.
Proof.
  revert a b. induction s as [|d s IH]; intros a b; cbn; [done|]. destruct (cut_last c s) as [[a' b']|].
  - intros [= <- <-]. specialize (IH a' b' eq_refl). cbn. lia.
  - destruct (decide (d = c)); [|done]. intros [= <- <-]. cbn. lia.
Qed.

Lemma hops_of_cut s :
  hops_of s = match cut_last ","%char s with
              | None => let w := TrimSpace s in if decide (w = []) then [] else [w]
              | Some (a, b) => hops_of a ++ [TrimSpace b]
              end.
Proof.
  unfold hops_of. rewrite cut_last_split. destruct (cut_last ","%char s) as [[a b]|]; [|done].
  destruct (split_byte_cons ","%char a) as (w & ws & ->). cbn. rewrite fmap_app. by destruct (decide (TrimSpace w = [])).
Qed.

(** The walk over a list of hops, the rightmost first. *)
Fixpoint scan (rhops : list bytes) (found : option Addr) : option Addr + option Addr :=
  match rhops with
  | [] => inr found
  | h :: rhops =>
      match parseHostAddr h with
      | None => inl found
      | Some a => if contains trusted a then scan rhops (Some a) else inl (Some a)
      end
  end.

Lemma walk_line_scan fuel line found : (length line < fuel)%nat → walk_line trusted fuel line found = scan (rev (hops_of line)) found.
Proof.
  revert line found. induction fuel as [|fuel IH]; intros line found Hl; [lia|]. cbn [walk_line]. rewrite hops_of_cut.
  destruct (cut_last ","%char line) as [[a b]|] eqn:E.
  - rewrite rev_app_distr. cbn [rev app scan]. rewrite orb_true_r. apply cut_last_length in E.
    destruct (parseHostAddr (TrimSpace b)) as [x|]; [|done]. destruct (contains trusted x); [|done]. cbn [negb]. apply IH. lia.
  - cbv zeta. rewrite orb_false_r. destruct (decide (TrimSpace line = [])) as [Eh|Eh]; [by rewrite bool_decide_eq_true_2|].
    rewrite bool_decide_eq_false_2 by done. cbn [negb rev app scan]. destruct (parseHostAddr (TrimSpace line)) as [x|]; [|done].
    by destruct (contains trusted x).
Qed.
Lemma scan_app l l' found : scan (l ++ l') found = match scan l found with inl r => inl r | inr found => scan l' found end.
Proof.
  revert found. induction l as [|h l IH]; intros found; [done|]. cbn. destruct (parseHostAddr h) as [a|]; [|done]. by destruct (contains trusted a).
Qed.
Definition outcome (w : option Addr + option Addr) : option Addr := match w with inl r | inr r => r end.
Lemma walk_lines_scan lines found : walk_lines trusted lines found = outcome (scan (rev (hops (rev lines))) found).
Proof.
  revert found. induction lines as [|line lines IH]; intros found; [done|]. cbn [walk_lines rev]. rewrite walk_line_scan by lia.
  unfold hops in *. rewrite fmap_app, join_app. cbn. rewrite app_nil_r, rev_app_distr, scan_app.
  destruct (scan (rev (hops_of line)) found) as [r|found']; [done|]. apply IH.
Qed.

Lemma scan_proxies proxies l found : Forall proxy_hop proxies →
  scan (rev proxies ++ l) found = scan l (match proxies with [] => found | _ => first_addr proxies end).
Proof.
  intros Hp. revert l. induction proxies as [|h proxies IH]; intros l; [done|]. apply Forall_cons in Hp as [(a & Ea & Ca) Hp].
  cbn [rev]. rewrite <- app_assoc, IH by done. cbn [app scan]. rewrite Ea, Ca. unfold first_addr. cbn. by rewrite Ea.
Qed.
Lemma first_addr_none proxies : (match proxies with [] => None | _ => first_addr proxies end) = first_addr proxies.
Proof. by destruct proxies. Qed.

Lemma decides_scan hs d : decides hs d → outcome (scan (rev hs) None) = d.
Proof.
  intros [client h a proxies Ea Ca Hp|client h proxies Ea Hp|proxies Hp].
  - rewrite rev_app_distr. cbn [rev]. rewrite <- app_assoc, scan_proxies by done. cbn [app scan]. by rewrite Ea, Ca.
  - rewrite rev_app_distr. cbn [rev]. rewrite <- app_assoc, scan_proxies, first_addr_none by done. cbn [app scan]. by rewrite Ea.
  - rewrite <- (app_nil_r (rev proxies)), scan_proxies, first_addr_none by done. done.
Qed.
Lemma decides_total hs : ∃ d, decides hs d.
Proof.
  induction hs as [|h hs IH]; [exists None; by apply (dec_proxies [])|].
  destruct IH as [d [client h' a proxies ? ? ?|client h' proxies ? ?|proxies Hp]].
  - eexists. by apply (dec_client (h :: client) h' a).
  - eexists. by apply (dec_malformed (h :: client) h').
  - destruct (parseHostAddr h) as [a|] eqn:E; [|eexists; by apply (dec_malformed [] h)]. destruct (contains trusted a) eqn:C.
    + eexists. apply dec_proxies. constructor; [by exists a|done].
    + eexists. by apply (dec_client [] h a).
Qed.

Lemma fromForwardedFor_iff lines d : fromForwardedFor trusted lines = d ↔ decides (hops lines) d.
Proof.
  unfold fromForwardedFor. rewrite walk_lines_scan, rev_involutive. split; [|apply decides_scan].
  intros <-. destruct (decides_total (hops lines)) as [d Hd]. by rewrite (decides_scan _ _ Hd).
Qed.
Lemma decides_normal hs a : decides hs (Some a) → normal a.
Proof.
  intros Hd. inversion Hd as [client h x proxies Ea| client h proxies Ea Hp Eh E|proxies Hp Eh E]; subst; [by eapply parseHostAddr_normal|..];
    apply bind_Some in E as (h' & _ & Eh'); by eapply parseHostAddr_normal.
Qed.
End decided.

(** ** The address *)

(** What decides when no hop does. *)
Definition fallback (r : Request) (peer : Addr) : Addr :=
  match rq_RealIP r with [v] => default peer (parseHostAddr v) | _ => peer end.

Lemma ClientIP_unfold r trusted peer : parseHostAddr (rq_RemoteAddr r) = Some peer →
  ClientIP (Some r) trusted = if contains trusted peer then default (fallback r peer) (fromForwardedFor trusted (rq_ForwardedFor r)) else peer.
Proof.
  intros Hp. unfold ClientIP. rewrite Hp. destruct (contains trusted peer); [|done]. cbn [negb]. destruct (fromForwardedFor _ _); [done|]. unfold fallback.
  destruct (rq_RealIP r) as [|v [|? ?]]; [done| |done]. by destruct (parseHostAddr v).
Qed.
Lemma ClientIP_normal r trusted peer : parseHostAddr (rq_RemoteAddr r) = Some peer → normal (ClientIP (Some r) trusted).
Proof.
  intros Hp. rewrite (ClientIP_unfold _ _ _ Hp). apply parseHostAddr_normal in Hp. destruct (contains trusted peer); [|done].
  pose proof (proj1 (fromForwardedFor_iff trusted (rq_ForwardedFor r) _) eq_refl) as Hd. destruct (fromForwardedFor _ _); [by eapply decides_normal|].
  cbn. unfold fallback. destruct (rq_RealIP r) as [|v [|? ?]]; [done| |done]. destruct (parseHostAddr v) eqn:E; [by eapply parseHostAddr_normal|done].
Qed.

(** C21: the address of a client is valid and normalized when the peer's is.  A peer that
    is not trusted is the client, whatever headers it sends.  Behind a trusted peer the
    trusted hops at the right of X-Forwarded-For are passed over and the next hop is the
    client when it is valid, whatever was written to the left of it; when it is
    malformed, or all are trusted, it is the leftmost of the trusted ones; only without
    such a hop a single valid X-Real-IP, and else the peer, is taken. *)
Theorem ClientIP_decided r trusted peer :
  parseHostAddr (rq_RemoteAddr r) = Some peer →
  let ip := ClientIP (Some r) trusted in
  normal ip ∧
  (contains trusted peer = false → ip = peer) ∧
  (contains trusted peer = true →
    ∃ d, decides trusted (hops (rq_ForwardedFor r)) d ∧ ip = default (fallback r peer) d ∧
      ∀ d', decides trusted (hops (rq_ForwardedFor r)) d' → d' = d).
Proof.
  intros Hp. cbv zeta. split; [by eapply ClientIP_normal|]. rewrite (ClientIP_unfold _ _ _ Hp). destruct (contains trusted peer); [|done]. split; [done|]. intros _.
  exists (fromForwardedFor trusted (rq_ForwardedFor r)). split; [by apply fromForwardedFor_iff|]. split; [done|]. intros d' Hd'. symmetry. by apply fromForwardedFor_iff.
Qed.

(** A client behind two proxies that sends a made-up header. *)
Definition ex_trusted : list Prefix := match ParsePrefixes [bs "10.0.0.0/8"; bs "::1"] with Ok ps => ps | Err _ => [] end.
Definition ex_request : Request :=
  {| rq_RemoteAddr := bs "10.0.0.1:4000"; rq_ForwardedFor := bs <$> ["127.0.0.1"; "10.9.9.9, 198.51.100.9, ::ffff:10.0.0.2"]; rq_RealIP := [bs "1.1.1.1"] |}.
Lemma ClientIP_decided_witness :
  ParseAddr (bs "198.51.100.9") = Some (ClientIP (Some ex_request) ex_trusted) ∧ normal (ClientIP (Some ex_request) ex_trusted).
Proof. split; [by vm_compute|]. apply (ClientIP_decided ex_request ex_trusted (Addr4 167772161)). by vm_compute. Defined.
