(* ===== verification/AuthTokens.v ===== *)
(** * API tokens

    internal/auth: the plaintext of tokens, their validation, creation and revocation
    (tokens.go, tokens_escalation.go, tokengen.go, validate.go), the record that a row
    becomes (tokencache.go) and the authentication of a request by a token
    (authenticator.go, requestmeta.go).  The services are programs of calls of the
    database, which others use at the same time.  The theorems show that a token that
    was created by a token is accepted only where its creator would be, and allows
    nothing more but what only nodes do. *)

From S2P Require Import Prelude GoStrings GoTime IdGen Glob Authz PolicySignal Netip Netx Effects.

#[local] Open Scope string_scope.
#[local] Open Scope list_scope.
#[local] Open Scope Z_scope.
#[local] Open Scope prog_scope.

(** ** Plaintext (tokengen.go) *)

Definition TokenPrefix : bytes := bs "spn_".
Definition tokenRandomBytes : nat := 32.
Definition tokenBodyLen : nat := 43.
Definition TokenLength : nat := length TokenPrefix + tokenBodyLen.
Definition TokenPrefixLength : nat := 12.

(** The digits of [big.Int.Text(62)]: 0-9, a-z, A-Z. *)
Definition base62_digit (d : Z) : ascii :=
  ascii_of_N (Z.to_N (if d <? 10 then 48 + d else if d <? 36 then 87 + d else 29 + d)).
Fixpoint text62 (fuel : nat) (n : Z) (acc : bytes) : bytes :=
  match fuel with
  | O => acc
  | S fuel => let acc := base62_digit (n mod 62) :: acc in if n / 62 =? 0 then acc else text62 fuel (n / 62) acc
  end.
(** 43 digits hold 256 bits. *)
Definition token_text (b : bytes) : bytes :=
  let body := text62 tokenBodyLen (join_base 256 (bval <$> b)) [] in
  TokenPrefix ++ (if (length body <? tokenBodyLen)%nat then replicate (tokenBodyLen - length body) "0"%char ++ body else body).
(** [None] when no random bytes can be read. *)
Definition GenerateToken (random : option bytes) : option bytes := token_text <$> random.

Definition isBase62 (c : ascii) : bool := byte_in 48 57 c || byte_in 97 122 c || byte_in 65 90 c.
Definition WellFormedToken (s : bytes) : bool :=
  if negb (length s =? TokenLength)%nat || negb (has_prefix s TokenPrefix) then false else forallb isBase62 (drop (length TokenPrefix) s).

(** ** Validation (validate.go) *)

Definition maxDescriptionLength : nat := 1024.
Definition maxTokenNameLength : nat := 64.
Definition maxTokenScopes : nat := 64.
Definition maxTokenAllowlist : nat := 256.
Definition maxTokenRateLimitRPS : Z := 1000000.

Inductive tokenErr :=
| teAuth (e : authErr)
| teInvalid (what : string)
| teScope (e : scopeErr)
| teAllowlist (i : nat) (e : netxErr)
| teUnauthenticated (reason : string)
| teDenied (what : string)
| teNotFound
| teConflict
| teInternal.

Definition siteNamePattern (s : bytes) : bool :=
  match s with
  | [] => false
  | c :: s => (byte_in 97 122 c || byte_in 48 57 c || bool_decide (c = "_"%char)) && (length s <=? 63)%nat
              && forallb (λ c, byte_in 97 122 c || byte_in 48 57 c || bool_decide (c = "_"%char) || bool_decide (c = "."%char) || bool_decide (c = "-"%char)) s
  end.
Definition ValidSiteName (s : bytes) : bool := siteNamePattern s.

(** [None] is no error. *)
Definition validateText (s : bytes) (maxLen : nat) : option tokenErr :=
  if negb (ValidString s) then Some (teInvalid "UTF-8")
  else if (maxLen <? length (runes s))%nat then Some (teInvalid "length")
  else if existsb (λ '(r, _), IsControl r && negb (r =? 10) && negb (r =? 9)) (decoded s) then Some (teInvalid "control")
  else None.
Definition validateName (s : bytes) (maxLen : nat) : option tokenErr :=
  if bool_decide (TrimSpace s = []) then Some (teInvalid "required")
  else
    match validateText s maxLen with
    | Some e => Some e
    | None => if contains_any s [ascii_of_N 10; ascii_of_N 9] then Some (teInvalid "single line") else None
    end.

Definition superuser (p : option Principal) : bool :=
  match p with
  | None => false
  | Some p => String.eqb (pr_Kind p) KindSystem || (String.eqb (pr_Kind p) KindUser && pr_IsPlatformAdmin p)
  end.
Definition tenantVisible (p : Principal) (tenantID : string) : bool :=
  String.eqb (pr_TenantID p) tenantID || (superuser (Some p) && String.eqb (pr_TenantID p) "").

(** ** Tokens (tokens.go) *)

Definition siteScopes (name : string) : bool := Authz.contains [ScopeLeaseAcquire; ScopeReportWrite; ScopeIdentityWrite] name.

Record NamespaceRef := { ns_ID : string; ns_TenantID : string; ns_Name : string }.
Definition ns_resource (n : NamespaceRef) : Resource :=
  {| r_TenantID := ns_TenantID n; r_NamespaceID := ns_ID n; r_NamespaceName := ns_Name n; r_SiteID := ""; r_SiteName := ""; r_ConfigGroup := ""; r_SecretPath := "" |}.

(** Times are nanoseconds; [None] of a time is the nil pointer. *)
Record CreateTokenInput := {
  ci_Name : bytes; ci_Description : bytes; ci_Scopes : list bytes; ci_IPAllowlist : list bytes; ci_RateLimitRPS : Z; ci_ExpiresAt : option Z;
}.
Record preparedToken := { pt_scopes : list bytes; pt_allow : list bytes; pt_parsed : list Scope; pt_prefixes : list Prefix }.

Definition prepareToken (input : CreateTokenInput) (now : Z) : result tokenErr preparedToken :=
  match validateName (ci_Name input) maxTokenNameLength with Some e => Err e | None =>
  match validateText (ci_Description input) maxDescriptionLength with Some e => Err e | None =>
  if (length (ci_Scopes input) =? 0)%nat then Err (teInvalid "at least one scope")
  else if (maxTokenScopes <? length (ci_Scopes input))%nat then Err (teInvalid "too many scopes")
  else
    match ParseScopes (ci_Scopes input) with Err e => Err (teScope e) | Ok scopes =>
    if existsb (λ s, siteScopes (sc_Name s) && negb (bool_decide (sc_Arg s = [])) && negb (ValidSiteName (sc_Arg s))) scopes then Err (teInvalid "scope site name")
    else if (maxTokenAllowlist <? length (ci_IPAllowlist input))%nat then Err (teInvalid "too many allowlist entries")
    else
      match ParsePrefixes (ci_IPAllowlist input) with Err (i, e) => Err (teAllowlist i e) | Ok prefixes =>
      if (ci_RateLimitRPS input <? 0) || (ci_RateLimitRPS input >? maxTokenRateLimitRPS) then Err (teInvalid "rate_limit_rps")
      else if match ci_ExpiresAt input with Some e => e <=? now | None => false end then Err (teInvalid "expires_at")
      else Ok {| pt_scopes := sc_Raw <$> scopes; pt_allow := Prefix_String <$> prefixes; pt_parsed := scopes; pt_prefixes := prefixes |}
      end
    end
  end end.

(** A row of the table of tokens; the name of the namespace is joined when it is read. *)
Record TokenRow := {
  tr_ID : string; tr_TenantID : string; tr_NamespaceID : string; tr_Name : bytes; tr_Description : bytes; tr_Prefix : bytes; tr_Hash : bytes;
  tr_Scopes : list bytes; tr_IpAllowlist : list bytes; tr_RateLimitRps : Z; tr_ExpiresAt : option Z; tr_RevokedAt : option Z; tr_CreatedBy : string;
}.

(** ** What a token may create (tokens_escalation.go) *)

Definition prefixWithinAny (child : Prefix) (parents : list Prefix) : bool :=
  existsb (λ p, (p_Bits p <=? p_Bits child) && Contains p (p_Addr child)) parents.

Definition validateChildAllowlist (parentAllow : list bytes) (child : list Prefix) : option tokenErr :=
  match ParsePrefixes parentAllow with
  | Err _ => Some teInternal
  | Ok parent =>
      if bool_decide (parent = []) then None
      else if bool_decide (child = []) then Some (teDenied "ip_allowlist is required")
      else if negb (forallb (λ c, prefixWithinAny c parent) child) then Some (teDenied "ip_allowlist entry")
      else None
  end.

Definition validateChildToken (parent : TokenRow) (input : CreateTokenInput) (prep : preparedToken) (now : Z) : option tokenErr :=
  if bool_decide (tr_RevokedAt parent ≠ None) then Some (teUnauthenticated "token_revoked")
  else if match tr_ExpiresAt parent with Some e => e <=? now | None => false end then Some (teUnauthenticated "token_expired")
  else if existsb (λ s, String.eqb (sc_Name s) ScopeAdmin) (pt_parsed prep) then Some (teDenied "admin scope")
  else if match tr_ExpiresAt parent, ci_ExpiresAt input with
          | Some _, None => true
          | Some e, Some e' => e' >? e
          | None, _ => false
          end then Some (teDenied "expires_at")
  else
    match validateChildAllowlist (tr_IpAllowlist parent) (pt_prefixes prep) with
    | Some e => Some e
    | None =>
        if (tr_RateLimitRps parent >? 0) && ((ci_RateLimitRPS input <=? 0) || (ci_RateLimitRPS input >? tr_RateLimitRps parent))
        then Some (teDenied "rate_limit_rps") else None
    end.

(** ** The services *)

(** Calls of the database answer [None] on an error, and [Some None] for no row or,
    of an insertion, for a row that another one excludes. *)
Inductive tcmd : Type → Type :=
| t_now : tcmd Z
| t_random : tcmd (option bytes)
| t_new_id : tcmd string
| t_get (id : string) : tcmd (option (option TokenRow))
| t_namespace (id : string) : tcmd (option (option NamespaceRef))
| t_insert (row : TokenRow) : tcmd (option (option TokenRow))
| t_revoke (id : string) : tcmd (option (option Z))
| t_publish (tenantID namespaceID id : string) : tcmd unit
| t_audit (action id : string) : tcmd unit.

Section services.
(** SHA-256 *)
Variable HashToken : bytes → bytes.

Definition checkTokenCreatedByToken (p : Principal) (input : CreateTokenInput) (prep : preparedToken) : prog tcmd (option tokenErr) :=
  if negb (String.eqb (pr_Kind p) KindToken) then Ret None
  else
    r <- call (t_get (pr_ID p)) ;;
    match r with
    | Some None => Ret (Some (teUnauthenticated "token_invalid"))
    | None => Ret (Some teInternal)
    | Some (Some parent) => now <- call t_now ;; Ret (validateChildToken parent input prep now)
    end.

Definition token_row (id : string) (ns : NamespaceRef) (input : CreateTokenInput) (prep : preparedToken) (createdBy : string) (plaintext : bytes) : TokenRow :=
  {| tr_ID := id; tr_TenantID := ns_TenantID ns; tr_NamespaceID := ns_ID ns; tr_Name := ci_Name input; tr_Description := ci_Description input;
     tr_Prefix := take TokenPrefixLength plaintext; tr_Hash := HashToken plaintext; tr_Scopes := pt_scopes prep; tr_IpAllowlist := pt_allow prep;
     tr_RateLimitRps := ci_RateLimitRPS input; tr_ExpiresAt := ci_ExpiresAt input; tr_RevokedAt := None; tr_CreatedBy := createdBy |}.
Definition insertToken (ns : NamespaceRef) (input : CreateTokenInput) (prep : preparedToken) (createdBy : string) : prog tcmd (result tokenErr (TokenRow * bytes)) :=
  random <- call t_random ;;
  match GenerateToken random with
  | None => Ret (Err teInternal)
  | Some plaintext =>
      id <- call t_new_id ;;
      r <- call (t_insert (token_row id ns input prep createdBy plaintext)) ;;
      match r with
      | None => Ret (Err teInternal)
      | Some None => Ret (Err teConflict)
      | Some (Some row) => Ret (Ok (row, plaintext))
      end
  end.

Definition Create (p : option Principal) (ns : NamespaceRef) (input : CreateTokenInput) : prog tcmd (result tokenErr (TokenRow * bytes)) :=
  match Require_ p PermTokenWrite (ns_resource ns), p with
  | Some e, _ => Ret (Err (teAuth e))
  | None, None => Ret (Err (teAuth Unauthenticated))
  | None, Some p =>
      now <- call t_now ;;
      match prepareToken input now with
      | Err e => Ret (Err e)
      | Ok prep =>
          e <- checkTokenCreatedByToken p input prep ;;
          match e with
          | Some e => Ret (Err e)
          | None =>
              r <- insertToken ns input prep (Actor (Some p)) ;;
              match r with
              | Err e => Ret (Err e)
              | Ok (row, plaintext) => call (t_audit "token.create" (tr_ID row)) ;; Ret (Ok (row, plaintext))
              end
          end
      end
  end.

Definition visibleToken (p : option Principal) (id : string) : prog tcmd (result tokenErr TokenRow) :=
  match p with
  | None => Ret (Err (teUnauthenticated "session_invalid"))
  | Some p =>
      r <- call (t_get id) ;;
      match r with
      | None => Ret (Err teInternal)
      | Some None => Ret (Err teNotFound)
      | Some (Some row) => if negb (tenantVisible p (tr_TenantID row)) then Ret (Err teNotFound) else Ret (Ok row)
      end
  end.

Definition set_revoked (at_ : option Z) (row : TokenRow) : TokenRow :=
  {| tr_ID := tr_ID row; tr_TenantID := tr_TenantID row; tr_NamespaceID := tr_NamespaceID row; tr_Name := tr_Name row; tr_Description := tr_Description row;
     tr_Prefix := tr_Prefix row; tr_Hash := tr_Hash row; tr_Scopes := tr_Scopes row; tr_IpAllowlist := tr_IpAllowlist row; tr_RateLimitRps := tr_RateLimitRps row;
     tr_ExpiresAt := tr_ExpiresAt row; tr_RevokedAt := at_; tr_CreatedBy := tr_CreatedBy row |}.

(** The name of the namespace of the row comes with it. *)
Definition Revoke (p : option Principal) (id : string) (nsName : string) : prog tcmd (result tokenErr TokenRow) :=
  r <- visibleToken p id ;;
  match r with
  | Err e => Ret (Err e)
  | Ok row =>
      match Require_ p PermTokenWrite (ns_resource {| ns_ID := tr_NamespaceID row; ns_TenantID := tr_TenantID row; ns_Name := nsName |}) with
      | Some e => Ret (Err (teAuth e))
      | None =>
          let already := bool_decide (tr_RevokedAt row ≠ None) in
          r <- call (t_revoke (tr_ID row)) ;;
          match r with
          | None => Ret (Err teInternal)
          | Some None => Ret (Err teNotFound)
          | Some (Some revokedAt) =>
              call (t_publish (tr_TenantID row) (tr_NamespaceID row) (tr_ID row)) ;;
              (if already : bool then Ret tt else call (t_audit "token.revoke" (tr_ID row))) ;;
              Ret (Ok (set_revoked (Some revokedAt) row))
          end
      end
  end.

Definition CreateTokenDirect (tenantID namespaceID : string) (name : bytes) (scopes : list bytes) (expiresAt : option Z) : prog tcmd (result tokenErr (bytes * string)) :=
  r <- call (t_namespace namespaceID) ;;
  match r with
  | None => Ret (Err teInternal)
  | Some None => Ret (Err teNotFound)
  | Some (Some ns) =>
      if negb (String.eqb (ns_TenantID ns) tenantID) then Ret (Err teNotFound)
      else
        let input := {| ci_Name := TrimSpace name; ci_Description := []; ci_Scopes := scopes; ci_IPAllowlist := []; ci_RateLimitRPS := 0; ci_ExpiresAt := expiresAt |} in
        now <- call t_now ;;
        match prepareToken input now with
        | Err e => Ret (Err e)
        | Ok prep =>
            r <- insertToken ns input prep "system:cli" ;;
            match r with Err e => Ret (Err e) | Ok (row, plaintext) => Ret (Ok (plaintext, tr_ID row)) end
        end
  end.
End services.

(** ** Requests (requestmeta.go) *)

Definition MaxNodeLength : nat := 128.
Definition maxUserAgentLength : nat := 512.

(** [strings.ToValidUTF8(s, "")] *)
Definition drop_invalid (s : bytes) : bytes :=
  mjoin (filter (λ w, let '(r, n) := DecodeRuneInString w in ¬ (r = RuneError ∧ (n ≤ 1)%nat)) (runes s)).
Fixpoint rune_cut (s : bytes) (cut : nat) : nat :=
  match cut with O => O | S cut' => if from_option RuneStart false (s !! cut) then cut else rune_cut s cut' end.
Definition truncateUTF8 (s : bytes) (n : nat) : bytes :=
  let s := if ValidString s then s else drop_invalid s in
  if (length s <=? n)%nat then s else take (rune_cut s n) s.

Definition node_byte (c : ascii) : bool :=
  byte_in 97 122 c || byte_in 65 90 c || byte_in 48 57 c || bool_decide (c ∈ bs "._:@/-").
(** Every rune becomes one byte: itself when it is allowed, and else an underscore. *)
Definition node_rune (w : bytes) : ascii := match w with [c] => if node_byte c then c else "_"%char | _ => "_"%char end.
Fixpoint trim_left_byte (c : ascii) (s : bytes) : bytes :=
  match s with d :: s' => if decide (d = c) then trim_left_byte c s' else s | [] => [] end.
Definition trim_byte (c : ascii) (s : bytes) : bytes := rev (trim_left_byte c (rev (trim_left_byte c s))).
Definition SanitizeNode (s : bytes) : bytes :=
  let s := TrimSpace s in
  if bool_decide (s = []) then []
  else
    let s := if (MaxNodeLength * 4 <? length s)%nat then take (MaxNodeLength * 4) s else s in
    trim_byte "_"%char (take MaxNodeLength (node_rune <$> runes s)).

(** What is read of a request: the connection and the first values of headers. *)
Record HttpRequest := {
  hr_net : Request; hr_TLS : bool; hr_ForwardedProto : bytes; hr_UserAgent : bytes; hr_Node : bytes; hr_Authorization : bytes;
}.
Record RequestMeta := { rm_ClientIP : bytes; rm_UserAgent : bytes; rm_Node : bytes; rm_Secure : bool }.

Definition peerAddr (remote : bytes) : option Addr :=
  match ParseAddrPort remote with
  | Some (a, _) => Some (Unmap a)
  | None => Unmap <$> ParseAddr remote
  end.
Definition ExtractRequestMeta (r : HttpRequest) (trusted : list Prefix) : RequestMeta :=
  let ip := ClientIP (Some (hr_net r)) trusted in
  {| rm_ClientIP := if IsValid ip then Addr_String ip else [];
     rm_UserAgent := truncateUTF8 (hr_UserAgent r) maxUserAgentLength;
     rm_Node := SanitizeNode (hr_Node r);
     rm_Secure :=
       hr_TLS r ||
       (EqualFold "https" (str (TrimSpace (hr_ForwardedProto r))) &&
        match peerAddr (rq_RemoteAddr (hr_net r)) with
        | Some peer => negb (bool_decide (trusted = [])) && AllowedIP peer trusted
        | None => false
        end) |}.

(** ** Authentication by a token (tokencache.go, authenticator.go) *)

(** The zero value of [time.Time], January 1 of year 1, which stands for no expiry. *)
Definition zeroTime : Z := -62135596800 * 1000000000.

Record tokenRecord := {
  rec_id : string; rec_tenantID : string; rec_namespaceID : string; rec_namespaceName : string; rec_name : bytes; rec_scopes : list Scope;
  rec_allow : list Prefix; rec_rateLimitRPS : Z; rec_expiresAt : Z; rec_revoked : bool; rec_corrupt : bool;
}.
Definition recordFromRow (namespaceName : string) (row : TokenRow) : tokenRecord :=
  let scopes := ParseScopes (tr_Scopes row) in
  let allow := ParsePrefixes (tr_IpAllowlist row) in
  {| rec_id := tr_ID row; rec_tenantID := tr_TenantID row; rec_namespaceID := tr_NamespaceID row; rec_namespaceName := namespaceName; rec_name := tr_Name row;
     rec_scopes := match scopes with Ok l => l | Err _ => [] end; rec_allow := match allow with Ok l => l | Err _ => [] end;
     rec_rateLimitRPS := tr_RateLimitRps row; rec_expiresAt := default zeroTime (tr_ExpiresAt row); rec_revoked := bool_decide (tr_RevokedAt row ≠ None);
     rec_corrupt := negb (is_ok scopes) || negb (is_ok allow) |}.

Definition bearerToken (authorization : bytes) : option bytes :=
  let v := TrimSpace authorization in
  let '(scheme, rest) := match index_byte " "%char v with Some i => (take i v, drop (S i) v) | None => (v, []) end in
  if negb (EqualFold "Bearer" (str scheme)) then None else Some (TrimSpace rest).

Record authResult := { ar_principal : Principal; ar_rateLimitRPS : Z }.

(** What a lookup of a hash answers: a record, that it is unknown, or an error. *)
Inductive lookupResult := lookFound (rec : tokenRecord) | lookUnknown | lookFailed.

(** The principal that a record becomes, and the checks before. *)
Definition record_principal (rec : tokenRecord) : authResult :=
  {| ar_principal := {| pr_Kind := KindToken; pr_ID := rec_id rec; pr_Name := str (rec_name rec); pr_TenantID := rec_tenantID rec;
                        pr_NamespaceID := rec_namespaceID rec; pr_NamespaceName := rec_namespaceName rec; pr_IsPlatformAdmin := false;
                        pr_Bindings := []; pr_Scopes := rec_scopes rec |};
     ar_rateLimitRPS := rec_rateLimitRPS rec |}.
Definition record_result (rec : tokenRecord) (meta : RequestMeta) (now : Z) : result tokenErr authResult :=
  if rec_corrupt rec then Err (teUnauthenticated "token_invalid")
  else if rec_revoked rec then Err (teUnauthenticated "token_revoked")
  else if negb (rec_expiresAt rec =? zeroTime) && negb (now <? rec_expiresAt rec) then Err (teUnauthenticated "token_expired")
  else if match rec_allow rec with
          | [] => false
          | _ => match ParseAddr (rm_ClientIP meta) with Some ip => negb (AllowedIP ip (rec_allow rec)) | None => true end
          end
  then Err (teDenied "ip_not_allowed")
  else Ok (record_principal rec).

Definition authenticateToken (HashToken : bytes → bytes) (lookup : bytes → lookupResult) (token : bytes) (meta : RequestMeta) (now : Z) :
    result tokenErr authResult :=
  if negb (WellFormedToken token) then Err (teUnauthenticated "token_invalid")
  else
    match lookup (HashToken token) with
    | lookUnknown => Err (teUnauthenticated "token_invalid")
    | lookFailed => Err teInternal
    | lookFound rec => record_result rec meta now
    end.

(** ** Runs *)

(** The table, with the names of namespaces. *)
Record TokenDB := { db_rows : gmap string TokenRow; db_namespaces : gmap string NamespaceRef }.
Definition on_rows (f : gmap string TokenRow → gmap string TokenRow) (st : TokenDB) : TokenDB := {| db_rows := f (db_rows st); db_namespaces := db_namespaces st |}.

(** A timestamp keeps microseconds. *)
Definition db_time (t : Z) : Z := t - t mod 1000.
Definition stored (row : TokenRow) : TokenRow :=
  {| tr_ID := tr_ID row; tr_TenantID := tr_TenantID row; tr_NamespaceID := tr_NamespaceID row; tr_Name := tr_Name row; tr_Description := tr_Description row;
     tr_Prefix := tr_Prefix row; tr_Hash := tr_Hash row; tr_Scopes := tr_Scopes row; tr_IpAllowlist := tr_IpAllowlist row; tr_RateLimitRps := tr_RateLimitRps row;
     tr_ExpiresAt := db_time <$> tr_ExpiresAt row; tr_RevokedAt := tr_RevokedAt row; tr_CreatedBy := tr_CreatedBy row |}.

(** Rows exclude each other by their ids, their hashes, and their names in a namespace
    while they are not revoked. *)
Definition excludes (row : TokenRow) (rows : gmap string TokenRow) : Prop :=
  rows !! tr_ID row ≠ None ∨
  map_Exists (λ _ r, tr_Hash r = tr_Hash row ∨ (tr_NamespaceID r = tr_NamespaceID row ∧ tr_Name r = tr_Name row ∧ tr_RevokedAt r = None)) rows.
#[export] Instance excludes_dec row rows : Decision (excludes row rows).
Proof. unfold excludes. apply or_dec; apply _. Defined.

Definition insert_row (row : TokenRow) (st : TokenDB) : option TokenRow * TokenDB :=
  if decide (excludes row (db_rows st)) then (None, st) else (Some (stored row), on_rows <[tr_ID row := stored row]> st).
Definition revoke_row (now : Z) (id : string) (st : TokenDB) : option Z * TokenDB :=
  match db_rows st !! id with
  | None => (None, st)
  | Some row => let at_ := default (db_time now) (tr_RevokedAt row) in (Some at_, on_rows <[id := set_revoked (Some at_) row]> st)
  end.

(** What becomes of a call: whether it runs and is answered, the clock, which shows a
    time after 1970, the random bytes and the new id. *)
Inductive DbFate := db_done | db_lost | db_timeout.
Record TokenFate := { tf_call : DbFate; tf_unix : N; tf_random : option bytes; tf_id : string }.
Definition db_call {A : Type} (fate : TokenFate) (f : TokenDB → A * TokenDB) (st : TokenDB) : option A * TokenDB :=
  match tf_call fate with
  | db_lost => (None, st)
  | db_timeout => (None, (f st).2)
  | db_done => (Some (f st).1, (f st).2)
  end.
Definition answer {A : Type} (r : A * TokenDB) : option A * TokenDB := (Some r.1, r.2).
Definition exec_tokens (X : Type) (fate : TokenFate) (c : tcmd X) : TokenDB → option X * TokenDB :=
  match c in tcmd X return TokenDB → option X * TokenDB with
  | t_now => λ st, (Some (Z.of_N (tf_unix fate)), st)
  | t_random => λ st, (Some (tf_random fate), st)
  | t_new_id => λ st, (Some (tf_id fate), st)
  | t_get id => λ st, answer (db_call fate (λ st, (db_rows st !! id, st)) st)
  | t_namespace id => λ st, answer (db_call fate (λ st, (db_namespaces st !! id, st)) st)
  | t_insert row => λ st, answer (db_call fate (insert_row row) st)
  | t_revoke id => λ st, answer (db_call fate (revoke_row (Z.of_N (tf_unix fate)) id) st)
  | t_publish _ _ _ => λ st, (Some tt, st)
  | t_audit _ _ => λ st, (Some tt, st)
  end.

(** ** Generated tokens *)

Lemma base62_digit_ok d : 0 ≤ d < 62 → isBase62 (base62_digit d) = true.
Proof.
  intros Hd. unfold isBase62, byte_in, base62_digit, bval.
  rewrite N_ascii_embedding by (destruct (Z.ltb_spec d 10); [lia|]; destruct (Z.ltb_spec d 36); lia).
  destruct (Z.ltb_spec d 10); [|destruct (Z.ltb_spec d 36)]; repeat rewrite orb_true_iff; rewrite !andb_true_iff, !Z.leb_le; lia.
Qed.
Lemma text62_app fuel n acc : text62 fuel n acc = text62 fuel n [] ++ acc.
Proof.
  revert n acc. induction fuel as [|fuel IH]; intros n acc; [done|]. cbn [text62]. destruct (_ =? 0); [done|].
  rewrite (IH _ (_ :: acc)), (IH _ [_]), <- app_assoc. done.
Qed.
Lemma text62_spec fuel n : Forall (λ c, isBase62 c = true) (text62 fuel n []) ∧ (length (text62 fuel n []) ≤ fuel)%nat.
Proof.
  revert n. induction fuel as [|fuel IH]; intros n; [by split|]. cbn [text62]. pose proof (base62_digit_ok (n mod 62) (Z.mod_pos_bound n 62 ltac:(lia))) as Hd.
  destruct (_ =? 0); [split; [by apply Forall_singleton|cbn; lia]|]. rewrite text62_app. destruct (IH (n / 62)) as [Hf Hl].
  split; [by apply Forall_app; split; [|apply Forall_singleton]|rewrite length_app; cbn; lia].
Qed.

(** No token is issued that would be refused for its form. *)
Lemma GenerateToken_wellformed random token : GenerateToken random = Some token → WellFormedToken token = true.
Proof.
  unfold GenerateToken. intros (b & _ & ->)%fmap_Some. unfold token_text. generalize (text62_spec tokenBodyLen (join_base 256 (bval <$> b))).
  generalize (text62 tokenBodyLen (join_base 256 (bval <$> b)) []). intros body [Hf Hl]. cbv zeta. 
  match goal with |- context [TokenPrefix ++ ?x] => set (padded := x) end. assert (Forall (λ c, isBase62 c = true) padded ∧ length padded = tokenBodyLen) as [Hp Lp].
  { unfold padded. destruct (Nat.ltb_spec (length body) tokenBodyLen); [|split; [done|lia]].
    rewrite Forall_app, length_app, length_replicate. split; [split; [by apply Forall_replicate|done]|lia]. }
  unfold WellFormedToken. rewrite length_app, Lp. cbn [Nat.eqb]. rewrite (proj2 (has_prefix_spec (TokenPrefix ++ padded) TokenPrefix)) by (by exists padded).
  rewrite Nat.eqb_refl. cbn [negb orb]. rewrite drop_app_length. rewrite forallb_forall. intros c Hc%list_elem_of_In. by eapply Forall_forall in Hc; [|exact Hp].
Qed.

(** ** What a token allows its children *)

Lemma parse_scopes_raw ss seen l : parse_scopes_loop seen ss = Ok l → sc_Raw <$> l = ss.
Proof.
  revert seen l. induction ss as [|s ss IH]; intros seen l; cbn; [by intros [= <-]|]. destruct (ParseScope s) as [sc|] eqn:E; [|done].
  destruct (bool_decide _); [done|]. destruct (parse_scopes_loop _ ss) as [out|] eqn:E'; [|done]. intros [= <-]. cbn. f_equal; [|by eapply IH].
  apply ParseScope_sound in E as [(Hr & _) ->]. exact Hr.
Qed.

Lemma allowed_within pa child parent ip :
  Forall canonical child → ParsePrefixes pa = Ok parent → validateChildAllowlist pa child = None →
  (parent ≠ [] → child ≠ []) ∧ (AllowedIP ip child = true → AllowedIP ip parent = true).
Proof.
  intros Hc Hp. unfold validateChildAllowlist. rewrite Hp. destruct (bool_decide (parent = [])) eqn:E1; [apply bool_decide_eq_true in E1; by subst|].
  apply bool_decide_eq_false in E1. destruct (bool_decide (child = [])) eqn:E2; [done|]. apply bool_decide_eq_false in E2.
  destruct (forallb _ child) eqn:Ef; [|done]. intros _. split; [done|]. unfold AllowedIP. destruct child as [|c0 child]; [done|]. destruct parent as [|p0 parent]; [done|].
  destruct (IsValid ip); [|done]. unfold contains. destruct (IsValid (normalize ip)); [|done]. rewrite !existsb_exists. intros (c & Hin & Hca).
  rewrite forallb_forall in Ef. specialize (Ef c Hin). apply existsb_exists in Ef as (p & Hpin & [Hb%Z.leb_le Hpc]%andb_true_iff).
  exists p. split; [done|]. apply parse_prefixes_canonical in Hp. rewrite Forall_forall in Hp, Hc. apply list_elem_of_In in Hpin, Hin.
  eapply Contains_within; [by apply (Hp p)|by apply (Hc c)|done..].
Qed.

(** Only the admin scope grants the creation of tokens. *)
Lemma grants_token_write s def : grantsPermission s PermTokenWrite = Some def → sc_Name s = ScopeAdmin ∧ sc_Arg s = [].
Proof.
  unfold grantsPermission. destruct (scopeDefs (sc_Name s)) as [def'|] eqn:E; [|done]. apply scopeDefs_names in E as Hn.
  unfold ScopeNames in Hn. destruct s as [raw name arg]. cbn [sc_Name sc_Arg] in *.
  repeat (apply elem_of_cons in Hn as [->|Hn]; [vm_compute in E; injection E as <-; cbn|]); [..|by apply elem_of_nil in Hn].
  all: try done; case_bool_decide as Ea; try done; intros _; by apply dec_stable in Ea.
Qed.
(** What other scopes grant, the admin role has or only nodes do. *)
Lemma grants_other s perm def :
  grantsPermission s perm = Some def → sc_Name s ≠ ScopeAdmin → RoleHas RoleAdmin perm = true ∨ NodeOnly perm = true.
Proof.
  unfold grantsPermission. destruct (scopeDefs (sc_Name s)) as [def'|] eqn:E; [|done]. apply scopeDefs_names in E as Hn.
  destruct (String.eqb_spec (sc_Name s) ScopeAdmin) as [|_]; [done|]. destruct (match sd_arg def' with argNone => _ | _ => _ end); [done|].
  destruct (Authz.contains (sd_perms def') perm) eqn:Ec; [|done]. intros _ _. apply contains_spec in Ec.
  unfold ScopeNames in Hn. destruct s as [raw name arg]. cbn [sc_Name] in *.
  repeat (apply elem_of_cons in Hn as [->|Hn]; [vm_compute in E; injection E as <-; cbn [sd_perms] in Ec;
    repeat (apply elem_of_cons in Ec as [->|Ec]; [by vm_compute; auto|]); by apply elem_of_nil in Ec|]). by apply elem_of_nil in Hn.
Qed.

(** ** Children of tokens *)

Lemma prepareToken_ok input now prep : prepareToken input now = Ok prep →
  ∃ scopes prefixes, ParseScopes (ci_Scopes input) = Ok scopes ∧ ParsePrefixes (ci_IPAllowlist input) = Ok prefixes ∧
    prep = {| pt_scopes := sc_Raw <$> scopes; pt_allow := Prefix_String <$> prefixes; pt_parsed := scopes; pt_prefixes := prefixes |} ∧
    ∀ e, ci_ExpiresAt input = Some e → now < e.
Proof.
  unfold prepareToken. destruct (validateName _ _); [done|]. destruct (validateText _ _); [done|]. destruct (_ =? 0)%nat; [done|]. destruct (_ <? _)%nat; [done|].
  destruct (ParseScopes _) as [scopes|] eqn:E1; [|done]. destruct (existsb _ scopes); [done|]. destruct (_ <? _)%nat; [done|].
  destruct (ParsePrefixes _) as [prefixes|[]] eqn:E2; [|done]. destruct (_ || _); [done|]. destruct (ci_ExpiresAt input) as [e|].
  - destruct (Z.leb_spec e now); [done|]. intros [= <-]. exists scopes, prefixes. split_and!; try done. by intros ? [= <-].
  - intros [= <-]. exists scopes, prefixes. split_and!; done.
Qed.

Lemma validateChildToken_ok parent input prep now : validateChildToken parent input prep now = None →
  (∀ s, s ∈ pt_parsed prep → sc_Name s ≠ ScopeAdmin) ∧
  (∀ pe, tr_ExpiresAt parent = Some pe → ∃ e, ci_ExpiresAt input = Some e ∧ e ≤ pe) ∧
  validateChildAllowlist (tr_IpAllowlist parent) (pt_prefixes prep) = None ∧
  (0 < tr_RateLimitRps parent → 0 < ci_RateLimitRPS input ≤ tr_RateLimitRps parent).
Proof.
  unfold validateChildToken. destruct (bool_decide (tr_RevokedAt parent ≠ None)); [done|]. destruct (match tr_ExpiresAt parent with Some e => e <=? now | None => false end); [done|].
  destruct (existsb _ (pt_parsed prep)) eqn:E1; [done|]. match goal with |- context [if ?b then Some (teDenied "expires_at") else _] => destruct b eqn:E2 end; [done|].
  destruct (validateChildAllowlist _ _); [done|]. destruct (_ && _) eqn:E3; [done|]. intros _. split_and!; [| |done|].
  - intros s Hs Hn. assert (existsb (λ s, String.eqb (sc_Name s) ScopeAdmin) (pt_parsed prep) = true); [|congruence].
    apply existsb_exists. exists s. split; [by apply list_elem_of_In|by apply String.eqb_eq].
  - intros pe Hpe. rewrite Hpe in E2. destruct (ci_ExpiresAt input) as [e|]; [|done]. exists e. split; [done|lia].
  - intros Hr. apply andb_false_iff in E3 as [E3|[E3 E4]%orb_false_iff]; lia.
Qed.

Lemma record_result_iff rec meta now c : record_result rec meta now = Ok c ↔
  rec_corrupt rec = false ∧ rec_revoked rec = false ∧ (rec_expiresAt rec = zeroTime ∨ now < rec_expiresAt rec) ∧
  (rec_allow rec ≠ [] → ∃ ip, ParseAddr (rm_ClientIP meta) = Some ip ∧ AllowedIP ip (rec_allow rec) = true) ∧ c = record_principal rec.
Proof.
  unfold record_result. destruct (rec_corrupt rec); [naive_solver|]. destruct (rec_revoked rec); [naive_solver|].
  destruct (negb (rec_expiresAt rec =? zeroTime) && negb (now <? rec_expiresAt rec)) eqn:Ee.
  { apply andb_true_iff in Ee as [H1%negb_true_iff%Z.eqb_neq H2%negb_true_iff%Z.ltb_ge]. split; [done|]. intros (_ & _ & [?|?] & _); [done|lia]. }
  assert (rec_expiresAt rec = zeroTime ∨ now < rec_expiresAt rec) as He by (apply andb_false_iff in Ee as [H%negb_false_iff|H%negb_false_iff]; [left|right]; lia).
  destruct (rec_allow rec) as [|p0 allow]; [naive_solver|]. destruct (ParseAddr (rm_ClientIP meta)) as [ip|]; [destruct (AllowedIP ip (p0 :: allow)) eqn:Ea|]; cbn [negb].
  - split; [intros [= <-]|naive_solver]. split_and!; try done. intros _. by exists ip.
  - split; [done|]. intros (_ & _ & _ & H & _). destruct (H ltac:(done)) as (ip' & [= <-] & ?). congruence.
  - split; [done|]. intros (_ & _ & _ & H & _). by destruct (H ltac:(done)) as (ip' & ? & ?).
Qed.

(** Where the child is accepted the parent is, unless it was revoked since, and what
    the child allows the parent does, but for what only nodes do. *)
Definition within (child parent : TokenRow) : Prop :=
  ∀ nm meta now c, record_result (recordFromRow nm child) meta now = Ok c →
    ∃ q, record_result (recordFromRow nm (set_revoked None parent)) meta now = Ok q ∧
      (∀ perm r, Can (Some (ar_principal c)) perm r = true → Can (Some (ar_principal q)) perm r = true ∨ NodeOnly perm = true) ∧
      (0 < ar_rateLimitRPS q → 0 < ar_rateLimitRPS c ≤ ar_rateLimitRPS q).

(** A token that may create tokens has the admin scope. *)
Lemma Can_token_write p r : pr_Kind p = KindToken → Can (Some p) PermTokenWrite r = true →
  tokenBoundTo p (r_TenantID r) (r_NamespaceID r) = true ∧ ∃ s, s ∈ pr_Scopes p ∧ sc_Name s = ScopeAdmin ∧ sc_Arg s = [].
Proof.
  intros Hk. unfold Can. rewrite Hk. change (String.eqb KindToken KindSystem) with false. change (String.eqb KindToken KindUser) with false.
  change (String.eqb KindToken KindToken) with true. change (ValidPermission PermTokenWrite) with true. cbn [negb]. cbv iota.
  destruct (_ || _) eqn:E; [done|]. intros (s & Hs & Ha)%existsb_exists. apply orb_false_iff in E as [_ E%negb_false_iff]. split; [done|]. exists s.
  split; [by apply list_elem_of_In|]. unfold Scope_allows in Ha. destruct (grantsPermission s PermTokenWrite) eqn:Eg; [|done]. by eapply grants_token_write.
Qed.

(** The permissions of two tokens of one namespace. *)
Lemma Can_within (c q : Principal) :
  pr_Kind c = KindToken → pr_Kind q = KindToken → pr_TenantID c = pr_TenantID q → pr_NamespaceID c = pr_NamespaceID q →
  (∃ s, s ∈ pr_Scopes q ∧ sc_Name s = ScopeAdmin ∧ sc_Arg s = []) → (∀ s, s ∈ pr_Scopes c → sc_Name s ≠ ScopeAdmin) →
  ∀ perm r, Can (Some c) perm r = true → Can (Some q) perm r = true ∨ NodeOnly perm = true.
Proof.
  intros Kc Kq Ht Hn (s & Hs & Hsn & Hsa) Hc perm r. unfold Can, tokenBoundTo. rewrite Kc, Kq, Ht, Hn.
  change (String.eqb KindToken KindSystem) with false. change (String.eqb KindToken KindUser) with false. change (String.eqb KindToken KindToken) with true. cbv iota.
  destruct (negb (ValidPermission perm)); [done|]. destruct (_ || _); [done|]. intros (s' & Hs' & Ha)%existsb_exists.
  unfold Scope_allows in Ha. destruct (grantsPermission s' perm) as [def|] eqn:Eg; [|done]. apply list_elem_of_In in Hs'.
  destruct (grants_other _ _ _ Eg (Hc s' Hs')) as [Hr|Hr]; [left|by right]. apply existsb_exists. exists s. split; [by apply list_elem_of_In|].
  unfold Scope_allows, grantsPermission. rewrite Hsn, Hsa. change (scopeDefs ScopeAdmin) with (Some {| sd_arg := argNone; sd_perms := [] |}).
  cbn [sd_arg]. change (String.eqb ScopeAdmin ScopeAdmin) with true. rewrite bool_decide_eq_false_2 by (by intros []). cbv iota. by rewrite Hr.
Qed.

Lemma db_time_le t : t - 1000 < db_time t ≤ t.
Proof. unfold db_time. pose proof (Z.mod_pos_bound t 1000). lia. Qed.

Lemma child_within child parent p input prep now now' :
  prepareToken input now = Ok prep → validateChildToken parent input prep now' = None → zeroTime + 1000 < now →
  ParseScopes (tr_Scopes parent) = Ok (pr_Scopes p) → (∃ s, s ∈ pr_Scopes p ∧ sc_Name s = ScopeAdmin ∧ sc_Arg s = []) →
  tr_TenantID child = tr_TenantID parent → tr_NamespaceID child = tr_NamespaceID parent →
  tr_Scopes child = pt_scopes prep → tr_IpAllowlist child = pt_allow prep → tr_RateLimitRps child = ci_RateLimitRPS input →
  tr_ExpiresAt child = db_time <$> ci_ExpiresAt input → within child parent.
Proof.
  intros (scopes & prefixes & Es & Ep & -> & Hfut)%prepareToken_ok (Hadm & Hexp & Hall & Hrate)%validateChildToken_ok Hnow Hps Hadmin Ht Hn Hsc Hal Hr He.
  cbn [pt_parsed pt_prefixes pt_scopes pt_allow] in *. assert (ParseScopes (tr_Scopes child) = Ok scopes) as Ecs.
  { rewrite Hsc, (parse_scopes_raw _ _ _ Es). done. }
  assert (ParsePrefixes (tr_IpAllowlist child) = Ok prefixes) as Eca by (rewrite Hal; by eapply ParsePrefixes_text).
  destruct (ParsePrefixes (tr_IpAllowlist parent)) as [allow|] eqn:Epa; [|by unfold validateChildAllowlist in Hall; rewrite Epa in Hall].
  apply parse_prefixes_canonical in Ep as Hcan.
  intros nm meta t c (_ & _ & Hx & Hip & ->)%record_result_iff. eexists. split; [apply record_result_iff; split_and!; [..|reflexivity]|split].
  - cbn -[ParseScopes ParsePrefixes]. by rewrite Hps, Epa.
  - done.
  - cbn -[ParseScopes ParsePrefixes] in Hx |- *. destruct (tr_ExpiresAt parent) as [pe|] eqn:Epe; [|by left]. destruct (Hexp pe eq_refl) as (e & Ee & Hle). right. cbn -[zeroTime].
    rewrite He, Ee in Hx. cbn -[zeroTime] in Hx. pose proof (db_time_le e). specialize (Hfut e Ee). destruct Hx as [Hx|Hx]; lia.
  - cbn -[ParseScopes ParsePrefixes] in Hip |- *. rewrite Eca in Hip. rewrite Epa. intros Hne. destruct (allowed_within _ prefixes allow (default AddrNone (ParseAddr (rm_ClientIP meta))) Hcan Epa Hall) as [H1 H2].
    destruct (Hip (H1 Hne)) as (ip & Ei & Hi). rewrite Ei in H2. exists ip. split; [done|]. by apply H2.
  - apply Can_within; try done; cbn -[ParseScopes ParsePrefixes].
    + by rewrite Hps.
    + rewrite Ecs. done.
  - cbn. by rewrite Hr.
Qed.

(** ** Runs of [Create] *)

(** What becomes of a row: it stays, and it may be revoked once. *)
Definition aged (row row' : TokenRow) : Prop :=
  row' = set_revoked (tr_RevokedAt row') row ∧ (tr_RevokedAt row ≠ None → tr_RevokedAt row' = tr_RevokedAt row).
Definition keeps_rows (st st' : TokenDB) : Prop :=
  ∀ id row, db_rows st !! id = Some row → ∃ row', db_rows st' !! id = Some row' ∧ aged row row'.

Lemma aged_refl row : aged row row.
Proof. split; [by destruct row|done]. Qed.
Lemma keeps_refl st : keeps_rows st st.
Proof. intros id row H. exists row. split; [done|apply aged_refl]. Qed.
Lemma aged_trans row1 row2 row3 : aged row1 row2 → aged row2 row3 → aged row1 row3.
Proof.
  intros [E1 H1] [E2 H2]. split; [etransitivity; [exact E2|]; by rewrite E1 at 1|]. intros Hr. specialize (H1 Hr). rewrite H2; [done|congruence].
Qed.

(** Every call keeps to it, so that services may run side by side. *)
Lemma calls_keep X fate (c : tcmd X) st : keeps_rows st (exec_tokens X fate c st).2.
Proof.
  assert (∀ A (f : TokenDB → A * TokenDB), (∀ st, keeps_rows st (f st).2) → ∀ st, keeps_rows st (db_call fate f st).2) as Hd.
  { intros A f Hf st'. unfold db_call. destruct (tf_call fate); [apply Hf|apply keeps_refl|apply Hf]. }
  destruct c; try apply keeps_refl; cbn [exec_tokens answer snd]; apply Hd; intros st'; try apply keeps_refl.
  - unfold insert_row. destruct (decide (excludes row (db_rows st'))) as [|Hn]; [apply keeps_refl|]. intros id r Hr. cbn. exists r. split; [|apply aged_refl].
    rewrite lookup_insert_ne; [done|]. intros <-. apply Hn. left. by rewrite Hr.
  - unfold revoke_row. destruct (db_rows st' !! id) as [row|] eqn:E; [|apply keeps_refl]. intros id' r Hr. cbn. destruct (decide (id = id')) as [<-|Hne].
    + rewrite lookup_insert_eq. eexists. split; [done|]. rewrite E in Hr. injection Hr as ->. split; [done|]. cbn. intros Hrev. by destruct (tr_RevokedAt r).
    + rewrite lookup_insert_ne by done. exists r. split; [done|apply aged_refl].
Qed.

Section create.
Context (HashToken : bytes → bytes) (p : Principal) (parent : TokenRow).

(** The principal is the parent's, as it was authenticated at some time. *)
Definition authenticated_as : Prop :=
  ∃ nm meta now rate, record_result (recordFromRow nm (set_revoked None parent)) meta now = Ok {| ar_principal := p; ar_rateLimitRPS := rate |}.

Context (is_parent : authenticated_as).
Lemma parent_scopes : ParseScopes (tr_Scopes parent) = Ok (pr_Scopes p) ∧ pr_Kind p = KindToken ∧ pr_ID p = tr_ID parent ∧
  pr_TenantID p = tr_TenantID parent ∧ pr_NamespaceID p = tr_NamespaceID parent.
Proof.
  destruct is_parent as (nm & meta & now & rate & (Hc & _ & _ & _ & E)%record_result_iff). cbn -[ParseScopes ParsePrefixes] in Hc, E. injection E as Hp _. rewrite Hp. cbn -[ParseScopes].
  destruct (ParseScopes (tr_Scopes parent)); [|done]. by split_and!.
Qed.

Abbreviation no_log := (λ (X : Type) (_ : tcmd X) (_ : X), (@nil unit)).
Definition present (st : TokenDB) : Prop := ∃ row, db_rows st !! pr_ID p = Some row ∧ aged parent row.
Lemma present_keeps st st' : present st → keeps_rows st st' → present st'.
Proof. intros (row & Hr & Ha) Hs. destruct (Hs _ _ Hr) as (row' & Hr' & Ha'). exists row'. split; [done|]. by eapply aged_trans. Qed.

Definition created (r : result tokenErr (TokenRow * bytes)) (st : TokenDB) : Prop :=
  match r with
  | Err _ => True
  | Ok (row, plaintext) =>
      WellFormedToken plaintext = true ∧
      ∃ row', db_rows st !! tr_ID row = Some row' ∧ aged row row' ∧ tr_Hash row' = HashToken plaintext ∧ within row' parent
  end.

Lemma within_aged child child' par : aged child child' → within child par → within child' par.
Proof.
  intros [E Hk] Hw nm meta now c Hc. apply Hw. pose proof Hc as (_ & Hr & _)%record_result_iff. cbn in Hr. apply bool_decide_eq_false, dec_stable in Hr.
  assert (tr_RevokedAt child = None) as Hn. { destruct (tr_RevokedAt child); [|done]. exfalso. by rewrite Hk in Hr. }
  rewrite E, Hr in Hc. destruct child; cbn in Hn. subst. exact Hc.
Qed.

Lemma wp_ret {A : Type} (a : A) Q l st : Q a l st → wp exec_tokens no_log keeps_rows (Ret a) Q (λ _ _, True) l st.
Proof. done. Qed.
Lemma wp_get {X : Type} (c : tcmd X) (Q : X → list unit → TokenDB → Prop) l st :
  (∀ st1 fate x st2, keeps_rows st st1 → exec_tokens X fate c st1 = (Some x, st2) → Q x l st2) → wp exec_tokens no_log keeps_rows (call c) Q (λ _ _, True) l st.
Proof.
  intros H. apply wp_step; [done|]. intros st1 fate Hr. specialize (H st1 fate). destruct (exec_tokens X fate c st1) as [[x|] st2]; [|done].
  rewrite app_nil_r. split; [done|]. by apply H.
Qed.

Lemma wp_insertToken ns input prep by_ l st now now' :
  prepareToken input now = Ok prep → validateChildToken parent input prep now' = None → zeroTime + 1000 < now →
  (∃ s, s ∈ pr_Scopes p ∧ sc_Name s = ScopeAdmin ∧ sc_Arg s = []) → ns_TenantID ns = pr_TenantID p → ns_ID ns = pr_NamespaceID p →
  wp exec_tokens no_log keeps_rows (insertToken HashToken ns input prep by_) (λ r _ st, created r st) (λ _ _, True) l st.
Proof.
  intros Hp Hv Hnow Hadm Ht Hn. destruct parent_scopes as (Hs & _ & _ & Hpt & Hpn). unfold insertToken. apply wp_bind, wp_get. intros st1 f1 random st1' _ _.
  destruct (GenerateToken random) as [plaintext|] eqn:Eg; [|by apply wp_ret]. apply wp_bind, wp_get. intros st2 f2 id st2' _ _.
  apply wp_bind, wp_get. intros st3 f3 r st3' _ Ei. cbn in Ei. unfold answer, db_call, insert_row in Ei.
  set (row := token_row _ _ _ _ _ _ _) in *. destruct (tf_call f3); [|injection Ei as <- <-; by apply wp_ret|].
  - destruct (decide (excludes row (db_rows st3))); cbn in Ei; injection Ei as <- <-; [by apply wp_ret|]. apply wp_ret. split; [by eapply GenerateToken_wellformed|].
    exists (stored row). split_and!; [apply lookup_insert_eq|apply aged_refl|done|].
    eapply (child_within (stored row) parent p input prep now now'); try done; cbn; congruence.
  - destruct (decide (excludes row (db_rows st3))); cbn in Ei; injection Ei as <- <-; by apply wp_ret.
Qed.

Lemma wp_Create ns input l st : present st →
  wp exec_tokens no_log keeps_rows (Create HashToken (Some p) ns input) (λ r _ st, created r st) (λ _ _, True) l st.
Proof.
  intros Hpres. destruct parent_scopes as (_ & Hk & _). unfold Create. destruct (Require_ (Some p) PermTokenWrite (ns_resource ns)) as [e|] eqn:Er; [by apply wp_ret|].
  unfold Require_ in Er. destruct (Can (Some p) PermTokenWrite (ns_resource ns)) eqn:Ec; [clear Er|by destruct (String.eqb _ _)].
  apply Can_token_write in Ec as [Hb Hadm]; [|done]. unfold tokenBoundTo in Hb. cbn in Hb. rewrite !andb_true_iff, !String.eqb_eq in Hb. destruct Hb as [[_ Ht] Hn].
  apply wp_bind, wp_get. intros st1 f1 now st1' Hr1 En. cbn in En. injection En as <- <-. destruct (prepareToken input _) as [prep|] eqn:Ep; [|by apply wp_ret].
  apply wp_bind. unfold checkTokenCreatedByToken. rewrite Hk. change (String.eqb KindToken KindToken) with true. cbn [negb]. cbv iota.
  apply wp_bind, wp_get. intros st2 f2 r st2' Hr2 Eg. destruct (present_keeps _ _ (present_keeps _ _ Hpres Hr1) Hr2) as (row & Hrow & Ha).
  cbn in Eg. unfold answer, db_call in Eg. destruct (tf_call f2); cbn in Eg; injection Eg as <- <-; [|by repeat apply wp_ret..]. rewrite Hrow.
  apply wp_bind, wp_get. intros st3 f3 now' st3' _ En. cbn in En. injection En as <- <-. apply wp_ret.
  destruct (validateChildToken row input prep _) as [e|] eqn:Ev; [by apply wp_ret|]. assert (row = parent) as ->.
  { destruct Ha as [E Ha]. unfold validateChildToken in Ev. destruct (bool_decide (tr_RevokedAt row ≠ None)) eqn:Eb; [done|]. apply bool_decide_eq_false, dec_stable in Eb.
    rewrite Eb in *. destruct (tr_RevokedAt parent) eqn:Erp; [by specialize (Ha ltac:(done))|]. rewrite E. destruct parent; cbn in *. by subst. }
  apply wp_bind. eapply wp_mono; [|eapply wp_insertToken; [exact Ep|exact Ev|unfold zeroTime; lia|done..]]. cbv beta. intros [[row plaintext]|e] l' st4 _ Hc; [|by apply wp_ret].
  destruct Hc as (Hwf & row' & Hrow' & Ha' & Hh & Hw). apply wp_bind, wp_get. intros st5 f5 x st5' Hr5 Ex. cbn in Ex. injection Ex as <- <-. apply wp_ret. split; [done|].
  destruct (Hr5 _ _ Hrow') as (row'' & Hrow'' & Ha''). exists row''. split_and!; [done|by eapply aged_trans| |by eapply within_aged].
  destruct Ha'' as [E _]. rewrite E. exact Hh.
Qed.
End create.

(** C11: a token that a token created is not broader than its creator.  Whatever others
    do to the table between the calls, a successful [Create] by an authenticated token
    leaves a row with the hash of a well-formed plaintext; and for every request at every
    time by which the new token is accepted, its creator is accepted unless it was
    revoked since, it is limited at least as much, and every permission the new token
    has on a resource its creator has too, except for the three that only nodes have. *)
Theorem child_within_parent HashToken p parent ns input st env fates fuel row plaintext l st' :
  authenticated_as p parent → db_rows st !! pr_ID p = Some parent → (∀ n st, keeps_rows st (env n st)) →
  interp exec_tokens (λ X _ _, @nil unit) env fates fuel (Create HashToken (Some p) ns input) st = (Some (Ok (row, plaintext)), l, st') →
  WellFormedToken plaintext = true ∧
  ∃ row', db_rows st' !! tr_ID row = Some row' ∧ aged row row' ∧ tr_Hash row' = HashToken plaintext ∧ within row' parent.
Proof.
  intros Hp Hrow Henv Hrun. assert (present p parent st) as Hpres by (exists parent; split; [done|apply aged_refl]).
  pose proof (wp_interp exec_tokens _ keeps_rows _ _ _ [] st env fates fuel Henv (wp_Create HashToken p parent Hp ns input [] st Hpres)) as H.
  rewrite Hrun in H. destruct H as [_ H]. by specialize (H _ eq_refl).
Qed.

(** ** A token that creates a token *)

Definition ex_year : Z := 31557600000000000.
Definition ex_parent : TokenRow :=
  {| tr_ID := "tok_1"; tr_TenantID := "ten_1"; tr_NamespaceID := "ns_1"; tr_Name := bs "ci"; tr_Description := []; tr_Prefix := bs "spn_aaaaaaaa"; tr_Hash := bs "h1";
     tr_Scopes := [bs "admin"]; tr_IpAllowlist := [bs "10.0.0.0/8"; bs "2001:db8::/32"]; tr_RateLimitRps := 100; tr_ExpiresAt := Some (60 * ex_year); tr_RevokedAt := None; tr_CreatedBy := "user:u" |}.
Definition ex_meta : RequestMeta := {| rm_ClientIP := bs "10.1.2.3"; rm_UserAgent := []; rm_Node := []; rm_Secure := true |}.
Definition ex_principal (row : TokenRow) : Principal := ar_principal (record_principal (recordFromRow "prod" row)).
Definition ex_input : CreateTokenInput :=
  {| ci_Name := bs "node"; ci_Description := []; ci_Scopes := [bs "lease:acquire"; bs "secret:read:prod/*"]; ci_IPAllowlist := [bs "10.1.0.0/16"; bs "2001:db8:1::7"];
     ci_RateLimitRPS := 50; ci_ExpiresAt := Some (59 * ex_year) |}.
Definition ex_ns : NamespaceRef := {| ns_ID := "ns_1"; ns_TenantID := "ten_1"; ns_Name := "prod" |}.
Definition ex_db : TokenDB := {| db_rows := {["tok_1" := ex_parent]}; db_namespaces := {["ns_1" := ex_ns]} |}.
Definition ex_fate : TokenFate := {| tf_call := db_done; tf_unix := Z.to_N (55 * ex_year); tf_random := Some (replicate 32 "a"%char); tf_id := "tok_2" |}.
Definition ex_create := interp exec_tokens (λ X _ _, @nil unit) (λ _ st, st) (λ _, ex_fate) 20 (Create (λ b, b) (Some (ex_principal ex_parent)) ex_ns ex_input) ex_db.

Lemma child_within_parent_witness :
  ∃ row plaintext st', ex_create = (Some (Ok (row, plaintext)), [], st') ∧ WellFormedToken plaintext = true ∧
    ∃ row', db_rows st' !! tr_ID row = Some row' ∧ aged row row' ∧ tr_Hash row' = plaintext ∧ within row' ex_parent.
Proof.
  do 3 eexists. split; [vm_compute; reflexivity|].
  eapply (child_within_parent (λ b, b) (ex_principal ex_parent) ex_parent ex_ns ex_input ex_db (λ _ st, st) (λ _, ex_fate) 20).
  - exists "prod", ex_meta, (56 * ex_year), 100. vm_compute. reflexivity.
  - vm_compute. reflexivity.
  - intros n st. apply keeps_refl.
  - vm_compute. reflexivity.
Defined.

(** The exception is taken: a token with the admin scope alone, which reads no secrets and
    acquires no leases, creates one that does both. *)
Example child_reads_secrets :
  match ex_create.1.1 with
  | Some (Ok (row, _)) =>
      let secret := {| r_TenantID := "ten_1"; r_NamespaceID := "ns_1"; r_NamespaceName := "prod"; r_SiteID := ""; r_SiteName := ""; r_ConfigGroup := ""; r_SecretPath := "db/password" |} in
      is_ok (record_result (recordFromRow "prod" row) ex_meta (56 * ex_year)) = true ∧
      Can (Some (ex_principal row)) PermSecretRead secret = true ∧ Can (Some (ex_principal ex_parent)) PermSecretRead secret = false ∧
      Can (Some (ex_principal row)) PermLeaseAcquire secret = true ∧ Can (Some (ex_principal ex_parent)) PermLeaseAcquire secret = false
  | _ => False
  end.
Proof. vm_compute. by split_and!. Qed.

(** ** Requests *)

(** The address that the allowlist is asked about is the one of [ClientIP]: a request is
    accepted for a token with an allowlist only when that address is valid and in it. *)
Theorem accepted_address rec (r : HttpRequest) trusted now c :
  record_result rec (ExtractRequestMeta r trusted) now = Ok c → rec_allow rec ≠ [] →
  let ip := ClientIP (Some (hr_net r)) trusted in normal ip ∧ Netx.contains (rec_allow rec) ip = true.
Proof.
  intros (_ & _ & _ & H & _)%record_result_iff Hne. destruct (H Hne) as (ip & Ei & Ha). clear H. cbn -[ClientIP IsValid Addr_String] in Ei. cbv zeta.
  set (client := ClientIP (Some (hr_net r)) trusted) in *. destruct (IsValid client) eqn:Ev; [|done].
  assert (normal client) as Hn.
  { unfold client in *. unfold ClientIP in Ev |- *. destruct (parseHostAddr (rq_RemoteAddr (hr_net r))) as [peer|] eqn:Ep; [|done].
    pose proof (ClientIP_normal (hr_net r) trusted peer Ep) as Hn. unfold ClientIP in Hn. by rewrite Ep in Hn. }
  rewrite ParseAddr_String in Ei by apply Hn. injection Ei as <-. split; [done|]. unfold AllowedIP in Ha. destruct (rec_allow rec); [done|]. rewrite Ev in Ha.
  by rewrite normal_id in Ha.
Qed.
