(* ===== verification/AuthCache.v ===== *)
(** * The cache of tokens

    internal/auth/tokencache.go and the handling of events in authenticator.go: lookups
    of token hashes on one instance, with a positive and a negative cache, a flight per
    hash that concurrent lookups share, and a generation that every invalidation
    changes.  Lookups are programs of calls that run side by side; invalidations,
    evictions, other instances and the clock take steps between any two of them.  The
    theorems show that a lookup that begins after the revocation of a token was handled
    does not find the token usable, except by joining a flight that was under way, and
    that without the event a record is served no longer than its time to live. *)

From S2P Require Import Prelude GoStrings GoTime IdGen Glob Authz PolicySignal Netip Netx AuthTokens Effects.

#[local] Open Scope Z_scope.
#[local] Open Scope prog_scope.

(** ** State *)

(** A cached record and when it expires.  [en_read] and [en_added] note for the
    specification when its row was read and when it was cached. *)
Record Entry := { en_rec : tokenRecord; en_deadline : Z; en_read : Z; en_added : Z }.

(** Where a lookup has its answer from: a cached record, a query of its own, or the flight
    of another lookup. *)
Inductive Source := src_none | src_hit (read added at_ : Z) | src_own | src_joined.

(** What a lookup answered: for which hash, what, from where, and the tokens whose
    revocation had been handled when it began. *)
Record Served := { sv_key : bytes; sv_res : lookupResult; sv_source : Source; sv_begun : gset string }.

(** The clock, the table by hash, the caches, the generation and the flights, which are
    numbered; then, for the specification, the tokens that were dropped after they were
    revoked, what each running lookup knows, and the answers. *)
Record Cache := {
  ca_now : Z; ca_rows : gmap bytes TokenRow;
  ca_positive : gmap bytes Entry; ca_negative : gset bytes; ca_generation : N;
  ca_flights : gmap bytes nat; ca_results : gmap nat lookupResult; ca_next : nat;
  ca_handled : gset string; ca_source : gmap nat Source; ca_begun : gmap nat (gset string); ca_read : gmap nat Z; ca_log : list Served;
}.

Definition set_positive (m : gmap bytes Entry) (c : Cache) : Cache :=
  {| ca_now := ca_now c; ca_rows := ca_rows c; ca_positive := m; ca_negative := ca_negative c; ca_generation := ca_generation c;
     ca_flights := ca_flights c; ca_results := ca_results c; ca_next := ca_next c; ca_handled := ca_handled c; ca_source := ca_source c;
     ca_begun := ca_begun c; ca_read := ca_read c; ca_log := ca_log c |}.
Definition set_negative (s : gset bytes) (c : Cache) : Cache :=
  {| ca_now := ca_now c; ca_rows := ca_rows c; ca_positive := ca_positive c; ca_negative := s; ca_generation := ca_generation c;
     ca_flights := ca_flights c; ca_results := ca_results c; ca_next := ca_next c; ca_handled := ca_handled c; ca_source := ca_source c;
     ca_begun := ca_begun c; ca_read := ca_read c; ca_log := ca_log c |}.
Definition set_flights (m : gmap bytes nat) (r : gmap nat lookupResult) (n : nat) (c : Cache) : Cache :=
  {| ca_now := ca_now c; ca_rows := ca_rows c; ca_positive := ca_positive c; ca_negative := ca_negative c; ca_generation := ca_generation c;
     ca_flights := m; ca_results := r; ca_next := n; ca_handled := ca_handled c; ca_source := ca_source c;
     ca_begun := ca_begun c; ca_read := ca_read c; ca_log := ca_log c |}.
Definition set_source (t : nat) (s : Source) (c : Cache) : Cache :=
  {| ca_now := ca_now c; ca_rows := ca_rows c; ca_positive := ca_positive c; ca_negative := ca_negative c; ca_generation := ca_generation c;
     ca_flights := ca_flights c; ca_results := ca_results c; ca_next := ca_next c; ca_handled := ca_handled c; ca_source := <[t := s]> (ca_source c);
     ca_begun := ca_begun c; ca_read := ca_read c; ca_log := ca_log c |}.
Definition set_read (t : nat) (c : Cache) : Cache :=
  {| ca_now := ca_now c; ca_rows := ca_rows c; ca_positive := ca_positive c; ca_negative := ca_negative c; ca_generation := ca_generation c;
     ca_flights := ca_flights c; ca_results := ca_results c; ca_next := ca_next c; ca_handled := ca_handled c; ca_source := <[t := src_own]> (ca_source c);
     ca_begun := ca_begun c; ca_read := <[t := ca_now c]> (ca_read c); ca_log := ca_log c |}.
Definition begin (t : nat) (c : Cache) : Cache :=
  {| ca_now := ca_now c; ca_rows := ca_rows c; ca_positive := ca_positive c; ca_negative := ca_negative c; ca_generation := ca_generation c;
     ca_flights := ca_flights c; ca_results := ca_results c; ca_next := ca_next c; ca_handled := ca_handled c; ca_source := <[t := src_none]> (ca_source c);
     ca_begun := <[t := ca_handled c]> (ca_begun c); ca_read := ca_read c; ca_log := ca_log c |}.
Definition serve (t : nat) (key : bytes) (r : lookupResult) (c : Cache) : Cache :=
  {| ca_now := ca_now c; ca_rows := ca_rows c; ca_positive := ca_positive c; ca_negative := ca_negative c; ca_generation := ca_generation c;
     ca_flights := ca_flights c; ca_results := ca_results c; ca_next := ca_next c; ca_handled := ca_handled c; ca_source := ca_source c;
     ca_begun := ca_begun c; ca_read := ca_read c;
     ca_log := {| sv_key := key; sv_res := r; sv_source := default src_none (ca_source c !! t); sv_begun := default ∅ (ca_begun c !! t) |} :: ca_log c |}.
Definition set_world (now : Z) (rows : gmap bytes TokenRow) (c : Cache) : Cache :=
  {| ca_now := now; ca_rows := rows; ca_positive := ca_positive c; ca_negative := ca_negative c; ca_generation := ca_generation c;
     ca_flights := ca_flights c; ca_results := ca_results c; ca_next := ca_next c; ca_handled := ca_handled c; ca_source := ca_source c;
     ca_begun := ca_begun c; ca_read := ca_read c; ca_log := ca_log c |}.

(** ** Invalidations *)

(** A token is handled once it is dropped while its row is revoked. *)
Definition revoked_id (rows : gmap bytes TokenRow) (id : string) : Prop := map_Exists (λ _ row, tr_ID row = id ∧ tr_RevokedAt row ≠ None) rows.
#[export] Instance revoked_id_dec rows id : Decision (revoked_id rows id).
Proof. unfold revoked_id. apply _. Defined.

Definition invalidate (positive : gmap bytes Entry) (negative : gset bytes) (dropped : list string) (c : Cache) : Cache :=
  {| ca_now := ca_now c; ca_rows := ca_rows c; ca_positive := positive; ca_negative := negative; ca_generation := ca_generation c + 1;
     ca_flights := ca_flights c; ca_results := ca_results c; ca_next := ca_next c;
     ca_handled := ca_handled c ∪ list_to_set (filter (revoked_id (ca_rows c)) dropped); ca_source := ca_source c;
     ca_begun := ca_begun c; ca_read := ca_read c; ca_log := ca_log c |}.
Definition dropToken (tokenID : string) (c : Cache) : Cache :=
  invalidate (filter (λ kv, rec_id (en_rec kv.2) ≠ tokenID) (ca_positive c)) (ca_negative c) [tokenID] c.
Definition purge (c : Cache) : Cache := invalidate ∅ ∅ ((λ kv : bytes * TokenRow, tr_ID kv.2) <$> map_to_list (ca_rows c)) c.

(** The events of the bus: their type and data, [None] when it does not decode. *)
Inductive EventType := EventTokenRevoked | EventUserChanged | EventOther.
Record tokensEventData := { ed_TokenID : string; ed_UserID : string; ed_All : bool }.
(** The part of [onEvent] that concerns tokens; changes of users are dispatched first. *)
Definition onEvent (type : EventType) (data : option tokensEventData) (c : Cache) : Cache :=
  match data with
  | None => c
  | Some data =>
      match type with
      | EventUserChanged => c
      | _ => if negb (String.eqb (ed_TokenID data) "") then dropToken (ed_TokenID data) c else if ed_All data then purge c else c
      end
  end.

(** ** Lookups *)

Inductive ccmd : Type → Type :=
| k_begin : ccmd unit
| k_get (key : bytes) : ccmd (option tokenRecord)
| k_unknown (key : bytes) : ccmd bool
| k_do (key : bytes) : ccmd (bool * nat)
| k_generation : ccmd N
| k_query (key : bytes) : ccmd (option (option TokenRow))
| k_add_negative (gen : N) (key : bytes) : ccmd unit
| k_add_positive (gen : N) (key : bytes) (rec : tokenRecord) : ccmd unit
| k_finish (key : bytes) (flight : nat) (r : lookupResult) : ccmd unit
| k_wait (flight : nat) : ccmd lookupResult
| k_return (key : bytes) (r : lookupResult) : ccmd unit.

Section lookup.
(** The names of namespaces by id, and the time to live of a cached record. *)
Variables (names : string → string) (ttl : Z).

(** What the lookup that leads a flight does. *)
Definition load (key : bytes) : prog ccmd lookupResult :=
  gen <- call k_generation ;;
  row <- call (k_query key) ;;
  match row with
  | Some None => call (k_add_negative gen key) ;; Ret lookUnknown
  | None => Ret lookFailed
  | Some (Some row) =>
      let rec := recordFromRow (names (tr_NamespaceID row)) row in
      call (k_add_positive gen key rec) ;; Ret (lookFound rec)
  end.
Definition lookup (key : bytes) : prog ccmd lookupResult :=
  hit <- call (k_get key) ;;
  match hit with
  | Some rec => Ret (lookFound rec)
  | None =>
      unknown <- call (k_unknown key) ;;
      if unknown : bool then Ret lookUnknown
      else
        flight <- call (k_do key) ;;
        if flight.1 : bool then r <- load key ;; call (k_finish key flight.2 r) ;; Ret r
        else call (k_wait flight.2)
  end.
(** A request that looks up a hash. *)
Definition request (key : bytes) : prog ccmd unit := call k_begin ;; r <- lookup key ;; call (k_return key r).

(** [addIfCurrent] *)
Definition addIfCurrent (gen : N) (add : Cache → Cache) (c : Cache) : Cache := if (ca_generation c =? gen)%N then add c else c.

(** The lookup [t] makes a call; [fails] decides whether a query fails.  A call that is
    not answered waits. *)
Definition exec_cache (t : nat) (X : Type) (fails : bool) (c : ccmd X) : Cache → option X * Cache :=
  match c in ccmd X return Cache → option X * Cache with
  | k_begin => λ c, (Some tt, begin t c)
  | k_get key => λ c,
      match ca_positive c !! key with
      | Some e => if ca_now c <=? en_deadline e then (Some (Some (en_rec e)), set_source t (src_hit (en_read e) (en_added e) (ca_now c)) c) else (Some None, c)
      | None => (Some None, c)
      end
  | k_unknown key => λ c, (Some (bool_decide (key ∈ ca_negative c)), c)
  | k_do key => λ c,
      match ca_flights c !! key with
      | Some flight => (Some (false, flight), set_source t src_joined c)
      | None => (Some (true, ca_next c), set_flights (<[key := ca_next c]> (ca_flights c)) (ca_results c) (S (ca_next c)) c)
      end
  | k_generation => λ c, (Some (ca_generation c), c)
  | k_query key => λ c, if fails : bool then (Some None, set_source t src_own c) else (Some (Some (ca_rows c !! key)), set_read t c)
  | k_add_negative gen key => λ c, (Some tt, addIfCurrent gen (λ c, set_negative ({[key]} ∪ ca_negative c) c) c)
  | k_add_positive gen key rec => λ c,
      (Some tt, addIfCurrent gen (λ c, set_positive (<[key := {| en_rec := rec; en_deadline := ca_now c + ttl; en_read := default 0 (ca_read c !! t); en_added := ca_now c |}]> (ca_positive c)) c) c)
  | k_finish key flight r => λ c, (Some tt, set_flights (delete key (ca_flights c)) (<[flight := r]> (ca_results c)) (ca_next c) c)
  | k_wait flight => λ c, (ca_results c !! flight, c)
  | k_return key r => λ c, (Some tt, serve t key r c)
  end.
End lookup.

(** What happens besides: time passes, tokens are created and revoked on any instance,
    events arrive, and records leave the caches. *)
Inductive world_step (c : Cache) : Cache → Prop :=
| ws_time now : ca_now c ≤ now → world_step c (set_world now (ca_rows c) c)
| ws_create key row :
    ca_rows c !! key = None → (∀ k r, ca_rows c !! k = Some r → tr_ID r ≠ tr_ID row) →
    world_step c (set_world (ca_now c) (<[key := row]> (ca_rows c)) c)
| ws_revoke key row :
    ca_rows c !! key = Some row → tr_RevokedAt row = None →
    world_step c (set_world (ca_now c) (<[key := set_revoked (Some (ca_now c)) row]> (ca_rows c)) c)
| ws_event type data : world_step c (onEvent type data c)
| ws_evict positive negative : positive ⊆ ca_positive c → negative ⊆ ca_negative c → world_step c (set_negative negative (set_positive positive c)).

(** An instance that starts. *)
Definition new_cache (rows : gmap bytes TokenRow) : Cache :=
  {| ca_now := 0; ca_rows := rows; ca_positive := ∅; ca_negative := ∅; ca_generation := 0; ca_flights := ∅; ca_results := ∅; ca_next := 0;
     ca_handled := ∅; ca_source := ∅; ca_begun := ∅; ca_read := ∅; ca_log := [] |}.

(** ** Invariant *)

Section correct.
Context (names : string → string) (ttl : Z).

(** The record is of the row of its hash, and when it is not revoked it was read no later
    than the row was revoked. *)
Definition reading (c : Cache) (key : bytes) (rec : tokenRecord) (read : Z) : Prop :=
  read ≤ ca_now c ∧
  ∃ row, ca_rows c !! key = Some row ∧ tr_ID row = rec_id rec ∧ (rec_revoked rec = false → ∀ at_, tr_RevokedAt row = Some at_ → read ≤ at_).
Record entry_ok (c : Cache) (key : bytes) (e : Entry) : Prop := {
  eo_reading : reading c key (en_rec e) (en_read e);
  eo_added : en_read e ≤ en_added e;
  eo_deadline : en_deadline e = en_added e + ttl;
  eo_handled : rec_id (en_rec e) ∈ ca_handled c → rec_revoked (en_rec e) = true;
}.
Definition served_ok (c : Cache) (s : Served) : Prop :=
  ∀ rec, sv_res s = lookFound rec → rec_revoked rec = false →
    (rec_id rec ∈ sv_begun s → sv_source s = src_joined) ∧
    ∀ read added at_, sv_source s = src_hit read added at_ → at_ ≤ added + ttl ∧ read ≤ added ∧ reading c (sv_key s) rec read.
Record inv (c : Cache) : Prop := {
  iv_ids : ∀ k k' r r', ca_rows c !! k = Some r → ca_rows c !! k' = Some r' → tr_ID r = tr_ID r' → k = k';
  iv_handled : ∀ id, id ∈ ca_handled c → revoked_id (ca_rows c) id;
  iv_entry : ∀ key e, ca_positive c !! key = Some e → entry_ok c key e;
  iv_log : ∀ s, s ∈ ca_log c → served_ok c s;
}.

(** What everything but a lookup may change of what it knows. *)
Record evolves (c c' : Cache) : Prop := {
  ev_now : ca_now c ≤ ca_now c';
  ev_rows : ∀ key row, ca_rows c !! key = Some row → ∃ row', ca_rows c' !! key = Some row' ∧ tr_ID row' = tr_ID row ∧
    (tr_RevokedAt row ≠ None → tr_RevokedAt row' = tr_RevokedAt row) ∧ (tr_RevokedAt row = None → ∀ at_, tr_RevokedAt row' = Some at_ → ca_now c ≤ at_);
  ev_generation : (ca_generation c ≤ ca_generation c')%N;
  ev_same : ca_generation c = ca_generation c' → ca_handled c' = ca_handled c;
  ev_handled : ca_handled c ⊆ ca_handled c';
}.
Definition mine (t : nat) (c c' : Cache) : Prop :=
  ca_source c' !! t = ca_source c !! t ∧ ca_begun c' !! t = ca_begun c !! t ∧ ca_read c' !! t = ca_read c !! t.
Definition rely_lookup (t : nat) (c c' : Cache) : Prop := evolves c c' ∧ mine t c c'.
Definition guar_lookup (t : nat) (c c' : Cache) : Prop := evolves c c' ∧ ∀ t', t ≠ t' → mine t' c c'.

Lemma evolves_refl c : evolves c c.
Proof. split; [lia|intros key row H; exists row; split_and!; try done; intros -> ?; congruence|lia|done|done]. Qed.
Lemma evolves_trans c1 c2 c3 : evolves c1 c2 → evolves c2 c3 → evolves c1 c3.
Proof.
  intros [N1 R1 G1 S1 H1] [N2 R2 G2 S2 H2]. split; [lia| |lia| |set_solver].
  - intros key row Hr. destruct (R1 _ _ Hr) as (row1 & Hr1 & I1 & A1 & B1). destruct (R2 _ _ Hr1) as (row2 & Hr2 & I2 & A2 & B2).
    exists row2. split_and!; [done|congruence| |].
    + intros Hn. rewrite A2; [by apply A1|]. by rewrite (A1 Hn).
    + intros Hn at_ Ha. destruct (tr_RevokedAt row1) as [a1|] eqn:E1; [|specialize (B2 eq_refl _ Ha); lia].
      rewrite A2 in Ha by done. simplify_eq. by apply B1.
  - intros Hg. rewrite S2, S1; [done|lia|lia].
Qed.

Lemma reading_evolves c c' key rec read : evolves c c' → reading c key rec read → reading c' key rec read.
Proof.
  intros [N R _ _ _] (Hn & row & Hr & Hi & Hu). split; [lia|]. destruct (R _ _ Hr) as (row' & Hr' & Hi' & Ha & Hb). exists row'. split_and!; [done|congruence|].
  intros Hrev at_ Hat. destruct (tr_RevokedAt row) as [a|] eqn:E; [|specialize (Hb eq_refl _ Hat); lia]. rewrite Ha in Hat by done. simplify_eq. by apply Hu.
Qed.
Lemma served_evolves c c' s : evolves c c' → served_ok c s → served_ok c' s.
Proof.
  intros He Hs rec Hr Hu. destruct (Hs rec Hr Hu) as [H1 H2]. split; [done|]. intros read added at_ Hsrc. destruct (H2 _ _ _ Hsrc) as (? & ? & ?).
  split_and!; try done. by eapply reading_evolves.
Qed.
Lemma revoked_evolves c c' id : evolves c c' → revoked_id (ca_rows c) id → revoked_id (ca_rows c') id.
Proof.
  intros [_ R _ _ _] (key & row & Hr & Hi & Hn). destruct (R _ _ Hr) as (row' & Hr' & Hi' & Ha & _). exists key, row'. split; [done|]. split; [congruence|].
  by rewrite (Ha Hn).
Qed.

(** A row of a handled token is revoked. *)
Lemma handled_row c key row : inv c → ca_rows c !! key = Some row → tr_ID row ∈ ca_handled c → tr_RevokedAt row ≠ None.
Proof.
  intros Hi Hr Hh. destruct (iv_handled _ Hi _ Hh) as (key' & row' & Hr' & Hid & Hn). pose proof (iv_ids _ Hi _ _ _ _ Hr' Hr Hid) as ->. by simplify_eq.
Qed.

(** The invariant over a step that changes the entries and the tokens handled. *)
Lemma inv_step c c' :
  inv c → evolves c c' → (∀ k k' r r', ca_rows c' !! k = Some r → ca_rows c' !! k' = Some r' → tr_ID r = tr_ID r' → k = k') →
  (∀ id, id ∈ ca_handled c' → id ∉ ca_handled c → revoked_id (ca_rows c') id) →
  (∀ key e, ca_positive c' !! key = Some e → entry_ok c' key e ∨ (ca_positive c !! key = Some e ∧ (rec_id (en_rec e) ∈ ca_handled c' → rec_id (en_rec e) ∈ ca_handled c))) →
  (∀ s, s ∈ ca_log c' → s ∈ ca_log c ∨ served_ok c' s) → inv c'.
Proof.
  intros [I H E L] Hev Hids Hh He Hl. split; [done| | |].
  - intros id Hid. destruct (decide (id ∈ ca_handled c)) as [Hin|Hn]; [|by apply Hh]. eapply revoked_evolves; [done|]. by apply H.
  - intros key e Hk. destruct (He key e Hk) as [|[Hk' Hi]]; [done|]. destruct (E key e Hk') as [Hr Ha Hd Hu]. split; [by eapply reading_evolves|done|done|].
    intros Hin. by apply Hu, Hi.
  - intros s Hs. destruct (Hl s Hs) as [Hs'|]; [|done]. eapply served_evolves; [done|]. by apply L.
Qed.

Lemma evolves_same c c' :
  ca_now c' = ca_now c → ca_rows c' = ca_rows c → ca_generation c' = ca_generation c → ca_handled c' = ca_handled c → evolves c c'.
Proof. intros N R G H. pose proof (evolves_refl c) as [? Hr ? ? ?]. split; rewrite ?N, ?R, ?G, ?H; done. Qed.

(** A call that leaves the caches and the answers as they are. *)
Lemma inv_same c c' :
  inv c → ca_now c' = ca_now c → ca_rows c' = ca_rows c → ca_generation c' = ca_generation c → ca_handled c' = ca_handled c →
  ca_positive c' = ca_positive c → ca_log c' = ca_log c → inv c' ∧ evolves c c'.
Proof.
  intros Hi N R G H P L. assert (evolves c c') as He by (by apply evolves_same). split; [|done]. apply (inv_step c); [done|done|..]; rewrite ?R, ?H, ?P, ?L.
  - apply Hi.
  - done.
  - intros key e Hk. by right.
  - by left.
Qed.

(** ** What else happens *)

Lemma invalidate_keeps c positive negative dropped :
  inv c → positive ⊆ ca_positive c → (∀ key e, positive !! key = Some e → rec_id (en_rec e) ∉ dropped) →
  inv (invalidate positive negative dropped c) ∧ evolves c (invalidate positive negative dropped c).
Proof.
  intros Hi Hp Hd. assert (evolves c (invalidate positive negative dropped c)) as He.
  { destruct (evolves_refl c) as [? Hr ? ? ?]. split; [done|done|cbn; lia|cbn; lia|cbn; set_solver]. }
  split; [|done]. apply (inv_step c); [done|done|apply Hi| | |by left]; cbn.
  - intros id' [?|[Hrev _]%elem_of_list_to_set%list_elem_of_filter]%elem_of_union; done.
  - intros key e Hk. right. split; [by eapply lookup_weaken|]. intros [?|[_ Hin]%elem_of_list_to_set%list_elem_of_filter]%elem_of_union; [done|].
    by destruct (Hd _ _ Hk).
Qed.

Lemma world_step_keeps c c' : world_step c c' → inv c → inv c' ∧ ∀ t, rely_lookup t c c'.
Proof.
  intros Hs Hi. assert (∀ t, mine t c c') as Hm.
  { intros t. destruct Hs as [| | |type data|]; try done. destruct data as [[id u all]|]; [|done]. cbn. destruct type; [|done|]; (destruct (negb _); [done|by destruct all]). }
  assert (inv c' ∧ evolves c c') as [H1 H2]; [|by split]. destruct Hs as [now Hn|key row Hk Hf|key row Hk Hr|type data|positive negative Hp Hn].
  - assert (evolves c (set_world now (ca_rows c) c)) as He by (destruct (evolves_refl c) as [? Hr ? ? ?]; split; done). split; [|done].
    apply (inv_step c); [done|done|apply Hi|done|by right|by left].
  - assert (∀ k r, ca_rows c !! k = Some r → k ≠ key) as Hne by (intros k r Hr ->; congruence).
    assert (evolves c (set_world (ca_now c) (<[key:=row]> (ca_rows c)) c)) as He.
    { destruct (evolves_refl c) as [? Hr ? ? ?]. split; try done. cbn. intros k r Hkr. rewrite lookup_insert_ne by (by apply not_eq_sym, (Hne _ _ Hkr)). by apply Hr. }
    split; [|done]. apply (inv_step c); [done|done| |done|by right|by left]. cbn.
    intros k k' r r' [[<- <-]|[? Hr]]%lookup_insert_Some [[<- <-]|[? Hr']]%lookup_insert_Some E; [done|by destruct (Hf _ _ Hr')|by destruct (Hf _ _ Hr)|by eapply (iv_ids _ Hi)].
  - assert (evolves c (set_world (ca_now c) (<[key:=set_revoked (Some (ca_now c)) row]> (ca_rows c)) c)) as He.
    { destruct (evolves_refl c) as [? Hrr ? ? ?]. split; try done. cbn. intros k r Hkr. destruct (decide (key = k)) as [<-|Hne]; [|rewrite lookup_insert_ne by done; by apply Hrr].
      rewrite lookup_insert_eq. eexists. split; [done|]. simplify_eq. split_and!; [done|congruence|]. cbn. intros _ at_ [= <-]. lia. }
    split; [|done]. apply (inv_step c); [done|done| |done|by right|by left]. cbn.
    intros k k' r r' [[<- <-]|[? Hkr]]%lookup_insert_Some [[<- <-]|[? Hkr']]%lookup_insert_Some E; cbn in E; [done|by eapply (iv_ids _ Hi)..].
  - destruct data as [[id u all]|]; [|split; [done|apply evolves_refl]]. cbn.
    assert (inv (dropToken id c) ∧ evolves c (dropToken id c)) as Hdrop.
    { apply invalidate_keeps; [done|apply map_filter_subseteq|]. intros key e [_ Hf]%map_lookup_filter_Some. set_solver. }
    assert (inv (purge c) ∧ evolves c (purge c)) as Hpurge by (apply invalidate_keeps; [done|apply map_empty_subseteq|intros key e Hk; by rewrite lookup_empty in Hk]).
    destruct type; [|split; [done|apply evolves_refl]|]; (destruct (negb _); [done|]; destruct all; [done|split; [done|apply evolves_refl]]).
  - assert (evolves c (set_negative negative (set_positive positive c))) as He by by apply evolves_same. split; [|done].
    apply (inv_step c); [done|done|apply Hi|done| |by left]. cbn. intros key e Hk. right. split; [by eapply lookup_weaken|done].
Qed.

(** ** Lookups *)

Abbreviation lookup_ok t p Q := (rg (exec_cache ttl) inv rely_lookup guar_lookup t p Q).

(** What a lookup knows: from when it began, and of its answer. *)
Definition began (t : nat) (c : Cache) : Prop := ∃ h, ca_begun c !! t = Some h ∧ h ⊆ ca_handled c.
Definition ready (t : nat) (key : bytes) (r : lookupResult) (c : Cache) : Prop :=
  served_ok c {| sv_key := key; sv_res := r; sv_source := default src_none (ca_source c !! t); sv_begun := default ∅ (ca_begun c !! t) |}.
Lemma began_rely t c c' : rely_lookup t c c' → began t c → began t c'.
Proof. intros [He (_ & Hb & _)] (h & Hh & Hs). exists h. split; [congruence|]. pose proof (ev_handled _ _ He). set_solver. Qed.
Lemma ready_rely t key r c c' : rely_lookup t c c' → ready t key r c → ready t key r c'.
Proof. intros [He (Hs & Hb & _)] Hr. unfold ready. rewrite Hs, Hb. by eapply served_evolves. Qed.

(** A call that leaves the caches and the answers as they are. *)
Lemma ok_quiet {X : Type} t (cm : ccmd X) (Q : X → Cache → Prop) c :
  (∀ c1 f x c2, rely_lookup t c c1 → inv c1 → exec_cache ttl t X f cm c1 = (Some x, c2) →
     ca_now c2 = ca_now c1 ∧ ca_rows c2 = ca_rows c1 ∧ ca_generation c2 = ca_generation c1 ∧ ca_handled c2 = ca_handled c1 ∧
     ca_positive c2 = ca_positive c1 ∧ ca_log c2 = ca_log c1 ∧ (∀ t', t ≠ t' → mine t' c1 c2) ∧ Q x c2) →
  (∀ c1 f c2, exec_cache ttl t X f cm c1 = (None, c2) → c2 = c1) → lookup_ok t (call cm) Q c.
Proof.
  intros H Hn. apply rg_call. intros c1 f Hr Hi. destruct (exec_cache ttl t X f cm c1) as [[x|] c2] eqn:E.
  - destruct (H c1 f x c2 Hr Hi E) as (E1 & E2 & E3 & E4 & E5 & E6 & Hm & HQ). destruct (inv_same c1 c2) as [Hi2 He]; try done.
    split; [done|]. split; [by split|]. by intros x' [= <-].
  - rewrite (Hn _ _ _ E). split; [done|]. split; [|done]. split; [apply evolves_refl|done].
Qed.
Ltac quiet := cbn; split_and!; try done; try (intros t' Ht; unfold mine; cbn; rewrite ?lookup_insert_ne by done; done).

Lemma ok_get t key c : began t c → 
  lookup_ok t (call (k_get key)) (λ r c, began t c ∧ match r with Some rec => ready t key (lookFound rec) c | None => True end) c.
Proof.
  intros Hb. apply ok_quiet; [|intros c1 f c2; cbn; repeat case_match; congruence].
  intros c1 f x c2 Hr Hi E. apply (began_rely _ _ _ Hr) in Hb as Hb1. cbn in E. destruct (ca_positive c1 !! key) as [e|] eqn:Ek; [|simplify_eq; by quiet].
  destruct (Z.leb_spec (ca_now c1) (en_deadline e)); simplify_eq; [|by quiet]. quiet. destruct (iv_entry _ Hi _ _ Ek) as [Hrd Ha Hd Hu].
  destruct Hb1 as (h & Hh & Hs). unfold ready. cbn. rewrite lookup_insert_eq, Hh. cbn. intros rec [= <-] Hrev. cbn. split.
  - intros Hin. rewrite Hu in Hrev; [done|set_solver].
  - intros read added at_ [= <- <- <-]. split_and!; [lia|done|]. destruct Hrd as (Hn & row & Hrow & Hrest). split; [done|]. by exists row.
Qed.

Lemma ok_do t key c : began t c →
  lookup_ok t (call (k_do key)) (λ f c, began t c ∧ (f.1 = false → ∀ r, ready t key r c)) c.
Proof.
  intros Hb. apply ok_quiet; [|intros c1 f c2; cbn; repeat case_match; congruence].
  intros c1 f x c2 Hr Hi E. apply (began_rely _ _ _ Hr) in Hb as Hb1. cbn in E. destruct (ca_flights c1 !! key) as [flight|]; simplify_eq; [|by quiet].
  quiet. intros _ r rec Hrec Hrev. cbn in *. rewrite lookup_insert_eq. cbn. split; [done|]. by intros read added at_ [=].
Qed.

(** What the leader of a flight knows of the record it read. *)
Definition loaded (t : nat) (key : bytes) (gen : N) (rec : tokenRecord) (c : Cache) : Prop :=
  ready t key (lookFound rec) c ∧ (gen ≤ ca_generation c)%N ∧ (ca_generation c = gen → rec_id rec ∈ ca_handled c → rec_revoked rec = true) ∧
  ∃ read, ca_read c !! t = Some read ∧ reading c key rec read.
Lemma loaded_rely t key gen rec c c' : rely_lookup t c c' → loaded t key gen rec c → loaded t key gen rec c'.
Proof.
  intros Hr (H1 & H2 & H3 & read & H4 & H5). pose proof Hr as [He (_ & _ & Hm)]. split; [by eapply ready_rely|]. pose proof (ev_generation _ _ He).
  split; [lia|]. split.
  - intros Hg. rewrite (ev_same _ _ He) by lia. apply H3. lia.
  - exists read. split; [congruence|]. by eapply reading_evolves.
Qed.

Lemma ok_query t key gen c : began t c → (gen ≤ ca_generation c)%N →
  lookup_ok t (call (k_query key)) (λ r c, match r with Some (Some row) => loaded t key gen (recordFromRow (names (tr_NamespaceID row)) row) c | _ => True end) c.
Proof.
  intros Hb Hg. apply ok_quiet; [|intros c1 [] c2; cbn; congruence]. intros c1 f x c2 Hr Hi E. apply (began_rely _ _ _ Hr) in Hb as (h & Hh & Hs).
  cbn in E. destruct f; [simplify_eq; by quiet|]. injection E as <- <-. quiet. destruct (ca_rows c1 !! key) as [row|] eqn:Ek; [|done].
  destruct Hr as [He _]. pose proof (ev_generation _ _ He). assert (tr_ID row ∈ ca_handled c1 → rec_revoked (recordFromRow (names (tr_NamespaceID row)) row) = true) as Hrev.
  { intros Hin. cbn. apply bool_decide_eq_true. by eapply handled_row. }
  split_and!; [|cbn; lia|by intros _|].
  - intros rec [= <-] Hu. cbn in *. rewrite lookup_insert_eq, Hh. cbn. split; [|by intros ? ? ? [=]]. intros Hin. rewrite Hrev in Hu; [done|set_solver].
  - exists (ca_now c1). cbn. split; [apply lookup_insert_eq|]. split; [cbn; lia|]. exists row. split_and!; [done|done|].
    cbn. intros Hu at_ Hat. apply bool_decide_eq_false, dec_stable in Hu. congruence.
Qed.

Lemma ok_add t key gen rec c : loaded t key gen rec c → lookup_ok t (call (k_add_positive gen key rec)) (λ _ c, ready t key (lookFound rec) c) c.
Proof.
  intros Hl. apply rg_call. intros c1 f Hr Hi. destruct (loaded_rely _ _ _ _ _ _ Hr Hl) as (Hrd & Hle & Hh & read & Hread & Hreading). cbn. unfold addIfCurrent.
  destruct (N.eqb_spec (ca_generation c1) gen) as [Eg|]; [|split; [done|]; split; [split; [apply evolves_refl|done]|done]].
  set (c2 := set_positive _ c1). assert (evolves c1 c2) as He by by apply evolves_same. split_and!; [|split; [done|intros t' _; done]|].
  - apply (inv_step c1); [done|done|apply Hi|done| |by left]. cbn. intros key' e [[<- <-]|[_ Hk]]%lookup_insert_Some; [left|by right].
    split; cbn; rewrite ?Hread; cbn; [done| |done|by apply Hh]. apply Hreading.
  - intros _ _. eapply ready_rely; [|exact Hrd]. by split.
Qed.

Lemma ready_other t key r c : (∀ rec, r ≠ lookFound rec) → ready t key r c.
Proof. intros Hr rec E. by destruct (Hr rec). Qed.

Lemma ok_load t key c : began t c → lookup_ok t (load names key) (λ r c, ready t key r c) c.
Proof.
  intros Hb. unfold load. apply rg_bind. eapply rg_mono; [|apply (ok_quiet t k_generation (λ g c, began t c ∧ (g ≤ ca_generation c)%N)); [|done]].
  2: { intros c1 f g c2 Hr Hi E. cbn in E. injection E as <- <-. quiet. by eapply began_rely. }
  intros gen c1 [Hb1 Hg]. apply rg_bind. eapply rg_mono; [|by apply ok_query]. intros [[row|]|] c2 Hl; [..|by apply ready_other].
  - apply rg_bind. eapply rg_mono; [|apply ok_add, Hl]. by intros ? c3 H.
  - apply rg_bind. eapply rg_mono; [|apply (ok_quiet t _ (λ _ _, True)); [|done]].
    + intros ? c3 ?. by apply ready_other.
    + intros c3 f x c4 _ _ E. cbn in E. injection E as <- <-. unfold addIfCurrent. destruct (N.eqb _ _); by quiet.
Qed.

Lemma ok_lookup t key c : began t c → lookup_ok t (lookup names key) (λ r c, ready t key r c) c.
Proof.
  intros Hb. unfold lookup. apply rg_bind. eapply rg_mono; [|by apply ok_get]. intros [rec|] c1 [Hb1 Hr]; [done|].
  apply rg_bind. eapply rg_mono; [|apply (ok_quiet t (k_unknown key) (λ _ c, began t c)); [|done]].
  2: { intros c2 f u c3 Hr2 _ E. cbn in E. injection E as <- <-. quiet. by eapply began_rely. }
  intros [] c2 Hb2; [by apply ready_other|]. apply rg_bind. eapply rg_mono; [|by apply ok_do]. intros [[] flight] c3 [Hb3 Hj]; cbn [fst snd] in *; cbv iota.
  - apply rg_bind. eapply rg_mono; [|by apply ok_load]. intros r c4 Hr4. apply rg_bind.
    eapply rg_mono; [|apply (ok_quiet t (k_finish key flight r) (λ _ c, ready t key r c)); [|done]]; [by intros ? c5 H5|].
    intros c5 f x c6 Hr6 _ E. cbn in E. injection E as <- <-. quiet. by apply (ready_rely _ _ _ _ _ Hr6) in Hr4.
  - apply ok_quiet; [|by intros c4 f c5 [=]]. intros c4 f r c5 Hr5 _ E. cbn in E. injection E as E <-. quiet.
    eapply ready_rely; [exact Hr5|]. by apply Hj.
Qed.

Lemma ok_request t key c : lookup_ok t (request names key) (λ _ _, True) c.
Proof.
  unfold request. apply rg_bind. eapply rg_mono; [|apply (ok_quiet t k_begin (λ _ c, began t c)); [|done]].
  2: { intros c1 f x c2 _ _ E. cbn in E. injection E as <- <-. quiet. exists (ca_handled c1). cbn. by rewrite lookup_insert_eq. }
  intros ? c1 Hb. apply rg_bind. eapply rg_mono; [|by apply ok_lookup]. intros r c2 Hr. apply rg_call. intros c3 f Hrel Hi. cbn. apply (ready_rely _ _ _ _ _ Hrel) in Hr.
  assert (evolves c3 (serve t key r c3)) as He by by apply evolves_same. split; [|split; [by split|done]].
  apply (inv_step c3); [done|done|apply Hi|done|by right|]. cbn. intros s [->|Hs]%elem_of_cons; [right|by left]. by eapply served_evolves.
Qed.

Abbreviation cache_reach keys := (par_reach (exec_cache ttl) (λ t, request names (keys t)) world_step (λ _ c, c) (λ _ c, c)).

(** C12: in every interleaving of lookups with creations, revocations, events, evictions and
    the clock, an answer with a usable record of a token is given only as follows.  When
    the revocation of the token had been handled on the instance before the lookup began,
    the lookup joined a flight that was under way.  When the record came from the cache, it
    was cached no longer than its time to live ago, and it was read no later than the
    token was revoked. *)
Theorem revoked_refused keys rows c P s rec :
  (∀ k k' r r', rows !! k = Some r → rows !! k' = Some r' → tr_ID r = tr_ID r' → k = k') →
  cache_reach keys (new_cache rows) (c, P) → s ∈ ca_log c → sv_res s = lookFound rec → rec_revoked rec = false →
  (rec_id rec ∈ sv_begun s → sv_source s = src_joined) ∧
  ∀ read added at_, sv_source s = src_hit read added at_ →
    at_ ≤ added + ttl ∧ read ≤ added ∧ ∀ row revoked, ca_rows c !! sv_key s = Some row → tr_RevokedAt row = Some revoked → read ≤ revoked.
Proof.
  intros Hids Hrun Hs Hrec Hu. assert (inv c) as Hi.
  { change c with (c, P).1. eapply (par_inv (exec_cache ttl) inv rely_lookup guar_lookup (λ t, request names (keys t)) world_step (λ _ c, c) (λ _ c, c)); [..|exact Hrun].
    - intros t c1 c2 c3 [E1 (?&?&?)] [E2 (?&?&?)]. split; [by eapply evolves_trans|]. split_and!; congruence.
    - intros t c1. split; [apply evolves_refl|done].
    - intros t t' c1 c2 Hne [E M]. split; [done|by apply M].
    - intros c1 c2 Hw Hi. by apply world_step_keeps.
    - intros t c1 Hi. split; [done|]. intros t' _. split; [apply evolves_refl|done].
    - intros t c1 Hi. split; [done|]. intros t' _. split; [apply evolves_refl|done].
    - intros t c1 _. apply ok_request.
    - split; [done|by intros id []%not_elem_of_empty| |by intros s' ?%elem_of_nil]. intros key e Hk. cbn in Hk. by rewrite lookup_empty in Hk. }
  destruct (iv_log _ Hi _ Hs rec Hrec Hu) as [H1 H2]. split; [done|]. intros read added at_ Hsrc. destruct (H2 _ _ _ Hsrc) as (? & ? & _ & row & Hrow & _ & Hr).
  split_and!; [done|done|]. intros row' revoked Hrow' Hrev. simplify_eq. by apply Hr.
Qed.
End correct.

(** ** Two lookups *)

Definition ex_names (id : string) : string := "prod".
Definition ex_hash : bytes := bs "h1".
Definition ex_keys (t : nat) : bytes := ex_hash.
Definition ex_rows : gmap bytes TokenRow := {[ex_hash := ex_parent]}.
Definition ex_ttl : Z := 30 * 10 ^ 9.
Abbreviation ex_reach := (par_reach (exec_cache ex_ttl) (λ t, request ex_names (ex_keys t)) world_step (λ _ c, c) (λ _ c, c) (new_cache ex_rows)).
Abbreviation pool := (Cache * (nat → option (prog ccmd unit)))%type.
Definition started (t : nat) (s : pool) : pool := (s.1, set_at t (Some (request ex_names (ex_keys t))) s.2).
Definition calls (t n : nat) (s : pool) : pool := par_run (exec_cache ex_ttl) t (replicate n false) s.

Lemma started_reach t s : s.2 t = None → ex_reach s → ex_reach (started t s).
Proof. intros Hn Hs. destruct s as [c P]. eapply par_next; [exact Hs|]. exact (par_born (exec_cache ex_ttl) (λ t, request ex_names (ex_keys t)) world_step (λ _ c, c) (λ _ c, c) t c P Hn). Qed.
Lemma calls_reach t n s : ex_reach s → ex_reach (calls t n s).
Proof. apply par_run_reach. Qed.
Lemma world_reach s c : ex_reach s → world_step s.1 c → ex_reach (c, s.2).
Proof. intros Hs Hw. destruct s as [c0 P]. eapply par_next; [exact Hs|]. by apply par_env. Qed.

(** One lookup loads the record, the next one finds it. *)
Definition ex_served : pool := calls 1 9 (started 1 (calls 0 9 (started 0 (new_cache ex_rows, λ _, None)))).
Lemma ex_ids k k' r r' : ex_rows !! k = Some r → ex_rows !! k' = Some r' → tr_ID r = tr_ID r' → k = k'.
Proof. unfold ex_rows. intros [<- _]%lookup_singleton_Some [<- _]%lookup_singleton_Some _. done. Qed.
Definition last_answer (s : pool) : Served :=
  match ca_log s.1 with r :: _ => r | [] => {| sv_key := []; sv_res := lookFailed; sv_source := src_none; sv_begun := ∅ |} end.
Lemma last_answer_in s : length (ca_log s.1) ≠ O → last_answer s ∈ ca_log s.1.
Proof. unfold last_answer. destruct (ca_log s.1); [done|]. left. Qed.
Definition ex_record : tokenRecord := recordFromRow "prod" ex_parent.

Lemma revoked_refused_witness :
  sv_source (last_answer ex_served) = src_hit 0 0 0 ∧ (rec_id ex_record ∈ sv_begun (last_answer ex_served) → sv_source (last_answer ex_served) = src_joined).
Proof.
  split; [vm_compute; reflexivity|].
  refine (proj1 (revoked_refused ex_names ex_ttl ex_keys ex_rows ex_served.1 ex_served.2 (last_answer ex_served) ex_record ex_ids _ _ _ _)).
  - rewrite <- surjective_pairing. apply calls_reach, started_reach; [vm_compute; reflexivity|]. apply calls_reach, started_reach; [vm_compute; reflexivity|]. apply par_start.
  - apply last_answer_in. vm_compute. discriminate.
  - vm_compute. reflexivity.
  - vm_compute. reflexivity.
Defined.

(** The exception is taken: a lookup that begins after a token was revoked and the event
    was handled joins the flight of one that read the row before, and accepts the token. *)
Definition ex_before : pool := calls 0 6 (started 0 (new_cache ex_rows, λ _, None)).
Definition ex_revoked : pool := 
  (set_world (ca_now ex_before.1) (<[ex_hash := set_revoked (Some (ca_now ex_before.1)) ex_parent]> (ca_rows ex_before.1)) ex_before.1, ex_before.2).
Definition ex_event : pool := (onEvent EventTokenRevoked (Some {| ed_TokenID := "tok_1"; ed_UserID := ""; ed_All := false |}) ex_revoked.1, ex_revoked.2).
Definition ex_joined : pool := calls 1 2 (calls 0 3 (calls 1 4 (started 1 ex_event))).
Example joined_lookup_stale :
  ex_reach ex_joined ∧ revoked_id (ca_rows ex_joined.1) "tok_1" ∧ sv_res (last_answer ex_joined) = lookFound ex_record ∧ rec_revoked ex_record = false ∧
  rec_id ex_record ∈ sv_begun (last_answer ex_joined) ∧ is_ok (record_result ex_record ex_meta (56 * ex_year)) = true.
Proof.
  split_and!.
  - do 3 apply calls_reach. apply started_reach; [vm_compute; reflexivity|]. apply world_reach; [|apply ws_event].
    apply world_reach.
    + apply calls_reach, started_reach; [vm_compute; reflexivity|]. apply par_start.
    + apply (ws_revoke ex_before.1 ex_hash ex_parent); vm_compute; reflexivity.
  - apply (bool_decide_unpack _). vm_compute. exact I.
  - vm_compute. reflexivity.
  - vm_compute. reflexivity.
  - apply (bool_decide_unpack _). vm_compute. exact I.
  - vm_compute. reflexivity.
Qed.
