(* ===== verification/NotifyGuard.v ===== *)
(** * The targets of notifications

    internal/notify/ssrf.go: the guard of the dialer by which notifications are
    delivered, which refuses addresses that are not public.  The theorem shows that for
    an address without a zone the guard passes exactly the public ones: outside of the
    special ranges, and not carrying an IPv4 address of one.  An example shows that an
    address with a zone escapes the checks by prefix. *)

From S2P Require Import Prelude GoStrings GoTime IdGen Netip.

Local Open Scope Z_scope.

(** ** Classes of addresses (net/netip) *)

(** The byte [i] of an IPv4 address, and the leading bits of an IPv6 address. *)
Definition v4 (n : Z) (i : Z) : Z := n / 2 ^ (24 - 8 * i) mod 256.
Definition lead (n bits : Z) : Z := n / 2 ^ (128 - bits).

Definition IsLoopback (a : Addr) : bool := match a with AddrNone => false | Addr4 n => v4 n 0 =? 127 | Addr6 n _ => n =? 1 end.
Definition IsUnspecified (a : Addr) : bool := bool_decide (a = Addr4 0) || bool_decide (a = Addr6 0 []).
(** RFC 1918 and RFC 4193 *)
Definition IsPrivate (a : Addr) : bool :=
  match a with
  | AddrNone => false
  | Addr4 n => (v4 n 0 =? 10) || ((v4 n 0 =? 172) && (v4 n 1 / 16 =? 1)) || ((v4 n 0 =? 192) && (v4 n 1 =? 168))
  | Addr6 n _ => lead n 7 =? 126
  end.
Definition IsLinkLocalUnicast (a : Addr) : bool :=
  match a with AddrNone => false | Addr4 n => (v4 n 0 =? 169) && (v4 n 1 =? 254) | Addr6 n _ => lead n 10 =? 1018 end.
Definition IsLinkLocalMulticast (a : Addr) : bool :=
  match a with
  | AddrNone => false
  | Addr4 n => (v4 n 0 =? 224) && (v4 n 1 =? 0) && (v4 n 2 =? 0)
  | Addr6 n _ => (lead n 8 =? 255) && (lead n 16 mod 16 =? 2)
  end.
Definition IsInterfaceLocalMulticast (a : Addr) : bool := match a with Addr6 n _ => (lead n 8 =? 255) && (lead n 16 mod 16 =? 1) | _ => false end.
Definition IsMulticast (a : Addr) : bool := match a with AddrNone => false | Addr4 n => v4 n 0 / 16 =? 14 | Addr6 n _ => lead n 8 =? 255 end.

(** ** The guard *)

Definition MustParsePrefix (s : string) : Prefix := default {| p_Addr := AddrNone; p_Bits := -1 |} (ParsePrefix (bs s)).
Definition blockedPrefixes : list Prefix :=
  MustParsePrefix <$> ["0.0.0.0/8"; "100.64.0.0/10"; "192.0.0.0/24"; "198.18.0.0/15"; "240.0.0.0/4"; "64:ff9b:1::/48"].
Definition embeddedV4Prefixes : list Prefix := MustParsePrefix <$> ["64:ff9b::/96"; "2002::/16"; "::/96"].

(** Six-to-four carries the address in the bytes 2 to 5, the others in the last four. *)
Fixpoint embedded_in (prefixes : list Prefix) (ip : Addr) : option Addr :=
  match prefixes with
  | [] => None
  | p :: prefixes =>
      if negb (Contains p ip) then embedded_in prefixes ip
      else if p_Bits p =? 16 then Some (Addr4 (addr_bits ip / 2 ^ 80 mod 2 ^ 32))
      else Some (Addr4 (addr_bits ip mod 2 ^ 32))
  end.
Definition embeddedV4 (ip : Addr) : option Addr := embedded_in embeddedV4Prefixes ip.

(** The recursion: an IPv4 address carries no other, so that two levels are enough. *)
Fixpoint blocked_level (levels : nat) (ip : Addr) : bool :=
  match levels with
  | O => true
  | S levels =>
      if negb (IsValid ip) then true
      else
        let ip := Unmap ip in
        if IsLoopback ip || IsUnspecified ip || IsPrivate ip || IsLinkLocalUnicast ip || IsLinkLocalMulticast ip || IsInterfaceLocalMulticast ip || IsMulticast ip then true
        else if existsb (λ p, Contains p ip) blockedPrefixes then true
        else match embeddedV4 ip with Some v4 => blocked_level levels v4 | None => false end
  end.
Definition blockedIP (ip : Addr) : bool := blocked_level 2 ip.

(** [true] refuses the connection. *)
Definition guardDialControl (address : bytes) : bool :=
  match ParseAddrPort address with None => true | Some (a, _) => blockedIP a end.

Example guard_examples :
  forallb (λ s, guardDialControl (bs s))
    ["127.0.0.1:80"; "[::1]:80"; "[::]:80"; "100.100.100.200:80"; "[::ffff:10.0.0.1]:80"; "[64:ff9b::a00:1]:80"; "[64:ff9b:1::1]:80"; "[2002:0a00:0001::]:80"; "[::a00:1]:80"; "[fe80::1%eth0]:80"; "x"] = true ∧
  existsb (λ s, guardDialControl (bs s)) ["8.8.8.8:443"; "[2606:4700:4700::1111]:443"; "100.63.255.255:1"; "100.128.0.1:1"; "[2002:0808:0808::]:1"; "[64:ff9b::808:808]:1"] = false.
Proof. by vm_compute. Qed.

(** ** Public addresses *)

Definition ip4 (a b c d : Z) : Z := ((a * 256 + b) * 256 + c) * 256 + d.
Definition within_range (n : Z) (r : Z * Z) : Prop := r.1 ≤ n ≤ r.2.

(** The ranges that are not public: this network, private, shared and loopback addresses,
    link-local ones, protocol assignments, benchmarking, multicast and reserved. *)
Definition special4 : list (Z * Z) :=
  [(ip4 0 0 0 0, ip4 0 255 255 255); (ip4 10 0 0 0, ip4 10 255 255 255); (ip4 100 64 0 0, ip4 100 127 255 255); (ip4 127 0 0 0, ip4 127 255 255 255);
   (ip4 169 254 0 0, ip4 169 254 255 255); (ip4 172 16 0 0, ip4 172 31 255 255); (ip4 192 0 0 0, ip4 192 0 0 255); (ip4 192 168 0 0, ip4 192 168 255 255);
   (ip4 198 18 0 0, ip4 198 19 255 255); (ip4 224 0 0 0, ip4 239 255 255 255); (ip4 240 0 0 0, ip4 255 255 255 255)].
(** 64:ff9b:1::/48, fc00::/7, fe80::/10 and ff00::/8 by their leading fields. *)
Definition special6 : list (Z * Z) :=
  [(100 * 2 ^ 112 + 65435 * 2 ^ 96 + 1 * 2 ^ 80, 100 * 2 ^ 112 + 65435 * 2 ^ 96 + 2 * 2 ^ 80 - 1); (64512 * 2 ^ 112, 65024 * 2 ^ 112 - 1);
   (65152 * 2 ^ 112, 65216 * 2 ^ 112 - 1); (65280 * 2 ^ 112, 2 ^ 128 - 1)].
Definition outside (ranges : list (Z * Z)) (n : Z) : Prop := Forall (λ r, ¬ within_range n r) ranges.

(** An IPv6 address carries an IPv4 one: mapped, NAT64, six-to-four or compatible. *)
Definition carries (n m : Z) : Prop :=
  0 ≤ m < 2 ^ 32 ∧ (n = 65535 * 2 ^ 32 + m ∨ n = 100 * 2 ^ 112 + 65435 * 2 ^ 96 + m ∨ n / 2 ^ 80 = 8194 * 2 ^ 32 + m ∨ n = m).
Definition public (a : Addr) : Prop :=
  match a with
  | AddrNone => False
  | Addr4 n => outside special4 n
  | Addr6 n _ => outside special6 n ∧ ∀ m, carries n m → outside special4 m
  end.

Lemma div_range n d q : 0 < d → n / d = q ↔ q * d ≤ n < (q + 1) * d.
Proof.
  intros Hd. pose proof (Z.div_mod n d ltac:(lia)). pose proof (Z.mod_pos_bound n d Hd). split; [intros <-; nia|]. intros H'.
  symmetry. apply (Z.div_unique n d q (n - q * d)); lia.
Qed.
Lemma div_range_b n d q : 0 < d → (n / d =? q) = (q * d <=? n) && (n <? (q + 1) * d).
Proof. intros Hd. apply eq_true_iff_eq. rewrite andb_true_iff, Z.eqb_eq, Z.leb_le, Z.ltb_lt. by apply div_range. Qed.

Lemma div_pair_b n d k q r : 0 < d → 0 < k → 0 ≤ r < k → (n / (d * k) =? q) && (n / d mod k =? r) = (n / d =? q * k + r).
Proof.
  intros Hd Hk Hr. rewrite <- Z.div_div by lia. pose proof (Z.div_mod (n / d) k ltac:(lia)). apply eq_true_iff_eq. rewrite andb_true_iff, !Z.eqb_eq. split; [nia|].
  intros E. rewrite E in *. rewrite (Z.add_comm (q * k)), Z.div_add, Z.mod_add by lia. rewrite Z.div_small, Z.mod_small by lia. lia.
Qed.

(** A test of a masked prefix. *)
Lemma masked_range n q d : 0 < d → q mod d = 0 → (n / d =? q / d) = (q <=? n) && (n <? q + d).
Proof. intros Hd Hq. rewrite div_range_b by done. pose proof (Z.div_mod q d ltac:(lia)). f_equal; f_equal; lia. Qed.
Lemma Contains4 n q bits : 0 ≤ bits ≤ 32 → 0 ≤ q < 2 ^ 32 → q mod 2 ^ (32 - bits) = 0 →
  Contains {| p_Addr := Addr4 q; p_Bits := bits |} (Addr4 n) = (q <=? n) && (n <? q + 2 ^ (32 - bits)).
Proof.
  intros Hb Hq Hm. rewrite <- masked_range by (done || apply Z.pow_pos_nonneg; lia). apply eq_true_iff_eq. rewrite Contains_iff by (by repeat split; cbn; lia).
  unfold tail_bits. cbn. rewrite Z.eqb_eq. naive_solver.
Qed.
Lemma Contains6 n q bits : 0 ≤ bits ≤ 128 → 0 ≤ q < 2 ^ 128 → q mod 2 ^ (128 - bits) = 0 →
  Contains {| p_Addr := Addr6 q []; p_Bits := bits |} (Addr6 n []) = (q <=? n) && (n <? q + 2 ^ (128 - bits)).
Proof.
  intros Hb Hq Hm. rewrite <- masked_range by (done || apply Z.pow_pos_nonneg; lia). apply eq_true_iff_eq. rewrite Contains_iff by (by repeat split; cbn; lia).
  unfold tail_bits. cbn. rewrite Z.eqb_eq. naive_solver.
Qed.
Lemma Contains46 n q bits : Contains {| p_Addr := Addr6 q []; p_Bits := bits |} (Addr4 n) = false.
Proof. unfold Contains. cbn. by rewrite andb_false_r. Qed.
Lemma Contains64 n q bits : Contains {| p_Addr := Addr4 q; p_Bits := bits |} (Addr6 n []) = false.
Proof. unfold Contains. cbn. by rewrite andb_false_r. Qed.

Lemma blockedPrefixes_eq : blockedPrefixes =
  [{| p_Addr := Addr4 0; p_Bits := 8 |}; {| p_Addr := Addr4 (ip4 100 64 0 0); p_Bits := 10 |}; {| p_Addr := Addr4 (ip4 192 0 0 0); p_Bits := 24 |};
   {| p_Addr := Addr4 (ip4 198 18 0 0); p_Bits := 15 |}; {| p_Addr := Addr4 (ip4 240 0 0 0); p_Bits := 4 |};
   {| p_Addr := Addr6 (100 * 2 ^ 112 + 65435 * 2 ^ 96 + 1 * 2 ^ 80) []; p_Bits := 48 |}].
Proof. by vm_compute. Qed.
Lemma embeddedV4Prefixes_eq : embeddedV4Prefixes =
  [{| p_Addr := Addr6 (100 * 2 ^ 112 + 65435 * 2 ^ 96) []; p_Bits := 96 |}; {| p_Addr := Addr6 (8194 * 2 ^ 112) []; p_Bits := 16 |}; {| p_Addr := Addr6 0 []; p_Bits := 96 |}].
Proof. by vm_compute. Qed.

(** ** IPv4 *)

Ltac constants := repeat match goal with
  | |- context [2 ^ ?k] => let v := eval vm_compute in (2 ^ k) in change (2 ^ k) with v in *
  | H : context [2 ^ ?k] |- _ => let v := eval vm_compute in (2 ^ k) in change (2 ^ k) with v in *
  end.

(** The tests by bytes are tests of ranges. *)
Lemma v4_range n : 0 ≤ n < 2 ^ 32 →
  (∀ q, (v4 n 0 =? q) = (q * 2 ^ 24 <=? n) && (n <? (q + 1) * 2 ^ 24)) ∧
  (∀ q r, 0 ≤ r < 256 → (v4 n 0 =? q) && (v4 n 1 =? r) = ((q * 256 + r) * 2 ^ 16 <=? n) && (n <? (q * 256 + r + 1) * 2 ^ 16)) ∧
  (∀ q r, 0 ≤ r < 16 → (v4 n 0 =? q) && (v4 n 1 / 16 =? r) = ((q * 16 + r) * 2 ^ 20 <=? n) && (n <? (q * 16 + r + 1) * 2 ^ 20)) ∧
  ∀ q, (v4 n 0 / 16 =? q) = (q * 2 ^ 28 <=? n) && (n <? (q + 1) * 2 ^ 28).
Proof.
  intros Hn. assert (v4 n 0 = n / 2 ^ 24) as E0.
  { unfold v4. change (24 - 8 * 0) with 24. apply Z.mod_small. constants. Z.to_euclidean_division_equations. lia. }
  assert (v4 n 1 / 16 = n / 2 ^ 20 mod 16) as E1 by (unfold v4; change (24 - 8 * 1) with 16; constants; Z.to_euclidean_division_equations; lia).
  rewrite E0, E1. unfold v4. change (24 - 8 * 1) with 16. split_and!.
  - intros q. by rewrite div_range_b by lia.
  - intros q r Hr. change (2 ^ 24) with (2 ^ 16 * 256). rewrite div_pair_b by lia. by rewrite div_range_b by lia.
  - intros q r Hr. change (2 ^ 24) with (2 ^ 20 * 16). rewrite div_pair_b by lia. by rewrite div_range_b by lia.
  - intros q. rewrite Z.div_div by lia. by rewrite div_range_b by lia.
Qed.

Lemma blocked4_iff levels n : 0 ≤ n < 2 ^ 32 → blocked_level (S levels) (Addr4 n) = false ↔ outside special4 n.
Proof.
  intros Hn. destruct (v4_range n Hn) as (E0 & E1 & E2 & E3).
  assert (embeddedV4 (Addr4 n) = None) as Ee by (unfold embeddedV4; rewrite embeddedV4Prefixes_eq; cbn [embedded_in]; by rewrite !Contains46).
  cbn [blocked_level IsValid negb]. change (Unmap (Addr4 n)) with (Addr4 n). rewrite Ee, blockedPrefixes_eq. cbn [existsb].
  rewrite Contains46, !Contains4 by (vm_compute; intuition congruence).
  unfold IsLoopback, IsUnspecified, IsPrivate, IsLinkLocalUnicast, IsLinkLocalMulticast, IsInterfaceLocalMulticast, IsMulticast.
  rewrite !E1, !E2, !E3, !E0 by lia. clear E0 E1 E2 E3 Ee.
  assert (bool_decide (Addr4 n = Addr4 0) = (n =? 0)) as -> by (apply eq_true_iff_eq; rewrite bool_decide_eq_true, Z.eqb_eq; naive_solver).
  rewrite (bool_decide_eq_false_2 (Addr4 n = Addr6 0 [])) by done. unfold outside, special4, within_range, ip4. rewrite !Forall_cons, Forall_nil. cbn [fst snd].
  generalize (v4 n 2 =? 0). intros b. constants. destruct (_ || _) eqn:H1; [split; [done|lia]|]. destruct (_ || _) eqn:H2 in |- *; [split; [done|lia]|]. split; [lia|done].
Qed.

(** ** IPv6 *)

Definition in_b (lo hi n : Z) : bool := (lo <=? n) && (n <? hi).
Definition nat64 : Z := 100 * 2 ^ 112 + 65435 * 2 ^ 96.
Definition six_to_four : Z := 8194 * 2 ^ 112.

(** The address that is carried, by ranges. *)
Definition carried (n : Z) : option Z :=
  if in_b (65535 * 2 ^ 32) (65536 * 2 ^ 32) n then Some (n - 65535 * 2 ^ 32)
  else if in_b nat64 (nat64 + 2 ^ 32) n then Some (n - nat64)
  else if in_b six_to_four (8195 * 2 ^ 112) n then Some (n / 2 ^ 80 - 8194 * 2 ^ 32)
  else if in_b 0 (2 ^ 32) n then Some n else None.
Lemma carries_iff n m : 0 ≤ n < 2 ^ 128 → carries n m ↔ carried n = Some m.
Proof.
  intros Hn. unfold carries, carried, in_b, nat64, six_to_four. rewrite div_range by lia. pose proof (Z.div_mod n (2 ^ 80) ltac:(lia)). pose proof (Z.mod_pos_bound n (2 ^ 80) ltac:(lia)).
  set (q := n / 2 ^ 80) in *. constants. repeat match goal with |- context [if ?b then _ else _] => destruct b eqn:? end; (split; [intros (? & [?|[?|[?|?]]])|intros [= <-]]); try (f_equal; lia); lia.
Qed.

Lemma mapped_range n : 0 ≤ n < 2 ^ 128 → Is4In6 (Addr6 n []) = in_b (65535 * 2 ^ 32) (65536 * 2 ^ 32) n.
Proof. intros Hn. cbn [Is4In6]. rewrite Z.shiftr_div_pow2 by lia. by rewrite div_range_b by lia. Qed.

Lemma embedded_carried n : 0 ≤ n < 2 ^ 128 → in_b (65535 * 2 ^ 32) (65536 * 2 ^ 32) n = false → embeddedV4 (Addr6 n []) = Addr4 <$> carried n.
Proof.
  intros Hn Hm. unfold embeddedV4. rewrite embeddedV4Prefixes_eq. cbn [embedded_in p_Bits addr_bits]. rewrite !Contains6 by (vm_compute; intuition congruence).
  unfold carried. rewrite Hm. change (in_b nat64 (nat64 + 2 ^ 32) n) with ((nat64 <=? n) && (n <? nat64 + 2 ^ (128 - 96))). change (100 * 2 ^ 112 + 65435 * 2 ^ 96) with nat64.
  assert (∀ k, k mod 2 ^ 32 = 0 → in_b k (k + 2 ^ 32) n = true → n mod 2 ^ 32 = n - k) as Hmod.
  { intros k Hk [H1%Z.leb_le H2%Z.ltb_lt]%andb_true_iff. pose proof (Z.div_mod k (2 ^ 32) ltac:(lia)).
    rewrite (Z.mod_unique n (2 ^ 32) (k / 2 ^ 32) (n - k)); [done|lia|lia]. }
  destruct ((nat64 <=? n) && _) eqn:E1; cbn [negb].
  { cbn. by rewrite (Hmod nat64 (eq_refl _) E1). }
  change (2 ^ (128 - 16)) with (2 ^ 112). change (8194 * 2 ^ 112) with six_to_four. change (8195 * 2 ^ 112) with (six_to_four + 2 ^ 112).
  change (in_b six_to_four (six_to_four + 2 ^ 112) n) with ((six_to_four <=? n) && (n <? six_to_four + 2 ^ 112)).
  destruct ((six_to_four <=? n) && _) eqn:E2; cbn [negb].
  { change (16 =? 16) with true. cbn. do 2 f_equal. apply andb_true_iff in E2 as [H1%Z.leb_le H2%Z.ltb_lt]. symmetry. apply (Z.mod_unique _ _ 8194); [|lia].
    assert (8194 * 2 ^ 32 ≤ n / 2 ^ 80) by (apply Z.div_le_lower_bound; unfold six_to_four in *; lia).
    assert (n / 2 ^ 80 < 8195 * 2 ^ 32) by (apply Z.div_lt_upper_bound; unfold six_to_four in *; lia). lia. }
  change (in_b 0 (2 ^ 32) n) with ((0 <=? n) && (n <? 0 + 2 ^ (128 - 96))). destruct ((0 <=? n) && _) eqn:E3; cbn [negb]; [|done].
  change (96 =? 16) with false. cbn. do 2 f_equal. rewrite (Hmod 0); [lia|done|exact E3].
Qed.

Lemma lead_range n bits q : 0 ≤ bits ≤ 128 → (lead n bits =? q) = (q * 2 ^ (128 - bits) <=? n) && (n <? (q + 1) * 2 ^ (128 - bits)).
Proof. intros Hb. unfold lead. apply div_range_b. apply Z.pow_pos_nonneg; lia. Qed.

(** The checks that do not look at what is carried. *)
Lemma classes6 n levels : 0 ≤ n < 2 ^ 128 → in_b (65535 * 2 ^ 32) (65536 * 2 ^ 32) n = false →
  blocked_level (S levels) (Addr6 n []) = false ↔ outside special6 n ∧ n ≠ 0 ∧ n ≠ 1 ∧ match carried n with Some m => blocked_level levels (Addr4 m) = false | None => True end.
Proof.
  intros Hn Hm. cbn [blocked_level IsValid negb]. unfold Unmap. rewrite mapped_range, Hm by done. cbv iota zeta. rewrite embedded_carried by done.
  rewrite blockedPrefixes_eq. cbn [existsb]. rewrite !Contains64, Contains6 by (vm_compute; intuition congruence).
  unfold IsLoopback, IsUnspecified, IsPrivate, IsLinkLocalUnicast, IsLinkLocalMulticast, IsInterfaceLocalMulticast, IsMulticast. rewrite !lead_range by lia.
  assert (bool_decide (Addr6 n [] = Addr6 0 []) = (n =? 0)) as -> by (apply eq_true_iff_eq; rewrite bool_decide_eq_true, Z.eqb_eq; naive_solver).
  rewrite (bool_decide_eq_false_2 (Addr6 n [] = Addr4 0)) by done. generalize (lead n 16 mod 16 =? 2) (lead n 16 mod 16 =? 1). intros b b'.
  unfold outside, special6, within_range. rewrite !Forall_cons, Forall_nil. cbn [fst snd]. clear Hm. constants.
  destruct (_ || _) eqn:H1; [split; [done|intros (? & ? & ? & _); lia]|]. destruct (_ || _) eqn:H2 in |- *; [split; [done|intros (? & ? & ? & _); lia]|].
  destruct (carried n); cbn [fmap option_fmap option_map]; (split; [intros Hl|by intros (_ & _ & _ & ?)]); (split; [split_and!; [lia..|done]|split_and!; [lia|lia|done]]).
Qed.

Lemma blocked6_iff n : 0 ≤ n < 2 ^ 128 → blockedIP (Addr6 n []) = false ↔ public (Addr6 n []).
Proof.
  intros Hn. unfold blockedIP, public. setoid_rewrite (carries_iff n _ Hn). destruct (in_b (65535 * 2 ^ 32) (65536 * 2 ^ 32) n) eqn:Em.
  - assert (blocked_level 2 (Addr6 n []) = blocked_level 2 (Addr4 (n mod 2 ^ 32))) as ->.
    { assert (Unmap (Addr6 n []) = Addr4 (n mod 2 ^ 32)) as E by (unfold Unmap; rewrite mapped_range, Em by done; reflexivity).
      cbn [blocked_level IsValid negb]. rewrite E. reflexivity. }
    rewrite blocked4_iff by (apply Z.mod_pos_bound; lia). apply andb_true_iff in Em as Hm. destruct Hm as [H1%Z.leb_le H2%Z.ltb_lt].
    assert (n mod 2 ^ 32 = n - 65535 * 2 ^ 32) as -> by (symmetry; apply (Z.mod_unique _ _ 65535); lia).
    assert (outside special6 n) by (unfold outside, special6, within_range; rewrite !Forall_cons, Forall_nil; cbn [fst snd]; split_and!; lia).
    unfold carried. rewrite Em. naive_solver.
  - rewrite classes6 by done. assert (∀ m, carried n = Some m → 0 ≤ m < 2 ^ 32) as Hc by (intros m; rewrite <- carries_iff by done; by intros [? _]).
    assert (carried n = Some n → outside special4 n → n ≠ 0 ∧ n ≠ 1) as H01.
    { intros _. unfold outside, special4, within_range, ip4. rewrite !Forall_cons. cbn [fst snd]. lia. }
    assert ((n = 0 ∨ n = 1) → carried n = Some n) as Hs by (by intros [->| ->]; vm_compute).
    destruct (carried n) as [m|] eqn:Ec; [rewrite blocked4_iff by auto|]; [|naive_solver]. split; [naive_solver|]. intros [Ho Hm]. specialize (Hm m eq_refl). split; [done|].
    destruct (decide (n = 0 ∨ n = 1)) as [Hd|]; [|naive_solver]. specialize (Hs Hd). simplify_eq. destruct (H01 eq_refl Hm). done.
Qed.

(** C22: the guard of the dialer is exact for addresses without a zone: it passes a target
    exactly when it parses and its address is public, that is, an IPv4 address outside of
    the special ranges, or an IPv6 address outside of the special ranges that does not
    carry, mapped, by NAT64, by six-to-four or compatible, an IPv4 address within one. *)
Theorem guard_public address a port :
  ParseAddrPort address = Some (a, port) → Zone a = [] → guardDialControl address = false ↔ public a.
Proof.
  intros Hp Hz. unfold guardDialControl. rewrite Hp. apply ParseAddrPort_ok in Hp. destruct a as [|n|n zone]; [done| |cbn in Hz; subst zone; by apply blocked6_iff].
  by apply blocked4_iff.
Qed.

Lemma guard_public_witness : guardDialControl (bs "[2002:0a00:0001::]:443") = true ∧ (guardDialControl (bs "93.184.216.34:443") = false ↔ public (Addr4 1572395042)).
Proof. split; [vm_compute; reflexivity|]. apply (guard_public (bs "93.184.216.34:443") (Addr4 1572395042) 443); vm_compute; reflexivity. Defined.

(** With a zone no prefix contains the address: what NAT64 delivers to the metadata
    address 169.254.169.254, and the unspecified address, pass the guard. *)
Example zoned_targets_pass :
  guardDialControl (bs "[64:ff9b::a9fe:a9fe]:80") = true ∧ guardDialControl (bs "[64:ff9b::a9fe:a9fe%eth0]:80") = false ∧
  guardDialControl (bs "[::]:80") = true ∧ guardDialControl (bs "[::%eth0]:80") = false.
Proof. by vm_compute. Qed.
