(* ===== verification/StateWriter.v ===== *)
(** * The state writer

    internal/action/statewriter.go: the queue in memory through which state changes reach
    the database, with back pressure, spilling, batches, retries, the splitting of
    rejected batches and the batch that is kept while the database is unavailable.
    Enqueuers, flushes and the loop of the writer are programs of calls that run side by
    side; a section under a mutex is one call.  The theorems show that every change is
    accounted for in every interleaving, and what a flush writes and drops. *)

From S2P Require Import Prelude GoStrings PolicySignal PolicyAction Effects StateRows.

#[local] Open Scope Z_scope.
#[local] Open Scope prog_scope.

(** ** The queue *)

(** The items before the head have been taken. *)
Record fifo := { q_items : list StateChange; q_head : nat }.

Definition zeroChange : StateChange :=
  {| sc_ID := ""; sc_At := zeroTime; sc_TenantID := ""; sc_NamespaceID := ""; sc_SiteID := ""; sc_SubjectKind := ""; sc_SubjectID := ""; sc_SubjectKey := 0;
     sc_EndpointGroupID := ""; sc_FromState := ""; sc_ToState := ""; sc_Action := ""; sc_Scope := ""; sc_Until := None; sc_Permanent := false; sc_Outcome := "";
     sc_PolicyID := ""; sc_PolicyVersion := 0; sc_Rule := ""; sc_ReportID := ""; sc_LeaseID := ""; sc_Actor := ""; sc_Reason := ""; sc_Shadow := false;
     sc_Details := ""; sc_UpdateSubject := false; sc_StateReason := "" |}.

Definition fifo_len (q : fifo) : Z := Z.of_nat (length (q_items q)) - Z.of_nat (q_head q).
Definition fifo_push (v : StateChange) (q : fifo) : fifo := {| q_items := q_items q ++ [v]; q_head := q_head q |}.
(** [None]: the index is out of range, and the code panics. *)
Definition fifo_pop (q : fifo) : option (StateChange * fifo) :=
  match q_items q !! q_head q with
  | None => None
  | Some v =>
      let items := <[q_head q := zeroChange]> (q_items q) in
      let head := S (q_head q) in
      Some (v,
        if (head =? length items)%nat then {| q_items := []; q_head := 0 |}
        else if (1024 <? head)%nat && (length items <? head * 2)%nat then {| q_items := drop head items; q_head := 0 |}
        else {| q_items := items; q_head := head |})
  end.
Fixpoint pop_up_to (n : nat) (q : fifo) : list StateChange * fifo :=
  match n with
  | O => ([], q)
  | S n =>
      if 0 <? fifo_len q then match fifo_pop q with Some (v, q) => let '(l, q) := pop_up_to n q in (v :: l, q) | None => ([], q) end
      else ([], q)
  end.

(** ** State *)

(** The fields that [NewStateWriter] sets and that do not change. *)
Record Config := { cf_capacity : Z; cf_batchSize : Z; cf_maxAttempts : nat }.
Definition defaultConfig : Config := {| cf_capacity := 100000; cf_batchSize := 500; cf_maxAttempts := 5 |}.

(** A channel that is closed and replaced is a number: the ones below [w_space] are
    closed.  [w_flushMu] is held by a goroutine, of which [None] will not run again. *)
Record Writer := {
  w_lifecycle : fifo; w_events : fifo; w_space : nat; w_waiters : Z; w_closed : bool; w_kick : bool;
  w_flushMu : option (option nat); w_carry : list StateChange;
  w_carried : Z; w_queued : Z; w_dropped : Z; w_spilled : Z; w_written : Z;
}.

(** Why a change is lost: spilled from a full queue, not enqueued, or rejected. *)
Inductive Loss := loss_spilled | loss_refused | loss_rejected (err : goError).

(** A context is the one of a goroutine, or the one that it made for its shutdown. *)
Definition Ctx : Type := nat * bool.

(** The writer, the tables and the contexts that are done; then, for the specification,
    the changes that were offered, written and lost, the ones in the hands of a goroutine
    and the channels that goroutines wait for. *)
Record World := {
  o_w : Writer; o_db : Tables; o_done : gmap Ctx goError;
  o_offered : list StateChange; o_stored : list StateChange; o_lost : list (StateChange * Loss);
  o_hands : list (option nat * StateChange); o_waiting : list (option nat * nat);
}.

Definition hand (t : nat) (g : World) : list StateChange := (filter (λ x, x.1 = Some t) (o_hands g)).*2.
Definition give (t : nat) (l : list StateChange) (hands : list (option nat * StateChange)) : list (option nat * StateChange) :=
  ((λ c, (Some t, c)) <$> l) ++ filter (λ x, x.1 ≠ Some t) hands.

(** ** Critical sections *)

Definition set_queues (lifecycle events : fifo) (kick : bool) (w : Writer) : Writer :=
  {| w_lifecycle := lifecycle; w_events := events; w_space := w_space w; w_waiters := w_waiters w; w_closed := w_closed w; w_kick := kick;
     w_flushMu := w_flushMu w; w_carry := w_carry w; w_carried := w_carried w; w_queued := fifo_len lifecycle + fifo_len events;
     w_dropped := w_dropped w; w_spilled := w_spilled w; w_written := w_written w |}.
Definition set_wait (space : nat) (waiters : Z) (closed kick : bool) (w : Writer) : Writer :=
  {| w_lifecycle := w_lifecycle w; w_events := w_events w; w_space := space; w_waiters := waiters; w_closed := closed; w_kick := kick;
     w_flushMu := w_flushMu w; w_carry := w_carry w; w_carried := w_carried w; w_queued := w_queued w;
     w_dropped := w_dropped w; w_spilled := w_spilled w; w_written := w_written w |}.
Definition set_carry (carry : list StateChange) (w : Writer) : Writer :=
  {| w_lifecycle := w_lifecycle w; w_events := w_events w; w_space := w_space w; w_waiters := w_waiters w; w_closed := w_closed w; w_kick := w_kick w;
     w_flushMu := w_flushMu w; w_carry := carry; w_carried := Z.of_nat (length carry); w_queued := w_queued w;
     w_dropped := w_dropped w; w_spilled := w_spilled w; w_written := w_written w |}.
Definition set_mu (mu : option (option nat)) (w : Writer) : Writer :=
  {| w_lifecycle := w_lifecycle w; w_events := w_events w; w_space := w_space w; w_waiters := w_waiters w; w_closed := w_closed w; w_kick := w_kick w;
     w_flushMu := mu; w_carry := w_carry w; w_carried := w_carried w; w_queued := w_queued w;
     w_dropped := w_dropped w; w_spilled := w_spilled w; w_written := w_written w |}.
Definition add_counts (dropped spilled written : Z) (w : Writer) : Writer :=
  {| w_lifecycle := w_lifecycle w; w_events := w_events w; w_space := w_space w; w_waiters := w_waiters w; w_closed := w_closed w; w_kick := w_kick w;
     w_flushMu := w_flushMu w; w_carry := w_carry w; w_carried := w_carried w; w_queued := w_queued w;
     w_dropped := w_dropped w + dropped; w_spilled := w_spilled w + spilled; w_written := w_written w + written |}.

Definition signalFlush (w : Writer) : Writer := set_wait (w_space w) (w_waiters w) (w_closed w) true w.

Section writer.
Variable cfg : Config.

Definition push (c : StateChange) (lifecycle : bool) (w : Writer) : Writer :=
  let l := if lifecycle then fifo_push c (w_lifecycle w) else w_lifecycle w in
  let e := if lifecycle then w_events w else fifo_push c (w_events w) in
  set_queues l e (w_kick w || (cf_batchSize cfg <=? fifo_len l + fifo_len e)) w.

(** What the section of [enqueue] decides. *)
Inductive Offer := of_pushed | of_spilled (oldest : StateChange) | of_full | of_stopped | of_wait (space : nat).
(** [None]: a panic. *)
Definition offer (c : StateChange) (w : Writer) : option (Offer * Writer) :=
  let lifecycle := isLifecycleChange c in
  if fifo_len (w_lifecycle w) + fifo_len (w_events w) <? cf_capacity cfg then Some (of_pushed, push c lifecycle w)
  else if 0 <? fifo_len (w_events w) then
    '(oldest, events) ← fifo_pop (w_events w); Some (of_spilled oldest, push c lifecycle (set_queues (w_lifecycle w) events (w_kick w) w))
  else if negb lifecycle then Some (of_full, w)
  else if w_closed w then Some (of_stopped, w)
  else Some (of_wait (w_space w), set_wait (w_space w) (w_waiters w + 1) (w_closed w) (w_kick w) w).

Definition drain (w : Writer) : list StateChange * Writer :=
  let n := Z.to_nat (Z.min (cf_batchSize cfg) (fifo_len (w_lifecycle w) + fifo_len (w_events w))) in
  if (n =? 0)%nat then ([], w)
  else
    let '(batch, lifecycle) := pop_up_to n (w_lifecycle w) in
    let '(rest, events) := pop_up_to (n - length batch) (w_events w) in
    let w := set_queues lifecycle events (w_kick w) w in
    (batch ++ rest, if 0 <? w_waiters w then set_wait (S (w_space w)) (w_waiters w) (w_closed w) (w_kick w) w else w).

Definition open_writer (w : Writer) : Writer := set_wait (w_space w) (w_waiters w) false (w_kick w) w.
Definition close_writer (w : Writer) : Writer := set_wait (S (w_space w)) (w_waiters w) true (w_kick w) w.

(** ** Calls *)

Inductive Selected := sel_space | sel_ctx | sel_deadline.
Inductive Wake := wake_stop | wake_flush.

Inductive wcmd : Type → Type :=
| x_begin (c : StateChange) : wcmd unit
| x_offer (c : StateChange) : wcmd Offer
| x_countLoss (spill : bool) : wcmd unit
| x_signal : wcmd unit
| x_select (space : nat) (ctx : Ctx) (timed : bool) : wcmd Selected
| x_unwait : wcmd unit
| x_err (ctx : Ctx) : wcmd (option goError)
| x_lock : wcmd unit
| x_unlock : wcmd unit
| x_takeCarry : wcmd (list StateChange)
| x_keepCarry (batch : list StateChange) : wcmd unit
| x_drain : wcmd (list StateChange)
| x_lookup (kind : string) (keys : list Z) : wcmd (result goError (gmap Z string))
| x_tx (changes : list StateChange) : wcmd (option goError)
| x_written (n : nat) : wcmd unit
| x_dropBatch (n : nat) (err : goError) : wcmd unit
| x_sleep (ctx : Ctx) : wcmd (option goError)
| x_carried : wcmd Z
| x_queued : wcmd Z
| x_open : wcmd unit
| x_close : wcmd unit
| x_wait (ctx : Ctx) (kick : bool) : wcmd Wake.

(** ** Enqueueing *)

(** The loop waits an unlimited number of times; the program ends after [loops]. *)
Fixpoint enqueue_loop (loops : nat) (ctx : Ctx) (timed : bool) (c : StateChange) : prog wcmd (option bool) :=
  match loops with
  | O => Ret None
  | S loops =>
      o <- call (x_offer c) ;;
      match o with
      | of_pushed => Ret (Some true)
      | of_spilled _ => call (x_countLoss true) ;; Ret (Some true)
      | of_full => call (x_countLoss true) ;; Ret (Some true)
      | of_stopped => call (x_countLoss false) ;; Ret (Some false)
      | of_wait space =>
          call x_signal ;;
          s <- call (x_select space ctx timed) ;;
          call x_unwait ;;
          match s with
          | sel_space => enqueue_loop loops ctx timed c
          | _ => call (x_countLoss false) ;; Ret (Some false)
          end
      end
  end.
(** [enqueue]: [false] when it returns an error. *)
Definition enqueue (loops : nat) (newID : string) (now : Z) (ctx : Ctx) (timed : bool) (c : StateChange) : prog wcmd (option bool) :=
  let c := StateChange_normalize newID now c in
  call (x_begin c) ;; enqueue_loop loops ctx timed c.

(** The changes of a report, under one context; with the ids and times for the ones that
    have none. *)
Fixpoint Executor_enqueue (loops : nat) (ctx : Ctx) (changes : list (string * Z * StateChange)) : prog wcmd unit :=
  match changes with
  | [] => Ret tt
  | (newID, now, c) :: changes =>
      r <- enqueue loops newID now ctx false c ;;
      match r with None => Ret tt | Some _ => Executor_enqueue loops ctx changes end
  end.

(** ** Writing *)

(** The changes whose subject is to be looked up. *)
Definition missing (batch : list StateChange) : list StateChange := filter (λ c, sc_SubjectID c = "" ∧ 0 < sc_SubjectKey c) batch.

Definition lookupIDsByKeys (kind : string) (keys : list Z) : prog wcmd (result goError (gmap Z string)) :=
  if bool_decide (kind ∈ [SubjectIdentity; SubjectAccount; SubjectProxy]) then call (x_lookup kind keys) else Ret (Ok ∅).
Fixpoint resolve_kinds (batch : list StateChange) (kinds : list string) (resolved : gmap string (gmap Z string)) :
    prog wcmd (result goError (gmap string (gmap Z string))) :=
  match kinds with
  | [] => Ret (Ok resolved)
  | kind :: kinds =>
      r <- lookupIDsByKeys kind (sc_SubjectKey <$> filter (λ c, sc_SubjectKind c = kind) (missing batch)) ;;
      match r with Err e => Ret (Err e) | Ok ids => resolve_kinds batch kinds (<[kind := ids]> resolved) end
  end.
Definition resolve_one (resolved : gmap string (gmap Z string)) (c : StateChange) : option StateChange :=
  if String.eqb (sc_SubjectID c) "" then
    let id := default "" (ids ← resolved !! sc_SubjectKind c; ids !! sc_SubjectKey c) in
    if String.eqb id "" then None else Some (set_subject id c)
  else Some c.
Definition resolveSubjects (batch : list StateChange) : prog wcmd (result goError (list StateChange)) :=
  let kinds := remove_dups (sc_SubjectKind <$> missing batch) in
  if bool_decide (kinds = []) then Ret (Ok batch)
  else
    r <- resolve_kinds batch kinds ∅ ;;
    match r with Err e => Ret (Err e) | Ok resolved => Ret (Ok (omap (resolve_one resolved) batch)) end.

Definition writeBatch (batch : list StateChange) : prog wcmd (option goError) :=
  r <- resolveSubjects batch ;;
  match r with Err e => Ret (Some e) | Ok changes => call (x_tx changes) end.
Definition writeOnce (batch : list StateChange) : prog wcmd (option goError) :=
  r <- writeBatch batch ;;
  match r with Some e => Ret (Some e) | None => call (x_written (length batch)) ;; Ret None end.

(** [errors.Join]. *)
Definition join (a b : goError) : goError :=
  {| ge_pg := match ge_pg a with Some pg => Some pg | None => ge_pg b end; ge_connection := ge_connection a || ge_connection b;
     ge_text := ge_text a ++ [ascii_of_N 10] ++ ge_text b |}.
Definition Join (a : option goError) (b : goError) : goError := match a with None => b | Some a => join a b end.

(** The error after the last attempt wraps the one of the attempt, if there was one. *)
Definition attempts_error (err : option goError) : goError :=
  default {| ge_pg := None; ge_connection := false; ge_text := bs "write state changes" |} err.
Fixpoint retry_loop (attempts : nat) (ctx : Ctx) (batch : list StateChange) (err : option goError) : prog wcmd (option goError) :=
  match attempts with
  | O => Ret (Some (attempts_error err))
  | S attempts =>
      d <- call (x_err ctx) ;;
      match d with
      | Some cerr => Ret (Some (Join err cerr))
      | None =>
          r <- writeOnce batch ;;
          match r with
          | None => Ret None
          | Some e =>
              if isStateDBUnavailable e || (isStateDataError e && negb (isMissingPartition e)) then Ret (Some e)
              else if (attempts =? 0)%nat then Ret (Some (attempts_error (Some e)))
              else
                s <- call (x_sleep ctx) ;;
                match s with Some cerr => Ret (Some (join e cerr)) | None => retry_loop attempts ctx batch (Some e) end
          end
      end
  end.
Definition writeWithRetry (ctx : Ctx) (batch : list StateChange) : prog wcmd (option goError) := retry_loop (cf_maxAttempts cfg) ctx batch None.

(** The stack has its top first, so that [flatten] is [concat]. *)
Fixpoint salvage_loop (fuel : nat) (ctx : Ctx) (stack : list (list StateChange)) : prog wcmd (option goError) :=
  match fuel, stack with
  | O, _ | _, [] => Ret None
  | S fuel, part :: stack =>
      if (1 <? length part)%nat then
        let mid := (length part / 2)%nat in
        d <- call (x_err ctx) ;;
        match d with
        | Some cerr => call (x_keepCarry (concat (part :: stack))) ;; Ret (Some cerr)
        | None =>
            r <- writeOnce (take mid part) ;;
            match r with
            | Some e =>
                if isStateDBUnavailable e then call (x_keepCarry (concat (part :: stack))) ;; Ret (Some e)
                else salvage_loop fuel ctx (take mid part :: drop mid part :: stack)
            | None => salvage_loop fuel ctx (drop mid part :: stack)
            end
        end
      else
        r <- writeOnce part ;;
        match r with
        | Some e =>
            if isStateDBUnavailable e then call (x_keepCarry (concat (part :: stack))) ;; Ret (Some e)
            else call (x_dropBatch (length part) e) ;; salvage_loop fuel ctx stack
        | None => salvage_loop fuel ctx stack
        end
  end.
Definition salvage (ctx : Ctx) (batch : list StateChange) : prog wcmd (option goError) := salvage_loop (2 * length batch) ctx [batch].

Definition first (firstErr : option goError) (err : goError) : option goError := match firstErr with None => Some err | Some e => Some e end.
(** [None] when it is not finished after [loops] batches. *)
Fixpoint flush_loop (loops : nat) (ctx : Ctx) (firstErr : option goError) : prog wcmd (option (option goError)) :=
  match loops with
  | O => Ret None
  | S loops =>
      d <- call (x_err ctx) ;;
      match d with
      | Some cerr => Ret (Some (Some (Join firstErr cerr)))
      | None =>
          carry <- call x_takeCarry ;;
          batch <- (if bool_decide (carry = []) then call x_drain else Ret carry) ;;
          if bool_decide (batch = []) then Ret (Some firstErr)
          else
            r <- writeWithRetry ctx batch ;;
            match r with
            | None => flush_loop loops ctx firstErr
            | Some err =>
                d <- call (x_err ctx) ;;
                if bool_decide (d ≠ None) || isStateDBUnavailable err then
                  call (x_keepCarry batch) ;; Ret (Some (Some (Join firstErr err)))
                else if isStateDataError err then
                  s <- salvage ctx batch ;;
                  match s with
                  | Some serr => Ret (Some (Some (join (Join firstErr err) serr)))
                  | None => flush_loop loops ctx (first firstErr err)
                  end
                else call (x_dropBatch (length batch) err) ;; flush_loop loops ctx (first firstErr err)
            end
      end
  end.
Definition Flush (loops : nat) (ctx : Ctx) : prog wcmd (option (option goError)) :=
  call x_lock ;;
  r <- flush_loop loops ctx None ;;
  match r with None => Ret None | Some err => call x_unlock ;; Ret (Some err) end.

(** ** The loop of the writer *)

Definition minUnavailableBackoff : Z := 200 * 10 ^ 6.
Definition maxUnavailableBackoff : Z := 5 * 10 ^ 9.
Definition next_backoff (carried prev : Z) : Z :=
  if carried =? 0 then 0 else Z.min (Z.max (prev * 2) minUnavailableBackoff) maxUnavailableBackoff.
Definition nextBackoff (prev : Z) : prog wcmd Z := carried <- call x_carried ;; Ret (next_backoff carried prev).

Definition Pending : prog wcmd Z := queued <- call x_queued ;; carried <- call x_carried ;; Ret (queued + carried).

Fixpoint shutdown_loop (loops flushes : nat) (t : nat) (backoff : Z) : prog wcmd (option unit) :=
  match loops with
  | O => Ret None
  | S loops =>
      r <- Flush flushes (t, true) ;;
      match r with
      | None => Ret None
      | Some _ =>
          pending <- Pending ;;
          if pending =? 0 then Ret (Some tt)
          else
            backoff <- nextBackoff backoff ;;
            let backoff := if backoff =? 0 then minUnavailableBackoff else backoff in
            s <- call (x_sleep (t, true)) ;;
            match s with Some _ => Ret (Some tt) | None => shutdown_loop loops flushes t backoff end
      end
  end.
Fixpoint run_loop (loops flushes : nat) (t : nat) (backoff : Z) : prog wcmd unit :=
  match loops with
  | O => Ret tt
  | S loops =>
      w <- call (x_wait (t, false) (bool_decide (backoff ≤ 0))) ;;
      match w with
      | wake_stop => r <- shutdown_loop loops flushes t 0 ;; match r with None => Ret tt | Some _ => call x_close end
      | wake_flush =>
          r <- Flush flushes (t, false) ;;
          match r with None => Ret tt | Some _ => backoff <- nextBackoff backoff ;; run_loop loops flushes t backoff end
      end
  end.
Definition Run (loops flushes : nat) (t : nat) : prog wcmd unit := call x_open ;; run_loop loops flushes t 0.

(** ** The machine *)

(** What becomes of a transaction: it commits, fails, or commits and its answer is an error. *)
Inductive TxFate := tx_ok | tx_failed (err : goError) | tx_unknown (err : goError).
(** What the scheduler and the services choose for a call. *)
Record Fate := { ft_select : Selected; ft_timer : bool; ft_lookup : option goError; ft_tx : TxFate; ft_ids : nat → string; ft_now : Z }.

Definition db_lookup (kind : string) (keys : list Z) (db : Tables) : gmap Z string :=
  let rows := if String.eqb kind SubjectIdentity then (λ x, (x.1, ir_hkey x.2)) <$> map_to_list (db_identities db)
              else if String.eqb kind SubjectAccount then (λ x, (x.1, ac_hkey x.2)) <$> map_to_list (db_accounts db)
              else (λ x, (x.1, px_hkey x.2)) <$> map_to_list (db_proxies db) in
  list_to_map ((λ x, (x.2, x.1)) <$> filter (λ x, x.2 ∈ keys) rows).

Definition on_writer (w : Writer) (g : World) : World :=
  {| o_w := w; o_db := o_db g; o_done := o_done g; o_offered := o_offered g; o_stored := o_stored g; o_lost := o_lost g; o_hands := o_hands g; o_waiting := o_waiting g |}.
Definition on_hand (t : nat) (l : list StateChange) (w : Writer) (g : World) : World :=
  {| o_w := w; o_db := o_db g; o_done := o_done g; o_offered := o_offered g; o_stored := o_stored g; o_lost := o_lost g; o_hands := give t l (o_hands g); o_waiting := o_waiting g |}.
Definition on_waiting (waiting : list (option nat * nat)) (w : Writer) (g : World) : World :=
  {| o_w := w; o_db := o_db g; o_done := o_done g; o_offered := o_offered g; o_stored := o_stored g; o_lost := o_lost g; o_hands := o_hands g; o_waiting := waiting |}.
Definition on_db (db : Tables) (g : World) : World :=
  {| o_w := o_w g; o_db := db; o_done := o_done g; o_offered := o_offered g; o_stored := o_stored g; o_lost := o_lost g; o_hands := o_hands g; o_waiting := o_waiting g |}.
Definition on_offered (t : nat) (c : StateChange) (g : World) : World :=
  {| o_w := o_w g; o_db := o_db g; o_done := o_done g; o_offered := c :: o_offered g; o_stored := o_stored g; o_lost := o_lost g; o_hands := give t [c] (o_hands g); o_waiting := o_waiting g |}.
(** The first [n] changes in the hands of the goroutine are written. *)
Definition on_written (t n : nat) (g : World) : World :=
  {| o_w := add_counts 0 0 (Z.of_nat n) (o_w g); o_db := o_db g; o_done := o_done g; o_offered := o_offered g; o_stored := o_stored g ++ take n (hand t g);
     o_lost := o_lost g; o_hands := give t (drop n (hand t g)) (o_hands g); o_waiting := o_waiting g |}.
Definition on_lost (t n : nat) (spilled : Z) (why : Loss) (g : World) : World :=
  {| o_w := add_counts (Z.of_nat n) spilled 0 (o_w g); o_db := o_db g; o_done := o_done g; o_offered := o_offered g; o_stored := o_stored g;
     o_lost := o_lost g ++ ((λ c, (c, why)) <$> take n (hand t g)); o_hands := give t (drop n (hand t g)) (o_hands g); o_waiting := o_waiting g |}.

(** A call that cannot go on yet has no answer.  The two counters of a loss are one call. *)
Definition exec_writer (t : nat) (X : Type) (fate : Fate) (c : wcmd X) (g : World) : option X * World :=
  let w := o_w g in
  match c in wcmd X return option X * World with
  | x_begin c => (Some tt, on_offered t c g)
  | x_offer c =>
      match offer c w with
      | None => (None, g)
      | Some (o, w) =>
          (Some o, match o with
                   | of_pushed => on_hand t [] w g
                   | of_spilled oldest => on_hand t [oldest] w g
                   | of_full | of_stopped => on_writer w g
                   | of_wait space => on_waiting ((Some t, space) :: o_waiting g) w g
                   end)
      end
  | x_countLoss spill => (Some tt, on_lost t 1 (if spill then 1 else 0) (if spill then loss_spilled else loss_refused) g)
  | x_signal => (Some tt, on_writer (signalFlush w) g)
  | x_select space ctx timed =>
      match ft_select fate with
      | sel_space => if (space <? w_space w)%nat then (Some sel_space, g) else (None, g)
      | sel_ctx => if bool_decide (is_Some (o_done g !! ctx)) then (Some sel_ctx, g) else (None, g)
      | sel_deadline => if timed then (Some sel_deadline, g) else (None, g)
      end
  | x_unwait => (Some tt, on_waiting (filter (λ x, x.1 ≠ Some t) (o_waiting g)) (set_wait (w_space w) (w_waiters w - 1) (w_closed w) (w_kick w) w) g)
  | x_err ctx => (Some (o_done g !! ctx), g)
  | x_lock => match w_flushMu w with None => (Some tt, on_writer (set_mu (Some (Some t)) w) g) | Some _ => (None, g) end
  | x_unlock => (Some tt, on_writer (set_mu None w) g)
  | x_takeCarry => (Some (w_carry w), on_hand t (w_carry w) (set_carry [] w) g)
  | x_keepCarry batch => (Some tt, on_hand t [] (set_carry batch w) g)
  | x_drain => let '(batch, w) := drain w in (Some batch, on_hand t batch w g)
  | x_lookup kind keys => match ft_lookup fate with Some e => (Some (Err e), g) | None => (Some (Ok (db_lookup kind keys (o_db g))), g) end
  | x_tx changes =>
      let db := write_tx (ft_ids fate) (ft_now fate) changes (o_db g) in
      match ft_tx fate with tx_ok => (Some None, on_db db g) | tx_failed e => (Some (Some e), g) | tx_unknown e => (Some (Some e), on_db db g) end
  | x_written n => (Some tt, on_written t n g)
  | x_dropBatch n err => (Some tt, on_lost t n 0 (loss_rejected err) g)
  | x_sleep ctx => if ft_timer fate then (Some None, g) else match o_done g !! ctx with Some e => (Some (Some e), g) | None => (None, g) end
  | x_carried => (Some (w_carried w), g)
  | x_queued => (Some (w_queued w), g)
  | x_open => (Some tt, on_writer (open_writer w) g)
  | x_close => (Some tt, on_writer (close_writer w) g)
  | x_wait ctx kick =>
      match ft_select fate with
      | sel_ctx => if bool_decide (is_Some (o_done g !! ctx)) then (Some wake_stop, g) else (None, g)
      | sel_space => if kick && w_kick w then (Some wake_flush, on_writer (set_wait (w_space w) (w_waiters w) (w_closed w) false w) g) else (None, g)
      | sel_deadline => (Some wake_flush, g)
      end
  end.

(** ** Goroutines *)

Inductive Job :=
| job_enqueue (loops : nat) (newID : string) (now : Z) (timed : bool) (c : StateChange)
| job_report (loops : nat) (changes : list (string * Z * StateChange))
| job_flush (loops : nat)
| job_run (loops flushes : nat).
Definition job_prog (t : nat) (j : Job) : prog wcmd unit :=
  match j with
  | job_enqueue loops newID now timed c => enqueue loops newID now (t, false) timed c ;; Ret tt
  | job_report loops changes => Executor_enqueue loops (t, false) changes
  | job_flush loops => Flush loops (t, false) ;; Ret tt
  | job_run loops flushes => Run loops flushes t
  end.
(** The ids that are drawn are not empty, and the clock is not at the zero time. *)
Definition job_ok (j : Job) : Prop :=
  match j with
  | job_enqueue _ newID now _ _ => newID ≠ "" ∧ now ≠ zeroTime
  | job_report _ changes => Forall (λ x, x.1.1 ≠ "" ∧ x.1.2 ≠ zeroTime) changes
  | _ => True
  end.

(** A goroutine that is not scheduled again keeps what it holds. *)
Definition orphan {A : Type} (t : nat) (x : option nat * A) : option nat * A := if decide (x.1 = Some t) then (None, x.2) else x.
Definition halt (t : nat) (g : World) : World :=
  {| o_w := if decide (w_flushMu (o_w g) = Some (Some t)) then set_mu (Some None) (o_w g) else o_w g; o_db := o_db g; o_done := o_done g;
     o_offered := o_offered g; o_stored := o_stored g; o_lost := o_lost g; o_hands := orphan t <$> o_hands g; o_waiting := orphan t <$> o_waiting g |}.

(** Contexts end, and others write to the tables, where events stay. *)
Inductive outside : World → World → Prop :=
| out_done ctx err g :
    o_done g !! ctx = None →
    outside g {| o_w := o_w g; o_db := o_db g; o_done := <[ctx := err]> (o_done g); o_offered := o_offered g; o_stored := o_stored g; o_lost := o_lost g;
                 o_hands := o_hands g; o_waiting := o_waiting g |}
| out_db db g : (∀ key, is_Some (db_events (o_db g) !! key) → is_Some (db_events db !! key)) → outside g (on_db db g).
End writer.

Definition new_writer : Writer :=
  {| w_lifecycle := {| q_items := []; q_head := 0 |}; w_events := {| q_items := []; q_head := 0 |}; w_space := 0; w_waiters := 0; w_closed := false;
     w_kick := false; w_flushMu := None; w_carry := []; w_carried := 0; w_queued := 0; w_dropped := 0; w_spilled := 0; w_written := 0 |}.
Definition new_world (db : Tables) : World :=
  {| o_w := new_writer; o_db := db; o_done := ∅; o_offered := []; o_stored := []; o_lost := []; o_hands := []; o_waiting := [] |}.

(** ** The contents of a queue *)

Definition contents (q : fifo) : list StateChange := drop (q_head q) (q_items q).
Definition fifo_wf (q : fifo) : Prop := (q_head q ≤ length (q_items q))%nat.

Lemma fifo_len_contents q : fifo_wf q → fifo_len q = Z.of_nat (length (contents q)).
Proof. unfold fifo_wf, fifo_len, contents. rewrite length_drop. lia. Qed.
Lemma fifo_push_wf v q : fifo_wf q → fifo_wf (fifo_push v q).
Proof. unfold fifo_wf, fifo_push. cbn. rewrite length_app. lia. Qed.
Lemma fifo_push_contents v q : fifo_wf q → contents (fifo_push v q) = contents q ++ [v].
Proof. unfold fifo_wf, contents, fifo_push. cbn. intros. by rewrite drop_app_le. Qed.
Lemma fifo_pop_contents q v l : fifo_wf q → contents q = v :: l → ∃ q', fifo_pop q = Some (v, q') ∧ fifo_wf q' ∧ contents q' = l.
Proof.
  unfold fifo_wf, contents, fifo_pop. intros Hwf Hc. assert (q_items q !! q_head q = Some v) as Hv.
  { rewrite <- (Nat.add_0_r (q_head q)), <- lookup_drop, Hc. done. }
  assert (drop (S (q_head q)) (q_items q) = l) as Hl by (rewrite <- Nat.add_1_r, <- drop_drop, Hc; done).
  assert (drop (S (q_head q)) (<[q_head q := zeroChange]> (q_items q)) = l) as Hl' by (rewrite drop_insert_lt; [done|lia]).
  rewrite Hv, length_insert. apply lookup_lt_Some in Hv. destruct (Nat.eqb_spec (S (q_head q)) (length (q_items q))) as [He|He].
  - eexists. split_and!; [done|done|]. cbn. rewrite <- Hl, drop_ge; [done|lia].
  - destruct (_ && _); eexists; (split_and!; [done|cbn; rewrite ?length_insert; lia|done]).
Qed.
Lemma pop_up_to_contents n q : fifo_wf q →
  let '(l, q') := pop_up_to n q in fifo_wf q' ∧ l = take n (contents q) ∧ contents q' = drop n (contents q).
Proof.
  revert q. induction n as [|n IH]; intros q Hwf; cbn [pop_up_to]; [done|]. rewrite fifo_len_contents by done.
  destruct (contents q) as [|v l] eqn:Hc; [by split_and!|]. cbn [length]. destruct (Z.ltb_spec 0 (Z.of_nat (S (length l)))); [|lia].
  destruct (fifo_pop_contents q v l Hwf Hc) as (q1 & -> & Hwf1 & Hc1). specialize (IH q1 Hwf1). destruct (pop_up_to n q1) as [l2 q2]. rewrite Hc1 in IH.
  destruct IH as (? & -> & ?). done.
Qed.

(** ** Counting changes *)

Abbreviation N := (count_occ StateChange_eq_dec).

Definition others (t : nat) (hands : list (option nat * StateChange)) : list StateChange := (filter (λ x, x.1 ≠ Some t) hands).*2.
Lemma count_hands t hands c : (N hands.*2 c = N (filter (λ x, x.1 = Some t) hands).*2 c + N (others t hands) c)%nat.
Proof.
  unfold others. induction hands as [|[o d] hands IH]; [done|]. rewrite !filter_cons. cbn. destruct (decide (o = Some t)) as [He|He].
  - rewrite decide_False by tauto. cbn. destruct (StateChange_eq_dec d c); lia.
  - rewrite decide_True by done. cbn. destruct (StateChange_eq_dec d c); lia.
Qed.
Lemma filter_give t j l hands : j ≠ t → filter (λ x, x.1 = Some j) (give t l hands) = filter (λ x, x.1 = Some j) hands.
Proof.
  intros Hne. unfold give. rewrite filter_app, list_filter_filter. replace (filter _ _) with (@nil (option nat * StateChange)) at 1.
  - cbn. apply list_filter_iff. intros x. split; [tauto|]. intros ->. split; [done|congruence].
  - symmetry. induction l as [|c l IH]; [done|]. cbn [fmap list_fmap]. rewrite filter_cons_False; [done|]. cbn. congruence.
Qed.
Lemma filter_contra {A : Type} t (l : list (option nat * A)) : filter (λ x, x.1 = Some t ∧ x.1 ≠ Some t) l = [].
Proof. induction l as [|x l IH]; [done|]. rewrite filter_cons_False; [done|]. tauto. Qed.
Lemma hand_give t l hands : (filter (λ x, x.1 = Some t) (give t l hands)).*2 = l.
Proof.
  unfold give. rewrite filter_app, list_filter_filter, filter_contra, app_nil_r. induction l as [|c l IH]; [done|].
  cbn [fmap list_fmap]. rewrite filter_cons_True by done. cbn. by f_equal.
Qed.
Lemma count_give t l hands c : (N (give t l hands).*2 c = N l c + N (others t hands) c)%nat.
Proof. unfold give, others. rewrite fmap_app, count_occ_app, <- list_fmap_compose. f_equal. cbn. by rewrite list_fmap_id. Qed.

(** ** The invariant *)

Definition loss_ok (x : StateChange * Loss) : Prop :=
  match x.2 with
  | loss_spilled => isLifecycleChange x.1 = false
  | loss_refused => isLifecycleChange x.1 = true
  | loss_rejected err => isStateDBUnavailable err = false
  end.
Definition was_spilled (x : StateChange * Loss) : bool := match x.2 with loss_spilled => true | _ => false end.
Definition queue_len (w : Writer) : Z := fifo_len (w_lifecycle w) + fifo_len (w_events w).
Definition has_event (db : Tables) (c : StateChange) : Prop := is_Some (db_events db !! event_key c).

Section correct.
Variable cfg : Config.

Record counters_ok (g : World) : Prop := {
  ct_carried : w_carried (o_w g) = Z.of_nat (length (w_carry (o_w g)));
  ct_queued : w_queued (o_w g) = queue_len (o_w g);
  ct_dropped : w_dropped (o_w g) = Z.of_nat (length (o_lost g));
  ct_spilled : w_spilled (o_w g) = Z.of_nat (length (filter was_spilled (o_lost g)));
  ct_written : w_written (o_w g) = Z.of_nat (length (o_stored g));
}.
(** Nobody waits for a channel that is not closed while there is room. *)
Record waiting_ok (g : World) : Prop := {
  wt_count : w_waiters (o_w g) = Z.of_nat (length (o_waiting g));
  wt_full : ∀ t space, (t, space) ∈ o_waiting g → (space ≤ w_space (o_w g))%nat ∧ (space = w_space (o_w g) → cf_capacity cfg ≤ queue_len (o_w g));
}.
Record inv (g : World) : Prop := {
  iv_wf : fifo_wf (w_lifecycle (o_w g)) ∧ fifo_wf (w_events (o_w g));
  iv_count : ∀ c, (N (o_offered g) c = N (contents (w_lifecycle (o_w g))) c + N (contents (w_events (o_w g))) c + N (w_carry (o_w g)) c +
                     N (o_stored g) c + N (o_lost g).*1 c + N (o_hands g).*2 c)%nat;
  iv_kinds : Forall (λ c, isLifecycleChange c = true) (contents (w_lifecycle (o_w g))) ∧ Forall (λ c, isLifecycleChange c = false) (contents (w_events (o_w g)));
  iv_capacity : queue_len (o_w g) ≤ Z.max 0 (cf_capacity cfg);
  iv_counters : counters_ok g;
  iv_lost : Forall loss_ok (o_lost g);
  iv_stored : ∀ c, c ∈ o_stored g → sc_SubjectID c ≠ "" → has_event (o_db g) c;
  iv_normal : Forall normalized (o_offered g);
  iv_waiting : waiting_ok g;
}.

(** ** What goroutines rely on *)

Definition waits (t : nat) (g : World) : list (option nat * nat) := filter (λ x, x.1 = Some t) (o_waiting g).
Definition holds (t : nat) (g : World) : Prop := w_flushMu (o_w g) = Some (Some t).

Record rely (t : nat) (g g' : World) : Prop := {
  rl_hand : hand t g' = hand t g;
  rl_waits : waits t g' = waits t g;
  rl_holds : holds t g → holds t g' ∧ w_carry (o_w g') = w_carry (o_w g);
  rl_events : ∀ key, is_Some (db_events (o_db g) !! key) → is_Some (db_events (o_db g') !! key);
}.
Definition guar (t : nat) (g g' : World) : Prop := ∀ j, j ≠ t → rely j g g'.

Lemma writer_rely_refl t g : rely t g g.
Proof. by split. Qed.
Lemma writer_rely_trans t g1 g2 g3 : rely t g1 g2 → rely t g2 g3 → rely t g1 g3.
Proof.
  intros [A1 A2 A3 A4] [B1 B2 B3 B4]. split; [congruence|congruence| |auto]. intros H. destruct (A3 H) as [H2 E2]. destruct (B3 H2) as [H3 E3]. split; [done|congruence].
Qed.

(** What a goroutine knows: what it has in hand, that it does not wait, and whether it
    flushes, and then whether it took the batch that was kept. *)
Inductive Mode := m_free | m_flush | m_taken.
Definition own (t : nat) (l : list StateChange) (m : Mode) (g : World) : Prop :=
  hand t g = l ∧ waits t g = [] ∧ match m with m_free => True | m_flush => holds t g | m_taken => holds t g ∧ w_carry (o_w g) = [] end.
Lemma own_rely t l m g g' : rely t g g' → own t l m g → own t l m g'.
Proof.
  intros [R1 R2 R3 _] (H1 & H2 & H3). split_and!; [congruence|congruence|]. destruct m; [done|by apply R3|]. destruct H3 as [H3 H4]. destruct (R3 H3). split; [done|congruence].
Qed.
Lemma own_locked t l g : own t l m_taken g → own t l m_flush g.
Proof. by intros (? & ? & ? & ?). Qed.

Lemma own_count t l m g c : own t l m g → (N (o_hands g).*2 c = N l c + N (others t (o_hands g)) c)%nat.
Proof. intros (<- & _). apply count_hands. Qed.
Lemma hand_offered t g c : inv g → c ∈ hand t g → c ∈ o_offered g.
Proof.
  intros Hi Hc. apply list_elem_of_In, (count_occ_In StateChange_eq_dec). rewrite (iv_count _ Hi). rewrite (count_hands t). apply list_elem_of_In, (count_occ_In StateChange_eq_dec) in Hc.
  unfold hand in Hc. lia.
Qed.
Lemma hand_normal t l m g : inv g → own t l m g → Forall normalized l.
Proof. intros Hi (<- & _). apply Forall_forall. intros c Hc. pose proof (iv_normal _ Hi) as Hn. rewrite Forall_forall in Hn. by eapply Hn, hand_offered. Qed.

(** A step that changes the hands of one goroutine, what it waits for, and, when it holds
    the mutex, the batch that is kept. *)
Lemma guar_step t g g' l :
  o_hands g' = o_hands g ∨ o_hands g' = give t l (o_hands g) →
  (∀ j, j ≠ t → waits j g' = waits j g) →
  (w_flushMu (o_w g') = w_flushMu (o_w g) ∨ w_flushMu (o_w g) = None ∨ holds t g) →
  (w_carry (o_w g') = w_carry (o_w g) ∨ holds t g) →
  (∀ key, is_Some (db_events (o_db g) !! key) → is_Some (db_events (o_db g') !! key)) → guar t g g'.
Proof.
  intros Hh Hw Hm Hc He j Hne. split; [|by apply Hw| |done].
  - unfold hand. destruct Hh as [->| ->]; [done|by rewrite filter_give].
  - unfold holds in *. intros Hj. destruct Hm as [->|[?|?]], Hc as [->|?]; split; congruence.
Qed.

(** ** Steps that keep the invariant *)

(** Changes move between the hands of a goroutine, the queues and the batch that is kept. *)
Lemma inv_hands t l m g l' w :
  inv g → own t l m g → fifo_wf (w_lifecycle w) ∧ fifo_wf (w_events w) →
  (∀ c, (N (contents (w_lifecycle w)) c + N (contents (w_events w)) c + N (w_carry w) c + N l' c =
         N (contents (w_lifecycle (o_w g))) c + N (contents (w_events (o_w g))) c + N (w_carry (o_w g)) c + N l c)%nat) →
  Forall (λ c, isLifecycleChange c = true) (contents (w_lifecycle w)) ∧ Forall (λ c, isLifecycleChange c = false) (contents (w_events w)) →
  queue_len w ≤ Z.max 0 (cf_capacity cfg) → w_carried w = Z.of_nat (length (w_carry w)) → w_queued w = queue_len w →
  (w_dropped w, w_spilled w, w_written w, w_waiters w) = (w_dropped (o_w g), w_spilled (o_w g), w_written (o_w g), w_waiters (o_w g)) →
  (w_space w = w_space (o_w g) ∧ queue_len (o_w g) ≤ queue_len w) ∨ (w_space (o_w g) < w_space w)%nat ∨ (w_space w = w_space (o_w g) ∧ o_waiting g = []) →
  inv (on_hand t l' w g).
Proof.
  intros Hi Ho Hwf Hc Hk Hcap H1 H2 [= H3 H4 H5 H6] Hsp. destruct (iv_counters _ Hi) as [C1 C2 C3 C4 C5]. destruct (iv_waiting _ Hi) as [W1 W2].
  split; cbn [on_hand o_w o_db o_done o_offered o_stored o_lost o_hands o_waiting]; [done| |done|done| |apply Hi|apply Hi|apply Hi|].
  - intros c. rewrite count_give. specialize (Hc c). pose proof (iv_count _ Hi c) as E. rewrite (own_count _ _ _ _ c Ho) in E. lia.
  - split; cbn [on_hand o_w o_lost o_stored]; congruence.
  - split; cbn [on_hand o_w o_waiting]; [congruence|]. intros j sp Hin. destruct (W2 _ _ Hin) as [W3 W4]. destruct Hsp as [[-> Hq]|[Hq|[_ Hw]]].
    + split; [done|]. intros E. specialize (W4 E). lia.
    + split; lia.
    + rewrite Hw in Hin. by apply elem_of_nil in Hin.
Qed.
Lemma own_move t l m g l' w m' :
  own t l m g → match m' with m_free => True | m_flush => w_flushMu w = Some (Some t) | m_taken => w_flushMu w = Some (Some t) ∧ w_carry w = [] end →
  own t l' m' (on_hand t l' w g).
Proof. intros (_ & H2 & _) Hm. split_and!; [apply hand_give|done|done]. Qed.

(** Only the signals of the writer, or who holds the mutex, change. *)
Lemma inv_signals g w :
  inv g → w_lifecycle w = w_lifecycle (o_w g) → w_events w = w_events (o_w g) → w_carry w = w_carry (o_w g) →
  (w_carried w, w_queued w, w_dropped w, w_spilled w, w_written w, w_waiters w) =
    (w_carried (o_w g), w_queued (o_w g), w_dropped (o_w g), w_spilled (o_w g), w_written (o_w g), w_waiters (o_w g)) →
  (w_space (o_w g) ≤ w_space w)%nat → inv (on_writer w g).
Proof.
  intros Hi E1 E2 E3 [= H1 H2 H3 H4 H5 H6] Hsp. destruct (iv_counters _ Hi) as [C1 C2 C3 C4 C5]. destruct (iv_waiting _ Hi) as [W1 W2].
  assert (queue_len w = queue_len (o_w g)) as Eq by (unfold queue_len; congruence).
  split; cbn [on_writer o_w o_db o_done o_offered o_stored o_lost o_hands o_waiting]; rewrite ?E1, ?E2, ?E3, ?Eq; try apply Hi.
  - split; cbn [on_writer o_w o_lost o_stored]; congruence.
  - split; cbn [on_writer o_w o_waiting]; [congruence|]. intros j sp Hin. destruct (W2 _ _ Hin) as [W3 W4]. rewrite Eq. split; [lia|]. intros ->. apply W4. lia.
Qed.

(** The first changes in the hands of a goroutine are written or lost. *)
Lemma count_split n (l : list StateChange) c : (N l c = N (take n l) c + N (drop n l) c)%nat.
Proof. rewrite <- count_occ_app. by rewrite take_drop. Qed.
Lemma inv_written t l rest m g :
  inv g → own t (l ++ rest) m g → (∀ c, c ∈ l → sc_SubjectID c ≠ "" → has_event (o_db g) c) → inv (on_written t (length l) g).
Proof.
  intros Hi Ho He. pose proof Ho as (Hh & _). destruct (iv_counters _ Hi) as [C1 C2 C3 C4 C5]. destruct (iv_waiting _ Hi) as [W1 W2].
  unfold on_written. rewrite Hh, take_app_length, drop_app_length.
  split; cbn [o_w o_db o_done o_offered o_stored o_lost o_hands o_waiting add_counts w_lifecycle w_events w_carry w_carried w_queued]; try apply Hi.
  - intros c. rewrite count_give, count_occ_app. pose proof (iv_count _ Hi c) as E. rewrite (own_count _ _ _ _ c Ho), count_occ_app in E. lia.
  - split; cbn [o_w o_lost o_stored add_counts w_carried w_carry w_queued w_dropped w_spilled w_written]; [done|done|lia|lia|rewrite length_app; lia].
  - intros c [Hc|Hc]%elem_of_app; [by apply (iv_stored _ Hi)|by apply He].
  - by split.
Qed.
Lemma inv_lost t l rest m g spilled why :
  inv g → own t (l ++ rest) m g → Forall (λ c, loss_ok (c, why)) l → spilled = Z.of_nat (length (filter was_spilled ((λ c, (c, why)) <$> l))) →
  inv (on_lost t (length l) spilled why g).
Proof.
  intros Hi Ho Hl ->. pose proof Ho as (Hh & _). destruct (iv_counters _ Hi) as [C1 C2 C3 C4 C5]. destruct (iv_waiting _ Hi) as [W1 W2].
  unfold on_lost. rewrite Hh, take_app_length, drop_app_length.
  split; cbn [o_w o_db o_done o_offered o_stored o_lost o_hands o_waiting add_counts w_lifecycle w_events w_carry w_carried w_queued]; try apply Hi.
  - intros c. rewrite count_give, fmap_app, count_occ_app, <- list_fmap_compose. unfold compose. cbn [fst]. rewrite list_fmap_id.
    pose proof (iv_count _ Hi c) as E. rewrite (own_count _ _ _ _ c Ho), count_occ_app in E. lia.
  - split; cbn [o_w o_lost o_stored add_counts w_carried w_carry w_queued w_dropped w_spilled w_written]; [done|done| | |lia].
    + rewrite length_app, length_fmap. lia.
    + rewrite filter_app, length_app. lia.
  - apply Forall_app. split; [apply Hi|]. by apply Forall_fmap.
  - by split.
Qed.
Lemma own_front t n l m g (spilled : Z) why : own t l m g → own t (drop n l) m (on_written t n g) ∧ own t (drop n l) m (on_lost t n spilled why g).
Proof. intros (H1 & H2 & H3). unfold on_written, on_lost. rewrite H1. split; (split_and!; [apply hand_give|done|by destruct m]). Qed.

(** ** Calls *)

Abbreviation RG := (rg (exec_writer cfg) inv rely guar).

(** The two writers agree on all that the theorems speak of. *)
Definition signals (w w' : Writer) : Prop :=
  w_lifecycle w' = w_lifecycle w ∧ w_events w' = w_events w ∧ w_carry w' = w_carry w ∧ w_flushMu w' = w_flushMu w ∧
  (w_carried w', w_queued w', w_dropped w', w_spilled w', w_written w', w_waiters w') =
    (w_carried w, w_queued w, w_dropped w, w_spilled w, w_written w, w_waiters w) ∧ (w_space w ≤ w_space w')%nat.

Lemma rg_signal {X : Type} t l m g (c : wcmd X) (Q : X → World → Prop) :
  (∀ g1 fate, let '(r, g2) := exec_writer cfg t X fate c g1 in g2 = g1 ∨ ∃ w, g2 = on_writer w g1 ∧ signals (o_w g1) w) →
  own t l m g → (∀ x g', own t l m g' → Q x g') → RG t (call c) Q g.
Proof.
  intros Hx Ho HQ. apply rg_call. intros g1 fate Hr Hi. apply (own_rely _ _ _ _ _ Hr) in Ho. specialize (Hx g1 fate). destruct (exec_writer cfg t X fate c g1) as [r g2].
  destruct Hx as [->|(w & -> & S1 & S2 & S3 & S4 & S5 & S6)].
  - split_and!; [done|intros j _; apply writer_rely_refl|]. intros x _. by apply HQ.
  - split_and!; [by apply inv_signals| |].
    + apply (guar_step t _ _ []); cbn; [by left|done|by left|by left|done].
    + intros x _. apply HQ. destruct Ho as (H1 & H2 & H3). split_and!; [done|done|]. unfold holds in *. cbn. rewrite S3, S4. by destruct m.
Qed.
(** Calls that only read. *)
Lemma rg_read {X : Type} t g (c : wcmd X) (Q : X → World → Prop) :
  (∀ g1 fate, (exec_writer cfg t X fate c g1).2 = g1) → (∀ x g', rely t g g' → Q x g') → RG t (call c) Q g.
Proof.
  intros Hx HQ. apply rg_call. intros g1 fate Hr Hi. specialize (Hx g1 fate). destruct (exec_writer cfg t X fate c g1) as [r g2]. cbn in Hx. subst g2.
  split_and!; [done|intros j _; apply writer_rely_refl|]. intros x _. by apply HQ.
Qed.

Lemma ok_begin t c g : own t [] m_free g → normalized c → RG t (call (x_begin c)) (λ _, own t [c] m_free) g.
Proof.
  intros Ho Hn. apply rg_call. intros g1 fate Hr Hi. apply (own_rely _ _ _ _ _ Hr) in Ho. cbn. split_and!.
  - destruct (iv_counters _ Hi) as [C1 C2 C3 C4 C5]. destruct (iv_waiting _ Hi) as [W1 W2].
    split; cbn [on_offered o_w o_db o_done o_offered o_stored o_lost o_hands o_waiting]; try apply Hi; [|by split|by constructor; [|apply Hi]|by split].
    intros d. rewrite count_give. pose proof (iv_count _ Hi d) as E. rewrite (own_count _ _ _ _ d Ho) in E. cbn in *. destruct (StateChange_eq_dec c d); lia.
  - apply (guar_step t _ _ [c]); cbn; [by right|done|by left|by left|done].
  - intros _ _. destruct Ho as (_ & H2 & _). split_and!; [apply hand_give|done|done].
Qed.

Lemma ok_countLoss t c spill g :
  own t [c] m_free g → isLifecycleChange c = negb spill → RG t (call (x_countLoss spill)) (λ _, own t [] m_free) g.
Proof.
  intros Ho Hk. apply rg_call. intros g1 fate Hr Hi. apply (own_rely _ _ _ _ _ Hr) in Ho. cbn [exec_writer]. split_and!.
  - apply (inv_lost t [c] [] m_free); [done|done|by destruct spill; constructor|by destruct spill].
  - apply (guar_step t _ _ (drop 1 (hand t g1))); cbn; [by right|done|by left|by left|done].
  - intros _ _. by apply (own_front t 1 [c] m_free g1).
Qed.

Lemma ok_unwait t c space g :
  hand t g = [c] → waits t g = [(Some t, space)] → RG t (call x_unwait) (λ _, own t [c] m_free) g.
Proof.
  intros Hh Hw. apply rg_call. intros g1 fate [R1 R2 _ _] Hi. cbn [exec_writer]. rewrite <- R1 in Hh. rewrite <- R2 in Hw. destruct (iv_counters _ Hi) as [C1 C2 C3 C4 C5].
  destruct (iv_waiting _ Hi) as [W1 W2]. assert (∀ l : list (option nat * nat), length l = (length (filter (λ x, x.1 = Some t) l) + length (filter (λ x, x.1 ≠ Some t) l))%nat) as Hlen.
  { induction l as [|x l IH]; [done|]. rewrite !filter_cons. destruct (decide (x.1 = Some t)); [rewrite decide_False by tauto|rewrite decide_True by done]; cbn; lia. }
  split_and!.
  - split; cbn [on_waiting o_w o_db o_done o_offered o_stored o_lost o_hands o_waiting]; try apply Hi; [by split|]. split; cbn.
    + rewrite W1, (Hlen (o_waiting g1)). unfold waits in Hw. rewrite Hw. cbn [length]. lia.
    + intros j sp [_ Hin]%list_elem_of_filter. by apply (W2 j).
  - apply (guar_step t _ _ []); cbn; [by left| |by left|by left|done]. intros j Hj. unfold waits. cbn. rewrite list_filter_filter. apply list_filter_iff.
    intros x. split; [tauto|]. intros ->. split; [done|congruence].
  - intros _ _. split_and!; [done| |done]. unfold waits. cbn. by rewrite list_filter_filter, filter_contra.
Qed.

(** The queues with one more change. *)
Definition queues_ok (w : Writer) : Prop :=
  (fifo_wf (w_lifecycle w) ∧ fifo_wf (w_events w)) ∧
  (Forall (λ c, isLifecycleChange c = true) (contents (w_lifecycle w)) ∧ Forall (λ c, isLifecycleChange c = false) (contents (w_events w))).
Lemma push_ok c w : queues_ok w →
  let w' := push cfg c (isLifecycleChange c) w in
  queues_ok w' ∧ queue_len w' = queue_len w + 1 ∧
  ∀ d, (N (contents (w_lifecycle w')) d + N (contents (w_events w')) d = N (contents (w_lifecycle w)) d + N (contents (w_events w)) d + N [c] d)%nat.
Proof.
  intros [[W1 W2] [K1 K2]]. unfold push, queue_len, queues_ok. destruct (isLifecycleChange c) eqn:Hk; cbn [set_queues w_lifecycle w_events].
  - pose proof (fifo_push_wf c _ W1) as W1'. rewrite !fifo_len_contents, !fifo_push_contents, length_app by done. split_and!; [done|done|apply Forall_app; by repeat constructor|done|cbn; lia|].
    intros d. rewrite count_occ_app. lia.
  - pose proof (fifo_push_wf c _ W2) as W2'. rewrite !fifo_len_contents, !fifo_push_contents, length_app by done. split_and!; [done|done|done|apply Forall_app; by repeat constructor|cbn; lia|].
    intros d. rewrite count_occ_app. lia.
Qed.
(** The queues without the oldest event. *)
Lemma spill_ok w : queues_ok w → 0 < fifo_len (w_events w) →
  ∃ oldest events, fifo_pop (w_events w) = Some (oldest, events) ∧ isLifecycleChange oldest = false ∧
    let w' := set_queues (w_lifecycle w) events (w_kick w) w in
    queues_ok w' ∧ queue_len w' = queue_len w - 1 ∧
    ∀ d, (N (contents (w_lifecycle w')) d + N (contents (w_events w')) d + N [oldest] d = N (contents (w_lifecycle w)) d + N (contents (w_events w)) d)%nat.
Proof.
  intros [[W1 W2] [K1 K2]] Hlen. rewrite fifo_len_contents in Hlen by done. destruct (contents (w_events w)) as [|v l] eqn:Hc; [cbn in Hlen; lia|].
  destruct (fifo_pop_contents _ _ _ W2 Hc) as (q & Hq & Wq & Cq). apply Forall_cons in K2 as [Kv Kl]. exists v, q. unfold queues_ok, queue_len. cbn [set_queues w_lifecycle w_events].
  rewrite !fifo_len_contents, Cq, Hc by done. split_and!; [done|done|done|done|done|done|cbn; lia|]. intros d. cbn. destruct (StateChange_eq_dec v d); lia.
Qed.
Lemma inv_queues g : inv g → queues_ok (o_w g).
Proof. intros Hi. split; apply Hi. Qed.

Definition offered (t : nat) (c : StateChange) (o : Offer) (g : World) : Prop :=
  match o with
  | of_pushed => own t [] m_free g
  | of_spilled oldest => isLifecycleChange oldest = false ∧ own t [oldest] m_free g
  | of_full => isLifecycleChange c = false ∧ own t [c] m_free g
  | of_stopped => isLifecycleChange c = true ∧ own t [c] m_free g
  | of_wait space => isLifecycleChange c = true ∧ hand t g = [c] ∧ waits t g = [(Some t, space)]
  end.
Lemma ok_offer t c g : own t [c] m_free g → RG t (call (x_offer c)) (offered t c) g.
Proof.
  intros Ho. apply rg_call. intros g1 fate Hr Hi. apply (own_rely _ _ _ _ _ Hr) in Ho. pose proof (inv_queues _ Hi) as Hq. pose proof (iv_capacity _ Hi) as Hcap.
  pose proof (iv_counters _ Hi) as [C1 _ _ _ _]. cbn [exec_writer]. unfold offer. fold (queue_len (o_w g1)). destruct (Z.ltb_spec (queue_len (o_w g1)) (cf_capacity cfg)) as [Hlt|Hge].
  { destruct (push_ok c (o_w g1) Hq) as ([P1 P2] & P3 & P4). split_and!.
    - apply (inv_hands t [c] m_free); [done|done|done| |done|lia|done|done|done|left; split; [done|lia]]. intros d. specialize (P4 d). change (w_carry (push _ _ _ _)) with (w_carry (o_w g1)). cbn [count_occ] in *. lia.
    - apply (guar_step t _ _ []); cbn; [by right|done|by left|by left|done].
    - intros _ [= <-]. by apply (own_move t [c] m_free). }
  destruct (Z.ltb_spec 0 (fifo_len (w_events (o_w g1)))) as [Hev|Hev].
  { destruct (spill_ok _ Hq Hev) as (oldest & events & -> & Hk & Q & Q3 & Q4). destruct (push_ok c _ Q) as ([P1 P2] & P3 & P4). cbn [option_bind mbind]. split_and!.
    - apply (inv_hands t [c] m_free); [done|done|done| |done|lia|done|done|done|left; split; [done|lia]]. intros d. specialize (P4 d). specialize (Q4 d). change (w_carry (push _ _ _ _)) with (w_carry (o_w g1)). lia.
    - apply (guar_step t _ _ [oldest]); cbn; [by right|done|by left|by left|done].
    - intros _ [= <-]. split; [done|]. by apply (own_move t [c] m_free). }
  assert (∀ o, offered t c o g1 → inv (on_writer (o_w g1) g1) ∧ guar t g1 (on_writer (o_w g1) g1) ∧ ∀ x, Some o = Some x → offered t c x (on_writer (o_w g1) g1)) as Hsame.
  { intros o Hof. replace (on_writer (o_w g1) g1) with g1 by by destruct g1. split_and!; [done|intros j _; apply writer_rely_refl|]. by intros _ [= <-]. }
  destruct (isLifecycleChange c) eqn:Hk; cbn [negb]; [|by apply Hsame]. destruct (w_closed (o_w g1)); [by apply Hsame|]. clear Hsame.
  destruct (iv_waiting _ Hi) as [W1 W2]. destruct (iv_counters _ Hi) as [D1 D2 D3 D4 D5]. split_and!.
  - split; cbn [on_waiting o_w o_db o_done o_offered o_stored o_lost o_hands o_waiting]; try apply Hi; [by split|]. split; cbn; [lia|].
    intros j sp [[= -> ->]|Hin]%elem_of_cons; [split; [done|intros _; exact Hge]|by apply (W2 j)].
  - apply (guar_step t _ _ []); [by left| |by left|by left|done]. intros j Hj. unfold waits. cbn [on_waiting o_waiting]. rewrite filter_cons_False; [done|cbn; congruence].
  - intros _ [= <-]. destruct Ho as (H1 & H2 & _). split_and!; [done|done|]. unfold waits in *. cbn [on_waiting o_waiting]. rewrite filter_cons_True by done. by rewrite H2.
Qed.

(** ** Enqueueing *)

Lemma ok_enqueue_loop loops t ctx timed c g : own t [c] m_free g → RG t (enqueue_loop loops ctx timed c) (λ r g, r = None ∨ own t [] m_free g) g.
Proof.
  revert g. induction loops as [|loops IH]; intros g Ho; [by left|]. cbn [enqueue_loop]. apply rg_bind. eapply rg_mono; [|by apply ok_offer].
  intros [|oldest| | |space] g1 H1; cbn [offered] in H1.
  - by right.
  - destruct H1 as [Hk H1]. apply rg_bind. eapply rg_mono; [|by eapply ok_countLoss]. intros ? g2 H2. by right.
  - destruct H1 as [Hk H1]. apply rg_bind. eapply rg_mono; [|by eapply ok_countLoss]. intros ? g2 H2. by right.
  - destruct H1 as [Hk H1]. apply rg_bind. eapply rg_mono; [|by eapply ok_countLoss]. intros ? g2 H2. by right.
  - destruct H1 as (Hk & Hh & Hw). apply rg_bind, rg_call. intros g2 fate [R1 R2 _ _] Hi. cbn [exec_writer]. split_and!.
    + apply inv_signals; [done..|cbn; lia].
    + apply (guar_step t _ _ []); cbn; [by left|done|by left|by left|done].
    + intros _ _. apply rg_bind, rg_read.
      { intros g3 fate3. cbn. repeat case_match; done. }
      intros s g3 [R3 R4 _ _]. apply rg_bind. eapply rg_mono; [|apply (ok_unwait t c space)]; [|exact (eq_trans R3 (eq_trans R1 Hh))|exact (eq_trans R4 (eq_trans R2 Hw))].
      intros ? g4 H4. destruct s; [by apply IH|..]; (apply rg_bind; eapply rg_mono; [|apply (ok_countLoss t c); [exact H4|exact Hk]]; intros ? g5 H5; by right).
Qed.
Lemma ok_enqueue loops t newID now ctx timed c g :
  newID ≠ "" → now ≠ zeroTime → own t [] m_free g → RG t (enqueue loops newID now ctx timed c) (λ r g, r = None ∨ own t [] m_free g) g.
Proof.
  intros H1 H2 Ho. unfold enqueue. apply rg_bind. eapply rg_mono; [|apply ok_begin; [done|by apply StateChange_normalize_ok]]. intros ? g1 Hg1. by apply ok_enqueue_loop.
Qed.
Lemma ok_report loops t ctx changes g :
  Forall (λ x, x.1.1 ≠ "" ∧ x.1.2 ≠ zeroTime) changes → own t [] m_free g → RG t (Executor_enqueue loops ctx changes) (λ _ _, True) g.
Proof.
  revert g. induction changes as [|[[newID now] c] changes IH]; intros g Hc Ho; [done|]. apply Forall_cons in Hc as [[H1 H2] Hc]. cbn [Executor_enqueue].
  apply rg_bind. eapply rg_mono; [|by apply ok_enqueue]. intros [b|] g1 [E|Hg1]; try done. by apply IH.
Qed.

(** ** Flushing *)

Lemma ok_lock t g : own t [] m_free g → RG t (call x_lock) (λ _, own t [] m_flush) g.
Proof.
  intros Ho. apply rg_call. intros g1 fate Hr Hi. apply (own_rely _ _ _ _ _ Hr) in Ho. cbn [exec_writer]. destruct (w_flushMu (o_w g1)) eqn:Hm.
  - split_and!; [done|intros j _; apply writer_rely_refl|done].
  - split_and!; [by apply inv_signals|apply (guar_step t _ _ []); [by left|done|by right; left|by left|done]|]. intros _ _. destruct Ho as (H1 & H2 & _). by split_and!.
Qed.
Lemma ok_unlock t g : own t [] m_flush g → RG t (call x_unlock) (λ _, own t [] m_free) g.
Proof.
  intros Ho. apply rg_call. intros g1 fate Hr Hi. apply (own_rely _ _ _ _ _ Hr) in Ho. destruct Ho as (H1 & H2 & H3). cbn [exec_writer].
  split_and!; [by apply inv_signals|apply (guar_step t _ _ []); [by left|done|by right; right|by left|done]|]. intros _ _. by split_and!.
Qed.
Lemma ok_takeCarry t g : own t [] m_flush g → RG t (call x_takeCarry) (λ batch g, own t batch m_taken g ∧ Forall normalized batch) g.
Proof.
  intros Ho. apply rg_call. intros g1 fate Hr Hi. apply (own_rely _ _ _ _ _ Hr) in Ho. pose proof Ho as (_ & _ & Hm). cbn [exec_writer].
  assert (inv (on_hand t (w_carry (o_w g1)) (set_carry [] (o_w g1)) g1)) as Hi2.
  { apply (inv_hands t [] m_flush); [done|done|apply Hi| |apply Hi|apply Hi|done|apply (iv_counters _ Hi)|done|left; split; [done|reflexivity]]. intros c. cbn. lia. }
  split_and!; [done| |].
  - apply (guar_step t _ _ (w_carry (o_w g1))); [by right|done|by left|by right|done].
  - intros _ [= <-]. assert (own t (w_carry (o_w g1)) m_taken (on_hand t (w_carry (o_w g1)) (set_carry [] (o_w g1)) g1)) as Ho2 by by apply (own_move t [] m_flush).
    split; [done|by eapply hand_normal].
Qed.
Lemma ok_keepCarry t l g : own t l m_taken g → RG t (call (x_keepCarry l)) (λ _, own t [] m_flush) g.
Proof.
  intros Ho. apply rg_call. intros g1 fate Hr Hi. apply (own_rely _ _ _ _ _ Hr) in Ho. pose proof Ho as (_ & _ & Hm & Hc). cbn [exec_writer]. split_and!.
  - apply (inv_hands t l m_taken); [done|done|apply Hi| |apply Hi|apply Hi|done|apply (iv_counters _ Hi)|done|left; split; [done|reflexivity]]. intros c. cbn. rewrite Hc. cbn. lia.
  - apply (guar_step t _ _ []); [by right|done|by left|by right|done].
  - intros _ _. by apply (own_move t l m_taken).
Qed.

(** What a drain takes and leaves. *)
Lemma drain_ok w : queues_ok w → let '(batch, w') := drain cfg w in
  queues_ok w' ∧ (∀ c, (N (contents (w_lifecycle w')) c + N (contents (w_events w')) c + N batch c = N (contents (w_lifecycle w)) c + N (contents (w_events w)) c)%nat) ∧
  queue_len w' = queue_len w - Z.of_nat (length batch) ∧ (w_carry w', w_carried w', w_flushMu w') = (w_carry w, w_carried w, w_flushMu w) ∧
  (w_dropped w', w_spilled w', w_written w', w_waiters w') = (w_dropped w, w_spilled w, w_written w, w_waiters w) ∧
  (w_queued w = queue_len w → w_queued w' = queue_len w') ∧
  (w' = w ∨ (w_space w < w_space w')%nat ∨ (w_space w' = w_space w ∧ w_waiters w ≤ 0)).
Proof.
  intros [[W1 W2] [K1 K2]]. unfold drain. set (n := Z.to_nat _). destruct (n =? 0)%nat; [cbn; split_and!; [done..|lia|done|done|done|by left]|].
  pose proof (pop_up_to_contents n _ W1) as H1. destruct (pop_up_to n (w_lifecycle w)) as [b1 q1]. destruct H1 as (Wq1 & E1 & C1).
  pose proof (pop_up_to_contents (n - length b1) _ W2) as H2. destruct (pop_up_to (n - length b1) (w_events w)) as [b2 q2]. destruct H2 as (Wq2 & E2 & C2).
  assert (queues_ok (set_queues q1 q2 (w_kick w) w)) as Hq.
  { unfold queues_ok. cbn. rewrite C1, C2. split_and!; [done|done|by apply Forall_drop|by apply Forall_drop]. }
  assert (∀ c, (N (contents q1) c + N (contents q2) c + N (b1 ++ b2) c = N (contents (w_lifecycle w)) c + N (contents (w_events w)) c)%nat) as Hcount.
  { intros c. rewrite count_occ_app, C1, C2. pose proof (count_split n (contents (w_lifecycle w)) c). pose proof (count_split (n - length b1) (contents (w_events w)) c). subst b2. rewrite <- E1 in *. lia. }
  assert (queue_len (set_queues q1 q2 (w_kick w) w) = queue_len w - Z.of_nat (length (b1 ++ b2))) as Hlen.
  { unfold queue_len. cbn [set_queues w_lifecycle w_events]. rewrite !fifo_len_contents, C1, C2, length_app, !length_drop by done.
    assert (length b1 = Nat.min n (length (contents (w_lifecycle w)))) by (by rewrite E1, length_take).
    assert (length b2 = Nat.min (n - length b1) (length (contents (w_events w)))) by (by rewrite E2, length_take). lia. }
  cbn [set_queues w_waiters]. destruct (Z.ltb_spec 0 (w_waiters w)); (split_and!; [done..|]); cbn; [right; left; lia|right; right; split; [done|lia]].
Qed.
Lemma ok_drain t g : own t [] m_taken g → RG t (call x_drain) (λ batch g, own t batch m_taken g ∧ Forall normalized batch) g.
Proof.
  intros Ho. apply rg_call. intros g1 fate Hr Hi. apply (own_rely _ _ _ _ _ Hr) in Ho. pose proof Ho as (_ & _ & Hm & Hc). cbn [exec_writer]. pose proof (drain_ok (o_w g1) (inv_queues _ Hi)) as Hd.
  destruct (drain cfg (o_w g1)) as [batch w]. destruct Hd as ([D1 D1'] & D2 & D3 & [= D4 D5 D6] & D7 & D8 & D9). destruct (iv_counters _ Hi) as [C1 C2 C3 C4 C5]. destruct (iv_waiting _ Hi) as [V1 V2].
  pose proof (iv_capacity _ Hi) as Hcap. assert (inv (on_hand t batch w g1)) as Hi2.
  { apply (inv_hands t [] m_taken); [done|done|done| |done|lia|congruence|by apply D8|done|].
    - intros c. specialize (D2 c). rewrite D4. cbn. lia.
    - destruct D9 as [->|[?|[? ?]]]; [left; split; [done|reflexivity]|by right; left|]. right; right. split; [done|]. destruct (o_waiting g1); [done|cbn in V1; lia]. }
  split_and!; [done| |].
  - apply (guar_step t _ _ batch); [by right|done|by left|by left|done].
  - intros _ [= <-]. assert (own t batch m_taken (on_hand t batch w g1)) as Ho2 by (apply (own_move t [] m_taken); [done|]; unfold holds in Hm; split; congruence).
    split; [done|by eapply hand_normal].
Qed.

(** *** Writing *)

Lemma normalized_subject id c : normalized c → normalized (set_subject id c).
Proof. done. Qed.
Lemma ok_tx t l m changes g :
  own t l m g → Forall normalized changes →
  RG t (call (x_tx changes)) (λ r g, own t l m g ∧ (r = None → ∀ c, c ∈ changes → sc_SubjectID c ≠ "" → has_event (o_db g) c)) g.
Proof.
  intros Ho Hn. apply rg_call. intros g1 fate Hr Hi. apply (own_rely _ _ _ _ _ Hr) in Ho. cbn [exec_writer].
  pose proof (insertStateEventsOnce_inserted (ft_ids fate) (ft_now fate) changes (updateSubjects changes (o_db g1)) Hn) as [_ I2 I3]. set (db := write_tx _ _ _ _).
  assert (∀ key, is_Some (db_events (o_db g1) !! key) → is_Some (db_events db !! key)) as Hk by (intros key [e He]; exists e; by apply I2).
  assert (inv (on_db db g1) ∧ guar t g1 (on_db db g1) ∧ own t l m (on_db db g1)) as (H1 & H2 & H3).
  { split_and!; [|apply (guar_step t _ _ []); [by left|done|by left|by left|done]|done]. destruct (iv_counters _ Hi) as [C1 C2 C3 C4 C5]. destruct (iv_waiting _ Hi) as [W1 W2].
    split; cbn [on_db o_w o_db o_done o_offered o_stored o_lost o_hands o_waiting]; try apply Hi; [by split| |by split]. intros c Hc Hs. apply Hk. by apply (iv_stored _ Hi). }
  destruct (ft_tx fate) as [|e|e].
  - split_and!; [done|done|]. intros _ [= <-]. split; [done|]. intros _ c Hc Hs. by apply I3.
  - split_and!; [done|intros j _; apply writer_rely_refl|]. intros _ [= <-]. by split.
  - split_and!; [done|done|]. intros _ [= <-]. by split.
Qed.

Lemma ok_resolve_kinds t l m batch kinds resolved g :
  own t l m g → RG t (resolve_kinds batch kinds resolved) (λ _, own t l m) g.
Proof.
  revert resolved g. induction kinds as [|kind kinds IH]; intros resolved g Ho; [done|]. cbn [resolve_kinds]. apply rg_bind.
  assert (∀ r g1, own t l m g1 → RG t (match r with Err e => Ret (Err e) | Ok ids => resolve_kinds batch kinds (<[kind:=ids]> resolved) end) (λ _, own t l m) g1) as Hk.
  { intros [ids|e] g1 H1; [by apply IH|done]. }
  unfold lookupIDsByKeys. case_bool_decide; [|by apply (Hk (Ok ∅))]. apply rg_read; [intros g1 fate; cbn; by case_match|]. intros r g1 Hr. apply Hk. by eapply own_rely.
Qed.
(** The changes that are written are the ones of the batch whose subject is known. *)
Definition resolves (batch changes : list StateChange) : Prop :=
  (Forall normalized batch → Forall normalized changes) ∧ ∀ c, c ∈ batch → sc_SubjectID c ≠ "" → c ∈ changes.
Lemma omap_resolves resolved batch : resolves batch (omap (resolve_one resolved) batch).
Proof.
  split.
  - intros Hn. apply Forall_forall. intros c (d & Hd & Hr)%list_elem_of_omap. rewrite Forall_forall in Hn. specialize (Hn d Hd). unfold resolve_one in Hr.
    destruct (String.eqb _ _); [|by injection Hr as <-]. cbv zeta in Hr. destruct (String.eqb _ _); [done|]. injection Hr as <-. by apply normalized_subject.
  - intros c Hc Hs. apply list_elem_of_omap. exists c. split; [done|]. unfold resolve_one. by apply String.eqb_neq in Hs as ->.
Qed.
Lemma ok_resolveSubjects t l m batch g :
  own t l m g → RG t (resolveSubjects batch) (λ r g, own t l m g ∧ match r with Ok changes => resolves batch changes | Err _ => True end) g.
Proof.
  intros Ho. unfold resolveSubjects. cbv zeta. case_bool_decide; [by split|]. apply rg_bind. eapply rg_mono; [|by apply ok_resolve_kinds].
  intros [resolved|e] g1 H1; (split; [done|]); [apply omap_resolves|done].
Qed.

Definition wrote (t : nat) (batch rest : list StateChange) (m : Mode) (r : option goError) (g : World) : Prop :=
  own t (match r with None => rest | Some _ => batch ++ rest end) m g.

Lemma ok_writeOnce t batch rest m g : Forall normalized batch → own t (batch ++ rest) m g → RG t (writeOnce batch) (wrote t batch rest m) g.
Proof.
  intros Hn Ho. unfold writeOnce, writeBatch. apply rg_bind, rg_bind.
  eapply rg_mono; [|by apply ok_resolveSubjects]. intros [changes|e] g1 [H1 Hr]; [|done]. destruct Hr as [R1 R2]. eapply rg_mono; [|by apply ok_tx; [exact H1|apply R1]].
  intros [e|] g2 [H2 He]; [done|]. apply rg_bind, rg_call. intros g3 fate Hrel Hi3. cbn [exec_writer]. pose proof (own_rely _ _ _ _ _ Hrel H2) as H3. split_and!.
  - apply (inv_written t batch rest m); [done|done|]. intros c Hc Hs. apply (rl_events _ _ _ Hrel). by apply He; [|apply R2|].
  - apply (guar_step t _ _ (drop (length batch) (hand t g3))); [by right|done|by left|by left|done].
  - intros _ _. unfold wrote. cbn. rewrite <- (drop_app_length batch rest). by apply (own_front t (length batch) _ m g3 0 loss_spilled).
Qed.

Lemma ok_err {X : Type} t l m ctx g (k : option goError → prog wcmd X) Q :
  own t l m g → (∀ d g', own t l m g' → RG t (k d) Q g') → RG t (prog_bind (call (x_err ctx)) k) Q g.
Proof. intros Ho Hk. apply rg_bind, rg_read; [done|]. intros d g1 Hr. by eapply Hk, own_rely. Qed.

Lemma ok_retry attempts t ctx batch m err g :
  Forall normalized batch → own t batch m g → RG t (retry_loop attempts ctx batch err) (wrote t batch [] m) g.
Proof.
  intros Hn. unfold wrote. rewrite app_nil_r. revert err g. induction attempts as [|attempts IH]; intros err g Ho; [done|]. cbn [retry_loop]. apply (ok_err t batch m); [done|].
  intros [cerr|] g1 H1; [done|]. apply rg_bind. eapply rg_mono; [|apply (ok_writeOnce t batch [] m); [done|by rewrite app_nil_r]]. unfold wrote. rewrite app_nil_r.
  intros [e|] g2 H2; [|done]. destruct (_ || _); [done|]. destruct (attempts =? 0)%nat; [done|]. apply rg_bind, rg_read.
  { intros g3 fate. cbn. by repeat case_match. }
  intros [cerr|] g3 Hr; apply (own_rely _ _ _ _ _ Hr) in H2; [done|by apply IH].
Qed.

(** The steps that are left for a stack. *)
Definition stack_cost (stack : list (list StateChange)) : nat := sum_list ((λ part, 2 * length part - 1)%nat <$> stack).
Lemma stack_cost_cons part stack : stack_cost (part :: stack) = (2 * length part - 1 + stack_cost stack)%nat.
Proof. done. Qed.
Lemma half_length (part : list StateChange) : (1 < length part)%nat →
  (0 < length (take (length part / 2) part))%nat ∧ (0 < length (drop (length part / 2) part))%nat ∧
  (length (take (length part / 2) part) + length (drop (length part / 2) part) = length part)%nat.
Proof.
  intros H. pose proof (Nat.div_lt (length part) 2 ltac:(lia) ltac:(lia)). pose proof (Nat.div_str_pos (length part) 2 ltac:(lia)). rewrite length_take, length_drop. lia.
Qed.

Definition salvaged (t : nat) (r : option goError) (g : World) : Prop := own t [] (match r with None => m_taken | Some _ => m_flush end) g.

Lemma ok_keep t l (e : goError) g : own t l m_taken g → RG t (prog_bind (call (x_keepCarry l)) (λ _, Ret (Some e))) (salvaged t) g.
Proof. intros Ho. apply rg_bind. by eapply rg_mono; [|by apply ok_keepCarry]. Qed.
Lemma rejected_none e l : filter was_spilled ((λ c, (c, loss_rejected e)) <$> l) = [].
Proof. induction l as [|c l IH]; [done|]. cbn [fmap list_fmap]. rewrite filter_cons_False; [exact IH|cbn; tauto]. Qed.
Lemma ok_dropBatch t part rest m e g :
  isStateDBUnavailable e = false → own t (part ++ rest) m g → RG t (call (x_dropBatch (length part) e)) (λ _, own t rest m) g.
Proof.
  intros He Ho. apply rg_call. intros g1 fate Hrel Hi. apply (own_rely _ _ _ _ _ Hrel) in Ho. cbn [exec_writer]. split_and!.
  - apply (inv_lost t part rest m); [done|done|by apply Forall_forall|by rewrite rejected_none].
  - apply (guar_step t _ _ (drop (length part) (hand t g1))); [by right|done|by left|by left|done].
  - intros _ _. rewrite <- (drop_app_length part rest). by apply (own_front t (length part) _ m g1).
Qed.
Lemma ok_salvage_loop fuel t ctx stack g :
  (stack_cost stack ≤ fuel)%nat → Forall (λ part, 0 < length part)%nat stack → Forall normalized (concat stack) → own t (concat stack) m_taken g →
  RG t (salvage_loop fuel ctx stack) (salvaged t) g.
Proof.
  revert stack g. induction fuel as [|fuel IH]; intros [|part stack] g Hf Hl Hn Ho; [done| |done|].
  { rewrite stack_cost_cons in Hf. apply Forall_cons in Hl as [? _]. lia. }
  rewrite stack_cost_cons in Hf. apply Forall_cons in Hl as [Hp Hl]. cbn [concat] in Hn, Ho. pose proof Hn as [Hn1 Hn2]%Forall_app. cbn [salvage_loop].
  destruct (Nat.ltb_spec 1 (length part)) as [H1|H1]; cbv zeta.
  - destruct (half_length part H1) as (A1 & A2 & A3). set (mid := (length part / 2)%nat) in *. pose proof (take_drop mid part) as Hsplit.
    apply (ok_err t (part ++ concat stack) m_taken); [done|]. intros [cerr|] g1 Hg1; [by apply ok_keep|]. apply rg_bind.
    eapply rg_mono; [|apply (ok_writeOnce t (take mid part) (drop mid part ++ concat stack) m_taken); [by apply Forall_take|by rewrite app_assoc, Hsplit]].
    unfold wrote. rewrite app_assoc, Hsplit. intros [e|] g2 Hg2.
    + destruct (isStateDBUnavailable e); [by apply ok_keep|]. apply IH; [rewrite !stack_cost_cons; lia|by repeat constructor| |]; cbn [concat]; by rewrite app_assoc, Hsplit.
    + apply IH; [rewrite stack_cost_cons; lia|by constructor| |done]. cbn [concat]. apply Forall_app. split; [by apply Forall_drop|done].
  - apply rg_bind. eapply rg_mono; [|by apply (ok_writeOnce t part (concat stack) m_taken)]. unfold wrote. intros [e|] g2 Hg2; [|apply IH; [lia|done|done|done]].
    destruct (isStateDBUnavailable e) eqn:He; [by apply ok_keep|]. apply rg_bind. eapply rg_mono; [|by apply (ok_dropBatch t part (concat stack) m_taken)].
    intros ? g3 Hg3. apply IH; [lia|done|done|done].
Qed.

Lemma ok_flush_loop loops t ctx firstErr g :
  own t [] m_flush g → RG t (flush_loop cfg loops ctx firstErr) (λ r g, r = None ∨ own t [] m_flush g) g.
Proof.
  revert firstErr g. induction loops as [|loops IH]; intros firstErr g Ho; [by left|]. cbn [flush_loop]. apply (ok_err t [] m_flush); [done|].
  intros [cerr|] g1 H1; [by right|]. apply rg_bind. eapply rg_mono; [|by apply ok_takeCarry]. intros carry g2 [H2 Hn2]. apply rg_bind.
  apply (rg_mono _ _ _ _ _ _ (λ batch g, own t batch m_taken g ∧ Forall normalized batch)).
  2: { case_bool_decide; [subst; by apply ok_drain|done]. }
  intros batch g3 [H3 Hn3]. case_bool_decide as Hb; [subst; right; by apply own_locked|]. apply rg_bind. eapply rg_mono; [|by apply ok_retry]. unfold wrote. rewrite app_nil_r.
  intros [err|] g4 H4; [|apply IH; by apply own_locked]. apply (ok_err t batch m_taken); [done|]. intros d g5 H5. destruct (_ || isStateDBUnavailable err) eqn:Hu.
  { apply rg_bind. eapply rg_mono; [|by apply ok_keepCarry]. intros ? g6 H6. by right. }
  apply orb_false_iff in Hu as [_ Hu]. destruct (isStateDataError err).
  - apply rg_bind. eapply rg_mono; [|apply (ok_salvage_loop _ t ctx [batch])]; [|unfold stack_cost; cbn; lia|repeat constructor; by destruct batch; [|cbn; lia]|cbn; by rewrite app_nil_r..].
    unfold salvaged. intros [serr|] g6 H6; [by right|]. apply IH. by apply own_locked.
  - apply rg_bind. eapply rg_mono; [|apply (ok_dropBatch t batch [] m_taken); [done|by rewrite app_nil_r]]. intros ? g6 H6. apply IH. by apply own_locked.
Qed.
Lemma ok_Flush loops t ctx g : own t [] m_free g → RG t (Flush cfg loops ctx) (λ r g, r = None ∨ own t [] m_free g) g.
Proof.
  intros Ho. unfold Flush. apply rg_bind. eapply rg_mono; [|by apply ok_lock]. intros ? g1 H1. apply rg_bind. eapply rg_mono; [|by apply ok_flush_loop].
  intros [err|] g2 [E|H2]; try done; [|by left|by left]. apply rg_bind. eapply rg_mono; [|by apply ok_unlock]. intros ? g3 H3. by right.
Qed.

(** ** The loop of the writer *)

Lemma ok_nextBackoff {X : Type} t prev l m g (k : Z → prog wcmd X) Q :
  own t l m g → (∀ b g', own t l m g' → RG t (k b) Q g') → RG t (prog_bind (nextBackoff prev) k) Q g.
Proof. intros Ho Hk. unfold nextBackoff. apply rg_bind, rg_bind, rg_read; [done|]. intros c g1 Hr. by eapply Hk, own_rely. Qed.

Lemma ok_shutdown loops flushes t backoff g :
  own t [] m_free g → RG t (shutdown_loop cfg loops flushes t backoff) (λ r g, r = None ∨ own t [] m_free g) g.
Proof.
  revert backoff g. induction loops as [|loops IH]; intros backoff g Ho; [by left|]. cbn [shutdown_loop]. apply rg_bind. eapply rg_mono; [|by apply ok_Flush].
  intros [err|] g1 [E|H1]; try done; [|by left|by left]. apply rg_bind. unfold Pending. apply rg_bind, rg_read; [done|]. intros q g2 R2. apply rg_bind, rg_read; [done|].
  intros c g3 R3. apply (own_rely _ _ _ _ _ R2), (own_rely _ _ _ _ _ R3) in H1. cbn [rg]. destruct (_ =? 0); [by right|]. apply (ok_nextBackoff t _ [] m_free); [done|].
  intros b g4 H4. cbv zeta. apply rg_bind, rg_read; [intros g5 fate; cbn; by repeat case_match|]. intros [e|] g5 R5; apply (own_rely _ _ _ _ _ R5) in H4; [by right|by apply IH].
Qed.
Lemma ok_run_loop loops flushes t backoff g : own t [] m_free g → RG t (run_loop cfg loops flushes t backoff) (λ _ _, True) g.
Proof.
  revert backoff g. induction loops as [|loops IH]; intros backoff g Ho; [done|]. cbn [run_loop]. apply rg_bind, (rg_signal t [] m_free); [|done|].
  { intros g1 fate. cbn. repeat case_match; simplify_eq/=; try by left. right. eexists. split; [done|]. by repeat split. }
  intros [|] g1 H1.
  - apply rg_bind. eapply rg_mono; [|by apply ok_shutdown]. intros [u|] g2 [E|H2]; try done. eapply (rg_signal t [] m_free); [|done|done].
    intros g3 fate. right. eexists. split; [done|]. repeat split; cbn; lia.
  - apply rg_bind. eapply rg_mono; [|by apply ok_Flush]. intros [err|] g2 [E|H2]; try done. apply (ok_nextBackoff t _ [] m_free); [done|]. intros b g3 H3. by apply IH.
Qed.
Lemma ok_job t j g : job_ok j → own t [] m_free g → RG t (job_prog cfg t j) (λ _ _, True) g.
Proof.
  intros Hj Ho. destruct j as [loops newID now timed c|loops changes|loops|loops flushes]; cbn in Hj; cbn [job_prog].
  - apply rg_bind. by eapply rg_mono; [|apply ok_enqueue; tauto].
  - by apply ok_report.
  - apply rg_bind. by eapply rg_mono; [|by apply ok_Flush].
  - unfold Run. apply rg_bind, (rg_signal t [] m_free); [|done|].
    + intros g1 fate. right. eexists. split; [done|]. by repeat split.
    + intros ? g1 H1. by apply ok_run_loop.
Qed.

(** ** Every interleaving *)

Lemma orphan_other {A : Type} t j (l : list (option nat * A)) : j ≠ t → filter (λ x, x.1 = Some j) (orphan t <$> l) = filter (λ x, x.1 = Some j) l.
Proof.
  intros Hne. induction l as [|[o a] l IH]; [done|]. cbn [fmap list_fmap]. destruct (decide (o = Some t)) as [Ho|Ho].
  - assert (orphan t (o, a) = (None, a)) as -> by (unfold orphan; by rewrite decide_True). rewrite !filter_cons_False; [exact IH|cbn; congruence|done].
  - assert (orphan t (o, a) = (o, a)) as -> by (unfold orphan; by rewrite decide_False). rewrite !filter_cons. case_decide; [f_equal|]; exact IH.
Qed.
Lemma orphan_self {A : Type} t (l : list (option nat * A)) : filter (λ x, x.1 = Some t) (orphan t <$> l) = [].
Proof. induction l as [|[o a] l IH]; [done|]. cbn [fmap list_fmap]. rewrite filter_cons_False; [exact IH|]. unfold orphan. cbn. by case_decide. Qed.
Lemma orphan_snd {A : Type} t (l : list (option nat * A)) : (orphan t <$> l).*2 = l.*2.
Proof. induction l as [|[o a] l IH]; [done|]. cbn. f_equal; [|exact IH]. unfold orphan. by case_decide. Qed.

Lemma halt_keeps t g : inv g → inv (halt t g) ∧ ∀ j, t ≠ j → rely j g (halt t g).
Proof.
  intros Hi. destruct (iv_counters _ Hi) as [C1 C2 C3 C4 C5]. destruct (iv_waiting _ Hi) as [W1 W2]. split.
  - assert (∀ w, w = o_w g ∨ w = set_mu (Some None) (o_w g) → inv {| o_w := w; o_db := o_db g; o_done := o_done g; o_offered := o_offered g; o_stored := o_stored g;
      o_lost := o_lost g; o_hands := orphan t <$> o_hands g; o_waiting := orphan t <$> o_waiting g |}) as Hw.
    { intros w [->| ->]; (split; cbn [o_w o_db o_done o_offered o_stored o_lost o_hands o_waiting]; try apply Hi; [intros c; rewrite orphan_snd; apply Hi|by split|]);
        (split; cbn [o_w o_waiting]; [by rewrite length_fmap|]); (intros o sp ([o' sp'] & E & Hin)%list_elem_of_fmap; assert (sp = sp') as -> by (unfold orphan in E; by case_decide; simplify_eq/=); by apply (W2 o')). }
    unfold halt. case_decide; apply Hw; tauto.
  - intros j Hne. split; [unfold hand; cbn; by rewrite orphan_other|unfold waits; cbn; by rewrite orphan_other| |done].
    unfold holds, halt. cbn. intros Hj. rewrite decide_False by congruence. done.
Qed.
Lemma halt_own t g : own t [] m_free (halt t g).
Proof. split_and!; [unfold hand; cbn; by rewrite orphan_self|unfold waits; cbn; by rewrite orphan_self|done]. Qed.
Lemma outside_keeps g g' : outside g g' → inv g → inv g' ∧ ∀ t, rely t g g'.
Proof.
  intros [ctx err g1 Hc|db g1 Hdb] Hi; destruct (iv_counters _ Hi) as [C1 C2 C3 C4 C5]; destruct (iv_waiting _ Hi) as [W1 W2]; (split; [|intros t; by split]);
    split; cbn [on_db o_w o_db o_done o_offered o_stored o_lost o_hands o_waiting]; try apply Hi; try by split.
  intros c Hs Hid. apply Hdb. by apply (iv_stored _ Hi).
Qed.
End correct.

(** The runs of the writer: the goroutines do [jobs], from an empty queue. *)
Abbreviation writer_reach cfg jobs := (par_reach (exec_writer cfg) (λ t, job_prog cfg t (jobs t)) outside halt halt).

Lemma writer_inv cfg jobs db g P : (∀ t, job_ok (jobs t)) → writer_reach cfg jobs (new_world db) (g, P) → inv cfg g.
Proof.
  intros Hj Hrun. change g with (g, P).1. eapply (par_inv (exec_writer cfg) (inv cfg) rely guar (λ t, job_prog cfg t (jobs t)) outside halt halt); [..|exact Hrun].
  - apply writer_rely_trans.
  - apply writer_rely_refl.
  - intros t j g1 g2 Hne Hg. by apply Hg.
  - intros g1 g2 Ho Hi. by apply outside_keeps.
  - intros t g1 Hi. by apply halt_keeps.
  - intros t g1 Hi. by apply halt_keeps.
  - intros t g1 Hi. apply ok_job; [apply Hj|apply halt_own].
  - split; [split; apply Nat.le_0_l|done|split; constructor|apply Z.le_max_l|by split|constructor|by intros ? ?%elem_of_nil|constructor|]. split; [done|]. by intros ? ? ?%elem_of_nil.
Qed.


(** ** A flush on its own

    The database is available and rejects exactly the transactions that contain a bad
    change, with a data error. *)
Section alone.
Variables (cfg : Config) (t : nat) (bad : StateChange → bool) (e : goError) (ids : nat → string) (now : Z).
Hypothesis e_data : isStateDataError e = true.
Hypothesis e_available : isStateDBUnavailable e = false.
Hypothesis e_partition : isMissingPartition e = false.

Definition answer (X : Type) (c : wcmd X) : Fate :=
  {| ft_select := sel_deadline; ft_timer := true; ft_lookup := None;
     ft_tx := match c with x_tx changes => if existsb bad changes then tx_failed e else tx_ok | _ => tx_ok end; ft_ids := ids; ft_now := now |}.
Definition exec_alone (X : Type) (c : wcmd X) (g : World) : option X * World := exec_writer cfg t X (answer X c) c g.

Definition good (c : StateChange) : bool := negb (bad c).
Definition known (c : StateChange) : Prop := sc_SubjectID c ≠ "".
Definition rejects (l : list StateChange) : list (StateChange * Loss) := (λ c, (c, loss_rejected e)) <$> filter bad l.

(** The changes [done_] left the hands of the goroutine, which has [l] in hand. *)
Record after (l done_ : list StateChange) (g g' : World) : Prop := {
  af_hand : hand t g' = l;
  af_stored : o_stored g' = o_stored g ++ filter good done_;
  af_lost : o_lost g' = o_lost g ++ rejects done_;
  af_done : o_done g' = o_done g;
  af_queues : (w_lifecycle (o_w g'), w_events (o_w g')) = (w_lifecycle (o_w g), w_events (o_w g));
  af_carry : (w_carry (o_w g'), w_flushMu (o_w g')) = (w_carry (o_w g), w_flushMu (o_w g));
}.
Lemma after_refl g : after (hand t g) [] g g.
Proof. split; [done|by rewrite app_nil_r..|done|done|done]. Qed.
Lemma after_trans l1 l2 d1 d2 g1 g2 g3 : after l1 d1 g1 g2 → after l2 d2 g2 g3 → after l2 (d1 ++ d2) g1 g3.
Proof.
  intros [A1 A2 A3 A4 A5 A6] [B1 B2 B3 B4 B5 B6]. split; [done| | |congruence|congruence|congruence].
  - by rewrite B2, A2, filter_app, app_assoc.
  - unfold rejects in *. by rewrite B3, A3, filter_app, fmap_app, app_assoc.
Qed.

Lemma bad_none l : existsb bad l = false → filter good l = l ∧ filter bad l = [].
Proof.
  induction l as [|c l IH]; [done|]. cbn [existsb]. intros [Hc Hl]%orb_false_iff. destruct (IH Hl) as [E1 E2]. unfold good in *. rewrite !filter_cons, Hc. cbn.
  by rewrite E1, E2.
Qed.
Lemma bad_one c : bad c = true → filter good [c] = [] ∧ filter bad [c] = [c].
Proof. intros Hc. unfold good. rewrite !filter_cons, Hc. done. Qed.

Lemma missing_none batch : Forall known batch → missing batch = [].
Proof.
  intros Hk. induction Hk as [|c batch Hc Hk IH]; [done|]. unfold missing in *. rewrite filter_cons_False; [exact IH|]. intros [? _]. by apply Hc.
Qed.
Lemma eval_writeOnce batch rest g :
  Forall known batch → hand t g = batch ++ rest →
  ∃ g', eval exec_alone (writeOnce batch) g = (Some (if existsb bad batch then Some e else None), g') ∧
    if existsb bad batch then g' = g else after rest batch g g'.
Proof.
  intros Hk Hh. unfold writeOnce, writeBatch, resolveSubjects. rewrite missing_none by done. cbn -[write_tx]. destruct (existsb bad batch) eqn:Hb; [by exists g|].
  eexists. split; [done|]. destruct (bad_none _ Hb) as [E1 E2]. unfold on_written, hand in *. cbn [on_db o_hands o_w]. rewrite Hh.
  split; [cbn; by rewrite hand_give, drop_app_length|cbn; by rewrite take_app_length, E1|cbn; unfold rejects; by rewrite E2, app_nil_r|done|done|done].
Qed.
Lemma eval_dropBatch c rest g :
  bad c = true → hand t g = c :: rest → ∃ g', exec_alone _ (x_dropBatch 1 e) g = (Some tt, g') ∧ after rest [c] g g'.
Proof.
  intros Hb Hh. destruct (bad_one _ Hb) as [E1 E2]. exists (on_lost t 1 0 (loss_rejected e) g). split; [done|].
  assert (hand t (on_lost t 1 0 (loss_rejected e) g) = drop 1 (hand t g)) as Hd by apply hand_give. split; [by rewrite Hd, Hh| | |done|done|done].
  - by rewrite E1, app_nil_r.
  - unfold rejects. rewrite E2. cbn [on_lost o_lost]. by rewrite Hh.
Qed.

Lemma eval_salvage fuel ctx stack g :
  (stack_cost stack ≤ fuel)%nat → Forall (λ part, 0 < length part)%nat stack → Forall known (concat stack) → hand t g = concat stack → o_done g !! ctx = None →
  ∃ g', eval exec_alone (salvage_loop fuel ctx stack) g = (Some None, g') ∧ after [] (concat stack) g g'.
Proof.
  revert stack g. induction fuel as [|fuel IH]; intros [|part stack] g Hf Hl Hk Hh Hd.
  - exists g. split; [done|]. pose proof (after_refl g) as H. by rewrite Hh in H.
  - rewrite stack_cost_cons in Hf. apply Forall_cons in Hl as [? _]. lia.
  - exists g. split; [done|]. pose proof (after_refl g) as H. by rewrite Hh in H.
  - rewrite stack_cost_cons in Hf. apply Forall_cons in Hl as [Hp Hl]. cbn [concat] in Hk, Hh |- *. pose proof Hk as [Hk1 Hk2]%Forall_app. cbn [salvage_loop].
    destruct (Nat.ltb_spec 1 (length part)) as [H1|H1]; cbv zeta.
    + destruct (half_length part H1) as (A1 & A2 & A3). set (mid := (length part / 2)%nat) in *. pose proof (take_drop mid part) as Hsplit.
      rewrite eval_bind, eval_call. cbn [exec_alone exec_writer]. rewrite Hd, eval_bind.
      destruct (eval_writeOnce (take mid part) (drop mid part ++ concat stack) g) as (g1 & -> & Hg1); [by apply Forall_take|by rewrite app_assoc, Hsplit|].
      destruct (existsb bad (take mid part)).
      * subst g1. rewrite e_available. destruct (IH (take mid part :: drop mid part :: stack) g) as (g2 & E2 & Hg2); cbn [concat];
          [rewrite !stack_cost_cons; lia|by repeat constructor|by rewrite app_assoc, Hsplit|by rewrite app_assoc, Hsplit|done|].
        exists g2. split; [done|]. cbn [concat] in Hg2. by rewrite app_assoc, Hsplit in Hg2.
      * destruct (IH (drop mid part :: stack) g1) as (g2 & E2 & Hg2); cbn [concat];
          [rewrite stack_cost_cons; lia|by constructor|apply Forall_app; split; [by apply Forall_drop|done]|apply Hg1|by rewrite (af_done _ _ _ _ Hg1)|].
        exists g2. split; [done|]. cbn [concat] in Hg2. rewrite <- Hsplit, <- app_assoc. by eapply after_trans.
    + assert (∃ c, part = [c]) as [c ->] by (destruct part as [|c [|]]; cbn in *; [lia|by exists c|lia]). rewrite eval_bind.
      destruct (eval_writeOnce [c] (concat stack) g) as (g1 & -> & Hg1); [done|done|]. destruct (existsb bad [c]) eqn:Hb.
      * subst g1. rewrite e_available. cbn in Hb. rewrite orb_false_r in Hb. destruct (eval_dropBatch c (concat stack) g) as (g1 & E1 & Hg1); [done|done|].
        rewrite eval_bind, eval_call. change (length [c]) with 1%nat. rewrite E1. destruct (IH stack g1) as (g2 & E2 & Hg2); [lia|done|done|apply Hg1|by rewrite (af_done _ _ _ _ Hg1)|].
        exists g2. split; [done|]. by eapply after_trans.
      * destruct (IH stack g1) as (g2 & E2 & Hg2); [lia|done|done|apply Hg1|by rewrite (af_done _ _ _ _ Hg1)|]. exists g2. split; [done|]. by eapply after_trans.
Qed.

(** What a drain takes, as a list. *)
Lemma drain_list w : fifo_wf (w_lifecycle w) → fifo_wf (w_events w) → 0 < cf_batchSize cfg → let '(batch, w') := drain cfg w in
  fifo_wf (w_lifecycle w') ∧ fifo_wf (w_events w') ∧ batch ++ contents (w_lifecycle w') ++ contents (w_events w') = contents (w_lifecycle w) ++ contents (w_events w) ∧
  (batch = [] → contents (w_lifecycle w) ++ contents (w_events w) = []) ∧ (w_carry w', w_flushMu w') = (w_carry w, w_flushMu w).
Proof.
  intros W1 W2 Hb. unfold drain. rewrite !fifo_len_contents by done. set (n := Z.to_nat _). destruct (Nat.eqb_spec n 0) as [Hn|Hn].
  { assert (contents (w_lifecycle w) ++ contents (w_events w) = []) as E by (apply length_zero_iff_nil; rewrite length_app; lia). by split_and!. }
  pose proof (pop_up_to_contents n _ W1) as H1. destruct (pop_up_to n (w_lifecycle w)) as [b1 q1]. destruct H1 as (Wq1 & E1 & C1).
  pose proof (pop_up_to_contents (n - length b1) _ W2) as H2. destruct (pop_up_to (n - length b1) (w_events w)) as [b2 q2]. destruct H2 as (Wq2 & E2 & C2).
  assert ((b1 ++ b2) ++ contents q1 ++ contents q2 = contents (w_lifecycle w) ++ contents (w_events w)) as Hall.
  { rewrite C1, C2. assert (length b1 = Nat.min n (length (contents (w_lifecycle w)))) as Hl by (by rewrite E1, length_take).
    destruct (decide (length (contents (w_lifecycle w)) ≤ n)%nat) as [Hle|Hgt].
    - rewrite E2, (drop_ge (contents (w_lifecycle w))) by done. cbn. rewrite E1, take_ge, <- app_assoc, take_drop by done. done.
    - assert (n - length b1 = 0)%nat as Hz by lia. rewrite E2, Hz. cbn. rewrite app_nil_r, app_assoc, E1, take_drop. done. }
  assert (b1 ++ b2 = [] → contents (w_lifecycle w) ++ contents (w_events w) = []) as Hnil.
  { intros [-> ->]%app_eq_nil. cbn in E2. rewrite Nat.sub_0_r in E2. symmetry in E1, E2. apply (f_equal length) in E1, E2. rewrite length_take in E1, E2. cbn in E1, E2.
    apply length_zero_iff_nil. rewrite length_app. lia. }
  cbn [set_queues w_waiters]. destruct (0 <? w_waiters w); by split_and!.
Qed.

Hypothesis batch_pos : 0 < cf_batchSize cfg.
Hypothesis attempts_pos : (0 < cf_maxAttempts cfg)%nat.

Lemma eval_retry ctx batch g :
  Forall known batch → hand t g = batch → o_done g !! ctx = None →
  ∃ g', eval exec_alone (writeWithRetry cfg ctx batch) g = (Some (if existsb bad batch then Some e else None), g') ∧
    if existsb bad batch then g' = g else after [] batch g g'.
Proof.
  intros Hk Hh Hd. unfold writeWithRetry. destruct (cf_maxAttempts cfg) as [|n]; [lia|]. cbn [retry_loop]. rewrite eval_bind, eval_call. cbn [exec_alone exec_writer]. rewrite Hd, eval_bind.
  destruct (eval_writeOnce batch [] g) as (g1 & -> & Hg1); [done|by rewrite app_nil_r|]. exists g1. destruct (existsb bad batch); [|done]. rewrite e_data, e_partition, orb_true_r. done.
Qed.

(** All that was queued is written, or rejected. *)
Record flushed (q : list StateChange) (g g' : World) : Prop := {
  fl_hand : hand t g' = [];
  fl_stored : o_stored g' = o_stored g ++ filter good q;
  fl_lost : o_lost g' = o_lost g ++ rejects q;
  fl_empty : contents (w_lifecycle (o_w g')) = [] ∧ contents (w_events (o_w g')) = [] ∧ w_carry (o_w g') = [];
}.
Definition queue (w : Writer) : list StateChange := w_carry w ++ contents (w_lifecycle w) ++ contents (w_events w).
Definition first_error (firstErr : option goError) (q : list StateChange) : option goError :=
  match firstErr with Some x => Some x | None => if existsb bad q then Some e else None end.

Lemma eval_salvage_batch ctx batch g :
  Forall known batch → hand t g = batch → batch ≠ [] → o_done g !! ctx = None → ∃ g', eval exec_alone (salvage ctx batch) g = (Some None, g') ∧ after [] batch g g'.
Proof.
  intros Hk Hh Hb Hd. destruct (eval_salvage (2 * length batch) ctx [batch] g) as (g2 & E2 & Hg2);
    [unfold stack_cost; cbn; lia|repeat constructor; destruct batch; [done|cbn; lia]|cbn; by rewrite app_nil_r..|done|].
  exists g2. split; [done|]. cbn in Hg2. by rewrite app_nil_r in Hg2.
Qed.

Lemma flushed_after batch q g0 g1 g2 g3 :
  (o_stored g1, o_lost g1) = (o_stored g0, o_lost g0) → after [] batch g1 g2 → flushed q g2 g3 → flushed (batch ++ q) g0 g3.
Proof.
  intros [= E1 E2] [A1 A2 A3 _ _ _] [B1 B2 B3 B4]. split; [done| | |done].
  - by rewrite B2, A2, E1, filter_app, app_assoc.
  - unfold rejects in *. by rewrite B3, A3, E2, filter_app, fmap_app, app_assoc.
Qed.
Lemma first_error_app firstErr l q : first_error (if existsb bad l then first firstErr e else firstErr) q = first_error firstErr (l ++ q).
Proof. unfold first_error. rewrite existsb_app. destruct (existsb bad l), firstErr; done. Qed.

(** The next batch is in hand. *)
Record taken (batch : list StateChange) (g g' : World) : Prop := {
  tk_same : (o_stored g', o_lost g', o_done g') = (o_stored g, o_lost g, o_done g);
  tk_hand : hand t g' = batch;
  tk_wf : fifo_wf (w_lifecycle (o_w g')) ∧ fifo_wf (w_events (o_w g'));
  tk_carry : w_carry (o_w g') = [];
  tk_queue : batch ++ queue (o_w g') = queue (o_w g);
  tk_empty : batch = [] → queue (o_w g) = [];
}.
Lemma eval_take g :
  fifo_wf (w_lifecycle (o_w g)) → fifo_wf (w_events (o_w g)) →
  ∃ batch g', taken batch g g' ∧
    eval exec_alone (carry <- call x_takeCarry ;; if bool_decide (carry = []) then call x_drain else Ret carry) g = (Some batch, g').
Proof.
  intros W1 W2. rewrite eval_bind, eval_call. cbn [exec_alone exec_writer]. set (g1 := on_hand _ _ _ _). case_bool_decide as Hc.
  - pose proof (drain_list (o_w g1) W1 W2 batch_pos) as Hdr. destruct (drain cfg (o_w g1)) as [batch w] eqn:E. destruct Hdr as (D1 & D2 & D3 & D4 & [= D5 D6]).
    exists batch, (on_hand t batch w g1). split; [|rewrite eval_call; unfold exec_alone; cbn [exec_writer]; by rewrite E].
    split; [done|apply hand_give|done|done| |]; unfold queue; cbn [on_hand o_w]; rewrite ?D5, Hc; [exact D3|exact D4].
  - exists (w_carry (o_w g)), g1. split; [|done]. split; [done|apply hand_give|done|done|done|]. intros E. by rewrite E in Hc.
Qed.

Lemma eval_flush_loop loops ctx firstErr g :
  fifo_wf (w_lifecycle (o_w g)) → fifo_wf (w_events (o_w g)) → o_done g !! ctx = None → Forall known (queue (o_w g)) → (length (queue (o_w g)) < loops)%nat →
  ∃ g', eval exec_alone (flush_loop cfg loops ctx firstErr) g = (Some (Some (first_error firstErr (queue (o_w g)))), g') ∧ flushed (queue (o_w g)) g g'.
Proof.
  revert firstErr g. induction loops as [|loops IH]; intros firstErr g W1 W2 Hd Hk Hl; [lia|]. cbn [flush_loop]. rewrite eval_bind, eval_call. unfold exec_alone at 1. cbn [exec_writer]. rewrite Hd.
  destruct (eval_take g W1 W2) as (batch & g2 & [[= S1 S2 S3] Hh2 [V1 V2] Hc2 Hq Hnil] & E2). rewrite eval_bind in E2 |- *.
  destruct (eval exec_alone (call x_takeCarry) g) as [[carry|] g1]; [|done]. rewrite eval_bind, E2. clear E2. case_bool_decide as Hb.
  { pose proof (Hnil Hb) as Hz. rewrite Hz. exists g2. split; [destruct firstErr; done|]. rewrite Hb, Hz in Hq. unfold queue in Hq. cbn in Hq. apply app_eq_nil in Hq as [_ [? ?]%app_eq_nil].
    split; [by rewrite Hh2|by rewrite S1, app_nil_r|rewrite S2; unfold rejects; by rewrite app_nil_r|done]. }
  rewrite <- Hq in Hk, Hl |- *. apply Forall_app in Hk as [Hk1 Hk2]. rewrite length_app in Hl. assert (0 < length batch)%nat by (destruct batch; [done|cbn; lia]).
  assert (∀ firstErr' g3, after [] batch g2 g3 → first_error firstErr' (queue (o_w g2)) = first_error firstErr (batch ++ queue (o_w g2)) →
    ∃ g', eval exec_alone (flush_loop cfg loops ctx firstErr') g3 = (Some (Some (first_error firstErr (batch ++ queue (o_w g2)))), g') ∧ flushed (batch ++ queue (o_w g2)) g g') as Hgo.
  { intros firstErr' g3 H3 Hf. pose proof H3 as [_ _ _ A4 [= A5 A6] [= A7 A8]]. assert (queue (o_w g3) = queue (o_w g2)) as Eq by (unfold queue; congruence).
    destruct (IH firstErr' g3) as (g' & E' & H'); [congruence|congruence|congruence|by rewrite Eq|rewrite Eq; lia|]. exists g'. rewrite Eq in E', H'. rewrite E', Hf. split; [done|].
    eapply flushed_after; [|done|done]. congruence. }
  rewrite eval_bind. destruct (eval_retry ctx batch g2) as (g3 & -> & H3); [done|done|congruence|]. pose proof (first_error_app firstErr batch (queue (o_w g2))) as Hf.
  destruct (existsb bad batch) eqn:Hbad; [|by apply Hgo]. subst g3. rewrite eval_bind, eval_call. unfold exec_alone at 1. cbn [exec_writer]. rewrite S3, Hd, bool_decide_eq_false_2, e_available, e_data by tauto.
  cbn [orb]. rewrite eval_bind. destruct (eval_salvage_batch ctx batch g2) as (g3 & -> & H3); [done|done|done|congruence|]. by apply Hgo.
Qed.
End alone.

(** C27: when nobody else is active and the database is available, and rejects, with a data
    error, exactly the transactions that contain a bad change, a flush ends with an empty
    queue: it has written all good changes, in the order of the queue, and dropped the bad
    ones alone, however they are mixed into batches.  It returns an error exactly when there
    was a bad change. *)
Theorem flush_isolates cfg t bad e ids now loops ctx g :
  isStateDataError e = true → isStateDBUnavailable e = false → isMissingPartition e = false →
  0 < cf_batchSize cfg → (0 < cf_maxAttempts cfg)%nat →
  fifo_wf (w_lifecycle (o_w g)) → fifo_wf (w_events (o_w g)) → w_flushMu (o_w g) = None → o_done g !! ctx = None →
  Forall known (queue (o_w g)) → (length (queue (o_w g)) < loops)%nat →
  ∃ g', eval (exec_alone cfg t bad e ids now) (Flush cfg loops ctx) g =
          (Some (Some (if existsb bad (queue (o_w g)) then Some e else None)), g') ∧
    queue (o_w g') = [] ∧ w_flushMu (o_w g') = None ∧
    o_stored g' = o_stored g ++ filter (λ c, bad c = false) (queue (o_w g)) ∧
    o_lost g' = o_lost g ++ ((λ c, (c, loss_rejected e)) <$> filter (λ c, bad c = true) (queue (o_w g))).
Proof.
  intros H1 H2 H3 H4 H5 W1 W2 Hm Hd Hk Hl. unfold Flush. rewrite eval_bind, eval_call. unfold exec_alone at 1. cbn [exec_writer]. rewrite Hm, eval_bind.
  destruct (eval_flush_loop cfg t bad e ids now H1 H2 H3 H4 H5 loops ctx None (on_writer (set_mu (Some (Some t)) (o_w g)) g)) as (g' & -> & [F1 F2 F3 (F4 & F5 & F6)]); [done..|].
  eexists. split; [done|]. cbn [on_writer set_mu o_w w_flushMu o_stored o_lost]. unfold queue at 1. cbn [w_carry w_lifecycle w_events set_mu]. rewrite F4, F5, F6, F2, F3.
  split_and!; [done|done|f_equal|unfold rejects; f_equal; f_equal].
  - apply list_filter_iff. intros c. unfold good. destruct (bad c); done.
  - apply list_filter_iff. intros c. by destruct (bad c).
Qed.

(** ** Demonstrations *)

Definition demo_config : Config := {| cf_capacity := 2; cf_batchSize := 2; cf_maxAttempts := 5 |}.
Definition demo_jobs (t : nat) : Job :=
  match t with 0%nat => job_enqueue 1 "sev_a" 1 true ex_active | 1%nat => job_enqueue 1 "sev_b" 1 true ex_expired | _ => job_flush 5 end.
Lemma demo_jobs_ok t : job_ok (demo_jobs t).
Proof. destruct t as [|[|t]]; done. Qed.

Definition pg_error (code : string) : goError :=
  {| ge_pg := Some {| pe_Code := bs code; pe_ConstraintName := []; pe_Message := [] |}; ge_connection := false; ge_text := [] |}.
Definition demo_fate (tx : TxFate) : Fate := {| ft_select := sel_deadline; ft_timer := true; ft_lookup := None; ft_tx := tx; ft_ids := ex_ids; ft_now := 1 |}.
Definition fates_ok (n : nat) : list Fate := replicate n (demo_fate tx_ok).

Abbreviation writer_pool := (World * (nat → option (prog wcmd unit)))%type.
Definition demo_start (t : nat) (s : writer_pool) : writer_pool := (halt t s.1, set_at t (Some (job_prog demo_config t (demo_jobs t))) s.2).
Definition demo_calls (t : nat) (fates : list Fate) (s : writer_pool) : writer_pool := par_run (exec_writer demo_config) t fates s.
Abbreviation demo_reach := (writer_reach demo_config demo_jobs (new_world ex_tables)).

Lemma demo_start_reach t s : s.2 t = None → demo_reach s → demo_reach (demo_start t s).
Proof.
  intros Hn Hs. destruct s as [g P]. eapply par_next; [exact Hs|].
  exact (par_born (exec_writer demo_config) (λ t, job_prog demo_config t (demo_jobs t)) outside halt halt t g P Hn).
Qed.
Lemma demo_calls_reach t fates s : demo_reach s → demo_reach (demo_calls t fates s).
Proof. apply par_run_reach. Qed.

(** Two changes are queued, and one flush writes both. *)
Definition demo_queued : writer_pool := demo_calls 1 (fates_ok 2) (demo_start 1 (demo_calls 0 (fates_ok 2) (demo_start 0 (new_world ex_tables, λ _, None)))).
Definition demo_flushed : writer_pool := demo_calls 2 (fates_ok 12) (demo_start 2 demo_queued).
Lemma demo_queued_reach : demo_reach demo_queued.
Proof. apply demo_calls_reach, demo_start_reach; [vm_compute; reflexivity|]. apply demo_calls_reach, demo_start_reach; [vm_compute; reflexivity|]. apply par_start. Qed.


(** The database rejects the expiry. *)
Definition demo_bad (c : StateChange) : bool := String.eqb (sc_ToState c) "expired".
Lemma flush_isolates_witness :
  queue (o_w demo_queued.1) = [ex_active; ex_expired] ∧
  ∃ g', eval (exec_alone demo_config 2 demo_bad (pg_error "22003") ex_ids 1) (Flush demo_config 5 (2%nat, false)) demo_queued.1 =
          (Some (Some (if existsb demo_bad (queue (o_w demo_queued.1)) then Some (pg_error "22003") else None)), g') ∧
    queue (o_w g') = [] ∧ w_flushMu (o_w g') = None ∧
    o_stored g' = o_stored demo_queued.1 ++ filter (λ c, demo_bad c = false) (queue (o_w demo_queued.1)) ∧
    o_lost g' = o_lost demo_queued.1 ++ ((λ c, (c, loss_rejected (pg_error "22003"))) <$> filter (λ c, demo_bad c = true) (queue (o_w demo_queued.1))).
Proof.
  split; [vm_compute; reflexivity|].
  apply (flush_isolates demo_config 2 demo_bad (pg_error "22003") ex_ids 1 5 (2%nat, false) demo_queued.1); [vm_compute; reflexivity..|vm_compute; lia|vm_compute; lia|vm_compute; lia|vm_compute; reflexivity|vm_compute; reflexivity| |vm_compute; lia].
  assert (queue (o_w demo_queued.1) = [ex_active; ex_expired]) as -> by (vm_compute; reflexivity). repeat constructor; discriminate.
Defined.

(** While a rejected batch is split, an error that is neither an outage nor a data error is
    not retried: the activation is dropped for a conflict of two transactions, which the
    first attempts of a batch would have retried. *)
Definition demo_conflict : list Fate :=
  fates_ok 5 ++ [demo_fate (tx_failed (pg_error "22003"))] ++ fates_ok 2 ++ replicate 2 (demo_fate (tx_failed (pg_error "40001"))) ++ fates_ok 1 ++
  [demo_fate (tx_failed (pg_error "22003"))] ++ fates_ok 6.
Definition demo_dropped : writer_pool := demo_calls 2 demo_conflict (demo_start 2 demo_queued).
Example conflict_drops_change :
  demo_reach demo_dropped ∧ o_lost demo_dropped.1 = [(ex_active, loss_rejected (pg_error "40001")); (ex_expired, loss_rejected (pg_error "22003"))] ∧
  isLifecycleChange ex_active = true ∧ isStateDataError (pg_error "40001") = false ∧ isStateDBUnavailable (pg_error "40001") = false.
Proof.
  split; [|by vm_compute]. apply demo_calls_reach, demo_start_reach; [vm_compute; reflexivity|]. apply demo_queued_reach.
Qed.
